(* ===== verification/_CoqProject ===== *)
-Q . S2P
Prelude.v
Bits.v
NativeInt.v
NativeIntProps.v
NativeVector.v
Ntt.v
NttProps.v
FttProps.v
Lwe.v
LweProps.v
NbTheory.v
NbPoly.v
NbTheoryProps.v
NbRootProps.v
AutoProps.v
NbPolyProps.v
BigInt.v
BigDiv.v
BigIntProps.v
BigShiftProps.v
BigDivProps.v
BigModProps.v
BigArithProps.v
BigStringProps.v
Integer.v
BigRefine.v
BigVector.v
BigVectorProps.v
Vector.v
BigNtt.v
BigNttProps.v
BigFttProps.v
Poly.v
PolyProps.v
PolyAutoProps.v
PolyDigitProps.v
PolyRing.v
PolyAlg.v
Rgsw.v
RgswDigits.v
RgswRing.v
RgswKeys.v
RgswAcc.v
RgswEval.v
RgswKeyGen.v
RgswTables.v
Double.v
LweSwitch.v
StdLattice.v
BinFHE.v
BinExtract.v
BinRotation.v
RgswProps.v
BinBoot.v
BinGate.v
BinScheme.v
BinFunc.v
BinEval.v
BinFloor.v
BinSign.v
BinProps.v
BinWitness.v
BinContext.v
ContextProps.v
ContextWitness.v
Dcrt.v
DcrtTowers.v
Crt.v
DcrtProps.v
DcrtInterp.v
DcrtScale.v
DcrtBasis.v
DcrtRing.v
Rns.v
RnsProps.v
KeySwitch.v
KeyTables.v
KeyKeys.v
KeyPhase.v
KeyProps.v
