(* ===== verification/Prelude.v ===== *)
(** * OpenFHE: a verification of the arithmetic core and of the Boolean scheme

    This library models the part of OpenFHE on which every scheme rests: native
    modular integers and vectors, multiprecision integers, the number-theoretic
    transforms, the number theory that chooses primes and roots of unity, the
    ring elements built on them, and the double-CRT polynomials on which the
    public-key schemes compute, with the modulus reduction and the hybrid key
    switching of their ciphertexts; and the whole Boolean scheme binfhe on top of
    it: LWE encryption, RingGSW accumulators, gates, functional bootstrapping and
    the context that users call. Paths below are relative to src/.

    ** The parts of the program and the files that model them

    - [Prelude] (this file): outcomes of C++ code, counted loops, checked and
      unchecked accesses to vectors, congruences, finite sums, and the lemmas and
      hints every file uses.
    - [Bits]: inline helpers of core/include/math/nbtheory.h (bit reversal, most
      significant bit), core/include/utils/utilities.h and utilities-int.h
      (power-of-two test, carries, reduction of 128-bit numbers).
    - [NativeInt]: the class [NativeIntegerT] of
      core/include/math/hal/intnat/ubintnat.h, one definition per method. The
      class [NativeWidth] is the width of the word, 32 or 64 bits; a value is a
      [Z] reduced modulo [2 ^ wbits]. [NativeIntProps]: its theorems.
    - [NativeVector]: the class [NativeVectorT] of
      core/include/math/hal/intnat/mubintvecnat.h and
      core/lib/math/hal/intnat/mubintvecnat.cpp, a record of the entries and the
      modulus, with its theorems.
    - [Ntt]: core/include/math/hal/intnat/transformnat-impl.h: the butterflies,
      the stages, the eight bit-reversed transforms, the iterative transforms and
      the table cache of [ChineseRemainderTransformFTT], a record of finite maps
      keyed by the modulus, threaded through the operations. [NttProps]: the
      stages against a recursive evaluation, round trips and convolution.
      [FttProps]: the tables, the cache and the transforms that use it.
    - [NbTheory] and [NbPoly]: core/lib/math/nbtheory.cpp and nbtheory2.cpp.
      [NbTheoryProps] (divisors, random numbers, Miller-Rabin, prime searches),
      [NbRootProps] (generators and roots of unity), [AutoProps] (automorphism
      indices and maps), [NbPolyProps] (polynomials): their theorems.
    - [Lwe]: binfhe/lib/lwe-pke.cpp, binfhe/include/lwe-ciphertext.h,
      binfhe/include/lwe-cryptoparameters.h and [EvalNOT] of
      binfhe/lib/binfhe-base-scheme.cpp. [LweProps]: their theorems.
    - [BigInt] and [BigDiv]: the class [ubint] of
      core/include/math/hal/bigintdyn/ubintdyn.h and
      core/lib/math/hal/bigintdyn/ubintdyn.cpp with limbs of 32 bits: an object
      is a record of its limbs, the position of its top bit and its state.
      [BigInt] has constructors, comparison, sums, products, powers, shifts and
      bits; [BigDiv] has Knuth's division, the modular operations, inverses,
      powers and strings. The overloads with a Barrett parameter are the branch
      that is compiled (NO_BARRETT is defined in the source); the other branch is
      modelled beside it and shown to agree. Their lemmas are in [BigIntProps]
      (invariant, sums, products), [BigShiftProps], [BigDivProps] (algorithm D),
      [BigModProps], [BigArithProps] (Barrett, inverse, power) and
      [BigStringProps]; their properties are in [BigRefine].
    - [Integer]: the template [BigIntegerInterface] of
      core/include/math/hal/integer.h as a class of operations, the laws an
      implementation satisfies as a second class, the native and the
      multiprecision instances, and the template [GreatestCommonDivisor] proved
      against the laws.
    - [BigVector]: the class [mubintvec] of
      core/include/math/hal/bigintdyn/mubintvecdyn.h and
      core/lib/math/hal/bigintdyn/mubintvecdyn.cpp, a record of the entries, the
      modulus and whether it was set; [BigVectorProps]: its theorems. [Vector]: the
      vector interface of core/include/math/hal/vector.h as a class, its laws as a
      second class, and both vector classes as instances.
    - [BigNtt]: core/include/math/hal/bigintdyn/transformdyn-impl.h, the
      transforms of multiprecision vectors and their table cache; the loops are
      those of [Ntt]. [BigNttProps]: the butterflies and stages; [BigFttProps]:
      the cache and the products of polynomials.
    - [Poly]: the class [PolyImpl] of core/lib/lattice/poly.cpp and
      core/include/lattice/poly.h over native vectors, with the parameters of
      core/include/lattice/elemparams.h and ilparams.h: a record of the values
      behind a pointer that may be null, the representation and the parameters.
      [PolyProps]: what a ring element denotes, the change of representation and
      the arithmetic; [PolyAutoProps]: automorphisms; [PolyDigitProps]: digits and
      powers of the base; [PolyRing]: the properties; [PolyAlg]: the algebra of
      the quotient ring (monomials, sums, bounds on coefficients) that the
      accumulators need.
    - [Double]: binary64 arithmetic (the operations of the Standard Library's
      [SpecFloat]) with an error bound for scaling and rounding. [LweSwitch]:
      [RoundqQ] and [ModSwitch] of binfhe/lib/lwe-pke.cpp.
    - [Rgsw]: binfhe/lib/rgsw-cryptoparameters.cpp, rgsw-acc.cpp, rgsw-acc-dm.cpp,
      rgsw-acc-cggi.cpp and their headers: the parameters and their tables, the
      keys, the signed digits and both accumulators, a record of methods.
      [RgswDigits] (digits), [RgswRing] (the ring elements as values), [RgswKeys]
      (encryptions and their noise), [RgswAcc] (external products), [RgswEval]
      (accumulation), [RgswKeyGen] (keys), [RgswTables] (tables): their lemmas;
      [RgswProps]: the properties.
    - [StdLattice]: core/lib/lattice/stdlatticeparms.cpp and its header, the
      standard table of ring dimensions and moduli, with its properties.
    - [BinFHE]: binfhe/lib/binfhe-base-scheme.cpp: key generation, gates,
      bootstrapping, functions given by tables, flooring, sign and digits.
      [BinRotation]: the class [BlindRotation], what the scheme relies on of an
      accumulator, with an instance for each one; the proofs about the scheme use
      only this class. [BinExtract] (the constant term of the accumulator and its
      transposition), [BinBoot] (tables, rotation and the way back to the LWE
      modulus), [BinGate] and [BinScheme] (gates, keys, the
      whole path of a gate), [BinFunc], [BinEval], [BinFloor] and [BinSign]
      (functions): lemmas; [BinProps]: properties; [BinWitness]: an instance of
      dimension 1024 with a 27-bit prime.
    - [BinContext]: binfhe/lib/binfhecontext.cpp and its header: the parameter
      sets, the state of a context (parameters, scheme, keys) and its methods.
      [ContextProps]: properties, through the context from key generation to
      decryption; [ContextWitness]: their instances.
    - [Dcrt]: the class [DCRTPolyImpl] of
      core/lib/lattice/hal/default/dcrtpoly.cpp and
      core/include/lattice/hal/default/dcrtpoly.h with the parameters of
      core/include/lattice/ildcrtparams.h: a record of the towers ([PolyImpl] over
      native moduli), the representation and the parameters, whose product is a
      multiprecision integer. [DcrtTowers] (loops over towers and the state of the
      transforms), [Crt] (the Chinese remainder theorem), [DcrtProps] (arithmetic),
      [DcrtInterp] (interpolation), [DcrtScale] (rescaling and modulus switching)
      and [DcrtBasis] (changes of the basis): lemmas; [DcrtRing]: properties with
      instances of dimension four.
    - [Rns]: the tables of pke/lib/scheme/ckksrns/ckksrns-cryptoparameters.cpp,
      pke/lib/scheme/bgvrns/bgvrns-cryptoparameters.cpp and, for the special modulus,
      pke/lib/schemerns/rns-cryptoparameters.cpp, and the modulus and level reduction
      of ciphertexts in ckksrns-leveledshe.cpp and bgvrns-leveledshe.cpp of
      pke/lib/scheme. [RnsProps]: what the tables hold, and the properties.
    - [KeySwitch]: the class [KeySwitchHYBRID] of
      pke/lib/keyswitch/keyswitch-hybrid.cpp, with the tables of the partitions of
      the moduli of pke/lib/schemerns/rns-cryptoparameters.cpp, a record.
      [KeyTables] (tables and digits), [KeyKeys] (both key generations),
      [KeyPhase] (the sums, their division and the error): lemmas; [KeyProps]:
      properties with an instance of dimension four.

    Calls go down this list: LWE uses vectors, vectors use integers, the
    transforms use vectors and bit reversal, the searches of number theory use
    the integers, and the roots of unity they return are what the transforms ask
    for ([root_ok] of [FttProps] is the interface between the two). The
    accumulators work on ring elements, the scheme on accumulators and LWE
    ciphertexts, the context on the scheme and on the searches for primes. The
    double-CRT polynomials are built on ring elements, and on multiprecision
    integers and vectors for interpolation; the reduction of ciphertexts and key
    switching are built on them, with tables computed by the native and the
    multiprecision integers.

    ** Correspondence with the code

    A C++ function is a Rocq function with the same name and, as far as Rocq
    allows, the same statements in the same order. A function that can throw,
    meet undefined behaviour or loop returns an [outcome]. A method that changes
    its object returns the new object. Overloads have suffixes: [_mu] for a
    Barrett parameter, [_scalar] and [_vector] for the operand of a vector
    operation. Unsigned arithmetic wraps explicitly ([wrap], [dwrap], [u32],
    [u64]); signed overflow, a shift by the width or more, a division by zero and
    an access outside a [std::vector] are [UB]. Counters of type [usint] and
    [size_t] that stay below the length of a vector are [nat].

    Randomness is an argument: LWE operations take the error and the mask they
    would sample, and the operations of [NbTheory] take the function [dist] of
    the values of [std::uniform_int_distribution] and thread the number of the
    next draw. The class [UniformSource] of [NbTheoryProps] states what is
    assumed of [dist]. Key generation takes the secret of the ring, the masks and
    the errors it would sample, and the theorems hold for all of them within the
    stated bounds. The parameters of a scheme are shared objects whose gadget base
    some calls change: such a call returns the parameters it leaves. Three library
    functions on doubles are arguments: the ceiling of a quotient of logarithms
    ([ceil_log]) and the rounded binary logarithms ([ceil_log2], [floor_log2]).

    ** Fuel

    Loops without a syntactic bound take fuel. Where the definition fixes it, a
    theorem shows it is enough: [2 w + 2] turns for the Euclidean algorithms (the
    product of the two remainders halves at each turn), 66 for the 32-bit one, [w]
    for [ModExp], [w + 1] for the odd part in Miller-Rabin, 33 for the stages of a
    transform (lengths are [usint]), 20 digits for decimal strings, 33 for [Exp],
    one correction plus the exit test for the 128-bit reduction. For the
    multiprecision integers: 3 for the correction of a quotient digit (the second
    correction ends the loop), the number of limbs for a borrow, 33 for [Exp], five
    turns per digit for a decimal string, and, as an argument, twice the size of
    the modulus for [ModInverse] and the size of the exponent for [ModExp]. The searches
    for primes, factors and generators end with probability one only; their fuel
    is an argument, and the theorems give the number of turns after which they
    have returned (prime searches, totients of powers of two) or assume that the
    generator search has returned ([RootOfUnity_least]). The loops of [EvalSign] and
    [EvalDecomp] take the number of rounds as an argument; the number of bits by
    which the moduli differ is shown to be enough.

    ** What the theorems show

    - Integers: sums, differences, products (by division, by Barrett reduction,
      by a precomputed quotient), powers and inverses are the residues they
      should be, without undefined behaviour, within stated ranges of the
      modulus; the decimal strings round trip; the portable double-word product
      is exact.
    - Vectors: entrywise arithmetic, the guards on lengths and moduli, and the
      change of modulus through centered representatives, for both vector
      classes; switching to a larger modulus and back is the identity in every
      class with the laws of the interface.
    - Transforms: the forward transform evaluates the polynomial at the odd
      powers of the root; its variants agree; the inverse transform is its
      inverse; products of transforms are products modulo [X^n + 1]; all of it
      also through the cache, and for moduli of any size through the
      multiprecision transforms.
    - Number theory: Miller-Rabin never rejects a prime (by Fermat's little
      theorem, proved here); the prime searches skip only composite numbers;
      [RootOfUnity] returns the smallest primitive root; the automorphism map is
      a permutation that applies [X -> X^k] to a transform.
    - Multiprecision integers: the operations refine those of [Z] on the numbers
      that fit ([encode]), every reachable object keeps the invariant of the
      class, division is exact, inverses and powers end; the shift amounts on
      which the code is undefined are characterized.
    - Ring elements: an element denotes a polynomial modulo [X^n + 1] in either
      representation ([denotes]); the changes of representation keep it, and the
      operations, the automorphisms, the inverse and the digit decomposition act
      on it as they should.
    - LWE: decryption inverts encryption under the noise bound, the linear
      operations act on the phase, and key switching keeps the phase up to the
      errors of the key entries used.
    - Modulus switching: the phase is scaled up to the stated error, with the
      rounding of the doubles.
    - Accumulators: the digits recompose the ring element; the keys encrypt the
      secret; both accumulators multiply the encrypted polynomial by the power of
      [X] that the inner product with the secret gives, with a bound on the noise.
    - Boolean scheme: a gate decrypts to the entry of its truth table, from key
      generation to decryption; bootstrapping refreshes the error; any function of
      a plaintext, flooring, sign and digits are what they should be; the
      contexts keep a valid key for every base of the gadget.
    - Double-CRT polynomials: an element over distinct primes stands for one
      polynomial modulo their product [Q] ([dcrt]); arithmetic and the changes of
      representation are those of [Z_Q\[X\]/(X^n + 1)]; interpolation inverts the
      split into towers; rescaling divides and rounds to a nearest integer, modulus
      switching divides and keeps the residue modulo the plaintext modulus; the two
      basis changes of key switching are exact up to a multiple of the modulus that
      is smaller than the number of towers.
    - Ciphertexts: with the tables that the parameters compute, the reductions of CKKS
      and BGV divide all elements by the dropped moduli, rounding to a nearest integer
      in CKKS and keeping the residue modulo the plaintext modulus in BGV, where the
      scaling factor is divided too.
    - Key switching: with the tables that the parameters compute and a generated
      key, the switched ciphertext has the phase of the old one at every level, up
      to an error with a stated bound that is a multiple of the plaintext modulus in
      BGV; keys may be made for a secret or for a public key. Extending a ciphertext
      by the special modulus and dividing by it is the identity.
    - A few theorems state behaviour that departs from what the code means to
      do; each says so in its comment.

    ** Bounds

    Barrett reduction needs a modulus below [2 ^ (w - 4)], at least 4 and not
    [2 ^ (w - 5)] ([barrett_modulus]). Transforms have lengths [2 ^ k] with [k]
    from 1 to 24, because [ReverseBits] is wrong from 25 bits on. LWE moduli leave
    room for the sum of [n + 2] residues in a word ([lwe_modulus]). Multiprecision
    numbers have at most [2 ^ 27 - 1] limbs, so that the position of the top bit is
    a 32-bit number ([fits]); decimal strings have at most 1500 digits, the size of
    the buffer of the code. Modulus switching is exact enough when the product of
    the moduli is at most [2 ^ 52] ([switch_ok]); the 54-bit primes of the
    large-precision contexts exceed that. The CGGI accumulator needs a ring
    dimension of 1024 and eight rows, because its traces read that many. The
    theorems on sign and digits are for contexts with one key, whose base does not
    change. The towers of double-CRT elements are distinct primes of at most 60 bits,
    and the product of all moduli in use has fewer than 2^15 bits ([moduli_ok]), so
    that the sums of interpolation fit; the 128-bit sums of the basis changes do not
    overflow for fewer than 256 towers. In key switching the new secret is below half
    of the first modulus and the samples are below every modulus.

    ** What is not modelled

    The 128-bit native integers, the fixed-size big integers, 64-bit limbs and the
    NTL back end; the transforms for arbitrary cyclotomics, which are arguments of
    [Poly]; ring elements over multiprecision vectors, beyond what interpolation
    returns; of the double-CRT polynomials the conversions that round floating-point
    quotients and those of the BEHZ variant; of the schemes on them everything but the reduction of
    ciphertexts and hybrid key switching, whose special primes are arguments; sampling; conversions of integers to floating point outside
    [RoundqQ]; encodings; the files that the traces of binfhe write;
    serialization, printing, threads; the sign evaluation with three bases. *)
From stdpp Require Import base numbers list.
From Stdlib Require Import ZArith Znumtheory Zpow_facts Lia.
Open Scope Z_scope.

(** ** Outcomes of C++ code

    A C++ function returns a value, throws one of the exception classes of
    utils/exception.h or of the standard library ([std_exception]), or runs into
    behaviour the language leaves undefined
    (a shift by a negative amount or by the width of the type or more, an
    integer division by zero, an access past the end of a [std::vector], an
    overflow of a signed type). [OutOfFuel] is no behaviour of the program: it
    is the value of a bounded loop whose bound was too small, and the theorems
    about loops show that it is not reached. *)
Inductive exn :=
  | config_error | math_error | not_implemented_error | not_available_error
  | type_error | serialize_error | deserialize_error | openfhe_error
  | std_exception.

Inductive outcome (A : Type) :=
  | Ok (a : A)
  | Throw (e : exn)
  | UB
  | OutOfFuel.
Arguments Ok {A} a.
Arguments Throw {A} e.
Arguments UB {A}.
Arguments OutOfFuel {A}.

#[global] Instance exn_eq_dec : EqDecision exn.
Proof. solve_decision. Defined.

#[global] Instance outcome_ret : MRet outcome := fun A a => Ok a.
#[global] Instance outcome_bind : MBind outcome := fun A B f m =>
  match m with
  | Ok a => f a
  | Throw e => Throw e
  | UB => UB
  | OutOfFuel => OutOfFuel
  end.

(** [returns m Q]: the code of [m] terminates normally, with a value in [Q]. *)
Definition returns {A} (m : outcome A) (Q : A -> Prop) : Prop :=
  match m with Ok a => Q a | _ => False end.

(** [for (i = lo; i < lo + n; i++) s = body(i, s)] *)
Fixpoint for_n {S} (n : nat) (lo : nat) (body : nat -> S -> outcome S) (s : S)
    : outcome S :=
  match n with
  | O => Ok s
  | S n' => s' ← body lo s; for_n n' (Datatypes.S lo) body s'
  end.

(** [for (i = lo; i < hi; i++) s = body(i, s)] *)
Definition for_range {S} (lo hi : nat) (body : nat -> S -> outcome S) (s : S)
    : outcome S :=
  for_n (hi - lo) lo body s.

(** [v\[i\]] of a [std::vector]: unchecked, undefined past the end. *)
Definition vget {A} (v : list A) (i : nat) : outcome A :=
  match v !! i with Some x => Ok x | None => UB end.

(** [v\[i\] = x] *)
Definition vset {A} (v : list A) (i : nat) (x : A) : outcome (list A) :=
  if (i <? length v)%nat then Ok (<[i := x]> v) else UB.

(** A loop over the elements of one vector, in index order. *)
Fixpoint vmapM {A B} (f : A -> outcome B) (v : list A) : outcome (list B) :=
  match v with
  | [] => Ok []
  | x :: v' => y ← f x; ys ← vmapM f v'; Ok (y :: ys)
  end.

(** A loop over two vectors of the same length, in index order. *)
Fixpoint vzipM {A B C} (f : A -> B -> outcome C) (v : list A) (u : list B)
    : outcome (list C) :=
  match v, u with
  | x :: v', y :: u' => z ← f x y; zs ← vzipM f v' u'; Ok (z :: zs)
  | [], _ => Ok []
  | _ :: _, [] => UB
  end.

(** Congruence modulo [q]. *)
Record eqmod (q a b : Z) : Prop := eqmod_intro { eqmod_elim : a mod q = b mod q }.
Declare Scope fhe_scope.
Delimit Scope fhe_scope with fhe.
Notation "a '==[' q ']' b" := (eqmod q a b)
  (at level 70, no associativity, format "a  ==[ q ]  b") : fhe_scope.
Open Scope fhe_scope.

(** ** Tactics and hints of the development *)

Create HintDb fhe.

(** Turns the boolean tests of the code into propositions. *)
Ltac bool_cases :=
  repeat match goal with
  | H : context [Z.ltb ?a ?b] |- _ => destruct (Z.ltb_spec a b)
  | H : context [Z.leb ?a ?b] |- _ => destruct (Z.leb_spec a b)
  | H : context [Z.eqb ?a ?b] |- _ => destruct (Z.eqb_spec a b)
  | H : context [Z.gtb ?a ?b] |- _ => rewrite Z.gtb_ltb in H
  | H : context [Z.geb ?a ?b] |- _ => rewrite Z.geb_leb in H
  | |- context [Z.gtb ?a ?b] => rewrite (Z.gtb_ltb a b)
  | |- context [Z.geb ?a ?b] => rewrite (Z.geb_leb a b)
  | |- context [Z.ltb ?a ?b] => destruct (Z.ltb_spec a b)
  | |- context [Z.leb ?a ?b] => destruct (Z.leb_spec a b)
  | |- context [Z.eqb ?a ?b] => destruct (Z.eqb_spec a b)
  end; simpl andb in *; simpl orb in *; simpl negb in *; cbv iota in *.

(** ** Reasoning about outcomes *)

Lemma bind_Ok {A B} (a : A) (f : A -> outcome B) : (Ok a ≫= f) = f a.
Proof. reflexivity. Qed.

Lemma bind_assoc {A B C} (m : outcome A) (f : A -> outcome B) (g : B -> outcome C) :
  ((m ≫= f) ≫= g) = (m ≫= (fun a => f a ≫= g)).
Proof. by destruct m. Qed.

Lemma returns_Ok {A} (m : outcome A) (Q : A -> Prop) :
  returns m Q <-> exists a, m = Ok a /\ Q a.
Proof. destruct m; simpl; naive_solver. Qed.

Lemma returns_bind {A B} (m : outcome A) (f : A -> outcome B) (P : A -> Prop)
    (Q : B -> Prop) :
  returns m P -> (forall a, P a -> returns (f a) Q) -> returns (m ≫= f) Q.
Proof. destruct m; simpl; naive_solver. Qed.

Lemma returns_mono {A} (m : outcome A) (P Q : A -> Prop) :
  returns m P -> (forall a, P a -> Q a) -> returns m Q.
Proof. destruct m; simpl; naive_solver. Qed.

(** The rule for counted loops: an invariant indexed by the loop counter. *)
Lemma for_n_inv {S} (I : nat -> S -> Prop) n lo body (s : S) :
  I lo s ->
  (forall i s, (lo <= i < lo + n)%nat -> I i s ->
     returns (body i s) (I (Datatypes.S i))) ->
  returns (for_n n lo body s) (I (lo + n)%nat).
Proof.
  revert lo s. induction n as [|n IH]; intros lo s H0 Hstep; simpl.
  - by rewrite Nat.add_0_r.
  - eapply returns_bind; [apply Hstep; [lia | done]|].
    intros s' Hs'. rewrite <- Nat.add_succ_comm.
    apply IH; [done|]. intros. apply Hstep; [lia | done].
Qed.

(** The last turn of a counted loop. *)
Lemma for_n_snoc {S} (body : nat -> S -> outcome S) n lo s (P Q : S -> Prop) :
  returns (for_n n lo body s) P ->
  (forall s, P s -> returns (body (lo + n)%nat s) Q) ->
  returns (for_n (Datatypes.S n) lo body s) Q.
Proof.
  revert lo s. induction n as [|n IH]; intros lo s H1 H2.
  - simpl in *. rewrite Nat.add_0_r in H2. specialize (H2 s H1). by destruct (body lo s).
  - cbn [for_n] in H1 |- *. destruct (body lo s); simpl in *; try done.
    apply (IH (Datatypes.S lo) a H1). intros s' Hs'. rewrite <- Nat.add_succ_comm in H2. by apply H2.
Qed.

Lemma for_range_inv {S} (I : nat -> S -> Prop) lo hi body (s : S) :
  (lo <= hi)%nat ->
  I lo s ->
  (forall i s, (lo <= i < hi)%nat -> I i s ->
     returns (body i s) (I (Datatypes.S i))) ->
  returns (for_range lo hi body s) (I hi).
Proof.
  intros Hle H0 Hstep. unfold for_range.
  replace hi with (lo + (hi - lo))%nat at 2 by lia.
  apply for_n_inv; [done|]. intros. apply Hstep; [lia | done].
Qed.

Lemma vget_Some {A} (v : list A) i x : v !! i = Some x -> vget v i = Ok x.
Proof. unfold vget. by intros ->. Qed.

Lemma vset_lt {A} (v : list A) i x :
  (i < length v)%nat -> vset v i x = Ok (<[i := x]> v).
Proof. unfold vset. intros H. by rewrite (proj2 (Nat.ltb_lt _ _) H). Qed.

Lemma vmapM_Ok {A B} (f : A -> outcome B) (g : A -> B) (v : list A) :
  Forall (fun x => f x = Ok (g x)) v -> vmapM f v = Ok (map g v).
Proof. induction 1 as [|x v Hx _ IH]; simpl; [done|]. by rewrite Hx, IH. Qed.

Lemma vzipM_Ok {A B C} (f : A -> B -> outcome C) (g : A -> B -> C) v u :
  length v = length u ->
  (forall i x y, v !! i = Some x -> u !! i = Some y -> f x y = Ok (g x y)) ->
  vzipM f v u = Ok (zip_with g v u).
Proof.
  revert u. induction v as [|x v IH]; intros [|y u] Hl Hf; simplify_eq/=; try done.
  rewrite (Hf O x y eq_refl eq_refl). simpl. rewrite IH; [done | done |].
  intros i a b Ha Hb. by apply (Hf (Datatypes.S i)).
Qed.

(** ** Congruences *)

#[export] Instance eqmod_equiv q : Equivalence (eqmod q).
Proof. split; red; intros; constructor; destruct_and?; repeat destruct select (eqmod _ _ _); congruence. Qed.

#[export] Instance eqmod_add q : Proper (eqmod q ==> eqmod q ==> eqmod q) Z.add.
Proof. intros a a' [Ha] b b' [Hb]. constructor. by rewrite Zplus_mod, Ha, Hb, <- Zplus_mod. Qed.

#[export] Instance eqmod_sub q : Proper (eqmod q ==> eqmod q ==> eqmod q) Z.sub.
Proof. intros a a' [Ha] b b' [Hb]. constructor. by rewrite Zminus_mod, Ha, Hb, <- Zminus_mod. Qed.

#[export] Instance eqmod_mul q : Proper (eqmod q ==> eqmod q ==> eqmod q) Z.mul.
Proof. intros a a' [Ha] b b' [Hb]. constructor. by rewrite Zmult_mod, Ha, Hb, <- Zmult_mod. Qed.

#[export] Instance eqmod_opp q : Proper (eqmod q ==> eqmod q) Z.opp.
Proof.
  intros a a' Ha. rewrite <- (Z.sub_0_l a), <- (Z.sub_0_l a'). by rewrite Ha.
Qed.

Lemma eqmod_mod q a : a mod q ==[q] a.
Proof. constructor. apply Zmod_mod. Qed.

Lemma eqmod_eq q a b : a = b -> a ==[q] b.
Proof. by intros ->. Qed.

Lemma eqmod_pow q a b n : a ==[q] b -> a ^ n ==[q] b ^ n.
Proof.
  intros H. destruct (Z.neg_nonneg_cases n) as [Hn|Hn].
  { by rewrite !Z.pow_neg_r. }
  revert n Hn. apply natlike_ind; [done|]. intros n Hn IH.
  rewrite !Z.pow_succ_r by done. by rewrite IH, H.
Qed.

Lemma eqmod_multiple q a k : a + k * q ==[q] a.
Proof. constructor. apply Z_mod_plus_full. Qed.

Lemma eqmod_0_divide q a : 0 < q -> a ==[q] 0 <-> (q | a).
Proof.
  intros Hq. rewrite <- Z.mod_divide by lia. split; [intros [H]|intros H; constructor];
  by rewrite H, ?Z.mod_0_l by lia.
Qed.

Lemma eqmod_divide q a b : 0 < q -> a ==[q] b <-> (q | a - b).
Proof.
  intros Hq. split; intros H.
  - apply eqmod_0_divide; [done|]. rewrite H. by rewrite Z.sub_diag.
  - replace a with (b + (a - b)) by lia. destruct H as [k ->].
    apply eqmod_multiple.
Qed.

(** Canonical representatives are determined by their class. *)
Lemma eqmod_small q a b : 0 <= a < q -> 0 <= b < q -> a ==[q] b -> a = b.
Proof. intros ?? [H]. by rewrite <- (Z.mod_small a q), <- (Z.mod_small b q). Qed.

Lemma eqmod_unique q a r : 0 <= r < q -> r ==[q] a -> r = a mod q.
Proof. intros ? [<-]. by rewrite Z.mod_small. Qed.

(** ** Integers *)

Lemma mod_range a q : 0 < q -> 0 <= a mod q < q.
Proof. apply Z.mod_pos_bound. Qed.

Lemma mod_sub_once x q : q <= x < 2 * q -> x - q = x mod q.
Proof. intros H. apply (Z.mod_unique x q 1); lia. Qed.

Lemma pow2_pos n : 0 <= n -> 0 < 2 ^ n.
Proof. intros. by apply Z.pow_pos_nonneg. Qed.

#[export] Hint Resolve mod_range pow2_pos : fhe.

Lemma div_range x d n : 0 < d -> 0 <= x < d * n -> 0 <= x / d < n.
Proof.
  intros Hd [H0 H1]. split; [by apply Z.div_pos|].
  by apply Z.div_lt_upper_bound.
Qed.

(** A bitwise or of numbers without a common bit is their sum. *)
Lemma lor_disjoint a b n : 0 <= n -> 0 <= b < 2 ^ n -> Z.lor (a * 2 ^ n) b = a * 2 ^ n + b.
Proof.
  intros Hn Hb. symmetry. rewrite <- Z.shiftl_mul_pow2 by done.
  rewrite Z.add_nocarry_lxor; [apply Z.lxor_lor |]; apply Z.bits_inj_iff'; intros i Hi;
    rewrite Z.land_spec, Z.shiftl_spec, Z.testbit_0_l by done;
    (destruct (Z.lt_ge_cases i n);
     [by rewrite (Z.testbit_neg_r a) by lia |]);
    rewrite <- (Z.mod_small b (2 ^ n)) by done;
    by rewrite Z.mod_pow2_bits_high, andb_false_r by lia.
Qed.

(** Primality of a small number, by trial division. *)
Definition prime_test (p : Z) : bool :=
  (1 <? p) && forallb (fun n => negb (p mod Z.of_nat n =? 0)) (seq 2 (Z.to_nat p - 2)).

Lemma prime_test_sound p : prime_test p = true -> Z.prime p.
Proof.
  unfold prime_test. rewrite andb_true_iff, forallb_forall, Z.ltb_lt.
  intros [Hp H]. split; [done|]. intros n Hn Hd.
  assert (negb (p mod Z.of_nat (Z.to_nat n) =? 0) = true) as Hx
    by (apply H, in_seq; lia).
  rewrite Z2Nat.id in Hx by lia. apply Z.mod_divide in Hd; [|lia].
  by rewrite Hd in Hx.
Qed.

Lemma returns_eq {A} (m : outcome A) (x : A) : returns m (fun a => a = x) <-> m = Ok x.
Proof. destruct m; simpl; naive_solver. Qed.

(** Loops with an exact description of the state at each turn. *)
Lemma for_range_exact {S} (I : nat -> S) lo hi body :
  (lo <= hi)%nat ->
  (forall i, (lo <= i < hi)%nat -> body i (I i) = Ok (I (Datatypes.S i))) ->
  for_range lo hi body (I lo) = Ok (I hi).
Proof.
  intros Hle Hstep. apply returns_eq.
  apply (for_range_inv (fun i s => s = I i) lo hi body (I lo)); [done..|].
  intros i s Hi ->. apply returns_eq. by apply Hstep.
Qed.

Lemma vmapM_returns {A B} (f : A -> outcome B) (P : A -> B -> Prop) (v : list A) :
  Forall (fun x => returns (f x) (P x)) v -> exists u, vmapM f v = Ok u /\ Forall2 P v u.
Proof.
  induction 1 as [|x v Hx _ (u & E & Hu)]; simpl; [eexists; split; done|].
  apply returns_Ok in Hx as (y & -> & Hy). rewrite bind_Ok, E, bind_Ok.
  eexists. split; [done|]. by constructor.
Qed.

(** Finite sums. *)
Fixpoint nsum (c : nat -> Z) (n : nat) : Z :=
  match n with O => 0 | S n => nsum c n + c n end.

Lemma nsum_eqmod q c d n :
  (forall i, (i < n)%nat -> c i ==[q] d i) -> nsum c n ==[q] nsum d n.
Proof.
  induction n as [|n IH]; intros H; simpl; [done|]. rewrite (H n), IH; [done | intros; apply H; lia | lia].
Qed.

Lemma nsum_ext c d n : (forall i, (i < n)%nat -> c i = d i) -> nsum c n = nsum d n.
Proof.
  induction n as [|n IH]; intros H; simpl; [done|]. rewrite (H n), IH; [done | intros; apply H; lia | lia].
Qed.

Lemma nsum_add c d n : nsum (fun i => c i + d i) n = nsum c n + nsum d n.
Proof. induction n as [|n IH]; simpl; [done|]. rewrite IH. ring. Qed.

Lemma nsum_scale w c n : nsum (fun i => w * c i) n = w * nsum c n.
Proof. induction n as [|n IH]; simpl; [ring|]. rewrite IH. ring. Qed.

Lemma nsum_0 n : nsum (fun _ => 0) n = 0.
Proof. induction n as [|n IH]; simpl; [done|]. rewrite IH. done. Qed.

(** A loop that replaces every entry of a vector. *)
Lemma for_range_pointwise {A} (f : nat -> A -> outcome A) (g : nat -> A -> A) (v : list A) :
  (forall i x, v !! i = Some x -> f i x = Ok (g i x)) ->
  for_range 0 (length v) (fun i d => x ← vget d i; y ← f i x; vset d i y) v = Ok (imap g v).
Proof.
  intros Hf.
  assert (forall i, (i <= length v)%nat ->
    length (imap g (take i v) ++ drop i v) = length v) as Hl.
  { intros i Hi. rewrite length_app, length_imap, length_take, length_drop. lia. }
  rewrite <- (app_nil_l v) at 2. change [] with (imap g (take 0 v)).
  pose proof (for_range_exact (fun i => imap g (take i v) ++ drop i v) 0 (length v)
    (fun i d => x ← vget d i; y ← f i x; vset d i y) ltac:(lia)) as H. cbv beta in H.
  rewrite drop_0, drop_all, app_nil_r, firstn_all in H. apply H.
  intros i Hi. destruct (lookup_lt_is_Some_2 v i) as [x Hx]; [lia|].
  rewrite (drop_S v x i Hx). rewrite (vget_Some _ i x).
  - rewrite bind_Ok, (Hf i x Hx), bind_Ok.
    rewrite vset_lt by (rewrite <- (drop_S v x i Hx), Hl; lia). f_equal.
    rewrite insert_app_r_alt by (rewrite length_imap, length_take; lia).
    rewrite length_imap, length_take, Nat.min_l, Nat.sub_diag by lia. simpl.
    rewrite (take_S_r v i x Hx), imap_app. simpl. rewrite length_take, Nat.min_l by lia.
    rewrite Nat.add_0_r. by rewrite <- app_assoc.
  - rewrite lookup_app_r by (rewrite length_imap, length_take; lia).
    by rewrite length_imap, length_take, Nat.min_l, Nat.sub_diag by lia.
Qed.

Lemma lookup_repeat {A} (x : A) n i : (i < n)%nat -> repeat x n !! i = Some x.
Proof.
  revert i. induction n as [|n IH]; intros [|i] Hi; simpl; [lia | lia | done |]. apply IH. lia.
Qed.

Lemma Forall_repeat {A} (P : A -> Prop) x n : P x -> Forall P (repeat x n).
Proof. intros Hx. induction n; simpl; by constructor. Qed.

(** A loop over indices that fills a vector. *)
Lemma vmapM_seq {A} (f : nat -> outcome A) (P : nat -> A -> Prop) n :
  (forall i, (i < n)%nat -> returns (f i) (P i)) ->
  exists R, vmapM f (seq 0 n) = Ok R /\
    forall i, (i < n)%nat -> exists x, vget R i = Ok x /\ P i x.
Proof.
  intros H. destruct (vmapM_returns f P (seq 0 n)) as (R & E & HR).
  - apply Forall_forall. intros i Hi. apply elem_of_seq in Hi. apply H. lia.
  - exists R. split; [done|]. intros i Hi.
    destruct (Forall2_lookup_l _ _ _ i i HR) as (x & Hx & Px); [by apply lookup_seq|].
    exists x. split; [by apply vget_Some | done].
Qed.

(** Digit [i] of a number in base [B]. *)
Definition digit_at (B : Z) (i : nat) (x : Z) : Z := (x / B ^ Z.of_nat i) mod B.

Lemma digits_recompose B x w :
  0 < B -> nsum (fun i => digit_at B i x * B ^ Z.of_nat i) w = x mod B ^ Z.of_nat w.
Proof.
  intros HB. induction w as [|w IH]; cbn [nsum]; [by rewrite Z.mod_1_r|]. rewrite IH.
  rewrite Nat2Z.inj_succ, Z.pow_succ_r, (Z.mul_comm B) by lia.
  pose proof (Z.pow_pos_nonneg B (Z.of_nat w) HB ltac:(lia)).
  rewrite Z.rem_mul_r by lia. unfold digit_at. ring.
Qed.

(** The estimate of the quotient is exact or one too small. *)
Lemma barrett_bounds m n v :
  3 <= n -> 2 ^ (n - 1) <= m < 2 ^ n -> 0 <= v < 2 ^ (2 * n + 2) ->
  let q := (v / 2 ^ (n - 2)) * (2 ^ (2 * n + 3) / m) / 2 ^ (n + 5) in
  0 <= q /\ 0 <= v - q * m < 2 * m.
Proof.
  intros Hn Hm Hv q.
  assert (0 < 2 ^ (n - 2)) as HA0 by (apply pow2_pos; lia).
  assert (2 ^ (n - 1) = 2 * 2 ^ (n - 2)) as HA1
    by (rewrite <- Z.pow_succ_r by lia; f_equal; lia).
  assert (2 ^ (2 * n + 3) = 2 ^ (n + 5) * 2 ^ (n - 2)) as HP
    by (rewrite <- Z.pow_add_r by lia; f_equal; lia).
  assert (2 ^ (2 * n + 3) = 2 * 2 ^ (2 * n + 2)) as HP2
    by (rewrite <- Z.pow_succ_r by lia; f_equal; lia).
  assert (0 < 2 ^ (n + 5)) as HB0 by (apply pow2_pos; lia).
  assert (m <= 2 ^ (2 * n + 3)) as HmP.
  { transitivity (2 ^ n); [lia|]. apply Z.pow_le_mono_r; lia. }
  set (A := 2 ^ (n - 2)) in *. set (B := 2 ^ (n + 5)) in *.
  set (P := 2 ^ (2 * n + 3)) in *.
  pose proof (Z.div_mod v A ltac:(lia)) as Dv. pose proof (mod_range v A HA0) as Rv.
  pose proof (Z.div_mod P m ltac:(lia)) as DP. pose proof (mod_range P m ltac:(lia)) as RP.
  set (ql := v / A) in *. set (mu := P / m) in *.
  assert (0 <= ql) as Hql by (apply Z.div_pos; lia).
  assert (0 <= mu) as Hmu by (apply Z.div_pos; lia).
  pose proof (Z.div_mod (ql * mu) B ltac:(lia)) as Dq.
  pose proof (mod_range (ql * mu) B HB0) as Rq. fold q in Dq.
  assert (0 <= q) as Hq by (apply Z.div_pos; nia).
  split; [done|].
  assert ((B * q) * (A * m) <= (ql * A) * (mu * m)) as H4.
  { replace (ql * A * (mu * m)) with ((ql * mu) * (A * m)) by ring.
    apply Z.mul_le_mono_nonneg_r; nia. }
  assert ((ql * A) * (mu * m) <= v * P) as H5 by (apply Z.mul_le_mono_nonneg; nia).
  assert (P * (q * m) = (B * q) * (A * m)) as E1 by (rewrite HP; ring).
  assert (P * ((q + 1) * m) = (B * (q + 1)) * (A * m)) as E2 by (rewrite HP; ring).
  split; [nia|].
  assert ((ql * A) * (mu * m) < (B * (q + 1)) * (A * m)) as H8.
  { replace (ql * A * (mu * m)) with ((ql * mu) * (A * m)) by ring.
    apply Z.mul_lt_mono_pos_r; nia. }
  assert (P * v - A * P - m * v <= (ql * A) * (mu * m)) as H11.
  { destruct (Z.le_gt_cases 0 (v - A)).
    - assert ((v - A) * (P - m) <= (ql * A) * (mu * m)); [|nia].
      apply Z.mul_le_mono_nonneg; nia.
    - assert (P * v - A * P <= 0) by nia. assert (0 <= m * v) by nia.
      assert (0 <= (ql * A) * (mu * m)) by nia. lia. }
  assert (2 * (m * v) <= P * m) as H12 by nia.
  assert (2 * (A * P) <= P * m) as H13 by nia.
  assert (P * v < P * ((q + 2) * m)) as H14.
  { replace ((q + 2) * m) with ((q + 1) * m + m) by ring. lia. }
  apply Z.mul_lt_mono_pos_l in H14; nia.
Qed.

(** ** Residues *)

(** Lists of residues, and the representative around zero of a residue. *)
Definition reduced (q : Z) (e : list Z) : Prop := Forall (fun x => 0 <= x < q) e.
Definition centered (q x : Z) : Z := if x >? q / 2 then x - q else x.

Lemma reduced_at q e i : reduced q e -> (i < length e)%nat -> 0 <= e !!! i < q.
Proof. intros He Hi. apply (Forall_lookup_total_1 _ _ _ He Hi). Qed.

Lemma centered_eqmod q x : centered q x ==[q] x.
Proof.
  unfold centered. destruct (_ >? _); [|done].
  replace (x - q) with (x + -1 * q) by lia. apply eqmod_multiple.
Qed.

Lemma centered_high q x : q / 2 < x -> centered q x = x - q.
Proof. intros H. unfold centered. by rewrite Z.gtb_ltb, (proj2 (Z.ltb_lt _ _)). Qed.
Lemma centered_low q x : x <= q / 2 -> centered q x = x.
Proof. intros H. unfold centered. by rewrite Z.gtb_ltb, (proj2 (Z.ltb_ge _ _)). Qed.

(** The loop that copies a vector entry by entry into one of the same length. *)
Lemma copy_loop {A} (v d : list A) :
  length d = length v -> for_range 0 (length v) (fun i d => x ← vget v i; vset d i x) d = Ok v.
Proof.
  intros Hl.
  assert (for_range 0 (length v) (fun i d => x ← vget v i; vset d i x) d
    = Ok (take (length v) v ++ drop (length v) d)) as ->.
  { pose proof (for_range_exact (fun i => take i v ++ drop i d) 0 (length v)
      (fun i d => x ← vget v i; vset d i x) ltac:(lia)) as H. cbv beta in H. rewrite drop_0 in H. apply H.
    intros i Hi. destruct (lookup_lt_is_Some_2 v i ltac:(lia)) as [x Ex].
    destruct (lookup_lt_is_Some_2 d i ltac:(lia)) as [y Ey].
    rewrite (vget_Some _ _ _ Ex), bind_Ok, vset_lt by (rewrite length_app, length_take, length_drop; lia).
    f_equal. rewrite (take_S_r v i x Ex), insert_app_r_alt by (rewrite length_take; lia).
    rewrite length_take, Nat.min_l, Nat.sub_diag, (drop_S d y i Ey) by lia. by rewrite <- app_assoc. }
  by rewrite firstn_all, drop_ge, app_nil_r by lia.
Qed.
