(* ===== verification/Bits.v ===== *)
(** * Bit-level helpers

    Models the inline functions of src/core/include/math/nbtheory.h
    ([reverse_byte], [ReverseBits], [GetMSB]), of
    src/core/include/utils/utilities.h ([IsPowerOfTwo],
    [IsAdditionOverflow], [AdditionWithCarryOut]) and of
    src/core/include/utils/utilities-int.h ([Mul128],
    [BarrettUint128ModUint64]). They work on [uint32_t], [uint64_t] and
    [unsigned __int128], which are [Z] reduced modulo the power of two. *)
From stdpp Require Import base numbers list.
From Stdlib Require Import ZArith Znumtheory Lia.
From S2P Require Import Prelude.
Open Scope Z_scope.

Definition u32 (x : Z) : Z := x mod 2 ^ 32.
Definition u64 (x : Z) : Z := x mod 2 ^ 64.
Definition u128 (x : Z) : Z := x mod 2 ^ 128.

(** The value of an [int] (32 bits, two's complement) with the bits of [x]. *)
Definition i32 (x : Z) : Z :=
  let y := x mod 2 ^ 32 in if y <? 2 ^ 31 then y else y - 2 ^ 32.

(** ** nbtheory.h: reversing bits *)

Definition reverse_byte_table : list Z :=
  [
    0; 128; 64; 192; 32; 160; 96; 224; 16; 144; 80; 208; 48; 176; 112; 240; 8;
    136; 72; 200; 40; 168; 104; 232; 24; 152; 88; 216; 56; 184; 120; 248; 4;
    132; 68; 196; 36; 164; 100; 228; 20; 148; 84; 212; 52; 180; 116; 244; 12;
    140; 76; 204; 44; 172; 108; 236; 28; 156; 92; 220; 60; 188; 124; 252; 2;
    130; 66; 194; 34; 162; 98; 226; 18; 146; 82; 210; 50; 178; 114; 242; 10;
    138; 74; 202; 42; 170; 106; 234; 26; 154; 90; 218; 58; 186; 122; 250; 6;
    134; 70; 198; 38; 166; 102; 230; 22; 150; 86; 214; 54; 182; 118; 246; 14;
    142; 78; 206; 46; 174; 110; 238; 30; 158; 94; 222; 62; 190; 126; 254; 1;
    129; 65; 193; 33; 161; 97; 225; 17; 145; 81; 209; 49; 177; 113; 241; 9;
    137; 73; 201; 41; 169; 105; 233; 25; 153; 89; 217; 57; 185; 121; 249; 5;
    133; 69; 197; 37; 165; 101; 229; 21; 149; 85; 213; 53; 181; 117; 245; 13;
    141; 77; 205; 45; 173; 109; 237; 29; 157; 93; 221; 61; 189; 125; 253; 3;
    131; 67; 195; 35; 163; 99; 227; 19; 147; 83; 211; 51; 179; 115; 243; 11;
    139; 75; 203; 43; 171; 107; 235; 27; 155; 91; 219; 59; 187; 123; 251; 7;
    135; 71; 199; 39; 167; 103; 231; 23; 151; 87; 215; 55; 183; 119; 247; 15;
    143; 79; 207; 47; 175; 111; 239; 31; 159; 95; 223; 63; 191; 127; 255
  ].

Definition reverse_byte (x : Z) : Z := nth (Z.to_nat x) reverse_byte_table 0.

Definition shift_trick : list Z := [0; 7; 6; 5; 4; 3; 2; 1].

(** [ReverseBits(num, msb)]. The bytes are promoted to [int] before they are
    shifted, so the value that is shifted right is an [int]. *)
Definition ReverseBits (num msb : Z) : Z :=
  let msbb := Z.shiftr msb 3 + (if Z.land msb 7 =? 0 then 0 else 1) in
  let s := nth (Z.to_nat (Z.land msb 7)) shift_trick 0 in
  let b0 := reverse_byte (Z.land num 255) in
  let b1 := reverse_byte (Z.land (Z.shiftr num 8) 255) in
  let b2 := reverse_byte (Z.land (Z.shiftr num 16) 255) in
  let b3 := reverse_byte (Z.land (Z.shiftr num 24) 255) in
  if msbb =? 1 then u32 (Z.shiftr (i32 b0) s)
  else if msbb =? 2 then u32 (Z.shiftr (i32 (Z.lor (Z.shiftl b0 8) b1)) s)
  else if msbb =? 3 then
    u32 (Z.shiftr (i32 (Z.lor (Z.lor (Z.shiftl b0 16) (Z.shiftl b1 8)) b2)) s)
  else if msbb =? 4 then
    u32 (Z.shiftr
           (i32 (Z.lor (Z.lor (Z.lor (Z.shiftl b0 24) (Z.shiftl b1 16))
                              (Z.shiftl b2 8)) b3)) s)
  else u32 (-1).

(** ** nbtheory.h: the position of the most significant bit *)

(** [__builtin_clzl] on a non-zero 64-bit word. *)
Definition builtin_clzl (x : Z) : Z := 63 - Z.log2 x.

Definition GetMSB (x : Z) : Z :=
  if x =? 0 then 0 else 64 - builtin_clzl x.

Definition GetMSB64 (x : Z) : Z := GetMSB x.

(** ** utilities.h *)

Definition IsPowerOfTwo (Input : Z) : bool :=
  negb (Input =? 0) && (Z.land Input (u32 (Input - 1)) =? 0).

Definition IsAdditionOverflow (a b : Z) : Z :=
  let a := u64 (a + b) in
  if a <? b then 1 else 0.

(** Returns the carry and the sum the source stores in [c]. *)
Definition AdditionWithCarryOut (a b : Z) : Z * Z :=
  let a := u64 (a + b) in
  let c := a in
  (if a <? b then 1 else 0, c).

(** ** utilities-int.h: lazy reduction of 128-bit products *)

Definition Mul128 (a b : Z) : Z := u128 (a * b).

(** The final [while (result >= modulus) result -= modulus;] *)
Fixpoint reduce_loop (fuel : nat) (result modulus : Z) : outcome Z :=
  match fuel with
  | O => OutOfFuel
  | S fuel =>
      if result >=? modulus then reduce_loop fuel (u64 (result - modulus)) modulus
      else Ok result
  end.

Definition BarrettUint128ModUint64 (fuel : nat) (a modulus mu : Z) : outcome Z :=
  let a_lo := u64 a in
  let a_hi := Z.shiftr a 64 in
  let mu_lo := u64 mu in
  let mu_hi := Z.shiftr mu 64 in
  let left_hi := Z.shiftr (Mul128 a_lo mu_lo) 64 in
  let middle := Mul128 a_lo mu_hi in
  let middle_lo := u64 middle in
  let middle_hi := Z.shiftr middle 64 in
  let '(carry, tmp1) := AdditionWithCarryOut middle_lo left_hi in
  let tmp2 := u64 (middle_hi + carry) in
  let middle := Mul128 a_hi mu_lo in
  let middle_lo := u64 middle in
  let middle_hi := Z.shiftr middle 64 in
  let carry := IsAdditionOverflow middle_lo tmp1 in
  let left_hi := u64 (middle_hi + carry) in
  let tmp1 := u64 (u64 (u64 (a_hi * mu_hi) + tmp2) + left_hi) in
  let result := u64 (a_lo - u64 (tmp1 * modulus)) in
  reduce_loop fuel result modulus.

(** ** Ranges of the machine types *)

Lemma u32_small x : 0 <= x < 2 ^ 32 -> u32 x = x.
Proof. apply Z.mod_small. Qed.

Lemma u64_small x : 0 <= x < 2 ^ 64 -> u64 x = x.
Proof. apply Z.mod_small. Qed.

Lemma u64_eqmod x : u64 x ==[2 ^ 64] x.
Proof. apply eqmod_mod. Qed.

Lemma u128_small x : 0 <= x < 2 ^ 128 -> u128 x = x.
Proof. apply Z.mod_small. Qed.

Lemma u32_i32 x : u32 (i32 x) = u32 x.
Proof.
  unfold u32, i32. destruct (_ <? _); [apply Zmod_mod|].
  rewrite <- Zminus_mod_idemp_r, Z_mod_same_full, Z.sub_0_r. apply Zmod_mod.
Qed.

Lemma i32_small x : 0 <= x < 2 ^ 31 -> i32 x = x.
Proof.
  intros H. unfold i32. rewrite Z.mod_small by lia.
  by rewrite (proj2 (Z.ltb_lt _ _)) by lia.
Qed.

(** A number all of whose bits from [n] on are zero is below [2^n]. *)
Lemma bits_bound x n :
  0 <= n -> 0 <= x -> (forall i, n <= i -> Z.testbit x i = false) -> x < 2 ^ n.
Proof.
  intros Hn Hx Hb. replace x with (x mod 2 ^ n); [apply mod_range; auto with fhe|].
  apply Z.bits_inj_iff'. intros i Hi. rewrite Z.testbit_mod_pow2 by done.
  destruct (Z.ltb_spec i n); [done|]. by rewrite Hb.
Qed.

(** ** Reversing bits *)

Definition byte_reversed (x : Z) : bool :=
  forallb (fun i => Bool.eqb (Z.testbit (reverse_byte x) i) (Z.testbit x (7 - i)))
          [0; 1; 2; 3; 4; 5; 6; 7]
  && (0 <=? reverse_byte x) && (reverse_byte x <? 256).

Lemma reverse_byte_table_ok :
  forallb (fun n => byte_reversed (Z.of_nat n)) (seq 0 256) = true.
Proof. vm_compute. reflexivity. Qed.

Lemma reverse_byte_reversed x : 0 <= x < 256 -> byte_reversed x = true.
Proof.
  intros Hx. replace x with (Z.of_nat (Z.to_nat x)) by lia.
  apply (proj1 (forallb_forall _ _) reverse_byte_table_ok).
  apply in_seq. lia.
Qed.

Lemma reverse_byte_range x : 0 <= x < 256 -> 0 <= reverse_byte x < 256.
Proof.
  intros Hx%reverse_byte_reversed. unfold byte_reversed in Hx.
  apply andb_prop in Hx as [[_ H1]%andb_prop H2]. lia.
Qed.

Lemma reverse_byte_bits x i :
  0 <= x < 256 -> 0 <= i < 8 ->
  Z.testbit (reverse_byte x) i = Z.testbit x (7 - i).
Proof.
  intros Hx%reverse_byte_reversed Hi. unfold byte_reversed in Hx.
  apply andb_prop in Hx as [[Hx _]%andb_prop _].
  apply Bool.eqb_prop, (proj1 (forallb_forall _ _) Hx).
  assert (i = 0 \/ i = 1 \/ i = 2 \/ i = 3 \/ i = 4 \/ i = 5 \/ i = 6 \/ i = 7)
    as Hc by lia.
  simpl. naive_solver.
Qed.

(** The reversal of the low [k] bytes, most significant byte first. *)
Fixpoint rev_bytes (k : nat) (num : Z) : Z :=
  match k with
  | O => 0
  | S k => Z.lor (Z.shiftl (rev_bytes k num) 8)
                 (reverse_byte (Z.land (Z.shiftr num (8 * Z.of_nat k)) 255))
  end.

Lemma land_255_range x : 0 <= Z.land x 255 < 256.
Proof. change 255 with (Z.ones 8). rewrite Z.land_ones by lia. by apply mod_range. Qed.

Lemma rev_bytes_nonneg k num : 0 <= rev_bytes k num.
Proof.
  destruct k; simpl; [done|]. rewrite Z.lor_nonneg, Z.shiftl_nonneg.
  split; [|apply reverse_byte_range, land_255_range].
  clear. induction k; simpl; [done|]. rewrite Z.lor_nonneg, Z.shiftl_nonneg.
  split; [done|]. apply reverse_byte_range, land_255_range.
Qed.

Lemma rev_bytes_bits k num i :
  0 <= i ->
  Z.testbit (rev_bytes k num) i
  = if i <? 8 * Z.of_nat k then Z.testbit num (8 * Z.of_nat k - 1 - i) else false.
Proof.
  revert i. induction k as [|k IH]; intros i Hi; cbn [rev_bytes].
  { rewrite Z.testbit_0_l. by destruct (Z.ltb_spec i (8 * Z.of_nat 0)); [lia|]. }
  rewrite Z.lor_spec, Z.shiftl_spec by done.
  set (x := Z.land (Z.shiftr num (8 * Z.of_nat k)) 255).
  pose proof (land_255_range (Z.shiftr num (8 * Z.of_nat k)) : 0 <= x < 256) as Hx.
  destruct (Z.ltb_spec i 8) as [Hi8|Hi8].
  - rewrite (Z.testbit_neg_r _ (i - 8)) by lia.
    rewrite reverse_byte_bits by lia. subst x. simpl orb.
    change 255 with (Z.ones 8). rewrite Z.land_spec, Z.shiftr_spec by lia.
    rewrite Z.ones_spec_low by lia. rewrite andb_true_r.
    rewrite (proj2 (Z.ltb_lt _ _)) by lia. f_equal. lia.
  - rewrite IH by lia.
    rewrite (Z.bits_above_log2 (reverse_byte x)).
    + rewrite orb_false_r.
      destruct (Z.ltb_spec (i - 8) (8 * Z.of_nat k)),
        (Z.ltb_spec i (8 * Z.of_nat (S k))); try lia; f_equal; lia.
    + by apply reverse_byte_range.
    + apply reverse_byte_range in Hx. destruct (Z.eq_dec (reverse_byte x) 0) as [->|].
      * simpl. lia.
      * apply Z.log2_lt_pow2; [lia|].
        apply (Z.lt_le_trans _ (2 ^ 8)); [lia|]. apply Z.pow_le_mono_r; lia.
Qed.

Lemma rev_bytes_range k num : 0 <= rev_bytes k num < 2 ^ (8 * Z.of_nat k).
Proof.
  split; [apply rev_bytes_nonneg|]. apply bits_bound; [lia|apply rev_bytes_nonneg|].
  intros i Hi. rewrite rev_bytes_bits by lia.
  by rewrite (proj2 (Z.ltb_ge _ _)).
Qed.

(** The number of bytes the [switch] of [ReverseBits] selects. *)
Definition msb_bytes (msb : Z) : nat := Z.to_nat ((msb + 7) / 8).

Lemma msb_bytes_enum :
  forallb (fun n => let msb := Z.of_nat n in
    (Z.shiftr msb 3 + (if Z.land msb 7 =? 0 then 0 else 1) =? Z.of_nat (msb_bytes msb))
    && (nth (Z.to_nat (Z.land msb 7)) shift_trick 0 =? 8 * Z.of_nat (msb_bytes msb) - msb)
    && (1 <=? msb_bytes msb)%nat && (msb_bytes msb <=? 4)%nat)
  (seq 1 32) = true.
Proof. vm_compute. reflexivity. Qed.

Lemma ReverseBits_bytes num msb :
  1 <= msb <= 32 ->
  ReverseBits num msb
  = u32 (Z.shiftr (i32 (rev_bytes (msb_bytes msb) num))
                  (8 * Z.of_nat (msb_bytes msb) - msb)).
Proof.
  intros Hm. pose proof msb_bytes_enum as H.
  rewrite forallb_forall in H. specialize (H (Z.to_nat msb)).
  rewrite Z2Nat.id in H by lia. cbv zeta in H.
  destruct (andb_prop _ _ (H ltac:(apply in_seq; lia))) as [H' H4]. clear H.
  apply andb_prop in H' as [[H1 H2]%andb_prop H3].
  apply Z.eqb_eq in H1, H2. apply Nat.leb_le in H3, H4.
  unfold ReverseBits. rewrite H1, H2.
  generalize dependent (msb_bytes msb). intros k _ _ H3 H4.
  assert (k = 1 \/ k = 2 \/ k = 3 \/ k = 4)%nat as [-> | [-> | [-> | ->]]] by lia;
    simpl Z.eqb; cbv iota; cbn [rev_bytes];
    rewrite ?Z.shiftl_0_l, ?Z.lor_0_l, ?Z.shiftl_lor, ?Z.shiftl_shiftl by lia;
    by rewrite Z.shiftr_0_r.
Qed.

(** The values of [msb] for which the shift stays within the positive [int]s:
    up to three bytes, or all 32 bits. *)
Definition ReverseBits_supported (msb : Z) : Prop := 1 <= msb <= 24 \/ msb = 32.

Lemma ReverseBits_shiftr num msb :
  ReverseBits_supported msb ->
  ReverseBits num msb
  = Z.shiftr (rev_bytes (msb_bytes msb) num) (8 * Z.of_nat (msb_bytes msb) - msb).
Proof.
  intros Hm. rewrite ReverseBits_bytes by (unfold ReverseBits_supported in Hm; lia).
  set (k := msb_bytes msb). pose proof (rev_bytes_range k num) as Hr.
  assert (0 <= 8 * Z.of_nat k - msb <= 7) as Hs.
  { unfold k, msb_bytes, ReverseBits_supported in *.
    rewrite Z2Nat.id by (apply Z.div_pos; lia).
    pose proof (Z.div_mod (msb + 7) 8). pose proof (mod_range (msb + 7) 8). lia. }
  assert (forall x, 0 <= x < 2 ^ 32 -> 0 <= Z.shiftr x (8 * Z.of_nat k - msb) < 2 ^ 32)
    as Hsr.
  { intros x Hx. rewrite Z.shiftr_div_pow2 by lia.
    pose proof (Z.pow_pos_nonneg 2 (8 * Z.of_nat k - msb)).
    split; [apply Z.div_pos; lia|]. apply Z.div_lt_upper_bound; nia. }
  destruct Hm as [Hm| ->].
  - assert (2 ^ (8 * Z.of_nat k) <= 2 ^ 24) by (apply Z.pow_le_mono_r; lia).
    rewrite i32_small by lia. apply u32_small, Hsr. lia.
  - change k with 4%nat in *. rewrite Z.shiftr_0_r.
    change (8 * Z.of_nat 4 - 32) with 0. rewrite !Z.shiftr_0_r.
    rewrite u32_i32. apply u32_small. lia.
Qed.

Lemma ReverseBits_bits num msb :
  ReverseBits_supported msb ->
  0 <= ReverseBits num msb < 2 ^ msb /\
  forall i, 0 <= i < msb ->
    Z.testbit (ReverseBits num msb) i = Z.testbit num (msb - 1 - i).
Proof.
  intros Hm. rewrite ReverseBits_shiftr by done.
  set (k := msb_bytes msb).
  assert (1 <= msb /\ msb <= 8 * Z.of_nat k) as [Hm1 Hk].
  { unfold k, msb_bytes, ReverseBits_supported in *.
    rewrite Z2Nat.id by (apply Z.div_pos; lia).
    pose proof (Z.div_mod (msb + 7) 8). pose proof (mod_range (msb + 7) 8). lia. }
  split; [split|].
  - apply Z.shiftr_nonneg, rev_bytes_nonneg.
  - apply bits_bound; [lia | apply Z.shiftr_nonneg, rev_bytes_nonneg |].
    intros i Hi. rewrite Z.shiftr_spec, rev_bytes_bits by lia.
    by rewrite (proj2 (Z.ltb_ge _ _)) by lia.
  - intros i Hi. rewrite Z.shiftr_spec, rev_bytes_bits by lia.
    rewrite (proj2 (Z.ltb_lt _ _)) by lia. f_equal. lia.
Qed.

(** For the supported sizes ReverseBits returns a number of msb bits whose bit i
    is bit msb - 1 - i of its argument. *)
Theorem ReverseBits_reverses num msb :
  ReverseBits_supported msb ->
  0 <= ReverseBits num msb < 2 ^ msb /\
  forall i, 0 <= i < msb ->
    Z.testbit (ReverseBits num msb) i = Z.testbit num (msb - 1 - i).
Proof. apply ReverseBits_bits. Qed.

Lemma ReverseBits_reverses_witness :
  ReverseBits_supported 10 /\
  (0 <= ReverseBits 3 10 < 2 ^ 10 /\
   forall i, 0 <= i < 10 -> Z.testbit (ReverseBits 3 10) i = Z.testbit 3 (10 - 1 - i)).
Proof.
  assert (ReverseBits_supported 10) as H by (left; lia).
  split; [exact H | exact (ReverseBits_reverses 3 10 H)].
Defined.

(** From 25 to 31 bits the value is assembled in an [int] whose sign bit is the
    lowest bit of the argument: an odd argument gives a result that is too large. *)
Theorem ReverseBits_sign_extends num msb :
  25 <= msb <= 31 -> Z.odd num = true -> 2 ^ msb <= ReverseBits num msb.
Proof.
  intros Hm Hodd. rewrite ReverseBits_bytes by lia.
  assert (msb_bytes msb = 4%nat) as ->.
  { unfold msb_bytes. change 4%nat with (Z.to_nat 4). f_equal.
    symmetry. apply Z.div_unique with (msb + 7 - 8 * 4); lia. }
  pose proof (rev_bytes_range 4 num) as Hr.
  change (2 ^ (8 * Z.of_nat 4)) with (2 ^ 32) in Hr.
  assert (Z.testbit (rev_bytes 4 num) 31 = true) as Hb.
  { rewrite rev_bytes_bits by lia. rewrite (proj2 (Z.ltb_lt _ _)) by lia.
    change (8 * Z.of_nat 4 - 1 - 31) with 0. by rewrite Z.bit0_odd. }
  assert (2 ^ 31 <= rev_bytes 4 num) as Hlo.
  { destruct (Z.lt_ge_cases (rev_bytes 4 num) (2 ^ 31)) as [Hlt|]; [|done].
    rewrite <- (Z.mod_small _ _ (conj (proj1 Hr) Hlt)) in Hb.
    by rewrite Z.mod_pow2_bits_high in Hb by lia. }
  unfold i32. rewrite Z.mod_small by lia.
  rewrite (proj2 (Z.ltb_ge _ _)) by lia.
  set (s := 8 * Z.of_nat 4 - msb). rewrite Z.shiftr_div_pow2 by lia.
  set (y := rev_bytes 4 num - 2 ^ 32). assert (- 2 ^ 31 <= y < 0) as Hy by lia.
  assert (0 < 2 ^ s) by (apply pow2_pos; lia).
  assert (- 2 ^ 31 <= y / 2 ^ s < 0) as Hd.
  { split; [apply Z.div_le_lower_bound; nia | apply Z.div_lt_upper_bound; nia]. }
  unfold u32. rewrite <- (Z_mod_plus_full _ 1), Z.mod_small by lia.
  assert (2 ^ msb <= 2 ^ 31) by (apply Z.pow_le_mono_r; lia). lia.
Qed.

Lemma ReverseBits_sign_extends_witness :
  ReverseBits 1 25 = 4278190080 /\ 2 ^ 25 <= ReverseBits 1 25.
Proof.
  split; [vm_compute; reflexivity|].
  apply (ReverseBits_sign_extends 1 25); [lia | reflexivity].
Defined.

(** ** Most significant bit, powers of two *)

Lemma GetMSB_0 : GetMSB 0 = 0.
Proof. reflexivity. Qed.

Lemma GetMSB_log2 x : 0 < x -> GetMSB x = Z.log2 x + 1.
Proof.
  intros Hx. unfold GetMSB, builtin_clzl.
  destruct (Z.eqb_spec x 0); lia.
Qed.

Lemma GetMSB_bounds x : 0 < x -> 2 ^ (GetMSB x - 1) <= x < 2 ^ GetMSB x.
Proof.
  intros Hx. rewrite GetMSB_log2 by done.
  replace (Z.log2 x + 1 - 1) with (Z.log2 x) by lia. apply Z.log2_spec in Hx. done.
Qed.

Lemma GetMSB_pos x : 0 < x -> 1 <= GetMSB x.
Proof. intros Hx. rewrite GetMSB_log2 by done. pose proof (Z.log2_nonneg x). lia. Qed.

Lemma GetMSB_le x n : 0 <= x -> 0 <= n -> GetMSB x <= n <-> x < 2 ^ n.
Proof.
  intros Hx Hn. destruct (Z.eq_dec x 0) as [->|].
  - rewrite GetMSB_0. pose proof (pow2_pos n Hn). lia.
  - rewrite GetMSB_log2 by lia. pose proof (Z.log2_lt_pow2 x n). lia.
Qed.

Lemma IsPowerOfTwo_pow2 k : 0 <= k < 32 -> IsPowerOfTwo (2 ^ k) = true.
Proof.
  intros Hk. unfold IsPowerOfTwo. pose proof (pow2_pos k ltac:(lia)).
  assert (2 ^ k < 2 ^ 32) by (apply Z.pow_lt_mono_r; lia).
  rewrite andb_true_iff, negb_true_iff, Z.eqb_neq, Z.eqb_eq. split; [lia|].
  rewrite u32_small by lia.
  replace (2 ^ k - 1) with (Z.ones k) by (rewrite Z.ones_equiv; lia).
  rewrite Z.land_ones by lia. by apply Z_mod_same_full.
Qed.

(** The bit test recognizes exactly the powers of two of 32 bits. *)
Theorem IsPowerOfTwo_spec x :
  0 <= x < 2 ^ 32 -> (IsPowerOfTwo x = true <-> exists k, 0 <= k /\ x = 2 ^ k).
Proof.
  intros Hx. split.
  - unfold IsPowerOfTwo. rewrite andb_true_iff, negb_true_iff, Z.eqb_neq, Z.eqb_eq.
    intros [Hx0 Hl]. rewrite u32_small in Hl by lia.
    exists (Z.log2 x). split; [apply Z.log2_nonneg|].
    pose proof (Z.log2_spec x ltac:(lia)) as [Hlo Hhi].
    destruct (Z.eq_dec x (2 ^ Z.log2 x)); [done|]. exfalso.
    assert (Z.testbit (Z.land x (x - 1)) (Z.log2 x) = true) as Hb.
    { rewrite Z.land_spec, Z.bit_log2 by lia.
      assert (Z.log2 (x - 1) = Z.log2 x) as <- by (apply Z.log2_unique; [apply Z.log2_nonneg | lia]).
      rewrite Z.bit_log2; [done|]. pose proof (pow2_pos (Z.log2 x) (Z.log2_nonneg x)). lia. }
    by rewrite Hl, Z.testbit_0_l in Hb.
  - intros (k & Hk & ->). apply IsPowerOfTwo_pow2. split; [done|].
    apply (Z.pow_lt_mono_r_iff 2); lia.
Qed.

Lemma IsPowerOfTwo_spec_witness :
  (0 <= 1024 < 2 ^ 32) /\ (IsPowerOfTwo 1024 = true <-> exists k, 0 <= k /\ 1024 = 2 ^ k).
Proof. split; [lia | apply (IsPowerOfTwo_spec 1024); lia]. Defined.

(** ** Reduction of 128-bit integers *)

Lemma AdditionWithCarryOut_spec a b :
  0 <= a < 2 ^ 64 -> 0 <= b < 2 ^ 64 ->
  exists c s, AdditionWithCarryOut a b = (c, s) /\ 0 <= s < 2 ^ 64 /\
    0 <= c <= 1 /\ a + b = c * 2 ^ 64 + s.
Proof.
  intros Ha Hb. unfold AdditionWithCarryOut. eexists _, _. split; [reflexivity|].
  unfold u64. destruct (Z.lt_ge_cases (a + b) (2 ^ 64)).
  - rewrite Z.mod_small by lia. rewrite (proj2 (Z.ltb_ge _ _)) by lia. lia.
  - rewrite <- mod_sub_once by lia. rewrite (proj2 (Z.ltb_lt _ _)) by lia. lia.
Qed.

Lemma IsAdditionOverflow_carry a b :
  IsAdditionOverflow a b = fst (AdditionWithCarryOut a b).
Proof. reflexivity. Qed.

Lemma reduce_loop_ge fuel x m : m <= x -> reduce_loop (S fuel) x m = reduce_loop fuel (u64 (x - m)) m.
Proof. intros. simpl. by rewrite Z.geb_leb, (proj2 (Z.leb_le _ _)). Qed.

Lemma reduce_loop_lt fuel x m : x < m -> reduce_loop (S fuel) x m = Ok x.
Proof. intros. simpl. by rewrite Z.geb_leb, (proj2 (Z.leb_gt _ _)). Qed.

Lemma reduce_loop_once x m :
  0 <= x < 2 * m -> 2 * m <= 2 ^ 64 -> reduce_loop 2 x m = Ok (x mod m).
Proof.
  intros Hx Hm. destruct (Z.lt_ge_cases x m).
  - rewrite reduce_loop_lt by done. by rewrite Z.mod_small by lia.
  - rewrite reduce_loop_ge, u64_small by lia.
    rewrite <- mod_sub_once by lia. by rewrite reduce_loop_lt by lia.
Qed.

(** The middle part of the computation: the low word of [a * mu / 2^128]. *)
Lemma mul_hi_words a_lo a_hi mu_lo mu_hi c1 t1 c2 t2 :
  0 <= t1 < 2 ^ 64 -> 0 <= t2 < 2 ^ 64 -> 
  u64 (a_lo * mu_hi) + a_lo * mu_lo / 2 ^ 64 = c1 * 2 ^ 64 + t1 ->
  u64 (a_hi * mu_lo) + t1 = c2 * 2 ^ 64 + t2 ->
  (a_lo + 2 ^ 64 * a_hi) * (mu_lo + 2 ^ 64 * mu_hi) / 2 ^ 128
  = a_hi * mu_hi + (a_lo * mu_hi / 2 ^ 64 + c1) + (a_hi * mu_lo / 2 ^ 64 + c2).
Proof.
  unfold u64. intros Ht1 Ht2 E1 E2.
  pose proof (Z.div_mod (a_lo * mu_lo) (2 ^ 64) ltac:(lia)) as D1.
  pose proof (mod_range (a_lo * mu_lo) (2 ^ 64) ltac:(lia)) as R1.
  pose proof (Z.div_mod (a_lo * mu_hi) (2 ^ 64) ltac:(lia)) as D2.
  pose proof (Z.div_mod (a_hi * mu_lo) (2 ^ 64) ltac:(lia)) as D3.
  symmetry. apply Z.div_unique with (t2 * 2 ^ 64 + (a_lo * mu_lo) mod 2 ^ 64); [left; lia|].
  lia.
Qed.

(** The reduction of a 128-bit number by a 64-bit modulus returns the residue with
    at most one correcting subtraction, for moduli up to 2^63. *)
Theorem BarrettUint128ModUint64_correct a modulus :
  0 <= a < 2 ^ 128 -> 2 <= modulus <= 2 ^ 63 ->
  BarrettUint128ModUint64 2 a modulus (2 ^ 128 / modulus) = Ok (a mod modulus).
Proof.
  intros Ha Hm. set (mu := 2 ^ 128 / modulus).
  assert (0 <= mu < 2 ^ 128) as Hmu by (apply div_range; lia).
  unfold BarrettUint128ModUint64. rewrite !Z.shiftr_div_pow2 by lia.
  pose proof (Z.div_mod a (2 ^ 64) ltac:(lia)) as Da.
  pose proof (Z.div_mod mu (2 ^ 64) ltac:(lia)) as Dmu.
  pose proof (mod_range a (2 ^ 64) ltac:(lia)) as Ra.
  pose proof (mod_range mu (2 ^ 64) ltac:(lia)) as Rmu.
  pose proof (div_range a (2 ^ 64) (2 ^ 64) ltac:(lia) ltac:(lia)) as Qa.
  pose proof (div_range mu (2 ^ 64) (2 ^ 64) ltac:(lia) ltac:(lia)) as Qmu.
  change (u64 a) with (a mod 2 ^ 64). change (u64 mu) with (mu mod 2 ^ 64).
  set (a_lo := a mod 2 ^ 64) in *. set (a_hi := a / 2 ^ 64) in *.
  set (mu_lo := mu mod 2 ^ 64) in *. set (mu_hi := mu / 2 ^ 64) in *.
  unfold Mul128. rewrite !(u128_small (_ * _)) by nia.
  destruct (AdditionWithCarryOut_spec (u64 (a_lo * mu_hi)) (a_lo * mu_lo / 2 ^ 64))
    as (c1 & t1 & -> & Ht1 & Hc1 & E1); [by apply mod_range | apply div_range; nia |].
  rewrite IsAdditionOverflow_carry.
  destruct (AdditionWithCarryOut_spec (u64 (a_hi * mu_lo)) t1)
    as (c2 & t2 & -> & Ht2 & Hc2 & E2); [by apply mod_range | done |].
  pose proof (mul_hi_words _ _ _ _ _ _ _ _ Ht1 Ht2 E1 E2) as Hq.
  rewrite (Z.add_comm a_lo), <- Da, (Z.add_comm mu_lo), <- Dmu in Hq. simpl fst.
  set (q := a * mu / 2 ^ 128) in *.
  assert (a / modulus - 1 <= q <= a / modulus) as Hqr.
  { pose proof (Z.div_mod (2 ^ 128) modulus ltac:(lia)) as D1.
    pose proof (mod_range (2 ^ 128) modulus ltac:(lia)) as R1. fold mu in D1.
    pose proof (Z.div_mod a modulus ltac:(lia)) as D2.
    pose proof (mod_range a modulus ltac:(lia)) as R2.
    pose proof (Z.div_mod (a * mu) (2 ^ 128) ltac:(lia)) as D3.
    pose proof (mod_range (a * mu) (2 ^ 128) ltac:(lia)) as R3. fold q in D3.
    nia. }
  assert (0 <= a - q * modulus < 2 * modulus) as Hrange.
  { pose proof (Z.div_mod a modulus ltac:(lia)).
    pose proof (mod_range a modulus ltac:(lia)). nia. }
  replace (u64 _) with (a - q * modulus).
  - rewrite reduce_loop_once by lia. f_equal.
    rewrite <- Z.add_opp_r, <- Z.mul_opp_l. apply Z_mod_plus_full.
  - symmetry. rewrite <- (u64_small (a - q * modulus)) by lia.
    apply eqmod_elim. rewrite !u64_eqmod. apply eqmod_divide; [lia|].
    exists (- a_hi). rewrite Hq. lia.
Qed.

Lemma BarrettUint128ModUint64_correct_witness :
  BarrettUint128ModUint64 2 (2 ^ 127 + 12345) (2 ^ 60 - 93) (2 ^ 128 / (2 ^ 60 - 93))
  = Ok ((2 ^ 127 + 12345) mod (2 ^ 60 - 93)).
Proof. apply (BarrettUint128ModUint64_correct (2 ^ 127 + 12345)); lia. Defined.
