(* ===== verification/NativeInt.v ===== *)
(** * Native integers

    Models the class [NativeIntegerT<NativeInt>] of
    src/core/include/math/hal/intnat/ubintnat.h, for the 32-bit and 64-bit
    instances with a double-width type ([DNativeInt] of twice the width; the
    overloads selected by [!std::is_same<T, DNativeInt>]). An object of the
    class has one field, [m_value], so it is that integer: a [Z] in
    [\[0, 2^wbits)]. Every unsigned operation wraps ([wrap], and [dwrap] for
    [DNativeInt]); shifts out of range, divisions by zero and signed overflow
    are [UB]. An in-place variant ([...Eq]) returns the new value of [*this].
    Overloads that take the Barrett parameter [mu] have the suffix [_mu]. *)
From stdpp Require Import base numbers list.
From Stdlib Require Import ZArith Znumtheory Zpow_facts Lia Ascii.
From S2P Require Import Prelude Bits.
Open Scope Z_scope.

(** The width of [NativeInt]: [uint32_t] or [uint64_t]. *)
Class NativeWidth := {
  wbits : Z;
  wbits_cases : wbits = 32 \/ wbits = 64
}.

Definition W64 : NativeWidth := {| wbits := 64; wbits_cases := or_intror eq_refl |}.
Definition W32 : NativeWidth := {| wbits := 32; wbits_cases := or_introl eq_refl |}.

(** A double word as two single words. *)
Record typeD := mk_typeD { hi : Z; lo : Z }.

Section Definitions.
Context `{W : NativeWidth}.

(** ** Machine arithmetic *)

Definition wrap (x : Z) : Z := x mod 2 ^ wbits.
Definition dwrap (x : Z) : Z := x mod 2 ^ (2 * wbits).

(** The value of the signed type [SignedNativeInt] with the bits of [x]. *)
Definition to_signed (x : Z) : Z :=
  let y := wrap x in if y <? 2 ^ (wbits - 1) then y else y - 2 ^ wbits.

(** The value of a signed expression, undefined when it overflows. *)
Definition scheck (x : Z) : outcome Z :=
  if (- 2 ^ (wbits - 1) <=? x) && (x <? 2 ^ (wbits - 1)) then Ok x else UB.

Definition udiv (a b : Z) : outcome Z := if b =? 0 then UB else Ok (a / b).
Definition umod (a b : Z) : outcome Z := if b =? 0 then UB else Ok (a mod b).

Definition ushl (x s : Z) : outcome Z :=
  if (0 <=? s) && (s <? wbits) then Ok (wrap (Z.shiftl x s)) else UB.
Definition ushr (x s : Z) : outcome Z :=
  if (0 <=? s) && (s <? wbits) then Ok (Z.shiftr x s) else UB.
Definition dshl (x s : Z) : outcome Z :=
  if (0 <=? s) && (s <? 2 * wbits) then Ok (dwrap (Z.shiftl x s)) else UB.
Definition dshr (x s : Z) : outcome Z :=
  if (0 <=? s) && (s <? 2 * wbits) then Ok (Z.shiftr x s) else UB.

(** ** Double words *)

Definition MaxBits : Z := wbits.
Definition NATIVEINTMASK : Z := 2 ^ wbits - 1.
Definition m_uintMax : Z := 2 ^ wbits - 1.

(** The largest modulus size [basicint.h] allows for this width. *)
Definition MAX_MODULUS_SIZE : Z := if wbits =? 64 then 60 else 28.

(** [res -= a] *)
Definition SubtractD (res a : typeD) : typeD :=
  let '(l, h) :=
    if lo res <? lo a
    then (wrap (lo res + wrap (wrap (m_uintMax + 1) - lo a)), wrap (hi res - 1))
    else (wrap (lo res - lo a), hi res) in
  {| hi := wrap (h - hi a); lo := l |}.

Definition RShiftD (x : typeD) (shift : Z) : outcome Z :=
  l ← ushr (lo x) shift;
  h ← ushl (hi x) (MaxBits - shift);
  Ok (Z.lor l h).

(** The full product: one [mulq] instruction on x86-64, a [DNativeInt] product
    for 32-bit words. *)
Definition MultD (a b : Z) : typeD :=
  let prod := dwrap (a * b) in
  {| hi := Z.land (Z.shiftr prod MaxBits) NATIVEINTMASK;
     lo := Z.land prod NATIVEINTMASK |}.

(** The portable product of two 64-bit words by their 32-bit halves (the branch
    compiled for WebAssembly); the half width is a parameter. *)
Definition MultD_schoolbook (a b : Z) : typeD :=
  let half := wbits / 2 in
  let a1 := Z.shiftr a half in
  let a2 := a mod 2 ^ half in
  let b1 := Z.shiftr b half in
  let b2 := b mod 2 ^ half in
  let rhi := wrap (a1 * b1) in
  let rlo := wrap (a2 * b2) in
  let lowBefore := rlo in
  let p1 := wrap (a2 * b1) in
  let p2 := wrap (a1 * b2) in
  let temp := wrap (p1 + p2) in
  let rhi := wrap (rhi + Z.shiftr temp half) in
  let rlo := wrap (rlo + wrap (Z.shiftl (temp mod 2 ^ half) half)) in
  let rhi := if lowBefore >? rlo then wrap (rhi + 1) else rhi in
  let rhi := if (temp <? p1) || (temp <? p2) then wrap (rhi + 2 ^ half) else rhi in
  {| hi := rhi; lo := rlo |}.

Definition MultDHi (a b : Z) : Z := hi (MultD a b).

Definition GetD (x : typeD) : outcome Z :=
  h ← dshl (hi x) MaxBits;
  Ok (Z.lor h (lo x)).

(** ** Arithmetic *)

Definition AddCheck (a b : Z) : outcome Z :=
  let newv := wrap (a + b) in
  if (newv <? a) || (newv <? b) then Throw math_error else Ok newv.
Definition AddFast (a b : Z) : Z := wrap (a + b).
Definition AddEqCheck (a b : Z) : outcome Z :=
  let oldv := a in
  let a := wrap (a + b) in
  if a <? oldv then Throw math_error else Ok a.
Definition AddEqFast (a b : Z) : Z := wrap (a + b).
(** [Add]: [NATIVEINT_DO_CHECKS] is [false]. *)
Definition Add (a b : Z) : Z := AddFast a b.
Definition AddEq (a b : Z) : Z := AddEqFast a b.

Definition SubCheck (a b : Z) : Z := if a <=? b then 0 else wrap (a - b).
Definition SubFast (a b : Z) : Z := wrap (a - b).
Definition SubEqCheck (a b : Z) : Z := if a <=? b then 0 else wrap (a - b).
Definition SubEqFast (a b : Z) : Z := wrap (a - b).
Definition Sub (a b : Z) : Z := SubFast a b.
Definition SubEq (a b : Z) : Z := SubEqFast a b.
Definition Neg (a : Z) : Z := Sub 0 a.

Definition MulCheck (a b : Z) : outcome Z :=
  let prod := wrap (a * b) in
  if (prod >? 0) && ((prod <? a) || (prod <? b)) then Throw math_error else Ok prod.
Definition MulFast (a b : Z) : Z := wrap (a * b).
Definition MulEqCheck (a b : Z) : outcome Z :=
  let oldval := a in
  let a := wrap (a * b) in
  if a <? oldval then Throw math_error else Ok a.
Definition MulEqFast (a b : Z) : Z := wrap (a * b).
Definition Mul (a b : Z) : Z := MulFast a b.
Definition MulEq (a b : Z) : Z := MulEqFast a b.

Definition DividedBy (a b : Z) : outcome Z :=
  if b =? 0 then Throw math_error else udiv a b.
Definition DividedByEq (a b : Z) : outcome Z :=
  if b =? 0 then Throw math_error else udiv a b.

(** [Exp(p)]: the recursion is on [p / 2], so [p]'s bit length bounds it. *)
Fixpoint Exp_fuel (fuel : nat) (a p : Z) : outcome Z :=
  match fuel with
  | O => OutOfFuel
  | S fuel =>
      if p =? 0 then Ok 1
      else if p =? 1 then Ok a
      else
        tmp ← Exp_fuel fuel a (p / 2);
        if p mod 2 =? 0 then Ok (Mul tmp tmp)
        else Ok (Mul (Mul tmp tmp) a)
  end.
Definition Exp (a p : Z) : outcome Z := Exp_fuel 33 a p.
Definition ExpEq (a p : Z) : outcome Z :=
  if p =? 0 then Ok 1
  else if p =? 1 then Ok a
  else
    tmp ← Exp a (p / 2);
    if p mod 2 =? 0 then Ok (Mul tmp tmp)
    else Ok (Mul a (Mul tmp tmp)).

Definition DivideAndRound (a q : Z) : outcome Z :=
  if q =? 0 then Throw math_error
  else
    ans ← udiv a q;
    rem ← umod a q;
    halfQ ← ushr q 1;
    if negb (rem <=? halfQ) then Ok (wrap (ans + 1)) else Ok ans.
Definition DivideAndRoundEq (a q : Z) : outcome Z := DivideAndRound a q.

Definition MultiplyAndRound (a p q : Z) : outcome Z :=
  let ans := wrap (a * p) in DivideAndRound ans q.
Definition MultiplyAndRoundEq (a p q : Z) : outcome Z :=
  let a := MulEq a p in DivideAndRoundEq a q.

Definition MultiplyAndDivideQuotient (a p q : Z) : outcome Z :=
  r ← udiv (dwrap (a * p)) q; Ok (wrap r).
Definition MultiplyAndDivideRemainder (a p q : Z) : outcome Z :=
  r ← umod (dwrap (a * p)) q; Ok (wrap r).

(** ** Modular arithmetic *)

Definition Mod (a modulus : Z) : outcome Z := umod a modulus.
Definition ModEq (a modulus : Z) : outcome Z := umod a modulus.

Definition ComputeMu (a : Z) : outcome Z :=
  temp ← dshl 1 (2 * GetMSB a + 3);
  r ← udiv temp a;
  Ok (wrap r).

(** Barrett reduction of a single word. *)
Definition Mod_mu (a modulus mu : Z) : outcome Z :=
  let tmp1 := {| hi := 0; lo := a |} in
  let tmp := a in
  let n := GetMSB modulus in
  let alpha := n + 3 in
  let beta := -2 in
  ql ← RShiftD tmp1 (n + beta);
  let tmp1 := MultD ql mu in
  q ← GetD tmp1;
  q ← dshr q (alpha - beta);
  let tmp := dwrap (tmp - dwrap (q * modulus)) in
  let ans := wrap tmp in
  Ok (if ans >? modulus then wrap (ans - modulus) else ans).

Definition ModEq_mu (a modulus mu : Z) : outcome Z :=
  let tmp1 := {| hi := 0; lo := a |} in
  let tmp := a in
  let n := GetMSB modulus in
  let alpha := n + 3 in
  let beta := -2 in
  ql ← RShiftD tmp1 (n + beta);
  let tmp1 := MultD ql mu in
  q ← GetD tmp1;
  q ← dshr q (alpha - beta);
  let tmp := dwrap (tmp - dwrap (q * modulus)) in
  let a := wrap tmp in
  Ok (if a >? modulus then wrap (a - modulus) else a).

Definition ModAdd (a b modulus : Z) : outcome Z :=
  let md := modulus in
  op1 ← (if a >=? md then umod a md else Ok a);
  op2 ← (if b >=? md then umod b md else Ok b);
  let op1 := wrap (op1 + op2) in
  Ok (if op1 >=? md then wrap (op1 - md) else op1).

Definition ModAddEq (a b modulus : Z) : outcome Z :=
  let md := modulus in
  a ← (if a >=? md then umod a md else Ok a);
  op2 ← (if b >=? md then umod b md else Ok b);
  let a := wrap (a + op2) in
  Ok (if a >=? md then wrap (a - md) else a).

Definition ModAddFast (a b modulus : Z) : Z :=
  let r := wrap (a + b) in
  if r >=? modulus then wrap (r - modulus) else r.

Definition ModAddFastEq (a b modulus : Z) : Z :=
  let a := wrap (a + b) in
  if a >=? modulus then wrap (a - modulus) else a.

Definition ModAdd_mu (a b modulus mu : Z) : outcome Z :=
  let md := modulus in
  av ← (if a >=? md then ModEq_mu a modulus mu else Ok a);
  bv ← (if b >=? md then ModEq_mu b modulus mu else Ok b);
  let av := wrap (av + bv) in
  Ok (if av >=? md then wrap (av - md) else av).

Definition ModAddEq_mu (a b modulus mu : Z) : outcome Z :=
  let md := modulus in
  a ← (if a >=? md then ModEq_mu a modulus mu else Ok a);
  bv ← (if b >=? md then ModEq_mu b modulus mu else Ok b);
  let a := wrap (a + bv) in
  Ok (if a >=? md then wrap (a - md) else a).

Definition ModSub (a b modulus : Z) : outcome Z :=
  let md := modulus in
  av ← (if a >=? md then umod a md else Ok a);
  bv ← (if b >=? md then umod b md else Ok b);
  Ok (if av >=? bv then wrap (av - bv) else wrap (av + wrap (md - bv))).

Definition ModSubEq (a b modulus : Z) : outcome Z :=
  let md := modulus in
  a ← (if a >=? md then umod a md else Ok a);
  bv ← (if b >=? md then umod b md else Ok b);
  Ok (if a >=? bv then wrap (a - bv) else wrap (a + wrap (md - bv))).

Definition ModSubFast (a b modulus : Z) : Z :=
  if a >=? b then wrap (a - b) else wrap (a + wrap (modulus - b)).

Definition ModSubFastEq (a b modulus : Z) : Z :=
  if a >=? b then wrap (a - b) else wrap (a + wrap (modulus - b)).

Definition ModSub_mu (a b modulus mu : Z) : outcome Z :=
  let md := modulus in
  av ← (if a >=? md then ModEq_mu a modulus mu else Ok a);
  bv ← (if b >=? md then ModEq_mu b modulus mu else Ok b);
  Ok (if av >=? bv then wrap (av - bv) else wrap (av + wrap (md - bv))).

Definition ModSubEq_mu (a b modulus mu : Z) : outcome Z :=
  let md := modulus in
  a ← (if a >=? md then ModEq_mu a modulus mu else Ok a);
  bv ← (if b >=? md then ModEq_mu b modulus mu else Ok b);
  Ok (if a >=? bv then wrap (a - bv) else wrap (a + wrap (md - bv))).

Definition ModMul (a b modulus : Z) : outcome Z :=
  let md := modulus in
  aval ← (if a >? md then umod a md else Ok a);
  bval ← (if b >? md then umod b md else Ok b);
  let result := dwrap (aval * bval) in
  result ← (if result >=? md then umod result md else Ok result);
  Ok (wrap result).

Definition ModMulEq (a b modulus : Z) : outcome Z :=
  let md := modulus in
  a ← (if a >? md then umod a md else Ok a);
  bval ← (if b >? md then umod b md else Ok b);
  let result := dwrap (a * bval) in
  result ← (if result >=? md then umod result md else Ok result);
  Ok (wrap result).

(** The Barrett product in place. The source reduces a copy [bb] of [b] and then
    multiplies by [b] itself. *)
Definition ModMulEq_mu (a b modulus mu : Z) : outcome Z :=
  let bb := b in
  a ← (if a >? modulus then ModEq_mu a modulus mu else Ok a);
  bb ← (if bb >? modulus then ModEq_mu bb modulus mu else Ok bb);
  let prod1 := MultD a b in
  prod ← GetD prod1;
  let n := GetMSB modulus in
  let alpha := n + 3 in
  let beta := -2 in
  ql ← RShiftD prod1 (n + beta);
  let prod1 := MultD ql mu in
  q ← GetD prod1;
  q ← dshr q (alpha - beta);
  let prod := dwrap (prod - dwrap (q * modulus)) in
  let a := wrap prod in
  Ok (if a >? modulus then wrap (a - modulus) else a).

Definition ModMul_mu (a b modulus mu : Z) : outcome Z :=
  let ans := a in ModMulEq_mu ans b modulus mu.

Definition ModMulFast (a b modulus : Z) : outcome Z :=
  let result := dwrap (a * b) in
  result ← (if result >=? modulus then umod result modulus else Ok result);
  Ok (wrap result).

Definition ModMulFastEq (a b modulus : Z) : outcome Z := ModMulFast a b modulus.

Definition ModMulFast_mu (a b modulus mu : Z) : outcome Z :=
  let ans := a in
  let prod1 := MultD ans b in
  prod ← GetD prod1;
  let q0 := prod1 in
  let n := GetMSB modulus in
  let alpha := n + 3 in
  let beta := -2 in
  ql ← RShiftD q0 (n + beta);
  let q0 := MultD ql mu in
  q ← GetD q0;
  q ← dshr q (alpha - beta);
  let prod := dwrap (prod - dwrap (q * modulus)) in
  let ans := wrap prod in
  Ok (if ans >? modulus then wrap (ans - modulus) else ans).

Definition ModMulFastEq_mu (a b modulus mu : Z) : outcome Z :=
  let prod1 := MultD a b in
  prod ← GetD prod1;
  let q0 := prod1 in
  let n := GetMSB modulus in
  let alpha := n + 3 in
  let beta := -2 in
  ql ← RShiftD q0 (n + beta);
  let q0 := MultD ql mu in
  q ← GetD q0;
  q ← dshr q (alpha - beta);
  let prod := dwrap (prod - dwrap (q * modulus)) in
  let a := wrap prod in
  Ok (if a >? modulus then wrap (a - modulus) else a).

(** Multiplication by a constant with a precomputed quotient (Shoup). *)
Definition PrepModMulConst (a modulus : Z) : outcome Z :=
  w ← dshl a MaxBits;
  r ← udiv w modulus;
  Ok (wrap r).

Definition ModMulFastConst (a b modulus bInv : Z) : outcome Z :=
  let q := MultDHi a bInv in
  let yprime := wrap (wrap (a * b) - wrap (q * modulus)) in
  d ← scheck (to_signed yprime - to_signed modulus);
  Ok (if d >=? 0 then wrap (yprime - modulus) else yprime).

Definition ModMulFastConstEq (a b modulus bInv : Z) : outcome Z :=
  let q := MultDHi a bInv in
  let yprime := wrap (wrap (a * b) - wrap (q * modulus)) in
  d ← scheck (to_signed yprime - to_signed modulus);
  Ok (if d >=? 0 then wrap (yprime - modulus) else yprime).

(** The [while (true)] loop of [ModExp], on [DNativeInt] values. *)
Fixpoint ModExp_loop (fuel : nat) (exp product mid modulus : Z) : outcome Z :=
  match fuel with
  | O => OutOfFuel
  | S fuel =>
      let product := if exp mod 2 =? 1 then dwrap (product * mid) else product in
      product ← (if product >=? modulus then umod product modulus else Ok product);
      let exp := Z.shiftr exp 1 in
      if exp =? 0 then Ok product
      else
        mid ← umod (dwrap (mid * mid)) modulus;
        ModExp_loop fuel exp product mid modulus
  end.

Definition ModExp (a b modulus : Z) : outcome Z :=
  mid ← umod a modulus;
  product ← ModExp_loop (Z.to_nat wbits) b 1 mid modulus;
  Ok (wrap product).

Definition ModExpEq (a b modulus : Z) : outcome Z := ModExp a b modulus.

(** The loop of [ModInverse]: [a] and [modulus] are unsigned, [x] and [y]
    signed. *)
Fixpoint ModInverse_loop (fuel : nat) (a modulus x y : Z) : outcome Z :=
  match fuel with
  | O => OutOfFuel
  | S fuel =>
      if a >? 1 then
        q ← udiv a modulus;
        let q := to_signed q in
        let t := to_signed modulus in
        modulus ← umod a modulus;
        let a := wrap t in
        let t := y in
        qy ← scheck (q * y);
        y ← scheck (x - qy);
        let x := t in
        ModInverse_loop fuel a modulus x y
      else Ok x
  end.

Definition ModInverse (v md : Z) : outcome Z :=
  a ← umod v md;
  if a =? 0 then Throw math_error
  else if md =? 1 then Ok 0
  else
    let m0 := to_signed md in
    x ← ModInverse_loop (Z.to_nat (2 * wbits + 2)) a md 1 0;
    x ← (if x <? 0 then scheck (x + m0) else Ok x);
    Ok (wrap x).

Definition ModInverseEq (v md : Z) : outcome Z := ModInverse v md.

(** ** Shifts, comparison, bits *)

Definition LShift (a shift : Z) : outcome Z := ushl a shift.
Definition LShiftEq (a shift : Z) : outcome Z := ushl a shift.
Definition RShift (a shift : Z) : outcome Z := ushr a shift.
Definition RShiftEq (a shift : Z) : outcome Z := ushr a shift.

Definition Compare (a b : Z) : Z :=
  if a <? b then -1 else if a >? b then 1 else 0.

Definition GetLengthForBase (a base : Z) : Z := GetMSB a.

Definition GetBitAtIndex (a index : Z) : outcome Z :=
  if index =? 0 then Throw math_error
  else
    r ← ushr a (index - 1);
    Ok (Z.land r 1).

(** The loop of [GetDigitAtIndexForBase]; [i], [newIndex] and [digit] are
    [usint]. *)
Fixpoint GetDigit_loop (fuel : nat) (a base i newIndex digit : Z) : outcome Z :=
  match fuel with
  | O => OutOfFuel
  | S fuel =>
      if i <? base then
        b ← GetBitAtIndex a newIndex;
        let digit := u32 (digit + u32 (b * i)) in
        GetDigit_loop fuel a base (u32 (i * 2)) (u32 (newIndex + 1)) digit
      else Ok digit
  end.

(** [ceil(log2(base))] is exact on the [usint] range. *)
Definition GetDigitAtIndexForBase (a index base : Z) : outcome Z :=
  let DigitLen := Z.log2_up base in
  let newIndex := u32 (1 + u32 (u32 (index - 1) * DigitLen)) in
  GetDigit_loop 33 a base 1 newIndex 0.

(** ** Strings *)

Definition digit_of (c : ascii) : Z := Z.of_N (N_of_ascii c) - 48.

(** The [for] loop over the characters of a bit string. *)
Fixpoint FromBinaryString_loop (s : list ascii) (v : Z) : outcome Z :=
  match s with
  | [] => Ok v
  | c :: s =>
      let n := digit_of c in
      if (n <? 0) || (n >? 1) then Throw math_error
      else
        v ← ushl v 1;
        let v := Z.lor v n in
        FromBinaryString_loop s v
  end.
Definition FromBinaryString (bitString : list ascii) : outcome Z :=
  if Z.of_nat (length bitString) >? MaxBits then Throw math_error
  else FromBinaryString_loop bitString 0.

Fixpoint AssignVal_loop (s : list ascii) (test_value m_value : Z) : outcome Z :=
  match s with
  | [] => Ok m_value
  | c :: s =>
      let v := digit_of c in
      if (v <? 0) || (v >? 9) then Throw type_error
      else
        let m_value := wrap (m_value * 10) in
        let m_value := wrap (m_value + v) in
        if m_value <? test_value then Throw math_error
        else
          let test_value := m_value in
          AssignVal_loop s test_value m_value
  end.
Definition AssignVal (str : list ascii) : outcome Z := AssignVal_loop str 0 0.

(** [std::to_string] of an unsigned value: its decimal digits. *)
Fixpoint to_string_loop (fuel : nat) (value : Z) (acc : list ascii) : list ascii :=
  match fuel with
  | O => acc
  | S fuel =>
      let acc := ascii_of_N (Z.to_N (48 + value mod 10)) :: acc in
      if value / 10 =? 0 then acc else to_string_loop fuel (value / 10) acc
  end.
Definition ToString (a : Z) : list ascii := to_string_loop 20 a [].

End Definitions.
