(* ===== verification/NativeIntProps.v ===== *)
(** * Native integers: theorems

    Correctness of the operations of NativeInt.v. The operations with a plain
    modulus are correct for all operands; Barrett's reduction needs a modulus
    in the range [barrett_modulus], which excludes the one power of two whose
    parameter [mu] does not fit in a word. *)
From stdpp Require Import base numbers list.
From Stdlib Require Import ZArith Znumtheory Zpow_facts Lia Ascii.
From S2P Require Import Prelude Bits NativeInt.
Open Scope Z_scope.

Section Facts.
Context `{W : NativeWidth}.

(** ** The machine types *)

Lemma wbits_range : 32 <= wbits <= 64.
Proof. destruct wbits_cases; lia. Qed.

Lemma word_pos : 0 < 2 ^ wbits.
Proof. apply pow2_pos. pose proof wbits_range. lia. Qed.

Lemma dword_square : 2 ^ (2 * wbits) = 2 ^ wbits * 2 ^ wbits.
Proof. pose proof wbits_range. rewrite <- Z.pow_add_r by lia. f_equal. lia. Qed.

Lemma word_half : 2 ^ wbits = 2 * 2 ^ (wbits - 1).
Proof.
  pose proof wbits_range. rewrite <- Z.pow_succ_r by lia. f_equal. lia.
Qed.

Lemma wrap_small x : 0 <= x < 2 ^ wbits -> wrap x = x.
Proof. apply Z.mod_small. Qed.

Lemma wrap_range x : 0 <= wrap x < 2 ^ wbits.
Proof. apply mod_range, word_pos. Qed.

Lemma dwrap_small x : 0 <= x < 2 ^ (2 * wbits) -> dwrap x = x.
Proof. apply Z.mod_small. Qed.

Lemma wrap_eqmod x : wrap x ==[2 ^ wbits] x.
Proof. apply eqmod_mod. Qed.

(** A product of two words fits in a double word. *)
Lemma mul_dword a b :
  0 <= a < 2 ^ wbits -> 0 <= b < 2 ^ wbits -> 0 <= a * b < 2 ^ (2 * wbits).
Proof. intros. rewrite dword_square. nia. Qed.

Lemma udiv_pos a b : 0 < b -> udiv a b = Ok (a / b).
Proof. intros. unfold udiv. destruct (Z.eqb_spec b 0); [lia | done]. Qed.

Lemma umod_pos a b : 0 < b -> umod a b = Ok (a mod b).
Proof. intros. unfold umod. destruct (Z.eqb_spec b 0); [lia | done]. Qed.

Lemma in_range_true s n : 0 <= s < n -> ((0 <=? s) && (s <? n)) = true.
Proof. intros. apply andb_true_intro. lia. Qed.

Lemma ushr_ok x s : 0 <= s < wbits -> ushr x s = Ok (x / 2 ^ s).
Proof. intros. unfold ushr. by rewrite in_range_true, Z.shiftr_div_pow2 by lia. Qed.

Lemma ushl_ok x s : 0 <= s < wbits -> ushl x s = Ok (wrap (x * 2 ^ s)).
Proof. intros. unfold ushl. by rewrite in_range_true, Z.shiftl_mul_pow2 by lia. Qed.

Lemma dshr_ok x s : 0 <= s < 2 * wbits -> dshr x s = Ok (x / 2 ^ s).
Proof. intros. unfold dshr. by rewrite in_range_true, Z.shiftr_div_pow2 by lia. Qed.

Lemma dshl_ok x s : 0 <= s < 2 * wbits -> dshl x s = Ok (dwrap (x * 2 ^ s)).
Proof. intros. unfold dshl. by rewrite in_range_true, Z.shiftl_mul_pow2 by lia. Qed.

Lemma scheck_ok x : - 2 ^ (wbits - 1) <= x < 2 ^ (wbits - 1) -> scheck x = Ok x.
Proof. intros. unfold scheck. rewrite (proj2 (andb_true_iff _ _)); [done | lia]. Qed.

Lemma scheck_cases x : scheck x = Ok x \/ scheck x = UB.
Proof. unfold scheck. destruct (_ && _); auto. Qed.

Lemma to_signed_small x : 0 <= x < 2 ^ (wbits - 1) -> to_signed x = x.
Proof.
  intros. unfold to_signed. pose proof word_half.
  rewrite wrap_small by lia. by rewrite (proj2 (Z.ltb_lt _ _)) by lia.
Qed.

(** ** Double words *)

(** The number a [typeD] stands for. *)
Definition D_value (x : typeD) : Z := hi x * 2 ^ wbits + lo x.
Definition D_wf (x : typeD) : Prop := 0 <= hi x < 2 ^ wbits /\ 0 <= lo x < 2 ^ wbits.

Lemma MultD_wf a b : D_wf (MultD a b).
Proof.
  unfold D_wf, MultD, NATIVEINTMASK. simpl. pose proof wbits_range.
  replace (2 ^ wbits - 1) with (Z.ones wbits) by (rewrite Z.ones_equiv; lia).
  rewrite !Z.land_ones by lia. split; apply mod_range, word_pos.
Qed.

Lemma MultD_value a b :
  0 <= a < 2 ^ wbits -> 0 <= b < 2 ^ wbits -> D_value (MultD a b) = a * b.
Proof.
  intros Ha Hb. unfold D_value, MultD, NATIVEINTMASK, MaxBits. simpl.
  pose proof wbits_range. pose proof (mul_dword a b Ha Hb) as Hp.
  rewrite dwrap_small by done.
  replace (2 ^ wbits - 1) with (Z.ones wbits) by (rewrite Z.ones_equiv; lia).
  rewrite !Z.land_ones, Z.shiftr_div_pow2 by lia.
  rewrite (Z.mod_small (_ / _)).
  - pose proof (Z.div_mod (a * b) (2 ^ wbits)). pose proof word_pos. lia.
  - apply div_range; [apply word_pos|]. by rewrite <- dword_square.
Qed.

Lemma GetD_value x : D_wf x -> GetD x = Ok (D_value x).
Proof.
  intros [Hh Hl]. unfold GetD, MaxBits. pose proof wbits_range. pose proof word_pos.
  rewrite dshl_ok by lia. simpl. rewrite dwrap_small by (rewrite dword_square; nia).
  f_equal. apply lor_disjoint; [lia | done].
Qed.

(** [RShiftD] is the low word of the shifted double word, for shifts by at least
    one and less than a word: shifting by zero shifts [hi] by the whole width. *)
Lemma RShiftD_value x s :
  D_wf x -> 1 <= s < wbits -> RShiftD x s = Ok (wrap (D_value x / 2 ^ s)).
Proof.
  intros [Hh Hl] Hs. unfold RShiftD, MaxBits. pose proof wbits_range.
  rewrite ushr_ok, ushl_ok by lia. simpl. f_equal.
  assert (2 ^ wbits = 2 ^ (wbits - s) * 2 ^ s) as Hsplit
    by (rewrite <- Z.pow_add_r by lia; f_equal; lia).
  assert (0 < 2 ^ s) by (apply pow2_pos; lia).
  assert (0 < 2 ^ (wbits - s)) by (apply pow2_pos; lia).
  assert (0 <= lo x / 2 ^ s < 2 ^ (wbits - s)) as Hlo by (apply div_range; lia).
  assert (wrap (hi x * 2 ^ (wbits - s)) = (hi x mod 2 ^ s) * 2 ^ (wbits - s)) as ->.
  { unfold wrap. rewrite Hsplit, (Z.mul_comm _ (2 ^ s)). by apply Zmult_mod_distr_r. }
  rewrite Z.lor_comm, lor_disjoint by lia.
  unfold D_value, wrap. rewrite Hsplit.
  rewrite (Z.mul_assoc (hi x)), Z.div_add_l by lia.
  rewrite <- Z.add_mod_idemp_l by nia.
  rewrite (Z.mul_comm (2 ^ (wbits - s)) (2 ^ s)), Zmult_mod_distr_r.
  rewrite (Z.mod_small (_ + _)); [done|].
  pose proof (mod_range (hi x) (2 ^ s)). nia.
Qed.

Lemma D_unique x y : D_wf x -> D_wf y -> D_value x = D_value y -> x = y.
Proof.
  destruct x as [xh xl], y as [yh yl]. unfold D_wf, D_value. simpl.
  intros [? ?] [? ?] E. assert (xh = yh) by nia. f_equal; nia.
Qed.

(** Adding two words: the sum wraps exactly when it is below an operand. *)
Lemma wrap_add_carry a b :
  0 <= a < 2 ^ wbits -> 0 <= b < 2 ^ wbits ->
  a + b = (if wrap (a + b) <? a then 1 else 0) * 2 ^ wbits + wrap (a + b) /\
  (wrap (a + b) <? b) = (wrap (a + b) <? a).
Proof.
  intros Ha Hb. unfold wrap. destruct (Z.lt_ge_cases (a + b) (2 ^ wbits)).
  - rewrite Z.mod_small by lia. rewrite !(proj2 (Z.ltb_ge _ _)) by lia. lia.
  - rewrite <- mod_sub_once by lia. rewrite !(proj2 (Z.ltb_lt _ _)) by lia. lia.
Qed.

(** Subtracting two words borrows exactly when the first is smaller. *)
Lemma wrap_sub_borrow a b :
  0 <= a < 2 ^ wbits -> 0 <= b < 2 ^ wbits ->
  a - b = wrap (a - b) - (if a <? b then 1 else 0) * 2 ^ wbits.
Proof.
  intros Ha Hb. unfold wrap. destruct (Z.ltb_spec a b).
  - rewrite <- (Z_mod_plus_full (a - b) 1), Z.mod_small by lia. lia.
  - rewrite Z.mod_small by lia. lia.
Qed.

Lemma word_halves : exists H, 2 ^ (wbits / 2) = H /\ 2 ^ wbits = H * H /\ 0 < H.
Proof.
  exists (2 ^ (wbits / 2)). split; [done|]. pose proof wbits_range.
  split; [|apply pow2_pos; destruct wbits_cases as [E|E]; rewrite E; done].
  rewrite <- Z.pow_add_r by (destruct wbits_cases as [E|E]; rewrite E; done).
  f_equal. destruct wbits_cases as [E|E]; rewrite E; done.
Qed.

(** The carries of the schoolbook product: [rl] is the low word, and the high
    word is exact. *)
Lemma schoolbook_carries H a1 a2 b1 b2 temp c d rl :
  2 ^ wbits = H * H -> 0 < H -> 0 <= a1 < H -> 0 <= a2 < H -> 0 <= b1 < H -> 0 <= b2 < H ->
  a2 * b1 + a1 * b2 = c * 2 ^ wbits + temp -> 0 <= temp -> 0 <= c -> 0 <= d ->
  a2 * b2 + temp mod H * H = d * 2 ^ wbits + rl -> 0 <= rl < 2 ^ wbits ->
  (a1 * H + a2) * (b1 * H + b2)
  = (a1 * b1 + temp / H + d + c * H) * 2 ^ wbits + rl /\
  a1 * b1 + temp / H + d + c * H < 2 ^ wbits.
Proof.
  intros HW H0 Ha1 Ha2 Hb1 Hb2 E1 Ht Hc Hd E2 Hrl.
  pose proof (Z.div_mod temp H ltac:(lia)) as Dt.
  assert ((a1 * H + a2) * (b1 * H + b2)
    = (a1 * b1 + temp / H + d + c * H) * 2 ^ wbits + rl) as E by nia.
  split; [done|].
  assert ((a1 * H + a2) * (b1 * H + b2) < 2 ^ wbits * 2 ^ wbits); [|nia].
  assert (a1 * H + a2 < 2 ^ wbits) by nia. assert (b1 * H + b2 < 2 ^ wbits) by nia.
  apply Z.mul_lt_mono_nonneg; nia.
Qed.

(** The portable product by half words equals the product instruction and is the
    exact double-word product. *)
Theorem MultD_schoolbook_exact a b :
  0 <= a < 2 ^ wbits -> 0 <= b < 2 ^ wbits ->
  MultD_schoolbook a b = MultD a b /\ D_value (MultD_schoolbook a b) = a * b.
Proof.
  intros Ha Hb. destruct word_halves as (H & HH & HW & H0).
  assert (0 <= wbits / 2) as Hhalf by (pose proof wbits_range; apply Z.div_pos; lia).
  assert (D_wf (MultD_schoolbook a b) /\ D_value (MultD_schoolbook a b) = a * b) as [Hwf Hv].
  2: { split; [|done]. apply D_unique; [done | apply MultD_wf |].
       by rewrite MultD_value. }
  unfold MultD_schoolbook. rewrite !Z.shiftr_div_pow2, Z.shiftl_mul_pow2, HH by done.
  pose proof (div_range a H H ltac:(lia) ltac:(lia)) as Ra1.
  pose proof (div_range b H H ltac:(lia) ltac:(lia)) as Rb1.
  pose proof (mod_range a H ltac:(lia)) as Ra2.
  pose proof (mod_range b H ltac:(lia)) as Rb2.
  pose proof (Z.div_mod a H ltac:(lia)) as Da. pose proof (Z.div_mod b H ltac:(lia)) as Db.
  set (a1 := a / H) in *. set (a2 := a mod H) in *.
  set (b1 := b / H) in *. set (b2 := b mod H) in *.
  rewrite (wrap_small (a1 * b1)), (wrap_small (a2 * b2)), (wrap_small (a2 * b1)),
    (wrap_small (a1 * b2)) by nia.
  destruct (wrap_add_carry (a2 * b1) (a1 * b2)) as [E1 ->]; [nia..|].
  rewrite orb_diag. pose proof (wrap_range (a2 * b1 + a1 * b2)) as Rt.
  set (temp := wrap (a2 * b1 + a1 * b2)) in *.
  pose proof (mod_range temp H ltac:(lia)) as Rtm.
  rewrite (wrap_small (temp mod H * H)) by nia.
  destruct (wrap_add_carry (a2 * b2) (temp mod H * H)) as [E2 _]; [nia..|].
  rewrite Z.gtb_ltb. pose proof (wrap_range (a2 * b2 + temp mod H * H)) as Rl.
  set (rl := wrap (a2 * b2 + temp mod H * H)) in *.
  set (c := temp <? a2 * b1) in *. set (d := rl <? a2 * b2) in *.
  pose proof (schoolbook_carries H a1 a2 b1 b2 temp (if c then 1 else 0) (if d then 1 else 0) rl
    HW H0 Ra1 Ra2 Rb1 Rb2 E1 ltac:(lia) ltac:(destruct c; lia) ltac:(destruct d; lia) E2 Rl)
    as [E B].
  pose proof (Z.div_pos temp H ltac:(lia) ltac:(lia)) as Htd.
  unfold D_wf, D_value. simpl.
  rewrite (wrap_small (a1 * b1 + temp / H)) by (destruct c, d; nia).
  destruct c, d; rewrite ?(wrap_small (_ + 1)), ?(wrap_small (_ + H)) by nia;
    (split; [nia|]); rewrite Da, Db; nia.
Qed.

Lemma SubtractD_wf x y : D_wf (SubtractD x y).
Proof. unfold SubtractD. destruct (_ <? _); split; apply wrap_range. Qed.

Lemma SubtractD_value x y :
  D_wf x -> D_wf y -> D_value (SubtractD x y) = dwrap (D_value x - D_value y).
Proof.
  intros [Hxh Hxl] [Hyh Hyl]. pose proof word_pos as Hw.
  assert (SubtractD x y = mk_typeD (wrap (hi x - (if lo x <? lo y then 1 else 0) - hi y))
                                   (wrap (lo x - lo y))) as ->.
  { unfold SubtractD, m_uintMax, wrap. destruct (Z.ltb_spec (lo x) (lo y)).
    - f_equal; apply eqmod_elim; rewrite ?eqmod_mod; apply eqmod_divide; try lia.
      + exists 0. lia.
      + exists 1. lia.
    - by rewrite Z.sub_0_r. }
  pose proof (wrap_sub_borrow (lo x) (lo y) Hxl Hyl) as El.
  unfold D_value, dwrap. cbn [hi lo]. rewrite dword_square.
  set (bw := if lo x <? lo y then 1 else 0) in *. pose proof (wrap_range (lo x - lo y)).
  replace (hi x * 2 ^ wbits + lo x - (hi y * 2 ^ wbits + lo y))
    with (wrap (lo x - lo y) + 2 ^ wbits * (hi x - bw - hi y)) by lia.
  set (l := wrap (lo x - lo y)) in *. unfold wrap.
  rewrite Z.rem_mul_r by lia.
  rewrite (Z.mul_comm (2 ^ wbits) (hi x - bw - hi y)), Z.div_add by lia.
  rewrite Z_mod_plus_full, (Z.mod_small l), (Z.div_small l), Z.add_0_l by lia. ring.
Qed.

(** ** Barrett reduction *)

(** Moduli for which [ComputeMu] fits in a word and the shifts are defined. *)
Definition barrett_modulus (m : Z) : Prop :=
  4 <= m < 2 ^ (wbits - 4) /\ m <> 2 ^ (wbits - 5).

(** What the reduction returns for the dividend [v]: the remainder, or the
    modulus itself in place of the remainder zero. *)
Definition barrett_result (m v r : Z) : Prop :=
  r = v mod m \/ (r = m /\ v mod m = 0 /\ v <> 0).

(** The part the Barrett operations share, after the dividend [v = x]. *)
Definition barrett_tail (x : typeD) (v modulus mu : Z) : outcome Z :=
  let n := GetMSB modulus in
  ql ← RShiftD x (n + -2);
  q ← GetD (MultD ql mu);
  q ← dshr q (n + 3 - -2);
  let r := wrap (dwrap (v - dwrap (q * modulus))) in
  Ok (if r >? modulus then wrap (r - modulus) else r).

Lemma barrett_msb m :
  barrett_modulus m -> 3 <= GetMSB m <= wbits - 4 /\ 2 ^ (GetMSB m - 1) <= m < 2 ^ GetMSB m.
Proof.
  intros [Hm _]. pose proof wbits_range. split; [split|apply GetMSB_bounds; lia].
  - destruct (Z.le_gt_cases 3 (GetMSB m)) as [|Hlt]; [done|].
    assert (m < 2 ^ 2) by (apply GetMSB_le; lia). lia.
  - apply GetMSB_le; lia.
Qed.

(** The parameter [mu] and the bound on it that the word size gives. *)
Definition barrett_mu (m : Z) : Z := 2 ^ (2 * GetMSB m + 3) / m.

Lemma barrett_mu_range m : barrett_modulus m -> 0 <= barrett_mu m < 2 ^ wbits.
Proof.
  intros Hm. destruct (barrett_msb m Hm) as [Hn Hb]. destruct Hm as [Hm Hne].
  unfold barrett_mu. set (n := GetMSB m) in *.
  assert (0 < 2 ^ (2 * n + 3)) by (apply pow2_pos; lia).
  split; [apply Z.div_pos; lia|].
  apply Z.div_lt_upper_bound; [lia|].
  assert (2 ^ (2 * n + 3) = 2 ^ (n - 1) * 2 ^ (n + 4)) as E
    by (rewrite <- Z.pow_add_r by lia; f_equal; lia).
  assert (2 ^ (n + 4) <= 2 ^ wbits) by (apply Z.pow_le_mono_r; lia).
  assert (0 < 2 ^ (n - 1)) by (apply pow2_pos; lia).
  rewrite E. destruct (Z.eq_dec m (2 ^ (n - 1))) as [Em|]; [|nia].
  assert (n <> wbits - 4) by (intros ->; apply Hne; rewrite Em; f_equal; lia).
  rewrite Em. apply Z.mul_lt_mono_pos_l; [done|]. apply Z.pow_lt_mono_r; lia.
Qed.

Lemma ComputeMu_ok m : barrett_modulus m -> ComputeMu m = Ok (barrett_mu m).
Proof.
  intros Hm. pose proof (barrett_msb m Hm) as [Hn Hb]. pose proof wbits_range.
  pose proof (barrett_mu_range m Hm) as Hmu. unfold ComputeMu.
  rewrite dshl_ok by lia. simpl. rewrite Z.mul_1_l, dwrap_small.
  - rewrite udiv_pos by (destruct Hm; lia). simpl. f_equal. by apply wrap_small.
  - split; [apply Z.lt_le_incl, pow2_pos; lia|]. apply Z.pow_lt_mono_r; lia.
Qed.

(** The last correction: one subtraction, taken only when the remainder is
    larger than the modulus. *)
Lemma barrett_result_correction m v r :
  0 < m -> 0 <= r < 2 * m -> r <= v -> r ==[m] v ->
  barrett_result m v (if r >? m then r - m else r).
Proof.
  intros Hm Hr Hv [E]. unfold barrett_result. rewrite Z.gtb_ltb, <- E.
  destruct (Z.ltb_spec m r); [left; apply mod_sub_once; lia|].
  destruct (Z.eq_dec r m) as [->|]; [|left; rewrite Z.mod_small; lia].
  right. rewrite Z.mod_same by lia. lia.
Qed.

Lemma barrett_tail_correct x v m :
  barrett_modulus m -> D_wf x -> D_value x = v -> v < 2 ^ (2 * GetMSB m + 2) ->
  returns (barrett_tail x v m (barrett_mu m)) (barrett_result m v).
Proof.
  intros Hm Hwf Hx Hv. pose proof (barrett_msb m Hm) as [Hn Hb].
  pose proof (barrett_mu_range m Hm) as Hmu. pose proof wbits_range as Hw.
  pose proof word_pos as Hwp.
  assert (0 <= v) as Hv0 by (destruct Hwf; subst v; unfold D_value; nia).
  pose proof (barrett_bounds m (GetMSB m) v ltac:(lia) Hb ltac:(lia)) as [Hq Hr].
  unfold barrett_tail, barrett_mu in *. set (n := GetMSB m) in *.
  set (mu := 2 ^ (2 * n + 3) / m) in *.
  replace (n + -2) with (n - 2) by lia. rewrite RShiftD_value, Hx by (done || lia).
  assert (0 <= v / 2 ^ (n - 2) < 2 ^ wbits) as Hql.
  { apply div_range; [apply pow2_pos; lia|]. split; [done|].
    rewrite <- Z.pow_add_r by lia. eapply Z.lt_le_trans; [apply Hv|].
    apply Z.pow_le_mono_r; lia. }
  simpl. rewrite wrap_small, GetD_value, MultD_value by (done || apply MultD_wf).
  simpl. replace (n + 3 - -2) with (n + 5) by lia. rewrite dshr_ok by lia. simpl.
  set (q := v / 2 ^ (n - 2) * mu / 2 ^ (n + 5)) in *.
  assert (m < 2 ^ (wbits - 4)) as Hmw by (destruct Hm; lia).
  assert (2 ^ wbits = 16 * 2 ^ (wbits - 4)) as Ew
    by (change 16 with (2 ^ 4); rewrite <- Z.pow_add_r by lia; f_equal; lia).
  assert (v < 2 ^ (2 * wbits)).
  { eapply Z.lt_le_trans; [apply Hv|]. apply Z.pow_le_mono_r; lia. }
  pose proof dword_square.
  rewrite (dwrap_small (q * m)), (dwrap_small (v - _)), (wrap_small (v - _)) by nia.
  replace (if v - q * m >? m then wrap (v - q * m - m) else v - q * m)
    with (if v - q * m >? m then v - q * m - m else v - q * m).
  - apply barrett_result_correction; [lia.. | nia |].
    replace (v - q * m) with (v + - q * m) by ring. apply eqmod_multiple.
  - rewrite Z.gtb_ltb. destruct (Z.ltb_spec m (v - q * m)); [|done].
    by rewrite wrap_small by lia.
Qed.

(** Dividends below [2 ^ (2 n + 2)]: products of reduced operands and, when the
    modulus has at least half the bits of a word, single words. *)
Lemma barrett_dividend m a b :
  0 < m -> 0 <= a <= m -> 0 <= b <= m -> 0 <= a * b < 2 ^ (2 * GetMSB m + 2).
Proof.
  intros Hm Ha Hb. pose proof (GetMSB_bounds m Hm) as [_ H].
  pose proof (GetMSB_pos m Hm).
  assert (2 ^ (2 * GetMSB m + 2) = 4 * (2 ^ GetMSB m * 2 ^ GetMSB m)) as E.
  { rewrite <- Z.pow_add_r, Z.pow_add_r by lia. rewrite Z.mul_comm. f_equal. f_equal. lia. }
  nia.
Qed.

(** Barrett reduction of one word. *)
Lemma Mod_mu_bounded a m :
  barrett_modulus m -> 0 <= a < 2 ^ wbits -> a < 2 ^ (2 * GetMSB m + 2) ->
  returns (Mod_mu a m (barrett_mu m)) (barrett_result m a).
Proof.
  intros Hm Ha Hw. pose proof word_pos.
  apply (barrett_tail_correct (mk_typeD 0 a) a); [done | split; simpl; lia | done | lia].
Qed.

Lemma Mod_mu_correct a m :
  barrett_modulus m -> 0 <= a < 2 ^ wbits -> wbits <= 2 * GetMSB m + 2 ->
  returns (Mod_mu a m (barrett_mu m)) (barrett_result m a).
Proof.
  intros Hm Ha Hw. apply Mod_mu_bounded; [done | done |].
  eapply Z.lt_le_trans; [apply Ha|]. apply Z.pow_le_mono_r; lia.
Qed.

Lemma ModMulFast_mu_tail a b m mu :
  0 <= a < 2 ^ wbits -> 0 <= b < 2 ^ wbits ->
  ModMulFast_mu a b m mu = barrett_tail (MultD a b) (a * b) m mu.
Proof.
  intros Ha Hb. unfold ModMulFast_mu.
  rewrite GetD_value, MultD_value by (done || apply MultD_wf). reflexivity.
Qed.

Lemma barrett_modulus_word m : barrett_modulus m -> 4 <= m < 2 ^ (wbits - 1).
Proof.
  intros [Hm _]. split; [lia|]. pose proof wbits_range.
  eapply Z.lt_le_trans; [apply Hm|]. apply Z.pow_le_mono_r; lia.
Qed.

Lemma ModMulFast_mu_result a b m :
  barrett_modulus m -> 0 <= a <= m -> 0 <= b <= m ->
  returns (ModMulFast_mu a b m (barrett_mu m)) (barrett_result m (a * b)).
Proof.
  intros Hm Ha Hb. pose proof (barrett_modulus_word m Hm). pose proof word_half.
  rewrite ModMulFast_mu_tail by lia. apply barrett_tail_correct;
    [done | apply MultD_wf | apply MultD_value; lia | apply barrett_dividend; lia].
Qed.

(** For a prime modulus no product of nonzero residues is a multiple of it. *)
Lemma ModMulFast_mu_exact a b m :
  barrett_modulus m -> Z.prime m -> 0 <= a < m -> 0 <= b < m ->
  ModMulFast_mu a b m (barrett_mu m) = Ok ((a * b) mod m).
Proof.
  intros Hm Hp Ha Hb.
  pose proof (ModMulFast_mu_result a b m Hm ltac:(lia) ltac:(lia)) as Hr.
  apply returns_Ok in Hr as (r & -> & [->|(-> & E & Hne)]); [done|]. exfalso.
  apply Z.mod_divide in E; [|lia]. apply Z.divide_prime_mul in E as [E|E]; [| |done];
    apply Z.divide_pos_le in E; nia.
Qed.

(** The product in place of reduced operands is the fast product. *)
Lemma ModMulEq_mu_exact a b m :
  barrett_modulus m -> Z.prime m -> 0 <= a < m -> 0 <= b < m ->
  ModMulEq_mu a b m (barrett_mu m) = Ok ((a * b) mod m).
Proof.
  intros Hm Hp Ha Hb. unfold ModMulEq_mu.
  rewrite (Z.gtb_ltb a), (Z.gtb_ltb b), !(proj2 (Z.ltb_ge m _)), !bind_Ok by lia.
  exact (ModMulFast_mu_exact a b m Hm Hp Ha Hb).
Qed.

(** For moduli within the Barrett range, ComputeMu returns the exact parameter and
    ModMulFast with it returns the residue of the product, or the modulus in place
    of the residue zero; for a prime modulus and reduced operands it is exactly the
    residue. *)
Theorem ModMulFast_mu_correct a b m :
  barrett_modulus m -> 0 <= a <= m -> 0 <= b <= m ->
  ComputeMu m = Ok (barrett_mu m) /\
  returns (ModMulFast_mu a b m (barrett_mu m)) (barrett_result m (a * b)) /\
  (Z.prime m -> a < m -> b < m ->
   ModMulFast_mu a b m (barrett_mu m) = Ok ((a * b) mod m)).
Proof.
  intros Hm Ha Hb. split; [by apply ComputeMu_ok|].
  split; [by apply ModMulFast_mu_result|]. intros. by apply ModMulFast_mu_exact; [..|lia|lia].
Qed.

(** ** Modular operations with a plain modulus *)

Lemma reduce_ge a m : 0 <= a -> 0 < m -> (if a >=? m then umod a m else Ok a) = Ok (a mod m).
Proof.
  intros. rewrite Z.geb_leb. destruct (Z.leb_spec m a); [by apply umod_pos|].
  by rewrite Z.mod_small by lia.
Qed.

Lemma reduce_gt a m : 0 <= a -> 0 < m ->
  exists r, (if a >? m then umod a m else Ok a) = Ok r /\ 0 <= r <= m /\ r ==[m] a.
Proof.
  intros. rewrite Z.gtb_ltb. destruct (Z.ltb_spec m a).
  - exists (a mod m). rewrite umod_pos by done. pose proof (mod_range a m).
    repeat split; [lia.. |]. apply Zmod_mod.
  - exists a. repeat split; lia.
Qed.

Lemma ModAddFast_correct a b m :
  0 < m <= 2 ^ (wbits - 1) -> 0 <= a < m -> 0 <= b < m ->
  ModAddFast a b m = (a + b) mod m.
Proof.
  intros Hm Ha Hb. unfold ModAddFast. pose proof word_half.
  rewrite (wrap_small (a + b)) by lia. rewrite Z.geb_leb.
  destruct (Z.leb_spec m (a + b)).
  - rewrite wrap_small by lia. apply mod_sub_once. lia.
  - by rewrite Z.mod_small by lia.
Qed.

Lemma ModSubFast_correct a b m :
  0 < m < 2 ^ wbits -> 0 <= a < m -> 0 <= b < m ->
  ModSubFast a b m = (a - b) mod m.
Proof.
  intros Hm Ha Hb. unfold ModSubFast. rewrite Z.geb_leb. destruct (Z.leb_spec b a).
  - by rewrite wrap_small, Z.mod_small by lia.
  - rewrite (wrap_small (m - b)), wrap_small by lia.
    rewrite <- (Z_mod_plus_full (a - b) 1), Z.mod_small by lia. lia.
Qed.

Lemma ModMulFast_correct a b m :
  0 < m < 2 ^ wbits -> 0 <= a < 2 ^ wbits -> 0 <= b < 2 ^ wbits ->
  ModMulFast a b m = Ok ((a * b) mod m).
Proof.
  intros Hm Ha Hb. unfold ModMulFast. rewrite dwrap_small by (by apply mul_dword).
  rewrite reduce_ge by nia. simpl. f_equal. apply wrap_small.
  pose proof (mod_range (a * b) m). lia.
Qed.

Lemma ModAdd_correct a b m :
  0 <= a < 2 ^ wbits -> 0 <= b < 2 ^ wbits -> 0 < m <= 2 ^ (wbits - 1) ->
  ModAdd a b m = Ok ((a + b) mod m).
Proof.
  intros Ha Hb Hm. pose proof (mod_range a m ltac:(lia)). pose proof (mod_range b m ltac:(lia)).
  unfold ModAdd. rewrite !reduce_ge by lia. simpl.
  change (Ok (ModAddFast (a mod m) (b mod m) m) = Ok ((a + b) mod m)).
  rewrite ModAddFast_correct by lia. by rewrite <- Zplus_mod.
Qed.

Lemma ModSub_correct a b m :
  0 <= a < 2 ^ wbits -> 0 <= b < 2 ^ wbits -> 0 < m < 2 ^ wbits ->
  ModSub a b m = Ok ((a - b) mod m).
Proof.
  intros Ha Hb Hm. pose proof (mod_range a m ltac:(lia)). pose proof (mod_range b m ltac:(lia)).
  unfold ModSub. rewrite !reduce_ge by lia. simpl.
  change (Ok (ModSubFast (a mod m) (b mod m) m) = Ok ((a - b) mod m)).
  rewrite ModSubFast_correct by lia. by rewrite <- Zminus_mod.
Qed.

Lemma ModMul_correct a b m :
  0 <= a < 2 ^ wbits -> 0 <= b < 2 ^ wbits -> 0 < m < 2 ^ wbits ->
  ModMul a b m = Ok ((a * b) mod m).
Proof.
  intros Ha Hb Hm. unfold ModMul. destruct (reduce_gt a m) as (x & -> & Hx & Ex); [lia..|].
  destruct (reduce_gt b m) as (y & -> & Hy & Ey); [lia..|]. simpl.
  change (ModMulFast x y m = Ok ((a * b) mod m)).
  rewrite ModMulFast_correct by lia. f_equal. apply eqmod_elim. by rewrite Ex, Ey.
Qed.

(** The modular sum, difference and product of any two words are the residues, for
    moduli up to half the word, and the in-place variants agree. *)
Theorem ModAdd_ModSub_ModMul_correct a b m :
  0 <= a < 2 ^ wbits -> 0 <= b < 2 ^ wbits -> 0 < m <= 2 ^ (wbits - 1) ->
  ModAdd a b m = Ok ((a + b) mod m) /\
  ModSub a b m = Ok ((a - b) mod m) /\
  ModMul a b m = Ok ((a * b) mod m) /\
  ModAddEq a b m = ModAdd a b m /\ ModSubEq a b m = ModSub a b m /\
  ModMulEq a b m = ModMul a b m.
Proof.
  intros Ha Hb Hm. pose proof word_half as Hh. pose proof (pow2_pos (wbits - 1)).
  pose proof wbits_range.
  split; [by apply ModAdd_correct|]. split; [by apply ModSub_correct; lia|].
  split; [by apply ModMul_correct; lia|]. done.
Qed.

(** ** Multiplication by a constant *)

Lemma PrepModMulConst_ok b m :
  0 <= b < m -> m < 2 ^ wbits ->
  exists bInv, PrepModMulConst b m = Ok bInv /\ bInv = b * 2 ^ wbits / m /\ 0 <= bInv < 2 ^ wbits.
Proof.
  intros Hb Hm. pose proof word_pos. pose proof wbits_range. exists (b * 2 ^ wbits / m).
  assert (0 <= b * 2 ^ wbits / m < 2 ^ wbits) as R
    by (split; [apply Z.div_pos | apply Z.div_lt_upper_bound]; nia).
  split; [|done]. unfold PrepModMulConst, MaxBits.
  rewrite dshl_ok, bind_Ok by lia. rewrite dwrap_small by (rewrite dword_square; nia).
  rewrite udiv_pos, bind_Ok by lia. by rewrite wrap_small.
Qed.

Lemma MultDHi_value a b :
  0 <= a < 2 ^ wbits -> 0 <= b < 2 ^ wbits -> MultDHi a b = a * b / 2 ^ wbits.
Proof.
  intros Ha Hb. pose proof (MultD_value a b Ha Hb) as V. pose proof (MultD_wf a b) as [_ L].
  pose proof word_pos. unfold MultDHi. rewrite <- V. unfold D_value.
  rewrite Z.div_add_l, Z.div_small by lia. lia.
Qed.

(** The estimate of the quotient by the precomputed constant is exact or one
    too small. *)
Lemma shoup_quotient R a b m :
  0 < R -> 0 < m -> 0 <= a < R -> 0 <= b < m ->
  0 <= a * b - a * (b * R / m) / R * m < 2 * m.
Proof.
  intros HR Hm Ha Hb. set (bi := b * R / m).
  pose proof (Z.div_mod (b * R) m ltac:(lia)) as Db. fold bi in Db.
  pose proof (mod_range (b * R) m Hm) as Rb.
  pose proof (Z.div_mod (a * bi) R ltac:(lia)) as Dq.
  pose proof (mod_range (a * bi) R HR) as Rq. set (q := a * bi / R) in *.
  assert (R * (a * b - q * m) = a * ((b * R) mod m) + m * ((a * bi) mod R)) as E by nia.
  assert (R * (a * b - q * m) < R * (2 * m)) by nia. nia.
Qed.

Lemma ModMulFastConst_prec a b m :
  0 <= a < 2 ^ wbits -> 0 <= b < m -> 2 * m <= 2 ^ (wbits - 1) ->
  forall bInv, PrepModMulConst b m = Ok bInv -> ModMulFastConst a b m bInv = Ok ((a * b) mod m).
Proof.
  intros Ha Hb Hm bInv E. pose proof word_half as Hh. pose proof word_pos as Hw.
  destruct (PrepModMulConst_ok b m Hb ltac:(lia)) as (bi & E' & Ebi & Hbi).
  rewrite E' in E. injection E as <-.
  pose proof (shoup_quotient (2 ^ wbits) a b m Hw ltac:(lia) Ha Hb) as Hy. rewrite <- Ebi in Hy.
  unfold ModMulFastConst. rewrite MultDHi_value by done. set (q := a * bi / 2 ^ wbits) in *.
  assert (wrap (wrap (a * b) - wrap (q * m)) = a * b - q * m) as ->.
  { rewrite <- (wrap_small (a * b - q * m)) by lia. unfold wrap.
    symmetry. apply Zminus_mod. }
  rewrite !to_signed_small, scheck_ok by lia. simpl. f_equal. rewrite Z.geb_leb.
  assert ((a * b) mod m = (a * b - q * m) mod m) as ->.
  { replace (a * b - q * m) with (a * b + (- q) * m) by ring. by rewrite Z_mod_plus_full. }
  destruct (Z.leb_spec 0 (a * b - q * m - m)).
  - rewrite wrap_small by lia. apply mod_sub_once. lia.
  - by rewrite Z.mod_small by lia.
Qed.

(** Multiplication by a constant with the quotient of PrepModMulConst returns the
    residue of the product for any first operand of a word, without signed overflow. *)
Theorem ModMulFastConst_correct a b m :
  0 <= a < 2 ^ wbits -> 0 <= b < m -> 2 * m <= 2 ^ (wbits - 1) ->
  returns (PrepModMulConst b m) (fun bInv =>
    ModMulFastConst a b m bInv = Ok ((a * b) mod m) /\
    ModMulFastConstEq a b m bInv = Ok ((a * b) mod m)).
Proof.
  intros Ha Hb Hm. pose proof word_half.
  destruct (PrepModMulConst_ok b m) as (bi & E & _); [lia..|].
  rewrite E. simpl. pose proof (ModMulFastConst_prec a b m Ha Hb Hm bi E). by split.
Qed.

(** ** Exponentiation and inversion *)

Lemma pow_halves x e : 0 <= e ->
  x ^ e = (if e mod 2 =? 1 then x else 1) * (x * x) ^ Z.shiftr e 1.
Proof.
  intros He. rewrite Z.shiftr_div_pow2 by lia. change (2 ^ 1) with 2.
  pose proof (Z.div_mod e 2 ltac:(lia)) as D. pose proof (mod_range e 2 ltac:(lia)).
  assert (0 <= e / 2) by (apply Z.div_pos; lia).
  rewrite D at 1. rewrite Z.pow_add_r, Z.pow_mul_r, Z.pow_2_r by lia.
  rewrite Z.mul_comm. f_equal. destruct (Z.eqb_spec (e mod 2) 1) as [->|]; [lia|].
  replace (e mod 2) with 0 by lia. done.
Qed.

Lemma ModExp_loop_correct m : 0 < m < 2 ^ wbits -> forall n e p mid,
  0 <= e < 2 ^ Z.of_nat (S n) -> 0 <= p < 2 ^ wbits -> 0 <= mid < m ->
  ModExp_loop (S n) e p mid m = Ok ((p * mid ^ e) mod m).
Proof.
  intros Hm. induction n as [|n IH]; intros e p mid He Hp Hmid.
  all: set (p' := if e mod 2 =? 1 then dwrap (p * mid) else p).
  all: assert (0 <= p' /\ p' * (mid * mid) ^ Z.shiftr e 1 = p * mid ^ e) as [Hp' Ep]
    by (pose proof (mul_dword p mid Hp ltac:(lia));
        rewrite (pow_halves mid e) by lia; unfold p'; rewrite dwrap_small by done;
        destruct (_ =? _); split; [lia | ring | lia | ring]).
  all: simpl; fold p'; rewrite reduce_ge by lia; simpl.
  all: destruct (Z.eqb_spec (Z.shiftr e 1) 0) as [E|E];
    [by rewrite <- Ep, E, Z.pow_0_r, Z.mul_1_r |].
  - exfalso. apply E. rewrite Z.shiftr_div_pow2 by lia. apply Z.div_small. simpl in *. lia.
  - rewrite dwrap_small by (apply mul_dword; lia). rewrite umod_pos by lia. simpl.
    pose proof (mod_range p' m ltac:(lia)).
    change (ModExp_loop (S n) (Z.shiftr e 1) (p' mod m) ((mid * mid) mod m) m
            = Ok ((p * mid ^ e) mod m)).
    rewrite IH; [| | lia | apply mod_range; lia].
    + f_equal. rewrite <- Ep. apply eqmod_elim. rewrite eqmod_mod.
      by rewrite (eqmod_pow m _ _ _ (eqmod_mod m (mid * mid))).
    + rewrite Z.shiftr_div_pow2 by lia. apply div_range; [lia|].
      rewrite <- Z.pow_add_r by lia. replace (1 + _) with (Z.of_nat (S (S n))) by lia. lia.
Qed.

Lemma ModExp_ok a b m :
  0 <= a -> 0 <= b < 2 ^ wbits -> 0 < m < 2 ^ wbits ->
  ModExp a b m = Ok (a ^ b mod m).
Proof.
  intros Ha Hb Hm. unfold ModExp. pose proof wbits_range. rewrite umod_pos by lia. simpl.
  pose proof (mod_range a m ltac:(lia)) as Hr.
  replace (Z.to_nat wbits) with (S (Z.to_nat (wbits - 1))) by lia.
  rewrite ModExp_loop_correct; [| done | | lia | done].
  - simpl. f_equal. rewrite Z.mul_1_l, wrap_small.
    + apply eqmod_elim, eqmod_pow, eqmod_mod.
    + pose proof (mod_range ((a mod m) ^ b) m). lia.
  - replace (Z.of_nat (S (Z.to_nat (wbits - 1)))) with wbits by lia. done.
Qed.

(** ModExp terminates and returns the power modulo the modulus, for every modulus
    and exponent of a word. *)
Theorem ModExp_correct a b m :
  0 <= a -> 0 <= b < 2 ^ wbits -> 0 < m < 2 ^ wbits ->
  ModExp a b m = Ok (a ^ b mod m) /\ ModExpEq a b m = Ok (a ^ b mod m).
Proof. intros. split; by apply ModExp_ok. Qed.

(** The state of the loop of [ModInverse]: [x] and [y] are the coefficients of
    [v] in the two remainders, of opposite signs and bounded by the modulus. *)
Record egcd_inv (M v a md x y : Z) : Prop := {
  egcd_md : 0 <= md <= a;
  egcd_a : 1 <= a <= M;
  egcd_gcd : Z.gcd a md = 1;
  egcd_x : x * v ==[M] a;
  egcd_y : y * v ==[M] md;
  egcd_sign : exists s X Y, (s = 1 \/ s = -1) /\ x = - s * X /\ y = s * Y /\
                0 <= X < M /\ 0 <= Y /\ a * Y + md * X = M
}.

Lemma egcd_step M v a md x y :
  egcd_inv M v a md x y -> 1 < a -> 0 < md ->
  egcd_inv M v md (a mod md) y (x - a / md * y) /\ 0 <= a / md <= M /\
  - M <= a / md * y <= M /\ - M <= x - a / md * y <= M /\ - M <= y <= M.
Proof.
  intros [Hmd Ha Hg Hx Hy (s & X & Y & Hs & -> & -> & HX & HY & E)] Ha1 Hmd1.
  pose proof (Z.div_mod a md ltac:(lia)) as D. pose proof (mod_range a md Hmd1) as R.
  assert (0 <= a / md) by (apply Z.div_pos; lia). set (q := a / md) in *.
  assert (q <= a) by nia.
  assert (q * Y <= a * Y) by nia. assert (0 <= md * X) by nia. assert (0 <= q * Y) by nia.
  assert (0 <= md * (X + q * Y) <= M) as HB by nia. assert (X + q * Y <= M) by nia.
  assert (2 * Y <= M) by nia.
  split; [|repeat split; destruct Hs; subst s; try nia].
  - split; [lia | lia | | done | |].
    + rewrite Z.gcd_comm, Z.gcd_mod by lia. by rewrite Z.gcd_comm.
    + rewrite Z.mul_sub_distr_r, Hx, <- Z.mul_assoc, Hy. apply eqmod_eq. lia.
    + exists (- s), Y, (X + q * Y). repeat split; [lia | ring | ring | lia | nia | lia |]. nia.
Qed.

Lemma halve_product a md : 0 < md <= a -> 2 * (md * (a mod md)) <= a * md.
Proof.
  intros H. pose proof (Z.div_mod a md ltac:(lia)). pose proof (mod_range a md ltac:(lia)).
  assert (1 <= a / md) by (apply Z.div_le_lower_bound; lia). nia.
Qed.

Lemma ModInverse_loop_exit n a md x y : a <= 1 -> ModInverse_loop (S n) a md x y = Ok x.
Proof. intros. simpl. rewrite Z.gtb_ltb. by rewrite (proj2 (Z.ltb_ge _ _)) by lia. Qed.

Lemma ModInverse_loop_step n a md x y :
  1 < a < 2 ^ (wbits - 1) -> 0 < md < 2 ^ (wbits - 1) ->
  - 2 ^ (wbits - 1) <= a / md * y < 2 ^ (wbits - 1) ->
  - 2 ^ (wbits - 1) <= x - a / md * y < 2 ^ (wbits - 1) ->
  ModInverse_loop (S n) a md x y
  = ModInverse_loop n md (a mod md) y (x - a / md * y).
Proof.
  intros Ha Hmd Hqy Hxy. pose proof word_half.
  assert (0 <= a / md <= a) as Hq.
  { split; [apply Z.div_pos; lia|]. apply Z.div_le_upper_bound; nia. }
  cbn [ModInverse_loop]. rewrite Z.gtb_ltb, (proj2 (Z.ltb_lt _ _)) by lia.
  rewrite udiv_pos, umod_pos, !bind_Ok by lia.
  rewrite (to_signed_small (a / md)), (to_signed_small md) by lia.
  rewrite (scheck_ok (a / md * y)), bind_Ok by lia.
  rewrite (scheck_ok (x - _)), bind_Ok by lia. by rewrite wrap_small by lia.
Qed.

Lemma ModInverse_loop_correct M v : M < 2 ^ (wbits - 1) -> forall n a md x y,
  egcd_inv M v a md x y -> a * md < 2 ^ Z.of_nat n ->
  returns (ModInverse_loop (S n) a md x y) (fun r => r * v ==[M] 1 /\ - M < r < M).
Proof.
  intros HM. pose proof word_half as Hh.
  induction n as [|n IH]; intros a md x y Hinv Hfuel; destruct (Z.le_gt_cases a 1) as [Ha1|Ha1].
  1,3: rewrite ModInverse_loop_exit by done;
    destruct Hinv as [? ? ? Hx ? (s & X & Y & Hs & -> & -> & HX & HY & E)];
    assert (a = 1) as -> by lia; simpl; split; [done | destruct Hs; subst s; lia].
  all: assert (0 < md) as Hmd
    by (destruct (Z.eq_dec md 0) as [->|]; [|destruct Hinv; lia];
        destruct Hinv as [? ? Hg]; rewrite Z.gcd_0_r, Z.abs_eq in Hg by lia; lia).
  1: { exfalso. change (2 ^ Z.of_nat 0) with 1 in Hfuel. nia. }
  pose proof Hinv as [[_ Hle] [_ HaM] _ _ _ _].
  destruct (egcd_step _ _ _ _ _ _ Hinv Ha1 Hmd) as (Hinv' & Hq & Hqy & Hxy & Hy).
  rewrite ModInverse_loop_step by lia.
  apply IH; [done|]. pose proof (halve_product a md).
  rewrite Nat2Z.inj_succ, Z.pow_succ_r in Hfuel by lia. lia.
Qed.

(** One turn of the loop on any coefficients: a signed overflow, or the next
    remainders. *)
Lemma ModInverse_loop_remainders n a md x y :
  1 < a -> 0 < md < 2 ^ wbits ->
  ModInverse_loop (S n) a md x y = UB \/
  exists x' y', ModInverse_loop (S n) a md x y = ModInverse_loop n md (a mod md) x' y'.
Proof.
  intros Ha Hmd. pose proof word_half. cbn [ModInverse_loop].
  rewrite Z.gtb_ltb, (proj2 (Z.ltb_lt _ _)), udiv_pos, umod_pos, !bind_Ok by lia.
  assert (wrap (to_signed md) = md) as ->.
  { unfold to_signed. rewrite (wrap_small md) by lia. destruct (_ <? _).
    - by apply wrap_small; lia.
    - unfold wrap. rewrite <- (Z_mod_plus_full _ 1), Z.mod_small by lia. lia. }
  destruct (scheck_cases (to_signed (a / md) * y)) as [->| ->]; [|by left].
  rewrite bind_Ok. destruct (scheck_cases (x - to_signed (a / md) * y)) as [->| ->]; [|by left].
  rewrite bind_Ok. right. eauto.
Qed.

Lemma gcd_remainder a md : 0 < md -> Z.gcd md (a mod md) = Z.gcd a md.
Proof. intros. by rewrite Z.gcd_comm, Z.gcd_mod, Z.gcd_comm by lia. Qed.

Lemma gcd_gt_1 a md : 0 <= md <= a -> 1 < Z.gcd a md -> 1 < a.
Proof.
  intros Hle Hg. destruct (Z.eq_dec a 0) as [->|].
  - replace md with 0 in Hg by lia. by rewrite Z.gcd_0_r in Hg.
  - pose proof (Z.divide_pos_le _ a ltac:(lia) (Z.gcd_divide_l a md)). lia.
Qed.

(** With a common divisor the remainders reach zero before one, and the loop
    divides by zero. *)
Lemma ModInverse_loop_not_coprime : forall n a md x y,
  0 <= md <= a -> a < 2 ^ wbits -> 1 < Z.gcd a md -> a * md < 2 ^ Z.of_nat n ->
  ModInverse_loop (S n) a md x y = UB.
Proof.
  induction n as [|n IH]; intros a md x y Hle Hw Hg Hfuel;
    pose proof (gcd_gt_1 a md Hle Hg) as Ha1;
    (destruct (Z.eq_dec md 0) as [->|];
     [by simpl; rewrite Z.gtb_ltb, (proj2 (Z.ltb_lt _ _) Ha1) |]).
  - change (2 ^ Z.of_nat 0) with 1 in Hfuel. nia.
  - destruct (ModInverse_loop_remainders (S n) a md x y) as [|(x' & y' & ->)]; [lia..|done|].
    pose proof (mod_range a md ltac:(lia)). apply IH; [lia | lia | by rewrite gcd_remainder by lia |].
    pose proof (halve_product a md). rewrite Nat2Z.inj_succ, Z.pow_succ_r in Hfuel by lia. lia.
Qed.

(** The loop swaps its operands first. *)
Lemma ModInverse_loop_swap n b M :
  1 < b < M -> M < 2 ^ (wbits - 1) ->
  ModInverse_loop (S n) b M 1 0 = ModInverse_loop n M b 0 1.
Proof.
  intros Hb HM. rewrite ModInverse_loop_step; rewrite ?Z.div_small, ?Z.mod_small by lia;
    reflexivity || lia.
Qed.

Lemma ModInverse_fuel M a :
  0 <= a < M -> M < 2 ^ (wbits - 1) -> M * a < 2 ^ Z.of_nat (Z.to_nat (2 * wbits)).
Proof.
  intros Ha HM. pose proof word_half. pose proof wbits_range.
  rewrite Z2Nat.id, dword_square by lia. nia.
Qed.

(** [ModInverse] after its guards. *)
Lemma ModInverse_unfold v M :
  2 <= M < 2 ^ (wbits - 1) ->
  ModInverse v M =
    if v mod M =? 0 then Throw math_error
    else
      x ← ModInverse_loop (S (S (Z.to_nat (2 * wbits)))) (v mod M) M 1 0;
      x ← (if x <? 0 then scheck (x + M) else Ok x);
      Ok (wrap x).
Proof.
  intros HM. pose proof wbits_range. unfold ModInverse. rewrite umod_pos, bind_Ok by lia.
  destruct (Z.eqb_spec M 1); [lia|]. rewrite to_signed_small by lia.
  by replace (Z.to_nat (2 * wbits + 2)) with (S (S (Z.to_nat (2 * wbits)))) by lia.
Qed.

Lemma ModInverse_correct v M :
  2 <= M < 2 ^ (wbits - 1) -> Z.gcd v M = 1 ->
  returns (ModInverse v M) (fun r => 0 <= r < M /\ (v * r) mod M = 1).
Proof.
  intros HM Hg. pose proof word_half. pose proof (mod_range v M ltac:(lia)) as Ha0.
  rewrite ModInverse_unfold by done. destruct (Z.eqb_spec (v mod M) 0) as [E0|E0].
  { exfalso. apply Z.mod_divide in E0; [|lia].
    pose proof (Z.gcd_greatest v M M E0 (Z.divide_refl M)) as D.
    rewrite Hg in D. apply Z.divide_1_r_nonneg in D; lia. }
  eapply (returns_bind _ _ (fun r => r * v ==[M] 1 /\ - M < r < M)).
  - destruct (Z.eq_dec (v mod M) 1) as [E1|].
    + rewrite E1, ModInverse_loop_exit by lia. simpl. split; [|lia]. constructor.
      rewrite Z.mul_1_l, E1. by rewrite Z.mod_small by lia.
    + rewrite ModInverse_loop_swap by lia.
      apply ModInverse_loop_correct; [lia | | by apply ModInverse_fuel; lia].
      split; [lia | lia | by rewrite gcd_remainder by lia | | |].
      * constructor. by rewrite Z.mul_0_l, Z.mod_0_l, Z.mod_same by lia.
      * rewrite Z.mul_1_l. symmetry. apply eqmod_mod.
      * exists 1, 0, 1. lia.
  - intros r [Hr Hb].
    assert (forall z, 0 <= z < M -> z * v ==[M] 1 ->
      returns (Ok (wrap z)) (fun r => 0 <= r < M /\ (v * r) mod M = 1)) as Hfin.
    { intros z Hz [Ez]. simpl. rewrite wrap_small by lia. split; [lia|].
      rewrite Z.mul_comm, Ez, Z.mod_small by lia. done. }
    destruct (Z.ltb_spec r 0).
    + rewrite scheck_ok by lia. apply Hfin; [lia|].
      rewrite Z.mul_add_distr_r, Hr, (Z.mul_comm M). apply eqmod_multiple.
    + apply Hfin; [lia | done].
Qed.

(** ModInverse returns the inverse of a unit in the range of the modulus without
    overflowing its signed coefficients; it throws math_error on multiples of the
    modulus; on any other non-unit it divides by zero. *)
Theorem ModInverse_spec v M :
  2 <= M < 2 ^ (wbits - 1) ->
  (Z.gcd v M = 1 ->
     returns (ModInverse v M) (fun r => 0 <= r < M /\ (v * r) mod M = 1)) /\
  (v mod M = 0 -> ModInverse v M = Throw math_error) /\
  (v mod M <> 0 -> 1 < Z.gcd v M -> ModInverse v M = UB).
Proof.
  intros HM. pose proof word_half. pose proof (mod_range v M ltac:(lia)) as Ha0.
  split; [by apply ModInverse_correct|]. rewrite ModInverse_unfold by done.
  split; [by intros ->|]. intros E0 Hg. destruct (Z.eqb_spec (v mod M) 0); [done|].
  assert (v mod M <> 1) as E1.
  { intros E1. rewrite <- (gcd_remainder v M), E1, Z.gcd_1_r in Hg; lia. }
  rewrite ModInverse_loop_swap by lia.
  rewrite ModInverse_loop_not_coprime; [done | lia | lia | by rewrite gcd_remainder by lia |].
  by apply ModInverse_fuel; lia.
Qed.

(** ** Barrett: operands that are not reduced *)

Lemma odd_divides_pow2 m k : 0 <= k -> Z.odd m = true -> 0 < m -> (m | 2 ^ k) -> m = 1.
Proof.
  intros Hk Ho Hm. revert k Hk. apply (natlike_ind (fun k => (m | 2 ^ k) -> m = 1)).
  - intros Hd. apply Z.divide_1_r_nonneg in Hd; lia.
  - intros k Hk IH Hd. apply IH. rewrite Z.pow_succ_r in Hd by done.
    apply (Z.gauss m 2 (2 ^ k)); [done|].
    pose proof (Z.gcd_nonneg m 2). pose proof (Z.gcd_divide_l m 2) as D1.
    pose proof (Z.divide_pos_le _ 2 ltac:(lia) (Z.gcd_divide_r m 2)).
    assert (Z.gcd m 2 <> 0) by (intros E; apply Z.gcd_eq_0_l in E; lia).
    destruct (Z.eq_dec (Z.gcd m 2) 2) as [E|]; [|lia].
    rewrite E in D1. destruct D1 as [c ->].
    by rewrite Z.odd_mul, andb_false_r in Ho.
Qed.

(** The Barrett reduction of an odd modulus by itself returns the modulus and not
    zero: the correction tests for greater, not greater or equal. *)
Theorem Mod_mu_keeps_modulus m :
  barrett_modulus m -> Z.odd m = true -> Mod_mu m m (barrett_mu m) = Ok m.
Proof.
  intros Hm Ho. pose proof (barrett_msb m Hm) as [Hn Hb].
  pose proof (barrett_modulus_word m Hm). pose proof word_half. pose proof wbits_range.
  pose proof (barrett_mu_range m Hm) as Hmu.
  change (Mod_mu m m (barrett_mu m))
    with (barrett_tail (mk_typeD 0 m) m m (barrett_mu m)).
  unfold barrett_tail, barrett_mu in *. set (n := GetMSB m) in *.
  assert (2 ^ (2 * n + 3) = 2 ^ (n + 5) * 2 ^ (n - 2)) as HP
    by (rewrite <- Z.pow_add_r by lia; f_equal; lia).
  assert (0 < 2 ^ (n - 2)) as HA by (apply pow2_pos; lia).
  pose proof (pow2_pos (n + 5) ltac:(lia)) as HB.
  replace (n + -2) with (n - 2) by lia.
  rewrite RShiftD_value, bind_Ok by (split; simpl; lia || lia).
  unfold D_value. cbn [hi lo]. rewrite Z.mul_0_l, Z.add_0_l.
  pose proof (Z.div_mod m (2 ^ (n - 2)) ltac:(lia)) as Dm.
  pose proof (mod_range m (2 ^ (n - 2)) HA) as Rm.
  pose proof (Z.div_mod (2 ^ (2 * n + 3)) m ltac:(lia)) as DP.
  pose proof (mod_range (2 ^ (2 * n + 3)) m ltac:(lia)) as RP.
  assert (0 <= m / 2 ^ (n - 2) <= m) as Hql.
  { split; [apply Z.div_pos; lia|]. apply Z.div_le_upper_bound; nia. }
  rewrite wrap_small by lia.
  set (ql := m / 2 ^ (n - 2)) in *. set (mu := 2 ^ (2 * n + 3) / m) in *.
  rewrite GetD_value, MultD_value, bind_Ok by (lia || apply MultD_wf).
  rewrite dshr_ok, bind_Ok by lia. replace (n + 3 - -2) with (n + 5) by lia.
  rewrite (Z.div_small (ql * mu)).
  - rewrite Z.mul_0_l, (dwrap_small 0), Z.sub_0_r, dwrap_small, wrap_small
      by (rewrite ?dword_square; nia).
    rewrite Z.gtb_ltb. by rewrite (Z.ltb_irrefl m).
  - split; [nia|]. destruct (Z.lt_ge_cases (ql * mu) (2 ^ (n + 5))) as [|Hge]; [done|].
    exfalso. enough (m = 1) by lia. apply (odd_divides_pow2 m (2 * n + 3)); [lia|done|lia|].
    exists mu. assert (2 ^ (2 * n + 3) <= ql * 2 ^ (n - 2) * mu) by (rewrite HP; nia). nia.
Qed.

Lemma barrett_result_le m v r :
  0 < m -> barrett_result m v r -> 0 <= r <= m /\ r ==[m] v.
Proof.
  intros Hm [->|(-> & E & _)].
  - pose proof (mod_range v m Hm). split; [lia | apply eqmod_mod].
  - split; [lia|]. constructor. by rewrite Z.mod_same by lia.
Qed.

Lemma reduce_mu a m :
  barrett_modulus m -> 0 <= a < 2 ^ wbits -> wbits <= 2 * GetMSB m + 2 ->
  returns (if a >? m then ModEq_mu a m (barrett_mu m) else Ok a)
    (fun r => 0 <= r <= m /\ r ==[m] a).
Proof.
  intros Hm Ha Hw. rewrite Z.gtb_ltb. destruct (Z.ltb_spec m a); [|simpl; split; [lia | done]].
  eapply returns_mono; [by apply Mod_mu_correct|]. intros r Hr.
  apply (barrett_result_le m a); [destruct Hm; lia | done].
Qed.

(** The Barrett product of any word by an operand at most the modulus is at most
    the modulus and congruent to the product, for moduli of at least half a word. *)
Theorem ModMul_mu_congruent a b m :
  barrett_modulus m -> wbits <= 2 * GetMSB m + 2 ->
  0 <= a < 2 ^ wbits -> 0 <= b <= m ->
  returns (ModMul_mu a b m (barrett_mu m)) (fun r => 0 <= r <= m /\ r ==[m] a * b) /\
  ModMulEq_mu a b m (barrett_mu m) = ModMul_mu a b m (barrett_mu m).
Proof.
  intros Hm Hw Ha Hb. split; [|done]. unfold ModMul_mu, ModMulEq_mu.
  pose proof (barrett_modulus_word m Hm). pose proof word_half.
  eapply returns_bind; [by apply reduce_mu|]. intros a' [Ha' Ea].
  rewrite (Z.gtb_ltb b m), (proj2 (Z.ltb_ge m b)), bind_Ok by lia.
  change (returns (ModMulFast_mu a' b m (barrett_mu m)) (fun r => 0 <= r <= m /\ r ==[m] a * b)).
  rewrite ModMulFast_mu_tail by lia.
  eapply returns_mono; [apply barrett_tail_correct;
    [done | apply MultD_wf | apply MultD_value; lia | apply barrett_dividend; lia] |].
  intros r Hr. rewrite <- Ea. apply barrett_result_le; [lia | done].
Qed.

(** ** Checked addition, rounding division *)

(** The checked sum throws exactly when it overflows, and the checked difference
    stops at zero. *)
Theorem AddCheck_exact a b :
  0 <= a < 2 ^ wbits -> 0 <= b < 2 ^ wbits ->
  AddCheck a b = (if a + b <? 2 ^ wbits then Ok (a + b) else Throw math_error) /\
  AddEqCheck a b = AddCheck a b /\
  SubCheck a b = Z.max 0 (a - b) /\ SubEqCheck a b = SubCheck a b.
Proof.
  intros Ha Hb. destruct (wrap_add_carry a b Ha Hb) as [E Eb].
  pose proof (wrap_range (a + b)). unfold AddCheck, AddEqCheck. rewrite Eb, orb_diag.
  split; [|split; [done|split; [|done]]].
  - destruct (Z.ltb_spec (wrap (a + b)) a), (Z.ltb_spec (a + b) (2 ^ wbits)); try lia; [done|].
    f_equal. lia.
  - unfold SubCheck. destruct (Z.leb_spec a b); [lia|]. rewrite wrap_small by lia. lia.
Qed.

(** [DivideAndRound] rounds to a nearest integer and throws on a zero divisor. *)
Theorem DivideAndRound_nearest a q :
  0 <= a < 2 ^ wbits -> 0 < q < 2 ^ wbits ->
  returns (DivideAndRound a q) (fun r => - q < 2 * (a - r * q) <= q) /\
  DivideAndRound a 0 = Throw math_error.
Proof.
  intros Ha Hq. split; [|done]. unfold DivideAndRound. pose proof wbits_range.
  destruct (Z.eqb_spec q 0); [lia|]. rewrite udiv_pos, umod_pos, ushr_ok by lia.
  rewrite !bind_Ok. change (2 ^ 1) with 2.
  pose proof (Z.div_mod a q ltac:(lia)) as D. pose proof (mod_range a q ltac:(lia)).
  pose proof (Z.div_mod q 2 ltac:(lia)) as Dq. pose proof (mod_range q 2 ltac:(lia)).
  assert (0 <= a / q) by (apply Z.div_pos; lia).
  destruct (Z.leb_spec (a mod q) (q / 2)); simpl.
  - nia.
  - rewrite wrap_small; nia.
Qed.

(** ** Digits *)

Lemma GetBitAtIndex_ok a i :
  1 <= i <= wbits -> 0 <= a -> GetBitAtIndex a i = Ok ((a / 2 ^ (i - 1)) mod 2).
Proof.
  intros Hi Ha. unfold GetBitAtIndex. destruct (Z.eqb_spec i 0); [lia|].
  rewrite ushr_ok by lia. simpl. f_equal. by rewrite (Z.land_ones _ 1) by lia.
Qed.

(** The low [j + 1] bits are the low [j] bits and bit [j]. *)
Lemma mod_pow2_succ x j : 0 <= j -> x mod 2 ^ (j + 1) = x mod 2 ^ j + (x / 2 ^ j) mod 2 * 2 ^ j.
Proof.
  intros Hj. rewrite Z.pow_add_r by lia. change (2 ^ 1) with 2.
  rewrite Z.rem_mul_r by (pose proof (pow2_pos j Hj); lia). ring.
Qed.

Lemma GetDigit_loop_ok a s k : 0 <= a -> 0 <= s -> k <= 31 -> s + k <= wbits ->
  forall n j, 0 <= j <= k -> k - j < Z.of_nat n ->
  GetDigit_loop n a (2 ^ k) (2 ^ j) (1 + s + j) ((a / 2 ^ s) mod 2 ^ j)
  = Ok ((a / 2 ^ s) mod 2 ^ k).
Proof.
  intros Ha Hs Hk Hw. induction n as [|n IH]; intros j Hj Hn; [lia|]. cbn [GetDigit_loop].
  pose proof wbits_range. pose proof (pow2_pos j ltac:(lia)) as Hp.
  destruct (Z.ltb_spec (2 ^ j) (2 ^ k)) as [Hlt|Hge].
  2: { assert (j = k) as -> by (destruct (Z.eq_dec j k); [done|];
         pose proof (Z.pow_lt_mono_r 2 j k); lia). done. }
  assert (j < k) as Hjk by (apply (Z.pow_lt_mono_r_iff 2); lia).
  assert (2 ^ (j + 1) <= 2 ^ 31) as Hp1 by (apply Z.pow_le_mono_r; lia).
  rewrite Z.pow_add_r in Hp1 by lia. change (2 ^ 31) with 2147483648 in Hp1.
  rewrite GetBitAtIndex_ok, bind_Ok by lia.
  replace (1 + s + j - 1) with (s + j) by lia. rewrite Z.pow_add_r, <- Z.div_div by lia.
  set (b := (a / 2 ^ s / 2 ^ j) mod 2). pose proof (mod_range (a / 2 ^ s / 2 ^ j) 2) as Hb. fold b in Hb.
  pose proof (mod_range (a / 2 ^ s) (2 ^ j) Hp).
  rewrite (u32_small (b * _)), !u32_small by (change (2 ^ 32) with 4294967296; nia).
  replace (2 ^ j * 2) with (2 ^ (j + 1)) by (by rewrite Z.pow_add_r by lia).
  replace (1 + s + j + 1) with (1 + s + (j + 1)) by lia.
  unfold b. rewrite <- (mod_pow2_succ _ j) by lia. apply IH; lia.
Qed.

(** The digits in a power-of-two base, counted from one. *)
Theorem GetDigitAtIndexForBase_digit a k index :
  0 <= a < 2 ^ wbits -> 1 <= k <= 31 -> 1 <= index -> index * k <= wbits ->
  GetDigitAtIndexForBase a index (2 ^ k) = Ok ((a / (2 ^ k) ^ (index - 1)) mod 2 ^ k).
Proof.
  intros Ha Hk Hi Hw. unfold GetDigitAtIndexForBase. pose proof wbits_range.
  rewrite Z.log2_up_pow2 by lia.
  rewrite (u32_small (index - 1)), (u32_small ((index - 1) * k)), u32_small
    by (change (2 ^ 32) with 4294967296; nia).
  rewrite <- Z.pow_mul_r, (Z.mul_comm k) by lia.
  pose proof (GetDigit_loop_ok a ((index - 1) * k) k ltac:(lia) ltac:(nia) ltac:(lia) ltac:(nia)
    33 0 ltac:(lia) ltac:(lia)) as H0.
  by rewrite Z.add_0_r, Z.mod_1_r in H0.
Qed.

(** ** Decimal strings *)

Definition decimal (s : list ascii) : Prop := Forall (fun c => 0 <= digit_of c <= 9) s.
Definition digits_value (v : Z) (s : list ascii) : Z :=
  fold_left (fun v c => v * 10 + digit_of c) s v.

Lemma digits_value_ge s v : decimal s -> 0 <= v -> v <= digits_value v s.
Proof.
  intros Hs. revert v. induction Hs as [|c s Hc Hs IH]; intros v Hv; simpl; [lia|].
  specialize (IH (v * 10 + digit_of c)). lia.
Qed.

Lemma AssignVal_loop_exact s v :
  decimal s -> 0 <= v -> digits_value v s < 2 ^ wbits ->
  AssignVal_loop s v v = Ok (digits_value v s).
Proof.
  intros Hs. revert v. induction Hs as [|c s Hc Hs IH]; intros v Hv Hb; simpl; [done|].
  pose proof (digits_value_ge s (v * 10 + digit_of c) Hs ltac:(lia)). simpl in Hb.
  rewrite (proj2 (orb_false_iff _ _)) by (rewrite Z.gtb_ltb; split; lia).
  rewrite (wrap_small (v * 10)), wrap_small by lia.
  destruct (Z.ltb_spec (v * 10 + digit_of c) v); [lia|]. by apply IH; lia.
Qed.

Lemma digit_of_decimal d : 0 <= d <= 9 -> digit_of (ascii_of_N (Z.to_N (48 + d))) = d.
Proof.
  intros Hd. unfold digit_of. rewrite N_ascii_embedding by lia. lia.
Qed.

Lemma to_string_loop_decimal n v acc : decimal acc -> decimal (to_string_loop n v acc).
Proof.
  revert v acc. induction n as [|n IH]; intros v acc H; simpl; [done|].
  assert (decimal (ascii_of_N (Z.to_N (48 + v mod 10)) :: acc)).
  { constructor; [|done]. pose proof (mod_range v 10). rewrite digit_of_decimal; lia. }
  destruct (_ =? _); [done | by apply IH].
Qed.

Lemma to_string_loop_value n v acc :
  0 <= v < 10 ^ Z.of_nat n ->
  digits_value 0 (to_string_loop n v acc) = digits_value v acc.
Proof.
  revert v acc. induction n as [|n IH]; intros v acc Hv.
  { change (10 ^ Z.of_nat 0) with 1 in Hv. by replace v with 0 by lia. }
  rewrite Nat2Z.inj_succ, Z.pow_succ_r in Hv by lia. simpl.
  pose proof (Z.div_mod v 10 ltac:(lia)) as D. pose proof (mod_range v 10).
  assert (digits_value (v / 10) (ascii_of_N (Z.to_N (48 + v mod 10)) :: acc) = digits_value v acc) as E.
  { simpl. rewrite digit_of_decimal by lia. f_equal. lia. }
  destruct (Z.eqb_spec (v / 10) 0) as [E0|]; [by rewrite <- E, E0 |].
  rewrite IH; [done|]. by apply div_range; [lia|].
Qed.

(** Parsing the decimal string of a native integer returns the integer. *)
Theorem AssignVal_ToString a : 0 <= a < 2 ^ wbits -> AssignVal (ToString a) = Ok a.
Proof.
  intros Ha. unfold AssignVal, ToString.
  assert (a < 10 ^ Z.of_nat 20) as Hd.
  { eapply Z.lt_trans; [apply Ha|]. by destruct wbits_cases as [-> | ->]. }
  assert (digits_value 0 (to_string_loop 20 a []) = a) as E
    by (by rewrite to_string_loop_value by lia).
  rewrite AssignVal_loop_exact; [by rewrite E | apply to_string_loop_decimal; constructor | done | lia].
Qed.

(** ** The largest modulus size *)

(** For the modulus [2 ^ (w - 5)] the Barrett parameter does not fit a word, and
    reducing with the stored value subtracts the modulus once at most. *)
Theorem ComputeMu_truncates :
  GetMSB (2 ^ (wbits - 5)) <= MAX_MODULUS_SIZE /\ ComputeMu (2 ^ (wbits - 5)) = Ok 0 /\
  forall a, 2 ^ (wbits - 5) <= a < 2 ^ wbits ->
    ModEq_mu a (2 ^ (wbits - 5)) 0
    = Ok (if a =? 2 ^ (wbits - 5) then a else a - 2 ^ (wbits - 5)).
Proof.
  pose proof wbits_range as Hw.
  assert (GetMSB (2 ^ (wbits - 5)) = wbits - 4) as En.
  { rewrite GetMSB_log2, Z.log2_pow2 by (try apply pow2_pos; lia). lia. }
  split; [|split].
  - rewrite En. unfold MAX_MODULUS_SIZE. by destruct wbits_cases as [-> | ->].
  - unfold ComputeMu. rewrite En, dshl_ok, bind_Ok, Z.mul_1_l by lia.
    rewrite dwrap_small by (split; [apply Z.lt_le_incl, pow2_pos; lia | apply Z.pow_lt_mono_r; lia]).
    rewrite udiv_pos, bind_Ok by (apply pow2_pos; lia). rewrite <- Z.pow_sub_r by lia.
    replace (2 * (wbits - 4) + 3 - (wbits - 5)) with wbits by lia.
    unfold wrap. by rewrite Z.mod_same by (pose proof word_pos; lia).
  - intros a Ha. set (m := 2 ^ (wbits - 5)) in *.
    assert (0 < m) by (apply pow2_pos; lia). pose proof word_pos.
    change (ModEq_mu a m 0) with (barrett_tail (mk_typeD 0 a) a m 0).
    unfold barrett_tail. rewrite En.
    rewrite RShiftD_value, bind_Ok by (split; simpl; lia || lia).
    set (ql := wrap _).
    rewrite GetD_value, MultD_value, Z.mul_0_r, bind_Ok
      by (apply MultD_wf || apply wrap_range || lia).
    rewrite dshr_ok, bind_Ok, Z.div_0_l, Z.mul_0_l by (try (pose proof (pow2_pos (wbits - 4 + 3 - -2)); lia); lia).
    rewrite (dwrap_small 0), Z.sub_0_r, dwrap_small, (wrap_small a) by (rewrite ?dword_square; nia).
    rewrite Z.gtb_ltb. destruct (Z.ltb_spec m a), (Z.eqb_spec a m); try lia; [|done].
    by rewrite wrap_small by lia.
Qed.

(** The checked products throw on a zero factor and accept a wrap to zero. *)
Theorem MulCheck_misjudges a :
  0 < a < 2 ^ wbits ->
  MulEqCheck a 0 = Throw math_error /\
  MulCheck (2 ^ (wbits / 2)) (2 ^ (wbits / 2)) = Ok 0.
Proof.
  intros Ha. destruct word_halves as (H & -> & EH & HH). split.
  - unfold MulEqCheck. rewrite Z.mul_0_r, wrap_small by lia.
    by rewrite (proj2 (Z.ltb_lt _ _)) by lia.
  - unfold MulCheck, wrap. rewrite <- EH, Z.mod_same by nia. done.
Qed.
End Facts.

(** ** Witnesses and examples, for 64-bit words *)

Ltac word64 := change (@wbits W64) with 64 in *; simpl Z.sub in *; lia.

Lemma prime_257 : Z.prime 257.
Proof. apply prime_test_sound. vm_compute. reflexivity. Qed.

Lemma barrett_1000003 : @barrett_modulus W64 1000003.
Proof. split; word64. Qed.

Lemma MultD_schoolbook_exact_witness :
  @MultD_schoolbook W64 (2 ^ 64 - 1) (2 ^ 63 + 5) = @MultD W64 (2 ^ 64 - 1) (2 ^ 63 + 5).
Proof. apply (MultD_schoolbook_exact (W := W64)); word64. Defined.

Lemma ModMulFast_mu_correct_witness :
  @ModMulFast_mu W64 255 256 257 (barrett_mu 257) = Ok ((255 * 256) mod 257).
Proof.
  apply (ModMulFast_mu_correct (W := W64)); [split; word64 | lia.. | apply prime_257 | lia | lia].
Defined.

Lemma ModAdd_ModSub_ModMul_correct_witness :
  @ModAdd W64 (2 ^ 64 - 1) (2 ^ 64 - 2) (2 ^ 63) = Ok (2 ^ 63 - 3).
Proof. apply (ModAdd_ModSub_ModMul_correct (W := W64) (2 ^ 64 - 1) (2 ^ 64 - 2) (2 ^ 63)); word64. Defined.

Lemma ModMulFastConst_correct_witness :
  returns (@PrepModMulConst W64 12345 1000003) (fun bInv =>
    @ModMulFastConst W64 (2 ^ 64 - 1) 12345 1000003 bInv = Ok (((2 ^ 64 - 1) * 12345) mod 1000003)).
Proof.
  eapply returns_mono; [apply (ModMulFastConst_correct (W := W64) (2 ^ 64 - 1)); word64|].
  intros r [H _]. exact H.
Defined.

Lemma ModExp_correct_witness : @ModExp W64 3 (2 ^ 63) 1000003 = Ok (3 ^ (2 ^ 63) mod 1000003).
Proof. refine (proj1 (ModExp_correct (W := W64) 3 (2 ^ 63) 1000003 _ _ _)); word64. Defined.

Lemma ModInverse_spec_witness :
  returns (@ModInverse W64 3 1000003) (fun r => 0 <= r < 1000003 /\ (3 * r) mod 1000003 = 1) /\
  @ModInverse W64 2 4 = UB.
Proof.
  split; [apply (ModInverse_spec (W := W64)) | apply (ModInverse_spec (W := W64))];
    first [word64 | vm_compute; congruence].
Defined.

Lemma Mod_mu_keeps_modulus_witness :
  @Mod_mu W64 1000003 1000003 (barrett_mu 1000003) = Ok 1000003.
Proof. apply (Mod_mu_keeps_modulus (W := W64)); [apply barrett_1000003 | reflexivity]. Defined.

Lemma ModMul_mu_congruent_witness :
  returns (@ModMul_mu W64 (2 ^ 64 - 1) 5 (2 ^ 31 - 1) (barrett_mu (2 ^ 31 - 1)))
    (fun r => 0 <= r <= 2 ^ 31 - 1 /\ r ==[2 ^ 31 - 1] (2 ^ 64 - 1) * 5).
Proof.
  apply (ModMul_mu_congruent (W := W64) (2 ^ 64 - 1) 5 (2 ^ 31 - 1));
    [split; word64 | vm_compute; congruence | word64 | lia].
Defined.

Lemma AddCheck_exact_witness : @AddCheck W64 (2 ^ 64 - 1) 1 = Throw math_error.
Proof. apply (AddCheck_exact (W := W64) (2 ^ 64 - 1) 1); word64. Defined.

Lemma DivideAndRound_nearest_witness :
  returns (@DivideAndRound W64 17 5) (fun r => - 5 < 2 * (17 - r * 5) <= 5).
Proof. apply (DivideAndRound_nearest (W := W64)); word64. Defined.

Lemma GetDigitAtIndexForBase_digit_witness :
  @GetDigitAtIndexForBase W64 1023 2 (2 ^ 4) = Ok ((1023 / (2 ^ 4) ^ (2 - 1)) mod 2 ^ 4).
Proof. apply (GetDigitAtIndexForBase_digit (W := W64)); word64. Defined.

Lemma AssignVal_ToString_witness :
  @AssignVal W64 (ToString (2 ^ 64 - 1)) = Ok (2 ^ 64 - 1).
Proof. apply (AssignVal_ToString (W := W64)); word64. Defined.

Lemma MulCheck_misjudges_witness : @MulEqCheck W64 7 0 = Throw math_error.
Proof. apply (MulCheck_misjudges (W := W64) 7); word64. Defined.

(** The Barrett product in place multiplies by the operand that was not reduced. *)
Theorem ModMulEq_mu_ignores_reduction :
  @ComputeMu W64 1000003 = Ok (barrett_mu 1000003) /\
  @ModMulEq_mu W64 999999 (2 ^ 63) 1000003 (barrett_mu 1000003) = Ok 316256321388199357 /\
  (999999 * 2 ^ 63) mod 1000003 = 298629.
Proof. repeat split; vm_compute; reflexivity. Qed.

(** The decimal parser accepts a number that does not fit a word. *)
Theorem AssignVal_misses_overflow :
  @AssignVal W64 (map (fun d => ascii_of_N (48 + d)) (3%N :: repeat 0%N 19))
  = Ok 11553255926290448384 /\
  digits_value 0 (map (fun d => ascii_of_N (48 + d)) (3%N :: repeat 0%N 19)) = 3 * 10 ^ 19 /\
  2 ^ 64 < 3 * 10 ^ 19.
Proof. repeat split; vm_compute; reflexivity. Qed.
