(* ===== verification/NativeVector.v ===== *)
(** * Vectors of native integers

    Models the class [NativeVectorT] of
    src/core/include/math/hal/intnat/mubintvecnat.h and
    src/core/lib/math/hal/intnat/mubintvecnat.cpp: the data of the vector and
    its modulus. A method that returns a new vector and the in-place method of
    the same name return the vector they leave; the overloads with a scalar and
    with a vector operand are told apart by the suffixes [_scalar] and
    [_vector]. A loop over the entries is [vmapM] or [vzipM]; where the body
    touches the whole vector it is an indexed loop. *)
From stdpp Require Import base numbers list.
From Stdlib Require Import ZArith Lia Ascii.
From S2P Require Import Prelude Bits NativeInt NativeIntProps.
Open Scope Z_scope.

Record NativeVectorT := mkVector { m_data : list Z; m_modulus : Z }.

#[global] Instance NativeVectorT_eq_dec : EqDecision NativeVectorT.
Proof. solve_decision. Defined.

Section Definitions.
Context `{W : NativeWidth}.

(** ** Construction and access *)

Definition GetLength (v : NativeVectorT) : nat := length (m_data v).

Definition SetModulus (v : NativeVectorT) (value : Z) : outcome NativeVectorT :=
  if GetMSB value >? MAX_MODULUS_SIZE then Throw not_available_error
  else Ok (mkVector (m_data v) value).

(** [NativeVectorT(length, modulus)]: the entries are zero. *)
Definition NativeVectorT_new (len : nat) (modulus : Z) : outcome NativeVectorT :=
  if GetMSB modulus >? MAX_MODULUS_SIZE then Throw not_available_error
  else
    v ← SetModulus (mkVector [] 0) modulus;
    Ok (mkVector (repeat 0 len) (m_modulus v)).

(** One entry of the initializer-list constructors and assignments. *)
Definition list_entry {A} (conv : A -> outcome Z) (rhs : list A) (modulus : Z) (i : nat)
    : outcome Z :=
  match rhs !! i with
  | Some x => y ← conv x; umod y modulus
  | None => Ok 0
  end.

Definition NativeVectorT_strings (len : nat) (modulus : Z) (rhs : list (list ascii))
    : outcome NativeVectorT :=
  v ← SetModulus (mkVector [] 0) modulus;
  data ← vmapM (list_entry AssignVal rhs (m_modulus v)) (seq 0 len);
  Ok (mkVector data (m_modulus v)).

Definition NativeVectorT_ints (len : nat) (modulus : Z) (rhs : list Z)
    : outcome NativeVectorT :=
  v ← SetModulus (mkVector [] 0) modulus;
  data ← vmapM (list_entry (fun x => Ok (wrap x)) rhs (m_modulus v)) (seq 0 len);
  Ok (mkVector data (m_modulus v)).

(** Assignment from an initializer list: the length and the modulus stay, and a
    zero modulus means no reduction. *)
Definition assign_entry {A} (conv : A -> outcome Z) (rhs : list A) (modulus : Z) (i : nat)
    : outcome Z :=
  match rhs !! i with
  | Some x =>
      y ← conv x;
      if negb (modulus =? 0) then umod y modulus else Ok y
  | None => Ok 0
  end.

Definition assign_strings (v : NativeVectorT) (rhs : list (list ascii)) : outcome NativeVectorT :=
  data ← vmapM (assign_entry AssignVal rhs (m_modulus v)) (seq 0 (GetLength v));
  Ok (mkVector data (m_modulus v)).
Definition assign_ints (v : NativeVectorT) (rhs : list Z) : outcome NativeVectorT :=
  data ← vmapM (assign_entry (fun x => Ok (wrap x)) rhs (m_modulus v)) (seq 0 (GetLength v));
  Ok (mkVector data (m_modulus v)).

(** [operator=(uint64_t val)] *)
Definition assign_val (v : NativeVectorT) (val : Z) : outcome NativeVectorT :=
  data ← vset (m_data v) 0 (wrap val);
  data ← for_range 1 (length data) (fun i d => vset d i 0) data;
  Ok (mkVector data (m_modulus v)).

Definition IndexCheck (v : NativeVectorT) (len : nat) : bool :=
  negb (length (m_data v) <? len)%nat.
Definition at_ (v : NativeVectorT) (i : nat) : outcome Z :=
  if negb (IndexCheck v i) then Throw math_error else vget (m_data v) i.

(** The [operator==] of the interface. *)
Definition eqb_vector (a b : NativeVectorT) : bool :=
  if negb (GetLength a =? GetLength b)%nat || negb (m_modulus a =? m_modulus b) then false
  else forallb (fun p => fst p =? snd p) (zip (m_data a) (m_data b)).

(** ** Changing the modulus *)

Definition SwitchModulus (v : NativeVectorT) (newModulus : Z) : outcome NativeVectorT :=
  let oldModulus := m_modulus v in
  oldModulusByTwo ← RShift oldModulus 1;
  let diff := if oldModulus >? newModulus then Sub oldModulus newModulus
              else Sub newModulus oldModulus in
  data ← (if newModulus >? oldModulus then
            vmapM (fun n => Ok (if n >? oldModulusByTwo then AddEq n diff else n)) (m_data v)
          else
            vmapM (fun n =>
              let sub_diff := if n >? oldModulusByTwo then diff else 0 in
              ModSub n sub_diff newModulus) (m_data v));
  SetModulus (mkVector data oldModulus) newModulus.

Definition ModByTwoEq (v : NativeVectorT) : outcome NativeVectorT :=
  halfQ ← RShift (m_modulus v) 1;
  data ← vmapM (fun x =>
           if x >? halfQ then
             r ← Mod x 2; Ok (if r =? 1 then 0 else 1)
           else
             r ← Mod x 2; Ok (if r =? 1 then 1 else 0)) (m_data v);
  Ok (mkVector data (m_modulus v)).
Definition ModByTwo (v : NativeVectorT) : outcome NativeVectorT := ModByTwoEq v.

Definition Mod_vector (v : NativeVectorT) (modulus : Z) : outcome NativeVectorT :=
  if modulus =? 2 then ModByTwo v
  else
    ans ← NativeVectorT_new (GetLength v) (m_modulus v);
    halfQ ← RShift (m_modulus v) 1;
    data ← vmapM (fun x =>
             if x >? halfQ then ModSub x (m_modulus v) modulus else Mod x modulus) (m_data v);
    Ok (mkVector data (m_modulus ans)).

Definition ModEq_vector (v : NativeVectorT) (modulus : Z) : outcome NativeVectorT :=
  if modulus =? 2 then ModByTwoEq v
  else
    halfQ ← RShift (m_modulus v) 1;
    data ← vmapM (fun x =>
             if x >? halfQ then ModSubEq x (m_modulus v) modulus else ModEq x modulus)
             (m_data v);
    Ok (mkVector data (m_modulus v)).

(** ** Entrywise arithmetic *)

(** The guard of the operations on two vectors. *)
Definition different_parameters (a b : NativeVectorT) : bool :=
  negb (length (m_data a) =? length (m_data b))%nat || negb (m_modulus a =? m_modulus b).

Definition ModAddEq_scalar (v : NativeVectorT) (b : Z) : outcome NativeVectorT :=
  let modulus := m_modulus v in
  bLocal ← (if b >? modulus then ModEq b modulus else Ok b);
  data ← vmapM (fun x => Ok (ModAddFastEq x bLocal modulus)) (m_data v);
  Ok (mkVector data modulus).
Definition ModAdd_scalar (v : NativeVectorT) (b : Z) : outcome NativeVectorT :=
  ModAddEq_scalar v b.

(** [i > GetLength() - 1], on [size_t]. *)
Definition ModAddAtIndexEq (v : NativeVectorT) (i : nat) (b : Z) : outcome NativeVectorT :=
  if Z.of_nat i >? u64 (Z.of_nat (GetLength v) - 1) then Throw math_error
  else
    x ← vget (m_data v) i;
    y ← ModAddEq x b (m_modulus v);
    data ← vset (m_data v) i y;
    Ok (mkVector data (m_modulus v)).
Definition ModAddAtIndex (v : NativeVectorT) (i : nat) (b : Z) : outcome NativeVectorT :=
  ModAddAtIndexEq v i b.

Definition ModAddEq_vector (a b : NativeVectorT) : outcome NativeVectorT :=
  if different_parameters a b then Throw math_error
  else
    let modulus := m_modulus a in
    data ← vzipM (fun x y => Ok (ModAddFastEq x y modulus)) (m_data a) (m_data b);
    Ok (mkVector data modulus).
Definition ModAdd_vector (a b : NativeVectorT) : outcome NativeVectorT := ModAddEq_vector a b.

Definition ModSubEq_scalar (v : NativeVectorT) (b : Z) : outcome NativeVectorT :=
  data ← vmapM (fun x => ModSubEq x b (m_modulus v)) (m_data v);
  Ok (mkVector data (m_modulus v)).
Definition ModSub_scalar (v : NativeVectorT) (b : Z) : outcome NativeVectorT :=
  ModSubEq_scalar v b.

Definition ModSubEq_vector (a b : NativeVectorT) : outcome NativeVectorT :=
  if different_parameters a b then Throw math_error
  else
    data ← vzipM (fun x y => Ok (ModSubFastEq x y (m_modulus a))) (m_data a) (m_data b);
    Ok (mkVector data (m_modulus a)).
Definition ModSub_vector (a b : NativeVectorT) : outcome NativeVectorT := ModSubEq_vector a b.

Definition ModMulEq_scalar (v : NativeVectorT) (b : Z) : outcome NativeVectorT :=
  let modulus := m_modulus v in
  bLocal ← (if b >=? modulus then ModEq b modulus else Ok b);
  bPrec ← PrepModMulConst bLocal modulus;
  data ← vmapM (fun x => ModMulFastConstEq x bLocal modulus bPrec) (m_data v);
  Ok (mkVector data modulus).
Definition ModMul_scalar (v : NativeVectorT) (b : Z) : outcome NativeVectorT :=
  ModMulEq_scalar v b.

(** Unary minus of the interface. *)
Definition neg_vector (v : NativeVectorT) : outcome NativeVectorT :=
  ModMul_scalar v (Sub (m_modulus v) 1).

Definition ModMulEq_vector (a b : NativeVectorT) : outcome NativeVectorT :=
  if different_parameters a b then Throw math_error
  else
    let modulus := m_modulus a in
    mu ← ComputeMu modulus;
    data ← vzipM (fun x y => ModMulFastEq_mu x y modulus mu) (m_data a) (m_data b);
    Ok (mkVector data modulus).
Definition ModMul_vector (a b : NativeVectorT) : outcome NativeVectorT := ModMulEq_vector a b.

Definition MultWithOutMod (a b : NativeVectorT) : outcome NativeVectorT :=
  if different_parameters a b then Throw math_error
  else
    data ← vzipM (fun x y => Ok (MulEq x y)) (m_data a) (m_data b);
    Ok (mkVector data (m_modulus a)).

Definition ModExpEq_vector (v : NativeVectorT) (b : Z) : outcome NativeVectorT :=
  data ← vmapM (fun x => ModExpEq x b (m_modulus v)) (m_data v);
  Ok (mkVector data (m_modulus v)).
Definition ModExp_vector (v : NativeVectorT) (b : Z) : outcome NativeVectorT :=
  ModExpEq_vector v b.

Definition ModInverseEq_vector (v : NativeVectorT) : outcome NativeVectorT :=
  data ← vmapM (fun x => ModInverseEq x (m_modulus v)) (m_data v);
  Ok (mkVector data (m_modulus v)).
Definition ModInverse_vector (v : NativeVectorT) : outcome NativeVectorT :=
  ModInverseEq_vector v.

(** ** Scaling *)

Definition MultiplyAndRound_vector (v : NativeVectorT) (p q : Z) : outcome NativeVectorT :=
  halfQ ← RShift (m_modulus v) 1;
  data ← vmapM (fun x =>
           if x >? halfQ then
             let temp := Sub (m_modulus v) x in
             r ← MultiplyAndRound temp p q;
             Ok (Sub (m_modulus v) r)
           else
             r ← MultiplyAndRoundEq x p q;
             ModEq r (m_modulus v)) (m_data v);
  Ok (mkVector data (m_modulus v)).

(** In place, the reduction in the loop is that of the whole vector. *)
Definition MultiplyAndRoundEq_vector (v : NativeVectorT) (p q : Z) : outcome NativeVectorT :=
  halfQ ← RShift (m_modulus v) 1;
  for_range 0 (GetLength v) (fun i v =>
    x ← vget (m_data v) i;
    if x >? halfQ then
      let temp := Sub (m_modulus v) x in
      r ← MultiplyAndRound temp p q;
      data ← vset (m_data v) i (Sub (m_modulus v) r);
      Ok (mkVector data (m_modulus v))
    else
      r ← MultiplyAndRoundEq x p q;
      data ← vset (m_data v) i r;
      ModEq_vector (mkVector data (m_modulus v)) (m_modulus v)) v.

Definition DivideAndRoundEq_vector (v : NativeVectorT) (q : Z) : outcome NativeVectorT :=
  halfQ ← RShift (m_modulus v) 1;
  data ← vmapM (fun x =>
           if x >? halfQ then
             let temp := Sub (m_modulus v) x in
             r ← DivideAndRound temp q;
             Ok (Sub (m_modulus v) r)
           else DivideAndRoundEq x q) (m_data v);
  Ok (mkVector data (m_modulus v)).
Definition DivideAndRound_vector (v : NativeVectorT) (q : Z) : outcome NativeVectorT :=
  DivideAndRoundEq_vector v q.

Definition GetDigitAtIndexForBase_vector (v : NativeVectorT) (index base : Z)
    : outcome NativeVectorT :=
  data ← vmapM (fun x => GetDigitAtIndexForBase x index base) (m_data v);
  Ok (mkVector data (m_modulus v)).

End Definitions.

Section Facts.
Context `{W : NativeWidth}.

(** ** Well-formed vectors *)

(** The modulus is of a supported size and the entries are reduced. *)
Record vec_wf (v : NativeVectorT) : Prop := {
  wf_modulus : 0 < m_modulus v;
  wf_size : GetMSB (m_modulus v) <= MAX_MODULUS_SIZE;
  wf_entries : Forall (fun x => 0 <= x < m_modulus v) (m_data v)
}.

Lemma modulus_size_word q :
  0 < q -> GetMSB q <= MAX_MODULUS_SIZE -> 2 * q <= 2 ^ (wbits - 1) /\ q < 2 ^ (wbits - 1).
Proof.
  intros Hq Hs. pose proof (GetMSB_bounds q Hq) as [_ Hb].
  assert (MAX_MODULUS_SIZE <= wbits - 4) as Hm
    by (unfold MAX_MODULUS_SIZE; by destruct wbits_cases as [-> | ->]).
  pose proof wbits_range.
  assert (2 ^ GetMSB q <= 2 ^ (wbits - 4)) by (apply Z.pow_le_mono_r; lia).
  assert (2 ^ (wbits - 1) = 8 * 2 ^ (wbits - 4)) as E
    by (change 8 with (2 ^ 3); rewrite <- Z.pow_add_r by lia; f_equal; lia).
  pose proof (pow2_pos (wbits - 4)). lia.
Qed.

Lemma wf_word v : vec_wf v ->
  0 < m_modulus v /\ 2 * m_modulus v <= 2 ^ (wbits - 1) /\ 2 ^ wbits = 2 * 2 ^ (wbits - 1).
Proof.
  intros [Hp Hs _]. pose proof (modulus_size_word _ Hp Hs). pose proof word_half. lia.
Qed.

Lemma RShift_half q : RShift q 1 = Ok (q / 2).
Proof. unfold RShift. pose proof wbits_range. by rewrite ushr_ok by lia. Qed.

Lemma SetModulus_ok v q : GetMSB q <= MAX_MODULUS_SIZE -> SetModulus v q = Ok (mkVector (m_data v) q).
Proof. intros H. unfold SetModulus. rewrite Z.gtb_ltb. by rewrite (proj2 (Z.ltb_ge _ _)) by lia. Qed.

(** Two vectors of the same length and modulus. *)
Definition compatible (a b : NativeVectorT) : Prop :=
  length (m_data a) = length (m_data b) /\ m_modulus a = m_modulus b.

Lemma different_parameters_spec a b : different_parameters a b = false <-> compatible a b.
Proof.
  unfold different_parameters, compatible.
  rewrite orb_false_iff, !negb_false_iff, Nat.eqb_eq, Z.eqb_eq. done.
Qed.

Lemma zip_mod_wf (f : Z -> Z -> Z) a b :
  vec_wf a ->
  vec_wf (mkVector (zip_with (fun x y => f x y mod m_modulus a) (m_data a) (m_data b)) (m_modulus a)).
Proof.
  intros [Hp Hs _]. split; [done..|]. simpl. apply Forall_lookup_2. intros i x Hx.
  apply lookup_zip_with_Some in Hx as (y & z & -> & _). by apply mod_range.
Qed.

Lemma map_mod_wf (f : Z -> Z) v :
  vec_wf v -> vec_wf (mkVector (map (fun x => f x mod m_modulus v) (m_data v)) (m_modulus v)).
Proof.
  intros [Hp Hs _]. split; [done..|]. simpl. apply Forall_map, Forall_true.
  intros x. by apply mod_range.
Qed.

(** Adding and subtracting well-formed vectors returns the entrywise residues when
    their lengths and moduli agree, and throws math_error otherwise. *)
Theorem vector_add_sub_correct a b :
  vec_wf a -> vec_wf b ->
  if decide (compatible a b) then
    let sum := mkVector (zip_with (fun x y => (x + y) mod m_modulus a) (m_data a) (m_data b)) (m_modulus a) in
    let dif := mkVector (zip_with (fun x y => (x - y) mod m_modulus a) (m_data a) (m_data b)) (m_modulus a) in
    ModAdd_vector a b = Ok sum /\ ModSub_vector a b = Ok dif /\ vec_wf sum /\ vec_wf dif
  else
    ModAdd_vector a b = Throw math_error /\ ModSub_vector a b = Throw math_error.
Proof.
  intros Ha Hb. pose proof (wf_word a Ha) as (Hq & Hq2 & Hw).
  unfold ModAdd_vector, ModAddEq_vector, ModSub_vector, ModSubEq_vector.
  case_decide as Hc.
  - pose proof Hc as [Hl Hm]. apply different_parameters_spec in Hc as ->.
    assert (forall i x y, m_data a !! i = Some x -> m_data b !! i = Some y ->
      0 <= x < m_modulus a /\ 0 <= y < m_modulus a) as He.
    { intros i x y Hx Hy. split.
      - exact (Forall_lookup_1 _ _ _ _ (wf_entries a Ha) Hx).
      - rewrite Hm. exact (Forall_lookup_1 _ _ _ _ (wf_entries b Hb) Hy). }
    rewrite (vzipM_Ok (fun x y => Ok (ModAddFastEq x y (m_modulus a)))
      (fun x y => (x + y) mod m_modulus a)), (vzipM_Ok (fun x y => Ok (ModSubFastEq x y (m_modulus a)))
      (fun x y => (x - y) mod m_modulus a)); [| done | | done |].
    + split; [done|]. split; [done|].
      split; [by apply (zip_mod_wf Z.add) | by apply (zip_mod_wf Z.sub)].
    + intros i x y Hx Hy. f_equal. by apply ModSubFast_correct; [lia|apply (He i x y)..].
    + intros i x y Hx Hy. f_equal. by apply ModAddFast_correct; [lia|apply (He i x y)..].
  - destruct (different_parameters a b) eqn:E; [done|].
    by apply different_parameters_spec in E.
Qed.

(** The prime moduli of supported size are moduli for Barrett's reduction. *)
Lemma prime_barrett q :
  Z.prime q -> 4 <= q -> GetMSB q <= MAX_MODULUS_SIZE -> barrett_modulus q.
Proof.
  intros Hp H4 Hs. pose proof wbits_range. split.
  - split; [done|]. apply GetMSB_le; [lia..|]. revert Hs. unfold MAX_MODULUS_SIZE.
    destruct wbits_cases as [-> | ->]; simpl; lia.
  - intros E. destruct Hp as [_ Hp]. apply (Hp 2); [lia|].
    exists (2 ^ (wbits - 6)). rewrite E, Z.mul_comm, <- Z.pow_succ_r by lia. f_equal. lia.
Qed.

Lemma ModMul_vector_ok a b :
  vec_wf a -> vec_wf b -> compatible a b -> Z.prime (m_modulus a) -> 4 <= m_modulus a ->
  ModMul_vector a b
  = Ok (mkVector (zip_with (fun x y => (x * y) mod m_modulus a) (m_data a) (m_data b)) (m_modulus a)).
Proof.
  intros Ha Hb Hc Hp H4. pose proof Hc as [Hl Hm].
  pose proof (prime_barrett _ Hp H4 (wf_size a Ha)) as Hbar.
  unfold ModMul_vector, ModMulEq_vector. apply different_parameters_spec in Hc as ->.
  rewrite ComputeMu_ok, bind_Ok by done.
  rewrite (vzipM_Ok _ (fun x y => (x * y) mod m_modulus a)); [done | done |].
  intros i x y Hx Hy. apply (Forall_lookup_1 _ _ _ _ (wf_entries a Ha)) in Hx.
  apply (Forall_lookup_1 _ _ _ _ (wf_entries b Hb)) in Hy. rewrite <- Hm in Hy.
  by apply (ModMulFast_mu_exact x y (m_modulus a)).
Qed.

Lemma ModMul_scalar_ok a s :
  vec_wf a -> 0 <= s < 2 ^ wbits ->
  ModMul_scalar a s = Ok (mkVector (map (fun x => (x * s) mod m_modulus a) (m_data a)) (m_modulus a)).
Proof.
  intros Ha Hs. pose proof (wf_word a Ha) as (Hq & Hq2 & Hw).
  unfold ModMul_scalar, ModMulEq_scalar, ModEq. rewrite reduce_ge, bind_Ok by lia.
  pose proof (mod_range s (m_modulus a) Hq).
  pose proof (fun x Hx => ModMulFastConst_prec x (s mod m_modulus a) (m_modulus a) Hx
    ltac:(lia) Hq2) as Hcst.
  destruct (PrepModMulConst_ok (s mod m_modulus a) (m_modulus a)) as (bInv & E & _); [lia..|].
  rewrite E, bind_Ok. rewrite (vmapM_Ok _ (fun x => (x * s) mod m_modulus a)); [done|].
  eapply Forall_impl; [apply (wf_entries a Ha)|]. simpl. intros x Hx.
  etransitivity; [exact (Hcst x ltac:(lia) bInv E)|]. f_equal. apply eqmod_elim. by rewrite eqmod_mod.
Qed.

(** For a prime modulus, the entrywise product of two vectors and the product by a
    scalar of any size return the residues of the products and keep vectors well
    formed. *)
Theorem vector_mul_correct a b s :
  vec_wf a -> vec_wf b -> compatible a b -> Z.prime (m_modulus a) -> 4 <= m_modulus a ->
  0 <= s < 2 ^ wbits ->
  let prod := mkVector (zip_with (fun x y => (x * y) mod m_modulus a) (m_data a) (m_data b)) (m_modulus a) in
  let scaled := mkVector (map (fun x => (x * s) mod m_modulus a) (m_data a)) (m_modulus a) in
  ModMul_vector a b = Ok prod /\ vec_wf prod /\ ModMul_scalar a s = Ok scaled /\ vec_wf scaled.
Proof.
  intros Ha Hb Hc Hp H4 Hs prod scaled. split; [by apply ModMul_vector_ok|].
  split; [by apply (zip_mod_wf Z.mul)|]. split; [by apply ModMul_scalar_ok|].
  by apply (map_mod_wf (fun x => x * s)).
Qed.

Lemma centered_range q x : 0 <= x < q -> - q < 2 * centered q x <= q /\ centered q x ==[q] x.
Proof.
  intros Hx. unfold centered. rewrite Z.gtb_ltb.
  pose proof (Z.div_mod q 2 ltac:(lia)). pose proof (mod_range q 2 ltac:(lia)).
  destruct (Z.ltb_spec (q / 2) x); (split; [lia|]); [|done].
  replace (x - q) with (x + -1 * q) by lia. apply eqmod_multiple.
Qed.

Lemma SwitchModulus_ok v q' :
  vec_wf v -> 0 < q' -> GetMSB q' <= MAX_MODULUS_SIZE ->
  let v' := mkVector (map (fun x => centered (m_modulus v) x mod q') (m_data v)) q' in
  SwitchModulus v q' = Ok v' /\ vec_wf v'.
Proof.
  intros Hv Hq' Hs v'. pose proof (wf_word v Hv) as (Hq & Hq2 & Hw).
  pose proof (modulus_size_word q' Hq' Hs) as [Hq2' _]. split.
  2: { split; [done..|]. simpl. apply Forall_map, Forall_true. intros x. by apply mod_range. }
  unfold SwitchModulus. rewrite RShift_half, bind_Ok, (Z.gtb_ltb q'). unfold Sub, SubFast.
  destruct (Z.ltb_spec (m_modulus v) q') as [Hlt|Hge].
  - rewrite (Z.gtb_ltb (m_modulus v)), (proj2 (Z.ltb_ge (q') (m_modulus v))) by lia.
    rewrite wrap_small by lia.
    rewrite (vmapM_Ok _ (fun x => centered (m_modulus v) x mod q')), bind_Ok.
    { by rewrite SetModulus_ok. }
    eapply Forall_impl; [apply (wf_entries v Hv)|]. simpl. intros x Hx. f_equal.
    unfold centered, AddEq, AddEqFast. rewrite Z.gtb_ltb.
    destruct (Z.ltb_spec (m_modulus v / 2) x).
    + rewrite wrap_small by lia. rewrite <- (Z_mod_plus_full (x - m_modulus v) 1), Z.mod_small by lia. lia.
    + by rewrite Z.mod_small by lia.
  - set (diff := if _ >? q' then _ else _).
    assert (diff = m_modulus v - q') as ->.
    { unfold diff. rewrite Z.gtb_ltb. destruct (Z.ltb_spec q' (m_modulus v)).
      - by rewrite wrap_small by lia.
      - rewrite wrap_small by lia. lia. }
    rewrite (vmapM_Ok _ (fun x => centered (m_modulus v) x mod q')), bind_Ok.
    { by rewrite SetModulus_ok. }
    eapply Forall_impl; [apply (wf_entries v Hv)|]. simpl. intros x Hx. unfold centered.
    rewrite Z.gtb_ltb. destruct (Z.ltb_spec (m_modulus v / 2) x);
      rewrite ModSub_correct by lia; f_equal; apply eqmod_elim, eqmod_divide; try lia.
    + exists 1. lia.
    + exists 0. lia.
Qed.

(** SwitchModulus replaces every entry by the residue modulo the new modulus of
    its representative centered around zero, whichever modulus is larger, and the
    result is well formed. *)
Theorem SwitchModulus_centered v q' :
  vec_wf v -> 0 < q' -> GetMSB q' <= MAX_MODULUS_SIZE ->
  let v' := mkVector (map (fun x => centered (m_modulus v) x mod q') (m_data v)) q' in
  SwitchModulus v q' = Ok v' /\ vec_wf v'.
Proof. apply SwitchModulus_ok. Qed.

(** Reducing a vector modulo m returns the residues of the centered
    representatives of its entries, for every m except m = 2 with an even modulus,
    and the in-place variant returns the same vector. *)
Theorem Mod_vector_centered v m :
  vec_wf v -> 0 < m < 2 ^ wbits -> m <> 2 \/ Z.odd (m_modulus v) = true ->
  Mod_vector v m = Ok (mkVector (map (fun x => centered (m_modulus v) x mod m) (m_data v)) (m_modulus v)) /\
  ModEq_vector v m = Mod_vector v m.
Proof.
  intros Hv Hm Hodd. pose proof (wf_word v Hv) as (Hq & Hq2 & Hw).
  cut (ModEq_vector v m
       = Ok (mkVector (map (fun x => centered (m_modulus v) x mod m) (m_data v)) (m_modulus v))).
  { intros E. split; [|rewrite E]; revert E; unfold Mod_vector, ModEq_vector, ModByTwo;
      (destruct (m =? 2); [done|]); unfold NativeVectorT_new;
      rewrite Z.gtb_ltb, (proj2 (Z.ltb_ge _ _)) by (destruct Hv; lia);
      rewrite SetModulus_ok, bind_Ok by (destruct Hv; lia); done. }
  unfold ModEq_vector. destruct (Z.eqb_spec m 2) as [->|Hne].
  - destruct Hodd as [Hodd|Hodd]; [done|]. unfold ModByTwoEq. rewrite RShift_half, bind_Ok.
    rewrite (vmapM_Ok _ (fun x => centered (m_modulus v) x mod 2)); [done|].
    eapply Forall_impl; [apply (wf_entries v Hv)|]. cbv beta. intros x Hx. unfold centered, Mod.
    rewrite umod_pos, !bind_Ok, (Z.gtb_ltb x) by lia. rewrite !Zmod_odd.
    destruct (_ <? x); [rewrite Z.odd_sub, Hodd|]; by destruct (Z.odd x).
  - rewrite RShift_half, bind_Ok.
    rewrite (vmapM_Ok _ (fun x => centered (m_modulus v) x mod m)); [done|].
    eapply Forall_impl; [apply (wf_entries v Hv)|]. simpl. intros x Hx. unfold centered, ModEq.
    rewrite (Z.gtb_ltb x). destruct (_ <? x).
    + apply (ModSub_correct x (m_modulus v) m); lia.
    + by rewrite umod_pos by lia.
Qed.

(** With an even modulus the reduction modulo two is not that of the centered
    representatives. *)
Theorem ModByTwo_even_modulus v :
  vec_wf v -> Z.odd (m_modulus v) = false ->
  Mod_vector v 2 = Ok (mkVector
    (map (fun x => if x >? m_modulus v / 2 then 1 - x mod 2 else x mod 2) (m_data v)) (m_modulus v)) /\
  forall x, x > m_modulus v / 2 -> 1 - x mod 2 <> centered (m_modulus v) x mod 2.
Proof.
  intros Hv Ho. split.
  - unfold Mod_vector, ModByTwo, ModByTwoEq. change (2 =? 2) with true. cbv iota.
    rewrite RShift_half, bind_Ok.
    rewrite (vmapM_Ok _ (fun x => if x >? m_modulus v / 2 then 1 - x mod 2 else x mod 2)); [done|].
    apply Forall_true. intros x. unfold Mod. rewrite umod_pos, !bind_Ok, !Zmod_odd by lia.
    by destruct (_ >? _), (Z.odd x).
  - intros x Hx. unfold centered. rewrite Z.gtb_ltb, (proj2 (Z.ltb_lt _ _)) by lia.
    rewrite !Zmod_odd, Z.odd_sub, Ho. by destruct (Z.odd x).
Qed.

(** A quarter rounds to zero. *)
Lemma DivideAndRound_quarter : DivideAndRound 1 4 = Ok 0.
Proof. unfold DivideAndRound. pose proof wbits_range. by rewrite ushr_ok by lia. Qed.

Lemma MultiplyAndRound_quarter : MultiplyAndRound 1 1 4 = Ok 0.
Proof.
  pose proof word_half. pose proof (pow2_pos (wbits - 1)). pose proof wbits_range.
  unfold MultiplyAndRound. rewrite wrap_small by lia. apply DivideAndRound_quarter.
Qed.

(** Rounding an entry close to the modulus stores the modulus itself, and the two
    variants of the scaling differ. *)
Theorem DivideAndRound_unreduced q :
  3 <= q -> GetMSB q <= MAX_MODULUS_SIZE ->
  let v := mkVector [q - 1; 1] q in
  vec_wf v /\
  DivideAndRound_vector v 4 = Ok (mkVector [q; 0] q) /\
  MultiplyAndRound_vector v 1 4 = Ok (mkVector [q; 0] q) /\
  MultiplyAndRoundEq_vector v 1 4 = Ok (mkVector [0; 0] q).
Proof.
  intros Hq Hs v. pose proof (modulus_size_word q ltac:(lia) Hs) as [Hq2 _]. pose proof word_half.
  pose proof (Z.div_mod q 2 ltac:(lia)). pose proof (mod_range q 2 ltac:(lia)).
  assert (Sub q (q - 1) = 1) as E1 by (unfold Sub, SubFast; rewrite wrap_small; lia).
  assert (Sub q 0 = q) as E2 by (unfold Sub, SubFast; rewrite wrap_small; lia).
  assert ((q - 1 >? q / 2) = true) as C1 by (rewrite Z.gtb_ltb; lia).
  assert ((1 >? q / 2) = false) as C2 by (rewrite Z.gtb_ltb; lia).
  pose proof (MultiplyAndRound_quarter) as EM.
  assert (MultiplyAndRoundEq 1 1 4 = Ok 0) as EM' by exact EM.
  split; [|split; [|split]].
  - split; simpl; [lia | done | repeat constructor; lia].
  - unfold DivideAndRound_vector, DivideAndRoundEq_vector, DivideAndRoundEq. cbn [m_data m_modulus v].
    rewrite RShift_half, bind_Ok. cbn [vmapM].
    by rewrite C1, C2, E1, DivideAndRound_quarter, !bind_Ok, E2.
  - unfold MultiplyAndRound_vector. cbn [m_data m_modulus v]. rewrite RShift_half, bind_Ok.
    cbn [vmapM]. rewrite C1, C2, E1, EM, EM', !bind_Ok, E2. unfold ModEq.
    by rewrite umod_pos, Z.mod_0_l by lia.
  - subst v. unfold MultiplyAndRoundEq_vector. cbn [m_data m_modulus]. rewrite RShift_half, bind_Ok.
    cbn [GetLength m_data length for_range for_n Nat.sub]. cbn [vget m_data lookup list_lookup].
    rewrite bind_Ok, C1. cbn [m_modulus]. rewrite E1, EM, !bind_Ok, E2.
    cbn [vset length Nat.ltb Nat.leb insert list_insert vget m_data lookup list_lookup].
    rewrite !bind_Ok. cbn [m_data m_modulus vget lookup list_lookup]. rewrite bind_Ok, C2, EM', bind_Ok.
    cbn [vset length Nat.ltb Nat.leb insert list_insert]. rewrite bind_Ok.
    unfold ModEq_vector, ModEq. destruct (Z.eqb_spec q 2); [lia|]. cbn [m_data m_modulus].
    rewrite RShift_half, bind_Ok. cbn [vmapM].
    rewrite (Z.gtb_ltb q), (proj2 (Z.ltb_lt (q / 2) q)) by lia.
    rewrite (Z.gtb_ltb 0), (proj2 (Z.ltb_ge (q / 2) 0)) by lia.
    rewrite umod_pos, Z.mod_0_l by lia.
    change (ModSubEq q q q) with (ModSub q q q). rewrite ModSub_correct by lia.
    by rewrite Z.sub_diag, Z.mod_0_l by lia.
Qed.

Lemma at_spec v i :
  at_ v i = if (length (m_data v) <? i)%nat then Throw math_error
            else vget (m_data v) i.
Proof. unfold at_, IndexCheck. by rewrite negb_involutive. Qed.

(** The index check lets the length itself through. *)
Theorem at_one_past_end v : at_ v (GetLength v) = UB.
Proof.
  rewrite at_spec. unfold GetLength, vget. rewrite Nat.ltb_irrefl.
  by rewrite lookup_ge_None_2.
Qed.
End Facts.

(** ** Witnesses, for 64-bit words *)

Definition example_vector (x y : Z) : NativeVectorT := mkVector [x; y] 17.

Lemma example_wf x y : 0 <= x < 17 -> 0 <= y < 17 -> @vec_wf W64 (example_vector x y).
Proof. intros. split; simpl; [lia | by vm_compute | repeat constructor; lia]. Qed.

Lemma prime_17 : Z.prime 17.
Proof. apply prime_test_sound. reflexivity. Qed.

Lemma vector_add_sub_correct_witness :
  @ModAdd_vector W64 (example_vector 3 16) (example_vector 15 16) = Ok (mkVector [1; 15] 17).
Proof.
  exact (proj1 (vector_add_sub_correct (W := W64) (example_vector 3 16) (example_vector 15 16)
    (example_wf 3 16 ltac:(lia) ltac:(lia)) (example_wf 15 16 ltac:(lia) ltac:(lia)))).
Defined.

Lemma vector_mul_correct_witness :
  @ModMul_vector W64 (example_vector 3 16) (example_vector 15 16) = Ok (mkVector [11; 1] 17).
Proof.
  apply (vector_mul_correct (W := W64) (example_vector 3 16) (example_vector 15 16) 5);
    [apply example_wf; lia | apply example_wf; lia | done | apply prime_17 | simpl; lia | word64].
Defined.

Lemma SwitchModulus_centered_witness :
  @SwitchModulus W64 (example_vector 3 16) 97 = Ok (mkVector [3; 96] 97).
Proof.
  apply (SwitchModulus_centered (W := W64) (example_vector 3 16) 97);
    [apply example_wf; lia | lia | by vm_compute].
Defined.

Lemma Mod_vector_centered_witness :
  @Mod_vector W64 (example_vector 3 16) 2 = Ok (mkVector [1; 1] 17).
Proof.
  apply (Mod_vector_centered (W := W64) (example_vector 3 16) 2);
    [apply example_wf; lia | word64 | by right].
Defined.

Lemma ModByTwo_even_modulus_witness :
  @Mod_vector W64 (mkVector [3; 14] 16) 2 = Ok (mkVector [1; 1] 16).
Proof.
  apply (ModByTwo_even_modulus (W := W64) (mkVector [3; 14] 16));
    [split; simpl; [lia | by vm_compute | repeat constructor; lia] | reflexivity].
Defined.

Lemma DivideAndRound_unreduced_witness :
  @DivideAndRound_vector W64 (mkVector [16; 1] 17) 4 = Ok (mkVector [17; 0] 17).
Proof. apply (DivideAndRound_unreduced (W := W64) 17); [lia | by vm_compute]. Defined.
