(* ===== verification/Ntt.v ===== *)
(** * Number-theoretic transforms

    Models src/core/include/math/hal/intnat/transformnat-impl.h: the class
    [NumberTheoreticTransformNat] (the transforms with explicit tables) and the
    class [ChineseRemainderTransformFTTNat] (the negacyclic transforms with
    tables cached by modulus). The four forward transforms to bit-reversed order
    share the loops over stages and blocks, [forward_loop]; what differs is the
    twiddle they read per block and the butterfly. Vector indices and the
    counters [m], [i], [t], [logt1] are natural numbers: they stay below
    [2^32] for every length a [usint] can hold, except that the doubling of [m]
    overflows for lengths over [2^31]. *)
From stdpp Require Import base numbers list gmap.
From Stdlib Require Import ZArith Lia.
From S2P Require Import Prelude Bits NativeInt NativeIntProps NativeVector.
Open Scope Z_scope.

Section Definitions.
Context `{W : NativeWidth}.

(** ** Butterflies *)

(** The sum and difference of a forward butterfly, with the corrections of the
    code: [hiVal = loVal + omegaFactor] reduced once, and [loVal - omegaFactor]
    after adding the modulus where it would be negative. *)
Definition fwd_sum (loVal omegaFactor modulus : Z) : Z :=
  let hiVal := Add loVal omegaFactor in
  if hiVal >=? modulus then SubEq hiVal modulus else hiVal.
Definition fwd_diff (loVal omegaFactor modulus : Z) : Z :=
  let loVal := if loVal <? omegaFactor then AddEq loVal modulus else loVal in
  SubEq loVal omegaFactor.

(** The body of the innermost loop of the in-place forward transforms; [mul]
    multiplies by the twiddle of the block. *)
Definition fwd_butterfly (mul : Z -> outcome Z) (modulus : Z) (t indexLo : nat)
    (element : list Z) : outcome (list Z) :=
  let indexHi := (indexLo + t)%nat in
  loVal ← vget element indexLo;
  omegaFactor ← vget element indexHi;
  omegaFactor ← mul omegaFactor;
  element ← vset element indexLo (fwd_sum loVal omegaFactor modulus);
  vset element indexHi (fwd_diff loVal omegaFactor modulus).

(** The same with the shortcut of the copying transforms for a zero entry. *)
Definition fwd_butterfly_nz (mul : Z -> outcome Z) (modulus : Z) (t indexLo : nat)
    (result : list Z) : outcome (list Z) :=
  let indexHi := (indexLo + t)%nat in
  loVal ← vget result indexLo;
  omegaFactor ← vget result indexHi;
  if negb (omegaFactor =? 0) then
    omegaFactor ← mul omegaFactor;
    result ← vset result indexLo (fwd_sum loVal omegaFactor modulus);
    vset result indexHi (fwd_diff loVal omegaFactor modulus)
  else vset result indexHi loVal.

(** The body of the innermost loop of the inverse transforms. *)
Definition inv_butterfly (mul : Z -> outcome Z) (modulus : Z) (t indexLo : nat)
    (element : list Z) : outcome (list Z) :=
  let indexHi := (indexLo + t)%nat in
  hiVal ← vget element indexHi;
  loVal ← vget element indexLo;
  let omegaFactor := loVal in
  let omegaFactor := if omegaFactor <? hiVal then AddEq omegaFactor modulus else omegaFactor in
  let omegaFactor := SubEq omegaFactor hiVal in
  let loVal := AddEq loVal hiVal in
  let loVal := if loVal >=? modulus then SubEq loVal modulus else loVal in
  omegaFactor ← mul omegaFactor;
  element ← vset element indexLo loVal;
  vset element indexHi omegaFactor.

(** ** The loops over stages

    The loops are the same for the multiprecision vectors, so they are stated for
    entries of any type. *)

(** [for (i = 0; i < m; ++i)] with its inner loop over [indexLo]: [twiddle]
    reads the tables at [m + i], and [bf] is the butterfly for what it read. *)
Definition stage {Tw A} (twiddle : nat -> outcome Tw)
    (bf : Tw -> nat -> nat -> list A -> outcome (list A)) (m t logt1 : nat)
    (element : list A) : outcome (list A) :=
  for_range 0 m (fun i element =>
    let j1 := Nat.shiftl i logt1 in
    let j2 := (j1 + t)%nat in
    let indexOmega := (m + i)%nat in
    omega ← twiddle indexOmega;
    for_range j1 j2 (fun indexLo element => bf omega t indexLo element) element) element.

(** [for (m = 1; m < n; m <<= 1)] with [t >>= 1] and [logt1--]. *)
Fixpoint forward_loop {Tw A} (fuel : nat) (twiddle : nat -> outcome Tw)
    (bf : Tw -> nat -> nat -> list A -> outcome (list A)) (n m t logt1 : nat)
    (element : list A) : outcome (list A) :=
  match fuel with
  | O => OutOfFuel
  | S fuel =>
      if (m <? n)%nat then
        element ← stage twiddle bf m t logt1 element;
        forward_loop fuel twiddle bf n (2 * m) (t / 2) (logt1 - 1) element
      else Ok element
  end.

(** [for (m = n >> 1; m >= 1; m >>= 1)] with [t <<= 1] and [logt1++]. *)
Fixpoint inverse_loop {Tw A} (fuel : nat) (twiddle : nat -> outcome Tw)
    (bf : Tw -> nat -> nat -> list A -> outcome (list A)) (m t logt1 : nat)
    (element : list A) : outcome (list A) :=
  match fuel with
  | O => OutOfFuel
  | S fuel =>
      if (1 <=? m)%nat then
        element ← stage twiddle bf m t logt1 element;
        inverse_loop fuel twiddle bf (m / 2) (2 * t) (logt1 + 1) element
      else Ok element
  end.

(** The number of stages of a vector whose length is a [usint]. *)
Definition stage_fuel : nat := 33.

(** [t = n >> 1; logt1 = GetMSB64(t)], then the loop over stages. *)
Definition forward_stages {Tw A} (twiddle : nat -> outcome Tw)
    (bf : Tw -> nat -> nat -> list A -> outcome (list A)) (element : list A)
    : outcome (list A) :=
  let n := length element in
  let t := (n / 2)%nat in
  let logt1 := Z.to_nat (GetMSB64 (Z.of_nat t)) in
  forward_loop stage_fuel twiddle bf n 1 t logt1 element.

Definition inverse_stages {Tw A} (twiddle : nat -> outcome Tw)
    (bf : Tw -> nat -> nat -> list A -> outcome (list A)) (element : list A)
    : outcome (list A) :=
  let n := length element in
  inverse_loop stage_fuel twiddle bf (n / 2) 1 1 element.

(** ** Forward transforms to bit-reversed order *)

Definition twiddle1 (table : NativeVectorT) (i : nat) : outcome Z := vget (m_data table) i.
Definition twiddle2 (table preconTable : NativeVectorT) (i : nat) : outcome (Z * Z) :=
  omega ← vget (m_data table) i;
  preconOmega ← vget (m_data preconTable) i;
  Ok (omega, preconOmega).

Definition ForwardTransformToBitReverseInPlace_mu (rootOfUnityTable element : NativeVectorT)
    : outcome NativeVectorT :=
  let modulus := m_modulus element in
  mu ← ComputeMu modulus;
  data ← forward_stages (twiddle1 rootOfUnityTable)
           (fun omega => fwd_butterfly (fun x => ModMulFastEq_mu x omega modulus mu) modulus)
           (m_data element);
  Ok (mkVector data modulus).

(** [result->SetModulus(modulus)] and the copy of the entries. *)
Definition copy_to_result (element result : NativeVectorT) : outcome NativeVectorT :=
  result ← SetModulus result (m_modulus element);
  data ← for_range 0 (GetLength element) (fun i d =>
           x ← vget (m_data element) i; vset d i x) (m_data result);
  Ok (mkVector data (m_modulus result)).

Definition ForwardTransformToBitReverse_mu (element rootOfUnityTable result : NativeVectorT)
    : outcome NativeVectorT :=
  if negb (GetLength result =? GetLength element)%nat then Throw math_error
  else
    let modulus := m_modulus element in
    mu ← ComputeMu modulus;
    result ← copy_to_result element result;
    data ← forward_stages (twiddle1 rootOfUnityTable)
             (fun omega => fwd_butterfly_nz (fun x => ModMulFastEq_mu x omega modulus mu) modulus)
             (m_data result);
    Ok (mkVector data (m_modulus result)).

Definition ForwardTransformToBitReverseInPlace (rootOfUnityTable preconRootOfUnityTable
    element : NativeVectorT) : outcome NativeVectorT :=
  let modulus := m_modulus element in
  data ← forward_stages (twiddle2 rootOfUnityTable preconRootOfUnityTable)
           (fun om => fwd_butterfly (fun x => ModMulFastConstEq x (fst om) modulus (snd om)) modulus)
           (m_data element);
  Ok (mkVector data modulus).

Definition ForwardTransformToBitReverse (element rootOfUnityTable preconRootOfUnityTable
    result : NativeVectorT) : outcome NativeVectorT :=
  if negb (GetLength result =? GetLength element)%nat then Throw math_error
  else
    let modulus := m_modulus element in
    result ← copy_to_result element result;
    data ← forward_stages (twiddle2 rootOfUnityTable preconRootOfUnityTable)
             (fun om => fwd_butterfly_nz (fun x => ModMulFastConstEq x (fst om) modulus (snd om)) modulus)
             (m_data result);
    Ok (mkVector data (m_modulus result)).

(** ** Inverse transforms from bit-reversed order *)

Definition InverseTransformFromBitReverseInPlace_mu (rootOfUnityInverseTable : NativeVectorT)
    (cycloOrderInv : Z) (element : NativeVectorT) : outcome NativeVectorT :=
  let modulus := m_modulus element in
  mu ← ComputeMu modulus;
  data ← inverse_stages (twiddle1 rootOfUnityInverseTable)
           (fun omega => inv_butterfly (fun x => ModMulFastEq_mu x omega modulus mu) modulus)
           (m_data element);
  data ← vmapM (fun x => ModMulFastEq_mu x cycloOrderInv modulus mu) data;
  Ok (mkVector data modulus).

Definition InverseTransformFromBitReverse_mu (element rootOfUnityInverseTable : NativeVectorT)
    (cycloOrderInv : Z) (result : NativeVectorT) : outcome NativeVectorT :=
  if negb (GetLength result =? GetLength element)%nat then Throw math_error
  else
    result ← copy_to_result element result;
    InverseTransformFromBitReverseInPlace_mu rootOfUnityInverseTable cycloOrderInv result.

Definition InverseTransformFromBitReverseInPlace (rootOfUnityInverseTable
    preconRootOfUnityInverseTable : NativeVectorT) (cycloOrderInv preconCycloOrderInv : Z)
    (element : NativeVectorT) : outcome NativeVectorT :=
  let modulus := m_modulus element in
  data ← inverse_stages (twiddle2 rootOfUnityInverseTable preconRootOfUnityInverseTable)
           (fun om => inv_butterfly (fun x => ModMulFastConstEq x (fst om) modulus (snd om)) modulus)
           (m_data element);
  data ← vmapM (fun x => ModMulFastConstEq x cycloOrderInv modulus preconCycloOrderInv) data;
  Ok (mkVector data modulus).

Definition InverseTransformFromBitReverse (element rootOfUnityInverseTable
    preconRootOfUnityInverseTable : NativeVectorT) (cycloOrderInv preconCycloOrderInv : Z)
    (result : NativeVectorT) : outcome NativeVectorT :=
  if negb (GetLength result =? GetLength element)%nat then Throw math_error
  else
    result ← copy_to_result element result;
    InverseTransformFromBitReverseInPlace rootOfUnityInverseTable preconRootOfUnityInverseTable
      cycloOrderInv preconCycloOrderInv result.

(** ** Iterative transforms in natural order *)

(** The body of the innermost loop, on the entries [indexEven] and [indexOdd]. *)
Definition iter_butterfly (omega modulus mu : Z) (indexEven indexOdd : nat) (result : list Z)
    : outcome (list Z) :=
  oddVal ← vget result indexOdd;
  omegaFactor ← ModMul_mu omega oddVal modulus mu;
  evenVal ← vget result indexEven;
  let oddVal := AddEq evenVal omegaFactor in
  let oddVal := if oddVal >=? modulus then SubEq oddVal modulus else oddVal in
  let evenVal := if evenVal <? omegaFactor then AddEq evenVal modulus else evenVal in
  let evenVal := SubEq evenVal omegaFactor in
  result ← vset result indexEven oddVal;
  vset result indexOdd evenVal.

(** [for (j = 0; j < n; j = j + (1 << logm))]; [n] bounds the number of turns. *)
Fixpoint iter_blocks {A} (fuel : nat) (body : nat -> list A -> outcome (list A)) (n step j : nat)
    (result : list A) : outcome (list A) :=
  match fuel with
  | O => OutOfFuel
  | S fuel =>
      if (j <? n)%nat then
        result ← body j result;
        iter_blocks fuel body n step (j + step)%nat result
      else Ok result
  end.

Definition ForwardTransformIterative (element rootOfUnityTable result : NativeVectorT)
    : outcome NativeVectorT :=
  let n := GetLength element in
  if negb (GetLength result =? n)%nat then Throw math_error
  else
    let modulus := m_modulus element in
    mu ← ComputeMu modulus;
    result ← SetModulus result modulus;
    let msb := GetMSB64 (u32 (Z.of_nat n - 1)) in
    data ← for_range 0 n (fun i d =>
             x ← vget (m_data element) (Z.to_nat (ReverseBits (Z.of_nat i) msb));
             vset d i x) (m_data result);
    let logn := Z.to_nat msb in
    data ← for_range 1 (S logn) (fun logm d =>
             let half := Nat.shiftl 1 (logm - 1) in
             iter_blocks (S n) (fun j d =>
               for_range 0 half (fun i d =>
                 omega ← vget (m_data rootOfUnityTable) (Nat.shiftl i (logn - logm));
                 let indexEven := (j + i)%nat in
                 let indexOdd := (indexEven + half)%nat in
                 iter_butterfly omega modulus mu indexEven indexOdd d) d)
               n (Nat.shiftl 1 logm) 0 d) data;
    Ok (mkVector data (m_modulus result)).

Definition InverseTransformIterative (element rootOfUnityInverseTable result : NativeVectorT)
    : outcome NativeVectorT :=
  let n := GetLength element in
  let modulus := m_modulus element in
  mu ← ComputeMu modulus;
  result ← ForwardTransformIterative element rootOfUnityInverseTable result;
  cycloOrderInv ← ModInverse (wrap (Z.of_nat n)) modulus;
  data ← for_range 0 n (fun i d =>
           x ← vget d i;
           y ← ModMulEq_mu x cycloOrderInv modulus mu;
           vset d i y) (m_data result);
  Ok (mkVector data (m_modulus result)).

End Definitions.

(** ** Cached tables *)

(** The static maps of [ChineseRemainderTransformFTTNat], keyed by modulus. *)
Record FTTCache := mkCache {
  m_cycloOrderInverseTableByModulus : gmap Z NativeVectorT;
  m_cycloOrderInversePreconTableByModulus : gmap Z NativeVectorT;
  m_rootOfUnityReverseTableByModulus : gmap Z NativeVectorT;
  m_rootOfUnityInverseReverseTableByModulus : gmap Z NativeVectorT;
  m_rootOfUnityPreconReverseTableByModulus : gmap Z NativeVectorT;
  m_rootOfUnityInversePreconReverseTableByModulus : gmap Z NativeVectorT
}.

(** [std::map::operator\[\]] read at a key: a missing key reads as a
    default-constructed vector. (The insertion of that vector is left out: the
    six maps have the same keys, as [cache_wf] states and [PreCompute]
    maintains, so the keys that are read are present.) *)
Definition map_at (m : gmap Z NativeVectorT) (k : Z) : NativeVectorT :=
  default (mkVector [] 0) (m !! k).

Section FTT.
Context `{W : NativeWidth}.

Definition Reset (c : FTTCache) : FTTCache := mkCache ∅ ∅ ∅ ∅ ∅ ∅.

(** The test that decides whether the tables are computed. *)
Definition table_missing (c : FTTCache) (modulus : Z) (CycloOrderHf : nat) : bool :=
  match m_rootOfUnityReverseTableByModulus c !! modulus with
  | None => true
  | Some table => negb (GetLength table =? CycloOrderHf)%nat
  end.

(** The loop that fills [Table] and [TableI] in bit-reversed order. *)
Definition fill_tables (CycloOrderHf : nat) (msb rootOfUnity rootOfUnityInverse modulus mu : Z)
    : outcome (list Z * list Z) :=
  st ← for_range 0 CycloOrderHf (fun i '(Table, TableI, x, xinv) =>
         let iinv := Z.to_nat (ReverseBits (Z.of_nat i) msb) in
         Table ← vset Table iinv x;
         TableI ← vset TableI iinv xinv;
         x ← ModMulEq_mu x rootOfUnity modulus mu;
         xinv ← ModMulEq_mu xinv rootOfUnityInverse modulus mu;
         Ok (Table, TableI, x, xinv))
         (repeat 0 CycloOrderHf, repeat 0 CycloOrderHf, 1, 1);
  let '(Table, TableI, _, _) := st in
  Ok (Table, TableI).

(** [1 << i], an [int]. *)
Definition int_bit (i : nat) : outcome Z :=
  if (i <? 31)%nat then Ok (Z.shiftl 1 (Z.of_nat i)) else UB.

(** The maps after a call that throws are not modelled: [ModInverse] can throw
    between the assignments to the maps. *)
Definition PreCompute (rootOfUnity : Z) (CycloOrder : Z) (modulus : Z) (c : FTTCache)
    : outcome FTTCache :=
  let CycloOrderHf := Z.to_nat (Z.shiftr CycloOrder 1) in
  if table_missing c modulus CycloOrderHf then
    let msb := GetMSB64 (u32 (Z.of_nat CycloOrderHf - 1)) in
    mu ← ComputeMu modulus;
    Table ← NativeVectorT_new CycloOrderHf modulus;
    TableI ← NativeVectorT_new CycloOrderHf modulus;
    rootOfUnityInverse ← ModInverse rootOfUnity modulus;
    tables ← fill_tables CycloOrderHf msb rootOfUnity rootOfUnityInverse modulus mu;
    let Table := mkVector (fst tables) (m_modulus Table) in
    let TableI := mkVector (snd tables) (m_modulus TableI) in
    TableCOI ← NativeVectorT_new (Z.to_nat (msb + 1)) modulus;
    coi ← vmapM (fun i => b ← int_bit i; ModInverse (wrap b) modulus)
            (seq 0 (Z.to_nat (msb + 1)));
    let TableCOI := mkVector coi (m_modulus TableCOI) in
    preconTable ← NativeVectorT_new CycloOrderHf modulus;
    preconTableI ← NativeVectorT_new CycloOrderHf modulus;
    pre ← vmapM (fun x => PrepModMulConst x modulus) (m_data Table);
    preI ← vmapM (fun x => PrepModMulConst x modulus) (m_data TableI);
    preconTableCOI ← NativeVectorT_new (Z.to_nat (msb + 1)) modulus;
    preCOI ← vmapM (fun x => PrepModMulConst x modulus) (m_data TableCOI);
    Ok (mkCache
      (<[modulus := TableCOI]> (m_cycloOrderInverseTableByModulus c))
      (<[modulus := mkVector preCOI (m_modulus preconTableCOI)]>
         (m_cycloOrderInversePreconTableByModulus c))
      (<[modulus := Table]> (m_rootOfUnityReverseTableByModulus c))
      (<[modulus := TableI]> (m_rootOfUnityInverseReverseTableByModulus c))
      (<[modulus := mkVector pre (m_modulus preconTable)]>
         (m_rootOfUnityPreconReverseTableByModulus c))
      (<[modulus := mkVector preI (m_modulus preconTableI)]>
         (m_rootOfUnityInversePreconReverseTableByModulus c)))
  else Ok c.

(** The tables of a chain of moduli. *)
Definition PreCompute_chain (rootOfUnity : list Z) (CycloOrder : Z) (moduliiChain : list Z)
    (c : FTTCache) : outcome FTTCache :=
  if negb (length rootOfUnity =? length moduliiChain)%nat then Throw math_error
  else
    for_range 0 (length rootOfUnity) (fun i c =>
      currentRoot ← vget rootOfUnity i;
      currentMod ← vget moduliiChain i;
      PreCompute currentRoot CycloOrder currentMod c) c.

(** The common beginning of the four transforms: the tests and the tables. *)
Definition FTT_prepare (rootOfUnity CycloOrder : Z) (len : nat) (modulus : Z) (c : FTTCache)
    : outcome FTTCache :=
  if negb (IsPowerOfTwo CycloOrder) then Throw math_error
  else
    let CycloOrderHf := Z.to_nat (Z.shiftr CycloOrder 1) in
    if negb (len =? CycloOrderHf)%nat then Throw math_error
    else if table_missing c modulus CycloOrderHf then PreCompute rootOfUnity CycloOrder modulus c
    else Ok c.

Definition FTT_ForwardTransformToBitReverseInPlace (rootOfUnity CycloOrder : Z)
    (element : NativeVectorT) (c : FTTCache) : outcome (NativeVectorT * FTTCache) :=
  if (rootOfUnity =? 1) || (rootOfUnity =? 0) then Ok (element, c)
  else
    let modulus := m_modulus element in
    c ← FTT_prepare rootOfUnity CycloOrder (GetLength element) modulus c;
    element ← ForwardTransformToBitReverseInPlace
                (map_at (m_rootOfUnityReverseTableByModulus c) modulus)
                (map_at (m_rootOfUnityPreconReverseTableByModulus c) modulus) element;
    Ok (element, c).

Definition FTT_ForwardTransformToBitReverse (element : NativeVectorT) (rootOfUnity CycloOrder : Z)
    (result : NativeVectorT) (c : FTTCache) : outcome (NativeVectorT * FTTCache) :=
  if (rootOfUnity =? 1) || (rootOfUnity =? 0) then Ok (element, c)
  else
    let modulus := m_modulus element in
    c ← FTT_prepare rootOfUnity CycloOrder (GetLength result) modulus c;
    result ← ForwardTransformToBitReverse element
               (map_at (m_rootOfUnityReverseTableByModulus c) modulus)
               (map_at (m_rootOfUnityPreconReverseTableByModulus c) modulus) result;
    Ok (result, c).

(** The inverse transform with the tables of the cache. *)
Definition FTT_inverse_with (CycloOrderHf : nat) (modulus : Z) (element : NativeVectorT)
    (c : FTTCache) : outcome NativeVectorT :=
  let msb := Z.to_nat (GetMSB64 (u32 (Z.of_nat CycloOrderHf - 1))) in
  coi ← vget (m_data (map_at (m_cycloOrderInverseTableByModulus c) modulus)) msb;
  preCoi ← vget (m_data (map_at (m_cycloOrderInversePreconTableByModulus c) modulus)) msb;
  InverseTransformFromBitReverseInPlace
    (map_at (m_rootOfUnityInverseReverseTableByModulus c) modulus)
    (map_at (m_rootOfUnityInversePreconReverseTableByModulus c) modulus) coi preCoi element.

Definition FTT_InverseTransformFromBitReverseInPlace (rootOfUnity CycloOrder : Z)
    (element : NativeVectorT) (c : FTTCache) : outcome (NativeVectorT * FTTCache) :=
  if (rootOfUnity =? 1) || (rootOfUnity =? 0) then Ok (element, c)
  else
    let modulus := m_modulus element in
    c ← FTT_prepare rootOfUnity CycloOrder (GetLength element) modulus c;
    element ← FTT_inverse_with (Z.to_nat (Z.shiftr CycloOrder 1)) modulus element c;
    Ok (element, c).

Definition FTT_InverseTransformFromBitReverse (element : NativeVectorT) (rootOfUnity CycloOrder : Z)
    (result : NativeVectorT) (c : FTTCache) : outcome (NativeVectorT * FTTCache) :=
  if (rootOfUnity =? 1) || (rootOfUnity =? 0) then Ok (element, c)
  else
    let modulus := m_modulus element in
    c ← FTT_prepare rootOfUnity CycloOrder (GetLength result) modulus c;
    result ← copy_to_result element result;
    result ← FTT_inverse_with (Z.to_nat (Z.shiftr CycloOrder 1)) modulus result c;
    Ok (result, c).
End FTT.
