(* ===== verification/NttProps.v ===== *)
(** * Number-theoretic transforms: theorems

    The loops of Ntt.v compute, stage by stage, pure functions on vectors of
    residues ([pstage]); the forward stages evaluate the input polynomial at
    odd powers of the root of unity, the inverse stages undo them up to the
    factor [2] per stage, and the pointwise product of two transforms is the
    transform of the negacyclic product. *)
From stdpp Require Import base numbers list gmap.
From Stdlib Require Import ZArith Lia.
From S2P Require Import Prelude Bits NativeInt NativeIntProps NativeVector Ntt.
Open Scope Z_scope.

(** ** Pure stages *)

(** A butterfly replaces the entries [x] at [lo] and [y] at [lo + t] by
    [f w x y] and [g w x y], for the twiddle [w]. *)
Definition pbutterfly (f g : Z -> Z -> Z) (t lo : nat) (e : list Z) : list Z :=
  <[(lo + t)%nat := g (e !!! lo) (e !!! (lo + t)%nat)]>
    (<[lo := f (e !!! lo) (e !!! (lo + t)%nat)]> e).

(** A block whose butterflies from [j1] up to [p] are done. *)
Definition pblock (f g : Z -> Z -> Z) (j1 p t : nat) (e : list Z) : list Z :=
  imap (fun idx x =>
    if decide (j1 <= idx < p)%nat then f x (e !!! (idx + t)%nat)
    else if decide (j1 + t <= idx < p + t)%nat then g (e !!! (idx - t)%nat) x
    else x) e.

(** A stage whose blocks before [i] are done: [m] twiddles from [wt m] on, and
    blocks of length [2 t]. *)
Definition pstage_upto (f g : Z -> Z -> Z -> Z) (wt : nat -> Z) (m t i : nat) (e : list Z)
    : list Z :=
  imap (fun idx x =>
    if decide (idx < i * (2 * t))%nat then
      let w := wt (m + idx / (2 * t))%nat in
      if decide (idx mod (2 * t) < t)%nat then f w x (e !!! (idx + t)%nat)
      else g w (e !!! (idx - t)%nat) x
    else x) e.

Definition pstage f g wt m t e := pstage_upto f g wt m t m e.

(** The forward and the inverse butterfly modulo [q]. *)
Definition ff (q w x y : Z) : Z := (x + y * w) mod q.
Definition fg (q w x y : Z) : Z := (x - y * w) mod q.
Definition gf (q w x y : Z) : Z := (x + y) mod q.
Definition gg (q w x y : Z) : Z := ((x - y) * w) mod q.

Section Stages.
Context (q : Z) (Hq : 0 < q).
Context (f g : Z -> Z -> Z -> Z).
Context (Hf : forall w x y, 0 <= f w x y < q) (Hg : forall w x y, 0 <= g w x y < q).

Lemma pblock_start f' g' j1 t e : pblock f' g' j1 j1 t e = e.
Proof.
  apply list_eq. intros i. unfold pblock. rewrite list_lookup_imap.
  destruct (e !! i); simpl; [|done]. f_equal. repeat case_decide; lia || done.
Qed.

Lemma length_pblock f' g' j1 p t e : length (pblock f' g' j1 p t e) = length e.
Proof. apply length_imap. Qed.

Lemma pblock_reduced w j1 p t e : reduced q e -> reduced q (pblock (f w) (g w) j1 p t e).
Proof.
  intros He. apply Forall_lookup_2. intros i x Hx. unfold pblock in Hx.
  rewrite list_lookup_imap in Hx. destruct (e !! i) as [y|] eqn:E; simplify_eq/=.
  repeat case_decide; auto. apply (Forall_lookup_1 _ _ _ _ He E).
Qed.

Lemma lookup_total_imap {A B} `{Inhabited A, Inhabited B} (h : nat -> A -> B) (l : list A) i :
  (i < length l)%nat -> imap h l !!! i = h i (l !!! i).
Proof.
  intros Hi. apply list_lookup_total_correct. rewrite list_lookup_imap.
  by rewrite (list_lookup_lookup_total_lt l i Hi).
Qed.

(** One more butterfly. *)
Lemma pblock_step f' g' j1 p t e :
  (j1 <= p < j1 + t)%nat -> (j1 + 2 * t <= length e)%nat ->
  pbutterfly f' g' t p (pblock f' g' j1 p t e) = pblock f' g' j1 (S p) t e.
Proof.
  intros Hp Hl. unfold pbutterfly.
  assert (pblock f' g' j1 p t e !!! p = e !!! p) as ->.
  { unfold pblock. rewrite lookup_total_imap by lia. repeat case_decide; lia || done. }
  assert (pblock f' g' j1 p t e !!! (p + t)%nat = e !!! (p + t)%nat) as ->.
  { unfold pblock. rewrite lookup_total_imap by lia. repeat case_decide; lia || done. }
  apply list_eq. intros i.
  destruct (decide (i = p + t)%nat) as [->|Hi].
  { rewrite list_lookup_insert_eq by (rewrite length_insert, length_pblock; lia).
    unfold pblock. rewrite list_lookup_imap, list_lookup_lookup_total_lt by lia. simpl.
    f_equal. repeat case_decide; try lia. f_equal. f_equal. lia. }
  rewrite list_lookup_insert_ne by done.
  destruct (decide (i = p)) as [->|Hi'].
  { rewrite list_lookup_insert_eq by (rewrite length_pblock; lia).
    unfold pblock. rewrite list_lookup_imap, list_lookup_lookup_total_lt by lia. simpl.
    f_equal. repeat case_decide; lia || done. }
  rewrite list_lookup_insert_ne by done. unfold pblock. rewrite !list_lookup_imap.
  destruct (e !! i); simpl; [|done]. f_equal. repeat case_decide; lia || done.
Qed.

Lemma list_eq_total (l k : list Z) :
  length l = length k -> (forall i, (i < length l)%nat -> l !!! i = k !!! i) -> l = k.
Proof.
  intros Hl H. apply list_eq. intros i. destruct (decide (i < length l)%nat).
  - rewrite !list_lookup_lookup_total_lt by lia. by rewrite H.
  - by rewrite !lookup_ge_None_2 by lia.
Qed.

Lemma length_pstage_upto wt m t i e : length (pstage_upto f g wt m t i e) = length e.
Proof. apply length_imap. Qed.

Lemma pstage_upto_at wt m t i e idx :
  (idx < length e)%nat ->
  pstage_upto f g wt m t i e !!! idx =
    if decide (idx < i * (2 * t))%nat then
      let w := wt (m + idx / (2 * t))%nat in
      if decide (idx mod (2 * t) < t)%nat then f w (e !!! idx) (e !!! (idx + t)%nat)
      else g w (e !!! (idx - t)%nat) (e !!! idx)
    else e !!! idx.
Proof. intros Hi. unfold pstage_upto. by rewrite lookup_total_imap. Qed.

Lemma pstage_upto_lookup wt m t i e idx :
  (idx < length e)%nat -> (i * (2 * t) <= idx)%nat ->
  pstage_upto f g wt m t i e !!! idx = e !!! idx.
Proof.
  intros Hl Hi. rewrite pstage_upto_at by done. case_decide; lia || done.
Qed.

Lemma pstage_upto_reduced wt m t i e : reduced q e -> reduced q (pstage_upto f g wt m t i e).
Proof.
  intros He. apply Forall_lookup_2. intros j x Hx. unfold pstage_upto in Hx.
  rewrite list_lookup_imap in Hx. destruct (e !! j) as [y|] eqn:E; simplify_eq/=.
  repeat case_decide; auto. apply (Forall_lookup_1 _ _ _ _ He E).
Qed.

Lemma pstage_upto_start wt m t e : pstage_upto f g wt m t 0 e = e.
Proof.
  apply list_eq. intros i. unfold pstage_upto. rewrite list_lookup_imap.
  destruct (e !! i); simpl; [|done]. done.
Qed.

Lemma block_index i t idx :
  (0 < t)%nat -> (i * (2 * t) <= idx < S i * (2 * t))%nat ->
  (idx / (2 * t) = i /\ idx mod (2 * t) = idx - i * (2 * t))%nat.
Proof.
  intros Ht Hi. assert (idx / (2 * t) = i)%nat as E.
  { symmetry. apply (Nat.div_unique idx (2 * t) i (idx - i * (2 * t))); lia. }
  split; [done|]. pose proof (Nat.div_mod idx (2 * t)). lia.
Qed.

(** One more block. *)
Lemma pstage_upto_step wt m t i e :
  (0 < t)%nat -> (S i * (2 * t) <= length e)%nat ->
  pblock (f (wt (m + i)%nat)) (g (wt (m + i)%nat)) (i * (2 * t)) (i * (2 * t) + t) t
    (pstage_upto f g wt m t i e)
  = pstage_upto f g wt m t (S i) e.
Proof.
  intros Ht Hl. apply list_eq_total.
  { by rewrite length_pblock, !length_pstage_upto. }
  rewrite length_pblock, length_pstage_upto. intros idx Hidx. unfold pblock.
  rewrite lookup_total_imap, (pstage_upto_at _ _ _ i _ idx), (pstage_upto_at _ _ _ (S i) _ idx)
    by (rewrite ?length_pstage_upto; lia). cbv zeta.
  destruct (decide (idx < i * (2 * t))%nat) as [H1|H1].
  { repeat case_decide; lia || done. }
  destruct (decide (idx < S i * (2 * t))%nat) as [H2|H2].
  2: { repeat case_decide; lia || done. }
  destruct (block_index i t idx Ht ltac:(lia)) as [-> ->].
  repeat case_decide; try lia; by rewrite pstage_upto_lookup by lia.
Qed.

(** The state after [j] stages on a vector of length [2 ^ k]: stage [j] of the
    forward transform has [2 ^ j] blocks, stage [j] of the inverse transform
    has blocks of length [2 ^ (j + 1)]. *)
Fixpoint pforward (wt : nat -> Z) (k j : nat) (e : list Z) : list Z :=
  match j with
  | O => e
  | S j => pstage f g wt (2 ^ j) (2 ^ (k - 1 - j)) (pforward wt k j e)
  end.
Fixpoint pinverse (wt : nat -> Z) (k j : nat) (e : list Z) : list Z :=
  match j with
  | O => e
  | S j => pstage f g wt (2 ^ (k - 1 - j)) (2 ^ j) (pinverse wt k j e)
  end.

Lemma pforward_inv wt k j e :
  reduced q e -> reduced q (pforward wt k j e) /\ length (pforward wt k j e) = length e.
Proof.
  intros He. induction j as [|j [IH1 IH2]]; simpl; [done|]. unfold pstage.
  rewrite length_pstage_upto. split; [by apply pstage_upto_reduced | done].
Qed.

Lemma pinverse_inv wt k j e :
  reduced q e -> reduced q (pinverse wt k j e) /\ length (pinverse wt k j e) = length e.
Proof.
  intros He. induction j as [|j [IH1 IH2]]; simpl; [done|]. unfold pstage.
  rewrite length_pstage_upto. split; [by apply pstage_upto_reduced | done].
Qed.

Lemma pow2_double k j : (j < k)%nat -> (2 ^ (k - j) = 2 * 2 ^ (k - 1 - j))%nat.
Proof. intros. replace (k - j)%nat with (S (k - 1 - j)) by lia. apply Nat.pow_succ_r'. Qed.

Lemma pow2_split k j : (j < k)%nat -> (2 ^ j * (2 * 2 ^ (k - 1 - j)) = 2 ^ k)%nat.
Proof. intros. rewrite <- pow2_double, <- Nat.pow_add_r by done. f_equal. lia. Qed.

Lemma half_double x : (2 * x / 2 = x)%nat.
Proof. rewrite Nat.mul_comm. by apply Nat.div_mul. Qed.

(** The entries of the code: an integer class whose objects encode the residues. *)
Context {A : Type} (enc : Z -> A).

(** The loop over a block. *)
Lemma block_loop_enc bf w j1 t e :
  (forall lo e, reduced q e -> (lo + t < length e)%nat ->
     bf t lo (map enc e) = Ok (map enc (pbutterfly (f w) (g w) t lo e))) ->
  reduced q e -> (j1 + 2 * t <= length e)%nat ->
  for_range j1 (j1 + t) (fun lo e => bf t lo e) (map enc e)
  = Ok (map enc (pblock (f w) (g w) j1 (j1 + t) t e)).
Proof.
  intros Hbf He Hl. rewrite <- (pblock_start (f w) (g w) j1 t e) at 1.
  apply (for_range_exact (fun p => map enc (pblock (f w) (g w) j1 p t e))); [lia|].
  intros p Hp. rewrite Hbf by (rewrite ?length_pblock; lia || by apply pblock_reduced).
  do 2 f_equal. by apply pblock_step.
Qed.

(** What the twiddles and butterflies of the code must satisfy. *)
Definition butterfly_enc {Tw} (twiddle : nat -> outcome Tw)
    (bf : Tw -> nat -> nat -> list A -> outcome (list A)) (wt : nat -> Z) (j : nat) : Prop :=
  exists o, twiddle j = Ok o /\
    forall t lo e, reduced q e -> (0 < t)%nat -> (lo + t < length e)%nat ->
      bf o t lo (map enc e) = Ok (map enc (pbutterfly (f (wt j)) (g (wt j)) t lo e)).

(** The loop over the blocks of a stage. *)
Lemma stage_enc {Tw} (twiddle : nat -> outcome Tw) bf wt m t logt1 e :
  (forall i, (i < m)%nat -> butterfly_enc twiddle bf wt (m + i)) ->
  (2 ^ logt1 = 2 * t)%nat -> (m * (2 * t) <= length e)%nat -> reduced q e ->
  stage twiddle bf m t logt1 (map enc e) = Ok (map enc (pstage f g wt m t e)).
Proof.
  intros Hbf Ht Hl He. unfold stage, pstage.
  assert (0 < t)%nat by (pose proof (Nat.pow_nonzero 2 logt1); lia).
  rewrite <- (pstage_upto_start wt m t e) at 1.
  apply (for_range_exact (fun i => map enc (pstage_upto f g wt m t i e))); [lia|].
  intros i Hi. destruct (Hbf i ltac:(lia)) as (o & -> & Ho). rewrite bind_Ok.
  rewrite Nat.shiftl_mul_pow2, Ht.
  assert ((S i) * (2 * t) <= length e)%nat by nia.
  rewrite (block_loop_enc (bf o) (wt (m + i)%nat)).
  - do 2 f_equal. by apply pstage_upto_step.
  - intros lo e' He' Hlo. by apply Ho.
  - by apply pstage_upto_reduced.
  - rewrite length_pstage_upto. lia.
Qed.

Context {Tw : Type} (twiddle : nat -> outcome Tw)
  (bf : Tw -> nat -> nat -> list A -> outcome (list A)) (wt : nat -> Z) (k : nat).
Context (Hbf : forall j, (1 <= j < 2 ^ k)%nat -> butterfly_enc twiddle bf wt j).

Lemma forward_loop_enc e : length e = (2 ^ k)%nat -> reduced q e ->
  forall fuel j, (j <= k)%nat -> (k - j < fuel)%nat ->
  forward_loop fuel twiddle bf (2 ^ k) (2 ^ j) (2 ^ (k - j) / 2) (k - j) (map enc (pforward wt k j e))
  = Ok (map enc (pforward wt k k e)).
Proof.
  intros Hl He. induction fuel as [|fuel IH]; intros j Hj Hfuel; [lia|]. cbn [forward_loop].
  destruct (Nat.ltb_spec (2 ^ j) (2 ^ k)) as [Hlt|Hge].
  - apply Nat.pow_lt_mono_r_iff in Hlt; [|lia].
    rewrite pow2_double, half_double by done.
    destruct (pforward_inv wt k j e He) as [Hr Hlen].
    rewrite (stage_enc twiddle bf wt).
    + rewrite bind_Ok. replace (2 * 2 ^ j)%nat with (2 ^ S j)%nat by apply Nat.pow_succ_r'.
      replace (k - 1 - j)%nat with (k - S j)%nat by lia. replace (k - j - 1)%nat with (k - S j)%nat by lia.
      replace (pstage f g wt (2 ^ j) (2 ^ (k - S j)) (pforward wt k j e)) with (pforward wt k (S j) e)
        by (simpl; do 2 f_equal; lia).
      apply IH; lia.
    + intros i Hi. apply Hbf. pose proof (pow2_split k j Hlt).
      pose proof (Nat.pow_nonzero 2 j). pose proof (Nat.pow_nonzero 2 (k - 1 - j)). nia.
    + by apply pow2_double.
    + rewrite Hlen, Hl. pose proof (pow2_split k j Hlt). lia.
    + done.
  - destruct (decide (j = k)) as [->|]; [done|].
    assert (2 ^ j < 2 ^ k)%nat by (apply Nat.pow_lt_mono_r; lia). lia.
Qed.

Lemma inverse_loop_enc e : length e = (2 ^ k)%nat -> reduced q e ->
  forall fuel j, (j <= k)%nat -> (k - j < fuel)%nat ->
  inverse_loop fuel twiddle bf (2 ^ (k - j) / 2) (2 ^ j) (S j) (map enc (pinverse wt k j e))
  = Ok (map enc (pinverse wt k k e)).
Proof.
  intros Hl He. induction fuel as [|fuel IH]; intros j Hj Hfuel; [lia|]. cbn [inverse_loop].
  destruct (decide (j = k)) as [->|].
  { rewrite Nat.sub_diag. reflexivity. }
  assert (j < k)%nat as Hlt by lia. rewrite pow2_double, half_double by done.
  pose proof (pow2_split k j Hlt) as Hsplit.
  pose proof (Nat.pow_nonzero 2 (k - 1 - j)). pose proof (Nat.pow_nonzero 2 j).
  destruct (Nat.leb_spec 1 (2 ^ (k - 1 - j))) as [_|]; [|lia].
  destruct (pinverse_inv wt k j e He) as [Hr Hlen].
  rewrite (stage_enc twiddle bf wt).
  - rewrite bind_Ok. replace (2 * 2 ^ j)%nat with (2 ^ S j)%nat by apply Nat.pow_succ_r'.
    rewrite Nat.add_1_r. change (pstage f g wt (2 ^ (k - 1 - j)) (2 ^ j) (pinverse wt k j e))
      with (pinverse wt k (S j) e).
    replace (k - 1 - j)%nat with (k - S j)%nat by lia. apply IH; lia.
  - intros i Hi. apply Hbf. nia.
  - apply Nat.pow_succ_r'.
  - rewrite Hlen, Hl. nia.
  - done.
Qed.

Lemma forward_stages_enc e :
  (k <= 32)%nat -> length e = (2 ^ k)%nat -> reduced q e ->
  forward_stages twiddle bf (map enc e) = Ok (map enc (pforward wt k k e)).
Proof.
  intros Hk Hl He. unfold forward_stages. rewrite length_map, Hl.
  replace (Z.to_nat (GetMSB64 (Z.of_nat (2 ^ k / 2)))) with k.
  - pose proof (forward_loop_enc e Hl He stage_fuel 0 ltac:(lia) ltac:(unfold stage_fuel; lia)) as H.
    by rewrite Nat.sub_0_r in H.
  - destruct (decide (k = 0%nat)) as [->|]; [done|].
    replace (2 ^ k)%nat with (2 * 2 ^ (k - 1))%nat
      by (rewrite <- Nat.pow_succ_r'; f_equal; lia).
    rewrite half_double, Nat2Z.inj_pow. unfold GetMSB64.
    rewrite GetMSB_log2, Z.log2_pow2 by (try apply pow2_pos; lia). lia.
Qed.

Lemma inverse_stages_enc e :
  (k <= 32)%nat -> length e = (2 ^ k)%nat -> reduced q e ->
  inverse_stages twiddle bf (map enc e) = Ok (map enc (pinverse wt k k e)).
Proof.
  intros Hk Hl He. unfold inverse_stages. rewrite length_map, Hl.
  pose proof (inverse_loop_enc e Hl He stage_fuel 0 ltac:(lia) ltac:(unfold stage_fuel; lia)) as H.
  by rewrite Nat.sub_0_r in H.
Qed.
End Stages.

(** For the native vectors the entries are the residues themselves. *)
Section NativeStages.
Context (q : Z) (Hq : 0 < q) (f g : Z -> Z -> Z -> Z).
Context (Hf : forall w x y, 0 <= f w x y < q) (Hg : forall w x y, 0 <= g w x y < q).

Definition butterfly_spec {Tw} (twiddle : nat -> outcome Tw)
    (bf : Tw -> nat -> nat -> list Z -> outcome (list Z)) (wt : nat -> Z) (j : nat) : Prop :=
  exists o, twiddle j = Ok o /\
    forall t lo e, reduced q e -> (0 < t)%nat -> (lo + t < length e)%nat ->
      bf o t lo e = Ok (pbutterfly (f (wt j)) (g (wt j)) t lo e).

Context {Tw : Type} (twiddle : nat -> outcome Tw)
  (bf : Tw -> nat -> nat -> list Z -> outcome (list Z)) (wt : nat -> Z) (k : nat).
Context (Hbf : forall j, (1 <= j < 2 ^ k)%nat -> butterfly_spec twiddle bf wt j).

Lemma native_butterfly j : (1 <= j < 2 ^ k)%nat -> butterfly_enc q f g (fun x => x) twiddle bf wt j.
Proof.
  intros Hj. destruct (Hbf j Hj) as (o & E & H). exists o. split; [done|]. intros t lo e He Ht Hl.
  rewrite !map_id. by apply H.
Qed.

Lemma forward_stages_ok e :
  (k <= 32)%nat -> length e = (2 ^ k)%nat -> reduced q e ->
  forward_stages twiddle bf e = Ok (pforward f g wt k k e).
Proof.
  intros Hk Hl He. pose proof (forward_stages_enc q f g Hf Hg (fun x => x) twiddle bf wt k native_butterfly e Hk Hl He) as H.
  by rewrite !map_id in H.
Qed.

Lemma inverse_stages_ok e :
  (k <= 32)%nat -> length e = (2 ^ k)%nat -> reduced q e ->
  inverse_stages twiddle bf e = Ok (pinverse f g wt k k e).
Proof.
  intros Hk Hl He. pose proof (inverse_stages_enc q f g Hf Hg (fun x => x) twiddle bf wt k native_butterfly e Hk Hl He) as H.
  by rewrite !map_id in H.
Qed.
End NativeStages.

(** ** The butterflies of the code *)

Section Butterflies.
Context `{W : NativeWidth} (q : Z) (Hq : 0 < q) (Hq2 : 2 * q <= 2 ^ (wbits - 1)).

Lemma ff_range w x y : 0 <= ff q w x y < q. Proof. by apply mod_range. Qed.
Lemma fg_range w x y : 0 <= fg q w x y < q. Proof. by apply mod_range. Qed.
Lemma gf_range w x y : 0 <= gf q w x y < q. Proof. by apply mod_range. Qed.
Lemma gg_range w x y : 0 <= gg q w x y < q. Proof. by apply mod_range. Qed.

Lemma fwd_sum_correct x y : 0 <= x < q -> 0 <= y < q -> fwd_sum x y q = (x + y) mod q.
Proof. pose proof word_half. apply ModAddFast_correct. lia. Qed.

Lemma fwd_diff_correct x y : 0 <= x < q -> 0 <= y < q -> fwd_diff x y q = (x - y) mod q.
Proof.
  intros Hx Hy. unfold fwd_diff, AddEq, AddEqFast, SubEq, SubEqFast. pose proof word_half.
  destruct (Z.ltb_spec x y).
  - rewrite (wrap_small (x + q)), wrap_small by lia.
    rewrite <- (Z_mod_plus_full (x - y) 1), Z.mod_small by lia. lia.
  - by rewrite wrap_small, Z.mod_small by lia.
Qed.

Lemma vget_total (e : list Z) i : (i < length e)%nat -> vget e i = Ok (e !!! i).
Proof. intros Hi. unfold vget. by rewrite list_lookup_lookup_total_lt. Qed.

Section Mul.
Context (mul : Z -> outcome Z) (w : Z).
Context (Hmul : forall x, 0 <= x < q -> mul x = Ok ((x * w) mod q)).

Lemma fwd_butterfly_ok t lo e :
  reduced q e -> (0 < t)%nat -> (lo + t < length e)%nat ->
  fwd_butterfly mul q t lo e = Ok (pbutterfly (ff q w) (fg q w) t lo e).
Proof.
  intros He Ht Hl. unfold fwd_butterfly, pbutterfly, ff, fg.
  pose proof (reduced_at q e lo He ltac:(lia)) as Rl.
  pose proof (reduced_at q e (lo + t) He ltac:(lia)) as Rh.
  rewrite !vget_total, !bind_Ok, Hmul, !bind_Ok by lia.
  pose proof (mod_range (e !!! (lo + t)%nat * w) q Hq).
  rewrite fwd_sum_correct, fwd_diff_correct by lia.
  rewrite vset_lt, bind_Ok, vset_lt by (rewrite ?length_insert; lia).
  by rewrite Zplus_mod_idemp_r, Zminus_mod_idemp_r.
Qed.

Lemma fwd_butterfly_nz_ok t lo e :
  reduced q e -> (0 < t)%nat -> (lo + t < length e)%nat ->
  fwd_butterfly_nz mul q t lo e = Ok (pbutterfly (ff q w) (fg q w) t lo e).
Proof.
  intros He Ht Hl. pose proof (fwd_butterfly_ok t lo e He Ht Hl) as E.
  unfold fwd_butterfly, fwd_butterfly_nz in *.
  pose proof (reduced_at q e lo He ltac:(lia)) as Rl.
  rewrite !vget_total, !bind_Ok in * by lia.
  destruct (Z.eqb_spec (e !!! (lo + t)%nat) 0) as [E0|]; [|done]. cbn [negb].
  rewrite vset_lt by lia. f_equal. unfold pbutterfly, ff, fg. rewrite E0.
  rewrite Z.mul_0_l, Z.add_0_r, Z.sub_0_r, Z.mod_small by lia.
  by rewrite (list_insert_id e lo) by (apply list_lookup_lookup_total_lt; lia).
Qed.

Lemma inv_butterfly_ok t lo e :
  reduced q e -> (0 < t)%nat -> (lo + t < length e)%nat ->
  inv_butterfly mul q t lo e = Ok (pbutterfly (gf q w) (gg q w) t lo e).
Proof.
  intros He Ht Hl. unfold inv_butterfly, pbutterfly, gf, gg.
  pose proof (reduced_at q e lo He ltac:(lia)) as Rl.
  pose proof (reduced_at q e (lo + t) He ltac:(lia)) as Rh.
  rewrite !vget_total, !bind_Ok by lia.
  pose proof (fwd_diff_correct _ _ Rl Rh) as Ed. pose proof (fwd_sum_correct _ _ Rl Rh) as Es.
  unfold fwd_diff in Ed. unfold fwd_sum in Es. rewrite Ed. clear Ed.
  change (AddEq (e !!! lo) (e !!! (lo + t)%nat)) with (Add (e !!! lo) (e !!! (lo + t)%nat)).
  rewrite Es, Hmul, bind_Ok by (by apply mod_range).
  rewrite vset_lt, bind_Ok, vset_lt by (rewrite ?length_insert; lia).
  by rewrite Zmult_mod_idemp_l.
Qed.
End Mul.
End Butterflies.

(** ** Polynomials *)

(** The value at [x] of the polynomial with coefficients [c 0 .. c (L - 1)]. *)
Fixpoint bsum (c : nat -> Z) (L : nat) (x : Z) : Z :=
  match L with
  | O => 0
  | S L => bsum c L x + c L * x ^ Z.of_nat L
  end.

Definition peval (a : list Z) (x : Z) : Z := bsum (fun i => a !!! i) (length a) x.

Lemma bsum_eqmod q c d L x y :
  x ==[q] y -> (forall i, (i < L)%nat -> c i ==[q] d i) -> bsum c L x ==[q] bsum d L y.
Proof.
  intros Hx. induction L as [|L IH]; intros H; simpl; [done|].
  rewrite (eqmod_pow q x y _ Hx), (H L), IH; [done | intros; apply H; lia | lia].
Qed.

Lemma bsum_split c L1 L2 x :
  bsum c (L1 + L2) x = bsum c L1 x + x ^ Z.of_nat L1 * bsum (fun k => c (L1 + k)%nat) L2 x.
Proof.
  induction L2 as [|L2 IH]; simpl; [rewrite Nat.add_0_r; ring|].
  rewrite Nat.add_succ_r. simpl. rewrite IH, Nat2Z.inj_add, Z.pow_add_r by lia. ring.
Qed.

Lemma bsum_linear c d w L x : bsum (fun k => c k + d k * w) L x = bsum c L x + w * bsum d L x.
Proof. induction L as [|L IH]; simpl; [ring|]. rewrite IH. ring. Qed.

Lemma bsum_scale c w L x : bsum (fun k => w * c k) L x = w * bsum c L x.
Proof. induction L as [|L IH]; simpl; [ring|]. rewrite IH. ring. Qed.

Lemma pow_even_twice x t : x ^ Z.of_nat (2 * t) = x ^ Z.of_nat t * x ^ Z.of_nat t.
Proof. rewrite <- Z.pow_add_r by lia. f_equal. lia. Qed.

(** ** Evaluation by the forward stages *)

Section Evaluation.
Context (q : Z) (Hq : 0 < q) (T : nat -> Z) (k : nat).

(** The constants [c] with [x ^ L = c] on the points of a block: [-1] at the
    root, and plus or minus the twiddle of the parent below it. *)
Definition node (j : nat) : Z :=
  if (j =? 1)%nat then -1
  else if Nat.even j then T (Nat.div2 j) else - T (Nat.div2 j).

(** The twiddle of a block is a square root of its constant. *)
Definition table_ok : Prop :=
  forall j, (1 <= j < 2 ^ k)%nat -> T j * T j ==[q] node j.

Lemma node_even j : (1 <= j)%nat -> node (2 * j) = T j.
Proof.
  intros Hj. unfold node. destruct (Nat.eqb_spec (2 * j) 1); [lia|].
  by rewrite Nat.even_mul, Nat.div2_double.
Qed.

Lemma node_odd j : (1 <= j)%nat -> node (2 * j + 1) = - T j.
Proof.
  intros Hj. unfold node. destruct (Nat.eqb_spec (2 * j + 1) 1); [lia|].
  replace (2 * j + 1)%nat with (S (2 * j)) by lia.
  by rewrite Nat.even_succ, Nat.odd_mul, Nat.div2_succ_double.
Qed.

Definition block_eval (a e : list Z) (m L : nat) : Prop :=
  forall i x, (i < m)%nat -> x ^ Z.of_nat L ==[q] node (m + i) ->
    bsum (fun k => e !!! (i * L + k)%nat) L x ==[q] peval a x.

Lemma block_eval_step a e m t :
  table_ok -> (1 <= m)%nat -> (0 < t)%nat -> length e = (m * (2 * t))%nat -> (2 * m <= 2 ^ k)%nat ->
  block_eval a e m (2 * t) ->
  block_eval a (pstage (ff q) (fg q) T m t e) (2 * m) t.
Proof.
  intros HT Hm Ht Hl Hk IH i x Hi Hx.
  pose proof (Nat.div2_odd i) as Di. set (j := Nat.div2 i) in *. set (b := Nat.odd i) in *.
  assert (j < m)%nat as Hj by (destruct b; simpl in Di; lia).
  set (w := T (m + j)%nat).
  assert (x ^ Z.of_nat t ==[q] (if b then - w else w)) as Hxt.
  { rewrite Hx. apply eqmod_eq. destruct b; simpl Nat.b2n in Di.
    - replace (2 * m + i)%nat with (2 * (m + j) + 1)%nat by lia. apply node_odd. lia.
    - replace (2 * m + i)%nat with (2 * (m + j))%nat by lia. apply node_even. lia. }
  assert (x ^ Z.of_nat (2 * t) ==[q] node (m + j)) as Hx2.
  { rewrite pow_even_twice, Hxt. rewrite <- (HT (m + j)%nat) by lia. fold w.
    apply eqmod_eq. destruct b; ring. }
  rewrite <- (IH j x Hj Hx2). replace (2 * t)%nat with (t + t)%nat by lia.
  rewrite bsum_split, Hxt.
  set (lo := fun k => e !!! (j * (t + t) + k)%nat).
  set (hi := fun k => e !!! (j * (t + t) + (t + k))%nat).
  transitivity (bsum (fun k => lo k + hi k * (if b then - w else w)) t x).
  2: { rewrite bsum_linear. done. }
  apply bsum_eqmod; [done|]. intros r Hr. unfold pstage, lo, hi.
  rewrite pstage_upto_at by (destruct b; simpl in Di; nia).
  destruct b; simpl Nat.b2n in Di.
  - destruct (block_index j t (i * t + r) Ht ltac:(nia)) as [-> ->].
    rewrite decide_True by nia. rewrite decide_False by nia. cbv zeta. fold w. unfold fg.
    rewrite eqmod_mod. replace (i * t + r - t)%nat with (j * (t + t) + r)%nat by nia.
    replace (i * t + r)%nat with (j * (t + t) + (t + r))%nat by nia. apply eqmod_eq. ring.
  - destruct (block_index j t (i * t + r) Ht ltac:(nia)) as [-> ->].
    rewrite decide_True by nia. rewrite decide_True by nia. cbv zeta. fold w. unfold ff.
    rewrite eqmod_mod. replace (i * t + r + t)%nat with (j * (t + t) + (t + r))%nat by nia.
    by replace (i * t + r)%nat with (j * (t + t) + r)%nat by nia.
Qed.

Lemma pforward_eval a j :
  table_ok -> reduced q a -> length a = (2 ^ k)%nat -> (j <= k)%nat ->
  block_eval a (pforward (ff q) (fg q) T k j a) (2 ^ j) (2 ^ (k - j)).
Proof.
  intros HT Ha Hl. induction j as [|j IH]; intros Hj.
  - intros i x Hi _. simpl in Hi. replace i with 0%nat by lia. rewrite Nat.sub_0_r.
    unfold peval. rewrite Hl. done.
  - specialize (IH ltac:(lia)). rewrite pow2_double in IH by lia.
    replace (k - S j)%nat with (k - 1 - j)%nat by lia.
    rewrite (Nat.pow_succ_r' 2 j). simpl pforward.
    pose proof (Nat.pow_nonzero 2 j). pose proof (Nat.pow_nonzero 2 (k - 1 - j)).
    pose proof (pow2_split k j ltac:(lia)).
    apply block_eval_step; [done | lia | lia | | nia | done].
    rewrite (proj2 (pforward_inv q (ff q) (fg q) (ff_range q Hq) (fg_range q Hq) T k j a Ha)). lia.
Qed.

(** The forward stages evaluate at the constants of the leaves. *)
Lemma pforward_values a i :
  table_ok -> reduced q a -> length a = (2 ^ k)%nat -> (i < 2 ^ k)%nat ->
  pforward (ff q) (fg q) T k k a !!! i = peval a (node (2 ^ k + i)) mod q.
Proof.
  intros HT Ha Hl Hi.
  pose proof (pforward_inv q (ff q) (fg q) (ff_range q Hq) (fg_range q Hq) T k k a Ha) as [Hr Hlen].
  pose proof (pforward_eval a k HT Ha Hl ltac:(lia) i (node (2 ^ k + i)) Hi) as H.
  rewrite Nat.sub_diag in H. simpl in H. rewrite Z.pow_1_r in H. specialize (H ltac:(done)).
  apply eqmod_unique; [apply reduced_at; [done | lia]|]. rewrite <- H. apply eqmod_eq.
  rewrite Nat.mul_1_r, Nat.add_0_r. change (Z.of_nat 0) with 0. rewrite Z.pow_0_r. ring.
Qed.
End Evaluation.

(** ** The inverse stages undo the forward stages *)

Section RoundTrip.
Context (q : Z) (Hq : 0 < q) (T TI : nat -> Z) (k : nat).

Definition inverse_table : Prop :=
  forall j, (1 <= j < 2 ^ k)%nat -> T j * TI j ==[q] 1.

Definition scale (c : Z) (e : list Z) : list Z := map (fun x => (c * x) mod q) e.

Lemma scale_at c e i : (i < length e)%nat -> scale c e !!! i = (c * (e !!! i)) mod q.
Proof.
  intros Hi. apply list_lookup_total_correct. unfold scale.
  by rewrite list_lookup_fmap, list_lookup_lookup_total_lt by done.
Qed.

Lemma length_scale c e : length (scale c e) = length e.
Proof. apply length_map. Qed.

Lemma scale_reduced c e : reduced q (scale c e).
Proof. apply Forall_map, Forall_true. intros x. by apply mod_range. Qed.

Lemma scale_1 e : reduced q e -> scale 1 e = e.
Proof.
  intros He. apply list_eq_total; [apply length_scale|]. rewrite length_scale. intros i Hi.
  rewrite scale_at, Z.mul_1_l by done. apply Z.mod_small. by apply reduced_at.
Qed.

Lemma inverse_stage_undoes m t c e :
  inverse_table -> (1 <= m)%nat -> (0 < t)%nat -> length e = (m * (2 * t))%nat -> (2 * m <= 2 ^ k)%nat ->
  pstage (gf q) (gg q) TI m t (scale c (pstage (ff q) (fg q) T m t e)) = scale (2 * c) e.
Proof.
  intros HI Hm Ht Hl Hk. unfold pstage. set (e' := pstage_upto _ _ T m t m e).
  assert (length e' = length e) as Hl' by apply length_pstage_upto.
  apply list_eq_total; rewrite length_pstage_upto, ?length_scale; [lia|].
  intros idx Hidx. rewrite Hl' in Hidx.
  rewrite pstage_upto_at, scale_at by (rewrite ?length_scale; lia). rewrite decide_True by lia.
  set (i := (idx / (2 * t))%nat). pose proof (Nat.div_mod idx (2 * t) ltac:(lia)) as D.
  pose proof (Nat.mod_upper_bound idx (2 * t) ltac:(lia)) as Hr. fold i in D.
  assert (i < m)%nat as Hi by (apply Nat.Div0.div_lt_upper_bound; lia).
  cbv zeta. set (wi := TI (m + i)%nat). set (w := T (m + i)%nat).
  pose proof (HI (m + i)%nat ltac:(lia)) as Hinv. fold w wi in Hinv.
  (* the two entries of the block before and after the forward stage *)
  assert (forall r, (r < t)%nat ->
    e' !!! (i * (2 * t) + r)%nat ==[q] e !!! (i * (2 * t) + r)%nat + e !!! (i * (2 * t) + r + t)%nat * w /\
    e' !!! (i * (2 * t) + r + t)%nat ==[q] e !!! (i * (2 * t) + r)%nat - e !!! (i * (2 * t) + r + t)%nat * w)
    as Hpair.
  { intros r Hr'. unfold e'. rewrite !pstage_upto_at by nia.
    destruct (block_index i t (i * (2 * t) + r) Ht ltac:(lia)) as [-> ->].
    destruct (block_index i t (i * (2 * t) + r + t) Ht ltac:(lia)) as [-> ->].
    rewrite !(decide_True (P := (_ < m * _)%nat)) by nia.
    rewrite decide_True by lia. rewrite decide_False by lia. cbv zeta. fold w. unfold ff, fg.
    rewrite !eqmod_mod. replace (i * (2 * t) + r + t - t)%nat with (i * (2 * t) + r)%nat by lia. done. }
  case_decide as Hlo.
  - destruct (Hpair (idx mod (2 * t))%nat Hlo) as [E1 E2].
    replace (i * (2 * t) + idx mod (2 * t))%nat with idx in E1, E2 by lia.
    rewrite !scale_at by nia. unfold gf. apply eqmod_elim. rewrite !eqmod_mod, E1, E2.
    apply eqmod_eq. ring.
  - destruct (Hpair (idx mod (2 * t) - t)%nat ltac:(lia)) as [E1 E2].
    replace (i * (2 * t) + (idx mod (2 * t) - t))%nat with (idx - t)%nat in E1, E2 by lia.
    replace (idx - t + t)%nat with idx in E1, E2 by lia.
    rewrite !scale_at by nia. unfold gg. apply eqmod_elim. rewrite !eqmod_mod, E1, E2.
    transitivity (2 * c * (e !!! idx) * (w * wi)); [apply eqmod_eq; ring|].
    rewrite Hinv. apply eqmod_eq. ring.
Qed.

Lemma pinverse_pforward a j :
  inverse_table -> reduced q a -> length a = (2 ^ k)%nat -> (j <= k)%nat ->
  pinverse (gf q) (gg q) TI k j (pforward (ff q) (fg q) T k k a)
  = scale (2 ^ Z.of_nat j) (pforward (ff q) (fg q) T k (k - j) a).
Proof.
  intros HI Ha Hl.
  pose proof (fun j => pforward_inv q (ff q) (fg q) (ff_range q Hq) (fg_range q Hq) T k j a Ha) as Hinv.
  induction j as [|j IH]; intros Hj; simpl pinverse.
  - rewrite Nat.sub_0_r. symmetry. apply scale_1, Hinv.
  - rewrite IH by lia. replace (k - j)%nat with (S (k - 1 - j)) by lia. simpl pforward.
    replace (k - 1 - (k - 1 - j))%nat with j by lia.
    replace (k - S j)%nat with (k - 1 - j)%nat by lia.
    pose proof (pow2_split k (k - 1 - j) ltac:(lia)) as Hs.
    replace (k - 1 - (k - 1 - j))%nat with j in Hs by lia.
    pose proof (Nat.pow_nonzero 2 j). pose proof (Nat.pow_nonzero 2 (k - 1 - j)).
    rewrite inverse_stage_undoes; [| done | lia | lia | | nia].
    + f_equal. rewrite Nat2Z.inj_succ, Z.pow_succ_r by lia. done.
    + rewrite (proj2 (Hinv _)). lia.
Qed.

(** The inverse stages and the last multiplication recover the input. *)
Lemma pinverse_recovers a ninv :
  inverse_table -> reduced q a -> length a = (2 ^ k)%nat -> 2 ^ Z.of_nat k * ninv ==[q] 1 ->
  map (fun x => (x * ninv) mod q)
    (pinverse (gf q) (gg q) TI k k (pforward (ff q) (fg q) T k k a)) = a.
Proof.
  intros HI Ha Hl Hn. rewrite pinverse_pforward, Nat.sub_diag by done. simpl pforward.
  apply list_eq_total; rewrite length_map, length_scale; [done|]. intros i Hi.
  apply list_lookup_total_correct. rewrite list_lookup_fmap.
  rewrite list_lookup_lookup_total_lt by (rewrite length_scale; lia). simpl. f_equal.
  rewrite scale_at by done. symmetry. apply eqmod_unique; [by apply reduced_at|].
  rewrite eqmod_mod. transitivity (a !!! i * (2 ^ Z.of_nat k * ninv)).
  - rewrite Hn. apply eqmod_eq. ring.
  - apply eqmod_eq. ring.
Qed.
End RoundTrip.

(** ** Negacyclic products *)

(** Coefficient [r] of [x ^ i * b] modulo [x ^ n + 1]. *)
Definition rotate (n : nat) (b : list Z) (i r : nat) : Z :=
  if (r <? i)%nat then - b !!! (n - i + r)%nat else b !!! (r - i)%nat.

(** The product of [a] and [b] in [Z_q\[x\] / (x ^ n + 1)]. *)
Definition negacyclic (q : Z) (a b : list Z) : list Z :=
  let n := length a in
  map (fun r => nsum (fun i => a !!! i * rotate n b i r) n mod q) (seq 0 n).

Section Convolution.
Context (q : Z) (Hq : 0 < q).

Lemma bsum_nsum c n L x :
  bsum (fun r => nsum (fun i => c i r) n) L x = nsum (fun i => bsum (c i) L x) n.
Proof.
  induction n as [|n IH]; simpl.
  - induction L as [|L IHL]; simpl; [done|]. rewrite IHL. ring.
  - rewrite <- IH. clear IH. induction L as [|L IHL]; simpl; [ring|]. rewrite IHL. ring.
Qed.

Lemma nsum_bsum c n x y : nsum (fun i => c i * x ^ Z.of_nat i * y) n = bsum c n x * y.
Proof. induction n as [|n IH]; simpl; [ring|]. rewrite IH. ring. Qed.

Lemma rotate_eval n b i x :
  length b = n -> (i <= n)%nat -> x ^ Z.of_nat n ==[q] -1 ->
  bsum (rotate n b i) n x ==[q] x ^ Z.of_nat i * peval b x.
Proof.
  intros Hb Hi Hx. unfold peval. rewrite Hb. set (B := fun j => b !!! j).
  assert (bsum B n x = bsum B (n - i) x
    + x ^ Z.of_nat (n - i) * bsum (fun r => B (n - i + r)%nat) i x) as E2.
  { rewrite <- bsum_split. f_equal. lia. }
  transitivity (bsum (fun r => -1 * B (n - i + r)%nat) i x
    + x ^ Z.of_nat i * bsum B (n - i) x).
  - replace (bsum (rotate n b i) n x) with (bsum (rotate n b i) (i + (n - i)) x) by (f_equal; lia).
    rewrite bsum_split. apply eqmod_add; [|apply eqmod_mul; [done|]];
      (apply bsum_eqmod; [done|]); intros r Hr; apply eqmod_eq; unfold rotate, B.
    + destruct (Nat.ltb_spec r i); [lia|lia].
    + destruct (Nat.ltb_spec (i + r) i); [lia|]. f_equal. lia.
  - rewrite bsum_scale, E2, Z.mul_add_distr_l, Z.mul_assoc, <- Z.pow_add_r by lia.
    replace (Z.of_nat i + Z.of_nat (n - i)) with (Z.of_nat n) by lia. rewrite Hx.
    apply eqmod_eq. ring.
Qed.

Lemma length_negacyclic a b : length (negacyclic q a b) = length a.
Proof. unfold negacyclic. by rewrite length_map, length_seq. Qed.

Lemma negacyclic_reduced a b : reduced q (negacyclic q a b).
Proof. apply Forall_map, Forall_true. intros r. by apply mod_range. Qed.

(** At the points where [x ^ n = -1] the value of the product is the product of
    the values. *)
Lemma negacyclic_eval a b x :
  length b = length a -> x ^ Z.of_nat (length a) ==[q] -1 ->
  peval (negacyclic q a b) x ==[q] peval a x * peval b x.
Proof.
  intros Hl Hx. unfold peval at 1. rewrite length_negacyclic. set (n := length a) in *.
  transitivity (bsum (fun r => nsum (fun i => a !!! i * rotate n b i r) n) n x).
  - apply bsum_eqmod; [done|]. intros r Hr.
    rewrite (list_lookup_total_correct (negacyclic q a b) r
      (nsum (fun i => a !!! i * rotate n b i r) n mod q)); [apply eqmod_mod|].
    unfold negacyclic. fold n. by rewrite list_lookup_fmap, lookup_seq_lt.
  - rewrite (bsum_nsum (fun i r => a !!! i * rotate n b i r)).
    transitivity (nsum (fun i => a !!! i * x ^ Z.of_nat i * peval b x) n).
    + apply nsum_eqmod. intros i Hi. rewrite bsum_scale, rotate_eval by (done || lia).
      apply eqmod_eq. ring.
    + by rewrite nsum_bsum.
Qed.

(** The leaves are roots of [x ^ n + 1]. *)
Lemma node_pow T k s j :
  table_ok q T k -> (s <= k)%nat -> (2 ^ s <= j < 2 * 2 ^ s)%nat ->
  node T j ^ Z.of_nat (2 ^ s) ==[q] -1.
Proof.
  intros HT. revert j. induction s as [|s IH]; intros j Hs Hj.
  - simpl in Hj. replace j with 1%nat by lia. done.
  - rewrite Nat.pow_succ_r' in *. pose proof (Nat.div2_odd j) as D.
    set (i := Nat.div2 j) in *. set (b := Nat.odd j) in *.
    assert (2 ^ s <= i < 2 * 2 ^ s)%nat as Hi by (destruct b; simpl Nat.b2n in D; lia).
    assert (2 * 2 ^ s <= 2 ^ k)%nat
      by (rewrite <- Nat.pow_succ_r'; apply Nat.pow_le_mono_r; lia).
    rewrite <- (IH i) by lia. pose proof (Nat.pow_nonzero 2 s).
    assert (node T j = if b then - T i else T i) as ->.
    { destruct b; simpl Nat.b2n in D; rewrite D.
      - apply node_odd. lia.
      - rewrite Nat.add_0_r. apply node_even. lia. }
    rewrite Nat2Z.inj_mul, Z.pow_mul_r by lia. apply eqmod_pow.
    rewrite <- (HT i) by lia. apply eqmod_eq. change (Z.of_nat 2) with 2.
    rewrite Z.pow_2_r. destruct b; ring.
Qed.

(** The pointwise product of two transforms is the transform of the product. *)
Lemma pforward_convolution T k a b :
  table_ok q T k -> reduced q a -> reduced q b ->
  length a = (2 ^ k)%nat -> length b = (2 ^ k)%nat ->
  zip_with (fun x y => (x * y) mod q)
    (pforward (ff q) (fg q) T k k a) (pforward (ff q) (fg q) T k k b)
  = pforward (ff q) (fg q) T k k (negacyclic q a b).
Proof.
  intros HT Ha Hb Hla Hlb.
  pose proof (fun e He => proj2 (pforward_inv q (ff q) (fg q) (ff_range q Hq) (fg_range q Hq) T k k e He))
    as Hlen.
  pose proof (negacyclic_reduced a b) as Hn.
  apply list_eq_total.
  { rewrite length_zip_with, !Hlen, length_negacyclic by done. lia. }
  rewrite length_zip_with, !Hlen, Hla, Hlb by done. intros i Hi.
  apply list_lookup_total_correct. rewrite lookup_zip_with.
  rewrite !list_lookup_lookup_total_lt by (rewrite Hlen by done; lia). simpl. f_equal.
  rewrite !(pforward_values q Hq T k) by (rewrite ?length_negacyclic; done || lia).
  apply eqmod_elim. rewrite !eqmod_mod. symmetry. apply negacyclic_eval; [lia|].
  rewrite Hla. apply (node_pow T k k); [done | lia | lia].
Qed.
End Convolution.

(** ** The transforms with explicit tables *)

Section Transforms.
Context `{W : NativeWidth}.

(** A table of [n] residues and the table of its precomputed quotients. *)
Record tables_match (q : Z) (n : nat) (table precon : NativeVectorT) : Prop := {
  tm_length : length (m_data table) = n;
  tm_length_precon : length (m_data precon) = n;
  tm_reduced : reduced q (m_data table);
  tm_precon : forall i, (i < n)%nat ->
    PrepModMulConst (m_data table !!! i) q = Ok (m_data precon !!! i)
}.

Definition entry (table : NativeVectorT) (i : nat) : Z := m_data table !!! i.

Section Specs.
Context (q : Z) (Hq : 0 < q) (Hq2 : 2 * q <= 2 ^ (wbits - 1)).
Context (n : nat) (table precon : NativeVectorT) (Htab : tables_match q n table precon).

Lemma twiddle2_read j : (j < n)%nat ->
  twiddle2 table precon j = Ok (entry table j, entry precon j) /\
  forall x, 0 <= x < q ->
    ModMulFastConstEq x (entry table j) q (entry precon j) = Ok ((x * entry table j) mod q).
Proof.
  intros Hj. destruct Htab as [Hl Hlp Hr Hp]. pose proof word_half. split.
  - unfold twiddle2. by rewrite !vget_total by lia.
  - intros x Hx. unfold entry. pose proof (reduced_at q _ j Hr ltac:(lia)).
    apply (ModMulFastConst_prec x (m_data table !!! j) q); [lia | lia | lia | by apply Hp].
Qed.

Lemma precon_butterflies j : (j < n)%nat ->
  butterfly_spec q (ff q) (fg q) (twiddle2 table precon)
    (fun om => fwd_butterfly (fun x => ModMulFastConstEq x (fst om) q (snd om)) q) (entry table) j /\
  butterfly_spec q (ff q) (fg q) (twiddle2 table precon)
    (fun om => fwd_butterfly_nz (fun x => ModMulFastConstEq x (fst om) q (snd om)) q) (entry table) j /\
  butterfly_spec q (gf q) (gg q) (twiddle2 table precon)
    (fun om => inv_butterfly (fun x => ModMulFastConstEq x (fst om) q (snd om)) q) (entry table) j.
Proof.
  intros Hj. destruct (twiddle2_read j Hj) as [E Hm].
  split; [|split]; (eexists; split; [exact E|]); intros;
    [apply fwd_butterfly_ok | apply fwd_butterfly_nz_ok | apply inv_butterfly_ok]; done.
Qed.

Lemma mu_butterflies j : barrett_modulus q -> Z.prime q -> (j < n)%nat ->
  butterfly_spec q (ff q) (fg q) (twiddle1 table)
    (fun om => fwd_butterfly (fun x => ModMulFastEq_mu x om q (barrett_mu q)) q) (entry table) j /\
  butterfly_spec q (ff q) (fg q) (twiddle1 table)
    (fun om => fwd_butterfly_nz (fun x => ModMulFastEq_mu x om q (barrett_mu q)) q) (entry table) j /\
  butterfly_spec q (gf q) (gg q) (twiddle1 table)
    (fun om => inv_butterfly (fun x => ModMulFastEq_mu x om q (barrett_mu q)) q) (entry table) j.
Proof.
  intros Hb Hp Hj. destruct Htab as [Hl _ Hr _].
  assert (twiddle1 table j = Ok (entry table j)) as E by (by apply vget_total; lia).
  pose proof (reduced_at q _ j Hr ltac:(lia)) as Hw.
  assert (forall x, 0 <= x < q ->
    ModMulFastEq_mu x (entry table j) q (barrett_mu q) = Ok ((x * entry table j) mod q)) as Hm
    by (intros; by apply (ModMulFast_mu_exact x (entry table j) q)).
  split; [|split]; (eexists; split; [exact E|]); intros;
    [apply fwd_butterfly_ok | apply fwd_butterfly_nz_ok | apply inv_butterfly_ok]; done.
Qed.
End Specs.

(** The copy of the entries into a result of the same length. *)
Lemma copy_to_result_ok element result :
  vec_wf element -> length (m_data result) = length (m_data element) ->
  copy_to_result element result = Ok element.
Proof.
  intros Hv Hl. unfold copy_to_result. rewrite SetModulus_ok, bind_Ok by apply Hv. cbn [m_data m_modulus].
  unfold GetLength. rewrite copy_loop by done. by destruct element.
Qed.

(** The vector a forward transform returns. *)
Definition forward_result (table : NativeVectorT) (k : nat) (element : NativeVectorT) : NativeVectorT :=
  let q := m_modulus element in
  mkVector (pforward (ff q) (fg q) (entry table) k k (m_data element)) q.

(** What the transforms assume: a well-formed vector of [2 ^ k] entries and
    matching tables. *)
Record transform_input (k : nat) (table precon element : NativeVectorT) : Prop := {
  ti_wf : vec_wf element;
  ti_size : (k <= 31)%nat;
  ti_length : length (m_data element) = (2 ^ k)%nat;
  ti_tables : tables_match (m_modulus element) (2 ^ k) table precon
}.

Section Results.
Context (k : nat) (table precon element : NativeVectorT).
Context (Hin : transform_input k table precon element).

Lemma ForwardInPlace_ok :
  ForwardTransformToBitReverseInPlace table precon element = Ok (forward_result table k element).
Proof.
  destruct Hin as [Hv Hk Hl Ht]. pose proof (wf_word element Hv) as (Hq & Hq2 & _).
  unfold ForwardTransformToBitReverseInPlace.
  rewrite (forward_stages_ok (m_modulus element) (ff _) (fg _) (ff_range _ Hq) (fg_range _ Hq)
    _ _ (entry table) k); [done | | lia | done | apply Hv].
  intros j Hj. eapply precon_butterflies; [done | done | done | lia].
Qed.

Lemma Forward_ok result :
  length (m_data result) = (2 ^ k)%nat ->
  ForwardTransformToBitReverse element table precon result = Ok (forward_result table k element).
Proof.
  intros Hr. destruct Hin as [Hv Hk Hl Ht]. pose proof (wf_word element Hv) as (Hq & Hq2 & _).
  unfold ForwardTransformToBitReverse, GetLength. rewrite Hr, Hl, Nat.eqb_refl. cbn [negb].
  rewrite copy_to_result_ok, bind_Ok by (done || lia).
  rewrite (forward_stages_ok (m_modulus element) (ff _) (fg _) (ff_range _ Hq) (fg_range _ Hq)
    _ _ (entry table) k); [done | | lia | done | apply Hv].
  intros j Hj. eapply precon_butterflies; [done | done | done | lia].
Qed.

Lemma ForwardInPlace_mu_ok :
  Z.prime (m_modulus element) -> 4 <= m_modulus element ->
  ForwardTransformToBitReverseInPlace_mu table element = Ok (forward_result table k element).
Proof.
  intros Hp H4. destruct Hin as [Hv Hk Hl Ht]. pose proof (wf_word element Hv) as (Hq & Hq2 & _).
  pose proof (prime_barrett _ Hp H4 (wf_size _ Hv)) as Hb.
  unfold ForwardTransformToBitReverseInPlace_mu. rewrite ComputeMu_ok, bind_Ok by done.
  rewrite (forward_stages_ok (m_modulus element) (ff _) (fg _) (ff_range _ Hq) (fg_range _ Hq)
    _ _ (entry table) k); [done | | lia | done | apply Hv].
  intros j Hj. eapply mu_butterflies; [done | done | done | done | done | lia].
Qed.

Lemma Forward_mu_ok result :
  Z.prime (m_modulus element) -> 4 <= m_modulus element ->
  length (m_data result) = (2 ^ k)%nat ->
  ForwardTransformToBitReverse_mu element table result = Ok (forward_result table k element).
Proof.
  intros Hp H4 Hr. destruct Hin as [Hv Hk Hl Ht]. pose proof (wf_word element Hv) as (Hq & Hq2 & _).
  pose proof (prime_barrett _ Hp H4 (wf_size _ Hv)) as Hb.
  unfold ForwardTransformToBitReverse_mu, GetLength. rewrite Hr, Hl, Nat.eqb_refl. cbn [negb].
  rewrite ComputeMu_ok, bind_Ok, copy_to_result_ok, bind_Ok by (done || lia).
  rewrite (forward_stages_ok (m_modulus element) (ff _) (fg _) (ff_range _ Hq) (fg_range _ Hq)
    _ _ (entry table) k); [done | | lia | done | apply Hv].
  intros j Hj. eapply mu_butterflies; [done | done | done | done | done | lia].
Qed.

(** The vector an inverse transform returns. *)
Definition inverse_result (cinv : Z) : NativeVectorT :=
  let q := m_modulus element in
  mkVector (map (fun x => (x * cinv) mod q)
    (pinverse (gf q) (gg q) (entry table) k k (m_data element))) q.

Lemma InverseInPlace_ok cinv pcinv :
  0 <= cinv < m_modulus element -> PrepModMulConst cinv (m_modulus element) = Ok pcinv ->
  InverseTransformFromBitReverseInPlace table precon cinv pcinv element = Ok (inverse_result cinv).
Proof.
  intros Hc Hp. destruct Hin as [Hv Hk Hl Ht]. pose proof (wf_word element Hv) as (Hq & Hq2 & Hw).
  unfold InverseTransformFromBitReverseInPlace.
  rewrite (inverse_stages_ok (m_modulus element) (gf _) (gg _) (gf_range _ Hq) (gg_range _ Hq)
    _ _ (entry table) k); [| | lia | done | apply Hv].
  - rewrite bind_Ok, (vmapM_Ok _ (fun x => (x * cinv) mod m_modulus element)); [done|].
    eapply Forall_impl; [apply (pinverse_inv _ (gf _) (gg _) (gf_range _ Hq) (gg_range _ Hq)), Hv|].
    cbv beta. intros x Hx. apply (ModMulFastConst_prec x cinv); [lia | done | done | done].
  - intros j Hj. eapply precon_butterflies; [done | done | done | lia].
Qed.

Lemma InverseInPlace_mu_ok cinv :
  Z.prime (m_modulus element) -> 4 <= m_modulus element -> 0 <= cinv < m_modulus element ->
  InverseTransformFromBitReverseInPlace_mu table cinv element = Ok (inverse_result cinv).
Proof.
  intros Hp H4 Hc. destruct Hin as [Hv Hk Hl Ht]. pose proof (wf_word element Hv) as (Hq & Hq2 & Hw).
  pose proof (prime_barrett _ Hp H4 (wf_size _ Hv)) as Hb.
  unfold InverseTransformFromBitReverseInPlace_mu. rewrite ComputeMu_ok, bind_Ok by done.
  rewrite (inverse_stages_ok (m_modulus element) (gf _) (gg _) (gf_range _ Hq) (gg_range _ Hq)
    _ _ (entry table) k); [| | lia | done | apply Hv].
  - rewrite bind_Ok, (vmapM_Ok _ (fun x => (x * cinv) mod m_modulus element)); [done|].
    eapply Forall_impl; [apply (pinverse_inv _ (gf _) (gg _) (gf_range _ Hq) (gg_range _ Hq)), Hv|].
    cbv beta. intros x Hx. by apply (ModMulFast_mu_exact x cinv).
  - intros j Hj. eapply mu_butterflies; [done | done | done | done | done | lia].
Qed.

Lemma forward_result_wf : vec_wf (forward_result table k element).
Proof.
  destruct Hin as [Hv Hk Hl Ht]. pose proof (wf_word element Hv) as (Hq & _).
  split; [apply Hv.. |]. apply (pforward_inv _ (ff _) (fg _) (ff_range _ Hq) (fg_range _ Hq)), Hv.
Qed.

Lemma length_forward_result : length (m_data (forward_result table k element)) = (2 ^ k)%nat.
Proof.
  destruct Hin as [Hv Hk Hl Ht]. pose proof (wf_word element Hv) as (Hq & _).
  rewrite <- Hl. apply (pforward_inv _ (ff _) (fg _) (ff_range _ Hq) (fg_range _ Hq)), Hv.
Qed.
End Results.

(** The forward transform with a table of consistent square roots returns a well-
    formed vector whose entry i is the value of the polynomial at the node of leaf
    i, reduced modulo the modulus. *)
Theorem ForwardTransform_evaluates k table precon element :
  transform_input k table precon element -> table_ok (m_modulus element) (entry table) k ->
  returns (ForwardTransformToBitReverseInPlace table precon element) (fun r =>
    vec_wf r /\ m_modulus r = m_modulus element /\ length (m_data r) = (2 ^ k)%nat /\
    forall i, (i < 2 ^ k)%nat ->
      m_data r !!! i = peval (m_data element) (node (entry table) (2 ^ k + i)) mod m_modulus element).
Proof.
  intros Hin HT. rewrite (ForwardInPlace_ok k) by done. simpl.
  split; [by eapply forward_result_wf|]. split; [done|].
  split; [by eapply length_forward_result|]. intros i Hi.
  destruct Hin as [Hv Hk Hl Ht]. pose proof (wf_word element Hv) as (Hq & _).
  apply pforward_values; try done. apply Hv.
Qed.

(** The four forward transforms (in place or into a result vector, with
    precomputed quotients or with the Barrett parameter) return the same vector, and
    the out-of-place one throws math_error when the result vector has another
    length. *)
Theorem ForwardTransforms_agree k table precon element result :
  transform_input k table precon element -> length (m_data result) = (2 ^ k)%nat ->
  ForwardTransformToBitReverse element table precon result
  = ForwardTransformToBitReverseInPlace table precon element /\
  (Z.prime (m_modulus element) -> 4 <= m_modulus element ->
   ForwardTransformToBitReverseInPlace_mu table element
   = ForwardTransformToBitReverseInPlace table precon element /\
   ForwardTransformToBitReverse_mu element table result
   = ForwardTransformToBitReverseInPlace table precon element) /\
  (forall r, length (m_data r) <> (2 ^ k)%nat ->
   ForwardTransformToBitReverse element table precon r = Throw math_error).
Proof.
  intros Hin Hr. rewrite (ForwardInPlace_ok k) by done. split; [by apply Forward_ok|]. split.
  - intros Hp H4. split; [by eapply ForwardInPlace_mu_ok | by eapply Forward_mu_ok].
  - intros r Hne. unfold ForwardTransformToBitReverse, GetLength. rewrite (ti_length _ _ _ _ Hin).
    by destruct (Nat.eqb_spec (length (m_data r)) (2 ^ k)).
Qed.

(** Tables for both directions and the inverse of the length. *)
Record transform_tables (q : Z) (k : nat) (table precon tableI preconI : NativeVectorT)
    (cinv pcinv : Z) : Prop := {
  tt_table : tables_match q (2 ^ k) table precon;
  tt_inverse : tables_match q (2 ^ k) tableI preconI;
  tt_ok : table_ok q (entry table) k;
  tt_inv : inverse_table q (entry table) (entry tableI) k;
  tt_cinv : 0 <= cinv < q;
  tt_cinv_ok : 2 ^ Z.of_nat k * cinv ==[q] 1;
  tt_pcinv : PrepModMulConst cinv q = Ok pcinv
}.

Section Pairs.
Context (q : Z) (k : nat) (table precon tableI preconI : NativeVectorT) (cinv pcinv : Z).
Context (Htt : transform_tables q k table precon tableI preconI cinv pcinv) (Hk : (k <= 31)%nat).

(** A vector the tables are for. *)
Definition fits (v : NativeVectorT) : Prop :=
  vec_wf v /\ m_modulus v = q /\ length (m_data v) = (2 ^ k)%nat.

Lemma fits_input v : fits v -> transform_input k table precon v.
Proof. intros (Hv & Hm & Hl). split; try done. rewrite Hm. apply Htt. Qed.

Lemma forward_result_fits v : fits v -> fits (forward_result table k v).
Proof.
  intros Hv. pose proof (fits_input v Hv) as Hin. split; [by eapply forward_result_wf|].
  split; [apply Hv | by eapply length_forward_result].
Qed.

Lemma inverse_input v : fits v -> transform_input k tableI preconI v.
Proof. intros (Hv & Hm & Hl). split; try done. rewrite Hm. apply Htt. Qed.

Lemma inverse_forward v :
  fits v -> inverse_result k tableI (forward_result table k v) cinv = v.
Proof.
  intros (Hv & Hm & Hl). unfold inverse_result, forward_result. cbn [m_data m_modulus].
  pose proof (wf_word v Hv) as (Hq & _). rewrite Hm in *.
  rewrite (pinverse_recovers q Hq (entry table) (entry tableI) k); [by destruct v; simpl in *; subst | | | |];
    try apply Htt; [|done]. rewrite <- Hm. apply Hv.
Qed.

Lemma Inverse_ok v :
  fits v ->
  InverseTransformFromBitReverseInPlace tableI preconI cinv pcinv v = Ok (inverse_result k tableI v cinv).
Proof.
  intros Hv. pose proof Hv as (_ & Hm & _). eapply InverseInPlace_ok; [by apply inverse_input | |];
    rewrite Hm; apply Htt.
Qed.

Lemma round_trip v :
  fits v ->
  (r ← ForwardTransformToBitReverseInPlace table precon v;
   InverseTransformFromBitReverseInPlace tableI preconI cinv pcinv r) = Ok v.
Proof.
  intros Hv. rewrite (ForwardInPlace_ok k) by (by apply fits_input). rewrite bind_Ok.
  rewrite Inverse_ok by (by apply forward_result_fits). by rewrite inverse_forward.
Qed.

Lemma convolution a b :
  fits a -> fits b -> Z.prime q -> 4 <= q ->
  (fa ← ForwardTransformToBitReverseInPlace table precon a;
   fb ← ForwardTransformToBitReverseInPlace table precon b;
   fc ← ModMul_vector fa fb;
   InverseTransformFromBitReverseInPlace tableI preconI cinv pcinv fc)
  = Ok (mkVector (negacyclic q (m_data a) (m_data b)) q).
Proof.
  intros Ha Hb Hp H4.
  rewrite !(ForwardInPlace_ok k) by (by apply fits_input). rewrite !bind_Ok.
  pose proof (forward_result_fits a Ha) as (Wa & Ma & La).
  pose proof (forward_result_fits b Hb) as (Wb & Mb & Lb).
  rewrite ModMul_vector_ok, bind_Ok; [| done | done | split; congruence | congruence | lia].
  pose proof Ha as (Va & Mqa & Lqa). pose proof Hb as (Vb & Mqb & Lqb).
  assert (0 < q) as Hq by lia. set (c := mkVector (negacyclic q (m_data a) (m_data b)) q).
  assert (fits c) as Hc.
  { split; [split|split]; simpl; [lia | rewrite <- Mqa; apply Va | by apply negacyclic_reduced | done |].
    by rewrite length_negacyclic. }
  transitivity (InverseTransformFromBitReverseInPlace tableI preconI cinv pcinv
    (forward_result table k c)).
  - f_equal. rewrite Ma. unfold forward_result, c. cbn [m_data m_modulus].
    rewrite Mqa, Mqb. f_equal. apply pforward_convolution; try done; try apply Htt.
    + rewrite <- Mqa. apply Va.
    + rewrite <- Mqb. apply Vb.
  - rewrite Inverse_ok by (by apply forward_result_fits). by rewrite inverse_forward.
Qed.
End Pairs.

(** With tables of a root and of its inverse, the inverse transform of the forward
    transform of a vector is the vector. *)
Theorem InverseTransform_ForwardTransform q k table precon tableI preconI cinv pcinv v :
  transform_tables q k table precon tableI preconI cinv pcinv -> (k <= 31)%nat -> fits q k v ->
  (r ← ForwardTransformToBitReverseInPlace table precon v;
   InverseTransformFromBitReverseInPlace tableI preconI cinv pcinv r) = Ok v.
Proof. intros Htt Hk Hv. by eapply round_trip. Qed.

(** [C9] For a prime modulus, transforming two vectors, multiplying them entrywise and
    transforming back returns exactly their product as polynomials modulo X^n + 1. *)
Theorem NTT_negacyclic_convolution q k table precon tableI preconI cinv pcinv a b :
  transform_tables q k table precon tableI preconI cinv pcinv -> (k <= 31)%nat ->
  fits q k a -> fits q k b -> Z.prime q -> 4 <= q ->
  (fa ← ForwardTransformToBitReverseInPlace table precon a;
   fb ← ForwardTransformToBitReverseInPlace table precon b;
   fc ← ModMul_vector fa fb;
   InverseTransformFromBitReverseInPlace tableI preconI cinv pcinv fc)
  = Ok (mkVector (negacyclic q (m_data a) (m_data b)) q).
Proof. intros Htt Hk Ha Hb Hp H4. by eapply convolution. Qed.
End Transforms.
