(* ===== verification/FttProps.v ===== *)
(** * Cached transforms: theorems

    The tables [PreCompute] fills satisfy what NttProps.v asks of tables: in
    bit-reversed order they hold the powers of the root of unity and of its
    inverse. The negacyclic transforms then evaluate at the odd powers of the
    root, invert each other and multiply polynomials, from any cache that holds
    no tables for the modulus; with tables in the cache, the root a caller
    passes is not looked at. *)
From stdpp Require Import base numbers list gmap.
From Stdlib Require Import ZArith Lia.
From S2P Require Import Prelude Bits NativeInt NativeIntProps NativeVector Ntt NttProps.
Open Scope Z_scope.

(** ** Arithmetic of bit reversal *)

Section Reversal.
Context (k : nat) (Hk : (1 <= k <= 24)%nat).
Local Abbreviation K := (Z.of_nat k).

Lemma supported : ReverseBits_supported K.
Proof. left. lia. Qed.

Lemma rev_range x : 0 <= ReverseBits x K < 2 ^ K.
Proof. apply ReverseBits_bits, supported. Qed.

Lemma rev_bit x i : 0 <= i < K -> Z.testbit (ReverseBits x K) i = Z.testbit x (K - 1 - i).
Proof. apply ReverseBits_bits, supported. Qed.

(** Numbers below [2 ^ k] are determined by their low [k] bits. *)
Lemma low_bits_eq x y :
  0 <= x < 2 ^ K -> 0 <= y < 2 ^ K ->
  (forall i, 0 <= i < K -> Z.testbit x i = Z.testbit y i) -> x = y.
Proof.
  intros Hx Hy H. apply Z.bits_inj_iff'. intros i Hi.
  destruct (Z.lt_ge_cases i K); [by apply H|].
  rewrite <- (Z.mod_small x (2 ^ K)), <- (Z.mod_small y (2 ^ K)) by done.
  by rewrite !Z.mod_pow2_bits_high by lia.
Qed.

Lemma rev_involutive x : 0 <= x < 2 ^ K -> ReverseBits (ReverseBits x K) K = x.
Proof.
  intros Hx. apply low_bits_eq; [apply rev_range | done |]. intros i Hi.
  rewrite !rev_bit by lia. f_equal. lia.
Qed.

Lemma pow2_K : 2 ^ K = 2 * 2 ^ (K - 1).
Proof. rewrite <- Z.pow_succ_r by lia. f_equal. lia. Qed.

Lemma high_bit x i : 0 <= x < 2 ^ i -> 0 <= i -> Z.testbit x i = false.
Proof. intros Hx Hi. rewrite <- (Z.mod_small x (2 ^ i)) by done. by apply Z.mod_pow2_bits_high; lia. Qed.

(** Doubling an index halves its reversal. *)
Lemma rev_double x : 0 <= x < 2 ^ (K - 1) -> 2 * ReverseBits (2 * x) K = ReverseBits x K.
Proof.
  intros Hx. pose proof pow2_K. pose proof (rev_range (2 * x)) as R.
  assert (ReverseBits (2 * x) K < 2 ^ (K - 1)) as Hlt.
  { apply bits_bound; [lia | lia |]. intros i Hi.
    destruct (Z.lt_ge_cases i K).
    - rewrite rev_bit by lia. replace (K - 1 - i) with 0 by lia. apply Z.testbit_even_0.
    - rewrite <- (Z.mod_small _ _ R). by apply Z.mod_pow2_bits_high; lia. }
  apply low_bits_eq; [lia | apply rev_range |]. intros i Hi. rewrite rev_bit by done.
  destruct (Z.eq_dec i 0) as [->|].
  - rewrite Z.testbit_even_0, high_bit; [done | by rewrite Z.sub_0_r | lia].
  - rewrite Z.double_bits, rev_bit, Z.double_bits by lia. f_equal. lia.
Qed.

Lemma rev_double_lt x : 0 <= x < 2 ^ (K - 1) -> 0 <= ReverseBits (2 * x) K < 2 ^ (K - 1).
Proof.
  intros Hx. pose proof (rev_double x Hx). pose proof (rev_range x).
  pose proof (rev_range (2 * x)). pose proof pow2_K. lia.
Qed.

Lemma rev_double_succ x :
  0 <= x < 2 ^ (K - 1) -> ReverseBits (2 * x + 1) K = 2 ^ (K - 1) + ReverseBits (2 * x) K.
Proof.
  intros Hx. pose proof (rev_double_lt x Hx) as R. pose proof pow2_K.
  assert (2 ^ (K - 1) + ReverseBits (2 * x) K
    = Z.lor (1 * 2 ^ (K - 1)) (ReverseBits (2 * x) K)) as E by (rewrite lor_disjoint by lia; lia).
  apply low_bits_eq; [apply rev_range | lia |]. intros i Hi.
  rewrite E, Z.lor_spec, Z.mul_1_l, !rev_bit, Z.pow2_bits_eqb by lia.
  destruct (Z.eqb_spec (K - 1) i) as [<-|].
  - by rewrite Z.sub_diag, Z.testbit_odd_0.
  - replace (K - 1 - i) with (Z.succ (K - 2 - i)) by lia.
    by rewrite Z.testbit_odd_succ, Z.testbit_even_succ by lia.
Qed.

(** The upper half of the indices has odd reversals. *)
Lemma rev_upper x :
  0 <= x < 2 ^ (K - 1) ->
  ReverseBits (2 ^ (K - 1) + x) K = 2 * ReverseBits (2 * x) K + 1.
Proof.
  intros Hx. pose proof (rev_double_lt x Hx) as R. pose proof pow2_K.
  apply low_bits_eq; [apply rev_range | lia |]. intros i Hi. rewrite rev_bit by lia.
  replace (2 ^ (K - 1) + x) with (Z.lor (1 * 2 ^ (K - 1)) x) by (rewrite lor_disjoint by lia; lia).
  rewrite Z.lor_spec, Z.mul_1_l, Z.pow2_bits_eqb by lia.
  destruct (Z.eq_dec i 0) as [->|].
  - by rewrite Z.sub_0_r, Z.eqb_refl, Z.testbit_odd_0.
  - destruct (Z.eqb_spec (K - 1) (K - 1 - i)); [lia|]. simpl.
    replace i with (Z.succ (i - 1)) at 2 by lia.
    rewrite Z.testbit_odd_succ, rev_bit by lia.
    replace (K - 1 - (i - 1)) with (Z.succ (K - 1 - i)) by lia.
    by rewrite Z.testbit_even_succ by lia.
Qed.

(** On indices. *)
Definition rv (i : nat) : nat := Z.to_nat (ReverseBits (Z.of_nat i) K).

Lemma rv_Z i : Z.of_nat (rv i) = ReverseBits (Z.of_nat i) K.
Proof. unfold rv. pose proof (rev_range (Z.of_nat i)). lia. Qed.

Lemma pow2_nat_Z j : Z.of_nat (2 ^ j) = 2 ^ Z.of_nat j.
Proof. apply Nat2Z.inj_pow. Qed.

Lemma rv_lt i : (rv i < 2 ^ k)%nat.
Proof. apply Nat2Z.inj_lt. rewrite rv_Z, pow2_nat_Z. apply rev_range. Qed.

Lemma rv_involutive i : (i < 2 ^ k)%nat -> rv (rv i) = i.
Proof.
  intros Hi. apply Nat2Z.inj. rewrite !rv_Z, rev_involutive; [done|].
  rewrite <- pow2_nat_Z. lia.
Qed.
End Reversal.

(** ** Tables of powers *)

(** The powers of [psi] in bit-reversed order, as far as [i] of them are set. *)
Definition power_table_upto (q psi : Z) (k i : nat) : list Z :=
  map (fun j => if (rv k j <? i)%nat then psi ^ Z.of_nat (rv k j) mod q else 0) (seq 0 (2 ^ k)).
Definition power_table (q psi : Z) (k : nat) : list Z :=
  map (fun j => psi ^ Z.of_nat (rv k j) mod q) (seq 0 (2 ^ k)).

Section Powers.
Context (q : Z) (Hq : 1 < q) (k : nat) (Hk : (1 <= k <= 24)%nat).

Lemma map_seq_at (h : nat -> Z) n i : (i < n)%nat -> map h (seq 0 n) !!! i = h i.
Proof.
  intros Hi. apply list_lookup_total_correct. rewrite list_lookup_fmap.
  by rewrite lookup_seq_lt.
Qed.

Lemma power_table_at psi i : (i < 2 ^ k)%nat -> power_table q psi k !!! i = psi ^ Z.of_nat (rv k i) mod q.
Proof. apply map_seq_at. Qed.

Lemma length_power_table psi : length (power_table q psi k) = (2 ^ k)%nat.
Proof. unfold power_table. by rewrite length_map, length_seq. Qed.

Lemma power_table_reduced psi : reduced q (power_table q psi k).
Proof. apply Forall_map, Forall_true. intros j. apply mod_range. lia. Qed.

Lemma power_table_start psi : power_table_upto q psi k 0 = repeat 0 (2 ^ k).
Proof.
  apply list_eq_total; unfold power_table_upto; rewrite length_map, length_seq.
  { by rewrite repeat_length. }
  intros i Hi. rewrite map_seq_at by done. simpl.
  symmetry. by apply list_lookup_total_correct, lookup_repeat.
Qed.

Lemma power_table_full psi : power_table_upto q psi k (2 ^ k) = power_table q psi k.
Proof.
  apply map_ext. intros j. pose proof (rv_lt k Hk j).
  by rewrite (proj2 (Nat.ltb_lt _ _)) by lia.
Qed.

Lemma power_table_step psi i :
  (i < 2 ^ k)%nat ->
  vset (power_table_upto q psi k i) (rv k i) (psi ^ Z.of_nat i mod q)
  = Ok (power_table_upto q psi k (S i)).
Proof.
  intros Hi. pose proof (rv_lt k Hk i) as Hr.
  assert (forall j, length (power_table_upto q psi k j) = 2 ^ k)%nat as Hl
    by (intros; unfold power_table_upto; by rewrite length_map, length_seq).
  rewrite vset_lt by (rewrite Hl; lia). f_equal.
  apply list_eq_total; rewrite length_insert, !Hl; [done|]. intros j Hj.
  destruct (decide (j = rv k i)) as [->|Hne].
  - rewrite list_lookup_total_insert_eq by (rewrite Hl; lia). unfold power_table_upto.
    rewrite map_seq_at, rv_involutive by done. by rewrite (proj2 (Nat.ltb_lt _ _)) by lia.
  - rewrite list_lookup_total_insert_ne by done. unfold power_table_upto. rewrite !map_seq_at by done.
    assert (rv k j <> i) by (intros <-; apply Hne; by rewrite rv_involutive).
    destruct (Nat.ltb_spec (rv k j) i), (Nat.ltb_spec (rv k j) (S i)); lia || done.
Qed.

(** The table is what the stages need when [psi] is a primitive root. *)
Lemma power_table_ok psi :
  psi ^ 2 ^ Z.of_nat k ==[q] -1 -> table_ok q (fun i => power_table q psi k !!! i) k.
Proof.
  intros Hpsi j Hj. set (T := fun i => power_table q psi k !!! i).
  change (T j * T j ==[q] node T j).
  pose proof (pow2_K k Hk) as H2. pose proof (pow2_nat_Z k) as HnZ.
  assert (forall i, (i < 2 ^ k)%nat -> T i ==[q] psi ^ ReverseBits (Z.of_nat i) (Z.of_nat k)) as HT.
  { intros i Hi. unfold T. rewrite power_table_at, eqmod_mod by done. by rewrite rv_Z. }
  rewrite HT by lia. rewrite <- Z.pow_add_r by apply rev_range, Hk.
  pose proof (Nat.div2_odd j) as D. set (i := Nat.div2 j) in *.
  assert (0 <= Z.of_nat i < 2 ^ (Z.of_nat k - 1)) as Hi by lia.
  pose proof (rev_double k Hk _ Hi) as R2. pose proof (rev_double_succ k Hk _ Hi) as R3.
  pose proof (rev_range k Hk (Z.of_nat i)) as Ri.
  destruct (Nat.odd j); simpl Nat.b2n in D.
  - replace (Z.of_nat j) with (2 * Z.of_nat i + 1) by lia. rewrite R3.
    replace (2 ^ (Z.of_nat k - 1) + _ + _) with (2 ^ Z.of_nat k + ReverseBits (Z.of_nat i) (Z.of_nat k)) by lia.
    rewrite Z.pow_add_r, Hpsi by lia. destruct (decide (i = 0%nat)) as [E|].
    + rewrite D, E. unfold node. simpl. rewrite E in *. change (Z.of_nat 0) with 0 in *. change (2 * 0) with 0 in *.
      replace (ReverseBits 0 (Z.of_nat k)) with 0 by lia. done.
    + rewrite D, node_odd by lia. fold (T i). rewrite HT by lia. apply eqmod_eq. ring.
  - replace (Z.of_nat j) with (2 * Z.of_nat i) by lia.
    replace (_ + _) with (ReverseBits (Z.of_nat i) (Z.of_nat k)) by lia.
    rewrite D, Nat.add_0_r, node_even by lia. fold (T i). by rewrite HT by lia.
Qed.

(** The points of the transform are the odd powers of [psi]. *)
Lemma power_table_node psi i :
  psi ^ 2 ^ Z.of_nat k ==[q] -1 -> (i < 2 ^ k)%nat ->
  node (fun i => power_table q psi k !!! i) (2 ^ k + i) ==[q] psi ^ Z.of_nat (2 * rv k i + 1).
Proof.
  intros Hpsi Hi. set (T := fun i => power_table q psi k !!! i).
  pose proof (pow2_K k Hk) as H2. pose proof (pow2_nat_Z k) as HnZ.
  pose proof (Nat.div2_odd i) as D. set (j := Nat.div2 i) in *.
  assert (0 <= Z.of_nat j < 2 ^ (Z.of_nat k - 1)) as Hj by lia.
  assert (2 ^ k = 2 * 2 ^ (k - 1))%nat as Hkn
    by (rewrite <- Nat.pow_succ_r'; f_equal; lia).
  set (p := (2 ^ (k - 1) + j)%nat).
  assert (T p ==[q] psi ^ (2 * ReverseBits (2 * Z.of_nat j) (Z.of_nat k) + 1)) as HT.
  { unfold T. rewrite power_table_at, eqmod_mod, rv_Z by (done || lia).
    rewrite <- (rev_upper k Hk) by done. apply eqmod_eq. do 2 f_equal. unfold p.
    rewrite Nat2Z.inj_add, pow2_nat_Z. do 2 f_equal. lia. }
  pose proof (rev_double_lt k Hk _ Hj). pose proof (rev_double_succ k Hk _ Hj) as R3.
  rewrite Nat2Z.inj_add, Nat2Z.inj_mul, rv_Z by done. simpl (Z.of_nat 1). simpl (Z.of_nat 2).
  pose proof (Nat.pow_nonzero 2 (k - 1)).
  destruct (Nat.odd i); simpl Nat.b2n in D.
  - replace (2 ^ k + i)%nat with (2 * p + 1)%nat by lia. rewrite node_odd by lia. fold (T p).
    rewrite HT. replace (Z.of_nat i) with (2 * Z.of_nat j + 1) by lia. rewrite R3.
    replace (2 * (2 ^ (Z.of_nat k - 1) + _) + 1)
      with (2 ^ Z.of_nat k + (2 * ReverseBits (2 * Z.of_nat j) (Z.of_nat k) + 1)) by lia.
    rewrite (Z.pow_add_r psi (2 ^ Z.of_nat k)), Hpsi by lia. apply eqmod_eq. ring.
  - replace (2 ^ k + i)%nat with (2 * p)%nat by lia. rewrite node_even by lia. fold (T p).
    rewrite HT. by replace (Z.of_nat i) with (2 * Z.of_nat j) by lia.
Qed.

Lemma power_table_inverse psi psi' :
  psi * psi' ==[q] 1 ->
  inverse_table q (fun i => power_table q psi k !!! i) (fun i => power_table q psi' k !!! i) k.
Proof.
  intros H j Hj. cbv beta. rewrite !power_table_at, !eqmod_mod by lia.
  rewrite <- Z.pow_mul_l, (eqmod_pow q _ _ _ H). by rewrite Z.pow_1_l by lia.
Qed.
End Powers.

(** ** [PreCompute] *)

Section PreComputation.
Context `{W : NativeWidth}.

(** [psi] is a primitive root of unity of order [2 ^ (k + 1)] modulo the prime
    [q]. Lengths over [2 ^ 24] are outside the range of [ReverseBits]. *)
Record root_ok (q psi : Z) (k : nat) : Prop := {
  ro_prime : Z.prime q;
  ro_min : 4 <= q;
  ro_size : GetMSB q <= MAX_MODULUS_SIZE;
  ro_k : (1 <= k <= 24)%nat;
  ro_psi : 1 < psi < q;
  ro_root : psi ^ 2 ^ Z.of_nat k ==[q] -1
}.

Section Fill.
Context (q : Z) (Hp : Z.prime q) (H4 : 4 <= q) (Hb : barrett_modulus q).
Context (k : nat) (Hk : (1 <= k <= 24)%nat).

Lemma power_succ psi i :
  0 <= psi < q ->
  ModMulEq_mu (psi ^ Z.of_nat i mod q) psi q (barrett_mu q) = Ok (psi ^ Z.of_nat (S i) mod q).
Proof.
  intros Hpsi. rewrite ModMulEq_mu_exact by (done || apply mod_range; lia).
  rewrite Zmult_mod_idemp_l, Nat2Z.inj_succ, Z.pow_succ_r by lia. do 2 f_equal. ring.
Qed.

Lemma fill_tables_ok psi psi' :
  0 <= psi < q -> 0 <= psi' < q ->
  fill_tables (2 ^ k) (Z.of_nat k) psi psi' q (barrett_mu q)
  = Ok (power_table q psi k, power_table q psi' k).
Proof.
  intros Hpsi Hpsi'. unfold fill_tables.
  set (body := fun (i : nat) '(Table, TableI, x, xinv) => _).
  assert (for_range 0 (2 ^ k) body (repeat 0 (2 ^ k), repeat 0 (2 ^ k), 1, 1)
    = Ok (power_table_upto q psi k (2 ^ k), power_table_upto q psi' k (2 ^ k),
          psi ^ Z.of_nat (2 ^ k) mod q, psi' ^ Z.of_nat (2 ^ k) mod q)) as ->.
  - assert (forall x, x ^ Z.of_nat 0 mod q = 1) as E0
      by (intros; rewrite Z.pow_0_r; apply Z.mod_small; lia).
    pose proof (for_range_exact (fun i => (power_table_upto q psi k i, power_table_upto q psi' k i,
      psi ^ Z.of_nat i mod q, psi' ^ Z.of_nat i mod q)) 0 (2 ^ k) body ltac:(lia)) as H.
    cbv beta in H. rewrite !power_table_start, !E0 in H by done. apply H.
    intros i Hi. unfold body. fold (rv k i).
    rewrite !power_table_step, !bind_Ok by lia. by rewrite !power_succ, !bind_Ok by done.
  - rewrite bind_Ok. by rewrite !power_table_full by lia.
Qed.
End Fill.

(** The cache holds the tables of [psi] for the modulus [q]. *)
Definition cache_has (q psi : Z) (k : nat) (c : FTTCache) : Prop :=
  exists table precon tableI preconI coi pcoi cinv pcinv,
    m_rootOfUnityReverseTableByModulus c !! q = Some table /\
    m_rootOfUnityPreconReverseTableByModulus c !! q = Some precon /\
    m_rootOfUnityInverseReverseTableByModulus c !! q = Some tableI /\
    m_rootOfUnityInversePreconReverseTableByModulus c !! q = Some preconI /\
    m_cycloOrderInverseTableByModulus c !! q = Some coi /\
    m_cycloOrderInversePreconTableByModulus c !! q = Some pcoi /\
    m_data table = power_table q psi k /\
    m_data coi !! k = Some cinv /\ m_data pcoi !! k = Some pcinv /\
    transform_tables q k table precon tableI preconI cinv pcinv.

Lemma NativeVectorT_new_ok n q :
  GetMSB q <= MAX_MODULUS_SIZE -> NativeVectorT_new n q = Ok (mkVector (repeat 0 n) q).
Proof.
  intros H. unfold NativeVectorT_new. rewrite Z.gtb_ltb, (proj2 (Z.ltb_ge _ _)) by lia.
  by rewrite SetModulus_ok.
Qed.

Lemma msb_of_length k :
  (1 <= k <= 31)%nat -> GetMSB64 (u32 (Z.of_nat (2 ^ k) - 1)) = Z.of_nat k.
Proof.
  intros Hk. rewrite pow2_nat_Z. assert (2 ^ Z.of_nat k <= 2 ^ 31) by (apply Z.pow_le_mono_r; lia).
  assert (2 ^ 1 <= 2 ^ Z.of_nat k) as H1 by (apply Z.pow_le_mono_r; lia).
  assert (2 ^ Z.of_nat k = 2 * 2 ^ (Z.of_nat k - 1)) as E
    by (rewrite <- Z.pow_succ_r by lia; f_equal; lia).
  rewrite u32_small by lia. unfold GetMSB64. rewrite GetMSB_log2 by lia.
  enough (Z.log2 (2 ^ Z.of_nat k - 1) = Z.of_nat k - 1) by lia.
  apply Z.log2_unique; [lia|]. replace (Z.succ (Z.of_nat k - 1)) with (Z.of_nat k) by lia. lia.
Qed.

Lemma cyclo_order_half k : Z.to_nat (Z.shiftr (2 ^ (Z.of_nat k + 1)) 1) = (2 ^ k)%nat.
Proof.
  rewrite Z.shiftr_div_pow2, Z.pow_add_r, Z.div_mul by lia.
  rewrite <- pow2_nat_Z. lia.
Qed.

Lemma precon_table q v :
  0 < q -> 2 * q <= 2 ^ (wbits - 1) -> reduced q v ->
  exists u, vmapM (fun x => PrepModMulConst x q) v = Ok u /\
            Forall2 (fun x y => PrepModMulConst x q = Ok y) v u.
Proof.
  intros Hq Hq2 Hv. pose proof word_half. apply vmapM_returns. eapply Forall_impl; [exact Hv|].
  intros x Hx. destruct (PrepModMulConst_ok x q) as (y & -> & _); [done | lia | done].
Qed.

Lemma precon_match q n v u :
  length v = n -> reduced q v -> Forall2 (fun x y => PrepModMulConst x q = Ok y) v u ->
  tables_match q n (mkVector v q) (mkVector u q).
Proof.
  intros Hl Hr H. pose proof (Forall2_length _ _ _ H). split; simpl; [done | lia | done |].
  intros i Hi. destruct (Forall2_lookup_l _ _ _ i (v !!! i) H) as (y & Ey & E).
  { apply list_lookup_lookup_total_lt. lia. }
  by rewrite (list_lookup_total_correct _ _ _ Ey).
Qed.

(** The inverses of the powers of two. *)
Lemma cyclo_inverses q k :
  Z.prime q -> 4 <= q -> q < 2 ^ (wbits - 1) -> (k <= 24)%nat ->
  exists coi, vmapM (fun i => b ← int_bit i; ModInverse (wrap b) q) (seq 0 (S k)) = Ok coi /\
    Forall2 (fun i r => 0 <= r < q /\ (2 ^ Z.of_nat i * r) mod q = 1) (seq 0 (S k)) coi.
Proof.
  intros Hp H4 Hw Hk. apply vmapM_returns. apply Forall_forall. intros i Hi.
  apply elem_of_seq in Hi. unfold int_bit. rewrite (proj2 (Nat.ltb_lt _ _)) by lia.
  rewrite bind_Ok, Z.shiftl_mul_pow2, Z.mul_1_l by lia. pose proof wbits_range.
  rewrite wrap_small.
  2: { split; [apply Z.lt_le_incl, pow2_pos; lia | apply Z.pow_lt_mono_r; lia]. }
  apply ModInverse_correct; [lia|]. rewrite Z.gcd_comm. apply Z.coprime_prime_l; [done|].
  intros Hd. apply Z.divide_prime_pp in Hd; [lia | done | apply Z.prime_2 | lia].
Qed.

Lemma eqmod_1 q x : 1 < q -> x mod q = 1 -> x ==[q] 1.
Proof. intros Hq E. constructor. by rewrite E, Z.mod_small by lia. Qed.

Lemma PreCompute_ok q psi k c :
  root_ok q psi k -> table_missing c q (2 ^ k) = true ->
  returns (PreCompute psi (2 ^ (Z.of_nat k + 1)) q c) (cache_has q psi k).
Proof.
  intros [Hp H4 Hs Hk Hpsi Hroot] Hmiss.
  pose proof (prime_barrett q Hp H4 Hs) as Hb.
  destruct (modulus_size_word q ltac:(lia) Hs) as [Hq2 Hqw].
  unfold PreCompute. rewrite cyclo_order_half, Hmiss, msb_of_length by lia.
  rewrite ComputeMu_ok, bind_Ok by done. rewrite !NativeVectorT_new_ok, !bind_Ok by done.
  eapply (returns_bind _ _ (fun psi' => 0 <= psi' < q /\ (psi * psi') mod q = 1)).
  { apply ModInverse_correct; [lia|]. rewrite Z.gcd_comm. apply Z.coprime_prime_small; [done | lia]. }
  intros psi' [Hpsi' Einv]. rewrite fill_tables_ok, bind_Ok by (done || lia). cbn [fst snd m_modulus m_data].
  rewrite ?NativeVectorT_new_ok, ?bind_Ok by done.
  replace (Z.to_nat (Z.of_nat k + 1)) with (S k) by lia.
  destruct (cyclo_inverses q k Hp H4 Hqw ltac:(lia)) as (coi & -> & Hcoi). rewrite bind_Ok.
  rewrite ?NativeVectorT_new_ok, ?bind_Ok by done. cbn [m_modulus m_data].
  pose proof (power_table_reduced q ltac:(lia) k Hk) as Hred.
  pose proof (length_power_table q k) as Hlen.
  destruct (precon_table q _ ltac:(lia) Hq2 (Hred psi)) as (pre & -> & Hpre).
  destruct (precon_table q _ ltac:(lia) Hq2 (Hred psi')) as (preI & -> & HpreI). rewrite !bind_Ok.
  rewrite ?NativeVectorT_new_ok, ?bind_Ok by done.
  assert (reduced q coi) as Hcr.
  { apply Forall_lookup_2. intros i x Hx.
    destruct (Forall2_lookup_r _ _ _ _ _ Hcoi Hx) as (? & _ & ? & _). done. }
  destruct (precon_table q coi ltac:(lia) Hq2 Hcr) as (preC & -> & HpreC). rewrite bind_Ok.
  destruct (Forall2_lookup_l _ _ _ k k Hcoi) as (cinv & Ec & Hc & Ecinv).
  { apply lookup_seq. lia. }
  destruct (Forall2_lookup_l _ _ _ _ _ HpreC Ec) as (pcinv & Epc & Hpc).
  unfold cache_has. cbn. do 8 eexists. rewrite !lookup_insert_eq.
  repeat (split; [reflexivity|]). split; [exact Ec|]. split; [exact Epc|].
  split; [by apply precon_match | by apply precon_match | by apply power_table_ok; [lia|..] | | done | | done].
  - apply power_table_inverse; [lia..|]. apply eqmod_1; [lia | done].
  - apply eqmod_1; [lia | done].
Qed.
End PreComputation.

(** ** The negacyclic transforms *)

Section Negacyclic.
Context `{W : NativeWidth}.

(** A cache the transforms for [psi] can start from: without tables for the
    modulus, or with the tables of [psi]. *)
Definition cache_for (q psi : Z) (k : nat) (c : FTTCache) : Prop :=
  table_missing c q (2 ^ k) = true \/ cache_has q psi k c.

Lemma cache_has_present q psi k c : cache_has q psi k c -> table_missing c q (2 ^ k) = false.
Proof.
  intros (table & precon & tableI & preconI & coi & pcoi & cinv & pcinv & E & _ & _ & _ & _ & _ & _ & _ & _ & Htt).
  unfold table_missing, GetLength. rewrite E. destruct Htt as [[Hl _ _ _] _ _ _ _ _ _].
  by rewrite Hl, Nat.eqb_refl.
Qed.

Lemma FTT_prepare_ok q psi k c :
  root_ok q psi k -> cache_for q psi k c ->
  returns (FTT_prepare psi (2 ^ (Z.of_nat k + 1)) (2 ^ k) q c) (cache_has q psi k).
Proof.
  intros Hr Hc. unfold FTT_prepare. rewrite IsPowerOfTwo_pow2 by (destruct Hr; lia).
  rewrite cyclo_order_half, Nat.eqb_refl. cbn [negb]. destruct Hc as [Hc|Hc].
  - rewrite Hc. by apply PreCompute_ok.
  - by rewrite (cache_has_present _ _ _ _ Hc).
Qed.

Section Root.
Context (q psi : Z) (k : nat) (Hr : root_ok q psi k).

Lemma root_not_trivial : ((psi =? 1) || (psi =? 0)) = false.
Proof. destruct Hr. apply orb_false_intro; apply Z.eqb_neq; lia. Qed.

(** The values of a vector at the odd powers of the root, in the order of the
    transform. *)
Definition odd_power_values (v : NativeVectorT) : list Z :=
  map (fun i => peval (m_data v) (psi ^ Z.of_nat (2 * rv k i + 1)) mod q) (seq 0 (2 ^ k)).

Lemma forward_result_values table v :
  m_data table = power_table q psi k -> fits q k v -> table_ok q (entry table) k ->
  forward_result table k v = mkVector (odd_power_values v) q.
Proof.
  intros Ht (Hv & Hm & Hl) Hok. pose proof (wf_word v Hv) as (Hq & _). rewrite Hm in *.
  unfold forward_result. rewrite Hm. f_equal.
  assert (reduced q (m_data v)) as Hred by (rewrite <- Hm; apply Hv).
  pose proof (pforward_inv q (ff q) (fg q) (ff_range q Hq) (fg_range q Hq) (entry table) k k _ Hred)
    as [_ Hlen].
  apply list_eq_total; rewrite Hlen, Hl; [unfold odd_power_values; by rewrite length_map, length_seq|].
  intros i Hi. rewrite pforward_values by done. unfold odd_power_values.
  rewrite map_seq_at by done. apply eqmod_elim. unfold peval.
  apply bsum_eqmod; [|done].
  change (entry table) with (fun i => m_data table !!! i). rewrite Ht.
  destruct Hr. apply power_table_node; done || lia.
Qed.

Lemma FTT_forward_ok v c :
  fits q k v -> cache_for q psi k c ->
  returns (FTT_ForwardTransformToBitReverseInPlace psi (2 ^ (Z.of_nat k + 1)) v c)
    (fun rc => fst rc = mkVector (odd_power_values v) q /\ cache_has q psi k (snd rc) /\ fits q k (fst rc)).
Proof.
  intros Hv Hc. pose proof Hv as (_ & Hm & Hl).
  unfold FTT_ForwardTransformToBitReverseInPlace, GetLength. rewrite root_not_trivial, Hl, Hm.
  eapply returns_bind; [by apply FTT_prepare_ok|]. intros c' Hc'.
  pose proof Hc' as (table & precon & tableI & preconI & coi & pcoi & cinv & pcinv
    & E1 & E2 & E3 & E4 & E5 & E6 & Ht & _ & _ & Htt).
  unfold map_at. rewrite E1, E2. cbn [default].
  assert (k <= 31)%nat by (destruct Hr; lia).
  rewrite (ForwardInPlace_ok k) by (by eapply fits_input). rewrite bind_Ok. cbn [returns fst snd].
  split; [|split; [done | by eapply forward_result_fits]].
  apply forward_result_values; [done | done | apply Htt].
Qed.

Lemma FTT_inverse_ok v c :
  fits q k v -> cache_has q psi k c ->
  exists table tableI cinv, m_data table = power_table q psi k /\
    table_ok q (entry table) k /\
    (forall u, fits q k u -> inverse_result k tableI (forward_result table k u) cinv = u) /\
    FTT_InverseTransformFromBitReverseInPlace psi (2 ^ (Z.of_nat k + 1)) v c
    = Ok (inverse_result k tableI v cinv, c).
Proof.
  intros Hv Hc. pose proof Hv as (_ & Hm & Hl).
  pose proof (cache_has_present _ _ _ _ Hc) as Hpre.
  pose proof Hc as (table & precon & tableI & preconI & coi & pcoi & cinv & pcinv
    & E1 & E2 & E3 & E4 & E5 & E6 & Ht & Ec & Epc & Htt).
  assert (1 <= k <= 24)%nat by (destruct Hr; lia).
  exists table, tableI, cinv. split; [done|]. split; [apply Htt|]. split.
  { intros u Hu. by eapply inverse_forward. }
  unfold FTT_InverseTransformFromBitReverseInPlace, FTT_prepare, GetLength.
  rewrite root_not_trivial, Hl, Hm, IsPowerOfTwo_pow2 by lia.
  rewrite cyclo_order_half, Nat.eqb_refl, Hpre. cbn [negb]. rewrite bind_Ok.
  unfold FTT_inverse_with. rewrite msb_of_length, Nat2Z.id by lia. unfold map_at. rewrite E3, E4, E5, E6.
  cbn [default]. unfold vget. simpl. rewrite Ec, Epc. simpl.
  by rewrite (Inverse_ok q k table precon tableI preconI cinv pcinv) by (done || lia).
Qed.
End Root.

(** The negacyclic transform through the cache returns the values of the
    polynomial at the odd powers of the root of unity, in bit-reversed order,
    reduced modulo q. *)
Theorem FTT_evaluates_at_odd_powers q psi k v c :
  root_ok q psi k -> fits q k v -> cache_for q psi k c ->
  returns (FTT_ForwardTransformToBitReverseInPlace psi (2 ^ (Z.of_nat k + 1)) v c)
    (fun rc => m_data (fst rc) = odd_power_values q psi k v /\ m_modulus (fst rc) = q /\
               cache_has q psi k (snd rc)).
Proof.
  intros Hr Hv Hc. eapply returns_mono; [by apply FTT_forward_ok|]. by intros rc (-> & H & _).
Qed.

(** [C8] The negacyclic transform of a vector modulo a prime followed by the inverse
    transform, both run through the table cache of ChineseRemainderTransformFTT
    (computing the tables when they are missing), returns the vector unchanged and
    leaves the cache holding the tables of the root. *)
Theorem FTT_round_trip q psi k v c :
  root_ok q psi k -> fits q k v -> cache_for q psi k c ->
  returns (rc ← FTT_ForwardTransformToBitReverseInPlace psi (2 ^ (Z.of_nat k + 1)) v c;
           FTT_InverseTransformFromBitReverseInPlace psi (2 ^ (Z.of_nat k + 1)) (fst rc) (snd rc))
    (fun rc => fst rc = v /\ cache_has q psi k (snd rc)).
Proof.
  intros Hr Hv Hc. eapply returns_bind; [by apply FTT_forward_ok|]. intros [r c'] (E & Hc' & Hf). simpl in *.
  destruct (FTT_inverse_ok q psi k Hr r c' Hf Hc') as (table & tableI & cinv & Ht & Hok & Hinv & ->).
  simpl. split; [|done]. rewrite E, <- (forward_result_values q psi k Hr table v) by done. by apply Hinv.
Qed.

(** When the cache already holds tables of the right length for a modulus, the
    transform ignores the root of unity it is given. *)
Theorem FTT_ignores_root_when_cached q n psi psi' CycloOrder v c :
  table_missing c q n = false -> n = Z.to_nat (Z.shiftr CycloOrder 1) -> m_modulus v = q ->
  1 < psi -> 1 < psi' ->
  FTT_ForwardTransformToBitReverseInPlace psi' CycloOrder v c
  = FTT_ForwardTransformToBitReverseInPlace psi CycloOrder v c.
Proof.
  intros Hmiss -> Hm H1 H2. unfold FTT_ForwardTransformToBitReverseInPlace, FTT_prepare.
  rewrite Hm, Hmiss. destruct (Z.eqb_spec psi 1), (Z.eqb_spec psi 0), (Z.eqb_spec psi' 1),
    (Z.eqb_spec psi' 0); lia || done.
Qed.
End Negacyclic.

(** ** Witnesses: length 8 modulo 17, with the root of unity 3 *)

Definition table8 : NativeVectorT := mkVector (power_table 17 3 3) 17.
Definition table8I : NativeVectorT := mkVector (power_table 17 6 3) 17.
Definition precon8 (t : NativeVectorT) : NativeVectorT :=
  mkVector (map (fun x => x * 2 ^ 64 / 17) (m_data t)) 17.
Definition vector8 (d : list Z) : NativeVectorT := mkVector d 17.
Definition empty_cache : FTTCache := mkCache ∅ ∅ ∅ ∅ ∅ ∅.

Lemma root8 : @root_ok W64 17 3 3.
Proof.
  split; [apply prime_17 | lia | by vm_compute | lia | lia |]. constructor. reflexivity.
Qed.

Lemma match8 t : t = table8 \/ t = table8I -> @tables_match W64 17 (2 ^ 3) t (precon8 t).
Proof.
  intros [-> | ->]; (split; [reflexivity | reflexivity | repeat constructor; by vm_compute |]);
    intros i Hi; do 8 (destruct i as [|i]; [vm_compute; reflexivity|]); simpl in Hi; lia.
Qed.

Lemma tables8 :
  @transform_tables W64 17 3 table8 (precon8 table8) table8I (precon8 table8I) 15 (15 * 2 ^ 64 / 17).
Proof.
  split; [apply match8; by left | apply match8; by right | | | lia | by constructor | by vm_compute].
  - apply power_table_ok; first [lia | by constructor].
  - apply power_table_inverse; first [lia | by constructor].
Qed.

Lemma fits8 d : length d = 8%nat -> reduced 17 d -> @fits W64 17 3 (vector8 d).
Proof. intros Hl Hd. split; [|done]. split; simpl; [lia | by vm_compute | done]. Qed.

Lemma ascending8 : @fits W64 17 3 (vector8 [1; 2; 3; 4; 5; 6; 7; 8]).
Proof. apply fits8; [done | repeat constructor; lia]. Qed.

Lemma input8 : @transform_input W64 3 table8 (precon8 table8) (vector8 [1; 2; 3; 4; 5; 6; 7; 8]).
Proof. apply (fits_input 17 3 _ _ _ _ _ _ tables8); [lia | apply ascending8]. Qed.

Lemma ForwardTransform_evaluates_witness :
  returns (@ForwardTransformToBitReverseInPlace W64 table8 (precon8 table8)
             (vector8 [1; 2; 3; 4; 5; 6; 7; 8]))
    (fun r => m_data r !!! 1%nat
      = peval [1; 2; 3; 4; 5; 6; 7; 8] (node (entry table8) (2 ^ 3 + 1)) mod 17).
Proof.
  eapply returns_mono.
  - apply (ForwardTransform_evaluates (W := W64) 3 _ _ _ input8). apply tables8.
  - intros r (_ & _ & _ & H). apply H. simpl. lia.
Defined.

Lemma ForwardTransforms_agree_witness :
  @ForwardTransformToBitReverse W64 (vector8 [1; 2; 3; 4; 5; 6; 7; 8]) table8 (precon8 table8)
    (vector8 (repeat 0 8))
  = @ForwardTransformToBitReverseInPlace W64 table8 (precon8 table8) (vector8 [1; 2; 3; 4; 5; 6; 7; 8]).
Proof.
  exact (proj1 (ForwardTransforms_agree (W := W64) 3 _ _ _ (vector8 (repeat 0 8)) input8 eq_refl)).
Defined.

Lemma InverseTransform_ForwardTransform_witness :
  (r ← @ForwardTransformToBitReverseInPlace W64 table8 (precon8 table8) (vector8 [1; 2; 3; 4; 5; 6; 7; 8]);
   @InverseTransformFromBitReverseInPlace W64 table8I (precon8 table8I) 15 (15 * 2 ^ 64 / 17) r)
  = Ok (vector8 [1; 2; 3; 4; 5; 6; 7; 8]).
Proof.
  apply (InverseTransform_ForwardTransform (W := W64) 17 3); [apply tables8 | lia | apply ascending8].
Defined.

Lemma NTT_negacyclic_convolution_witness :
  (fa ← @ForwardTransformToBitReverseInPlace W64 table8 (precon8 table8) (vector8 [1; 2; 3; 4; 5; 6; 7; 8]);
   fb ← @ForwardTransformToBitReverseInPlace W64 table8 (precon8 table8) (vector8 [0; 1; 0; 0; 0; 0; 0; 0]);
   fc ← @ModMul_vector W64 fa fb;
   @InverseTransformFromBitReverseInPlace W64 table8I (precon8 table8I) 15 (15 * 2 ^ 64 / 17) fc)
  = Ok (vector8 [9; 1; 2; 3; 4; 5; 6; 7]).
Proof.
  etransitivity; [apply (NTT_negacyclic_convolution (W := W64) 17 3);
    [apply tables8 | lia | apply ascending8 | apply fits8; [done | repeat constructor; lia]
    | apply prime_17 | lia] |].
  vm_compute. reflexivity.
Defined.

Lemma FTT_evaluates_at_odd_powers_witness :
  returns (@FTT_ForwardTransformToBitReverseInPlace W64 3 16 (vector8 [1; 2; 3; 4; 5; 6; 7; 8]) empty_cache)
    (fun rc => m_data (fst rc) = [5; 0; 13; 8; 9; 11; 5; 8]).
Proof.
  eapply returns_mono.
  - apply (FTT_evaluates_at_odd_powers (W := W64) 17 3 3 (vector8 [1; 2; 3; 4; 5; 6; 7; 8]) empty_cache);
      [apply root8 | apply ascending8 | by left].
  - intros rc [-> _]. vm_compute. reflexivity.
Defined.

Lemma FTT_round_trip_witness :
  returns (rc ← @FTT_ForwardTransformToBitReverseInPlace W64 3 16 (vector8 [1; 2; 3; 4; 5; 6; 7; 8]) empty_cache;
           @FTT_InverseTransformFromBitReverseInPlace W64 3 16 (fst rc) (snd rc))
    (fun rc => fst rc = vector8 [1; 2; 3; 4; 5; 6; 7; 8]).
Proof.
  eapply returns_mono.
  - apply (FTT_round_trip (W := W64) 17 3 3 (vector8 [1; 2; 3; 4; 5; 6; 7; 8]) empty_cache);
      [apply root8 | apply ascending8 | by left].
  - intros rc [H _]. exact H.
Defined.

(** A cache with the tables of the root 3, used with the root 5. *)
Lemma FTT_ignores_root_when_cached_witness :
  let c := mkCache ∅ ∅ {[17 := table8]} ∅ {[17 := precon8 table8]} ∅ in
  @FTT_ForwardTransformToBitReverseInPlace W64 5 16 (vector8 [1; 2; 3; 4; 5; 6; 7; 8]) c
  = @FTT_ForwardTransformToBitReverseInPlace W64 3 16 (vector8 [1; 2; 3; 4; 5; 6; 7; 8]) c.
Proof.
  intros c. apply (FTT_ignores_root_when_cached (W := W64) 17 8);
    [reflexivity | reflexivity | reflexivity | lia | lia].
Defined.
