(* ===== verification/Lwe.v ===== *)
(** * LWE encryption

    Models src/binfhe/lib/lwe-pke.cpp (the class [LWEEncryptionScheme]), the
    ciphertexts of src/binfhe/include/lwe-ciphertext.h, the parameters of
    src/binfhe/include/lwe-cryptoparameters.h and [EvalNOT] of
    src/binfhe/lib/binfhe-base-scheme.cpp. The random generators are outside the
    model: what a call samples is an argument of the operation ([e] an error,
    [a] a uniform vector). The number of digits
    [ceil(log(qKS) / log(baseKS))], which the code computes in floating point,
    is the argument [digitCount]. Operations that update a ciphertext through a
    reference return the ciphertext they leave. *)
From stdpp Require Import base numbers list.
From Stdlib Require Import ZArith Lia.
From S2P Require Import Prelude Bits NativeInt NativeIntProps NativeVector.
Open Scope Z_scope.

(** ** Data *)

Record LWECiphertextImpl := mkCiphertext { m_a : NativeVectorT; m_b : Z }.

(** The standard deviations are the only state of the error generators; a
    default-constructed generator has deviation 1. *)
Record LWECryptoParams := mkParams {
  m_n : nat; m_N : nat; m_q : Z; m_Q : Z; m_qKS : Z;
  m_dgg_std : Z; m_ks_dgg_std : Z; m_baseKS : Z
}.

(** The switching key: two arrays indexed by coefficient, digit value and digit
    position. *)
Record LWESwitchingKeyImpl := mkSwitchingKey {
  m_keyA : list (list (list NativeVectorT)); m_keyB : list (list (list Z))
}.

Section Definitions.
Context `{W : NativeWidth}.

(** ** Parameters *)

Definition LWECryptoParams_new (n N : nat) (q Q q_KS std baseKS : Z) : outcome LWECryptoParams :=
  if GetMSB Q >? MAX_MODULUS_SIZE then Throw config_error
  else Ok (mkParams n N q Q q_KS std std baseKS).

(** The copy constructor: [m_qKS] and [m_ks_dgg] keep their default values. *)
Definition LWECryptoParams_copy (rhs : LWECryptoParams) : LWECryptoParams :=
  mkParams (m_n rhs) (m_N rhs) (m_q rhs) (m_Q rhs) 0 (m_dgg_std rhs) 1 (m_baseKS rhs).

(** The assignment: [m_qKS] and [m_ks_dgg] keep their values. *)
Definition LWECryptoParams_assign (this rhs : LWECryptoParams) : LWECryptoParams :=
  mkParams (m_n rhs) (m_N rhs) (m_q rhs) (m_Q rhs) (m_qKS this) (m_dgg_std rhs)
    (m_ks_dgg_std this) (m_baseKS rhs).

Definition LWECryptoParams_eqb (x y : LWECryptoParams) : bool :=
  (m_n x =? m_n y)%nat && (m_N x =? m_N y)%nat && (m_q x =? m_q y) && (m_Q x =? m_Q y) &&
  (m_dgg_std x =? m_dgg_std y) && (m_baseKS x =? m_baseKS y).

(** ** Ciphertexts *)

Definition GetModulus (ct : LWECiphertextImpl) : Z := m_modulus (m_a ct).

Definition LWE_SetModulus (ct : LWECiphertextImpl) (mod_ : Z) : outcome LWECiphertextImpl :=
  a ← ModEq_vector (m_a ct) mod_;
  a ← SetModulus a mod_;
  b ← ModEq (m_b ct) mod_;
  Ok (mkCiphertext a b).

Definition ct_eqb (x y : LWECiphertextImpl) : bool :=
  eqb_vector (m_a x) (m_a y) && (m_b x =? m_b y).

(** [for (i = 0; i < n; ++i) b += a\[i\].ModMulFast(s\[i\], mod, mu)] *)
Definition add_products (n : nat) (a s : list Z) (mod_ mu : Z) (b : Z) : outcome Z :=
  for_range 0 n (fun i b =>
    x ← vget a i;
    y ← vget s i;
    z ← ModMulFast_mu x y mod_ mu;
    Ok (AddEq b z)) b.

(** ** Encryption and decryption *)

(** The guard [mod % p != 0 && mod.ConvertToInt() & (1 == 0)]: its second
    operand is zero, so it never throws; [mod % p] is evaluated. *)
Definition divisibility_guard (mod_ p : Z) : outcome unit :=
  r ← Mod mod_ p;
  if negb (r =? 0) && negb (Z.land mod_ 0 =? 0) then Throw not_implemented_error else Ok tt.

(** [m] is signed, [p] unsigned: [m % p] is unsigned. *)
Definition Encrypt (sk : NativeVectorT) (m p mod_ : Z) (e : Z) (a : NativeVectorT)
    : outcome LWECiphertextImpl :=
  _ ← divisibility_guard mod_ p;
  let n := GetLength sk in
  s ← SwitchModulus sk mod_;
  mp ← umod (u64 m) p;
  delta ← DividedBy mod_ p;
  let b := Add (Mul (wrap mp) delta) e in
  mu ← ComputeMu mod_;
  b ← add_products n (m_data a) (m_data s) mod_ mu b;
  b ← ModEq b mod_;
  Ok (mkCiphertext a b).

Definition Decrypt (sk : NativeVectorT) (ct : LWECiphertextImpl) (p : Z) : outcome Z :=
  let mod_ := GetModulus ct in
  let p2 := u64 (p * 2) in
  _ ← divisibility_guard mod_ p2;
  let n := GetLength sk in
  mu ← ComputeMu mod_;
  s ← SwitchModulus sk mod_;
  inner ← add_products n (m_data (m_a ct)) (m_data s) mod_ mu 0;
  inner ← ModEq inner mod_;
  let r := ModSubFastEq (m_b ct) inner mod_ in
  half ← DividedBy mod_ p2;
  let r := ModAddFastEq r half mod_ in
  DividedBy (Mul (wrap p) r) mod_.

(** ** Homomorphic operations *)

Definition EvalAddEq (ct1 ct2 : LWECiphertextImpl) : outcome LWECiphertextImpl :=
  a ← ModAddEq_vector (m_a ct1) (m_a ct2);
  Ok (mkCiphertext a (ModAddFastEq (m_b ct1) (m_b ct2) (m_modulus a))).

Definition EvalAddConstEq (ct : LWECiphertextImpl) (cnst : Z) : LWECiphertextImpl :=
  mkCiphertext (m_a ct) (ModAddFastEq (m_b ct) cnst (GetModulus ct)).

Definition EvalSubEq (ct1 ct2 : LWECiphertextImpl) : outcome LWECiphertextImpl :=
  a ← ModSubEq_vector (m_a ct1) (m_a ct2);
  Ok (mkCiphertext a (ModSubFastEq (m_b ct1) (m_b ct2) (m_modulus a))).

(** [ct2 = ct1 - ct2] *)
Definition EvalSubEq2 (ct1 ct2 : LWECiphertextImpl) : outcome LWECiphertextImpl :=
  a ← ModSub_vector (m_a ct1) (m_a ct2);
  Ok (mkCiphertext a (ModSubFast (m_b ct1) (m_b ct2) (GetModulus ct1))).

Definition EvalSubConstEq (ct : LWECiphertextImpl) (cnst : Z) : LWECiphertextImpl :=
  mkCiphertext (m_a ct) (ModSubFastEq (m_b ct) cnst (GetModulus ct)).

Definition EvalMultConstEq (ct1 : LWECiphertextImpl) (cnst : Z) : outcome LWECiphertextImpl :=
  a ← ModMulEq_scalar (m_a ct1) cnst;
  b ← ModMulFastEq (m_b ct1) cnst (m_modulus a);
  Ok (mkCiphertext a b).

Definition NoiselessEmbedding (params : LWECryptoParams) (m : Z) : outcome LWECiphertextImpl :=
  let q := m_q params in
  a ← NativeVectorT_new (m_n params) q;
  quarter ← RShift q 2;
  let b := Mul (wrap m) quarter in
  Ok (mkCiphertext a b).

(** [EvalNOT] of the Boolean scheme. *)
Definition EvalNOT (ct : LWECiphertextImpl) : outcome LWECiphertextImpl :=
  let q := GetModulus ct in
  let n := GetLength (m_a ct) in
  a ← NativeVectorT_new n q;
  data ← for_range 0 n (fun i d =>
           x ← vget (m_data (m_a ct)) i;
           vset d i (if x =? 0 then 0 else Sub q x)) (m_data a);
  quarter ← RShift q 2;
  let b := ModSubFast quarter (m_b ct) q in
  Ok (mkCiphertext (mkVector data (m_modulus a)) b).

(** ** Key switching *)

(** [digitsKS]: the powers of the base. *)
Definition digitsKS (digitCount : nat) (baseKS : Z) : outcome (list Z) :=
  st ← for_range 0 digitCount (fun _ '(digits, value) =>
         Ok (digits ++ [value], MulEq value baseKS)) ([], 1);
  Ok (fst st).

(** One entry of the switching key, with the error [e] and the vector [a]
    sampled for it. *)
Definition KeySwitchGen_entry (n : nat) (qKS mu : Z) (sv : NativeVectorT) (svNi : Z) (j : Z)
    (digit e : Z) (a : NativeVectorT) : outcome Z :=
  t ← ModMul svNi (Mul (wrap j) digit) qKS;
  b ← ModAdd e t qKS;
  if wbits =? 32 then
    for_range 0 n (fun i b =>
      x ← vget (m_data a) i;
      y ← vget (m_data sv) i;
      z ← ModMulFast_mu x y qKS mu;
      Ok (ModAddFastEq b z qKS)) b
  else
    b ← add_products n (m_data a) (m_data sv) qKS mu b;
    ModEq b qKS.

Definition KeySwitchGen (params : LWECryptoParams) (digitCount : nat) (sk skN : NativeVectorT)
    (E : nat -> nat -> nat -> Z) (A : nat -> nat -> nat -> NativeVectorT)
    : outcome LWESwitchingKeyImpl :=
  let qKS := m_qKS params in
  let baseKS := m_baseKS params in
  digits ← digitsKS digitCount baseKS;
  sv ← SwitchModulus sk qKS;
  svN ← SwitchModulus skN qKS;
  mu ← ComputeMu qKS;
  let N := m_N params in
  resultVecB ← vmapM (fun i =>
    vmapM (fun j =>
      vmapM (fun k =>
        svNi ← vget (m_data svN) i;
        digit ← vget digits k;
        KeySwitchGen_entry (m_n params) qKS mu sv svNi (Z.of_nat j) digit (E i j k) (A i j k))
        (seq 0 digitCount)) (seq 0 (Z.to_nat baseKS))) (seq 0 N);
  let resultVecA := map (fun i => map (fun j => map (fun k => A i j k) (seq 0 digitCount))
                                    (seq 0 (Z.to_nat baseKS))) (seq 0 N) in
  Ok (mkSwitchingKey resultVecA resultVecB).

(** [K->GetElementsA()\[i\]\[a0\]\[j\]] *)
Definition index3 {X} (v : list (list (list X))) (i a0 j : nat) : outcome X :=
  v1 ← vget v i; v2 ← vget v1 a0; vget v2 j.

(** The loop over the digits of one coefficient: [a], [b] and [atmp]. *)
Definition KeySwitch_digits (K : LWESwitchingKeyImpl) (n : nat) (Q baseKS : Z) (digitCount : nat)
    (i : nat) (a : list Z) (b atmp : Z) : outcome (list Z * Z) :=
  st ← for_range 0 digitCount (fun j '(a, b, atmp) =>
         a0 ← Mod atmp baseKS;
         kA ← index3 (m_keyA K) i (Z.to_nat a0) j;
         a ← for_range 0 n (fun k a =>
               x ← vget a k;
               y ← (c ← vget (m_data kA) k; Ok (ModSubFastEq x c Q));
               vset a k y) a;
         kB ← index3 (m_keyB K) i (Z.to_nat a0) j;
         let b := ModSubFastEq b kB Q in
         atmp ← DividedByEq atmp baseKS;
         Ok (a, b, atmp)) (a, b, atmp);
  let '(a, b, _) := st in Ok (a, b).

Definition KeySwitch (params : LWECryptoParams) (digitCount : nat) (K : LWESwitchingKeyImpl)
    (ctQN : LWECiphertextImpl) : outcome LWECiphertextImpl :=
  let n := m_n params in
  let N := m_N params in
  let Q := m_qKS params in
  let baseKS := m_baseKS params in
  a ← NativeVectorT_new n Q;
  st ← for_range 0 N (fun i '(a, b) =>
         atmp ← vget (m_data (m_a ctQN)) i;
         KeySwitch_digits K n Q baseKS digitCount i a b atmp) (m_data a, m_b ctQN);
  Ok (mkCiphertext (mkVector (fst st) (m_modulus a)) (snd st)).
End Definitions.
