(* ===== verification/LweProps.v ===== *)
(** * LWE encryption: theorems

    The phase of a ciphertext [(a, b)] under a key [s] is [b - <a, s>] modulo
    the ciphertext modulus. Encryption gives the phase [m q / p + e]; decryption
    recovers [m] from any ciphertext whose noise is less than half of [q / p];
    the homomorphic operations act linearly on phases; key switching keeps the
    phase up to the errors of the switching key. *)
From stdpp Require Import base numbers list.
From Stdlib Require Import ZArith Lia.
From S2P Require Import Prelude Bits NativeInt NativeIntProps NativeVector Lwe.
Open Scope Z_scope.

(** ** Inner products *)

Definition dot (n : nat) (a s : list Z) : Z := nsum (fun i => a !!! i * s !!! i) n.

(** The key as the operations see it: its centered entries modulo [q]. *)
Definition key_mod (sk : NativeVectorT) (q : Z) : list Z :=
  map (fun x => centered (m_modulus sk) x mod q) (m_data sk).

Definition phase (sk : NativeVectorT) (ct : LWECiphertextImpl) : Z :=
  m_b ct - dot (GetLength sk) (m_data (m_a ct)) (key_mod sk (GetModulus ct)).

Section Facts.
Context `{W : NativeWidth}.

(** Ciphertext moduli: Barrett's reduction applies and sums of [n + 2] residues
    fit in a word. *)
Record lwe_modulus (n : nat) (q : Z) : Prop := {
  lm_barrett : barrett_modulus q;
  lm_size : GetMSB q <= MAX_MODULUS_SIZE;
  lm_sum : (Z.of_nat n + 2) * q < 2 ^ wbits
}.

Record ct_wf (n : nat) (q : Z) (ct : LWECiphertextImpl) : Prop := {
  cw_vec : vec_wf (m_a ct);
  cw_modulus : m_modulus (m_a ct) = q;
  cw_length : length (m_data (m_a ct)) = n;
  cw_b : 0 <= m_b ct < q
}.

Lemma vget_at (v : list Z) i : (i < length v)%nat -> vget v i = Ok (v !!! i).
Proof. intros Hi. unfold vget. by rewrite list_lookup_lookup_total_lt. Qed.

Lemma entry_range q (v : list Z) i :
  Forall (fun x => 0 <= x < q) v -> (i < length v)%nat -> 0 <= v !!! i < q.
Proof. intros Hv Hi. apply (Forall_lookup_total_1 _ _ _ Hv Hi). Qed.

(** The products accumulate without overflow to the inner product. *)
Lemma add_products_ok n q a s b :
  barrett_modulus q -> length a = n -> length s = n ->
  Forall (fun x => 0 <= x < q) a -> Forall (fun x => 0 <= x < q) s ->
  0 <= b -> b + Z.of_nat n * q < 2 ^ wbits ->
  returns (add_products n a s q (barrett_mu q) b)
    (fun r => r ==[q] b + dot n a s /\ 0 <= r <= b + Z.of_nat n * q).
Proof.
  intros Hq Ha Hs Ra Rs Hb Hw. pose proof (barrett_modulus_word q Hq) as Hq4.
  unfold add_products.
  eapply returns_mono; [apply (for_range_inv (fun i r =>
    r ==[q] b + dot i a s /\ 0 <= r <= b + Z.of_nat i * q)); [lia | |] | done].
  { split; [|lia]. apply eqmod_eq. unfold dot. simpl. lia. }
  intros i r Hi [Hr Rr]. rewrite !vget_at, !bind_Ok by lia.
  pose proof (entry_range q a i Ra ltac:(lia)). pose proof (entry_range q s i Rs ltac:(lia)).
  eapply returns_bind; [apply ModMulFast_mu_result; [done | lia | lia]|]. intros z Hz.
  apply barrett_result_le in Hz as [Hz Ez]; [|lia]. simpl.
  unfold AddEq, AddEqFast. rewrite wrap_small by nia. split; [|nia].
  rewrite Hr, Ez. apply eqmod_eq. unfold dot. simpl. ring.
Qed.

Lemma key_mod_wf sk q :
  0 < q -> length (key_mod sk q) = GetLength sk /\ Forall (fun x => 0 <= x < q) (key_mod sk q).
Proof.
  intros Hq. unfold key_mod, GetLength. rewrite length_map. split; [done|].
  apply Forall_map, Forall_true. intros x. by apply mod_range.
Qed.

Lemma guard_ok q p : 0 < p -> divisibility_guard q p = Ok tt.
Proof.
  intros Hp. unfold divisibility_guard, Mod. rewrite umod_pos, bind_Ok by done.
  rewrite Z.land_0_r. by rewrite andb_false_r.
Qed.

(** ** Decryption *)

(** The rounding at the end of [Decrypt]. *)
Lemma round_phase p delta m e r :
  0 < p -> 0 < delta -> 0 <= m < p -> 0 <= e < 2 * delta ->
  r = m * (2 * delta) + e -> p * r / (p * (2 * delta)) = m.
Proof.
  intros Hp Hd Hm He ->. rewrite Z.div_mul_cancel_l by lia.
  rewrite Z.div_add_l, Z.div_small by lia. lia.
Qed.

(** What [Decrypt] needs of its parameters. *)
Record decrypt_ok (n : nat) (q p : Z) : Prop := {
  do_modulus : lwe_modulus n q;
  do_p : 1 <= p < 2 ^ 32;
  do_word : p * q < 2 ^ wbits;
  do_divides : (2 * p | q)
}.

Lemma Decrypt_phase sk ct q p m e :
  vec_wf sk -> ct_wf (GetLength sk) q ct -> decrypt_ok (GetLength sk) q p ->
  0 <= m < p -> - q <= 2 * p * e < q -> phase sk ct ==[q] m * (q / p) + e ->
  Decrypt sk ct p = Ok m.
Proof.
  intros Hsk [Hv Hm Hl Hb] [[Hbar Hsz Hsum] Hp Hw [d Hd]] Hmr He Hph.
  pose proof (barrett_modulus_word q Hbar) as Hq4. pose proof word_half as Hh.
  destruct (key_mod_wf sk q ltac:(lia)) as [Hkl Hkr].
  assert (2 ^ 32 * 2 < 2 ^ 64) as Hp64 by lia.
  unfold Decrypt, GetModulus. rewrite Hm.
  assert (u64 (p * 2) = 2 * p) as -> by (unfold u64; rewrite Z.mod_small; lia).
  rewrite guard_ok, bind_Ok, ComputeMu_ok, bind_Ok by (done || lia).
  destruct (SwitchModulus_ok sk q Hsk ltac:(lia) Hsz) as [-> _]. rewrite bind_Ok. cbn [m_data].
  fold (key_mod sk q).
  eapply (returns_eq _ m). eapply returns_bind.
  { apply (add_products_ok _ q); [done | done | done | rewrite <- Hm; apply Hv | done | lia | lia]. }
  intros inner [Hi Ri]. unfold ModEq. rewrite umod_pos, bind_Ok by lia.
  pose proof (mod_range inner q ltac:(lia)) as Rim.
  change (ModSubFastEq (m_b ct) (inner mod q) q) with (ModSubFast (m_b ct) (inner mod q) q).
  rewrite ModSubFast_correct by lia. unfold DividedBy.
  destruct (Z.eqb_spec (2 * p) 0); [lia|]. rewrite udiv_pos, bind_Ok by lia.
  assert (0 < d) as Hd0 by nia.
  assert (q / (2 * p) = d) as -> by (rewrite Hd; apply Z.div_mul; lia).
  pose proof (mod_range (m_b ct - inner mod q) q ltac:(lia)) as Rr.
  set (r := (m_b ct - inner mod q) mod q) in *.
  change (ModAddFastEq r d q) with (ModAddFast r d q). rewrite ModAddFast_correct by nia.
  destruct (Z.eqb_spec q 0); [lia|]. rewrite udiv_pos by lia.
  assert (q / p = 2 * d) as Edelta.
  { rewrite Hd. replace (d * (2 * p)) with (2 * d * p) by ring. apply Z.div_mul. lia. }
  assert ((r + d) mod q = m * (2 * d) + (e + d)) as ->.
  { symmetry. apply eqmod_unique; [nia|]. unfold r. rewrite !eqmod_mod, Hi, Z.add_0_l.
    unfold phase, GetModulus in Hph. rewrite Hm in Hph. rewrite Hph, Edelta. apply eqmod_eq. ring. }
  simpl. unfold Mul, MulFast. rewrite (wrap_small p) by nia. rewrite wrap_small by nia.
  rewrite Hd. replace (d * (2 * p)) with (p * (2 * d)) by ring.
  apply (round_phase p d m (e + d)); [lia | lia | lia | nia | done].
Qed.

(** ** Encryption *)

Lemma Encrypt_phase sk m p q e a :
  vec_wf sk -> lwe_modulus (GetLength sk) q -> 1 <= p <= q ->
  vec_wf a -> m_modulus a = q -> length (m_data a) = GetLength sk -> 0 <= e < q ->
  returns (Encrypt sk m p q e a) (fun ct =>
    ct_wf (GetLength sk) q ct /\
    phase sk ct ==[q] (u64 m mod p) * (q / p) + e).
Proof.
  intros Hsk [Hbar Hsz Hsum] Hp Ha Hma Hla He.
  pose proof (barrett_modulus_word q Hbar) as Hq4. pose proof word_half as Hh.
  destruct (key_mod_wf sk q ltac:(lia)) as [Hkl Hkr].
  unfold Encrypt. rewrite guard_ok, bind_Ok by lia.
  destruct (SwitchModulus_ok sk q Hsk ltac:(lia) Hsz) as [-> _]. rewrite bind_Ok. cbn [m_data].
  fold (key_mod sk q). rewrite umod_pos, bind_Ok by lia. unfold DividedBy.
  destruct (Z.eqb_spec p 0); [lia|]. rewrite udiv_pos, bind_Ok, ComputeMu_ok, bind_Ok by (done || lia).
  pose proof (mod_range (u64 m) p ltac:(lia)) as Rm.
  pose proof (Z.mul_div_le q p ltac:(lia)). assert (0 <= q / p) by (apply Z.div_pos; lia).
  unfold Add, AddFast, Mul, MulFast. rewrite (wrap_small (u64 m mod p)) by lia.
  rewrite (wrap_small (_ * _)), wrap_small by nia.
  set (b0 := (u64 m mod p) * (q / p) + e).
  eapply returns_bind.
  { apply (add_products_ok _ q (m_data a) (key_mod sk q) b0);
      [done | done | done | rewrite <- Hma; apply Ha | done | unfold b0; nia | unfold b0; nia]. }
  intros b [Hb Rb]. unfold ModEq. rewrite umod_pos, bind_Ok by lia. cbn [returns].
  split; [split; simpl; [done | done | done | apply mod_range; lia]|].
  unfold phase, GetModulus. cbn [m_a m_b]. rewrite Hma, eqmod_mod, Hb. apply eqmod_eq. ring.
Qed.


(** Decrypt returns m for every well-formed ciphertext whose phase is m times q /
    p plus an error below q / (2 p) in absolute value. *)
Theorem Decrypt_small_noise sk ct q p m e :
  vec_wf sk -> ct_wf (GetLength sk) q ct -> decrypt_ok (GetLength sk) q p ->
  0 <= m < p -> - q <= 2 * p * e < q -> phase sk ct ==[q] m * (q / p) + e ->
  Decrypt sk ct p = Ok m.
Proof. apply Decrypt_phase. Qed.

(** ** Homomorphic operations *)

Lemma dot_eqmod q n a b s : (forall i, (i < n)%nat -> a !!! i ==[q] b !!! i) -> dot n a s ==[q] dot n b s.
Proof. intros H. apply nsum_eqmod. intros i Hi. by rewrite (H i Hi). Qed.

(** The entries of a pointwise combination. *)
Lemma zip_at (h : Z -> Z -> Z) (a b : list Z) i :
  (i < length a)%nat -> (i < length b)%nat -> zip_with h a b !!! i = h (a !!! i) (b !!! i).
Proof.
  intros Ha Hb. apply list_lookup_total_correct. rewrite lookup_zip_with.
  by rewrite !list_lookup_lookup_total_lt by done.
Qed.

Lemma dot_zip q n u v (a b s : list Z) :
  length a = n -> length b = n ->
  dot n (zip_with (fun x y => (u * x + v * y) mod q) a b) s ==[q] u * dot n a s + v * dot n b s.
Proof.
  intros Ha Hb. unfold dot. rewrite <- !nsum_scale, <- nsum_add.
  apply nsum_eqmod. intros i Hi. rewrite zip_at, eqmod_mod by lia. apply eqmod_eq. ring.
Qed.

Lemma zip_scale_wf (q u v : Z) a b :
  vec_wf a -> m_modulus a = q ->
  vec_wf (mkVector (zip_with (fun x y => (u * x + v * y) mod q) (m_data a) (m_data b)) q).
Proof. intros Ha <-. by apply (zip_mod_wf (fun x y => u * x + v * y)). Qed.

Lemma add_sub_vectors n q ct1 ct2 :
  ct_wf n q ct1 -> ct_wf n q ct2 ->
  ModAddEq_vector (m_a ct1) (m_a ct2)
  = Ok (mkVector (zip_with (fun x y => (1 * x + 1 * y) mod q) (m_data (m_a ct1)) (m_data (m_a ct2))) q) /\
  ModSubEq_vector (m_a ct1) (m_a ct2)
  = Ok (mkVector (zip_with (fun x y => (1 * x + -1 * y) mod q) (m_data (m_a ct1)) (m_data (m_a ct2))) q).
Proof.
  intros [V1 M1 L1 B1] [V2 M2 L2 B2]. pose proof (wf_word _ V1) as (Hq & Hq2 & Hw). rewrite M1 in *.
  assert (different_parameters (m_a ct1) (m_a ct2) = false) as E
    by (apply different_parameters_spec; split; congruence).
  unfold ModAddEq_vector, ModSubEq_vector. rewrite E, M1.
  rewrite (vzipM_Ok _ (fun x y => (1 * x + 1 * y) mod q)), (vzipM_Ok _ (fun x y => (1 * x + -1 * y) mod q));
    try congruence; [done | |]; intros i x y Hx Hy; f_equal.
  all: apply (Forall_lookup_1 _ _ _ _ (wf_entries _ V1)) in Hx;
    apply (Forall_lookup_1 _ _ _ _ (wf_entries _ V2)) in Hy; rewrite M1 in Hx; rewrite M2 in Hy.
  - etransitivity; [apply (ModSubFast_correct x y q); lia|]. f_equal. ring.
  - etransitivity; [apply (ModAddFast_correct x y q); lia|]. f_equal. ring.
Qed.

Lemma combine_ct n q u v ct1 ct2 b :
  ct_wf n q ct1 -> ct_wf n q ct2 -> b ==[q] u * m_b ct1 + v * m_b ct2 -> 0 <= b < q ->
  let ct := mkCiphertext (mkVector
    (zip_with (fun x y => (u * x + v * y) mod q) (m_data (m_a ct1)) (m_data (m_a ct2))) q) b in
  ct_wf n q ct /\ forall sk, GetLength sk = n -> phase sk ct ==[q] u * phase sk ct1 + v * phase sk ct2.
Proof.
  intros [V1 M1 L1 B1] [V2 M2 L2 B2] Hb Rb ct. split.
  - split; simpl; [by apply (zip_scale_wf q u v) | done | | done]. rewrite length_zip_with. lia.
  - intros sk Hn. unfold phase, GetModulus. rewrite M1, M2, Hn. cbn [m_a m_b m_modulus m_data ct].
    rewrite Hb, (dot_zip q n u v) by done. apply eqmod_eq. ring.
Qed.

(** Adding and subtracting well-formed ciphertexts of the same parameters returns
    a well-formed ciphertext whose phase, under every key, is the sum or the
    difference of the phases; the two subtractions agree. *)
Theorem EvalAdd_EvalSub_phase n q ct1 ct2 :
  ct_wf n q ct1 -> ct_wf n q ct2 ->
  returns (EvalAddEq ct1 ct2) (fun ct => ct_wf n q ct /\
    forall sk, GetLength sk = n -> phase sk ct ==[q] phase sk ct1 + phase sk ct2) /\
  returns (EvalSubEq ct1 ct2) (fun ct => ct_wf n q ct /\
    forall sk, GetLength sk = n -> phase sk ct ==[q] phase sk ct1 - phase sk ct2) /\
  EvalSubEq2 ct1 ct2 = EvalSubEq ct1 ct2.
Proof.
  intros H1 H2. destruct (add_sub_vectors n q ct1 ct2 H1 H2) as [EA ES].
  pose proof H1 as [V1 M1 L1 B1]. pose proof H2 as [V2 M2 L2 B2].
  pose proof (wf_word _ V1) as (Hq & Hq2 & Hw). rewrite M1 in *.
  assert (ModAddFastEq (m_b ct1) (m_b ct2) q = (m_b ct1 + m_b ct2) mod q) as Eb
    by (apply (ModAddFast_correct _ _ q); lia).
  assert (ModSubFastEq (m_b ct1) (m_b ct2) q = (m_b ct1 - m_b ct2) mod q) as Es
    by (apply (ModSubFast_correct _ _ q); lia).
  pose proof (mod_range (m_b ct1 + m_b ct2) q Hq). pose proof (mod_range (m_b ct1 - m_b ct2) q Hq).
  split; [|split].
  - unfold EvalAddEq. rewrite EA, bind_Ok. cbn [m_modulus returns]. rewrite Eb.
    destruct (combine_ct n q 1 1 ct1 ct2 ((m_b ct1 + m_b ct2) mod q) H1 H2) as [Hwf Hp]; [|done|].
    { rewrite eqmod_mod. apply eqmod_eq. ring. }
    split; [done|]. intros sk Hsk. rewrite (Hp sk Hsk). apply eqmod_eq. ring.
  - unfold EvalSubEq. rewrite ES, bind_Ok. cbn [m_modulus returns]. rewrite Es.
    destruct (combine_ct n q 1 (-1) ct1 ct2 ((m_b ct1 - m_b ct2) mod q) H1 H2) as [Hwf Hp]; [|done|].
    { rewrite eqmod_mod. apply eqmod_eq. ring. }
    split; [done|]. intros sk Hsk. rewrite (Hp sk Hsk). apply eqmod_eq. ring.
  - unfold EvalSubEq2, EvalSubEq, ModSub_vector, GetModulus. rewrite ES, !bind_Ok. cbn [m_modulus].
    by rewrite M1.
Qed.

(** Adding, subtracting and multiplying a ciphertext by a constant below the
    modulus keeps it well formed and shifts or scales its phase accordingly under
    every key. *)
Theorem EvalConst_phase n q ct c :
  ct_wf n q ct -> 0 <= c < q ->
  (ct_wf n q (EvalAddConstEq ct c) /\ ct_wf n q (EvalSubConstEq ct c)) /\
  (forall sk, phase sk (EvalAddConstEq ct c) ==[q] phase sk ct + c) /\
  (forall sk, phase sk (EvalSubConstEq ct c) ==[q] phase sk ct - c) /\
  returns (EvalMultConstEq ct c) (fun ct' => ct_wf n q ct' /\
    forall sk, GetLength sk = n -> phase sk ct' ==[q] c * phase sk ct).
Proof.
  intros H Hc. pose proof H as [V M L B]. pose proof (wf_word _ V) as (Hq & Hq2 & Hw).
  unfold EvalAddConstEq, EvalSubConstEq, GetModulus. rewrite M in *.
  assert (ModAddFastEq (m_b ct) c q = (m_b ct + c) mod q) as -> by (apply (ModAddFast_correct _ _ q); lia).
  assert (ModSubFastEq (m_b ct) c q = (m_b ct - c) mod q) as -> by (apply (ModSubFast_correct _ _ q); lia).
  split; [split; split; simpl; try done; by apply mod_range|].
  split; [|split].
  1,2: intros sk; unfold phase, GetModulus; cbn [m_a m_b]; rewrite M, eqmod_mod; apply eqmod_eq; ring.
  unfold EvalMultConstEq. change (ModMulEq_scalar (m_a ct) c) with (ModMul_scalar (m_a ct) c).
  rewrite ModMul_scalar_ok, bind_Ok by (done || lia). cbn [m_modulus]. rewrite M.
  change (ModMulFastEq (m_b ct) c q) with (ModMulFast (m_b ct) c q).
  rewrite ModMulFast_correct, bind_Ok by lia. cbn [returns]. split.
  - split; simpl; [| done | by rewrite length_map | by apply mod_range].
    rewrite <- M. by apply (map_mod_wf (fun x => x * c)).
  - intros sk Hn. unfold phase, GetModulus. cbn [m_a m_b m_modulus m_data]. rewrite M, eqmod_mod, Hn.
    rewrite Z.mul_sub_distr_l. apply eqmod_sub; [apply eqmod_eq; ring|].
    unfold dot. rewrite <- nsum_scale. apply nsum_eqmod. intros i Hi.
    rewrite (list_lookup_total_correct (map _ _) i ((m_data (m_a ct) !!! i * c) mod q)).
    + rewrite eqmod_mod. apply eqmod_eq. ring.
    + rewrite list_lookup_fmap. by rewrite list_lookup_lookup_total_lt by lia.
Qed.

(** [NOT] of a Boolean ciphertext: the phase is subtracted from a quarter of the
    modulus. *)
Lemma EvalNOT_data q a :
  0 < q -> 2 * q <= 2 ^ (wbits - 1) -> Forall (fun x => 0 <= x < q) a ->
  for_range 0 (length a) (fun i d =>
    x ← vget a i; vset d i (if x =? 0 then 0 else Sub q x)) (repeat 0 (length a))
  = Ok (map (fun x => (- x) mod q) a).
Proof.
  intros Hq Hq2 Ha. pose proof word_half.
  assert (length (repeat 0 (length a)) = length a) as Hlr by apply repeat_length.
  pose proof (for_range_exact (fun i => map (fun x => (- x) mod q) (take i a) ++ drop i (repeat 0 (length a)))
    0 (length a) (fun i d => x ← vget a i; vset d i (if x =? 0 then 0 else Sub q x)) ltac:(lia)) as H1.
  cbv beta in H1. rewrite drop_0, (drop_ge (repeat _ _)), app_nil_r, firstn_all in H1 by lia. apply H1.
  intros i Hi. rewrite vget_at, bind_Ok by lia. pose proof (entry_range q a i Ha ltac:(lia)) as Rx.
  rewrite vset_lt by (rewrite length_app, length_map, length_take, length_drop; lia). f_equal.
  rewrite insert_app_r_alt by (rewrite length_map, length_take; lia).
  rewrite length_map, length_take, Nat.min_l, Nat.sub_diag by lia.
  destruct (lookup_lt_is_Some_2 (repeat 0 (length a)) i) as [z Hz]; [lia|].
  rewrite (drop_S _ z i Hz).
  rewrite (take_S_r a i (a !!! i)) by (apply list_lookup_lookup_total_lt; lia).
  rewrite map_app, <- app_assoc. simpl. do 2 f_equal.
  destruct (Z.eqb_spec (a !!! i) 0) as [->|]; [by rewrite Z.mod_0_l by lia|].
  unfold Sub, SubFast. rewrite wrap_small by lia.
  rewrite <- (Z_mod_plus_full _ 1), Z.mod_small by lia. lia.
Qed.

(** EvalNOT of a well-formed ciphertext is a well-formed ciphertext of phase q / 4
    minus the original phase, under every key. *)
Theorem EvalNOT_phase n q ct :
  ct_wf n q ct ->
  returns (EvalNOT ct) (fun ct' => ct_wf n q ct' /\
    forall sk, GetLength sk = n -> phase sk ct' ==[q] q / 4 - phase sk ct).
Proof.
  intros H. pose proof H as [V M L B]. pose proof (wf_word _ V) as (Hq & Hq2 & Hw).
  pose proof wbits_range. pose proof V as [_ Hs He]. rewrite M in *.
  unfold EvalNOT, GetModulus, NativeVector.GetLength. rewrite M.
  unfold NativeVectorT_new. rewrite Z.gtb_ltb, (proj2 (Z.ltb_ge _ _)), SetModulus_ok, !bind_Ok by lia.
  cbn [m_data m_modulus]. rewrite EvalNOT_data, bind_Ok by done.
  unfold RShift. rewrite ushr_ok, bind_Ok by lia. change (2 ^ 2) with 4.
  assert (0 <= q / 4 < q) by (split; [apply Z.div_pos; lia | apply Z.div_lt; lia]).
  rewrite ModSubFast_correct by lia. cbn [returns]. split.
  - split; simpl; [split; simpl; [done | done |] | done | by rewrite length_map | by apply mod_range].
    apply Forall_map, Forall_true. intros x. by apply mod_range.
  - intros sk Hn. unfold phase, GetModulus, NativeVector.GetLength. cbn [m_a m_b m_modulus m_data]. rewrite M, eqmod_mod, Hn.
    transitivity (q / 4 - m_b ct + -1 * - dot n (m_data (m_a ct)) (key_mod sk q)); [|apply eqmod_eq; ring].
    replace (q / 4 - m_b ct - _) with (q / 4 - m_b ct + -1 * dot n (map (fun x => (- x) mod q) (m_data (m_a ct))) (key_mod sk q)) by ring.
    apply eqmod_add; [done|]. apply eqmod_mul; [done|].
    replace (- dot n (m_data (m_a ct)) (key_mod sk q)) with (-1 * dot n (m_data (m_a ct)) (key_mod sk q)) by ring.
    unfold dot. rewrite <- nsum_scale. apply nsum_eqmod. intros i Hi.
    rewrite (list_lookup_total_correct (map _ _) i ((- (m_data (m_a ct) !!! i)) mod q)).
    + rewrite eqmod_mod. apply eqmod_eq. ring.
    + rewrite list_lookup_fmap. by rewrite list_lookup_lookup_total_lt by lia.
Qed.

(** ** Key switching *)

(** The digit [j] of [x] in base [B]. *)
Definition digit (B x : Z) (j : nat) : Z := (x / B ^ Z.of_nat j) mod B.

Lemma digits_sum B x n :
  0 < B -> nsum (fun j => digit B x j * B ^ Z.of_nat j) n = x mod B ^ Z.of_nat n.
Proof. apply digits_recompose. Qed.

(** What a switching key promises: entry [(i, d, j)] encrypts, under [sk], the
    product of coefficient [i] of [skN] with [d B ^ j], with the error
    [E i d j]. *)
Definition switching_key_ok (q B : Z) (dc : nat) (sk skN : NativeVectorT)
    (K : LWESwitchingKeyImpl) (E : nat -> nat -> nat -> Z) : Prop :=
  let n := GetLength sk in
  forall i d j, (i < GetLength skN)%nat -> (Z.of_nat d < B) -> (j < dc)%nat ->
  exists vA b, index3 (m_keyA K) i d j = Ok vA /\ index3 (m_keyB K) i d j = Ok b /\
    length (m_data vA) = n /\ Forall (fun x => 0 <= x < q) (m_data vA) /\ 0 <= b < q /\
    b - dot n (m_data vA) (key_mod sk q)
    ==[q] key_mod skN q !!! i * (Z.of_nat d * B ^ Z.of_nat j) + E i d j.

Section Switching.
Context (q B : Z) (dc : nat) (sk skN : NativeVectorT) (K : LWESwitchingKeyImpl).
Context (E : nat -> nat -> nat -> Z).
Context (Hq : 0 < q) (Hq2 : 2 * q <= 2 ^ (wbits - 1)) (HB : 1 < B < 2 ^ wbits).
Context (HK : switching_key_ok q B dc sk skN K E).
Local Abbreviation n := (GetLength sk).
Local Abbreviation s := (key_mod sk q).

(** The errors that one coefficient [x] picks up. *)
Definition digit_errors (i : nat) (x : Z) (m : nat) : Z :=
  nsum (fun j => E i (Z.to_nat (digit B x j)) j) m.

(** A partial result with phase [ph]. *)
Definition partial (a : list Z) (b ph : Z) : Prop :=
  length a = n /\ Forall (fun x => 0 <= x < q) a /\ 0 <= b < q /\ b - dot n a s ==[q] ph.

Lemma sub_loop_ok a c :
  length a = n -> length c = n ->
  Forall (fun x => 0 <= x < q) a -> Forall (fun x => 0 <= x < q) c ->
  for_range 0 n (fun k a =>
    x ← vget a k; y ← (c ← vget c k; Ok (ModSubFastEq x c q)); vset a k y) a
  = Ok (zip_with (fun x y => (1 * x + -1 * y) mod q) a c).
Proof.
  intros La Lc Ra Rc. pose proof word_half.
  rewrite <- La at 1.
  rewrite (for_range_pointwise _ (fun k x => (x - c !!! k) mod q)).
  - f_equal. apply list_eq. intros i. rewrite list_lookup_imap, lookup_zip_with.
    destruct (decide (i < n)%nat).
    + rewrite !list_lookup_lookup_total_lt by lia. simpl. do 2 f_equal. ring.
    + by rewrite !lookup_ge_None_2 by lia.
  - intros i x Hx. pose proof (lookup_lt_Some _ _ _ Hx).
    rewrite vget_at, bind_Ok by lia. f_equal.
    apply (Forall_lookup_1 _ _ _ _ Ra) in Hx. pose proof (entry_range q c i Rc ltac:(lia)).
    apply (ModSubFast_correct x (c !!! i) q); lia.
Qed.

Lemma KeySwitch_digits_ok i a b ph x :
  (i < GetLength skN)%nat -> 0 <= x -> partial a b ph ->
  returns (KeySwitch_digits K n q B dc i a b x) (fun '(a', b') =>
    partial a' b' (ph - key_mod skN q !!! i * (x mod B ^ Z.of_nat dc) - digit_errors i x dc)).
Proof.
  intros Hi Hx Hp. unfold KeySwitch_digits. pose proof word_half.
  set (body := fun (j : nat) '(a, b, atmp) => _).
  eapply returns_bind.
  - apply (for_range_inv (fun j '(a', b', t) => t = x / B ^ Z.of_nat j /\
      partial a' b' (ph - key_mod skN q !!! i * (x mod B ^ Z.of_nat j) - digit_errors i x j)));
      [lia | |].
    { simpl. rewrite Z.pow_0_r, Z.div_1_r, Z.mod_1_r. split; [done|].
      unfold digit_errors. simpl nsum. by rewrite Z.mul_0_r, !Z.sub_0_r. }
    intros j [[a' b'] t] Hj [-> (La & Ra & Rb & Hph)]. unfold body.
    unfold Mod, DividedByEq. rewrite umod_pos, bind_Ok by lia. fold (digit B x j).
    assert (0 <= digit B x j < B) as Hd by (apply mod_range; lia).
    destruct (HK i (Z.to_nat (digit B x j)) j Hi ltac:(lia) ltac:(lia))
      as (vA & kb & EA & EB & LA & RA & Rkb & HE).
    rewrite EA, bind_Ok, sub_loop_ok, bind_Ok, EB, bind_Ok by done.
    destruct (Z.eqb_spec B 0) as [|_]; [lia|]. rewrite udiv_pos, bind_Ok by lia. cbn [returns].
    assert (ModSubFastEq b' kb q = (b' - kb) mod q) as -> by (apply (ModSubFast_correct b' kb q); lia).
    assert (0 < B ^ Z.of_nat j) by (apply Z.pow_pos_nonneg; lia).
    split; [rewrite Z.div_div by lia; f_equal; rewrite Nat2Z.inj_succ, Z.pow_succ_r by lia; ring|].
    split; [rewrite length_zip_with; lia|]. split.
    { apply Forall_lookup_2. intros k y Hy. apply lookup_zip_with_Some in Hy as (? & ? & -> & _).
      by apply mod_range. }
    split; [by apply mod_range|].
    rewrite eqmod_mod, (dot_zip q n 1 (-1)) by done.
    rewrite <- !digits_sum in * by lia. unfold digit_errors in *. simpl nsum.
    rewrite Z2Nat.id in HE by lia.
    transitivity ((b' - dot n a' s) - (kb - dot n (m_data vA) s)); [apply eqmod_eq; ring|].
    rewrite Hph, HE. apply eqmod_eq. ring.
  - intros [[a' b'] t] [_ H']. exact H'.
Qed.
End Switching.

(** The errors of key switching: those of the digits of every coefficient. *)
Definition switching_error (E : nat -> nat -> nat -> Z) (B : Z) (dc : nat) (ct : LWECiphertextImpl)
    (N : nat) : Z :=
  nsum (fun i => digit_errors B E i (m_data (m_a ct) !!! i) dc) N.

Lemma KeySwitch_ok params dc sk skN K E ct q :
  m_n params = GetLength sk -> m_N params = GetLength skN -> m_qKS params = q ->
  1 < m_baseKS params < 2 ^ wbits -> q <= m_baseKS params ^ Z.of_nat dc ->
  ct_wf (GetLength skN) q ct ->
  switching_key_ok q (m_baseKS params) dc sk skN K E ->
  returns (KeySwitch params dc K ct) (fun ct' => ct_wf (GetLength sk) q ct' /\
    phase sk ct' ==[q] phase skN ct - switching_error E (m_baseKS params) dc ct (GetLength skN)).
Proof.
  intros Hn HN HQ HB Hdc [V M L Rb] HK. pose proof (wf_word _ V) as (Hq & Hq2 & Hw). rewrite M in *.
  pose proof V as [_ Hs He]. rewrite M in *. set (B := m_baseKS params) in *.
  unfold KeySwitch. rewrite Hn, HN, HQ. fold B.
  unfold NativeVectorT_new. rewrite Z.gtb_ltb, (proj2 (Z.ltb_ge _ _)), SetModulus_ok, !bind_Ok by lia.
  cbn [m_data m_modulus].
  set (sN := key_mod skN q). set (x := fun i => m_data (m_a ct) !!! i).
  eapply returns_bind.
  - apply (for_range_inv (fun i '(a, b) => partial q sk a b
      (m_b ct - nsum (fun i => x i * sN !!! i) i - nsum (fun i => digit_errors B E i (x i) dc) i)));
      [lia | |].
    { simpl. split; [apply repeat_length|]. split; [|split; [done|]].
      - apply Forall_repeat. lia.
      - apply eqmod_eq. rewrite !Z.sub_0_r. replace (dot _ _ _) with 0; [lia|]. symmetry. unfold dot.
        transitivity (nsum (fun _ => 0) (GetLength sk)); [|apply nsum_0].
        apply nsum_ext. intros i Hi.
        rewrite (list_lookup_total_correct (repeat 0 _) i 0); [ring | by apply lookup_repeat]. }
    intros i [a b] Hi Hp. rewrite vget_at, bind_Ok by lia.
    pose proof (entry_range q _ i He ltac:(lia)) as Rx. fold (x i) in Rx |- *.
    eapply returns_mono.
    { eapply (KeySwitch_digits_ok q B dc sk skN K E Hq Hq2 HB HK i a b); [lia | apply Rx | exact Hp]. }
    intros [a' b'] (La & Ra & Rb' & Hph). split; [done|]. split; [done|]. split; [done|].
    rewrite Hph. rewrite (Z.mod_small (x i)) by lia. apply eqmod_eq. simpl nsum. fold sN. ring.
  - intros [a b] (La & Ra & Rb' & Hph). cbn [returns fst snd]. split.
    + split; simpl; [by split | done | done | done].
    + unfold phase, GetModulus. cbn [m_a m_b m_modulus m_data]. rewrite M, Hph. unfold switching_error, dot.
      apply eqmod_eq. fold sN. unfold x. ring.
Qed.

(** ** Generation of the switching key *)

Lemma digitsKS_ok dc B :
  1 < B -> B ^ Z.of_nat dc < 2 ^ wbits ->
  digitsKS dc B = Ok (map (fun k => B ^ Z.of_nat k) (seq 0 dc)).
Proof.
  intros HB Hw. unfold digitsKS.
  pose proof (for_range_exact (fun k => (map (fun k => B ^ Z.of_nat k) (seq 0 k), B ^ Z.of_nat k)) 0 dc
    (fun _ '(digits, value) => Ok (digits ++ [value], MulEq value B)) ltac:(lia)) as H.
  cbv beta in H. simpl (map _ (seq 0 0)) in H. rewrite Z.pow_0_r in H. rewrite H; [done|].
  intros k Hk. f_equal. f_equal.
  - by rewrite seq_S, map_app.
  - unfold MulEq, MulEqFast. rewrite Nat2Z.inj_succ, Z.pow_succ_r, Z.mul_comm by lia. apply wrap_small.
    rewrite <- Z.pow_succ_r by lia. split; [apply Z.pow_nonneg; lia|].
    eapply Z.le_lt_trans; [|exact Hw]. apply Z.pow_le_mono_r; lia.
Qed.

Lemma KeySwitchGen_entry_ok n q sv svNi j d e a :
  lwe_modulus n q -> vec_wf a -> m_modulus a = q -> length (m_data a) = n ->
  length (m_data sv) = n -> Forall (fun x => 0 <= x < q) (m_data sv) ->
  0 <= svNi < q -> 0 <= e < q -> 0 <= j -> 0 <= d -> j < 2 ^ wbits -> j * d < 2 ^ wbits ->
  returns (KeySwitchGen_entry n q (barrett_mu q) sv svNi j d e a) (fun b =>
    0 <= b < q /\ b - dot n (m_data a) (m_data sv) ==[q] svNi * (j * d) + e).
Proof.
  intros [Hbar Hsz Hsum] Ha Hma Hla Hls Rs Rn Re Hj Hd Hjw Hw.
  pose proof (barrett_modulus_word q Hbar) as Hq4. pose proof word_half as Hh.
  assert (Forall (fun x => 0 <= x < q) (m_data a)) as Ra by (rewrite <- Hma; apply Ha).
  unfold KeySwitchGen_entry, Mul, MulFast. rewrite (wrap_small j), (wrap_small (j * d)) by nia.
  rewrite ModMul_correct, bind_Ok by nia.
  pose proof (mod_range (svNi * (j * d)) q ltac:(lia)).
  rewrite ModAdd_correct, bind_Ok by lia.
  set (b0 := (e + _) mod q). pose proof (mod_range (e + (svNi * (j * d)) mod q) q ltac:(lia)) as Rb0.
  fold b0 in Rb0.
  assert (b0 ==[q] svNi * (j * d) + e) as Eb0
    by (unfold b0; rewrite !eqmod_mod; apply eqmod_eq; ring).
  destruct (wbits =? 32).
  - eapply returns_mono; [apply (for_range_inv (fun i b => 0 <= b < q /\
      b ==[q] b0 + dot i (m_data a) (m_data sv))); [lia | |]|].
    + split; [done|]. apply eqmod_eq. unfold dot. simpl. lia.
    + intros i b Hi [Rb Eb]. rewrite !vget_at, !bind_Ok by lia.
      pose proof (entry_range q _ i Ra ltac:(lia)). pose proof (entry_range q _ i Rs ltac:(lia)).
      eapply returns_bind; [apply ModMulFast_mu_result; [done | lia | lia]|]. intros z Hz.
      apply barrett_result_le in Hz as [Hz Ez]; [|lia]. simpl.
      assert (0 <= ModAddFastEq b z q < q /\ ModAddFastEq b z q ==[q] b + z) as [Rz Eadd].
      { unfold ModAddFastEq. rewrite (wrap_small (b + z)) by lia. rewrite Z.geb_leb.
        destruct (Z.leb_spec q (b + z)); [|split; [lia | done]].
        rewrite wrap_small by lia. split; [lia|].
        replace (b + z - q) with (b + z + -1 * q) by ring. apply eqmod_multiple. }
      split; [done|]. rewrite Eadd, Eb, Ez. apply eqmod_eq. unfold dot. simpl. ring.
    + intros b [Rb Eb]. split; [done|]. rewrite Eb, Eb0. apply eqmod_eq. ring.
  - eapply returns_bind.
    { apply (add_products_ok n q); [done | done | done | done | done | lia | lia]. }
    intros b [Eb Rb]. unfold ModEq. rewrite umod_pos by lia. cbn [returns].
    split; [apply mod_range; lia|]. rewrite eqmod_mod, Eb, Eb0. apply eqmod_eq. ring.
Qed.

(** Samples of a switching key: errors and vectors of residues. *)
Definition samples_ok (n : nat) (q : Z) (E : nat -> nat -> nat -> Z)
    (A : nat -> nat -> nat -> NativeVectorT) : Prop :=
  forall i j k, 0 <= E i j k < q /\
    vec_wf (A i j k) /\ m_modulus (A i j k) = q /\ length (m_data (A i j k)) = n.

Lemma vget_map_seq {X} (h : nat -> X) n i : (i < n)%nat -> vget (map h (seq 0 n)) i = Ok (h i).
Proof. intros Hi. apply vget_Some. rewrite list_lookup_fmap. by rewrite lookup_seq_lt. Qed.

Lemma KeySwitchGen_ok params dc sk skN E A q :
  m_n params = GetLength sk -> m_N params = GetLength skN -> m_qKS params = q ->
  vec_wf sk -> vec_wf skN -> lwe_modulus (GetLength sk) q ->
  1 < m_baseKS params -> m_baseKS params ^ Z.of_nat dc < 2 ^ wbits ->
  samples_ok (GetLength sk) q E A ->
  returns (KeySwitchGen params dc sk skN E A) (fun K =>
    switching_key_ok q (m_baseKS params) dc sk skN K E).
Proof.
  intros Hn HN HQ Hsk HskN Hq HB Hw Hs. set (B := m_baseKS params) in *.
  pose proof Hq as [Hbar Hsz Hsum]. pose proof (barrett_modulus_word q Hbar) as Hq4.
  unfold KeySwitchGen. rewrite Hn, HN, HQ. fold B. rewrite digitsKS_ok, bind_Ok by done.
  destruct (SwitchModulus_ok sk q Hsk ltac:(lia) Hsz) as [-> _].
  destruct (SwitchModulus_ok skN q HskN ltac:(lia) Hsz) as [-> _].
  rewrite !bind_Ok, ComputeMu_ok, bind_Ok by done. cbn [m_data].
  fold (key_mod skN q). set (sv := mkVector (key_mod sk q) q).
  change (mkVector (map (fun x => centered (m_modulus sk) x mod q) (m_data sk)) q) with sv.
  destruct (key_mod_wf sk q ltac:(lia)) as [Lk Rk]. destruct (key_mod_wf skN q ltac:(lia)) as [LkN RkN].
  set (P := fun i j k b => 0 <= b < q /\ b - dot (GetLength sk) (m_data (A i j k)) (key_mod sk q)
    ==[q] key_mod skN q !!! i * (Z.of_nat j * B ^ Z.of_nat k) + E i j k).
  set (P2 := fun i j R2 => forall k, (k < dc)%nat -> exists b, vget R2 k = Ok b /\ P i j k b).
  set (P1 := fun i R1 => forall j, (j < Z.to_nat B)%nat -> exists R2, vget R1 j = Ok R2 /\ P2 i j R2).
  eapply (returns_bind _ _ (fun R => forall i, (i < GetLength skN)%nat ->
    exists R1, vget R i = Ok R1 /\ P1 i R1)).
  { apply returns_Ok, (vmapM_seq _ P1). intros i Hi. apply returns_Ok, (vmapM_seq _ (P2 i)).
    intros j Hj. apply returns_Ok, (vmapM_seq _ (P i j)). intros k Hk.
    rewrite (vget_at (key_mod skN q)), bind_Ok, vget_map_seq, bind_Ok by lia.
    destruct (Hs i j k) as (He & Ha & Hma & Hla).
    assert (0 <= B ^ Z.of_nat k) by (apply Z.pow_nonneg; lia).
    assert (B ^ Z.of_nat k * B <= B ^ Z.of_nat dc) as Hkd.
    { rewrite Z.mul_comm, <- Z.pow_succ_r by lia. apply Z.pow_le_mono_r; lia. }
    assert (1 <= B ^ Z.of_nat k) by (pose proof (Z.pow_pos_nonneg B (Z.of_nat k)); lia).
    apply (KeySwitchGen_entry_ok (GetLength sk) q sv); try done; try lia;
      [apply entry_range; [done | lia] | nia | nia]. }
  intros R HR. cbn [returns]. intros i d j Hi Hd Hj.
  destruct (HR i Hi) as (R1 & E1 & H1). destruct (H1 d ltac:(lia)) as (R2 & E2 & H2).
  destruct (H2 j Hj) as (b & E3 & Rb & Hb). destruct (Hs i d j) as (He & Ha & Hma & Hla).
  exists (A i d j), b. unfold index3. cbn [m_keyA m_keyB].
  rewrite vget_map_seq, bind_Ok, vget_map_seq, bind_Ok, vget_map_seq, E1, bind_Ok, E2, bind_Ok by lia.
  split; [done|]. split; [done|]. split; [done|]. split; [rewrite <- Hma; apply Ha|]. by split.
Qed.

(** [C32] Generating a switching key and switching a ciphertext with it returns a well-
    formed ciphertext whose phase under the new key is the phase of the original
    under the old key minus the sum of the errors of the key entries that its digits
    select. *)
Theorem KeySwitch_phase params dc sk skN E A ct q :
  m_n params = GetLength sk -> m_N params = GetLength skN -> m_qKS params = q ->
  vec_wf sk -> vec_wf skN -> lwe_modulus (GetLength sk) q ->
  1 < m_baseKS params < 2 ^ wbits -> q <= m_baseKS params ^ Z.of_nat dc < 2 ^ wbits ->
  samples_ok (GetLength sk) q E A -> ct_wf (GetLength skN) q ct ->
  returns (K ← KeySwitchGen params dc sk skN E A; KeySwitch params dc K ct) (fun ct' =>
    ct_wf (GetLength sk) q ct' /\
    phase sk ct' ==[q] phase skN ct - switching_error E (m_baseKS params) dc ct (GetLength skN)).
Proof.
  intros Hn HN HQ Hsk HskN Hq HB Hdc Hs Hct.
  eapply returns_bind; [apply (KeySwitchGen_ok params dc sk skN E A q); done || lia|].
  intros K HK. apply (KeySwitch_ok params dc sk skN K E ct q); done || lia.
Qed.
End Facts.

(** ** Parameters and guards *)

(** Copies lose the modulus of key switching, and the comparison does not see
    it. *)
Theorem LWECryptoParams_copy_loses_qKS rhs :
  m_qKS rhs <> 0 ->
  m_qKS (LWECryptoParams_copy rhs) = 0 /\ LWECryptoParams_copy rhs <> rhs /\
  LWECryptoParams_eqb (LWECryptoParams_copy rhs) rhs = true.
Proof.
  intros H. split; [done|]. split; [intros E; apply H; by rewrite <- E|].
  unfold LWECryptoParams_eqb. simpl. by rewrite !Nat.eqb_refl, !Z.eqb_refl.
Qed.

(** The test that the plaintext modulus divides the ciphertext modulus never
    throws; with other moduli a message can decrypt to another one, without any
    noise. *)
Theorem divisibility_not_enforced :
  (forall q p, 0 < p -> divisibility_guard q p = Ok tt) /\
  (ct ← @Encrypt W64 (mkVector [1; 0] 10) 3 4 10 0 (mkVector [2; 7] 10);
   @Decrypt W64 (mkVector [1; 0] 10) ct 4) = Ok 2.
Proof. split; [intros; by apply guard_ok | vm_compute; reflexivity]. Qed.

(** ** Witnesses: two coefficients modulo 1024, four messages *)

Definition key2 : NativeVectorT := mkVector [1; 1023] 1024.
Definition mask2 : NativeVectorT := mkVector [5; 700] 1024.
Definition params2 : LWECryptoParams := mkParams 2 2 1024 1024 1024 1 1 32.
Definition ct2 : LWECiphertextImpl := mkCiphertext (mkVector [100; 900] 1024) 77.

Lemma wf1024 d : Forall (fun x => 0 <= x < 1024) d -> @vec_wf W64 (mkVector d 1024).
Proof. intros H. split; simpl; [lia | by vm_compute | done]. Qed.

Lemma key2_wf : @vec_wf W64 key2.
Proof. apply wf1024. repeat constructor; lia. Qed.

Lemma mask2_wf : @vec_wf W64 mask2.
Proof. apply wf1024. repeat constructor; lia. Qed.

Lemma lwe1024 : @lwe_modulus W64 2 1024.
Proof. split; [split; word64 | by vm_compute | word64]. Qed.

Lemma decrypt1024 : @decrypt_ok W64 2 1024 4.
Proof. split; [apply lwe1024 | lia | word64 | by exists 128]. Qed.

Lemma ct2_wf : @ct_wf W64 2 1024 ct2.
Proof. split; simpl; [apply wf1024; repeat constructor; lia | done | done | lia]. Qed.


Lemma Decrypt_small_noise_witness : @Decrypt W64 key2 (mkCiphertext mask2 90) 4 = Ok 3.
Proof.
  apply (Decrypt_small_noise (W := W64) key2 (mkCiphertext mask2 90) 1024 4 3 17);
    [apply key2_wf | split; simpl; [apply mask2_wf | done | done | lia] | apply decrypt1024 | lia | lia
    | constructor; vm_compute; reflexivity].
Defined.

Lemma EvalAdd_EvalSub_phase_witness :
  returns (@EvalAddEq W64 ct2 (mkCiphertext mask2 90)) (fun ct =>
    phase key2 ct ==[1024] phase key2 ct2 + phase key2 (mkCiphertext mask2 90)).
Proof.
  eapply returns_mono.
  - apply (EvalAdd_EvalSub_phase (W := W64) 2 1024); [apply ct2_wf|].
    split; simpl; [apply mask2_wf | done | done | lia].
  - intros ct [_ H]. apply H. reflexivity.
Defined.

Lemma EvalConst_phase_witness :
  phase key2 (@EvalAddConstEq W64 ct2 256) ==[1024] phase key2 ct2 + 256.
Proof.
  assert (0 <= 256 < 1024) as H by lia.
  exact (proj1 (proj2 (EvalConst_phase (W := W64) 2 1024 ct2 256 ct2_wf H)) key2).
Defined.

Lemma EvalNOT_phase_witness :
  returns (@EvalNOT W64 ct2) (fun ct => phase key2 ct ==[1024] 256 - phase key2 ct2).
Proof.
  eapply returns_mono; [apply (EvalNOT_phase (W := W64) 2 1024 ct2 ct2_wf)|].
  intros ct [_ H]. apply H. reflexivity.
Defined.

Lemma KeySwitch_phase_witness :
  returns (K ← @KeySwitchGen W64 params2 2 key2 key2 (fun _ _ _ => 3) (fun _ _ _ => mask2);
           @KeySwitch W64 params2 2 K ct2) (fun ct' =>
    phase key2 ct' ==[1024] phase key2 ct2 - switching_error (fun _ _ _ => 3) 32 2 ct2 2).
Proof.
  eapply returns_mono.
  - apply (KeySwitch_phase (W := W64) params2 2 key2 key2 (fun _ _ _ => 3) (fun _ _ _ => mask2) ct2 1024);
      [reflexivity | reflexivity | reflexivity | apply key2_wf | apply key2_wf | apply lwe1024
      | simpl; word64 | simpl; word64 | | apply ct2_wf].
    intros i j k. split; [lia|]. split; [apply mask2_wf | done].
  - intros ct' [_ H]. exact H.
Defined.
