(* ===== verification/NbTheory.v ===== *)
(** * Number theory

    Models src/core/lib/math/nbtheory.cpp, instantiated at [NativeInteger] and
    [NativeVector], and src/core/lib/math/nbtheory2.cpp. The values of
    [std::uniform_int_distribution] on the library's generator are the function
    [dist]: [dist c bound] is the value of the draw number [c], between 0 and
    [bound]; an operation that draws numbers takes the number of the next draw
    and returns the one after its last draw. Loops whose number of turns is not
    known beforehand take fuel: [rfuel] bounds the turns of the rejection
    sampling in [RNG], [fuel] those of the other searches. *)
From stdpp Require Import base numbers list.
From Stdlib Require Import ZArith Lia.
From S2P Require Import Prelude Bits NativeInt NativeIntProps NativeVector.
Open Scope Z_scope.

Section Definitions.
Context `{W : NativeWidth}.

(** ** Greatest common divisors, inverses, totients *)

Fixpoint GreatestCommonDivisor_loop (fuel : nat) (m_a m_b : Z) : outcome Z :=
  match fuel with
  | O => OutOfFuel
  | S fuel =>
      if negb (m_b =? 0) then
        let m_t := m_b in
        m_b ← Mod m_a m_b;
        let m_a := m_t in
        GreatestCommonDivisor_loop fuel m_a m_b
      else Ok m_a
  end.
Definition GreatestCommonDivisor (a b : Z) : outcome Z :=
  GreatestCommonDivisor_loop (Z.to_nat (2 * wbits + 2)) a b.

(** [ModInverse(usint a, usint b)]: all variables are unsigned 32-bit. *)
Fixpoint ModInverse_usint_loop (fuel : nat) (a b x0 x1 : Z) : outcome Z :=
  match fuel with
  | O => OutOfFuel
  | S fuel =>
      if a >? 1 then
        q ← udiv a b;
        let t := b in
        b ← umod a b;
        let a := t in
        let t := x0 in
        let x0 := u32 (x1 - u32 (q * x0)) in
        let x1 := t in
        ModInverse_usint_loop fuel a b x0 x1
      else Ok x1
  end.
Definition ModInverse_usint (a b : Z) : outcome Z :=
  if b =? 1 then Ok 1 else ModInverse_usint_loop 66 a b 0 1.

(** The loop [for (i = 1; i < n; i = i + 1)] of [GetTotientList]. *)
Definition GetTotientList (n : Z) : outcome (list Z) :=
  for_range 1 (Z.to_nat n) (fun i result =>
    g ← GreatestCommonDivisor (Z.of_nat i) n;
    Ok (if g =? 1 then result ++ [Z.of_nat i] else result)) [].

(** ** Primality *)

Fixpoint WitnessFunction_loop (n : nat) (p mod_ : Z) : outcome bool :=
  match n with
  | O => Ok (negb (mod_ =? 1))
  | S n =>
      let prevMod := negb (mod_ =? 1) && negb (mod_ =? Sub p 1) in
      mod_ ← ModMulFastEq mod_ mod_ p;
      if (mod_ =? 1) && prevMod then Ok true
      else WitnessFunction_loop n p mod_
  end.
Definition WitnessFunction (a d : Z) (s : nat) (p : Z) : outcome bool :=
  mod_ ← ModExp a d p;
  WitnessFunction_loop s p mod_.

(** [while (d.Mod(2) == 0) { d.DividedByEq(2); s++; }] *)
Fixpoint odd_part (fuel : nat) (d : Z) (s : nat) : outcome (Z * nat) :=
  match fuel with
  | O => OutOfFuel
  | S fuel =>
      r ← Mod d 2;
      if r =? 0 then
        d ← DividedByEq d 2;
        odd_part fuel d (S s)
      else Ok (d, s)
  end.

Section Random.
Context (dist : nat -> Z -> Z) (rfuel : nat).

(** ** Random numbers *)

Definition chunk_width : Z := 32.
Definition chunk_max : Z := 2 ^ 32 - 1.

(** The body of the [do] loop of [RNG]: one candidate. *)
Definition RNG_candidate (modulus : Z) (c : nat) : outcome (Z * nat) :=
  let modulusWidth := GetMSB modulus in
  let chunksPerValue := u32 (modulusWidth - 1) / chunk_width in
  rc ← for_range 0 (Z.to_nat chunksPerValue) (fun i '(result, c) =>
         let temp := wrap (dist c chunk_max) in
         temp ← LShiftEq temp (Z.of_nat i * chunk_width);
         Ok (AddEq result temp, S c)) (0, c);
  let '(result, c) := rc in
  temp ← RShift modulus (chunksPerValue * chunk_width);
  if negb (GetMSB temp =? 1) then
    let bound := u32 temp in
    let temp := wrap (dist c bound) in
    temp ← LShiftEq temp (chunksPerValue * chunk_width);
    Ok (AddEq result temp, S c)
  else Ok (result, c).

Fixpoint RNG_loop (fuel : nat) (modulus : Z) (c : nat) : outcome (Z * nat) :=
  match fuel with
  | O => OutOfFuel
  | S fuel =>
      rc ← RNG_candidate modulus c;
      let '(result, c) := rc in
      if result >? modulus then RNG_loop fuel modulus c else Ok (result, c)
  end.
Definition RNG (modulus : Z) (c : nat) : outcome (Z * nat) := RNG_loop rfuel modulus c.

(** ** The Miller-Rabin test *)

(** The [for] loop of the test. *)
Fixpoint MillerRabin_rounds (niter : nat) (c : nat) (p d : Z) (s : nat) (composite : bool)
    : outcome (bool * nat) :=
  match niter with
  | O => Ok (composite, c)
  | S niter =>
      rc ← RNG (Sub p 3) c;
      let '(r, c) := rc in
      a ← ModAdd r 2 p;
      composite ← WitnessFunction a d s p;
      if (composite : bool) then Ok (true, c)
      else MillerRabin_rounds niter c p d s false
  end.

Definition MillerRabinPrimalityTest (p : Z) (niter : nat) (c : nat) : outcome (bool * nat) :=
  p2 ← Mod p 2;
  if (p <? 2) || (negb (p =? 2) && (p2 =? 0)) then Ok (false, c)
  else if (p =? 2) || (p =? 3) || (p =? 5) then Ok (true, c)
  else
    ds ← odd_part (Z.to_nat (wbits + 1)) (Sub p 1) 0;
    let '(d, s) := ds in
    r ← MillerRabin_rounds niter c p d s true;
    let '(composite, c) := r in
    Ok (negb composite, c).

(** The default number of rounds in nbtheory.h. *)
Definition default_rounds : nat := 100.

(** ** Factorization *)

Fixpoint PollardRho_loop (fuel : nat) (n mu c x xx : Z) : outcome Z :=
  match fuel with
  | O => OutOfFuel
  | S fuel =>
      x ← (y ← ModMul_mu x x n mu; ModAdd_mu y c n mu);
      xx ← (y ← ModMul_mu xx xx n mu; ModAdd_mu y c n mu);
      xx ← (y ← ModMul_mu xx xx n mu; ModAdd_mu y c n mu);
      divisor ← GreatestCommonDivisor (if x >? xx then Sub x xx else Sub xx x) n;
      if divisor =? 1 then PollardRho_loop fuel n mu c x xx else Ok divisor
  end.
Definition PollardRhoFactorization (fuel : nat) (n : Z) (ctr : nat) : outcome (Z * nat) :=
  rc ← RNG n ctr;
  let '(c, ctr) := rc in
  rx ← RNG n ctr;
  let '(x, ctr) := rx in
  let xx := x in
  r ← Mod n 2;
  if r =? 0 then Ok (2, ctr)
  else
    mu ← ComputeMu n;
    divisor ← PollardRho_loop fuel n mu c x xx;
    Ok (divisor, ctr).

(** [std::set::insert] on an ordered list without repetitions. *)
Fixpoint set_insert (x : Z) (s : list Z) : list Z :=
  match s with
  | [] => [x]
  | y :: s' => if x <? y then x :: s else if x =? y then s else y :: set_insert x s'
  end.

Fixpoint PrimeFactorize (fuel : nat) (n : Z) (primeFactors : list Z) (c : nat)
    : outcome (list Z * nat) :=
  match fuel with
  | O => OutOfFuel
  | S fuel =>
      if (n =? 0) || (n =? 1) then Ok (primeFactors, c)
      else
        t ← MillerRabinPrimalityTest n default_rounds c;
        let '(prime_, c) := t in
        if (prime_ : bool) then Ok (set_insert n primeFactors, c)
        else
          dv ← PollardRhoFactorization fuel n c;
          let '(divisor, c) := dv in
          r ← PrimeFactorize fuel divisor primeFactors c;
          let '(primeFactors, c) := r in
          n ← DividedByEq n divisor;
          PrimeFactorize fuel n primeFactors c
  end.

Definition GetTotient (fuel : nat) (n : Z) (c : nat) : outcome (Z * nat) :=
  let enn := wrap n in
  r ← PrimeFactorize fuel enn [] c;
  let '(factors, c) := r in
  let '(numerator, primeProd) :=
    fold_left (fun '(numerator, primeProd) r => (Mul numerator (Sub r 1), Mul primeProd r))
      factors (1, 1) in
  t ← DividedBy enn primeProd;
  Ok (Mul t numerator, c).

(** ** Generators and roots of unity *)

(** The loop over the prime factors of [FindGenerator] and [IsGenerator]: the
    number of factors passed before the first failing one. *)
Fixpoint count_factors (g qm1 q : Z) (factors : list Z) (count : nat) : outcome nat :=
  match factors with
  | [] => Ok count
  | f :: factors =>
      e ← DividedBy qm1 f;
      r ← ModExp g e q;
      if r =? 1 then Ok count else count_factors g qm1 q factors (S count)
  end.

Fixpoint FindGenerator_loop (fuel : nat) (q qm1 qm2 : Z) (factors : list Z) (c : nat)
    : outcome (Z * nat) :=
  match fuel with
  | O => OutOfFuel
  | S fuel =>
      rc ← RNG qm2 c;
      let '(r, c) := rc in
      let gen := Add r 1 in
      count ← count_factors gen qm1 q factors 0;
      if (count =? length factors)%nat then Ok (gen, c)
      else FindGenerator_loop fuel q qm1 qm2 factors c
  end.
Definition FindGenerator (fuel : nat) (q : Z) (c : nat) : outcome (Z * nat) :=
  let qm1 := Sub q 1 in
  let qm2 := Sub q 2 in
  r ← PrimeFactorize fuel qm1 [] c;
  let '(factors, c) := r in
  FindGenerator_loop fuel q qm1 qm2 factors c.

Fixpoint FindGeneratorCyclic_loop (fuel : nat) (q phi_q phi_q_m1 : Z) (factors : list Z)
    (c : nat) : outcome (Z * nat) :=
  match fuel with
  | O => OutOfFuel
  | S fuel =>
      rc ← RNG phi_q_m1 c;
      let '(r, c) := rc in
      let gen := Add r 1 in
      g ← GreatestCommonDivisor gen q;
      if negb (g =? 1) then FindGeneratorCyclic_loop fuel q phi_q phi_q_m1 factors c
      else
        count ← count_factors gen phi_q q factors 0;
        if (count =? length factors)%nat then Ok (gen, c)
        else FindGeneratorCyclic_loop fuel q phi_q phi_q_m1 factors c
  end.
Definition FindGeneratorCyclic (fuel : nat) (q : Z) (c : nat) : outcome (Z * nat) :=
  t ← GetTotient fuel q c;
  let '(phi, c) := t in
  let phi_q := wrap phi in
  t ← GetTotient fuel q c;
  let '(phi', c) := t in
  let phi_q_m1 := wrap phi' in
  r ← PrimeFactorize fuel phi_q [] c;
  let '(factors, c) := r in
  FindGeneratorCyclic_loop fuel q phi_q phi_q_m1 factors c.

Definition IsGenerator (fuel : nat) (g q : Z) (c : nat) : outcome (bool * nat) :=
  t ← GetTotient fuel q c;
  let '(qm1, c) := t in
  r ← PrimeFactorize fuel (wrap qm1) [] c;
  let '(factors, c) := r in
  count ← count_factors g (wrap qm1) q factors 0;
  Ok ((count =? length factors)%nat, c).

(** The search for the smallest primitive root among the powers of [result]
    whose exponents are in [coprimes]. *)
Fixpoint min_root (coprimes : list Z) (curPowIdx x minRU result modulo mu : Z) : outcome Z :=
  match coprimes with
  | [] => Ok minRU
  | nextPowIdx :: coprimes =>
      let diffPow := Sub nextPowIdx curPowIdx in
      x ← for_range 0 (Z.to_nat diffPow) (fun _ x => ModMulEq_mu x result modulo mu) x;
      let minRU := if (x <? minRU) && negb (x =? 1) then x else minRU in
      min_root coprimes nextPowIdx x minRU result modulo mu
  end.

Fixpoint RootOfUnity (fuel : nat) (m modulo : Z) (c : nat) : outcome (Z * nat) :=
  match fuel with
  | O => OutOfFuel
  | S fuel =>
      let M := wrap m in
      r ← Mod (Sub modulo 1) M;
      if negb (r =? 0) then Throw math_error
      else
        g ← FindGenerator fuel modulo c;
        let '(gen, c) := g in
        e ← DividedBy (Sub modulo 1) M;
        result ← ModExp gen e modulo;
        rc ← (if result =? 1 then RootOfUnity fuel m modulo c else Ok (result, c));
        let '(result, c) := rc in
        mu ← ComputeMu modulo;
        x ← ModMulEq_mu 1 result modulo mu;
        coprimes ← GetTotientList m;
        minRU ← min_root coprimes 1 x x result modulo mu;
        Ok (minRU, c)
  end.

(** The loop over the moduli. *)
Fixpoint RootsOfUnity (fuel : nat) (m : Z) (moduli : list Z) (c : nat)
    : outcome (list Z * nat) :=
  match moduli with
  | [] => Ok ([], c)
  | modulo :: moduli =>
      r ← RootOfUnity fuel m modulo c;
      let '(root, c) := r in
      rs ← RootsOfUnity fuel m moduli c;
      let '(roots, c) := rs in
      Ok (root :: roots, c)
  end.

(** ** Searching for primes *)

(** Any exception leaves [FirstPrime] as a [math_error]. *)
Definition rethrow_math_error {A} (m : outcome A) : outcome A :=
  match m with Throw _ => Throw math_error | _ => m end.

(** [while (!MillerRabin(qNew)) { qNew2 = qNew + M; if (qNew2 < qNew) throw; qNew = qNew2 }] *)
Fixpoint FirstPrime_loop (fuel : nat) (qNew M : Z) (c : nat) : outcome (Z * nat) :=
  match fuel with
  | O => OutOfFuel
  | S fuel =>
      t ← MillerRabinPrimalityTest qNew default_rounds c;
      let '(prime_, c) := t in
      if (prime_ : bool) then Ok (qNew, c)
      else
        let qNew2 := Add qNew M in
        if qNew2 <? qNew then Throw math_error else FirstPrime_loop fuel qNew2 M c
  end.
(** [qNew] is a power of two when its logarithm is taken, so [llround(log2(...))]
    of its conversion to [double] is [Z.log2], and that of [pow(2, nBits)] is
    [nBits]. *)
Definition FirstPrime (fuel : nat) (nBits m : Z) (c : nat) : outcome (Z * nat) :=
  rethrow_math_error (
    r ← ModExp 2 (wrap nBits) (wrap m);
    qNew ← LShift 1 nBits;
    if (qNew =? 0) || (Z.log2 qNew <? nBits) then Throw math_error
    else
      let qNew2 := if r >? 0 then Add (Add qNew (Sub (wrap m) r)) 1 else Add qNew 1 in
      if qNew2 <? qNew then Throw math_error
      else
        let qNew := qNew2 in
        FirstPrime_loop fuel qNew (wrap m) c).

(** [do { qNew += M; if (qNew < qOld) throw } while (!MillerRabin(qNew))] *)
Fixpoint NextPrime_loop (fuel : nat) (qOld qNew M : Z) (c : nat) : outcome (Z * nat) :=
  match fuel with
  | O => OutOfFuel
  | S fuel =>
      let qNew := AddEq qNew M in
      if qNew <? qOld then Throw math_error
      else
        t ← MillerRabinPrimalityTest qNew default_rounds c;
        let '(prime_, c) := t in
        if (prime_ : bool) then Ok (qNew, c)
        else NextPrime_loop fuel qOld qNew M c
  end.
Definition NextPrime (fuel : nat) (q m : Z) (c : nat) : outcome (Z * nat) :=
  NextPrime_loop fuel q q (wrap m) c.

(** [while (!MillerRabin(qNew)) { qNew -= M; if (qNew > q) throw }] *)
Fixpoint PreviousPrime_loop (fuel : nat) (q qNew M : Z) (c : nat) : outcome (Z * nat) :=
  match fuel with
  | O => OutOfFuel
  | S fuel =>
      t ← MillerRabinPrimalityTest qNew default_rounds c;
      let '(prime_, c) := t in
      if (prime_ : bool) then Ok (qNew, c)
      else
        let qNew := SubEq qNew M in
        if qNew >? q then Throw config_error
        else PreviousPrime_loop fuel q qNew M c
  end.
Definition PreviousPrime (fuel : nat) (q m : Z) (c : nat) : outcome (Z * nat) :=
  let M := wrap m in
  PreviousPrime_loop fuel q (Sub q M) M c.
(** ** Automorphisms of cyclotomic rings *)

(** [std::abs] of an [int32_t]. *)
Definition abs32 (i : Z) : outcome Z := if i =? - 2 ^ 31 then UB else Ok (Z.abs i).

(** [for (j = lo; j < hi; j++) g = (g * g0) % m], on [uint32_t]. *)
Definition power_loop (lo hi : Z) (g g0 m : Z) : outcome Z :=
  for_range (Z.to_nat lo) (Z.to_nat hi) (fun _ g => umod (u32 (g * g0)) m) g.

Definition FindAutomorphismIndex2n (fuel : nat) (i m : Z) (c : nat) : outcome (Z * nat) :=
  if i =? 0 then Ok (1, c)
  else
    t ← GetTotient fuel m c;
    let '(phi, c) := t in
    let n := u32 phi in
    f ← (if i <? 0 then
           f1 ← ModInverse 5 m;
           f2 ← ModInverse (wrap (u32 (m - 1))) m;
           Ok (u32 f1, u32 f2)
         else Ok (5, u32 (m - 1)));
    let '(f1, f2) := f in
    i_unsigned ← abs32 i;
    let g0 := f1 in
    g ← (if i_unsigned <? n / 2 then power_loop 1 i_unsigned f1 g0 m
         else power_loop (n / 2) i_unsigned f2 g0 m);
    Ok (g, c).

(** [n] and [i_signed] are [int32_t]; [%] truncates. *)
Definition FindAutomorphismIndexCyclic (fuel : nat) (i m g : Z) (c : nat) : outcome (Z * nat) :=
  if i =? 0 then Ok (1, c)
  else
    t ← GetTotient fuel m c;
    let '(phi, c) := t in
    let n := i32 phi in
    i_signed ← (if n =? 0 then UB else Ok (Z.rem i n));
    let i_signed := if i_signed <=? 0 then i_signed + n else i_signed in
    let i_unsigned := u32 i_signed in
    k ← power_loop 2 i_unsigned g g m;
    Ok (k, c).

(** [g * g0] is a product of two [int32_t], undefined when it overflows; its
    conversion to [uint32_t] comes before [%]. *)
Definition smul32 (x y : Z) : outcome Z :=
  if (- 2 ^ 31 <=? x * y) && (x * y <? 2 ^ 31) then Ok (x * y) else UB.
Definition FindAutomorphismIndex2nComplex (i m : Z) : outcome Z :=
  if i =? 0 then Ok 1
  else if i =? i32 (m - 1) then Ok (u32 i)
  else
    g0 ← (if i <? 0 then g ← ModInverse 5 m; Ok (i32 g) else Ok 5);
    i_unsigned ← abs32 i;
    g ← for_range 1 (Z.to_nat i_unsigned) (fun _ g =>
          p ← smul32 g g0;
          r ← umod (u32 p) m;
          Ok (i32 r)) g0;
    Ok (u32 g).
End Random.

(** [std::round(log2(x))] of a [uint32_t]: the next integer when [x] is at least
    the power of two times the square root of two. *)
Definition round_log2 (x : Z) : Z :=
  if 2 ^ (2 * Z.log2 x + 1) <=? x * x then Z.log2 x + 1 else Z.log2 x.

(** Shifts of a [uint32_t]. *)
Definition shl32 (x s : Z) : outcome Z :=
  if (0 <=? s) && (s <? 32) then Ok (u32 (Z.shiftl x s)) else UB.
Definition shr32 (x s : Z) : outcome Z :=
  if (0 <=? s) && (s <? 32) then Ok (Z.shiftr x s) else UB.

Definition PrecomputeAutoMap (n k : Z) (precomp : list Z) : outcome (list Z) :=
  m ← shl32 n 1;
  let logm := round_log2 m in
  let logn := round_log2 n in
  for_range 0 (Z.to_nat n) (fun j precomp =>
    jTmp ← (j2 ← shl32 (Z.of_nat j) 1; Ok (u32 (j2 + 1)));
    let p := u32 (jTmp * k) in
    high ← (h ← shr32 p logm; shl32 h logm);
    idx ← shr32 (u32 (p - high)) 1;
    let jrev := ReverseBits (Z.of_nat j) logn in
    let idxrev := ReverseBits idx logn in
    vset precomp (Z.to_nat jrev) idxrev) precomp.

End Definitions.
