(* ===== verification/NbPoly.v ===== *)
(** * Polynomials over a modulus and cyclotomic polynomials

    Models the polynomial functions of src/core/lib/math/nbtheory.cpp
    ([PolyMod], [PolynomialMultiplication], [GetCyclotomicPolynomial],
    [SyntheticRemainder], [SyntheticPolyRemainder], [PolynomialPower],
    [SyntheticPolynomialDivision]), instantiated at [NativeVector], and
    [GetCyclotomicPolynomialRecursive] of src/core/lib/math/nbtheory2.cpp. A
    polynomial is the vector of its coefficients, constant term first. *)
From stdpp Require Import base numbers list.
From Stdlib Require Import ZArith Lia.
From S2P Require Import Prelude Bits NativeInt NativeIntProps NativeVector.
Open Scope Z_scope.

Section Definitions.
Context `{W : NativeWidth}.

(** [v.at(i) = x]: the check of [at], then the store. *)
Definition at_set (v : NativeVectorT) (i : nat) (x : Z) : outcome NativeVectorT :=
  if negb (IndexCheck v i) then Throw math_error
  else data ← vset (m_data v) i x; Ok (mkVector data (m_modulus v)).

(** An index computed on [usint]. *)
Definition uidx (i : Z) : nat := Z.to_nat (u32 i).

(** ** Cyclotomic polynomials over the integers *)

(** The value of an [int] expression, undefined when it overflows. *)
Definition int_check (x : Z) : outcome Z :=
  if (- 2 ^ 31 <=? x) && (x <? 2 ^ 31) then Ok x else UB.

(** [v.at(i)] and [v.at(i) = x] of a [std::vector]: they throw
    [std::out_of_range]. *)
Definition std_at {A} (v : list A) (i : nat) : outcome A :=
  match v !! i with Some x => Ok x | None => Throw std_exception end.
Definition std_at_set {A} (v : list A) (i : nat) (x : A) : outcome (list A) :=
  if (i <? length v)%nat then Ok (<[i := x]> v) else Throw std_exception.

Definition IsPrime (val : nat) : bool :=
  forallb (fun i => negb (val mod i =? 0)%nat) (seq 2 (val - 2)).

Definition GetDivisibleNumbers (val : nat) : list nat :=
  filter (fun i => (val mod i = 0)%nat) (seq 1 (val - 1)).

Definition PolyMult (a b : list Z) : outcome (list Z) :=
  let degreeResultant := (length a - 1 + (length b - 1))%nat in
  for_range 0 (length a) (fun i product =>
    for_range 0 (length b) (fun j product =>
      valResult ← std_at product (i + j);
      x ← std_at a i;
      y ← std_at b j;
      valMult ← int_check (x * y);
      s ← int_check (valMult + valResult);
      std_at_set product (i + j) s) product) (repeat 0 (degreeResultant + 1)).

(** Both polynomials are monic, and the divisor is not longer than the
    dividend. *)
Definition PolyQuotient (dividend divisor : list Z) : outcome (list Z) :=
  let divisorLength := length divisor in
  let dividendLength := length dividend in
  let runs := (dividendLength - divisorLength + 1)%nat in
  s ← for_range 0 runs (fun i '(runningDividend, quotient) =>
    divConst ← std_at runningDividend (dividendLength - 1);
    let divisorPtr := (divisorLength - 1)%nat in
    runningDividend ← for_range 0 (dividendLength - i - 1) (fun j rd =>
      if (j <? divisorPtr)%nat then
        x ← std_at divisor (divisorPtr - 1 - j);
        z ← std_at rd (dividendLength - 2 - j);
        xy ← int_check (x * divConst);
        r ← int_check (z - xy);
        std_at_set rd (dividendLength - 1 - j) r
      else
        z ← std_at rd (dividendLength - 2 - j);
        std_at_set rd (dividendLength - 1 - j) z) runningDividend;
    top ← std_at runningDividend (dividendLength - 1);
    quotient ← std_at_set quotient (i + 1) top;
    Ok (runningDividend, quotient)) (dividend, repeat 0 (runs + 1));
  quotient ← std_at_set (snd s) 0 1;
  Ok (removelast quotient).

Fixpoint GetCyclotomicPolynomialRecursive (fuel : nat) (m : nat) : outcome (list Z) :=
  match fuel with
  | O => OutOfFuel
  | S fuel =>
      if (m =? 1)%nat then Ok [-1; 1]
      else if (m =? 2)%nat then Ok [1; 1]
      else if IsPrime m then Ok (repeat 1 m)
      else
        let divisibleNumbers := GetDivisibleNumbers m in
        product ← foldr (fun d k product =>
                    P ← GetCyclotomicPolynomialRecursive fuel d;
                    product ← PolyMult product P;
                    k product) (fun product => Ok product) divisibleNumbers [1];
        let bigPoly := repeat 0 (m + 1) in
        bigPoly ← std_at_set bigPoly 0 (-1);
        bigPoly ← std_at_set bigPoly m 1;
        PolyQuotient bigPoly product
  end.

(** The recursion goes to proper divisors, so [m] turns are enough. *)
Definition GetCyclotomicPolynomial (m : nat) (modulus : Z) : outcome NativeVectorT :=
  intCP ← GetCyclotomicPolynomialRecursive (S m) m;
  result ← NativeVectorT_new (length intCP) modulus;
  for_range 0 (length intCP) (fun i result =>
    val ← std_at intCP i;
    if val >? -1 then at_set result i (wrap val)
    else
      val ← int_check (val * -1);
      at_set result i (Sub modulus (wrap val))) result.

(** ** Arithmetic of polynomials modulo an integer *)

(** The remainder of a division by a monic polynomial. *)
Definition PolyMod (dividend divisor : NativeVectorT) (modulus : Z) : outcome NativeVectorT :=
  let divisorLength := Z.of_nat (GetLength divisor) in
  let dividendLength := Z.of_nat (GetLength dividend) in
  result ← NativeVectorT_new (uidx (divisorLength - 1)) modulus;
  let runs := uidx (dividendLength - divisorLength + 1) in
  mu ← ComputeMu modulus;
  runningDividend ← for_range 0 runs (fun i rd =>
    divConst ← at_ rd (uidx (dividendLength - 1));
    let divisorPtr := u32 (divisorLength - 1) in
    for_range 0 (uidx (dividendLength - Z.of_nat i - 1)) (fun j rd =>
      let j := Z.of_nat j in
      if divisorPtr >? j then
        x ← at_ divisor (uidx (divisorPtr - 1 - j));
        z ← at_ rd (uidx (dividendLength - 2 - j));
        r ← ModSub_mu z (Mul x divConst) modulus mu;
        at_set rd (uidx (dividendLength - 1 - j)) r
      else
        z ← at_ rd (uidx (dividendLength - 2 - j));
        at_set rd (uidx (dividendLength - 1 - j)) z) rd) dividend;
  for_range 0 (uidx (divisorLength - 1)) (fun i result =>
    x ← at_ runningDividend (i + runs);
    at_set result i x) result.

Definition PolynomialMultiplication (a b : NativeVectorT) : outcome NativeVectorT :=
  let degreeA := u32 (Z.of_nat (GetLength a) - 1) in
  let degreeB := u32 (Z.of_nat (GetLength b) - 1) in
  let degreeResultant := u32 (degreeA + degreeB) in
  let modulus := m_modulus a in
  result ← NativeVectorT_new (uidx (degreeResultant + 1)) modulus;
  for_range 0 (GetLength a) (fun i result =>
    for_range 0 (GetLength b) (fun j result =>
      valResult ← at_ result (i + j);
      x ← at_ a i;
      y ← at_ b j;
      let valMult := Mul x y in
      r ← Mod (Add valMult valResult) modulus;
      at_set result (i + j) r) result) result.

(** [for (int i = length - 2; i > -1; i--)], Horner's rule from the top. *)
Definition SyntheticRemainder (dividend : NativeVectorT) (a modulus : Z) : outcome Z :=
  val ← at_ dividend (uidx (Z.of_nat (GetLength dividend) - 1));
  mu ← ComputeMu modulus;
  for_range 0 (GetLength dividend - 1) (fun t val =>
    let i := (GetLength dividend - 2 - t)%nat in
    x ← at_ dividend i;
    let val := Add x (Mul a val) in
    Mod_mu val modulus mu) val.

Definition SyntheticPolyRemainder (dividend aList : NativeVectorT) (modulus : Z)
    : outcome NativeVectorT :=
  result ← NativeVectorT_new (GetLength aList) modulus;
  for_range 0 (GetLength aList) (fun i result =>
    a ← at_ aList i;
    r ← SyntheticRemainder dividend a modulus;
    at_set result i r) result.

Definition PolynomialPower (input : NativeVectorT) (power : Z) : outcome NativeVectorT :=
  let finalDegree := u32 ((Z.of_nat (GetLength input) - 1) * power) in
  finalPoly ← NativeVectorT_new (uidx (finalDegree + 1)) (m_modulus input);
  x ← at_ input 0;
  finalPoly ← at_set finalPoly 0 x;
  for_range 1 (GetLength input) (fun i finalPoly =>
    x ← at_ input i;
    at_set finalPoly (uidx (Z.of_nat i * power)) x) finalPoly.

(** [for (int i = n - 1; i > 0; i--)]; [n] is a [usint], so [n - 1] wraps for a
    constant dividend and the store throws. *)
Definition SyntheticPolynomialDivision (dividend : NativeVectorT) (a modulus : Z)
    : outcome NativeVectorT :=
  let n := u32 (Z.of_nat (GetLength dividend) - 1) in
  result ← NativeVectorT_new (Z.to_nat n) modulus;
  mu ← ComputeMu modulus;
  top ← at_ dividend (Z.to_nat n);
  result ← at_set result (uidx (n - 1)) top;
  s ← for_range 0 (Z.to_nat (n - 1)) (fun t '(val, result) =>
        let i := (Z.to_nat (n - 1) - t)%nat in
        x ← at_ dividend i;
        let val := Add (Mul val a) x in
        val ← Mod_mu val modulus mu;
        result ← at_set result (i - 1) val;
        Ok (val, result)) (top, result);
  Ok (snd s).
End Definitions.
