(* ===== verification/NbTheoryProps.v ===== *)
(** * Number theory: theorems

    The greatest common divisor and the list of totatives, the Miller-Rabin test
    on primes (with Fermat's little theorem), the searches for primes, the
    smallest primitive root of unity, and the automorphism tables. *)
From stdpp Require Import base numbers list.
From Stdlib Require Import ZArith Znumtheory Zpow_facts Lia.
From S2P Require Import Prelude Bits NativeInt NativeIntProps NativeVector NttProps FttProps.
From S2P Require Import NbTheory.
Open Scope Z_scope.

Section Gcd.
Context `{W : NativeWidth}.

(** ** Greatest common divisors *)

Lemma GreatestCommonDivisor_loop_step n a b :
  0 < b -> GreatestCommonDivisor_loop (S n) a b = GreatestCommonDivisor_loop n b (a mod b).
Proof.
  intros Hb. change (GreatestCommonDivisor_loop (S n) a b)
    with (if negb (b =? 0) then r ← Mod a b; GreatestCommonDivisor_loop n b r else Ok a).
  rewrite (proj2 (Z.eqb_neq b 0)) by lia. simpl negb. unfold Mod. by rewrite umod_pos by lia.
Qed.

Lemma GreatestCommonDivisor_loop_ok n a b :
  0 <= a -> 0 <= b -> a * b < 2 ^ Z.of_nat n -> b <= a ->
  GreatestCommonDivisor_loop (S n) a b = Ok (Z.gcd a b).
Proof.
  revert a b. induction n as [|n IH]; intros a b Ha Hb Hf Hle;
    (destruct (Z.eq_dec b 0) as [->|Hb0];
     [simpl; by rewrite Z.gcd_0_r, Z.abs_eq by lia |]).
  - change (2 ^ Z.of_nat 0) with 1 in Hf. nia.
  - rewrite GreatestCommonDivisor_loop_step by lia.
    pose proof (mod_range a b ltac:(lia)). pose proof (halve_product a b).
    rewrite Nat2Z.inj_succ, Z.pow_succ_r in Hf by lia.
    rewrite IH by lia. by rewrite gcd_remainder by lia.
Qed.

Lemma GreatestCommonDivisor_ok a b :
  0 <= a < 2 ^ wbits -> 0 <= b < 2 ^ wbits -> GreatestCommonDivisor a b = Ok (Z.gcd a b).
Proof.
  intros Ha Hb. unfold GreatestCommonDivisor. pose proof wbits_range. pose proof dword_square.
  replace (Z.to_nat (2 * wbits + 2)) with (S (S (Z.to_nat (2 * wbits)))) by lia.
  destruct (Z.le_gt_cases b a).
  - apply GreatestCommonDivisor_loop_ok; [lia.. | | done].
    rewrite Nat2Z.inj_succ, Z.pow_succ_r, Z2Nat.id by lia. nia.
  - rewrite GreatestCommonDivisor_loop_step, Z.mod_small by lia.
    rewrite GreatestCommonDivisor_loop_ok; [by rewrite Z.gcd_comm | lia.. | | lia].
    rewrite Z2Nat.id by lia. nia.
Qed.

(** ** Inverses of 32-bit numbers *)

Lemma ModInverse_usint_loop_step n a b x0 x1 :
  1 < a -> 0 < b ->
  ModInverse_usint_loop (S n) a b x0 x1
  = ModInverse_usint_loop n b (a mod b) (u32 (x1 - u32 (a / b * x0))) x0.
Proof.
  intros Ha Hb. change (ModInverse_usint_loop (S n) a b x0 x1) with
    (if a >? 1 then
       q ← udiv a b; r ← umod a b;
       ModInverse_usint_loop n b r (u32 (x1 - u32 (q * x0))) x0
     else Ok x1).
  rewrite Z.gtb_ltb, (proj2 (Z.ltb_lt 1 a)) by done. by rewrite udiv_pos, umod_pos by done.
Qed.

(** The coefficients are those of the signed algorithm, modulo [2 ^ 32]. *)
Lemma ModInverse_usint_loop_ok M v n : forall a b x y,
  egcd_inv M v a b x y -> a * b < 2 ^ Z.of_nat n ->
  exists r, ModInverse_usint_loop (S n) a b (u32 y) (u32 x) = Ok (u32 r) /\
    r * v ==[M] 1 /\ - M < r < M.
Proof.
  induction n as [|n IH]; intros a b x y Hinv Hfuel; destruct (Z.le_gt_cases a 1) as [Ha1|Ha1].
  1,3: exists x; destruct Hinv as [? ? ? Hx ? (s & X & Y & Hs & -> & -> & HX & HY & E)];
    assert (a = 1) as -> by lia; split; [done|]; split; [done | destruct Hs; subst s; lia].
  all: assert (0 < b) as Hb
    by (destruct (Z.eq_dec b 0) as [->|]; [|destruct Hinv; lia];
        destruct Hinv as [? ? Hg]; rewrite Z.gcd_0_r, Z.abs_eq in Hg by lia; lia).
  1: { exfalso. change (2 ^ Z.of_nat 0) with 1 in Hfuel. destruct Hinv. nia. }
  pose proof (egcd_md _ _ _ _ _ _ Hinv).
  destruct (egcd_step _ _ _ _ _ _ Hinv Ha1 Hb) as (Hinv' & _).
  rewrite ModInverse_usint_loop_step by done.
  assert (u32 (u32 x - u32 (a / b * u32 y)) = u32 (x - a / b * y)) as ->.
  { apply (eqmod_elim (2 ^ 32)). unfold u32. by rewrite !eqmod_mod. }
  apply IH; [done|]. pose proof (halve_product a b).
  rewrite Nat2Z.inj_succ, Z.pow_succ_r in Hfuel by lia. lia.
Qed.

(** The 32-bit ModInverse of coprime numbers returns the Bezout coefficient x of
    a, as an unsigned number: the inverse when x is not negative and x + 2^32, which
    is not reduced modulo b, otherwise. *)
Theorem ModInverse_usint_coefficient a b :
  0 < a < 2 ^ 32 -> 1 < b < 2 ^ 32 -> Z.gcd a b = 1 ->
  returns (ModInverse_usint a b) (fun r =>
    exists x, x * a ==[b] 1 /\ - b < x < b /\ r = if x <? 0 then x + 2 ^ 32 else x).
Proof.
  intros Ha Hb Hg. unfold ModInverse_usint. rewrite (proj2 (Z.eqb_neq b 1)) by lia.
  assert (exists r, ModInverse_usint_loop 66 a b 0 1 = Ok (u32 r) /\ r * a ==[b] 1 /\ - b < r < b)
    as (x & -> & E & Hx).
  - destruct (Z.le_gt_cases a 1).
    { exists 1. assert (a = 1) as -> by lia. split; [done|]. split; [done | lia]. }
    rewrite ModInverse_usint_loop_step by lia. rewrite Z.mul_0_r. pose proof (mod_range a b ltac:(lia)).
    apply (ModInverse_usint_loop_ok b a 64 b (a mod b) 0 1); [|change (Z.of_nat 64) with 64; nia].
    split; [lia | lia | by rewrite gcd_remainder by lia | | by rewrite Z.mul_1_l, eqmod_mod |].
    + rewrite Z.mul_0_l. symmetry. apply eqmod_0_divide; [lia|]. done.
    + exists 1, 0, 1. lia.
  - exists x. split; [done|]. split; [done|]. destruct (Z.ltb_spec x 0).
    + unfold u32. rewrite <- (Z_mod_plus_full x 1), Z.mul_1_l, Z.mod_small; lia.
    + apply u32_small. lia.
Qed.

(** The numbers below [n] that are prime to it. *)
Definition coprimes_below (n : Z) : list Z :=
  filter (fun i => Z.gcd i n = 1) (map Z.of_nat (seq 1 (Z.to_nat n - 1))).

Lemma GetTotientList_ok n : 0 <= n < 2 ^ wbits -> GetTotientList n = Ok (coprimes_below n).
Proof.
  intros Hn. unfold GetTotientList.
  destruct (decide (n = 0)) as [->|]; [done|].
  pose proof (for_range_exact (fun i => filter (fun i => Z.gcd i n = 1)
    (map Z.of_nat (seq 1 (i - 1)))) 1 (Z.to_nat n)
    (fun i result => g ← GreatestCommonDivisor (Z.of_nat i) n;
       Ok (if g =? 1 then result ++ [Z.of_nat i] else result)) ltac:(lia)) as H.
  cbv beta in H. simpl (seq 1 (1 - 1)) in H. simpl in H. apply H. clear H.
  intros i Hi. rewrite GreatestCommonDivisor_ok, bind_Ok by lia. f_equal.
  replace (i - 0)%nat with (S (i - 1)) by lia. rewrite seq_S, map_app, filter_app. simpl.
  replace (S (i - 1)) with i by lia. unfold filter at 4. simpl.
  destruct (Z.eqb_spec (Z.gcd (Z.of_nat i) n) 1); destruct (decide _); try done.
  by rewrite app_nil_r.
Qed.

(** GreatestCommonDivisor terminates and returns the greatest common divisor of
    any two words, and GetTotientList lists exactly the numbers below n that are
    prime to n. *)
Theorem GreatestCommonDivisor_GetTotientList a b n :
  0 <= a < 2 ^ wbits -> 0 <= b < 2 ^ wbits -> 0 <= n < 2 ^ wbits ->
  GreatestCommonDivisor a b = Ok (Z.gcd a b) /\
  GetTotientList n = Ok (coprimes_below n) /\
  forall i, i ∈ coprimes_below n <-> 1 <= i < n /\ Z.gcd i n = 1.
Proof.
  intros Ha Hb Hn. split; [by apply GreatestCommonDivisor_ok|]. split; [by apply GetTotientList_ok|].
  intros i. unfold coprimes_below. rewrite list_elem_of_filter, list_elem_of_fmap. split.
  - intros (Hg & j & -> & Hj). apply elem_of_seq in Hj. lia.
  - intros [Hi Hg]. split; [done|]. exists (Z.to_nat i). split; [lia|]. apply elem_of_seq. lia.
Qed.
End Gcd.

(** ** Fermat's little theorem *)

Section Fermat.
Context (p : Z) (Hp : Z.prime p).

Lemma prime_gt_1 : 1 < p.
Proof. destruct Hp. lia. Qed.

Lemma prime_cancel x y : (p | x * y) -> ~ (p | x) -> (p | y).
Proof. intros H Hx. apply Z.divide_prime_mul in H as [|]; done. Qed.

Lemma residue_not_divisible x : 0 < x < p -> ~ (p | x).
Proof. intros Hx H. apply Z.divide_pos_le in H; lia. Qed.

Definition residues : list Z := map Z.of_nat (seq 1 (Z.to_nat (p - 1))).

Lemma elem_of_residues x : x ∈ residues <-> 0 < x < p.
Proof.
  unfold residues. rewrite list_elem_of_fmap. pose proof prime_gt_1. split.
  - intros (i & -> & Hi). apply elem_of_seq in Hi. lia.
  - intros Hx. exists (Z.to_nat x). split; [lia|]. apply elem_of_seq. lia.
Qed.

Lemma length_residues : Z.of_nat (length residues) = p - 1.
Proof. pose proof prime_gt_1. unfold residues. rewrite length_map, length_seq. lia. Qed.

Definition prod (l : list Z) : Z := foldr Z.mul 1 l.

Lemma prod_permutation l l' : l ≡ₚ l' -> prod l = prod l'.
Proof. induction 1; simpl; lia. Qed.

Lemma prod_not_divisible l : Forall (fun x => ~ (p | x)) l -> ~ (p | prod l).
Proof.
  induction 1 as [|x l Hx _ IH]; simpl; intros H.
  - apply Z.divide_pos_le in H; pose proof prime_gt_1; lia.
  - by apply IH, (prime_cancel x).
Qed.

Lemma prod_scale a l :
  prod (map (fun x => (a * x) mod p) l) ==[p] a ^ Z.of_nat (length l) * prod l.
Proof.
  induction l as [|x l IH]; [done|].
  change (((a * x) mod p) * prod (map (fun x => (a * x) mod p) l)
    ==[p] a ^ Z.of_nat (S (length l)) * (x * prod l)).
  rewrite IH, eqmod_mod, Nat2Z.inj_succ, Z.pow_succ_r by lia. apply eqmod_eq. ring.
Qed.

(** Multiplication by a unit permutes the nonzero residues. *)
Lemma residues_scaled a : ~ (p | a) -> map (fun x => (a * x) mod p) residues ≡ₚ residues.
Proof.
  intros Ha. pose proof prime_gt_1. apply submseteq_length_Permutation.
  - apply NoDup_submseteq.
    + apply NoDup_fmap_2_strong.
      * intros x y Hx Hy E. apply elem_of_residues in Hx, Hy. apply (eqmod_small p); [lia..|].
        apply eqmod_divide; [lia|]. apply (prime_cancel a); [|done].
        rewrite Z.mul_sub_distr_l. apply eqmod_divide; [lia|]. by constructor.
      * apply NoDup_fmap_2; [apply _ | apply NoDup_seq].
    + intros x Hx. apply list_elem_of_fmap in Hx as (y & -> & Hy). apply elem_of_residues in Hy.
      apply elem_of_residues. pose proof (mod_range (a * y) p ltac:(lia)).
      assert ((a * y) mod p ≠ 0); [|lia]. intros E. apply Z.mod_divide in E; [|lia].
      apply prime_cancel in E; [|done]. by apply residue_not_divisible in E.
  - by rewrite length_map.
Qed.

Lemma fermat_little a : ~ (p | a) -> a ^ (p - 1) ==[p] 1.
Proof.
  intros Ha. pose proof prime_gt_1.
  assert (a ^ (p - 1) * prod residues ==[p] 1 * prod residues) as E.
  { pose proof (prod_scale a residues) as S.
    rewrite length_residues in S.
    rewrite <- S, Z.mul_1_l. apply eqmod_eq. by apply prod_permutation, residues_scaled. }
  apply eqmod_divide in E; [|lia]. rewrite <- Z.mul_sub_distr_r in E.
  apply eqmod_divide; [lia|]. rewrite Z.mul_comm in E. apply prime_cancel in E; [done|].
  apply prod_not_divisible, Forall_forall. intros x Hx. apply elem_of_residues in Hx.
  by apply residue_not_divisible.
Qed.

Lemma square_root_of_one x : x * x ==[p] 1 -> x ==[p] 1 \/ x ==[p] -1.
Proof.
  intros H. pose proof prime_gt_1. rewrite eqmod_divide in H by lia.
  replace (x * x - 1) with ((x - 1) * (x - -1)) in H by ring.
  rewrite !eqmod_divide by lia. by apply Z.divide_prime_mul.
Qed.
End Fermat.

(** ** Random numbers *)

(** What the library relies on of [std::uniform_int_distribution] on its
    generator: values in range, and, for the rejection sampling, that among any
    [n] successive draws at distance two one is below its bound. *)
Class UniformSource (dist : nat -> Z -> Z) (n : nat) : Prop := {
  dist_range c b : 0 <= b -> 0 <= dist c b <= b;
  dist_below c b : 0 < b -> exists j, (j < n)%nat /\ dist (c + 2 * j)%nat b < b
}.

Section Random.
Context `{W : NativeWidth}.
Context (dist : nat -> Z -> Z) (rfuel : nat) `{HU : UniformSource dist rfuel}.

Lemma GetMSB_one x : 0 < x -> GetMSB x = 1 <-> x = 1.
Proof.
  intros Hx. rewrite GetMSB_log2 by done. split; [|by intros ->]. intros E.
  pose proof (Z.log2_spec x Hx) as H. replace (Z.log2 x) with 0 in H by lia. simpl in H. lia.
Qed.

Lemma chunks_small m : 0 < m < 2 ^ 32 -> u32 (GetMSB m - 1) / chunk_width = 0.
Proof.
  intros Hm. rewrite GetMSB_log2 by lia.
  assert (Z.log2 m < 32) by (apply Z.log2_lt_pow2; lia). pose proof (Z.log2_nonneg m).
  unfold chunk_width. rewrite u32_small by lia. apply Z.div_small. lia.
Qed.

Lemma chunks_large m : 2 ^ 32 <= m < 2 ^ wbits -> u32 (GetMSB m - 1) / chunk_width = 1.
Proof.
  intros Hm. pose proof wbits_range. rewrite GetMSB_log2 by lia.
  assert (32 <= Z.log2 m) by (apply Z.log2_le_pow2; lia).
  assert (Z.log2 m < wbits) by (apply Z.log2_lt_pow2; lia).
  unfold chunk_width. rewrite u32_small by lia. symmetry. apply Z.div_unique with (Z.log2 m - 32); lia.
Qed.

(** One candidate for a modulus of one chunk: it is accepted. *)
Lemma RNG_candidate_small m c :
  0 < m < 2 ^ 32 ->
  returns (RNG_candidate dist m c) (fun '(r, c') => 0 <= r <= m /\ (c' <= S c)%nat).
Proof.
  intros Hm. unfold RNG_candidate. rewrite chunks_small by done. pose proof wbits_range.
  assert (2 ^ 32 <= 2 ^ wbits) by (apply Z.pow_le_mono_r; lia).
  change (Z.to_nat 0) with 0%nat. change (0 * chunk_width) with 0.
  unfold for_range. simpl for_n. rewrite bind_Ok. unfold RShift, LShiftEq. rewrite ushr_ok, bind_Ok, Z.pow_0_r, Z.div_1_r by lia.
  destruct (Z.eqb_spec (GetMSB m) 1); simpl negb; cbv iota; [simpl; lia|].
  rewrite u32_small by lia. pose proof (dist_range c m ltac:(lia)).
  rewrite (wrap_small (dist c m)) by lia. rewrite ushl_ok, bind_Ok, Z.pow_0_r, Z.mul_1_r by lia.
  rewrite wrap_small by lia. simpl. unfold AddEq, AddEqFast. rewrite wrap_small by lia. lia.
Qed.

(** One candidate for a modulus of two chunks. *)
Lemma RNG_candidate_large m c :
  2 ^ 32 <= m < 2 ^ wbits ->
  RNG_candidate dist m c =
    if m / 2 ^ 32 =? 1 then Ok (dist c chunk_max, S c)
    else Ok (dist c chunk_max + dist (S c) (m / 2 ^ 32) * 2 ^ 32, S (S c)).
Proof.
  intros Hm. unfold RNG_candidate. rewrite chunks_large by done. pose proof wbits_range.
  assert (wbits = 64) as Hw.
  { destruct wbits_cases as [E|E]; [rewrite E in Hm; lia | done]. }
  assert (2 ^ wbits = 2 ^ 32 * 2 ^ 32) as Ew by (by rewrite Hw).
  assert (0 < m / 2 ^ 32 < 2 ^ 32) as Ht
    by (split; [apply Z.div_str_pos; lia | apply Z.div_lt_upper_bound; lia]).
  change (Z.to_nat 1) with 1%nat. change (1 * chunk_width) with 32. unfold for_range. simpl for_n.
  pose proof (dist_range c chunk_max ltac:(done)) as D0. change chunk_max with (2 ^ 32 - 1) in *.
  unfold RShift, LShiftEq, AddEq, AddEqFast.
  rewrite (wrap_small (dist c (2 ^ 32 - 1))) by lia. change (0 * chunk_width) with 0.
  rewrite ushl_ok, Z.pow_0_r, Z.mul_1_r, bind_Ok, Z.add_0_l, !(wrap_small (dist c _)), !bind_Ok by lia.
  rewrite ushr_ok, bind_Ok by lia.
  destruct (Z.eqb_spec (m / 2 ^ 32) 1) as [E|E].
  - by rewrite E.
  - rewrite (proj2 (Z.eqb_neq (GetMSB _) 1)) by (rewrite GetMSB_one; lia). simpl negb. cbv iota zeta.
    rewrite u32_small by lia. pose proof (dist_range (S c) (m / 2 ^ 32) ltac:(lia)) as D1.
    rewrite (wrap_small (dist (S c) _)), ushl_ok, bind_Ok by lia.
    rewrite (wrap_small (_ * _)), wrap_small by nia. done.
Qed.

Lemma dist_chunk c : 0 <= dist c chunk_max < 2 ^ 32.
Proof. pose proof (dist_range c chunk_max ltac:(done)) as [? H]. split; [done|]. by apply Z.lt_succ_r in H. Qed.

Lemma RNG_loop_accept n m c r c' :
  RNG_candidate dist m c = Ok (r, c') -> r <= m -> RNG_loop dist (S n) m c = Ok (r, c').
Proof. intros E H. simpl. rewrite E, bind_Ok, Z.gtb_ltb. by rewrite (proj2 (Z.ltb_ge _ _)). Qed.

Lemma RNG_loop_large m n c :
  2 ^ 32 <= m < 2 ^ wbits -> m / 2 ^ 32 ≠ 1 ->
  (exists j, (j < n)%nat /\ dist (S c + 2 * j)%nat (m / 2 ^ 32) < m / 2 ^ 32) ->
  returns (RNG_loop dist n m c) (fun '(r, _) => 0 <= r <= m).
Proof.
  intros Hm H1. assert (0 < m / 2 ^ 32) by (apply Z.div_str_pos; lia).
  pose proof (Z.mul_div_le m (2 ^ 32) ltac:(lia)).
  revert c. induction n as [|n IH]; intros c (j & Hj & Hd); [lia|].
  pose proof (dist_chunk c) as D0.
  pose proof (dist_range (S c) (m / 2 ^ 32) ltac:(lia)) as D1.
  pose proof (RNG_candidate_large m c Hm) as E. rewrite (proj2 (Z.eqb_neq _ _) H1) in E.
  destruct (Z.le_gt_cases (dist c chunk_max + dist (S c) (m / 2 ^ 32) * 2 ^ 32) m) as [Hle|Hgt].
  - rewrite (RNG_loop_accept _ _ _ _ _ E Hle). simpl. lia.
  - simpl. rewrite E, bind_Ok, Z.gtb_ltb, (proj2 (Z.ltb_lt _ _)) by done. apply IH.
    destruct j as [|j].
    + rewrite Nat.mul_0_r, Nat.add_0_r in Hd. lia.
    + exists j. split; [lia|]. by replace (S (S (S c)) + 2 * j)%nat with (S c + 2 * S j)%nat by lia.
Qed.

Lemma RNG_ok m c :
  0 < m < 2 ^ wbits -> returns (RNG dist rfuel m c) (fun '(r, _) => 0 <= r <= m).
Proof.
  intros Hm. unfold RNG.
  assert (exists n, rfuel = S n) as [n En].
  { destruct (dist_below 0%nat 1 ltac:(lia)) as (j & Hj & _). exists (pred rfuel). lia. }
  destruct (Z.lt_ge_cases m (2 ^ 32)) as [Hs|Hl].
  - pose proof (RNG_candidate_small m c ltac:(lia)) as H.
    apply returns_Ok in H as ([r c'] & E & Hr & _). rewrite En.
    rewrite (RNG_loop_accept n m c r c' E) by lia. done.
  - destruct (Z.eq_dec (m / 2 ^ 32) 1) as [E1|E1].
    + pose proof (RNG_candidate_large m c ltac:(lia)) as E. rewrite E1, Z.eqb_refl in E.
      pose proof (dist_chunk c) as D0.
      rewrite En. rewrite (RNG_loop_accept n m c _ _ E) by lia. simpl. lia.
    + apply RNG_loop_large; [lia | done |]. apply dist_below.
      pose proof (Z.div_str_pos m (2 ^ 32)). lia.
Qed.

(** RNG returns a number between 0 and its argument as soon as a draw of the top
    chunk is below its bound; for an argument between 2^32 and 2^33 the number is
    always below 2^32, because a top chunk equal to one is not drawn. *)
Theorem RNG_in_range m c :
  0 < m < 2 ^ wbits ->
  returns (RNG dist rfuel m c) (fun '(r, _) =>
    0 <= r <= m /\ (2 ^ 32 <= m < 2 ^ 33 -> r < 2 ^ 32)).
Proof.
  intros Hm. pose proof (RNG_ok m c Hm) as H. apply returns_Ok in H as ([r c'] & E & Hr).
  rewrite E. split; [done|]. intros Hm'.
  assert (m / 2 ^ 32 = 1) as E1 by (symmetry; apply Z.div_unique with (m - 2 ^ 32); lia).
  pose proof (RNG_candidate_large m c ltac:(lia)) as Ec. rewrite E1, Z.eqb_refl in Ec.
  pose proof (dist_chunk c) as D0.
  unfold RNG in E. destruct rfuel as [|n]; [done|].
  rewrite (RNG_loop_accept n m c _ _ Ec) in E by lia. injection E as <- _. lia.
Qed.

(** ** The Miller-Rabin test *)

Lemma odd_part_ok n x s :
  0 < x < 2 ^ Z.of_nat n ->
  returns (odd_part n x s) (fun '(d, s') =>
    Z.odd d = true /\ 0 < d <= x /\ (s <= s')%nat /\ x = 2 ^ Z.of_nat (s' - s) * d).
Proof.
  revert x s. induction n as [|n IH]; intros x s Hx; [simpl in Hx; lia|].
  cbn [odd_part]. unfold Mod. rewrite umod_pos, bind_Ok by lia.
  pose proof (Z.div_mod x 2 ltac:(lia)) as D. pose proof (mod_range x 2 ltac:(lia)).
  destruct (Z.eqb_spec (x mod 2) 0) as [E|E].
  - unfold DividedByEq. simpl (2 =? 0). cbv iota. rewrite udiv_pos, bind_Ok by lia.
    rewrite Nat2Z.inj_succ, Z.pow_succ_r in Hx by lia.
    eapply returns_mono; [apply IH; lia|]. intros [d s'] (Ho & Hd & Hs & Ex).
    split; [done|]. split; [lia|]. split; [lia|].
    replace (s' - s)%nat with (S (s' - S s)) by lia. rewrite Nat2Z.inj_succ, Z.pow_succ_r by lia. lia.
  - simpl. rewrite Nat.sub_diag, Z.pow_0_r. split; [|lia].
    rewrite Zodd_mod. apply Zeq_bool_true_iff || apply Z.eqb_eq. lia.
Qed.

Section Prime.
Context (p : Z) (Hp : Z.prime p) (Hw : p < 2 ^ wbits) (H5 : 5 < p).

(** On a prime the powers reach one through minus one only. *)
Lemma WitnessFunction_loop_prime n x :
  0 <= x < p -> x ^ (2 ^ Z.of_nat n) ==[p] 1 ->
  WitnessFunction_loop n p x = Ok false.
Proof.
  revert x. induction n as [|n IH]; intros x Hx E.
  - rewrite Z.pow_1_r in E. assert (x = 1) as -> by (apply (eqmod_small p); [lia.. | done]). done.
  - change (WitnessFunction_loop (S n) p x) with
      (let prevMod := negb (x =? 1) && negb (x =? Sub p 1) in
       y ← ModMulFastEq x x p;
       if (y =? 1) && prevMod then Ok true else WitnessFunction_loop n p y).
    unfold ModMulFastEq. cbv zeta. rewrite ModMulFast_correct, bind_Ok by lia.
    unfold Sub, SubFast. rewrite (wrap_small (p - 1)) by lia.
    rewrite IH; [| apply mod_range; lia |].
    + destruct (Z.eqb_spec ((x * x) mod p) 1) as [E1|]; [|done].
      assert (x * x ==[p] 1) as E2 by (constructor; by rewrite E1, Z.mod_small by lia).
      apply square_root_of_one in E2 as [E2|E2]; [| |done].
      * assert (x = 1) as -> by (apply (eqmod_small p); [lia.. | done]). done.
      * assert (x = p - 1) as ->.
        { apply (eqmod_small p); [lia..|]. rewrite E2. constructor.
          by rewrite <- (Z_mod_plus_full (-1) 1), Z.mul_1_l, Z.add_comm. }
        by rewrite Z.eqb_refl, andb_false_r.
    + rewrite (eqmod_pow p _ _ _ (eqmod_mod p (x * x))).
      rewrite Nat2Z.inj_succ, Z.pow_succ_r, Z.pow_mul_r in E by lia. by rewrite <- Z.pow_2_r.
Qed.

Lemma WitnessFunction_prime a d s :
  1 < a < p -> 0 <= d < 2 ^ wbits -> p - 1 = 2 ^ Z.of_nat s * d ->
  WitnessFunction a d s p = Ok false.
Proof.
  intros Ha Hd E. unfold WitnessFunction. rewrite ModExp_ok, bind_Ok by lia.
  apply WitnessFunction_loop_prime; [apply mod_range; lia|].
  rewrite (eqmod_pow p _ _ _ (eqmod_mod p (a ^ d))), <- Z.pow_mul_r by lia.
  rewrite Z.mul_comm, <- E. apply fermat_little; [done|]. apply residue_not_divisible; lia.
Qed.

Lemma MillerRabin_rounds_prime niter d s c :
  0 <= d < 2 ^ wbits -> p - 1 = 2 ^ Z.of_nat s * d -> p <= 2 ^ (wbits - 1) ->
  returns (MillerRabin_rounds dist rfuel niter c p d s false) (fun '(b, _) => b = false).
Proof.
  intros Hd E Hh. revert c. induction niter as [|n IH]; intros c; [done|]. cbn [MillerRabin_rounds].
  unfold Sub, SubFast. rewrite (wrap_small (p - 3)) by lia.
  eapply returns_bind; [apply RNG_ok; lia|]. intros [r c'] Hr. cbv beta iota.
  rewrite ModAdd_correct, bind_Ok by lia.
  assert (1 < (r + 2) mod p < p) by (rewrite Z.mod_small by lia; lia).
  rewrite WitnessFunction_prime, bind_Ok by done. apply IH.
Qed.
End Prime.

Lemma MillerRabin_prime p niter c :
  Z.prime p -> p <= 2 ^ (wbits - 1) -> (0 < niter)%nat ->
  returns (MillerRabinPrimalityTest dist rfuel p niter c) (fun '(b, _) => b = true).
Proof.
  intros Hp Hh Hn. unfold MillerRabinPrimalityTest, Mod. pose proof (prime_gt_1 p Hp).
  pose proof word_half. pose proof wbits_range.
  rewrite umod_pos, bind_Ok by lia. rewrite (proj2 (Z.ltb_ge p 2)) by lia. simpl orb.
  destruct (Z.eqb_spec p 2) as [->|H2]; [done|]. simpl andb.
  destruct (Z.eqb_spec (p mod 2) 0) as [E2|_].
  { exfalso. apply Z.mod_divide in E2; [|lia]. destruct Hp as [_ Hp]. apply (Hp 2); [lia|done]. }
  destruct (Z.eqb_spec p 3) as [->|H3]; [done|]. destruct (Z.eqb_spec p 5) as [->|H5]; [done|].
  assert (5 < p) as H6.
  { assert (p ≠ 4); [|lia]. intros ->. destruct Hp as [_ Hp]. apply (Hp 2); [lia|]. by exists 2. }
  simpl orb. cbv iota. unfold Sub, SubFast. rewrite (wrap_small (p - 1)) by lia.
  eapply returns_bind.
  { apply odd_part_ok. rewrite Z2Nat.id, Z.pow_add_r by lia. lia. }
  intros [d s] (_ & Hd & _ & Ed). rewrite Nat.sub_0_r in Ed.
  destruct niter as [|n]; [lia|].
  eapply returns_bind with (P := fun '(b, _) => b = false); [|by intros [b c'] ->].
  apply (MillerRabin_rounds_prime p Hp ltac:(lia) H6 (S n)); [lia | done | done].
Qed.

(** Whatever the number tested, the test returns. *)
Lemma WitnessFunction_loop_total n p x :
  0 < p < 2 ^ wbits -> 0 <= x < p -> exists b, WitnessFunction_loop n p x = Ok b.
Proof.
  intros Hp. revert x. induction n as [|n IH]; intros x Hx; [by eexists|]. cbn [WitnessFunction_loop].
  unfold ModMulFastEq. cbv zeta. rewrite ModMulFast_correct, bind_Ok by lia.
  destruct (_ && _); [by eexists|]. apply IH, mod_range. lia.
Qed.

Lemma MillerRabin_rounds_total niter p d s b c :
  3 < p <= 2 ^ (wbits - 1) -> 0 <= d < 2 ^ wbits ->
  returns (MillerRabin_rounds dist rfuel niter c p d s b) (fun _ => True).
Proof.
  intros Hp Hd. pose proof word_half. revert b c. induction niter as [|n IH]; intros b c; [done|].
  cbn [MillerRabin_rounds]. unfold Sub, SubFast. rewrite (wrap_small (p - 3)) by lia.
  eapply returns_bind; [apply RNG_ok; lia|]. intros [r c'] Hr. cbv beta iota.
  rewrite ModAdd_correct, bind_Ok by lia. unfold WitnessFunction.
  pose proof (mod_range (r + 2) p ltac:(lia)). rewrite ModExp_ok, bind_Ok by lia.
  destruct (WitnessFunction_loop_total s p ((((r + 2) mod p) ^ d) mod p)) as [b' ->];
    [lia | apply mod_range; lia |].
  rewrite bind_Ok. destruct b'; [done | apply IH].
Qed.

Lemma MillerRabin_total p niter c :
  0 <= p <= 2 ^ (wbits - 1) ->
  returns (MillerRabinPrimalityTest dist rfuel p niter c) (fun _ => True).
Proof.
  intros Hp. pose proof word_half. pose proof wbits_range.
  unfold MillerRabinPrimalityTest, Mod. rewrite umod_pos, bind_Ok by lia.
  destruct ((p <? 2) || (negb (p =? 2) && (p mod 2 =? 0))) eqn:E1; [done|].
  destruct ((p =? 2) || (p =? 3) || (p =? 5)) eqn:E2; [done|].
  apply orb_false_iff in E1 as [H2%Z.ltb_ge E1].
  apply orb_false_iff in E2 as [[N2%Z.eqb_neq N3%Z.eqb_neq]%orb_false_iff _].
  unfold Sub, SubFast. rewrite (wrap_small (p - 1)) by lia.
  eapply returns_bind.
  { apply odd_part_ok. rewrite Z2Nat.id, Z.pow_add_r by lia. lia. }
  intros [d s] (_ & Hd & _). eapply returns_bind; [apply MillerRabin_rounds_total; lia|].
  by intros [b c'] _.
Qed.

(** The two facts together: the test returns, and accepts every prime. *)
Lemma MillerRabin_ok p niter c :
  0 <= p <= 2 ^ (wbits - 1) -> (0 < niter)%nat ->
  exists b c', MillerRabinPrimalityTest dist rfuel p niter c = Ok (b, c') /\
    (Z.prime p -> b = true).
Proof.
  intros Hp Hn. pose proof (MillerRabin_total p niter c Hp) as H.
  apply returns_Ok in H as ([b c'] & E & _). exists b, c'. split; [done|]. intros Hprime.
  pose proof (MillerRabin_prime p niter c Hprime ltac:(lia) Hn) as H. by rewrite E in H.
Qed.

(** The Miller-Rabin test returns for every number up to half the word, accepts
    every prime whatever numbers are drawn and however many rounds are made, and
    rejects numbers below two and even numbers other than two. *)
Theorem MillerRabin_never_rejects_prime p niter c :
  0 <= p <= 2 ^ (wbits - 1) -> (0 < niter)%nat ->
  returns (MillerRabinPrimalityTest dist rfuel p niter c) (fun '(b, _) =>
    (Z.prime p -> b = true) /\ (p < 2 \/ p ≠ 2 /\ (2 | p) -> b = false)).
Proof.
  intros Hp Hn. destruct (MillerRabin_ok p niter c Hp Hn) as (b & c' & E & Hb). rewrite E.
  split; [done|]. intros Hc. unfold MillerRabinPrimalityTest, Mod in E.
  rewrite umod_pos, bind_Ok in E by lia.
  assert ((p <? 2) || (negb (p =? 2) && (p mod 2 =? 0)) = true) as E1.
  { apply orb_true_iff. destruct Hc as [Hc|[Hc Hd]]; [left; by apply Z.ltb_lt | right].
    apply Z.mod_divide in Hd; [|lia]. by rewrite Hd, (proj2 (Z.eqb_neq _ _) Hc). }
  rewrite E1 in E. by injection E.
Qed.

(** ** Searching for primes *)

(** The test accepted [r]. *)
Definition accepted (r : Z) : Prop :=
  exists c1 c2, MillerRabinPrimalityTest dist rfuel r default_rounds c1 = Ok (true, c2).

(** [r] is the first of [start], [start + M], ... that the test accepted, at most
    [K] steps away, and the ones before it are composite. *)
Definition first_accepted (start M : Z) (K : nat) (r : Z) : Prop :=
  accepted r /\ exists i, (i <= K)%nat /\ r = start + Z.of_nat i * M /\
    forall j, (j < i)%nat -> ~ Z.prime (start + Z.of_nat j * M).

Lemma first_accepted_here start M K : accepted start -> first_accepted start M K start.
Proof. intros H. split; [done|]. exists 0%nat. split; [lia|]. split; [lia|]. intros. lia. Qed.

Lemma first_accepted_later start M K r :
  ~ Z.prime start -> first_accepted (start + M) M K r -> first_accepted start M (S K) r.
Proof.
  intros H0 (Ha & i & Hi & -> & Hj). split; [done|]. exists (S i). split; [lia|]. split; [lia|]. intros [|j] Hl.
  - by rewrite Z.mul_0_l, Z.add_0_r.
  - replace (start + Z.of_nat (S j) * M) with (start + M + Z.of_nat j * M) by lia. apply Hj. lia.
Qed.

Lemma FirstPrime_loop_ok K fuel q M c :
  0 <= q -> 0 <= M -> (K < fuel)%nat -> q + Z.of_nat K * M <= 2 ^ (wbits - 1) ->
  Z.prime (q + Z.of_nat K * M) ->
  returns (FirstPrime_loop dist rfuel fuel q M c) (fun '(r, _) => first_accepted q M K r).
Proof.
  intros Hq HM. pose proof word_half. pose proof word_pos. revert fuel q c Hq. induction K as [|K IH];
    intros [|fuel] q c Hq HK Hb Hp; try lia; cbn [FirstPrime_loop];
    (destruct (MillerRabin_ok q default_rounds c) as (b & c' & Et & Hb'); [nia | by apply Nat.ltb_lt |]);
    rewrite Et, bind_Ok; destruct b; try (by apply first_accepted_here; exists c, c').
  - exfalso. enough (false = true) by done. apply Hb'. by replace q with (q + Z.of_nat 0 * M) by lia.
  - assert (0 <= Z.of_nat K * M) by nia.
    unfold Add, AddFast. rewrite wrap_small by lia. rewrite (proj2 (Z.ltb_ge _ _)) by lia.
    eapply returns_mono; [apply IH; [lia.. | by replace (q + M + Z.of_nat K * M) with (q + Z.of_nat (S K) * M) by lia] |].
    intros [r _] Hr. apply first_accepted_later; [|done]. intros Hpr. by specialize (Hb' Hpr).
Qed.

Lemma NextPrime_loop_ok K fuel qOld q M c :
  0 <= qOld <= q -> 0 <= M -> (K < fuel)%nat -> q + M + Z.of_nat K * M <= 2 ^ (wbits - 1) ->
  Z.prime (q + M + Z.of_nat K * M) ->
  returns (NextPrime_loop dist rfuel fuel qOld q M c) (fun '(r, _) => first_accepted (q + M) M K r).
Proof.
  intros Hq HM. pose proof word_half. pose proof word_pos. revert fuel q c Hq. induction K as [|K IH];
    intros [|fuel] q c Hq HK Hb Hp; try lia; cbn [NextPrime_loop];
    unfold AddEq, AddEqFast; rewrite (wrap_small (q + M)) by nia; rewrite (proj2 (Z.ltb_ge _ _)) by lia;
    (destruct (MillerRabin_ok (q + M) default_rounds c) as (b & c' & Et & Hb'); [nia | by apply Nat.ltb_lt |]);
    rewrite Et, bind_Ok; destruct b; try (by apply first_accepted_here; exists c, c').
  - exfalso. enough (false = true) by done. apply Hb'. by replace (q + M) with (q + M + Z.of_nat 0 * M) by lia.
  - eapply returns_mono; [apply IH; [lia.. | by replace (q + M + M + Z.of_nat K * M) with (q + M + Z.of_nat (S K) * M) by lia] |].
    intros [r _] Hr. apply first_accepted_later; [|done]. intros Hpr. by specialize (Hb' Hpr).
Qed.

Lemma PreviousPrime_loop_ok K fuel q qNew M c :
  0 <= qNew <= q -> 0 <= M -> (K < fuel)%nat -> q <= 2 ^ (wbits - 1) ->
  Z.prime (qNew + Z.of_nat K * (- M)) ->
  returns (PreviousPrime_loop dist rfuel fuel q qNew M c) (fun '(r, _) => first_accepted qNew (- M) K r).
Proof.
  intros Hq HM. pose proof word_half. pose proof word_pos. revert fuel qNew c Hq. induction K as [|K IH];
    intros [|fuel] qNew c Hq HK Hb Hp; try lia; cbn [PreviousPrime_loop];
    (destruct (MillerRabin_ok qNew default_rounds c) as (b & c' & Et & Hb'); [lia | by apply Nat.ltb_lt |]);
    rewrite Et, bind_Ok; destruct b; try (by apply first_accepted_here; exists c, c').
  - exfalso. enough (false = true) by done. apply Hb'. by replace qNew with (qNew + Z.of_nat 0 * - M) by lia.
  - pose proof (prime_gt_1 _ Hp). assert (0 <= Z.of_nat K * M) by nia.
    unfold SubEq, SubEqFast. rewrite wrap_small by lia. rewrite Z.gtb_ltb, (proj2 (Z.ltb_ge _ _)) by lia.
    eapply returns_mono; [apply IH; [lia.. | by replace (qNew - M + Z.of_nat K * - M) with (qNew + Z.of_nat (S K) * - M) by lia] |].
    intros [r _] Hr. apply first_accepted_later; [|done]. intros Hpr. by specialize (Hb' Hpr).
Qed.

(** The first candidate of [FirstPrime]: the least number over [2 ^ nBits] that
    is one modulo [m]. *)
Lemma first_candidate n m (N := 2 ^ n) (start := if N mod m >? 0 then N + (m - N mod m) + 1 else N + 1) :
  0 <= n -> 0 < m ->
  N < start <= N + m /\ start ==[m] 1 /\
  forall P, N < P -> P ==[m] 1 -> exists k, 0 <= k <= (P - N) / m /\ P = start + k * m.
Proof.
  intros Hn Hm. pose proof (mod_range N m Hm) as R. pose proof (Z.div_mod N m ltac:(lia)) as D.
  assert (N < start <= N + m) as Hs by (unfold start; rewrite Z.gtb_ltb; destruct (Z.ltb_spec 0 (N mod m)); lia).
  assert (start ==[m] 1) as Es.
  { unfold start. rewrite Z.gtb_ltb. destruct (Z.ltb_spec 0 (N mod m)).
    - apply eqmod_divide; [done|]. exists (N / m + 1). lia.
    - apply eqmod_divide; [done|]. exists (N / m). lia. }
  split; [done|]. split; [done|]. intros P HP EP.
  assert (P ==[m] start) as E by (by rewrite EP, Es). apply eqmod_divide in E as [k Ek]; [|done].
  exists k. assert (0 <= k) by nia. split; [|lia]. split; [done|]. apply Z.div_le_lower_bound; lia.
Qed.

Lemma start_sum n m :
  0 <= n < wbits - 1 -> 0 < m < 2 ^ (wbits - 1) ->
  (if 2 ^ n mod m >? 0 then Add (Add (2 ^ n) (Sub m (2 ^ n mod m))) 1 else Add (2 ^ n) 1)
  = if 2 ^ n mod m >? 0 then 2 ^ n + (m - 2 ^ n mod m) + 1 else 2 ^ n + 1.
Proof.
  intros Hn Hm. pose proof word_half. pose proof (mod_range (2 ^ n) m ltac:(lia)).
  assert (2 ^ n < 2 ^ (wbits - 1)) by (apply Z.pow_lt_mono_r; lia).
  pose proof (pow2_pos n ltac:(lia)). unfold Add, AddFast, Sub, SubFast.
  rewrite (wrap_small (m - _)), (wrap_small (2 ^ n + (m - _))) by lia.
  rewrite Z.gtb_ltb. destruct (Z.ltb_spec 0 (2 ^ n mod m)); apply wrap_small; lia.
Qed.

(** [C34] When a prime congruent to 1 modulo m exists above 2^nBits within half the
    word, FirstPrime returns within the corresponding number of steps a number that
    the primality test accepted, is congruent to 1 modulo m, is above 2^nBits, and
    is not above any prime congruent to 1 modulo m. *)
Theorem FirstPrime_spec fuel nBits m P c :
  0 <= nBits < wbits - 1 -> 0 < m < 2 ^ (wbits - 1) ->
  Z.prime P -> P ==[m] 1 -> 2 ^ nBits < P <= 2 ^ (wbits - 1) ->
  (P - 2 ^ nBits) / m < Z.of_nat fuel ->
  returns (FirstPrime dist rfuel fuel nBits m c) (fun '(r, _) =>
    accepted r /\ r ==[m] 1 /\ 2 ^ nBits < r <= P /\
    forall p, Z.prime p -> p ==[m] 1 -> 2 ^ nBits < p -> r <= p).
Proof.
  intros Hn Hm HP EP HPb Hf. unfold FirstPrime. pose proof word_half. pose proof wbits_range.
  assert (2 ^ nBits < 2 ^ (wbits - 1)) by (apply Z.pow_lt_mono_r; lia).
  assert (nBits < 2 ^ nBits) by (apply Z.pow_gt_lin_r; lia).
  rewrite (wrap_small nBits), (wrap_small m), ModExp_ok, bind_Ok by lia.
  unfold LShift. rewrite ushl_ok, bind_Ok, Z.mul_1_l, (wrap_small (2 ^ nBits)) by lia.
  rewrite Z.log2_pow2, (proj2 (Z.ltb_ge nBits _)), (proj2 (Z.eqb_neq (2 ^ nBits) 0)) by lia. simpl orb.
  cbv iota zeta. rewrite start_sum by lia.
  destruct (first_candidate nBits m) as (Hs & Es & Hc); [lia..|].
  set (start := if _ >? 0 then _ else _) in *. rewrite (proj2 (Z.ltb_ge _ _)) by lia.
  destruct (Hc P) as (K & HK & EK); [lia | done |].
  pose proof (FirstPrime_loop_ok (Z.to_nat K) fuel start m c) as HL.
  rewrite Z2Nat.id in HL by lia. rewrite <- EK in HL.
  specialize (HL ltac:(lia) ltac:(lia) ltac:(lia) ltac:(lia) HP). apply returns_Ok in HL as ([r c'] & -> & Ha & i & Hi & -> & Hj). simpl.
  split; [done|]. split; [rewrite <- Es; apply eqmod_multiple|]. split; [nia|].
  intros p Hp Ep Hpn. destruct (Hc p Hpn Ep) as (k & Hk & ->).
  destruct (Z.le_gt_cases (Z.of_nat i) k); [nia|]. exfalso. apply (Hj (Z.to_nat k)); [lia|].
  by rewrite Z2Nat.id by lia.
Qed.

(** NextPrime and PreviousPrime return, when there is a prime K + 1 steps of m
    away in their direction, the first number of the progression that the primality
    test accepted, and the numbers passed over are composite. *)
Theorem NextPrime_PreviousPrime_spec fuel q m K c :
  0 <= q <= 2 ^ (wbits - 1) -> 0 < m < 2 ^ wbits -> (K < fuel)%nat ->
  (Z.prime (q + m + Z.of_nat K * m) -> q + m + Z.of_nat K * m <= 2 ^ (wbits - 1) ->
   returns (NextPrime dist rfuel fuel q m c) (fun '(r, _) => first_accepted (q + m) m K r)) /\
  (Z.prime (q - m - Z.of_nat K * m) ->
   returns (PreviousPrime dist rfuel fuel q m c) (fun '(r, _) => first_accepted (q - m) (- m) K r)).
Proof.
  intros Hq Hm HK. pose proof word_half. pose proof word_pos. split.
  - intros HP Hb. unfold NextPrime. rewrite (wrap_small m) by lia. by apply NextPrime_loop_ok; [lia..|].
  - intros HP. pose proof (prime_gt_1 _ HP). assert (0 <= Z.of_nat K * m) by nia.
    unfold PreviousPrime. rewrite (wrap_small m) by lia. unfold Sub, SubFast.
    rewrite (wrap_small (q - m)) by lia. apply PreviousPrime_loop_ok; [lia..|].
    by replace (q - m + Z.of_nat K * - m) with (q - m - Z.of_nat K * m) by lia.
Qed.
End Random.

(** ** Instances *)

Lemma ModInverse_usint_coefficient_witness :
  ModInverse_usint 3 7 = Ok 4294967294 /\ exists x, x * 3 ==[7] 1 /\ x < 0.
Proof.
  assert (ModInverse_usint 3 7 = Ok 4294967294) as Ei by reflexivity. split; [exact Ei|].
  pose proof (ModInverse_usint_coefficient 3 7 ltac:(lia) ltac:(lia) eq_refl) as H. rewrite Ei in H.
  destruct H as (x & E & Hx & Hr). exists x. split; [exact E|]. destruct (Z.ltb_spec x 0); lia.
Defined.

Lemma GreatestCommonDivisor_GetTotientList_witness :
  @GreatestCommonDivisor W64 84 36 = Ok 12 /\ @GetTotientList W64 12 = Ok [1; 5; 7; 11].
Proof.
  destruct (GreatestCommonDivisor_GetTotientList (W := W64) 84 36 12
    ltac:(word64) ltac:(word64) ltac:(word64)) as (E & F & _).
  split; [exact E | exact F].
Defined.

(** A source of numbers for the examples: the draws count up below the bound. *)
Definition counting_source (c : nat) (b : Z) : Z := if b =? 0 then 0 else Z.of_nat c mod b.

#[export] Instance counting_source_uniform : UniformSource counting_source 1.
Proof.
  split; intros c b Hb; unfold counting_source.
  - destruct (Z.eqb_spec b 0) as [->|]; [lia|]. pose proof (mod_range (Z.of_nat c) b). lia.
  - exists 0%nat. split; [lia|]. rewrite (proj2 (Z.eqb_neq b 0)) by lia. apply mod_range. lia.
Qed.

Lemma RNG_in_range_witness :
  returns (@RNG W64 counting_source 1 (2 ^ 32 + 5) 0) (fun '(r, _) => 0 <= r < 2 ^ 32).
Proof.
  eapply returns_mono; [apply (RNG_in_range (W := W64) counting_source 1); word64|].
  intros [r c] [H0 H1]. split; [lia | apply H1; lia].
Defined.

Lemma MillerRabin_never_rejects_prime_witness :
  returns (@MillerRabinPrimalityTest W64 counting_source 1 257 100 0) (fun '(b, _) => b = true) /\
  returns (@MillerRabinPrimalityTest W64 counting_source 1 256 100 0) (fun '(b, _) => b = false).
Proof.
  split.
  - eapply returns_mono;
      [apply (MillerRabin_never_rejects_prime (W := W64) counting_source 1 257 100 0); [word64 | lia]|].
    intros [b c] [H _]. apply H, prime_257.
  - eapply returns_mono;
      [apply (MillerRabin_never_rejects_prime (W := W64) counting_source 1 256 100 0); [word64 | lia]|].
    intros [b c] [_ H]. apply H. right. split; [lia|]. by exists 128.
Defined.

Lemma FirstPrime_spec_witness :
  returns (@FirstPrime W64 counting_source 1 5 5 8 0) (fun '(r, _) => 32 < r <= 41).
Proof.
  eapply returns_mono; [apply (FirstPrime_spec (W := W64) counting_source 1 5 5 8 41 0);
    [word64 | word64 | by apply prime_test_sound | by constructor | word64 | reflexivity]|].
  intros [r c] (_ & _ & H & _). exact H.
Defined.

Lemma NextPrime_PreviousPrime_spec_witness :
  returns (@NextPrime W64 counting_source 1 5 45 4 0) (fun '(r, _) => 45 < r <= 53) /\
  returns (@PreviousPrime W64 counting_source 1 5 45 4 0) (fun '(r, _) => 37 <= r < 45).
Proof.
  destruct (NextPrime_PreviousPrime_spec (W := W64) counting_source 1 5 45 4 1 0
    ltac:(word64) ltac:(word64) ltac:(lia)) as [Hn Hp].
  split.
  - eapply returns_mono; [apply Hn; [by apply prime_test_sound | word64]|].
    intros [r c] (_ & i & Hi & -> & _). lia.
  - eapply returns_mono; [apply Hp; by apply prime_test_sound|].
    intros [r c] (_ & i & Hi & -> & _). lia.
Defined.
