(* ===== verification/NbRootProps.v ===== *)
(** * Roots of unity and automorphisms: theorems

    The generator search returns an element that is no square, so [RootOfUnity]
    returns the smallest primitive root of unity of a power-of-two order, which
    does not depend on the random numbers drawn; the automorphism indices and
    the permutation of [PrecomputeAutoMap]. *)
From stdpp Require Import base numbers list sets.
From Stdlib Require Import ZArith Znumtheory Zpow_facts Lia.
From S2P Require Import Prelude Bits NativeInt NativeIntProps NativeVector NttProps FttProps.
From S2P Require Import NbTheory NbTheoryProps.
Open Scope Z_scope.

Section Roots.
Context `{W : NativeWidth}.
Context (dist : nat -> Z -> Z) (rfuel : nat) `{HU : UniformSource dist rfuel}.

(** ** Factors *)

Lemma elem_of_set_insert x y s : y ∈ set_insert x s <-> y = x \/ y ∈ s.
Proof.
  induction s as [|z s IH]; simpl; [set_solver|].
  destruct (x <? z); [set_solver|]. destruct (Z.eqb_spec x z); set_solver.
Qed.

(** The set of factors only grows. *)
Lemma PrimeFactorize_grows fuel n s c s' c' :
  PrimeFactorize dist rfuel fuel n s c = Ok (s', c') -> s ⊆ s'.
Proof.
  revert n s c s' c'. induction fuel as [|fuel IH]; intros n s c s' c' E; [done|].
  simpl in E. destruct (_ || _); [by injection E as <- _|].
  destruct (MillerRabinPrimalityTest _ _ _ _ _) as [[[] c1]| | |]; try done; simpl in E.
  - injection E as <- _. intros x Hx. rewrite elem_of_set_insert. by right.
  - destruct (PollardRhoFactorization _ _ _ _ _) as [[d c2]| | |]; try done; simpl in E.
    destruct (PrimeFactorize _ _ _ d _ _) as [[s1 c3]| | |] eqn:E1; try done; simpl in E.
    destruct (DividedByEq n d) as [n'| | |]; try done; simpl in E.
    etrans; [by eapply IH | by eapply IH].
Qed.

Lemma MillerRabin_even n niter c :
  0 < n -> (2 | n) -> MillerRabinPrimalityTest dist rfuel n niter c = Ok (n =? 2, c).
Proof.
  intros Hn H2. unfold MillerRabinPrimalityTest, Mod. rewrite umod_pos, bind_Ok by lia.
  apply Z.mod_divide in H2 as E; [|lia]. rewrite E.
  destruct (Z.eqb_spec n 2) as [->|]; [done|]. by rewrite orb_true_r.
Qed.

(** The factors of an even number contain two. *)
Lemma PrimeFactorize_even fuel n s c s' c' :
  0 < n -> (2 | n) -> PrimeFactorize dist rfuel fuel n s c = Ok (s', c') -> 2 ∈ s'.
Proof.
  intros Hn H2 E. destruct fuel as [|fuel]; [done|]. simpl in E.
  assert (n ≠ 1) by (destruct H2; lia).
  rewrite (proj2 (Z.eqb_neq n 0)), (proj2 (Z.eqb_neq n 1)) in E by lia. simpl orb in E. cbv iota in E.
  rewrite MillerRabin_even, bind_Ok in E by done.
  destruct (Z.eqb_spec n 2) as [->|Hn2].
  - injection E as <- _. rewrite elem_of_set_insert. by left.
  - unfold PollardRhoFactorization, Mod in E.
    destruct (RNG dist rfuel n c) as [[c1 c2]| | |]; try done; simpl in E.
    destruct (RNG dist rfuel n c2) as [[c3 c4]| | |]; try done; simpl in E.
    apply Z.mod_divide in H2 as E2; [|lia]. rewrite E2 in E. simpl in E.
    destruct (PrimeFactorize _ _ _ 2 _ _) as [[s1 c5]| | |] eqn:E1; try done; simpl in E.
    apply PrimeFactorize_grows in E. apply E. clear E.
    destruct fuel as [|fuel]; [done|]. simpl in E1. injection E1 as <- _.
    rewrite elem_of_set_insert. by left.
Qed.

(** ** Generators *)

Lemma count_factors_bound g qm1 q fs k n :
  count_factors g qm1 q fs k = Ok n -> (k <= n <= k + length fs)%nat.
Proof.
  revert k. induction fs as [|f fs IH]; intros k E; simpl in *; [injection E as <-; lia|].
  destruct (DividedBy qm1 f) as [e| | |]; try done; simpl in E.
  destruct (ModExp g e q) as [r| | |]; try done; simpl in E.
  destruct (r =? 1); [injection E as <-; lia|]. apply IH in E. lia.
Qed.

Lemma count_factors_all g qm1 q fs k :
  count_factors g qm1 q fs k = Ok (k + length fs)%nat ->
  forall f, f ∈ fs -> exists e r, DividedBy qm1 f = Ok e /\ ModExp g e q = Ok r /\ r ≠ 1.
Proof.
  revert k. induction fs as [|f fs IH]; intros k E x Hx; [set_solver|]. simpl in E.
  destruct (DividedBy qm1 f) as [e| | |] eqn:E1; try done; simpl in E.
  destruct (ModExp g e q) as [r| | |] eqn:E2; try done; simpl in E.
  destruct (Z.eqb_spec r 1) as [->|Hr]; [injection E; lia|].
  apply elem_of_cons in Hx as [->|Hx]; [by eauto|].
  apply (IH (S k)); [|done]. rewrite E. f_equal. lia.
Qed.

Lemma FindGenerator_loop_ok fuel q fs c g c' :
  2 < q < 2 ^ wbits ->
  FindGenerator_loop dist rfuel fuel q (q - 1) (q - 2) fs c = Ok (g, c') ->
  1 <= g < q /\ count_factors g (q - 1) q fs 0 = Ok (length fs).
Proof.
  intros Hq. revert c. induction fuel as [|fuel IH]; intros c E; [done|]. cbn [FindGenerator_loop] in E.
  pose proof (RNG_ok (W := W) dist rfuel (q - 2) c ltac:(lia)) as Hr. apply returns_Ok in Hr as ([r c1] & Er & Hr).
  simpl in Hr. rewrite Er, bind_Ok in E. unfold Add, AddFast in E. rewrite (wrap_small (r + 1)) in E by lia.
  destruct (count_factors (r + 1) (q - 1) q fs 0) as [n| | |] eqn:Ec; try done; simpl in E.
  destruct (Nat.eqb_spec n (length fs)) as [->|]; [|by eapply IH]. injection E as <- _.
  split; [lia | done].
Qed.

(** A generator is not a square. *)
Lemma FindGenerator_nonsquare fuel q c g c' :
  Z.prime q -> 3 < q < 2 ^ wbits ->
  FindGenerator dist rfuel fuel q c = Ok (g, c') ->
  1 <= g < q /\ g ^ ((q - 1) / 2) ==[q] -1.
Proof.
  intros Hp Hq E. unfold FindGenerator, Sub, SubFast in E. rewrite !wrap_small in E by lia.
  destruct (PrimeFactorize _ _ _ _ _ _) as [[fs c1]| | |] eqn:E1; try done; simpl in E.
  apply FindGenerator_loop_ok in E as [Hg Ec]; [|lia]. split; [done|].
  assert (2 | q - 1) as H2.
  { apply Z.mod_divide; [lia|]. destruct (Z.eq_dec (q mod 2) 0) as [E0|E0].
    - exfalso. apply Z.mod_divide in E0; [|lia]. destruct Hp as [_ Hp]. apply (Hp 2); [lia|done].
    - pose proof (mod_range q 2 ltac:(lia)). pose proof (Z.div_mod q 2 ltac:(lia)).
      symmetry. apply Z.mod_unique with (q / 2); lia. }
  apply PrimeFactorize_even in E1; [|lia|done].
  destruct (count_factors_all _ _ _ _ _ Ec 2 E1) as (e & r & Ee & Er & Hr).
  unfold DividedBy in Ee. simpl (2 =? 0) in Ee. cbv iota in Ee. rewrite udiv_pos in Ee by lia.
  injection Ee as <-. pose proof (Z.div_le_upper_bound (q - 1) 2 (q - 1) ltac:(lia) ltac:(lia)).
  assert (0 <= (q - 1) / 2) by (apply Z.div_pos; lia).
  rewrite ModExp_ok in Er by lia. injection Er as <-.
  assert (g ^ ((q - 1) / 2) * g ^ ((q - 1) / 2) ==[q] 1) as Es.
  { rewrite <- Z.pow_add_r by lia. destruct H2 as [h Eh]. rewrite Eh, Z.div_mul by lia.
    replace (h + h) with (q - 1) by lia. apply fermat_little; [done|]. apply residue_not_divisible; lia. }
  apply square_root_of_one in Es as [[Es]|Es]; [|done|done]. exfalso. apply Hr.
  by rewrite Es, Z.mod_small by lia.
Qed.

(** ** All the primitive roots *)

(** Elements with the same power [2 ^ k] differ by a power of a primitive root
    of order [2 ^ k]. *)
Lemma same_power q : Z.prime q -> 2 < q -> forall (k : nat) u v w,
  ((0 < k)%nat -> w ^ 2 ^ Z.of_nat (k - 1) ==[q] -1) ->
  u ^ 2 ^ Z.of_nat k ==[q] v ^ 2 ^ Z.of_nat k -> ~ (q | v) ->
  exists i, (i < 2 ^ k)%nat /\ u ==[q] v * w ^ Z.of_nat i.
Proof.
  intros Hp Hq. induction k as [|k IH]; intros u v w Hw E Hv.
  - rewrite !Z.pow_1_r in E. exists 0%nat. split; [simpl; lia|]. by rewrite Z.pow_0_r, Z.mul_1_r.
  - specialize (Hw ltac:(lia)). rewrite Nat.sub_succ, Nat.sub_0_r in Hw.
    assert ((u ^ 2 ^ Z.of_nat k) * (u ^ 2 ^ Z.of_nat k) ==[q] (v ^ 2 ^ Z.of_nat k) * (v ^ 2 ^ Z.of_nat k)) as Es.
    { rewrite <- !Z.pow_2_r, <- !Z.pow_mul_r by lia.
      by rewrite Nat2Z.inj_succ, Z.pow_succ_r, Z.mul_comm in E by lia. }
    set (U := u ^ 2 ^ Z.of_nat k) in *. set (V := v ^ 2 ^ Z.of_nat k) in *.
    assert ((0 < k)%nat -> (w * w) ^ 2 ^ Z.of_nat (k - 1) ==[q] -1) as Hw2.
    { intros Hk. rewrite <- Z.pow_2_r, <- Z.pow_mul_r, <- Z.pow_succ_r by lia.
      by replace (Z.succ (Z.of_nat (k - 1))) with (Z.of_nat k) by lia. }
    assert (forall i, (w * w) ^ Z.of_nat i = w ^ Z.of_nat (2 * i)) as Ew.
    { intros i. rewrite <- Z.pow_2_r, <- Z.pow_mul_r by lia. f_equal. lia. }
    assert (U ==[q] V \/ U ==[q] - V) as [EU|EU].
    { rewrite !eqmod_divide in * by lia. apply Z.divide_prime_mul; [done|].
      by replace ((U - V) * (U - - V)) with (U * U - V * V) by ring. }
    + destruct (IH u v (w * w) Hw2 EU Hv) as (i & Hi & Ei). exists (2 * i)%nat.
      split; [simpl; lia|]. by rewrite <- Ew.
    + destruct (IH u (v * w) (w * w) Hw2) as (i & Hi & Ei).
      * rewrite Z.pow_mul_l, Hw. fold U V. rewrite EU. apply eqmod_eq. lia.
      * intros Hd. apply Z.divide_prime_mul in Hd as [Hd|Hd]; [done| |done].
        assert (w ^ 2 ^ Z.of_nat k ==[q] 0) as E0.
        { apply eqmod_0_divide; [lia|]. destruct Hd as [h ->]. rewrite Z.pow_mul_l.
          apply Z.divide_mul_r. exists (q ^ (2 ^ Z.of_nat k - 1)).
          rewrite Z.mul_comm, <- Z.pow_succ_r by (pose proof (pow2_pos (Z.of_nat k)); lia). f_equal. lia. }
        rewrite E0 in Hw. apply eqmod_divide in Hw; [|lia]. apply Z.divide_pos_le in Hw; lia.
      * exists (S (2 * i)). split; [simpl; lia|].
        rewrite Ei, Ew, Nat2Z.inj_succ, Z.pow_succ_r by lia. apply eqmod_eq. ring.
Qed.

(** ** The smallest root *)

Section MinRoot.
Context (q w : Z) (Hp : Z.prime q) (Hb : barrett_modulus q) (Hw : 0 <= w < q).

Definition power (j : Z) : Z := w ^ j mod q.

Lemma power_range j : 0 <= power j < q.
Proof. apply mod_range. lia. Qed.

Lemma power_loop_ok cur d :
  0 <= cur ->
  for_range 0 d (fun _ x => ModMulEq_mu x w q (barrett_mu q)) (power cur)
  = Ok (power (cur + Z.of_nat d)).
Proof.
  intros Hc.
  pose proof (for_range_exact (fun i => power (cur + Z.of_nat i)) 0 d
    (fun _ x => ModMulEq_mu x w q (barrett_mu q)) ltac:(lia)) as H.
  cbv beta in H. rewrite Z.add_0_r in H. apply H. intros i Hi.
  pose proof (power_range (cur + Z.of_nat i)). rewrite ModMulEq_mu_exact by done. f_equal.
  unfold power. rewrite Zmult_mod_idemp_l. replace (cur + Z.of_nat (S i)) with (Z.succ (cur + Z.of_nat i)) by lia.
  rewrite Z.pow_succ_r by lia. f_equal. ring.
Qed.

(** The scan over the exponents from [s] on that satisfy [P]. *)
Lemma min_root_ok (P : Z -> Prop) `{HD : forall x : Z, Decision (P x)} (n : nat) : forall (s : nat) (cur mn : Z),
  0 <= cur <= Z.of_nat s -> Z.of_nat (s + n) < 2 ^ wbits ->
  exists r, min_root (filter P (map Z.of_nat (seq s n))) cur (power cur) mn w q (barrett_mu q) = Ok r /\
    r <= mn /\ (r = mn \/ exists j, P j /\ 0 <= j /\ r = power j) /\
    forall j, P j -> Z.of_nat s <= j < Z.of_nat (s + n) -> power j ≠ 1 -> r <= power j.
Proof.
  induction n as [|n IH]; intros s cur mn Hc Hs; simpl.
  { exists mn. split; [done|]. split; [lia|]. split; [by left|]. intros. lia. }
  rewrite filter_cons. destruct (decide (P (Z.of_nat s))) as [HP|HP].
  - cbn [min_root]. unfold Sub, SubFast. rewrite wrap_small by lia.
    rewrite power_loop_ok, bind_Ok by lia. rewrite Z2Nat.id by lia.
    replace (cur + (Z.of_nat s - cur)) with (Z.of_nat s) by lia.
    set (mn' := if (power (Z.of_nat s) <? mn) && negb (power (Z.of_nat s) =? 1)
                then power (Z.of_nat s) else mn).
    assert (mn' <= mn /\ (mn' = mn \/ mn' = power (Z.of_nat s)) /\
            (power (Z.of_nat s) ≠ 1 -> mn' <= power (Z.of_nat s))) as (H1 & H2 & H3).
    { unfold mn'. destruct (Z.ltb_spec (power (Z.of_nat s)) mn); simpl; [|lia].
      destruct (Z.eqb_spec (power (Z.of_nat s)) 1); simpl; lia. }
    destruct (IH (S s) (Z.of_nat s) mn') as (r & E & Hr & Hx & Hj); [lia..|].
    exists r. split; [done|]. split; [lia|]. split.
    + destruct Hx as [->|]; [|by right]. destruct H2 as [->| ->]; [by left | right].
      exists (Z.of_nat s). split; [done|]. split; [lia | done].
    + intros j HPj Hjr Hj1. destruct (Z.eq_dec j (Z.of_nat s)) as [->|].
      * specialize (H3 Hj1). lia.
      * apply Hj; [done | lia | done].
  - destruct (IH (S s) cur mn) as (r & E & Hr & Hx & Hj); [lia..|].
    exists r. split; [done|]. split; [done|]. split; [done|].
    intros j HPj Hjr Hj1. apply Hj; [done | | done].
    destruct (Z.eq_dec j (Z.of_nat s)) as [->|]; [done | lia].
Qed.
End MinRoot.

Section RootOfUnity.
Context (q : Z) (Hp : Z.prime q) (Hs : GetMSB q <= MAX_MODULUS_SIZE).
Context (k : nat) (Hk : (1 <= k <= 24)%nat) (Hdiv : (2 ^ (Z.of_nat k + 1) | q - 1)).

Lemma order_pow : 2 ^ (Z.of_nat k + 1) = 2 * 2 ^ Z.of_nat k.
Proof. rewrite Z.pow_add_r by lia. lia. Qed.

Lemma modulus_bounds : 4 <= q < 2 ^ (wbits - 1) /\ barrett_modulus q.
Proof.
  pose proof (prime_gt_1 q Hp). pose proof order_pow as E.
  assert (2 ^ 1 <= 2 ^ Z.of_nat k) by (apply Z.pow_le_mono_r; lia).
  apply Z.divide_pos_le in Hdiv; [|lia]. destruct (modulus_size_word q ltac:(lia) Hs).
  pose proof (prime_barrett q Hp ltac:(lia) Hs). split; [lia | done].
Qed.

(** [w] is a primitive root of order [2 ^ (k + 1)]. *)
Definition primitive (w : Z) : Prop := w ^ 2 ^ Z.of_nat k ==[q] -1.

Lemma minus_one_not_one : ~ (-1 ==[q] 1).
Proof.
  pose proof modulus_bounds as [? _]. rewrite eqmod_divide by lia. intros [h E].
  assert (h = 0 \/ h <= -1 \/ 1 <= h) by lia. nia.
Qed.

Lemma primitive_odd_power w j :
  primitive w -> 0 <= j -> Z.odd j = true -> primitive (w ^ j).
Proof.
  unfold primitive. intros Hw Hj Ho. rewrite <- Z.pow_mul_r, Z.mul_comm, Z.pow_mul_r by lia.
  rewrite (eqmod_pow q _ _ j Hw). apply Z.odd_spec in Ho as [h ->].
  rewrite Z.pow_add_r, Z.pow_mul_r, Z.pow_1_r by lia. change ((-1) ^ 2) with 1.
  by rewrite Z.pow_1_l by lia.
Qed.

Lemma primitive_small x : 0 <= x < q -> primitive x -> 1 < x.
Proof.
  unfold primitive. intros Hx E. pose proof (pow2_pos (Z.of_nat k) ltac:(lia)).
  pose proof modulus_bounds as [? _].
  assert (x ≠ 0) by (intros ->; rewrite Z.pow_0_l in E by lia; apply eqmod_divide in E; [|lia];
                     apply Z.divide_pos_le in E; lia).
  assert (x ≠ 1) by (intros ->; rewrite Z.pow_1_l in E by lia; symmetry in E; by apply minus_one_not_one in E).
  lia.
Qed.

Lemma coprime_odd j : Z.gcd j (2 ^ (Z.of_nat k + 1)) = 1 <-> Z.odd j = true.
Proof.
  rewrite order_pow. split.
  - intros E. destruct (Z.odd j) eqn:Ho; [done|]. exfalso.
    rewrite <- Z.negb_even, negb_false_iff in Ho. apply Z.even_spec in Ho as [h ->].
    rewrite Z.gcd_mul_mono_l_nonneg in E by lia. pose proof (Z.gcd_nonneg h (2 ^ Z.of_nat k)). lia.
  - intros Ho. rewrite <- order_pow. apply Z.coprime_pow_r; [lia|].
    apply Z.odd_spec in Ho as [h ->]. change (Z.gcd (2 * h + 1) 2 = 1).
    replace (2 * h + 1) with (1 + h * 2) by lia. rewrite Z.gcd_comm, Z.gcd_add_mult_diag_r. apply Z.gcd_1_r.
Qed.

(** Every primitive root is an odd power, below the order, of any other. *)
Lemma primitive_roots w z :
  primitive w -> ~ (q | w) -> primitive z ->
  exists j, 0 <= j < 2 ^ (Z.of_nat k + 1) /\ Z.odd j = true /\ z ==[q] w ^ j.
Proof.
  intros Hw Hd Hz. pose proof modulus_bounds as [? _].
  destruct (same_power q Hp ltac:(lia) k z w (w * w)) as (i & Hi & Ei).
  - intros _. rewrite <- Z.pow_2_r, <- Z.pow_mul_r, <- Z.pow_succ_r by lia.
    by replace (Z.succ (Z.of_nat (k - 1))) with (Z.of_nat k) by lia.
  - unfold primitive in *. by rewrite Hz, Hw.
  - done.
  - exists (2 * Z.of_nat i + 1). rewrite order_pow, <- pow2_nat_Z. split; [lia|]. split.
    + apply Z.odd_spec. by eexists.
    + rewrite Ei, Z.pow_add_r, Z.pow_mul_r, Z.pow_1_r, Z.pow_2_r by lia. apply eqmod_eq. ring.
Qed.

Lemma generator_power g :
  0 < g < q -> g ^ ((q - 1) / 2) ==[q] -1 ->
  primitive (g ^ ((q - 1) / 2 ^ (Z.of_nat k + 1)) mod q).
Proof.
  intros Hg E. pose proof modulus_bounds as [? _]. unfold primitive.
  rewrite (eqmod_pow q _ _ _ (eqmod_mod q _)). destruct Hdiv as [h Eh].
  pose proof (pow2_pos (Z.of_nat k + 1) ltac:(lia)). assert (0 <= h) by nia.
  rewrite <- Z.pow_mul_r by (try apply Z.div_pos; lia).
  rewrite Eh, Z.div_mul by lia. rewrite <- E. apply eqmod_eq. f_equal.
  rewrite Eh, order_pow. replace (h * (2 * 2 ^ Z.of_nat k)) with (h * 2 ^ Z.of_nat k * 2) by lia.
  by rewrite Z.div_mul by lia.
Qed.

(** The scan from any primitive root ends in the smallest one. *)
Lemma min_root_least w :
  0 <= w < q -> primitive w ->
  exists psi,
    min_root (coprimes_below (2 ^ (Z.of_nat k + 1))) 1 w w w q (barrett_mu q) = Ok psi /\
    root_ok q psi k /\ forall z, 0 <= z < q -> primitive z -> psi <= z.
Proof.
  intros Hw Hprim. pose proof modulus_bounds as [Hq Hb]. pose proof wbits_range.
  assert (~ (q | w)) as Hd.
  { pose proof (primitive_small w Hw Hprim). apply (residue_not_divisible q). lia. }
  assert (2 ^ (Z.of_nat k + 1) < 2 ^ wbits) by (apply Z.pow_lt_mono_r; lia).
  pose proof (pow2_pos (Z.of_nat k + 1) ltac:(lia)). unfold coprimes_below.
  assert (power q w 1 = w) as E1 by (unfold power; rewrite Z.pow_1_r; apply Z.mod_small; lia).
  destruct (min_root_ok q w Hp Hb Hw (fun i => Z.gcd i (2 ^ (Z.of_nat k + 1)) = 1)
    (Z.to_nat (2 ^ (Z.of_nat k + 1)) - 1) 1 1 w) as (psi & E & Hle & Hpsi & Hmin); [lia..|].
  rewrite E1 in E. exists psi. split; [exact E|].
  assert (forall j, 0 <= j -> Z.odd j = true -> primitive (power q w j)) as Hpow.
  { intros j Hj Ho. unfold primitive, power. rewrite (eqmod_pow q _ _ _ (eqmod_mod q _)).
    by apply primitive_odd_power. }
  assert (0 <= psi < q /\ primitive psi) as [Hr Hpr].
  { destruct Hpsi as [->|(j & Hj & Hj0 & ->)]; [done|]. rewrite coprime_odd in Hj.
    split; [apply mod_range; lia | by apply Hpow]. }
  pose proof (primitive_small psi Hr Hpr). split; [by split; try lia|].
  intros z Hz Hzp. destruct (primitive_roots w z Hprim Hd Hzp) as (j & Hj & Ho & Ez).
  assert (z = power q w j) as -> by (by apply eqmod_unique).
  pose proof (primitive_small _ Hz Hzp). apply Hmin; [by apply coprime_odd | | lia].
  assert (j ≠ 0) by (by intros ->). lia.
Qed.
End RootOfUnity.

(** [C22] For a power-of-two order m, RootOfUnity throws math_error when m does not
    divide q - 1; otherwise, once the generator search has returned, it returns a
    primitive m-th root of unity fit for the transforms, and it is the smallest one,
    so the result does not depend on the random numbers drawn. *)
Theorem RootOfUnity_least q k fuel c :
  Z.prime q -> 3 < q -> GetMSB q <= MAX_MODULUS_SIZE -> (1 <= k <= 24)%nat ->
  let m := 2 ^ (Z.of_nat k + 1) in
  (~ (m | q - 1) -> RootOfUnity dist rfuel (S fuel) m q c = Throw math_error) /\
  ((m | q - 1) -> forall g c', FindGenerator dist rfuel fuel q c = Ok (g, c') ->
     exists psi, RootOfUnity dist rfuel (S fuel) m q c = Ok (psi, c') /\ root_ok q psi k /\
       forall z, 0 <= z < q -> z ^ 2 ^ Z.of_nat k ==[q] -1 -> psi <= z).
Proof.
  intros Hp H3 Hs Hk m. pose proof wbits_range. pose proof word_half.
  destruct (modulus_size_word q ltac:(lia) Hs) as [_ Hqw].
  assert (0 < m < 2 ^ wbits) as Hm by (split; [apply pow2_pos | apply Z.pow_lt_mono_r]; lia).
  split.
  - intros Hd. cbn [RootOfUnity]. unfold Mod, Sub, SubFast.
    rewrite (wrap_small m), (wrap_small (q - 1)), umod_pos, bind_Ok by lia.
    destruct (Z.eqb_spec ((q - 1) mod m) 0) as [E|]; [|done].
    by apply Z.mod_divide in E; [|lia].
  - intros Hd g c' Eg. pose proof (modulus_bounds q Hp Hs k Hk Hd) as [_ Hb].
    destruct (FindGenerator_nonsquare fuel q c g c' Hp ltac:(lia) Eg) as [Hg Eq].
    pose proof (generator_power q Hp Hs k Hk Hd g ltac:(lia) Eq) as Hprim. fold m in Hprim.
    set (w := g ^ ((q - 1) / m) mod q) in *.
    assert (0 <= w < q) as Hw by (apply mod_range; lia).
    pose proof (primitive_small q Hp Hs k Hk Hd w Hw Hprim) as Hw1.
    destruct (min_root_least q Hp Hs k Hk Hd w Hw Hprim) as (psi & Em & Hr & Hmin).
    exists psi. split; [|done]. cbn [RootOfUnity]. unfold Mod, Sub, SubFast, DividedBy.
    rewrite (wrap_small m), (wrap_small (q - 1)), umod_pos, bind_Ok by lia.
    rewrite (proj2 (Z.mod_divide (q - 1) m ltac:(lia)) Hd). simpl negb. cbv iota.
    rewrite Eg, bind_Ok. rewrite (proj2 (Z.eqb_neq m 0)), udiv_pos, bind_Ok by lia.
    assert (0 <= (q - 1) / m <= q - 1)
      by (split; [apply Z.div_pos; lia | apply Z.div_le_upper_bound; nia]).
    rewrite ModExp_ok, bind_Ok by lia. fold w. rewrite (proj2 (Z.eqb_neq w 1)), bind_Ok by lia.
    rewrite ComputeMu_ok, bind_Ok by done. rewrite ModMulEq_mu_exact, bind_Ok by (done || lia).
    rewrite Z.mul_1_l, (Z.mod_small w) by lia. rewrite GetTotientList_ok, bind_Ok by lia.
    fold m in Em. by rewrite Em.
Qed.

(** ** The modulus 3 *)

Lemma RNG_one c r c' : RNG dist rfuel 1 c = Ok (r, c') -> r = 0.
Proof.
  unfold RNG. pose proof wbits_range.
  assert (RNG_candidate dist 1 c = Ok (0, c)) as E.
  { unfold RNG_candidate. rewrite chunks_small by lia. unfold for_range. simpl for_n. rewrite bind_Ok.
    unfold RShift. rewrite ushr_ok by (unfold chunk_width; lia). done. }
  destruct rfuel as [|n]; [done|]. rewrite (RNG_loop_accept _ _ _ _ _ _ E) by lia. by intros [= <- _].
Qed.

(** Modulo 3 the search draws from [RNG(1)], which is always 0: it tries the
    candidate 1 forever. *)
Theorem FindGenerator_three_never_ends fuel c : FindGenerator dist rfuel fuel 3 c = OutOfFuel.
Proof.
  pose proof wbits_range. assert (2 ^ 32 <= 2 ^ wbits) by (apply Z.pow_le_mono_r; lia).
  unfold FindGenerator, Sub, SubFast. rewrite !wrap_small by lia. change (3 - 1) with 2. change (3 - 2) with 1.
  destruct fuel as [|fuel]; [done|].
  assert (PrimeFactorize dist rfuel (S fuel) 2 [] c = Ok ([2], c)) as -> by reflexivity. rewrite bind_Ok.
  generalize (S fuel). clear fuel. intros fuel. revert c. induction fuel as [|fuel IH]; intros c; [done|].
  cbn [FindGenerator_loop].
  pose proof (RNG_ok (W := W) dist rfuel 1 c ltac:(lia)) as Hr. apply returns_Ok in Hr as ([r c1] & Er & _).
  rewrite Er, bind_Ok. apply RNG_one in Er as ->. unfold Add, AddFast. rewrite wrap_small by lia.
  cbn [count_factors]. unfold DividedBy. simpl (2 =? 0). cbv iota. rewrite udiv_pos, bind_Ok by lia.
  change (2 / 2) with 1. rewrite ModExp_ok, bind_Ok by lia. apply IH.
Qed.
End Roots.

(** ** Instances *)

Lemma RootOfUnity_least_witness :
  exists psi, @RootOfUnity W64 counting_source 1 21 16 17 0 = Ok (psi, 7%nat) /\ @root_ok W64 17 psi 3 /\
    @RootOfUnity W64 counting_source 1 21 32 17 0 = Throw math_error.
Proof.
  destruct (proj2 (RootOfUnity_least (W := W64) counting_source 1 17 3 20 0
    prime_17 ltac:(lia) ltac:(by vm_compute) ltac:(lia)) ltac:(by exists 1) 7 7%nat) as (psi & E & Hr & _);
    [vm_compute; reflexivity|].
  exists psi. split; [exact E|]. split; [exact Hr|].
  apply (proj1 (RootOfUnity_least (W := W64) counting_source 1 17 4 20 0
    prime_17 ltac:(lia) ltac:(by vm_compute) ltac:(lia))).
  intros H. apply Z.divide_pos_le in H; simpl in H; lia.
Defined.
