(* ===== verification/AutoProps.v ===== *)
(** * Automorphism indices: theorems

    Totients of powers of two, the automorphism index of a rotation
    ([FindAutomorphismIndex2n]) and the table of [PrecomputeAutoMap]: it is a
    permutation, and it moves the values a transform computes to the values of
    the polynomial after the automorphism [X -> X^k]. *)
From stdpp Require Import base numbers list sets.
From Stdlib Require Import ZArith Znumtheory Zpow_facts Lia.
From S2P Require Import Prelude Bits NativeInt NativeIntProps NativeVector Ntt NttProps FttProps.
From S2P Require Import NbTheory NbTheoryProps NbRootProps.
Open Scope Z_scope.

Section Automorphisms.
Context `{W : NativeWidth}.
Context (dist : nat -> Z -> Z) (rfuel : nat) `{HU : UniformSource dist rfuel}.

(** ** Totients of powers of two *)

Lemma pow2_succ_even (k : nat) : (2 | 2 ^ Z.of_nat (S k)).
Proof. exists (2 ^ Z.of_nat k). rewrite Nat2Z.inj_succ, Z.pow_succ_r by lia. lia. Qed.

Lemma PrimeFactorize_two fuel s c :
  PrimeFactorize dist rfuel (S fuel) 2 s c = Ok (set_insert 2 s, c).
Proof. reflexivity. Qed.

Lemma PrimeFactorize_pow2 (k : nat) fuel s c :
  (1 <= k)%nat -> Z.of_nat k < wbits -> (k <= fuel)%nat -> s = [] \/ s = [2] ->
  exists c', PrimeFactorize dist rfuel fuel (2 ^ Z.of_nat k) s c = Ok ([2], c').
Proof.
  revert fuel s c. induction k as [|k IH]; intros [|fuel] s c H1 Hw Hf Hs; try lia.
  assert (set_insert 2 s = [2]) as Ei by (by destruct Hs as [->| ->]).
  destruct (decide (k = 0%nat)) as [->|Hk].
  { change (2 ^ Z.of_nat 1) with 2. rewrite PrimeFactorize_two, Ei. by eexists. }
  pose proof (pow2_succ_even k) as H2. set (n := 2 ^ Z.of_nat (S k)) in *.
  assert (n = 2 * 2 ^ Z.of_nat k) as En by (unfold n; rewrite Nat2Z.inj_succ, Z.pow_succ_r; lia).
  assert (2 ^ 1 <= 2 ^ Z.of_nat k) by (apply Z.pow_le_mono_r; lia).
  assert (n < 2 ^ wbits) by (apply Z.pow_lt_mono_r; lia).
  cbn [PrimeFactorize]. rewrite (proj2 (Z.eqb_neq n 0)), (proj2 (Z.eqb_neq n 1)) by lia. simpl orb.
  cbv iota. rewrite MillerRabin_even, (proj2 (Z.eqb_neq n 2)), bind_Ok by (done || lia).
  unfold PollardRhoFactorization, Mod. rewrite (umod_pos n 2) by lia.
  pose proof (RNG_ok (W := W) dist rfuel n c ltac:(lia)) as R1. apply returns_Ok in R1 as ([r1 c1] & -> & _).
  rewrite bind_Ok. cbv iota.
  pose proof (RNG_ok (W := W) dist rfuel n c1 ltac:(lia)) as R2. apply returns_Ok in R2 as ([r2 c2] & -> & _).
  rewrite !bind_Ok. rewrite (proj2 (Z.mod_divide n 2 ltac:(lia)) H2). simpl (0 =? 0). cbv iota.
  rewrite bind_Ok. destruct fuel as [|fuel]; [lia|]. rewrite PrimeFactorize_two, bind_Ok, Ei.
  unfold DividedByEq. simpl (2 =? 0). cbv iota. rewrite udiv_pos, bind_Ok by lia.
  replace (n / 2) with (2 ^ Z.of_nat k) by (rewrite En, Z.mul_comm, Z.div_mul; lia).
  apply IH; [lia.. | by right].
Qed.

Lemma GetTotient_pow2 (k : nat) fuel c :
  (1 <= k)%nat -> Z.of_nat k < wbits -> (k <= fuel)%nat ->
  exists c', GetTotient dist rfuel fuel (2 ^ Z.of_nat k) c = Ok (2 ^ (Z.of_nat k - 1), c').
Proof.
  intros Hk Hw Hf. pose proof wbits_range. assert (2 ^ Z.of_nat k < 2 ^ wbits) by (apply Z.pow_lt_mono_r; lia).
  pose proof (pow2_pos (Z.of_nat k) ltac:(lia)).
  assert (2 ^ Z.of_nat k = 2 ^ (Z.of_nat k - 1) * 2) as E
    by (rewrite Z.mul_comm, <- Z.pow_succ_r by lia; f_equal; lia).
  unfold GetTotient. rewrite (wrap_small (2 ^ Z.of_nat k)) by lia.
  destruct (PrimeFactorize_pow2 k fuel [] c Hk Hw Hf ltac:(by left)) as [c' ->].
  rewrite bind_Ok. exists c'. cbn [fold_left]. unfold Mul, MulFast, Sub, SubFast, DividedBy.
  rewrite (wrap_small (2 - 1)), (wrap_small (1 * 2)) by lia. change (1 * (2 - 1)) with 1.
  rewrite (wrap_small 1) by lia. change (1 * 2 =? 0) with false. cbv iota.
  rewrite udiv_pos, bind_Ok by lia. change (1 * 2) with 2. rewrite E at 1.
  rewrite Z.div_mul, Z.mul_1_r, wrap_small by lia. done.
Qed.

(** ** The automorphism of a rotation *)

Lemma u32_mod m (k : nat) x : (k <= 32)%nat -> m = 2 ^ Z.of_nat k -> u32 x mod m = x mod m.
Proof.
  intros Hk ->. unfold u32. apply Z.mod_mod_divide.
  exists (2 ^ (32 - Z.of_nat k)). rewrite <- Z.pow_add_r by lia. f_equal. lia.
Qed.

Lemma power_loop_pow2 (k : nat) lo hi g g0 :
  (k <= 32)%nat -> 0 <= lo -> 0 <= g < 2 ^ Z.of_nat k ->
  power_loop lo hi g g0 (2 ^ Z.of_nat k)
  = Ok (g * g0 ^ Z.of_nat (Z.to_nat hi - Z.to_nat lo) mod 2 ^ Z.of_nat k).
Proof.
  intros Hk Hlo Hg. set (m := 2 ^ Z.of_nat k) in *.
  destruct (Z.le_gt_cases lo hi) as [Hle|Hgt].
  - pose proof (for_range_exact (fun i => g * g0 ^ Z.of_nat (i - Z.to_nat lo) mod m)
      (Z.to_nat lo) (Z.to_nat hi) (fun _ g => umod (u32 (g * g0)) m) ltac:(lia)) as H.
    cbv beta in H. rewrite Nat.sub_diag, Z.pow_0_r, Z.mul_1_r, (Z.mod_small g) in H by done.
    apply H. intros i Hi. rewrite umod_pos by lia. f_equal. rewrite (u32_mod m k) by done.
    rewrite Zmult_mod_idemp_l. replace (S i - Z.to_nat lo)%nat with (S (i - Z.to_nat lo)) by lia.
    rewrite Nat2Z.inj_succ, Z.pow_succ_r by lia. f_equal. ring.
  - unfold power_loop, for_range. replace (Z.to_nat hi - Z.to_nat lo)%nat with 0%nat by lia.
    simpl. by rewrite Z.mul_1_r, Z.mod_small by lia.
Qed.

(** The automorphism [X -> X^e] of the rotation by [a] slots: a power of 5 in
    the first half of the slots, its opposite in the second half. *)
Definition rotation_exponent (k : nat) (a : Z) : Z :=
  if a <? 2 ^ (Z.of_nat k - 2) then 5 ^ a else - 5 ^ (a - 2 ^ (Z.of_nat k - 2)).

Section Index.
Context (k : nat) (Hk : (3 <= k <= 30)%nat).
Let m := 2 ^ Z.of_nat k.

Lemma index_order : 8 <= m < 2 ^ 31 /\ m < 2 ^ (wbits - 1) /\ 2 ^ (Z.of_nat k - 1) = 2 * 2 ^ (Z.of_nat k - 2) /\
  1 < 2 ^ (Z.of_nat k - 2).
Proof.
  unfold m. pose proof wbits_range.
  assert (2 ^ 3 <= 2 ^ Z.of_nat k) by (apply Z.pow_le_mono_r; lia).
  assert (2 ^ 1 <= 2 ^ (Z.of_nat k - 2)) by (apply Z.pow_le_mono_r; lia).
  assert (2 ^ Z.of_nat k < 2 ^ 31) by (apply Z.pow_lt_mono_r; lia).
  assert (2 ^ Z.of_nat k < 2 ^ (wbits - 1)) by (apply Z.pow_lt_mono_r; lia).
  repeat split; try lia. rewrite <- Z.pow_succ_r by lia. f_equal. lia.
Qed.

Lemma odd_coprime_order x : Z.odd x = true -> Z.gcd x m = 1.
Proof.
  intros Ho. unfold m. apply Z.coprime_pow_r; [lia|]. apply Z.odd_spec in Ho as [h ->].
  change (Z.gcd (2 * h + 1) 2 = 1).
  replace (2 * h + 1) with (1 + h * 2) by lia. rewrite Z.gcd_comm, Z.gcd_add_mult_diag_r. apply Z.gcd_1_r.
Qed.

(** The two branches of the code, from a pair of factors. *)
Lemma index_branch f1 f2 a (n := 2 ^ (Z.of_nat k - 1)) :
  0 <= f1 < m -> 0 <= f2 < m -> 0 < a ->
  exists r, (if a <? n / 2 then power_loop 1 a f1 f1 m else power_loop (n / 2) a f2 f1 m) = Ok r /\
    0 <= r < m /\
    r ==[m] if a <? 2 ^ (Z.of_nat k - 2) then f1 ^ a else f2 * f1 ^ (a - 2 ^ (Z.of_nat k - 2)).
Proof.
  intros H1 H2 Ha. pose proof index_order as (Hm & _ & En & Hh).
  assert (n / 2 = 2 ^ (Z.of_nat k - 2)) as -> by (unfold n; rewrite En, Z.mul_comm, Z.div_mul; lia).
  destruct (Z.ltb_spec a (2 ^ (Z.of_nat k - 2))).
  - unfold m. rewrite power_loop_pow2 by (lia || done). eexists. split; [done|]. split; [apply mod_range; lia|].
    rewrite eqmod_mod, <- Z.pow_succ_r by lia. apply eqmod_eq. f_equal. lia.
  - unfold m. rewrite power_loop_pow2 by (lia || done). eexists. split; [done|]. split; [apply mod_range; lia|].
    rewrite eqmod_mod. apply eqmod_eq. f_equal. f_equal. lia.
Qed.

Lemma index_inverse v :
  Z.odd v = true -> exists r, ModInverse v m = Ok r /\ 0 <= r < m /\ v * r ==[m] 1.
Proof.
  intros Ho. pose proof index_order as (Hm & Hmw & _).
  pose proof (ModInverse_correct (W := W) v m ltac:(lia) (odd_coprime_order v Ho)) as H.
  apply returns_Ok in H as (r & E & Hr & E1). exists r. split; [done|]. split; [done|].
  apply eqmod_1; [lia | done].
Qed.

(** The inverse factors give the inverse automorphism. *)
Lemma rotation_inverse f1 f2 a :
  0 < a -> 5 * f1 ==[m] 1 -> (m - 1) * f2 ==[m] 1 ->
  (if a <? 2 ^ (Z.of_nat k - 2) then f1 ^ a else f2 * f1 ^ (a - 2 ^ (Z.of_nat k - 2)))
    * rotation_exponent k a ==[m] 1.
Proof.
  intros Ha E1 E2. pose proof index_order as (Hm & _ & _ & Hh). unfold rotation_exponent.
  assert (forall e, 0 <= e -> f1 ^ e * 5 ^ e ==[m] 1) as Hpow.
  { intros e He. rewrite Z.mul_comm, <- Z.pow_mul_l, (eqmod_pow m _ _ e E1). by rewrite Z.pow_1_l. }
  destruct (Z.ltb_spec a (2 ^ (Z.of_nat k - 2))); [apply Hpow; lia|].
  set (e := a - _) in *. rewrite <- (Hpow e) by lia.
  transitivity ((m - 1) * f2 * (f1 ^ e * 5 ^ e)); [|by rewrite E2, Z.mul_1_l].
  replace (f2 * f1 ^ e * - 5 ^ e) with ((m - 1) * f2 * (f1 ^ e * 5 ^ e) + (- f2 * (f1 ^ e * 5 ^ e)) * m) by ring.
  apply eqmod_multiple.
Qed.
End Index.

(** For a power-of-two order m, FindAutomorphismIndex2n returns the reduced power
    of 5 (or its opposite from the middle of the slots on) for a non-negative
    rotation, and the inverse of the element of the opposite rotation for a negative
    one. *)
Theorem FindAutomorphismIndex2n_spec (k : nat) fuel i c :
  (3 <= k <= 30)%nat -> (k <= fuel)%nat -> - 2 ^ 31 < i < 2 ^ 31 ->
  returns (FindAutomorphismIndex2n dist rfuel fuel i (2 ^ Z.of_nat k) c) (fun '(r, _) =>
    0 <= r < 2 ^ Z.of_nat k /\
    (0 <= i -> r ==[2 ^ Z.of_nat k] rotation_exponent k i) /\
    (i < 0 -> r * rotation_exponent k (- i) ==[2 ^ Z.of_nat k] 1)).
Proof.
  intros Hk Hf Hi. pose proof (index_order k Hk) as (Hm & Hmw & En & Hh). set (m := 2 ^ Z.of_nat k) in *.
  pose proof wbits_range. pose proof word_half. unfold FindAutomorphismIndex2n.
  destruct (Z.eqb_spec i 0) as [->|Hi0].
  { simpl. unfold rotation_exponent. rewrite (proj2 (Z.ltb_lt _ _)) by lia. split; [lia|]. by split; [|lia]. }
  destruct (GetTotient_pow2 k fuel c) as [c' E]; [lia..|]. fold m in E. rewrite E, bind_Ok. clear E.
  rewrite (u32_small (2 ^ _)) by (rewrite En; split; [lia|];
    change (2 ^ 32) with (2 * 2 ^ 31); assert (2 ^ (Z.of_nat k - 2) < 2 ^ 31) by (apply Z.pow_lt_mono_r; lia); lia).
  rewrite (u32_small (m - 1)) by lia. unfold abs32. rewrite (proj2 (Z.eqb_neq i _)) by lia.
  destruct (Z.ltb_spec i 0) as [Hn|Hn].
  - destruct (index_inverse k Hk 5) as (f1 & E1 & H1 & I1); [done|].
    destruct (index_inverse k Hk (m - 1)) as (f2 & E2 & H2 & I2).
    { unfold m. replace (Z.of_nat k) with (Z.succ (Z.of_nat (k - 1))) by lia.
      rewrite Z.pow_succ_r, Z.odd_sub, Z.odd_mul by lia. done. }
    fold m in E1, H1, I1, E2, H2, I2. rewrite E1, (wrap_small (m - 1)), E2, !bind_Ok by lia. cbv iota.
    rewrite (u32_small f1), (u32_small f2), ?bind_Ok by lia.
    destruct (index_branch k Hk f1 f2 (Z.abs i) H1 H2 ltac:(lia)) as (r & Er & Hr & Ec).
    fold m in Er, Hr, Ec. rewrite Er, bind_Ok. simpl. split; [done|]. split; [lia|]. intros _.
    rewrite Ec, Z.abs_neq by lia. apply rotation_inverse; [done | lia | done | done].
  - rewrite !bind_Ok. cbv iota. rewrite ?bind_Ok.
    destruct (index_branch k Hk 5 (m - 1) (Z.abs i)) as (r & Er & Hr & Ec); [fold m; lia..|].
    fold m in Er, Hr, Ec. rewrite Er, bind_Ok. simpl. split; [done|]. split; [|lia]. intros _.
    rewrite Ec, Z.abs_eq by lia. unfold rotation_exponent. destruct (i <? 2 ^ (Z.of_nat k - 2)); [done|].
    set (P := 5 ^ _). replace ((m - 1) * P) with (- P + P * m) by ring. apply eqmod_multiple.
Qed.

(** ** Cyclic groups *)

(** The loop for cyclic groups starts at 2: the indices 1 and 2 have the same
    automorphism. *)
Theorem FindAutomorphismIndexCyclic_collides fuel m g n c c' :
  GetTotient dist rfuel fuel m c = Ok (n, c') -> 2 < n < 2 ^ 31 ->
  FindAutomorphismIndexCyclic dist rfuel fuel 1 m g c = Ok (g, c') /\
  FindAutomorphismIndexCyclic dist rfuel fuel 2 m g c = Ok (g, c').
Proof.
  intros E Hn.
  assert (i32 n = n) as En by (unfold i32; rewrite Z.mod_small, (proj2 (Z.ltb_lt _ _)); lia).
  split; unfold FindAutomorphismIndexCyclic; simpl (_ =? 0); cbv iota; rewrite E, bind_Ok, En;
    rewrite (proj2 (Z.eqb_neq n 0)), bind_Ok, Z.rem_small by lia; reflexivity.
Qed.
End Automorphisms.

(** ** The table of an automorphism *)

Lemma round_log2_pow2 n : 0 <= n -> round_log2 (2 ^ n) = n.
Proof.
  intros Hn. unfold round_log2. rewrite Z.log2_pow2 by done.
  rewrite <- Z.pow_add_r by done. rewrite (proj2 (Z.leb_gt _ _)); [done|].
  apply Z.pow_lt_mono_r; lia.
Qed.

Lemma shl32_ok x s : 0 <= s < 32 -> shl32 x s = Ok (u32 (x * 2 ^ s)).
Proof. intros. unfold shl32. rewrite in_range_true, Z.shiftl_mul_pow2 by lia. done. Qed.

Lemma shr32_ok x s : 0 <= s < 32 -> shr32 x s = Ok (x / 2 ^ s).
Proof. intros. unfold shr32. rewrite in_range_true, Z.shiftr_div_pow2 by lia. done. Qed.

Section AutoMap.
Context (L : nat) (HL : (1 <= L <= 24)%nat) (k : Z) (Hk : Z.odd k = true).

(** The index of the odd power [(2 j + 1) k]. *)
Definition auto_index (j : nat) : nat := Z.to_nat ((2 * Z.of_nat j + 1) * k mod 2 ^ (Z.of_nat L + 1) / 2).

Lemma order_2 : 2 ^ (Z.of_nat L + 1) = 2 * 2 ^ Z.of_nat L.
Proof. rewrite Z.pow_add_r by lia. lia. Qed.

Lemma length_small : 0 < 2 ^ Z.of_nat L <= 2 ^ 24.
Proof. split; [apply pow2_pos; lia | apply Z.pow_le_mono_r; lia]. Qed.

Lemma auto_index_odd j :
  (2 * Z.of_nat j + 1) * k mod 2 ^ (Z.of_nat L + 1) = 2 * Z.of_nat (auto_index j) + 1.
Proof.
  pose proof length_small. set (x := (2 * Z.of_nat j + 1) * k). unfold auto_index. fold x.
  pose proof (mod_range x (2 ^ (Z.of_nat L + 1)) ltac:(rewrite order_2; lia)).
  assert (Z.odd (x mod 2 ^ (Z.of_nat L + 1)) = true) as Ho.
  { rewrite order_2. rewrite Z.mod_eq by lia. rewrite Z.odd_sub, !Z.odd_mul. unfold x.
    rewrite Z.odd_mul, Z.odd_add, Z.odd_mul, Hk. done. }
  apply Z.odd_spec in Ho as [h Eh]. rewrite Eh, Z.mul_comm, Z.div_add_l by lia.
  change (1 / 2) with 0. lia.
Qed.

Lemma auto_index_lt j : (auto_index j < 2 ^ L)%nat.
Proof.
  pose proof (auto_index_odd j). pose proof length_small. pose proof order_2.
  pose proof (mod_range ((2 * Z.of_nat j + 1) * k) (2 ^ (Z.of_nat L + 1)) ltac:(lia)).
  apply Nat2Z.inj_lt. rewrite pow2_nat_Z. lia.
Qed.

Lemma auto_index_inj i j :
  (i < 2 ^ L)%nat -> (j < 2 ^ L)%nat -> auto_index i = auto_index j -> i = j.
Proof.
  intros Hi Hj E. pose proof length_small. pose proof order_2. apply Nat2Z.inj_lt in Hi, Hj.
  rewrite pow2_nat_Z in Hi, Hj.
  assert ((2 * Z.of_nat i + 1) * k ==[2 ^ (Z.of_nat L + 1)] (2 * Z.of_nat j + 1) * k) as Em
    by (constructor; by rewrite !auto_index_odd, E).
  apply eqmod_divide in Em; [|lia]. rewrite <- Z.mul_sub_distr_r, Z.mul_comm in Em.
  apply Z.gauss in Em.
  - apply eqmod_divide in Em; [|lia].
    assert (2 * Z.of_nat i + 1 = 2 * Z.of_nat j + 1) by (apply (eqmod_small (2 ^ (Z.of_nat L + 1))); [lia.. | done]).
    lia.
  - rewrite Z.gcd_comm. apply Z.coprime_pow_r; [lia|]. apply Z.odd_spec in Hk as [h ->].
    change (Z.gcd (2 * h + 1) 2 = 1). replace (2 * h + 1) with (1 + h * 2) by lia.
    rewrite Z.gcd_comm, Z.gcd_add_mult_diag_r. apply Z.gcd_1_r.
Qed.

(** The reduction of the exponent modulo the order, by shifts. *)
Lemma auto_reduce j :
  let p := u32 ((2 * Z.of_nat j + 1) * k) in
  exists high, (h ← shr32 p (Z.of_nat L + 1); shl32 h (Z.of_nat L + 1)) = Ok high /\
    u32 (p - high) = 2 * Z.of_nat (auto_index j) + 1.
Proof.
  intros p. pose proof length_small. pose proof order_2.
  assert (0 <= p < 2 ^ 32) as Hp by (apply mod_range; lia).
  rewrite shr32_ok, bind_Ok, shl32_ok by lia. eexists. split; [done|].
  set (M := 2 ^ (Z.of_nat L + 1)) in *. pose proof (Z.div_mod p M ltac:(lia)). pose proof (mod_range p M ltac:(lia)).
  assert (0 <= p / M * M) by (apply Z.mul_nonneg_nonneg; [apply Z.div_pos|]; lia).
  rewrite (u32_small (p / M * M)) by lia. rewrite u32_small by lia.
  replace (p - p / M * M) with (p mod M) by lia.
  rewrite <- auto_index_odd. unfold p, M. apply (u32_mod _ (S L)); [lia|]. f_equal. lia.
Qed.

(** The body of the loop: entry [rv j] receives [rv (auto_index j)]. *)
Lemma auto_body_ok j s :
  (j < 2 ^ L)%nat -> length s = (2 ^ L)%nat ->
  (jTmp ← (j2 ← shl32 (Z.of_nat j) 1; Ok (u32 (j2 + 1)));
   high ← (h ← shr32 (u32 (jTmp * k)) (Z.of_nat L + 1); shl32 h (Z.of_nat L + 1));
   idx ← shr32 (u32 (u32 (jTmp * k) - high)) 1;
   vset s (Z.to_nat (ReverseBits (Z.of_nat j) (Z.of_nat L))) (ReverseBits idx (Z.of_nat L)))
  = Ok (<[rv L j := Z.of_nat (rv L (auto_index j))]> s).
Proof.
  intros Hj Hs. pose proof length_small. pose proof order_2. apply Nat2Z.inj_lt in Hj as Hj'.
  rewrite pow2_nat_Z in Hj'. rewrite shl32_ok, !bind_Ok by lia. change (2 ^ 1) with 2.
  rewrite (u32_small (Z.of_nat j * 2)), (u32_small (Z.of_nat j * 2 + 1)) by lia. rewrite (Z.mul_comm (Z.of_nat j) 2).
  destruct (auto_reduce j) as (high & -> & E). rewrite bind_Ok, E.
  rewrite shr32_ok, bind_Ok by lia. change (2 ^ 1) with 2.
  rewrite Z.mul_comm, Z.div_add_l by lia. change (1 / 2) with 0. rewrite Z.add_0_r, <- (rv_Z L HL (auto_index j)).
  fold (rv L j). rewrite vset_lt; [done|]. rewrite Hs. by apply rv_lt.
Qed.

Lemma PrecomputeAutoMap_ok precomp :
  length precomp = (2 ^ L)%nat ->
  exists R, PrecomputeAutoMap (2 ^ Z.of_nat L) k precomp = Ok R /\ length R = (2 ^ L)%nat /\
    forall j, (j < 2 ^ L)%nat -> R !! rv L j = Some (Z.of_nat (rv L (auto_index j))).
Proof.
  intros Hl. pose proof length_small. pose proof order_2. apply returns_Ok. unfold PrecomputeAutoMap.
  rewrite shl32_ok, bind_Ok by lia.
  change (2 ^ 1) with 2. rewrite u32_small, Z.mul_comm, <- order_2 by lia.
  rewrite !round_log2_pow2 by lia. replace (Z.to_nat (2 ^ Z.of_nat L)) with (2 ^ L)%nat by (rewrite <- pow2_nat_Z; lia).
  apply (for_range_inv (fun i s => length s = (2 ^ L)%nat /\
    forall j, (j < i)%nat -> s !! rv L j = Some (Z.of_nat (rv L (auto_index j)))) 0); [lia | split; [done | lia] |].
  intros i s Hi [Hs Hinv]. cbv zeta. rewrite auto_body_ok by (lia || done). simpl.
  rewrite length_insert. split; [done|]. intros j Hj. pose proof (rv_lt L HL j).
  destruct (decide (j = i)) as [->|Hne].
  - apply list_lookup_insert_eq. by rewrite Hs.
  - rewrite list_lookup_insert_ne; [apply Hinv; lia|]. intros E. apply Hne.
    rewrite <- (rv_involutive L HL j), <- (rv_involutive L HL i) by lia. by rewrite E.
Qed.

(** For an odd automorphism index, PrecomputeAutoMap fills the whole table with a
    permutation of the indices: the bit-reversed index of the odd power 2 j + 1 is
    sent to that of (2 j + 1) k modulo 2 n. *)
Theorem PrecomputeAutoMap_permutation precomp :
  length precomp = (2 ^ L)%nat ->
  exists R, PrecomputeAutoMap (2 ^ Z.of_nat L) k precomp = Ok R /\
    R ≡ₚ map Z.of_nat (seq 0 (2 ^ L)) /\
    forall j, (j < 2 ^ L)%nat -> exists i, R !! rv L j = Some (ReverseBits i (Z.of_nat L)) /\
      2 * i + 1 = (2 * Z.of_nat j + 1) * k mod 2 ^ (Z.of_nat L + 1).
Proof.
  intros Hl. destruct (PrecomputeAutoMap_ok precomp Hl) as (R & E & HlR & HR).
  exists R. split; [done|]. split.
  - apply submseteq_length_Permutation; [|by rewrite length_map, length_seq, HlR].
    assert (forall i x, R !! i = Some x -> exists j, (j < 2 ^ L)%nat /\ i = rv L j /\ x = Z.of_nat (rv L (auto_index j))) as Hx.
    { intros i x Hi. assert (i < 2 ^ L)%nat as Hlt by (rewrite <- HlR; by eapply lookup_lt_Some).
      exists (rv L i). pose proof (HR (rv L i) (rv_lt L HL i)) as E'. rewrite rv_involutive in E' by done.
      rewrite Hi in E'. injection E' as ->. split; [by apply rv_lt|]. by rewrite rv_involutive. }
    apply NoDup_submseteq.
    + apply NoDup_alt. intros i1 i2 x H1 H2.
      apply Hx in H1 as (j1 & Hj1 & -> & ->). apply Hx in H2 as (j2 & Hj2 & -> & E2). f_equal.
      apply auto_index_inj; [done..|]. apply Nat2Z.inj in E2.
      rewrite <- (rv_involutive L HL (auto_index j1)), E2 by apply auto_index_lt.
      by rewrite rv_involutive by (done || apply auto_index_lt).
    + intros x Hin. apply list_elem_of_lookup_1 in Hin as [i Hi]. apply Hx in Hi as (j & Hj & _ & ->).
      apply list_elem_of_fmap. eexists. split; [done|]. apply elem_of_seq. pose proof (rv_lt L HL (auto_index j)). lia.
  - intros j Hj. exists (Z.of_nat (auto_index j)). rewrite <- (rv_Z L) by done. rewrite HR by done.
    split; [done|]. by rewrite auto_index_odd.
Qed.

Lemma power_of_root_mod `{W : NativeWidth} q psi x :
  root_ok q psi L -> 0 <= x -> psi ^ (x mod 2 ^ (Z.of_nat L + 1)) ==[q] psi ^ x.
Proof.
  intros Hr Hx. pose proof order_2. pose proof length_small. destruct Hr.
  set (M := 2 ^ (Z.of_nat L + 1)) in *. pose proof (mod_range x M ltac:(lia)).
  assert (0 <= x / M) by (apply Z.div_pos; lia).
  rewrite (Z.div_mod x M) at 2 by lia. rewrite Z.pow_add_r, (Z.pow_mul_r psi M) by nia.
  assert (psi ^ M ==[q] 1) as E.
  { rewrite H, Z.mul_comm, Z.pow_mul_r by lia. rewrite (eqmod_pow q _ _ 2 ro_root). done. }
  rewrite (eqmod_pow q _ _ _ E), Z.pow_1_l by lia. by rewrite Z.mul_1_l.
Qed.

(** The value of a polynomial at an odd power of the root, to the power [k], is an
    entry of its transform. *)
Lemma auto_value `{W : NativeWidth} q psi v i :
  root_ok q psi L -> 0 <= k ->
  odd_power_values q psi L v !! rv L (auto_index (rv L i))
  = Some (peval (m_data v) ((psi ^ Z.of_nat (2 * rv L i + 1)) ^ k) mod q).
Proof.
  intros Hr Hk0. pose proof (rv_lt L HL (auto_index (rv L i))).
  unfold odd_power_values. rewrite list_lookup_fmap, lookup_seq_lt by done. simpl. f_equal.
  apply eqmod_elim. apply bsum_eqmod; [|done].
  rewrite rv_involutive by (done || apply auto_index_lt).
  replace (Z.of_nat _) with (2 * Z.of_nat (auto_index (rv L i)) + 1) by lia.
  rewrite <- auto_index_odd, (power_of_root_mod q) by (done || nia).
  rewrite <- Z.pow_mul_r by lia. apply eqmod_eq. f_equal. lia.
Qed.

(** Reading the transform of a polynomial through the table of PrecomputeAutoMap
    gives the values, in the order of the transform, of the polynomial after the
    automorphism X -> X^k. *)
Theorem PrecomputeAutoMap_applies_automorphism `{W : NativeWidth} q psi v c precomp :
  root_ok q psi L -> fits q L v -> cache_for q psi L c -> 0 <= k -> length precomp = (2 ^ L)%nat ->
  returns (rc ← FTT_ForwardTransformToBitReverseInPlace psi (2 ^ (Z.of_nat L + 1)) v c;
           R ← PrecomputeAutoMap (2 ^ Z.of_nat L) k precomp;
           Ok (fst rc, R))
    (fun '(u, R) => forall i, (i < 2 ^ L)%nat -> exists r, R !! i = Some (Z.of_nat r) /\
       m_data u !! r = Some (peval (m_data v) ((psi ^ Z.of_nat (2 * rv L i + 1)) ^ k) mod q)).
Proof.
  intros Hr Hv Hc Hk0 Hl. pose proof (FTT_forward_ok q psi L Hr v c Hv Hc) as H.
  apply returns_Ok in H as ([u c'] & -> & Eu & _). simpl in Eu. subst u. rewrite bind_Ok.
  destruct (PrecomputeAutoMap_ok precomp Hl) as (R & -> & HlR & HR). simpl.
  intros i Hi. pose proof (HR (rv L i) (rv_lt L HL i)) as E. rewrite rv_involutive in E by done.
  eexists. split; [exact E|]. by apply auto_value.
Qed.
End AutoMap.

(** ** Instances *)

Lemma FindAutomorphismIndex2n_spec_witness :
  returns (@FindAutomorphismIndex2n W64 counting_source 1 10 (-3) 16 0)
    (fun '(r, _) => r * 125 ==[16] 1).
Proof.
  eapply returns_mono;
    [apply (FindAutomorphismIndex2n_spec (W := W64) counting_source 1 4 10 (-3) 0); lia|].
  intros [r c] (_ & _ & H). exact (H ltac:(lia)).
Defined.

Lemma FindAutomorphismIndexCyclic_collides_witness :
  exists c', @FindAutomorphismIndexCyclic W64 counting_source 1 20 1 7 3 0 = Ok (3, c') /\
             @FindAutomorphismIndexCyclic W64 counting_source 1 20 2 7 3 0 = Ok (3, c').
Proof.
  eexists. apply (FindAutomorphismIndexCyclic_collides (W := W64) counting_source 1 20 7 3 6 0); [|lia].
  vm_compute. reflexivity.
Defined.

Lemma PrecomputeAutoMap_permutation_witness :
  exists R, PrecomputeAutoMap 8 5 (repeat 0 8) = Ok R /\ R ≡ₚ [0; 1; 2; 3; 4; 5; 6; 7].
Proof.
  destruct (PrecomputeAutoMap_permutation 3 ltac:(lia) 5 eq_refl (repeat 0 8) eq_refl) as (R & E & HP & _).
  exists R. split; [exact E | exact HP].
Defined.

Lemma PrecomputeAutoMap_applies_automorphism_witness :
  returns (rc ← @FTT_ForwardTransformToBitReverseInPlace W64 3 16 (vector8 [1; 2; 3; 4; 5; 6; 7; 8]) empty_cache;
           R ← PrecomputeAutoMap 8 5 (repeat 0 8);
           Ok (fst rc, R))
    (fun '(u, R) => exists r, R !! 0%nat = Some (Z.of_nat r) /\
       m_data u !! r = Some (peval [1; 2; 3; 4; 5; 6; 7; 8] (3 ^ 5) mod 17)).
Proof.
  eapply returns_mono.
  - apply (PrecomputeAutoMap_applies_automorphism 3 ltac:(lia) 5 eq_refl (W := W64) 17 3
      (vector8 [1; 2; 3; 4; 5; 6; 7; 8]) empty_cache (repeat 0 8));
      [apply root8 | apply ascending8 | by left | lia | reflexivity].
  - intros [u R] H. destruct (H 0%nat ltac:(simpl; lia)) as (r & E & F). exists r. split; [exact E|].
    rewrite F. reflexivity.
Defined.
