(* ===== verification/NbPolyProps.v ===== *)
(** * Polynomials over a modulus: theorems

    [PolynomialMultiplication] computes the coefficients of the product, and
    [SyntheticRemainder] the value of a polynomial by Horner's rule, for moduli
    whose square fits a word: both multiply without reducing first. *)
From stdpp Require Import base numbers list.
From Stdlib Require Import ZArith Lia.
From S2P Require Import Prelude Bits NativeInt NativeIntProps NativeVector NttProps FttProps NbPoly.
Open Scope Z_scope.

Section Polynomials.
Context `{W : NativeWidth}.

Lemma at_ok v i x : m_data v !! i = Some x -> at_ v i = Ok x.
Proof.
  intros H. unfold at_, IndexCheck. apply lookup_lt_Some in H as Hl.
  rewrite (proj2 (Nat.ltb_ge _ _)) by lia. simpl. by apply vget_Some.
Qed.

Lemma at_set_ok v i x :
  (i < length (m_data v))%nat -> at_set v i x = Ok (mkVector (<[i := x]> (m_data v)) (m_modulus v)).
Proof.
  intros H. unfold at_set, IndexCheck. rewrite (proj2 (Nat.ltb_ge _ _)) by lia. simpl.
  by rewrite vset_lt.
Qed.

Lemma at_total v i : (i < length (m_data v))%nat -> at_ v i = Ok (m_data v !!! i).
Proof. intros H. apply at_ok. by apply list_lookup_lookup_total_lt. Qed.

(** ** Horner's rule *)

Section Horner.
Context (q a : Z) (v : NativeVectorT).
Context (Hb : barrett_modulus q) (Hq2 : q * q <= 2 ^ wbits).
Context (Hv : reduced q (m_data v)) (Ha : 0 <= a < q).

(** The part of the value that the loop has still to add. *)
Lemma horner_step s val :
  bsum (fun i => m_data v !!! i) (S s) a + a ^ Z.of_nat (S s) * val
  = bsum (fun i => m_data v !!! i) s a + a ^ Z.of_nat s * (m_data v !!! s + a * val).
Proof. simpl bsum. rewrite Nat2Z.inj_succ, Z.pow_succ_r by lia. ring. Qed.

Lemma horner_reduce i val :
  (i < length (m_data v))%nat -> 0 <= val <= q ->
  returns (Mod_mu (Add (m_data v !!! i) (Mul a val)) q (barrett_mu q))
    (fun r => 0 <= r <= q /\ r ==[q] m_data v !!! i + a * val).
Proof.
  intros Hi Hval. pose proof (reduced_at q _ i Hv Hi) as Hx.
  assert (0 <= a * val <= (q - 1) * q) by nia.
  pose proof (barrett_dividend q q q ltac:(lia) ltac:(lia) ltac:(lia)).
  unfold Add, AddFast, Mul, MulFast. rewrite (wrap_small (a * val)), wrap_small by lia.
  eapply returns_mono; [apply Mod_mu_bounded; [done | lia | lia] |].
  intros r Hr. apply barrett_result_le; [lia | done].
Qed.
End Horner.

(** SyntheticRemainder returns a number at most q congruent to the value of the
    polynomial at a, for moduli within the Barrett range whose square fits a word. *)
Theorem SyntheticRemainder_evaluates q a v :
  barrett_modulus q -> q * q <= 2 ^ wbits -> reduced q (m_data v) -> 0 <= a < q ->
  (0 < length (m_data v))%nat -> Z.of_nat (length (m_data v)) < 2 ^ 31 ->
  returns (SyntheticRemainder v a q) (fun r => 0 <= r <= q /\ r ==[q] peval (m_data v) a).
Proof.
  intros Hb Hq2 Hv Ha Hl Hs. unfold SyntheticRemainder, GetLength, uidx. set (n := length (m_data v)) in *.
  rewrite u32_small by lia. replace (Z.to_nat (Z.of_nat n - 1)) with (n - 1)%nat by lia.
  rewrite at_total, bind_Ok, ComputeMu_ok, bind_Ok by (done || (unfold n; lia)).
  pose proof (reduced_at q _ (n - 1) Hv ltac:(unfold n in *; lia)) as H0.
  eapply returns_mono; [apply (for_range_inv (fun t val => 0 <= val <= q /\
    bsum (fun i => m_data v !!! i) (n - 1 - t) a + a ^ Z.of_nat (n - 1 - t) * val
    ==[q] peval (m_data v) a)) |].
  - lia.
  - split; [lia|]. unfold peval. fold n. replace (bsum _ n a) with (bsum (fun i => m_data v !!! i) (S (n - 1)) a)
      by (f_equal; lia). simpl bsum. rewrite Nat.sub_0_r. apply eqmod_eq. ring.
  - intros t val Ht [Hval E]. rewrite at_total, bind_Ok by (unfold n in *; lia).
    eapply returns_mono; [apply (horner_reduce q a v Hb Hq2 Hv Ha); [unfold n in *; lia | done]|].
    intros r [Hr Er]. split; [done|]. rewrite Er, <- E.
    replace (n - 1 - t)%nat with (S (n - 2 - t)) by lia. rewrite horner_step.
    by replace (n - 1 - S t)%nat with (n - 2 - t)%nat by lia.
  - intros val [Hval E]. split; [done|]. rewrite <- E, Nat.sub_diag. cbn [bsum].
    rewrite Z.pow_0_r. apply eqmod_eq. ring.
Qed.

(** ** Products *)

Section Product.
Context (q : Z) (a b : list Z).
Context (Hq : 0 < q) (Hq2 : q * q <= 2 ^ wbits).
Context (Ha : reduced q a) (Hb : reduced q b).

(** The contribution of [a_i] to the coefficient [t]. *)
Definition product_term (i t : nat) : Z :=
  if decide (i <= t < i + length b)%nat then a !!! i * b !!! (t - i)%nat else 0.

(** The coefficient [t] of the product. *)
Definition product_coefficient (t : nat) : Z :=
  nsum (fun i => product_term i t) (length a) mod q.

(** The result after the rows below [i] and the first [j] entries of row [i]. *)
Definition product_upto (i j t : nat) : Z :=
  (nsum (fun i' => product_term i' t) i + if decide (t < i + j)%nat then product_term i t else 0) mod q.

Lemma product_row_start i t : product_upto i 0 t = nsum (fun i' => product_term i' t) i mod q.
Proof.
  unfold product_upto. destruct (decide _); [|by rewrite Z.add_0_r].
  unfold product_term at 2. rewrite decide_False by lia. by rewrite Z.add_0_r.
Qed.

Lemma product_row_end i t : product_upto i (length b) t = product_upto (S i) 0 t.
Proof.
  rewrite product_row_start. unfold product_upto. simpl nsum. destruct (decide _); [done|].
  unfold product_term at 3. rewrite decide_False by lia. done.
Qed.

Lemma product_upto_range i j t : 0 <= product_upto i j t < q.
Proof. by apply mod_range. Qed.

Lemma product_step i j t :
  (i < length a)%nat -> (j < length b)%nat ->
  product_upto i (S j) t =
    if decide (t = i + j)%nat
    then wrap (wrap (a !!! i * b !!! j) + product_upto i j t) mod q else product_upto i j t.
Proof.
  intros Hi Hj. pose proof (reduced_at q a i Ha Hi). pose proof (reduced_at q b j Hb Hj).
  destruct (decide (t = i + j)%nat) as [->|Hne].
  - pose proof (product_upto_range i j (i + j)). assert (0 <= a !!! i * b !!! j <= (q - 1) * (q - 1)) by nia.
    rewrite (wrap_small (_ * _)), wrap_small by lia. unfold product_upto.
    rewrite decide_True, decide_False, Z.add_0_r by lia.
    unfold product_term at 2. rewrite decide_True by lia. replace (i + j - i)%nat with j by lia.
    rewrite Zplus_mod_idemp_r. f_equal. lia.
  - unfold product_upto. do 2 f_equal. destruct (decide (t < i + j)%nat); [by rewrite decide_True by lia|].
    by rewrite decide_False by lia.
Qed.

Definition product_state (i j : nat) : NativeVectorT :=
  mkVector (map (product_upto i j) (seq 0 (length a + length b - 1))) q.

Lemma product_body i j :
  (i < length a)%nat -> (j < length b)%nat ->
  (valResult ← at_ (product_state i j) (i + j);
   x ← at_ (mkVector a q) i;
   y ← at_ (mkVector b q) j;
   r ← Mod (Add (Mul x y) valResult) q;
   at_set (product_state i j) (i + j) r) = Ok (product_state i (S j)).
Proof.
  intros Hi Hj.
  unfold product_state. rewrite (at_total _ (i + j)), bind_Ok by (cbn [m_data]; rewrite length_map, length_seq; lia).
  cbn [m_data].
  rewrite map_seq_at by lia. rewrite !at_total by done. cbn [m_data]. rewrite !bind_Ok.
  unfold Mod. rewrite umod_pos, bind_Ok by exact Hq. unfold Add, AddFast, Mul, MulFast.
  rewrite at_set_ok by (cbn [m_data]; rewrite length_map, length_seq; lia).
  cbn [m_data m_modulus]. do 2 f_equal.
  apply list_eq_total; rewrite length_insert, !length_map, length_seq; [done|]. intros t Ht.
  rewrite map_seq_at by done. rewrite product_step by done. destruct (decide (t = i + j)%nat) as [->|Hne].
  - rewrite list_lookup_total_insert_eq; [done|]. by rewrite length_map, length_seq.
  - rewrite list_lookup_total_insert_ne by done. by rewrite map_seq_at by done.
Qed.
End Product.

(** PolynomialMultiplication returns the coefficients of the product polynomial
    modulo q, when the square of the modulus fits a word (the products of
    coefficients are not reduced before they are added). *)
Theorem PolynomialMultiplication_coefficients q a b :
  0 < q -> q * q <= 2 ^ wbits -> GetMSB q <= MAX_MODULUS_SIZE ->
  reduced q a -> reduced q b -> (0 < length a)%nat -> (0 < length b)%nat ->
  Z.of_nat (length a + length b) < 2 ^ 32 ->
  PolynomialMultiplication (mkVector a q) (mkVector b q)
  = Ok (mkVector (map (product_coefficient q a b) (seq 0 (length a + length b - 1))) q).
Proof.
  intros Hq Hq2 Hs Ha Hb Hla Hlb Hl. unfold PolynomialMultiplication, GetLength, uidx. cbn [m_data m_modulus].
  rewrite !(u32_small (Z.of_nat _ - 1)) by lia. rewrite (u32_small (_ - 1 + _)), u32_small by lia.
  replace (Z.to_nat _) with (length a + length b - 1)%nat by lia.
  rewrite NativeVectorT_new_ok, bind_Ok by done.
  assert (mkVector (repeat 0 (length a + length b - 1)) q = product_state q a b 0 0) as ->.
  { unfold product_state. f_equal. apply list_eq_total; rewrite repeat_length, ?length_map, ?length_seq; [done|].
    intros t Ht. rewrite map_seq_at, product_row_start by done. simpl nsum. rewrite Z.mod_0_l by lia.
    apply list_lookup_total_correct. by apply lookup_repeat. }
  assert (product_state q a b (length a) 0
    = mkVector (map (product_coefficient q a b) (seq 0 (length a + length b - 1))) q) as <-.
  { unfold product_state. f_equal. apply map_ext. intros t. apply product_row_start. }
  apply (for_range_exact (fun i => product_state q a b i 0)); [lia|]. intros i Hi.
  assert (product_state q a b (S i) 0 = product_state q a b i (length b)) as ->.
  { unfold product_state. f_equal. apply map_ext. intros t. symmetry. apply product_row_end. }
  apply (for_range_exact (fun j => product_state q a b i j)); [lia|]. intros j Hj.
  by apply product_body; [..|lia|lia].
Qed.
End Polynomials.

(** ** Instances *)

Lemma SyntheticRemainder_evaluates_witness :
  returns (@SyntheticRemainder W64 (mkVector [5; 0; 1; 1] 257) 10 257) (fun r => r ==[257] 1105).
Proof.
  eapply returns_mono; [apply (SyntheticRemainder_evaluates (W := W64) 257 10);
    [split; word64 | word64 | repeat constructor; lia | lia | simpl; lia | simpl; lia]|].
  intros r [_ H]. exact H.
Defined.

Lemma PolynomialMultiplication_coefficients_witness :
  @PolynomialMultiplication W64 (mkVector [96; 1] 97) (mkVector [1; 1; 1] 97) = Ok (mkVector [96; 0; 0; 1] 97).
Proof.
  exact (PolynomialMultiplication_coefficients (W := W64) 97 [96; 1] [1; 1; 1] ltac:(lia) ltac:(word64)
    ltac:(by vm_compute) ltac:(repeat constructor; lia) ltac:(repeat constructor; lia)
    ltac:(simpl; lia) ltac:(simpl; lia) ltac:(simpl; lia)).
Defined.
