(* ===== verification/BigInt.v ===== *)
(** * Dynamic multiprecision integers: representation, sums, products and shifts

    The class [ubint<uint32_t>] of core/include/math/hal/bigintdyn/ubintdyn.h and
    core/lib/math/hal/bigintdyn/ubintdyn.cpp in its supported configuration
    ([UBINT_32]: limbs of 32 bits, double limbs of 64 bits). An object is a record
    of its fields: the limbs, least significant first, the position of the most
    significant bit and the state. A method that changes the object returns the
    new object; assignment [a = b] copies it. Loop counters range over the
    indices of the limb vector. *)
From stdpp Require Import base numbers list.
From Stdlib Require Import ZArith Lia.
From S2P Require Import Prelude Bits.
Open Scope Z_scope.

(** ** Fields and constants *)

Inductive State := INITIALIZED | GARBAGE.

#[export] Instance State_eq_dec : EqDecision State.
Proof. solve_decision. Defined.

Record ubint := mk_ubint {
  m_value : list Z;
  m_MSB : Z;
  m_state : State
}.

Definition m_limbBitLength : Z := 32.
Definition m_log2LimbBitLength : Z := 5.
Definition m_MaxLimb : Z := 2 ^ 32 - 1.
(** The base of the representation, [(Dlimb_t)m_MaxLimb + 1]. *)
Definition limb_base : Z := m_MaxLimb + 1.

(** [int64_t] values: the conversion from an unsigned word of 64 bits, and the
    value of a signed expression, undefined when it overflows. *)
Definition i64 (x : Z) : Z :=
  let y := u64 x in if y <? 2 ^ 63 then y else y - 2 ^ 64.
Definition s64 (x : Z) : outcome Z :=
  if (- 2 ^ 63 <=? x) && (x <? 2 ^ 63) then Ok x else UB.
Definition s32 (x : Z) : outcome Z :=
  if (- 2 ^ 31 <=? x) && (x <? 2 ^ 31) then Ok x else UB.
(** A conversion to [usshort], the type of shift amounts. *)
Definition u16 (x : Z) : Z := x mod 2 ^ 16.

Definition is_garbage (a : ubint) : bool := bool_decide (m_state a = GARBAGE).

Definition set_value (a : ubint) (v : list Z) : ubint := mk_ubint v (m_MSB a) (m_state a).
Definition set_msb (a : ubint) (n : Z) : ubint := mk_ubint (m_value a) n (m_state a).

(** [v.back()] and [v.pop_back()] of a [std::vector]. *)
Definition back (v : list Z) : outcome Z :=
  match last v with Some x => Ok x | None => UB end.
Definition pop_back (v : list Z) : outcome (list Z) :=
  match v with [] => UB | _ => Ok (take (length v - 1) v) end.

(** [for (i = n - 1; i >= 0; i--) s = body(i, s)] *)
Fixpoint for_down {S} (n : nat) (body : nat -> S -> outcome S) (s : S) : outcome S :=
  match n with
  | O => Ok s
  | S n => s' ← body n s; for_down n body s'
  end.

(** ** Helpers *)

Definition GetMSBlimb_t (x : Z) : Z := GetMSB64 x.

Definition ceilIntByUInt (Number : Z) : Z :=
  let mask := m_limbBitLength - 1 in
  if Number =? 0 then 1
  else if negb (Z.land Number mask =? 0) then Z.shiftr Number m_log2LimbBitLength + 1
  else Z.shiftr Number m_log2LimbBitLength.

(** The number of limbs as an index bound. *)
Definition limbs_for (Number : Z) : nat := Z.to_nat (ceilIntByUInt Number).

Definition SetMSB (a : ubint) : outcome ubint :=
  if is_garbage a then Throw not_available_error
  else
    x ← back (m_value a);
    let msb := u32 ((Z.of_nat (length (m_value a)) - 1) * m_limbBitLength) in
    Ok (set_msb a (u32 (msb + GetMSBlimb_t x))).

Definition SetMSB_guess (a : ubint) (guessIdxChar : nat) : outcome ubint :=
  let msb := u32 ((Z.of_nat (length (m_value a)) - Z.of_nat guessIdxChar - 1)
                    * m_limbBitLength) in
  x ← vget (m_value a) guessIdxChar;
  Ok (set_msb a (u32 (msb + GetMSBlimb_t x))).

Fixpoint NormalizeLimbs_loop (i : nat) (v : list Z) : outcome (list Z) :=
  match i with
  | O => Ok v
  | S i =>
      x ← back v;
      if x =? 0 then v' ← pop_back v; NormalizeLimbs_loop i v' else Ok v
  end.

(** On a vector with no limb the counter starts at [2 ^ 32 - 1] and [back()] is
    undefined. *)
Definition NormalizeLimbs (a : ubint) : outcome ubint :=
  match m_value a with
  | [] => UB
  | v => v' ← NormalizeLimbs_loop (length v - 1) v; Ok (set_value a v')
  end.

(** ** Constructors *)

Definition ubint_default : ubint := mk_ubint [0] 0 INITIALIZED.

(** The copy constructor. *)
Definition ubint_copy (val : ubint) : outcome ubint :=
  if is_garbage val then Throw type_error else Ok val.

(** [for (i = 0; i < n; i++) { m_value.push_back((limb_t)init); init >>= 32; }] *)
Fixpoint push_limbs (n : nat) (init : Z) (v : list Z) : list Z :=
  match n with
  | O => v
  | S n => push_limbs n (Z.shiftr init m_limbBitLength) (v ++ [u32 init])
  end.

Definition ubint_u64 (val : Z) : ubint :=
  let msb := GetMSB64 val in
  let v := if val <=? m_MaxLimb then [u32 val] else push_limbs (limbs_for msb) val [] in
  mk_ubint v msb INITIALIZED.

(** [GetMSB] of a 128-bit word. *)
Definition GetMSB128 (x : Z) : Z := if x =? 0 then 0 else 128 - (127 - Z.log2 x).

Definition ubint_u128 (val : Z) : ubint :=
  let msb := GetMSB128 val in
  let v := if val <=? m_MaxLimb then [u32 val] else push_limbs (limbs_for msb) val [] in
  mk_ubint v msb INITIALIZED.

(** The constructor from the smaller integral types: conversion to [uint64_t]. *)
Definition ubint_int (val : Z) : ubint := ubint_u64 (u64 val).

(** ** Comparison *)

Fixpoint Compare_loop (n : nat) (v w : list Z) : outcome Z :=
  match n with
  | O => Ok 0
  | S i =>
      x ← vget v i;
      y ← vget w i;
      if x >? y then Ok 1
      else if x <? y then Ok (-1)
      else Compare_loop i v w
  end.

Definition Compare (this a : ubint) : outcome Z :=
  if is_garbage this || is_garbage a then Throw not_available_error
  else if m_MSB this <? m_MSB a then Ok (-1)
  else if m_MSB this >? m_MSB a then Ok 1
  else Compare_loop (length (m_value this)) (m_value this) (m_value a).

(** The relational operators of math/hal/integer.h. *)
Definition op_eq (a b : ubint) : outcome bool := c ← Compare a b; Ok (c =? 0).
Definition op_ne (a b : ubint) : outcome bool := c ← Compare a b; Ok (negb (c =? 0)).
Definition op_gt (a b : ubint) : outcome bool := c ← Compare a b; Ok (c >? 0).
Definition op_ge (a b : ubint) : outcome bool := c ← Compare a b; Ok (c >=? 0).
Definition op_lt (a b : ubint) : outcome bool := c ← Compare a b; Ok (c <? 0).
Definition op_le (a b : ubint) : outcome bool := c ← Compare a b; Ok (c <=? 0).

(** ** Addition *)

(** The sum of two limbs and the carry: the limb to store and the new carry. *)
Definition add_limbs (x y ofl : Z) : Z * Z :=
  let ofl := u64 (x + y + ofl) in
  (u32 ofl, Z.shiftr ofl m_limbBitLength).

(** [for (i = lo; i < hi; i++)]: adds the carry to the limbs of [A], appends. *)
Definition carry_append (lo hi : nat) (A : list Z) (s : list Z * Z) : outcome (list Z * Z) :=
  for_range lo hi (fun i '(res, ofl) =>
    x ← vget A i;
    let '(l, ofl) := add_limbs x 0 ofl in
    Ok (res ++ [l], ofl)) s.

(** [for (i = lo; i < hi; i++)]: appends the limbs of [A]. *)
Definition copy_append (lo hi : nat) (A res : list Z) : outcome (list Z) :=
  for_range lo hi (fun i res => x ← vget A i; Ok (res ++ [x])) res.

(** The limbs of [Add]: [v] is the larger operand, [ceilIntA] and [ceilIntB] the
    positions where the operands end. *)
Definition Add_limbs (ceilIntA ceilIntB : nat) (v w : list Z) : outcome (list Z) :=
  '(res, ofl) ← for_range 0 ceilIntB (fun i '(res, ofl) =>
    x ← vget v i;
    y ← vget w i;
    let '(l, ofl) := add_limbs x y ofl in
    Ok (res ++ [l], ofl)) ([], 0);
  if negb (ofl =? 0) then
    '(res, ofl) ← carry_append ceilIntB ceilIntA v (res, ofl);
    Ok (if negb (ofl =? 0) then res ++ [1] else res)
  else copy_append ceilIntB ceilIntA v res.

Definition Add (this b : ubint) : outcome ubint :=
  if is_garbage this || is_garbage b then Throw not_available_error
  else
    gt ← op_gt this b;
    let '(A, B) := if (gt : bool) then (this, b) else (b, this) in
    if m_MSB B =? 0 then ubint_copy A
    else
      res ← Add_limbs (limbs_for (m_MSB A)) (limbs_for (m_MSB B)) (m_value A) (m_value B);
      SetMSB (mk_ubint res 0 INITIALIZED).

(** The limbs of [AddEq]: the sum over the common indices overwrites the limbs
    of [this]; the rest is carried through the longer operand. *)
Definition AddEq_limbs (v w : list Z) : outcome (list Z) :=
  let sizeThis := length v in
  let sizeB := length w in
  let sizeSmall := if (sizeThis <? sizeB)%nat then sizeThis else sizeB in
  '(v, ofl) ← for_range 0 sizeSmall (fun i '(v, ofl) =>
    x ← vget v i;
    y ← vget w i;
    let '(l, ofl) := add_limbs x y ofl in
    v ← vset v i l;
    Ok (v, ofl)) (v, 0);
  if (sizeB <? sizeThis)%nat then
    if negb (ofl =? 0) then
      '(v, ofl) ← for_range sizeSmall sizeThis (fun i '(v, ofl) =>
        x ← vget v i;
        let '(l, ofl) := add_limbs x 0 ofl in
        v ← vset v i l;
        Ok (v, ofl)) (v, ofl);
      Ok (if negb (ofl =? 0) then v ++ [1] else v)
    else Ok v
  else
    if negb (ofl =? 0) then
      '(v, ofl) ← carry_append sizeSmall sizeB w (v, ofl);
      Ok (if negb (ofl =? 0) then v ++ [1] else v)
    else copy_append sizeSmall sizeB w v.

Definition AddEq (this b : ubint) : outcome ubint :=
  if is_garbage this || is_garbage b then Throw not_available_error
  else if m_MSB b =? 0 then Ok this
  else if m_MSB this =? 0 then Ok b
  else
    v ← AddEq_limbs (m_value this) (m_value b);
    SetMSB (set_value this v).

(** ** Subtraction *)

(** [while (v\[cntr\] == 0) { v\[cntr\] = m_MaxLimb; cntr++; } v\[cntr\]--;] *)
Fixpoint borrow (fuel : nat) (v : list Z) (cntr : nat) : outcome (list Z) :=
  match fuel with
  | O => OutOfFuel
  | S fuel =>
      x ← vget v cntr;
      if x =? 0 then v ← vset v cntr m_MaxLimb; borrow fuel v (S cntr)
      else vset v cntr (u32 (x - 1))
  end.

(** One turn of the loop over the limbs of the subtrahend. *)
Definition Sub_step (w : list Z) (i : nat) (v : list Z) : outcome (list Z) :=
  x ← vget v i;
  y ← vget w i;
  if x <? y then
    if (length v <=? S i)%nat then Throw math_error
    else
      v ← borrow (S (length v)) v (S i);
      x ← vget v i;
      vset v i (u32 (u32 (x + (m_MaxLimb - y)) + 1))
  else vset v i (u32 (x - y)).

Definition Sub_limbs (v w : list Z) : outcome (list Z) :=
  for_range 0 (length w) (Sub_step w) v.

Definition Sub (this b : ubint) : outcome ubint :=
  if is_garbage this || is_garbage b then Throw not_available_error
  else
    gt ← op_gt this b;
    if negb gt then Ok (ubint_int 0)
    else
      result ← ubint_copy this;
      v ← Sub_limbs (m_value result) (m_value b);
      result ← NormalizeLimbs (set_value result v);
      SetMSB result.

Definition SubEq (this b : ubint) : outcome ubint :=
  if is_garbage this || is_garbage b then Throw not_available_error
  else
    gt ← op_gt this b;
    if negb gt then Ok (ubint_int 0)
    else
      v ← Sub_limbs (m_value this) (m_value b);
      this ← NormalizeLimbs (set_value this v);
      SetMSB this.

(** ** Multiplication *)

(** [for (auto itr : m_value)]: the products of the limbs by [limbb], appended
    to [acc], and the last carry. *)
Fixpoint mul_limbs (v : list Z) (limbb ofl : Z) (acc : list Z) : list Z * Z :=
  match v with
  | [] => (acc, ofl)
  | itr :: v =>
      let temp := u64 (itr * limbb + ofl) in
      mul_limbs v limbb (u32 (Z.shiftr temp m_limbBitLength)) (acc ++ [u32 temp])
  end.

(** The partial product for limb [i] of [b]: [i] zero limbs, the products, and
    the carry when there is one. *)
Definition partial_product (v : list Z) (i : nat) (limbb : Z) : outcome ubint :=
  let '(acc, ofl) := mul_limbs v limbb 0 (repeat 0 i) in
  SetMSB (mk_ubint (if negb (ofl =? 0) then acc ++ [ofl] else acc) 0 INITIALIZED).

Definition Mul (this b : ubint) : outcome ubint :=
  let ans := ubint_int 0 in
  if (m_MSB b =? 0) || is_garbage b || is_garbage this || (m_MSB this =? 0) then Ok ans
  else if m_MSB b =? 1 then ubint_copy this
  else if m_MSB this =? 1 then ubint_copy b
  else
    for_range 0 (length (m_value b)) (fun i ans =>
      limbb ← vget (m_value b) i;
      tmpans ← partial_product (m_value this) i limbb;
      AddEq ans tmpans) ans.

Definition MulEq (this b : ubint) : outcome ubint := Mul this b.

Definition MulIntegerByLimb (this : ubint) (b : Z) : outcome ubint :=
  if is_garbage this then Throw not_available_error
  else if (b =? 0) || (m_MSB this =? 0) then Ok (ubint_int 0)
  else
    let '(acc, ofl) := mul_limbs (m_value this) b 0 [] in
    SetMSB (mk_ubint (if negb (ofl =? 0) then acc ++ [ofl] else acc) 0 INITIALIZED).

(** The recursion on [p / 2] ends within 32 calls for a [usint] exponent. *)
Fixpoint Exp_fuel (fuel : nat) (this : ubint) (p : Z) : outcome ubint :=
  match fuel with
  | O => OutOfFuel
  | S fuel =>
      if p =? 0 then Ok (ubint_int 1)
      else
        x ← ubint_copy this;
        if p =? 1 then Ok x
        else
          tmp ← Exp_fuel fuel x (p / 2);
          sq ← Mul tmp tmp;
          if p mod 2 =? 0 then Ok sq else Mul sq x
  end.
Definition Exp (this : ubint) (p : Z) : outcome ubint := Exp_fuel 33 this p.

Definition ExpEq (this : ubint) (p : Z) : outcome ubint :=
  if p =? 0 then Ok (ubint_int 1)
  else if p =? 1 then Ok this
  else
    tmp ← Exp this (p / 2);
    sq ← Mul tmp tmp;
    if p mod 2 =? 0 then Ok sq else MulEq this sq.

(** ** Shifts *)

(** The limbs shifted left by [remainingShift] bits, carrying the overflow. *)
Definition shl_limbs (n : nat) (remainingShift : Z) (v : list Z) : outcome (list Z * Z) :=
  for_range 0 n (fun i '(v, oFlow) =>
    temp ← vget v i;
    let temp := u64 (Z.shiftl temp remainingShift) in
    v ← vset v i (u32 (u32 temp + oFlow));
    Ok (v, u32 (Z.shiftr temp m_limbBitLength))) (v, 0).

(** The limbs moved up by [shiftByLimb] indices, zero limbs below. *)
Definition move_up (shiftByLimb : nat) (v : list Z) : outcome (list Z) :=
  let currentSize := length v in
  v ← for_down currentSize (fun i v => x ← vget v i; vset v (i + shiftByLimb)%nat x)
        (resize (currentSize + shiftByLimb) 0 v);
  for_down shiftByLimb (fun i v => vset v i 0) v.

(** The body [LShift] and [LShiftEq] share. *)
Definition LShift_body (ans : ubint) (shift : Z) : outcome ubint :=
  let shiftByLimb := Z.shiftr shift m_log2LimbBitLength in
  let remainingShift := Z.land shift (m_limbBitLength - 1) in
  ans ← (if negb (remainingShift =? 0) then
           let n := limbs_for (m_MSB ans) in
           '(v, oFlow) ← shl_limbs n remainingShift (m_value ans);
           v ← (if negb (oFlow =? 0) then
                  if (n <? length v)%nat then vset v n oFlow else Ok (v ++ [oFlow])
                else Ok v);
           Ok (mk_ubint v (u32 (m_MSB ans + remainingShift)) (m_state ans))
         else Ok ans);
  v ← (if negb (shiftByLimb =? 0) then move_up (Z.to_nat shiftByLimb) (m_value ans)
       else Ok (m_value ans));
  Ok (mk_ubint v (u32 (m_MSB ans + shiftByLimb * m_limbBitLength)) (m_state ans)).

Definition LShift (this : ubint) (shift : Z) : outcome ubint :=
  if is_garbage this then Throw not_available_error
  else if m_MSB this =? 0 then Ok (ubint_int 0)
  else ans ← ubint_copy this; LShift_body ans shift.

Definition LShiftEq (this : ubint) (shift : Z) : outcome ubint :=
  if is_garbage this then Throw not_available_error
  else if m_MSB this =? 0 then Ok this
  else LShift_body this shift.

(** The limbs moved down by [shiftByLimb] indices, the upper ones popped. *)
Definition move_down (shiftByLimb : nat) (v : list Z) : outcome (list Z) :=
  v ← for_range shiftByLimb (length v) (fun i v =>
        x ← vget v i; vset v (i - shiftByLimb)%nat x) v;
  for_range 0 shiftByLimb (fun _ v => pop_back v) v.

(** The limbs shifted right by [remainingShift] bits. The mask is computed as
    [(1 << remainingShift) - 1] in [int]: the shift gives the [int] with these
    bits, the subtraction is undefined when it overflows. *)
Definition shr_limbs (n : nat) (remainingShift : Z) (v : list Z) : outcome (list Z) :=
  mask ← s32 (i32 (Z.shiftl 1 remainingShift) - 1);
  let maskVal := u32 mask in
  let compShiftVal := m_limbBitLength - remainingShift in
  '(v, _) ← for_down n (fun i '(v, overFlow) =>
    oldVal ← vget v i;
    v ← vset v i (u32 (Z.shiftr oldVal remainingShift + overFlow));
    Ok (v, u32 (Z.shiftl (Z.land oldVal maskVal) compShiftVal))) (v, 0);
  Ok v.

(** The body [RShift] and [RShiftEq] share. *)
Definition RShift_body (ans : ubint) (shift : Z) : outcome ubint :=
  let shiftByLimb := Z.shiftr shift m_log2LimbBitLength in
  let remainingShift := Z.land shift (m_limbBitLength - 1) in
  ans ← (if negb (shiftByLimb =? 0) then
           v ← move_down (Z.to_nat shiftByLimb) (m_value ans);
           Ok (mk_ubint v (u32 (m_MSB ans - Z.shiftl shiftByLimb m_log2LimbBitLength))
                 (m_state ans))
         else Ok ans);
  ans ← (if negb (remainingShift =? 0) then
           v ← shr_limbs (limbs_for (m_MSB ans)) remainingShift (m_value ans);
           Ok (mk_ubint v (u32 (m_MSB ans - remainingShift)) (m_state ans))
         else Ok ans);
  ans ← NormalizeLimbs ans;
  SetMSB ans.

Definition RShift (this : ubint) (shift : Z) : outcome ubint :=
  if is_garbage this then Throw not_available_error
  else if (m_MSB this =? 0) || (m_MSB this <=? shift) then Ok (ubint_int 0)
  else ans ← ubint_copy this; RShift_body ans shift.

(** When every bit is shifted out the object is set to zero, and the rest of the
    method runs on it. *)
Definition RShiftEq (this : ubint) (shift : Z) : outcome ubint :=
  if is_garbage this then Throw not_available_error
  else if m_MSB this =? 0 then Ok this
  else
    let this := if m_MSB this <=? shift then mk_ubint [0] 0 (m_state this) else this in
    RShift_body this shift.

(** ** Bits and limbs *)

Fixpoint bmask_loop (n : nat) (bmask : Z) : Z :=
  match n with O => bmask | S n => bmask_loop n (u32 (Z.shiftl bmask 1)) end.

Definition GetBitAtIndex (this : ubint) (index : Z) : outcome Z :=
  if index <=? 0 then Ok 0
  else if index >? m_MSB this then Ok 0
  else
    let idx := ceilIntByUInt index - 1 in
    temp ← vget (m_value this) (Z.to_nat idx);
    let bmask_counter :=
      if index mod m_limbBitLength =? 0 then m_limbBitLength else index mod m_limbBitLength in
    let bmask := bmask_loop (Z.to_nat (bmask_counter - 1)) 1 in
    Ok (Z.shiftr (Z.land temp bmask) (bmask_counter - 1)).

Definition SetIntAtIndex (this : ubint) (idx : nat) (value : Z) : outcome ubint :=
  if (length (m_value this) <=? idx)%nat then Throw math_error
  else v ← vset (m_value this) idx value; Ok (set_value this v).

(** [for (i = n; i > 0; i--)]: whether a bit below the top one is set. *)
Fixpoint isPowerOfTwo_loop (i : nat) (a : ubint) : outcome bool :=
  match i with
  | O => Ok true
  | S j =>
      b ← GetBitAtIndex a (Z.of_nat i);
      if b =? 1 then Ok false else isPowerOfTwo_loop j a
  end.
Definition isPowerOfTwo (m_numToCheck : ubint) : outcome bool :=
  isPowerOfTwo_loop (Z.to_nat (m_MSB m_numToCheck - 1)) m_numToCheck.

(** The loop of [GetDigitAtIndexForBase]; [i], [newIndex] and [digit] are [usint]. *)
Fixpoint GetDigit_loop (fuel : nat) (a : ubint) (base i newIndex digit : Z) : outcome Z :=
  match fuel with
  | O => OutOfFuel
  | S fuel =>
      if i <? base then
        b ← GetBitAtIndex a newIndex;
        let digit := u32 (digit + u32 (b * i)) in
        GetDigit_loop fuel a base (u32 (i * 2)) (u32 (newIndex + 1)) digit
      else Ok digit
  end.
(** [ceil(log2(base))] is exact on the [usint] range. *)
Definition GetDigitAtIndexForBase (this : ubint) (index base : Z) : outcome Z :=
  let DigitLen := Z.log2_up base in
  let newIndex := u32 (1 + u32 (u32 (index - 1) * DigitLen)) in
  GetDigit_loop 33 this base 1 newIndex 0.

(** [ConvertToInt<uint64_t>()], the default instance. *)
Definition ConvertToInt (this : ubint) : outcome Z :=
  if (length (m_value this) =? 0)%nat then Throw not_available_error
  else
    let msbTest := if 64 >? m_MSB this then m_MSB this else 64 in
    for_range 0 (limbs_for msbTest) (fun i result =>
      tmp ← vget (m_value this) i;
      Ok (u64 (result + u64 (Z.shiftl tmp (m_limbBitLength * Z.of_nat i))))) 0.
