(* ===== verification/BigDiv.v ===== *)
(** * Dynamic multiprecision integers: division, modular arithmetic and strings

    The rest of core/lib/math/hal/bigintdyn/ubintdyn.cpp: Knuth's Algorithm D in
    its three variants ([divqr_vect], [divq_vect], [divr_vect]), the quotients
    and remainders built on it, Barrett reduction, modular arithmetic, inversion
    and exponentiation, and the conversions from and to strings. *)
From stdpp Require Import base numbers list.
From Stdlib Require Import ZArith Lia Ascii.
From S2P Require Import Prelude Bits BigInt.
Open Scope Z_scope.

(** ** Division of limb vectors *)

Definition nlz32 (x : Z) : Z :=
  if x =? 0 then 32
  else
    let n := 0 in
    let '(n, x) := if x <=? 0x0000FFFF then (n + 16, u32 (Z.shiftl x 16)) else (n, x) in
    let '(n, x) := if x <=? 0x00FFFFFF then (n + 8, u32 (Z.shiftl x 8)) else (n, x) in
    let '(n, x) := if x <=? 0x0FFFFFFF then (n + 4, u32 (Z.shiftl x 4)) else (n, x) in
    let '(n, x) := if x <=? 0x3FFFFFFF then (n + 2, u32 (Z.shiftl x 2)) else (n, x) in
    if x <=? 0x7FFFFFFF then n + 1 else n.

(** The function selected for 64-bit limbs, a configuration that is not built. *)
Definition nlz64 (x : Z) : Z :=
  if x =? 0 then 64
  else
    let n := 0 in
    let '(n, x) := if x <=? 0x000000FF then (n + 32, u64 (Z.shiftl x 32)) else (n, x) in
    let '(n, x) := if x <=? 0x0000FFFF then (n + 16, u64 (Z.shiftl x 16)) else (n, x) in
    let '(n, x) := if x <=? 0x00FFFFFF then (n + 8, u64 (Z.shiftl x 8)) else (n, x) in
    let '(n, x) := if x <=? 0x0FFFFFFF then (n + 4, u64 (Z.shiftl x 4)) else (n, x) in
    let '(n, x) := if x <=? 0x3FFFFFFF then (n + 2, u64 (Z.shiftl x 2)) else (n, x) in
    if x <=? 0x7FFFFFFF then n + 1 else n.

(** [n == 1]: division by one limb. The product [q\[j\] * v\[0\]] is a product of
    two [limb_t] and wraps; [k] is an [int64_t]. *)
Definition div_single (u : list Z) (v0 : Z) (q : list Z) : outcome (list Z * Z) :=
  for_down (length u) (fun j '(q, k) =>
    uj ← vget u j;
    let d := u64 (u64 (k * limb_base) + uj) in
    let qj := u32 (d / v0) in
    q ← vset q j qj;
    Ok (q, i64 (d - u32 (qj * v0)))) (q, 0).

(** Limb [i] of a vector shifted left by [s] bits. *)
Definition shl_limb (v : list Z) (s : Z) (i : nat) : outcome Z :=
  x ← vget v i;
  y ← vget v (i - 1);
  Ok (Z.lor (u32 (Z.shiftl x s)) (u32 (Z.shiftr y (m_limbBitLength - s)))).

(** [for (i = n - 1; i > 0; i--) vn\[i\] = ...; vn\[0\] = v\[0\] << s;] *)
Definition normalize_limbs (n : nat) (v : list Z) (s : Z) (vn : list Z) : outcome (list Z) :=
  vn ← for_down (n - 1) (fun i vn =>
    x ← shl_limb v s (S i);
    vset vn (S i) x) vn;
  x ← vget v 0;
  vset vn 0 (u32 (Z.shiftl x s)).

Definition normalized_divisor (v : list Z) (s : Z) : outcome (list Z) :=
  normalize_limbs (length v) v s (repeat 0 (length v)).

Definition normalized_dividend (u : list Z) (s : Z) : outcome (list Z) :=
  let m := length u in
  x ← vget u (m - 1);
  un ← vset (repeat 0 (S m)) m (u32 (Z.shiftr x (m_limbBitLength - s)));
  normalize_limbs m u s un.

(** The label [again]: corrects the estimate of the quotient digit. The loop
    ends within two turns because [rhat] grows by [vn\[n-1\] >= 2 ^ 31]. *)
Fixpoint again (fuel : nat) (qhat rhat v1 v2 u3 : Z) : outcome Z :=
  match fuel with
  | O => OutOfFuel
  | S fuel =>
      if (qhat >=? limb_base) || (u64 (qhat * v2) >? u64 (u64 (limb_base * rhat) + u3)) then
        let qhat := u64 (qhat - 1) in
        let rhat := u64 (rhat + v1) in
        if rhat <? limb_base then again fuel qhat rhat v1 v2 u3 else Ok qhat
      else Ok qhat
  end.

(** The estimate of quotient digit [j]. *)
Definition estimate (n j : nat) (un vn : list Z) : outcome Z :=
  u1 ← vget un (j + n);
  u2 ← vget un (j + n - 1);
  v1 ← vget vn (n - 1);
  v2 ← vget vn (n - 2);
  u3 ← vget un (j + n - 2);
  let d := u64 (u64 (u1 * limb_base) + u2) in
  let qhat := d / v1 in
  let rhat := u64 (d - u64 (qhat * v1)) in
  again 3 qhat rhat v1 v2 u3.

(** "Multiply and subtract": the new dividend and the last [t]. *)
Definition mul_sub (n j : nat) (qhat : Z) (vn un : list Z) : outcome (list Z * Z) :=
  '(un, k) ← for_range 0 n (fun i '(un, k) =>
    vi ← vget vn i;
    ui ← vget un (i + j);
    let p := u64 (qhat * vi) in
    d ← s64 (ui - k);
    let t := i64 (d - Z.land p m_MaxLimb) in
    un ← vset un (i + j)%nat (u32 t);
    Ok (un, i64 (Z.shiftr p m_limbBitLength - Z.shiftr t m_limbBitLength))) (un, 0);
  ut ← vget un (j + n);
  t ← s64 (ut - k);
  un ← vset un (j + n)%nat (u32 t);
  Ok (un, t).

(** "If we subtracted too much, add back." *)
Definition add_back (n j : nat) (vn un : list Z) : outcome (list Z) :=
  '(un, k) ← for_range 0 n (fun i '(un, k) =>
    ui ← vget un (i + j);
    vi ← vget vn i;
    let t := i64 (u64 (ui + vi) + k) in
    un ← vset un (i + j)%nat (u32 t);
    Ok (un, Z.shiftr t m_limbBitLength)) (un, 0);
  ut ← vget un (j + n);
  vset un (j + n)%nat (u32 (ut + k)).

(** One turn of the main loop: the new dividend and the quotient digit. *)
Definition div_step (n j : nat) (vn un : list Z) : outcome (list Z * Z) :=
  qhat ← estimate n j un vn;
  '(un, t) ← mul_sub n j qhat vn un;
  if t <? 0 then
    un ← add_back n j vn un;
    Ok (un, u32 (u32 qhat - 1))
  else Ok (un, u32 qhat).

(** "Unnormalize" the remainder into the [n] limbs of [r]. *)
Definition unnormalize (n : nat) (un : list Z) (s : Z) (r : list Z) : outcome (list Z) :=
  r ← for_range 0 (n - 1) (fun i r =>
    x ← vget un i;
    y ← vget un (S i);
    vset r i (u32 (Z.lor (Z.shiftr x s) (u64 (Z.shiftl y (m_limbBitLength - s)))))) r;
  x ← vget un (n - 1);
  vset r (n - 1) (Z.shiftr x s).

(** [m < n || n <= 0 || v\[n - 1\] == 0] *)
Definition div_invalid (u v : list Z) : outcome bool :=
  if (length u <? length v)%nat || (length v =? 0)%nat then Ok true
  else x ← vget v (length v - 1); Ok (x =? 0).

(** The number of quotient limbs, [m - n + 1]. When [m < n] it is not positive
    and the unsigned argument of [resize] is too large: a negative one throws
    [std::length_error]. *)
Definition resize_quotient (q u v : list Z) : outcome (list Z) :=
  let size := Z.of_nat (length u) - Z.of_nat (length v) + 1 in
  if size <? 0 then Throw std_exception else Ok (resize (Z.to_nat size) 0 q).

(** The status and the limbs of the quotient and the remainder. *)
Definition divqr_vect (q r u v : list Z) : outcome (Z * list Z * list Z) :=
  q ← resize_quotient q u v;
  bad ← div_invalid u v;
  if (bad : bool) then Ok (1, q, r)
  else
    let m := length u in
    let n := length v in
    if (n =? 1)%nat then
      v0 ← vget v 0;
      '(q, k) ← div_single u v0 q;
      r ← (if negb (length r =? 0)%nat then vset r 0 (u32 k) else Ok r);
      Ok (0, q, r)
    else
      top ← vget v (n - 1);
      let s := nlz32 top in
      vn ← normalized_divisor v s;
      un ← normalized_dividend u s;
      '(un, q) ← for_down (m - n + 1) (fun j '(un, q) =>
        '(un, qj) ← div_step n j vn un;
        q ← vset q j qj;
        Ok (un, q)) (un, q);
      r ← unnormalize n un s (resize n 0 r);
      Ok (0, q, r).

Definition divq_vect (q u v : list Z) : outcome (Z * list Z) :=
  q ← resize_quotient q u v;
  bad ← div_invalid u v;
  if (bad : bool) then Ok (1, q)
  else
    let m := length u in
    let n := length v in
    if (n =? 1)%nat then
      v0 ← vget v 0;
      '(q, k) ← div_single u v0 q;
      Ok (0, q)
    else
      top ← vget v (n - 1);
      let s := nlz32 top in
      vn ← normalized_divisor v s;
      un ← normalized_dividend u s;
      '(un, q) ← for_down (m - n + 1) (fun j '(un, q) =>
        '(un, qj) ← div_step n j vn un;
        q ← vset q j qj;
        Ok (un, q)) (un, q);
      Ok (0, q).

(** The quotient digits are not stored; the caller has resized [r]. *)
Definition divr_vect (r u v : list Z) : outcome (Z * list Z) :=
  bad ← div_invalid u v;
  if (bad : bool) then Ok (1, r)
  else
    let m := length u in
    let n := length v in
    if (n =? 1)%nat then
      v0 ← vget v 0;
      '(_, k) ← div_single u v0 (repeat 0 (m - n + 1));
      r ← vset (resize n 0 r) 0 (u32 k);
      Ok (0, r)
    else
      top ← vget v (n - 1);
      let s := nlz32 top in
      vn ← normalized_divisor v s;
      un ← normalized_dividend u s;
      un ← for_down (m - n + 1) (fun j un =>
        '(un, _) ← div_step n j vn un; Ok un) un;
      r ← unnormalize n un s r;
      Ok (0, r).

(** ** Quotients *)

(** [NormalizeLimbs(); m_state = INITIALIZED; SetMSB();] on the limbs a division
    returned. *)
Definition finish (v : list Z) : outcome ubint :=
  a ← NormalizeLimbs (mk_ubint v 0 INITIALIZED);
  SetMSB a.

Definition DividedBy (this b : ubint) : outcome ubint :=
  if is_garbage b then Throw not_available_error
  else
    z ← op_eq b (ubint_int 0);
    if (z : bool) then Throw math_error
    else if m_MSB b >? m_MSB this then Ok (ubint_int 0)
    else if is_garbage this then Throw not_available_error
    else
      e ← op_eq b this;
      if (e : bool) then Ok (ubint_int 1)
      else
        '(f, q) ← divq_vect (m_value ubint_default) (m_value this) (m_value b);
        if negb (f =? 0) then Throw math_error else finish q.

Definition DividedByEq (this b : ubint) : outcome ubint := DividedBy this b.

Definition DivideAndRound (this q : ubint) : outcome ubint :=
  if is_garbage q then Throw not_available_error
  else
    z ← op_eq q (ubint_int 0);
    if (z : bool) then Throw math_error
    else
      halfQ ← RShift q 1;
      lt ← op_lt this q;
      if (lt : bool) then
        le ← op_le this halfQ;
        Ok (if (le : bool) then ubint_int 0 else ubint_int 1)
      else
        '(f, ans, rv) ← divqr_vect (m_value (ubint_int 0)) (m_value (ubint_int 0))
                          (m_value this) (m_value q);
        if negb (f =? 0) then Throw math_error
        else
          ans ← finish ans;
          rv ← finish rv;
          le ← op_le rv halfQ;
          if negb le then AddEq ans (ubint_int 1) else Ok ans.

Definition DivideAndRoundEq (this q : ubint) : outcome ubint := DivideAndRound this q.

Definition MultiplyAndRound (this p q : ubint) : outcome ubint :=
  ans ← ubint_copy this;
  ans ← MulEq ans p;
  DivideAndRoundEq ans q.

Definition MultiplyAndRoundEq (this p q : ubint) : outcome ubint :=
  this ← MulEq this p;
  DivideAndRoundEq this q.

(** ** Reduction *)

(** The part of [Mod] and [ModEq] after their guards. *)
Definition Mod_body (this modulus : ubint) : outcome ubint :=
  m0 ← vget (m_value modulus) 0;
  if (m_MSB modulus =? 2) && (m0 =? 2) then
    x0 ← vget (m_value this) 0;
    Ok (if x0 mod 2 =? 0 then ubint_int 0 else ubint_int 1)
  else
    let ans := resize (length (m_value modulus)) 0 (m_value (ubint_int 0)) in
    '(f, r) ← divr_vect ans (m_value this) (m_value modulus);
    if negb (f =? 0) then Throw math_error else finish r.

(** [modulus.m_value.size() > 1 && modulus.m_value.back() == 0] *)
Definition unnormalized (modulus : ubint) : outcome bool :=
  if (1 <? length (m_value modulus))%nat then x ← back (m_value modulus); Ok (x =? 0)
  else Ok false.

Definition Mod (this modulus : ubint) : outcome ubint :=
  if is_garbage this then Throw not_available_error
  else if is_garbage modulus then Throw not_available_error
  else
    z ← op_eq modulus (ubint_int 0);
    if (z : bool) then Throw math_error
    else
      un ← unnormalized modulus;
      if (un : bool) then Throw not_available_error
      else if m_MSB this <? m_MSB modulus then ubint_copy this
      else
        lt ← (if m_MSB this =? m_MSB modulus then op_lt this modulus else Ok false);
        if (lt : bool) then ubint_copy this else Mod_body this modulus.

Definition ModEq (this modulus : ubint) : outcome ubint :=
  if is_garbage this then Throw not_available_error
  else if is_garbage modulus then Throw math_error
  else
    z ← op_eq modulus (ubint_int 0);
    if (z : bool) then Throw not_available_error
    else
      un ← unnormalized modulus;
      if (un : bool) then Throw not_available_error
      else if m_MSB this <? m_MSB modulus then Ok this
      else
        lt ← (if m_MSB this =? m_MSB modulus then op_lt this modulus else Ok false);
        if (lt : bool) then Ok this else Mod_body this modulus.

Definition ComputeMu (this : ubint) : outcome ubint :=
  temp ← LShiftEq (ubint_int 1) (u16 (u32 (2 * m_MSB this + 3)));
  DividedBy temp this.

(** The overloads that are given a [mu]. The header defines [NO_BARRETT], so their
    reduction is the one by division and [mu] is not read; the Barrett reduction of
    the other branch of the conditional is in the section on it below. *)
Definition Mod_mu (this modulus mu : ubint) : outcome ubint :=
  ans ← ubint_copy this;
  ModEq ans modulus.

Definition ModEq_mu (this modulus mu : ubint) : outcome ubint := ModEq this modulus.

(** ** Modular sums and differences *)

(** [if (x >= modulus) x.ModEq(modulus);] and its Barrett variant. *)
Definition reduce_op (x modulus : ubint) : outcome ubint :=
  ge ← op_ge x modulus;
  if (ge : bool) then ModEq x modulus else Ok x.
Definition reduce_op_mu (x modulus mu : ubint) : outcome ubint :=
  ge ← op_ge x modulus;
  if (ge : bool) then ModEq_mu x modulus mu else Ok x.

Definition ModAdd (this b modulus : ubint) : outcome ubint :=
  a ← ubint_copy this;
  b_op ← ubint_copy b;
  a ← reduce_op a modulus;
  b_op ← reduce_op b_op modulus;
  a ← AddEq a b_op;
  ModEq a modulus.

Definition ModAddEq (this b modulus : ubint) : outcome ubint :=
  b_op ← ubint_copy b;
  this ← reduce_op this modulus;
  b_op ← reduce_op b_op modulus;
  this ← AddEq this b_op;
  ModEq this modulus.

Definition ModAddFastEq (this b modulus : ubint) : outcome ubint :=
  this ← AddEq this b;
  ModEq this modulus.

Definition ModAddFast (this b modulus : ubint) : outcome ubint :=
  ans ← ubint_copy this;
  ModAddFastEq ans b modulus.

Definition ModAddEq_mu (this b modulus mu : ubint) : outcome ubint :=
  this ← AddEq this b;
  ModEq_mu this modulus mu.

Definition ModAdd_mu (this b modulus mu : ubint) : outcome ubint :=
  ans ← ubint_copy this;
  ModAddEq_mu ans b modulus mu.

(** The branch on [a >= b] of the modular differences. *)
Definition ModSubFastEq (this b modulus : ubint) : outcome ubint :=
  ge ← op_ge this b;
  if (ge : bool) then
    this ← SubEq this b;
    ModEq this modulus
  else
    this ← AddEq this modulus;
    SubEq this b.

Definition ModSubFast (this b modulus : ubint) : outcome ubint :=
  a ← ubint_copy this;
  ModSubFastEq a b modulus.

Definition ModSub (this b modulus : ubint) : outcome ubint :=
  a ← ubint_copy this;
  b_op ← ubint_copy b;
  a ← reduce_op a modulus;
  b_op ← reduce_op b_op modulus;
  ModSubFastEq a b_op modulus.

Definition ModSubEq (this b modulus : ubint) : outcome ubint :=
  b_op ← ubint_copy b;
  this ← reduce_op this modulus;
  b_op ← reduce_op b_op modulus;
  ModSubFastEq this b_op modulus.

Definition ModSub_branch_mu (a b_op modulus mu : ubint) : outcome ubint :=
  ge ← op_ge a b_op;
  if (ge : bool) then
    a ← SubEq a b_op;
    ModEq_mu a modulus mu
  else
    a ← AddEq a modulus;
    SubEq a b_op.

Definition ModSub_mu (this b modulus mu : ubint) : outcome ubint :=
  a ← ubint_copy this;
  b_op ← ubint_copy b;
  a ← reduce_op_mu a modulus mu;
  b_op ← reduce_op_mu b_op modulus mu;
  ModSub_branch_mu a b_op modulus mu.

Definition ModSubEq_mu (this b modulus mu : ubint) : outcome ubint :=
  b_op ← ubint_copy b;
  this ← reduce_op_mu this modulus mu;
  b_op ← reduce_op_mu b_op modulus mu;
  ModSub_branch_mu this b_op modulus mu.

(** ** Modular products *)

Definition ModMul (this b modulus : ubint) : outcome ubint :=
  a ← ubint_copy this;
  let ans := ubint_int 0 in
  if (m_MSB b =? 0) || is_garbage b || is_garbage a || (m_MSB a =? 0) then Ok ans
  else if m_MSB b =? 1 then Ok a
  else if m_MSB a =? 1 then ubint_copy b
  else
    for_range 0 (length (m_value b)) (fun i ans =>
      limbb ← vget (m_value b) i;
      tmpans ← partial_product (m_value a) i limbb;
      ans ← AddEq ans tmpans;
      Mod ans modulus) ans.

Definition ModMulEq (this b modulus : ubint) : outcome ubint := ModMul this b modulus.
Definition ModMulFast (this b modulus : ubint) : outcome ubint := ModMul this b modulus.
Definition ModMulFastEq (this b modulus : ubint) : outcome ubint := ModMul this b modulus.

(** The overloads with [mu], under [NO_BARRETT]. *)
Definition ModMul_mu (this b modulus mu : ubint) : outcome ubint := ModMul this b modulus.
Definition ModMulEq_mu (this b modulus mu : ubint) : outcome ubint := ModMul this b modulus.
Definition ModMulFast_mu (this b modulus mu : ubint) : outcome ubint := ModMul this b modulus.
Definition ModMulFastEq_mu (this b modulus mu : ubint) : outcome ubint := ModMul this b modulus.

(** ** Barrett reduction

    The branches that are compiled when [NO_BARRETT] is not defined. *)

(** The quotient estimate of Barrett reduction, with [beta = -2] and
    [alpha = n + 3]; the shift amounts are converted to [usshort]. *)
Definition barrett_quotient (x modulus mu : ubint) : outcome ubint :=
  let n := m_MSB modulus in
  let alpha := u32 (n + 3) in
  let beta := -2 in
  q ← RShiftEq x (u16 (u32 (n + beta)));
  q ← MulEq q mu;
  RShiftEq q (u16 (u32 (alpha - beta))).

Definition Mod_barrett (this modulus mu : ubint) : outcome ubint :=
  lt ← op_lt this modulus;
  if (lt : bool) then ubint_copy this
  else
    z ← ubint_copy this;
    q ← ubint_copy this;
    q ← barrett_quotient q modulus mu;
    qm ← Mul q modulus;
    z ← SubEq z qm;
    ge ← op_ge z modulus;
    if (ge : bool) then SubEq z modulus else Ok z.

Definition ModEq_barrett (this modulus mu : ubint) : outcome ubint :=
  lt ← op_lt this modulus;
  if (lt : bool) then Ok this
  else
    q ← ubint_copy this;
    q ← barrett_quotient q modulus mu;
    qm ← Mul q modulus;
    this ← SubEq this qm;
    ge ← op_ge this modulus;
    if (ge : bool) then SubEq this modulus else Ok this.

(** [if (x > modulus) x.ModEq(modulus, mu);] *)
Definition reduce_gt_barrett (x modulus mu : ubint) : outcome ubint :=
  gt ← op_gt x modulus;
  if (gt : bool) then ModEq_barrett x modulus mu else Ok x.

Definition ModMul_barrett (this b modulus mu : ubint) : outcome ubint :=
  a ← ubint_copy this;
  bb ← ubint_copy b;
  a ← reduce_gt_barrett a modulus mu;
  bb ← reduce_gt_barrett bb modulus mu;
  a ← MulEq a bb;
  ModEq_barrett a modulus mu.

Definition ModMulEq_barrett (this b modulus mu : ubint) : outcome ubint :=
  bb ← ubint_copy b;
  this ← reduce_gt_barrett this modulus mu;
  bb ← reduce_gt_barrett bb modulus mu;
  this ← MulEq this bb;
  ModEq_barrett this modulus mu.

Definition ModMulFast_barrett (this b modulus mu : ubint) : outcome ubint :=
  a ← ubint_copy this;
  a ← MulEq a b;
  ModEq_barrett a modulus mu.

Definition ModMulFastEq_barrett (this b modulus mu : ubint) : outcome ubint :=
  this ← MulEq this b;
  ModEq_barrett this modulus mu.

(** ** Inversion and exponentiation *)

(** The "north" loop of [ModInverse]: Euclid's algorithm, collecting the
    quotients. Two turns halve [second], so [2 * m_MSB] turns are enough. *)
Fixpoint north (fuel : nat) (first second mod_back : ubint) (quotient : list ubint)
    : outcome (list ubint) :=
  match fuel with
  | O => OutOfFuel
  | S fuel =>
      ne ← op_ne mod_back (ubint_int 1);
      if (ne : bool) then
        z ← op_eq mod_back (ubint_int 0);
        if (z : bool) then Throw math_error
        else
          let first := second in
          let second := mod_back in
          mod_back ← Mod first second;
          q ← DividedBy first second;
          north fuel first second mod_back (quotient ++ [q])
      else Ok quotient
  end.

(** The "south" loop: the cofactor from the quotients, last one first. *)
Definition south (quotient : list ubint) : outcome (ubint * ubint * ubint) :=
  for_down (length quotient) (fun i '(first, second, mod_back) =>
    qi ← vget quotient i;
    t ← Mul qi second;
    mod_back ← Add t first;
    Ok (second, mod_back, mod_back)) (ubint_int 0, ubint_int 1, ubint_int 1).

Definition ModInverse (fuel : nat) (this modulus : ubint) : outcome ubint :=
  gt ← op_gt this modulus;
  second ← (if (gt : bool) then Mod this modulus else Ok this);
  z ← op_eq second (ubint_int 0);
  if (z : bool) then Throw math_error
  else
    o ← op_eq second (ubint_int 1);
    if (o : bool) then Ok (ubint_int 1)
    else
      first ← ubint_copy modulus;
      mod_back ← Mod first second;
      q ← DividedBy first second;
      quotient ← north fuel first second mod_back [q];
      '(_, _, mod_back) ← south quotient;
      if (length quotient mod 2 =? 1)%nat then Sub modulus mod_back else Ok mod_back.

Definition ModInverseEq (fuel : nat) (this modulus : ubint) : outcome ubint :=
  ModInverse fuel this modulus.

(** The loop of [ModExp]; it runs once per bit of the exponent, and at least
    once. *)
Fixpoint ModExp_loop (fuel : nat) (mid product Exp modulus : ubint) : outcome ubint :=
  match fuel with
  | O => OutOfFuel
  | S fuel =>
      e0 ← vget (m_value Exp) 0;
      product ← (if e0 mod 2 =? 1 then Mul product mid else Ok product);
      gt ← op_gt product modulus;
      product ← (if (gt : bool) then Mod product modulus else Ok product);
      Exp ← RShift Exp 1;
      z ← op_eq Exp (ubint_int 0);
      if (z : bool) then Ok product
      else
        mid ← Mul mid mid;
        mid ← Mod mid modulus;
        ModExp_loop fuel mid product Exp modulus
  end.

Definition ModExp (fuel : nat) (this b modulus : ubint) : outcome ubint :=
  mid ← Mod this modulus;
  Exp ← ubint_copy b;
  ModExp_loop fuel mid (ubint_int 1) Exp modulus.

Definition ModExpEq (fuel : nat) (this b modulus : ubint) : outcome ubint :=
  ModExp fuel this b modulus.

(** ** Strings *)

Definition m_numDigitInPrintval : nat := 1500.

(** The loops over the digits run from the last digit to the first. *)
Fixpoint double_bitVal (a : list Z) : list Z * Z :=
  match a with
  | [] => ([], 0)
  | x :: a =>
      let '(a, ofl) := double_bitVal a in
      let x := Z.shiftl x 1 mod 2 ^ 8 in
      if x >? 9 then ((x - 10 + ofl) mod 2 ^ 8 :: a, 1)
      else ((x + ofl) mod 2 ^ 8 :: a, 0)
  end.

(** The carry is never cleared: [ofl] stays 1 once it was set. *)
Fixpoint add_bitVal_loop (a : list Z) : list Z * Z :=
  match a with
  | [] => ([], 0)
  | x :: a =>
      let '(a, ofl) := add_bitVal_loop a in
      let x := (x + ofl) mod 2 ^ 8 in
      if x >? 9 then (0 :: a, 1) else (x :: a, ofl)
  end.
Definition add_bitVal (a : list Z) (b : Z) : outcome (list Z) :=
  x ← vget a (length a - 1);
  a ← vset a (length a - 1) ((x + b) mod 2 ^ 8);
  Ok (fst (add_bitVal_loop a)).

(** [for (i = m_MSB; i > 0; i--)] *)
Fixpoint print_loop (i : nat) (this : ubint) (print_VALUE : list Z) : outcome (list Z) :=
  match i with
  | O => Ok print_VALUE
  | S j =>
      b ← GetBitAtIndex this (Z.of_nat i);
      print_VALUE ← add_bitVal (fst (double_bitVal print_VALUE)) b;
      print_loop j this print_VALUE
  end.

(** The leading zeros are skipped, up to the last digit. *)
Fixpoint skip_zeros (a : list Z) : list Z :=
  match a with
  | [] => []
  | x :: a' =>
      match a' with [] => a | _ => if x =? 0 then skip_zeros a' else a end
  end.

Definition digit_char (d : Z) : ascii := ascii_of_N (Z.to_N (48 + d)).

Definition ToString (this : ubint) : outcome (list ascii) :=
  if (length (m_value this) =? 0)%nat then Throw not_available_error
  else
    print_VALUE ← print_loop (Z.to_nat (m_MSB this)) this (repeat 0 m_numDigitInPrintval);
    Ok (map digit_char (skip_zeros print_VALUE)).

(** [v.erase(0, v.find_first_not_of(c))] *)
Fixpoint strip (c : ascii) (v : list ascii) : list ascii :=
  match v with
  | x :: v' => if Ascii.eqb x c then strip c v' else v
  | [] => []
  end.

(** [stoi] of a string of one character. *)
Definition stoi1 (c : ascii) : outcome Z :=
  let d := Z.of_N (N_of_ascii c) - 48 in
  if (0 <=? d) && (d <=? 9) then Ok d else Throw std_exception.

(** [if (v.size() == 0) v = "0";] *)
Definition zero_if_empty (v : list ascii) : list ascii :=
  match v with [] => ["0"%char] | _ => v end.

(** The value of the bit register, which is cleared. *)
Definition UintInBinaryToDecimal (a : list Z) : outcome (Z * list Z) :=
  '(Val, _, a) ← for_down (Z.to_nat m_limbBitLength) (fun i '(Val, one, a) =>
    x ← vget a i;
    a ← vset a i 0;
    Ok (u32 (Val + u32 (one * x)), u32 (Z.shiftl one 1), a)) (0, 1, a);
  Ok (Val, a).

(** The decimal digits from [zptr] on, divided by two. *)
Definition halve_digits (zptr arrSize : nat) (DecValue : list Z) : outcome (list Z) :=
  DecValue ← for_range zptr (arrSize - 1) (fun i d =>
    x ← vget d i;
    y ← vget d (S i);
    d ← vset d (S i) ((x mod 2 * 10 + y) mod 2 ^ 8);
    vset d i (Z.shiftr x 1)) DecValue;
  x ← vget DecValue (arrSize - 1);
  vset DecValue (arrSize - 1) (Z.shiftr x 1).

(** The state of the conversion loop of [AssignVal]. *)
Record assign_state := mk_assign {
  DecValue : list Z; zptr : nat; bitArr : list Z; cnt : nat; limbs : list Z
}.

(** One turn; [cnt] is the index of the bit to fill. *)
Definition assign_step (arrSize : nat) (st : assign_state) : outcome assign_state :=
  x ← vget (DecValue st) (arrSize - 1);
  bits ← vset (bitArr st) (cnt st) (x mod 2);
  d ← halve_digits (zptr st) arrSize (DecValue st);
  '(cnt, bits, limbs) ← (if (cnt st =? 0)%nat then
      '(w, bits) ← UintInBinaryToDecimal bits;
      Ok (Z.to_nat (m_limbBitLength - 1), bits, limbs st ++ [w])
    else Ok ((cnt st - 1)%nat, bits, limbs st));
  z ← vget d (zptr st);
  let zptr := if z =? 0 then S (zptr st) else zptr st in
  l ← vget d (arrSize - 1);
  if (zptr =? arrSize)%nat && (l =? 0) then
    '(w, bits) ← UintInBinaryToDecimal bits;
    Ok (mk_assign d zptr bits cnt (limbs ++ [w]))
  else Ok (mk_assign d zptr bits cnt limbs).

Fixpoint assign_loop (fuel : nat) (arrSize : nat) (st : assign_state) : outcome (list Z) :=
  if (zptr st =? arrSize)%nat then Ok (limbs st)
  else
    match fuel with
    | O => OutOfFuel
    | S fuel => st ← assign_step arrSize st; assign_loop fuel arrSize st
    end.

(** Every turn takes a bit of the value or a leading zero, so five turns per
    digit are enough. *)
Definition AssignVal (vin : list ascii) : outcome ubint :=
  let v := zero_if_empty (strip " " (strip "0" vin)) in
  let arrSize := length v in
  DecValue ← vmapM stoi1 v;
  l ← assign_loop (5 * arrSize) arrSize
        (mk_assign DecValue 0 (repeat 0 (Z.to_nat m_limbBitLength))
           (Z.to_nat (m_limbBitLength - 1)) []);
  a ← NormalizeLimbs (mk_ubint l 0 INITIALIZED);
  SetMSB a.

(** The constructor from a string, and [SetValue]. *)
Definition ubint_string (strval : list ascii) : outcome ubint := AssignVal strval.
Definition SetValue (strval : list ascii) : outcome ubint := AssignVal strval.

(** [for (j = 0; j < val.length(); j++)] *)
Fixpoint partial_loop (val : list ascii) (partial_value : Z) : outcome Z :=
  match val with
  | [] => Ok partial_value
  | c :: val =>
      d ← stoi1 c;
      partial_loop val (u64 (Z.shiftl (u64 (partial_value + d)) 1))
  end.

(** The characters of limb [i]. *)
Definition limb_chars (v : list ascii) (i : nat) : list ascii :=
  let len := length v in
  let bits := Z.to_nat m_limbBitLength in
  if (((i + 1) * bits) <? len)%nat then take bits (drop (len - (i + 1) * bits) v)
  else take (len mod bits) v.

Definition FromBinaryString (vin : list ascii) : outcome ubint :=
  let v := zero_if_empty (strip "0" (strip " " vin)) in
  let cntr := limbs_for (Z.of_nat (length v)) in
  l ← for_range 0 cntr (fun i l =>
        p ← partial_loop (limb_chars v i) 0;
        Ok (l ++ [u32 (Z.shiftr p 1)])) [];
  SetMSB (mk_ubint l 0 INITIALIZED).
