(* ===== verification/BigIntProps.v ===== *)
(** * Dynamic multiprecision integers: the representation and its operations

    The value of a limb vector, the invariant [wf] every method keeps, and the
    refinement of sums, differences, products, shifts and bit accesses to the
    operations on [Z]: [represents a x] says that the object [a] is the unique
    well-formed object of value [x], and each method returns the object of the
    mathematical result whenever that result [fits]. *)
From stdpp Require Import base numbers list.
From Stdlib Require Import ZArith Lia.
From S2P Require Import Prelude Bits BigInt.
Open Scope Z_scope.

(** ** Values of limb vectors *)

Fixpoint lval (v : list Z) : Z :=
  match v with [] => 0 | x :: v => x + limb_base * lval v end.

Definition value (a : ubint) : Z := lval (m_value a).

Definition limb (x : Z) : Prop := 0 <= x < limb_base.

(** [limb_base ^ n] *)
Definition bpow (n : nat) : Z := 2 ^ (32 * Z.of_nat n).

Ltac blia := unfold limb, limb_base, m_MaxLimb, m_limbBitLength, m_log2LimbBitLength in *; lia.

Lemma bpow_0 : bpow 0 = 1.
Proof. reflexivity. Qed.

Lemma bpow_S n : bpow (S n) = limb_base * bpow n.
Proof.
  unfold bpow. replace (32 * Z.of_nat (S n)) with (32 + 32 * Z.of_nat n) by lia.
  by rewrite Z.pow_add_r by lia.
Qed.

Lemma bpow_pos n : 0 < bpow n.
Proof. unfold bpow. apply pow2_pos. lia. Qed.

Lemma bpow_add n m : bpow (n + m) = bpow n * bpow m.
Proof. unfold bpow. rewrite <- Z.pow_add_r by lia. f_equal. lia. Qed.

Lemma bpow_le n m : (n <= m)%nat -> bpow n <= bpow m.
Proof. intros. unfold bpow. apply Z.pow_le_mono_r; lia. Qed.

#[export] Hint Resolve bpow_pos : fhe.

Lemma lval_app v w : lval (v ++ w) = lval v + bpow (length v) * lval w.
Proof.
  induction v as [|x v IH]; cbn [lval app length]; [rewrite bpow_0; lia|].
  rewrite IH, bpow_S. ring.
Qed.

Lemma lval_snoc v x : lval (v ++ [x]) = lval v + bpow (length v) * x.
Proof. rewrite lval_app. cbn [lval]. ring. Qed.

Lemma lval_split v i :
  (i <= length v)%nat -> lval v = lval (take i v) + bpow i * lval (drop i v).
Proof.
  intros. rewrite <- (take_drop i v) at 1. rewrite lval_app, length_take.
  by rewrite Nat.min_l by lia.
Qed.

Lemma lval_take_S v i x :
  v !! i = Some x -> lval (take (S i) v) = lval (take i v) + bpow i * x.
Proof.
  intros H. rewrite (take_S_r v i x H), lval_snoc, length_take.
  apply lookup_lt_Some in H. by rewrite Nat.min_l by lia.
Qed.

Lemma lval_drop_S v i x :
  v !! i = Some x -> lval (drop i v) = x + limb_base * lval (drop (S i) v).
Proof. intros H. by rewrite (drop_S v x i H). Qed.

Lemma lval_insert v i x y :
  v !! i = Some y -> lval (<[i := x]> v) = lval v + bpow i * (x - y).
Proof.
  revert i. induction v as [|z v IH]; intros [|i] H; simplify_eq/=.
  - rewrite bpow_0. lia.
  - rewrite (IH i H), bpow_S. ring.
Qed.

Lemma lval_bound v : Forall limb v -> 0 <= lval v < bpow (length v).
Proof.
  induction 1 as [|x v Hx _ IH]; cbn [lval length]; [rewrite bpow_0; lia|].
  rewrite bpow_S. unfold limb in Hx. nia.
Qed.

Lemma lval_repeat_0 n : lval (repeat 0 n) = 0.
Proof. induction n as [|n IH]; cbn [lval repeat]; [done|]. rewrite IH. lia. Qed.

Lemma lval_take_bound v i : Forall limb v -> 0 <= lval (take i v) < bpow i.
Proof.
  intros H. pose proof (lval_bound (take i v) (Forall_take _ i v H)) as Hb.
  rewrite length_take in Hb. pose proof (bpow_le (i `min` length v) i ltac:(lia)). lia.
Qed.

Lemma limb_lookup v i x : Forall limb v -> v !! i = Some x -> limb x.
Proof. intros H. by apply Forall_lookup_1. Qed.

Lemma limb_u32 x : limb (u32 x).
Proof. unfold limb, u32. apply Z.mod_pos_bound. done. Qed.

Lemma limb_0 : limb 0.
Proof. blia. Qed.

Lemma limb_1 : limb 1.
Proof. blia. Qed.

#[export] Hint Resolve limb_u32 limb_0 limb_1 : fhe.

Lemma Forall_snoc {A} (P : A -> Prop) v x : Forall P v -> P x -> Forall P (v ++ [x]).
Proof. intros. apply Forall_app. by rewrite Forall_singleton. Qed.

(** The rule for downward loops. *)
Lemma for_down_inv {S} (I : nat -> S -> Prop) n body (s : S) :
  I n s ->
  (forall i s, (i < n)%nat -> I (Datatypes.S i) s -> returns (body i s) (I i)) ->
  returns (for_down n body s) (I O).
Proof.
  revert s. induction n as [|n IH]; intros s H0 Hstep; simpl; [done|].
  eapply returns_bind; [apply Hstep; [lia | done]|].
  intros s' Hs'. apply IH; [done|]. intros. apply Hstep; [lia | done].
Qed.

(** ** The invariant *)

(** The number of limbs for which [m_MSB], a [uint32_t], does not overflow. *)
Definition max_limbs : Z := 2 ^ 27 - 1.

(** An object whose top limbs may be zero, as the partial products are. *)
Record wfu (a : ubint) : Prop := mk_wfu {
  wfu_state : m_state a = INITIALIZED;
  wfu_limbs : Forall limb (m_value a);
  wfu_size : Z.of_nat (length (m_value a)) <= max_limbs;
  wfu_msb : exists low top, m_value a = low ++ [top] /\
              m_MSB a = 32 * Z.of_nat (length low) + GetMSB top
}.

(** The top limb is not zero, unless it is the only one. *)
Definition normal (v : list Z) : Prop := last v = Some 0 -> length v = 1%nat.

Definition wf (a : ubint) : Prop := wfu a /\ normal (m_value a).

Definition represents (a : ubint) (x : Z) : Prop := wf a /\ value a = x.

(** The numbers that have a representation. *)
Definition fits (x : Z) : Prop := 0 <= x /\ GetMSB x <= 32 * max_limbs.

Lemma GetMSB_high lo hi k :
  0 <= k -> 0 <= lo < 2 ^ k -> 0 < hi -> GetMSB (lo + 2 ^ k * hi) = k + GetMSB hi.
Proof.
  intros Hk Hlo Hhi. pose proof (pow2_pos k Hk).
  rewrite !GetMSB_log2 by nia.
  enough (Z.log2 (lo + 2 ^ k * hi) = k + Z.log2 hi) by lia.
  pose proof (Z.log2_nonneg hi). pose proof (Z.log2_spec hi Hhi) as [H1 H2].
  apply Z.log2_unique; [lia|]. rewrite <- Z.add_succ_r, !Z.pow_add_r by lia. nia.
Qed.

Lemma GetMSB_mono x y : 0 <= x <= y -> GetMSB x <= GetMSB y.
Proof.
  intros H. destruct (Z.eq_dec x 0) as [->|].
  - destruct (Z.eq_dec y 0) as [->|]; [done|]. pose proof (GetMSB_pos y). rewrite GetMSB_0. lia.
  - rewrite !GetMSB_log2 by lia. pose proof (Z.log2_le_mono x y). lia.
Qed.

Lemma GetMSB_nonneg x : 0 <= x -> 0 <= GetMSB x.
Proof. intros. rewrite <- GetMSB_0. apply GetMSB_mono. lia. Qed.

Lemma fits_mono x y : fits y -> 0 <= x <= y -> fits x.
Proof. intros [? ?] ?. split; [lia|]. pose proof (GetMSB_mono x y). lia. Qed.

Lemma limb_msb x : limb x -> 0 <= GetMSB x <= 32 /\ (x <> 0 -> 1 <= GetMSB x).
Proof.
  unfold limb, limb_base, m_MaxLimb. intros H. split; [split|].
  - apply GetMSB_nonneg. lia.
  - apply (GetMSB_le x 32); lia.
  - intros. apply GetMSB_pos. lia.
Qed.

Lemma normal_snoc low top : normal (low ++ [top]) <-> low = [] \/ top <> 0.
Proof.
  unfold normal. rewrite last_snoc, length_app. simpl. split.
  - intros H. destruct (Z.eq_dec top 0) as [->|]; [left | by right].
    specialize (H eq_refl). destruct low; [done | simpl in H; lia].
  - intros [->|H]; [done|]. intros [= ->]. done.
Qed.

(** The fields of a well-formed object are determined by its value. *)
Lemma wf_cases a :
  wf a ->
  (m_value a = [0] /\ m_MSB a = 0 /\ value a = 0) \/
  (exists low top, m_value a = low ++ [top] /\ 0 < top /\ 0 < value a /\
     m_MSB a = GetMSB (value a) /\
     32 * Z.of_nat (length low) < m_MSB a <= 32 * Z.of_nat (length low) + 32).
Proof.
  intros [[Hs Hl Hsz (low & top & Hv & Hm)] Hn]. rewrite Hv in *.
  apply Forall_app in Hl as [Hlow [Htop _]%Forall_cons]. apply normal_snoc in Hn.
  pose proof (limb_msb top Htop) as [? ?]. pose proof (lval_bound low Hlow) as Hb.
  destruct (Z.eq_dec top 0) as [->|Ht].
  - left. destruct Hn as [->|]; [|done]. unfold value. rewrite Hv, Hm. done.
  - right. exists low, top. unfold value. rewrite Hv, lval_snoc. unfold limb in Htop.
    pose proof (bpow_pos (length low)). split; [done|]. split; [lia|]. split; [nia|].
    split; [|specialize (H0 Ht); lia]. rewrite Hm. symmetry. apply GetMSB_high; unfold bpow in *; lia.
Qed.

Lemma wf_msb a : wf a -> m_MSB a = GetMSB (value a).
Proof.
  intros H. destruct (wf_cases a H) as [(_ & -> & ->)|(low & top & _ & _ & _ & H' & _)]; done.
Qed.

Lemma wfu_value_nonneg a : wfu a -> 0 <= value a.
Proof. intros [_ Hl _ _]. apply (lval_bound _ Hl). Qed.

Lemma wf_fits a : wf a -> fits (value a).
Proof.
  intros H. pose proof H as [Hu _]. split; [by apply wfu_value_nonneg|].
  destruct (wf_cases a H) as [(_ & _ & ->)|(low & top & Hv & _ & _ & <- & Hm)].
  - rewrite GetMSB_0. unfold max_limbs. lia.
  - destruct Hu as [_ _ Hsz _]. rewrite Hv, length_app in Hsz. simpl in Hsz. lia.
Qed.

Lemma represents_fits a x : represents a x -> fits x.
Proof. intros [H <-]. by apply wf_fits. Qed.

Lemma represents_nonneg a x : represents a x -> 0 <= x.
Proof. intros H. apply (represents_fits a x H). Qed.

Lemma represents_msb a x : represents a x -> m_MSB a = GetMSB x.
Proof. intros [H <-]. by apply wf_msb. Qed.

Lemma represents_msb_0 a x : represents a x -> m_MSB a = 0 <-> x = 0.
Proof.
  intros H. pose proof (represents_nonneg a x H). rewrite (represents_msb a x H).
  split; [|intros ->; done]. intros E. destruct (Z.eq_dec x 0); [done|].
  pose proof (GetMSB_pos x). lia.
Qed.

Lemma represents_msb_1 a x : represents a x -> m_MSB a = 1 <-> x = 1.
Proof.
  intros H. pose proof (represents_nonneg a x H). rewrite (represents_msb a x H).
  split; [|intros ->; done]. intros E.
  assert (x < 2 ^ 1) by (apply (GetMSB_le x 1); lia). destruct (Z.eq_dec x 0) as [->|]; [done|lia].
Qed.

Lemma wfu_not_garbage a : wfu a -> is_garbage a = false.
Proof. intros [H _ _ _]. unfold is_garbage. rewrite H. done. Qed.

Lemma represents_not_garbage a x : represents a x -> is_garbage a = false.
Proof. intros [[H _] _]. by apply wfu_not_garbage. Qed.

Lemma represents_copy a x : represents a x -> ubint_copy a = Ok a.
Proof. intros H. unfold ubint_copy. by rewrite (represents_not_garbage a x H). Qed.

Lemma represents_limbs a x : represents a x -> Forall limb (m_value a).
Proof. intros [[[_ H _ _] _] _]. done. Qed.

Lemma lval_inj v w :
  Forall limb v -> Forall limb w -> length v = length w -> lval v = lval w -> v = w.
Proof.
  intros Hv. revert w. induction Hv as [|x v Hx Hv IH]; intros [|y w] Hw Hl E; simplify_eq/=; [done|].
  apply Forall_cons in Hw as [Hy Hw].
  assert (x = y /\ lval v = lval w) as [-> E'].
  { unfold limb, limb_base, m_MaxLimb in *. lia. }
  f_equal. by apply IH.
Qed.

(** A value has one well-formed object. *)
Lemma represents_unique a b x : represents a x -> represents b x -> a = b.
Proof.
  intros Ha Hb. pose proof (represents_limbs a x Ha) as La. pose proof (represents_limbs b x Hb) as Lb.
  destruct Ha as [Wa Va], Hb as [Wb Vb].
  pose proof (wf_msb a Wa) as Ma. pose proof (wf_msb b Wb) as Mb. rewrite Va in Ma. rewrite Vb in Mb.
  assert (length (m_value a) = length (m_value b)) as Hl.
  { destruct (wf_cases a Wa) as [(-> & ? & ?)|(l & t & -> & ? & ? & ? & ?)],
      (wf_cases b Wb) as [(-> & ? & ?)|(l' & t' & -> & ? & ? & ? & ?)];
    rewrite ?length_app; simpl; lia. }
  pose proof (lval_inj _ _ La Lb Hl ltac:(unfold value in *; congruence)) as E.
  destruct a as [v n s], b as [v' n' s'], Wa as [[Sa _ _ _] _], Wb as [[Sb _ _ _] _].
  simpl in *. congruence.
Qed.

(** A normal vector of a number that fits is not too long. *)
Lemma normal_size v :
  Forall limb v -> normal v -> fits (lval v) -> Z.of_nat (length v) <= max_limbs.
Proof.
  destruct v as [|top low _] using rev_ind; [unfold max_limbs; simpl; lia|].
  intros [Hl [Ht _]%Forall_cons]%Forall_app Hn%normal_snoc [_ Hf].
  rewrite length_app. simpl. pose proof (limb_msb top Ht) as [_ H1].
  destruct Hn as [->|Hn]; [unfold max_limbs; simpl; lia|]. specialize (H1 Hn).
  rewrite lval_snoc in Hf. unfold bpow in Hf. rewrite GetMSB_high in Hf;
    [lia | lia | apply (lval_bound _ Hl) | unfold limb in Ht; lia].
Qed.

Lemma SetMSB_wfu v m :
  Forall limb v -> v <> [] -> Z.of_nat (length v) <= max_limbs ->
  returns (SetMSB (mk_ubint v m INITIALIZED)) (fun r => wfu r /\ m_value r = v).
Proof.
  destruct v as [|top low _] using rev_ind; [done|]. intros Hl _ Hsz.
  pose proof Hl as [_ [Ht _]%Forall_cons]%Forall_app. pose proof (limb_msb top Ht) as [Hm _].
  unfold SetMSB, back. cbn [is_garbage m_value m_state bool_decide]. rewrite last_snoc. simpl.
  split; [|done]. constructor; simpl; [done..|]. exists low, top. split; [done|].
  rewrite length_app in *. simpl in *. unfold max_limbs, m_limbBitLength in *.
  rewrite (u32_small (_ * 32)) by lia. rewrite u32_small; unfold GetMSBlimb_t, GetMSB64; lia.
Qed.

(** [SetMSB] completes a normal vector to the object of its value. *)
Lemma SetMSB_represents v m :
  Forall limb v -> v <> [] -> normal v -> fits (lval v) ->
  returns (SetMSB (mk_ubint v m INITIALIZED)) (fun r => represents r (lval v)).
Proof.
  intros Hl Hne Hn Hf. eapply returns_mono.
  - apply SetMSB_wfu; [done..|]. by apply normal_size.
  - intros r [Hw <-]. done.
Qed.

Lemma NormalizeLimbs_loop_spec i v :
  Forall limb v -> (length v = S i)%nat ->
  returns (NormalizeLimbs_loop i v) (fun w =>
    Forall limb w /\ w <> [] /\ normal w /\ lval w = lval v /\ (length w <= length v)%nat).
Proof.
  revert v. induction i as [|i IH]; intros v Hl Hlen.
  { simpl. split_and!; [done | by destruct v | by intros _ | done | lia]. }
  destruct v as [|top low _] using rev_ind; [done|]. simpl. unfold back, pop_back. rewrite last_snoc.
  pose proof Hl as [Hlow _]%Forall_app. rewrite length_app in Hlen. simpl in Hlen. rewrite bind_Ok.
  destruct (Z.eqb_spec top 0) as [->|Ht].
  - destruct (low ++ [0]) eqn:E; [by destruct low|]. rewrite <- E, bind_Ok.
    rewrite length_app. simpl. rewrite Nat.add_sub, take_app_length.
    eapply returns_mono; [apply IH; [done | lia]|].
    intros w (? & ? & ? & Hv & Hlw). rewrite lval_snoc, Z.mul_0_r, Z.add_0_r.
    split_and!; [done..|lia].
  - simpl. split_and!; [done | by destruct low | by apply normal_snoc; right | done | lia].
Qed.

Lemma NormalizeLimbs_spec a :
  Forall limb (m_value a) -> m_value a <> [] ->
  returns (NormalizeLimbs a) (fun r =>
    m_state r = m_state a /\ m_MSB r = m_MSB a /\ Forall limb (m_value r) /\ m_value r <> [] /\
    normal (m_value r) /\ value r = value a).
Proof.
  intros Hl Hne. unfold NormalizeLimbs, value.
  destruct (m_value a) as [|x v] eqn:E; [done|]. rewrite <- E in *.
  eapply returns_bind; [apply (NormalizeLimbs_loop_spec (length (m_value a) - 1)); [done|]|].
  - rewrite E. simpl. lia.
  - intros w (? & ? & ? & ? & ?). simpl. done.
Qed.

(** [NormalizeLimbs(); SetMSB();] gives the object of the value. *)
Lemma normalize_represents v m :
  Forall limb v -> v <> [] -> fits (lval v) ->
  returns (a ← NormalizeLimbs (mk_ubint v m INITIALIZED); SetMSB a) (fun r => represents r (lval v)).
Proof.
  intros Hl Hne Hf. eapply returns_bind; [by apply NormalizeLimbs_spec|].
  intros [w n s] (Hs & _ & Hw & Hne' & Hn & Hv). unfold value in Hv. simpl in *. subst s.
  rewrite <- Hv in *. by apply SetMSB_represents.
Qed.

(** ** Sizes *)

Lemma ceilIntByUInt_spec n :
  0 < n -> ceilIntByUInt n = (n + 31) / 32.
Proof.
  intros Hn. unfold ceilIntByUInt, m_limbBitLength, m_log2LimbBitLength.
  change (32 - 1) with (Z.ones 5). rewrite Z.land_ones, Z.shiftr_div_pow2 by lia.
  change (2 ^ 5) with 32. destruct (Z.eqb_spec n 0); [lia|].
  destruct (Z.eqb_spec (n mod 32) 0); simpl;
    Z.div_mod_to_equations; lia.
Qed.

Lemma limbs_for_length a x : represents a x -> limbs_for (m_MSB a) = length (m_value a).
Proof.
  intros [W <-]. unfold limbs_for.
  destruct (wf_cases a W) as [(-> & -> & _)|(low & top & -> & Ht & Hv & _ & Hm)]; [done|].
  rewrite ceilIntByUInt_spec by lia. rewrite length_app. simpl.
  assert ((m_MSB a + 31) / 32 = Z.of_nat (length low) + 1) as ->; [|lia].
  Z.div_mod_to_equations; lia.
Qed.

(** ** Constructors *)

Lemma represents_0 : represents (ubint_int 0) 0.
Proof.
  split; [|done]. split; [|intros _; done]. constructor; simpl; [done | | done |].
  - by repeat constructor.
  - by exists [], 0.
Qed.

Lemma ubint_default_0 : ubint_default = ubint_int 0.
Proof. reflexivity. Qed.

Lemma push_limbs_spec n x v :
  0 <= x -> Forall limb v ->
  Forall limb (push_limbs n x v) /\ length (push_limbs n x v) = (length v + n)%nat /\
  lval (push_limbs n x v) = lval v + bpow (length v) * (x mod bpow n).
Proof.
  revert x v. induction n as [|n IH]; intros x v Hx Hv; cbn [push_limbs].
  { rewrite bpow_0, Z.mod_1_r. split_and!; [done | lia | lia]. }
  unfold m_limbBitLength. rewrite Z.shiftr_div_pow2 by lia.
  destruct (IH (x / 2 ^ 32) (v ++ [u32 x])) as (H1 & H2 & H3).
  - apply Z.div_pos; lia.
  - apply Forall_snoc; auto with fhe.
  - split; [done|]. rewrite length_app in *. simpl in *. split; [lia|].
    rewrite H3, lval_snoc, bpow_add. rewrite (bpow_S n). unfold u32.
    rewrite (Z.rem_mul_r x limb_base (bpow n)) by (pose proof (bpow_pos n); blia).
    change (bpow 1) with limb_base. change (2 ^ 32) with limb_base. ring.
Qed.

(** A positive number in [msb] bits written by [push_limbs] is normal. *)
Lemma push_limbs_represents x :
  0 < x -> fits x ->
  let v := push_limbs (limbs_for (GetMSB x)) x [] in
  Forall limb v /\ v <> [] /\ normal v /\ lval v = x.
Proof.
  intros Hx Hf v. destruct (push_limbs_spec (limbs_for (GetMSB x)) x []) as (Hl & Hlen & Hv); [lia|constructor|].
  fold v in Hl, Hlen, Hv. pose proof (GetMSB_pos x Hx). pose proof (GetMSB_bounds x Hx) as Hb.
  unfold limbs_for in *. rewrite ceilIntByUInt_spec in * by lia. simpl in Hlen, Hv.
  set (k := Z.to_nat ((GetMSB x + 31) / 32)) in *.
  assert (GetMSB x <= 32 * Z.of_nat k < GetMSB x + 32) as Hk by (subst k; Z.div_mod_to_equations; lia).
  assert (x < bpow k) by (unfold bpow; pose proof (Z.pow_le_mono_r 2 (GetMSB x) (32 * Z.of_nat k)); lia).
  rewrite bpow_0, Z.mod_small, Z.mul_1_l, Z.add_0_l in Hv by lia.
  assert (v <> []) as Hne by (intros ->; simpl in *; lia).
  split_and!; [done | done | | done].
  destruct v as [|top low _] using rev_ind; [done|]. apply normal_snoc. right. intros ->.
  rewrite lval_snoc, Z.mul_0_r, Z.add_0_r in Hv. apply Forall_app in Hl as [Hl _].
  pose proof (lval_bound low Hl) as Hlo. rewrite length_app in Hlen. simpl in Hlen.
  pose proof (Z.pow_le_mono_r 2 (32 * Z.of_nat (length low)) (GetMSB x - 1) ltac:(lia) ltac:(lia)).
  unfold bpow in Hlo. lia.
Qed.

Lemma represents_limbs_intro v x :
  Forall limb v -> v <> [] -> normal v -> lval v = x -> fits x ->
  represents (mk_ubint v (GetMSB x) INITIALIZED) x.
Proof.
  intros Hl Hne Hn Hv Hf. subst x.
  pose proof (SetMSB_represents v 0 Hl Hne Hn Hf) as H.
  apply returns_Ok in H as ([w m s] & E & Hr).
  assert (w = v /\ s = INITIALIZED) as [-> ->].
  { pose proof (SetMSB_wfu v 0 Hl Hne (normal_size v Hl Hn Hf)) as H. rewrite E in H.
    destruct H as [[Hs _ _ _] Hw]. done. }
  by rewrite <- (represents_msb _ _ Hr).
Qed.

Lemma fits_bits x n : 0 <= x < 2 ^ n -> 0 <= n <= 32 * max_limbs -> fits x.
Proof. intros H Hn. split; [lia|]. pose proof (GetMSB_le x n). lia. Qed.

Lemma ubint_u64_represents x : 0 <= x < 2 ^ 64 -> represents (ubint_u64 x) x.
Proof.
  intros H. pose proof (fits_bits x 64 H ltac:(unfold max_limbs; lia)) as Hf.
  unfold ubint_u64, GetMSB64. destruct (Z.leb_spec x m_MaxLimb) as [Hs|Hs].
  - unfold m_MaxLimb in Hs. rewrite u32_small by lia.
    apply represents_limbs_intro; [repeat apply Forall_cons_2; [blia | done] | done | | simpl; lia | done].
    intros _. done.
  - destruct (push_limbs_represents x ltac:(unfold m_MaxLimb in Hs; lia) Hf) as (? & ? & ? & ?).
    by apply represents_limbs_intro.
Qed.

Lemma ubint_int_represents x : 0 <= x < 2 ^ 64 -> represents (ubint_int x) x.
Proof. intros. unfold ubint_int. rewrite u64_small by done. by apply ubint_u64_represents. Qed.

Lemma ubint_u128_represents x : 0 <= x < 2 ^ 128 -> represents (ubint_u128 x) x.
Proof.
  intros H. pose proof (fits_bits x 128 H ltac:(unfold max_limbs; lia)) as Hf.
  assert (GetMSB128 x = GetMSB x) as E.
  { unfold GetMSB128, GetMSB, builtin_clzl. bool_cases; lia. }
  unfold ubint_u128. rewrite E. destruct (Z.leb_spec x m_MaxLimb) as [Hs|Hs].
  - unfold m_MaxLimb in Hs. rewrite u32_small by lia.
    apply represents_limbs_intro; [repeat apply Forall_cons_2; [blia | done] | done | | simpl; lia | done].
    intros _. done.
  - destruct (push_limbs_represents x ltac:(unfold m_MaxLimb in Hs; lia) Hf) as (? & ? & ? & ?).
    by apply represents_limbs_intro.
Qed.

Lemma represents_1 : represents (ubint_int 1) 1.
Proof. by apply ubint_int_represents. Qed.

(** ** Comparison *)

Lemma Compare_loop_spec n v w :
  Forall limb v -> Forall limb w -> (n <= length v)%nat -> (n <= length w)%nat ->
  Compare_loop n v w = Ok (Z.sgn (lval (take n v) - lval (take n w))).
Proof.
  intros Hv Hw. induction n as [|n IH]; intros Lv Lw; [by rewrite !take_0|].
  destruct (lookup_lt_is_Some_2 v n) as [x Hx]; [lia|].
  destruct (lookup_lt_is_Some_2 w n) as [y Hy]; [lia|].
  cbn [Compare_loop]. rewrite (vget_Some _ _ _ Hx), bind_Ok, (vget_Some _ _ _ Hy), bind_Ok.
  rewrite (lval_take_S _ _ _ Hx), (lval_take_S _ _ _ Hy).
  pose proof (lval_take_bound v n Hv). pose proof (lval_take_bound w n Hw).
  bool_cases.
  - rewrite Z.sgn_pos; [done|]. nia.
  - rewrite Z.sgn_neg; [done|]. nia.
  - rewrite IH by lia. assert (x = y) as -> by lia. do 2 f_equal. lia.
Qed.

Lemma Compare_spec a b x y :
  represents a x -> represents b y -> Compare a b = Ok (Z.sgn (x - y)).
Proof.
  intros Ha Hb. unfold Compare.
  rewrite (represents_not_garbage a x Ha), (represents_not_garbage b y Hb). simpl.
  pose proof (represents_nonneg a x Ha). pose proof (represents_nonneg b y Hb).
  pose proof (represents_msb a x Ha) as Ma. pose proof (represents_msb b y Hb) as Mb.
  destruct (Z.ltb_spec (m_MSB a) (m_MSB b)).
  { rewrite Z.sgn_neg; [done|]. pose proof (GetMSB_mono y x). lia. }
  rewrite Z.gtb_ltb. destruct (Z.ltb_spec (m_MSB b) (m_MSB a)).
  { rewrite Z.sgn_pos; [done|]. pose proof (GetMSB_mono x y). lia. }
  assert (length (m_value a) = length (m_value b)) as E.
  { rewrite <- (limbs_for_length a x Ha), <- (limbs_for_length b y Hb). f_equal. lia. }
  rewrite Compare_loop_spec; [|by eapply represents_limbs..|lia|lia].
  rewrite take_ge by lia. rewrite take_ge by lia. destruct Ha as [_ <-], Hb as [_ <-]. done.
Qed.

Section Operators.
Context (a b : ubint) (x y : Z).
Context (Ha : represents a x) (Hb : represents b y).

Lemma op_eq_spec : op_eq a b = Ok (x =? y).
Proof. unfold op_eq. rewrite (Compare_spec a b x y Ha Hb). simpl. f_equal. bool_cases; lia. Qed.
Lemma op_ne_spec : op_ne a b = Ok (negb (x =? y)).
Proof. unfold op_ne. rewrite (Compare_spec a b x y Ha Hb). simpl. do 2 f_equal. bool_cases; lia. Qed.
Lemma op_gt_spec : op_gt a b = Ok (y <? x).
Proof. unfold op_gt. rewrite (Compare_spec a b x y Ha Hb). simpl. f_equal. bool_cases; lia. Qed.
Lemma op_ge_spec : op_ge a b = Ok (y <=? x).
Proof. unfold op_ge. rewrite (Compare_spec a b x y Ha Hb). simpl. f_equal. bool_cases; lia. Qed.
Lemma op_lt_spec : op_lt a b = Ok (x <? y).
Proof. unfold op_lt. rewrite (Compare_spec a b x y Ha Hb). simpl. f_equal. bool_cases; lia. Qed.
Lemma op_le_spec : op_le a b = Ok (x <=? y).
Proof. unfold op_le. rewrite (Compare_spec a b x y Ha Hb). simpl. f_equal. bool_cases; lia. Qed.
End Operators.

(** ** Addition *)

(** A vector is normal when its value reaches its top limb. *)
Lemma normal_bound v :
  Forall limb v -> v <> [] ->
  normal v <-> (length v = 1%nat \/ bpow (length v - 1) <= lval v).
Proof.
  destruct v as [|top low _] using rev_ind; [done|].
  intros [Hl [Ht _]%Forall_cons]%Forall_app _. rewrite normal_snoc, lval_snoc, length_app. simpl.
  rewrite Nat.add_sub. pose proof (lval_bound low Hl). pose proof (bpow_pos (length low)).
  unfold limb in Ht. split.
  - intros [->|Hn]; [by left|]. right. nia.
  - intros [H'|H']; [left; destruct low; [done | simpl in H'; lia]|]. right. intros ->. lia.
Qed.

Lemma represents_bound a x :
  represents a x -> length (m_value a) = 1%nat \/ bpow (length (m_value a) - 1) <= x.
Proof.
  intros [[[_ Hl _ (low & top & Hv & _)] Hn] <-]. apply normal_bound; [done | | done].
  rewrite Hv. by destruct low.
Qed.

Lemma wfu_length a : wfu a -> (1 <= length (m_value a))%nat.
Proof. intros [_ _ _ (low & top & -> & _)]. rewrite length_app. simpl. lia. Qed.

Lemma represents_length a x : represents a x -> (1 <= length (m_value a))%nat.
Proof. intros [[H _] _]. by apply wfu_length. Qed.

Lemma u64_double x : u64 x = u32 x + limb_base * Z.shiftr (u64 x) 32.
Proof.
  unfold u64, u32, limb_base, m_MaxLimb. rewrite Z.shiftr_div_pow2 by lia.
  Z.div_mod_to_equations. lia.
Qed.

Arguments add_limbs : simpl never.

Lemma add_limbs_spec x y ofl :
  limb x -> limb y -> 0 <= ofl <= 1 ->
  let '(l, c) := add_limbs x y ofl in limb l /\ 0 <= c <= 1 /\ l + limb_base * c = x + y + ofl.
Proof.
  intros Hx Hy Ho. unfold add_limbs, m_limbBitLength.
  assert (0 <= x + y + ofl < 2 ^ 33) by blia.
  rewrite u64_small by lia. rewrite Z.shiftr_div_pow2 by lia. unfold u32, limb, limb_base, m_MaxLimb.
  split_and!; Z.div_mod_to_equations; lia.
Qed.

(** Runs an access of a loop body whose index is in range. *)
Ltac fetch v i x H :=
  destruct (lookup_lt_is_Some_2 v i) as [x H]; [try lia | rewrite (vget_Some v i x H), bind_Ok].

Lemma carry_append_spec lo hi A res ofl :
  Forall limb A -> Forall limb res -> length res = lo -> (lo <= hi <= length A)%nat -> 0 <= ofl <= 1 ->
  returns (carry_append lo hi A (res, ofl)) (fun '(r, c) =>
    length r = hi /\ Forall limb r /\ 0 <= c <= 1 /\
    lval r + bpow hi * c = lval res + bpow lo * ofl + (lval (take hi A) - lval (take lo A))).
Proof.
  intros HA Hres Hlen Hr Ho. unfold carry_append.
  apply (for_range_inv (fun i '(r, c) => length r = i /\ Forall limb r /\ 0 <= c <= 1 /\
    lval r + bpow i * c = lval res + bpow lo * ofl + (lval (take i A) - lval (take lo A))));
    [lia | split_and!; try done; lia |].
  intros i [r c] Hi (Hl & Hf & Hc & E). fetch A i x Hx.
  pose proof (add_limbs_spec x 0 c (limb_lookup A i x HA Hx) limb_0 Hc) as H.
  destruct (add_limbs x 0 c) as [l c']. destruct H as (Hl' & Hc' & E'). simpl.
  rewrite length_app, lval_snoc, (lval_take_S A i x Hx), bpow_S, Hl. simpl.
  split_and!; [lia | by apply Forall_snoc | lia | lia | ].
  replace c with (l + limb_base * c' - x) in E by lia. lia.
Qed.

Lemma copy_append_spec lo hi A res :
  Forall limb A -> Forall limb res -> length res = lo -> (lo <= hi <= length A)%nat ->
  returns (copy_append lo hi A res) (fun r =>
    length r = hi /\ Forall limb r /\ lval r = lval res + (lval (take hi A) - lval (take lo A))).
Proof.
  intros HA Hres Hlen Hr. unfold copy_append.
  apply (for_range_inv (fun i r => length r = i /\ Forall limb r /\
    lval r = lval res + (lval (take i A) - lval (take lo A))));
    [lia | split_and!; try done; lia |].
  intros i r Hi (Hl & Hf & E). fetch A i x Hx. simpl.
  rewrite length_app, lval_snoc, (lval_take_S A i x Hx), Hl. simpl.
  split_and!; [lia | apply Forall_snoc; [done | exact (limb_lookup A i x HA Hx)] | lia].
Qed.

(** The limbs of a sum: as many as the longer operand, or one more. *)
Definition sum_limbs (n : nat) (s : Z) (r : list Z) : Prop :=
  Forall limb r /\ lval r = s /\ (length r = n \/ length r = S n /\ bpow n <= s).

Lemma sum_limbs_carry n s r c :
  length r = n -> Forall limb r -> 0 <= c <= 1 -> lval r + bpow n * c = s ->
  sum_limbs n s (if negb (c =? 0) then r ++ [1] else r).
Proof.
  intros Hl Hf Hc E. pose proof (lval_bound r Hf). destruct (Z.eqb_spec c 0) as [->|]; simpl.
  - split_and!; [done | lia | by left].
  - assert (c = 1) as -> by lia. split_and!.
    + by apply Forall_snoc; auto with fhe.
    + rewrite lval_snoc, Hl. lia.
    + right. rewrite length_app. simpl. split; lia.
Qed.

Lemma AddEq_limbs_spec v w :
  Forall limb v -> Forall limb w ->
  returns (AddEq_limbs v w) (sum_limbs (length v `max` length w) (lval v + lval w)).
Proof.
  intros Hv Hw. unfold AddEq_limbs.
  set (k := if (length v <? length w)%nat then length v else length w).
  assert (k = length v `min` length w)%nat as Hk.
  { subst k. destruct (Nat.ltb_spec (length v) (length w)); lia. }
  clearbody k.
  apply (returns_bind _ _ (fun '(u, c) => length u = length v /\ Forall limb u /\ 0 <= c <= 1 /\
    lval u + bpow k * c = lval v + lval (take k w))).
  { apply (for_range_inv (fun i '(u, c) => length u = length v /\ Forall limb u /\ 0 <= c <= 1 /\
      lval u + bpow i * c = lval v + lval (take i w))); [lia| |].
    { rewrite take_0. simpl. split_and!; try done; lia. }
    intros i [u c] Hi (Hl & Hf & Hc & E). fetch u i x Hx. fetch w i y Hy.
    pose proof (add_limbs_spec x y c (limb_lookup u i x Hf Hx) (limb_lookup w i y Hw Hy) Hc) as H.
    destruct (add_limbs x y c) as [l c']. destruct H as (Hl' & Hc' & E').
    rewrite vset_lt, bind_Ok by lia. simpl.
    rewrite length_insert, (lval_insert u i l x Hx), (lval_take_S w i y Hy), bpow_S.
    split_and!; [done | by apply Forall_insert | lia | lia | nia]. }
  intros [u c] (Hl & Hf & Hc & E).
  destruct (Nat.ltb_spec (length w) (length v)).
  - assert (k = length w) as -> by lia. rewrite take_ge in E by lia. rewrite Nat.max_l by lia.
    destruct (Z.eqb_spec c 0) as [->|]; cbn [negb].
    { split_and!; [done | lia | left; lia]. }
    apply (returns_bind _ _ (fun '(u, c) => length u = length v /\ Forall limb u /\ 0 <= c <= 1 /\
      lval u + bpow (length v) * c = lval v + lval w)).
    + apply (for_range_inv (fun i '(u, c) => length u = length v /\ Forall limb u /\ 0 <= c <= 1 /\
        lval u + bpow i * c = lval v + lval w)); [lia | split_and!; try done; lia |].
      intros i [u' c'] Hi (Hl' & Hf' & Hc' & E'). fetch u' i x Hx.
      pose proof (add_limbs_spec x 0 c' (limb_lookup u' i x Hf' Hx) limb_0 Hc') as H'.
      destruct (add_limbs x 0 c') as [l c'']. destruct H' as (Hl'' & Hc'' & E'').
      rewrite vset_lt, bind_Ok by lia. simpl.
      rewrite length_insert, (lval_insert u' i l x Hx), bpow_S.
      split_and!; [done | by apply Forall_insert | lia | lia | nia].
    + intros [u' c'] (Hl' & Hf' & Hc' & E'). by apply sum_limbs_carry.
  - assert (k = length v) as -> by lia. rewrite Nat.max_r by lia.
    pose proof (take_ge w (length w) ltac:(lia)) as Ht.
    destruct (Z.eqb_spec c 0) as [->|]; simpl.
    + eapply returns_mono; [apply copy_append_spec; [done | done | done | lia]|].
      intros r (Hlr & Hfr & Er). rewrite Ht in Er. split_and!; [done | lia | by left].
    + eapply returns_bind; [apply carry_append_spec; [done | done | done | lia | lia]|].
      intros [r c'] (Hlr & Hfr & Hcr & Er). rewrite Ht in Er. simpl.
      apply sum_limbs_carry; [done.. | lia].
Qed.

Lemma sum_limbs_size n s r :
  (1 <= n)%nat -> Z.of_nat n <= max_limbs -> fits s -> sum_limbs n s r -> Z.of_nat (length r) <= max_limbs /\ r <> [].
Proof.
  intros Hn Hm Hf (Hl & E & Hlen). assert (r <> []) as Hne by (intros ->; simpl in Hlen; lia).
  split; [|done]. destruct Hlen as [->|[Hlen Hb]]; [done|].
  apply normal_size; [done | | by rewrite E]. apply normal_bound; [done..|]. right.
  rewrite Hlen, E. simpl. by rewrite Nat.sub_0_r.
Qed.

Lemma wfu_msb_0 a : wfu a -> m_MSB a = 0 -> m_value a = [0].
Proof.
  intros [_ Hl _ (low & top & Hv & Hm)] E. rewrite Hv in *.
  apply Forall_app in Hl as [_ [Ht _]%Forall_cons]. pose proof (limb_msb top Ht) as [? H1].
  destruct low; [|simpl in *; lia]. destruct (Z.eq_dec top 0) as [->|Hn]; [done|].
  specialize (H1 Hn). simpl in *. lia.
Qed.

(** Sums of objects whose top limbs may be zero. *)
Lemma AddEq_wfu a b :
  wfu a -> wfu b -> fits (value a + value b) ->
  returns (AddEq a b) (fun r => wfu r /\
    sum_limbs (length (m_value a) `max` length (m_value b)) (value a + value b) (m_value r)).
Proof.
  intros Ha Hb Hf. unfold AddEq. rewrite (wfu_not_garbage a Ha), (wfu_not_garbage b Hb). simpl.
  pose proof (wfu_length a Ha). pose proof (wfu_length b Hb). unfold value in *.
  destruct (Z.eqb_spec (m_MSB b) 0) as [E|_].
  { simpl. split; [done|]. rewrite (wfu_msb_0 b Hb E). cbn [lval length].
    split_and!; [apply Ha | lia | left; lia]. }
  destruct (Z.eqb_spec (m_MSB a) 0) as [E|_].
  { simpl. split; [done|]. rewrite (wfu_msb_0 a Ha E). cbn [lval length].
    split_and!; [apply Hb | lia | left; lia]. }
  eapply returns_bind; [apply AddEq_limbs_spec; [apply Ha | apply Hb]|].
  intros r Hr. unfold set_value. rewrite (wfu_state a Ha).
  pose proof (wfu_size a Ha). pose proof (wfu_size b Hb).
  destruct (sum_limbs_size (length (m_value a) `max` length (m_value b)) _ r
    ltac:(lia) ltac:(lia) Hf Hr).
  eapply returns_mono; [apply SetMSB_wfu; [apply Hr | done | done]|].
  intros r' [Hw <-]. done.
Qed.

Lemma sum_limbs_normal n s r :
  (1 <= n)%nat -> (n = 1%nat \/ bpow (n - 1) <= s) -> sum_limbs n s r -> normal r.
Proof.
  intros Hn Hb (Hl & E & Hlen). apply normal_bound; [done | |].
  - intros ->. simpl in Hlen. lia.
  - rewrite E. destruct Hlen as [->|[-> H]]; [done|]. right. simpl. by rewrite Nat.sub_0_r.
Qed.

Lemma AddEq_represents a b x y :
  represents a x -> represents b y -> fits (x + y) ->
  returns (AddEq a b) (fun r => represents r (x + y)).
Proof.
  intros Ha Hb Hf. pose proof (represents_bound a x Ha). pose proof (represents_bound b y Hb).
  pose proof (represents_length a x Ha). pose proof (represents_length b y Hb).
  pose proof (represents_nonneg a x Ha). pose proof (represents_nonneg b y Hb).
  destruct Ha as [[Wa Na] <-], Hb as [[Wb Nb] <-].
  eapply returns_mono; [by apply AddEq_wfu|]. intros r [Wr Hr]. split; [split; [done|]|apply Hr].
  eapply sum_limbs_normal; [| |done]; [lia|].
  destruct (Nat.max_spec (length (m_value a)) (length (m_value b))) as [[? ->]|[? ->]]; lia.
Qed.

Lemma Add_limbs_spec v w :
  Forall limb v -> Forall limb w -> (length w <= length v)%nat ->
  returns (Add_limbs (length v) (length w) v w)
    (sum_limbs (length v) (lval v + lval w)).
Proof.
  intros Hv Hw Hle. unfold Add_limbs. pose proof (take_ge v (length v) ltac:(lia)) as Tv.
  pose proof (take_ge w (length w) ltac:(lia)) as Tw.
  apply (returns_bind _ _ (fun '(r, c) => length r = length w /\ Forall limb r /\ 0 <= c <= 1 /\
    lval r + bpow (length w) * c = lval (take (length w) v) + lval (take (length w) w))).
  { apply (for_range_inv (fun i '(r, c) => length r = i /\ Forall limb r /\ 0 <= c <= 1 /\
      lval r + bpow i * c = lval (take i v) + lval (take i w))); [lia| |].
    { rewrite !take_0. simpl. split_and!; try done; lia. }
    intros i [r c] Hi (Hl & Hf & Hc & E). fetch v i x Hx. fetch w i y Hy.
    pose proof (add_limbs_spec x y c (limb_lookup v i x Hv Hx) (limb_lookup w i y Hw Hy) Hc) as H.
    destruct (add_limbs x y c) as [l c']. destruct H as (Hl' & Hc' & E'). simpl.
    rewrite length_app, lval_snoc, (lval_take_S v i x Hx), (lval_take_S w i y Hy), bpow_S, Hl. simpl.
    split_and!; [lia | by apply Forall_snoc | lia | lia | nia]. }
  intros [r c] (Hl & Hf & Hc & E). rewrite Tw in E. destruct (Z.eqb_spec c 0) as [->|]; simpl.
  - eapply returns_mono; [apply copy_append_spec; [done | done | done | lia]|].
    intros u (Hlu & Hfu & Eu). rewrite Tv in Eu. split_and!; [done | lia | by left].
  - eapply returns_bind; [apply carry_append_spec; [done | done | done | lia | lia]|].
    intros [u c'] (Hlu & Hfu & Hcu & Eu). rewrite Tv in Eu. simpl.
    apply sum_limbs_carry; [done.. | lia].
Qed.

Lemma represents_size a x : represents a x -> Z.of_nat (length (m_value a)) <= max_limbs.
Proof. intros [[H _] _]. apply (wfu_size a H). Qed.

Lemma represents_length_mono a b x y :
  represents a x -> represents b y -> x <= y -> (length (m_value a) <= length (m_value b))%nat.
Proof.
  intros Ha Hb Hle. pose proof (represents_bound a x Ha) as H.
  pose proof (represents_length a x Ha). pose proof (represents_length b y Hb).
  destruct (le_lt_dec (length (m_value a)) (length (m_value b))) as [|Hlt]; [done|].
  pose proof (represents_limbs b y Hb) as Hl. destruct Hb as [_ <-]. unfold value in *.
  pose proof (lval_bound _ Hl). pose proof (bpow_le (length (m_value b)) (length (m_value a) - 1)). lia.
Qed.

Lemma Add_represents a b x y :
  represents a x -> represents b y -> fits (x + y) ->
  returns (Add a b) (fun r => represents r (x + y)).
Proof.
  intros Ha Hb Hf. unfold Add.
  rewrite (represents_not_garbage a x Ha), (represents_not_garbage b y Hb).
  rewrite (op_gt_spec a b x y Ha Hb). simpl.
  assert (forall a b x y, represents a x -> represents b y -> y <= x -> fits (x + y) ->
    returns (if m_MSB b =? 0 then ubint_copy a
             else res ← Add_limbs (limbs_for (m_MSB a)) (limbs_for (m_MSB b)) (m_value a) (m_value b);
                  SetMSB (mk_ubint res 0 INITIALIZED)) (fun r => represents r (x + y))) as H.
  { clear. intros a b x y Ha Hb Hle Hf. pose proof (represents_nonneg b y Hb).
    destruct (Z.eqb_spec (m_MSB b) 0) as [E|_].
    { apply (represents_msb_0 b y Hb) in E as ->. rewrite Z.add_0_r, (represents_copy a x Ha). done. }
    rewrite (limbs_for_length a x Ha), (limbs_for_length b y Hb).
    pose proof (represents_length a x Ha). pose proof (represents_size a x Ha).
    pose proof (represents_bound a x Ha).
    eapply returns_bind; [apply Add_limbs_spec; [by eapply represents_limbs.. | by eapply represents_length_mono]|].
    intros r Hr. destruct Ha as [Wa <-], Hb as [Wb <-]. fold (value a) (value b) in Hr.
    pose proof (sum_limbs_size _ _ r H0 H1 Hf Hr) as [Hs Hne].
    assert (normal r) as Hn by (eapply sum_limbs_normal; [exact H0 | | exact Hr]; lia).
    destruct Hr as (Hl & E & _). rewrite <- E in *. by apply SetMSB_represents. }
  destruct (Z.ltb_spec y x); [apply H; [done | done | lia | done]|].
  rewrite Z.add_comm in *. by apply H.
Qed.

(** ** Subtraction *)

Lemma borrow_spec fuel v c :
  Forall limb v -> (length v - c < fuel)%nat -> 0 < lval (drop c v) ->
  returns (borrow fuel v c) (fun u =>
    length u = length v /\ Forall limb u /\ lval u = lval v - bpow c /\
    forall i, (i < c)%nat -> u !! i = v !! i).
Proof.
  revert v c. induction fuel as [|fuel IH]; intros v c Hl Hf Hpos; [lia|]. cbn [borrow].
  destruct (le_lt_dec (length v) c); [rewrite drop_ge in Hpos by done; simpl in Hpos; lia|].
  fetch v c x Hx. pose proof (limb_lookup v c x Hl Hx) as Hlx.
  rewrite (lval_drop_S v c x Hx) in Hpos. destruct (Z.eqb_spec x 0) as [->|Hn].
  - rewrite vset_lt, bind_Ok by done.
    eapply returns_mono; [apply IH|].
    + apply Forall_insert; [done | blia].
    + rewrite length_insert. lia.
    + rewrite drop_insert_lt by lia. blia.
    + intros u (Hlu & Hfu & E & Hpre). rewrite length_insert in Hlu.
      rewrite (lval_insert v c _ 0 Hx), bpow_S in E.
      split_and!; [done | done | blia |]. intros i Hi. rewrite Hpre by lia.
      by rewrite list_lookup_insert_ne by lia.
  - rewrite vset_lt by done. simpl. rewrite length_insert, u32_small by blia.
    rewrite (lval_insert v c _ x Hx). split_and!; [done | | lia |].
    + apply Forall_insert; [done | blia].
    + intros i Hi. by rewrite list_lookup_insert_ne by lia.
Qed.

Lemma Sub_limbs_spec v w :
  Forall limb v -> Forall limb w -> (length w <= length v)%nat -> lval w <= lval v ->
  returns (Sub_limbs v w) (fun u =>
    length u = length v /\ Forall limb u /\ lval u = lval v - lval w).
Proof.
  intros Hv Hw Hlen Hle. unfold Sub_limbs.
  apply (returns_mono _ (fun u => length u = length v /\ Forall limb u /\
    lval u = lval v - lval (take (length w) w)));
    [|by rewrite take_ge by lia].
  apply (for_range_inv (fun i u => length u = length v /\ Forall limb u /\
    lval u = lval v - lval (take i w))); [lia| |].
  { rewrite take_0. simpl. split_and!; [done..|lia]. }
  intros i u Hi (Hl & Hf & E). unfold Sub_step. fetch u i x Hx. fetch w i y Hy.
  pose proof (limb_lookup u i x Hf Hx) as Lx. pose proof (limb_lookup w i y Hw Hy) as Ly.
  rewrite (lval_take_S w i y Hy). destruct (Z.ltb_spec x y) as [Hlt|Hge].
  - assert (0 < lval (drop (S i) u)) as Hpos.
    { pose proof (lval_split u i ltac:(lia)) as Eu. pose proof (lval_split w i ltac:(lia)) as Ew.
      rewrite (lval_drop_S u i x Hx) in Eu. rewrite (lval_drop_S w i y Hy) in Ew.
      pose proof (lval_take_bound u i Hf). pose proof (lval_bound _ (Forall_drop _ (S i) w Hw)).
      pose proof (bpow_pos i).
      assert (bpow i * (x + limb_base * lval (drop (S i) u) - y) > - bpow i) by (unfold limb_base, m_MaxLimb in *; nia).
      assert (-1 < x + limb_base * lval (drop (S i) u) - y) by nia.
      blia. }
    destruct (Nat.leb_spec (length u) (S i)); [rewrite drop_ge in Hpos by done; simpl in Hpos; lia|].
    eapply returns_bind; [apply borrow_spec; [done | lia | done]|].
    intros u' (Hl' & Hf' & E' & Hpre). assert (u' !! i = Some x) as Hx' by (rewrite Hpre by lia; done).
    rewrite (vget_Some _ _ _ Hx'), bind_Ok, vset_lt by lia. simpl.
    rewrite length_insert, (lval_insert u' i _ x Hx'), E', bpow_S.
    rewrite (u32_small (x + _)), u32_small by blia.
    split_and!; [lia | apply Forall_insert; [done | blia] |]. blia.
  - rewrite vset_lt by lia. simpl. rewrite length_insert, u32_small, (lval_insert u i _ x Hx) by blia.
    split_and!; [done | apply Forall_insert; [done | blia] | lia].
Qed.

Lemma sub_represents a b x y m :
  represents a x -> represents b y -> y < x ->
  returns (v ← Sub_limbs (m_value a) (m_value b);
           a' ← NormalizeLimbs (mk_ubint v m INITIALIZED); SetMSB a') (fun r => represents r (x - y)).
Proof.
  intros Ha Hb Hlt. pose proof (represents_length a x Ha). pose proof (represents_nonneg b y Hb).
  pose proof (represents_fits a x Ha) as Hf.
  pose proof (represents_length_mono b a y x Hb Ha ltac:(lia)).
  pose proof (represents_limbs a x Ha). pose proof (represents_limbs b y Hb).
  destruct Ha as [_ <-], Hb as [_ <-]. unfold value in *.
  eapply returns_bind; [apply Sub_limbs_spec; [done..|lia]|].
  intros v (Hl & Hv & E). rewrite <- E. apply normalize_represents; [done | intros ->; simpl in Hl; lia |].
  eapply fits_mono; [exact Hf|]. pose proof (lval_bound _ Hv). lia.
Qed.

(** Truncated subtraction: zero when the subtrahend is not smaller. *)
Lemma Sub_represents a b x y :
  represents a x -> represents b y -> returns (Sub a b) (fun r => represents r (Z.max 0 (x - y))).
Proof.
  intros Ha Hb. unfold Sub.
  rewrite (represents_not_garbage a x Ha), (represents_not_garbage b y Hb).
  rewrite (op_gt_spec a b x y Ha Hb). simpl. destruct (Z.ltb_spec y x); simpl.
  - rewrite (represents_copy a x Ha), bind_Ok, Z.max_r by lia. unfold set_value.
    replace (m_state a) with INITIALIZED by (destruct Ha as [[[-> _ _ _] _] _]; done).
    by apply (sub_represents a b x y).
  - rewrite Z.max_l by lia. apply represents_0.
Qed.

Lemma SubEq_represents a b x y :
  represents a x -> represents b y -> returns (SubEq a b) (fun r => represents r (Z.max 0 (x - y))).
Proof.
  intros Ha Hb. replace (SubEq a b) with (Sub a b); [by apply Sub_represents|].
  unfold Sub, SubEq. by rewrite (represents_copy a x Ha).
Qed.

(** ** Multiplication *)

Lemma fits_bpow k x : fits x -> bpow k <= x -> Z.of_nat k < max_limbs.
Proof.
  intros [H0 Hf] Hb. destruct (Z_lt_le_dec (Z.of_nat k) max_limbs) as [|Hk]; [done|].
  assert (x < 2 ^ (32 * max_limbs)) by (apply GetMSB_le; [lia | unfold max_limbs; lia | lia]).
  pose proof (Z.pow_le_mono_r 2 (32 * max_limbs) (32 * Z.of_nat k)). unfold bpow in Hb. lia.
Qed.

Lemma mul_limbs_spec v limbb ofl acc :
  Forall limb v -> limb limbb -> limb ofl -> Forall limb acc ->
  let '(r, c) := mul_limbs v limbb ofl acc in
  Forall limb r /\ limb c /\ length r = (length acc + length v)%nat /\
  lval r + bpow (length r) * c = lval acc + bpow (length acc) * (lval v * limbb + ofl).
Proof.
  intros Hv Hb. revert ofl acc. induction Hv as [|x v Hx Hv IH]; intros ofl acc Ho Ha; cbn [mul_limbs].
  { split_and!; [done | done | simpl; lia | simpl; lia]. }
  assert (0 <= x * limbb + ofl < 2 ^ 64) as Hr by (unfold limb, limb_base, m_MaxLimb in *; nia).
  pose proof (u64_double (x * limbb + ofl)) as E. rewrite u64_small in * by done.
  set (h := Z.shiftr (x * limbb + ofl) 32) in *.
  assert (limb h) as Hh.
  { unfold h, limb, limb_base, m_MaxLimb. rewrite Z.shiftr_div_pow2 by lia.
    apply div_range; lia. }
  unfold m_limbBitLength. fold h. rewrite (u32_small h) by (unfold limb, limb_base, m_MaxLimb in Hh; lia).
  specialize (IH h (acc ++ [u32 (x * limbb + ofl)]) Hh
    ltac:(apply Forall_snoc; auto with fhe)).
  destruct (mul_limbs v limbb h _) as [r c]. destruct IH as (H1 & H2 & H3 & H4).
  rewrite length_app in *. cbn [length lval] in *. split_and!; [done | done | lia |].
  rewrite H4, lval_snoc, Nat.add_1_r, bpow_S.
  replace (u32 (x * limbb + ofl)) with (x * limbb + ofl - limb_base * h) by lia. ring.
Qed.

Lemma limb_carry_push n s r c :
  length r = n -> Forall limb r -> limb c -> lval r + bpow n * c = s ->
  sum_limbs n s (if negb (c =? 0) then r ++ [c] else r).
Proof.
  intros Hl Hf Hc E. pose proof (lval_bound r Hf). pose proof (bpow_pos n).
  destruct (Z.eqb_spec c 0) as [->|]; simpl.
  - split_and!; [done | lia | by left].
  - unfold limb in Hc. split_and!.
    + by apply Forall_snoc.
    + rewrite lval_snoc, Hl. lia.
    + right. rewrite length_app. simpl. split; [lia|]. nia.
Qed.

Lemma partial_product_spec v i limbb :
  Forall limb v -> v <> [] -> limb limbb -> Z.of_nat (i + length v) <= max_limbs ->
  fits (bpow i * (lval v * limbb)) ->
  returns (partial_product v i limbb) (fun t => wfu t /\
    sum_limbs (i + length v) (bpow i * (lval v * limbb)) (m_value t)).
Proof.
  intros Hv Hne Hb Hsz Hf. unfold partial_product.
  pose proof (mul_limbs_spec v limbb 0 (repeat 0 i) Hv Hb limb_0
    (Forall_repeat _ _ _ limb_0)) as H.
  destruct (mul_limbs v limbb 0 (repeat 0 i)) as [r c]. destruct H as (H1 & H2 & H3 & H4).
  rewrite lval_repeat_0, repeat_length in *. rewrite H3, Z.add_0_r, Z.add_0_l in H4.
  pose proof (limb_carry_push (i + length v) _ r c H3 H1 H2 H4) as Hs.
  assert (1 <= i + length v)%nat by (destruct v; [done | simpl; lia]).
  destruct (sum_limbs_size _ _ _ H Hsz Hf Hs) as [Hs1 Hs2].
  eapply returns_mono; [apply SetMSB_wfu; [apply Hs | done | done]|]. intros t [Ht E].
  rewrite <- E in Hs. done.
Qed.

Lemma wfu_0 : wfu (ubint_int 0).
Proof. apply represents_0. Qed.

Lemma lval_take_step w i y :
  Forall limb w -> w !! i = Some y -> limb y /\
  lval (take i w) + bpow i * y <= lval w /\ 0 <= lval (take i w) /\ 0 <= bpow i * y.
Proof.
  intros Hw Hy. pose proof (limb_lookup w i y Hw Hy) as Ly.
  rewrite <- (lval_take_S w i y Hy). pose proof (lookup_lt_Some w i y Hy).
  pose proof (lval_split w (S i) ltac:(lia)). pose proof (lval_bound _ (Forall_drop _ (S i) w Hw)).
  pose proof (lval_take_bound w i Hw). pose proof (bpow_pos (S i)). pose proof (bpow_pos i).
  unfold limb in *. split_and!; try lia; nia.
Qed.

(** The top limb of a positive number. *)
Lemma represents_top b y :
  represents b y -> 0 < y -> exists top, last (m_value b) = Some top /\ 0 < top.
Proof.
  intros [W <-] Hy. destruct (wf_cases b W) as [(_ & _ & E)|(low & top & -> & Ht & _)]; [lia|].
  exists top. by rewrite last_snoc.
Qed.

(** A partial sum of the product that is not normal ends in a partial product by
    a zero limb. *)
Definition partial_sum (v w : list Z) (i : nat) (r : ubint) : Prop :=
  normal (m_value r) \/
  ((length (m_value r) <= i + length v - 1)%nat /\ exists i', i = S i' /\ w !! i' = Some 0).

Lemma partial_sum_step v w i c x r t r' :
  bpow (length v - 1) <= x -> limb c -> (1 <= length v)%nat -> w !! i = Some c ->
  partial_sum v w i r -> wfu r ->
  sum_limbs (i + length v) (bpow i * (x * c)) (m_value t) ->
  sum_limbs (length (m_value r) `max` length (m_value t)) (value r + bpow i * (x * c)) (m_value r') ->
  wfu r' -> partial_sum v w (S i) r'.
Proof.
  intros Hx Hc Hv Hw Hp Wr (Lt & Vt & Ht) (Lr' & Vr' & Hr') Wr'.
  pose proof (wfu_value_nonneg r Wr) as H0. pose proof (bpow_pos i). unfold limb in Hc.
  assert (0 <= bpow i * (x * c)) by (pose proof (bpow_pos (length v - 1)); repeat apply Z.mul_nonneg_nonneg; lia).
  assert (m_value r' <> []) as Hne
    by (pose proof (wfu_length r' Wr') as Hl; intros E; rewrite E in Hl; simpl in Hl; lia).
  assert (forall n, length (m_value r') = S n -> bpow n <= value r + bpow i * (x * c) -> normal (m_value r')) as Hn.
  { intros n E Hb. apply normal_bound; [done..|]. right. rewrite E, Vr'. simpl. by rewrite Nat.sub_0_r. }
  destruct Hr' as [Hr'|[Hr' Hb]]; [|left; by eapply Hn].
  destruct (le_lt_dec (length (m_value r)) (length (m_value t))) as [Hle|Hgt].
  - rewrite Nat.max_r in Hr' by done. destruct Ht as [Ht|[Ht Hb]].
    + destruct (Z.eq_dec c 0) as [->|Hc0].
      * right. split; [lia|]. by exists i.
      * left. apply (Hn (i + (length v - 1))%nat); [lia|]. rewrite bpow_add.
        assert (bpow (length v - 1) <= x * c) by (pose proof (bpow_pos (length v - 1)); nia). nia.
    + left. apply (Hn (i + length v)%nat); lia.
  - rewrite Nat.max_l in Hr' by lia. destruct Hp as [Hp|[Hp _]]; [|lia].
    left. apply normal_bound in Hp as [Hp|Hp]; [lia | | apply Wr | intros E; rewrite E in *; simpl in *; lia].
    apply (Hn (length (m_value r) - 1)%nat); [lia|]. unfold value. lia.
Qed.

#[export] Instance normal_dec v : Decision (normal v).
Proof. unfold normal. apply _. Defined.

(** The last limb of a positive number is not zero. *)
Lemma partial_sum_end v b y r :
  represents b y -> 0 < y -> partial_sum v (m_value b) (length (m_value b)) r -> normal (m_value r).
Proof.
  intros Hb Hy [|(_ & i' & Ei & E0)]; [done|].
  destruct (represents_top b y Hb Hy) as (top & Ht & Hpos). rewrite last_lookup, Ei in Ht. simpl in Ht.
  rewrite E0 in Ht. injection Ht as <-. lia.
Qed.

(** One turn of the loops of [Mul] and [ModMul]: the partial product is added. *)
Lemma mul_step a b x y i c r :
  represents a x -> represents b y -> 0 < x -> 0 < y -> fits (x * y) -> m_value b !! i = Some c ->
  wfu r -> partial_sum (m_value a) (m_value b) i r -> fits (value r + x * (bpow i * c)) ->
  returns (t ← partial_product (m_value a) i c; AddEq r t) (fun r' =>
    wfu r' /\ value r' = value r + x * (bpow i * c) /\ partial_sum (m_value a) (m_value b) (S i) r').
Proof.
  intros Ha Hb Hx Hy Hf Hc Wr Pr Hfr.
  pose proof (represents_bound a x Ha) as Ba. pose proof (represents_limbs a x Ha) as La.
  pose proof (represents_length a x Ha) as Na. pose proof (represents_limbs b y Hb) as Lb.
  assert (bpow (length (m_value a) - 1) <= x) as Ba'
    by (destruct Ba as [->|]; [change (bpow (1 - 1)) with 1; lia | done]).
  destruct (lval_take_step _ i c Lb Hc) as (Lc & H1 & H2 & H3).
  destruct Ha as [_ Va], Hb as [Wb Vb]. unfold value in Va, Vb. rewrite Vb in H1. unfold limb in Lc.
  assert (Z.of_nat (i + length (m_value a)) <= max_limbs) as Hsz.
  { enough (Z.of_nat (i + (length (m_value a) - 1)) < max_limbs) by lia.
    apply (fits_bpow _ (x * y) Hf). rewrite bpow_add.
    assert (bpow i <= y).
    { destruct (represents_bound b y (conj Wb Vb)) as [Bb|Bb]; apply lookup_lt_Some in Hc.
      - assert (i = 0%nat) as -> by lia. rewrite bpow_0. lia.
      - pose proof (bpow_le i (length (m_value b) - 1) ltac:(lia)). lia. }
    pose proof (bpow_pos i). pose proof (bpow_pos (length (m_value a) - 1)). nia. }
  assert (bpow i * (lval (m_value a) * c) = x * (bpow i * c)) as Et by (rewrite Va; ring).
  eapply returns_bind.
  { apply (partial_product_spec _ i c La); [by destruct (m_value a); simpl in *; [lia|] | done | done |].
    rewrite Et. eapply fits_mono; [exact Hf|]. nia. }
  intros t [Wt St]. pose proof St as (_ & Vt & _). rewrite Et in Vt. fold (value t) in Vt.
  eapply returns_mono; [apply (AddEq_wfu r t Wr Wt); by rewrite Vt|].
  intros r' [Wr' Sr']. rewrite Vt in Sr'. pose proof Sr' as (_ & Vr' & _). split_and!; [done | done |].
  rewrite Va in St. replace (x * (bpow i * c)) with (bpow i * (x * c)) in Sr' by ring.
  by apply (partial_sum_step _ _ i c x r t r').
Qed.

(** The product of two positive numbers. *)
Lemma Mul_loop_spec a b x y :
  represents a x -> represents b y -> fits (x * y) -> 0 < x -> 0 < y ->
  returns (for_range 0 (length (m_value b)) (fun i ans =>
      limbb ← vget (m_value b) i;
      tmpans ← partial_product (m_value a) i limbb;
      AddEq ans tmpans) (ubint_int 0)) (fun r => represents r (x * y)).
Proof.
  intros Ha Hb Hf Hx Hy. pose proof (represents_limbs b y Hb) as Lb. pose proof Hb as [_ Vb]. unfold value in Vb.
  eapply returns_mono; [apply (for_range_inv (fun i r => wfu r /\
    value r = x * lval (take i (m_value b)) /\ partial_sum (m_value a) (m_value b) i r)); [lia | |]|].
  - rewrite take_0. split_and!; [apply wfu_0 | cbn [lval]; by rewrite Z.mul_0_r | left; intros _; done].
  - intros i r Hi (Wr & Vr & Pr). fetch (m_value b) i c Hc.
    destruct (lval_take_step _ i c Lb Hc) as (_ & H1 & H2 & H3). rewrite Vb in H1.
    eapply returns_mono; [apply (mul_step a b x y i c r); try done; rewrite Vr; eapply fits_mono; [exact Hf | nia]|].
    intros r' (Wr' & Vr' & Pr'). split_and!; [done | | done]. rewrite Vr', Vr, (lval_take_S _ i c Hc). ring.
  - intros r (Wr & Vr & Pr). rewrite take_ge, Vb in Vr by lia. split; [split; [done|]|done].
    by apply (partial_sum_end (m_value a) b y).
Qed.

Lemma Mul_represents a b x y :
  represents a x -> represents b y -> fits (x * y) ->
  returns (Mul a b) (fun r => represents r (x * y)).
Proof.
  intros Ha Hb Hf. unfold Mul.
  rewrite (represents_not_garbage a x Ha), (represents_not_garbage b y Hb). simpl.
  pose proof (represents_nonneg a x Ha). pose proof (represents_nonneg b y Hb).
  destruct (Z.eqb_spec (m_MSB b) 0) as [E|Eb]; simpl.
  { apply (represents_msb_0 b y Hb) in E as ->. rewrite Z.mul_0_r. apply represents_0. }
  destruct (Z.eqb_spec (m_MSB a) 0) as [E|Ea]; simpl.
  { apply (represents_msb_0 a x Ha) in E as ->. apply represents_0. }
  destruct (Z.eqb_spec (m_MSB b) 1) as [E|_].
  { apply (represents_msb_1 b y Hb) in E as ->. by rewrite (represents_copy a x Ha), Z.mul_1_r. }
  destruct (Z.eqb_spec (m_MSB a) 1) as [E|_].
  { apply (represents_msb_1 a x Ha) in E as ->. by rewrite (represents_copy b y Hb), Z.mul_1_l. }
  rewrite (represents_msb_0 a x Ha) in Ea. rewrite (represents_msb_0 b y Hb) in Eb.
  apply Mul_loop_spec; [done | done | done | lia | lia].
Qed.

Lemma MulIntegerByLimb_represents a x b :
  represents a x -> limb b -> fits (x * b) ->
  returns (MulIntegerByLimb a b) (fun r => represents r (x * b)).
Proof.
  intros Ha Hb Hf. unfold MulIntegerByLimb. rewrite (represents_not_garbage a x Ha).
  destruct (Z.eqb_spec b 0) as [->|Eb]; simpl; [rewrite Z.mul_0_r; apply represents_0|].
  destruct (Z.eqb_spec (m_MSB a) 0) as [E|Ea]; simpl.
  { apply (represents_msb_0 a x Ha) in E as ->. apply represents_0. }
  rewrite (represents_msb_0 a x Ha) in Ea. pose proof (represents_nonneg a x Ha).
  pose proof (represents_bound a x Ha). pose proof (represents_length a x Ha).
  pose proof (mul_limbs_spec (m_value a) b 0 [] (represents_limbs a x Ha) Hb limb_0 ltac:(done)) as H'.
  destruct (mul_limbs (m_value a) b 0 []) as [r c]. destruct H' as (H1' & H2 & H3 & H4).
  simpl in H3. rewrite H3 in H4. destruct Ha as [_ Va]. unfold value in Va.
  cbn [length lval] in H4. rewrite Va, bpow_0, Z.mul_1_l, Z.add_0_r, Z.add_0_l in H4.
  pose proof (limb_carry_push (length (m_value a)) _ r c H3 H1' H2 H4) as Hs.
  unfold limb in Hb.
  assert (normal (if negb (c =? 0) then r ++ [c] else r)) as Hn.
  { eapply sum_limbs_normal; [|  | exact Hs]; [done|]. destruct H0; [by left | right; nia]. }
  destruct Hs as (Hl & E & Hlen). rewrite <- E in *. apply SetMSB_represents; [done | | done | done].
  intros E'. rewrite E' in Hlen. simpl in Hlen. lia.
Qed.
