(* ===== verification/BigShiftProps.v ===== *)
(** * Dynamic multiprecision integers: powers, shifts and bits

    Powers, left and right shifts, the undefined cases of the right shifts, and
    the accesses to bits, digits and limbs. *)
From stdpp Require Import base numbers list.
From Stdlib Require Import ZArith Lia.
From S2P Require Import Prelude Bits BigInt BigIntProps.
Open Scope Z_scope.

(** ** Powers *)

Lemma fits_pow x p q : 0 <= x -> 0 < q <= p -> fits (x ^ p) -> fits (x ^ q).
Proof.
  intros Hx Hq Hf. eapply fits_mono; [exact Hf|]. split; [by apply Z.pow_nonneg|].
  destruct (Z.eq_dec x 0) as [->|]; [rewrite !Z.pow_0_l by lia; lia|].
  apply Z.pow_le_mono_r; lia.
Qed.

Lemma Exp_fuel_represents fuel a x p :
  represents a x -> 0 <= p < 2 ^ Z.of_nat fuel -> fits (x ^ p) -> (1 <= fuel)%nat ->
  returns (Exp_fuel fuel a p) (fun r => represents r (x ^ p)).
Proof.
  intros Ha. revert p. induction fuel as [|fuel IH]; intros p Hp Hf Hfu; [lia|]. cbn [Exp_fuel].
  pose proof (represents_nonneg a x Ha).
  destruct (Z.eqb_spec p 0) as [->|Hp0]; [rewrite Z.pow_0_r; apply represents_1|].
  rewrite (represents_copy a x Ha), bind_Ok.
  destruct (Z.eqb_spec p 1) as [->|Hp1]; [by rewrite Z.pow_1_r|].
  rewrite Nat2Z.inj_succ, Z.pow_succ_r in Hp by lia.
  assert (x ^ (p / 2) * x ^ (p / 2) = x ^ (2 * (p / 2))) as Esq
    by (rewrite <- Z.pow_add_r by (apply Z.div_pos; lia); f_equal; lia).
  eapply returns_bind; [apply IH|].
  - split; [apply Z.div_pos; lia|]. apply Z.div_lt_upper_bound; lia.
  - eapply fits_pow; [done | | exact Hf]. Z.div_mod_to_equations; lia.
  - destruct fuel; [simpl in Hp; lia | lia].
  - intros t Ht. pose proof (Z.div_mod p 2 ltac:(lia)) as Ed.
    pose proof (Z.mod_pos_bound p 2 ltac:(lia)) as Hm.
    eapply returns_bind; [apply (Mul_represents _ _ _ _ Ht Ht)|].
    { rewrite Esq. eapply fits_pow; [done | | exact Hf]. lia. }
    intros sq Hsq. rewrite Esq in Hsq. destruct (Z.eqb_spec (p mod 2) 0).
    + simpl. by replace p with (2 * (p / 2)) at 1 by lia.
    + assert (x ^ p = x ^ (2 * (p / 2)) * x) as E.
      { replace p with (2 * (p / 2) + 1) at 1 by lia. rewrite Z.pow_add_r, Z.pow_1_r by lia. done. }
      rewrite E in *. by apply Mul_represents.
Qed.

Lemma Exp_represents a x p :
  represents a x -> 0 <= p < 2 ^ 32 -> fits (x ^ p) ->
  returns (Exp a p) (fun r => represents r (x ^ p)).
Proof. intros Ha Hp Hf. apply Exp_fuel_represents; [done | simpl; lia | done | lia]. Qed.

Lemma ExpEq_represents a x p :
  represents a x -> 0 <= p < 2 ^ 32 -> fits (x ^ p) ->
  returns (ExpEq a p) (fun r => represents r (x ^ p)).
Proof.
  intros Ha Hp Hf. unfold ExpEq. pose proof (represents_nonneg a x Ha).
  destruct (Z.eqb_spec p 0) as [->|Hp0]; [rewrite Z.pow_0_r; apply represents_1|].
  destruct (Z.eqb_spec p 1) as [->|Hp1]; [by rewrite Z.pow_1_r|].
  pose proof (Z.div_mod p 2 ltac:(lia)) as Ed. pose proof (Z.mod_pos_bound p 2 ltac:(lia)) as Hm.
  assert (x ^ (p / 2) * x ^ (p / 2) = x ^ (2 * (p / 2))) as Esq
    by (rewrite <- Z.pow_add_r by lia; f_equal; lia).
  eapply returns_bind; [apply (Exp_represents a x); [done | lia |]|].
  { eapply fits_pow; [done | | exact Hf]. lia. }
  intros t Ht. eapply returns_bind; [apply (Mul_represents _ _ _ _ Ht Ht)|].
  { rewrite Esq. eapply fits_pow; [done | | exact Hf]. lia. }
  intros sq Hsq. rewrite Esq in Hsq. destruct (Z.eqb_spec (p mod 2) 0).
  - simpl. by replace p with (2 * (p / 2)) at 1 by lia.
  - assert (x ^ p = x * x ^ (2 * (p / 2))) as E.
    { replace p with (1 + 2 * (p / 2)) at 1 by lia. rewrite Z.pow_add_r, Z.pow_1_r by lia. done. }
    rewrite E in *. by apply Mul_represents.
Qed.

(** ** Left shifts *)

Lemma GetMSB_mul_pow2 x n : 0 < x -> 0 <= n -> GetMSB (x * 2 ^ n) = GetMSB x + n.
Proof.
  intros Hx Hn. replace (x * 2 ^ n) with (0 + 2 ^ n * x) by lia.
  rewrite GetMSB_high by (pose proof (pow2_pos n); lia). lia.
Qed.

(** A limb shifted left by [s] bits: the low part is a multiple of [2 ^ s]. *)
Lemma shl_split x s :
  limb x -> 0 <= s < 32 ->
  u32 (x * 2 ^ s) = (x mod 2 ^ (32 - s)) * 2 ^ s /\
  x * 2 ^ s = u32 (x * 2 ^ s) + limb_base * (x / 2 ^ (32 - s)) /\
  0 <= x / 2 ^ (32 - s) < 2 ^ s /\ 0 <= u32 (x * 2 ^ s) <= limb_base - 2 ^ s.
Proof.
  intros Hx Hs. assert (limb_base = 2 ^ (32 - s) * 2 ^ s) as EB
    by (rewrite <- Z.pow_add_r by lia; replace (32 - s + s) with 32 by lia; done).
  assert (0 < 2 ^ s) by (apply pow2_pos; lia). assert (0 < 2 ^ (32 - s)) by (apply pow2_pos; lia).
  assert (u32 (x * 2 ^ s) = (x mod 2 ^ (32 - s)) * 2 ^ s) as E.
  { unfold u32. change (2 ^ 32) with limb_base. rewrite EB, Z.mul_mod_distr_r by lia. done. }
  rewrite E. pose proof (Z.div_mod x (2 ^ (32 - s)) ltac:(lia)) as Ed.
  pose proof (Z.mod_pos_bound x (2 ^ (32 - s)) ltac:(lia)) as Hm. unfold limb in Hx.
  split_and!; [done | nia | apply Z.div_pos; lia | apply Z.div_lt_upper_bound; lia | nia | nia].
Qed.

Lemma shl_limbs_spec s v :
  Forall limb v -> 0 <= s < 32 ->
  returns (shl_limbs (length v) s v) (fun '(u, c) =>
    length u = length v /\ Forall limb u /\ 0 <= c < 2 ^ s /\
    lval u + bpow (length v) * c = lval v * 2 ^ s).
Proof.
  intros Hv Hs. unfold shl_limbs. assert (0 < 2 ^ s) by (apply pow2_pos; lia).
  assert (2 ^ s <= 2 ^ 31) by (apply Z.pow_le_mono_r; lia).
  eapply returns_mono; [apply (for_range_inv (fun i '(u, c) => length u = length v /\ Forall limb u /\
    0 <= c < 2 ^ s /\ lval u + bpow i * c = lval v + (2 ^ s - 1) * lval (take i v) /\
    forall j, (i <= j)%nat -> u !! j = v !! j)); [lia| |]|].
  - rewrite take_0. cbn [lval]. split_and!; try done; lia.
  - intros i [u c] Hi (Hl & Hf & Hc & E & Hsuf). fetch u i x Hx.
    pose proof (limb_lookup u i x Hf Hx) as Lx. destruct (shl_split x s Lx Hs) as (_ & E1 & E2 & E3).
    rewrite Z.shiftl_mul_pow2 by lia. rewrite u64_small by (unfold limb, limb_base, m_MaxLimb in Lx; nia).
    unfold m_limbBitLength. rewrite (Z.shiftr_div_pow2 _ 32) by lia.
    assert (x * 2 ^ s / 2 ^ 32 = x / 2 ^ (32 - s)) as Ed.
    { replace (2 ^ 32) with (2 ^ (32 - s) * 2 ^ s) by (rewrite <- Z.pow_add_r by lia; f_equal; lia).
      apply Z.div_mul_cancel_r; apply Z.pow_nonzero; lia. }
    rewrite Ed. set (h := x / 2 ^ (32 - s)) in *. set (l := u32 (x * 2 ^ s)) in *.
    rewrite (u32_small (l + c)) by blia. rewrite (u32_small h) by lia.
    rewrite vset_lt, bind_Ok by lia. simpl. rewrite length_insert, (lval_insert u i _ x Hx).
    rewrite (Hsuf i) in Hx by lia. rewrite (lval_take_S v i x Hx), bpow_S.
    split_and!; [done | apply Forall_insert; [done | blia] | lia | lia | nia |].
    intros j Hj. rewrite list_lookup_insert_ne by lia. apply Hsuf. lia.
  - intros [u c] (Hl & Hf & Hc & E & _). rewrite take_ge in E by lia. split_and!; [done | done | lia.. | lia].
Qed.

(** Loops with an exact description of the state at each turn. *)
Lemma for_down_exact {S} (I : nat -> S) n body :
  (forall i, (i < n)%nat -> body i (I (Datatypes.S i)) = Ok (I i)) ->
  for_down n body (I n) = Ok (I O).
Proof.
  intros Hstep. apply returns_eq.
  apply (for_down_inv (fun i s => s = I i) n body (I n)); [done|].
  intros i s Hi ->. apply returns_eq. by apply Hstep.
Qed.

Lemma move_up_spec k v : move_up k v = Ok (repeat 0 k ++ v).
Proof.
  unfold move_up. set (W := v ++ repeat 0 k).
  assert (resize (length v + k) 0 v = W) as ->.
  { subst W. rewrite resize_ge by lia. replace (length v + k - length v)%nat with k by lia.
    f_equal. clear. induction k; simpl; by f_equal. }
  assert (length W = length v + k)%nat as HW by (subst W; by rewrite length_app, repeat_length).
  pose (I i := take (i + k) W ++ drop i v).
  replace W with (I (length v)) by (unfold I; rewrite take_ge, drop_ge, app_nil_r by lia; done).
  rewrite (for_down_exact I), bind_Ok.
  - unfold I. rewrite drop_0. pose (J i := take i W ++ repeat 0 (k - i) ++ v).
    replace (take (0 + k) W ++ v) with (J k) by (unfold J; rewrite Nat.sub_diag; done).
    rewrite (for_down_exact J).
    + unfold J. by rewrite take_0, Nat.sub_0_r.
    + intros i Hi. assert (length (J (S i)) = length v + k)%nat as Hl.
      { unfold J. rewrite !length_app, length_take, repeat_length. lia. }
      rewrite vset_lt by lia. unfold J. f_equal.
      destruct (lookup_lt_is_Some_2 W i) as [z Hz]; [lia|].
      rewrite (take_S_r W i z Hz), <- app_assoc.
      rewrite insert_app_r_alt by (rewrite length_take; lia).
      rewrite length_take, Nat.min_l, Nat.sub_diag by lia. simpl. f_equal.
      replace (k - i)%nat with (S (k - S i)) by lia. done.
  - intros i Hi. destruct (lookup_lt_is_Some_2 v i) as [x Hx]; [lia|].
    assert (I (S i) !! i = Some x) as HI.
    { unfold I. rewrite lookup_app_l by (rewrite length_take; lia).
      rewrite lookup_take_lt by lia. subst W. by rewrite lookup_app_l by lia. }
    assert (length (I (S i)) = length v + k)%nat as Hl.
    { unfold I. rewrite length_app, length_take, length_drop. lia. }
    rewrite (vget_Some _ _ _ HI), bind_Ok, vset_lt by lia. unfold I. f_equal.
    destruct (lookup_lt_is_Some_2 W (i + k)) as [z Hz]; [lia|].
    change (S i + k)%nat with (S (i + k)). rewrite (take_S_r W (i + k) z Hz), <- app_assoc.
    rewrite insert_app_r_alt by (rewrite length_take; lia).
    rewrite length_take, Nat.min_l, Nat.sub_diag by lia. simpl. f_equal. by rewrite (drop_S v x i Hx).
Qed.

Lemma land_31 s : 0 <= s -> Z.land s (m_limbBitLength - 1) = s mod 32.
Proof. intros. change (m_limbBitLength - 1) with (Z.ones 5). by rewrite Z.land_ones by lia. Qed.

Lemma shiftr_5 s : Z.shiftr s m_log2LimbBitLength = s / 32.
Proof. unfold m_log2LimbBitLength. by rewrite Z.shiftr_div_pow2 by lia. Qed.

Lemma represents_state a x : represents a x -> m_state a = INITIALIZED.
Proof. intros [[[H _ _ _] _] _]. done. Qed.

Lemma fits_u32 x : fits x -> u32 (GetMSB x) = GetMSB x.
Proof. intros [H0 H]. pose proof (GetMSB_nonneg x H0). apply u32_small. unfold max_limbs in H. lia. Qed.

Lemma represents_eta a x : represents a x -> a = mk_ubint (m_value a) (GetMSB x) INITIALIZED.
Proof.
  intros H. rewrite <- (represents_msb a x H), <- (represents_state a x H). by destruct a.
Qed.

(** The limbs of a positive number above zero limbs. *)
Lemma shift_limbs_represents a x k :
  represents a x -> 0 < x -> fits (x * bpow k) ->
  represents (mk_ubint (repeat 0 k ++ m_value a) (GetMSB (x * bpow k)) INITIALIZED) (x * bpow k).
Proof.
  intros Ha Hx Hf. pose proof (represents_limbs a x Ha) as Hl. pose proof (represents_length a x Ha).
  apply represents_limbs_intro; [| | | |done].
  - apply Forall_app. split; [apply Forall_repeat, limb_0 | done].
  - destruct (m_value a); simpl in *; [lia|]. by destruct k.
  - destruct Ha as [[_ Hn] <-]. unfold normal in *. rewrite last_app.
    destruct (last (m_value a)) eqn:E; [|apply last_None in E; rewrite E in *; simpl in *; lia].
    intros [= ->]. specialize (Hn eq_refl).
    destruct (m_value a) as [|z [|]] eqn:Ev; simpl in *; [lia | | lia]. simplify_eq.
    unfold value in Hx. rewrite Ev in Hx. simpl in Hx. lia.
  - rewrite lval_app, lval_repeat_0, repeat_length. destruct Ha as [_ <-]. unfold value. ring.
Qed.

Lemma LShift_body_represents a x s :
  represents a x -> 0 < x -> 0 <= s -> fits (x * 2 ^ s) ->
  returns (LShift_body a s) (fun r => represents r (x * 2 ^ s)).
Proof.
  intros Ha Hx Hs Hf. unfold LShift_body. rewrite land_31, shiftr_5 by done.
  pose proof (Z.div_mod s 32 ltac:(lia)) as Ed. pose proof (Z.mod_pos_bound s 32 ltac:(lia)) as Hm.
  set (r := s mod 32) in *. assert (0 <= s / 32) as Hk by (apply Z.div_pos; lia).
  set (k := s / 32) in *. assert (0 < 2 ^ r) by (apply pow2_pos; lia).
  assert (bpow (Z.to_nat k) = 2 ^ (32 * k)) as Eb by (unfold bpow; f_equal; lia).
  assert (x * 2 ^ s = x * 2 ^ r * bpow (Z.to_nat k)) as E.
  { rewrite Eb, <- Z.mul_assoc, <- Z.pow_add_r by lia. do 2 f_equal. lia. }
  pose proof (bpow_pos (Z.to_nat k)).
  assert (fits (x * 2 ^ r)) as Hfr by (eapply fits_mono; [exact Hf | rewrite E; nia]).
  apply (returns_bind _ _ (fun a' => represents a' (x * 2 ^ r))).
  - destruct (Z.eqb_spec r 0) as [->|Hr]; cbn [negb].
    { simpl. by rewrite Z.mul_1_r. }
    rewrite (limbs_for_length a x Ha).
    eapply returns_bind; [apply shl_limbs_spec; [by eapply represents_limbs | lia]|].
    intros [u c] (Hl & Hfu & Hc & Eu). rewrite Hl, Nat.ltb_irrefl.
    destruct Ha as [Wa Va]. unfold value in Va. rewrite Va in Eu.
    assert (represents a x) as Ha by done.
    pose proof (limb_carry_push (length (m_value a)) _ u c Hl Hfu
      ltac:(pose proof (Z.pow_le_mono_r 2 r 31); blia) Eu) as Hsl.
    replace (if negb (c =? 0) then Ok (u ++ [c]) else Ok u)
      with (Ok (if negb (c =? 0) then u ++ [c] else u)) by (by destruct (c =? 0)).
    rewrite bind_Ok, (represents_msb a x Ha), (represents_state a x Ha).
    rewrite <- GetMSB_mul_pow2, fits_u32 by (done || lia). simpl.
    pose proof (represents_bound a x Ha). pose proof (represents_length a x Ha).
    apply represents_limbs_intro; [apply Hsl | | | apply Hsl | done].
    + destruct Hsl as (_ & _ & Hlen). intros E0. rewrite E0 in Hlen. simpl in Hlen. lia.
    + eapply sum_limbs_normal; [| |exact Hsl]; [done|]. nia.
  - intros a' Ha'. rewrite (represents_state a' _ Ha'), (represents_msb a' _ Ha').
    rewrite (represents_eta a' _ Ha') at 1. cbn [m_value].
    replace (if negb (k =? 0) then move_up (Z.to_nat k) (m_value a') else Ok (m_value a'))
      with (Ok (repeat 0 (Z.to_nat k) ++ m_value a')).
    2:{ destruct (Z.eqb_spec k 0) as [->|]; [done|]. by rewrite move_up_spec. }
    rewrite bind_Ok. unfold m_limbBitLength.
    replace (GetMSB (x * 2 ^ r) + k * 32) with (GetMSB (x * 2 ^ r * bpow (Z.to_nat k))).
    2:{ rewrite Eb, GetMSB_mul_pow2 by nia. lia. }
    rewrite E in *. rewrite fits_u32 by done. apply shift_limbs_represents; [done | nia | done].
Qed.

Lemma LShift_represents a x s :
  represents a x -> 0 <= s -> fits (x * 2 ^ s) ->
  returns (LShift a s) (fun r => represents r (x * 2 ^ s)).
Proof.
  intros Ha Hs Hf. unfold LShift. rewrite (represents_not_garbage a x Ha).
  pose proof (represents_nonneg a x Ha). destruct (Z.eqb_spec (m_MSB a) 0) as [E|E].
  { apply (represents_msb_0 a x Ha) in E as ->. apply represents_0. }
  rewrite (represents_msb_0 a x Ha) in E. rewrite (represents_copy a x Ha), bind_Ok.
  apply LShift_body_represents; [done | lia | done..].
Qed.

Lemma LShiftEq_represents a x s :
  represents a x -> 0 <= s -> fits (x * 2 ^ s) ->
  returns (LShiftEq a s) (fun r => represents r (x * 2 ^ s)).
Proof.
  intros Ha Hs Hf. unfold LShiftEq. rewrite (represents_not_garbage a x Ha).
  pose proof (represents_nonneg a x Ha). destruct (Z.eqb_spec (m_MSB a) 0) as [E|E].
  { apply (represents_msb_0 a x Ha) in E as ->. done. }
  rewrite (represents_msb_0 a x Ha) in E. apply LShift_body_represents; [done | lia | done..].
Qed.

(** ** Right shifts *)

Lemma pops_spec k v :
  (k <= length v)%nat -> for_range 0 k (fun _ v => pop_back v) v = Ok (take (length v - k) v).
Proof.
  intros Hk. rewrite <- (take_ge v (length v - 0)) at 1 by lia.
  apply (for_range_exact (fun i => take (length v - i) v)); [lia|].
  intros i Hi. unfold pop_back.
  destruct (take (length v - i) v) as [|z w] eqn:E.
  { apply (f_equal length) in E. rewrite length_take in E. simpl in E. lia. }
  rewrite <- E, length_take, take_take. do 2 f_equal. lia.
Qed.

Lemma move_down_spec k v : (k <= length v)%nat -> move_down k v = Ok (drop k v).
Proof.
  intros Hk. unfold move_down. pose (I i := take (i - k) (drop k v) ++ drop (i - k) v).
  replace v with (I k) at 2 by (unfold I; rewrite Nat.sub_diag, take_0, drop_0; done).
  rewrite (for_range_exact I); [|lia|].
  - rewrite bind_Ok. unfold I. rewrite (take_ge (drop k v)) by (rewrite length_drop; lia).
    rewrite pops_spec by (rewrite length_app, !length_drop; lia).
    rewrite length_app, !length_drop. f_equal.
    rewrite take_app_le by (rewrite length_drop; lia). rewrite take_ge by (rewrite length_drop; lia). done.
  - intros i Hi. destruct (lookup_lt_is_Some_2 v i) as [x Hx]; [lia|].
    destruct (lookup_lt_is_Some_2 v (i - k)) as [z Hz]; [lia|].
    assert (length (take (i - k) (drop k v)) = i - k)%nat as Hlt
      by (rewrite length_take, length_drop; lia).
    assert (I i !! i = Some x) as HI.
    { unfold I. rewrite lookup_app_r, Hlt, lookup_drop by lia. by replace (i - k + (i - (i - k)))%nat with i by lia. }
    assert (length (I i) = length v) as Hl by (unfold I; rewrite length_app, Hlt, length_drop; lia).
    rewrite (vget_Some _ _ _ HI), bind_Ok, vset_lt by lia. f_equal. unfold I.
    rewrite insert_app_r_alt by lia. rewrite Hlt, Nat.sub_diag, (drop_S v z (i - k) Hz).
    replace (S i - k)%nat with (S (i - k)) by lia.
    rewrite (take_S_r (drop k v) (i - k) x), <- app_assoc; [done|].
    rewrite lookup_drop. by replace (k + (i - k))%nat with i by lia.
Qed.

(** The mask is defined for the amounts up to 30. *)
Lemma mask_ok s : 1 <= s <= 30 -> s32 (i32 (Z.shiftl 1 s) - 1) = Ok (2 ^ s - 1).
Proof.
  intros Hs. rewrite Z.shiftl_1_l. pose proof (Z.pow_le_mono_r 2 s 30 ltac:(lia) ltac:(lia)).
  pose proof (pow2_pos s ltac:(lia)). rewrite i32_small by lia. unfold s32. bool_cases; lia || done.
Qed.

Lemma shr_limbs_spec s v :
  Forall limb v -> 1 <= s <= 30 ->
  returns (shr_limbs (length v) s v) (fun u =>
    length u = length v /\ Forall limb u /\ lval u = lval v / 2 ^ s).
Proof.
  intros Hv Hs. unfold shr_limbs. rewrite mask_ok, bind_Ok by done.
  assert (0 < 2 ^ s) by (apply pow2_pos; lia). assert (0 < 2 ^ (32 - s)) by (apply pow2_pos; lia).
  assert (limb_base = 2 ^ (32 - s) * 2 ^ s) as EB
    by (rewrite <- Z.pow_add_r by lia; replace (32 - s + s) with 32 by lia; done).
  rewrite u32_small by (pose proof (Z.pow_le_mono_r 2 s 30); lia).
  replace (2 ^ s - 1) with (Z.ones s) by (rewrite Z.ones_equiv; lia).
  eapply returns_bind.
  { apply (for_down_inv (fun i '(u, o) => length u = length v /\ Forall limb u /\
      (forall j, (j < i)%nat -> u !! j = v !! j) /\
      lval (drop i u) = lval (drop i v) / 2 ^ s /\
      o = lval (drop i v) mod 2 ^ s * 2 ^ (32 - s))).
    { rewrite drop_ge by lia. split_and!; [done | done | done | |]; simpl;
        rewrite ?Z.div_0_l, ?Z.mod_0_l by lia; done. }
    intros i [u o] Hi (Hl & Hf & Hpre & E & Eo). fetch u i x Hx.
    pose proof (limb_lookup u i x Hf Hx) as Lx. pose proof Hx as Hxv. rewrite Hpre in Hxv by lia.
    set (V := lval (drop (S i) v)) in *.
    rewrite Z.land_ones, Z.shiftr_div_pow2, Z.shiftl_mul_pow2 by (unfold m_limbBitLength; lia).
    unfold m_limbBitLength. pose proof (Z.mod_pos_bound x (2 ^ s) ltac:(lia)) as Hxm.
    pose proof (Z.mod_pos_bound V (2 ^ s) ltac:(lia)) as Hvm.
    assert (0 <= x / 2 ^ s < 2 ^ (32 - s)) as Hxd by (unfold limb in Lx; apply div_range; lia).
    rewrite (u32_small (x mod 2 ^ s * 2 ^ (32 - s))) by (change (2 ^ 32) with limb_base; nia).
    rewrite (u32_small (x / 2 ^ s + o)) by (change (2 ^ 32) with limb_base; nia).
    rewrite vset_lt, bind_Ok by lia. simpl. rewrite length_insert.
    rewrite (drop_S v x i Hxv), (drop_S (<[i:=x / 2 ^ s + o]> u) (x / 2 ^ s + o) i)
      by (by apply list_lookup_insert_eq; lia).
    rewrite drop_insert_lt by lia. cbn [lval]. rewrite E. fold V.
    assert ((x + limb_base * V) / 2 ^ s = x / 2 ^ s + 2 ^ (32 - s) * V) as Ed.
    { rewrite EB. replace (x + 2 ^ (32 - s) * 2 ^ s * V) with (x + (2 ^ (32 - s) * V) * 2 ^ s) by ring.
      by rewrite Z.div_add by lia. }
    assert ((x + limb_base * V) mod 2 ^ s = x mod 2 ^ s) as Em.
    { rewrite EB. replace (x + 2 ^ (32 - s) * 2 ^ s * V) with (x + (2 ^ (32 - s) * V) * 2 ^ s) by ring.
      by rewrite Z.mod_add by lia. }
    rewrite Ed, Em, Eo. split_and!; [done | | | | done].
    - apply Forall_insert; [done|]. unfold limb. nia.
    - intros j Hj. rewrite list_lookup_insert_ne by lia. apply Hpre. lia.
    - rewrite EB. rewrite (Z.div_mod V (2 ^ s)) at 3 by lia. ring. }
  intros [u o] (Hl & Hf & _ & E & _). rewrite !drop_0 in E. done.
Qed.

(** [lval v / bpow k] of a vector is the value of the limbs from [k] on. *)
Lemma lval_drop v k : Forall limb v -> (k <= length v)%nat -> lval (drop k v) = lval v / bpow k.
Proof.
  intros Hv Hk. rewrite (lval_split v k Hk). pose proof (lval_take_bound v k Hv).
  rewrite (Z.mul_comm (bpow k)), Z.div_add by lia. rewrite Z.div_small by lia. lia.
Qed.

(** The whole limbs shifted out. *)
Lemma move_down_represents a x k :
  represents a x -> 32 * Z.of_nat k < m_MSB a ->
  represents (mk_ubint (drop k (m_value a)) (m_MSB a - 32 * Z.of_nat k) INITIALIZED) (x / bpow k) /\
  (k < length (m_value a))%nat.
Proof.
  intros Ha Hk. pose proof (represents_limbs a x Ha) as Hl. pose proof (represents_fits a x Ha) as Hf.
  destruct Ha as [Wa <-]. destruct (wf_cases a Wa) as [(_ & E & _)|(low & top & Hv & Ht & Hp & Hm & Hr)]; [lia|].
  assert (k <= length low)%nat as Hkl by lia. rewrite Hv, length_app. simpl. split; [|lia].
  assert (value a / bpow k = lval (drop k (m_value a))) as ->
    by (rewrite lval_drop; [done | done | rewrite Hv, length_app; simpl; lia]).
  rewrite Hv in Hl |- *. rewrite drop_app_le by lia.
  apply Forall_app in Hl as [Hll [Hlt _]%Forall_cons].
  pose proof (lval_bound _ (Forall_drop _ k low Hll)) as Hb. rewrite length_drop in Hb.
  pose proof (bpow_pos (length low - k)).
  assert (m_MSB a - 32 * Z.of_nat k = GetMSB (lval (drop k low ++ [top]))) as ->.
  { rewrite Hm. unfold value. rewrite Hv, !lval_snoc, length_drop. unfold bpow.
    pose proof (lval_bound low Hll). rewrite !GetMSB_high; [lia | unfold bpow in *; lia..]. }
  apply represents_limbs_intro; [| | | done |].
  - apply Forall_snoc; [by apply Forall_drop | done].
  - by destruct (drop k low).
  - apply normal_snoc. right. lia.
  - eapply fits_mono; [exact Hf|]. unfold value. rewrite Hv, !lval_snoc, length_drop.
    pose proof (lval_split low k ltac:(lia)). pose proof (lval_take_bound low k Hll).
    replace (bpow (length low)) with (bpow k * bpow (length low - k))
      by (rewrite <- bpow_add; f_equal; lia).
    pose proof (bpow_pos k). nia.
Qed.

Lemma RShift_body_represents a x s :
  represents a x -> 0 <= s < m_MSB a -> s mod 32 <> 31 ->
  returns (RShift_body a s) (fun r => represents r (x / 2 ^ s)).
Proof.
  intros Ha Hs H31. unfold RShift_body. rewrite land_31, shiftr_5 by lia.
  pose proof (Z.div_mod s 32 ltac:(lia)) as Ed. pose proof (Z.mod_pos_bound s 32 ltac:(lia)) as Hm.
  set (r := s mod 32) in *. assert (0 <= s / 32) as Hk by (apply Z.div_pos; lia).
  set (k := s / 32) in *. pose proof (represents_fits a x Ha) as [H0 Hf].
  destruct (move_down_represents a x (Z.to_nat k) Ha ltac:(lia)) as [Hr Hlen].
  assert (x / 2 ^ s = x / bpow (Z.to_nat k) / 2 ^ r) as ->.
  { unfold bpow. rewrite Z2Nat.id, Z.div_div, <- Z.pow_add_r by (lia || apply Z.pow_nonzero; lia || apply pow2_pos; lia).
    do 2 f_equal. lia. }
  set (y := x / bpow (Z.to_nat k)) in *. set (v := drop (Z.to_nat k) (m_value a)) in *.
  replace (if negb (k =? 0) then _ else Ok a)
    with (Ok (mk_ubint v (m_MSB a - 32 * Z.of_nat (Z.to_nat k)) INITIALIZED)).
  2:{ subst v. destruct (Z.eqb_spec k 0) as [->|]; cbn [negb].
      - rewrite drop_0, <- (represents_state a x Ha), Z.sub_0_r. by destruct a.
      - rewrite move_down_spec, bind_Ok, (represents_state a x Ha) by lia.
        rewrite (represents_msb a x Ha) in *. unfold max_limbs in Hf. unfold m_log2LimbBitLength.
        rewrite Z.shiftl_mul_pow2 by lia. rewrite u32_small by lia. do 2 f_equal. lia. }
  rewrite bind_Ok. set (b := mk_ubint v _ INITIALIZED) in *.
  pose proof (represents_limbs b y Hr) as Lb. pose proof (represents_length b y Hr) as Nb.
  pose proof (represents_fits b y Hr) as Fb. pose proof Hr as [_ Vb]. unfold value in Vb.
  assert (0 < 2 ^ r) by (apply pow2_pos; lia).
  apply (returns_bind _ _ (fun c => m_state c = INITIALIZED /\ Forall limb (m_value c) /\
    m_value c <> [] /\ lval (m_value c) = y / 2 ^ r)).
  - destruct (Z.eqb_spec r 0) as [->|]; cbn [negb].
    + rewrite Z.pow_0_r, Z.div_1_r. split_and!; [done | done | | done].
      intros E. rewrite E in Nb. simpl in Nb. lia.
    + rewrite (limbs_for_length b y Hr).
      eapply returns_bind; [apply shr_limbs_spec; [done | lia]|].
      intros u (Hlu & Hfu & Eu). simpl. rewrite Eu, Vb. split_and!; [done | done | | done].
      intros ->. simpl in Hlu. simpl in Nb. lia.
  - intros [w m st] (Hst & Hw & Hne & Ew). simpl in *. subst st. rewrite <- Ew.
    apply normalize_represents; [done | done |]. rewrite Ew. eapply fits_mono; [exact Fb|].
    destruct Fb as [? _]. split; [apply Z.div_pos; lia|]. apply Z.div_le_upper_bound; nia.
Qed.

Lemma div_pow2_0 x s : 0 <= x -> GetMSB x <= s -> x / 2 ^ s = 0.
Proof.
  intros Hx Hs. apply Z.div_small. split; [done|]. apply GetMSB_le; [done | | done].
  pose proof (GetMSB_nonneg x Hx). lia.
Qed.

Lemma RShift_represents a x s :
  represents a x -> 0 <= s -> s mod 32 <> 31 ->
  returns (RShift a s) (fun r => represents r (x / 2 ^ s)).
Proof.
  intros Ha Hs H31. unfold RShift. rewrite (represents_not_garbage a x Ha).
  pose proof (represents_nonneg a x Ha) as Hx. pose proof (represents_msb a x Ha) as Hm.
  destruct (Z.eqb_spec (m_MSB a) 0) as [E|E]; simpl.
  { apply (represents_msb_0 a x Ha) in E as ->. rewrite Z.div_0_l by (apply Z.pow_nonzero; lia).
    apply represents_0. }
  destruct (Z.leb_spec (m_MSB a) s).
  { rewrite div_pow2_0 by lia. apply represents_0. }
  rewrite (represents_copy a x Ha), bind_Ok. apply RShift_body_represents; [done | lia | done].
Qed.

(** [RShiftEq] on a shift that keeps a bit, or that is shorter than a limb. *)
Lemma RShiftEq_represents a x s :
  represents a x -> 0 <= s -> s mod 32 <> 31 -> (x = 0 \/ s < GetMSB x \/ s < 32) ->
  returns (RShiftEq a s) (fun r => represents r (x / 2 ^ s)).
Proof.
  intros Ha Hs H31 Hc. unfold RShiftEq. rewrite (represents_not_garbage a x Ha).
  pose proof (represents_nonneg a x Ha) as Hx. pose proof (represents_msb a x Ha) as Hm.
  destruct (Z.eqb_spec (m_MSB a) 0) as [E|E]; simpl.
  { apply (represents_msb_0 a x Ha) in E as ->. by rewrite Z.div_0_l by (apply Z.pow_nonzero; lia). }
  pose proof (represents_msb_0 a x Ha) as Hz.
  destruct (Z.leb_spec (m_MSB a) s); [|apply RShift_body_represents; [done | lia | done]].
  rewrite div_pow2_0 by lia. rewrite (represents_state a x Ha). unfold RShift_body.
  rewrite land_31, shiftr_5, Z.div_small, Z.mod_small by lia.
  change (negb (0 =? 0)) with false. cbv iota. rewrite bind_Ok.
  apply (returns_bind _ _ (fun c => m_state c = INITIALIZED /\ m_value c = [0])).
  - destruct (Z.eqb_spec s 0); cbn [negb]; [done|]. cbn [m_MSB m_value].
    change (limbs_for 0) with 1%nat. unfold shr_limbs.
    rewrite Z.mod_small in H31 by lia. rewrite mask_ok, bind_Ok by lia. simpl.
    rewrite Z.shiftr_0_l. done.
  - intros [w m st] [E1 E2]. simpl in E1, E2. subst. apply represents_0.
Qed.

(** The right shift in place is undefined when it shifts out every bit by a
    limb or more. *)
Lemma RShiftEq_undefined a x s :
  represents a x -> 0 < x -> GetMSB x <= s -> 32 <= s -> RShiftEq a s = UB.
Proof.
  intros Ha Hx Hm Hs. unfold RShiftEq. rewrite (represents_not_garbage a x Ha).
  rewrite (represents_msb a x Ha). pose proof (GetMSB_pos x Hx).
  destruct (Z.eqb_spec (GetMSB x) 0); [lia|]. destruct (Z.leb_spec (GetMSB x) s); [|lia].
  unfold RShift_body. rewrite land_31, shiftr_5 by lia.
  assert (1 <= s / 32) as Hk by (apply Z.div_le_lower_bound; lia).
  destruct (Z.eqb_spec (s / 32) 0); [lia|]. cbn [negb m_value m_MSB].
  set (k := Z.to_nat (s / 32)). assert (1 <= k)%nat as Hk' by lia.
  unfold move_down. assert (for_range k (length [0]) (fun i v => x ← vget v i; vset v (i - k) x) [0] = Ok [0]) as ->.
  { unfold for_range. by rewrite (proj2 (Nat.sub_0_le _ _)) by (simpl; lia). }
  rewrite bind_Ok. destruct (decide (k = 1%nat)) as [Ek|Hk2].
  - rewrite Ek. change (for_range 0 1 (fun _ v => pop_back v) [0]) with (Ok (A := list Z) []). rewrite !bind_Ok.
    cbn [m_value m_MSB m_state]. destruct (Z.eqb_spec (s mod 32) 0) as [E|E]; cbn [negb]; [done|].
    unfold shr_limbs, s32. destruct (_ && _); [|done].
    + rewrite bind_Ok. assert (exists n, limbs_for (u32 (0 - Z.shiftl (s / 32) m_log2LimbBitLength)) = S n) as [m ->].
      { replace (s / 32) with 1 by lia.
        exists (Z.to_nat (ceilIntByUInt (u32 (0 - Z.shiftl 1 m_log2LimbBitLength)) - 1)).
        unfold limbs_for. rewrite <- Z2Nat.inj_succ; [f_equal; lia | vm_compute; discriminate]. }
      cbn [for_down]. unfold vget. by rewrite lookup_nil.
  - assert (exists j, k = S (S j)) as [j Ej] by (exists (k - 2)%nat; lia). by rewrite Ej.
Qed.

(** The right shifts by 31 modulo 32 compute a mask that overflows [int]. *)
Lemma RShift_mask_undefined a x s :
  represents a x -> 0 <= s < GetMSB x -> s mod 32 = 31 -> RShift a s = UB /\ RShiftEq a s = UB.
Proof.
  intros Ha Hs H31. pose proof (represents_nonneg a x Ha) as Hx.
  assert (RShift_body a s = UB) as Hb.
  { unfold RShift_body. rewrite land_31, shiftr_5, H31 by lia.
    rewrite <- (represents_msb a x Ha) in Hs.
    assert (0 <= s / 32) by (apply Z.div_pos; lia).
    pose proof (move_down_represents a x (Z.to_nat (s / 32)) Ha
      ltac:(Z.div_mod_to_equations; lia)) as [_ Hlen].
    destruct (Z.eqb_spec (s / 32) 0); cbn [negb]; [done|].
    rewrite move_down_spec by lia. done. }
  unfold RShift, RShiftEq. rewrite (represents_not_garbage a x Ha), (represents_copy a x Ha).
  rewrite (represents_msb a x Ha) in *.
  destruct (Z.eqb_spec (GetMSB x) 0); [lia|]. destruct (Z.leb_spec (GetMSB x) s); [lia|]. simpl. done.
Qed.

(** ** Bits *)

Lemma bmask_loop_spec n b :
  0 <= b -> b * 2 ^ Z.of_nat n < 2 ^ 32 -> bmask_loop n b = b * 2 ^ Z.of_nat n.
Proof.
  revert b. induction n as [|n IH]; intros b Hb Hr; cbn [bmask_loop]; [simpl; lia|].
  rewrite Nat2Z.inj_succ, Z.pow_succ_r in * by lia. pose proof (pow2_pos (Z.of_nat n) ltac:(lia)).
  rewrite Z.shiftl_mul_pow2, Z.pow_1_r by lia. rewrite u32_small by nia. rewrite IH; nia.
Qed.

Lemma land_pow2_bit x j : 0 <= j -> Z.shiftr (Z.land x (2 ^ j)) j = Z.b2z (Z.testbit x j).
Proof.
  intros Hj. rewrite Z.shiftr_land, <- Z.shiftl_1_l, Z.shiftr_shiftl_l, Z.sub_diag by lia.
  rewrite Z.shiftl_0_r. change 1 with (Z.ones 1) at 1. rewrite Z.land_ones by lia.
  rewrite Z.shiftr_div_pow2, Z.pow_1_r by lia. by rewrite Z.testbit_spec' by lia.
Qed.

(** The bits of a number are the bits of its limbs. *)
Lemma limb_testbit v k x j :
  Forall limb v -> v !! k = Some x -> 0 <= j < 32 ->
  Z.testbit (lval v) (32 * Z.of_nat k + j) = Z.testbit x j.
Proof.
  intros Hv Hk Hj. pose proof (lookup_lt_Some v k x Hk).
  rewrite Z.add_comm, <- Z.shiftr_spec, Z.shiftr_div_pow2 by lia. fold (bpow k).
  rewrite <- lval_drop, (lval_drop_S v k x Hk) by (done || lia).
  pose proof (limb_lookup v k x Hv Hk) as Lx. unfold limb in Lx.
  rewrite <- (Z.mod_pow2_bits_low _ 32 j) by lia. change (2 ^ 32) with limb_base.
  by rewrite (Z.mul_comm limb_base), Z.mod_add, Z.mod_small by blia.
Qed.

Lemma GetBitAtIndex_spec a x index :
  represents a x -> 1 <= index -> GetBitAtIndex a index = Ok (Z.b2z (Z.testbit x (index - 1))).
Proof.
  intros Ha Hi. unfold GetBitAtIndex. pose proof (represents_nonneg a x Ha) as Hx.
  pose proof (represents_msb a x Ha) as Hm.
  destruct (Z.leb_spec index 0); [lia|]. rewrite Z.gtb_ltb.
  destruct (Z.ltb_spec (m_MSB a) index).
  { rewrite Z.testbit_spec', div_pow2_0 by lia. done. }
  pose proof (limbs_for_length a x Ha) as Hlen. unfold limbs_for in Hlen.
  rewrite ceilIntByUInt_spec in * by lia. unfold m_limbBitLength in *.
  assert (Z.to_nat ((index + 31) / 32 - 1) = Z.to_nat ((index - 1) / 32)) as ->.
  { f_equal. replace (index + 31) with (index - 1 + 1 * 32) by lia. rewrite Z.div_add; lia. }
  assert (0 <= (index - 1) / 32 < (m_MSB a + 31) / 32) as Hk.
  { split; [apply Z.div_pos; lia|]. replace (m_MSB a + 31) with (m_MSB a - 1 + 1 * 32) by lia.
    rewrite Z.div_add by lia. pose proof (Z.div_le_mono (index - 1) (m_MSB a - 1) 32). lia. }
  fetch (m_value a) (Z.to_nat ((index - 1) / 32)) l Hl.
  set (c := if index mod 32 =? 0 then 32 else index mod 32).
  assert (c - 1 = (index - 1) mod 32) as Ec.
  { subst c. destruct (Z.eqb_spec (index mod 32) 0); Z.div_mod_to_equations; lia. }
  pose proof (Z.mod_pos_bound (index - 1) 32 ltac:(lia)) as Hmb.
  rewrite bmask_loop_spec; rewrite ?Z.mul_1_l, ?Z2Nat.id by lia; [|lia|apply Z.pow_lt_mono_r; lia].
  rewrite land_pow2_bit, Ec by lia. do 2 f_equal.
  rewrite <- (limb_testbit (m_value a) _ l _ (represents_limbs a x Ha) Hl Hmb), Z2Nat.id by lia.
  destruct Ha as [_ Va]. unfold value in Va. rewrite Va. f_equal.
  rewrite (Z.div_mod (index - 1) 32) at 3 by lia. done.
Qed.

Lemma mod_pow2_S x i :
  0 <= i -> x mod 2 ^ (i + 1) = x mod 2 ^ i + 2 ^ i * Z.b2z (Z.testbit x i).
Proof.
  intros Hi. rewrite Z.pow_add_r, Z.pow_1_r, Z.testbit_spec' by lia.
  apply Z.rem_mul_r; [apply Z.pow_nonzero; lia | lia].
Qed.

Lemma isPowerOfTwo_loop_spec a x i :
  represents a x -> isPowerOfTwo_loop i a = Ok (x mod 2 ^ Z.of_nat i =? 0).
Proof.
  intros Ha. induction i as [|i IH]; cbn [isPowerOfTwo_loop]; [by rewrite Z.mod_1_r|].
  rewrite (GetBitAtIndex_spec a x) by (done || lia). rewrite bind_Ok, IH.
  replace (Z.of_nat (S i)) with (Z.of_nat i + 1) by lia. rewrite mod_pow2_S, Z.add_simpl_r by lia.
  pose proof (pow2_pos (Z.of_nat i) ltac:(lia)).
  pose proof (Z.mod_pos_bound x (2 ^ Z.of_nat i) ltac:(lia)).
  destruct (Z.testbit x (Z.of_nat i)); simpl; f_equal; bool_cases; lia || done.
Qed.

Lemma isPowerOfTwo_spec a x :
  represents a x -> isPowerOfTwo a = Ok (bool_decide (x = 0 \/ x = 2 ^ (GetMSB x - 1))).
Proof.
  intros Ha. unfold isPowerOfTwo. rewrite (isPowerOfTwo_loop_spec a x _ Ha), (represents_msb a x Ha).
  pose proof (represents_nonneg a x Ha). f_equal. apply eq_true_iff_eq.
  rewrite Z.eqb_eq, bool_decide_eq_true.
  destruct (Z.eq_dec x 0) as [->|Hx]; [split; [by left | done]|].
  pose proof (GetMSB_pos x ltac:(lia)). pose proof (GetMSB_bounds x ltac:(lia)) as Hb.
  rewrite Z2Nat.id by lia. pose proof (pow2_pos (GetMSB x - 1) ltac:(lia)).
  replace (2 ^ GetMSB x) with (2 * 2 ^ (GetMSB x - 1)) in Hb
    by (rewrite <- Z.pow_succ_r by lia; f_equal; lia).
  rewrite <- (mod_sub_once x (2 ^ (GetMSB x - 1))) by lia. lia.
Qed.

(** ** Conversion to a native integer *)

Lemma limbs_for_mono_64 a x :
  represents a x ->
  limbs_for (if 64 >? m_MSB a then m_MSB a else 64) = (length (m_value a) `min` 2)%nat.
Proof.
  intros Ha. pose proof (limbs_for_length a x Ha) as Hl. pose proof (represents_length a x Ha).
  pose proof (GetMSB_nonneg x (represents_nonneg a x Ha)) as Hg. rewrite <- (represents_msb a x Ha) in Hg.
  rewrite Z.gtb_ltb. destruct (Z.ltb_spec (m_MSB a) 64).
  - rewrite Hl. destruct (Z.eq_dec (m_MSB a) 0) as [E|]; [rewrite E in Hl|].
    + change (limbs_for 0) with 1%nat in Hl. lia.
    + unfold limbs_for in Hl. rewrite ceilIntByUInt_spec in Hl by lia.
      assert ((m_MSB a + 31) / 32 < 3) by (apply Z.div_lt_upper_bound; lia). lia.
  - change (limbs_for 64) with 2%nat. unfold limbs_for in Hl. rewrite ceilIntByUInt_spec in Hl by lia.
    assert (2 <= (m_MSB a + 31) / 32) by (apply Z.div_le_lower_bound; lia). lia.
Qed.

Lemma ConvertToInt_spec a x : represents a x -> ConvertToInt a = Ok (x mod 2 ^ 64).
Proof.
  intros Ha. unfold ConvertToInt. pose proof (represents_length a x Ha).
  destruct (Nat.eqb_spec (length (m_value a)) 0); [lia|].
  rewrite (limbs_for_mono_64 a x Ha). pose proof (represents_limbs a x Ha) as Hv.
  destruct Ha as [_ <-]. unfold value. set (v := m_value a) in *.
  replace (lval v mod 2 ^ 64) with (lval (take (length v `min` 2) v)).
  - change 0 with (lval (take 0 v)) at 1.
    apply (for_range_exact (fun i => lval (take i v))); [lia|]. intros i Hi. fetch v i x Hx.
    unfold m_limbBitLength. rewrite Z.shiftl_mul_pow2 by lia. fold (bpow i).
    pose proof (lval_take_bound v (S i) Hv) as Hb. rewrite (lval_take_S v i x Hx) in *.
    pose proof (lval_take_bound v i Hv) as Hb'. pose proof (limb_lookup v i x Hv Hx) as Lx.
    assert (bpow (S i) <= 2 ^ 64).
    { transitivity (bpow 2); [apply bpow_le; lia | done]. }
    pose proof (bpow_pos i). unfold limb in Lx.
    rewrite (u64_small (x * bpow i)), (Z.mul_comm x), u64_small by nia. done.
  - destruct (le_lt_dec (length v) 2).
    + rewrite Nat.min_l, take_ge by lia. pose proof (lval_bound v Hv).
      pose proof (bpow_le (length v) 2 ltac:(lia)). rewrite Z.mod_small; [done|].
      change (2 ^ 64) with (bpow 2). lia.
    + rewrite Nat.min_r by lia. rewrite (lval_split v 2) at 1 by lia. change (2 ^ 64) with (bpow 2).
      rewrite (Z.mul_comm (bpow 2)), Z.mod_add by done. symmetry. apply Z.mod_small.
      apply lval_take_bound. done.
Qed.
