(* ===== verification/BigDivProps.v ===== *)
(** * Dynamic multiprecision integers: division

    The limb divisions of [BigDiv] compute the quotient and the remainder: the
    division by one limb, the normalization, the estimate of a quotient digit
    and its correction (Knuth's Theorems A and B), "multiply and subtract" with
    its borrow in signed arithmetic, and "add back". *)
From stdpp Require Import base numbers list.
From Stdlib Require Import ZArith Lia.
From S2P Require Import Prelude Bits BigInt BigDiv BigIntProps BigShiftProps.
Open Scope Z_scope.

(** ** Signed words *)

Lemma i64_small x : - 2 ^ 63 <= x < 2 ^ 63 -> i64 x = x.
Proof.
  intros H. unfold i64, u64. destruct (Z_lt_le_dec x 0).
  - replace (x mod 2 ^ 64) with (x + 2 ^ 64) by (apply (Z.mod_unique _ _ (-1)); lia).
    bool_cases; lia.
  - rewrite Z.mod_small by lia. bool_cases; lia.
Qed.

Lemma u32_i64 x : u32 (i64 x) = u32 x.
Proof.
  unfold i64, u64, u32. bool_cases; Z.div_mod_to_equations; lia.
Qed.

Lemma s64_ok x : - 2 ^ 63 <= x < 2 ^ 63 -> s64 x = Ok x.
Proof. intros H. unfold s64. bool_cases; lia || done. Qed.

Lemma u64_limb_mul x y : limb x -> limb y -> u64 (x * y) = x * y.
Proof. intros. apply u64_small. unfold limb, limb_base, m_MaxLimb in *. nia. Qed.

Lemma u64_limb_pair x y : limb x -> limb y -> u64 (u64 (limb_base * x) + y) = limb_base * x + y.
Proof.
  intros. unfold limb, limb_base, m_MaxLimb in *. by rewrite (u64_small (_ * _)), u64_small by lia.
Qed.

(** ** Leading zeros *)

Lemma nlz32_spec x :
  0 < x < 2 ^ 32 -> 0 <= nlz32 x < 32 /\ 2 ^ 31 <= x * 2 ^ nlz32 x < 2 ^ 32.
Proof.
  intros Hx. unfold nlz32. destruct (Z.eqb_spec x 0); [lia|]. rewrite !Z.shiftl_mul_pow2 by lia.
  destruct (Z.leb_spec x 0x0000FFFF); cbv beta iota zeta;
    rewrite ?Z.shiftl_mul_pow2, ?(u32_small (x * 2 ^ 16)) by lia;
    (match goal with |- context [if ?y <=? 0x00FFFFFF then _ else _] => destruct (Z.leb_spec y 0x00FFFFFF) end);
    cbv beta iota zeta; rewrite ?Z.shiftl_mul_pow2 by lia; rewrite ?(u32_small (_ * 2 ^ 8)) by lia;
    (match goal with |- context [if ?y <=? 0x0FFFFFFF then _ else _] => destruct (Z.leb_spec y 0x0FFFFFFF) end);
    cbv beta iota zeta; rewrite ?Z.shiftl_mul_pow2 by lia; rewrite ?(u32_small (_ * 2 ^ 4)) by lia;
    (match goal with |- context [if ?y <=? 0x3FFFFFFF then _ else _] => destruct (Z.leb_spec y 0x3FFFFFFF) end);
    cbv beta iota zeta; rewrite ?Z.shiftl_mul_pow2 by lia; rewrite ?(u32_small (_ * 2 ^ 2)) by lia;
    (match goal with |- context [if ?y <=? 0x7FFFFFFF then _ else _] => destruct (Z.leb_spec y 0x7FFFFFFF) end);
    simpl Z.add; lia.
Qed.

(** ** Division by one limb *)

Lemma div_step_limb Q K uj v0 B :
  0 < v0 -> 0 <= K < v0 -> 0 <= uj < B -> 0 <= Q ->
  (uj + B * (v0 * Q + K)) / v0 = (K * B + uj) / v0 + B * Q /\
  (uj + B * (v0 * Q + K)) mod v0 = (K * B + uj) mod v0 /\
  0 <= (K * B + uj) / v0 < B.
Proof.
  intros Hv HK Hu HQ.
  replace (uj + B * (v0 * Q + K)) with (K * B + uj + (B * Q) * v0) by ring.
  rewrite Z.div_add, Z.mod_add by lia. split_and!; [done | done | apply Z.div_pos; nia |].
  apply Z.div_lt_upper_bound; nia.
Qed.

(** The intermediate remainder [k] is only correct modulo [2 ^ 32], since the
    product of limbs wraps; that is enough. *)
Lemma div_single_spec u v0 q :
  Forall limb u -> 0 < v0 -> limb v0 -> length q = length u ->
  returns (div_single u v0 q) (fun '(q, k) =>
    length q = length u /\ Forall limb q /\ lval q = lval u / v0 /\ u32 k = lval u mod v0).
Proof.
  intros Hu Hv Lv Hq. unfold div_single.
  eapply returns_mono; [apply (for_down_inv (fun j '(q, k) => length q = length u /\
    Forall limb (drop j q) /\ lval (drop j q) = lval (drop j u) / v0 /\
    u32 k = lval (drop j u) mod v0))|].
  - rewrite !drop_ge by lia. simpl. rewrite Z.div_0_l, Z.mod_0_l by lia. done.
  - intros j [q' k] Hj (Hl & Hf & Eq & Ek). fetch u j uj Huj.
    pose proof (limb_lookup u j uj Hu Huj) as Lj.
    rewrite (lval_drop_S u j uj Huj). set (U := lval (drop (S j) u)) in *.
    set (K := u32 k) in *. pose proof (Z.mod_pos_bound U v0 Hv) as HK. rewrite <- Ek in HK.
    assert (0 <= U) as HU by (apply (lval_bound _ (Forall_drop _ (S j) u Hu))).
    assert (u64 (k * limb_base) = K * limb_base) as E1.
    { unfold u64, K, u32. change (2 ^ 64) with (2 ^ 32 * limb_base).
      by rewrite Z.mul_mod_distr_r by done. }
    unfold limb in Lv, Lj. rewrite E1, (u64_small (K * limb_base + uj)) by (unfold limb_base, m_MaxLimb in *; nia).
    pose proof (Z.div_pos U v0 HU Hv) as HQ.
    destruct (div_step_limb (U / v0) K uj v0 limb_base Hv HK Lj HQ) as (D1 & D2 & D3).
    rewrite Ek, <- (Z.div_mod U v0) in D1, D2 by lia. rewrite <- Ek in D1, D2.
    set (d := K * limb_base + uj) in *. rewrite (u32_small (d / v0)) by exact D3.
    rewrite vset_lt, bind_Ok by lia. simpl. rewrite length_insert.
    rewrite (drop_S (<[j:=d / v0]> q') (d / v0) j) by (apply list_lookup_insert_eq; lia).
    rewrite drop_insert_lt by lia. cbn [lval]. rewrite D1, D2, Eq.
    split_and!; [done | by constructor | done |].
    rewrite u32_i64. pose proof (Z.mod_pos_bound d v0 Hv) as Hm.
    rewrite <- (Z.mod_small (d mod v0) (2 ^ 32)) by blia. rewrite (Z.mod_eq d v0) by lia.
    unfold u32. rewrite (Z.mul_comm (d / v0)). by rewrite Zminus_mod_idemp_r.
  - intros [q' k] (Hl & Hf & Eq & Ek). rewrite !drop_0 in *. done.
Qed.

(** ** The estimate of a quotient digit *)

Section Estimate.
(** The window of the dividend is [((u1 * B + u2) * B + u3) * W + ulow], the
    divisor [(v1 * B + v2) * W + vlow]. *)
Context (W d u3 ulow v1 v2 vlow U V : Z).
#[local] Abbreviation B := limb_base.
Context (HW : 0 < W) (Hu3 : limb u3) (Hul : 0 <= ulow < W) (Hd : 0 <= d < B * B).
Context (Hv1 : B / 2 <= v1 < B) (Hv2 : limb v2) (Hvl : 0 <= vlow < W).
Context (HU : U = (d * B + u3) * W + ulow) (HV : V = (v1 * B + v2) * W + vlow).
Context (HUV : U < B * V).

Lemma v1_big : 2 ^ 31 <= v1.
Proof. destruct Hv1 as [H _]. change (B / 2) with (2 ^ 31) in H. done. Qed.

Lemma V_pos : B * W <= V.
Proof. pose proof v1_big. unfold limb in *. unfold limb_base, m_MaxLimb in *. nia. Qed.

Lemma V_gt0 : 0 < V.
Proof. pose proof V_pos. unfold limb_base, m_MaxLimb in *. lia. Qed.

Lemma q_bounds : V * (U / V) <= U < V * (U / V) + V /\ 0 <= U / V < B.
Proof.
  pose proof V_gt0.
  assert (0 <= U) by (unfold limb in *; unfold limb_base, m_MaxLimb in *; nia).
  pose proof (Z.div_mod U V ltac:(lia)). pose proof (Z.mod_pos_bound U V ltac:(lia)).
  split; [lia|]. apply div_range; nia.
Qed.

(** The first estimate is not too small, and at most [B + 1]. *)
Lemma first_estimate : U / V <= d / v1 <= B + 1.
Proof.
  destruct q_bounds as [[Hq _] [Hq0 _]]. pose proof v1_big. set (q := U / V) in *.
  unfold limb in *. assert (0 < W * B) by blia. split.
  - apply Z.div_le_lower_bound; [lia|].
    assert (v1 * q * (W * B) <= q * V) by (rewrite HV; nia).
    assert (U < (d + 1) * (W * B)) by (rewrite HU; unfold limb_base, m_MaxLimb in *; nia). nia.
  - assert (d * (W * B) <= U) by (rewrite HU; unfold limb_base, m_MaxLimb in *; nia).
    assert (V <= (v1 + 1) * (W * B)) by (rewrite HV; unfold limb_base, m_MaxLimb in *; nia).
    assert (d * (W * B) < B * (v1 + 1) * (W * B)) by (unfold limb_base, m_MaxLimb in *; nia).
    assert (d < B * (v1 + 1)) by nia.
    apply Z.lt_succ_r, Z.div_lt_upper_bound; [lia|]. unfold limb_base, m_MaxLimb in *. nia.
Qed.

(** The test succeeds only on estimates that are too large. *)
Lemma test_true qhat rhat :
  0 <= qhat -> qhat * v1 + rhat = d -> qhat * v2 > B * rhat + u3 -> U / V < qhat.
Proof.
  intros H0 Hr Ht. destruct q_bounds as [[Hq _] [Hq0 _]].
  destruct (Z_lt_le_dec (U / V) qhat) as [|Hle]; [done|]. pose proof V_gt0.
  assert (qhat * V <= U) by nia.
  assert (qhat * (v1 * B + v2) * W <= qhat * V) by (rewrite HV; nia).
  assert (qhat * (v1 * B + v2) < d * B + u3 + 1) by (rewrite HU in *; nia). nia.
Qed.

(** An estimate that fails the test is at most one too large. *)
Lemma test_false qhat rhat :
  0 <= qhat < B -> qhat * v1 + rhat = d -> qhat * v2 <= B * rhat + u3 -> qhat <= U / V + 1.
Proof.
  intros H0 Hr Ht. destruct q_bounds as [[_ Hq] [Hq0 _]]. pose proof V_pos. pose proof V_gt0.
  assert (qhat * (v1 * B + v2) <= d * B + u3) by nia.
  assert (qhat * V <= (d * B + u3) * W + qhat * W) by (rewrite HV; nia).
  assert (qhat * V < U + V) by (rewrite HU; nia). nia.
Qed.

(** An estimate whose remainder has reached [B] is not too large. *)
Lemma rhat_exit qhat rhat :
  0 <= qhat <= B -> qhat * v1 + rhat = d -> B <= rhat -> qhat <= U / V.
Proof.
  intros H0 Hr Ht. destruct q_bounds as [[_ Hq] [Hq0 _]]. pose proof V_gt0.
  assert (0 < W * B) by blia. unfold limb in *.
  assert (V <= (v1 + 1) * (W * B)) by (rewrite HV; unfold limb_base, m_MaxLimb in *; nia).
  assert (qhat * V <= qhat * (v1 + 1) * (W * B)) by nia.
  assert (qhat * (v1 + 1) <= d) by nia.
  assert (qhat * V <= d * (W * B)) by nia.
  assert (d * (W * B) <= U) by (rewrite HU; unfold limb_base, m_MaxLimb in *; nia). nia.
Qed.

Lemma again_spec fuel qhat rhat :
  U / V <= qhat <= B + 1 -> 0 <= rhat < B -> qhat * v1 + rhat = d ->
  (1 <= fuel)%nat -> B <= Z.of_nat fuel * v1 + rhat ->
  returns (again fuel qhat rhat v1 v2 u3) (fun r => U / V <= r <= U / V + 1 /\ r < B).
Proof.
  destruct q_bounds as [Hq [Hq0 HqB]]. pose proof v1_big.
  revert qhat rhat. induction fuel as [|fuel IH]; intros qhat rhat Hqh Hrh Hd' Hf Hfu; [lia|].
  cbn [again]. unfold limb in *.
  set (test := (qhat >=? B) || _).
  assert (qhat < B -> u64 (qhat * v2) = qhat * v2 /\ u64 (u64 (B * rhat) + u3) = B * rhat + u3) as Hu.
  { intros. rewrite u64_limb_mul, u64_limb_pair by (unfold limb; lia). done. }
  destruct test eqn:Et.
  - assert (U / V < qhat) as Hlt.
    { apply orb_prop in Et as [Et|Et].
      - rewrite Z.geb_leb in Et. apply Z.leb_le in Et. lia.
      - destruct (Z_lt_le_dec qhat B) as [Hlt|]; [|lia].
        destruct (Hu Hlt) as [E1 E2]. rewrite E1, E2, Z.gtb_ltb in Et. apply Z.ltb_lt in Et.
        eapply test_true; [lia | exact Hd' | lia]. }
    rewrite (u64_small (qhat - 1)), (u64_small (rhat + v1)) by blia.
    destruct (Z.ltb_spec (rhat + v1) B).
    + apply IH; [lia | lia | lia | lia | lia].
    + simpl. pose proof (rhat_exit (qhat - 1) (rhat + v1) ltac:(lia) ltac:(lia) ltac:(lia)). lia.
  - apply orb_false_elim in Et as [E1 E2]. rewrite Z.geb_leb in E1. apply Z.leb_gt in E1.
    destruct (Hu E1) as [F1 F2]. rewrite F1, F2, Z.gtb_ltb in E2. apply Z.ltb_ge in E2. simpl.
    pose proof (test_false qhat rhat ltac:(lia) Hd' E2). lia.
Qed.

End Estimate.

(** ** Multiply and subtract, add back *)

(** One limb of "multiply and subtract": the limb stored and the new borrow. *)
Lemma mul_sub_limb qhat vi ui k :
  limb qhat -> limb vi -> limb ui -> 0 <= k < limb_base ->
  let p := qhat * vi in
  let t := ui - k - Z.land p m_MaxLimb in
  let k' := Z.shiftr p 32 - Z.shiftr t 32 in
  - 2 ^ 33 <= t < 2 ^ 32 /\ 0 <= k' < limb_base /\ ui - k - p = u32 t - limb_base * k'.
Proof.
  intros Hq Hv Hu Hk p t k'.
  assert (0 <= p <= (limb_base - 1) * (limb_base - 1)) as Hp.
  { unfold p, limb in *. unfold limb_base, m_MaxLimb in *. nia. }
  assert (Z.land p m_MaxLimb = p mod 2 ^ 32) as El.
  { change m_MaxLimb with (Z.ones 32). by rewrite Z.land_ones. }
  unfold k', t in *. rewrite El, !Z.shiftr_div_pow2 by lia. unfold u32. clearbody p. clear El k' t Hq Hv.
  unfold limb, limb_base, m_MaxLimb in *. split_and!; Z.div_mod_to_equations; lia.
Qed.

Section Windows.
(** Both loops change the limbs of [un] from [j] to [j + n] only. *)
Context (n j : nat) (vn un0 : list Z).
Context (Hn : length vn = n) (Hvn : Forall limb vn) (Hun : Forall limb un0).
Context (Hlen : (j + n < length un0)%nat).

Definition window (un : list Z) : Prop :=
  length un = length un0 /\ Forall limb un /\
  forall i, (i < j \/ j + n < i)%nat -> un !! i = un0 !! i.

Lemma window_insert un i x :
  window un -> (j <= i <= j + n)%nat -> limb x -> window (<[i := x]> un).
Proof.
  intros (Hl & Hf & Hs) Hi Hx. split_and!.
  - by rewrite length_insert.
  - by apply Forall_insert.
  - intros i' Hi'. rewrite list_lookup_insert_ne by lia. by apply Hs.
Qed.

Lemma mul_sub_spec qhat :
  limb qhat ->
  returns (mul_sub n j qhat vn un0) (fun '(un, t) => window un /\ - limb_base < t < limb_base /\
    lval un = lval un0 - bpow j * (qhat * lval vn) + (if t <? 0 then bpow (S (j + n)) else 0)).
Proof.
  intros Hq. unfold mul_sub. eapply returns_bind.
  { apply (for_range_inv (fun i '(un, k) => window un /\ 0 <= k < limb_base /\
      (forall i', (i + j <= i')%nat -> un !! i' = un0 !! i') /\
      lval un - bpow (i + j) * k = lval un0 - bpow j * (qhat * lval (take i vn)))); [lia| |].
    { rewrite take_0. cbn [lval]. split_and!; [done.. | blia | blia | done | lia]. }
    intros i [un k] Hi (Hw & Hk & Hs & E). pose proof Hw as (Hl & Hf & _).
    fetch vn i vi Hvi. fetch un (i + j)%nat ui Hui.
    pose proof (limb_lookup vn i vi Hvn Hvi) as Lv. pose proof (limb_lookup un _ ui Hf Hui) as Lu.
    rewrite u64_limb_mul by done.
    destruct (mul_sub_limb qhat vi ui k Hq Lv Lu Hk) as (Ht & Hk' & El).
    set (p := qhat * vi) in *. rewrite s64_ok, bind_Ok by blia.
    unfold m_limbBitLength. set (t := ui - k - Z.land p m_MaxLimb) in *.
    rewrite (i64_small t) by lia. rewrite i64_small by blia.
    rewrite vset_lt, bind_Ok by lia. simpl.
    rewrite (lval_insert un _ _ ui Hui), (lval_take_S vn i vi Hvi), bpow_S.
    split_and!; [apply window_insert; [done | lia | apply limb_u32] | lia | lia | |].
    - intros i' Hi'. rewrite list_lookup_insert_ne by lia. apply Hs. lia.
    - replace (u32 t) with (ui - k - p + limb_base * (Z.shiftr p 32 - Z.shiftr t 32)) by lia.
      rewrite Nat.add_comm, bpow_add in *. unfold p. nia. }
  intros [un k] (Hw & Hk & Hs & E). pose proof Hw as (Hl & Hf & _). rewrite take_ge in E by lia.
  fetch un (j + n)%nat ut Hut. pose proof (limb_lookup un _ ut Hf Hut) as Lt.
  rewrite s64_ok, bind_Ok by blia. rewrite vset_lt, bind_Ok by lia. simpl.
  rewrite (lval_insert un _ _ ut Hut). rewrite (Nat.add_comm n j) in E.
  split_and!; [apply window_insert; [done | lia | apply limb_u32] | blia | blia |].
  rewrite bpow_S. destruct (Z.ltb_spec (ut - k) 0).
  - assert (u32 (ut - k) = ut - k + limb_base) as ->.
    { symmetry. apply (Z.mod_unique _ _ (-1)); blia. }
    lia.
  - rewrite u32_small by blia. lia.
Qed.

Lemma add_back_spec :
  returns (add_back n j vn un0) (fun un => window un /\
    (lval un = lval un0 + bpow j * lval vn \/
     lval un = lval un0 + bpow j * lval vn - bpow (S (j + n)))).
Proof.
  unfold add_back. eapply returns_bind.
  { apply (for_range_inv (fun i '(un, k) => window un /\ 0 <= k <= 1 /\
      lval un + bpow (i + j) * k = lval un0 + bpow j * lval (take i vn))); [lia| |].
    { rewrite take_0. cbn [lval]. split_and!; [done.. | lia | lia | lia]. }
    intros i [un k] Hi (Hw & Hk & E). pose proof Hw as (Hl & Hf & _).
    fetch un (i + j)%nat ui Hui. fetch vn i vi Hvi.
    pose proof (limb_lookup vn i vi Hvn Hvi) as Lv. pose proof (limb_lookup un _ ui Hf Hui) as Lu.
    rewrite u64_small by blia. rewrite i64_small by blia.
    rewrite vset_lt, bind_Ok by lia. simpl. unfold m_limbBitLength.
    pose proof (add_limbs_spec ui vi k Lu Lv Hk) as Ha. unfold add_limbs, m_limbBitLength in Ha.
    rewrite u64_small in Ha by blia. destruct Ha as (H1 & H2 & H3).
    rewrite (lval_insert un _ _ ui Hui), (lval_take_S vn i vi Hvi), bpow_S.
    split_and!; [apply window_insert; [done | lia | done] | lia | lia |].
    rewrite Nat.add_comm, bpow_add in *. nia. }
  intros [un k] (Hw & Hk & E). pose proof Hw as (Hl & Hf & _). rewrite take_ge in E by lia.
  fetch un (j + n)%nat ut Hut. pose proof (limb_lookup un _ ut Hf Hut) as Lt.
  rewrite vset_lt by lia. simpl. rewrite (lval_insert un _ _ ut Hut). rewrite (Nat.add_comm n j) in E.
  split; [apply window_insert; [done | lia | apply limb_u32]|]. rewrite bpow_S.
  destruct (Z_lt_le_dec (ut + k) limb_base).
  - left. rewrite u32_small by blia. lia.
  - right. assert (u32 (ut + k) = ut + k - limb_base) as ->.
    { symmetry. apply (Z.mod_unique _ _ 1); blia. }
    lia.
Qed.

(** The limbs of a window below and above it are those of [un0]. *)
Lemma window_low un : window un -> lval un = lval (take j un0) + bpow j * lval (drop j un).
Proof.
  intros (Hl & _ & Hs). rewrite (lval_split un j) by lia. do 2 f_equal.
  apply list_eq. intros i. destruct (le_lt_dec j i).
  - by rewrite !lookup_take_ge by lia.
  - rewrite !lookup_take_lt by lia. apply Hs. by left.
Qed.

Lemma window_high un :
  window un -> lval (drop (S (j + n)) un0) = 0 -> 0 <= lval (drop j un) < bpow (S n).
Proof.
  intros (Hl & Hf & Hs) H0. assert (drop (S (j + n)) un = drop (S (j + n)) un0) as E.
  { apply list_eq. intros i. rewrite !lookup_drop. apply Hs. right. lia. }
  pose proof (lval_split (drop j un) (S n) ltac:(rewrite length_drop; lia)) as Es.
  rewrite drop_drop, <- plus_n_Sm, E, H0 in Es.
  pose proof (lval_take_bound (drop j un) (S n) (Forall_drop _ _ _ Hf)). lia.
Qed.

End Windows.

(** ** One turn of the main loop *)

Lemma lval_top2 v n :
  Forall limb v -> length v = S (S n) ->
  exists v1 v2, v !! S n = Some v1 /\ v !! n = Some v2 /\ limb v1 /\ limb v2 /\
    lval v = (v1 * limb_base + v2) * bpow n + lval (take n v).
Proof.
  intros Hv Hl. destruct (lookup_lt_is_Some_2 v (S n)) as [v1 H1]; [lia|].
  destruct (lookup_lt_is_Some_2 v n) as [v2 H2]; [lia|]. exists v1, v2.
  split_and!; [done | done | by eapply limb_lookup.. |].
  rewrite (lval_split v n) by lia. rewrite (lval_drop_S v n v2 H2), (lval_drop_S v (S n) v1 H1).
  rewrite drop_ge by lia. cbn [lval]. ring.
Qed.

Section Step.
Context (n j : nat) (vn un : list Z) (top : Z).
Context (Hn : length vn = S (S n)) (Hvn : Forall limb vn) (Hun : Forall limb un).
Context (Hlen : (j + S (S n) < length un)%nat).
Context (Htop : vn !! S n = Some top) (Hbig : 2 ^ 31 <= top).
Context (Hlt : lval (drop (S j) un) < lval vn).

Lemma step_window : 0 <= lval (drop j un) < limb_base * lval vn.
Proof.
  destruct (lookup_lt_is_Some_2 un j) as [x Hx]; [lia|]. rewrite (lval_drop_S un j x Hx).
  pose proof (limb_lookup un j x Hun Hx) as Lx. pose proof (lval_bound _ (Forall_drop _ (S j) un Hun)).
  blia.
Qed.

Lemma step_high : lval (drop (S (j + S (S n))) un) = 0.
Proof.
  pose proof (lval_bound vn Hvn) as Hb. rewrite Hn in Hb.
  pose proof (lval_split (drop (S j) un) (S (S n)) ltac:(rewrite length_drop; lia)) as E.
  rewrite drop_drop in E. replace (S j + S (S n))%nat with (S (j + S (S n))) in E by lia.
  pose proof (lval_bound _ (Forall_drop _ (S (j + S (S n))) un Hun)).
  pose proof (lval_take_bound (drop (S j) un) (S (S n)) (Forall_drop _ _ _ Hun)).
  pose proof (bpow_pos (S (S n))). nia.
Qed.

Lemma estimate_spec :
  returns (estimate (S (S n)) j un vn) (fun q =>
    lval (drop j un) / lval vn <= q <= lval (drop j un) / lval vn + 1 /\ limb q).
Proof.
  unfold estimate. destruct (lval_top2 vn n Hvn Hn) as (v1 & v2 & Hv1 & Hv2 & L1 & L2 & EV).
  rewrite Htop in Hv1. injection Hv1 as <-.
  set (w := take (S (S (S n))) (drop j un)).
  assert (length w = S (S (S n))) as Hlw by (unfold w; rewrite length_take, length_drop; lia).
  assert (Forall limb w) as Hw by (by apply Forall_take, Forall_drop).
  assert (lval (drop j un) = lval w) as Ew.
  { rewrite (lval_split (drop j un) (S (S (S n)))) by (rewrite length_drop; lia).
    rewrite drop_drop. replace (j + S (S (S n)))%nat with (S (j + S (S n))) by lia.
    rewrite step_high. fold w. lia. }
  destruct (lval_top2 w (S n) Hw Hlw) as (u1 & u2 & Hu1 & Hu2 & M1 & M2 & EU).
  destruct (lookup_lt_is_Some_2 w n) as [u3 Hu3]; [lia|].
  pose proof (limb_lookup w n u3 Hw Hu3) as M3. rewrite (lval_take_S w n u3 Hu3) in EU.
  unfold w in Hu1, Hu2, Hu3. rewrite lookup_take_lt, lookup_drop in Hu1, Hu2, Hu3 by lia.
  replace (j + S (S n) - 1)%nat with (j + S n)%nat by lia.
  replace (j + S (S n) - 2)%nat with (j + n)%nat by lia.
  replace (S (S n) - 1)%nat with (S n) by lia. replace (S (S n) - 2)%nat with n by lia.
  rewrite (vget_Some _ _ _ Hu1), bind_Ok, (vget_Some _ _ _ Hu2), bind_Ok, (vget_Some _ _ _ Htop), bind_Ok,
    (vget_Some _ _ _ Hv2), bind_Ok, (vget_Some _ _ _ Hu3), bind_Ok.
  rewrite (Z.mul_comm u1), u64_limb_pair by done. set (d := limb_base * u1 + u2) in *.
  assert (0 <= d < limb_base * limb_base) as Hd by (unfold d; blia).
  assert (0 < top) by lia. pose proof (Z.div_mod d top ltac:(lia)) as Ed.
  pose proof (Z.mod_pos_bound d top ltac:(lia)) as Hm.
  assert (0 <= d / top) by (apply Z.div_pos; lia).
  assert (0 <= d / top * top <= d) by (split; nia).
  rewrite (u64_small (d / top * top)) by blia. rewrite u64_small by blia. rewrite Ew.
  pose proof step_window as Hsw. rewrite Ew in Hsw.
  pose proof (lval_take_bound vn n Hvn) as Hvl. pose proof (lval_take_bound w n Hw) as Hul.
  assert (lval w = (d * limb_base + u3) * bpow n + lval (take n w)) as EU' by (rewrite EU, bpow_S; unfold d; ring).
  assert (limb_base / 2 <= top < limb_base) as Ht by (change (limb_base / 2) with (2 ^ 31); blia).
  pose proof (first_estimate _ _ _ _ _ _ _ _ _ (bpow_pos n) M3 Hul Hd Ht L2 Hvl EU' EV ltac:(lia)) as Hf.
  eapply returns_mono; [apply (again_spec (bpow n) d u3 (lval (take n w)) top v2 (lval (take n vn))
    (lval w) (lval vn)); try done; try lia|].
  - blia.
  - intros q [Hq1 Hq2]. split; [done|]. split; [|done].
    assert (0 <= lval w / lval vn) by (apply Z.div_pos; nia). lia.
Qed.

Lemma div_step_spec :
  returns (div_step (S (S n)) j vn un) (fun '(un', qj) =>
    length un' = length un /\ Forall limb un' /\ limb qj /\
    lval un' = lval un - bpow j * (qj * lval vn) /\ lval (drop j un') < lval vn).
Proof.
  unfold div_step. set (V := lval vn) in *. set (U := lval (drop j un)).
  pose proof step_window as Hsw. fold U V in Hsw. pose proof step_high as Hh.
  assert (0 < V) as HV0 by blia. assert (0 <= U / V) as Hq0 by (apply Z.div_pos; lia).
  pose proof (Z.div_mod U V ltac:(lia)) as Ed. pose proof (Z.mod_pos_bound U V HV0) as Hm.
  eapply returns_bind; [apply estimate_spec|]. intros qhat [Hq Lq]. fold U V in Hq.
  pose proof (lval_bound vn Hvn) as HVb. rewrite Hn in HVb. fold V in HVb.
  assert (window (S (S n)) j un un) as W0 by done.
  pose proof (window_low _ _ vn un Hn Hlen un W0) as E0. fold U in E0.
  pose proof (bpow_pos j) as Hbj.
  eapply returns_bind; [by apply mul_sub_spec|]. intros [un' t] (Hw & Ht & E). fold V in E.
  pose proof (window_low _ _ vn un Hn Hlen un' Hw) as E1. pose proof (window_high _ _ vn un Hn Hlen un' Hw Hh) as Hb.
  rewrite plus_n_Sm, bpow_add in E. set (U' := lval (drop j un')) in *.
  assert (U' = U - qhat * V + (if t <? 0 then bpow (S (S (S n))) else 0)) as EU'.
  { apply (Z.mul_reg_l _ _ (bpow j)); [lia|]. destruct (t <? 0); lia. }
  revert EU' E. destruct (Z.ltb_spec t 0); intros EU' E.
  - pose proof Hw as (Hl' & Hf' & Hs').
    eapply returns_bind; [apply (add_back_spec (S (S n)) j vn un'); [done | done | done | lia]|].
    intros un'' [Hw'' Ec]. fold V in Ec. rewrite plus_n_Sm, bpow_add in Ec.
    assert (lval (drop (S (j + S (S n))) un') = 0) as Hh'.
    { rewrite <- Hh. f_equal. apply list_eq. intros i. rewrite !lookup_drop. apply Hs'. right. lia. }
    assert (j + S (S n) < length un')%nat as Hlen' by lia.
    pose proof (window_low _ _ vn un' Hn Hlen' un'' Hw'') as E2.
    pose proof (window_high _ _ vn un' Hn Hlen' un'' Hw'' Hh') as Hb''.
    assert (lval un' = lval (take j un') + bpow j * U') as E1' by (apply lval_split; lia).
    set (U'' := lval (drop j un'')) in *. set (T := bpow (S (S (S n)))) in *.
    assert (U'' = U' + V \/ U'' = U' + V - T) as EU''.
    { destruct Ec as [Ec|Ec]; [left | right]; apply (Z.mul_reg_l _ _ (bpow j)); lia. }
    assert (qhat = U / V + 1) as -> by (nia || lia).
    assert (U'' = U' + V - T) as EU2 by (destruct EU'' as [EU''|]; [nia | done]).
    destruct Hw'' as (Hl'' & Hf'' & _). unfold limb in Lq.
    rewrite (u32_small (U / V + 1)), u32_small by (unfold limb_base, m_MaxLimb in *; lia).
    rewrite Z.add_simpl_r. simpl.
    unfold limb. split_and!; [lia | done | lia | lia | |].
    + rewrite E2, E1' in *. rewrite E0. nia.
    + nia.
  - assert (qhat = U / V) as -> by nia. destruct Hw as (Hl' & Hf' & _).
    unfold limb in Lq. rewrite u32_small by (unfold limb_base, m_MaxLimb in *; lia).
    simpl. split_and!; [lia | done | done | lia | nia].
Qed.
End Step.

(** ** Normalization *)

Lemma u32_lor a b : u32 (Z.lor a b) = Z.lor (u32 a) (u32 b).
Proof.
  unfold u32. rewrite <- !Z.land_ones by lia. apply Z.land_lor_distr_l.
Qed.

(** The limb [i] of a vector shifted left: its low part and the bits the limb
    below shifts in. *)
Definition shifted_limb (v : list Z) (s : Z) (i : nat) (x : Z) : Prop :=
  exists y, v !! i = Some y /\
    x = u32 (y * 2 ^ s) + (match i with O => 0 | S i' => default 0 (v !! i') / 2 ^ (32 - s) end).

Lemma shl_limb_spec v s i :
  Forall limb v -> 0 <= s < 32 -> (S i < length v)%nat ->
  returns (shl_limb v s (S i)) (fun x => limb x /\ shifted_limb v s (S i) x).
Proof.
  intros Hv Hs Hi. unfold shl_limb. fetch v (S i) x Hx. replace (S i - 1)%nat with i by lia.
  fetch v i y Hy. simpl. unfold m_limbBitLength. rewrite Z.shiftl_mul_pow2, Z.shiftr_div_pow2 by lia.
  destruct (shl_split x s (limb_lookup v _ x Hv Hx) Hs) as (E1 & _ & _ & E3).
  destruct (shl_split y s (limb_lookup v _ y Hv Hy) Hs) as (_ & _ & E2 & _).
  assert (2 ^ s <= 2 ^ 31) by (apply Z.pow_le_mono_r; lia).
  rewrite (u32_small (y / _)) by lia. rewrite E1, lor_disjoint, <- E1 by lia.
  split; [blia|]. exists x. split; [done|]. simpl. by rewrite Hy.
Qed.

Lemma normalize_limbs_spec n v s vn :
  Forall limb v -> 0 <= s < 32 -> (1 <= n)%nat -> length v = n -> (n <= length vn)%nat -> Forall limb vn ->
  returns (normalize_limbs n v s vn) (fun l => length l = length vn /\ Forall limb l /\
    (forall i, (i < n)%nat -> exists x, l !! i = Some x /\ shifted_limb v s i x) /\
    drop n l = drop n vn).
Proof.
  intros Hv Hs Hn Hl Hle Hvn. unfold normalize_limbs.
  apply (returns_bind _ _ (fun l => length l = length vn /\ Forall limb l /\
    (forall i, (0 < i < n)%nat -> exists x, l !! i = Some x /\ shifted_limb v s i x) /\
    drop n l = drop n vn)).
  - apply (for_down_inv (fun k l => length l = length vn /\ Forall limb l /\
      (forall i, (k < i < n)%nat -> exists x, l !! i = Some x /\ shifted_limb v s i x) /\
      drop n l = drop n vn)); [split_and!; [done | done | intros; lia | done]|].
    intros i l Hi (Hll & Hfl & Hs' & Hd).
    eapply returns_bind; [apply shl_limb_spec; [done | done | lia]|]. intros x [Lx Hx].
    rewrite vset_lt by lia. simpl. rewrite length_insert. split_and!; [done | by apply Forall_insert | |].
    + intros i' Hi'. destruct (decide (i' = S i)) as [->|Hne].
      * exists x. split; [by apply list_lookup_insert_eq; lia | done].
      * rewrite list_lookup_insert_ne by lia. apply Hs'. lia.
    + rewrite drop_insert_lt by lia. done.
  - intros l (Hll & Hfl & Hs' & Hd). fetch v 0%nat x Hx. rewrite vset_lt by lia. simpl.
    rewrite Z.shiftl_mul_pow2 by lia. rewrite length_insert.
    split_and!; [done | apply Forall_insert; [done | apply limb_u32] | |].
    + intros [|i] Hi.
      * exists (u32 (x * 2 ^ s)). split; [by apply list_lookup_insert_eq; lia|].
        exists x. split; [done | lia].
      * rewrite list_lookup_insert_ne by lia. apply Hs'. lia.
    + rewrite drop_insert_lt by lia. done.
Qed.

(** The value of the shifted limbs and of the bits shifted out at the top. *)
Lemma shifted_value v s l i :
  Forall limb v -> 0 <= s < 32 -> (i < length v)%nat ->
  (forall i', (i' <= i)%nat -> exists x, l !! i' = Some x /\ shifted_limb v s i' x) ->
  lval (take (S i) l) + bpow (S i) * (default 0 (v !! i) / 2 ^ (32 - s)) = lval (take (S i) v) * 2 ^ s.
Proof.
  intros Hv Hs. induction i as [|i IH]; intros Hi H.
  - destruct (H 0%nat ltac:(lia)) as (x & Hx & y & Hy & ->). rewrite (lval_take_S _ _ _ Hx), (lval_take_S _ _ _ Hy).
    rewrite Hy, !take_0, bpow_S, bpow_0. cbn [lval default]. unfold default.
    destruct (shl_split y s (limb_lookup v _ y Hv Hy) Hs) as (_ & E & _). simpl. lia.
  - destruct (H (S i) ltac:(lia)) as (x & Hx & y & Hy & E').
    rewrite (lval_take_S _ _ _ Hx), (lval_take_S _ _ _ Hy), Hy, E'.
    specialize (IH ltac:(lia) ltac:(intros; apply H; lia)). rewrite (bpow_S (S i)). simpl.
    destruct (shl_split y s (limb_lookup v _ y Hv Hy) Hs) as (_ & E & _).
    set (lo := u32 (y * 2 ^ s)) in *.
    rewrite Z.mul_add_distr_r, <- IH. rewrite <- (Z.mul_assoc (bpow (S i)) y), E. ring.
Qed.

Lemma normalized_divisor_spec v s top :
  Forall limb v -> last v = Some top -> 0 <= s < 32 -> top * 2 ^ s < 2 ^ 32 ->
  returns (normalized_divisor v s) (fun vn => length vn = length v /\ Forall limb vn /\
    lval vn = lval v * 2 ^ s).
Proof.
  intros Hv Ht Hs Hb. unfold normalized_divisor. rewrite last_lookup in Ht.
  pose proof (lookup_lt_Some _ _ _ Ht) as Hl.
  eapply returns_mono; [apply normalize_limbs_spec; [done | done | lia | done | |]|].
  - by rewrite repeat_length.
  - apply Forall_repeat, limb_0.
  - intros l (Hll & Hf & Hsl & _). rewrite repeat_length in Hll. split_and!; [done | done |].
    pose proof (shifted_value v s l (length v - 1) Hv Hs ltac:(lia) ltac:(intros; apply Hsl; lia)) as E.
    replace (Init.Nat.pred (length v)) with (length v - 1)%nat in Ht by lia. rewrite Ht in E. simpl in E.
    replace (S (length v - 1)) with (length v) in E by lia. rewrite !take_ge in E by lia.
    rewrite Z.div_small in E; [lia|].
    pose proof (limb_lookup v _ top Hv Ht) as Lt. unfold limb in Lt. split; [lia|].
    apply (Z.mul_lt_mono_pos_r (2 ^ s)); [apply pow2_pos; lia|].
    rewrite <- Z.pow_add_r by lia. by replace (32 - s + s) with 32 by lia.
Qed.

Lemma normalized_dividend_spec u s :
  Forall limb u -> u <> [] -> 0 <= s < 32 ->
  returns (normalized_dividend u s) (fun un => length un = S (length u) /\ Forall limb un /\
    lval un = lval u * 2 ^ s).
Proof.
  intros Hu Hne Hs. unfold normalized_dividend.
  assert (1 <= length u)%nat as Hl by (destruct u; [done | simpl; lia]).
  fetch u (length u - 1)%nat x Hx. pose proof (limb_lookup u _ x Hu Hx) as Lx.
  unfold m_limbBitLength. rewrite Z.shiftr_div_pow2 by lia.
  destruct (shl_split x s Lx Hs) as (_ & _ & E2 & _).
  assert (2 ^ s <= 2 ^ 31) by (apply Z.pow_le_mono_r; lia). rewrite u32_small by lia.
  set (c := x / 2 ^ (32 - s)) in *. rewrite vset_lt, bind_Ok by (rewrite repeat_length; lia).
  eapply returns_mono; [apply normalize_limbs_spec; [done | done | done | done | |]|].
  - rewrite length_insert, repeat_length. lia.
  - apply Forall_insert; [apply Forall_repeat, limb_0 | blia].
  - intros l (Hll & Hf & Hsl & Hd). rewrite length_insert, repeat_length in Hll.
    split_and!; [done | done |].
    pose proof (shifted_value u s l (length u - 1) Hu Hs ltac:(lia) ltac:(intros; apply Hsl; lia)) as E.
    rewrite Hx in E. simpl in E. replace (S (length u - 1)) with (length u) in E by lia.
    rewrite (take_ge u) in E by lia. fold c in E.
    rewrite (lval_split l (length u)), Hd by lia. rewrite <- E. do 2 f_equal.
    rewrite (drop_S _ c) by (apply list_lookup_insert_eq; rewrite repeat_length; lia).
    rewrite drop_ge by (rewrite length_insert, repeat_length; lia). cbn [lval]. lia.
Qed.

(** The limb [i] of a vector shifted right: its high part and the bits the limb
    above shifts in. *)
Definition shifted_down (w : list Z) (s : Z) (i : nat) (x : Z) : Prop :=
  exists y, w !! i = Some y /\
    x = y / 2 ^ s + match w !! S i with Some z => z mod 2 ^ s * 2 ^ (32 - s) | None => 0 end.

Lemma base_split s : 0 <= s < 32 -> limb_base = 2 ^ (32 - s) * 2 ^ s /\ 0 < 2 ^ s /\ 0 < 2 ^ (32 - s).
Proof.
  intros Hs. split_and!; [|apply pow2_pos; lia..].
  rewrite <- Z.pow_add_r by lia. by replace (32 - s + s) with 32 by lia.
Qed.

Lemma unnormalize_limb y z s :
  limb y -> 0 <= s < 32 ->
  u32 (Z.lor (Z.shiftr y s) (u64 (Z.shiftl z (32 - s)))) = y / 2 ^ s + z mod 2 ^ s * 2 ^ (32 - s).
Proof.
  intros Ly Hs. destruct (base_split s Hs) as (EB & P1 & P2).
  assert (0 <= y / 2 ^ s < 2 ^ (32 - s)) by (unfold limb in Ly; apply div_range; lia).
  rewrite u32_lor, Z.shiftr_div_pow2, Z.shiftl_mul_pow2 by lia.
  assert (u32 (u64 (z * 2 ^ (32 - s))) = z mod 2 ^ s * 2 ^ (32 - s)) as ->.
  { assert (u32 (u64 (z * 2 ^ (32 - s))) = u32 (z * 2 ^ (32 - s))) as ->.
    { unfold u32, u64. Z.div_mod_to_equations; lia. }
    unfold u32. change (2 ^ 32) with limb_base. rewrite EB, (Z.mul_comm (2 ^ (32 - s)) (2 ^ s)).
    by rewrite Z.mul_mod_distr_r by lia. }
  rewrite u32_small by (change (2 ^ 32) with limb_base; nia). rewrite Z.lor_comm, lor_disjoint by lia. lia.
Qed.

Lemma shifted_down_value w l s :
  Forall limb w -> 0 <= s < 32 -> length l = length w ->
  (forall i, (i < length w)%nat -> exists x, l !! i = Some x /\ shifted_down w s i x) ->
  Forall limb l /\ lval l = lval w / 2 ^ s.
Proof.
  intros Hw Hs Hl He. destruct (base_split s Hs) as (EB & P1 & P2). split.
  - apply Forall_lookup_2. intros i x Hx. pose proof (lookup_lt_Some _ _ _ Hx).
    destruct (He i ltac:(lia)) as (x' & Hx' & z & Hz & ->). rewrite Hx in Hx'. injection Hx' as ->.
    pose proof (limb_lookup w _ z Hw Hz) as Lz. unfold limb in *.
    assert (0 <= z / 2 ^ s < 2 ^ (32 - s)) by (apply div_range; lia).
    destruct (w !! S i) as [t|]; [pose proof (Z.mod_pos_bound t (2 ^ s) ltac:(lia))|]; nia.
  - assert (forall k i, (i + k = length w)%nat -> lval (drop i l) = lval (drop i w) / 2 ^ s) as Hk;
      [|by apply (Hk (length w) 0%nat)].
    induction k as [|k IH]; intros i Hi.
    { rewrite !drop_ge by lia. simpl. by rewrite Z.div_0_l by lia. }
    destruct (He i ltac:(lia)) as (x & Hx & z & Hz & ->).
    rewrite (lval_drop_S _ _ _ Hx), (lval_drop_S _ _ _ Hz), (IH (S i)) by lia.
    set (V := lval (drop (S i) w)).
    assert (forall t Q, t + limb_base * Q = t + (2 ^ (32 - s) * Q) * 2 ^ s) as Es by (intros; rewrite EB; ring).
    assert (match w !! S i with Some t => t mod 2 ^ s * 2 ^ (32 - s) | None => 0 end
      = V mod 2 ^ s * 2 ^ (32 - s)) as ->.
    { subst V. destruct (w !! S i) as [t|] eqn:Et.
      - by rewrite (lval_drop_S _ _ _ Et), Es, Z.mod_add by lia.
      - apply lookup_ge_None_1 in Et. rewrite drop_ge by lia. simpl. by rewrite Z.mod_0_l by lia. }
    rewrite (Es z V), Z.div_add, EB by lia. rewrite (Z.div_mod V (2 ^ s)) at 3 by lia. ring.
Qed.

(** The inverse: the limbs shifted right by [s] bits. *)
Lemma unnormalize_spec n un s r :
  Forall limb un -> 0 <= s < 32 -> (1 <= n <= length un)%nat -> length r = n ->
  returns (unnormalize n un s r) (fun r' => length r' = n /\ Forall limb r' /\
    lval r' = lval (take n un) / 2 ^ s).
Proof.
  intros Hun Hs Hn Hr. unfold unnormalize.
  set (w := take n un). assert (length w = n) as Hlw by (unfold w; rewrite length_take; lia).
  assert (forall i, (i < n)%nat -> un !! i = w !! i) as Huw
    by (intros; unfold w; by rewrite lookup_take_lt by lia).
  apply (returns_bind _ _ (fun l => length l = n /\ forall i, (i < n - 1)%nat -> exists x, l !! i = Some x /\ shifted_down w s i x)).
  { apply (for_range_inv (fun k l => length l = n /\ forall i, (i < k)%nat -> exists x, l !! i = Some x /\ shifted_down w s i x));
      [lia | split; [done | intros; lia] |].
    intros i l Hi (Hl & He). fetch un i y Hy. fetch un (S i) z Hz.
    unfold m_limbBitLength. rewrite unnormalize_limb by (done || by eapply limb_lookup).
    rewrite vset_lt by lia. simpl. rewrite length_insert. split; [done|]. intros i' Hi'.
    destruct (decide (i' = i)) as [->|Hne].
    - eexists. split; [by apply list_lookup_insert_eq; lia|]. exists y. rewrite <- !Huw by lia. by rewrite Hz.
    - rewrite list_lookup_insert_ne by lia. apply He. lia. }
  intros l (Hl & He). fetch un (n - 1)%nat y Hy. rewrite Z.shiftr_div_pow2, vset_lt by lia. cbn [returns].
  split; [by rewrite length_insert|]. apply shifted_down_value; [by apply Forall_take | done | by rewrite length_insert, Hlw |].
  rewrite Hlw. intros i Hi. destruct (decide (i = n - 1)%nat) as [->|Hne].
  - eexists. split; [by apply list_lookup_insert_eq; lia|]. exists y. rewrite <- Huw by lia. split; [done|].
    rewrite lookup_ge_None_2 by lia. lia.
  - rewrite list_lookup_insert_ne by lia. apply He. lia.
Qed.

(** ** The limb divisions *)

Section MainLoop.
Context (n K : nat) (vn un0 : list Z) (top : Z).
Context (Hn : length vn = S (S n)) (Hvn : Forall limb vn).
Context (Htop : vn !! S n = Some top) (Hbig : 2 ^ 31 <= top).
Context (Hun : Forall limb un0) (Hlen : length un0 = (K + S (S n))%nat).
Context (Hlt : lval (drop K un0) < lval vn).

Lemma main_loop_qr q0 :
  length q0 = K ->
  returns (for_down K (fun j '(un, q) =>
        '(un, qj) ← div_step (S (S n)) j vn un;
        q ← vset q j qj;
        Ok (un, q)) (un0, q0)) (fun '(un, q) =>
    length un = length un0 /\ Forall limb un /\ length q = K /\ Forall limb q /\
    lval un0 = lval vn * lval q + lval un /\ lval un < lval vn).
Proof.
  intros Hq0. eapply returns_mono; [apply (for_down_inv (fun j '(un, q) =>
    length un = length un0 /\ Forall limb un /\ length q = K /\ Forall limb (drop j q) /\
    lval un0 = bpow j * (lval vn * lval (drop j q)) + lval un /\ lval (drop j un) < lval vn))|].
  - rewrite (drop_ge q0) by lia. cbn [lval]. split_and!; [done.. | constructor | lia | done].
  - intros j [un q] Hj (Hl & Hf & Hlq & Hfq & E & Hd).
    eapply returns_bind; [eapply (div_step_spec n j vn un); [done.. | lia | done | done | done]|].
    intros [un' qj] (Hl' & Hf' & Hqj & E' & Hd'). rewrite vset_lt, bind_Ok by lia. simpl.
    rewrite length_insert, (drop_S (<[j:=qj]> q) qj j) by (apply list_lookup_insert_eq; lia).
    rewrite drop_insert_lt by lia. cbn [lval].
    split_and!; [lia | done | done | by constructor | | done]. rewrite bpow_S in E. lia.
  - intros [un q] (Hl & Hf & Hlq & Hfq & E & Hd). rewrite !drop_0, bpow_0 in *.
    split_and!; [done.. | lia | done].
Qed.

Lemma main_loop_r :
  returns (for_down K (fun j un => '(un, _) ← div_step (S (S n)) j vn un; Ok un) un0) (fun un =>
    length un = length un0 /\ Forall limb un /\
    (exists Q, lval un0 = lval vn * Q + lval un) /\ lval un < lval vn).
Proof.
  eapply returns_mono; [apply (for_down_inv (fun j un =>
    length un = length un0 /\ Forall limb un /\
    (exists Q, lval un0 = lval vn * Q + lval un) /\ lval (drop j un) < lval vn))|].
  - split_and!; [done.. | exists 0; lia | done].
  - intros j un Hj (Hl & Hf & (Q & E) & Hd).
    eapply returns_bind; [eapply (div_step_spec n j vn un); [done.. | lia | done | done | done]|].
    intros [un' qj] (Hl' & Hf' & Hqj & E' & Hd'). simpl.
    split_and!; [lia | done | | done]. exists (Q + bpow j * qj). lia.
  - intros un (Hl & Hf & HQ & Hd). by rewrite drop_0 in Hd.
Qed.
End MainLoop.

(** Quotient and remainder of the scaled operands. *)
Lemma scaled_div U V Q R k :
  0 < k -> 0 < V -> U * k = V * k * Q + R -> 0 <= R < V * k -> Q = U / V /\ R / k = U mod V.
Proof.
  intros Hk HV E HR. assert (R = k * (U - V * Q)) as ER by lia.
  assert (0 <= U - V * Q < V) as Hr by nia.
  split; [apply (Z.div_unique _ _ _ (U - V * Q)); lia|].
  rewrite ER, Z.mul_comm, Z.div_mul by lia. apply (Z.mod_unique _ _ Q); lia.
Qed.

Section Divisions.
Context (u v : list Z) (top : Z).
Context (Hu : Forall limb u) (Hv : Forall limb v).
Context (Htop : last v = Some top) (Hpos : 0 < top) (Hle : (length v <= length u)%nat).

Lemma top_lookup : v !! (length v - 1)%nat = Some top.
Proof. rewrite last_lookup in Htop. by rewrite Nat.sub_1_r. Qed.

Lemma v_length : (1 <= length v)%nat.
Proof. pose proof (lookup_lt_Some _ _ _ top_lookup). lia. Qed.

Lemma v_pos : 0 < lval v.
Proof.
  pose proof (lval_take_step v _ top Hv top_lookup) as (_ & H1 & H2 & H3).
  pose proof (bpow_pos (length v - 1)). nia.
Qed.

Lemma div_invalid_false : div_invalid u v = Ok false.
Proof.
  unfold div_invalid. pose proof v_length.
  rewrite (proj2 (Nat.ltb_ge _ _)), (proj2 (Nat.eqb_neq _ _)) by lia. simpl.
  rewrite (vget_Some _ _ _ top_lookup), bind_Ok. by rewrite (proj2 (Z.eqb_neq _ _)) by lia.
Qed.

Lemma resize_quotient_ok q :
  exists q', resize_quotient q u v = Ok q' /\ length q' = (length u - length v + 1)%nat.
Proof.
  unfold resize_quotient. destruct (Z.ltb_spec (Z.of_nat (length u) - Z.of_nat (length v) + 1) 0); [lia|].
  eexists. split; [done|]. rewrite length_resize. lia.
Qed.

Lemma top_nlz : 0 <= nlz32 top < 32 /\ 2 ^ 31 <= top * 2 ^ nlz32 top < 2 ^ 32.
Proof. apply nlz32_spec. pose proof (limb_lookup v _ top Hv top_lookup). blia. Qed.

(** Division by one limb. *)
Lemma single_case v0 q :
  length v = 1%nat -> v !! 0%nat = Some v0 -> length q = length u ->
  returns (div_single u v0 q) (fun '(q, k) =>
    length q = length u /\ Forall limb q /\ lval q = lval u / lval v /\ u32 k = lval u mod lval v).
Proof.
  intros Hl Hv0 Hq. pose proof top_lookup as Ht. rewrite Hl in Ht. simpl in Ht.
  rewrite Hv0 in Ht. injection Ht as ->. assert (lval v = top) as ->.
  { destruct v as [|x [|]]; simplify_eq/=. lia. }
  apply div_single_spec; [done | done | exact (limb_lookup v _ top Hv Hv0) | done].
Qed.

(** The normalized operands of the general case. *)
Definition normalized (vn un : list Z) : Prop :=
  length vn = length v /\ Forall limb vn /\ lval vn = lval v * 2 ^ nlz32 top /\
  length un = S (length u) /\ Forall limb un /\ lval un = lval u * 2 ^ nlz32 top.

Lemma normalized_top vn un :
  normalized vn un -> exists t, vn !! (length v - 1)%nat = Some t /\ 2 ^ 31 <= t.
Proof.
  intros (Hl & Hf & E & _). pose proof v_length. destruct top_nlz as [Hs Hb].
  destruct (lookup_lt_is_Some_2 vn (length v - 1)) as [t Ht]; [lia|]. exists t. split; [done|].
  pose proof (lval_split vn (length v - 1) ltac:(lia)) as Es. rewrite (lval_drop_S _ _ _ Ht) in Es.
  replace (S (length v - 1)) with (length vn) in Es by lia. rewrite drop_all in Es. cbn [lval] in Es.
  pose proof (lval_take_bound vn (length v - 1) Hf).
  pose proof (lval_take_step v _ top Hv top_lookup) as (_ & H1 & H2 & _).
  pose proof (bpow_pos (length v - 1)) as Hbp. set (b := bpow (length v - 1)) in *.
  assert (b * (top * 2 ^ nlz32 top) <= lval vn) by (rewrite E; nia).
  assert (b * 2 ^ 31 < b * (t + 1)) by nia. nia.
Qed.

Lemma normalized_lt vn un :
  normalized vn un -> lval (drop (length u - length v + 1) un) < lval vn.
Proof.
  intros (Hl & Hf & E & Hlu & Hfu & Eu). pose proof v_length. destruct top_nlz as [Hs Hb].
  rewrite lval_drop by (done || lia). rewrite Eu, E.
  apply Z.div_lt_upper_bound; [apply bpow_pos|]. rewrite Z.mul_assoc.
  apply Z.mul_lt_mono_pos_r; [apply pow2_pos; lia|].
  pose proof (lval_bound u Hu). pose proof (lval_take_step v _ top Hv top_lookup) as (_ & H1 & H2 & _).
  assert (bpow (length u) = bpow (length u - length v + 1) * bpow (length v - 1)) as Eb
    by (rewrite <- bpow_add; f_equal; lia).
  pose proof (bpow_pos (length u - length v + 1)). pose proof (bpow_pos (length v - 1)). nia.
Qed.

(** What is left of the dividend fits in the limbs of the divisor. *)
Lemma remainder_limbs vn un un' :
  normalized vn un -> Forall limb un' -> length un' = length un -> lval un' < lval vn ->
  lval (take (length v) un') = lval un'.
Proof.
  intros (Hl & Hf & _ & Hlu & _) Hf' Hl' Hlt.
  pose proof (lval_split un' (length v) ltac:(lia)) as Es.
  pose proof (lval_bound _ (Forall_drop _ (length v) un' Hf')).
  pose proof (lval_bound vn Hf) as Hvb. rewrite Hl in Hvb.
  pose proof (lval_take_bound un' (length v) Hf'). pose proof (bpow_pos (length v)).
  assert (lval (drop (length v) un') = 0) as E by nia. rewrite E in Es. lia.
Qed.

(** The quotient and the remainder from the state at the end of the main loop. *)
Lemma division_result vn un un' Q :
  normalized vn un -> Forall limb un' -> lval un = lval vn * Q + lval un' -> lval un' < lval vn ->
  Q = lval u / lval v /\ lval un' / 2 ^ nlz32 top = lval u mod lval v.
Proof.
  intros (_ & _ & Evn & _ & _ & Eun) Hf' E Hlt. rewrite Evn, Eun in *.
  destruct top_nlz as [Hs _]. pose proof (lval_bound un' Hf').
  apply scaled_div; [apply pow2_pos; lia | apply v_pos | done | lia].
Qed.

(** The normalization, as each of the three functions begins. *)
Lemma normalization {A} (k : Z -> list Z -> list Z -> outcome A) (Q : A -> Prop) :
  length v <> 1%nat ->
  (forall n vn un t, length v = S (S n) -> normalized vn un -> vn !! S n = Some t -> 2 ^ 31 <= t ->
     lval (drop (length u - length v + 1) un) < lval vn -> returns (k top vn un) Q) ->
  returns (t ← vget v (length v - 1); vn ← normalized_divisor v (nlz32 t);
           un ← normalized_dividend u (nlz32 t); k t vn un) Q.
Proof.
  intros H1 Hk. pose proof v_length. rewrite (vget_Some _ _ _ top_lookup), bind_Ok.
  destruct top_nlz as [Hs Hb].
  eapply returns_bind; [apply (normalized_divisor_spec v _ top Hv Htop Hs ltac:(lia))|].
  intros vn (Hlvn & Hfvn & Evn).
  eapply returns_bind; [apply (normalized_dividend_spec u _ Hu); [intros ->; simpl in *; lia | done]|].
  intros un (Hlun & Hfun & Eun). assert (normalized vn un) as HN by done.
  destruct (normalized_top vn un HN) as (t & Ht & Hbig).
  assert (exists n, length v = S (S n)) as [n Hn] by (exists (length v - 2)%nat; lia).
  apply (Hk n vn un t); [done | done | | done | by apply normalized_lt].
  rewrite <- Ht. f_equal. lia.
Qed.

Lemma divqr_vect_spec :
  returns (divqr_vect [0] [0] u v) (fun '(f, q, r) => f = 0 /\
    (Forall limb q /\ q <> [] /\ lval q = lval u / lval v) /\
    (Forall limb r /\ r <> [] /\ lval r = lval u mod lval v)).
Proof.
  unfold divqr_vect. destruct (resize_quotient_ok [0]) as (q0 & -> & Hq0). rewrite bind_Ok.
  rewrite div_invalid_false, bind_Ok. pose proof v_length as Hvl.
  destruct (Nat.eqb_spec (length v) 1) as [E1|E1].
  - fetch v 0%nat v0 Hv0. eapply returns_bind; [apply single_case; [done | done | lia]|].
    intros [q k] (Hl & Hf & Eq & Ek). cbn [length Nat.eqb negb]. rewrite vset_lt, bind_Ok by (simpl; lia).
    simpl. rewrite <- Ek. split_and!; [done | done | intros ->; simpl in *; lia | done | | done | lia].
    constructor; [apply limb_u32 | done].
  - apply normalization; [done|]. intros n vn un t Hn HN Ht Hbig Hlt.
    pose proof HN as (Hlvn & Hfvn & _ & Hlun & Hfun & _). destruct top_nlz as [Hs _].
    pose proof (main_loop_qr n (length u - length v + 1) vn un t ltac:(lia) Hfvn Ht Hbig Hfun ltac:(lia) Hlt q0 Hq0) as HM.
    rewrite <- Hn in HM. eapply returns_bind; [exact HM|].
    intros [un' q] (Hl' & Hf' & Hlq & Hfq & EQ & Hlt').
    destruct (division_result vn un un' _ HN Hf' EQ Hlt') as [D1 D2].
    eapply returns_bind; [apply unnormalize_spec; [done | done | lia | by rewrite length_resize]|].
    intros r (Hlr & Hfr & Er). simpl. rewrite (remainder_limbs vn un un' HN Hf' Hl' Hlt') in Er.
    split_and!; [done | done | intros ->; simpl in *; lia | done | done | intros ->; simpl in *; lia | congruence].
Qed.

Lemma divq_vect_spec :
  returns (divq_vect [0] u v) (fun '(f, q) => f = 0 /\
    Forall limb q /\ q <> [] /\ lval q = lval u / lval v).
Proof.
  unfold divq_vect. destruct (resize_quotient_ok [0]) as (q0 & -> & Hq0). rewrite bind_Ok.
  rewrite div_invalid_false, bind_Ok. pose proof v_length as Hvl.
  destruct (Nat.eqb_spec (length v) 1) as [E1|E1].
  - fetch v 0%nat v0 Hv0. eapply returns_bind; [apply single_case; [done | done | lia]|].
    intros [q k] (Hl & Hf & Eq & _). simpl. split_and!; [done | done | intros ->; simpl in *; lia | done].
  - apply normalization; [done|]. intros n vn un t Hn HN Ht Hbig Hlt.
    pose proof HN as (Hlvn & Hfvn & _ & Hlun & Hfun & _).
    pose proof (main_loop_qr n (length u - length v + 1) vn un t ltac:(lia) Hfvn Ht Hbig Hfun ltac:(lia) Hlt q0 Hq0) as HM.
    rewrite <- Hn in HM. eapply returns_bind; [exact HM|].
    intros [un' q] (Hl' & Hf' & Hlq & Hfq & EQ & Hlt'). simpl.
    destruct (division_result vn un un' _ HN Hf' EQ Hlt') as [D1 _].
    split_and!; [done | done | intros ->; simpl in *; lia | done].
Qed.

Lemma divr_vect_spec r0 :
  length r0 = length v ->
  returns (divr_vect r0 u v) (fun '(f, r) => f = 0 /\
    Forall limb r /\ r <> [] /\ lval r = lval u mod lval v).
Proof.
  intros Hr0. unfold divr_vect. rewrite div_invalid_false, bind_Ok. pose proof v_length as Hvl.
  destruct (Nat.eqb_spec (length v) 1) as [E1|E1].
  - fetch v 0%nat v0 Hv0.
    eapply returns_bind; [apply single_case; [done | done | rewrite repeat_length; lia]|].
    intros [q k] (_ & _ & _ & Ek). rewrite E1, vset_lt, bind_Ok by (rewrite length_resize; lia). simpl.
    destruct r0 as [|x [|]]; simpl in *; [lia | | lia]. rewrite <- Ek.
    split_and!; [done | | done | lia]. constructor; [apply limb_u32 | done].
  - apply normalization; [done|]. intros n vn un t Hn HN Ht Hbig Hlt.
    pose proof HN as (Hlvn & Hfvn & _ & Hlun & Hfun & _). destruct top_nlz as [Hs _].
    pose proof (main_loop_r n (length u - length v + 1) vn un t ltac:(lia) Hfvn Ht Hbig Hfun ltac:(lia) Hlt) as HM.
    rewrite <- Hn in HM. eapply returns_bind; [exact HM|].
    intros un' (Hl' & Hf' & (Q & EQ) & Hlt').
    destruct (division_result vn un un' _ HN Hf' EQ Hlt') as [_ D2].
    eapply returns_bind; [apply unnormalize_spec; [done | done | lia | done]|].
    intros r (Hlr & Hfr & Er). simpl. rewrite (remainder_limbs vn un un' HN Hf' Hl' Hlt') in Er.
    split_and!; [done | done | intros ->; simpl in *; lia | congruence].
Qed.
End Divisions.
