(* ===== verification/BigModProps.v ===== *)
(** * Dynamic multiprecision integers: quotients, reductions and modular arithmetic

    The public methods on top of the limb divisions refine the operations on
    [Z]: quotients, rounded quotients, remainders, Barrett reduction, and
    modular sums, differences, products, inverses and powers. *)
From stdpp Require Import base numbers list.
From Stdlib Require Import ZArith Znumtheory Lia.
From S2P Require Import Prelude Bits BigInt BigDiv BigIntProps BigShiftProps BigDivProps.
Open Scope Z_scope.

(** ** Quotients *)

Lemma finish_represents v :
  Forall limb v -> v <> [] -> fits (lval v) -> returns (finish v) (fun r => represents r (lval v)).
Proof. apply normalize_represents. Qed.

(** The bounds [m_MSB] gives when top limbs may be zero. *)
Lemma wfu_msb_bound a : wfu a -> 0 <= m_MSB a <= 32 * Z.of_nat (length (m_value a)) /\ value a < 2 ^ m_MSB a.
Proof.
  intros [_ Hl _ (low & top & Hv & Hm)]. unfold value. rewrite Hv in *. rewrite length_app. simpl.
  apply Forall_app in Hl as [Hlow [Ht _]%Forall_cons]. pose proof (limb_msb top Ht) as [Hb _].
  split; [lia|]. rewrite lval_snoc, Hm, Z.pow_add_r by lia. fold (bpow (length low)).
  pose proof (lval_bound low Hlow). pose proof (bpow_pos (length low)). unfold limb in Ht.
  assert (top < 2 ^ GetMSB top) by (apply GetMSB_le; lia). nia.
Qed.

Lemma length_le_msb a b y :
  wfu a -> represents b y -> 0 < y -> m_MSB b <= m_MSB a -> (length (m_value b) <= length (m_value a))%nat.
Proof.
  intros Wa Hb Hy Hm. pose proof (wfu_msb_bound a Wa) as [Ha _]. destruct Hb as [Wb <-].
  destruct (wf_cases b Wb) as [(-> & _ & _)|(low & top & -> & _ & _ & _ & H)].
  - pose proof (wfu_length a Wa). simpl. lia.
  - rewrite length_app. simpl. lia.
Qed.

Lemma fits_div x y : fits x -> 0 < y -> fits (x / y).
Proof.
  intros Hf Hy. pose proof Hf as [? _]. eapply fits_mono; [exact Hf|].
  split; [by apply Z.div_pos|]. apply Z.div_le_upper_bound; nia.
Qed.

Lemma fits_mod x y : fits y -> 0 < y -> fits (x mod y).
Proof.
  intros Hf Hy. pose proof (Z.mod_pos_bound x y Hy). eapply fits_mono; [exact Hf|]. lia.
Qed.

Lemma DividedBy_represents a b x y :
  represents a x -> represents b y -> 0 < y ->
  returns (DividedBy a b) (fun r => represents r (x / y)).
Proof.
  intros Ha Hb Hy. unfold DividedBy. pose proof (represents_nonneg a x Ha) as Hx.
  rewrite (represents_not_garbage a x Ha), (represents_not_garbage b y Hb).
  rewrite (op_eq_spec _ _ _ _ Hb represents_0), bind_Ok, (proj2 (Z.eqb_neq _ _)) by lia.
  pose proof (represents_msb a x Ha) as Ma. pose proof (represents_msb b y Hb) as Mb.
  rewrite Z.gtb_ltb. destruct (Z.ltb_spec (m_MSB a) (m_MSB b)) as [Hm|Hm].
  { rewrite Z.div_small; [apply represents_0|]. pose proof (GetMSB_mono y x). lia. }
  rewrite (op_eq_spec _ _ _ _ Hb Ha), bind_Ok. destruct (Z.eqb_spec y x) as [->|Hne].
  { rewrite Z.div_same by lia. apply represents_1. }
  destruct (represents_top b y Hb Hy) as (top & Ht & Hpos).
  eapply returns_bind; [apply (divq_vect_spec _ _ top); [by eapply represents_limbs.. | done | done |
    apply (length_le_msb a b y); [apply Ha | done..]]|].
  intros [f q] (-> & Hf & Hne' & E). destruct Ha as [Wa Va], Hb as [Wb Vb]. unfold value in Va, Vb.
  rewrite Va, Vb in E. simpl. rewrite <- E.
  apply finish_represents; [done..|]. rewrite E. apply fits_div; [|done]. rewrite <- Va. by apply wf_fits.
Qed.

Lemma DividedBy_zero a b : represents b 0 -> DividedBy a b = Throw math_error.
Proof.
  intros Hb. unfold DividedBy. rewrite (represents_not_garbage b 0 Hb).
  by rewrite (op_eq_spec _ _ _ _ Hb represents_0), bind_Ok.
Qed.

(** Rounding to the nearest integer, halves rounded down. *)
Lemma round_down x y :
  0 < y -> (x + (y - 1) / 2) / y = x / y + (if x mod y <=? y / 2 then 0 else 1).
Proof.
  intros Hy. pose proof (Z.div_mod x y ltac:(lia)) as E. pose proof (Z.mod_pos_bound x y Hy).
  rewrite E at 1. set (q := x / y) in *. set (r := x mod y) in *. clearbody q r. clear E.
  replace (y * q + r + (y - 1) / 2) with (r + (y - 1) / 2 + q * y) by ring. rewrite Z.div_add by lia.
  destruct (Z.leb_spec r (y / 2)).
  - rewrite Z.div_small; [lia|]. Z.div_mod_to_equations; lia.
  - assert ((r + (y - 1) / 2) / y = 1) as ->; [|lia].
    symmetry. apply (Z.div_unique _ _ _ (r + (y - 1) / 2 - y)); Z.div_mod_to_equations; lia.
Qed.

Lemma DivideAndRound_represents a b x y :
  represents a x -> represents b y -> 0 < y -> fits (x + 1) ->
  returns (DivideAndRound a b) (fun r => represents r ((x + (y - 1) / 2) / y)).
Proof.
  intros Ha Hb Hy Hf1. unfold DivideAndRound. pose proof (represents_nonneg a x Ha) as Hx.
  pose proof (represents_fits a x Ha) as Hfx. pose proof (represents_fits b y Hb) as Hfy.
  rewrite (represents_not_garbage b y Hb).
  rewrite (op_eq_spec _ _ _ _ Hb represents_0), bind_Ok, (proj2 (Z.eqb_neq _ _)) by lia.
  eapply returns_bind; [apply (RShift_represents b y 1 Hb); done|]. intros h Hh. rewrite Z.pow_1_r in Hh.
  rewrite (op_lt_spec _ _ _ _ Ha Hb), bind_Ok, round_down by done.
  destruct (Z.ltb_spec x y) as [Hlt|Hge].
  { rewrite (op_le_spec _ _ _ _ Ha Hh), bind_Ok. rewrite (Z.div_small x y), (Z.mod_small x y) by lia. simpl.
    destruct (x <=? y / 2); [apply represents_0 | apply represents_1]. }
  destruct (represents_top b y Hb Hy) as (top & Ht & Hpos).
  change (m_value (ubint_int 0)) with [0].
  eapply returns_bind; [apply (divqr_vect_spec _ _ top); [by eapply represents_limbs.. | done | done |
    by apply (represents_length_mono b a y x)]|].
  pose proof Ha as [_ Va]. pose proof Hb as [_ Vb]. unfold value in Va, Vb. rewrite Va, Vb.
  intros [[f q] r] (-> & (Hfq & Hnq & Eq) & (Hfr & Hnr & Er)).
  cbn [Z.eqb negb].
  eapply returns_bind; [apply finish_represents; [done.. |]; rewrite Eq; by apply fits_div|].
  intros ans Hans. eapply returns_bind; [apply finish_represents; [done.. |]; rewrite Er; by apply fits_mod|].
  intros rv Hrv. rewrite Eq in Hans. rewrite Er in Hrv. rewrite (op_le_spec _ _ _ _ Hrv Hh), bind_Ok.
  destruct (x mod y <=? y / 2); simpl; [by rewrite Z.add_0_r|].
  apply AddEq_represents; [done | apply represents_1 |]. eapply fits_mono; [exact Hf1|].
  split; [pose proof (Z.div_pos x y Hx Hy); lia|]. enough (x / y <= x) by lia.
  apply Z.div_le_upper_bound; nia.
Qed.

Lemma DivideAndRound_zero a b : represents b 0 -> DivideAndRound a b = Throw math_error.
Proof.
  intros Hb. unfold DivideAndRound. rewrite (represents_not_garbage b 0 Hb).
  by rewrite (op_eq_spec _ _ _ _ Hb represents_0), bind_Ok.
Qed.

Lemma MultiplyAndRound_represents a p q x y z :
  represents a x -> represents p y -> represents q z -> 0 < z -> fits (x * y + 1) ->
  returns (MultiplyAndRound a p q) (fun r => represents r ((x * y + (z - 1) / 2) / z)).
Proof.
  intros Ha Hp Hq Hz Hf. unfold MultiplyAndRound, DivideAndRoundEq, MulEq.
  rewrite (represents_copy a x Ha), bind_Ok.
  assert (0 <= x * y) by (pose proof (represents_nonneg a x Ha); pose proof (represents_nonneg p y Hp); nia).
  eapply returns_bind; [apply (Mul_represents a p x y Ha Hp); eapply fits_mono; [exact Hf | lia]|].
  intros r Hr. by apply DivideAndRound_represents.
Qed.

(** ** Remainders *)

(** The first limb decides the parity. *)
Lemma lval_parity v x : v !! 0%nat = Some x -> lval v mod 2 = x mod 2.
Proof.
  destruct v as [|z v]; intros H; simplify_eq/=.
  replace (x + limb_base * lval v) with (x + (2 ^ 31 * lval v) * 2) by (unfold limb_base, m_MaxLimb; lia).
  by rewrite Z.mod_add by lia.
Qed.

Lemma represents_2 b y : represents b y -> (m_MSB b =? 2) && (default 0 (m_value b !! 0%nat) =? 2) = true -> y = 2.
Proof.
  intros Hb H. apply andb_true_iff in H as [H1 H2]. apply Z.eqb_eq in H1, H2.
  pose proof Hb as [W <-]. destruct (wf_cases b W) as [(_ & E & _)|(low & top & Hv & _ & _ & _ & Hr)]; [lia|].
  assert (low = []) as -> by (destruct low; [done | simpl in Hr; lia]).
  unfold value. rewrite Hv in *. simpl in *. lia.
Qed.

Lemma Mod_body_represents a b y :
  wfu a -> represents b y -> 0 < y -> m_MSB b <= m_MSB a ->
  returns (Mod_body a b) (fun r => represents r (value a mod y)).
Proof.
  intros Wa Hb Hy Hm. unfold Mod_body. pose proof (represents_length b y Hb).
  pose proof (wfu_length a Wa). fetch (m_value b) 0%nat m0 Hm0.
  pose proof (represents_2 b y Hb) as H2. rewrite Hm0 in H2. simpl in H2.
  destruct ((m_MSB b =? 2) && (m0 =? 2)) eqn:E.
  - rewrite (H2 eq_refl). fetch (m_value a) 0%nat x0 Hx0. unfold value. rewrite (lval_parity _ _ Hx0).
    pose proof (Z.mod_pos_bound x0 2 ltac:(lia)). simpl.
    destruct (Z.eqb_spec (x0 mod 2) 0) as [->|]; [apply represents_0|].
    replace (x0 mod 2) with 1 by lia. apply represents_1.
  - destruct (represents_top b y Hb Hy) as (top & Ht & Hpos).
    eapply returns_bind; [apply (divr_vect_spec _ _ top); [apply Wa | by eapply represents_limbs | done | done |
      by apply (length_le_msb a b y) | by rewrite length_resize]|].
    intros [f r] (-> & Hf & Hne & Er). fold (value a) (value b) in Er.
    pose proof (represents_fits b y Hb). destruct Hb as [_ <-]. cbn [Z.eqb negb]. rewrite <- Er.
    apply finish_represents; [done..|]. rewrite Er. by apply fits_mod.
Qed.

Lemma unnormalized_false b y : represents b y -> unnormalized b = Ok false.
Proof.
  intros [[[_ _ _ (low & top & Hv & _)] Hn] _]. unfold unnormalized, back. rewrite Hv in *.
  rewrite length_app, last_snoc. simpl. destruct (Nat.ltb_spec 1 (length low + 1)); [|done].
  apply normal_snoc in Hn as [->|Ht]; [simpl in *; lia|]. simpl. by rewrite (proj2 (Z.eqb_neq _ _)).
Qed.

(** The part of [Mod] and [ModEq] after the error checks. *)
Lemma Mod_tail a b y :
  wfu a -> represents b y -> 0 < y -> (normal (m_value a) \/ m_MSB a <> m_MSB b) ->
  returns (if m_MSB a <? m_MSB b then Ok a
           else lt ← (if m_MSB a =? m_MSB b then op_lt a b else Ok false);
                if (lt : bool) then Ok a else Mod_body a b)
    (fun r => (r = a /\ value a < y) \/ represents r (value a mod y)).
Proof.
  intros Wa Hb Hy Hn. pose proof (wfu_msb_bound a Wa) as [Hma Hva].
  pose proof (represents_msb b y Hb) as Hmb. pose proof (GetMSB_bounds y Hy) as [Hyb _].
  destruct (Z.ltb_spec (m_MSB a) (m_MSB b)).
  { simpl. left. split; [done|].
    pose proof (Z.pow_le_mono_r 2 (m_MSB a) (GetMSB y - 1) ltac:(lia) ltac:(lia)). lia. }
  destruct (Z.eqb_spec (m_MSB a) (m_MSB b)).
  - destruct Hn as [Hn|]; [|done]. assert (represents a (value a)) as Ha by done.
    rewrite (op_lt_spec _ _ _ _ Ha Hb), bind_Ok. destruct (Z.ltb_spec (value a) y); [by left|].
    eapply returns_mono; [apply (Mod_body_represents a b y); [done | done | done | lia]|]. by right.
  - simpl. eapply returns_mono; [apply (Mod_body_represents a b y); [done | done | done | lia]|]. by right.
Qed.

Section ModChecks.
Context (a b : ubint) (y : Z) (Wa : wfu a) (Hb : represents b y) (Hy : 0 < y).

Lemma Mod_checks :
  Mod a b = if m_MSB a <? m_MSB b then Ok a
            else lt ← (if m_MSB a =? m_MSB b then op_lt a b else Ok false);
                 if (lt : bool) then Ok a else Mod_body a b.
Proof.
  unfold Mod, ubint_copy. rewrite (wfu_not_garbage a Wa), (represents_not_garbage b y Hb).
  rewrite (op_eq_spec _ _ _ _ Hb represents_0), bind_Ok, (proj2 (Z.eqb_neq _ _)) by lia.
  by rewrite (unnormalized_false b y Hb), bind_Ok.
Qed.

Lemma ModEq_Mod : ModEq a b = Mod a b.
Proof.
  rewrite Mod_checks. unfold ModEq. rewrite (wfu_not_garbage a Wa), (represents_not_garbage b y Hb).
  rewrite (op_eq_spec _ _ _ _ Hb represents_0), bind_Ok, (proj2 (Z.eqb_neq _ _)) by lia.
  by rewrite (unnormalized_false b y Hb), bind_Ok.
Qed.
End ModChecks.

(** The remainder of an object whose top limbs may be zero. *)
Lemma Mod_wfu a b y :
  wfu a -> represents b y -> 0 < y -> (normal (m_value a) \/ m_MSB a <> m_MSB b) ->
  returns (Mod a b) (fun r => (r = a /\ value a < y) \/ represents r (value a mod y)).
Proof. intros Wa Hb Hy Hn. rewrite (Mod_checks a b y Wa Hb Hy). by apply Mod_tail. Qed.

Lemma Mod_represents a b x y :
  represents a x -> represents b y -> 0 < y -> returns (Mod a b) (fun r => represents r (x mod y)).
Proof.
  intros Ha Hb Hy. pose proof (represents_nonneg a x Ha). pose proof Ha as [[Wa Na] Va].
  eapply returns_mono; [apply (Mod_wfu a b y); [done | done | done | by left]|].
  intros r [[-> Hlt]|Hr]; rewrite Va in *; [|done]. by rewrite Z.mod_small by lia.
Qed.

Lemma ModEq_represents a b x y :
  represents a x -> represents b y -> 0 < y -> returns (ModEq a b) (fun r => represents r (x mod y)).
Proof.
  intros Ha Hb Hy. rewrite (ModEq_Mod a b y) by (done || apply Ha). by apply Mod_represents.
Qed.

(** A zero modulus: the two methods throw different exceptions. *)
Lemma Mod_zero a b :
  wfu a -> represents b 0 -> Mod a b = Throw math_error /\ ModEq a b = Throw not_available_error.
Proof.
  intros Wa Hb. unfold Mod, ModEq. rewrite (wfu_not_garbage a Wa), (represents_not_garbage b 0 Hb).
  by rewrite (op_eq_spec _ _ _ _ Hb represents_0), bind_Ok.
Qed.

(** ** Modular sums and differences *)

Section Modulus.
Context (m : ubint) (M : Z) (Hm : represents m M) (HM : 0 < M).

Lemma reduce_op_represents a x :
  represents a x -> returns (reduce_op a m) (fun r => represents r (x mod M)).
Proof.
  intros Ha. unfold reduce_op. rewrite (op_ge_spec _ _ _ _ Ha Hm), bind_Ok.
  pose proof (represents_nonneg a x Ha). destruct (Z.leb_spec M x); [by apply ModEq_represents|].
  simpl. by rewrite Z.mod_small by lia.
Qed.

Lemma ModAddFastEq_represents a b x y :
  represents a x -> represents b y -> fits (x + y) ->
  returns (ModAddFastEq a b m) (fun r => represents r ((x + y) mod M)).
Proof.
  intros Ha Hb Hf. unfold ModAddFastEq.
  eapply returns_bind; [by apply (AddEq_represents a b x y)|]. intros r Hr. by apply ModEq_represents.
Qed.

Lemma ModAddEq_represents a b x y :
  represents a x -> represents b y -> fits (2 * M) ->
  returns (ModAddEq a b m) (fun r => represents r ((x + y) mod M)).
Proof.
  intros Ha Hb Hf. unfold ModAddEq. rewrite (represents_copy b y Hb), bind_Ok.
  eapply returns_bind; [by apply reduce_op_represents|]. intros a' Ha'.
  eapply returns_bind; [by apply reduce_op_represents|]. intros b' Hb'.
  rewrite Zplus_mod. apply ModAddFastEq_represents; [done..|].
  pose proof (Z.mod_pos_bound x M HM). pose proof (Z.mod_pos_bound y M HM).
  eapply fits_mono; [exact Hf | lia].
Qed.

Lemma ModAdd_represents a b x y :
  represents a x -> represents b y -> fits (2 * M) ->
  returns (ModAdd a b m) (fun r => represents r ((x + y) mod M)).
Proof.
  intros Ha Hb Hf. replace (ModAdd a b m) with (ModAddEq a b m); [by apply ModAddEq_represents|].
  unfold ModAdd. rewrite (represents_copy a x Ha). done.
Qed.

Lemma ModAddFast_represents a b x y :
  represents a x -> represents b y -> fits (x + y) ->
  returns (ModAddFast a b m) (fun r => represents r ((x + y) mod M)).
Proof.
  intros Ha Hb Hf. unfold ModAddFast. rewrite (represents_copy a x Ha). by apply ModAddFastEq_represents.
Qed.

Lemma mod_sub_wrap x y : 0 <= x < y -> y <= x + M -> (x - y) mod M = x + M - y.
Proof. intros H1 H2. symmetry. apply (Z.mod_unique _ _ (-1)); lia. Qed.

(** The subtrahend exceeds the minuend by at most the modulus. *)
Lemma ModSubFastEq_represents a b x y :
  represents a x -> represents b y -> y <= x + M -> fits (x + M) ->
  returns (ModSubFastEq a b m) (fun r => represents r ((x - y) mod M)).
Proof.
  intros Ha Hb Hle Hf. unfold ModSubFastEq. rewrite (op_ge_spec _ _ _ _ Ha Hb), bind_Ok.
  pose proof (represents_nonneg a x Ha). pose proof (represents_nonneg b y Hb).
  destruct (Z.leb_spec y x).
  - eapply returns_bind; [by apply (SubEq_represents a b x y)|]. intros r Hr.
    rewrite Z.max_r in Hr by lia. by apply ModEq_represents.
  - eapply returns_bind; [by apply (AddEq_represents a m x M)|]. intros r Hr.
    rewrite mod_sub_wrap by lia. replace (x + M - y) with (Z.max 0 (x + M - y)) by lia.
    by apply SubEq_represents.
Qed.

Lemma ModSubEq_represents a b x y :
  represents a x -> represents b y -> fits (2 * M) ->
  returns (ModSubEq a b m) (fun r => represents r ((x - y) mod M)).
Proof.
  intros Ha Hb Hf. unfold ModSubEq. rewrite (represents_copy b y Hb), bind_Ok.
  eapply returns_bind; [by apply reduce_op_represents|]. intros a' Ha'.
  eapply returns_bind; [by apply reduce_op_represents|]. intros b' Hb'.
  pose proof (Z.mod_pos_bound x M HM). pose proof (Z.mod_pos_bound y M HM).
  rewrite Zminus_mod. apply ModSubFastEq_represents; [done | done | lia |].
  eapply fits_mono; [exact Hf | lia].
Qed.

Lemma ModSub_represents a b x y :
  represents a x -> represents b y -> fits (2 * M) ->
  returns (ModSub a b m) (fun r => represents r ((x - y) mod M)).
Proof.
  intros Ha Hb Hf. replace (ModSub a b m) with (ModSubEq a b m); [by apply ModSubEq_represents|].
  unfold ModSub. rewrite (represents_copy a x Ha). done.
Qed.

(** ** Modular products *)

(** An object whose top limb is zero has a multiple of 32 as [m_MSB]. *)
Lemma not_normal_msb a : wfu a -> ~ normal (m_value a) -> m_MSB a mod 32 = 0.
Proof.
  intros [_ _ _ (low & top & Hv & Hmsb)] Hn. rewrite Hv, normal_snoc in Hn.
  assert (top = 0) as -> by (destruct (Z.eq_dec top 0); naive_solver).
  rewrite Hmsb, GetMSB_0, Z.add_0_r, Z.mul_comm. by rewrite Z.mod_mul.
Qed.

Lemma ModMul_loop_represents a b x y :
  represents a x -> represents b y -> 0 < x -> 0 < y -> fits (M + x * y) -> GetMSB M mod 32 <> 0 ->
  returns (for_range 0 (length (m_value b)) (fun i ans =>
      limbb ← vget (m_value b) i;
      tmpans ← partial_product (m_value a) i limbb;
      ans ← AddEq ans tmpans;
      Mod ans m) (ubint_int 0)) (fun r => represents r ((x * y) mod M)).
Proof.
  intros Ha Hb Hx Hy Hf H32. assert (fits (x * y)) as Hfxy by (eapply fits_mono; [exact Hf|]; nia).
  pose proof (represents_limbs b y Hb) as Lb. pose proof Hb as [_ Vb]. unfold value in Vb.
  eapply returns_mono; [apply (for_range_inv (fun i r => wfu r /\
    value r = (x * lval (take i (m_value b))) mod M /\ partial_sum (m_value a) (m_value b) i r)); [lia | |]|].
  - rewrite take_0. cbn [lval]. rewrite Z.mul_0_r, Z.mod_0_l by lia.
    split_and!; [apply wfu_0 | done | left; intros _; done].
  - intros i r Hi (Wr & Vr & Pr). fetch (m_value b) i c Hc.
    destruct (lval_take_step _ i c Lb Hc) as (Lc & H1 & H2 & H3). rewrite Vb in H1.
    pose proof (Z.mod_pos_bound (x * lval (take i (m_value b))) M HM) as Hmb.
    pose proof (mul_step a b x y i c r Ha Hb Hx Hy Hfxy Hc Wr Pr
      ltac:(rewrite Vr; eapply fits_mono; [exact Hf | nia])) as HS.
    apply returns_Ok in HS as (r' & HS & Wr' & Vr' & Pr').
    rewrite <- (bind_assoc (partial_product (m_value a) i c) (fun t => AddEq r t) (fun ans => Mod ans m)).
    rewrite HS, bind_Ok. clear HS.
    assert (value r' mod M = (x * lval (take (S i) (m_value b))) mod M) as Ev.
    { rewrite Vr', Vr, (lval_take_S _ i c Hc), Zplus_mod_idemp_l. f_equal. ring. }
    eapply returns_mono; [apply (Mod_wfu r' m M Wr' Hm HM)|].
    { destruct (decide (m_MSB r' = m_MSB m)) as [E|]; [left | by right]. destruct (normal_dec (m_value r')) as [|Hn]; [done|].
      exfalso. apply H32. rewrite <- (represents_msb m M Hm), <- E. by apply not_normal_msb. }
    intros r'' [[-> Hlt]|Hr''].
    + split_and!; [done | | done]. rewrite <- Ev, Z.mod_small; [done|]. split; [by apply wfu_value_nonneg | done].
    + rewrite Ev in Hr''. destruct Hr'' as [[W N] V]. split_and!; [done | done | by left].
  - intros r (Wr & Vr & Pr). rewrite take_ge, Vb in Vr by lia. split; [split; [done|]|done].
    by apply (partial_sum_end (m_value a) b y).
Qed.

(** The product modulo [M], and the two cases that return an operand as it is. *)
Lemma ModMul_represents a b x y :
  represents a x -> represents b y -> fits (M + x * y) -> GetMSB M mod 32 <> 0 ->
  returns (ModMul a b m) (fun r => represents r
    (if y =? 1 then x else if x =? 1 then y else (x * y) mod M)).
Proof.
  intros Ha Hb Hf H32. unfold ModMul. rewrite (represents_copy a x Ha), bind_Ok.
  rewrite (represents_not_garbage a x Ha), (represents_not_garbage b y Hb).
  pose proof (represents_nonneg a x Ha). pose proof (represents_nonneg b y Hb).
  destruct (Z.eqb_spec (m_MSB b) 0) as [E|Eb]; simpl.
  { apply (represents_msb_0 b y Hb) in E as ->. simpl.
    destruct (x =? 1); [apply represents_0|]. rewrite Z.mul_0_r, Z.mod_0_l by lia. apply represents_0. }
  destruct (Z.eqb_spec (m_MSB a) 0) as [E|Ea]; simpl.
  { apply (represents_msb_0 a x Ha) in E as ->. simpl.
    destruct (y =? 1); [apply represents_0|]. rewrite Z.mod_0_l by lia. apply represents_0. }
  destruct (Z.eqb_spec (m_MSB b) 1) as [E|Eb1].
  { apply (represents_msb_1 b y Hb) in E as ->. done. }
  rewrite (represents_msb_1 b y Hb) in Eb1. rewrite (proj2 (Z.eqb_neq y 1)) by done.
  destruct (Z.eqb_spec (m_MSB a) 1) as [E|Ea1].
  { apply (represents_msb_1 a x Ha) in E as ->. by rewrite (represents_copy b y Hb). }
  rewrite (represents_msb_1 a x Ha) in Ea1. rewrite (proj2 (Z.eqb_neq x 1)) by done.
  rewrite (represents_msb_0 a x Ha) in Ea. rewrite (represents_msb_0 b y Hb) in Eb.
  apply ModMul_loop_represents; [done | done | lia | lia | done | done].
Qed.
End Modulus.
