(* ===== verification/BigArithProps.v ===== *)
(** * Dynamic multiprecision integers: Barrett reduction, inverses and powers

    Barrett reduction is exact on the arguments for which its shifts are defined;
    [ModInverse] returns the inverse or throws; [ModExp] returns a representative
    of the power. *)
From stdpp Require Import base numbers list.
From Stdlib Require Import ZArith Znumtheory Lia.
From S2P Require Import Prelude Bits BigInt BigDiv BigIntProps BigShiftProps BigDivProps BigModProps.
Open Scope Z_scope.

(** ** Barrett reduction *)

(** The moduli whose sizes give defined shift amounts: [n - 2] and [n + 5] bits
    are [usshort] amounts that are not 31 modulo 32. *)
Record barrett_size (M : Z) : Prop := mk_barrett_size {
  bs_low : 3 <= GetMSB M;
  bs_high : 2 * GetMSB M + 8 < 2 ^ 16;
  bs_first : GetMSB M mod 32 <> 1;
  bs_second : GetMSB M mod 32 <> 26
}.

(** The arguments on which the second shift keeps a bit or is a short one. *)
Definition barrett_arg (M x : Z) : Prop :=
  x < M \/ 2 ^ GetMSB M <= x \/ GetMSB M + 5 < 32.

(** The parameter [mu]. *)
Definition big_mu (M : Z) : Z := 2 ^ (2 * GetMSB M + 3) / M.

Section Barrett.
Context (m mu : ubint) (M : Z).
Context (Hm : represents m M) (HM : 0 < M) (Hs : barrett_size M).

Lemma barrett_modulus_bounds : 2 ^ (GetMSB M - 1) <= M < 2 ^ GetMSB M.
Proof. by apply GetMSB_bounds. Qed.

Lemma ComputeMu_represents : returns (ComputeMu m) (fun r => represents r (big_mu M)).
Proof.
  destruct Hs as [H3 Hh _ _]. unfold ComputeMu, u16. rewrite (represents_msb m M Hm).
  rewrite u32_small, Z.mod_small by lia.
  eapply returns_bind; [apply (LShiftEq_represents _ 1 (2 * GetMSB M + 3) represents_1); [lia|]|].
  - rewrite Z.mul_1_l. apply (fits_bits _ (2 * GetMSB M + 4)); [|unfold max_limbs; lia].
    pose proof (pow2_pos (2 * GetMSB M + 3)). split; [lia|]. apply Z.pow_lt_mono_r; lia.
  - intros t Ht. rewrite Z.mul_1_l in Ht. by apply DividedBy_represents.
Qed.

Context (Hmu : represents mu (big_mu M)).

Lemma big_mu_bounds : 2 ^ (GetMSB M + 3) <= big_mu M <= 2 ^ (GetMSB M + 4).
Proof.
  destruct Hs as [H3 _ _ _]. destruct barrett_modulus_bounds as [H1 H2]. unfold big_mu.
  set (n := GetMSB M) in *. split.
  - apply Z.div_le_lower_bound; [done|].
    replace (2 ^ (2 * n + 3)) with (2 ^ n * 2 ^ (n + 3)) by (rewrite <- Z.pow_add_r by lia; f_equal; lia).
    pose proof (pow2_pos (n + 3) ltac:(lia)). nia.
  - apply Z.div_le_upper_bound; [done|].
    replace (2 ^ (2 * n + 3)) with (2 ^ (n - 1) * 2 ^ (n + 4)) by (rewrite <- Z.pow_add_r by lia; f_equal; lia).
    pose proof (pow2_pos (n + 4) ltac:(lia)). nia.
Qed.

(** The estimate [q] of [barrett_quotient] for an argument in range. *)
Lemma barrett_quotient_represents a x :
  represents a x -> M <= x < 2 ^ (2 * GetMSB M + 2) -> barrett_arg M x ->
  returns (barrett_quotient a m mu) (fun r =>
    represents r ((x / 2 ^ (GetMSB M - 2)) * big_mu M / 2 ^ (GetMSB M + 5))).
Proof.
  intros Ha Hx Harg. destruct Hs as [H3 Hh Hf1 Hf2]. pose proof barrett_modulus_bounds as [B1 B2].
  pose proof big_mu_bounds as [U1 U2]. pose proof (GetMSB_mono M x ltac:(lia)) as Hmx.
  unfold barrett_quotient, u16. rewrite (represents_msb m M Hm). unfold barrett_arg in Harg.
  set (n := GetMSB M) in *. rewrite (u32_small (n + 3)), (u32_small (n + -2)) by lia.
  rewrite (u32_small (n + 3 - -2)), !Z.mod_small by lia.
  replace (n + 3 - -2) with (n + 5) by lia. replace (n + -2) with (n - 2) by lia.
  assert (0 < 2 ^ (n - 2)) as P2 by (apply pow2_pos; lia).
  eapply returns_bind; [apply (RShiftEq_represents a x (n - 2) Ha); [lia | Z.div_mod_to_equations; lia | right; left; lia]|].
  intros q Hq. set (q0 := x / 2 ^ (n - 2)) in *.
  assert (2 <= q0) as Hq2.
  { apply Z.div_le_lower_bound; [lia|]. rewrite Z.mul_comm, <- Z.pow_succ_r by lia.
    replace (Z.succ (n - 2)) with (n - 1) by lia. lia. }
  assert (q0 < 2 ^ (n + 4)) as Hq4.
  { apply Z.div_lt_upper_bound; [lia|]. rewrite <- Z.pow_add_r by lia. replace (n - 2 + (n + 4)) with (2 * n + 2) by lia. lia. }
  pose proof (pow2_pos (n + 3) ltac:(lia)) as P3. unfold MulEq.
  eapply returns_bind; [apply (Mul_represents q mu q0 _ Hq Hmu)|].
  - apply (fits_bits _ (2 * n + 8)); [|unfold max_limbs; lia].
    replace (2 ^ (2 * n + 8)) with (2 ^ (n + 4) * 2 ^ (n + 4)) by (rewrite <- Z.pow_add_r by lia; f_equal; lia). nia.
  - intros p Hp. apply RShiftEq_represents; [done | lia | Z.div_mod_to_equations; lia |].
    destruct Harg as [|[Hbig|]]; [lia | | by right; right]. right. left.
    assert (4 <= q0).
    { apply Z.div_le_lower_bound; [lia|].
      assert (2 ^ n = 2 ^ (n - 2) * 2 ^ 2) by (rewrite <- Z.pow_add_r by lia; f_equal; lia). lia. }
    assert (2 ^ (n + 5) <= q0 * big_mu M).
    { assert (2 ^ (n + 5) = 2 ^ 2 * 2 ^ (n + 3)) by (rewrite <- Z.pow_add_r by lia; f_equal; lia). nia. }
    destruct (Z_lt_le_dec (n + 5) (GetMSB (q0 * big_mu M))) as [|Hle]; [done|].
    apply GetMSB_le in Hle; nia.
Qed.

Lemma Mod_barrett_represents a x :
  represents a x -> x < 2 ^ (2 * GetMSB M + 2) -> barrett_arg M x ->
  returns (Mod_barrett a m mu) (fun r => represents r (x mod M)).
Proof.
  intros Ha Hx Harg. pose proof (represents_nonneg a x Ha) as H0. unfold Mod_barrett.
  rewrite (op_lt_spec _ _ _ _ Ha Hm), bind_Ok, (represents_copy a x Ha).
  destruct (Z.ltb_spec x M); [simpl; by rewrite Z.mod_small by lia|]. rewrite !bind_Ok.
  eapply returns_bind; [by apply (barrett_quotient_represents a x)|]. intros q Hq.
  destruct (barrett_bounds M (GetMSB M) x (bs_low M Hs) barrett_modulus_bounds ltac:(lia)) as [Q0 Q1].
  fold (big_mu M) in Q0, Q1. set (Q := x / _ * _ / _) in *.
  pose proof (represents_fits a x Ha) as Hfx.
  eapply returns_bind; [apply (Mul_represents q m Q M Hq Hm); eapply fits_mono; [exact Hfx | nia]|].
  intros qm Hqm. eapply returns_bind; [by apply (SubEq_represents a qm x (Q * M))|].
  intros z Hz. rewrite Z.max_r in Hz by lia. rewrite (op_ge_spec _ _ _ _ Hz Hm), bind_Ok.
  assert (x mod M = (x - Q * M) mod M) as -> by (by rewrite <- Zminus_mod_idemp_r, Z.mod_mul, Z.sub_0_r by lia).
  destruct (Z.leb_spec M (x - Q * M)).
  - rewrite <- mod_sub_once by lia. replace (x - Q * M - M) with (Z.max 0 (x - Q * M - M)) by lia.
    by apply SubEq_represents.
  - simpl. by rewrite Z.mod_small by lia.
Qed.

Lemma ModEq_barrett_represents a x :
  represents a x -> x < 2 ^ (2 * GetMSB M + 2) -> barrett_arg M x ->
  returns (ModEq_barrett a m mu) (fun r => represents r (x mod M)).
Proof.
  intros Ha Hx Harg. replace (ModEq_barrett a m mu) with (Mod_barrett a m mu); [by apply Mod_barrett_represents|].
  unfold Mod_barrett, ModEq_barrett. by rewrite (represents_copy a x Ha).
Qed.

Lemma fits_barrett x : 0 <= x < 2 ^ (2 * GetMSB M + 2) -> fits x.
Proof.
  intros. apply (fits_bits _ (2 * GetMSB M + 2)); [done|]. destruct Hs. unfold max_limbs. lia.
Qed.

(** The operands of [ModMul] and their product, after the reductions. *)
Definition reduced_gt (x : Z) : Z := if M <? x then x mod M else x.

Lemma reduce_gt_barrett_represents a x :
  represents a x -> x < 2 ^ (2 * GetMSB M + 2) -> barrett_arg M x ->
  returns (reduce_gt_barrett a m mu) (fun r => represents r (reduced_gt x)).
Proof.
  intros Ha Hx Harg. unfold reduce_gt_barrett, reduced_gt. rewrite (op_gt_spec _ _ _ _ Ha Hm), bind_Ok.
  destruct (M <? x); [by apply ModEq_barrett_represents | done].
Qed.

Lemma reduced_gt_bounds x : 0 <= x -> 0 <= reduced_gt x <= M /\ reduced_gt x mod M = x mod M.
Proof.
  intros Hx. unfold reduced_gt. pose proof (Z.mod_pos_bound x M HM).
  destruct (Z.ltb_spec M x); [|lia]. split; [lia | apply Zmod_mod].
Qed.

Lemma ModMulEq_barrett_represents a b x y :
  represents a x -> represents b y ->
  x < 2 ^ (2 * GetMSB M + 2) -> y < 2 ^ (2 * GetMSB M + 2) ->
  barrett_arg M x -> barrett_arg M y -> barrett_arg M (reduced_gt x * reduced_gt y) ->
  returns (ModMulEq_barrett a b m mu) (fun r => represents r ((x * y) mod M)).
Proof.
  intros Ha Hb Hx Hy Ax Ay Axy. unfold ModMulEq_barrett, MulEq. rewrite (represents_copy b y Hb), bind_Ok.
  pose proof (represents_nonneg a x Ha) as X0. pose proof (represents_nonneg b y Hb) as Y0.
  eapply returns_bind; [by apply reduce_gt_barrett_represents|]. intros a' Ha'.
  eapply returns_bind; [by apply reduce_gt_barrett_represents|]. intros b' Hb'.
  destruct (reduced_gt_bounds x X0) as [Bx Ex]. destruct (reduced_gt_bounds y Y0) as [By Ey].
  pose proof barrett_modulus_bounds as [_ HMn].
  assert (reduced_gt x * reduced_gt y < 2 ^ (2 * GetMSB M + 2)) as Hp.
  { pose proof (bs_low M Hs). assert (2 ^ (2 * GetMSB M + 2) = 2 ^ 2 * (2 ^ GetMSB M * 2 ^ GetMSB M))
      by (rewrite <- !Z.pow_add_r by lia; f_equal; lia). nia. }
  eapply returns_bind; [apply (Mul_represents a' b' _ _ Ha' Hb'); apply fits_barrett; nia|].
  intros p Hp'. rewrite Zmult_mod, <- Ex, <- Ey, <- Zmult_mod. by apply ModEq_barrett_represents.
Qed.

Lemma ModMul_barrett_represents a b x y :
  represents a x -> represents b y ->
  x < 2 ^ (2 * GetMSB M + 2) -> y < 2 ^ (2 * GetMSB M + 2) ->
  barrett_arg M x -> barrett_arg M y -> barrett_arg M (reduced_gt x * reduced_gt y) ->
  returns (ModMul_barrett a b m mu) (fun r => represents r ((x * y) mod M)).
Proof.
  intros Ha Hb Hx Hy Ax Ay Axy.
  replace (ModMul_barrett a b m mu) with (ModMulEq_barrett a b m mu); [by apply ModMulEq_barrett_represents|].
  unfold ModMul_barrett. by rewrite (represents_copy a x Ha).
Qed.

End Barrett.

(** ** Inverses *)

(** The quotients of Euclid's algorithm on [f] and [s] down to the remainder 1. *)
Inductive euclid : Z -> Z -> list Z -> Prop :=
  | euclid_last f s : 1 < s < f -> f mod s = 1 -> euclid f s [f / s]
  | euclid_step f s qs : 1 < s < f -> 1 < f mod s -> euclid s (f mod s) qs -> euclid f s (f / s :: qs).

(** The values of the "south" loop. *)
Fixpoint south_val (qs : list Z) : Z * Z :=
  match qs with
  | [] => (0, 1)
  | q :: qs => let '(a, b) := south_val qs in (b, q * b + a)
  end.

(** Bezout's identity for the pair the loop computes. *)
Lemma euclid_bezout f s qs :
  euclid f s qs ->
  let '(a, b) := south_val qs in
  0 < a < s /\ 0 < b < f /\ b * s - a * f = (-1) ^ Z.of_nat (length qs) /\
  Forall (fun q => 0 < q) qs.
Proof.
  induction 1 as [f s Hs Hr|f s qs Hs Hr He IH]; cbn [south_val].
  - pose proof (Z.div_mod f s ltac:(lia)) as E. rewrite Hr in E.
    assert (0 < f / s) by (apply Z.div_str_pos; lia).
    split_and!; [lia | lia | lia | nia | simpl; lia | by constructor].
  - destruct (south_val qs) as [a b]. destruct IH as (Ha & Hb & E & Hq).
    pose proof (Z.div_mod f s ltac:(lia)) as Ed. pose proof (Z.mod_pos_bound f s ltac:(lia)).
    assert (0 < f / s) by (apply Z.div_str_pos; lia).
    split_and!; [lia | lia | nia | nia | | by constructor].
    cbn [length]. rewrite Nat2Z.inj_succ, Z.pow_succ_r by lia. rewrite <- E. rewrite Ed at 2. ring.
Qed.

Lemma south_spec quotient qs f s :
  euclid f s qs -> Forall2 represents quotient qs -> fits f ->
  returns (south quotient) (fun '(a, b, c) =>
    represents a (fst (south_val qs)) /\ represents b (snd (south_val qs)) /\
    (quotient <> [] -> represents c (snd (south_val qs)))).
Proof.
  intros He HQ Hf. unfold south. pose proof (Forall2_length _ _ _ HQ) as Hlen.
  assert (forall i, (i <= length qs)%nat -> 0 <= fst (south_val (drop i qs)) /\
    0 <= snd (south_val (drop i qs)) <= snd (south_val qs)) as Hmono.
  { pose proof (euclid_bezout f s qs He) as Hbz. destruct (south_val qs) as [a b] eqn:Eab.
    destruct Hbz as (_ & _ & _ & Hq). cbn [snd]. replace b with (snd (south_val qs)) by (by rewrite Eab).
    clear -Hq. induction Hq as [|q qs Hq Hqs IH]; intros [|i] Hi; simpl in *; [lia | lia | |].
    - pose proof (IH 0%nat ltac:(lia)) as IH0. rewrite drop_0 in IH0.
      destruct (south_val qs). simpl in *. nia.
    - pose proof (IH i ltac:(lia)) as IHi. pose proof (IH 0%nat ltac:(lia)) as IH0. rewrite drop_0 in IH0.
      destruct (south_val qs). simpl in *. nia. }
  assert (fits (snd (south_val qs))) as Hfb.
  { pose proof (euclid_bezout f s qs He) as Hbz. destruct (south_val qs) as [a b].
    eapply fits_mono; [exact Hf|]. simpl. lia. }
  eapply returns_mono; [apply (for_down_inv (fun i '(a, b, c) =>
    represents a (fst (south_val (drop i qs))) /\ represents b (snd (south_val (drop i qs))) /\
    ((i < length qs)%nat -> represents c (snd (south_val (drop i qs))))))|].
  - rewrite drop_ge by lia. simpl. split_and!; [apply represents_0 | apply represents_1 | lia].
  - intros i [[a b] c] Hi (Ha & Hb & _). fetch quotient i q Hq.
    destruct (Forall2_lookup_l _ _ _ i q HQ Hq) as (z & Hz & Rz).
    pose proof (Hmono i ltac:(lia)) as Hmi. pose proof (Hmono (S i) ltac:(lia)) as Hms.
    rewrite (drop_S qs z i Hz) in *. cbn [south_val] in *.
    destruct (south_val (drop (S i) qs)) as [a' b']. cbn [fst snd] in *.
    pose proof (represents_nonneg q z Rz).
    eapply returns_bind; [apply (Mul_represents q b z b' Rz Hb); eapply fits_mono; [exact Hfb | nia]|].
    intros t Ht. eapply returns_bind; [apply (Add_represents t a (z * b') a' Ht Ha); eapply fits_mono; [exact Hfb | nia]|].
    intros r Hr. simpl. done.
  - intros [[a b] c] (Ha & Hb & Hc). rewrite drop_0 in *. split_and!; [done | done |].
    intros Hne. apply Hc. destruct quotient; [done | simpl in *; lia].
Qed.

(** The "north" loop: the quotients, or an exception when the operands have a
    common divisor. Each turn halves the product of [first] and [second]. *)
Lemma north_spec fuel f s r (vf vs : Z) quotient :
  represents f vf -> represents s vs -> represents r (vf mod vs) -> 1 < vs < vf ->
  vf * vs < 2 ^ Z.of_nat fuel ->
  if Z.gcd vf vs =? 1
  then returns (north fuel f s r quotient) (fun qs => exists more zs,
         qs = quotient ++ more /\ Forall2 represents more zs /\ euclid vf vs (vf / vs :: zs))
  else north fuel f s r quotient = Throw math_error.
Proof.
  revert f s r vf vs quotient. induction fuel as [|fuel IH]; intros f s r vf vs quotient Hf Hs Hr Hlt Hfu.
  { simpl in Hfu. nia. }
  cbn [north]. rewrite (op_ne_spec _ _ _ _ Hr represents_1), bind_Ok.
  pose proof (Z.mod_pos_bound vf vs ltac:(lia)) as Hm. pose proof (Z.div_mod vf vs ltac:(lia)) as Ed.
  assert (1 <= vf / vs) by (apply Z.div_le_lower_bound; lia).
  rewrite Nat2Z.inj_succ, Z.pow_succ_r in Hfu by lia.
  assert (Z.gcd vf vs = Z.gcd vs (vf mod vs)) as Eg by (rewrite Z.gcd_comm, <- Z.gcd_mod by lia; apply Z.gcd_comm).
  destruct (Z.eqb_spec (vf mod vs) 1) as [E1|E1]; cbn [negb].
  { rewrite Eg, E1, Z.gcd_1_r. simpl. exists [], [].
    rewrite app_nil_r. split_and!; [done | done |]. by apply euclid_last. }
  rewrite (op_eq_spec _ _ _ _ Hr represents_0), bind_Ok.
  destruct (Z.eqb_spec (vf mod vs) 0) as [E0|E0].
  { rewrite Eg, E0, Z.gcd_0_r, Z.abs_eq by lia. destruct (Z.eqb_spec vs 1); [lia | done]. }
  pose proof (Mod_represents s r vs (vf mod vs) Hs Hr ltac:(lia)) as H1.
  apply returns_Ok in H1 as (r' & -> & Hr'). rewrite bind_Ok.
  pose proof (DividedBy_represents s r vs (vf mod vs) Hs Hr ltac:(lia)) as H2.
  apply returns_Ok in H2 as (q & -> & Hq). rewrite bind_Ok.
  specialize (IH s r r' vs (vf mod vs) (quotient ++ [q]) Hs Hr Hr' ltac:(lia) ltac:(nia)).
  rewrite <- Eg in IH. destruct (Z.gcd vf vs =? 1); [|done].
  eapply returns_mono; [exact IH|]. intros qs (more & zs & -> & Hz & He).
  exists (q :: more), (vs / (vf mod vs) :: zs). rewrite <- app_assoc. split_and!; [done | by constructor |].
  apply euclid_step; [lia | lia | done].
Qed.

Lemma pow_neg1_parity n : (-1) ^ Z.of_nat n = if (n mod 2 =? 1)%nat then -1 else 1.
Proof.
  induction n as [|n IH]; [done|]. rewrite Nat2Z.inj_succ, Z.pow_succ_r, IH by lia.
  pose proof (Nat.mod_upper_bound n 2 ltac:(lia)). pose proof (Nat.mod_upper_bound (S n) 2 ltac:(lia)).
  pose proof (Nat.div_mod n 2 ltac:(lia)). pose proof (Nat.div_mod (S n) 2 ltac:(lia)).
  destruct (Nat.eqb_spec (n mod 2) 1), (Nat.eqb_spec (S n mod 2) 1); lia.
Qed.

Section Inverse.
Context (a m : ubint) (x M : Z) (fuel : nat).
Context (Ha : represents a x) (Hm : represents m M) (HM : 1 < M).
Context (Hfuel : 2 * GetMSB M <= Z.of_nat fuel).

(** The operand after the reduction [*this > modulus]. *)
Definition second_val : Z := if M <? x then x mod M else x.

Lemma second_val_range : 0 <= second_val <= M /\ second_val mod M = x mod M.
Proof.
  unfold second_val. pose proof (represents_nonneg a x Ha). pose proof (Z.mod_pos_bound x M ltac:(lia)).
  destruct (Z.ltb_spec M x); [|lia]. split; [lia | apply Zmod_mod].
Qed.

Lemma second_val_gcd : Z.gcd M second_val = Z.gcd x M.
Proof.
  unfold second_val. destruct (M <? x); [|apply Z.gcd_comm].
  rewrite Z.gcd_comm. by rewrite Z.gcd_mod, Z.gcd_comm by lia.
Qed.

Lemma inverse_fuel v : 0 <= v <= M -> M * v < 2 ^ Z.of_nat fuel.
Proof.
  intros Hv. pose proof (GetMSB_bounds M ltac:(lia)) as [_ Hb]. pose proof (GetMSB_nonneg M ltac:(lia)).
  pose proof (Z.pow_le_mono_r 2 (2 * GetMSB M) (Z.of_nat fuel) ltac:(lia) Hfuel).
  replace (2 * GetMSB M) with (GetMSB M + GetMSB M) in * by lia. rewrite Z.pow_add_r in * by lia. nia.
Qed.

Lemma second_represents :
  returns (gt ← op_gt a m; if (gt : bool) then Mod a m else Ok a) (fun r => represents r second_val).
Proof.
  rewrite (op_gt_spec _ _ _ _ Ha Hm), bind_Ok. unfold second_val.
  destruct (M <? x); [apply Mod_represents; [done | done | lia] | done].
Qed.

Lemma ModInverse_represents :
  Z.gcd x M = 1 ->
  returns (ModInverse fuel a m) (fun r => exists z, represents r z /\ 0 < z < M /\ (x * z) mod M = 1).
Proof.
  intros Hg. unfold ModInverse. pose proof second_val_range as [Hr2 Em]. pose proof second_val_gcd as Eg.
  rewrite Hg in Eg. rewrite (op_gt_spec _ _ _ _ Ha Hm), bind_Ok.
  pose proof second_represents as H2. rewrite (op_gt_spec _ _ _ _ Ha Hm), bind_Ok in H2.
  eapply returns_bind; [exact H2|]. intros s Hs. set (v := second_val) in *.
  assert (v <> 0) as Hv0 by (intros E; rewrite E, Z.gcd_0_r, Z.abs_eq in Eg by lia; lia).
  rewrite (op_eq_spec _ _ _ _ Hs represents_0), bind_Ok, (proj2 (Z.eqb_neq _ _)) by done.
  rewrite (op_eq_spec _ _ _ _ Hs represents_1), bind_Ok.
  destruct (Z.eqb_spec v 1) as [E1|E1].
  { simpl. exists 1. split_and!; [apply represents_1 | lia | lia |].
    rewrite Z.mul_1_r, <- Em, E1. apply Z.mod_small. lia. }
  assert (v <> M) as HvM by (intros E; rewrite E, Z.gcd_diag, Z.abs_eq in Eg by lia; lia).
  rewrite (represents_copy m M Hm), bind_Ok.
  eapply returns_bind; [apply (Mod_represents m s M v Hm Hs); lia|]. intros mb Hmb.
  eapply returns_bind; [apply (DividedBy_represents m s M v Hm Hs); lia|]. intros q Hq.
  pose proof (inverse_fuel v Hr2) as Hfu.
  pose proof (north_spec fuel m s mb M v [q] Hm Hs Hmb ltac:(lia) Hfu) as HN.
  rewrite Eg in HN. simpl in HN. eapply returns_bind; [exact HN|].
  intros qs (more & zs & -> & Hz & He). pose proof (euclid_bezout _ _ _ He) as Hbz.
  pose proof (represents_fits m M Hm) as HfM.
  eapply returns_bind; [apply (south_spec _ (M / v :: zs) M v He); [by constructor | done]|].
  intros [[c1 c2] c3] (_ & _ & Hc). specialize (Hc ltac:(done)).
  destruct (south_val (M / v :: zs)) as [A B]. cbn [snd] in Hc. destruct Hbz as (HA & HB & EB & _).
  rewrite pow_neg1_parity in EB.
  assert (length (q :: more) = length (M / v :: zs)) as El by (simpl; f_equal; by eapply Forall2_length).
  rewrite El.
  assert (forall z, (v * z) mod M = (x * z) mod M) as Hvx
    by (intros z; rewrite Zmult_mod, Em, <- Zmult_mod; done).
  destruct (Nat.eqb (length (M / v :: zs) mod 2) 1).
  - eapply returns_mono; [apply (Sub_represents m c3 M B Hm Hc)|]. intros r Hr. rewrite Z.max_r in Hr by lia.
    exists (M - B). split_and!; [done | lia | lia |]. rewrite <- Hvx.
    symmetry. apply (Z.mod_unique _ _ (v - A)); lia.
  - simpl. exists B. split_and!; [done | lia | lia |]. rewrite <- Hvx.
    symmetry. apply (Z.mod_unique _ _ A); lia.
Qed.

Lemma ModInverse_throws : Z.gcd x M <> 1 -> ModInverse fuel a m = Throw math_error.
Proof.
  intros Hg. unfold ModInverse. pose proof second_val_range as [Hr2 Em]. pose proof second_val_gcd as Eg.
  rewrite (op_gt_spec _ _ _ _ Ha Hm), bind_Ok.
  pose proof second_represents as H2. rewrite (op_gt_spec _ _ _ _ Ha Hm), bind_Ok in H2.
  apply returns_Ok in H2 as (s & -> & Hs). rewrite bind_Ok. set (v := second_val) in *.
  rewrite (op_eq_spec _ _ _ _ Hs represents_0), bind_Ok. destruct (Z.eqb_spec v 0) as [|Hv0]; [done|].
  rewrite (op_eq_spec _ _ _ _ Hs represents_1), bind_Ok.
  destruct (Z.eqb_spec v 1) as [E1|E1]; [rewrite E1, Z.gcd_1_r in Eg; congruence|].
  rewrite (represents_copy m M Hm), bind_Ok.
  pose proof (Mod_represents m s M v Hm Hs ltac:(lia)) as H1. apply returns_Ok in H1 as (mb & -> & Hmb). rewrite bind_Ok.
  pose proof (DividedBy_represents m s M v Hm Hs ltac:(lia)) as H3. apply returns_Ok in H3 as (q & -> & Hq). rewrite bind_Ok.
  assert (1 <= Z.of_nat fuel) by (pose proof (GetMSB_pos M ltac:(lia)); lia).
  destruct (Z.eq_dec v M) as [EM|HvM].
  { rewrite EM, Z.mod_same in Hmb by lia. destruct fuel as [|fuel']; [lia|]. cbn [north].
    rewrite (op_ne_spec _ _ _ _ Hmb represents_1), bind_Ok. simpl.
    rewrite (op_eq_spec _ _ _ _ Hmb represents_0), bind_Ok. done. }
  pose proof (inverse_fuel v Hr2) as Hfu.
  pose proof (north_spec fuel m s mb M v [q] Hm Hs Hmb ltac:(lia) Hfu) as HN.
  rewrite Eg, (proj2 (Z.eqb_neq _ _)) in HN by done. by rewrite HN.
Qed.
End Inverse.

(** ** Powers *)

(** The square-and-multiply loop keeps [product * mid ^ Exp] modulo [M]. The
    product is reduced only when it exceeds [M], so it may be [M] itself. *)
Lemma ModExp_loop_represents fuel m M mid product Exp vm vp e :
  represents m M -> 0 < M -> fits (M * M) ->
  represents mid vm -> 0 <= vm < M -> represents product vp -> 0 <= vp <= M ->
  represents Exp e -> GetMSB e <= Z.of_nat fuel -> (1 <= fuel)%nat ->
  returns (ModExp_loop fuel mid product Exp m) (fun r => exists z,
    represents r z /\ 0 <= z <= M /\ z ==[M] vp * vm ^ e).
Proof.
  intros Hm HM Hf. revert mid product Exp vm vp e.
  induction fuel as [|fuel IH]; intros mid product Exp vm vp e Hmid Bm Hp Bp He Hfu H1; [lia|].
  cbn [ModExp_loop]. pose proof (represents_length Exp e He). pose proof (represents_nonneg Exp e He) as He0.
  fetch (m_value Exp) 0%nat e0 He0'.
  assert (e0 mod 2 = e mod 2) as Ee by (destruct He as [_ <-]; unfold value; by rewrite (lval_parity _ _ He0')).
  rewrite Ee. pose proof (Z.div_mod e 2 ltac:(lia)) as Ed. pose proof (Z.mod_pos_bound e 2 ltac:(lia)) as Hb.
  apply (returns_bind _ _ (fun p => exists z, represents p z /\ 0 <= z <= M * M /\ z = vp * vm ^ (e mod 2))).
  { destruct (Z.eqb_spec (e mod 2) 1) as [->|].
    - eapply returns_mono; [apply (Mul_represents product mid vp vm Hp Hmid); eapply fits_mono; [exact Hf | nia]|].
      intros p Hp'. exists (vp * vm). split_and!; [done | nia | nia | by rewrite Z.pow_1_r].
    - replace (e mod 2) with 0 by lia. simpl. exists vp. split_and!; [done | lia | nia | by rewrite Z.mul_1_r]. }
  intros p (z & Hz & Bz & Ez). rewrite (op_gt_spec _ _ _ _ Hz Hm), bind_Ok.
  apply (returns_bind _ _ (fun p => exists z', represents p z' /\ 0 <= z' <= M /\ z' ==[M] z)).
  { destruct (Z.ltb_spec M z).
    - eapply returns_mono; [by apply (Mod_represents p m z M)|]. intros p' Hp'. exists (z mod M).
      pose proof (Z.mod_pos_bound z M HM). split_and!; [done | lia | lia | apply eqmod_mod].
    - simpl. exists z. split_and!; [done | lia | lia | done]. }
  intros p' (z' & Hz' & Bz' & Ez').
  eapply returns_bind; [apply (RShift_represents Exp e 1 He); done|]. intros E' HE'. rewrite Z.pow_1_r in HE'.
  rewrite (op_eq_spec _ _ _ _ HE' represents_0), bind_Ok.
  destruct (Z.eqb_spec (e / 2) 0) as [E0|E0].
  { simpl. exists z'. split_and!; [done | lia | lia |]. rewrite Ez', Ez. by replace (e mod 2) with e by lia. }
  eapply returns_bind; [apply (Mul_represents mid mid vm vm Hmid Hmid); eapply fits_mono; [exact Hf | nia]|].
  intros sq Hsq. eapply returns_bind; [by apply (Mod_represents sq m (vm * vm) M)|]. intros mid' Hmid'.
  assert (0 < e / 2) by (pose proof (Z.div_pos e 2); lia).
  assert (GetMSB e = GetMSB (e / 2) + 1) as EM.
  { transitivity (GetMSB (e mod 2 + 2 ^ 1 * (e / 2))); [f_equal; lia|].
    rewrite GetMSB_high by lia. lia. }
  pose proof (GetMSB_pos (e / 2) ltac:(lia)).
  eapply returns_mono; [apply (IH mid' p' E' _ z' (e / 2) Hmid'); [apply Z.mod_pos_bound; lia | done.. | lia | lia]|].
  intros r (y & Hy & By & Ey). exists y. split_and!; [done | lia | lia |].
  rewrite Ey, Ez', Ez. rewrite (eqmod_pow _ _ _ _ (eqmod_mod M (vm * vm))).
  apply eqmod_eq. rewrite <- Z.mul_assoc. f_equal. rewrite Ed at 3.
  rewrite Z.pow_add_r, Z.pow_mul_r, Z.pow_2_r by lia. ring.
Qed.

Lemma ModExp_represents fuel a b m x e M :
  represents a x -> represents b e -> represents m M -> 1 <= M -> fits (M * M) ->
  GetMSB e <= Z.of_nat fuel -> (1 <= fuel)%nat ->
  returns (ModExp fuel a b m) (fun r => exists z,
    represents r z /\ 0 <= z <= M /\ z ==[M] x ^ e).
Proof.
  intros Ha Hb Hm HM Hf Hfu H1. unfold ModExp.
  eapply returns_bind; [apply (Mod_represents a m x M Ha Hm); lia|]. intros mid Hmid.
  rewrite (represents_copy b e Hb), bind_Ok. pose proof (Z.mod_pos_bound x M ltac:(lia)).
  eapply returns_mono; [apply (ModExp_loop_represents fuel m M mid _ b (x mod M) 1 e Hm); try done; try lia; apply represents_1|].
  intros r (z & Hz & Bz & Ez). exists z. split_and!; [done | lia | lia |].
  rewrite Ez, Z.mul_1_l. apply eqmod_pow, eqmod_mod.
Qed.

(** For a base prime to the modulus the result is the reduced power. *)
Lemma ModExp_coprime fuel a b m x e M :
  represents a x -> represents b e -> represents m M -> 1 < M -> fits (M * M) ->
  GetMSB e <= Z.of_nat fuel -> (1 <= fuel)%nat -> Z.gcd x M = 1 ->
  returns (ModExp fuel a b m) (fun r => represents r (x ^ e mod M)).
Proof.
  intros Ha Hb Hm HM Hf Hfu H1 Hg.
  eapply returns_mono; [apply (ModExp_represents fuel a b m x e M); try done; lia|].
  intros r (z & Hz & Bz & Ez). pose proof (represents_nonneg b e Hb).
  destruct (Z.eq_dec z M) as [->|]; [|rewrite <- (eqmod_unique M (x ^ e) z); [done | lia | done]].
  exfalso. destruct Ez as [Ez]. rewrite Z.mod_same in Ez by lia. symmetry in Ez.
  apply Z.mod_divide in Ez; [|lia].
  assert (Z.gcd (x ^ e) M = 1) as Hr by (by apply Z.coprime_pow_l).
  apply Z.divide_gcd_iff in Ez; [|lia]. rewrite Z.gcd_comm in Ez. lia.
Qed.
