(* ===== verification/BigStringProps.v ===== *)
(** * Dynamic multiprecision integers: conversions from and to strings

    [ToString] prints the decimal digits of numbers of up to 1500 digits,
    [AssignVal] reads a decimal string, and reading what was printed gives the
    object back; [FromBinaryString] on strings whose length is no multiple of
    the size of a limb. *)
From stdpp Require Import base numbers list.
From Stdlib Require Import ZArith Lia Ascii.
From S2P Require Import Prelude Bits BigInt BigDiv BigIntProps BigShiftProps.
Open Scope Z_scope.

(** ** Digits *)

(** The value of a list of digits, most significant first, in base [b]. *)
Fixpoint dval (b : Z) (ds : list Z) : Z :=
  match ds with [] => 0 | d :: ds => d * b ^ Z.of_nat (length ds) + dval b ds end.

Definition digit (b d : Z) : Prop := 0 <= d < b.

Lemma dval_app b ds es : 0 < b -> dval b (ds ++ es) = dval b ds * b ^ Z.of_nat (length es) + dval b es.
Proof.
  intros Hb. induction ds as [|d ds IH]; cbn [dval app]; [lia|].
  rewrite IH, length_app, Nat2Z.inj_add, Z.pow_add_r by lia. ring.
Qed.

Lemma dval_bound b ds : 0 < b -> Forall (digit b) ds -> 0 <= dval b ds < b ^ Z.of_nat (length ds).
Proof.
  intros Hb. induction 1 as [|d ds Hd _ IH]; cbn [dval length]; [simpl; lia|].
  rewrite Nat2Z.inj_succ, Z.pow_succ_r by lia. unfold digit in Hd. nia.
Qed.

Lemma dval_repeat_0 b n : dval b (repeat 0 n) = 0.
Proof. induction n as [|n IH]; cbn [dval repeat]; [done|]. rewrite IH. lia. Qed.

(** ** Printing *)

Lemma double_bitVal_spec a :
  Forall (digit 10) a ->
  let '(r, c) := double_bitVal a in
  Forall (digit 10) r /\ length r = length a /\ 0 <= c <= 1 /\
  dval 10 r + c * 10 ^ Z.of_nat (length a) = 2 * dval 10 a /\
  (forall d, last r = Some d -> d <= 8).
Proof.
  induction 1 as [|x a Hx Ha IH]; cbn [double_bitVal]; [by split_and!|].
  destruct (double_bitVal a) as [r c] eqn:Er. destruct IH as (Hr & Hl & Hc & E & Hlast).
  unfold digit in Hx. rewrite Z.shiftl_mul_pow2, Z.pow_1_r by lia. rewrite (Z.mod_small (x * 2)) by lia.
  assert (a = [] -> c = 0) as Hc0 by (intros ->; simpl in Er; congruence).
  assert (forall z, (r = [] -> z <= 8) -> forall d, last (z :: r) = Some d -> d <= 8) as Hz.
  { intros z Hz d. destruct r; [intros [= <-]; by apply Hz | by apply Hlast]. }
  assert (r = [] -> c = 0) as Hr0 by (intros ->; apply Hc0; by destruct a).
  rewrite Z.gtb_ltb. destruct (Z.ltb_spec 9 (x * 2)); rewrite Z.mod_small by lia;
    cbn [dval length]; rewrite ?Hl, Nat2Z.inj_succ, Z.pow_succ_r by lia.
  - split_and!; [constructor; [unfold digit; lia | done] | done | lia | lia | lia |].
    apply Hz. intros E0. rewrite (Hr0 E0). lia.
  - split_and!; [constructor; [unfold digit; lia | done] | done | lia | lia | lia |].
    apply Hz. intros E0. rewrite (Hr0 E0). lia.
Qed.

Lemma add_bitVal_loop_digits a : Forall (digit 10) a -> add_bitVal_loop a = (a, 0).
Proof.
  induction 1 as [|x a Hx Ha IH]; cbn [add_bitVal_loop]; [done|]. rewrite IH, Z.add_0_r.
  unfold digit in Hx. rewrite Z.mod_small by lia. rewrite Z.gtb_ltb. by destruct (Z.ltb_spec 9 x); [lia|].
Qed.

(** Adding a bit to a doubled number changes its last digit only. *)
Lemma add_bitVal_spec a b :
  Forall (digit 10) a -> a <> [] -> (forall d, last a = Some d -> d <= 8) -> 0 <= b <= 1 ->
  exists r, add_bitVal a b = Ok r /\ Forall (digit 10) r /\ length r = length a /\
    dval 10 r = dval 10 a + b.
Proof.
  intros Ha Hne Hlast Hb. destruct a as [|d a _] using rev_ind; [done|].
  specialize (Hlast d (last_snoc _ _)). apply Forall_app in Ha as [Ha [Hd _]%Forall_cons].
  unfold add_bitVal, digit in *. rewrite length_app. cbn [length]. rewrite Nat.add_sub.
  rewrite (vget_Some _ _ d) by (by rewrite lookup_app_r, Nat.sub_diag by lia). rewrite bind_Ok.
  rewrite vset_lt, bind_Ok by (rewrite length_app; simpl; lia).
  rewrite insert_app_r_alt, Nat.sub_diag by lia. cbn [insert list_insert]. rewrite Z.mod_small by lia.
  assert (Forall (digit 10) (a ++ [d + b])) as Hr by (apply Forall_snoc; [done | unfold digit; lia]).
  rewrite add_bitVal_loop_digits by done. exists (a ++ [d + b]). split; [done|].
  split_and!; [done | rewrite ?length_app; done |]. rewrite !dval_app by lia. cbn [dval length]. simpl. lia.
Qed.

Lemma print_loop_spec a x i p :
  represents a x -> Forall (digit 10) p -> p <> [] -> x < 10 ^ Z.of_nat (length p) ->
  dval 10 p = x / 2 ^ Z.of_nat i ->
  exists r, print_loop i a p = Ok r /\ Forall (digit 10) r /\ length r = length p /\ dval 10 r = x.
Proof.
  intros Ha. pose proof (represents_nonneg a x Ha) as Hx. revert p.
  induction i as [|i IH]; intros p Hp Hne Hlt Hv; cbn [print_loop].
  { exists p. split_and!; [done.. |]. by rewrite Z.div_1_r in Hv. }
  rewrite (GetBitAtIndex_spec a x) by (done || lia). rewrite bind_Ok.
  pose proof (double_bitVal_spec p Hp) as Hd. destruct (double_bitVal p) as [r c]. cbn [fst].
  destruct Hd as (Hr & Hl & Hc & E & Hlast).
  assert (0 < 2 ^ Z.of_nat i) by (apply pow2_pos; lia).
  assert (x / 2 ^ Z.of_nat i = 2 * (x / 2 ^ Z.of_nat (S i)) + Z.b2z (Z.testbit x (Z.of_nat i))) as Eh.
  { rewrite Z.testbit_spec', Nat2Z.inj_succ, Z.pow_succ_r by lia.
    rewrite (Z.mul_comm 2 (2 ^ _)), <- Z.div_div by lia. apply Z.div_mod. lia. }
  assert (0 <= Z.b2z (Z.testbit x (Z.of_nat i)) <= 1) as Hb by (by destruct (Z.testbit x (Z.of_nat i))).
  assert (x / 2 ^ Z.of_nat i <= x) by (apply Z.div_le_upper_bound; nia).
  pose proof (dval_bound 10 r ltac:(lia) Hr) as Hbd. rewrite Hl in Hbd.
  assert (c = 0) as -> by nia. replace (Z.of_nat (S i) - 1) with (Z.of_nat i) by lia.
  destruct (add_bitVal_spec r (Z.b2z (Z.testbit x (Z.of_nat i))) Hr) as (r' & -> & Hr' & Hl' & E');
    [by destruct p, r | done | done |].
  rewrite bind_Ok. destruct (IH r' Hr') as (r'' & H1 & H2 & H3 & H4).
  - by destruct r', r, p.
  - by rewrite Hl', Hl.
  - lia.
  - exists r''. split_and!; [done | done | congruence | done].
Qed.

Lemma skip_zeros_spec a :
  Forall (digit 10) a -> a <> [] ->
  Forall (digit 10) (skip_zeros a) /\ skip_zeros a <> [] /\ dval 10 (skip_zeros a) = dval 10 a /\
  (head (skip_zeros a) = Some 0 -> length (skip_zeros a) = 1%nat).
Proof.
  induction 1 as [|x a Hx Ha IH]; intros Hne; [done|]. cbn [skip_zeros].
  destruct a as [|y a]; [by split_and!; [constructor |..]|].
  destruct (Z.eqb_spec x 0) as [->|Hx0].
  - destruct (IH ltac:(done)) as (H1 & H2 & H3 & H4). split_and!; [done | done | | done].
    rewrite H3. cbn [dval]. lia.
  - split_and!; [by constructor | done | done |]. simpl. congruence.
Qed.

(** The decimal notation of [x]: its digits, without leading zeros. *)
Definition decimal (x : Z) (s : list ascii) : Prop :=
  exists ds, s = map digit_char ds /\ Forall (digit 10) ds /\ dval 10 ds = x /\ ds <> [] /\
    (head ds = Some 0 -> ds = [0]).

Lemma ToString_decimal a x :
  represents a x -> x < 10 ^ 1500 -> returns (ToString a) (decimal x).
Proof.
  intros Ha Hx. unfold ToString. pose proof (represents_length a x Ha).
  destruct (Nat.eqb_spec (length (m_value a)) 0); [lia|].
  destruct (print_loop_spec a x (Z.to_nat (m_MSB a)) (repeat 0 m_numDigitInPrintval) Ha) as (r & -> & Hr & Hl & E).
  - apply Forall_repeat. unfold digit. lia.
  - done.
  - by rewrite repeat_length.
  - rewrite dval_repeat_0. pose proof (represents_nonneg a x Ha) as H0.
    rewrite (represents_msb a x Ha), Z2Nat.id by (by apply GetMSB_nonneg). symmetry.
    apply div_pow2_0; [done | lia].
  - simpl. rewrite repeat_length in Hl. assert (r <> []) as Hne by (by destruct r).
    destruct (skip_zeros_spec r Hr Hne) as (H1 & H2 & H3 & H4).
    exists (skip_zeros r). split_and!; [done | done | congruence | done |].
    intros Hh. specialize (H4 Hh). destruct (skip_zeros r) as [|z [|]]; simplify_eq/=. done.
Qed.

(** ** Reading *)

(** Halving a number written in digits, with a carry into the first one. *)
Fixpoint halve (x : Z) (ds : list Z) : list Z :=
  match ds with
  | [] => [x / 2]
  | d :: ds => x / 2 :: halve (x mod 2 * 10 + d) ds
  end.

Lemma halve_spec x ds :
  0 <= x < 20 -> Forall (digit 10) ds ->
  Forall (digit 10) (halve x ds) /\ length (halve x ds) = S (length ds) /\
  dval 10 (halve x ds) = dval 10 (x :: ds) / 2.
Proof.
  intros Hx Hd. revert x Hx. induction Hd as [|d ds Hd Hds IH]; intros x Hx; cbn [halve].
  { split_and!; [|done|].
    - constructor; [|done]. unfold digit. Z.div_mod_to_equations; lia.
    - cbn [dval length]. change (10 ^ Z.of_nat 0) with 1. by rewrite !Z.mul_1_r, !Z.add_0_r. }
  unfold digit in Hd. destruct (IH (x mod 2 * 10 + d)) as (H1 & H2 & H3); [Z.div_mod_to_equations; lia|].
  split_and!; [|cbn [length]; lia|].
  - constructor; [|done]. unfold digit. Z.div_mod_to_equations; lia.
  - cbn [dval length] in *. rewrite H2, H3. cbn [dval]. rewrite Nat2Z.inj_succ, Z.pow_succ_r by lia.
    set (T := 10 ^ Z.of_nat (length ds)). set (D := dval 10 ds). set (q := x / 2). set (r := x mod 2).
    replace (x * (10 * T) + (d * T + D)) with ((r * 10 + d) * T + D + (q * (10 * T)) * 2).
    2:{ pose proof (Z.div_mod x 2 ltac:(lia)) as E. fold q r in E. rewrite E at 1. ring. }
    rewrite Z.div_add by lia. lia.
Qed.

Lemma for_n_halve pre x ds :
  Forall (digit 10) ds -> 0 <= x < 20 ->
  exists l y, for_n (length ds) (length pre) (fun i d =>
    x ← vget d i;
    y ← vget d (S i);
    d ← vset d (S i) ((x mod 2 * 10 + y) mod 2 ^ 8);
    vset d i (Z.shiftr x 1)) (pre ++ x :: ds) = Ok (l ++ [y]) /\ l ++ [y / 2] = pre ++ halve x ds.
Proof.
  intros Hd. revert pre x. induction Hd as [|d ds Hd Hds IH]; intros pre x Hx; cbn [for_n length halve].
  { by exists pre, x. }
  assert (length (pre ++ x :: d :: ds) = length pre + S (S (length ds)))%nat as Hl
    by (by rewrite length_app).
  rewrite (vget_Some (pre ++ x :: d :: ds) (length pre) x)
    by (by rewrite lookup_app_r, Nat.sub_diag by lia). rewrite bind_Ok.
  rewrite (vget_Some (pre ++ x :: d :: ds) (S (length pre)) d).
  2:{ rewrite lookup_app_r by lia. by replace (S (length pre) - length pre)%nat with 1%nat by lia. }
  rewrite bind_Ok, vset_lt, bind_Ok by lia. rewrite vset_lt, bind_Ok by (rewrite length_insert; lia).
  unfold digit in Hd. assert (0 <= x mod 2 * 10 + d < 20) as Hn by (Z.div_mod_to_equations; lia).
  rewrite (Z.mod_small (x mod 2 * 10 + d)) by lia. rewrite insert_app_r_alt by lia.
  replace (S (length pre) - length pre)%nat with 1%nat by lia.
  rewrite insert_app_r_alt, Nat.sub_diag by lia. cbn [insert list_insert].
  rewrite Z.shiftr_div_pow2, Z.pow_1_r by lia.
  destruct (IH (pre ++ [x / 2]) (x mod 2 * 10 + d) Hn) as (l & y & E1 & E2).
  exists l, y. rewrite <- !app_assoc in *. rewrite length_app in E1. cbn [length] in E1.
  rewrite Nat.add_1_r in E1. done.
Qed.

Lemma halve_digits_spec pre x ds :
  Forall (digit 10) ds -> 0 <= x < 20 ->
  halve_digits (length pre) (length (pre ++ x :: ds)) (pre ++ x :: ds) = Ok (pre ++ halve x ds).
Proof.
  intros Hd Hx. unfold halve_digits, for_range. rewrite length_app. cbn [length].
  replace (length pre + S (length ds) - 1 - length pre)%nat with (length ds) by lia.
  destruct (for_n_halve pre x ds Hd Hx) as (l & y & -> & E). rewrite bind_Ok.
  destruct (halve_spec x ds Hx Hd) as (_ & Hlen & _). pose proof (f_equal length E) as El.
  rewrite !length_app, Hlen in El. simpl in El.
  replace (length pre + S (length ds) - 1)%nat with (length l) by lia.
  rewrite (vget_Some _ _ y) by (by rewrite lookup_app_r, Nat.sub_diag by lia).
  rewrite bind_Ok, vset_lt by (rewrite length_app; simpl; lia).
  rewrite insert_app_r_alt, Nat.sub_diag by lia. cbn [insert list_insert].
  rewrite Z.shiftr_div_pow2, Z.pow_1_r by lia. by rewrite E.
Qed.

Lemma UintInBinaryToDecimal_spec a :
  Forall (digit 2) a -> length a = 32%nat ->
  UintInBinaryToDecimal a = Ok (dval 2 a, repeat 0 32).
Proof.
  intros Ha Hl. unfold UintInBinaryToDecimal. change (Z.to_nat m_limbBitLength) with 32%nat.
  pose (I i := (dval 2 (drop i a), u32 (2 ^ (32 - Z.of_nat i)), take i a ++ repeat 0 (32 - i))).
  replace (0, 1, a) with (I 32%nat).
  2:{ unfold I. rewrite drop_ge, take_ge, app_nil_r by lia. done. }
  rewrite (for_down_exact I), bind_Ok; [unfold I; by rewrite drop_0, take_0|].
  intros i Hi. destruct (lookup_lt_is_Some_2 a i) as [x Hx]; [lia|].
  assert (digit 2 x) as Dx by (by eapply Forall_lookup_1). unfold digit in Dx.
  unfold I. rewrite (take_S_r a i x Hx), <- app_assoc. cbn [app].
  rewrite (vget_Some _ _ x), bind_Ok.
  2:{ rewrite lookup_app_r; rewrite length_take, Nat.min_l by lia; [by rewrite Nat.sub_diag | lia]. }
  rewrite vset_lt, bind_Ok.
  2:{ rewrite length_app, length_take. cbn [length]. rewrite repeat_length. lia. }
  rewrite insert_app_r_alt by (rewrite length_take; lia).
  rewrite length_take, Nat.min_l, Nat.sub_diag by lia. cbn [insert list_insert].
  rewrite (drop_S a x i Hx). cbn [dval]. rewrite length_drop, Hl.
  replace (32 - i)%nat with (S (32 - S i)) by lia. cbn [repeat]. do 2 f_equal.
  set (k := (32 - S i)%nat). assert (32 - Z.of_nat (S i) = Z.of_nat k) as -> by lia.
  replace (32 - Z.of_nat i) with (Z.of_nat k + 1) by lia.
  assert (0 < 2 ^ Z.of_nat k) by (apply pow2_pos; lia).
  assert (2 ^ Z.of_nat k <= 2 ^ 31) by (apply Z.pow_le_mono_r; lia).
  pose proof (dval_bound 2 (drop (S i) a) ltac:(lia) (Forall_drop _ _ _ Ha)) as Hb.
  rewrite length_drop, Hl in Hb. fold k in Hb.
  rewrite (u32_small (2 ^ Z.of_nat k)) by lia. f_equal.
  - rewrite (u32_small (2 ^ Z.of_nat k * x)) by nia. rewrite u32_small by nia. ring.
  - rewrite Z.shiftl_mul_pow2, Z.pow_add_r by lia. done.
Qed.

(** ** The conversion loop of [AssignVal] *)

Section Assign.
Context (V : Z) (n : nat) (Hn : (1 <= n)%nat).

(** [p] are the bits already moved to the register, [ds] the digits that are
    left. *)
Record assign_inv (st : assign_state) (p ds : list Z) : Prop := {
  ai_digits : DecValue st = repeat 0 (zptr st) ++ ds;
  ai_forall : Forall (digit 10) ds;
  ai_length : (zptr st + length ds = n)%nat;
  ai_bits : bitArr st = repeat 0 (S (cnt st)) ++ p;
  ai_p : Forall (digit 2) p;
  ai_cnt : (cnt st + length p = 31)%nat;
  ai_limbs : Forall limb (limbs st)
}.

(** The number that was read. *)
Definition assign_value (L p ds : list Z) : Z :=
  lval L + bpow (length L) * (dval 2 p + 2 ^ Z.of_nat (length p) * dval 10 ds).

Lemma dval_parity ds d es : ds ++ [d] = es -> dval 10 es mod 2 = d mod 2.
Proof.
  intros <-. rewrite dval_app by lia. cbn [dval length]. change (10 ^ Z.of_nat 1) with 10.
  change (10 ^ Z.of_nat 0) with 1. rewrite Z.mul_1_r, Z.add_0_r.
  replace (dval 10 ds * 10 + d) with (d + (dval 10 ds * 5) * 2) by ring. by rewrite Z.mod_add by lia.
Qed.

(** The last digit gives the lowest bit. *)
Lemma assign_last st p ds :
  assign_inv st p ds -> ds <> [] ->
  exists dl, vget (DecValue st) (n - 1) = Ok dl /\ dval 10 ds mod 2 = dl mod 2.
Proof.
  intros [Ed Hd Hl _ _ _ _] Hne. destruct (exists_last Hne) as (ds1 & dl & El). exists dl.
  split; [|by eapply dval_parity]. apply vget_Some.
  rewrite Ed, El, app_assoc, lookup_app_r; rewrite length_app, repeat_length;
    apply (f_equal length) in El; rewrite length_app in El; cbn [length] in El; [|lia].
  by replace (n - 1 - (zptr st + length ds1))%nat with 0%nat by lia.
Qed.

(** The bit enters the register; a full register becomes a limb. *)
Lemma assign_register c p b L ds h :
  (c + length p = 31)%nat -> Forall (digit 2) p -> digit 2 b -> Forall limb L ->
  assign_value L p ds = V -> dval 10 ds = 2 * dval 10 h + b ->
  returns (if (c =? 0)%nat then
      '(w, bits) ← UintInBinaryToDecimal (repeat 0 c ++ b :: p);
      Ok (Z.to_nat (m_limbBitLength - 1), bits, L ++ [w])
    else Ok ((c - 1)%nat, repeat 0 c ++ b :: p, L)) (fun '(c', bits, L') =>
    exists p', bits = repeat 0 (S c') ++ p' /\ Forall (digit 2) p' /\ (c' + length p' = 31)%nat /\
      Forall limb L' /\ assign_value L' p' h = V).
Proof.
  intros Hc Hp Hb HL HV Edm. unfold assign_value in *.
  assert (Forall (digit 2) (b :: p)) as Hbp by (by constructor).
  destruct (Nat.eqb_spec c 0) as [->|E0].
  - cbn [repeat app]. rewrite UintInBinaryToDecimal_spec, bind_Ok; [|done|simpl; lia].
    cbn [returns]. exists []. change (Z.to_nat (m_limbBitLength - 1)) with 31%nat.
    assert (0 <= dval 2 (b :: p) < 2 ^ 32) as Hbv.
    { replace 32 with (Z.of_nat (length (b :: p))) by (simpl; lia). by apply dval_bound. }
    split_and!; [done | by apply Forall_nil | done | by apply Forall_snoc |].
    rewrite lval_snoc, length_app. cbn [dval length] in *. rewrite bpow_add. change (bpow 1) with (2 ^ 32).
    change (2 ^ Z.of_nat 0) with 1. rewrite <- HV, Edm. replace (length p) with 31%nat by lia.
    change (2 ^ 32) with (2 * 2 ^ Z.of_nat 31). ring.
  - cbn [returns]. exists (b :: p). replace (S (c - 1)) with c by lia.
    split_and!; [done | done | simpl; lia | done |].
    cbn [dval length]. rewrite <- HV, Edm, Nat2Z.inj_succ, Z.pow_succ_r by lia. ring.
Qed.

(** The number of turns left decreases. *)
Lemma halving_measure x h b :
  0 <= b < 2 -> x = 2 * h + b -> 0 <= h -> GetMSB h <= GetMSB x /\ (0 < h -> GetMSB h < GetMSB x).
Proof.
  intros Hb E Hh. split; [apply GetMSB_mono; lia|]. intros Hp.
  replace (GetMSB x) with (GetMSB (b + 2 ^ 1 * h)) by (f_equal; lia). rewrite GetMSB_high by lia. lia.
Qed.

(** The end of a turn: a leading zero moves [zptr], and the register is stored
    when no digit is left. *)
Lemma assign_advance z c p L h :
  (z + length h = n)%nat -> h <> [] -> Forall (digit 10) h -> Forall (digit 2) p ->
  (c + length p = 31)%nat -> Forall limb L -> assign_value L p h = V ->
  returns (
    y ← vget (repeat 0 z ++ h) z;
    let z' := if y =? 0 then S z else z in
    l ← vget (repeat 0 z ++ h) (n - 1);
    if (z' =? n)%nat && (l =? 0) then
      '(w, bits) ← UintInBinaryToDecimal (repeat 0 (S c) ++ p);
      Ok (mk_assign (repeat 0 z ++ h) z' bits c (L ++ [w]))
    else Ok (mk_assign (repeat 0 z ++ h) z' (repeat 0 (S c) ++ p) c L)) (fun st' =>
    (exists ds', assign_inv st' p ds' /\ ds' <> [] /\ assign_value (limbs st') p ds' = V /\
       dval 10 ds' = dval 10 h /\ ((length ds' < length h)%nat \/ ds' = h /\ 0 < dval 10 h)) \/
    (zptr st' = n /\ Forall limb (limbs st') /\ limbs st' <> [] /\ lval (limbs st') = V)).
Proof.
  intros Hz Hne Hh Hp Hc HL HV. destruct h as [|h0 hs] eqn:Eh; [done|]. rewrite <- Eh in *.
  rewrite (vget_Some (repeat 0 z ++ h) z h0), bind_Ok.
  2:{ rewrite Eh, lookup_app_r; rewrite repeat_length; [by rewrite Nat.sub_diag | lia]. }
  destruct (lookup_lt_is_Some_2 (repeat 0 z ++ h) (n - 1)) as [l Hl'];
    [rewrite length_app, repeat_length; lia|]. rewrite (vget_Some _ _ l Hl'), bind_Ok.
  pose proof Hh as Hh'. rewrite Eh in Hh'. apply Forall_cons in Hh' as [D0 Ds].
  assert (length h = S (length hs)) as Hlen by (by rewrite Eh).
  destruct (Z.eqb_spec h0 0) as [Eh0|Eh0].
  - assert (dval 10 hs = dval 10 h) as Ehv by (rewrite Eh, Eh0; cbn [dval]; lia).
    destruct (Nat.eqb_spec (S z) n) as [En|En].
    + assert (hs = []) as Ehs by (destruct hs; [done | simpl in *; lia]).
      assert (l = 0) as ->.
      { rewrite Eh, Ehs, Eh0, lookup_app_r in Hl'; rewrite repeat_length in *; [|lia].
        replace (n - 1 - z)%nat with 0%nat in Hl' by lia. simpl in Hl'. congruence. }
      cbn [Z.eqb andb]. rewrite UintInBinaryToDecimal_spec, bind_Ok; [| |rewrite length_app, repeat_length; lia].
      2:{ apply Forall_app. split; [apply Forall_repeat; unfold digit; lia | done]. }
      cbn [returns limbs]. right.
      assert (dval 2 (repeat 0 (S c) ++ p) = dval 2 p) as -> by (rewrite dval_app, dval_repeat_0; lia).
      pose proof (dval_bound 2 p ltac:(lia) Hp) as Hpb.
      pose proof (Z.pow_le_mono_r 2 (Z.of_nat (length p)) 32 ltac:(lia) ltac:(lia)).
      split_and!; [done | apply Forall_snoc; [done | blia] | by destruct L |].
      rewrite lval_snoc, <- HV. unfold assign_value. rewrite <- Ehv, Ehs. cbn [dval]. lia.
    + cbn [andb returns]. left. exists hs.
      assert (hs <> []) as Hhs by (intros ->; simpl in *; lia).
      split_and!; [|done| unfold assign_value in *; cbn [limbs]; by rewrite Ehv | done | left; lia].
      constructor; simpl; [|done | lia | done..]. rewrite Eh, Eh0, app_comm_cons, repeat_cons, <- app_assoc. done.
  - replace ((z =? n)%nat && (l =? 0)) with false by (symmetry; apply andb_false_intro1, Nat.eqb_neq; lia).
    cbn [returns]. left. exists h. split_and!; [by constructor | done | done | done | right; split; [done|]].
    rewrite Eh. cbn [dval]. unfold digit in D0. pose proof (dval_bound 10 hs ltac:(lia) Ds).
    pose proof (Z.pow_pos_nonneg 10 (Z.of_nat (length hs))). nia.
Qed.

(** One turn on a number with digits left: the lowest bit moves to the register. *)
Lemma assign_step_spec st p ds :
  assign_inv st p ds -> ds <> [] -> assign_value (limbs st) p ds = V ->
  returns (assign_step n st) (fun st' =>
    (exists p' ds', assign_inv st' p' ds' /\ ds' <> [] /\ assign_value (limbs st') p' ds' = V /\
       GetMSB (dval 10 ds') + Z.of_nat (length ds') < GetMSB (dval 10 ds) + Z.of_nat (length ds)) \/
    (zptr st' = n /\ Forall limb (limbs st') /\ limbs st' <> [] /\ lval (limbs st') = V)).
Proof.
  intros Hi Hne HV. unfold assign_step. destruct (assign_last st p ds Hi Hne) as (dl & -> & Epar).
  destruct Hi as [Ed Hd Hl Eb Hp Hc HL]. rewrite bind_Ok.
  pose proof (Z.mod_pos_bound dl 2 ltac:(lia)) as Hb. set (b := dl mod 2) in *.
  assert (vset (bitArr st) (cnt st) b = Ok (repeat 0 (cnt st) ++ b :: p)) as ->.
  { rewrite Eb, vset_lt by (rewrite length_app, repeat_length; lia). f_equal.
    rewrite <- Nat.add_1_r, repeat_app, <- app_assoc. rewrite insert_app_r_alt by (rewrite repeat_length; lia).
    by rewrite repeat_length, Nat.sub_diag. }
  rewrite bind_Ok. destruct ds as [|d0 ds0] eqn:Eds; [done|]. apply Forall_cons in Hd as [Hd0 Hds0].
  assert (0 <= d0 < 20) as Hd20 by (unfold digit in Hd0; lia).
  assert (length (DecValue st) = n) as HDn by (rewrite Ed, length_app, repeat_length; simpl in *; lia).
  pose proof (halve_digits_spec (repeat 0 (zptr st)) d0 ds0 Hds0 Hd20) as Eh.
  rewrite <- Ed, HDn, repeat_length in Eh. rewrite Eh, bind_Ok.
  destruct (halve_spec d0 ds0 Hd20 Hds0) as (Hh & Hhl & Hhv). set (h := halve d0 ds0) in *.
  pose proof (Z.div_mod (dval 10 (d0 :: ds0)) 2 ltac:(lia)) as Edm. rewrite Epar, <- Hhv in Edm.
  pose proof (dval_bound 10 h ltac:(lia) Hh) as [Hh0 _].
  eapply returns_bind; [by apply (assign_register _ p b (limbs st) (d0 :: ds0) h)|].
  intros [[c bits] L] (p' & -> & Hp' & Hc' & HL' & HV'). cbv beta iota.
  eapply returns_mono; [apply (assign_advance (zptr st) c p' L h); try done|].
  - simpl in *. lia.
  - intros E. rewrite E in Hhl. done.
  - destruct (halving_measure _ _ _ Hb Edm Hh0) as [M1 M2].
    intros st' [(ds' & Hi' & Hne' & HV2 & Ev & Hlt)|]; [left | by right].
    exists p', ds'. split_and!; [done..|]. rewrite Ev. simpl length in *.
    destruct Hlt as [|[-> Hpos]]; [lia|]. specialize (M2 ltac:(lia)). lia.
Qed.
End Assign.

Lemma assign_loop_spec V n fuel st p ds :
  (1 <= n)%nat -> assign_inv n st p ds -> ds <> [] -> assign_value (limbs st) p ds = V ->
  GetMSB (dval 10 ds) + Z.of_nat (length ds) <= Z.of_nat fuel ->
  returns (assign_loop fuel n st) (fun L => Forall limb L /\ L <> [] /\ lval L = V).
Proof.
  intros Hn. revert st p ds. induction fuel as [|fuel IH]; intros st p ds Hi Hne HV Hf.
  { pose proof (dval_bound 10 ds ltac:(lia) (ai_forall _ _ _ _ Hi)).
    pose proof (GetMSB_nonneg (dval 10 ds)). destruct ds; [done | simpl length in Hf; lia]. }
  cbn [assign_loop].
  assert (zptr st <> n) as Hz by (pose proof (ai_length _ _ _ _ Hi); destruct ds; [done | simpl in *; lia]).
  rewrite (proj2 (Nat.eqb_neq _ _) Hz).
  eapply returns_bind; [by apply (assign_step_spec V n Hn st p ds)|].
  intros st' [(p' & ds' & Hi' & Hne' & HV' & Hlt)|(Ez & HL & HLne & EL)].
  - apply (IH st' p' ds'); [done.. | lia].
  - destruct fuel; cbn [assign_loop]; by rewrite (proj2 (Nat.eqb_eq _ _) Ez).
Qed.

Lemma stoi1_digit d : digit 10 d -> stoi1 (digit_char d) = Ok d.
Proof.
  intros Hd. unfold digit in Hd.
  assert (d = 0 \/ d = 1 \/ d = 2 \/ d = 3 \/ d = 4 \/ d = 5 \/ d = 6 \/ d = 7 \/ d = 8 \/ d = 9) as H by lia.
  naive_solver.
Qed.

Lemma digit_char_eqb d :
  digit 10 d -> Ascii.eqb (digit_char d) " " = false /\ Ascii.eqb (digit_char d) "0" = (d =? 0).
Proof.
  intros Hd. unfold digit in Hd.
  assert (d = 0 \/ d = 1 \/ d = 2 \/ d = 3 \/ d = 4 \/ d = 5 \/ d = 6 \/ d = 7 \/ d = 8 \/ d = 9) as H by lia.
  naive_solver.
Qed.

(** Stripping the leading zeros and spaces of a string of digits. *)
Lemma strip_digits ds :
  Forall (digit 10) ds ->
  exists ds', zero_if_empty (strip " " (strip "0" (map digit_char ds))) = map digit_char ds' /\
    Forall (digit 10) ds' /\ ds' <> [] /\ dval 10 ds' = dval 10 ds.
Proof.
  induction 1 as [|d ds Hd Hds IH].
  { exists [0]. split_and!; [done | by repeat constructor | done | done]. }
  destruct (digit_char_eqb d Hd) as [E1 E2]. cbn [map strip]. rewrite E2.
  destruct (Z.eqb_spec d 0) as [->|Hd0].
  - destruct IH as (ds' & H1 & H2 & H3 & H4). exists ds'. split_and!; [done | done | done |].
    rewrite H4. cbn [dval]. lia.
  - cbn [strip]. rewrite E1. exists (d :: ds). split_and!; [done | by constructor | done | done].
Qed.

(** Reading a string of digits. *)
Lemma AssignVal_digits ds :
  Forall (digit 10) ds -> fits (dval 10 ds) ->
  returns (AssignVal (map digit_char ds)) (fun r => represents r (dval 10 ds)).
Proof.
  intros Hds Hf. unfold AssignVal. destruct (strip_digits ds Hds) as (ds' & -> & Hd & Hne & Ev).
  rewrite <- Ev in *. rewrite length_map.
  assert (vmapM stoi1 (map digit_char ds') = Ok ds') as ->.
  { clear -Hd. induction Hd as [|d ds Hd Hds IH]; [done|]. cbn [map vmapM].
    by rewrite (stoi1_digit d Hd), bind_Ok, IH, bind_Ok. }
  rewrite bind_Ok. assert (1 <= length ds')%nat by (destruct ds'; [done | simpl; lia]).
  eapply returns_bind; [apply (assign_loop_spec (dval 10 ds') (length ds') _ _ [] ds'); [done | | done | |]|].
  - constructor; simpl; [done | done | done | done | by apply Forall_nil | done | by apply Forall_nil].
  - unfold assign_value. cbn [limbs lval length dval]. rewrite bpow_0. change (2 ^ Z.of_nat 0) with 1. lia.
  - pose proof (dval_bound 10 ds' ltac:(lia) Hd) as Hb.
    assert (GetMSB (dval 10 ds') <= 4 * Z.of_nat (length ds')); [|lia].
    apply GetMSB_le; [lia | lia |]. rewrite Z.pow_mul_r by lia.
    pose proof (Z.pow_le_mono_l 10 (2 ^ 4) (Z.of_nat (length ds'))). lia.
  - intros L (HL & HLne & E). rewrite <- E in *. by apply normalize_represents.
Qed.

Lemma stoi1_cases c : (exists d, stoi1 c = Ok d) \/ stoi1 c = Throw std_exception.
Proof.
  unfold stoi1. set (d := Z.of_N (N_of_ascii c) - 48).
  destruct ((0 <=? d) && (d <=? 9)); [left; by exists d | by right].
Qed.

(** A character that is not a digit makes [stoi] throw. *)
Lemma AssignVal_throws s c :
  In c (strip " " (strip "0" s)) -> stoi1 c = Throw std_exception -> AssignVal s = Throw std_exception.
Proof.
  intros Hin Hc. unfold AssignVal. set (v := strip " " (strip "0" s)) in *. clearbody v.
  assert (zero_if_empty v = v) as -> by (destruct v; [destruct Hin | done]).
  assert (vmapM stoi1 v = Throw std_exception) as ->; [|done].
  induction v as [|x v IH]; [destruct Hin|]. cbn [vmapM]. destruct Hin as [->|Hin]; [by rewrite Hc|].
  destruct (stoi1_cases x) as [[d ->]| ->]; [by rewrite bind_Ok, IH | done].
Qed.

(** What [ToString] prints, [AssignVal] reads back. *)
Lemma AssignVal_ToString_eq a x :
  represents a x -> x < 10 ^ 1500 -> (s ← ToString a; AssignVal s) = Ok a.
Proof.
  intros Ha Hx. pose proof (ToString_decimal a x Ha Hx) as H.
  apply returns_Ok in H as (s & -> & ds & -> & Hd & E & _). rewrite bind_Ok.
  pose proof (represents_fits a x Ha) as Hf. rewrite <- E in Hf.
  pose proof (AssignVal_digits ds Hd Hf) as H. apply returns_Ok in H as (r & -> & Hr).
  rewrite E in Hr. by rewrite (represents_unique r a x Hr Ha).
Qed.

(** ** Binary strings *)

(** The binary digits of a string. *)
Definition bits_of (s : list ascii) : list Z := map (fun c => Z.of_N (N_of_ascii c) - 48) s.
Definition is_bit (c : ascii) : Prop := c = "0"%char \/ c = "1"%char.

Lemma stoi1_bit c : is_bit c -> stoi1 c = Ok (Z.of_N (N_of_ascii c) - 48) /\ digit 2 (Z.of_N (N_of_ascii c) - 48).
Proof. by intros [->| ->]. Qed.

Lemma bits_of_digits s : Forall is_bit s -> Forall (digit 2) (bits_of s).
Proof. induction 1 as [|c s Hc _ IH]; [by apply Forall_nil|]. constructor; [apply (stoi1_bit c Hc) | done]. Qed.

Lemma partial_loop_spec s acc :
  Forall is_bit s -> 0 <= acc -> acc * 2 ^ Z.of_nat (length s) + 2 * dval 2 (bits_of s) < 2 ^ 64 ->
  partial_loop s acc = Ok (acc * 2 ^ Z.of_nat (length s) + 2 * dval 2 (bits_of s)).
Proof.
  intros Hs. revert acc. induction Hs as [|c s Hc Hs IH]; intros acc Ha Hb; cbn [partial_loop].
  { cbn [bits_of map dval length] in *. f_equal. change (2 ^ Z.of_nat 0) with 1. lia. }
  destruct (stoi1_bit c Hc) as [-> Hd]. rewrite bind_Ok. cbn [bits_of map dval length] in *.
  fold (bits_of s) in *. unfold digit in Hd. set (d := Z.of_N (N_of_ascii c) - 48) in *.
  rewrite Nat2Z.inj_succ, Z.pow_succ_r in * by lia.
  assert (length (bits_of s) = length s) as El by apply length_map. rewrite El in *.
  pose proof (dval_bound 2 (bits_of s) ltac:(lia) (bits_of_digits s Hs)).
  pose proof (pow2_pos (Z.of_nat (length s)) ltac:(lia)).
  rewrite Z.shiftl_mul_pow2, Z.pow_1_r by lia.
  assert (0 <= (acc + d) * 2 < 2 ^ 64) by nia.
  rewrite (u64_small (acc + d)), u64_small by lia. rewrite IH; [f_equal; ring | lia | nia].
Qed.

(** One limb of a binary string. *)
Lemma partial_limb s :
  Forall is_bit s -> (length s <= 32)%nat ->
  (p ← partial_loop s 0; Ok (u32 (Z.shiftr p 1))) = Ok (dval 2 (bits_of s)) /\ limb (dval 2 (bits_of s)).
Proof.
  intros Hs Hl. pose proof (dval_bound 2 (bits_of s) ltac:(lia) (bits_of_digits s Hs)) as Hb.
  unfold bits_of in Hb at 3. rewrite length_map in Hb.
  pose proof (Z.pow_le_mono_r 2 (Z.of_nat (length s)) 32 ltac:(lia) ltac:(lia)) as Hp.
  rewrite partial_loop_spec, bind_Ok by (done || lia).
  rewrite Z.shiftr_div_pow2, Z.pow_1_r, Z.mul_0_l, Z.add_0_l, (Z.mul_comm 2), Z.div_mul by lia.
  rewrite u32_small by lia. split; [done|]. blia.
Qed.

Section Binary.
(** A binary string without leading zeros, and the number of its full limbs. *)
Context (t : list ascii) (Hbits : Forall is_bit ("1"%char :: t)).
Definition binary_string : list ascii := "1"%char :: t.
Local Abbreviation s := binary_string.
Definition full_limbs : nat := ((length s - 1) / 32)%nat.

Lemma full_limbs_bounds : (32 * full_limbs < length s <= 32 * full_limbs + 32)%nat.
Proof.
  unfold full_limbs, binary_string. cbn [length].
  pose proof (Nat.div_mod (S (length t) - 1) 32 ltac:(lia)). pose proof (Nat.mod_upper_bound (S (length t) - 1) 32).
  lia.
Qed.

Lemma limbs_for_string : limbs_for (Z.of_nat (length s)) = S full_limbs.
Proof.
  pose proof full_limbs_bounds. unfold limbs_for. rewrite ceilIntByUInt_spec by lia.
  assert ((Z.of_nat (length s) + 31) / 32 = Z.of_nat full_limbs + 1) as ->; [|lia].
  Z.div_mod_to_equations; lia.
Qed.

Lemma bits_of_app a b :
  dval 2 (bits_of (a ++ b)) = dval 2 (bits_of a) * 2 ^ Z.of_nat (length b) + dval 2 (bits_of b).
Proof. unfold bits_of. rewrite map_app, dval_app, length_map by lia. done. Qed.

(** The loop on the limbs below the top one. *)
Lemma binary_loop :
  returns (for_range 0 full_limbs (fun i l =>
        p ← partial_loop (limb_chars s i) 0;
        Ok (l ++ [u32 (Z.shiftr p 1)])) []) (fun l =>
    length l = full_limbs /\ Forall limb l /\
    lval l = dval 2 (bits_of (drop (length s - 32 * full_limbs) s))).
Proof.
  pose proof full_limbs_bounds as Hfb.
  apply (for_range_inv (fun i l => length l = i /\ Forall limb l /\
    lval l = dval 2 (bits_of (drop (length s - 32 * i) s)))); [lia| |].
  { rewrite drop_ge by lia. split_and!; [done | by apply Forall_nil | done]. }
  intros i l Hi (Hl & Hf & E). set (ch := take 32 (drop (length s - 32 * S i) s)).
  assert (limb_chars s i = ch) as ->.
  { unfold limb_chars. change (Z.to_nat m_limbBitLength) with 32%nat.
    rewrite (proj2 (Nat.ltb_lt _ _)) by lia. unfold ch. do 2 f_equal. lia. }
  assert (Forall is_bit ch) as Hch by (by apply Forall_take, Forall_drop).
  assert (length ch = 32%nat) as Hlch by (unfold ch; rewrite length_take, length_drop; lia).
  destruct (partial_limb ch Hch ltac:(lia)) as [Ep Lp].
  destruct (partial_loop ch 0) as [p| | |]; try discriminate Ep. rewrite bind_Ok in *. injection Ep as Ep. rewrite Ep.
  cbn [returns]. rewrite length_app, lval_snoc, Hl, E.
  split_and!; [simpl; lia | by apply Forall_snoc |].
  assert (drop (length s - 32 * S i) s = ch ++ drop (length s - 32 * i) s) as Esp.
  { unfold ch. rewrite <- (take_drop 32 (drop (length s - 32 * S i) s)) at 1. f_equal.
    rewrite drop_drop. f_equal. lia. }
  rewrite Esp, bits_of_app, length_drop.
  replace (length s - (length s - 32 * i))%nat with (32 * i)%nat by lia.
  unfold bpow. rewrite Nat2Z.inj_mul. change (Z.of_nat 32) with 32. ring.
Qed.

Lemma FromBinaryString_value :
  Z.of_nat (length s) <= 32 * max_limbs ->
  returns (FromBinaryString s) (fun r => wfu r /\ length (m_value r) = S full_limbs /\
    value r = dval 2 (bits_of (if (length s mod 32 =? 0)%nat then drop 32 s else s))).
Proof.
  intros Hsz. unfold FromBinaryString. change (zero_if_empty (strip "0" (strip " " s))) with s.
  rewrite limbs_for_string. pose proof full_limbs_bounds as Hfb.
  unfold for_range. rewrite Nat.sub_0_r.
  pose proof binary_loop as HL. unfold for_range in HL. rewrite Nat.sub_0_r in HL.
  set (ch := take (length s mod 32) s).
  assert (limb_chars s full_limbs = ch) as Elc.
  { unfold limb_chars. change (Z.to_nat m_limbBitLength) with 32%nat. by rewrite (proj2 (Nat.ltb_ge _ _)) by lia. }
  assert (length s mod 32 < 32)%nat as Hmod by (apply Nat.mod_upper_bound; lia).
  destruct (partial_limb ch (Forall_take _ _ _ Hbits)) as [Ep Lp]; [unfold ch; rewrite length_take; lia|].
  destruct (partial_loop ch 0) as [p| | |] eqn:Epl; try discriminate Ep. rewrite bind_Ok in Ep. injection Ep as Ep.
  apply (returns_bind _ _ (fun l => length l = S full_limbs /\ Forall limb l /\
    lval l = dval 2 (bits_of (if (length s mod 32 =? 0)%nat then drop 32 s else s)))).
  - eapply for_n_snoc; [exact HL|]. intros l (Hl & Hf & E). cbn [Nat.add]. rewrite Elc, Epl, bind_Ok, Ep.
    cbn [returns]. rewrite length_app, lval_snoc, Hl, E. split_and!; [simpl; lia | by apply Forall_snoc |].
    pose proof (Nat.div_mod (length s) 32 ltac:(lia)) as Edm. unfold bpow.
    destruct (Nat.eqb_spec (length s mod 32) 0) as [E0|E0].
    + assert (ch = []) as -> by (unfold ch; by rewrite E0, take_0).
      replace (length s - 32 * full_limbs)%nat with 32%nat by lia. change (dval 2 (bits_of [])) with 0. lia.
    + replace (length s - 32 * full_limbs)%nat with (length s mod 32)%nat by lia.
      rewrite <- (take_drop (length s mod 32) s) at 3. rewrite bits_of_app, length_drop. fold ch.
      replace (Z.of_nat (length s - length s mod 32)) with (32 * Z.of_nat full_limbs) by lia. ring.
  - intros l (Hl & Hf & E). eapply returns_mono; [apply SetMSB_wfu; [done | intros ->; simpl in *; lia | lia]|].
    intros r [Hw <-]. done.
Qed.

(** A string whose length is no multiple of 32 is read exactly. *)
Lemma FromBinaryString_represents :
  Z.of_nat (length s) <= 32 * max_limbs -> (length s mod 32 <> 0)%nat ->
  returns (FromBinaryString s) (fun r => represents r (dval 2 (bits_of s))).
Proof.
  intros Hsz H32. eapply returns_mono; [by apply FromBinaryString_value|].
  intros r (Hw & Hl & E). rewrite (proj2 (Nat.eqb_neq _ _)) in E by done.
  split; [split; [done|]|done]. pose proof full_limbs_bounds. apply normal_bound; [apply Hw | |].
  - intros En. rewrite En in Hl. simpl in Hl. lia.
  - right. fold (value r). rewrite E, Hl. simpl length. replace (S full_limbs - 1)%nat with full_limbs by lia.
    unfold bpow, binary_string. cbn [bits_of map dval]. fold (bits_of t).
    pose proof Hbits as [_ Ht]%Forall_cons.
    pose proof (dval_bound 2 (bits_of t) ltac:(lia) (bits_of_digits t Ht)).
    assert (length (bits_of t) = length t) as -> by apply length_map.
    change (Z.of_N (N_of_ascii "1") - 48) with 1.
    pose proof (Z.pow_le_mono_r 2 (32 * Z.of_nat full_limbs) (Z.of_nat (length t))).
    unfold binary_string in *. simpl length in *. lia.
Qed.
End Binary.
