(* ===== verification/Integer.v ===== *)
(** * The integer interface and a generic client

    core/include/math/hal/integer.h declares, as the template
    [BigIntegerInterface<T>], the operations every integer class of the library
    has; the number theory of core/lib/math/nbtheory.cpp is written against it.
    Here the interface is a class of operations, what an implementation promises
    is a second class of laws over the integers it represents, and the template
    [GreatestCommonDivisor] is proved against the laws alone. The native integers
    and the dynamic multiprecision integers are the two instances. *)
From stdpp Require Import base numbers list.
From Stdlib Require Import ZArith Lia.
From S2P Require Import Prelude Bits NativeInt NativeIntProps BigInt BigDiv BigIntProps BigShiftProps BigModProps.
Open Scope Z_scope.

(** ** The operations *)

Class BigIntegerInterface (T : Type) := {
  of_uint64 : Z -> T;
  iAdd : T -> T -> outcome T;
  iSub : T -> T -> outcome T;
  iMul : T -> T -> outcome T;
  iDividedBy : T -> T -> outcome T;
  iMod : T -> T -> outcome T;
  iModAdd : T -> T -> T -> outcome T;
  iModSub : T -> T -> T -> outcome T;
  iLShift : T -> Z -> outcome T;
  iCompare : T -> T -> outcome Z
}.

(** The comparison operators the interface derives from [Compare]. *)
Definition int_eq {T} `{BigIntegerInterface T} (a b : T) : outcome bool :=
  c ← iCompare a b; Ok (c =? 0).
Definition int_ne {T} `{BigIntegerInterface T} (a b : T) : outcome bool :=
  c ← iCompare a b; Ok (negb (c =? 0)).
Definition int_lt {T} `{BigIntegerInterface T} (a b : T) : outcome bool :=
  c ← iCompare a b; Ok (c <? 0).

(** The template [GreatestCommonDivisor<IntType>]; [fuel] bounds the loop. *)
Fixpoint gcd_loop {T} `{BigIntegerInterface T} (fuel : nat) (m_a m_b : T) : outcome T :=
  match fuel with
  | O => OutOfFuel
  | S fuel =>
      ne ← int_ne m_b (of_uint64 0);
      if (ne : bool) then
        let m_t := m_b in
        m_b ← iMod m_a m_b;
        let m_a := m_t in
        gcd_loop fuel m_a m_b
      else Ok m_a
  end.

(** ** The laws

    [den a x]: the object [a] stands for the integer [x]; [range x]: the class
    can represent [x]. *)
Class IntegerLaws (T : Type) `{BigIntegerInterface T} (den : T -> Z -> Prop) (range : Z -> Prop) := {
  law_nonneg : forall a x, den a x -> 0 <= x;
  law_unique : forall a b x, den a x -> den b x -> a = b;
  law_uint64 : forall x, 0 <= x < 2 ^ 64 -> range x -> den (of_uint64 x) x;
  law_zero : range 0;
  law_compare : forall a b x y, den a x -> den b y -> iCompare a b = Ok (Z.sgn (x - y));
  law_add : forall a b x y, den a x -> den b y -> range (x + y) ->
    returns (iAdd a b) (fun r => den r (x + y));
  law_sub : forall a b x y, den a x -> den b y -> y <= x -> returns (iSub a b) (fun r => den r (x - y));
  law_mul : forall a b x y, den a x -> den b y -> range (x * y) ->
    returns (iMul a b) (fun r => den r (x * y));
  law_div : forall a b x y, den a x -> den b y -> 0 < y -> returns (iDividedBy a b) (fun r => den r (x / y));
  law_div_zero : forall a b x, den a x -> den b 0 -> iDividedBy a b = Throw math_error;
  law_mod : forall a b x y, den a x -> den b y -> 0 < y -> returns (iMod a b) (fun r => den r (x mod y));
  law_mod_add : forall a b m x y M, den a x -> den b y -> den m M -> 0 < M -> range (2 * M) ->
    returns (iModAdd a b m) (fun r => den r ((x + y) mod M));
  law_mod_sub : forall a b m x y M, den a x -> den b y -> den m M -> 0 < M -> range (2 * M) ->
    returns (iModSub a b m) (fun r => den r ((x - y) mod M));
  law_shl : forall a x s, den a x -> 0 <= s < 64 -> range (x * 2 ^ s) -> 0 < x ->
    returns (iLShift a s) (fun r => den r (x * 2 ^ s))
}.

(** ** The client, against the laws *)

Section Client.
Context {T : Type} {den : T -> Z -> Prop} {range : Z -> Prop}.
Context `{L : IntegerLaws T den range}.

Lemma law_0 : den (of_uint64 0) 0.
Proof. apply law_uint64; [lia | apply law_zero]. Qed.

Lemma int_eq_spec a b x y : den a x -> den b y -> int_eq a b = Ok (x =? y).
Proof.
  intros Ha Hb. unfold int_eq. rewrite (law_compare _ _ _ _ Ha Hb), bind_Ok. f_equal. bool_cases; lia.
Qed.

Lemma int_ne_spec a b x y : den a x -> den b y -> int_ne a b = Ok (negb (x =? y)).
Proof.
  intros Ha Hb. unfold int_ne. rewrite (law_compare _ _ _ _ Ha Hb), bind_Ok. do 2 f_equal. bool_cases; lia.
Qed.

Lemma int_lt_spec a b x y : den a x -> den b y -> int_lt a b = Ok (x <? y).
Proof.
  intros Ha Hb. unfold int_lt. rewrite (law_compare _ _ _ _ Ha Hb), bind_Ok. f_equal. bool_cases; lia.
Qed.

(** The product of the operands at least halves in every turn but the first. *)
Lemma gcd_loop_ordered fuel a b x y :
  den a x -> den b y -> y < x -> x * y < 2 ^ Z.of_nat fuel ->
  returns (gcd_loop (S fuel) a b) (fun r => den r (Z.gcd x y)).
Proof.
  revert a b x y. induction fuel as [|fuel IH]; intros a b x y Ha Hb Hlt Hf;
    pose proof (law_nonneg _ _ Hb) as H0; cbn [gcd_loop]; rewrite (int_ne_spec _ _ _ _ Hb law_0), bind_Ok;
    destruct (Z.eqb_spec y 0) as [->|Hy]; cbn [negb];
    try (simpl; by rewrite Z.gcd_0_r, Z.abs_eq by lia).
  { simpl in Hf. nia. }
  eapply returns_bind; [apply (law_mod a b x y); [done | done | lia]|]. intros r Hr.
  pose proof (Z.mod_pos_bound x y ltac:(lia)) as Hm. pose proof (Z.div_mod x y ltac:(lia)) as Ed.
  assert (1 <= x / y) by (apply Z.div_le_lower_bound; lia).
  rewrite Nat2Z.inj_succ, Z.pow_succ_r in Hf by lia.
  replace (Z.gcd x y) with (Z.gcd y (x mod y)); [apply IH; [done | done | lia | nia]|].
  rewrite Z.gcd_comm, Z.gcd_mod by lia. apply Z.gcd_comm.
Qed.

Lemma gcd_loop_spec fuel a b x y :
  den a x -> den b y -> x < 2 ^ Z.of_nat fuel -> y < 2 ^ Z.of_nat fuel ->
  returns (gcd_loop (2 * fuel + 2) a b) (fun r => den r (Z.gcd x y)).
Proof.
  intros Ha Hb Hx Hy. pose proof (law_nonneg _ _ Hb) as H0. pose proof (law_nonneg _ _ Ha) as H1.
  replace (2 * fuel + 2)%nat with (S (S (2 * fuel))) by lia.
  remember (S (2 * fuel)) as f1 eqn:Ef1. cbn [gcd_loop]. rewrite (int_ne_spec _ _ _ _ Hb law_0), bind_Ok.
  destruct (Z.eqb_spec y 0) as [->|Hne]; cbn [negb]; [simpl; by rewrite Z.gcd_0_r, Z.abs_eq by lia|].
  eapply returns_bind; [apply (law_mod a b x y); [done | done | lia]|]. intros r Hr.
  pose proof (Z.mod_pos_bound x y ltac:(lia)) as Hm.
  replace (Z.gcd x y) with (Z.gcd y (x mod y))
    by (rewrite (Z.gcd_comm y), Z.gcd_mod by lia; apply Z.gcd_comm).
  subst f1. apply gcd_loop_ordered; [done | done | lia |].
  replace (Z.of_nat (2 * fuel)) with (Z.of_nat fuel + Z.of_nat fuel) by lia.
  rewrite Z.pow_add_r by lia. nia.
Qed.
End Client.

(** ** The native integers implement the interface *)

Section Native.
Context `{W : NativeWidth}.

#[export] Instance native_interface : BigIntegerInterface Z := {
  of_uint64 := wrap;
  iAdd a b := Ok (NativeInt.Add a b);
  iSub a b := Ok (NativeInt.Sub a b);
  iMul a b := Ok (NativeInt.Mul a b);
  iDividedBy := NativeInt.DividedBy;
  iMod := NativeInt.Mod;
  iModAdd := NativeInt.ModAdd;
  iModSub := NativeInt.ModSub;
  iLShift := NativeInt.LShift;
  iCompare a b := Ok (NativeInt.Compare a b)
}.

Definition word_range (x : Z) : Prop := 0 <= x < 2 ^ wbits.
Definition word_den (a x : Z) : Prop := a = x /\ word_range x.

#[export] Instance native_laws : IntegerLaws Z word_den word_range.
Proof.
  pose proof word_pos as Hp. pose proof word_half as Hh. pose proof wbits_range as Hr.
  split; unfold word_den, word_range; intros; destruct_and?; subst; try lia.
  - unfold of_uint64, native_interface. rewrite wrap_small; lia.
  - simpl. unfold NativeInt.Compare. bool_cases; f_equal; lia.
  - simpl. unfold NativeInt.Add, AddFast. rewrite wrap_small; lia.
  - simpl. unfold NativeInt.Sub, SubFast. rewrite wrap_small; lia.
  - simpl. unfold NativeInt.Mul, MulFast. rewrite wrap_small; lia.
  - simpl. unfold NativeInt.DividedBy. rewrite (proj2 (Z.eqb_neq y 0)), udiv_pos by lia. simpl.
    split; [done|]. split; [apply Z.div_pos; lia|].
    eapply Z.le_lt_trans; [apply Z.div_le_upper_bound with (q := x); nia | lia].
  - simpl. done.
  - simpl. unfold NativeInt.Mod. rewrite umod_pos by lia. simpl. pose proof (Z.mod_pos_bound x y). lia.
  - simpl. rewrite ModAdd_correct by lia. simpl. pose proof (Z.mod_pos_bound (x + y) M). lia.
  - simpl. rewrite ModSub_correct by lia. simpl. pose proof (Z.mod_pos_bound (x - y) M). lia.
  - simpl. unfold NativeInt.LShift. assert (s < wbits) by (apply (Z.pow_lt_mono_r_iff 2); nia).
    rewrite ushl_ok by lia. simpl. rewrite wrap_small by lia. done.
Qed.
End Native.

(** ** The dynamic multiprecision integers implement the interface *)

#[export] Instance ubint_interface : BigIntegerInterface ubint := {
  of_uint64 := ubint_u64;
  iAdd := BigInt.Add;
  iSub := BigInt.Sub;
  iMul := BigInt.Mul;
  iDividedBy := BigDiv.DividedBy;
  iMod := BigDiv.Mod;
  iModAdd := BigDiv.ModAdd;
  iModSub := BigDiv.ModSub;
  iLShift := BigInt.LShift;
  iCompare := BigInt.Compare
}.

#[export] Instance ubint_laws : IntegerLaws ubint represents fits.
Proof.
  split; intros.
  - by eapply represents_nonneg.
  - by eapply represents_unique.
  - by apply ubint_u64_represents.
  - apply (represents_fits _ _ represents_0).
  - by apply Compare_spec.
  - by apply Add_represents.
  - eapply returns_mono; [by apply Sub_represents|]. intros r. by rewrite Z.max_r by lia.
  - by apply Mul_represents.
  - by apply DividedBy_represents.
  - by apply DividedBy_zero.
  - by apply Mod_represents.
  - by apply ModAdd_represents.
  - by apply ModSub_represents.
  - apply LShift_represents; [done | lia | done].
Qed.
