(* ===== verification/BigRefine.v ===== *)
(** * Dynamic multiprecision integers: the properties

    What the class [ubint] promises, over the numbers that fit a limb vector:
    [encode x] is the one well-formed object of the number [x], and every method
    maps encodings to the encoding of the mathematical result, throws where it
    documents an exception, or is undefined on the arguments named here. *)
From stdpp Require Import base numbers list.
From Stdlib Require Import ZArith Znumtheory Lia Ascii.
From S2P Require Import Prelude Bits NativeInt BigInt BigDiv BigIntProps BigShiftProps BigDivProps BigModProps BigArithProps BigStringProps Integer.
Import BigInt BigDiv.
Open Scope Z_scope.

(** ** The object of a number *)

Definition encode (x : Z) : ubint :=
  mk_ubint (push_limbs (limbs_for (GetMSB x)) x []) (GetMSB x) INITIALIZED.

Lemma encode_represents x : fits x -> represents (encode x) x.
Proof.
  intros Hf. destruct (Z.eq_dec x 0) as [->|Hx].
  { apply represents_0. }
  destruct (push_limbs_represents x ltac:(destruct Hf; lia) Hf) as (? & ? & ? & ?).
  by apply represents_limbs_intro.
Qed.

Lemma represents_encode a x : represents a x -> a = encode x.
Proof.
  intros H. eapply represents_unique; [exact H|]. apply encode_represents. by eapply represents_fits.
Qed.

Lemma wf_encode a : wf a -> a = encode (value a).
Proof. intros H. by apply represents_encode. Qed.

Lemma encode_Ok m x : returns m (fun r => represents r x) -> m = Ok (encode x).
Proof. intros (a & -> & H)%returns_Ok. f_equal. by apply represents_encode. Qed.

#[export] Hint Resolve encode_represents : fhe.

(** Computes that a concrete number fits. *)
Ltac fits := split; [lia | vm_compute; discriminate].
(** Moves a result about [represents] to an equation between encodings. *)
Ltac enc := apply encode_Ok.

(** ** Sums, differences, products and comparison *)

(** [C11] The limb-wise sum, difference, product and comparison of multiprecision
    integers, in place or not, return the object of the mathematical result whenever
    it fits: a difference below zero is zero, and the comparison is the sign of the
    difference. *)
Theorem ubint_arithmetic_refines x y :
  fits x -> fits y ->
  (fits (x + y) -> Add (encode x) (encode y) = Ok (encode (x + y)) /\
                   AddEq (encode x) (encode y) = Ok (encode (x + y))) /\
  (Sub (encode x) (encode y) = Ok (encode (Z.max 0 (x - y))) /\
   SubEq (encode x) (encode y) = Ok (encode (Z.max 0 (x - y)))) /\
  (fits (x * y) -> Mul (encode x) (encode y) = Ok (encode (x * y)) /\
                   MulEq (encode x) (encode y) = Ok (encode (x * y))) /\
  Compare (encode x) (encode y) = Ok (Z.sgn (x - y)).
Proof.
  intros Hx Hy. split_and!.
  - intros Hf. split; enc; [apply Add_represents | apply AddEq_represents]; auto with fhe.
  - enc. apply Sub_represents; auto with fhe.
  - enc. apply SubEq_represents; auto with fhe.
  - intros Hf. unfold MulEq. split; enc; apply Mul_represents; auto with fhe.
  - apply Compare_spec; auto with fhe.
Qed.

Lemma ubint_arithmetic_refines_witness :
  Mul (encode (2 ^ 96 - 1)) (encode (2 ^ 64 - 1)) = Ok (encode ((2 ^ 96 - 1) * (2 ^ 64 - 1))).
Proof. apply (ubint_arithmetic_refines (2 ^ 96 - 1) (2 ^ 64 - 1)); fits. Defined.

(** ** Division *)

(** [C10] Division of multiprecision integers by Knuth's algorithm D on 32-bit limbs
    returns the objects of the Euclidean quotient and remainder, in place or not,
    for every dividend and every positive divisor; a zero divisor makes Mod and the
    divisions throw math_error and ModEq throw not_available_error. *)
Theorem division_refines x y :
  fits x -> fits y ->
  (0 < y ->
     DividedBy (encode x) (encode y) = Ok (encode (x / y)) /\
     DividedByEq (encode x) (encode y) = Ok (encode (x / y)) /\
     Mod (encode x) (encode y) = Ok (encode (x mod y)) /\
     ModEq (encode x) (encode y) = Ok (encode (x mod y))) /\
  (y = 0 ->
     DividedBy (encode x) (encode y) = Throw math_error /\
     DividedByEq (encode x) (encode y) = Throw math_error /\
     Mod (encode x) (encode y) = Throw math_error /\
     ModEq (encode x) (encode y) = Throw not_available_error).
Proof.
  intros Hx Hy. pose proof (encode_represents x Hx) as Rx. pose proof (encode_represents y Hy) as Ry.
  unfold DividedByEq. split; intros H.
  - split_and!; enc; auto using DividedBy_represents, Mod_represents, ModEq_represents.
  - subst y. rewrite !DividedBy_zero by done. destruct (Mod_zero (encode x) (encode 0)) as [-> ->]; try done.
    apply Rx.
Qed.

Lemma division_refines_witness :
  Mod (encode (2 ^ 95)) (encode (2 ^ 64 - 1)) = Ok (encode (2 ^ 95 mod (2 ^ 64 - 1))).
Proof. apply (division_refines (2 ^ 95) (2 ^ 64 - 1)); [fits | fits | lia]. Defined.

(** Division with rounding returns the object of the quotient of x + (q - 1) / 2
    by q (a tie is rounded down), alone or after a product, and throws math_error on
    a zero divisor. *)
Theorem DivideAndRound_refines x p q :
  fits x -> fits p -> fits q -> fits (x * p + 1) -> fits (x + 1) ->
  (0 < q ->
     DivideAndRound (encode x) (encode q) = Ok (encode ((x + (q - 1) / 2) / q)) /\
     DivideAndRoundEq (encode x) (encode q) = Ok (encode ((x + (q - 1) / 2) / q)) /\
     MultiplyAndRound (encode x) (encode p) (encode q) = Ok (encode ((x * p + (q - 1) / 2) / q)) /\
     MultiplyAndRoundEq (encode x) (encode p) (encode q) = Ok (encode ((x * p + (q - 1) / 2) / q))) /\
  DivideAndRound (encode x) (encode 0) = Throw math_error.
Proof.
  intros Hx Hp Hq Hxp Hx1. split; [intros H|].
  - assert (DivideAndRoundEq (encode x) (encode q) = DivideAndRound (encode x) (encode q)) as -> by done.
    assert (MultiplyAndRoundEq (encode x) (encode p) (encode q) = MultiplyAndRound (encode x) (encode p) (encode q)) as -> by done.
    split_and!; enc; auto using DivideAndRound_represents, MultiplyAndRound_represents, encode_represents.
  - apply DivideAndRound_zero, represents_0.
Qed.

Lemma DivideAndRound_refines_witness :
  MultiplyAndRound (encode (2 ^ 70)) (encode 3) (encode (2 ^ 35 + 1)) =
    Ok (encode ((2 ^ 70 * 3 + 2 ^ 34) / (2 ^ 35 + 1))).
Proof. apply (DivideAndRound_refines (2 ^ 70) 3 (2 ^ 35 + 1)); [fits | fits | fits | fits | fits | lia]. Defined.

(** ** Shifts *)

(** A right shift by 31 of a number of at most 31 bits still computes the mask. *)
Lemma RShiftEq_31 x : fits x -> 0 < x -> RShiftEq (encode x) 31 = UB.
Proof.
  intros Hx H0. destruct (Z.lt_ge_cases 31 (GetMSB x)) as [Hm|Hm].
  { apply (RShift_mask_undefined (encode x) x); [auto with fhe | lia | done]. }
  pose proof (GetMSB_pos x H0). unfold RShiftEq. change (is_garbage (encode x)) with false.
  change (m_MSB (encode x)) with (GetMSB x). cbv iota.
  destruct (Z.eqb_spec (GetMSB x) 0); [lia|]. destruct (Z.leb_spec (GetMSB x) 31); [done | lia].
Qed.

Lemma RShiftEq_result x s :
  fits x -> 0 <= s ->
  RShiftEq (encode x) s =
    (if bool_decide (0 < x /\ (s mod 32 = 31 \/ GetMSB x <= s /\ 32 <= s))
     then UB else Ok (encode (x / 2 ^ s))).
Proof.
  intros Hx Hs. pose proof (encode_represents x Hx) as Rx. pose proof (represents_nonneg _ _ Rx) as H0.
  destruct (Z.eq_dec x 0) as [->|Hne].
  { rewrite bool_decide_eq_false_2, Z.div_0_l by (try apply Z.pow_nonzero; lia). done. }
  case_bool_decide as Hb; [|enc; apply RShiftEq_represents; [done | done | lia | lia]].
  destruct Hb as [_ [Hb|Hb]]; [|by eapply RShiftEq_undefined; [exact Rx | lia..]].
  destruct (Z.eq_dec s 31) as [->|]; [by apply RShiftEq_31; [|lia]|].
  destruct (Z.lt_ge_cases s (GetMSB x)); [by eapply RShift_mask_undefined; [exact Rx | lia | done]|].
  eapply RShiftEq_undefined; [exact Rx | lia | lia |]. Z.div_mod_to_equations; lia.
Qed.

(** [C36] The right shift in place is undefined exactly when the value is positive and
    the amount is 31 modulo 32, or shifts out every bit by a limb or more; the right
    shift into a new object is undefined exactly when the amount is 31 modulo 32 and
    keeps a bit; in every other case both return the object of the quotient by the
    power of two. *)
Theorem RShiftEq_defined_iff x s :
  fits x -> 0 <= s ->
  RShiftEq (encode x) s =
    (if bool_decide (0 < x /\ (s mod 32 = 31 \/ GetMSB x <= s /\ 32 <= s))
     then UB else Ok (encode (x / 2 ^ s))) /\
  RShift (encode x) s =
    (if bool_decide (s < GetMSB x /\ s mod 32 = 31) then UB else Ok (encode (x / 2 ^ s))).
Proof.
  intros Hx Hs. pose proof (encode_represents x Hx) as Rx. pose proof (represents_nonneg _ _ Rx) as H0.
  split; [by apply RShiftEq_result|]. case_bool_decide as Hb.
  - eapply RShift_mask_undefined; [exact Rx | lia | lia].
  - enc. destruct (Z.eq_dec (s mod 32) 31); [|by apply RShift_represents].
    rewrite div_pow2_0 by lia. unfold RShift. change (is_garbage (encode x)) with false.
    change (m_MSB (encode x)) with (GetMSB x). cbv iota.
    rewrite (proj2 (Z.leb_le (GetMSB x) s)), orb_true_r by lia. apply represents_0.
Qed.

Lemma RShiftEq_defined_iff_witness :
  RShiftEq (encode (2 ^ 70)) 36 = Ok (encode (2 ^ 70 / 2 ^ 36)) /\
  RShiftEq (encode (2 ^ 70)) 80 = UB.
Proof.
  split; [eapply eq_trans; [apply (RShiftEq_defined_iff (2 ^ 70) 36); [fits | lia] | reflexivity]
         |eapply eq_trans; [apply (RShiftEq_defined_iff (2 ^ 70) 80); [fits | lia] | reflexivity]].
Defined.

(** Shifting a multiprecision integer left and then right by the same amount,
    which is not 31 modulo 32, returns the same object, in place or not. *)
Theorem shift_round_trip x s :
  fits (x * 2 ^ s) -> 0 <= s -> s mod 32 <> 31 ->
  (y ← LShift (encode x) s; RShift y s) = Ok (encode x) /\
  (y ← LShiftEq (encode x) s; RShiftEq y s) = Ok (encode x).
Proof.
  intros Hf Hs H31. pose proof (pow2_pos s Hs) as Hp.
  assert (fits x) as Hx by (eapply fits_mono; [exact Hf | destruct Hf; nia]).
  assert (LShift (encode x) s = Ok (encode (x * 2 ^ s))) as -> by (enc; apply LShift_represents; auto with fhe).
  assert (LShiftEq (encode x) s = Ok (encode (x * 2 ^ s))) as -> by (enc; apply LShiftEq_represents; auto with fhe).
  rewrite !bind_Ok. rewrite <- (Z.div_mul x (2 ^ s)) at 2 4 by lia.
  split; enc; [apply RShift_represents | apply RShiftEq_represents]; auto with fhe.
  destruct (Z.eq_dec x 0) as [->|]; [by left|]. right. left. destruct Hx as [Hx _].
  replace (x * 2 ^ s) with (0 + 2 ^ s * x) by ring. pose proof (GetMSB_pos x).
  rewrite GetMSB_high; lia.
Qed.

Lemma shift_round_trip_witness :
  (y ← LShift (encode 12345678901) 45; RShift y 45) = Ok (encode 12345678901).
Proof. apply (shift_round_trip 12345678901 45); [fits | lia | done]. Defined.

(** ** Modular arithmetic *)

(** The modular sum and difference of any multiprecision integers are the objects
    of the residues, and so is the modular product for a modulus whose bit size is
    not a multiple of 32, except that a product by one is returned unreduced. *)
Theorem modular_refines x y M :
  fits x -> fits y -> fits (2 * M) -> 0 < M ->
  (ModAdd (encode x) (encode y) (encode M) = Ok (encode ((x + y) mod M)) /\
   ModAddEq (encode x) (encode y) (encode M) = Ok (encode ((x + y) mod M)) /\
   ModSub (encode x) (encode y) (encode M) = Ok (encode ((x - y) mod M)) /\
   ModSubEq (encode x) (encode y) (encode M) = Ok (encode ((x - y) mod M))) /\
  (fits (M + x * y) -> GetMSB M mod 32 <> 0 ->
   ModMul (encode x) (encode y) (encode M) =
     Ok (encode (if y =? 1 then x else if x =? 1 then y else (x * y) mod M)) /\
   ModMulEq (encode x) (encode y) (encode M) = ModMul (encode x) (encode y) (encode M)).
Proof.
  intros Hx Hy H2 HM. assert (fits M) as HfM by (eapply fits_mono; [exact H2 | lia]).
  pose proof (encode_represents M HfM) as Rm. split.
  - split_and!; enc; [apply ModAdd_represents | apply ModAddEq_represents | apply ModSub_represents
                     | apply ModSubEq_represents]; auto with fhe.
  - intros Hf Hs. split; [|done]. enc. apply ModMul_represents; auto with fhe.
Qed.

Lemma modular_refines_witness :
  ModMul (encode (2 ^ 80 + 1)) (encode (3 ^ 50)) (encode (2 ^ 90 - 33)) =
    Ok (encode (((2 ^ 80 + 1) * 3 ^ 50) mod (2 ^ 90 - 33))).
Proof. apply (modular_refines (2 ^ 80 + 1) (3 ^ 50) (2 ^ 90 - 33)); first [fits | lia | done]. Defined.

(** The overloads that take a parameter [mu] return, whatever the parameter, the
    objects of the residues: those of sums and differences for all operands, those
    of products under the conditions of [modular_refines]. *)
Theorem mu_overloads_refine x y M mu :
  fits (x + y) -> 0 <= x -> 0 <= y -> fits (2 * M) -> 0 < M ->
  Mod_mu (encode x) (encode M) mu = Ok (encode (x mod M)) /\
  ModAdd_mu (encode x) (encode y) (encode M) mu = Ok (encode ((x + y) mod M)) /\
  ModAddEq_mu (encode x) (encode y) (encode M) mu = Ok (encode ((x + y) mod M)) /\
  ModSub_mu (encode x) (encode y) (encode M) mu = Ok (encode ((x - y) mod M)) /\
  ModSubEq_mu (encode x) (encode y) (encode M) mu = Ok (encode ((x - y) mod M)) /\
  (fits (M + x * y) -> GetMSB M mod 32 <> 0 -> x <> 1 -> y <> 1 ->
   ModMul_mu (encode x) (encode y) (encode M) mu = Ok (encode ((x * y) mod M))).
Proof.
  intros Hxy X0 Y0 H2 HM. assert (fits M) as HfM by (eapply fits_mono; [exact H2 | lia]).
  assert (fits x /\ fits y) as [Hx Hy] by (split; eapply fits_mono; [exact Hxy | lia | exact Hxy | lia]).
  pose proof (encode_represents M HfM) as Rm. split_and!.
  - enc. apply ModEq_represents; auto with fhe.
  - enc. apply ModAddFast_represents; auto with fhe.
  - enc. apply ModAddFastEq_represents; auto with fhe.
  - enc. apply ModSub_represents; auto with fhe.
  - enc. apply ModSubEq_represents; auto with fhe.
  - intros Hf Hs E1 E2. enc. unfold ModMul_mu.
    pose proof (ModMul_represents _ _ Rm HM (encode x) (encode y) x y) as H.
    rewrite (proj2 (Z.eqb_neq y 1) E2), (proj2 (Z.eqb_neq x 1) E1) in H. apply H; auto with fhe.
Qed.

Lemma mu_overloads_refine_witness :
  ModSub_mu (encode 5) (encode (2 ^ 70)) (encode (2 ^ 60 - 173)) (encode 0) =
    Ok (encode ((5 - 2 ^ 70) mod (2 ^ 60 - 173))).
Proof. apply (mu_overloads_refine 5 (2 ^ 70) (2 ^ 60 - 173) (encode 0)); first [fits | lia]. Defined.

(** For a modulus whose size gives defined shift amounts, ComputeMu returns a
    parameter with which the Barrett branches return the residues of the product of
    reduced operands, provided the second shift keeps a bit or is shorter than a
    limb: there the two branches of the conditional agree. *)
Theorem barrett_refines x y M :
  barrett_size M -> fits x -> fits y -> fits M -> 0 < M ->
  x < M -> y < M -> barrett_arg M (x * y) ->
  exists mu, ComputeMu (encode M) = Ok mu /\
    Mod_barrett (encode (x * y)) (encode M) mu = Mod_mu (encode (x * y)) (encode M) mu /\
    Mod_barrett (encode (x * y)) (encode M) mu = Ok (encode ((x * y) mod M)) /\
    ModMul_barrett (encode x) (encode y) (encode M) mu = Ok (encode ((x * y) mod M)) /\
    ModMulEq_barrett (encode x) (encode y) (encode M) mu = Ok (encode ((x * y) mod M)).
Proof.
  intros Hs Hx Hy Hf HM Lx Ly Axy. pose proof (encode_represents M Hf) as Rm.
  pose proof (encode_represents x Hx) as Rx. pose proof (encode_represents y Hy) as Ry.
  pose proof (GetMSB_bounds M HM) as HB. pose proof Hs as [? ? ? ?].
  pose proof (represents_nonneg _ _ Rx). pose proof (represents_nonneg _ _ Ry).
  assert (2 ^ (2 * GetMSB M + 2) = 4 * (2 ^ GetMSB M * 2 ^ GetMSB M)) as E.
  { rewrite <- !Z.pow_add_r by lia. change 4 with (2 ^ 2). rewrite <- Z.pow_add_r by lia. f_equal. lia. }
  assert (1 <= 2 ^ GetMSB M) by (pose proof (pow2_pos (GetMSB M)); lia).
  assert (fits (x * y)) as Hxy.
  { apply (fits_bits _ (2 * GetMSB M + 2)); [rewrite E; nia | unfold max_limbs; lia]. }
  pose proof (ComputeMu_represents (encode M) M Rm HM Hs) as (mu & -> & Rmu)%returns_Ok.
  exists mu. split; [done|].
  assert (reduced_gt M x = x /\ reduced_gt M y = y) as [Ex Ey].
  { unfold reduced_gt. rewrite !(proj2 (Z.ltb_ge _ _)) by lia. done. }
  assert (barrett_arg M x /\ barrett_arg M y) as [? ?] by (split; left; lia).
  assert (Mod_barrett (encode (x * y)) (encode M) mu = Ok (encode ((x * y) mod M))) as E1
    by (enc; eapply Mod_barrett_represents; rewrite ?E; auto with fhe; nia).
  assert (Mod_mu (encode (x * y)) (encode M) mu = Ok (encode ((x * y) mod M))) as E2
    by (enc; apply ModEq_represents; auto with fhe).
  rewrite E1, E2. split_and!; [done | done | enc; eapply ModMul_barrett_represents | enc; eapply ModMulEq_barrett_represents];
    rewrite ?Ex, ?Ey, ?E; auto with fhe; nia.
Qed.

Lemma barrett_refines_witness :
  exists mu, ComputeMu (encode (2 ^ 60 - 173)) = Ok mu /\
    ModMul_barrett (encode (2 ^ 59 + 7)) (encode (2 ^ 58 + 3)) (encode (2 ^ 60 - 173)) mu =
      Ok (encode (((2 ^ 59 + 7) * (2 ^ 58 + 3)) mod (2 ^ 60 - 173))).
Proof.
  destruct (barrett_refines (2 ^ 59 + 7) (2 ^ 58 + 3) (2 ^ 60 - 173)) as (mu & H1 & _ & _ & H2 & _);
    [split; first [vm_compute; discriminate | vm_compute; reflexivity] | fits | fits | fits | lia | lia | lia
    | right; left; vm_compute; discriminate |].
  exists mu. split; [exact H1 | exact H2].
Defined.

(** ** Inverses, powers and common divisors *)

(** The inverse of a multiprecision integer modulo M > 1 ends within 2 log M
    turns: it returns the inverse in the range of the modulus when the operands are
    coprime and throws math_error when they are not. *)
Theorem ModInverse_total x M fuel :
  fits x -> fits M -> 1 < M -> 2 * GetMSB M <= Z.of_nat fuel ->
  if Z.gcd x M =? 1
  then exists z, 0 < z < M /\ (x * z) mod M = 1 /\
         ModInverse fuel (encode x) (encode M) = Ok (encode z) /\
         ModInverseEq fuel (encode x) (encode M) = Ok (encode z)
  else ModInverse fuel (encode x) (encode M) = Throw math_error /\
       ModInverseEq fuel (encode x) (encode M) = Throw math_error.
Proof.
  intros Hx Hf HM Hfu. pose proof (encode_represents x Hx) as Rx. pose proof (encode_represents M Hf) as Rm.
  unfold ModInverseEq. destruct (Z.eqb_spec (Z.gcd x M) 1) as [E|E].
  - pose proof (ModInverse_represents _ _ x M fuel Rx Rm HM Hfu E) as (r & -> & z & Rz & ? & ?)%returns_Ok.
    exists z. rewrite (represents_encode r z Rz). done.
  - by rewrite (ModInverse_throws _ _ x M fuel Rx Rm HM Hfu E).
Qed.

Lemma ModInverse_total_witness :
  exists z, 0 < z < 2 ^ 89 - 1 /\ (3 ^ 40 * z) mod (2 ^ 89 - 1) = 1 /\
    ModInverse 200 (encode (3 ^ 40)) (encode (2 ^ 89 - 1)) = Ok (encode z).
Proof.
  pose proof (ModInverse_total (3 ^ 40) (2 ^ 89 - 1) 200 ltac:(fits) ltac:(fits) ltac:(lia)
    ltac:(vm_compute; discriminate)) as H.
  assert ((Z.gcd (3 ^ 40) (2 ^ 89 - 1) =? 1) = true) as E by (vm_compute; reflexivity).
  rewrite E in H. destruct H as (z & H1 & H2 & H3 & _).
  exists z. split; [exact H1 | split; [exact H2 | exact H3]].
Defined.

(** Modular exponentiation of multiprecision integers ends within as many turns as
    the exponent has bits and returns a number at most the modulus congruent to the
    power; it is the residue when base and modulus are coprime. *)
Theorem ModExp_refines x e M fuel :
  fits x -> fits e -> fits (M * M) -> 1 < M -> GetMSB e <= Z.of_nat fuel -> (1 <= fuel)%nat ->
  (exists z, 0 <= z <= M /\ z ==[M] x ^ e /\
     ModExp fuel (encode x) (encode e) (encode M) = Ok (encode z) /\
     ModExpEq fuel (encode x) (encode e) (encode M) = Ok (encode z)) /\
  (Z.gcd x M = 1 -> ModExp fuel (encode x) (encode e) (encode M) = Ok (encode (x ^ e mod M))).
Proof.
  intros Hx He H2 HM Hfu H1. assert (fits M) as Hf by (eapply fits_mono; [exact H2 | nia]).
  pose proof (encode_represents x Hx) as Rx. pose proof (encode_represents M Hf) as Rm.
  pose proof (encode_represents e He) as Re. unfold ModExpEq. split.
  - pose proof (ModExp_represents fuel _ _ _ x e M Rx Re Rm ltac:(lia) H2 Hfu H1)
      as (r & -> & z & Rz & ? & ?)%returns_Ok.
    exists z. rewrite (represents_encode r z Rz). done.
  - intros E. enc. by apply ModExp_coprime.
Qed.

Lemma ModExp_refines_witness :
  ModExp 70 (encode 3) (encode (2 ^ 64 + 1)) (encode (2 ^ 89 - 1)) =
    Ok (encode (3 ^ (2 ^ 64 + 1) mod (2 ^ 89 - 1))).
Proof.
  apply (ModExp_refines 3 (2 ^ 64 + 1) (2 ^ 89 - 1) 70);
    [fits | fits | fits | lia | vm_compute; discriminate | lia | vm_compute; reflexivity].
Defined.

(** For every class that satisfies the laws of the integer interface, the template
    GreatestCommonDivisor ends within 2 n + 2 turns on operands of n bits and
    returns the object of their greatest common divisor. *)
Theorem GreatestCommonDivisor_terminates {T} (den : T -> Z -> Prop) (range : Z -> Prop)
    `{L : IntegerLaws T den range} n a b x y :
  den a x -> den b y -> x < 2 ^ Z.of_nat n -> y < 2 ^ Z.of_nat n ->
  returns (gcd_loop (2 * n + 2) a b) (fun r => den r (Z.gcd x y)).
Proof. intros. by apply gcd_loop_spec. Qed.

Lemma GreatestCommonDivisor_terminates_witness :
  returns (gcd_loop 202 (encode (6 ^ 38)) (encode (10 ^ 29))) (fun r => represents r (2 ^ 29)) /\
  returns (@gcd_loop Z (@native_interface W64) 130 (6 ^ 20) (10 ^ 19))
    (fun r => @word_den W64 r (2 ^ 19)).
Proof.
  split.
  - apply (GreatestCommonDivisor_terminates represents fits 100 (encode (6 ^ 38)) (encode (10 ^ 29)) (6 ^ 38) (10 ^ 29));
      [apply encode_represents; fits | apply encode_represents; fits | reflexivity | reflexivity].
  - apply (GreatestCommonDivisor_terminates (@word_den W64) (@word_range W64) 64 (6 ^ 20) (10 ^ 19) (6 ^ 20) (10 ^ 19));
      [split; [done | split; [lia | reflexivity]]
      |split; [done | split; [lia | reflexivity]] | reflexivity | reflexivity].
Defined.


(** ** Conversions and bits *)

(** [C39] Parsing the decimal string of a multiprecision integer below 10^1500 returns
    the same object. *)
Theorem decimal_round_trip x :
  fits x -> x < 10 ^ 1500 -> (s ← ToString (encode x); AssignVal s) = Ok (encode x).
Proof. intros Hx Hb. apply (AssignVal_ToString_eq _ x); auto with fhe. Qed.

Lemma decimal_round_trip_witness :
  (s ← ToString (encode (7 ^ 60)); AssignVal s) = Ok (encode (7 ^ 60)).
Proof.
  apply (decimal_round_trip (7 ^ 60)); [fits|].
  apply (proj1 (Z.ltb_lt _ _)). vm_compute. reflexivity.
Defined.

(** FromBinaryString of a binary string without leading zeros returns an object of
    its value, except that a string whose length is a multiple of 32 loses its first
    32 digits. *)
Theorem FromBinaryString_reads t :
  Forall is_bit t -> Z.of_nat (length t) < 32 * max_limbs ->
  returns (FromBinaryString ("1"%char :: t)) (fun r => wfu r /\
    value r = dval 2 (bits_of (if (S (length t) mod 32 =? 0)%nat then drop 31 t else "1"%char :: t))).
Proof.
  intros Ht Hs. eapply returns_mono; [apply FromBinaryString_value; [apply Forall_cons; split; [by right | done] | simpl length; lia]|].
  intros r (Hw & _ & ->). split; [done|]. unfold binary_string. simpl length.
  by destruct (S (length t) mod 32 =? 0)%nat.
Qed.

Lemma FromBinaryString_reads_witness :
  returns (FromBinaryString ("1"%char :: repeat "0"%char 34)) (fun r => wfu r /\ value r = 2 ^ 34) /\
  returns (FromBinaryString ("1"%char :: repeat "0"%char 31)) (fun r => wfu r /\ value r = 0).
Proof.
  split; (eapply returns_mono; [apply (FromBinaryString_reads (repeat "0"%char _));
    [repeat constructor | vm_compute; reflexivity] | intros r [Hw ->]; split; [exact Hw | vm_compute; reflexivity]]).
Defined.

(** GetBitAtIndex counts bits from one and returns the bit of the value,
    ConvertToInt returns the value modulo 2^64, and isPowerOfTwo answers true for
    zero and exactly for the powers of two. *)
Theorem bits_refine x i :
  fits x -> 0 <= i ->
  GetBitAtIndex (encode x) (i + 1) = Ok (Z.b2z (Z.testbit x i)) /\
  ConvertToInt (encode x) = Ok (x mod 2 ^ 64) /\
  isPowerOfTwo (encode x) = Ok (bool_decide (x = 0 \/ x = 2 ^ (GetMSB x - 1))).
Proof.
  intros Hx Hi. pose proof (encode_represents x Hx) as Rx. split_and!.
  - rewrite (GetBitAtIndex_spec _ x) by (done || lia). do 3 f_equal. lia.
  - by apply ConvertToInt_spec.
  - by apply isPowerOfTwo_spec.
Qed.

Lemma bits_refine_witness :
  GetBitAtIndex (encode (2 ^ 70)) 71 = Ok 1 /\ ConvertToInt (encode (2 ^ 70 + 5)) = Ok 5.
Proof.
  split; [apply (bits_refine (2 ^ 70) 70) | apply (bits_refine (2 ^ 70 + 5) 0)]; first [fits | lia].
Defined.

(** ** The invariant of the class *)

(** The objects that constructors and methods produce, as long as the results
    fit: a method that throws produces no object. *)
Inductive reachable : ubint -> Prop :=
  | reach_default : reachable ubint_default
  | reach_u64 x : 0 <= x < 2 ^ 64 -> reachable (ubint_u64 x)
  | reach_u128 x : 0 <= x < 2 ^ 128 -> reachable (ubint_u128 x)
  | reach_string ds r :
      Forall (digit 10) ds -> fits (dval 10 ds) ->
      ubint_string (map digit_char ds) = Ok r -> reachable r
  | reach_copy a r : reachable a -> ubint_copy a = Ok r -> reachable r
  | reach_add a b r :
      reachable a -> reachable b -> fits (value a + value b) -> AddEq a b = Ok r -> reachable r
  | reach_sub a b r : reachable a -> reachable b -> SubEq a b = Ok r -> reachable r
  | reach_mul a b r :
      reachable a -> reachable b -> fits (value a * value b) -> MulEq a b = Ok r -> reachable r
  | reach_div a b r : reachable a -> reachable b -> DividedByEq a b = Ok r -> reachable r
  | reach_mod a b r : reachable a -> reachable b -> ModEq a b = Ok r -> reachable r
  | reach_exp a p r :
      reachable a -> 0 <= p < 2 ^ 32 -> fits (value a ^ p) -> ExpEq a p = Ok r -> reachable r
  | reach_shl a s r :
      reachable a -> 0 <= s -> fits (value a * 2 ^ s) -> LShiftEq a s = Ok r -> reachable r
  | reach_shr a s r : reachable a -> 0 <= s -> RShiftEq a s = Ok r -> reachable r.

(** A step of the invariant: the result of a method is well formed because the
    method returns the object of a number. *)
Lemma reach_step m r x : returns m (fun r => represents r x) -> m = Ok r -> wf r.
Proof. intros H ->. apply H. Qed.

Lemma divide_wf (op : ubint -> ubint -> outcome ubint) (f : Z -> Z -> Z) a b r :
  (forall x y, represents a x -> represents b y -> 0 < y -> returns (op a b) (fun r => represents r (f x y))) ->
  (represents b 0 -> exists e, op a b = Throw e) ->
  wf a -> wf b -> op a b = Ok r -> wf r.
Proof.
  intros Hop H0 Ha Hb E. pose proof (represents_nonneg b (value b) (conj Hb eq_refl)) as Hn.
  destruct (Z.eq_dec (value b) 0) as [Ez|Ez].
  - destruct (H0 (conj Hb Ez)) as [e Ee]. congruence.
  - eapply (reach_step _ _ (f (value a) (value b))); [|exact E].
    apply Hop; [by split | by split | lia].
Qed.



(** ** Arguments on which the code departs from its contract *)

(** The Barrett reduction (not compiled) shifts the product right in place; for a modulus of 27
    bits or more whose quotient estimate is zero the shift is undefined. *)
Example Mod_barrett_undefined :
  let m := encode (2 ^ 59 + 2 ^ 57) in
  (mu ← ComputeMu m; Mod_barrett m m mu) = UB.
Proof. vm_compute. reflexivity. Qed.

(** [ModMul] keeps a partial product whose top limb is zero; reducing it compares
    limbs past the end of a modulus whose size is a multiple of 32 bits. *)
Example ModMul_undefined :
  ModMul (mk_ubint [5; 1; 1] 65 INITIALIZED) (mk_ubint [5; 0; 1] 65 INITIALIZED)
    (encode (2 ^ 96 - 1)) = UB.
Proof. vm_compute. reflexivity. Qed.

(** A product by one is returned without reduction. *)
Example ModMul_one_unreduced :
  ModMul (encode 10) (encode 1) (encode 7) = Ok (encode 10).
Proof. vm_compute. reflexivity. Qed.

(** The last step of [ModExp] subtracts only when the product is above the
    modulus: 2 ^ 3 modulo 8 is returned as 8. *)
Example ModExp_returns_modulus :
  ModExp 10 (encode 2) (encode 3) (encode 8) = Ok (encode 8).
Proof. vm_compute. reflexivity. Qed.

(** Thirty-two ones are read as zero, in a vector with a zero limb on top. *)
Example FromBinaryString_32_ones :
  FromBinaryString (repeat "1"%char 32) = Ok (mk_ubint [0] 0 INITIALIZED).
Proof. vm_compute. reflexivity. Qed.
