(* ===== verification/BigVector.v ===== *)
(** * Vectors of multiprecision integers

    Models the class [mubintvec<BigInteger>] of
    src/core/include/math/hal/bigintdyn/mubintvecdyn.h and
    src/core/lib/math/hal/bigintdyn/mubintvecdyn.cpp: the entries, the modulus and
    the state of the modulus. As for the native vectors, a method returns the
    vector it makes or leaves, and the overloads with a scalar and with a vector
    operand carry the suffixes [_scalar] and [_vector]. The header of the integers
    defines [NO_BARRETT], so the products are those of that branch. *)
From stdpp Require Import base numbers list.
From Stdlib Require Import ZArith Lia Ascii.
From S2P Require Import Prelude Bits BigInt BigDiv.
Open Scope Z_scope.

(** The enumeration of the modulus states has the constructors of the one of the
    integers. *)
Record mubintvec := mk_mubintvec {
  m_data : list ubint;
  m_modulus : ubint;
  m_modulus_state : State
}.

(** A vector with other entries. *)
Definition set_data (v : mubintvec) (d : list ubint) : mubintvec :=
  mk_mubintvec d (m_modulus v) (m_modulus_state v).

(** ** Access *)

Definition GetLength (v : mubintvec) : nat := length (m_data v).

Definition IndexCheck (v : mubintvec) (len : nat) : bool :=
  negb (length (m_data v) <? len)%nat.
Definition at_ (v : mubintvec) (i : nat) : outcome ubint :=
  if negb (IndexCheck v i) then Throw math_error else vget (m_data v) i.

(** [SetModulus], from an integer, a word, a decimal string and another vector. *)
Definition SetModulus (v : mubintvec) (value : ubint) : mubintvec :=
  mk_mubintvec (m_data v) value INITIALIZED.
Definition SetModulus_int (v : mubintvec) (value : Z) : mubintvec :=
  mk_mubintvec (m_data v) (ubint_int value) INITIALIZED.
Definition SetModulus_string (v : mubintvec) (value : list ascii) : outcome mubintvec :=
  q ← ubint_string value;
  Ok (mk_mubintvec (m_data v) q INITIALIZED).
Definition GetModulus (v : mubintvec) : outcome ubint :=
  if bool_decide (m_modulus_state v = INITIALIZED) then Ok (m_modulus v)
  else Throw not_available_error.
Definition SetModulus_vector (v value : mubintvec) : outcome mubintvec :=
  q ← GetModulus value;
  q ← ubint_copy q;
  Ok (mk_mubintvec (m_data v) q INITIALIZED).

(** ** Reductions *)

(** The copy constructor: the copy counts as initialized whatever the original. *)
Definition mubintvec_copy (v : mubintvec) : mubintvec :=
  mk_mubintvec (m_data v) (m_modulus v) INITIALIZED.

(** [x > halfQ], then the value with the flipped or the plain parity. *)
Definition ModByTwoEq (v : mubintvec) : outcome mubintvec :=
  q ← GetModulus v;
  halfQ ← RShift q 1;
  data ← vmapM (fun x =>
           gt ← op_gt x halfQ;
           r ← Mod x (ubint_int 2);
           odd ← op_eq r (ubint_int 1);
           if (gt : bool) then Ok (if (odd : bool) then ubint_int 0 else ubint_int 1)
           else Ok (if (odd : bool) then ubint_int 1 else ubint_int 0)) (m_data v);
  Ok (set_data v data).
Definition ModByTwo (v : mubintvec) : outcome mubintvec := ModByTwoEq (mubintvec_copy v).

Definition ModEq_vector (v : mubintvec) (modulus : ubint) : outcome mubintvec :=
  two ← op_eq modulus (ubint_int 2);
  if (two : bool) then ModByTwoEq v
  else
    q ← GetModulus v;
    halfQ ← RShift q 1;
    data ← vmapM (fun x =>
             gt ← op_gt x halfQ;
             if (gt : bool) then ModSubEq x q modulus else ModEq x modulus) (m_data v);
    Ok (set_data v data).
Definition Mod_vector (v : mubintvec) (modulus : ubint) : outcome mubintvec :=
  ModEq_vector (mubintvec_copy v) modulus.

(** ** Construction and assignment *)

Definition mubintvec_default : mubintvec := mk_mubintvec [] (ubint_int 0) GARBAGE.
Definition mubintvec_length (len : nat) : mubintvec :=
  mk_mubintvec (repeat (ubint_int 0) len) (ubint_int 0) GARBAGE.

(** The constructors from a length and a modulus; the one from a string does not
    reduce the zero entries. *)
Definition mubintvec_int (len : nat) (modulus : Z) : outcome mubintvec :=
  Mod_vector (mk_mubintvec (repeat (ubint_int 0) len) (ubint_int modulus) INITIALIZED)
    (ubint_int modulus).
Definition mubintvec_ubint (len : nat) (modulus : ubint) : outcome mubintvec :=
  Mod_vector (mk_mubintvec (repeat (ubint_int 0) len) modulus INITIALIZED) modulus.
Definition mubintvec_string (len : nat) (modulus : list ascii) : outcome mubintvec :=
  q ← ubint_string modulus;
  Ok (mk_mubintvec (repeat (ubint_int 0) len) q INITIALIZED).

(** One entry of the constructors from an initializer list. *)
Definition list_entry {A} (conv : A -> outcome ubint) (rhs : list A) (modulus : ubint)
    (i : nat) : outcome ubint :=
  match rhs !! i with
  | Some x => y ← conv x; Mod y modulus
  | None => Ok (ubint_int 0)
  end.
Definition mubintvec_strings (len : nat) (modulus : ubint) (rhs : list (list ascii))
    : outcome mubintvec :=
  data ← vmapM (list_entry ubint_string rhs modulus) (seq 0 len);
  Ok (mk_mubintvec data modulus INITIALIZED).
Definition mubintvec_ints (len : nat) (modulus : ubint) (rhs : list Z) : outcome mubintvec :=
  data ← vmapM (list_entry (fun x => Ok (ubint_u64 x)) rhs modulus) (seq 0 len);
  Ok (mk_mubintvec data modulus INITIALIZED).

(** The constructors from a vector of strings. *)
Definition mubintvec_vector (s : list (list ascii)) (modulus : ubint) : outcome mubintvec :=
  q ← ubint_copy modulus;
  data ← vmapM (fun x => y ← ubint_string x; Mod y q) s;
  Ok (mk_mubintvec data q INITIALIZED).
Definition mubintvec_vector_string (s : list (list ascii)) (modulus : list ascii)
    : outcome mubintvec :=
  q ← ubint_string modulus;
  data ← vmapM (fun x => y ← ubint_string x; Mod y q) s;
  Ok (mk_mubintvec data q INITIALIZED).

(** [Single(val, modulus)] *)
Definition Single (val modulus : ubint) : outcome mubintvec :=
  data ← vset (m_data (mubintvec_length 1)) 0 val;
  Ok (SetModulus (set_data (mubintvec_length 1) data) modulus).

(** [operator=(const mubintvec&)]: unlike the copy constructor it copies the state. *)
Definition assign_vector (v rhs : mubintvec) : mubintvec :=
  let d := if (length (m_data v) =? length (m_data rhs))%nat then m_data v
           else resize (length (m_data rhs)) ubint_default (m_data v) in
  mk_mubintvec (imap (fun i x => default x (m_data rhs !! i)) d) (m_modulus rhs)
    (m_modulus_state rhs).

(** [operator=(mubintvec&&)]: the vector assigned to and the one moved from. *)
Definition move_vector (v rhs : mubintvec) : mubintvec * mubintvec :=
  let rhs_data := m_data v in
  (mk_mubintvec (m_data rhs) (m_modulus rhs) (m_modulus_state rhs),
   set_data rhs (if (0 <? length rhs_data)%nat then [] else rhs_data)).

(** Assignment from an initializer list: a longer list lengthens the vector, and the
    entries are reduced when the modulus is initialized. *)
Definition assign_list {A} (conv : A -> outcome ubint) (v : mubintvec) (rhs : list A)
    : outcome mubintvec :=
  let n := if (length (m_data v) <? length rhs)%nat then length rhs else length (m_data v) in
  data ← vmapM (fun i => match rhs !! i with
                         | Some x => conv x
                         | None => Ok (ubint_int 0)
                         end) (seq 0 n);
  let v := set_data v data in
  if bool_decide (m_modulus_state v = INITIALIZED) then Mod_vector v (m_modulus v) else Ok v.
Definition assign_strings (v : mubintvec) (rhs : list (list ascii)) : outcome mubintvec :=
  assign_list ubint_string v rhs.
Definition assign_ints (v : mubintvec) (rhs : list Z) : outcome mubintvec :=
  assign_list (fun x => Ok (ubint_u64 x)) v rhs.

(** [operator=] from an integer: entry 0 takes the value and the others zero. *)
Definition assign_ubint (v : mubintvec) (val : ubint) : outcome mubintvec :=
  data ← vset (m_data v) 0 val;
  data ← for_range 1 (length data) (fun i d => vset d i (ubint_int 0)) data;
  Ok (set_data v data).
Definition assign_u64 (v : mubintvec) (val : Z) : outcome mubintvec :=
  assign_ubint v (ubint_u64 val).

(** The [operator==] of the interface; its second test reads the moduli only when
    the lengths agree. *)
Definition eqb_vector (a b : mubintvec) : outcome bool :=
  if negb (GetLength a =? GetLength b)%nat then Ok false
  else
    qa ← GetModulus a;
    qb ← GetModulus b;
    ne ← op_ne qa qb;
    if (ne : bool) then Ok false
    else
      for_range 0 (GetLength a) (fun i acc =>
        if (acc : bool) then
          x ← vget (m_data a) i;
          y ← vget (m_data b) i;
          ne ← op_ne x y;
          Ok (negb ne)
        else Ok false) true.

Definition SwitchModulus (v : mubintvec) (newModulus : ubint) : outcome mubintvec :=
  oldModulus ← ubint_copy (m_modulus v);
  oldModulusByTwo ← RShift oldModulus 1;
  gt ← op_gt oldModulus newModulus;
  diff ← (if (gt : bool) then Sub oldModulus newModulus else Sub newModulus oldModulus);
  data ← vmapM (fun n =>
           lt ← op_lt oldModulus newModulus;
           high ← op_gt n oldModulusByTwo;
           if (lt : bool) then
             if (high : bool) then ModAdd n diff newModulus else Mod n newModulus
           else
             if (high : bool) then ModSub n diff newModulus else Mod n newModulus)
           (m_data v);
  Ok (SetModulus (set_data v data) newModulus).

(** ** Entrywise arithmetic *)

(** A loop over the entries that leaves the modulus. *)
Definition map_data (f : ubint -> outcome ubint) (v : mubintvec) : outcome mubintvec :=
  data ← vmapM f (m_data v);
  Ok (set_data v data).

(** The guards of the operations on two vectors: first the moduli, then the lengths;
    both throw the same exception. *)
Definition zip_data (f : ubint -> ubint -> outcome ubint) (a b : mubintvec)
    : outcome mubintvec :=
  ne ← op_ne (m_modulus a) (m_modulus b);
  if (ne : bool) then Throw math_error
  else if negb (length (m_data a) =? length (m_data b))%nat then Throw math_error
  else
    data ← vzipM f (m_data a) (m_data b);
    Ok (set_data a data).

Definition ModAddEq_scalar (v : mubintvec) (b : ubint) : outcome mubintvec :=
  map_data (fun x => ModAddEq x b (m_modulus v)) v.
Definition ModAdd_scalar (v : mubintvec) (b : ubint) : outcome mubintvec :=
  map_data (fun x => ModAddEq x b (m_modulus v)) (mubintvec_copy v).

(** [i > GetLength() - 1], on [size_t]. *)
Definition ModAddAtIndexEq (v : mubintvec) (i : nat) (b : ubint) : outcome mubintvec :=
  if Z.of_nat i >? u64 (Z.of_nat (GetLength v) - 1) then Throw math_error
  else
    x ← vget (m_data v) i;
    y ← ModAddEq x b (m_modulus v);
    data ← vset (m_data v) i y;
    Ok (set_data v data).
Definition ModAddAtIndex (v : mubintvec) (i : nat) (b : ubint) : outcome mubintvec :=
  ModAddAtIndexEq (mubintvec_copy v) i b.

Definition ModAddEq_vector (a b : mubintvec) : outcome mubintvec :=
  zip_data (fun x y => ModAddEq x y (m_modulus a)) a b.
Definition ModAdd_vector (a b : mubintvec) : outcome mubintvec :=
  ModAddEq_vector (mubintvec_copy a) b.

Definition ModSubEq_scalar (v : mubintvec) (b : ubint) : outcome mubintvec :=
  map_data (fun x => ModSubEq x b (m_modulus v)) v.
Definition ModSub_scalar (v : mubintvec) (b : ubint) : outcome mubintvec :=
  ModSubEq_scalar (mubintvec_copy v) b.

Definition ModSubEq_vector (a b : mubintvec) : outcome mubintvec :=
  zip_data (fun x y => ModSubEq x y (m_modulus a)) a b.
Definition ModSub_vector (a b : mubintvec) : outcome mubintvec :=
  ModSubEq_vector (mubintvec_copy a) b.

Definition ModMulEq_scalar (v : mubintvec) (b : ubint) : outcome mubintvec :=
  map_data (fun x => ModMulEq x b (m_modulus v)) v.
Definition ModMul_scalar (v : mubintvec) (b : ubint) : outcome mubintvec :=
  map_data (fun x => ModMulEq x b (m_modulus v)) (mubintvec_copy v).

Definition ModMulEq_vector (a b : mubintvec) : outcome mubintvec :=
  zip_data (fun x y => ModMulEq x y (m_modulus a)) a b.
Definition ModMul_vector (a b : mubintvec) : outcome mubintvec :=
  zip_data (fun x y => ModMulEq x y (m_modulus a)) (mubintvec_copy a) b.

(** Unary minus of the interface. *)
Definition neg_vector (v : mubintvec) : outcome mubintvec :=
  q ← GetModulus v;
  s ← Sub q (ubint_int 1);
  ModMul_scalar v s.

Definition ModExpEq_vector (fuel : nat) (v : mubintvec) (b : ubint) : outcome mubintvec :=
  map_data (fun x => ModExpEq fuel x b (m_modulus v)) v.
Definition ModExp_vector (fuel : nat) (v : mubintvec) (b : ubint) : outcome mubintvec :=
  map_data (fun x => ModExpEq fuel x b (m_modulus v)) (mubintvec_copy v).

Definition ModInverseEq_vector (fuel : nat) (v : mubintvec) : outcome mubintvec :=
  map_data (fun x => ModInverseEq fuel x (m_modulus v)) v.
Definition ModInverse_vector (fuel : nat) (v : mubintvec) : outcome mubintvec :=
  map_data (fun x => ModInverseEq fuel x (m_modulus v)) (mubintvec_copy v).

(** ** Scaling *)

Definition MultiplyAndRound_vector (v : mubintvec) (p q : ubint) : outcome mubintvec :=
  halfQ ← RShift (m_modulus v) 1;
  map_data (fun x =>
    gt ← op_gt x halfQ;
    if (gt : bool) then
      temp ← Sub (m_modulus v) x;
      r ← MultiplyAndRound temp p q;
      Sub (m_modulus v) r
    else
      r ← MultiplyAndRound x p q;
      Mod r (m_modulus v)) (mubintvec_copy v).
Definition MultiplyAndRoundEq_vector (v : mubintvec) (p q : ubint) : outcome mubintvec :=
  halfQ ← RShift (m_modulus v) 1;
  map_data (fun x =>
    gt ← op_gt x halfQ;
    if (gt : bool) then
      temp ← Sub (m_modulus v) x;
      r ← MultiplyAndRound temp p q;
      Sub (m_modulus v) r
    else
      r ← MultiplyAndRoundEq x p q;
      ModEq r (m_modulus v)) v.

(** The body of both loops of [DivideAndRound]. *)
Definition divide_entry (modulus halfQ q x : ubint) : outcome ubint :=
  gt ← op_gt x halfQ;
  if (gt : bool) then
    temp ← Sub modulus x;
    r ← DivideAndRound temp q;
    Sub modulus r
  else DivideAndRoundEq x q.
Definition DivideAndRound_vector (v : mubintvec) (q : ubint) : outcome mubintvec :=
  halfQ ← RShift (m_modulus v) 1;
  map_data (divide_entry (m_modulus v) halfQ q) (mubintvec_copy v).
Definition DivideAndRoundEq_vector (v : mubintvec) (q : ubint) : outcome mubintvec :=
  halfQ ← RShift (m_modulus v) 1;
  map_data (divide_entry (m_modulus v) halfQ q) v.

Definition GetDigitAtIndexForBase_vector (v : mubintvec) (index base : Z)
    : outcome mubintvec :=
  map_data (fun x => d ← GetDigitAtIndexForBase x index base; Ok (ubint_int d))
    (mubintvec_copy v).

(** ** Output *)

Fixpoint print_entries (d : list ubint) : outcome (list ascii) :=
  match d with
  | [] => Ok []
  | x :: d' =>
      s ← ToString x;
      rest ← print_entries d';
      Ok (s ++ (match d' with [] => "]"%char | _ => " "%char end) :: rest)
  end.
(** The text [" modulus: "]. *)
Definition modulus_label : list ascii :=
  [" "; "m"; "o"; "d"; "u"; "l"; "u"; "s"; ":"; " "]%char.
(** [operator<<]: an empty vector has no closing bracket. *)
Definition print_vector (v : mubintvec) : outcome (list ascii) :=
  es ← print_entries (m_data v);
  q ← ToString (m_modulus v);
  Ok ("["%char :: es ++ modulus_label ++ q).
