(* ===== verification/BigVectorProps.v ===== *)
(** * Vectors of multiprecision integers: the properties

    [encode_vec q xs] is the vector object with the modulus [q] and the entries
    [xs]. Every method of [mubintvec] maps encodings to the encoding of the vector
    computed entry by entry over the integers, or throws on operands whose moduli
    or lengths differ. *)
From stdpp Require Import base numbers list.
From Stdlib Require Import ZArith Znumtheory Lia Ascii.
From S2P Require Import Prelude Bits BigInt BigDiv BigIntProps BigShiftProps BigDivProps BigModProps BigArithProps BigRefine BigVector.
Open Scope Z_scope.

(** ** The object of a vector *)

Definition encode_vec (q : Z) (xs : list Z) : mubintvec :=
  mk_mubintvec (map encode xs) (encode q) INITIALIZED.

Lemma encode_inj x y : fits x -> fits y -> encode x = encode y -> x = y.
Proof.
  intros Hx Hy E. destruct (encode_represents x Hx) as [_ <-].
  destruct (encode_represents y Hy) as [_ <-]. by rewrite E.
Qed.

(** The small words of the code. *)
Lemma encode_int x : 0 <= x < 2 ^ 64 -> ubint_int x = encode x.
Proof.
  intros Hx. unfold ubint_int, u64. rewrite Z.mod_small by done.
  apply represents_encode. by apply ubint_u64_represents.
Qed.

Lemma reduced_fits q xs : fits q -> reduced q xs -> Forall fits xs.
Proof. intros Hq H. eapply Forall_impl; [exact H|]. cbv beta. intros x Hx. eapply fits_mono; [exact Hq | lia]. Qed.

Lemma reduced_map_mod q (f : Z -> Z) xs : 0 < q -> reduced q (map (fun x => f x mod q) xs).
Proof. intros Hq. apply Forall_map, Forall_true. intros x. by apply mod_range. Qed.

Lemma reduced_zip_mod q (f : Z -> Z -> Z) xs ys :
  0 < q -> reduced q (zip_with (fun x y => f x y mod q) xs ys).
Proof.
  intros Hq. apply Forall_lookup_2. intros i z Hz.
  apply lookup_zip_with_Some in Hz as (x & y & -> & _). by apply mod_range.
Qed.

(** Computes that concrete entries fit. *)
Ltac fits_list := repeat first [apply Forall_nil_2 | apply Forall_cons_2; [fits|]].

(** ** Loops over encodings *)

Lemma vmapM_encode (f : ubint -> outcome ubint) (g : Z -> Z) xs :
  Forall (fun x => f (encode x) = Ok (encode (g x))) xs ->
  vmapM f (map encode xs) = Ok (map encode (map g xs)).
Proof. induction 1 as [|x xs E _ IH]; [done|]. cbn [map vmapM]. by rewrite E, bind_Ok, IH, bind_Ok. Qed.

Lemma map_data_encode f g q xs :
  Forall (fun x => f (encode x) = Ok (encode (g x))) xs ->
  map_data f (encode_vec q xs) = Ok (encode_vec q (map g xs)).
Proof. intros H. unfold map_data. cbn [m_data encode_vec]. by rewrite (vmapM_encode f g xs H). Qed.

(** An entry on which the body throws makes the loop throw. *)
Lemma vmapM_throws {A B} (f : A -> outcome B) (e : exn) (v : list A) :
  Forall (fun x => (exists y, f x = Ok y) \/ f x = Throw e) v -> Exists (fun x => f x = Throw e) v ->
  vmapM f v = Throw e.
Proof.
  induction 1 as [|x v Hx _ IH]; [by intros ?%Exists_nil|]. intros [E|E]%Exists_cons; cbn [vmapM].
  - by rewrite E.
  - destruct Hx as [[y ->] | ->]; [|done]. by rewrite bind_Ok, IH.
Qed.

Lemma vzipM_encode (f : ubint -> ubint -> outcome ubint) (g : Z -> Z -> Z) xs ys :
  length xs = length ys ->
  Forall2 (fun x y => f (encode x) (encode y) = Ok (encode (g x y))) xs ys ->
  vzipM f (map encode xs) (map encode ys) = Ok (map encode (zip_with g xs ys)).
Proof.
  intros _. induction 1 as [|x y xs ys E _ IH]; [done|]. cbn [map vzipM zip_with].
  by rewrite E, bind_Ok, IH, bind_Ok.
Qed.

Lemma op_ne_encode x y : fits x -> fits y -> op_ne (encode x) (encode y) = Ok (negb (x =? y)).
Proof.
  intros Hx Hy. unfold op_ne. rewrite (Compare_spec _ _ x y) by auto with fhe. rewrite bind_Ok.
  do 2 f_equal. bool_cases; lia.
Qed.

Lemma op_eq_encode x y : fits x -> fits y -> op_eq (encode x) (encode y) = Ok (x =? y).
Proof.
  intros Hx Hy. unfold op_eq. rewrite (Compare_spec _ _ x y) by auto with fhe. rewrite bind_Ok.
  f_equal. bool_cases; lia.
Qed.

(** What the operations on two vectors do, from what their body does. *)
Lemma zip_data_encode f g q q' xs ys :
  fits q -> fits q' ->
  (q = q' -> length xs = length ys ->
   Forall2 (fun x y => f (encode x) (encode y) = Ok (encode (g x y))) xs ys) ->
  zip_data f (encode_vec q xs) (encode_vec q' ys) =
    if bool_decide (q = q' /\ length xs = length ys)
    then Ok (encode_vec q (zip_with g xs ys)) else Throw math_error.
Proof.
  intros Hq Hq' H. unfold zip_data. cbn [m_modulus m_data encode_vec].
  rewrite op_ne_encode, bind_Ok, !length_map by done.
  destruct (Z.eqb_spec q q') as [->|Hne]; cbn [negb].
  - destruct (Nat.eqb_spec (length xs) (length ys)) as [El|El]; cbn [negb].
    + rewrite bool_decide_true by done. by rewrite (vzipM_encode f g), bind_Ok by auto.
    + by rewrite bool_decide_false by tauto.
  - by rewrite bool_decide_false by tauto.
Qed.

Lemma reduced_Forall2 q xs ys (P : Z -> Z -> Prop) :
  reduced q xs -> reduced q ys -> length xs = length ys ->
  (forall x y, 0 <= x < q -> 0 <= y < q -> P x y) -> Forall2 P xs ys.
Proof.
  intros Hx Hy El H. apply Forall2_same_length_lookup_2; [done|]. intros i x y Ex Ey.
  apply H; [exact (Forall_lookup_1 _ _ _ _ Hx Ex) | exact (Forall_lookup_1 _ _ _ _ Hy Ey)].
Qed.

(** ** Sums, differences and products *)

Section Modular.
Context (q : Z) (Hq : 0 < q) (Hf : fits (2 * q)).

Lemma modulus_fits : fits q.
Proof. eapply fits_mono; [exact Hf | lia]. Qed.
Lemma entry_fits x : 0 <= x < q -> fits x.
Proof. intros. eapply fits_mono; [exact Hf | lia]. Qed.
Hint Resolve modulus_fits entry_fits : fhe.

Lemma ModAddEq_encode x y : fits x -> fits y ->
  ModAddEq (encode x) (encode y) (encode q) = Ok (encode ((x + y) mod q)).
Proof. intros. enc. apply ModAddEq_represents; auto with fhe. Qed.

Lemma ModSubEq_encode x y : fits x -> fits y ->
  ModSubEq (encode x) (encode y) (encode q) = Ok (encode ((x - y) mod q)).
Proof. intros. enc. apply ModSubEq_represents; auto with fhe. Qed.

Lemma ModMulEq_encode x y :
  fits (q + q * q) -> GetMSB q mod 32 <> 0 -> 0 <= x < q -> 0 <= y < q ->
  ModMulEq (encode x) (encode y) (encode q) = Ok (encode ((x * y) mod q)).
Proof.
  intros Hqq Hm Hx Hy. unfold ModMulEq. enc.
  assert (represents (encode x) x /\ represents (encode y) y) as [Rx Ry] by auto with fhe.
  pose proof (ModMul_represents _ _ (encode_represents q modulus_fits) Hq _ _ x y Rx Ry) as H.
  replace (if y =? 1 then x else if x =? 1 then y else (x * y) mod q) with ((x * y) mod q) in H.
  - apply H; [|done]. eapply fits_mono; [exact Hqq | nia].
  - destruct (Z.eqb_spec y 1) as [->|]; [rewrite Z.mul_1_r, Z.mod_small; lia|].
    destruct (Z.eqb_spec x 1) as [->|]; [rewrite Z.mul_1_l, Z.mod_small; lia|]. done.
Qed.

(** The sums and differences with a scalar of any size. *)
Lemma bigvec_scalar_ok xs s :
  Forall fits xs -> fits s ->
  let sum := encode_vec q (map (fun x => (x + s) mod q) xs) in
  let dif := encode_vec q (map (fun x => (x - s) mod q) xs) in
  ModAdd_scalar (encode_vec q xs) (encode s) = Ok sum /\ ModAddEq_scalar (encode_vec q xs) (encode s) = Ok sum /\
  ModSub_scalar (encode_vec q xs) (encode s) = Ok dif /\ ModSubEq_scalar (encode_vec q xs) (encode s) = Ok dif.
Proof.
  intros Hxs Hs sum dif.
  assert (map_data (fun x => ModAddEq x (encode s) (encode q)) (encode_vec q xs) = Ok sum) as E1.
  { apply map_data_encode. eapply Forall_impl; [exact Hxs|]. intros. by apply ModAddEq_encode. }
  assert (map_data (fun x => ModSubEq x (encode s) (encode q)) (encode_vec q xs) = Ok dif) as E2.
  { apply map_data_encode. eapply Forall_impl; [exact Hxs|]. intros. by apply ModSubEq_encode. }
  split_and!; [exact E1 | exact E1 | exact E2 | exact E2].
Qed.

Lemma bigvec_mul_scalar_ok xs s :
  fits (q + q * q) -> GetMSB q mod 32 <> 0 -> reduced q xs -> 0 <= s < q ->
  ModMul_scalar (encode_vec q xs) (encode s) = Ok (encode_vec q (map (fun x => (x * s) mod q) xs)).
Proof.
  intros Hqq Hm Hxs Hs. apply map_data_encode. eapply Forall_impl; [exact Hxs|]. cbv beta.
  intros. by apply ModMulEq_encode.
Qed.

Lemma neg_vector_ok xs :
  fits (q + q * q) -> GetMSB q mod 32 <> 0 -> reduced q xs ->
  neg_vector (encode_vec q xs) = Ok (encode_vec q (map (fun x => (- x) mod q) xs)).
Proof.
  intros Hqq Hm Hxs. unfold neg_vector, GetModulus. rewrite bool_decide_true, bind_Ok by done.
  change (ubint_int 1) with (encode 1). cbn [m_modulus encode_vec].
  assert (Sub (encode q) (encode 1) = Ok (encode (q - 1))) as ->.
  { enc. replace (q - 1) with (Z.max 0 (q - 1)) by lia. apply Sub_represents; auto with fhe.
    apply encode_represents. fits. }
  rewrite bind_Ok, bigvec_mul_scalar_ok by (auto; lia). do 2 f_equal. apply map_ext. intros x.
  apply eqmod_elim, eqmod_divide; [lia|]. exists x. ring.
Qed.
End Modular.

(** The operations on two vectors. *)
Section Pair.
Context (q q' : Z) (xs ys : list Z) (Hq : 0 < q) (Hf : fits (2 * q)) (Hq' : 0 < q') (Hf' : fits (2 * q')).
Context (Hxs : reduced q xs) (Hys : reduced q' ys).
Let guard (r : list Z) : outcome mubintvec :=
  if bool_decide (q = q' /\ length xs = length ys) then Ok (encode_vec q r) else Throw math_error.

Lemma zip_reduced f g :
  (q = q' -> forall x y, 0 <= x < q -> 0 <= y < q -> f (encode x) (encode y) = Ok (encode (g x y))) ->
  zip_data f (encode_vec q xs) (encode_vec q' ys) = guard (zip_with g xs ys).
Proof.
  intros H. apply zip_data_encode; [by apply modulus_fits..|]. intros E El. subst q'.
  apply (reduced_Forall2 q); auto.
Qed.

Lemma zip_mismatch f :
  ~ (q = q' /\ length xs = length ys) -> zip_data f (encode_vec q xs) (encode_vec q' ys) = Throw math_error.
Proof.
  intros H. rewrite (zip_data_encode f Z.add); [by rewrite bool_decide_false | by apply modulus_fits.. |].
  intros. by destruct H.
Qed.

Lemma bigvec_ModAdd_ok :
  ModAdd_vector (encode_vec q xs) (encode_vec q' ys) = guard (zip_with (fun x y => (x + y) mod q) xs ys).
Proof. apply zip_reduced. intros. apply (ModAddEq_encode q); eauto using entry_fits. Qed.

Lemma bigvec_ModSub_ok :
  ModSub_vector (encode_vec q xs) (encode_vec q' ys) = guard (zip_with (fun x y => (x - y) mod q) xs ys).
Proof. apply zip_reduced. intros. apply (ModSubEq_encode q); eauto using entry_fits. Qed.

Lemma bigvec_ModMul_ok :
  fits (q + q * q) -> GetMSB q mod 32 <> 0 ->
  ModMul_vector (encode_vec q xs) (encode_vec q' ys) = guard (zip_with (fun x y => (x * y) mod q) xs ys).
Proof. intros. apply zip_reduced. intros. by apply (ModMulEq_encode q). Qed.
End Pair.

(** The arithmetic of two vectors and of a vector and a scalar: the residues entry by
    entry, or [math_error] when the moduli or the lengths differ. *)
Theorem bigvec_arithmetic_refines q q' xs ys s :
  0 < q -> 0 < q' -> fits (2 * q) -> fits (2 * q') -> fits s ->
  reduced q xs -> reduced q' ys ->
  let guard (r : list Z) := if bool_decide (q = q' /\ length xs = length ys)
                            then Ok (encode_vec q r) else Throw math_error in
  ModAdd_vector (encode_vec q xs) (encode_vec q' ys) = guard (zip_with (fun x y => (x + y) mod q) xs ys) /\
  ModSub_vector (encode_vec q xs) (encode_vec q' ys) = guard (zip_with (fun x y => (x - y) mod q) xs ys) /\
  ModAdd_scalar (encode_vec q xs) (encode s) = Ok (encode_vec q (map (fun x => (x + s) mod q) xs)) /\
  ModSub_scalar (encode_vec q xs) (encode s) = Ok (encode_vec q (map (fun x => (x - s) mod q) xs)) /\
  (fits (q + q * q) -> GetMSB q mod 32 <> 0 ->
   ModMul_vector (encode_vec q xs) (encode_vec q' ys) = guard (zip_with (fun x y => (x * y) mod q) xs ys) /\
   (s < q -> ModMul_scalar (encode_vec q xs) (encode s) = Ok (encode_vec q (map (fun x => (x * s) mod q) xs))) /\
   neg_vector (encode_vec q xs) = Ok (encode_vec q (map (fun x => (- x) mod q) xs))).
Proof.
  intros Hq Hq' Hf Hf' Hs Hxs Hys guard.
  destruct (bigvec_scalar_ok q Hq Hf xs s (reduced_fits q xs (modulus_fits q Hq Hf) Hxs) Hs) as (E1 & _ & E2 & _).
  split_and!; [by apply bigvec_ModAdd_ok | by apply bigvec_ModSub_ok | done | done |].
  intros Hqq Hm. split_and!; [by apply bigvec_ModMul_ok | | by apply neg_vector_ok].
  intros Hlt. apply bigvec_mul_scalar_ok; [done..|]. destruct Hs. lia.
Qed.

Lemma bigvec_arithmetic_refines_witness :
  let q := 2 ^ 89 - 1 in
  ModMul_vector (encode_vec q [2 ^ 88; 3]) (encode_vec q [2 ^ 70; 5]) =
    Ok (encode_vec q [2 ^ 158 mod q; 15]).
Proof.
  apply (bigvec_arithmetic_refines (2 ^ 89 - 1) (2 ^ 89 - 1) [2 ^ 88; 3] [2 ^ 70; 5] 0);
    first [lia | fits | repeat constructor; lia | vm_compute; discriminate].
Defined.

(** ** Changing the modulus *)

Lemma op_gt_encode x y : fits x -> fits y -> op_gt (encode x) (encode y) = Ok (y <? x).
Proof. intros. apply op_gt_spec; auto with fhe. Qed.
Lemma op_lt_encode x y : fits x -> fits y -> op_lt (encode x) (encode y) = Ok (x <? y).
Proof. intros. apply op_lt_spec; auto with fhe. Qed.

Lemma RShift_half_encode x : fits x -> RShift (encode x) 1 = Ok (encode (x / 2)).
Proof. intros H. enc. apply RShift_represents; auto with fhe; by vm_compute. Qed.

Lemma half_fits x : fits x -> fits (x / 2).
Proof. intros. by apply fits_div. Qed.

(** The loops that treat the entries above half the modulus apart. *)
Lemma split_entry q x (low high : outcome ubint) (f : Z -> Z) :
  fits q -> fits x ->
  (q / 2 < x -> high = Ok (encode (f x))) -> (x <= q / 2 -> low = Ok (encode (f x))) ->
  (gt ← op_gt (encode x) (encode (q / 2)); if (gt : bool) then high else low) = Ok (encode (f x)).
Proof.
  intros Hq Hx Hh Hl. rewrite op_gt_encode, bind_Ok by auto using half_fits.
  destruct (Z.ltb_spec (q / 2) x); auto.
Qed.

(** Reduction modulo [m]: the residues of the centered representatives, except for
    [m = 2] where the parity of an entry above the half is always flipped. *)
Theorem bigvec_Mod_centered q m xs :
  0 < q -> 0 < m -> fits q -> fits (2 * m) -> Forall fits xs ->
  Mod_vector (encode_vec q xs) (encode m) =
    Ok (encode_vec q (map (fun x =>
      if m =? 2 then if q / 2 <? x then 1 - x mod 2 else x mod 2 else centered q x mod m) xs)) /\
  ModEq_vector (encode_vec q xs) (encode m) = Mod_vector (encode_vec q xs) (encode m).
Proof.
  intros Hq Hm Fq Fm Hxs. split; [|done]. unfold Mod_vector, ModEq_vector.
  change (mubintvec_copy (encode_vec q xs)) with (encode_vec q xs). change (ubint_int 2) with (encode 2).
  assert (fits 2 /\ fits m) as [F2 Fm'] by (split; [fits | eapply fits_mono; [exact Fm | lia]]).
  rewrite op_eq_encode, bind_Ok by done. destruct (Z.eqb_spec m 2) as [->|Hne].
  - unfold ModByTwoEq, GetModulus. rewrite bool_decide_true, bind_Ok by done. cbn [m_modulus m_data encode_vec].
    rewrite RShift_half_encode, bind_Ok by done.
    rewrite (vmapM_encode _ (fun x => if q / 2 <? x then 1 - x mod 2 else x mod 2)), bind_Ok; [done|].
    eapply Forall_impl; [exact Hxs|]. cbv beta. intros x Hx.
    rewrite op_gt_encode, bind_Ok by auto using half_fits. change (ubint_int 2) with (encode 2).
    assert (Mod (encode x) (encode 2) = Ok (encode (x mod 2))) as -> by (enc; apply Mod_represents; auto with fhe).
    rewrite bind_Ok. change (ubint_int 1) with (encode 1). change (ubint_int 0) with (encode 0).
    rewrite op_eq_encode, bind_Ok by (first [by apply fits_mod | fits]).
    rewrite Zmod_odd. by destruct (_ <? x), (Z.odd x).
  - unfold GetModulus. rewrite bool_decide_true, bind_Ok by done. cbn [m_modulus m_data encode_vec].
    rewrite RShift_half_encode, bind_Ok by done.
    rewrite (vmapM_encode _ (fun x => centered q x mod m)), bind_Ok; [done|].
    eapply Forall_impl; [exact Hxs|]. cbv beta. intros x Hx.
    apply (split_entry q x _ _ (fun x => centered q x mod m)); [done..| |]; intros Hc.
    + rewrite centered_high by done. by apply ModSubEq_encode.
    + rewrite centered_low by done. enc. apply ModEq_represents; auto with fhe.
Qed.

(** For an odd modulus the parities are those of the centered representatives too. *)
Lemma parity_centered q x : Z.odd q = true -> (if q / 2 <? x then 1 - x mod 2 else x mod 2) = centered q x mod 2.
Proof.
  intros Ho. unfold centered. rewrite Z.gtb_ltb, !Zmod_odd. destruct (_ <? x); [rewrite Z.odd_sub, Ho|]; by destruct (Z.odd x).
Qed.

Lemma bigvec_Mod_centered_witness :
  Mod_vector (encode_vec (2 ^ 89 - 1) [2 ^ 88; 3]) (encode 1000) =
    Ok (encode_vec (2 ^ 89 - 1) [(2 ^ 88 - (2 ^ 89 - 1)) mod 1000; 3]).
Proof.
  apply (bigvec_Mod_centered (2 ^ 89 - 1) 1000 [2 ^ 88; 3]); first [lia | fits | fits_list].
Defined.

(** [SwitchModulus] keeps the centered representatives modulo the new modulus,
    whichever modulus is larger. *)
Theorem bigvec_SwitchModulus_centered q q' xs :
  0 < q -> 0 < q' -> fits q -> fits (2 * q') -> Forall fits xs ->
  SwitchModulus (encode_vec q xs) (encode q') =
    Ok (encode_vec q' (map (fun x => centered q x mod q') xs)) /\
  reduced q' (map (fun x => centered q x mod q') xs).
Proof.
  intros Hq Hq' Fq F2 Hxs. split; [|by apply reduced_map_mod].
  assert (fits q') as Fq' by (eapply fits_mono; [exact F2 | lia]).
  unfold SwitchModulus. cbn [m_modulus m_data encode_vec].
  rewrite (represents_copy (encode q) q), bind_Ok by auto with fhe.
  rewrite RShift_half_encode, bind_Ok, op_gt_encode, bind_Ok by done.
  set (d := Z.max 0 (q - q') + Z.max 0 (q' - q)).
  assert ((if q' <? q then Sub (encode q) (encode q') else Sub (encode q') (encode q)) = Ok (encode d)) as ->.
  { enc. unfold d. destruct (Z.ltb_spec q' q).
    - rewrite (Z.max_l 0 (q' - q)), Z.add_0_r by lia. apply Sub_represents; auto with fhe.
    - rewrite (Z.max_l 0 (q - q')), Z.add_0_l by lia. apply Sub_represents; auto with fhe. }
  assert (fits d) as Fd.
  { unfold d. destruct (Z.le_ge_cases q q'); [eapply fits_mono; [exact Fq' | lia] | eapply fits_mono; [exact Fq | lia]]. }
  rewrite bind_Ok, (vmapM_encode _ (fun x => centered q x mod q')), bind_Ok; [done|].
  eapply Forall_impl; [exact Hxs|]. cbv beta. intros x Hx.
  assert (Mod (encode x) (encode q') = Ok (encode (x mod q'))) as Em by (enc; apply Mod_represents; auto with fhe).
  rewrite op_lt_encode, bind_Ok, op_gt_encode, bind_Ok, Em by auto using half_fits. unfold centered, d. rewrite Z.gtb_ltb.
  destruct (Z.ltb_spec q q'), (Z.ltb_spec (q / 2) x); try done.
  - replace ((x - q) mod q') with ((x + (q' - q)) mod q').
    + replace (Z.max 0 (q - q') + Z.max 0 (q' - q)) with (q' - q) in * by lia.
      enc. apply ModAdd_represents; auto with fhe. apply encode_represents. eapply fits_mono; [exact Fq' | lia].
    + replace (x + (q' - q)) with (x - q + 1 * q') by ring. apply Z.mod_add. lia.
  - replace ((x - q) mod q') with ((x - (q - q')) mod q').
    + replace (Z.max 0 (q - q') + Z.max 0 (q' - q)) with (q - q') in * by lia.
      enc. apply ModSub_represents; auto with fhe. apply encode_represents. eapply fits_mono; [exact Fq | lia].
    + replace (x - (q - q')) with (x - q + 1 * q') by ring. apply Z.mod_add. lia.
Qed.

Lemma bigvec_SwitchModulus_centered_witness :
  SwitchModulus (encode_vec (2 ^ 89 - 1) [2 ^ 89 - 2; 3]) (encode 97) = Ok (encode_vec 97 [96; 3]).
Proof.
  apply (bigvec_SwitchModulus_centered (2 ^ 89 - 1) 97 [2 ^ 89 - 2; 3]); first [lia | fits | fits_list].
Defined.

(** ** Scaling *)

(** The quotient rounded to the nearest integer, a tie downwards. *)
Definition rounded (y r : Z) : Z := (y + (r - 1) / 2) / r.

(** The entry that [MultiplyAndRound] stores: the rounded multiple of the magnitude
    of the centered representative with its sign put back, where a magnitude above
    the modulus is cut off by the subtraction. *)
Definition scaled_entry (q p r x : Z) : Z :=
  if q / 2 <? x then Z.max 0 (q - rounded ((q - x) * p) r) else rounded (x * p) r mod q.

Lemma rounded_bounds y r : 0 <= y -> 0 < r -> 0 <= rounded y r <= y.
Proof.
  intros Hy Hr. unfold rounded. pose proof (Z.div_mod (r - 1) 2 ltac:(lia)). pose proof (mod_range (r - 1) 2 ltac:(lia)).
  split; [apply Z.div_pos; lia|]. apply Z.lt_succ_r, Z.div_lt_upper_bound; nia.
Qed.

Lemma rounded_near y r : 0 < r -> - r <= 2 * (r * rounded y r - y) < r.
Proof.
  intros Hr. unfold rounded. pose proof (Z.div_mod (r - 1) 2 ltac:(lia)). pose proof (mod_range (r - 1) 2 ltac:(lia)).
  pose proof (Z.div_mod (y + (r - 1) / 2) r ltac:(lia)). pose proof (mod_range (y + (r - 1) / 2) r Hr). lia.
Qed.

Lemma MultiplyAndRound_encode x p r :
  fits x -> fits p -> fits r -> fits (x * p + 1) -> 0 < r ->
  MultiplyAndRound (encode x) (encode p) (encode r) = Ok (encode (rounded (x * p) r)).
Proof. intros. enc. apply MultiplyAndRound_represents; auto with fhe. Qed.

Lemma Sub_encode x y : fits x -> fits y -> Sub (encode x) (encode y) = Ok (encode (Z.max 0 (x - y))).
Proof. intros. enc. apply Sub_represents; auto with fhe. Qed.

Section Scaling.
Context (q p r : Z) (Hq : 0 < q) (Hp : 0 <= p) (Hr : 0 < r) (Fr : fits r) (Fqp : fits (q * (p + 1) + 1)).

Lemma scale_fits x y : 0 <= x <= q -> 0 <= y <= p -> fits (x * y + 1) /\ fits x /\ fits y /\ fits (rounded (x * y) r).
Proof.
  intros Hx Hy. pose proof (rounded_bounds (x * y) r ltac:(nia) Hr).
  split_and!; eapply fits_mono; try exact Fqp; nia.
Qed.

Lemma scaled_high x : 0 <= x < q -> q / 2 < x ->
  (temp ← Sub (encode q) (encode x); t ← MultiplyAndRound temp (encode p) (encode r); Sub (encode q) t)
  = Ok (encode (scaled_entry q p r x)).
Proof.
  intros Hx Hh. unfold scaled_entry. rewrite (proj2 (Z.ltb_lt _ _)) by done.
  destruct (scale_fits q p ltac:(lia) ltac:(lia)) as (_ & Fq & Fp & _).
  destruct (scale_fits x 0 ltac:(lia) ltac:(lia)) as (_ & Fx & _).
  destruct (scale_fits (q - x) p ltac:(lia) ltac:(lia)) as (F1 & F2 & _ & F3).
  rewrite Sub_encode, bind_Ok, Z.max_r by (done || lia).
  by rewrite MultiplyAndRound_encode, bind_Ok, Sub_encode by done.
Qed.

Lemma scaled_low x : 0 <= x < q -> x <= q / 2 ->
  (t ← MultiplyAndRound (encode x) (encode p) (encode r); Mod t (encode q)) = Ok (encode (scaled_entry q p r x)) /\
  (t ← MultiplyAndRoundEq (encode x) (encode p) (encode r); ModEq t (encode q)) = Ok (encode (scaled_entry q p r x)).
Proof.
  intros Hx Hh. unfold scaled_entry. rewrite (proj2 (Z.ltb_ge _ _)) by done.
  destruct (scale_fits q p ltac:(lia) ltac:(lia)) as (_ & Fq & Fp & _).
  destruct (scale_fits x p ltac:(lia) ltac:(lia)) as (F1 & F2 & _ & F3).
  change (MultiplyAndRoundEq (encode x)) with (MultiplyAndRound (encode x)).
  rewrite MultiplyAndRound_encode, !bind_Ok by done.
  split; enc; [apply Mod_represents | apply ModEq_represents]; auto with fhe.
Qed.

Lemma MultiplyAndRound_vector_ok xs : reduced q xs ->
  MultiplyAndRound_vector (encode_vec q xs) (encode p) (encode r) = Ok (encode_vec q (map (scaled_entry q p r) xs)) /\
  MultiplyAndRoundEq_vector (encode_vec q xs) (encode p) (encode r) = Ok (encode_vec q (map (scaled_entry q p r) xs)).
Proof.
  intros Hxs. destruct (scale_fits q p ltac:(lia) ltac:(lia)) as (_ & Fq & _).
  unfold MultiplyAndRound_vector, MultiplyAndRoundEq_vector. cbn [m_modulus encode_vec].
  rewrite RShift_half_encode, !bind_Ok by done.
  split; apply map_data_encode; (eapply Forall_impl; [exact Hxs|]); cbv beta; intros x Hx;
    (apply (split_entry q x _ _ (scaled_entry q p r)); [done | by apply (scale_fits x 0); lia | |]; intros Hc;
     [by apply scaled_high | by apply scaled_low]).
Qed.

(** For a factor at most one the entry is congruent to the rounded centered value
    and never exceeds the modulus. *)
Lemma scaled_entry_spec x : p <= r -> 0 <= x < q ->
  0 <= scaled_entry q p r x <= q /\
  scaled_entry q p r x ==[q] (if q / 2 <? x then - rounded ((q - x) * p) r else rounded (x * p) r).
Proof.
  intros Hpr Hx. unfold scaled_entry. destruct (Z.ltb_spec (q / 2) x) as [Hc|Hc].
  - assert (rounded ((q - x) * p) r <= q - x).
    { unfold rounded. pose proof (Z.div_mod (r - 1) 2 ltac:(lia)). pose proof (mod_range (r - 1) 2 ltac:(lia)).
      apply Z.lt_succ_r, Z.div_lt_upper_bound; nia. }
    pose proof (rounded_bounds ((q - x) * p) r ltac:(nia) Hr).
    rewrite Z.max_r by lia. split; [lia|]. apply eqmod_divide; [lia|]. exists 1. ring.
  - split; [pose proof (mod_range (rounded (x * p) r) q Hq); lia | apply eqmod_mod].
Qed.
End Scaling.

(** Scaling every entry by p / r and rounding: both variants store the rounded
    multiples of the centered representatives, each within half a unit of the exact
    one and, for p at most r, congruent to it and at most the modulus. *)
Theorem bigvec_MultiplyAndRound_centered q p r xs :
  0 < q -> 0 <= p -> 0 < r -> fits r -> fits (q * (p + 1) + 1) -> reduced q xs ->
  MultiplyAndRound_vector (encode_vec q xs) (encode p) (encode r) = Ok (encode_vec q (map (scaled_entry q p r) xs)) /\
  MultiplyAndRoundEq_vector (encode_vec q xs) (encode p) (encode r) = Ok (encode_vec q (map (scaled_entry q p r) xs)) /\
  (p <= r -> Forall (fun x => 0 <= scaled_entry q p r x <= q /\
     exists c, scaled_entry q p r x ==[q] c /\ - r <= 2 * (r * c - centered q x * p) <= r) xs).
Proof.
  intros Hq Hp Hr Fr Fqp Hxs. destruct (MultiplyAndRound_vector_ok q p r Hq Hp Hr Fr Fqp xs Hxs) as [E1 E2].
  split; [done|]. split; [done|]. intros Hpr. eapply Forall_impl; [exact Hxs|]. cbv beta. intros x Hx.
  destruct (scaled_entry_spec q p r Hq Hp Hr x Hpr Hx) as [Hb Hc]. split; [done|].
  eexists. split; [exact Hc|]. unfold centered. rewrite Z.gtb_ltb. destruct (q / 2 <? x).
  - pose proof (rounded_near ((q - x) * p) r Hr). lia.
  - pose proof (rounded_near (x * p) r Hr). lia.
Qed.

Lemma bigvec_MultiplyAndRound_centered_witness :
  let q := 2 ^ 89 - 1 in
  MultiplyAndRound_vector (encode_vec q [q - 10; 10; q - 1]) (encode 3) (encode 7) = Ok (encode_vec q [q - 4; 4; q]).
Proof.
  apply (bigvec_MultiplyAndRound_centered (2 ^ 89 - 1) 3 7 [2 ^ 89 - 11; 10; 2 ^ 89 - 2]);
    first [lia | fits | repeat constructor; lia].
Defined.

(** The entry that [DivideAndRound] stores. It is not reduced: a magnitude that
    rounds to zero is stored as the modulus when the entry was above the half. *)
Definition divided_entry (q r x : Z) : Z :=
  if q / 2 <? x then Z.max 0 (q - rounded (q - x) r) else rounded x r.

Theorem bigvec_DivideAndRound_centered q r xs :
  0 < q -> 0 < r -> fits r -> fits (q + 1) -> reduced q xs ->
  DivideAndRound_vector (encode_vec q xs) (encode r) = Ok (encode_vec q (map (divided_entry q r) xs)) /\
  DivideAndRoundEq_vector (encode_vec q xs) (encode r) = Ok (encode_vec q (map (divided_entry q r) xs)) /\
  Forall (fun x => 0 <= divided_entry q r x <= q /\
    (divided_entry q r x = q <-> q / 2 < x /\ 2 * (q - x) <= r)) xs.
Proof.
  intros Hq Hr Fr Fq1 Hxs. assert (fits q) as Fq by (eapply fits_mono; [exact Fq1 | lia]).
  assert (forall x, 0 <= x <= q -> DivideAndRound (encode x) (encode r) = Ok (encode (rounded x r)) /\
    fits x /\ fits (rounded x r)) as Hd.
  { intros x Hx. pose proof (rounded_bounds x r ltac:(lia) Hr).
    assert (fits x /\ fits (x + 1)) as [Fx Fx1] by (split; eapply fits_mono; try exact Fq1; lia).
    split_and!; [enc; apply DivideAndRound_represents; auto with fhe | done | eapply fits_mono; [exact Fq1 | lia]]. }
  assert (map_data (divide_entry (encode q) (encode (q / 2)) (encode r)) (encode_vec q xs) =
    Ok (encode_vec q (map (divided_entry q r) xs))) as E.
  { apply map_data_encode. eapply Forall_impl; [exact Hxs|]. cbv beta. intros x Hx. unfold divide_entry.
    destruct (Hd x ltac:(lia)) as (Ex & Fx & _). destruct (Hd (q - x) ltac:(lia)) as (Ey & Fy & Fz).
    apply (split_entry q x _ _ (divided_entry q r)); [done..| |]; intros Hc; unfold divided_entry.
    - rewrite (proj2 (Z.ltb_lt _ _)) by done. rewrite Sub_encode, bind_Ok, Z.max_r by (done || lia).
      by rewrite Ey, bind_Ok, Sub_encode.
    - by rewrite (proj2 (Z.ltb_ge _ _)). }
  unfold DivideAndRound_vector, DivideAndRoundEq_vector. cbn [m_modulus encode_vec].
  rewrite RShift_half_encode, !bind_Ok by done. split; [exact E|]. split; [exact E|].
  eapply Forall_impl; [exact Hxs|]. cbv beta. intros x Hx. unfold divided_entry.
  pose proof (rounded_bounds x r ltac:(lia) Hr). pose proof (rounded_bounds (q - x) r ltac:(lia) Hr).
  pose proof (rounded_near (q - x) r Hr). pose proof (Z.div_mod q 2 ltac:(lia)). pose proof (mod_range q 2 ltac:(lia)).
  destruct (Z.ltb_spec (q / 2) x); split; nia.
Qed.

Lemma bigvec_DivideAndRound_centered_witness :
  DivideAndRound_vector (encode_vec (2 ^ 89 - 1) [2 ^ 89 - 2; 1]) (encode 4) =
    Ok (encode_vec (2 ^ 89 - 1) [2 ^ 89 - 1; 0]).
Proof.
  apply (bigvec_DivideAndRound_centered (2 ^ 89 - 1) 4 [2 ^ 89 - 2; 1]); first [lia | fits | repeat constructor; lia].
Defined.

(** ** Inverses and powers *)

(** The entrywise inverse exists exactly when every entry is a unit; otherwise the
    method throws [math_error]. *)
Theorem bigvec_ModInverse_total q xs fuel :
  1 < q -> fits q -> Forall fits xs -> 2 * GetMSB q <= Z.of_nat fuel ->
  (Forall (fun x => Z.gcd x q = 1) xs ->
     exists zs, ModInverse_vector fuel (encode_vec q xs) = Ok (encode_vec q zs) /\
       Forall2 (fun x z => 0 < z < q /\ (x * z) mod q = 1) xs zs) /\
  (Exists (fun x => Z.gcd x q <> 1) xs ->
     ModInverse_vector fuel (encode_vec q xs) = Throw math_error).
Proof.
  intros Hq Fq Hxs Hfu.
  assert (forall x, fits x ->
    if Z.gcd x q =? 1 then exists z, (0 < z < q /\ (x * z) mod q = 1) /\ ModInverseEq fuel (encode x) (encode q) = Ok (encode z)
    else ModInverseEq fuel (encode x) (encode q) = Throw math_error) as Hinv.
  { intros x Fx. destruct (Z.eqb_spec (Z.gcd x q) 1) as [E|E]; unfold ModInverseEq.
    - destruct (proj1 (returns_Ok _ _) (ModInverse_represents _ _ x q fuel (encode_represents x Fx)
        (encode_represents q Fq) Hq Hfu E)) as (r & -> & z & Rz & Hz & Hz').
      exists z. split; [done|]. by rewrite (represents_encode r z Rz).
    - apply (ModInverse_throws _ _ x q fuel); auto with fhe. }
  unfold ModInverse_vector, map_data. cbn [m_data m_modulus mubintvec_copy encode_vec]. split; intros H.
  - assert (exists zs, vmapM (fun x => ModInverseEq fuel x (encode q)) (map encode xs) = Ok (map encode zs) /\
      Forall2 (fun x z => 0 < z < q /\ (x * z) mod q = 1) xs zs) as (zs & -> & Hzs); [|by exists zs].
    induction H as [|x xs E _ IH]; [by exists []|]. apply Forall_cons in Hxs as [Fx Hxs].
    destruct (IH Hxs) as (zs & E2 & Hz). pose proof (Hinv x Fx) as Hx. rewrite E in Hx.
    destruct Hx as (z & Hzx & E1). exists (z :: zs). cbn [map vmapM]. rewrite E1, bind_Ok, E2, bind_Ok. by split; [|constructor].
  - rewrite (vmapM_throws _ math_error); [done| |].
    + apply Forall_map. eapply Forall_impl; [exact Hxs|]. cbv beta. intros x Fx. pose proof (Hinv x Fx) as Hx.
      destruct (_ =? 1); [left; destruct Hx as (z & _ & ->); by eexists | by right].
    + apply Exists_exists. apply Exists_exists in H as (x & Hin & Hne). exists (encode x).
      split; [by apply list_elem_of_fmap_2|]. pose proof (Hinv x (proj1 (Forall_forall _ _) Hxs x Hin)) as Hx.
      by rewrite (proj2 (Z.eqb_neq _ _) Hne) in Hx.
Qed.

Lemma bigvec_ModInverse_total_witness :
  ModInverse_vector 200 (encode_vec (2 ^ 88) [3; 2]) = Throw math_error.
Proof.
  apply (bigvec_ModInverse_total (2 ^ 88) [3; 2] 200);
    [lia | fits | fits_list | vm_compute; discriminate | right; left; vm_compute; discriminate].
Defined.

(** Raising a vector of units to a power stores the residues of the powers. *)
Theorem bigvec_ModExp_refines q e xs fuel :
  1 < q -> fits (q * q) -> fits e -> Forall fits xs -> GetMSB e <= Z.of_nat fuel -> (1 <= fuel)%nat ->
  Forall (fun x => Z.gcd x q = 1) xs ->
  ModExp_vector fuel (encode_vec q xs) (encode e) = Ok (encode_vec q (map (fun x => x ^ e mod q) xs)) /\
  ModExpEq_vector fuel (encode_vec q xs) (encode e) = Ok (encode_vec q (map (fun x => x ^ e mod q) xs)).
Proof.
  intros Hq Fqq Fe Hxs Hfu H1 Hu. assert (fits q) as Fq by (eapply fits_mono; [exact Fqq | nia]).
  assert (map_data (fun x => ModExpEq fuel x (encode e) (encode q)) (encode_vec q xs) =
    Ok (encode_vec q (map (fun x => x ^ e mod q) xs))) as E; [|split; exact E].
  apply map_data_encode. eapply Forall_impl; [apply Forall_and; split; [exact Hxs | exact Hu]|]. cbv beta.
  intros x [Fx Hx]. unfold ModExpEq. enc. apply ModExp_coprime; auto with fhe; lia.
Qed.

Lemma bigvec_ModExp_refines_witness :
  ModExp_vector 70 (encode_vec (2 ^ 89 - 1) [3]) (encode 20) = Ok (encode_vec (2 ^ 89 - 1) [3 ^ 20]).
Proof.
  apply (bigvec_ModExp_refines (2 ^ 89 - 1) 20 [3] 70);
    [lia | fits | fits | fits_list | vm_compute; discriminate | lia | repeat constructor].
Defined.

(** ** Assignment *)

(** The list padded with zeros to the length of the vector. *)
Definition padded (n : nat) (rhs : list Z) : list Z := map (fun i => default 0 (rhs !! i)) (seq 0 n).

Lemma padded_entries n rhs : Forall (fun x => 0 <= x < 2 ^ 64) rhs -> Forall (fun x => 0 <= x < 2 ^ 64) (padded n rhs).
Proof.
  intros H. apply Forall_map, Forall_true. intros i. destruct (rhs !! i) eqn:E; simpl; [|lia].
  exact (Forall_lookup_1 _ _ _ _ H E).
Qed.

(** Assigning a list of words to a vector with an initialized modulus: the vector is
    lengthened if the list is longer, filled with zeros, and reduced, for every
    modulus other than two. *)
Theorem bigvec_assign_ints_reduces q xs rhs :
  0 < q -> q <> 2 -> fits (2 * q) -> Forall (fun x => 0 <= x < 2 ^ 64) rhs ->
  assign_ints (encode_vec q xs) rhs =
    Ok (encode_vec q (map (fun x => x mod q) (padded (Nat.max (length xs) (length rhs)) rhs))).
Proof.
  intros Hq H2 F2 Hrhs. unfold assign_ints, assign_list. cbn [m_data encode_vec]. rewrite length_map.
  replace (if (length xs <? length rhs)%nat then length rhs else length xs) with (Nat.max (length xs) (length rhs))
    by (destruct (Nat.ltb_spec (length xs) (length rhs)); lia).
  set (n := Nat.max _ _).
  rewrite (vmapM_Ok _ (fun i => encode (default 0 (rhs !! i)))).
  2: { apply Forall_true. intros i. destruct (rhs !! i) eqn:E; simpl; [|done].
       f_equal. apply represents_encode, ubint_u64_represents. exact (Forall_lookup_1 _ _ _ _ Hrhs E). }
  rewrite bind_Ok, <- (map_map (fun i => default 0 (rhs !! i)) encode). fold (padded n rhs).
  change (set_data (encode_vec q xs) (map encode (padded n rhs))) with (encode_vec q (padded n rhs)).
  cbn [m_modulus_state m_modulus encode_vec]. rewrite bool_decide_true by done. fold (encode_vec q (padded n rhs)).
  assert (Forall fits (padded n rhs)) as Fp.
  { eapply Forall_impl; [by apply padded_entries|]. cbv beta. intros x Hx. apply (fits_bits x 64); [done | by vm_compute]. }
  rewrite (proj1 (bigvec_Mod_centered q q (padded n rhs) Hq Hq (modulus_fits q Hq F2) F2 Fp)).
  do 2 f_equal. apply map_ext. intros x. rewrite (proj2 (Z.eqb_neq _ _) H2).
  apply eqmod_elim, centered_eqmod.
Qed.

Lemma bigvec_assign_ints_reduces_witness :
  assign_ints (encode_vec 17 [1; 2; 3]) [40; 16] = Ok (encode_vec 17 [6; 16; 0]).
Proof. apply (bigvec_assign_ints_reduces 17 [1; 2; 3] [40; 16]); first [lia | fits | repeat constructor; lia]. Defined.

(** ** Where the code departs from its contract *)

(** Modulo two the reduction flips the parity of an unreduced entry: 3 becomes 0. *)
Example assign_ints_modulus_two : assign_ints (encode_vec 2 [0]) [3] = Ok (encode_vec 2 [0]).
Proof. vm_compute. reflexivity. Qed.

(** A product by one leaves an unreduced scalar in the vector. *)
Example ModMul_scalar_unreduced :
  ModMul_scalar (encode_vec 7 [1; 2]) (encode 10) = Ok (encode_vec 7 [10; 6]).
Proof. vm_compute. reflexivity. Qed.

(** A copy of a vector whose modulus was never set passes the check of [GetModulus]. *)
Example copy_initializes :
  GetModulus (mubintvec_length 3) = Throw not_available_error /\
  GetModulus (mubintvec_copy (mubintvec_length 3)) = Ok (encode 0).
Proof. split; reflexivity. Qed.

(** The index check lets the length itself through. *)
Lemma bigvec_at_one_past_end v : at_ v (GetLength v) = UB.
Proof.
  unfold at_, IndexCheck, GetLength. rewrite Nat.ltb_irrefl. cbn [negb]. unfold vget.
  by rewrite lookup_ge_None_2.
Qed.

(** The output of an empty vector has an opening bracket only. *)
Example print_empty : print_vector (encode_vec 5 []) = Ok ("["%char :: modulus_label ++ ["5"%char]).
Proof. vm_compute. reflexivity. Qed.
Example print_two :
  print_vector (encode_vec 50 [7; 12]) = Ok (["["; "7"; " "; "1"; "2"; "]"]%char ++ modulus_label ++ ["5"; "0"]%char).
Proof. vm_compute. reflexivity. Qed.
