(* ===== verification/Vector.v ===== *)
(** * The vector interface and its clients

    core/include/math/hal/vector.h declares, as the template
    [BigVectorInterface<T, I>], what every vector class of the library offers, and
    defines unary minus and the comparison for all of them. Here the interface is a
    class of operations over an integer class, its promises are a second class of
    laws over the list of residues a vector stands for, and the operators of the
    header and the round trip through a larger modulus are proved from the laws.
    The vectors of native integers and of multiprecision integers are the
    instances. *)
From stdpp Require Import base numbers list.
From Stdlib Require Import ZArith Lia.
From S2P Require Import Prelude Bits NativeInt NativeIntProps NativeVector BigInt BigDiv BigIntProps Integer BigRefine BigVector BigVectorProps.
Open Scope Z_scope.

(** ** The operations *)

Class BigVectorInterface (V I : Type) := {
  vLength : V -> nat;
  vGetModulus : V -> outcome I;
  vIndex : V -> nat -> outcome I;
  vSwitchModulus : V -> I -> outcome V;
  vModAdd : V -> V -> outcome V;
  vModSub : V -> V -> outcome V;
  vModMul : V -> V -> outcome V;
  vModAddScalar : V -> I -> outcome V;
  vModSubScalar : V -> I -> outcome V;
  vModMulScalar : V -> I -> outcome V
}.

(** Unary minus of the interface. *)
Definition vec_neg {V I} `{BigVectorInterface V I} `{BigIntegerInterface I} (a : V) : outcome V :=
  q ← vGetModulus a;
  s ← iSub q (of_uint64 1);
  vModMulScalar a s.

(** [operator==] of the interface; the moduli are read when the lengths agree. *)
Definition vec_eq {V I} `{BigVectorInterface V I} `{BigIntegerInterface I} (a b : V) : outcome bool :=
  if negb (vLength a =? vLength b)%nat then Ok false
  else
    qa ← vGetModulus a;
    qb ← vGetModulus b;
    ne ← int_ne qa qb;
    if (ne : bool) then Ok false
    else
      for_range 0 (vLength a) (fun i acc =>
        if (acc : bool) then
          x ← vIndex a i;
          y ← vIndex b i;
          ne ← int_ne x y;
          Ok (negb ne)
        else Ok false) true.

(** ** The laws

    [vden v q xs]: the vector [v] has the modulus [q] and the reduced entries [xs];
    [modulus_ok q]: the class accepts the modulus; [product_ok q]: its modular
    product is exact for it. *)
Class VectorLaws (V I : Type) `{BigVectorInterface V I} `{BigIntegerInterface I}
    (den : I -> Z -> Prop) (vden : V -> Z -> list Z -> Prop) (modulus_ok product_ok : Z -> Prop) := {
  law_reduced : forall v q xs, vden v q xs -> 0 < q /\ modulus_ok q /\ reduced q xs;
  law_same : forall v w q xs, vden v q xs -> vden w q xs -> v = w;
  law_length : forall v q xs, vden v q xs -> vLength v = length xs;
  law_modulus : forall v q xs, vden v q xs -> returns (vGetModulus v) (fun m => den m q);
  law_index : forall v q xs i x, vden v q xs -> xs !! i = Some x -> returns (vIndex v i) (fun r => den r x);
  law_switch : forall v q xs m q', vden v q xs -> den m q' -> 0 < q' -> modulus_ok q' ->
    returns (vSwitchModulus v m) (fun r => vden r q' (map (fun x => centered q x mod q') xs));
  law_vadd : forall v w q xs ys, vden v q xs -> vden w q ys -> length xs = length ys ->
    returns (vModAdd v w) (fun r => vden r q (zip_with (fun x y => (x + y) mod q) xs ys));
  law_vsub : forall v w q xs ys, vden v q xs -> vden w q ys -> length xs = length ys ->
    returns (vModSub v w) (fun r => vden r q (zip_with (fun x y => (x - y) mod q) xs ys));
  law_vmul : forall v w q xs ys, vden v q xs -> vden w q ys -> length xs = length ys -> product_ok q ->
    returns (vModMul v w) (fun r => vden r q (zip_with (fun x y => (x * y) mod q) xs ys));
  law_mismatch : forall v w q q' xs ys, vden v q xs -> vden w q' ys -> ~ (q = q' /\ length xs = length ys) ->
    vModAdd v w = Throw math_error /\ vModSub v w = Throw math_error /\ vModMul v w = Throw math_error;
  law_vadds : forall v q xs s x, vden v q xs -> den s x -> x < q ->
    returns (vModAddScalar v s) (fun r => vden r q (map (fun y => (y + x) mod q) xs));
  law_vsubs : forall v q xs s x, vden v q xs -> den s x -> x < q ->
    returns (vModSubScalar v s) (fun r => vden r q (map (fun y => (y - x) mod q) xs));
  law_vmuls : forall v q xs s x, vden v q xs -> den s x -> x < q -> product_ok q ->
    returns (vModMulScalar v s) (fun r => vden r q (map (fun y => (y * x) mod q) xs))
}.

(** ** The clients, against the laws *)

Section Client.
Context {V I : Type} {den : I -> Z -> Prop} {range : Z -> Prop}.
Context {vden : V -> Z -> list Z -> Prop} {modulus_ok product_ok : Z -> Prop}.
Context `{VI : BigVectorInterface V I} `{II : BigIntegerInterface I}.
Context `{LI : !IntegerLaws I den range} `{LV : !VectorLaws V I den vden modulus_ok product_ok}.

Lemma vec_neg_spec v q xs :
  vden v q xs -> product_ok q -> range 1 ->
  returns (vec_neg v) (fun r => vden r q (map (fun x => (- x) mod q) xs)).
Proof.
  intros Hv Hp H1. destruct (law_reduced v q xs Hv) as (Hq & _ & _). unfold vec_neg.
  eapply returns_bind; [by apply (law_modulus v q xs)|]. intros m Hm.
  eapply returns_bind; [apply (law_sub m (of_uint64 1) q 1 Hm); [by apply law_uint64 | lia]|]. intros s Hs.
  replace (map (fun x => (- x) mod q) xs) with (map (fun y => (y * (q - 1)) mod q) xs).
  - by apply (law_vmuls v q xs s (q - 1)); [..|lia|].
  - apply map_ext. intros x. apply eqmod_elim, eqmod_divide; [lia|]. exists x. ring.
Qed.

Lemma vec_eq_spec v w q q' xs ys :
  vden v q xs -> vden w q' ys -> vec_eq v w = Ok (bool_decide (q = q' /\ xs = ys)).
Proof.
  intros Hv Hw. unfold vec_eq. rewrite (law_length v q xs Hv), (law_length w q' ys Hw).
  destruct (Nat.eqb_spec (length xs) (length ys)) as [El|El]; cbn [negb].
  2: { rewrite bool_decide_false; [done|]. intros [_ ->]. done. }
  destruct (proj1 (returns_Ok _ _) (law_modulus v q xs Hv)) as (a & -> & Ha).
  destruct (proj1 (returns_Ok _ _) (law_modulus w q' ys Hw)) as (b & -> & Hb).
  rewrite !bind_Ok, (int_ne_spec _ _ _ _ Ha Hb), bind_Ok.
  destruct (Z.eqb_spec q q') as [->|Hne]; cbn [negb].
  2: { rewrite bool_decide_false; [done|]. tauto. }
  assert (forall m : outcome bool, returns m (fun b => b = true <-> take (length xs) xs = take (length xs) ys) ->
    m = Ok (bool_decide (q' = q' /\ xs = ys))) as Hend.
  { intros m (c & -> & Hc)%returns_Ok. f_equal. apply Bool.eq_true_iff_eq.
    rewrite Hc, bool_decide_eq_true, !take_ge by lia. tauto. }
  apply Hend, (for_range_inv (fun i (b : bool) => b = true <-> take i xs = take i ys)); [lia | done |].
  intros i acc Hi Hacc. destruct (lookup_lt_is_Some_2 xs i ltac:(lia)) as [x Ex].
  destruct (lookup_lt_is_Some_2 ys i ltac:(lia)) as [y Ey].
  rewrite (take_S_r xs i x Ex), (take_S_r ys i y Ey). destruct acc.
  - destruct (proj1 (returns_Ok _ _) (law_index v q' xs i x Hv Ex)) as (c & -> & Hc).
    destruct (proj1 (returns_Ok _ _) (law_index w q' ys i y Hw Ey)) as (d & -> & Hd).
    rewrite !bind_Ok, (int_ne_spec _ _ _ _ Hc Hd), bind_Ok, negb_involutive. simpl.
    rewrite Z.eqb_eq, (proj1 Hacc eq_refl). split; [by intros -> | intros [_ E]%app_inj_tail; done].
  - simpl. split; [done|]. intros [E _]%app_inj_tail. by apply Hacc in E.
Qed.

(** Switching to a larger modulus keeps the centered representatives. *)
Lemma centered_lift q q' x : 0 <= x < q -> q <= q' -> centered q' (centered q x mod q') = centered q x.
Proof.
  intros Hx Hqq. pose proof (Z.div_mod q 2 ltac:(lia)). pose proof (mod_range q 2 ltac:(lia)).
  pose proof (Z.div_mod q' 2 ltac:(lia)). pose proof (mod_range q' 2 ltac:(lia)).
  destruct (Z.lt_ge_cases (q / 2) x).
  - rewrite (centered_high q x) by done. replace ((x - q) mod q') with (x - q + q')
      by (rewrite <- (Z_mod_plus_full (x - q) 1), Z.mod_small; lia).
    rewrite centered_high; lia.
  - rewrite (centered_low q x), Z.mod_small, centered_low; lia.
Qed.

Lemma switch_round_trip v q q' xs m m' :
  vden v q xs -> den m q -> den m' q' -> q <= q' -> modulus_ok q' ->
  (w ← vSwitchModulus v m'; vSwitchModulus w m) = Ok v.
Proof.
  intros Hv Hm Hm' Hqq Hok. destruct (law_reduced v q xs Hv) as (Hq & Hok' & Hr).
  destruct (proj1 (returns_Ok _ _) (law_switch v q xs m' q' Hv Hm' ltac:(lia) Hok)) as (w & -> & Hw).
  rewrite bind_Ok. destruct (proj1 (returns_Ok _ _) (law_switch w q' _ m q Hw Hm Hq Hok')) as (u & -> & Hu).
  f_equal. apply (law_same u v q xs); [|done]. rewrite map_map in Hu.
  replace xs with (map (fun x => centered q' (centered q x mod q') mod q) xs); [done|].
  rewrite <- (map_id xs) at 2. apply map_ext_in. intros x Hin%list_elem_of_In.
  pose proof (proj1 (Forall_forall _ _) Hr x Hin) as Hx. cbv beta in Hx. rewrite centered_lift by done.
  rewrite (eqmod_elim _ _ _ (centered_eqmod q x)). by apply Z.mod_small.
Qed.
End Client.

(** ** The vectors of native integers implement the interface *)

Section Native.
Context `{W : NativeWidth}.

#[export] Instance native_vector_interface : BigVectorInterface NativeVectorT Z := {
  vLength := NativeVector.GetLength;
  vGetModulus v := Ok (NativeVector.m_modulus v);
  vIndex v i := vget (NativeVector.m_data v) i;
  vSwitchModulus := NativeVector.SwitchModulus;
  vModAdd := NativeVector.ModAdd_vector;
  vModSub := NativeVector.ModSub_vector;
  vModMul := NativeVector.ModMul_vector;
  vModAddScalar := NativeVector.ModAdd_scalar;
  vModSubScalar := NativeVector.ModSub_scalar;
  vModMulScalar := NativeVector.ModMul_scalar
}.

Definition native_vden (v : NativeVectorT) (q : Z) (xs : list Z) : Prop := v = mkVector xs q /\ vec_wf v.
Definition native_modulus (q : Z) : Prop := 0 < q /\ GetMSB q <= MAX_MODULUS_SIZE.
Definition native_product (q : Z) : Prop := Z.prime q /\ 4 <= q.

Lemma native_map_wf q xs (f : Z -> Z) :
  vec_wf (mkVector xs q) -> vec_wf (mkVector (map (fun x => f x mod q) xs) q).
Proof. apply (map_mod_wf f (mkVector xs q)). Qed.

Lemma native_ModAdd_scalar xs q s :
  vec_wf (mkVector xs q) -> 0 <= s < q ->
  NativeVector.ModAdd_scalar (mkVector xs q) s = Ok (mkVector (map (fun x => (x + s) mod q) xs) q).
Proof.
  intros Hv Hs. pose proof (wf_word _ Hv) as (Hq & Hq2 & Hw). simpl in *.
  unfold NativeVector.ModAdd_scalar, NativeVector.ModAddEq_scalar. cbn [NativeVector.m_modulus NativeVector.m_data].
  rewrite Z.gtb_ltb, (proj2 (Z.ltb_ge _ _)), bind_Ok by lia.
  rewrite (vmapM_Ok _ (fun x => (x + s) mod q)); [done|].
  eapply Forall_impl; [apply (wf_entries _ Hv)|]. simpl. intros x Hx. f_equal. apply ModAddFast_correct; lia.
Qed.

Lemma native_ModSub_scalar xs q s :
  vec_wf (mkVector xs q) -> 0 <= s < q ->
  NativeVector.ModSub_scalar (mkVector xs q) s = Ok (mkVector (map (fun x => (x - s) mod q) xs) q).
Proof.
  intros Hv Hs. pose proof (wf_word _ Hv) as (Hq & Hq2 & Hw). simpl in *.
  unfold NativeVector.ModSub_scalar, NativeVector.ModSubEq_scalar. cbn [NativeVector.m_modulus NativeVector.m_data].
  rewrite (vmapM_Ok _ (fun x => (x - s) mod q)); [done|].
  eapply Forall_impl; [apply (wf_entries _ Hv)|]. simpl. intros x Hx. apply (ModSub_correct x s q); lia.
Qed.

#[export] Instance native_vector_laws :
  VectorLaws NativeVectorT Z word_den native_vden native_modulus native_product.
Proof.
  split.
  - intros v q xs [-> Hv]. destruct Hv as [Hq Hs He]. by split_and!.
  - by intros v w q xs [-> _] [-> _].
  - by intros v q xs [-> _].
  - intros v q xs [-> Hv]. pose proof (wf_word _ Hv). simpl in *. unfold word_den, word_range. lia.
  - intros v q xs i x [-> Hv] E. simpl. rewrite (vget_Some _ _ _ E). simpl. split; [done|].
    pose proof (wf_word _ Hv). pose proof (Forall_lookup_1 _ _ _ _ (wf_entries _ Hv) E). simpl in *.
    unfold word_range. lia.
  - intros v q xs m q' [-> Hv] [-> _] Hq' [_ Hs]. destruct (SwitchModulus_ok _ q' Hv Hq' Hs) as [E Hw].
    simpl. rewrite E. simpl in *. by split.
  - intros v w q xs ys [-> Hv] [-> Hw] El. pose proof (vector_add_sub_correct _ _ Hv Hw) as H.
    rewrite decide_True in H by done. destruct H as (E & _ & Hwf & _). simpl. rewrite E. by split.
  - intros v w q xs ys [-> Hv] [-> Hw] El. pose proof (vector_add_sub_correct _ _ Hv Hw) as H.
    rewrite decide_True in H by done. destruct H as (_ & E & _ & Hwf). simpl. rewrite E. by split.
  - intros v w q xs ys [-> Hv] [-> Hw] El [Hp H4]. simpl.
    rewrite (NativeVector.ModMul_vector_ok _ _ Hv Hw) by done. split; [done | by apply (zip_mod_wf Z.mul (mkVector xs q))].
  - intros v w q q' xs ys [-> Hv] [-> Hw] Hne. simpl.
    unfold NativeVector.ModAdd_vector, NativeVector.ModSub_vector, NativeVector.ModMul_vector,
      NativeVector.ModAddEq_vector, NativeVector.ModSubEq_vector, NativeVector.ModMulEq_vector.
    destruct (different_parameters (mkVector xs q) (mkVector ys q')) eqn:E; [done|].
    apply different_parameters_spec in E as [El Eq]. by destruct Hne.
  - intros v q xs s x [-> Hv] [-> [H0 _]] Hx. simpl. rewrite native_ModAdd_scalar by done.
    split; [done | by apply (native_map_wf q xs (fun y => y + x))].
  - intros v q xs s x [-> Hv] [-> [H0 _]] Hx. simpl. rewrite native_ModSub_scalar by done.
    split; [done | by apply (native_map_wf q xs (fun y => y - x))].
  - intros v q xs s x [-> Hv] [-> Hr] Hx _. simpl. rewrite (ModMul_scalar_ok _ _ Hv Hr).
    split; [done | by apply (native_map_wf q xs (fun y => y * x))].
Qed.
End Native.

(** ** The vectors of multiprecision integers implement the interface *)

#[export] Instance big_vector_interface : BigVectorInterface mubintvec ubint := {
  vLength := GetLength;
  vGetModulus := GetModulus;
  vIndex v i := vget (m_data v) i;
  vSwitchModulus := SwitchModulus;
  vModAdd := ModAdd_vector;
  vModSub := ModSub_vector;
  vModMul := ModMul_vector;
  vModAddScalar := ModAdd_scalar;
  vModSubScalar := ModSub_scalar;
  vModMulScalar := ModMul_scalar
}.

Definition big_modulus (q : Z) : Prop := 0 < q /\ fits (2 * q).
Definition big_product (q : Z) : Prop := fits (q + q * q) /\ GetMSB q mod 32 <> 0.
Definition big_vden (v : mubintvec) (q : Z) (xs : list Z) : Prop :=
  v = encode_vec q xs /\ big_modulus q /\ reduced q xs.

#[export] Instance big_vector_laws : VectorLaws mubintvec ubint represents big_vden big_modulus big_product.
Proof.
  split.
  - intros v q xs (-> & Hm & Hr). split_and!; [apply Hm | done | done].
  - by intros v w q xs [-> _] [-> _].
  - intros v q xs [-> _]. apply length_map.
  - intros v q xs (-> & [Hq Hf] & _). simpl. apply encode_represents. by apply modulus_fits.
  - intros v q xs i x (-> & [Hq Hf] & Hr) E. simpl. rewrite (vget_Some _ i (encode x)).
    + simpl. apply encode_represents. apply (entry_fits q Hq Hf). exact (Forall_lookup_1 _ _ _ _ Hr E).
    + by rewrite list_lookup_fmap, E.
  - intros v q xs m q' (-> & [Hq Hf] & Hr) Hm Hq' [_ Hf']. pose proof (modulus_fits q Hq Hf) as Fq. simpl.
    rewrite (represents_encode m q' Hm).
    destruct (bigvec_SwitchModulus_centered q q' xs) as [-> Hr']; [done.. | by apply (reduced_fits q) |]. by split.
  - intros v w q xs ys (-> & [Hq Hf] & Hr) (-> & _ & Hr') El. simpl.
    rewrite bigvec_ModAdd_ok, bool_decide_true by done. split; [done|]. split; [done | by apply (reduced_zip_mod q Z.add)].
  - intros v w q xs ys (-> & [Hq Hf] & Hr) (-> & _ & Hr') El. simpl.
    rewrite bigvec_ModSub_ok, bool_decide_true by done. split; [done|]. split; [done | by apply (reduced_zip_mod q Z.sub)].
  - intros v w q xs ys (-> & [Hq Hf] & Hr) (-> & _ & Hr') El [Hp H32]. simpl.
    rewrite bigvec_ModMul_ok, bool_decide_true by done. split; [done|]. split; [done | by apply (reduced_zip_mod q Z.mul)].
  - intros v w q q' xs ys (-> & [Hq Hf] & Hr) (-> & [Hq' Hf'] & Hr') Hne. simpl. by split_and!; apply zip_mismatch.
  - intros v q xs s x (-> & [Hq Hf] & Hr) Hs Hx. simpl. rewrite (represents_encode s x Hs).
    destruct (bigvec_scalar_ok q Hq Hf xs x) as (-> & _); [by apply (reduced_fits q); [apply modulus_fits|] | by eapply represents_fits |].
    split; [done|]. split; [done | by apply (reduced_map_mod q (fun y => y + x))].
  - intros v q xs s x (-> & [Hq Hf] & Hr) Hs Hx. simpl. rewrite (represents_encode s x Hs).
    destruct (bigvec_scalar_ok q Hq Hf xs x) as (_ & _ & -> & _); [by apply (reduced_fits q); [apply modulus_fits|] | by eapply represents_fits |].
    split; [done|]. split; [done | by apply (reduced_map_mod q (fun y => y - x))].
  - intros v q xs s x (-> & [Hq Hf] & Hr) Hs Hx [Hp H32]. simpl. rewrite (represents_encode s x Hs).
    pose proof (represents_nonneg s x Hs). rewrite bigvec_mul_scalar_ok by done.
    split; [done|]. split; [done | by apply (reduced_map_mod q (fun y => y * x))].
Qed.

(** The operators of the multiprecision class are those of the header. *)
Lemma big_vec_eq v w : eqb_vector v w = vec_eq v w.
Proof. reflexivity. Qed.
Lemma big_vec_neg v : neg_vector v = vec_neg v.
Proof. reflexivity. Qed.

(** ** The properties *)



(** Both vector classes satisfy the laws of the interface, so the unary minus and the
    comparison of the header negate and compare the residues for both. *)
Theorem vector_classes_implement_interface :
  (forall W : NativeWidth, VectorLaws NativeVectorT Z word_den native_vden native_modulus native_product) /\
  VectorLaws mubintvec ubint represents big_vden big_modulus big_product.
Proof. split; intros; apply _. Qed.

(** The header's operators for the multiprecision vectors. *)
Corollary big_vector_operators q q' xs ys :
  big_vden (encode_vec q xs) q xs -> big_vden (encode_vec q' ys) q' ys ->
  eqb_vector (encode_vec q xs) (encode_vec q' ys) = Ok (bool_decide (q = q' /\ xs = ys)) /\
  (big_product q -> neg_vector (encode_vec q xs) = Ok (encode_vec q (map (fun x => (- x) mod q) xs))).
Proof.
  intros Hx Hy. split; [rewrite big_vec_eq; by apply (vec_eq_spec (den := represents) (vden := big_vden))|]. intros Hp.
  destruct (proj1 (returns_Ok _ _) (vec_neg_spec (range := fits) _ _ _ Hx Hp ltac:(fits))) as (r & E & -> & _).
  by rewrite big_vec_neg.
Qed.
