(* ===== verification/BigNtt.v ===== *)
(** * Number-theoretic transforms of multiprecision vectors

    Models src/core/include/math/hal/bigintdyn/transformdyn-impl.h: the class
    [NumberTheoreticTransformDyn] and the class [ChineseRemainderTransformFTTDyn]
    with its tables cached by modulus, over the vectors [mubintvec]. The loops over
    stages and blocks are those of Ntt.v; the butterflies use the operations of the
    multiprecision integers. The variants with precomputed quotients multiply with
    [ModMulFastConstEq], which this class of integers does not implement. *)
From stdpp Require Import base numbers list.
From Stdlib Require Import ZArith Lia.
From S2P Require Import Prelude Bits Ntt BigInt BigDiv BigVector.
Open Scope Z_scope.

(** The methods of the header that only throw. *)
Definition ModMulFastConst (this b modulus bInv : ubint) : outcome ubint := Throw not_implemented_error.
Definition ModMulFastConstEq (this b modulus bInv : ubint) : outcome ubint := Throw not_implemented_error.

(** [ModInverse] with enough fuel for its loop: two turns halve a number below the
    modulus. *)
Definition BigModInverse (x modulus : ubint) : outcome ubint :=
  ModInverse (Z.to_nat (2 * m_MSB modulus)) x modulus.

(** ** Butterflies *)

(** [hiVal = loVal + omegaFactor; if (hiVal >= modulus) hiVal -= modulus;] *)
Definition big_sum (loVal omegaFactor modulus : ubint) : outcome ubint :=
  hiVal ← Add loVal omegaFactor;
  ge ← op_ge hiVal modulus;
  if (ge : bool) then SubEq hiVal modulus else Ok hiVal.
(** [if (loVal < omegaFactor) loVal += modulus; loVal -= omegaFactor;] *)
Definition big_diff (loVal omegaFactor modulus : ubint) : outcome ubint :=
  lt ← op_lt loVal omegaFactor;
  loVal ← (if (lt : bool) then AddEq loVal modulus else Ok loVal);
  SubEq loVal omegaFactor.
(** [loVal += hiVal; if (loVal >= modulus) loVal -= modulus;] *)
Definition big_sum_eq (loVal hiVal modulus : ubint) : outcome ubint :=
  loVal ← AddEq loVal hiVal;
  ge ← op_ge loVal modulus;
  if (ge : bool) then SubEq loVal modulus else Ok loVal.

Definition big_fwd_butterfly (mul : ubint -> outcome ubint) (modulus : ubint) (t indexLo : nat)
    (element : list ubint) : outcome (list ubint) :=
  let indexHi := (indexLo + t)%nat in
  loVal ← vget element indexLo;
  omegaFactor ← vget element indexHi;
  omegaFactor ← mul omegaFactor;
  hiVal ← big_sum loVal omegaFactor modulus;
  loVal ← big_diff loVal omegaFactor modulus;
  element ← vset element indexLo hiVal;
  vset element indexHi loVal.

(** The same with the shortcut of the copying transforms for a zero entry. *)
Definition big_fwd_butterfly_nz (mul : ubint -> outcome ubint) (modulus : ubint) (t indexLo : nat)
    (result : list ubint) : outcome (list ubint) :=
  let indexHi := (indexLo + t)%nat in
  loVal ← vget result indexLo;
  omegaFactor ← vget result indexHi;
  ne ← op_ne omegaFactor (ubint_int 0);
  if (ne : bool) then
    omegaFactor ← mul omegaFactor;
    hiVal ← big_sum loVal omegaFactor modulus;
    loVal ← big_diff loVal omegaFactor modulus;
    result ← vset result indexLo hiVal;
    vset result indexHi loVal
  else vset result indexHi loVal.

Definition big_inv_butterfly (mul : ubint -> outcome ubint) (modulus : ubint) (t indexLo : nat)
    (element : list ubint) : outcome (list ubint) :=
  let indexHi := (indexLo + t)%nat in
  hiVal ← vget element indexHi;
  loVal ← vget element indexLo;
  omegaFactor ← big_diff loVal hiVal modulus;
  loVal ← big_sum_eq loVal hiVal modulus;
  omegaFactor ← mul omegaFactor;
  element ← vset element indexLo loVal;
  vset element indexHi omegaFactor.

(** ** Transforms to and from bit-reversed order *)

Definition big_twiddle1 (table : mubintvec) (i : nat) : outcome ubint := vget (m_data table) i.
Definition big_twiddle2 (table preconTable : mubintvec) (i : nat) : outcome (ubint * ubint) :=
  omega ← vget (m_data table) i;
  preconOmega ← vget (m_data preconTable) i;
  Ok (omega, preconOmega).

Definition BigForwardToBitReverseInPlace (rootOfUnityTable element : mubintvec)
    : outcome mubintvec :=
  modulus ← GetModulus element;
  modulus ← ubint_copy modulus;
  mu ← ComputeMu modulus;
  data ← forward_stages (big_twiddle1 rootOfUnityTable)
           (fun omega => big_fwd_butterfly (fun x => ModMulFastEq_mu x omega modulus mu) modulus)
           (m_data element);
  Ok (set_data element data).

(** [result->SetModulus(modulus)] and the copy of the entries. *)
Definition big_copy_to_result (modulus : ubint) (element result : mubintvec) : outcome mubintvec :=
  let result := SetModulus result modulus in
  data ← for_range 0 (GetLength element) (fun i d =>
           x ← vget (m_data element) i; vset d i x) (m_data result);
  Ok (set_data result data).

Definition BigForwardToBitReverse (element rootOfUnityTable result : mubintvec)
    : outcome mubintvec :=
  if negb (GetLength result =? GetLength element)%nat then Throw math_error
  else
    modulus ← GetModulus element;
    modulus ← ubint_copy modulus;
    mu ← ComputeMu modulus;
    result ← big_copy_to_result modulus element result;
    data ← forward_stages (big_twiddle1 rootOfUnityTable)
             (fun omega => big_fwd_butterfly_nz (fun x => ModMulFastEq_mu x omega modulus mu) modulus)
             (m_data result);
    Ok (set_data result data).

Definition BigForwardToBitReverseInPlace_precon (rootOfUnityTable preconRootOfUnityTable
    element : mubintvec) : outcome mubintvec :=
  modulus ← GetModulus element;
  modulus ← ubint_copy modulus;
  data ← forward_stages (big_twiddle2 rootOfUnityTable preconRootOfUnityTable)
           (fun om => big_fwd_butterfly (fun x => ModMulFastConstEq x (fst om) modulus (snd om)) modulus)
           (m_data element);
  Ok (set_data element data).

Definition BigForwardToBitReverse_precon (element rootOfUnityTable preconRootOfUnityTable
    result : mubintvec) : outcome mubintvec :=
  if negb (GetLength result =? GetLength element)%nat then Throw math_error
  else
    modulus ← GetModulus element;
    modulus ← ubint_copy modulus;
    result ← big_copy_to_result modulus element result;
    data ← forward_stages (big_twiddle2 rootOfUnityTable preconRootOfUnityTable)
             (fun om => big_fwd_butterfly_nz (fun x => ModMulFastConstEq x (fst om) modulus (snd om)) modulus)
             (m_data result);
    Ok (set_data result data).

Definition BigInverseFromBitReverseInPlace (rootOfUnityInverseTable : mubintvec)
    (cycloOrderInv : ubint) (element : mubintvec) : outcome mubintvec :=
  modulus ← GetModulus element;
  modulus ← ubint_copy modulus;
  mu ← ComputeMu modulus;
  data ← inverse_stages (big_twiddle1 rootOfUnityInverseTable)
           (fun omega => big_inv_butterfly (fun x => ModMulFastEq_mu x omega modulus mu) modulus)
           (m_data element);
  data ← vmapM (fun x => ModMulFastEq_mu x cycloOrderInv modulus mu) data;
  Ok (set_data element data).

Definition BigInverseFromBitReverse (element rootOfUnityInverseTable : mubintvec)
    (cycloOrderInv : ubint) (result : mubintvec) : outcome mubintvec :=
  if negb (GetLength result =? GetLength element)%nat then Throw math_error
  else
    modulus ← GetModulus element;
    result ← big_copy_to_result modulus element result;
    BigInverseFromBitReverseInPlace rootOfUnityInverseTable cycloOrderInv result.

Definition BigInverseFromBitReverseInPlace_precon (rootOfUnityInverseTable
    preconRootOfUnityInverseTable : mubintvec) (cycloOrderInv preconCycloOrderInv : ubint)
    (element : mubintvec) : outcome mubintvec :=
  modulus ← GetModulus element;
  modulus ← ubint_copy modulus;
  data ← inverse_stages (big_twiddle2 rootOfUnityInverseTable preconRootOfUnityInverseTable)
           (fun om => big_inv_butterfly (fun x => ModMulFastConstEq x (fst om) modulus (snd om)) modulus)
           (m_data element);
  data ← vmapM (fun x => ModMulFastConstEq x cycloOrderInv modulus preconCycloOrderInv) data;
  Ok (set_data element data).

Definition BigInverseFromBitReverse_precon (element rootOfUnityInverseTable
    preconRootOfUnityInverseTable : mubintvec) (cycloOrderInv preconCycloOrderInv : ubint)
    (result : mubintvec) : outcome mubintvec :=
  if negb (GetLength result =? GetLength element)%nat then Throw math_error
  else
    modulus ← GetModulus element;
    result ← big_copy_to_result modulus element result;
    BigInverseFromBitReverseInPlace_precon rootOfUnityInverseTable preconRootOfUnityInverseTable
      cycloOrderInv preconCycloOrderInv result.

(** ** Iterative transforms in natural order *)

Definition big_iter_butterfly (omega modulus mu : ubint) (indexEven indexOdd : nat)
    (result : list ubint) : outcome (list ubint) :=
  oddVal ← vget result indexOdd;
  omegaFactor ← ModMul_mu omega oddVal modulus mu;
  evenVal ← vget result indexEven;
  oddVal ← big_sum_eq evenVal omegaFactor modulus;
  evenVal ← big_diff evenVal omegaFactor modulus;
  result ← vset result indexEven oddVal;
  vset result indexOdd evenVal.

Definition BigForwardTransformIterative (element rootOfUnityTable result : mubintvec)
    : outcome mubintvec :=
  let n := GetLength element in
  if negb (GetLength result =? n)%nat then Throw math_error
  else
    modulus ← GetModulus element;
    modulus ← ubint_copy modulus;
    mu ← ComputeMu modulus;
    let result := SetModulus result modulus in
    let msb := GetMSB64 (u32 (Z.of_nat n - 1)) in
    data ← for_range 0 n (fun i d =>
             x ← vget (m_data element) (Z.to_nat (ReverseBits (Z.of_nat i) msb));
             vset d i x) (m_data result);
    let logn := Z.to_nat msb in
    data ← for_range 1 (S logn) (fun logm d =>
             let half := Nat.shiftl 1 (logm - 1) in
             iter_blocks (S n) (fun j d =>
               for_range 0 half (fun i d =>
                 omega ← vget (m_data rootOfUnityTable) (Nat.shiftl i (logn - logm));
                 let indexEven := (j + i)%nat in
                 let indexOdd := (indexEven + half)%nat in
                 big_iter_butterfly omega modulus mu indexEven indexOdd d) d)
               n (Nat.shiftl 1 logm) 0 d) data;
    Ok (set_data result data).

Definition BigInverseTransformIterative (element rootOfUnityInverseTable result : mubintvec)
    : outcome mubintvec :=
  let n := GetLength element in
  modulus ← GetModulus element;
  modulus ← ubint_copy modulus;
  mu ← ComputeMu modulus;
  result ← BigForwardTransformIterative element rootOfUnityInverseTable result;
  cycloOrderInv ← BigModInverse (ubint_int (Z.of_nat n)) modulus;
  data ← for_range 0 n (fun i d =>
           x ← vget d i;
           y ← ModMulEq_mu x cycloOrderInv modulus mu;
           vset d i y) (m_data result);
  Ok (set_data result data).

(** ** Cached tables *)

(** A [std::map] keyed by integers: the keys are ordered by [operator<], so a key is
    found when the comparison with it is zero. *)
Definition BigMap : Type := list (ubint * mubintvec).
Fixpoint big_find (m : BigMap) (k : ubint) : outcome (option mubintvec) :=
  match m with
  | [] => Ok None
  | (k', v) :: m => e ← op_eq k' k; if (e : bool) then Ok (Some v) else big_find m k
  end.
(** [map\[k\] = v] *)
Fixpoint big_store (m : BigMap) (k : ubint) (v : mubintvec) : outcome BigMap :=
  match m with
  | [] => Ok [(k, v)]
  | (k', v') :: m =>
      e ← op_eq k' k;
      if (e : bool) then Ok ((k', v) :: m)
      else m ← big_store m k v; Ok ((k', v') :: m)
  end.
(** [map\[k\]] read: a missing key reads as a default-constructed vector. *)
Definition big_at (m : BigMap) (k : ubint) : outcome mubintvec :=
  o ← big_find m k; Ok (default mubintvec_default o).

(** The static maps of the class that are written; the three maps of precomputed
    quotients stay empty. *)
Record BigFTTCache := mk_big_cache {
  big_cycloOrderInverseTable : BigMap;
  big_rootOfUnityReverseTable : BigMap;
  big_rootOfUnityInverseReverseTable : BigMap
}.

Definition BigReset (c : BigFTTCache) : BigFTTCache := mk_big_cache [] [] [].

(** The test that decides whether the tables are computed. *)
Definition big_table_missing (c : BigFTTCache) (modulus : ubint) (CycloOrderHf : nat) : outcome bool :=
  o ← big_find (big_rootOfUnityReverseTable c) modulus;
  Ok (match o with
      | None => true
      | Some table => negb (GetLength table =? CycloOrderHf)%nat
      end).

(** The loop that fills [Table] and [TableI] in bit-reversed order. *)
Definition big_fill_tables (CycloOrderHf : nat) (msb : Z)
    (rootOfUnity rootOfUnityInverse modulus mu : ubint) (Table TableI : list ubint)
    : outcome (list ubint * list ubint) :=
  st ← for_range 0 CycloOrderHf (fun i '(Table, TableI, x, xinv) =>
         let iinv := Z.to_nat (ReverseBits (Z.of_nat i) msb) in
         Table ← vset Table iinv x;
         TableI ← vset TableI iinv xinv;
         x ← ModMulEq_mu x rootOfUnity modulus mu;
         xinv ← ModMulEq_mu xinv rootOfUnityInverse modulus mu;
         Ok (Table, TableI, x, xinv)) (Table, TableI, ubint_int 1, ubint_int 1);
  let '(Table, TableI, _, _) := st in
  Ok (Table, TableI).

Definition BigPreCompute (rootOfUnity : ubint) (CycloOrder : Z) (modulus : ubint) (c : BigFTTCache)
    : outcome BigFTTCache :=
  let CycloOrderHf := Z.to_nat (Z.shiftr CycloOrder 1) in
  missing ← big_table_missing c modulus CycloOrderHf;
  if (missing : bool) then
    let msb := GetMSB64 (u32 (Z.of_nat CycloOrderHf - 1)) in
    mu ← ComputeMu modulus;
    Table ← mubintvec_ubint CycloOrderHf modulus;
    TableI ← mubintvec_ubint CycloOrderHf modulus;
    rootOfUnityInverse ← BigModInverse rootOfUnity modulus;
    '(d, dI) ← big_fill_tables CycloOrderHf msb rootOfUnity rootOfUnityInverse modulus mu
                 (m_data Table) (m_data TableI);
    table ← big_store (big_rootOfUnityReverseTable c) modulus (set_data Table d);
    tableI ← big_store (big_rootOfUnityInverseReverseTable c) modulus (set_data TableI dI);
    TableCOI ← mubintvec_ubint (Z.to_nat (msb + 1)) modulus;
    coi ← for_range 0 (Z.to_nat (msb + 1)) (fun i d =>
            b ← int_bit i;
            coInv ← BigModInverse (ubint_int b) modulus;
            vset d i coInv) (m_data TableCOI);
    tableCOI ← big_store (big_cycloOrderInverseTable c) modulus (set_data TableCOI coi);
    Ok (mk_big_cache tableCOI table tableI)
  else Ok c.

Definition BigPreCompute_chain (rootOfUnity : list ubint) (CycloOrder : Z) (moduliiChain : list ubint)
    (c : BigFTTCache) : outcome BigFTTCache :=
  if negb (length rootOfUnity =? length moduliiChain)%nat then Throw math_error
  else
    for_range 0 (length rootOfUnity) (fun i c =>
      r ← vget rootOfUnity i; currentRoot ← ubint_copy r;
      m ← vget moduliiChain i; currentMod ← ubint_copy m;
      BigPreCompute currentRoot CycloOrder currentMod c) c.

(** [rootOfUnity == IntType(1) || rootOfUnity == IntType(0)] *)
Definition big_trivial_root (rootOfUnity : ubint) : outcome bool :=
  one ← op_eq rootOfUnity (ubint_int 1);
  if (one : bool) then Ok true else op_eq rootOfUnity (ubint_int 0).

(** The common beginning of the four transforms: the tests and the tables. *)
Definition BigFTT_prepare (rootOfUnity : ubint) (CycloOrder : Z) (len : nat) (v : mubintvec)
    (c : BigFTTCache) : outcome (ubint * BigFTTCache) :=
  if negb (IsPowerOfTwo CycloOrder) then Throw math_error
  else
    let CycloOrderHf := Z.to_nat (Z.shiftr CycloOrder 1) in
    if negb (len =? CycloOrderHf)%nat then Throw math_error
    else
      modulus ← GetModulus v;
      modulus ← ubint_copy modulus;
      missing ← big_table_missing c modulus CycloOrderHf;
      c ← (if (missing : bool) then BigPreCompute rootOfUnity CycloOrder modulus c else Ok c);
      Ok (modulus, c).

Definition BigFTT_ForwardInPlace (rootOfUnity : ubint) (CycloOrder : Z) (element : mubintvec)
    (c : BigFTTCache) : outcome (mubintvec * BigFTTCache) :=
  trivial ← big_trivial_root rootOfUnity;
  if (trivial : bool) then Ok (element, c)
  else
    '(modulus, c) ← BigFTT_prepare rootOfUnity CycloOrder (GetLength element) element c;
    table ← big_at (big_rootOfUnityReverseTable c) modulus;
    element ← BigForwardToBitReverseInPlace table element;
    Ok (element, c).

Definition BigFTT_Forward (element : mubintvec) (rootOfUnity : ubint) (CycloOrder : Z)
    (result : mubintvec) (c : BigFTTCache) : outcome (mubintvec * BigFTTCache) :=
  trivial ← big_trivial_root rootOfUnity;
  if (trivial : bool) then Ok (assign_vector result element, c)
  else
    '(modulus, c) ← BigFTT_prepare rootOfUnity CycloOrder (GetLength result) element c;
    table ← big_at (big_rootOfUnityReverseTable c) modulus;
    result ← BigForwardToBitReverse element table result;
    Ok (result, c).

(** The inverse transform with the tables of the cache. *)
Definition BigFTT_inverse_with (CycloOrderHf : nat) (modulus : ubint) (element : mubintvec)
    (c : BigFTTCache) : outcome mubintvec :=
  let msb := Z.to_nat (GetMSB64 (u32 (Z.of_nat CycloOrderHf - 1))) in
  tableI ← big_at (big_rootOfUnityInverseReverseTable c) modulus;
  tableCOI ← big_at (big_cycloOrderInverseTable c) modulus;
  coi ← vget (m_data tableCOI) msb;
  BigInverseFromBitReverseInPlace tableI coi element.

Definition BigFTT_InverseInPlace (rootOfUnity : ubint) (CycloOrder : Z) (element : mubintvec)
    (c : BigFTTCache) : outcome (mubintvec * BigFTTCache) :=
  trivial ← big_trivial_root rootOfUnity;
  if (trivial : bool) then Ok (element, c)
  else
    '(modulus, c) ← BigFTT_prepare rootOfUnity CycloOrder (GetLength element) element c;
    element ← BigFTT_inverse_with (Z.to_nat (Z.shiftr CycloOrder 1)) modulus element c;
    Ok (element, c).

Definition BigFTT_Inverse (element : mubintvec) (rootOfUnity : ubint) (CycloOrder : Z)
    (result : mubintvec) (c : BigFTTCache) : outcome (mubintvec * BigFTTCache) :=
  trivial ← big_trivial_root rootOfUnity;
  if (trivial : bool) then Ok (assign_vector result element, c)
  else
    '(modulus, c) ← BigFTT_prepare rootOfUnity CycloOrder (GetLength result) element c;
    q ← GetModulus element;
    result ← big_copy_to_result q element result;
    result ← BigFTT_inverse_with (Z.to_nat (Z.shiftr CycloOrder 1)) modulus result c;
    Ok (result, c).
