(* ===== verification/BigNttProps.v ===== *)
(** * Transforms of multiprecision vectors: theorems

    On encodings of residues the multiprecision butterflies compute the butterflies
    of NttProps.v, so the transforms of transformdyn-impl.h evaluate at the odd
    powers of the root, invert each other and multiply polynomials, like the native
    ones, for every modulus whose bit size is not a multiple of 32. *)
From stdpp Require Import base numbers list.
From Stdlib Require Import ZArith Znumtheory Lia.
From S2P Require Import Prelude Bits Ntt NttProps FttProps BigInt BigDiv BigIntProps BigShiftProps BigDivProps BigModProps BigArithProps BigRefine BigVector BigVectorProps BigNtt.
Open Scope Z_scope.

(** ** The moduli

    [ModMul] is defined on moduli whose size is not a multiple of 32 bits, and
    [ComputeMu] shifts by a 16-bit amount. *)
Record big_modulus_ok (q : Z) : Prop := {
  bm_pos : 1 < q;
  bm_size : 2 * GetMSB q + 3 < 2 ^ 16;
  bm_limb : GetMSB q mod 32 <> 0
}.

Lemma big_modulus_fits q : big_modulus_ok q -> fits (q + q * q).
Proof.
  intros [Hq Hs _]. pose proof (GetMSB_bounds q ltac:(lia)) as [_ Hb].
  assert (0 <= GetMSB q) by (pose proof (GetMSB_pos q); lia).
  assert (2 ^ (2 * GetMSB q + 1) = 2 * (2 ^ GetMSB q * 2 ^ GetMSB q)) as E.
  { rewrite Z.pow_add_r, Z.mul_comm by lia. replace (2 * GetMSB q) with (GetMSB q + GetMSB q) by lia.
    rewrite Z.pow_add_r by lia. ring. }
  apply (fits_bits _ (2 * GetMSB q + 1)); [rewrite E; nia | unfold max_limbs; lia].
Qed.

Lemma ComputeMu_total q : 1 < q -> 2 * GetMSB q + 3 < 2 ^ 16 -> fits q -> exists mu, ComputeMu (encode q) = Ok mu.
Proof.
  intros H1 Hs Fq. unfold ComputeMu, u16.
  change (m_MSB (encode q)) with (GetMSB q).
  assert (0 <= GetMSB q) by (pose proof (GetMSB_pos q); lia).
  rewrite u32_small, Z.mod_small by lia.
  assert (fits (2 ^ (2 * GetMSB q + 3))) as Hf.
  { apply (fits_bits _ (2 * GetMSB q + 4)); [|unfold max_limbs; lia].
    pose proof (pow2_pos (2 * GetMSB q + 3)). split; [lia|]. apply Z.pow_lt_mono_r; lia. }
  rewrite (encode_Ok (LShiftEq (ubint_int 1) (2 * GetMSB q + 3)) (2 ^ (2 * GetMSB q + 3))), bind_Ok.
  - exists (encode (2 ^ (2 * GetMSB q + 3) / q)). enc.
    apply DividedBy_represents; [by apply encode_represents | by apply encode_represents | lia].
  - pose proof (LShiftEq_represents _ 1 (2 * GetMSB q + 3) represents_1 ltac:(lia)) as H'.
    rewrite Z.mul_1_l in H'. by apply H'.
Qed.

Section Modulus.
Context (q : Z) (Hq : big_modulus_ok q).

Lemma bm_lt : 0 < q.
Proof. destruct Hq. lia. Qed.
Lemma bm_fits2 : fits (2 * q).
Proof. eapply fits_mono; [by apply big_modulus_fits | destruct Hq; nia]. Qed.
Lemma bm_fits : fits q.
Proof. apply (modulus_fits q bm_lt bm_fits2). Qed.
Lemma bm_entry x : 0 <= x < q -> fits x.
Proof. apply (entry_fits q bm_lt bm_fits2). Qed.
Lemma bm_le x : 0 <= x <= 2 * q -> fits x.
Proof. intros. eapply fits_mono; [exact bm_fits2 | lia]. Qed.

Lemma ComputeMu_defined : exists mu, ComputeMu (encode q) = Ok mu.
Proof. apply ComputeMu_total; [apply Hq | apply Hq | apply bm_fits]. Qed.

Lemma big_mul x w mu :
  0 <= x < q -> 0 <= w < q ->
  ModMulFastEq_mu (encode x) (encode w) (encode q) mu = Ok (encode ((x * w) mod q)).
Proof.
  intros Hx Hw. apply (ModMulEq_encode q bm_lt bm_fits2 x w); [by apply big_modulus_fits | apply Hq | done | done].
Qed.

Lemma big_sum_ok x y : 0 <= x < q -> 0 <= y < q ->
  big_sum (encode x) (encode y) (encode q) = Ok (encode ((x + y) mod q)) /\
  big_sum_eq (encode x) (encode y) (encode q) = Ok (encode ((x + y) mod q)).
Proof.
  intros Hx Hy. pose proof bm_fits as Fq.
  assert (fits x /\ fits y /\ fits (x + y)) as (Fx & Fy & Fs) by (split_and!; apply bm_le; lia).
  assert (forall a, a = encode (x + y) ->
    (ge ← op_ge a (encode q); if (ge : bool) then SubEq a (encode q) else Ok a) = Ok (encode ((x + y) mod q))) as H.
  { intros a ->. rewrite (op_ge_spec _ _ (x + y) q), bind_Ok by auto with fhe.
    destruct (Z.leb_spec q (x + y)).
    - rewrite <- mod_sub_once by lia. enc. replace (x + y - q) with (Z.max 0 (x + y - q)) by lia.
      apply SubEq_represents; auto with fhe.
    - by rewrite Z.mod_small by lia. }
  unfold big_sum, big_sum_eq. split.
  - rewrite (encode_Ok (Add _ _) (x + y)) by (apply Add_represents; auto with fhe). rewrite bind_Ok. by apply H.
  - rewrite (encode_Ok (AddEq _ _) (x + y)) by (apply AddEq_represents; auto with fhe). rewrite bind_Ok. by apply H.
Qed.

Lemma big_diff_ok x y : 0 <= x < q -> 0 <= y < q ->
  big_diff (encode x) (encode y) (encode q) = Ok (encode ((x - y) mod q)).
Proof.
  intros Hx Hy. pose proof bm_fits as Fq.
  assert (fits x /\ fits y /\ fits (x + q)) as (Fx & Fy & Fs) by (split_and!; apply bm_le; lia).
  unfold big_diff. rewrite (op_lt_spec _ _ x y), bind_Ok by auto with fhe.
  destruct (Z.ltb_spec x y).
  - rewrite (encode_Ok (AddEq _ _) (x + q)) by (apply AddEq_represents; auto with fhe). rewrite bind_Ok. enc.
    replace ((x - y) mod q) with (Z.max 0 (x + q - y)).
    + apply SubEq_represents; auto with fhe.
    + rewrite <- (Z_mod_plus_full (x - y) 1), Z.mod_small by lia. lia.
  - rewrite bind_Ok. enc. rewrite Z.mod_small by lia. replace (x - y) with (Z.max 0 (x - y)) by lia.
    apply SubEq_represents; auto with fhe.
Qed.

(** ** Butterflies *)

Lemma vget_encode e i : (i < length e)%nat -> vget (map encode e) i = Ok (encode (e !!! i)).
Proof. intros Hi. apply vget_Some. by rewrite list_lookup_fmap, list_lookup_lookup_total_lt. Qed.

Lemma vset_encode e i x : (i < length e)%nat -> vset (map encode e) i (encode x) = Ok (map encode (<[i := x]> e)).
Proof. intros Hi. rewrite vset_lt by (by rewrite length_map). f_equal. symmetry. apply list_fmap_insert. Qed.

Section Mul.
Context (mul : ubint -> outcome ubint) (w : Z).
Context (Hmul : forall x, 0 <= x < q -> mul (encode x) = Ok (encode ((x * w) mod q))).

Lemma big_fwd_butterfly_ok t lo e :
  reduced q e -> (0 < t)%nat -> (lo + t < length e)%nat ->
  big_fwd_butterfly mul (encode q) t lo (map encode e) = Ok (map encode (pbutterfly (ff q w) (fg q w) t lo e)).
Proof.
  intros He Ht Hl. pose proof bm_lt as Hp. unfold big_fwd_butterfly, pbutterfly, ff, fg.
  pose proof (reduced_at q e lo He ltac:(lia)) as Rl. pose proof (reduced_at q e (lo + t) He ltac:(lia)) as Rh.
  rewrite !vget_encode, !bind_Ok, Hmul, bind_Ok by lia.
  pose proof (mod_range (e !!! (lo + t)%nat * w) q Hp).
  rewrite (proj1 (big_sum_ok _ _ Rl ltac:(eassumption))), bind_Ok, big_diff_ok, bind_Ok by lia.
  rewrite vset_encode, bind_Ok, vset_encode by (rewrite ?length_insert; lia).
  by rewrite Zplus_mod_idemp_r, Zminus_mod_idemp_r.
Qed.

Lemma big_fwd_butterfly_nz_ok t lo e :
  reduced q e -> (0 < t)%nat -> (lo + t < length e)%nat ->
  big_fwd_butterfly_nz mul (encode q) t lo (map encode e) = Ok (map encode (pbutterfly (ff q w) (fg q w) t lo e)).
Proof.
  intros He Ht Hl. pose proof (big_fwd_butterfly_ok t lo e He Ht Hl) as E.
  unfold big_fwd_butterfly, big_fwd_butterfly_nz in *.
  pose proof (reduced_at q e lo He ltac:(lia)) as Rl. pose proof (reduced_at q e (lo + t) He ltac:(lia)) as Rh.
  rewrite !vget_encode, !bind_Ok in * by lia. change (ubint_int 0) with (encode 0).
  rewrite op_ne_encode, bind_Ok by (apply bm_le; lia).
  destruct (Z.eqb_spec (e !!! (lo + t)%nat) 0) as [E0|]; [|done]. cbn [negb].
  rewrite vset_encode by lia. do 2 f_equal. unfold pbutterfly, ff, fg. rewrite E0.
  rewrite Z.mul_0_l, Z.add_0_r, Z.sub_0_r, Z.mod_small by lia.
  by rewrite (list_insert_id e lo) by (apply list_lookup_lookup_total_lt; lia).
Qed.

Lemma big_inv_butterfly_ok t lo e :
  reduced q e -> (0 < t)%nat -> (lo + t < length e)%nat ->
  big_inv_butterfly mul (encode q) t lo (map encode e) = Ok (map encode (pbutterfly (gf q w) (gg q w) t lo e)).
Proof.
  intros He Ht Hl. pose proof bm_lt as Hp. unfold big_inv_butterfly, pbutterfly, gf, gg.
  pose proof (reduced_at q e lo He ltac:(lia)) as Rl. pose proof (reduced_at q e (lo + t) He ltac:(lia)) as Rh.
  rewrite !vget_encode, !bind_Ok, big_diff_ok, bind_Ok by lia.
  rewrite (proj2 (big_sum_ok _ _ Rl Rh)), bind_Ok, Hmul, bind_Ok by (by apply mod_range).
  rewrite vset_encode, bind_Ok, vset_encode by (rewrite ?length_insert; lia).
  by rewrite Zmult_mod_idemp_l.
Qed.
End Mul.
End Modulus.

(** ** The transforms with explicit tables *)

Section Transforms.
Context (q : Z) (Hq : big_modulus_ok q) (k : nat) (Hk : (k <= 31)%nat) (T : list Z).
Context (HlT : length T = (2 ^ k)%nat) (HT : reduced q T).

Let entries (i : nat) : Z := T !!! i.

Lemma big_butterflies mu j : (j < 2 ^ k)%nat ->
  butterfly_enc q (ff q) (fg q) encode (big_twiddle1 (encode_vec q T))
    (fun om => big_fwd_butterfly (fun x => ModMulFastEq_mu x om (encode q) mu) (encode q)) entries j /\
  butterfly_enc q (ff q) (fg q) encode (big_twiddle1 (encode_vec q T))
    (fun om => big_fwd_butterfly_nz (fun x => ModMulFastEq_mu x om (encode q) mu) (encode q)) entries j /\
  butterfly_enc q (gf q) (gg q) encode (big_twiddle1 (encode_vec q T))
    (fun om => big_inv_butterfly (fun x => ModMulFastEq_mu x om (encode q) mu) (encode q)) entries j.
Proof.
  intros Hj. assert (big_twiddle1 (encode_vec q T) j = Ok (encode (T !!! j))) as E by (apply vget_encode; lia).
  pose proof (reduced_at q T j HT ltac:(lia)) as Hw.
  split_and!; (eexists; split; [exact E|]); intros;
    [apply big_fwd_butterfly_ok | apply big_fwd_butterfly_nz_ok | apply big_inv_butterfly_ok]; try done;
    intros; by apply big_mul.
Qed.

Definition big_forward (xs : list Z) : list Z := pforward (ff q) (fg q) entries k k xs.
Definition big_inverse (cinv : Z) (xs : list Z) : list Z :=
  map (fun x => (x * cinv) mod q) (pinverse (gf q) (gg q) entries k k xs).

Lemma big_prologue {A} xs (f : ubint -> outcome A) :
  (modulus ← GetModulus (encode_vec q xs); modulus ← ubint_copy modulus; f modulus) = f (encode q).
Proof.
  unfold GetModulus. rewrite bool_decide_true, bind_Ok by done. cbn [m_modulus encode_vec].
  by rewrite (represents_copy (encode q) q), bind_Ok by (apply encode_represents, bm_fits, Hq).
Qed.

Lemma BigForwardInPlace_ok xs : length xs = (2 ^ k)%nat -> reduced q xs ->
  BigForwardToBitReverseInPlace (encode_vec q T) (encode_vec q xs) = Ok (encode_vec q (big_forward xs)).
Proof.
  intros Hl Hx. pose proof (bm_lt q Hq) as Hp. unfold BigForwardToBitReverseInPlace. rewrite big_prologue.
  destruct (ComputeMu_defined q Hq) as (mu & ->). rewrite bind_Ok. cbn [m_data encode_vec].
  rewrite (forward_stages_enc q (ff q) (fg q) (ff_range q Hp) (fg_range q Hp) encode _ _ entries k);
    [done | | lia | done | done].
  intros j Hj. apply (big_butterflies mu j). lia.
Qed.

Lemma big_copy_ok xs result : GetLength result = length xs ->
  big_copy_to_result (encode q) (encode_vec q xs) result = Ok (encode_vec q xs).
Proof.
  intros Hl. unfold big_copy_to_result. unfold GetLength in *. cbn [m_data encode_vec SetModulus].
  rewrite (copy_loop (map encode xs)); [done | by rewrite length_map].
Qed.

Lemma BigForward_ok xs result : length xs = (2 ^ k)%nat -> reduced q xs -> GetLength result = (2 ^ k)%nat ->
  BigForwardToBitReverse (encode_vec q xs) (encode_vec q T) result = Ok (encode_vec q (big_forward xs)).
Proof.
  intros Hl Hx Hr. pose proof (bm_lt q Hq) as Hp. unfold BigForwardToBitReverse.
  rewrite Hr. unfold GetLength. cbn [m_data encode_vec]. rewrite length_map, Hl, Nat.eqb_refl. cbn [negb].
  fold (encode_vec q xs). rewrite big_prologue.
  destruct (ComputeMu_defined q Hq) as (mu & ->). rewrite bind_Ok, big_copy_ok, bind_Ok by lia. cbn [m_data encode_vec].
  rewrite (forward_stages_enc q (ff q) (fg q) (ff_range q Hp) (fg_range q Hp) encode _ _ entries k);
    [done | | lia | done | done].
  intros j Hj. apply (big_butterflies mu j). lia.
Qed.

Lemma BigInverseInPlace_ok cinv xs : 0 <= cinv < q -> length xs = (2 ^ k)%nat -> reduced q xs ->
  BigInverseFromBitReverseInPlace (encode_vec q T) (encode cinv) (encode_vec q xs)
  = Ok (encode_vec q (big_inverse cinv xs)).
Proof.
  intros Hc Hl Hx. pose proof (bm_lt q Hq) as Hp. unfold BigInverseFromBitReverseInPlace. rewrite big_prologue.
  destruct (ComputeMu_defined q Hq) as (mu & ->). rewrite bind_Ok. cbn [m_data encode_vec].
  rewrite (inverse_stages_enc q (gf q) (gg q) (gf_range q Hp) (gg_range q Hp) encode _ _ entries k);
    [| | lia | done | done].
  - rewrite bind_Ok, (vmapM_encode _ (fun x => (x * cinv) mod q)); [done|].
    eapply Forall_impl; [apply (pinverse_inv q (gf q) (gg q) (gf_range q Hp) (gg_range q Hp) entries k k xs Hx)|].
    cbv beta. intros. by apply big_mul.
  - intros j Hj. apply (big_butterflies mu j). lia.
Qed.

Lemma big_forward_inv xs : reduced q xs -> reduced q (big_forward xs) /\ length (big_forward xs) = length xs.
Proof.
  pose proof (bm_lt q Hq) as Hp. apply (pforward_inv q (ff q) (fg q) (ff_range q Hp) (fg_range q Hp)).
Qed.
End Transforms.
