(* ===== verification/BigFttProps.v ===== *)
(** * Cached transforms of multiprecision vectors: theorems

    [BigPreCompute] fills the tables of a root, in bit-reversed order, into maps
    keyed by integers, and the negacyclic transforms through these maps invert each
    other, evaluate at the odd powers of the root and multiply polynomials. *)
From stdpp Require Import base numbers list.
From Stdlib Require Import ZArith Znumtheory Lia.
From S2P Require Import Prelude Bits NativeVector Ntt NttProps FttProps BigInt BigDiv BigIntProps BigModProps BigArithProps BigRefine BigVector BigVectorProps BigNtt BigNttProps.
Open Scope Z_scope.

(** ** Maps keyed by integers *)

Definition keys_ok (m : BigMap) : Prop := Forall (fun p => exists x, fits x /\ fst p = encode x) m.

Lemma big_find_total m q : keys_ok m -> fits q -> exists o, big_find m (encode q) = Ok o.
Proof.
  intros Hm Hq. induction Hm as [|[k' v] m (x & Hx & E) _ IH]; cbn [big_find]; [by eexists|].
  simpl in E. subst k'. rewrite op_eq_encode, bind_Ok by done. destruct (x =? q); [by eexists | done].
Qed.

Lemma big_store_ok m q v : keys_ok m -> fits q ->
  exists m', big_store m (encode q) v = Ok m' /\ keys_ok m' /\
    big_find m' (encode q) = Ok (Some v) /\
    (forall q', fits q' -> q' <> q -> big_find m' (encode q') = big_find m (encode q')).
Proof.
  intros Hm Hq. induction Hm as [|[k' v'] m (x & Hx & E) Hm IH]; cbn [big_store].
  - exists [(encode q, v)]. split_and!; [done | by repeat constructor; exists q | |].
    + cbn [big_find]. by rewrite op_eq_encode, bind_Ok, Z.eqb_refl by done.
    + intros q' Hq' Hne. cbn [big_find]. rewrite op_eq_encode, bind_Ok by done.
      by rewrite (proj2 (Z.eqb_neq q q')) by done.
  - simpl in E. subst k'. rewrite op_eq_encode, bind_Ok by done. destruct (Z.eqb_spec x q) as [->|Hne].
    + exists ((encode q, v) :: m). split_and!; [done | by constructor; [exists q|] | |].
      * cbn [big_find]. by rewrite op_eq_encode, bind_Ok, Z.eqb_refl by done.
      * intros q' Hq' Hne. cbn [big_find]. rewrite op_eq_encode, bind_Ok by done.
        by rewrite (proj2 (Z.eqb_neq q q')) by done.
    + destruct IH as (m' & -> & Hk & Hf & Ho). rewrite bind_Ok. exists ((encode x, v') :: m').
      split_and!; [done | by constructor; [exists x|] | |].
      * cbn [big_find]. by rewrite op_eq_encode, bind_Ok, (proj2 (Z.eqb_neq x q) Hne) by done.
      * intros q' Hq' Hne'. cbn [big_find]. rewrite op_eq_encode, !bind_Ok by done. destruct (x =? q'); auto.
Qed.

(** ** [BigPreCompute] *)

(** [psi] is a primitive root of unity of order [2 ^ (k + 1)] modulo the prime [q]. *)
Record big_root_ok (q psi : Z) (k : nat) : Prop := {
  br_prime : Z.prime q;
  br_modulus : big_modulus_ok q;
  br_k : (1 <= k <= 24)%nat;
  br_psi : 1 < psi < q;
  br_root : psi ^ 2 ^ Z.of_nat k ==[q] -1
}.

Lemma zero_vector_ok n q : 0 < q -> fits (2 * q) -> mubintvec_ubint n (encode q) = Ok (encode_vec q (repeat 0 n)).
Proof.
  intros Hp F2. assert (fits q) as Fq by (eapply fits_mono; [exact F2 | lia]). unfold mubintvec_ubint.
  replace (mk_mubintvec (repeat (ubint_int 0) n) (encode q) INITIALIZED) with (encode_vec q (repeat 0 n)).
  2: { unfold encode_vec. f_equal. change (ubint_int 0) with (encode 0). induction n; simpl; [done | by f_equal]. }
  assert (Forall fits (repeat 0 n)) as F0 by (apply Forall_forall; intros x ->%list_elem_of_In%repeat_spec; fits).
  rewrite (proj1 (bigvec_Mod_centered q q (repeat 0 n) Hp Hp Fq F2 F0)). do 2 f_equal.
  rewrite <- (map_id (repeat 0 n)) at 2. apply map_ext_in. intros x ->%repeat_spec.
  pose proof (Z.div_pos q 2 ltac:(lia) ltac:(lia)). rewrite (proj2 (Z.ltb_ge _ _)) by lia.
  rewrite centered_low, !Z.mod_0_l by lia. by destruct (q =? 2).
Qed.

Lemma BigModInverse_ok q x : 1 < q -> fits q -> fits x -> Z.gcd x q = 1 ->
  exists z, 0 <= z < q /\ (x * z) mod q = 1 /\ BigModInverse (encode x) (encode q) = Ok (encode z).
Proof.
  intros H1 Hq Hx Hg. unfold BigModInverse. change (m_MSB (encode q)) with (GetMSB q).
  pose proof (GetMSB_pos q ltac:(lia)).
  destruct (proj1 (returns_Ok _ _) (ModInverse_represents (encode x) (encode q) x q (Z.to_nat (2 * GetMSB q))
    (encode_represents x Hx) (encode_represents q Hq) H1 ltac:(lia) Hg)) as (r & -> & z & Rz & Hz & Hz').
  exists z. rewrite (represents_encode r z Rz). split_and!; [lia | lia | done | done].
Qed.

Section Root.
Context (q psi : Z) (k : nat) (Hr : big_root_ok q psi k).

Let Hq : big_modulus_ok q := br_modulus q psi k Hr.
Let Hk : (1 <= k <= 24)%nat := br_k q psi k Hr.

Lemma power_succ_encode x mu i : 0 <= x < q ->
  ModMulEq_mu (encode (x ^ Z.of_nat i mod q)) (encode x) (encode q) mu = Ok (encode (x ^ Z.of_nat (S i) mod q)).
Proof.
  intros Hx. pose proof (bm_lt q Hq). change ModMulEq_mu with ModMulFastEq_mu.
  rewrite (big_mul q Hq) by (done || by apply mod_range).
  do 2 f_equal. rewrite Zmult_mod_idemp_l, Nat2Z.inj_succ, Z.pow_succ_r by lia. f_equal. ring.
Qed.

Lemma vset_power x i : (i < 2 ^ k)%nat ->
  vset (map encode (power_table_upto q x k i)) (rv k i) (encode (x ^ Z.of_nat i mod q))
  = Ok (map encode (power_table_upto q x k (S i))).
Proof.
  intros Hi. assert (length (power_table_upto q x k i) = 2 ^ k)%nat as Hl
    by (unfold power_table_upto; by rewrite length_map, length_seq).
  pose proof (rv_lt k Hk i). pose proof (power_table_step q k Hk x i Hi) as E.
  rewrite vset_lt in E by lia. injection E as E. rewrite vset_encode by lia. by rewrite E.
Qed.

Lemma big_fill_ok mu x y : 0 <= x < q -> 0 <= y < q ->
  big_fill_tables (2 ^ k) (Z.of_nat k) (encode x) (encode y) (encode q) mu
    (map encode (repeat 0 (2 ^ k))) (map encode (repeat 0 (2 ^ k)))
  = Ok (map encode (power_table q x k), map encode (power_table q y k)).
Proof.
  intros Hx Hy. pose proof (bm_pos q Hq). unfold big_fill_tables.
  set (body := fun (i : nat) '(Table, TableI, x, xinv) => _).
  assert (for_range 0 (2 ^ k) body (map encode (repeat 0 (2 ^ k)), map encode (repeat 0 (2 ^ k)), ubint_int 1, ubint_int 1)
    = Ok (map encode (power_table_upto q x k (2 ^ k)), map encode (power_table_upto q y k (2 ^ k)),
          encode (x ^ Z.of_nat (2 ^ k) mod q), encode (y ^ Z.of_nat (2 ^ k) mod q))) as ->.
  - assert (forall z, z ^ Z.of_nat 0 mod q = 1) as E0 by (intros; rewrite Z.pow_0_r; apply Z.mod_small; lia).
    pose proof (for_range_exact (fun i => (map encode (power_table_upto q x k i), map encode (power_table_upto q y k i),
      encode (x ^ Z.of_nat i mod q), encode (y ^ Z.of_nat i mod q))) 0 (2 ^ k) body ltac:(lia)) as H'.
    cbv beta in H'. rewrite !power_table_start, !E0 in H' by done. apply H'.
    intros i Hi. unfold body. fold (rv k i).
    rewrite !vset_power, !bind_Ok by lia. by rewrite !power_succ_encode, !bind_Ok by done.
  - rewrite bind_Ok. by rewrite !power_table_full by lia.
Qed.

(** The inverses of the powers of two. *)
Lemma big_coi_ok :
  exists coi, for_range 0 (S k) (fun i d => b ← int_bit i; coInv ← BigModInverse (ubint_int b) (encode q); vset d i coInv)
      (map encode (repeat 0 (S k))) = Ok (map encode coi) /\
    length coi = S k /\ Forall2 (fun i r => 0 <= r < q /\ (2 ^ Z.of_nat i * r) mod q = 1) (seq 0 (S k)) coi.
Proof.
  set (P := fun i r => 0 <= r < q /\ (2 ^ Z.of_nat i * r) mod q = 1).
  assert (returns (for_range 0 (S k) (fun i d => b ← int_bit i; coInv ← BigModInverse (ubint_int b) (encode q); vset d i coInv)
      (map encode (repeat 0 (S k))))
    (fun d => exists coi, d = map encode (coi ++ repeat 0 (S k - S k)) /\ Forall2 P (seq 0 (S k)) coi)) as H.
  { apply (for_range_inv (fun i d => exists coi, d = map encode (coi ++ repeat 0 (S k - i)) /\ Forall2 P (seq 0 i) coi));
      [lia | exists []; split; [done | constructor] |].
    intros i d Hi (coi & -> & HP). pose proof (Forall2_length _ _ _ HP) as Hl. rewrite length_seq in Hl.
    unfold int_bit. rewrite (proj2 (Nat.ltb_lt _ _)), bind_Ok, Z.shiftl_mul_pow2, Z.mul_1_l by lia.
    assert (0 <= 2 ^ Z.of_nat i < 2 ^ 64) as Hb
      by (split; [apply Z.lt_le_incl, pow2_pos; lia | apply Z.pow_lt_mono_r; lia]).
    rewrite encode_int by done.
    destruct (BigModInverse_ok q (2 ^ Z.of_nat i) (bm_pos q Hq) (bm_fits q Hq)) as (z & Hz & Ez & ->).
    - apply (fits_bits _ 64); [done | by vm_compute].
    - rewrite Z.gcd_comm. apply Z.coprime_prime_l; [apply Hr|]. intros Hd.
      apply Z.divide_prime_pp in Hd; [|apply Hr | apply Z.prime_2 | lia]. pose proof (br_psi q psi k Hr). lia.
    - rewrite bind_Ok, vset_encode by (rewrite length_app, repeat_length; lia). cbn [returns].
      exists (coi ++ [z]). split.
      + f_equal. rewrite insert_app_r_alt, Hl, Nat.sub_diag by lia.
        replace (S k - length coi)%nat with (S (k - length coi)) by lia. simpl. by rewrite <- app_assoc.
      + rewrite seq_S. apply Forall2_app; [done|]. constructor; [by split | apply Forall2_nil_2]. }
  destruct (proj1 (returns_Ok _ _) H) as (d & E & coi & -> & HP). rewrite Nat.sub_diag, app_nil_r in E.
  exists coi. split; [exact E|]. split; [|done]. pose proof (Forall2_length _ _ _ HP). by rewrite length_seq in *.
Qed.

(** The maps hold the tables of [psi] for the modulus [q]. *)
Definition big_cache_keys (c : BigFTTCache) : Prop :=
  keys_ok (big_cycloOrderInverseTable c) /\ keys_ok (big_rootOfUnityReverseTable c) /\
  keys_ok (big_rootOfUnityInverseReverseTable c).
Definition big_cache_has (c : BigFTTCache) : Prop :=
  big_cache_keys c /\ exists psi' coi cinv,
    big_find (big_rootOfUnityReverseTable c) (encode q) = Ok (Some (encode_vec q (power_table q psi k))) /\
    big_find (big_rootOfUnityInverseReverseTable c) (encode q) = Ok (Some (encode_vec q (power_table q psi' k))) /\
    big_find (big_cycloOrderInverseTable c) (encode q) = Ok (Some (encode_vec q coi)) /\
    coi !! k = Some cinv /\ psi * psi' ==[q] 1 /\ 0 <= cinv < q /\ 2 ^ Z.of_nat k * cinv ==[q] 1.

Lemma BigPreCompute_ok c : big_cache_keys c -> big_table_missing c (encode q) (2 ^ k) = Ok true ->
  returns (BigPreCompute (encode psi) (2 ^ (Z.of_nat k + 1)) (encode q) c) big_cache_has.
Proof.
  intros (K1 & K2 & K3) Hmiss. pose proof Hr as [Hp _ _ Hpsi Hroot]. pose proof (bm_fits q Hq) as Fq.
  unfold BigPreCompute. rewrite cyclo_order_half, Hmiss, bind_Ok, msb_of_length by lia.
  destruct (ComputeMu_defined q Hq) as (mu & ->). rewrite bind_Ok, !zero_vector_ok, !bind_Ok by (apply bm_lt, Hq || apply bm_fits2, Hq).
  destruct (BigModInverse_ok q psi (bm_pos q Hq) Fq) as (psi' & Hpsi' & Einv & ->).
  { apply (bm_entry q Hq). lia. }
  { rewrite Z.gcd_comm. apply Z.coprime_prime_small; [done | lia]. }
  rewrite bind_Ok. cbn [m_data encode_vec]. rewrite big_fill_ok, bind_Ok by lia.
  destruct (big_store_ok _ q (encode_vec q (power_table q psi k)) K2 Fq) as (m1 & E1 & Km1 & F1 & _).
  destruct (big_store_ok _ q (encode_vec q (power_table q psi' k)) K3 Fq) as (m2 & E2 & Km2 & F2 & _).
  change (set_data (encode_vec q (repeat 0 (2 ^ k))) (map encode ?t)) with (encode_vec q t).
  unfold set_data. cbn [m_modulus m_modulus_state encode_vec]. fold (encode_vec q (power_table q psi k)).
  fold (encode_vec q (power_table q psi' k)). rewrite E1, bind_Ok, E2, bind_Ok.
  replace (Z.to_nat (Z.of_nat k + 1)) with (S k) by lia. rewrite bind_Ok.
  cbn [m_data m_modulus m_modulus_state encode_vec].
  destruct big_coi_ok as (coi & -> & Hlc & Hcoi). rewrite bind_Ok. fold (encode_vec q coi).
  destruct (big_store_ok _ q (encode_vec q coi) K1 Fq) as (m3 & -> & Km3 & F3 & _). rewrite bind_Ok.
  destruct (Forall2_lookup_l _ _ _ k k Hcoi) as (cinv & Ec & Hc & Ecinv); [apply lookup_seq; lia|].
  split; [by split_and!|]. exists psi', coi, cinv. pose proof (bm_pos q Hq).
  split_and!; [done.. | by apply eqmod_1 | lia | lia | by apply eqmod_1].
Qed.

(** A cache the transforms can start from: without tables for the modulus, or with
    the tables of [psi]. *)
Definition big_cache_for (c : BigFTTCache) : Prop :=
  big_cache_keys c /\ (big_table_missing c (encode q) (2 ^ k) = Ok true \/ big_cache_has c).

Lemma big_cache_present c : big_cache_has c -> big_table_missing c (encode q) (2 ^ k) = Ok false.
Proof.
  intros (_ & psi' & coi & cinv & E & _). unfold big_table_missing, GetLength. rewrite E, bind_Ok.
  cbn [m_data encode_vec]. by rewrite length_map, length_power_table, Nat.eqb_refl.
Qed.

Lemma big_root_not_trivial : big_trivial_root (encode psi) = Ok false.
Proof.
  pose proof (br_psi q psi k Hr). unfold big_trivial_root.
  change (ubint_int 1) with (encode 1). change (ubint_int 0) with (encode 0).
  assert (fits psi /\ fits 1 /\ fits 0) as (? & ? & ?) by (split_and!; apply (bm_entry q Hq); lia).
  rewrite (op_eq_encode psi 1), bind_Ok, (proj2 (Z.eqb_neq psi 1)) by (done || lia).
  by rewrite op_eq_encode, (proj2 (Z.eqb_neq psi 0)) by (done || lia).
Qed.

Lemma BigFTT_prepare_ok xs c : big_cache_for c ->
  returns (BigFTT_prepare (encode psi) (2 ^ (Z.of_nat k + 1)) (2 ^ k) (encode_vec q xs) c)
    (fun mc => fst mc = encode q /\ big_cache_has (snd mc)).
Proof.
  intros [Kc Hc]. unfold BigFTT_prepare. rewrite IsPowerOfTwo_pow2 by lia.
  rewrite cyclo_order_half, Nat.eqb_refl. cbn [negb]. rewrite (big_prologue q Hq). destruct Hc as [Hc|Hc].
  - rewrite Hc, bind_Ok. eapply returns_bind; [by apply BigPreCompute_ok|]. by intros c' Hc'.
  - by rewrite (big_cache_present c Hc), !bind_Ok.
Qed.

(** The values at the odd powers of the root, in the order of the transform. *)
Definition big_odd_power_values (xs : list Z) : list Z :=
  map (fun i => peval xs (psi ^ Z.of_nat (2 * rv k i + 1)) mod q) (seq 0 (2 ^ k)).

Lemma big_forward_values xs : length xs = (2 ^ k)%nat -> reduced q xs ->
  big_forward q k (power_table q psi k) xs = big_odd_power_values xs.
Proof.
  intros Hl Hx. pose proof (bm_lt q Hq) as Hp. pose proof (bm_pos q Hq) as H1.
  pose proof (br_root q psi k Hr) as Hroot.
  pose proof (big_forward_inv q Hq k (power_table q psi k) xs Hx) as [_ Hlen].
  apply list_eq_total; rewrite Hlen, Hl; [unfold big_odd_power_values; by rewrite length_map, length_seq|].
  intros i Hi. unfold big_forward. rewrite pforward_values by (done || by apply power_table_ok).
  unfold big_odd_power_values. rewrite map_seq_at by done. apply eqmod_elim. unfold peval.
  apply bsum_eqmod; [|done]. by apply power_table_node.
Qed.

Lemma BigFTT_forward_ok xs c : length xs = (2 ^ k)%nat -> reduced q xs -> big_cache_for c ->
  returns (BigFTT_ForwardInPlace (encode psi) (2 ^ (Z.of_nat k + 1)) (encode_vec q xs) c)
    (fun rc => fst rc = encode_vec q (big_forward q k (power_table q psi k) xs) /\ big_cache_has (snd rc)).
Proof.
  intros Hl Hx Hc. unfold BigFTT_ForwardInPlace. rewrite big_root_not_trivial, bind_Ok.
  replace (GetLength (encode_vec q xs)) with (2 ^ k)%nat by (by unfold GetLength; simpl; rewrite length_map).
  eapply returns_bind; [by apply BigFTT_prepare_ok|]. intros [m c'] [Em Hc']. simpl in Em, Hc'. subst m.
  pose proof Hc' as (_ & psi' & coi & cinv & E & _). unfold big_at. cbn [fst snd]. rewrite E, !bind_Ok. cbn [default id].
  rewrite (BigForwardInPlace_ok q Hq k) by (try lia; try done; first [apply length_power_table | apply power_table_reduced; lia || apply Hq]).
  by rewrite bind_Ok.
Qed.

Lemma BigFTT_inverse_ok xs c : length xs = (2 ^ k)%nat -> reduced q xs -> big_cache_has c ->
  BigFTT_InverseInPlace (encode psi) (2 ^ (Z.of_nat k + 1))
    (encode_vec q (big_forward q k (power_table q psi k) xs)) c
  = Ok (encode_vec q xs, c).
Proof.
  intros Hl Hx Hc. pose proof (bm_lt q Hq) as Hp. pose proof (bm_pos q Hq) as H1.
  pose proof (big_forward_inv q Hq k (power_table q psi k) xs Hx) as [Hfr Hfl].
  unfold BigFTT_InverseInPlace. rewrite big_root_not_trivial, bind_Ok.
  set (ys := big_forward _ _ _ _) in *.
  replace (GetLength (encode_vec q ys)) with (2 ^ k)%nat by (unfold GetLength; simpl; rewrite length_map; lia).
  unfold BigFTT_prepare. rewrite IsPowerOfTwo_pow2, cyclo_order_half, Nat.eqb_refl by lia. cbn [negb].
  rewrite (big_prologue q Hq), (big_cache_present c Hc), !bind_Ok.
  destruct Hc as (_ & psi' & coi & cinv & _ & E2 & E3 & Ec & Einv & Hcinv & Hci).
  unfold BigFTT_inverse_with. rewrite msb_of_length, Nat2Z.id by lia. unfold big_at. rewrite E2, E3, !bind_Ok.
  cbn [default id m_data encode_vec].
  rewrite (vget_Some _ _ (encode cinv)), bind_Ok by (by rewrite list_lookup_fmap, Ec).
  fold (encode_vec q (power_table q psi' k)). fold (encode_vec q ys).
  rewrite (BigInverseInPlace_ok q Hq k), bind_Ok
    by (try lia; try done; first [apply length_power_table | apply power_table_reduced; lia]).
  do 3 f_equal. unfold big_inverse, ys, big_forward. apply pinverse_recovers; try done.
  by apply power_table_inverse.
Qed.
End Root.

(** The forward transform of a multiprecision vector through the cache returns the
    values of its polynomial at the odd powers of the root, in bit-reversed order. *)
Theorem BigFTT_evaluates q psi k xs c :
  big_root_ok q psi k -> length xs = (2 ^ k)%nat -> reduced q xs -> big_cache_for q psi k c ->
  returns (BigFTT_ForwardInPlace (encode psi) (2 ^ (Z.of_nat k + 1)) (encode_vec q xs) c)
    (fun rc => fst rc = encode_vec q (big_odd_power_values q psi k xs) /\ big_cache_has q psi k (snd rc)).
Proof.
  intros Hr Hl Hx Hc. rewrite <- (big_forward_values q psi k Hr) by done. by apply BigFTT_forward_ok.
Qed.


(** ** Length 8 modulo 17 with the root of unity 3, and a modulus of three limbs *)

Lemma big_root8 : big_root_ok 17 3 3.
Proof. split; [apply prime_17 | split; by vm_compute | lia | lia | by constructor]. Qed.

Lemma empty_big_cache q psi k : big_cache_for q psi k (mk_big_cache [] [] []).
Proof. split; [split_and!; constructor | by left]. Qed.


Lemma BigFTT_evaluates_witness :
  returns (BigFTT_ForwardInPlace (encode 3) 16 (encode_vec 17 [1; 2; 3; 4; 5; 6; 7; 8]) (mk_big_cache [] [] []))
    (fun rc => fst rc = encode_vec 17 [5; 0; 13; 8; 9; 11; 5; 8]).
Proof.
  eapply returns_mono.
  - apply (BigFTT_evaluates 17 3 3 [1; 2; 3; 4; 5; 6; 7; 8]);
      first [apply big_root8 | reflexivity | apply empty_big_cache | repeat constructor; lia].
  - intros rc [-> _]. vm_compute. reflexivity.
Defined.

(** The transforms with precomputed quotients throw on every vector of at least two
    entries: the multiplication they call is not implemented for this class. *)
Example precon_transform_throws :
  BigForwardToBitReverseInPlace_precon (encode_vec 17 [1; 4]) (encode_vec 17 [1; 4]) (encode_vec 17 [5; 6])
  = Throw not_implemented_error.
Proof. vm_compute. reflexivity. Qed.
