(* ===== verification/Poly.v ===== *)
(** * Ring elements

    The class [PolyImpl<NativeVector>] of core/include/lattice/poly.h and
    core/lib/lattice/poly.cpp, with its parameters ([ElemParams] of
    core/include/lattice/elemparams.h and [ILParamsImpl] of ilparams.h). A ring
    element is the record of its fields: the vector of its values behind a
    [unique_ptr] that may be null, the representation the values are in, and the
    parameters. Dereferencing the null pointer is undefined; [GetValues] tests it
    and throws. The tables of the transforms are the state of [Ntt], threaded
    through the operations that change the representation. Sampled vectors are
    arguments. The transforms for orders that are no powers of two
    ([ChineseRemainderTransformArb]) are the arguments [arb_forward] and
    [arb_inverse]. *)
From stdpp Require Import base numbers list.
From Stdlib Require Import ZArith Lia Ascii.
From S2P Require Import Prelude Bits NativeInt NativeIntProps NativeVector Ntt NbTheory.
Open Scope Z_scope.

Inductive Format := EVALUATION | COEFFICIENT.

#[export] Instance Format_eq_dec : EqDecision Format.
Proof. solve_decision. Defined.

Record ILParams := mkParams {
  cyclotomicOrder : Z;
  ringDimension : Z;
  isPowerOfTwo : bool;
  ciphertextModulus : Z;
  rootOfUnity : Z;
  bigCiphertextModulus : Z;
  bigRootOfUnity : Z
}.

Record PolyImpl := mkPoly {
  m_values : option NativeVectorT;
  m_format : Format;
  m_params : ILParams
}.

(** [*p] of a [unique_ptr]. *)
Definition deref {A} (p : option A) : outcome A :=
  match p with Some x => Ok x | None => UB end.

Definition set_values (p : PolyImpl) (v : NativeVectorT) : PolyImpl :=
  mkPoly (Some v) (m_format p) (m_params p).
Definition set_format (p : PolyImpl) (f : Format) : PolyImpl :=
  mkPoly (m_values p) f (m_params p).

(** ** Parameters *)

Section Parameters.
Context `{W : NativeWidth}.
Context (dist : nat -> Z -> Z) (rfuel : nat).

Definition ElemParams_new (fuel : nat) (order ctModulus rUnity bigCtModulus bigRUnity : Z) (c : nat)
    : outcome (ILParams * nat) :=
  '(t, c) ← GetTotient dist rfuel fuel order c;
  let ringDimension := u32 t in
  Ok (mkParams order ringDimension (ringDimension =? order / 2) ctModulus rUnity bigCtModulus bigRUnity, c).

(** [ILParamsImpl(order, modulus)]: searches the root of unity. *)
Definition ILParams_search (fuel : nat) (order modulus : Z) (c : nat) : outcome (ILParams * nat) :=
  '(p, c) ← ElemParams_new fuel order modulus 0 0 0 c;
  '(root, c) ← RootOfUnity dist rfuel fuel order modulus c;
  Ok (mkParams (cyclotomicOrder p) (ringDimension p) (isPowerOfTwo p) (ciphertextModulus p) root
        (bigCiphertextModulus p) (bigRootOfUnity p), c).
End Parameters.

(** [operator==]: every field but [isPowerOfTwo]. *)
Definition params_eqb (a b : ILParams) : bool :=
  (cyclotomicOrder a =? cyclotomicOrder b) && (ringDimension a =? ringDimension b) &&
  (ciphertextModulus a =? ciphertextModulus b) && (rootOfUnity a =? rootOfUnity b) &&
  (bigCiphertextModulus a =? bigCiphertextModulus b) && (bigRootOfUnity a =? bigRootOfUnity b).

Section Definitions.
Context `{W : NativeWidth}.

Definition GetModulus (p : PolyImpl) : Z := ciphertextModulus (m_params p).
(** The ring dimension and half the order as lengths. *)
Definition ring_length (params : ILParams) : nat := Z.to_nat (ringDimension params).
Definition half_order (params : ILParams) : nat := Z.to_nat (cyclotomicOrder params / 2).

(** ** Access *)

Definition IsEmpty (p : PolyImpl) : bool := match m_values p with None => true | Some _ => false end.

Definition GetValues (p : PolyImpl) : outcome NativeVectorT :=
  match m_values p with None => Throw not_available_error | Some v => Ok v end.

Definition GetLength_poly (p : PolyImpl) : outcome nat :=
  v ← GetValues p; Ok (GetLength v).

Definition at_poly (p : PolyImpl) (i : nat) : outcome Z := v ← GetValues p; at_ v i.

(** [operator\[\]] as a value and as the target of an assignment. *)
Definition index (p : PolyImpl) (i : nat) : outcome Z := v ← deref (m_values p); vget (m_data v) i.
Definition set_index (p : PolyImpl) (i : nat) (x : Z) : outcome PolyImpl :=
  v ← deref (m_values p);
  data ← vset (m_data v) i x;
  Ok (set_values p (mkVector data (m_modulus v))).

Definition SetValues (p : PolyImpl) (values : NativeVectorT) (format : Format) : outcome PolyImpl :=
  if rootOfUnity (m_params p) =? 0 then Throw type_error
  else if negb (ringDimension (m_params p) =? Z.of_nat (GetLength values))
          || negb (GetModulus p =? m_modulus values) then Throw type_error
  else Ok (mkPoly (Some values) format (m_params p)).

Definition SetValuesToZero (p : PolyImpl) : outcome PolyImpl :=
  v ← NativeVectorT_new (ring_length (m_params p)) (GetModulus p);
  Ok (set_values p v).

Definition SetValuesToMax (p : PolyImpl) : outcome PolyImpl :=
  let max := Sub (GetModulus p) 1 in
  v ← NativeVectorT_new (ring_length (m_params p)) (GetModulus p);
  for_range 0 (ring_length (m_params p)) (fun i p => set_index p i max) (set_values p v).

(** ** Changing the representation *)

Context (arb_forward arb_inverse : NativeVectorT -> ILParams -> outcome NativeVectorT).

Definition ArbitrarySwitchFormat (p : PolyImpl) : outcome PolyImpl :=
  match m_values p with
  | None => Throw not_available_error
  | Some v =>
      match m_format p with
      | COEFFICIENT => v ← arb_forward v (m_params p); Ok (mkPoly (Some v) EVALUATION (m_params p))
      | EVALUATION => v ← arb_inverse v (m_params p); Ok (mkPoly (Some v) COEFFICIENT (m_params p))
      end
  end.

Definition SwitchFormat (p : PolyImpl) (c : FTTCache) : outcome (PolyImpl * FTTCache) :=
  match m_values p with
  | None => Throw not_available_error
  | Some v =>
      if negb (isPowerOfTwo (m_params p)) then p ← ArbitrarySwitchFormat p; Ok (p, c)
      else
        let root := rootOfUnity (m_params p) in
        let order := cyclotomicOrder (m_params p) in
        match m_format p with
        | COEFFICIENT =>
            '(v, c) ← FTT_ForwardTransformToBitReverseInPlace root order v c;
            Ok (mkPoly (Some v) EVALUATION (m_params p), c)
        | EVALUATION =>
            '(v, c) ← FTT_InverseTransformFromBitReverseInPlace root order v c;
            Ok (mkPoly (Some v) COEFFICIENT (m_params p), c)
        end
  end.

(** [ILElement::SetFormat] *)
Definition SetFormat (p : PolyImpl) (format : Format) (c : FTTCache) : outcome (PolyImpl * FTTCache) :=
  if bool_decide (m_format p = format) then Ok (p, c) else SwitchFormat p c.

(** ** Constructors and assignments *)

Definition PolyImpl_new (params : ILParams) (format : Format) (initializeElementToZero : bool)
    : outcome PolyImpl :=
  let p := mkPoly None format params in
  if initializeElementToZero then SetValuesToZero p else Ok p.

Definition PolyImpl_max (initializeElementToMax : bool) (params : ILParams) (format : Format)
    : outcome PolyImpl :=
  let p := mkPoly None format params in
  if initializeElementToMax then SetValuesToMax p else Ok p.

(** The constructors from the Gaussian, the uniform and the ternary generator:
    [values] is the vector the generator returned. *)
Definition PolyImpl_sampled (values : NativeVectorT) (params : ILParams) (format : Format) (c : FTTCache)
    : outcome (PolyImpl * FTTCache) :=
  v ← SetModulus values (ciphertextModulus params);
  SetFormat (mkPoly (Some v) COEFFICIENT params) format c.

(** The constructor from the binary generator keeps the modulus of the vector. *)
Definition PolyImpl_binary (values : NativeVectorT) (params : ILParams) (format : Format) (c : FTTCache)
    : outcome (PolyImpl * FTTCache) :=
  SetFormat (mkPoly (Some values) COEFFICIENT params) format c.

Definition CloneParametersOnly (p : PolyImpl) : PolyImpl := mkPoly None (m_format p) (m_params p).

(** [operator=(const PolyImpl&)], of another object: the values stay when those
    of [rhs] are null. *)
Definition assign_poly (this rhs : PolyImpl) : PolyImpl :=
  mkPoly (match m_values rhs with Some v => Some v | None => m_values this end) (m_format rhs) (m_params rhs).

(** [for (j = 0; j < vectorLength; j++)]: entry [j] of the list, zero past its
    end. *)
Definition fill_entries {A} (conv : A -> outcome Z) (rhs : list A) (n : nat) (p : PolyImpl)
    : outcome PolyImpl :=
  for_range 0 n (fun j p =>
    x ← match rhs !! j with Some y => conv y | None => Ok 0 end;
    set_index p j x) p.

Definition assign_uint64s (p : PolyImpl) (rhs : list Z) : outcome PolyImpl :=
  match m_values p with
  | Some v => fill_entries (fun x => Ok (wrap x)) rhs (GetLength v) p
  | None =>
      temp ← SetModulus (mkVector (repeat 0 (half_order (m_params p))) 0) (GetModulus p);
      temp ← assign_ints temp rhs;
      SetValues p temp (m_format p)
  end.

(** A signed entry of [width] bits: its opposite overflows for the least one. *)
Definition signed_entry (width modulus x : Z) : outcome Z :=
  if x <? 0 then
    if x =? - 2 ^ (width - 1) then UB else Ok (Sub modulus (wrap (- x)))
  else Ok (wrap x).

Definition assign_signed (width : Z) (p : PolyImpl) (rhs : list Z) : outcome PolyImpl :=
  p ← match m_values p with
      | Some v => fill_entries (signed_entry width (GetModulus p)) rhs (GetLength v) p
      | None =>
          let n := half_order (m_params p) in
          temp ← SetModulus (mkVector (repeat 0 n) 0) (GetModulus p);
          t ← fill_entries (signed_entry width (GetModulus p)) rhs n (set_values p temp);
          temp ← deref (m_values t);
          SetValues p temp (m_format p)
      end;
  Ok (set_format p COEFFICIENT).
Definition assign_int64s (p : PolyImpl) (rhs : list Z) : outcome PolyImpl := assign_signed 64 p rhs.
Definition assign_int32s (p : PolyImpl) (rhs : list Z) : outcome PolyImpl := assign_signed 32 p rhs.

Definition assign_strings_poly (p : PolyImpl) (rhs : list (list ascii)) : outcome PolyImpl :=
  match m_values p with
  | Some v => fill_entries AssignVal rhs (GetLength v) p
  | None =>
      temp ← SetModulus (mkVector (repeat 0 (ring_length (m_params p))) 0) (GetModulus p);
      temp ← assign_strings temp rhs;
      SetValues p temp (m_format p)
  end.

(** [operator=(uint64_t)]: the constant in the evaluation representation. *)
Definition assign_uint64 (p : PolyImpl) (val : Z) : outcome PolyImpl :=
  let p := set_format p EVALUATION in
  p ← match m_values p with
      | None => v ← NativeVectorT_new (ring_length (m_params p)) (GetModulus p); Ok (set_values p v)
      | Some _ => Ok p
      end;
  v ← deref (m_values p);
  for_range 0 (GetLength v) (fun i p => set_index p i (wrap val)) p.

(** ** Arithmetic with integers *)

Definition Plus_scalar (p : PolyImpl) (element : Z) : outcome PolyImpl :=
  let tmp := CloneParametersOnly p in
  v ← GetValues p;
  v ← match m_format p with
      | COEFFICIENT => ModAddAtIndex v 0 element
      | EVALUATION => ModAdd_scalar v element
      end;
  SetValues tmp v (m_format p).

(** Every entry, in both representations. *)
Definition Minus_scalar (p : PolyImpl) (element : Z) : outcome PolyImpl :=
  v ← GetValues p;
  v ← ModSub_scalar v element;
  SetValues (CloneParametersOnly p) v (m_format p).

Definition Times_scalar (p : PolyImpl) (element : Z) : outcome PolyImpl :=
  v ← GetValues p;
  v ← ModMul_scalar v element;
  SetValues (CloneParametersOnly p) v (m_format p).

(** [Times(SignedNativeInt)]: the opposite of the least value overflows. *)
Definition Times_signed (p : PolyImpl) (element : Z) : outcome PolyImpl :=
  let q := GetModulus p in
  if element <? 0 then
    e ← scheck (- element);
    let e := wrap e in
    elementReduced ← (if e >? q then ModEq e q else Ok e);
    v ← GetValues p;
    v ← ModMul_scalar v (Sub q elementReduced);
    SetValues (CloneParametersOnly p) v (m_format p)
  else
    let e := wrap element in
    elementReduced ← (if e >? q then ModEq e q else Ok e);
    v ← GetValues p;
    v ← ModMul_scalar v elementReduced;
    SetValues (CloneParametersOnly p) v (m_format p).

Definition MultiplyAndRound_poly (p : PolyImpl) (x y : Z) : outcome PolyImpl :=
  v ← GetValues p;
  v ← MultiplyAndRound_vector v x y;
  SetValues (CloneParametersOnly p) v (m_format p).

Definition DivideAndRound_poly (p : PolyImpl) (x : Z) : outcome PolyImpl :=
  v ← GetValues p;
  v ← DivideAndRound_vector v x;
  SetValues (CloneParametersOnly p) v (m_format p).

Definition Negate (p : PolyImpl) : outcome PolyImpl :=
  v ← deref (m_values p);
  v ← ModMulEq_scalar v (Sub (GetModulus p) 1);
  Ok (set_values p v).

(** The assignment operators with an integer. *)
Definition PlusEq_scalar (p : PolyImpl) (element : Z) : outcome PolyImpl :=
  r ← Plus_scalar p element; Ok (assign_poly p r).
Definition MinusEq_scalar (p : PolyImpl) (element : Z) : outcome PolyImpl :=
  v ← deref (m_values p); v ← ModSubEq_scalar v element; Ok (set_values p v).
Definition TimesEq_scalar (p : PolyImpl) (element : Z) : outcome PolyImpl :=
  v ← deref (m_values p); v ← ModMulEq_scalar v element; Ok (set_values p v).

(** ** Arithmetic of ring elements *)

Definition Plus (p element : PolyImpl) : outcome PolyImpl :=
  v ← deref (m_values p);
  u ← deref (m_values element);
  v ← ModAddEq_vector v u;
  Ok (set_values p v).

Definition Minus (p element : PolyImpl) : outcome PolyImpl :=
  v ← deref (m_values p);
  u ← deref (m_values element);
  v ← ModSubEq_vector v u;
  Ok (set_values p v).

(** The guard of the products. *)
Definition both_evaluation (p element : PolyImpl) : bool :=
  bool_decide (m_format p = EVALUATION) && bool_decide (m_format element = EVALUATION).

Definition Times (p element : PolyImpl) : outcome PolyImpl :=
  if negb (both_evaluation p element) then Throw not_implemented_error
  else if negb (params_eqb (m_params p) (m_params element)) then Throw type_error
  else
    v ← deref (m_values p);
    u ← deref (m_values element);
    v ← ModMulEq_vector v u;
    Ok (set_values p v).

(** [operator+=], [operator-=] and [operator*=]: null values act as zero. *)
Definition PlusEq (p element : PolyImpl) : outcome PolyImpl :=
  if negb (params_eqb (m_params p) (m_params element)) then Throw type_error
  else
    u ← deref (m_values element);
    match m_values p with
    | None => Ok (set_values p u)
    | Some v => v ← ModAddEq_vector v u; Ok (set_values p v)
    end.

Definition MinusEq (p element : PolyImpl) : outcome PolyImpl :=
  if negb (params_eqb (m_params p) (m_params element)) then Throw type_error
  else
    v ← match m_values p with
        | None => NativeVectorT_new (ring_length (m_params p)) (GetModulus p)
        | Some v => Ok v
        end;
    u ← deref (m_values element);
    v ← ModSubEq_vector v u;
    Ok (set_values p v).

Definition TimesEq (p element : PolyImpl) : outcome PolyImpl :=
  if negb (both_evaluation p element) then Throw not_implemented_error
  else if negb (params_eqb (m_params p) (m_params element)) then Throw type_error
  else
    match m_values p with
    | None => v ← NativeVectorT_new (ring_length (m_params p)) (GetModulus p); Ok (set_values p v)
    | Some v =>
        u ← deref (m_values element);
        v ← ModMulEq_vector v u;
        Ok (set_values p v)
    end.

(** Unary minus. *)
Definition neg_poly (p : PolyImpl) : outcome PolyImpl :=
  all0 ← PolyImpl_new (m_params p) (m_format p) true;
  Minus all0 p.

Definition eqb_poly (p rhs : PolyImpl) : outcome bool :=
  if negb (bool_decide (m_format p = m_format rhs)) then Ok false
  else if negb (rootOfUnity (m_params p) =? rootOfUnity (m_params rhs)) then Ok false
  else
    v ← GetValues p;
    u ← GetValues rhs;
    Ok (eqb_vector v u).

Definition AddILElementOne (p : PolyImpl) : outcome PolyImpl :=
  for_range 0 (ring_length (m_params p)) (fun i p =>
    v ← GetValues p;
    x ← vget (m_data v) i;
    x ← NativeInt.Mod (Add x 1) (GetModulus p);
    set_index p i x) p.

(** ** Automorphisms *)

(** The loop over the odd [j] of the evaluation representation; a shift of a
    [usint] by its width or more is undefined. *)
Definition automorphism_evaluation (k : Z) (p result : PolyImpl) : outcome PolyImpl :=
  let m := cyclotomicOrder (m_params p) in
  let logm := round_log2 m in
  let logn := round_log2 (ringDimension (m_params p)) in
  for_range 0 (Z.to_nat (m / 2)) (fun i result =>
    let j := 2 * Z.of_nat i + 1 in
    let jk := u32 (j * k) in
    high ← (h ← shr32 jk logm; shl32 h logm);
    let idx := u32 (jk - high) in
    let jrev := ReverseBits (j / 2) logn in
    let idxrev := ReverseBits (idx / 2) logn in
    v ← GetValues p;
    x ← vget (m_data v) (Z.to_nat idxrev);
    set_index result (Z.to_nat jrev) x) result.

(** The coefficient representation: [X^j] goes to [X^(j k)] modulo [X^n + 1]. *)
Definition automorphism_coefficient (k : Z) (p result : PolyImpl) : outcome PolyImpl :=
  let n := ringDimension (m_params p) in
  for_range 1 (Z.to_nat n) (fun j result =>
    let temp := u32 (Z.of_nat j * k) in
    let newIndex := temp mod n in
    x ← index p j;
    set_index result (Z.to_nat newIndex)
      (if (temp / n) mod 2 =? 1 then Sub (GetModulus p) x else x)) result.

(** The evaluation representation for an order that is no power of two. *)
Definition automorphism_cyclotomic (k : Z) (p result : PolyImpl) : outcome PolyImpl :=
  let m := cyclotomicOrder (m_params p) in
  let n := ring_length (m_params p) in
  totientList ← GetTotientList m;
  expanded ← NativeVectorT_new (Z.to_nat m) (GetModulus p);
  data ← for_range 0 n (fun i data =>
    t ← vget totientList i;
    x ← index p i;
    vset data (Z.to_nat t) x) (m_data expanded);
  for_range 0 n (fun i result =>
    t ← vget totientList i;
    idx ← umod (u32 (t * k)) m;
    x ← vget data (Z.to_nat idx);
    set_index result i x) result.

Definition AutomorphismTransform (p : PolyImpl) (k : Z) : outcome PolyImpl :=
  let result := p in
  match m_format p with
  | EVALUATION =>
      if negb (isPowerOfTwo (m_params p)) then automorphism_cyclotomic k p result
      else if k mod 2 =? 0 then Throw math_error
      else automorphism_evaluation k p result
  | COEFFICIENT =>
      if negb (isPowerOfTwo (m_params p)) then Throw not_implemented_error
      else if k mod 2 =? 0 then Throw math_error
      else automorphism_coefficient k p result
  end.

Definition AutomorphismTransform_precomp (p : PolyImpl) (k : Z) (precomp : list Z) : outcome PolyImpl :=
  let result := p in
  if bool_decide (m_format p = EVALUATION) && isPowerOfTwo (m_params p) then
    if k mod 2 =? 0 then Throw math_error
    else
      for_range 0 (ring_length (m_params p)) (fun j result =>
        i ← vget precomp j;
        x ← index p (Z.to_nat i);
        set_index result j x) result
  else Throw not_implemented_error.

Definition Transpose (p : PolyImpl) : outcome PolyImpl :=
  match m_format p with
  | COEFFICIENT => Throw not_implemented_error
  | EVALUATION => AutomorphismTransform p (u32 (cyclotomicOrder (m_params p) - 1))
  end.

(** ** Inverses and changes of modulus *)

(** [for (i = 0; i < length; i++)]: whether no entry is zero. *)
Definition InverseExists (p : PolyImpl) : outcome bool :=
  v ← GetValues p;
  Ok (forallb (fun x => negb (x =? 0)) (m_data v)).

Definition MultiplicativeInverse (p : PolyImpl) : outcome PolyImpl :=
  e ← InverseExists p;
  if (e : bool) then
    v ← GetValues p;
    v ← ModInverse_vector v;
    SetValues (CloneParametersOnly p) v (m_format p)
  else Throw math_error.

Definition ModByTwo_poly (p : PolyImpl) : outcome PolyImpl :=
  v ← GetValues p;
  v ← ModByTwo v;
  SetValues (CloneParametersOnly p) v (m_format p).

Definition Mod_poly (p : PolyImpl) (modulus : Z) : outcome PolyImpl :=
  v ← GetValues p;
  v ← Mod_vector v modulus;
  SetValues (CloneParametersOnly p) v (m_format p).

(** The new parameters are built from the order, the new modulus and the roots;
    [fuel] and [c] are for the factorization of the order. *)
Definition SwitchModulus_poly (dist : nat -> Z -> Z) (rfuel fuel : nat) (p : PolyImpl)
    (modulus root modulusArb rootArb : Z) (c : nat) : outcome (PolyImpl * nat) :=
  match m_values p with
  | None => Ok (p, c)
  | Some v =>
      v ← SwitchModulus v modulus;
      '(params, c) ← ElemParams_new dist rfuel fuel (cyclotomicOrder (m_params p)) modulus root
                       modulusArb rootArb c;
      Ok (mkPoly (Some v) (m_format p) params, c)
  end.

Definition MakeSparse (p : PolyImpl) (wFactor : Z) : outcome PolyImpl :=
  match m_values p with
  | None => Ok p
  | Some _ =>
      for_range 0 (ring_length (m_params p)) (fun i p =>
        r ← umod (Z.of_nat i) wFactor;
        if negb (r =? 0) then set_index p i 0 else Ok p) p
  end.

(** [Norm] before its conversion to a floating-point number. *)
Definition Norm (p : PolyImpl) : outcome Z :=
  let q := GetModulus p in
  half ← RShift q 1;
  v ← GetValues p;
  for_range 0 (GetLength v) (fun i retVal =>
    x ← index p i;
    let locVal := if x >? half then Sub q x else x in
    Ok (if locVal >? retVal then locVal else retVal)) 0.

(** ** Digits *)

(** [1 << b] as a [usint]. *)
Definition shl_usint (b : Z) : outcome Z := if (0 <=? b) && (b <? 32) then Ok (2 ^ b) else UB.

(** The number of digits of [baseBits] bits of the modulus. *)
Definition windows (p : PolyImpl) (baseBits : Z) : outcome nat :=
  let nBits := GetLengthForBase (GetModulus p) 2 in
  nWindows ← udiv nBits baseBits;
  r ← umod nBits baseBits;
  Ok (Z.to_nat (if r >? 0 then nWindows + 1 else nWindows)).

Definition BaseDecompose (p : PolyImpl) (baseBits : Z) (evalModeAnswer : bool) (c : FTTCache)
    : outcome (list PolyImpl * FTTCache) :=
  nWindows ← windows p baseBits;
  xDigit ← PolyImpl_new (m_params p) EVALUATION false;
  '(x, c) ← SetFormat p COEFFICIENT c;
  '(result, _, c) ← for_range 0 nWindows (fun i '(result, xDigit, c) =>
    v ← GetValues x;
    base ← shl_usint baseBits;
    v ← GetDigitAtIndexForBase_vector v (Z.of_nat i + 1) base;
    xDigit ← SetValues xDigit v (m_format x);
    '(xDigit, c) ← (if evalModeAnswer then SwitchFormat xDigit c else Ok (xDigit, c));
    Ok (result ++ [xDigit], xDigit, c)) ([], xDigit, c);
  Ok (result, c).

Definition PowersOfBase (p : PolyImpl) (baseBits : Z) : outcome (list PolyImpl) :=
  nWindows ← windows p baseBits;
  for_range 0 nWindows (fun i result =>
    pI ← ModExp 2 (wrap (u32 (Z.of_nat i * baseBits))) (GetModulus p);
    r ← Times_scalar p pI;
    Ok (result ++ [r])) [].

(** The plaintext: the values modulo [ptm], with parameters of their own. *)
Definition DecryptionCRTInterpolate (dist : nat -> Z -> Z) (rfuel fuel : nat) (p : PolyImpl) (ptm : Z) (c : nat)
    : outcome (PolyImpl * nat) :=
  smaller ← Mod_poly p ptm;
  '(params, c) ← ElemParams_new dist rfuel fuel (cyclotomicOrder (m_params p)) ptm 1 0 0 c;
  interp ← PolyImpl_new params (m_format p) true;
  n ← GetLength_poly smaller;
  interp ← for_range 0 n (fun i interp => x ← index smaller i; set_index interp i x) interp;
  Ok (interp, c).

End Definitions.
