(* ===== verification/PolyProps.v ===== *)
(** * Ring elements: what they denote

    A ring element of dimension [2 ^ k] modulo the prime [q] denotes the list of
    the coefficients of a polynomial modulo [X ^ n + 1], in either representation:
    its values are the coefficients, or the values of the polynomial at the odd
    powers of the root of unity. Changing the representation keeps the polynomial,
    and every operation acts on it as the operation of the ring. *)
From stdpp Require Import base numbers list.
From Stdlib Require Import ZArith Lia.
From S2P Require Import Prelude Bits NativeInt NativeIntProps NativeVector Ntt NttProps FttProps NbTheory AutoProps Poly.
Open Scope Z_scope.

(** ** Polynomials as lists *)

Lemma insert_at (a : list Z) i j y :
  (i < length a)%nat -> (<[i := y]> a : list Z) !!! j = if decide (i = j) then y else a !!! j.
Proof.
  intros Hi. case_decide as E; [subst; by apply list_lookup_total_insert_eq | by apply list_lookup_total_insert_ne].
Qed.

Lemma bsum_ext c d n x : (forall j, (j < n)%nat -> c j = d j) -> bsum c n x = bsum d n x.
Proof.
  induction n as [|n IH]; intros H; cbn [bsum]; [done|]. rewrite IH, (H n) by (intros; try apply H; lia). done.
Qed.

Lemma peval_insert (a : list Z) i y x :
  (i < length a)%nat -> peval (<[i := y]> a) x = peval a x + (y - a !!! i) * x ^ Z.of_nat i.
Proof.
  unfold peval. rewrite length_insert. intros Hi. assert (forall n, (n <= length a)%nat ->
    bsum (fun j => (<[i := y]> a : list Z) !!! j) n x
    = bsum (fun j => a !!! j) n x + (if (i <? n)%nat then (y - a !!! i) * x ^ Z.of_nat i else 0)) as H.
  { induction n as [|n IH]; intros Hn; cbn [bsum]; [done|]. rewrite IH, insert_at by lia.
    case_decide as E; [subst n; rewrite (proj2 (Nat.ltb_ge _ _)), (proj2 (Nat.ltb_lt _ _)) by lia; ring|].
    destruct (Nat.ltb_spec i n), (Nat.ltb_spec i (S n)); try lia; ring. }
  rewrite H by done. by rewrite (proj2 (Nat.ltb_lt _ _)) by done.
Qed.

Lemma peval_zero n x : peval (repeat 0 n) x = 0.
Proof.
  unfold peval. rewrite repeat_length. rewrite (bsum_ext _ (fun j => 0 * 0)).
  - rewrite bsum_scale. lia.
  - intros j Hj. by apply list_lookup_total_correct, lookup_repeat.
Qed.

(** ** The ring *)

Definition padd (q : Z) (f g : list Z) : list Z := zip_with (fun x y => (x + y) mod q) f g.
Definition psub (q : Z) (f g : list Z) : list Z := zip_with (fun x y => (x - y) mod q) f g.
Definition pscale (q s : Z) (f : list Z) : list Z := map (fun x => (x * s) mod q) f.
(** The sum with a constant. *)
Definition pconst (q s : Z) (f : list Z) : list Z :=
  match f with [] => [] | x :: f => (x + s) mod q :: f end.

Section Ring.
Context `{W : NativeWidth}.
Context (q psi : Z) (k : nat) (Hr : root_ok q psi k).

Definition ring_elem (f : list Z) : Prop := length f = (2 ^ k)%nat /\ reduced q f.

(** The values at the odd powers of the root. *)
Definition ntt (f : list Z) : list Z := odd_power_values q psi k (mkVector f q).

Definition point (i : nat) : Z := psi ^ Z.of_nat (2 * rv k i + 1).

Lemma modulus_pos : 4 <= q.
Proof. apply Hr. Qed.

Lemma size_k : (1 <= k <= 24)%nat.
Proof. apply Hr. Qed.

Lemma point_root i : point i ^ Z.of_nat (2 ^ k) ==[q] -1.
Proof.
  unfold point. rewrite <- Z.pow_mul_r by lia. rewrite (pow2_nat_Z k).
  rewrite Z.mul_comm, Z.pow_mul_r by lia. pose proof (ro_root _ _ _ Hr) as E.
  rewrite (eqmod_pow q _ _ _ E). apply eqmod_eq.
  replace (Z.of_nat (2 * rv k i + 1)) with (2 * Z.of_nat (rv k i) + 1) by lia.
  rewrite Z.pow_add_r, Z.pow_mul_r by lia. change ((-1) ^ 2) with 1. rewrite Z.pow_1_l by lia. done.
Qed.

Lemma length_ntt f : length (ntt f) = (2 ^ k)%nat.
Proof. unfold ntt, odd_power_values. by rewrite length_map, length_seq. Qed.

Lemma ntt_at f i : (i < 2 ^ k)%nat -> ntt f !!! i = peval f (point i) mod q.
Proof. intros Hi. unfold ntt, odd_power_values. by rewrite map_seq_at by done. Qed.

Lemma reduced_at_2 f : (forall i, (i < length f)%nat -> 0 <= f !!! i < q) -> reduced q f.
Proof.
  intros H. apply Forall_lookup_2. intros i x Hx. pose proof (lookup_lt_Some _ _ _ Hx).
  rewrite <- (list_lookup_total_correct _ _ _ Hx). by apply H.
Qed.

Lemma ntt_elem f : ring_elem (ntt f).
Proof.
  pose proof modulus_pos. split; [apply length_ntt|]. apply reduced_at_2. rewrite length_ntt. intros i Hi.
  rewrite ntt_at by done. apply mod_range. lia.
Qed.

(** Two ring elements with the same residues of entries. *)
Lemma ring_elem_eq (f g : list Z) :
  length f = (2 ^ k)%nat -> length g = (2 ^ k)%nat ->
  (forall i, (i < 2 ^ k)%nat -> f !!! i = g !!! i) -> f = g.
Proof. intros Hf Hg H. apply list_eq_total; [congruence|]. rewrite Hf. apply H. Qed.

Lemma ring_fits f : ring_elem f <-> fits q k (mkVector f q).
Proof.
  pose proof modulus_pos. pose proof (ro_size _ _ _ Hr). split.
  - intros [Hl Hd]. split; [|done]. split; [simpl; lia | done | done].
  - intros ([_ _ Hd] & _ & Hl). done.
Qed.

Lemma ntt_ext f g :
  length g = (2 ^ k)%nat ->
  (forall i, (i < 2 ^ k)%nat -> peval f (point i) ==[q] g !!! i) -> reduced q g -> ntt f = g.
Proof.
  intros Hg H Hred. apply ring_elem_eq; [apply length_ntt | done |]. intros i Hi. rewrite ntt_at by done.
  pose proof modulus_pos. apply (eqmod_small q); [apply mod_range; lia | apply reduced_at; [done | lia] |].
  rewrite eqmod_mod. by apply H.
Qed.

(** ** Evaluation of the operations of the ring *)

Lemma zip_with_at (h : Z -> Z -> Z) f g i :
  (i < length f)%nat -> (i < length g)%nat -> zip_with h f g !!! i = h (f !!! i) (g !!! i).
Proof.
  intros Hf Hg. apply list_lookup_total_correct. rewrite lookup_zip_with.
  by rewrite !list_lookup_lookup_total_lt by done.
Qed.

Lemma fmap_at (h : Z -> Z) f i : (i < length f)%nat -> map h f !!! i = h (f !!! i).
Proof.
  intros Hi. apply list_lookup_total_correct. by rewrite list_lookup_fmap, list_lookup_lookup_total_lt by done.
Qed.

Lemma zip_elem (h : Z -> Z -> Z) f g :
  ring_elem f -> ring_elem g -> ring_elem (zip_with (fun x y => h x y mod q) f g).
Proof.
  intros [Hf _] [Hg _]. pose proof modulus_pos. split; [rewrite length_zip_with; lia|].
  apply reduced_at_2. intros i. rewrite length_zip_with. intros Hi. rewrite zip_with_at by lia.
  apply mod_range. lia.
Qed.

Lemma map_elem (h : Z -> Z) f : ring_elem f -> ring_elem (map (fun x => h x mod q) f).
Proof.
  intros [Hf _]. pose proof modulus_pos. split; [by rewrite length_map|].
  apply Forall_map, Forall_true. intros x. apply mod_range. lia.
Qed.

Lemma peval_linear f g s x :
  length g = length f ->
  peval (zip_with (fun a b => (a + b * s) mod q) f g) x ==[q] peval f x + s * peval g x.
Proof.
  intros Hl. unfold peval. rewrite length_zip_with, Hl, Nat.min_id, <- bsum_linear.
  apply bsum_eqmod; [done|]. intros i Hi. rewrite zip_with_at by lia. apply eqmod_mod.
Qed.

Lemma ntt_linear f g s :
  ring_elem f -> ring_elem g ->
  ntt (zip_with (fun a b => (a + b * s) mod q) f g)
  = zip_with (fun a b => (a + b * s) mod q) (ntt f) (ntt g).
Proof.
  intros [Hf Rf] [Hg Rg]. pose proof (ntt_elem f) as Ef. pose proof (ntt_elem g) as Eg.
  apply ntt_ext; [rewrite length_zip_with, !length_ntt; lia | |
    by apply (zip_elem (fun a b => a + b * s))].
  intros i Hi. rewrite zip_with_at by (by rewrite length_ntt). rewrite peval_linear by lia.
  rewrite eqmod_mod, !ntt_at, !eqmod_mod by done. apply eqmod_eq. ring.
Qed.

Lemma zip_with_ext_Z (h h' : Z -> Z -> Z) f g :
  (forall x y, h x y = h' x y) -> zip_with h f g = zip_with h' f g.
Proof. intros H. revert g. induction f; intros [|y g]; simpl; [done | done | done |]. by rewrite H, IHf. Qed.

Lemma ntt_add f g : ring_elem f -> ring_elem g -> ntt (padd q f g) = padd q (ntt f) (ntt g).
Proof.
  intros Hf Hg. unfold padd.
  rewrite !(zip_with_ext_Z (fun x y => (x + y) mod q) (fun a b => (a + b * 1) mod q))
    by (intros; f_equal; lia). by apply ntt_linear.
Qed.

Lemma ntt_sub f g : ring_elem f -> ring_elem g -> ntt (psub q f g) = psub q (ntt f) (ntt g).
Proof.
  intros Hf Hg. unfold psub.
  rewrite !(zip_with_ext_Z (fun x y => (x - y) mod q) (fun a b => (a + b * -1) mod q))
    by (intros; f_equal; lia). by apply ntt_linear.
Qed.

Lemma ntt_mul f g :
  ring_elem f -> ring_elem g ->
  ntt (negacyclic q f g) = zip_with (fun x y => (x * y) mod q) (ntt f) (ntt g).
Proof.
  intros [Hf Rf] [Hg Rg]. apply ntt_ext; [rewrite length_zip_with, !length_ntt; lia | |
    by apply (zip_elem Z.mul); apply ntt_elem].
  intros i Hi. rewrite zip_with_at by (by rewrite length_ntt). rewrite eqmod_mod, !ntt_at, !eqmod_mod by done.
  apply negacyclic_eval; [congruence|]. rewrite Hf. apply point_root.
Qed.

Lemma peval_scale s f x : peval (pscale q s f) x ==[q] s * peval f x.
Proof.
  unfold peval, pscale. rewrite length_map, <- bsum_scale. apply bsum_eqmod; [done|]. intros i Hi.
  rewrite fmap_at by done. rewrite eqmod_mod. apply eqmod_eq. ring.
Qed.

Lemma ntt_scale s f : ring_elem f -> ntt (pscale q s f) = pscale q s (ntt f).
Proof.
  intros Hf. apply ntt_ext; [by unfold pscale; rewrite length_map, length_ntt | |
    by apply (map_elem (fun x => x * s)), ntt_elem].
  intros i Hi. rewrite peval_scale. unfold pscale. rewrite fmap_at by (by rewrite length_ntt).
  rewrite eqmod_mod, ntt_at, eqmod_mod by done. apply eqmod_eq. ring.
Qed.

Lemma peval_const s f x : (0 < length f)%nat -> peval (pconst q s f) x ==[q] peval f x + s.
Proof.
  destruct f as [|a f]; simpl; [lia|]. intros _. unfold peval. cbn [length].
  rewrite <- Nat.add_1_l, !(bsum_split _ 1 (length f)). cbn [bsum lookup_total list_lookup_total Z.of_nat].
  rewrite Z.pow_0_r, eqmod_mod. apply eqmod_eq. cbn [lookup_total list_lookup_total Nat.add]. ring.
Qed.

Lemma ntt_const s f :
  ring_elem f -> ntt (pconst q s f) = map (fun x => (x + s) mod q) (ntt f).
Proof.
  intros [Hf Rf].
  assert (0 < 2 ^ k)%nat by (apply Nat.neq_0_lt_0, Nat.pow_nonzero; lia).
  apply ntt_ext; [by rewrite length_map, length_ntt | |
    by apply (map_elem (fun x => x + s)), ntt_elem].
  intros i Hi. rewrite peval_const by lia. rewrite fmap_at by (by rewrite length_ntt).
  by rewrite eqmod_mod, ntt_at, eqmod_mod by done.
Qed.

Lemma pconst_elem s f : ring_elem f -> ring_elem (pconst q s f).
Proof.
  intros [Hf Rf]. pose proof modulus_pos. destruct f as [|x f]; [done|]. split; [done|].
  apply Forall_cons in Rf as [_ Rf]. apply Forall_cons. split; [apply mod_range; lia | done].
Qed.

(** ** What a ring element denotes *)

Record ring_params (pr : ILParams) : Prop := {
  rp_order : cyclotomicOrder pr = 2 ^ (Z.of_nat k + 1);
  rp_dimension : ringDimension pr = 2 ^ Z.of_nat k;
  rp_power : isPowerOfTwo pr = true;
  rp_modulus : ciphertextModulus pr = q;
  rp_root : rootOfUnity pr = psi
}.

(** The values of a polynomial in a representation. *)
Definition values_in (F : Format) (f : list Z) : list Z :=
  match F with COEFFICIENT => f | EVALUATION => ntt f end.

Record denotes (p : PolyImpl) (f : list Z) : Prop := {
  dn_params : ring_params (m_params p);
  dn_elem : ring_elem f;
  dn_values : m_values p = Some (mkVector (values_in (m_format p) f) q)
}.

Lemma values_elem F f : ring_elem f -> ring_elem (values_in F f).
Proof. destruct F; [intros _; apply ntt_elem | done]. Qed.

Lemma values_fits F f : ring_elem f -> fits q k (mkVector (values_in F f) q).
Proof. intros. by apply ring_fits, values_elem. Qed.

Lemma values_wf F f : ring_elem f -> vec_wf (mkVector (values_in F f) q).
Proof. intros H. by apply (values_fits F f H). Qed.

Lemma denotes_intro F pr f : ring_params pr -> ring_elem f ->
  denotes (mkPoly (Some (mkVector (values_in F f) q)) F pr) f.
Proof. done. Qed.

Lemma denotes_deref p f : denotes p f -> deref (m_values p) = Ok (mkVector (values_in (m_format p) f) q).
Proof. intros [_ _ ->]. done. Qed.

Lemma denotes_GetValues p f : denotes p f -> GetValues p = Ok (mkVector (values_in (m_format p) f) q).
Proof. intros [_ _ H]. unfold GetValues. by rewrite H. Qed.

Lemma ring_length_params pr : ring_params pr -> ring_length pr = (2 ^ k)%nat.
Proof. intros [_ H _ _ _]. unfold ring_length. rewrite H, <- pow2_nat_Z. lia. Qed.

Lemma SetValues_ok p F u pr :
  ring_params pr -> m_params p = pr -> length u = (2 ^ k)%nat ->
  SetValues p (mkVector u q) F = Ok (mkPoly (Some (mkVector u q)) F pr).
Proof.
  intros [_ Hd _ Hm Hp] E Hl. unfold SetValues, GetModulus, GetLength. rewrite E, Hp, Hd, Hm. cbn [m_data m_modulus].
  rewrite Hl, (pow2_nat_Z k), !Z.eqb_refl. pose proof (ro_psi _ _ _ Hr).
  by rewrite (proj2 (Z.eqb_neq psi 0)) by lia.
Qed.

(** ** The change of representation *)

Lemma FTT_inverse_ntt f c :
  ring_elem f -> cache_for q psi k c ->
  returns (FTT_InverseTransformFromBitReverseInPlace psi (2 ^ (Z.of_nat k + 1)) (mkVector (ntt f) q) c)
    (fun rc => fst rc = mkVector f q /\ cache_has q psi k (snd rc)).
Proof.
  intros Hf Hc. pose proof (FTT_prepare_ok q psi k c Hr Hc) as (c' & Ep & Hc')%returns_Ok.
  pose proof (values_fits EVALUATION f Hf) as Hn. pose proof Hn as (_ & _ & Hl). simpl in Hn, Hl.
  destruct (FTT_inverse_ok q psi k Hr _ c' Hn Hc') as (table & tableI & cinv & Ht & Hok & Hinv & E).
  assert (FTT_prepare psi (2 ^ (Z.of_nat k + 1)) (2 ^ k) q c' = Ok c') as Ep'.
  { unfold FTT_prepare. rewrite IsPowerOfTwo_pow2 by (destruct Hr; lia).
    by rewrite cyclo_order_half, Nat.eqb_refl, (cache_has_present _ _ _ _ Hc'). }
  unfold FTT_InverseTransformFromBitReverseInPlace, GetLength in *. rewrite (root_not_trivial q psi k Hr) in E |- *.
  cbn [m_data m_modulus] in *. rewrite Hl in *. rewrite Ep, bind_Ok. rewrite Ep', bind_Ok in E. rewrite E.
  simpl. split; [|done]. rewrite <- (Hinv (mkVector f q)) by (by apply ring_fits). f_equal.
  rewrite (forward_result_values q psi k Hr table) by (done || by apply ring_fits). done.
Qed.

Lemma SwitchFormat_denotes af ai p f c :
  denotes p f -> cache_for q psi k c ->
  returns (SwitchFormat af ai p c) (fun '(r, c') =>
    denotes r f /\ m_format r <> m_format p /\ m_params r = m_params p /\ cache_has q psi k c').
Proof.
  intros H Hc. pose proof H as [Hpr Hf Hv]. pose proof Hpr as [Ho _ Hp _ Hpsi].
  unfold SwitchFormat. rewrite Hv, Hp, Ho, Hpsi. cbn [negb]. destruct (m_format p) eqn:EF; cbn [values_in].
  - eapply returns_bind; [by apply FTT_inverse_ntt|]. intros [v c'] [E Hc']. simpl in E, Hc' |- *. subst v.
    split; [by apply (denotes_intro COEFFICIENT) | done].
  - eapply returns_bind; [by apply (FTT_forward_ok q psi k Hr (mkVector f q) c (proj1 (ring_fits f) Hf) Hc)|].
    intros [v c'] (E & Hc' & _). simpl in E, Hc' |- *. subst v. split; [by apply (denotes_intro EVALUATION) | done].
Qed.

Lemma cache_has_for c : cache_has q psi k c -> cache_for q psi k c.
Proof. by right. Qed.

Lemma SetFormat_denotes af ai p f F c :
  denotes p f -> cache_for q psi k c ->
  returns (SetFormat af ai p F c) (fun '(r, c') =>
    denotes r f /\ m_format r = F /\ m_params r = m_params p /\ cache_for q psi k c').
Proof.
  intros H Hc. unfold SetFormat. case_bool_decide as E; [done|].
  eapply returns_mono; [by apply SwitchFormat_denotes|]. intros [r c'] (H1 & H2 & H3 & H4).
  split; [done|]. split; [|by split; [|right]]. destruct (m_format r), (m_format p), F; congruence.
Qed.

(** ** The operations *)

Lemma add_sub_values u v :
  ring_elem u -> ring_elem v ->
  ModAddEq_vector (mkVector u q) (mkVector v q) = Ok (mkVector (padd q u v) q) /\
  ModSubEq_vector (mkVector u q) (mkVector v q) = Ok (mkVector (psub q u v) q).
Proof.
  intros Hu Hv. pose proof (proj1 (ring_fits u) Hu) as (Wu & _). pose proof (proj1 (ring_fits v) Hv) as (Wv & _).
  pose proof (vector_add_sub_correct _ _ Wu Wv) as H. rewrite decide_True in H.
  - destruct H as (H1 & H2 & _). done.
  - split; [simpl; destruct Hu, Hv; congruence | done].
Qed.

Lemma mul_values u v :
  ring_elem u -> ring_elem v ->
  ModMulEq_vector (mkVector u q) (mkVector v q) = Ok (mkVector (zip_with (fun x y => (x * y) mod q) u v) q).
Proof.
  intros Hu Hv. pose proof (proj1 (ring_fits u) Hu) as (Wu & _). pose proof (proj1 (ring_fits v) Hv) as (Wv & _).
  apply (ModMul_vector_ok (mkVector u q) (mkVector v q)); [done | done | | apply Hr | apply Hr].
  split; [simpl; destruct Hu, Hv; congruence | done].
Qed.

Lemma scale_values u s :
  ring_elem u -> 0 <= s < 2 ^ wbits ->
  ModMulEq_scalar (mkVector u q) s = Ok (mkVector (pscale q s u) q).
Proof.
  intros Hu Hs. pose proof (proj1 (ring_fits u) Hu) as (Wu & _). by apply (ModMul_scalar_ok (mkVector u q)).
Qed.

Lemma padd_elem f g : ring_elem f -> ring_elem g -> ring_elem (padd q f g).
Proof. apply (zip_elem Z.add). Qed.
Lemma psub_elem f g : ring_elem f -> ring_elem g -> ring_elem (psub q f g).
Proof. apply (zip_elem Z.sub). Qed.
Lemma pscale_elem s f : ring_elem f -> ring_elem (pscale q s f).
Proof. apply (map_elem (fun x => x * s)). Qed.
Lemma negacyclic_elem f g : ring_elem f -> ring_elem g -> ring_elem (negacyclic q f g).
Proof.
  intros [Hf _] _. pose proof modulus_pos. split; [by rewrite length_negacyclic | apply negacyclic_reduced; lia].
Qed.

Lemma values_add F f g : ring_elem f -> ring_elem g ->
  values_in F (padd q f g) = padd q (values_in F f) (values_in F g).
Proof. destruct F; [apply ntt_add | done]. Qed.
Lemma values_sub F f g : ring_elem f -> ring_elem g ->
  values_in F (psub q f g) = psub q (values_in F f) (values_in F g).
Proof. destruct F; [apply ntt_sub | done]. Qed.
Lemma values_scale F s f : ring_elem f -> values_in F (pscale q s f) = pscale q s (values_in F f).
Proof. destruct F; [apply ntt_scale | done]. Qed.

Lemma ModAddFastEq_le a b m :
  0 < m <= 2 ^ (wbits - 1) -> 0 <= a < m -> 0 <= b <= m -> ModAddFastEq a b m = (a + b) mod m.
Proof.
  intros Hm Ha Hb. destruct (Z.eq_dec b m) as [->|]; [|by apply ModAddFast_correct; lia].
  unfold ModAddFastEq. pose proof word_half. rewrite (wrap_small (a + m)), Z.geb_leb by lia.
  rewrite (proj2 (Z.leb_le _ _)) by lia. rewrite wrap_small by lia.
  replace (a + m) with (a + 1 * m) by lia. rewrite Z_mod_plus_full, Z.mod_small by lia. lia.
Qed.

Section Pair.
Context (a b : PolyImpl) (f g : list Z).
Context (Ha : denotes a f) (Hb : denotes b g) (HF : m_format a = m_format b).

Lemma Plus_denotes : returns (Plus a b) (fun r => denotes r (padd q f g) /\ m_format r = m_format a).
Proof.
  pose proof Ha as [Pa Ea _]. pose proof Hb as [Pb Eb _]. unfold Plus.
  rewrite (denotes_deref a f Ha), (denotes_deref b g Hb), !bind_Ok, <- HF.
  rewrite (proj1 (add_sub_values _ _ (values_elem _ f Ea) (values_elem _ g Eb))), bind_Ok.
  rewrite <- values_add by done. split; [|done]. apply denotes_intro; [done | by apply padd_elem].
Qed.

Lemma Minus_denotes : returns (Minus a b) (fun r => denotes r (psub q f g) /\ m_format r = m_format a).
Proof.
  pose proof Ha as [Pa Ea _]. pose proof Hb as [Pb Eb _]. unfold Minus.
  rewrite (denotes_deref a f Ha), (denotes_deref b g Hb), !bind_Ok, <- HF.
  rewrite (proj2 (add_sub_values _ _ (values_elem _ f Ea) (values_elem _ g Eb))), bind_Ok.
  rewrite <- values_sub by done. split; [|done]. apply denotes_intro; [done | by apply psub_elem].
Qed.

Lemma Times_denotes :
  m_format a = EVALUATION -> params_eqb (m_params a) (m_params b) = true ->
  returns (Times a b) (fun r => denotes r (negacyclic q f g) /\ m_format r = EVALUATION).
Proof.
  intros HE Hp. pose proof Ha as [Pa Ea _]. pose proof Hb as [Pb Eb _]. unfold Times, both_evaluation.
  rewrite <- HF, HE, Hp. cbn [negb andb]. rewrite bool_decide_eq_true_2 by done. cbn [negb andb].
  rewrite (denotes_deref a f Ha), (denotes_deref b g Hb), !bind_Ok, <- HF, HE. cbn [values_in].
  rewrite mul_values, bind_Ok, <- ntt_mul by (done || apply ntt_elem).
  unfold set_values. rewrite HE. split; [|done]. apply (denotes_intro EVALUATION); [done | by apply negacyclic_elem].
Qed.
End Pair.

Section One.
Context (a : PolyImpl) (f : list Z) (Ha : denotes a f).

Lemma Times_scalar_denotes s :
  0 <= s < 2 ^ wbits ->
  returns (Times_scalar a s) (fun r => denotes r (pscale q s f) /\ m_format r = m_format a).
Proof.
  intros Hs. pose proof Ha as [Pa Ea _]. pose proof (values_elem (m_format a) f Ea) as Ev.
  unfold Times_scalar, ModMul_scalar. rewrite (denotes_GetValues a f Ha), bind_Ok, scale_values, bind_Ok by done.
  rewrite <- values_scale by done.
  rewrite (SetValues_ok _ _ _ (m_params a)); [| done | done | apply values_elem; by apply pscale_elem].
  split; [|done]. apply denotes_intro; [done | by apply pscale_elem].
Qed.

Lemma Negate_denotes :
  returns (Negate a) (fun r => denotes r (pscale q (q - 1) f) /\ m_format r = m_format a).
Proof.
  pose proof Ha as [Pa Ea _]. pose proof (values_elem (m_format a) f Ea) as Ev.
  pose proof (values_wf (m_format a) f Ea) as Wv. pose proof (wf_word _ Wv) as (_ & H2 & H3). cbn [m_modulus] in *.
  pose proof modulus_pos. unfold Negate, GetModulus. rewrite (denotes_deref a f Ha), bind_Ok, (rp_modulus _ Pa).
  unfold Sub, SubFast. rewrite wrap_small by lia.
  rewrite scale_values, bind_Ok by (done || lia). rewrite <- values_scale by done. split; [|done].
  apply denotes_intro; [done | by apply pscale_elem].
Qed.

(** Adding an integer adds a constant polynomial, in both representations. *)
Lemma Plus_scalar_denotes s :
  0 <= s < 2 ^ wbits ->
  returns (Plus_scalar a s) (fun r => denotes r (pconst q s f) /\ m_format r = m_format a).
Proof.
  intros Hs. pose proof Ha as [Pa Ea _]. pose proof (values_elem (m_format a) f Ea) as [Lv Rv].
  pose proof (values_wf (m_format a) f Ea) as Wv. pose proof (wf_word _ Wv) as (_ & H2 & H3). cbn [m_modulus] in *.
  pose proof modulus_pos. pose proof (Nat.pow_nonzero 2 k ltac:(lia)). pose proof size_k.
  unfold Plus_scalar. rewrite (denotes_GetValues a f Ha), bind_Ok.
  assert (match m_format a with
      | COEFFICIENT => ModAddAtIndex (mkVector (values_in (m_format a) f) q) 0 s
      | EVALUATION => ModAdd_scalar (mkVector (values_in (m_format a) f) q) s
      end = Ok (mkVector (values_in (m_format a) (pconst q s f)) q)) as ->.
  { destruct (m_format a); cbn [values_in] in *.
    - rewrite ntt_const by done. unfold ModAdd_scalar, ModAddEq_scalar. cbn [m_modulus m_data].
      destruct (reduce_gt s q) as (r & E & Hrr & Er); [lia..|]. unfold ModEq. rewrite E, bind_Ok.
      rewrite (vmapM_Ok _ (fun x => (x + s) mod q)); [done|].
      eapply Forall_impl; [exact Rv|]. intros x Hx. cbv beta in Hx |- *. f_equal.
      rewrite ModAddFastEq_le by lia. apply eqmod_elim. by rewrite Er.
    - destruct f as [|x f']; [simpl in Lv; lia|]. unfold ModAddAtIndex, ModAddAtIndexEq, GetLength. cbn [m_data m_modulus].
      rewrite Z.gtb_ltb. rewrite (proj2 (Z.ltb_ge _ _)) by (apply mod_range; lia).
      cbn [vget lookup list_lookup]. unfold vget. simpl lookup. rewrite bind_Ok.
      apply Forall_cons in Rv as [Hx _]. change (ModAddEq x s q) with (ModAdd x s q).
      rewrite ModAdd_correct, bind_Ok by lia. done. }
  rewrite bind_Ok, (SetValues_ok _ _ _ (m_params a)); [| done | done | apply values_elem; by apply pconst_elem].
  split; [|done]. apply denotes_intro; [done | by apply pconst_elem].
Qed.
End One.
End Ring.
