(* ===== verification/PolyAutoProps.v ===== *)
(** * Automorphisms of ring elements

    The automorphism [X -> X^k] of a polynomial modulo [X ^ n + 1], for an odd
    [k], and the three methods that apply it: on coefficients, on values, and on
    values through a precomputed table. *)
From stdpp Require Import base numbers list.
From Stdlib Require Import ZArith Lia.
From S2P Require Import Prelude Bits NativeInt NativeIntProps NativeVector Ntt NttProps FttProps NbTheory AutoProps Poly PolyProps.
Open Scope Z_scope.

Section Automorphism.
Context `{W : NativeWidth}.
Context (q psi : Z) (L : nat) (Hr : root_ok q psi L).
Context (k : Z) (Hk : Z.odd k = true) (Hk0 : 0 <= k).

(** The monomial [X^j] goes to [X^(auto_pos j)] or its opposite. *)
Definition auto_pos (j : nat) : nat := Z.to_nat ((Z.of_nat j * k) mod 2 ^ Z.of_nat L).
Definition auto_neg (j : nat) : bool := (Z.of_nat j * k / 2 ^ Z.of_nat L) mod 2 =? 1.
Definition auto_coeff (j : nat) (x : Z) : Z := if auto_neg j then (- x) mod q else x.

Fixpoint pauto_upto (f : list Z) (i : nat) : list Z :=
  match i with
  | O => repeat 0 (2 ^ L)
  | S i => <[auto_pos i := auto_coeff i (f !!! i)]> (pauto_upto f i)
  end.
Definition pauto (f : list Z) : list Z := pauto_upto f (2 ^ L).

Let HL : (1 <= L <= 24)%nat := ro_k _ _ _ Hr.

Lemma dim_pos : 0 < 2 ^ Z.of_nat L.
Proof. apply pow2_pos. lia. Qed.

Lemma dim_nat i : (i < 2 ^ L)%nat <-> Z.of_nat i < 2 ^ Z.of_nat L.
Proof. rewrite Nat2Z.inj_lt, (pow2_nat_Z L). done. Qed.

Lemma auto_pos_Z j : Z.of_nat (auto_pos j) = (Z.of_nat j * k) mod 2 ^ Z.of_nat L.
Proof. unfold auto_pos. pose proof (mod_range (Z.of_nat j * k) (2 ^ Z.of_nat L) dim_pos). lia. Qed.

Lemma auto_pos_lt j : (auto_pos j < 2 ^ L)%nat.
Proof. apply dim_nat. rewrite auto_pos_Z. apply mod_range, dim_pos. Qed.

Lemma auto_pos_0 : auto_pos 0 = 0%nat.
Proof. done. Qed.

Lemma auto_pos_inj i j : (i < 2 ^ L)%nat -> (j < 2 ^ L)%nat -> auto_pos i = auto_pos j -> i = j.
Proof.
  intros Hi%dim_nat Hj%dim_nat E. pose proof dim_pos.
  assert (Z.of_nat i * k ==[2 ^ Z.of_nat L] Z.of_nat j * k) as Em
    by (constructor; rewrite <- !auto_pos_Z; congruence).
  apply eqmod_divide in Em; [|lia]. rewrite <- Z.mul_sub_distr_r, Z.mul_comm in Em.
  apply Z.gauss in Em.
  - apply eqmod_divide in Em; [|lia]. apply (eqmod_small (2 ^ Z.of_nat L)) in Em; lia.
  - rewrite Z.gcd_comm. apply Z.coprime_pow_r; [lia|]. apply Z.odd_spec in Hk as [h ->].
    change (Z.gcd (2 * h + 1) 2 = 1). replace (2 * h + 1) with (1 + h * 2) by lia.
    rewrite Z.gcd_comm, Z.gcd_add_mult_diag_r. apply Z.gcd_1_r.
Qed.

Lemma auto_pos_surj i : (i < 2 ^ L)%nat -> exists j, (j < 2 ^ L)%nat /\ auto_pos j = i.
Proof.
  intros Hi. assert (map auto_pos (seq 0 (2 ^ L)) ≡ₚ seq 0 (2 ^ L)) as HP.
  { apply submseteq_length_Permutation; [|by rewrite length_map].
    apply NoDup_submseteq.
    - apply NoDup_alt. intros a b x Ha Hb. rewrite !list_lookup_fmap in *.
      apply fmap_Some in Ha as (a' & Ha & ->). apply fmap_Some in Hb as (b' & Hb & E).
      apply lookup_seq in Ha as [-> ?], Hb as [-> ?]. by apply auto_pos_inj.
    - intros x (a & -> & _)%list_elem_of_fmap. apply elem_of_seq. pose proof (auto_pos_lt a). lia. }
  assert (i ∈ map auto_pos (seq 0 (2 ^ L))) as (j & -> & Hj)%list_elem_of_fmap
    by (rewrite HP; apply elem_of_seq; lia).
  exists j. apply elem_of_seq in Hj. split; [lia | done].
Qed.

Lemma length_pauto_upto f i : length (pauto_upto f i) = (2 ^ L)%nat.
Proof. induction i; simpl; [apply repeat_length | by rewrite length_insert]. Qed.

Lemma pauto_upto_at f i j :
  (i <= 2 ^ L)%nat -> (j < 2 ^ L)%nat ->
  pauto_upto f i !!! auto_pos j = if (j <? i)%nat then auto_coeff j (f !!! j) else 0.
Proof.
  intros Hi Hj. induction i as [|i IH]; cbn [pauto_upto].
  { apply list_lookup_total_correct, lookup_repeat, auto_pos_lt. }
  rewrite insert_at by (rewrite length_pauto_upto; apply auto_pos_lt). rewrite IH by lia. case_decide as E.
  - apply auto_pos_inj in E as ->; [|lia..]. by rewrite (proj2 (Nat.ltb_lt _ _)) by lia.
  - assert (i <> j) by congruence. destruct (Nat.ltb_spec j i), (Nat.ltb_spec j (S i)); lia || done.
Qed.

(** [X^j] at [x ^ k]. *)
Lemma auto_monomial x j :
  x ^ Z.of_nat (2 ^ L) ==[q] -1 ->
  (x ^ k) ^ Z.of_nat j ==[q] (if auto_neg j then -1 else 1) * x ^ Z.of_nat (auto_pos j).
Proof.
  intros Hx. pose proof dim_pos. rewrite auto_pos_Z, <- Z.pow_mul_r by lia.
  rewrite (pow2_nat_Z L) in Hx. unfold auto_neg. set (e := Z.of_nat j * k). set (n := 2 ^ Z.of_nat L) in *.
  replace (k * Z.of_nat j) with e by (unfold e; ring).
  assert (0 <= e / n) by (apply Z.div_pos; unfold e; nia). pose proof (mod_range e n ltac:(lia)).
  rewrite (Z.div_mod e n) at 1 by lia. rewrite Z.pow_add_r, Z.pow_mul_r by nia.
  rewrite (eqmod_pow q _ _ _ Hx). apply eqmod_eq. f_equal.
  pose proof (Z.div_mod (e / n) 2 ltac:(lia)) as E. pose proof (mod_range (e / n) 2 ltac:(lia)).
  rewrite E at 1. rewrite Z.pow_add_r, Z.pow_mul_r by lia. change ((-1) ^ 2) with 1. rewrite Z.pow_1_l by lia.
  destruct (Z.eqb_spec ((e / n) mod 2) 1) as [->|]; [done|]. by replace ((e / n) mod 2) with 0 by lia.
Qed.

Lemma pauto_upto_eval f x i :
  x ^ Z.of_nat (2 ^ L) ==[q] -1 -> (i <= 2 ^ L)%nat ->
  peval (pauto_upto f i) x ==[q] bsum (fun j => f !!! j) i (x ^ k).
Proof.
  intros Hx. induction i as [|i IH]; intros Hi; cbn [pauto_upto bsum].
  { by rewrite peval_zero. }
  rewrite peval_insert by (rewrite length_pauto_upto; apply auto_pos_lt).
  rewrite pauto_upto_at, (proj2 (Nat.ltb_ge _ _)), Z.sub_0_r, IH, (auto_monomial x i Hx) by lia.
  unfold auto_coeff. destruct (auto_neg i); [|by rewrite Z.mul_1_l].
  rewrite eqmod_mod. apply eqmod_eq. ring.
Qed.

(** The value of the automorphic image is the value at the power of the point. *)
Lemma pauto_eval f x :
  length f = (2 ^ L)%nat -> x ^ Z.of_nat (2 ^ L) ==[q] -1 -> peval (pauto f) x ==[q] peval f (x ^ k).
Proof. intros Hf Hx. unfold pauto. rewrite pauto_upto_eval by done. unfold peval. by rewrite Hf. Qed.

Lemma auto_coeff_range j x : 0 <= x < q -> 0 <= auto_coeff j x < q.
Proof. intros Hx. unfold auto_coeff. destruct (auto_neg j); [apply mod_range; lia | done]. Qed.

Lemma pauto_elem f : ring_elem q L f -> ring_elem q L (pauto f).
Proof.
  intros [Hf Rf]. unfold pauto. split; [apply length_pauto_upto|].
  apply reduced_at_2. rewrite length_pauto_upto. intros i (j & Hj & <-)%auto_pos_surj.
  rewrite pauto_upto_at, (proj2 (Nat.ltb_lt _ _)) by lia. apply auto_coeff_range, reduced_at; [done | lia].
Qed.

(** Through the transform the automorphism permutes the values. *)
Lemma ntt_pauto f i :
  ring_elem q L f -> (i < 2 ^ L)%nat ->
  ntt q psi L (pauto f) !!! i = ntt q psi L f !!! rv L (auto_index L k (rv L i)).
Proof.
  intros [Hf Rf] Hi. rewrite ntt_at by done.
  rewrite (list_lookup_total_correct _ _ _ (auto_value L HL k Hk q psi (mkVector f q) i Hr Hk0)).
  apply eqmod_elim. apply pauto_eval; [done | by apply point_root].
Qed.

(** ** The methods *)

Section Methods.
Context (p : PolyImpl) (f : list Z) (Hp : denotes q psi L p f).

(** A result whose values are [u]. *)
Definition with_values (u : list Z) : PolyImpl := set_values p (mkVector u q).

Lemma set_index_ok u i y :
  (i < length u)%nat -> set_index (with_values u) i y = Ok (with_values (<[i := y]> u)).
Proof. intros Hi. unfold set_index. simpl. by rewrite vset_lt by done. Qed.

Lemma p_with_values : p = with_values (values_in q psi L (m_format p) f).
Proof.
  pose proof Hp as [_ _ H]. unfold with_values, set_values. rewrite <- H. by destruct p.
Qed.

Lemma read_values (u : list Z) i : (i < length u)%nat -> vget u i = Ok (u !!! i).
Proof. intros Hi. apply vget_Some. by apply list_lookup_lookup_total_lt. Qed.

(** A loop that stores at distinct positions. *)
Lemma fill_loop n (pos : nat -> nat) (val : nat -> Z) (body : nat -> PolyImpl -> outcome PolyImpl) lo u0 :
  (forall i j, (i < n)%nat -> (j < n)%nat -> pos i = pos j -> i = j) ->
  (lo <= n)%nat -> length u0 = (2 ^ L)%nat -> (forall i, (i < n)%nat -> (pos i < 2 ^ L)%nat) ->
  (forall i u, (lo <= i < n)%nat -> length u = (2 ^ L)%nat ->
     body i (with_values u) = Ok (with_values (<[pos i := val i]> u))) ->
  returns (for_range lo n body (with_values u0)) (fun r => exists u, r = with_values u /\
    length u = (2 ^ L)%nat /\
    (forall i, (lo <= i < n)%nat -> u !!! pos i = val i) /\
    (forall i, (i < lo)%nat -> u !!! pos i = u0 !!! pos i)).
Proof.
  intros Hinj Hlo Hl Hpos Hb.
  apply (for_range_inv (fun m r => exists u, r = with_values u /\ length u = (2 ^ L)%nat /\
    (forall i, (lo <= i < m)%nat -> u !!! pos i = val i) /\
    (forall i, (i < lo)%nat -> u !!! pos i = u0 !!! pos i))); [done | |].
  { exists u0. split_and!; [done | done | lia | done]. }
  intros m r Hm (u & -> & Hlu & H1 & H2). rewrite Hb by done. simpl. eexists. split; [done|].
  pose proof (Hpos m ltac:(lia)). rewrite length_insert. split; [done|].
  split; intros i Hi; rewrite insert_at by lia; case_decide as E.
  - apply Hinj in E; [|lia..]. by subst.
  - apply H1. assert (i <> m) by congruence. lia.
  - apply Hinj in E; lia.
  - by apply H2.
Qed.

(** The loops start from a copy of the object. *)
Ltac start_loop :=
  match goal with |- returns (for_range ?lo ?n ?b p) _ => rewrite (f_equal (for_range lo n b) p_with_values) end.

Lemma evaluation_denotes :
  m_format p = EVALUATION ->
  returns (automorphism_evaluation k p p)
    (fun r => denotes q psi L r (pauto f) /\ m_format r = EVALUATION /\ m_params r = m_params p).
Proof.
  intros HF. pose proof Hp as [Pp Ef Vp]. pose proof Pp as [Ho Hd _ _ _]. pose proof dim_pos.
  pose proof (ntt_elem q psi L Hr f) as [Ln _].
  unfold automorphism_evaluation. rewrite Ho, Hd, !round_log2_pow2 by lia.
  rewrite (order_2 L), (Z.mul_comm 2), Z.div_mul by lia.
  replace (Z.to_nat (2 ^ Z.of_nat L)) with (2 ^ L)%nat by (rewrite <- pow2_nat_Z; lia).
  start_loop. rewrite HF. cbn [values_in].
  eapply returns_mono.
  - apply (fill_loop (2 ^ L) (rv L) (fun i => ntt q psi L f !!! rv L (auto_index L k i))); [| lia | done | |].
    + intros i j Hi Hj E. rewrite <- (rv_involutive L HL i), <- (rv_involutive L HL j) by done. by rewrite E.
    + intros. by apply rv_lt.
    + intros i u Hi Hu. destruct (auto_reduce L HL k Hk i) as (high & -> & E). rewrite bind_Ok, E.
      rewrite !(Z.mul_comm 2), !Z.div_add_l by lia. change (1 / 2) with 0. rewrite !Z.add_0_r.
      rewrite (denotes_GetValues q psi L p f Hp), bind_Ok, HF. cbn [m_data values_in].
      fold (rv L (auto_index L k i)). fold (rv L i).
      rewrite read_values, bind_Ok by (rewrite Ln; by apply rv_lt).
      apply set_index_ok. rewrite Hu. by apply rv_lt.
  - intros r (u & -> & Lu & Hu & _). simpl. rewrite HF. split; [|done].
    replace u with (ntt q psi L (pauto f)).
    { unfold with_values, set_values. rewrite HF.
      apply (denotes_intro q psi L EVALUATION); [done | by apply pauto_elem]. }
    apply (ring_elem_eq L); [apply length_ntt | done |]. intros i Hi.
    rewrite ntt_pauto by done. rewrite <- (rv_involutive L HL i) at 2 by done.
    rewrite Hu by (split; [lia | by apply rv_lt]). done.
Qed.

Lemma precomp_denotes R :
  m_format p = EVALUATION -> length R = (2 ^ L)%nat ->
  (forall j, (j < 2 ^ L)%nat -> R !! rv L j = Some (Z.of_nat (rv L (auto_index L k j)))) ->
  returns (AutomorphismTransform_precomp p k R)
    (fun r => denotes q psi L r (pauto f) /\ m_format r = EVALUATION).
Proof.
  intros HF HlR HR. pose proof Hp as [Pp Ef Vp]. pose proof (ntt_elem q psi L Hr f) as [Ln _].
  unfold AutomorphismTransform_precomp. rewrite HF, (rp_power _ _ _ _ Pp). simpl andb. cbv iota.
  rewrite Zmod_odd, Hk. change (1 =? 0) with false. cbv iota. rewrite (ring_length_params q psi L _ Pp).
  start_loop. rewrite HF. cbn [values_in]. eapply returns_mono.
  - apply (fill_loop (2 ^ L) (fun j => j) (fun i => ntt q psi L (pauto f) !!! i)); [done | lia | done | done |].
    intros i u Hi Hu. assert (rv L (rv L i) = i) as Ei by (apply rv_involutive; [done | lia]).
    pose proof (HR (rv L i) (rv_lt L HL i)) as E. rewrite Ei in E. rewrite (vget_Some _ _ _ E), bind_Ok.
    unfold index. rewrite Nat2Z.id, Vp, HF. cbn [deref values_in]. rewrite bind_Ok. cbn [m_data].
    rewrite read_values, bind_Ok by (rewrite Ln; by apply rv_lt).
    rewrite ntt_pauto by (done || lia). apply set_index_ok. lia.
  - intros r (u & -> & Lu & Hu & _). simpl. rewrite HF. split; [|done].
    replace u with (ntt q psi L (pauto f)).
    { unfold with_values, set_values. rewrite HF.
      apply (denotes_intro q psi L EVALUATION); [done | by apply pauto_elem]. }
    apply (ring_elem_eq L); [apply length_ntt | done |]. intros i Hi. rewrite Hu by lia. done.
Qed.

(** On coefficients the opposite of a zero coefficient is stored as the modulus. *)
Lemma coefficient_values :
  m_format p = COEFFICIENT ->
  returns (automorphism_coefficient k p p) (fun r => exists u, r = with_values u /\
    length u = (2 ^ L)%nat /\ forall j, (j < 2 ^ L)%nat ->
      u !!! auto_pos j = if auto_neg j then q - f !!! j else f !!! j).
Proof.
  intros HF. pose proof Hp as [Pp Ef Vp]. pose proof Pp as [Ho Hd _ Hm _]. pose proof dim_pos.
  pose proof Ef as [Lf Rf]. pose proof (values_wf q psi L Hr (m_format p) f Ef) as Wv.
  pose proof (wf_word _ Wv) as (Hq & Hq2 & Hw). cbn [m_modulus] in *.
  unfold automorphism_coefficient. rewrite Hd.
  replace (Z.to_nat (2 ^ Z.of_nat L)) with (2 ^ L)%nat by (rewrite <- pow2_nat_Z; lia).
  start_loop. rewrite HF. cbn [values_in].
  assert (1 <= 2 ^ L)%nat by (apply Nat.le_succ_l, Nat.neq_0_lt_0, Nat.pow_nonzero; lia).
  eapply returns_mono.
  - apply (fill_loop (2 ^ L) auto_pos (fun j => if auto_neg j then q - f !!! j else f !!! j));
      [by apply auto_pos_inj | done | done | intros; apply auto_pos_lt |].
    intros j u Hj Hu. unfold index. rewrite Vp, HF. cbn [deref values_in]. rewrite bind_Ok. cbn [m_data].
    rewrite read_values, bind_Ok by lia.
    assert (u32 (Z.of_nat j * k) mod 2 ^ Z.of_nat L = (Z.of_nat j * k) mod 2 ^ Z.of_nat L) as ->
      by (apply (u32_mod _ L); [lia | done]).
    fold (auto_pos j).
    assert ((u32 (Z.of_nat j * k) / 2 ^ Z.of_nat L) mod 2 = (Z.of_nat j * k / 2 ^ Z.of_nat L) mod 2) as ->.
    { unfold u32. replace (2 ^ 32) with (2 ^ Z.of_nat L * (2 * 2 ^ (31 - Z.of_nat L)))
        by (change 2 with (2 ^ 1) at 2; rewrite <- !Z.pow_add_r by lia; f_equal; lia).
      pose proof (pow2_pos (31 - Z.of_nat L) ltac:(lia)).
      rewrite Z.rem_mul_r, (Z.mul_comm (2 ^ Z.of_nat L) (_ mod _)), Z.div_add by lia. rewrite Z.div_small by (apply mod_range; lia).
      rewrite Z.add_0_l. apply Z.mod_mod_divide. exists (2 ^ (31 - Z.of_nat L)). ring. }
    fold (auto_neg j). pose proof (reduced_at q f j Rf ltac:(lia)).
    unfold GetModulus, Sub, SubFast. rewrite Hm, wrap_small by lia.
    rewrite set_index_ok by (rewrite Hu; apply auto_pos_lt). done.
  - intros r (u & -> & Lu & Hu & Hz). exists u. split_and!; [done | done |].
    intros [|j] Hj; [|apply Hu; lia]. by rewrite Hz by lia.
Qed.
End Methods.
End Automorphism.
