(* ===== verification/PolyDigitProps.v ===== *)
(** * Digits, powers and inverses of ring elements

    [BaseDecompose] writes the coefficients in base [2 ^ b], [PowersOfBase]
    multiplies by the powers of the base, and the sum of the products of the two
    is the product of the ring elements. *)
From stdpp Require Import base numbers list.
From Stdlib Require Import ZArith Znumtheory Lia.
From S2P Require Import Prelude Bits NativeInt NativeIntProps NativeVector Ntt NttProps FttProps NbTheory AutoProps Poly PolyProps PolyAutoProps.
Open Scope Z_scope.

Lemma digit_at_range B i x q : 0 < B -> 0 <= x < q -> 0 <= digit_at B i x < q.
Proof.
  intros HB Hx. unfold digit_at. pose proof (Z.pow_pos_nonneg B (Z.of_nat i) HB ltac:(lia)).
  assert (0 <= x / B ^ Z.of_nat i <= x) by (split; [apply Z.div_pos; lia | apply Z.div_le_upper_bound; nia]).
  pose proof (Z.mod_le (x / B ^ Z.of_nat i) B ltac:(lia) HB). pose proof (mod_range (x / B ^ Z.of_nat i) B HB). lia.
Qed.

Section Digits.
Context `{W : NativeWidth}.
Context (q psi : Z) (k : nat) (Hr : root_ok q psi k).
Context (b : Z) (w : nat).
Context (Hb : 1 <= b <= 31).

Definition digit_poly (i : nat) (f : list Z) : list Z := map (digit_at (2 ^ b) i) f.
Definition power_poly (i : nat) (g : list Z) : list Z := pscale q (2 ^ (Z.of_nat i * b) mod q) g.

Lemma digit_poly_elem i f : ring_elem q k f -> ring_elem q k (digit_poly i f).
Proof.
  intros [Hl Hd]. split; [by unfold digit_poly; rewrite length_map|]. apply Forall_map.
  eapply Forall_impl; [exact Hd|]. intros x Hx. apply digit_at_range; [apply pow2_pos; lia | done].
Qed.

(** The sum of the products of digits and powers. *)
Fixpoint dot_products (n : nat) (ds ps : nat -> list Z) : list Z :=
  match n with
  | O => repeat 0 (2 ^ k)
  | S n => padd q (dot_products n ds ps) (negacyclic q (ds n) (ps n))
  end.

Lemma negacyclic_at f g r :
  length f = (2 ^ k)%nat -> (r < 2 ^ k)%nat ->
  negacyclic q f g !!! r = nsum (fun i => f !!! i * rotate (2 ^ k) g i r) (2 ^ k) mod q.
Proof. intros Hf Hi. unfold negacyclic. rewrite Hf. by rewrite map_seq_at by done. Qed.

Lemma rotate_scale s g i r :
  length g = (2 ^ k)%nat -> (i < 2 ^ k)%nat -> (r < 2 ^ k)%nat ->
  rotate (2 ^ k) (pscale q s g) i r ==[q] s * rotate (2 ^ k) g i r.
Proof.
  intros Hl Hi Hr'. unfold rotate, pscale. destruct (Nat.ltb_spec r i);
    rewrite fmap_at by lia; rewrite eqmod_mod; apply eqmod_eq; ring.
Qed.

Lemma length_dot_products n ds ps :
  (forall i, ring_elem q k (ds i)) -> length (dot_products n ds ps) = (2 ^ k)%nat.
Proof.
  intros Hd. induction n as [|n IH]; simpl; [apply repeat_length|].
  unfold padd. rewrite length_zip_with, IH, length_negacyclic. destruct (Hd n). lia.
Qed.

Lemma dot_products_at n f g r :
  ring_elem q k f -> ring_elem q k g -> (r < 2 ^ k)%nat ->
  dot_products n (fun i => digit_poly i f) (fun i => power_poly i g) !!! r
  ==[q] nsum (fun j => nsum (fun i => digit_at (2 ^ b) i (f !!! j) * (2 ^ b) ^ Z.of_nat i) n
                       * rotate (2 ^ k) g j r) (2 ^ k).
Proof.
  intros Hf Hg Hi. pose proof Hf as [Lf _]. pose proof Hg as [Lg _].
  induction n as [|n IH]; cbn [dot_products nsum].
  { rewrite (nsum_ext _ (fun _ => 0)), nsum_0 by (intros; lia).
    apply eqmod_eq, list_lookup_total_correct. by apply lookup_repeat. }
  unfold padd. pose proof (digit_poly_elem n f Hf) as [Ld _].
  rewrite zip_with_at; [| rewrite length_dot_products; [done | intros; by apply digit_poly_elem]
                        | by rewrite length_negacyclic, Ld].
  rewrite eqmod_mod, IH, negacyclic_at, eqmod_mod by done.
  rewrite <- nsum_add. apply nsum_eqmod. intros j Hj. unfold power_poly.
  rewrite rotate_scale, eqmod_mod by (done || lia). unfold digit_poly. rewrite fmap_at by lia.
  apply eqmod_eq. rewrite (Z.mul_comm (Z.of_nat n) b), Z.pow_mul_r by lia. ring.
Qed.

(** Digits times powers: the product of the two polynomials. *)
Lemma digits_powers_product f g :
  ring_elem q k f -> ring_elem q k g -> q <= 2 ^ (Z.of_nat w * b) ->
  dot_products w (fun i => digit_poly i f) (fun i => power_poly i g) = negacyclic q f g.
Proof.
  intros Hf Hg Hw. pose proof (modulus_pos q psi k Hr). pose proof Hf as [Lf Rf].
  pose proof (length_dot_products w (fun i => digit_poly i f) (fun i => power_poly i g)
    (fun i => digit_poly_elem i f Hf)) as Ld.
  assert (reduced q (dot_products w (fun i => digit_poly i f) (fun i => power_poly i g))) as Rd.
  { destruct w as [|w']; [apply Forall_repeat; lia|]. cbn [dot_products]. unfold padd.
    apply Forall_lookup_2. intros i x Hx. apply lookup_zip_with_Some in Hx as (y & z & -> & _). apply mod_range. lia. }
  apply (ring_elem_eq k); [done | by rewrite length_negacyclic |]. intros r Hlt.
  apply (eqmod_small q); [apply reduced_at; [done | lia] | apply reduced_at; [apply negacyclic_reduced; lia|] |].
  { rewrite length_negacyclic. lia. }
  rewrite dot_products_at, negacyclic_at, eqmod_mod by done. apply nsum_eqmod. intros j Hj.
  pose proof (reduced_at q f j Rf ltac:(lia)). rewrite digits_recompose by (apply pow2_pos; lia).
  rewrite <- Z.pow_mul_r, (Z.mul_comm b) by lia. by rewrite Z.mod_small by lia.
Qed.

Lemma windows_ok p f :
  denotes q psi k p f -> Z.of_nat w = (GetMSB q + b - 1) / b -> windows p b = Ok w.
Proof.
  intros [Pp _ _] Ew. unfold windows, GetLengthForBase, GetModulus. rewrite (rp_modulus _ _ _ _ Pp).
  rewrite udiv_pos, umod_pos, !bind_Ok by lia. f_equal. apply Nat2Z.inj. rewrite Ew, Z.gtb_ltb.
  pose proof (modulus_pos q psi k Hr). pose proof (GetMSB_pos q ltac:(lia)).
  pose proof (Z.div_mod (GetMSB q) b ltac:(lia)). pose proof (mod_range (GetMSB q) b ltac:(lia)).
  assert (0 <= GetMSB q / b) by (apply Z.div_pos; lia).
  destruct (Z.ltb_spec 0 (GetMSB q mod b)); rewrite Z2Nat.id by lia.
  - apply (Z.div_unique_pos _ _ _ (GetMSB q mod b - 1)); lia.
  - apply (Z.div_unique_pos _ _ _ (b - 1)); lia.
Qed.

Lemma windows_cover : Z.of_nat w = (GetMSB q + b - 1) / b -> q <= 2 ^ (Z.of_nat w * b).
Proof.
  intros Ew. pose proof (modulus_pos q psi k Hr). pose proof (GetMSB_bounds q ltac:(lia)) as [_ Hq].
  pose proof (Z.div_mod (GetMSB q + b - 1) b ltac:(lia)) as E. pose proof (mod_range (GetMSB q + b - 1) b ltac:(lia)).
  pose proof (GetMSB_pos q ltac:(lia)).
  pose proof (Z.pow_le_mono_r 2 (GetMSB q) (Z.of_nat w * b) ltac:(lia) ltac:(nia)). lia.
Qed.

Lemma digit_values f i :
  ring_elem q k f -> (Z.of_nat i + 1) * b <= wbits ->
  GetDigitAtIndexForBase_vector (mkVector f q) (Z.of_nat i + 1) (2 ^ b) = Ok (mkVector (digit_poly i f) q).
Proof.
  intros Hf Hi. pose proof (proj1 (ring_fits q psi k Hr f) Hf) as (Wf & _).
  pose proof (wf_word _ Wf) as (_ & H2 & H3). cbn [m_modulus] in *.
  unfold GetDigitAtIndexForBase_vector. cbn [m_data m_modulus].
  rewrite (vmapM_Ok _ (digit_at (2 ^ b) i)); [done|]. destruct Hf as [_ Rf].
  eapply Forall_impl; [exact Rf|]. intros x Hx. cbv beta in *.
  rewrite GetDigitAtIndexForBase_digit by lia. unfold digit_at. do 4 f_equal. lia.
Qed.

(** The loop of [BaseDecompose]: the digits so far, the last one, the cache. *)
Lemma BaseDecompose_denotes af ai p f evalMode c :
  denotes q psi k p f -> cache_for q psi k c ->
  Z.of_nat w = (GetMSB q + b - 1) / b -> Z.of_nat w * b <= wbits ->
  returns (BaseDecompose af ai p b evalMode c) (fun '(ds, c') =>
    length ds = w /\ cache_for q psi k c' /\
    forall i d, ds !! i = Some d -> denotes q psi k d (digit_poly i f) /\
      m_format d = if (evalMode : bool) then EVALUATION else COEFFICIENT).
Proof.
  intros Hp Hc Ew Hw. unfold BaseDecompose. rewrite (windows_ok p f), bind_Ok by done. cbn [PolyImpl_new]. rewrite bind_Ok.
  pose proof (SetFormat_denotes q psi k Hr af ai p f COEFFICIENT c Hp Hc) as ([x c1] & -> & Hx & Fx & Px & Hc1)%returns_Ok.
  rewrite bind_Ok. pose proof Hp as [Pp Ef _].
  eapply returns_bind; [apply (for_range_inv (fun n '(ds, xd, c) => length ds = n /\ cache_for q psi k c /\
    m_params xd = m_params p /\
    forall i d, ds !! i = Some d -> denotes q psi k d (digit_poly i f) /\
      m_format d = if (evalMode : bool) then EVALUATION else COEFFICIENT)); [lia | done |]|].
  - intros n [[ds xd] c2] Hn (Hl & Hc2 & Pxd & Hds). rewrite (denotes_GetValues q psi k x f Hx), bind_Ok, Fx. cbn [values_in].
    unfold shl_usint. rewrite in_range_true, bind_Ok by lia. rewrite digit_values, bind_Ok by (done || nia).
    pose proof (digit_poly_elem n f Ef) as En.
    rewrite (SetValues_ok q psi k Hr xd COEFFICIENT _ (m_params p)), bind_Ok by (done || apply En).
    pose proof (denotes_intro q psi k COEFFICIENT _ _ Pp En) as Hd. cbn [values_in] in Hd.
    eapply (returns_bind _ _ (fun '(xd, c) => cache_for q psi k c /\ m_params xd = m_params p /\
      denotes q psi k xd (digit_poly n f) /\ m_format xd = if (evalMode : bool) then EVALUATION else COEFFICIENT)).
    + destruct evalMode; [|done]. eapply returns_mono; [by apply (SwitchFormat_denotes q psi k Hr)|].
      intros [r c3] (H1 & H2 & H3 & H4). split; [by right|]. split; [done|]. split; [done|].
      simpl in H2. by destruct (m_format r).
    + intros [xd' c3] (H1 & H2 & H3 & H4). simpl. rewrite length_app. simpl. split_and!; [lia | done | done |].
      intros i d Hi. apply lookup_app_Some in Hi as [Hi|[Hi1 Hi2]]; [by apply Hds|].
      apply list_lookup_singleton_Some in Hi2 as [Hi2 <-]. replace i with n by lia. done.
  - intros [[ds xd] c2] (H1 & H2 & _ & H3). simpl. done.
Qed.

Lemma PowersOfBase_denotes p g :
  denotes q psi k p g -> Z.of_nat w = (GetMSB q + b - 1) / b -> Z.of_nat w * b <= wbits ->
  returns (PowersOfBase p b) (fun ps => length ps = w /\
    forall i d, ps !! i = Some d -> denotes q psi k d (power_poly i g) /\ m_format d = m_format p).
Proof.
  intros Hp Ew Hw. unfold PowersOfBase. rewrite (windows_ok p g), bind_Ok by done. pose proof Hp as [Pp Ef _].
  pose proof (modulus_pos q psi k Hr). pose proof (values_wf q psi k Hr (m_format p) g Ef) as Wv.
  pose proof (wf_word _ Wv) as (_ & H2 & H3). cbn [m_modulus] in *. pose proof wbits_range.
  assert (2 ^ 6 < 2 ^ wbits) by (apply Z.pow_lt_mono_r; destruct wbits_cases; lia).
  apply (for_range_inv (fun n ps => length ps = n /\
    forall i d, ps !! i = Some d -> denotes q psi k d (power_poly i g) /\ m_format d = m_format p)); [lia | done |].
  intros n ps Hn (Hl & Hps).
  assert (0 <= Z.of_nat n * b < 64) by (destruct wbits_cases; nia).
  rewrite (u32_small (Z.of_nat n * b)), (wrap_small (Z.of_nat n * b)) by lia.
  unfold GetModulus. rewrite (rp_modulus _ _ _ _ Pp), ModExp_ok, bind_Ok by lia.
  pose proof (mod_range (2 ^ (Z.of_nat n * b)) q ltac:(lia)).
  eapply returns_bind; [apply (Times_scalar_denotes q psi k Hr p g Hp); lia|].
  intros r [Hd Hf]. simpl. rewrite length_app. simpl. split; [lia|].
  intros i d Hi. apply lookup_app_Some in Hi as [Hi|[Hi1 Hi2]]; [by apply Hps|].
  apply list_lookup_singleton_Some in Hi2 as [Hi2 <-]. replace i with n by lia. done.
Qed.
End Digits.
