(* ===== verification/PolyRing.v ===== *)
(** * Ring elements: the properties

    The operations of [PolyImpl] refine the arithmetic of the polynomials modulo
    [X ^ n + 1] and [q], whatever representation the elements are in. *)
From stdpp Require Import base numbers list.
From Stdlib Require Import ZArith Znumtheory Lia.
From S2P Require Import Prelude Bits NativeInt NativeIntProps NativeVector Ntt NttProps FttProps NbTheory AutoProps Poly PolyProps PolyAutoProps PolyDigitProps.
Open Scope Z_scope.

Section Properties.
Context `{W : NativeWidth}.
Context (q psi : Z) (k : nat) (Hr : root_ok q psi k).
Context (af ai : NativeVectorT -> ILParams -> outcome NativeVectorT).

(** [C12] Taking two ring elements from any representation to the evaluation
    representation, multiplying them and going back to coefficients, through the
    shared table cache, returns the element whose coefficients are those of the
    product modulo X^n + 1 and q. *)
Theorem ring_product_refines a b f g c :
  denotes q psi k a f -> denotes q psi k b g -> params_eqb (m_params a) (m_params b) = true ->
  cache_for q psi k c ->
  returns ('(a, c) ← SetFormat af ai a EVALUATION c;
           '(b, c) ← SetFormat af ai b EVALUATION c;
           r ← Times a b;
           SetFormat af ai r COEFFICIENT c)
    (fun '(r, c) => denotes q psi k r (negacyclic q f g) /\ m_format r = COEFFICIENT /\
       option_map m_data (m_values r) = Some (negacyclic q f g) /\ cache_for q psi k c).
Proof.
  intros Ha Hb Hp Hc. eapply returns_bind; [by apply (SetFormat_denotes q psi k Hr)|].
  intros [a' c1] (Ha' & Fa & Pa & Hc1). eapply returns_bind; [by apply (SetFormat_denotes q psi k Hr)|].
  intros [b' c2] (Hb' & Fb & Pb & Hc2).
  eapply returns_bind; [apply (Times_denotes q psi k Hr a' b' f g Ha' Hb'); congruence|].
  intros r [Hd Hf]. eapply returns_mono; [by apply (SetFormat_denotes q psi k Hr)|].
  intros [r' c3] (H1 & H2 & _ & H4). split_and!; [done | done | | done].
  rewrite (dn_values _ _ _ _ _ H1), H2. done.
Qed.

(** In either representation the sum, the difference, the sum with an integer, the
    product by an integer and the opposite of ring elements denote the corresponding
    polynomials and keep the representation. *)
Theorem ring_operations_refine a b f g s :
  denotes q psi k a f -> denotes q psi k b g -> m_format a = m_format b -> 0 <= s < 2 ^ wbits ->
  returns (Plus a b) (fun r => denotes q psi k r (padd q f g) /\ m_format r = m_format a) /\
  returns (Minus a b) (fun r => denotes q psi k r (psub q f g) /\ m_format r = m_format a) /\
  returns (Plus_scalar a s) (fun r => denotes q psi k r (pconst q s f) /\ m_format r = m_format a) /\
  returns (Times_scalar a s) (fun r => denotes q psi k r (pscale q s f) /\ m_format r = m_format a) /\
  returns (Negate a) (fun r => denotes q psi k r (pscale q (q - 1) f) /\ m_format r = m_format a).
Proof.
  intros Ha Hb HF Hs. split_and!; [by apply Plus_denotes | by apply Minus_denotes
    | by apply Plus_scalar_denotes | by apply Times_scalar_denotes | by apply Negate_denotes].
Qed.

(** Products of ring elements throw not_implemented_error unless both are in the
    evaluation representation; products and in-place sums and differences of
    elements with different parameters throw type_error. *)
Theorem Times_guards a b :
  (m_format a = COEFFICIENT \/ m_format b = COEFFICIENT ->
     Times a b = Throw not_implemented_error /\ TimesEq a b = Throw not_implemented_error) /\
  (params_eqb (m_params a) (m_params b) = false ->
     PlusEq a b = Throw type_error /\ MinusEq a b = Throw type_error /\
     (m_format a = EVALUATION -> m_format b = EVALUATION ->
        Times a b = Throw type_error /\ TimesEq a b = Throw type_error)).
Proof.
  unfold Times, TimesEq, PlusEq, MinusEq, both_evaluation. split.
  - intros [-> | ->]; [done|]. by destruct (m_format a).
  - intros ->. split_and!; [done | done |]. intros -> ->. done.
Qed.

Definition one : list Z := 1 :: repeat 0 (2 ^ k - 1).

Lemma one_elem : ring_elem q k one.
Proof.
  pose proof (modulus_pos q psi k Hr). pose proof (Nat.pow_nonzero 2 k ltac:(lia)).
  split; [unfold one; simpl; rewrite repeat_length; lia|]. apply Forall_cons. split; [lia|]. apply Forall_repeat. lia.
Qed.

Lemma ntt_one : ntt q psi k one = repeat 1 (2 ^ k).
Proof.
  pose proof (modulus_pos q psi k Hr). pose proof (Nat.pow_nonzero 2 k ltac:(lia)).
  assert (one = pconst q 1 (repeat 0 (2 ^ k))) as ->.
  { unfold one, pconst. destruct (2 ^ k)%nat as [|m] eqn:E; [done|]. simpl.
    rewrite Nat.sub_0_r. by rewrite Z.mod_small by lia. }
  assert (ring_elem q k (repeat 0 (2 ^ k))) as Hz by (split; [apply repeat_length | apply Forall_repeat; lia]).
  rewrite (ntt_const q psi k Hr) by done. apply (ring_elem_eq k); [by rewrite length_map, length_ntt | apply repeat_length|].
  intros i Hi. rewrite fmap_at by (by rewrite length_ntt). rewrite ntt_at, peval_zero by done.
  rewrite Z.mod_0_l, Z.add_0_l, Z.mod_small by lia. symmetry. by apply list_lookup_total_correct, lookup_repeat.
Qed.

(** The entrywise inverse modulo the prime. *)
Lemma inverse_values u :
  ring_elem q k u -> Forall (fun x => x <> 0) u ->
  returns (ModInverse_vector (mkVector u q)) (fun v => m_modulus v = q /\ ring_elem q k (m_data v) /\
    zip_with (fun x y => (x * y) mod q) u (m_data v) = repeat 1 (2 ^ k)).
Proof.
  intros Hu Hnz. pose proof (proj1 (ring_fits q psi k Hr u) Hu) as (Wu & _).
  pose proof (wf_word _ Wu) as (_ & H2 & H3). cbn [m_modulus] in *. pose proof (modulus_pos q psi k Hr).
  pose proof Hu as [Lu Ru].
  unfold ModInverse_vector, ModInverseEq_vector. cbn [m_data m_modulus].
  destruct (vmapM_returns (fun x => ModInverseEq x q) (fun x r => 0 <= r < q /\ (x * r) mod q = 1) u) as (v & -> & Hv).
  { apply Forall_forall. intros x Hx. unfold reduced in Ru. rewrite Forall_forall in Ru, Hnz.
    specialize (Ru x Hx). specialize (Hnz x Hx). apply (ModInverse_correct x q); [lia|].
    rewrite Z.gcd_comm. apply Z.coprime_prime_small; [apply Hr | lia]. }
  rewrite bind_Ok. cbn [returns m_modulus m_data]. pose proof (Forall2_length _ _ _ Hv) as Hl.
  split; [done|]. split; [split; [lia|]|].
  - apply Forall_lookup_2. intros i y Hy. destruct (Forall2_lookup_r _ _ _ _ _ Hv Hy) as (x & _ & Hx & _). done.
  - apply (ring_elem_eq k); [rewrite length_zip_with; lia | apply repeat_length |]. intros i Hi.
    rewrite zip_with_at by lia. destruct (lookup_lt_is_Some_2 u i ltac:(lia)) as [x Hx].
    destruct (Forall2_lookup_l _ _ _ _ _ Hv Hx) as (y & Hy & _ & E).
    rewrite (list_lookup_total_correct _ _ _ Hx), (list_lookup_total_correct _ _ _ Hy), E.
    symmetry. by apply list_lookup_total_correct, lookup_repeat.
Qed.

(** MultiplicativeInverse of an element in the evaluation representation returns
    an element whose product with it is one when no value is zero, and throws
    math_error otherwise. *)
Theorem MultiplicativeInverse_refines a f :
  denotes q psi k a f -> m_format a = EVALUATION ->
  if bool_decide (Forall (fun x => x <> 0) (ntt q psi k f))
  then returns (r ← MultiplicativeInverse a; Times a r) (fun r => denotes q psi k r one)
  else MultiplicativeInverse a = Throw math_error.
Proof.
  intros Ha HF. pose proof Ha as [Pa Ef Va]. rewrite HF in Va. cbn [values_in] in Va.
  assert (InverseExists a = Ok (bool_decide (Forall (fun x => x <> 0) (ntt q psi k f)))) as E.
  { unfold InverseExists, GetValues. rewrite Va, bind_Ok. f_equal. cbn [m_data].
    apply eq_bool_prop_intro. rewrite bool_decide_spec. rewrite Is_true_true, forallb_forall, Forall_forall.
    split; intros H x Hx; specialize (H x); rewrite list_elem_of_In in *; specialize (H Hx);
      destruct (Z.eqb_spec x 0); simpl in *; congruence || done. }
  unfold MultiplicativeInverse. rewrite E, bind_Ok. case_bool_decide as Hnz; [|done].
  rewrite (denotes_GetValues q psi k a f Ha), bind_Ok, HF. cbn [values_in].
  pose proof (inverse_values _ (ntt_elem q psi k Hr f) Hnz) as ([v m] & -> & Em & Ev & Ez)%returns_Ok.
  cbn [m_modulus m_data] in *. subst m. rewrite bind_Ok.
  rewrite (SetValues_ok q psi k Hr _ _ _ (m_params a)), bind_Ok by (done || apply Ev).
  unfold Times, both_evaluation. cbn [m_format m_params m_values]. rewrite HF.
  assert (params_eqb (m_params a) (m_params a) = true) as -> by (unfold params_eqb; by rewrite !Z.eqb_refl).
  cbn [negb andb deref]. rewrite bool_decide_eq_true_2 by done. cbn [negb andb].
  rewrite Va. cbn [deref]. rewrite !bind_Ok. rewrite (mul_values q psi k Hr), bind_Ok by (done || apply ntt_elem; done).
  rewrite Ez, <- ntt_one. unfold set_values. rewrite HF.
  apply (denotes_intro q psi k EVALUATION); [done | apply one_elem].
Qed.


End Properties.

(** ** Witnesses: dimension 8 modulo 17, with the root of unity 3 *)

Definition params8 : ILParams := mkParams 16 8 true 17 3 0 0.
Definition poly8 (F : Format) (d : list Z) : PolyImpl :=
  mkPoly (Some (mkVector (values_in 17 3 3 F d) 17)) F params8.
Definition no_arb (v : NativeVectorT) (pr : ILParams) : outcome NativeVectorT := Throw not_implemented_error.
Definition ascending : list Z := [1; 2; 3; 4; 5; 6; 7; 8].
Definition small : list Z := [3; 0; 0; 1; 0; 0; 0; 2].

Lemma params8_ok : ring_params 17 3 3 params8.
Proof. split; reflexivity. Qed.

Lemma poly8_denotes F d :
  length d = 8%nat -> reduced 17 d -> denotes 17 3 3 (poly8 F d) d.
Proof. intros Hl Hd. apply denotes_intro; [apply params8_ok | by split]. Qed.

Lemma ascending_reduced : reduced 17 ascending.
Proof. repeat constructor; lia. Qed.
Lemma small_reduced : reduced 17 small.
Proof. repeat constructor; lia. Qed.

Lemma ring_product_refines_witness :
  returns ('(a, c) ← @SetFormat W64 no_arb no_arb (poly8 COEFFICIENT ascending) EVALUATION empty_cache;
           '(b, c) ← @SetFormat W64 no_arb no_arb (poly8 EVALUATION small) EVALUATION c;
           r ← @Times W64 a b;
           @SetFormat W64 no_arb no_arb r COEFFICIENT c)
    (fun '(r, c) => option_map m_data (m_values r) = Some (negacyclic 17 ascending small)).
Proof.
  eapply returns_mono.
  - apply (ring_product_refines (W := W64) 17 3 3 root8 no_arb no_arb (poly8 COEFFICIENT ascending)
      (poly8 EVALUATION small) ascending small empty_cache);
      [apply poly8_denotes; [reflexivity | apply ascending_reduced]
      |apply poly8_denotes; [reflexivity | apply small_reduced] | reflexivity | left; reflexivity].
  - intros [r c] (_ & _ & H & _). exact H.
Defined.

Lemma ring_operations_refine_witness :
  returns (@Plus_scalar W64 (poly8 EVALUATION small) 20)
    (fun r => denotes 17 3 3 r (pconst 17 20 small) /\ m_format r = EVALUATION).
Proof.
  destruct (ring_operations_refine (W := W64) 17 3 3 root8 (poly8 EVALUATION small) (poly8 EVALUATION ascending)
    small ascending 20) as (_ & _ & H & _);
    [apply poly8_denotes; [reflexivity | apply small_reduced]
    |apply poly8_denotes; [reflexivity | apply ascending_reduced] | reflexivity | split; [lia | reflexivity] | exact H].
Defined.

Lemma Times_guards_witness :
  @Times W64 (poly8 COEFFICIENT small) (poly8 EVALUATION small) = Throw not_implemented_error.
Proof. apply (Times_guards (W := W64) (poly8 COEFFICIENT small) (poly8 EVALUATION small)). left. reflexivity. Defined.

Lemma MultiplicativeInverse_refines_witness :
  returns (r ← @MultiplicativeInverse W64 (poly8 EVALUATION small); @Times W64 (poly8 EVALUATION small) r)
    (fun r => denotes 17 3 3 r [1; 0; 0; 0; 0; 0; 0; 0]).
Proof.
  pose proof (MultiplicativeInverse_refines (W := W64) 17 3 3 root8 (poly8 EVALUATION small) small
    (poly8_denotes EVALUATION small eq_refl small_reduced) eq_refl) as H.
  rewrite bool_decide_eq_true_2 in H; [exact H|].
  apply (bool_decide_unpack _). vm_compute. exact I.
Defined.



(** ** Arguments on which the code departs from its contract *)

(** Subtracting an integer in the coefficient representation subtracts it from
    every coefficient, while adding it changes the constant one only. *)
Example Minus_scalar_every_coefficient :
  (p ← @Plus_scalar W64 (poly8 COEFFICIENT ascending) 1; @Minus_scalar W64 p 1)
  = Ok (poly8 COEFFICIENT [1; 1; 2; 3; 4; 5; 6; 7]).
Proof. vm_compute. reflexivity. Qed.

(** The opposite of a zero coefficient is stored as the modulus. *)
Example AutomorphismTransform_unreduced :
  @AutomorphismTransform W64 (poly8 COEFFICIENT [1; 0; 0; 0; 0; 0; 0; 0]) 3
  = Ok (mkPoly (Some (mkVector [1; 17; 0; 0; 17; 0; 0; 17] 17)) COEFFICIENT params8).
Proof. vm_compute. reflexivity. Qed.

(** Sums do not test that the representations agree. *)
Example Plus_mixes_representations :
  returns (@Plus W64 (poly8 COEFFICIENT small) (poly8 EVALUATION small))
    (fun r => m_format r = COEFFICIENT /\ m_values r <> Some (mkVector (padd 17 small small) 17)).
Proof. vm_compute. split; [reflexivity | discriminate]. Qed.

(** Assigning an element without values keeps the old values. *)
Example assign_poly_keeps_values :
  assign_poly (poly8 COEFFICIENT small) (mkPoly None EVALUATION params8)
  = mkPoly (Some (mkVector small 17)) EVALUATION params8.
Proof. reflexivity. Qed.

(** A list assigned to an element with values is not reduced. *)
Example assign_uint64s_unreduced :
  @assign_uint64s W64 (poly8 COEFFICIENT small) [100]
  = Ok (mkPoly (Some (mkVector [100; 0; 0; 0; 0; 0; 0; 0] 17)) COEFFICIENT params8).
Proof. vm_compute. reflexivity. Qed.

(** The last digit of a 60-bit number in base [2 ^ 25] is read past the word. *)
Example BaseDecompose_past_word :
  @BaseDecompose W64 no_arb no_arb
    (mkPoly (Some (mkVector (repeat 0 8) (2 ^ 60 - 1))) COEFFICIENT (mkParams 16 8 true (2 ^ 60 - 1) 3 0 0))
    25 false empty_cache = UB.
Proof. vm_compute. reflexivity. Qed.
