(* ===== verification/PolyAlg.v ===== *)
(** * The ring of the polynomials modulo X^n + 1 and q

    Equations between ring elements are decided by their values at the points of
    the transform. Monomials, sums, and the bound on the coefficients ([near]) that
    measures noise. *)
From stdpp Require Import base numbers list.
From Stdlib Require Import ZArith Lia.
From S2P Require Import Prelude Bits NativeInt NativeIntProps NativeVector Ntt NttProps FttProps NbTheory AutoProps Poly PolyProps PolyAutoProps PolyDigitProps.
Open Scope Z_scope.

(** A residue with a representative of absolute value at most [beta]. *)
Definition small (q beta x : Z) : Prop := exists z, Z.abs z <= beta /\ x ==[q] z.
Definition near (q beta : Z) (f : list Z) : Prop := Forall (small q beta) f.

Lemma small_eqmod q beta x y : x ==[q] y -> small q beta y -> small q beta x.
Proof. intros E (z & Hz & Ez). exists z. split; [done|]. by rewrite E. Qed.

Lemma small_mono q beta beta' x : beta <= beta' -> small q beta x -> small q beta' x.
Proof. intros H (z & Hz & E). exists z. split; [lia | done]. Qed.

Lemma small_0 q beta : 0 <= beta -> small q beta 0.
Proof. intros H. exists 0. split; [lia | done]. Qed.

Lemma small_add q b1 b2 x y : small q b1 x -> small q b2 y -> small q (b1 + b2) (x + y).
Proof. intros (z & Hz & E) (w & Hw & F). exists (z + w). split; [lia | by rewrite E, F]. Qed.

Lemma small_opp q b x : small q b x -> small q b (- x).
Proof. intros (z & Hz & E). exists (- z). split; [lia | by rewrite E]. Qed.

Lemma small_mul q b1 b2 x y : small q b1 x -> small q b2 y -> small q (b1 * b2) (x * y).
Proof.
  intros (z & Hz & E) (w & Hw & F). exists (z * w). split; [|by rewrite E, F].
  rewrite Z.abs_mul. apply Z.mul_le_mono_nonneg; lia.
Qed.

Lemma small_nsum q b c n :
  (forall i, (i < n)%nat -> small q b (c i)) -> small q (Z.of_nat n * b) (nsum c n).
Proof.
  induction n as [|n IH]; intros H; cbn [nsum]; [by apply small_0|].
  apply (small_mono _ (Z.of_nat n * b + b)); [lia|]. apply small_add; [apply IH; intros; apply H | apply H]; lia.
Qed.

Lemma near_at q b f i : near q b f -> (i < length f)%nat -> small q b (f !!! i).
Proof. intros H Hi. destruct (lookup_lt_is_Some_2 f i Hi) as [x Hx]. rewrite (list_lookup_total_correct _ _ _ Hx). by eapply Forall_lookup_1. Qed.

Lemma near_at_2 q b f : (forall i, (i < length f)%nat -> small q b (f !!! i)) -> near q b f.
Proof.
  intros H. apply Forall_lookup_2. intros i x Hx. rewrite <- (list_lookup_total_correct _ _ _ Hx).
  apply H. by eapply lookup_lt_Some.
Qed.

Lemma near_mono q b b' f : b <= b' -> near q b f -> near q b' f.
Proof. intros H Hf. eapply Forall_impl; [exact Hf|]. intros x. by apply small_mono. Qed.

Section Algebra.
Context `{W : NativeWidth}.
Context (q psi : Z) (k : nat) (Hr : root_ok q psi k).

Abbreviation n := (2 ^ k)%nat.
Abbreviation elem := (ring_elem q k).
Declare Scope ring_scope.
Notation "f * g" := (negacyclic q f g) : ring_scope.
Notation "f + g" := (padd q f g) : ring_scope.
Notation "f - g" := (psub q f g) : ring_scope.
Delimit Scope ring_scope with R.

(** The value at point [i] of the transform. *)
Definition ev (i : nat) (f : list Z) : Z := peval f (point psi k i).

Lemma ntt_inj f g : elem f -> elem g -> ntt q psi k f = ntt q psi k g -> f = g.
Proof.
  intros Hf Hg E.
  pose proof (FTT_inverse_ntt q psi k Hr f empty_cache Hf ltac:(by left)) as (r1 & E1 & F1 & _)%returns_Ok.
  pose proof (FTT_inverse_ntt q psi k Hr g empty_cache Hg ltac:(by left)) as (r2 & E2 & F2 & _)%returns_Ok.
  rewrite E in E1. congruence.
Qed.

(** Ring elements with the same values are equal. *)
Lemma ev_eq f g : elem f -> elem g -> (forall i, (i < n)%nat -> ev i f ==[q] ev i g) -> f = g.
Proof.
  intros Hf Hg H. apply ntt_inj; [done | done |].
  apply (ring_elem_eq k); [by apply length_ntt | by apply length_ntt |].
  intros i Hi. rewrite !ntt_at by done. by apply eqmod_elim, H.
Qed.

Lemma ev_add i f g : elem f -> elem g -> ev i (f + g)%R ==[q] ev i f + ev i g.
Proof.
  intros [Hf _] [Hg _]. unfold ev, padd.
  rewrite (zip_with_ext_Z (fun x y => (x + y) mod q) (fun a b => (a + b * 1) mod q)) by (intros; f_equal; lia).
  rewrite (peval_linear q) by lia. apply eqmod_eq. ring.
Qed.

Lemma ev_sub i f g : elem f -> elem g -> ev i (f - g)%R ==[q] ev i f - ev i g.
Proof.
  intros [Hf _] [Hg _]. unfold ev, psub.
  rewrite (zip_with_ext_Z (fun x y => (x - y) mod q) (fun a b => (a + b * -1) mod q)) by (intros; f_equal; lia).
  rewrite (peval_linear q) by lia. apply eqmod_eq. ring.
Qed.

Lemma ev_mul i f g : elem f -> elem g -> ev i (f * g)%R ==[q] ev i f * ev i g.
Proof.
  intros [Hf _] [Hg _]. unfold ev. pose proof (modulus_pos q psi k Hr). apply negacyclic_eval; [lia|].
  rewrite Hf. by apply (point_root q psi k Hr).
Qed.

Lemma ev_scale i s f : elem f -> ev i (pscale q s f) ==[q] s * ev i f.
Proof. intros _. unfold ev. by apply peval_scale. Qed.

Definition pzero : list Z := repeat 0 n.

Lemma pzero_elem : elem pzero.
Proof. pose proof (modulus_pos q psi k Hr). split; [apply repeat_length | apply Forall_repeat; lia]. Qed.

Lemma ev_zero i : ev i pzero = 0.
Proof. apply peval_zero. Qed.

(** ** Monomials *)

Definition order : Z := 2 ^ (Z.of_nat k + 1).

(** [X^m], for any integer [m]. *)
Definition pmono (m : Z) : list Z :=
  let r := Z.to_nat (m mod order) in
  if (r <? n)%nat then <[r := 1]> pzero else <[(r - n)%nat := q - 1]> pzero.

Lemma order_pos : 0 < order.
Proof. unfold order. apply pow2_pos. lia. Qed.

Lemma order_n : order = 2 * Z.of_nat n.
Proof. unfold order. rewrite Z.pow_add_r, (pow2_nat_Z k) by lia. lia. Qed.

Lemma insert_elem i x f : elem f -> 0 <= x < q -> elem (<[i := x]> f).
Proof.
  intros [Hl Hf] Hx. split; [by rewrite length_insert|]. by apply Forall_insert.
Qed.

Lemma pmono_elem m : elem (pmono m).
Proof.
  pose proof (modulus_pos q psi k Hr). unfold pmono.
  destruct (_ <? _)%nat; (apply insert_elem; [apply pzero_elem | lia]).
Qed.

Lemma point_order i : point psi k i ^ order ==[q] 1.
Proof.
  rewrite order_n, Z.mul_comm, Z.pow_mul_r by lia. rewrite (eqmod_pow q _ _ _ (point_root q psi k Hr i)). done.
Qed.

Lemma point_pow_mod i m : 0 <= m -> point psi k i ^ (m mod order) ==[q] point psi k i ^ m.
Proof.
  intros Hm. pose proof order_pos. rewrite (Z.div_mod m order) at 2 by lia.
  assert (0 <= m / order) by (apply Z.div_pos; lia). pose proof (mod_range m order ltac:(lia)).
  rewrite Z.pow_add_r, Z.pow_mul_r by nia. rewrite (eqmod_pow q _ _ _ (point_order i)), Z.pow_1_l by lia.
  apply eqmod_eq. ring.
Qed.

Lemma ev_insert i j x f : elem f -> (j < n)%nat ->
  ev i (<[j := x]> f) = ev i f + (x - f !!! j) * point psi k i ^ Z.of_nat j.
Proof. intros [Hl _] Hj. apply peval_insert. lia. Qed.

Lemma zero_at j : (j < n)%nat -> pzero !!! j = 0.
Proof. intros Hj. by apply list_lookup_total_correct, lookup_repeat. Qed.

Lemma ev_mono i m : ev i (pmono m) ==[q] point psi k i ^ (m mod order).
Proof.
  pose proof order_pos. pose proof (mod_range m order ltac:(lia)). pose proof order_n.
  unfold pmono. set (r := Z.to_nat (m mod order)). assert (m mod order = Z.of_nat r) as E by lia.
  destruct (Nat.ltb_spec r n); rewrite ev_insert, ev_zero, zero_at, E by (apply pzero_elem || lia).
  - apply eqmod_eq. ring.
  - replace (Z.of_nat r) with (Z.of_nat (r - n) + Z.of_nat n) by lia.
    rewrite Z.pow_add_r, (point_root q psi k Hr i) by lia.
    rewrite <- (eqmod_multiple q (_ * -1) (point psi k i ^ Z.of_nat (r - n))). apply eqmod_eq. ring.
Qed.

Lemma ev_mono_pos i m : 0 <= m -> ev i (pmono m) ==[q] point psi k i ^ m.
Proof. intros Hm. rewrite ev_mono. by apply point_pow_mod. Qed.

Lemma pmono_period a b : a mod order = b mod order -> pmono a = pmono b.
Proof. unfold pmono. by intros ->. Qed.

Lemma near_zero : near q 0 pzero.
Proof. apply Forall_repeat. by apply small_0. Qed.

(** ** Bounds *)

Lemma near_add b1 b2 f g : elem f -> elem g -> near q b1 f -> near q b2 g -> near q (b1 + b2) (f + g)%R.
Proof.
  intros [Hf _] [Hg _] H1 H2. unfold padd. apply near_at_2. intros i. rewrite length_zip_with. intros Hi.
  rewrite zip_with_at by lia. apply (small_eqmod _ _ _ _ (eqmod_mod _ _)).
  apply small_add; (apply near_at; [done | lia]).
Qed.

Lemma near_sub b1 b2 f g : elem f -> elem g -> near q b1 f -> near q b2 g -> near q (b1 + b2) (f - g)%R.
Proof.
  intros [Hf _] [Hg _] H1 H2. unfold psub. apply near_at_2. intros i. rewrite length_zip_with. intros Hi.
  rewrite zip_with_at by lia. apply (small_eqmod _ _ _ _ (eqmod_mod _ _)). rewrite <- Z.add_opp_r.
  apply small_add; [|apply small_opp]; (apply near_at; [done | lia]).
Qed.

Lemma rotate_small b g i r :
  length g = n -> near q b g -> (i < n)%nat -> (r < n)%nat -> small q b (rotate n g i r).
Proof.
  intros Hg H Hi Hlt. unfold rotate. destruct (Nat.ltb_spec r i); [apply small_opp|]; apply near_at; try done; lia.
Qed.

Lemma near_mul b1 b2 f g :
  elem f -> elem g -> near q b1 f -> near q b2 g -> near q (Z.of_nat n * (b1 * b2)) (f * g)%R.
Proof.
  intros [Hf _] [Hg _] H1 H2. apply near_at_2. intros r. rewrite length_negacyclic, Hf. intros Hlt.
  rewrite (negacyclic_at q k) by done. apply (small_eqmod _ _ _ _ (eqmod_mod _ _)). apply small_nsum. intros i Hi.
  apply small_mul; [apply near_at; [done | lia] | by apply rotate_small].
Qed.

Lemma nsum_insert j y c (m : nat) : (j < n)%nat -> (m <= n)%nat ->
  nsum (fun i => (<[j := y]> pzero : list Z) !!! i * c i) m = if (j <? m)%nat then y * c j else 0.
Proof.
  intros Hj. induction m as [|m IH]; intros Hm; cbn [nsum]; [done|].
  rewrite IH, insert_at by (unfold pzero; rewrite ?repeat_length; lia). rewrite zero_at by lia.
  case_decide; destruct (Nat.ltb_spec j m), (Nat.ltb_spec j (S m)); try lia; subst; ring.
Qed.

(** The product by a monomial moves the coefficients and changes signs. *)
Lemma near_mono_mul b m f : elem f -> near q b f -> near q b (pmono m * f)%R.
Proof.
  intros [Hf _] H. pose proof (modulus_pos q psi k Hr). pose proof order_n. pose proof order_pos.
  pose proof (mod_range m order ltac:(lia)).
  assert (exists j y, (j < n)%nat /\ pmono m = <[j := y]> pzero /\ small q 1 y) as (j & y & Hj & E & Hy).
  { unfold pmono. destruct (Nat.ltb_spec (Z.to_nat (m mod order)) n) as [Hl|Hl].
    - eexists _, _. split_and!; [exact Hl | done |]. by exists 1.
    - eexists _, _. split_and!; [|done|]; [lia|]. exists (-1). split; [done|].
      rewrite <- (eqmod_multiple q (-1) 1). apply eqmod_eq. ring. }
  pose proof (pmono_elem m) as [Hl _]. apply near_at_2. intros r. rewrite length_negacyclic, Hl. intros Hlt.
  rewrite (negacyclic_at q k) by done. apply (small_eqmod _ _ _ _ (eqmod_mod _ _)). rewrite E, nsum_insert by lia.
  rewrite (proj2 (Nat.ltb_lt _ _)) by done. apply (small_mono _ (1 * b)); [lia|].
  apply small_mul; [done | by apply rotate_small].
Qed.

(** ** Sums *)

Fixpoint psum (F : nat -> list Z) (m : nat) : list Z :=
  match m with O => pzero | S m => (psum F m + F m)%R end.

Lemma psum_elem F m : (forall l, (l < m)%nat -> elem (F l)) -> elem (psum F m).
Proof.
  intros H. induction m as [|m IH]; cbn [psum]; [apply pzero_elem|].
  apply (padd_elem q psi k Hr); [apply IH; intros; apply H | apply H]; lia.
Qed.

Lemma ev_sum i F m : (forall l, (l < m)%nat -> elem (F l)) -> ev i (psum F m) ==[q] nsum (fun l => ev i (F l)) m.
Proof.
  intros H. induction m as [|m IH]; cbn [psum nsum]; [by rewrite ev_zero|].
  rewrite ev_add, IH by ((apply psum_elem; intros; apply H; lia) || (intros; apply H; lia)). done.
Qed.

Lemma near_sum b F m :
  (forall l, (l < m)%nat -> elem (F l) /\ near q b (F l)) -> near q (Z.of_nat m * b) (psum F m).
Proof.
  intros H. induction m as [|m IH]; cbn [psum]; [apply near_zero|].
  apply (near_mono _ (Z.of_nat m * b + b)); [lia|].
  apply near_add; [apply psum_elem; intros; apply H; lia | apply H; lia | apply IH; intros; apply H; lia | apply H; lia].
Qed.
End Algebra.

Create HintDb relem.
#[export] Hint Resolve padd_elem psub_elem pscale_elem negacyclic_elem pmono_elem pzero_elem insert_elem : relem.

(** Ring elements, and equations between them by their values. *)
Ltac relem := eauto 20 with relem.
Ltac ev_norm Hr :=
  repeat first [ rewrite (ev_add _ _ _) by relem | rewrite (ev_sub _ _ _) by relem
               | rewrite (ev_mul _ _ _ Hr) by relem | rewrite (ev_scale _ _ _) by relem | rewrite ev_zero ].
Ltac ring_eq Hr :=
  apply (ev_eq _ _ _ Hr); [relem | relem | intros; ev_norm Hr; try (apply eqmod_eq; ring)].

(** The noise-free part of a ciphertext [(a, b)] under the key [s]. *)
Definition phase (q : Z) (s a b : list Z) : list Z := psub q b (negacyclic q a s).

Section Monomials.
Context `{W : NativeWidth}.
Context (q psi : Z) (k : nat) (Hr : root_ok q psi k).

Lemma phase_elem s a b : ring_elem q k s -> ring_elem q k a -> ring_elem q k b -> ring_elem q k (phase q s a b).
Proof. unfold phase. relem. Qed.

Lemma pmono_add a b : pmono q k (a + b) = negacyclic q (pmono q k a) (pmono q k b).
Proof.
  ring_eq Hr. pose proof (order_pos k). rewrite !(ev_mono q psi k Hr), <- Z.pow_add_r by (apply mod_range; lia).
  rewrite <- (point_pow_mod q psi k Hr _ (a mod _ + _)).
  - by rewrite <- Z.add_mod by lia.
  - pose proof (mod_range a (order k) ltac:(lia)). pose proof (mod_range b (order k) ltac:(lia)). lia.
Qed.

Lemma pmono_0_mul f : ring_elem q k f -> negacyclic q (pmono q k 0) f = f.
Proof. intros Hf. ring_eq Hr. rewrite (ev_mono_pos q psi k Hr) by lia. apply eqmod_eq. ring. Qed.

Lemma padd_0_l f : ring_elem q k f -> padd q (pzero k) f = f.
Proof. intros Hf. ring_eq Hr. Qed.
Lemma padd_0_r f : ring_elem q k f -> padd q f (pzero k) = f.
Proof. intros Hf. ring_eq Hr. Qed.
End Monomials.
#[export] Hint Resolve phase_elem psum_elem : relem.
