(* ===== verification/Rgsw.v ===== *)
(** * RingGSW accumulators

    The parameters of src/binfhe/include/rgsw-cryptoparameters.h with [PreCompute]
    of lib/rgsw-cryptoparameters.cpp, the keys of rgsw-evalkey.h and rgsw-acckey.h,
    the ciphertexts of rlwe-ciphertext.h, the digit decomposition of
    lib/rgsw-acc.cpp, and the two accumulators: Ducas-Micciancio
    (lib/rgsw-acc-dm.cpp) and Chillotti-Gama-Georgieva-Izabachene
    (lib/rgsw-acc-cggi.cpp). What a generator samples is an argument. The number of
    digits [ceil(log(x) / log(base))], which the code computes in floating point, is
    the argument [ceil_log]. The files of the traces are not modelled; the reads of
    the traces are. *)
From stdpp Require Import base numbers list gmap.
From Stdlib Require Import ZArith Lia.
From S2P Require Import Prelude Bits NativeInt NativeIntProps NativeVector Ntt NbTheory Poly.
Open Scope Z_scope.

Inductive BINFHE_METHOD := INVALID_METHOD | AP | GINX.

#[export] Instance BINFHE_METHOD_eq_dec : EqDecision BINFHE_METHOD.
Proof. solve_decision. Defined.

(** The fields, by the names of their accessors. *)
Record RingGSWCryptoParams := mkRingGSW {
  GetN : Z;
  GetQ : Z;
  Getq : Z;
  GetBaseG : Z;
  GetDigitsG : Z;
  GetBaseR : Z;
  GetDigitsR : list Z;
  GetGPower : list Z;
  GetGPowerMap : gmap Z (list Z);
  GetPolyParams : ILParams;
  GetGateConst : list Z;
  GetMonomials : list PolyImpl;
  GetMethod : BINFHE_METHOD
}.

(** The rows of a RingGSW ciphertext. *)
Abbreviation RingGSWEvalKeyImpl := (list (list PolyImpl)).
(** A [shared_ptr], null before it is set. *)
Abbreviation RingGSWEvalKey := (option RingGSWEvalKeyImpl).
Abbreviation RingGSWACCKeyImpl := (list (list (list RingGSWEvalKey))).
Abbreviation RLWECiphertextImpl := (list PolyImpl).

Definition i64 (x : Z) : Z := let y := u64 x in if y <? 2 ^ 63 then y else y - 2 ^ 64.

(** The value of an [int32_t] expression, undefined when it overflows. *)
Definition scheck32 (x : Z) : outcome Z := if (- 2 ^ 31 <=? x) && (x <? 2 ^ 31) then Ok x else UB.

Section Definitions.
Context `{W : NativeWidth}.
Context (arb_forward arb_inverse : NativeVectorT -> ILParams -> outcome NativeVectorT).
Context (ceil_log : Z -> Z -> Z).

Let SetFormat := SetFormat arb_forward arb_inverse.

(** ** Parameters *)

(** The powers [1, base, base * base, ...], not reduced. *)
Definition digits_list (count : nat) (base : Z) (digits : list Z) : list Z :=
  fst (Nat.iter count (fun '(digits, value) => (digits ++ [value], MulEq value base)) (digits, 1)).

(** [tempdigits] powers of the base modulo [Q], after those of [tempvec]. *)
Definition gadget_powers (tempdigits : nat) (base Q : Z) (tempvec : list Z) : outcome (list Z) :=
  st ← for_range 0 tempdigits (fun _ '(tempvec, vTemp) =>
         v ← ModMul vTemp (wrap base) Q;
         Ok (tempvec ++ [vTemp], v)) (tempvec, 1);
  Ok (fst st).

Definition baseGlist : list Z := [2 ^ 14; 2 ^ 18; 2 ^ 27].

(** The powers for the three bases of the sign evaluation. *)
Definition sign_powers (params : RingGSWCryptoParams) : outcome (list Z * gmap Z (list Z)) :=
  for_range 0 3 (fun j '(Gpower, Gpower_map) =>
    base ← vget baseGlist j;
    tempvec ← gadget_powers (Z.to_nat (ceil_log (GetQ params) base)) base (GetQ params) [];
    Ok (if GetBaseG params =? base then tempvec else Gpower, <[base := tempvec]> Gpower_map))
    (GetGPower params, GetGPowerMap params).

Definition gate_constants (q : Z) : outcome (list Z) :=
  q8 ← RShift q 3;
  Ok (map (fun m => Mul m q8) [5; 7; 1; 3; 5; 1]).

(** [X^i - 1], or [- X^i - 1]. *)
Definition monomial_poly (positive : bool) (polyParams : ILParams) (Q : Z) (i : nat) (c : FTTCache)
    : outcome (PolyImpl * FTTCache) :=
  aPoly ← PolyImpl_new polyParams COEFFICIENT true;
  x ← index aPoly i;
  x ← (if positive then ModAddEq x 1 Q else ModSubEq x 1 Q);
  aPoly ← set_index aPoly i x;
  y ← index aPoly 0;
  y ← ModSubEq y 1 Q;
  aPoly ← set_index aPoly 0 y;
  SetFormat aPoly EVALUATION c.

Definition monomials_loop (positive : bool) (N : nat) (polyParams : ILParams) (Q : Z)
    (st : list PolyImpl * FTTCache) : outcome (list PolyImpl * FTTCache) :=
  for_range 0 N (fun i '(monomials, c) =>
    '(aPoly, c) ← monomial_poly positive polyParams Q i c;
    Ok (monomials ++ [aPoly], c)) st.

Definition RingGSW_PreCompute (params : RingGSWCryptoParams) (signEval : bool) (c : FTTCache)
    : outcome (RingGSWCryptoParams * FTTCache) :=
  let digitsR :=
    if bool_decide (GetMethod params = AP)
    then digits_list (Z.to_nat (ceil_log (Getq params) (GetBaseR params))) (GetBaseR params) (GetDigitsR params)
    else GetDigitsR params in
  '(Gpower, Gpower_map) ←
    (if signEval then sign_powers params
     else g ← gadget_powers (Z.to_nat (GetDigitsG params)) (GetBaseG params) (GetQ params) (GetGPower params);
          Ok (g, GetGPowerMap params));
  gateConst ← gate_constants (Getq params);
  '(monomials, c) ←
    (if bool_decide (GetMethod params = GINX) then
       st ← monomials_loop true (Z.to_nat (GetN params)) (GetPolyParams params) (GetQ params) (GetMonomials params, c);
       monomials_loop false (Z.to_nat (GetN params)) (GetPolyParams params) (GetQ params) st
     else Ok (GetMonomials params, c));
  Ok (mkRingGSW (GetN params) (GetQ params) (Getq params) (GetBaseG params) (GetDigitsG params) (GetBaseR params)
        digitsR Gpower Gpower_map (GetPolyParams params) gateConst monomials (GetMethod params), c).

(** The constructor: its tables are those [PreCompute] adds to empty ones. *)
Definition RingGSWCryptoParams_new (dist : nat -> Z -> Z) (rfuel fuel : nat) (N Q q baseG baseR : Z)
    (method : BINFHE_METHOD) (signEval : bool) (rc : nat) (c : FTTCache)
    : outcome (RingGSWCryptoParams * nat * FTTCache) :=
  if negb (IsPowerOfTwo baseG) then Throw config_error
  else
    let M := u32 (2 * N) in
    '(rootOfUnity, rc) ← RootOfUnity dist rfuel fuel M Q rc;
    c ← PreCompute rootOfUnity M Q c;
    '(polyParams, rc) ← ElemParams_new dist rfuel fuel M Q rootOfUnity 0 0 rc;
    let digitsG := ceil_log Q baseG in
    '(params, c) ← RingGSW_PreCompute
                     (mkRingGSW N Q q baseG digitsG baseR [] [] ∅ polyParams [] [] method) signEval c;
    Ok (params, rc, c).

(** [operator==] compares four fields. *)
Definition RingGSWCryptoParams_eqb (a b : RingGSWCryptoParams) : bool :=
  (GetN a =? GetN b) && (GetQ a =? GetQ b) && (GetBaseR a =? GetBaseR b) && (GetBaseG a =? GetBaseG b).

(** [m_Gpower_map\[m_baseG\]] inserts an empty vector for a base it has not. *)
Definition Change_BaseG (params : RingGSWCryptoParams) (BaseG : Z) : RingGSWCryptoParams :=
  if negb (GetBaseG params =? BaseG) then
    let Gpower := default [] (GetGPowerMap params !! BaseG) in
    mkRingGSW (GetN params) (GetQ params) (Getq params) BaseG (ceil_log (GetQ params) BaseG) (GetBaseR params)
      (GetDigitsR params) Gpower (<[BaseG := Gpower]> (GetGPowerMap params)) (GetPolyParams params)
      (GetGateConst params) (GetMonomials params) (GetMethod params)
  else params.

Definition GetMonomial (params : RingGSWCryptoParams) (i : Z) : outcome PolyImpl :=
  vget (GetMonomials params) (Z.to_nat i).

(** ** Keys and ciphertexts *)

(** [v\[i\]\[j\]] of a vector of vectors. *)
Definition vget2 {A} (v : list (list A)) (i j : nat) : outcome A := row ← vget v i; vget row j.
Definition vset2 {A} (v : list (list A)) (i j : nat) (x : A) : outcome (list (list A)) :=
  row ← vget v i; row ← vset row j x; vset v i row.

(** [m_elements\[i\].SetFormat(format)] for every [i]. *)
Definition RLWE_SetFormat (elements : RLWECiphertextImpl) (format : Format) (c : FTTCache)
    : outcome (RLWECiphertextImpl * FTTCache) :=
  for_range 0 (length elements) (fun i '(elements, c) =>
    p ← vget elements i;
    '(p, c) ← SetFormat p format c;
    elements ← vset elements i p;
    Ok (elements, c)) (elements, c).

(** The number of columns is that of the first row. *)
Definition EvalKey_SetFormat (elements : RingGSWEvalKeyImpl) (format : Format) (c : FTTCache)
    : outcome (RingGSWEvalKeyImpl * FTTCache) :=
  for_range 0 (length elements) (fun i '(elements, c) =>
    row0 ← vget elements 0;
    for_range 0 (length row0) (fun j '(elements, c) =>
      p ← vget2 elements i j;
      '(p, c) ← SetFormat p format c;
      elements ← vset2 elements i j p;
      Ok (elements, c)) (elements, c)) (elements, c).

(** [all_equal eq l o]: the loops of the comparisons over two vectors of the same
    size, left at the first difference. *)
Fixpoint all_equal {A} (eq : A -> A -> outcome bool) (l o : list A) : outcome bool :=
  match l, o with
  | x :: l, y :: o => b ← eq x y; if (b : bool) then all_equal eq l o else Ok false
  | _, _ => Ok true
  end.

(** Rows of different sizes are passed over. *)
Definition same_size_equal {A} (eq : A -> A -> outcome bool) (l o : list A) : outcome bool :=
  if (length l =? length o)%nat then all_equal eq l o else Ok true.

Definition EvalKey_eqb (a b : RingGSWEvalKeyImpl) : outcome bool :=
  if (length a =? length b)%nat then all_equal (same_size_equal eqb_poly) a b else Ok false.

Definition EvalKey_ptr_eqb (a b : RingGSWEvalKey) : outcome bool :=
  match a, b with
  | Some a, Some b => EvalKey_eqb a b
  | None, None => Ok true
  | _, _ => Ok false
  end.

Definition ACCKey_eqb (a b : RingGSWACCKeyImpl) : outcome bool :=
  if (length a =? length b)%nat
  then all_equal (same_size_equal (same_size_equal EvalKey_ptr_eqb)) a b else Ok false.

(** ** Signed digits *)

(** Shifts of [SignedNativeInt], in two's complement. *)
Definition sshl (x s : Z) : outcome Z :=
  if (0 <=? s) && (s <? wbits) then Ok (to_signed (Z.shiftl x s)) else UB.
Definition sshr (x s : Z) : outcome Z :=
  if (0 <=? s) && (s <? wbits) then Ok (Z.shiftr x s) else UB.

(** One digit of [d]: the entry to add and the rest. *)
Definition signed_digit (gBits gBitsMaxBits Q_int d : Z) : outcome (Z * Z) :=
  r ← sshl d gBitsMaxBits;
  r ← sshr r gBitsMaxBits;
  d ← scheck (d - r);
  d ← sshr d gBits;
  r ← (if r <? 0 then scheck (r + Q_int) else Ok r);
  Ok (r, d).

(** [output\[i\]\[k\] += r] *)
Definition add_entry (output : list PolyImpl) (i k : nat) (r : Z) : outcome (list PolyImpl) :=
  p ← vget output i;
  x ← index p k;
  p ← set_index p k (AddEq x (wrap r));
  vset output i p.

Definition SignedDigitDecompose (params : RingGSWCryptoParams) (input output : list PolyImpl)
    : outcome (list PolyImpl) :=
  let N := Z.to_nat (GetN params) in
  let digitsG := Z.to_nat (GetDigitsG params) in
  let Q := GetQ params in
  QHalf ← RShift Q 1;
  let Q_int := to_signed Q in
  let baseG := to_signed (GetBaseG params) in
  let gBits := Z.log2 baseG in
  let gBitsMaxBits := MaxBits - gBits in
  for_range 0 2 (fun j output =>
    for_range 0 N (fun k output =>
      p ← vget input j;
      t ← index p k;
      d ← (if t <? QHalf then Ok (to_signed t) else scheck (to_signed t - Q_int));
      st ← for_range 0 digitsG (fun l '(output, d) =>
             '(r, d) ← signed_digit gBits gBitsMaxBits Q_int d;
             output ← add_entry output (j + 2 * l) k r;
             Ok (output, d)) (output, d);
      Ok (fst st)) output) output.

(** ** Steps the two accumulators share *)

(** The rows before the message is added: a uniform and an error polynomial each. *)
Definition sample_rows (params : RingGSWCryptoParams) (digitsG2 : nat) (U E : nat -> NativeVectorT) (c : FTTCache)
    : outcome (list PolyImpl * RingGSWEvalKeyImpl * FTTCache) :=
  for_range 0 digitsG2 (fun i '(tempA, result, c) =>
    '(a, c) ← PolyImpl_sampled arb_forward arb_inverse (U i) (GetPolyParams params) COEFFICIENT c;
    '(e, c) ← PolyImpl_sampled arb_forward arb_inverse (E i) (GetPolyParams params) COEFFICIENT c;
    Ok (tempA ++ [a], result ++ [[a; e]], c)) ([], [], c).

(** [result\[i\]\[j\]\[m\]] updated by [op]. *)
Definition update_entry (op : Z -> outcome Z) (result : RingGSWEvalKeyImpl) (i j m : nat)
    : outcome RingGSWEvalKeyImpl :=
  p ← vget2 result i j;
  x ← index p m;
  x ← op x;
  p ← set_index p m x;
  vset2 result i j p.

(** The multiple of the gadget: [op] adds or subtracts [Gpow\[i\]] at entry [m]. *)
Definition add_gadget (op : Z -> Z -> Z -> outcome Z) (params : RingGSWCryptoParams) (m : nat)
    (result : RingGSWEvalKeyImpl) : outcome RingGSWEvalKeyImpl :=
  for_range 0 (Z.to_nat (GetDigitsG params)) (fun i result =>
    g ← vget (GetGPower params) i;
    result ← update_entry (fun x => op x g (GetQ params)) result (2 * i) 0 m;
    update_entry (fun x => op x g (GetQ params)) result (2 * i + 1) 1 m) result.

(** The last loop of the key generation: the rows in the evaluation
    representation, with the products by the secret key. *)
Definition finish_rows (digitsG2 : nat) (skNTT : PolyImpl) (tempA : list PolyImpl) (result : RingGSWEvalKeyImpl)
    (c : FTTCache) : outcome (RingGSWEvalKeyImpl * FTTCache) :=
  '(result, c) ← EvalKey_SetFormat result EVALUATION c;
  for_range 0 digitsG2 (fun i '(result, c) =>
    a ← vget tempA i;
    '(a, c) ← SetFormat a EVALUATION c;
    p ← Times a skNTT;
    b ← vget2 result i 1;
    b ← PlusEq b p;
    result ← vset2 result i 1 b;
    Ok (result, c)) (result, c).

(** The zero polynomials the digits are added to. *)
Definition zero_digits (digitsG2 : nat) (polyParams : ILParams) : outcome (list PolyImpl) :=
  vmapM (fun _ => PolyImpl_new polyParams COEFFICIENT true) (seq 0 digitsG2).

(** The first two elements of [v] in the format. *)
Definition set_formats (n : nat) (format : Format) (v : list PolyImpl) (c : FTTCache)
    : outcome (list PolyImpl * FTTCache) :=
  for_range 0 n (fun i '(v, c) =>
    p ← vget v i;
    '(p, c) ← SetFormat p format c;
    v ← vset v i p;
    Ok (v, c)) (v, c).

(** [for (l = lo; l < digitsG2; ++l) temp += dct\[l\] * ev\[l\]\[col\]] *)
Definition accumulate_products (lo digitsG2 : nat) (dct : list PolyImpl) (ev : RingGSWEvalKeyImpl) (col : nat)
    (temp : PolyImpl) : outcome PolyImpl :=
  for_range lo digitsG2 (fun l temp =>
    d ← vget dct l;
    e ← vget2 ev l col;
    p ← Times d e;
    PlusEq temp p) temp.

(** The same with [dct\[l\] *= ev\[l\]\[col\]], which leaves the products in [dct]. *)
Definition accumulate_in_place (lo digitsG2 : nat) (dct : list PolyImpl) (ev : RingGSWEvalKeyImpl) (col : nat)
    (temp : PolyImpl) : outcome (list PolyImpl * PolyImpl) :=
  for_range lo digitsG2 (fun l '(dct, temp) =>
    d ← vget dct l;
    e ← vget2 ev l col;
    p ← TimesEq d e;
    dct ← vset dct l p;
    temp ← PlusEq temp p;
    Ok (dct, temp)) (dct, temp).

(** ** The Ducas-Micciancio accumulator *)

(** [m] is signed and [q] unsigned: [m % q] is the remainder of [m] modulo 2^64. *)
Definition KeyGenDM (params : RingGSWCryptoParams) (skNTT : PolyImpl) (m : Z) (U E : nat -> NativeVectorT)
    (c : FTTCache) : outcome (RingGSWEvalKeyImpl * FTTCache) :=
  let q := Getq params in
  let N := GetN params in
  let digitsG2 := Z.to_nat (u32 (GetDigitsG params * 2)) in
  t ← umod (u64 m) q;
  t ← umod (u64 (t + q)) q;
  factor ← udiv (u32 (2 * N)) q;
  let mm := i64 (u64 (t * factor)) in
  let isReducedMM := mm >=? N in
  let mm := if isReducedMM then mm - N else mm in
  '(tempA, result, c) ← sample_rows params digitsG2 U E c;
  result ← add_gadget (if isReducedMM then ModSubEq else ModAddEq) params (Z.to_nat mm) result;
  finish_rows digitsG2 skNTT tempA result c.

(** The message [s * j * digitsR\[k\]] of one key: [j] is a [size_t]. *)
Definition dm_message (mod_ modHalf svi : Z) (j : nat) (digit : Z) : outcome Z :=
  let s := i32 svi in
  s ← (if s >? modHalf then scheck32 (s - mod_) else Ok s);
  Ok (i64 (u64 (u64 (u64 s * Z.of_nat j) * u64 (i32 digit)))).

(** [KeyGenAcc]: the keys for [j = 0] stay null. [U i j k] and [E i j k] are what
    the call for [(i, j, k)] samples. *)
Definition KeyGenAccDM (params : RingGSWCryptoParams) (skNTT : PolyImpl) (LWEsk : NativeVectorT)
    (U E : nat -> nat -> nat -> nat -> NativeVectorT) (c : FTTCache) : outcome (RingGSWACCKeyImpl * FTTCache) :=
  let sv := LWEsk in
  let mod_ := i32 (m_modulus sv) in
  let modHalf := Z.shiftr mod_ 1 in
  let baseR := Z.to_nat (GetBaseR params) in
  let digitsR := GetDigitsR params in
  let n := GetLength sv in
  let ek := repeat (repeat (repeat None (length digitsR)) baseR) n in
  for_range 0 n (fun i st =>
    for_range 1 baseR (fun j st =>
      for_range 0 (length digitsR) (fun k '(ek, c) =>
        svi ← vget (m_data sv) i;
        digit ← vget digitsR k;
        m ← dm_message mod_ modHalf svi j digit;
        '(key, c) ← KeyGenDM params skNTT m (U i j k) (E i j k) c;
        row ← vget ek i;
        row ← vset2 row j k (Some key);
        ek ← vset ek i row;
        Ok (ek, c)) st) st) (ek, c).

(** The products start with the second digit, on accumulators set to zero. *)
Definition AddToAccDM (params : RingGSWCryptoParams) (ek : RingGSWEvalKey) (acc : RLWECiphertextImpl) (c : FTTCache)
    : outcome (RLWECiphertextImpl * FTTCache) :=
  let digitsG2 := Z.to_nat (u32 (GetDigitsG params * 2)) in
  let ct := acc in
  dct ← zero_digits digitsG2 (GetPolyParams params);
  '(ct, c) ← set_formats 2 COEFFICIENT ct c;
  dct ← SignedDigitDecompose params ct dct;
  '(dct, c) ← set_formats digitsG2 EVALUATION dct c;
  ev ← deref ek;
  acc0 ← vget acc 0;
  acc0 ← SetValuesToZero acc0;
  acc0 ← accumulate_products 1 digitsG2 dct ev 0 acc0;
  acc ← vset acc 0 acc0;
  acc1 ← vget acc 1;
  acc1 ← SetValuesToZero acc1;
  '(_, acc1) ← accumulate_in_place 1 digitsG2 dct ev 1 acc1;
  acc ← vset acc 1 acc1;
  Ok (acc, c).

Definition EvalAccDM (params : RingGSWCryptoParams) (ek : RingGSWACCKeyImpl) (acc : RLWECiphertextImpl)
    (a : NativeVectorT) (c : FTTCache) : outcome (RLWECiphertextImpl * FTTCache) :=
  let baseR := GetBaseR params in
  let q := Getq params in
  for_range 0 (GetLength a) (fun i '(acc, c) =>
    ai ← vget (m_data a) i;
    aI ← ModSub q ai q;
    '(acc, c, _) ← for_range 0 (length (GetDigitsR params)) (fun k '(acc, c, aI) =>
      r ← Mod aI (wrap baseR);
      let a0 := u32 r in
      '(acc, c) ← (if negb (a0 =? 0) then
                     row ← vget ek i;
                     key ← vget2 row (Z.to_nat a0) k;
                     AddToAccDM params key acc c
                   else Ok (acc, c));
      aI ← DividedByEq aI (wrap baseR);
      Ok (acc, c, aI)) (acc, c, aI);
    Ok (acc, c)) (acc, c).

(** ** The CGGI accumulator *)

Definition KeyGenCGGI (params : RingGSWCryptoParams) (skNTT : PolyImpl) (m : Z) (U E : nat -> NativeVectorT)
    (c : FTTCache) : outcome (RingGSWEvalKeyImpl * FTTCache) :=
  let digitsG2 := Z.to_nat (u32 (GetDigitsG params * 2)) in
  '(tempA, result, c) ← sample_rows params digitsG2 U E c;
  result ← (if m >? 0 then add_gadget ModAddEq params 0 result else Ok result);
  finish_rows digitsG2 skNTT tempA result c.

(** The messages of the two keys of a ternary coefficient. *)
Definition ternary_messages (mod_ modHalf svi : Z) : outcome (Z * Z) :=
  let s := i32 svi in
  s ← (if s >? modHalf then scheck32 (s - mod_) else Ok s);
  if s =? 0 then Ok (0, 0)
  else if s =? 1 then Ok (1, 0)
  else if s =? -1 then Ok (0, 1)
  else Throw not_implemented_error.

(** [U i b] and [E i b] are what the call for key [b] of coefficient [i] samples. *)
Definition KeyGenAccCGGI (params : RingGSWCryptoParams) (skNTT : PolyImpl) (LWEsk : NativeVectorT)
    (U E : nat -> nat -> nat -> NativeVectorT) (c : FTTCache) : outcome (RingGSWACCKeyImpl * FTTCache) :=
  let sv := LWEsk in
  let mod_ := i32 (m_modulus sv) in
  let modHalf := Z.shiftr mod_ 1 in
  let n := GetLength sv in
  let ek := repeat (repeat (repeat None n) 2) 1 in
  for_range 0 n (fun i '(ek, c) =>
    svi ← vget (m_data sv) i;
    '(m0, m1) ← ternary_messages mod_ modHalf svi;
    row ← vget ek 0;
    '(k0, c) ← KeyGenCGGI params skNTT m0 (U i 0%nat) (E i 0%nat) c;
    row ← vset2 row 0 i (Some k0);
    '(k1, c) ← KeyGenCGGI params skNTT m1 (U i 1%nat) (E i 1%nat) c;
    row ← vset2 row 1 i (Some k1);
    ek ← vset ek 0 row;
    Ok (ek, c)) (ek, c).

(** The reads of a trace: 1024 values of a polynomial. *)
Definition trace_poly (p : PolyImpl) : outcome unit :=
  for_range 0 1024 (fun i _ => _ ← index p i; Ok tt) tt.

(** The first eight polynomials, and the first eight rows of a key. *)
Definition trace_digits (dct : list PolyImpl) : outcome unit :=
  for_range 0 8 (fun j _ => p ← vget dct j; trace_poly p) tt.
Definition trace_key (ev : RingGSWEvalKeyImpl) : outcome unit :=
  for_range 0 8 (fun j _ => p ← vget2 ev j 0; _ ← trace_poly p; p ← vget2 ev j 1; trace_poly p) tt.

(** [temp(dct\[0\] * ev\[0\]\[col\])], the sum over the other digits, its trace and
    its product by the monomial. *)
Definition external_product (digitsG2 : nat) (dct : list PolyImpl) (ev : RingGSWEvalKeyImpl) (col : nat)
    (monomial : PolyImpl) : outcome PolyImpl :=
  d0 ← vget dct 0;
  e0 ← vget2 ev 0 col;
  temp ← Times d0 e0;
  temp ← accumulate_products 1 digitsG2 dct ev col temp;
  _ ← trace_poly temp;
  TimesEq temp monomial.

(** The last of them multiplies the digits in place. *)
Definition external_product_in_place (digitsG2 : nat) (dct : list PolyImpl) (ev : RingGSWEvalKeyImpl) (col : nat)
    (monomial : PolyImpl) : outcome PolyImpl :=
  d0 ← vget dct 0;
  e0 ← vget2 ev 0 col;
  temp ← Times d0 e0;
  '(_, temp) ← accumulate_in_place 1 digitsG2 dct ev col temp;
  _ ← trace_poly temp;
  TimesEq temp monomial.

(** The indices of the two monomials. *)
Definition monomial_indices (N a : Z) : outcome (Z * Z) :=
  let MInt := u32 (2 * N) in
  let M := wrap MInt in
  aNeg ← ModSub M a M;
  let indexPos := a in
  let indexNeg := aNeg in
  let indexPos := if indexPos =? MInt then 0 else indexPos in
  let indexNeg := if indexNeg =? MInt then 0 else indexNeg in
  Ok (u32 indexPos, u32 indexNeg).

Definition AddToAccCGGI (params : RingGSWCryptoParams) (ek1 ek2 : RingGSWEvalKey) (a : Z) (acc : RLWECiphertextImpl)
    (c : FTTCache) : outcome (RLWECiphertextImpl * FTTCache) :=
  let digitsG2 := Z.to_nat (u32 (GetDigitsG params * 2)) in
  let ct := acc in
  dct ← zero_digits digitsG2 (GetPolyParams params);
  '(ct, c) ← set_formats 2 COEFFICIENT ct c;
  ct0 ← vget ct 0;
  _ ← trace_poly ct0;
  ct1 ← vget ct 1;
  _ ← trace_poly ct1;
  dct ← SignedDigitDecompose params ct dct;
  _ ← trace_digits dct;
  '(dct, c) ← set_formats digitsG2 EVALUATION dct c;
  _ ← trace_digits dct;
  '(indexPos, indexNeg) ← monomial_indices (GetN params) a;
  monomial ← GetMonomial params indexPos;
  monomialNeg ← GetMonomial params indexNeg;
  _ ← trace_poly monomial;
  _ ← trace_poly monomialNeg;
  ev1 ← deref ek1;
  _ ← trace_key ev1;
  acc_inc_a ← external_product digitsG2 dct ev1 0 monomial;
  acc_inc_b ← external_product digitsG2 dct ev1 1 monomial;
  ev2 ← deref ek2;
  _ ← trace_key ev2;
  t ← external_product digitsG2 dct ev2 0 monomialNeg;
  acc_inc_a ← PlusEq acc_inc_a t;
  t ← external_product_in_place digitsG2 dct ev2 1 monomialNeg;
  acc_inc_b ← PlusEq acc_inc_b t;
  _ ← trace_poly acc_inc_a;
  _ ← trace_poly acc_inc_b;
  acc0 ← vget acc 0;
  acc0 ← PlusEq acc0 acc_inc_a;
  acc ← vset acc 0 acc0;
  acc1 ← vget acc 1;
  acc1 ← PlusEq acc1 acc_inc_b;
  acc ← vset acc 1 acc1;
  Ok (acc, c).

(** The index is the product of [mod - a\[i\]] and the [uint32_t] [M / modInt]. *)
Definition EvalAccCGGI (params : RingGSWCryptoParams) (ek : RingGSWACCKeyImpl) (acc : RLWECiphertextImpl)
    (a : NativeVectorT) (c : FTTCache) : outcome (RLWECiphertextImpl * FTTCache) :=
  let mod_ := m_modulus a in
  let M := u32 (2 * GetN params) in
  let modInt := u32 mod_ in
  for_range 0 (GetLength a) (fun i '(acc, c) =>
    row ← vget ek 0;
    key1 ← vget2 row 0 i;
    key2 ← vget2 row 1 i;
    ai ← vget (m_data a) i;
    aNeg ← ModSub mod_ ai mod_;
    factor ← udiv M modInt;
    AddToAccCGGI params key1 key2 (Mul aNeg factor) acc c) (acc, c).
End Definitions.
