(* ===== verification/RgswDigits.v ===== *)
(** * Signed digits

    [SignedDigitDecompose] writes the centered coefficients of two ring elements in
    base [2 ^ g] with digits in [\[-2^(g-1), 2^(g-1))]. The digits recompose the
    coefficient up to a last carry, zero or one, at position [digitsG]. *)
From stdpp Require Import base numbers list gmap.
From Stdlib Require Import ZArith Lia.
From S2P Require Import Prelude Bits NativeInt NativeIntProps NativeVector Ntt NttProps FttProps NbTheory AutoProps Poly PolyProps PolyAutoProps PolyDigitProps PolyAlg Rgsw.
Open Scope Z_scope.

(** ** Integers *)

Section Integers.
Context (g : Z) (Hg : 1 <= g).

Definition half_base : Z := 2 ^ (g - 1).

Lemma base_half : 2 ^ g = 2 * half_base.
Proof. unfold half_base. rewrite <- Z.pow_succ_r by lia. f_equal. lia. Qed.

Lemma half_base_pos : 0 < half_base.
Proof. unfold half_base. apply pow2_pos. lia. Qed.

(** The digit of [d], and the rest. *)
Definition srem (d : Z) : Z := (d + half_base) mod 2 ^ g - half_base.
Definition snext (d : Z) : Z := (d + half_base) / 2 ^ g.

Fixpoint srest (l : nat) (d : Z) : Z := match l with O => d | S l => snext (srest l d) end.
Definition sdigit (l : nat) (d : Z) : Z := srem (srest l d).

Lemma srem_range d : - half_base <= srem d < half_base.
Proof.
  pose proof half_base_pos. pose proof base_half. unfold srem.
  pose proof (mod_range (d + half_base) (2 ^ g) ltac:(lia)). lia.
Qed.

Lemma snext_eq d : d - srem d = 2 ^ g * snext d.
Proof.
  pose proof half_base_pos. pose proof base_half. unfold srem, snext.
  pose proof (Z.div_mod (d + half_base) (2 ^ g) ltac:(lia)). lia.
Qed.

Lemma sdigits_recompose d m :
  nsum (fun l => sdigit l d * (2 ^ g) ^ Z.of_nat l) m + (2 ^ g) ^ Z.of_nat m * srest m d = d.
Proof.
  induction m as [|m IH]; cbn [nsum srest]; [rewrite Z.pow_0_r; lia|].
  rewrite Nat2Z.inj_succ, Z.pow_succ_r by lia. unfold sdigit at 2. pose proof (snext_eq (srest m d)). nia.
Qed.

Lemma snext_bound d m : 1 <= m -> - 2 ^ (g * (m + 1)) <= 2 * d <= 2 ^ (g * (m + 1)) ->
  - 2 ^ (g * m) <= 2 * snext d <= 2 ^ (g * m).
Proof.
  intros Hm Hd. pose proof half_base_pos. pose proof base_half.
  rewrite Z.mul_add_distr_l, Z.pow_add_r, Z.mul_1_r in Hd by nia.
  assert (2 ^ (g * m) = 2 * 2 ^ (g * m - 1)) as E by (rewrite <- Z.pow_succ_r by nia; f_equal; lia).
  rewrite E in *. set (X := 2 ^ (g * m - 1)) in *. unfold snext.
  assert (- X <= (d + half_base) / 2 ^ g) by (apply Z.div_le_lower_bound; nia).
  assert ((d + half_base) / 2 ^ g < X + 1) by (apply Z.div_lt_upper_bound; nia). lia.
Qed.

(** Numbers of absolute value at most half of [B ^ m] leave a carry of 0 or 1. *)
Lemma srest_bound d m l : (l < m)%nat -> - 2 ^ (g * Z.of_nat m) <= 2 * d <= 2 ^ (g * Z.of_nat m) ->
  - 2 ^ (g * Z.of_nat (m - l)) <= 2 * srest l d <= 2 ^ (g * Z.of_nat (m - l)).
Proof.
  intros Hl Hd. induction l as [|l IH]; cbn [srest]; [by rewrite Nat.sub_0_r|].
  apply snext_bound; [lia|]. specialize (IH ltac:(lia)).
  replace (Z.of_nat (m - S l) + 1) with (Z.of_nat (m - l)) by lia. done.
Qed.

Lemma srest_carry d m : (1 <= m)%nat -> - 2 ^ (g * Z.of_nat m) <= 2 * d <= 2 ^ (g * Z.of_nat m) ->
  0 <= srest m d <= 1.
Proof.
  intros Hm Hd. destruct m as [|m]; [lia|]. pose proof (srest_bound d (S m) m ltac:(lia) Hd) as H. cbn [srest].
  replace (Z.of_nat (S m - m)) with 1 in H by lia. rewrite Z.mul_1_r in H.
  pose proof half_base_pos. pose proof base_half. unfold snext.
  assert (0 <= (srest m d + half_base) / 2 ^ g) by (apply Z.div_le_lower_bound; nia).
  assert ((srest m d + half_base) / 2 ^ g < 2) by (apply Z.div_lt_upper_bound; nia). lia.
Qed.

(** The largest number the digits reach: up to it there is no carry. *)
Definition digits_max (m : nat) : Z := nsum (fun l => (half_base - 1) * (2 ^ g) ^ Z.of_nat l) m.

Lemma srest_exact d m : (1 <= m)%nat -> - 2 ^ (g * Z.of_nat m) <= 2 * d <= 2 ^ (g * Z.of_nat m) ->
  d <= digits_max m -> srest m d = 0.
Proof.
  intros Hm Hd Hmax. pose proof (srest_carry d m Hm Hd). pose proof (sdigits_recompose d m) as E.
  destruct (Z.eq_dec (srest m d) 1) as [E1|]; [|lia]. exfalso. rewrite E1, <- Z.pow_mul_r in E by lia.
  assert (- nsum (fun l => half_base * (2 ^ g) ^ Z.of_nat l) m <= nsum (fun l => sdigit l d * (2 ^ g) ^ Z.of_nat l) m) as B.
  { clear - Hg. induction m as [|m IH]; cbn [nsum]; [lia|]. pose proof (srem_range (srest m d)). unfold sdigit at 2.
    pose proof (pow2_pos g ltac:(lia)). pose proof (Z.pow_pos_nonneg (2 ^ g) (Z.of_nat m) ltac:(lia) ltac:(lia)). nia. }
  assert (digits_max m + nsum (fun l => half_base * (2 ^ g) ^ Z.of_nat l) m = 2 ^ (g * Z.of_nat m) - 1) as G.
  { clear - Hg. unfold digits_max. induction m as [|m IH]; cbn [nsum]; [by rewrite Z.mul_0_r|].
    rewrite Z.pow_mul_r in IH |- * by lia. rewrite Nat2Z.inj_succ, Z.pow_succ_r by lia.
    pose proof base_half. nia. }
  lia.
Qed.
End Integers.

(** ** The machine steps *)

Section Machine.
Context `{W : NativeWidth}.
Context (g : Z) (Hg : 1 <= g < wbits).

Lemma to_signed_eq x : to_signed x = (x + 2 ^ (wbits - 1)) mod 2 ^ wbits - 2 ^ (wbits - 1).
Proof.
  pose proof word_half. pose proof word_pos. unfold to_signed, wrap. pose proof (mod_range x _ word_pos) as Hm.
  rewrite <- Z.add_mod_idemp_l by lia. set (y := x mod 2 ^ wbits) in *. destruct (Z.ltb_spec y (2 ^ (wbits - 1))).
  - rewrite Z.mod_small; lia.
  - rewrite <- (Z_mod_plus_full _ (-1)), Z.mod_small; lia.
Qed.

(** The two shifts keep the [g] low bits, with the sign of the highest. *)
Lemma shifts_srem d :
  (r ← sshl d (wbits - g); sshr r (wbits - g)) = Ok (srem g d).
Proof.
  unfold sshl, sshr. rewrite (proj2 (Z.leb_le 0 (wbits - g))), (proj2 (Z.ltb_lt (wbits - g) wbits)) by lia.
  cbn [andb]. rewrite bind_Ok. f_equal. rewrite Z.shiftl_mul_pow2, Z.shiftr_div_pow2, to_signed_eq by lia.
  assert (0 < 2 ^ (wbits - g)) by (apply pow2_pos; lia). pose proof (pow2_pos g ltac:(lia)).
  assert (2 ^ wbits = 2 ^ g * 2 ^ (wbits - g)) as E1 by (rewrite <- Z.pow_add_r by lia; f_equal; lia).
  assert (2 ^ (wbits - 1) = half_base g * 2 ^ (wbits - g)) as E2.
  { unfold half_base. rewrite <- Z.pow_add_r by lia. f_equal. lia. }
  rewrite E1, E2, <- Z.mul_add_distr_r, Z.mul_mod_distr_r by lia.
  rewrite <- Z.mul_sub_distr_r, Z.div_mul by lia. done.
Qed.

Lemma signed_digit_ok (q d : Z) :
  0 < q -> 2 * q <= 2 ^ (wbits - 1) -> 2 ^ g <= 2 * q -> - q <= d <= q -> half_base g <> q ->
  signed_digit g (wbits - g) (to_signed q) d = Ok (srem g d mod q, snext g d).
Proof.
  intros Hq Hw HB Hd Hne. pose proof (shifts_srem d) as E. unfold signed_digit.
  pose proof (srem_range g ltac:(lia) d). pose proof (base_half g ltac:(lia)). pose proof (half_base_pos g ltac:(lia)).
  destruct (sshl d (wbits - g)) as [r0| | |] eqn:E0; try done. rewrite bind_Ok in E. rewrite bind_Ok, E, bind_Ok.
  rewrite (scheck_ok (d - _)), bind_Ok by lia. unfold sshr at 1.
  rewrite (proj2 (Z.leb_le 0 g)), (proj2 (Z.ltb_lt g wbits)) by lia. cbn [andb]. rewrite bind_Ok.
  rewrite Z.shiftr_div_pow2, (snext_eq g ltac:(lia) d), Z.mul_comm, Z.div_mul by lia.
  rewrite to_signed_small by lia. destruct (Z.ltb_spec (srem g d) 0).
  - rewrite scheck_ok, bind_Ok by lia. do 2 f_equal. rewrite <- (Z_mod_plus_full _ 1), Z.mod_small; lia.
  - rewrite bind_Ok. do 2 f_equal. rewrite Z.mod_small; lia.
Qed.
End Machine.

(** ** The loops *)

(** What the accumulators require of the parameters: the ring is that of the
    transform, the base is a power of two below [2 q], the digits cover the modulus
    and the gadget is the powers of the base. *)
Record gsw_params `{W : NativeWidth} (q psi : Z) (k : nat) (g : Z) (dg : nat) (params : RingGSWCryptoParams) : Prop := {
  gp_N : GetN params = 2 ^ Z.of_nat k;
  gp_Q : GetQ params = q;
  gp_base : GetBaseG params = 2 ^ g;
  gp_digits : GetDigitsG params = Z.of_nat dg;
  gp_ring : ring_params q psi k (GetPolyParams params);
  gp_gadget : GetGPower params = map (fun i => (2 ^ g) ^ Z.of_nat i mod q) (seq 0 dg);
  gp_g : 1 <= g;
  gp_small : 2 ^ g < 2 * q;
  gp_dg : 1 <= Z.of_nat dg < 2 ^ 31;
  gp_cover : q < 2 ^ (g * Z.of_nat dg)
}.

(** The representative between [- q / 2] and [q / 2]. *)
Definition center (q x : Z) : Z := if x <? q / 2 then x else x - q.

(** The polynomial of the digits at position [l]. *)
Definition sdigit_poly (q g : Z) (l : nat) (f : list Z) : list Z := map (fun x => sdigit g l (center q x) mod q) f.

Definition coeff_poly (q : Z) (pr : ILParams) (f : list Z) : PolyImpl := mkPoly (Some (mkVector f q)) COEFFICIENT pr.

(** [m] polynomials of [n] coefficients, given by their entries. *)
Definition poly_table (q : Z) (pr : ILParams) (m n : nat) (F : nat -> nat -> Z) : list PolyImpl :=
  map (fun i => coeff_poly q pr (map (F i) (seq 0 n))) (seq 0 m).

Lemma poly_table_ext q pr m n F G :
  (forall i j, (i < m)%nat -> (j < n)%nat -> F i j = G i j) -> poly_table q pr m n F = poly_table q pr m n G.
Proof.
  intros H. apply map_ext_in. intros i Hi%in_seq. f_equal. apply map_ext_in. intros j Hj%in_seq. apply H; lia.
Qed.

Lemma map_seq_lookup {A} (h : nat -> A) n i : (i < n)%nat -> map h (seq 0 n) !! i = Some (h i).
Proof. intros Hi. rewrite list_lookup_fmap. by rewrite lookup_seq_lt by done. Qed.

Lemma map_seq_insert {A} (h : nat -> A) n i x :
  (i < n)%nat -> <[i := x]> (map h (seq 0 n)) = map (fun j => if (j =? i)%nat then x else h j) (seq 0 n).
Proof.
  intros Hi. apply list_eq. intros j. destruct (decide (j < n)%nat).
  - rewrite map_seq_lookup by done. destruct (Nat.eqb_spec j i) as [->|].
    + apply list_lookup_insert_eq. by rewrite length_map, length_seq.
    + by rewrite list_lookup_insert_ne, map_seq_lookup by done.
  - rewrite !lookup_ge_None_2; [done | |]; rewrite ?length_insert, length_map, length_seq; lia.
Qed.

Lemma index_at d m F pr i x : d !! i = Some x -> index (mkPoly (Some (mkVector d m)) F pr) i = Ok x.
Proof. apply vget_Some. Qed.

Lemma set_index_at d m F pr i x : (i < length d)%nat ->
  set_index (mkPoly (Some (mkVector d m)) F pr) i x = Ok (mkPoly (Some (mkVector (<[i := x]> d) m)) F pr).
Proof.
  intros Hi. unfold set_index. cbn [m_values deref]. rewrite bind_Ok. cbn [m_data m_modulus].
  by rewrite vset_lt, bind_Ok by done.
Qed.

Section Loops.
Context `{W : NativeWidth}.
Context (q psi : Z) (k : nat) (Hr : root_ok q psi k).

Lemma modulus_word : 0 < q /\ 2 * q <= 2 ^ (wbits - 1) /\ 2 ^ wbits = 2 * 2 ^ (wbits - 1).
Proof.
  assert (vec_wf (mkVector [] q)) as Hv by (pose proof (modulus_pos q psi k Hr); split; [simpl; lia | apply Hr | constructor]).
  apply (wf_word _ Hv).
Qed.

Lemma add_entry_table pr m n F i j r :
  (i < m)%nat -> (j < n)%nat ->
  add_entry (poly_table q pr m n F) i j r
  = Ok (poly_table q pr m n (fun i' j' => if (i' =? i)%nat && (j' =? j)%nat then AddEq (F i j) (wrap r) else F i' j')).
Proof.
  intros Hi Hj. unfold add_entry, poly_table. rewrite (vget_Some _ _ _ (map_seq_lookup _ _ _ Hi)), bind_Ok.
  unfold coeff_poly. rewrite (index_at _ _ _ _ _ _ (map_seq_lookup _ _ _ Hj)), bind_Ok.
  rewrite set_index_at, bind_Ok, map_seq_insert by (rewrite ?length_map, ?length_seq; done).
  rewrite vset_lt by (by rewrite length_map, length_seq). rewrite map_seq_insert by done. f_equal.
  apply map_ext. intros i'. destruct (Nat.eqb_spec i' i) as [->|]; [|done]. done.
Qed.

Context (g : Z) (dg : nat) (params : RingGSWCryptoParams) (Hp : gsw_params q psi k g dg params).
Context (f0 f1 : list Z) (Hf0 : ring_elem q k f0) (Hf1 : ring_elem q k f1).
Abbreviation pr := (GetPolyParams params).
Abbreviation n := (2 ^ k)%nat.

Definition input_coeffs (j : nat) : list Z := if (j =? 0)%nat then f0 else f1.
Definition digit_entry (i j : nat) : Z := sdigit g (i / 2) (center q (input_coeffs (i mod 2) !!! j)) mod q.

(** Whether entry [j] of polynomial [i] is written when the loops are at
    [(jj, kk, l)]. *)
Definition written (jj kk l i j : nat) : bool :=
  (i mod 2 <? jj)%nat ||
  (i mod 2 =? jj)%nat && ((j <? kk)%nat || (j =? kk)%nat && (i / 2 <? l)%nat).

Definition digits_at (jj kk l : nat) : list PolyImpl :=
  poly_table q pr (2 * dg) n (fun i j => if written jj kk l i j then digit_entry i j else 0).

Lemma center_range x : 0 <= x < q -> - (q + 1) <= 2 * center q x <= q.
Proof.
  intros Hx. unfold center. pose proof (Z.div_mod q 2 ltac:(lia)). pose proof (mod_range q 2 ltac:(lia)).
  destruct (Z.ltb_spec x (q / 2)); lia.
Qed.

Lemma input_elem j : ring_elem q k (input_coeffs j).
Proof. unfold input_coeffs. by destruct (_ =? _)%nat. Qed.

Lemma input_center jj j : (j < n)%nat -> - (q + 1) <= 2 * center q (input_coeffs jj !!! j) <= q.
Proof. intros Hj. destruct (input_elem jj) as [Hl Hd]. apply center_range, reduced_at; [done | lia]. Qed.

Lemma bits_lt_word : g < wbits.
Proof.
  destruct modulus_word as (H1 & H2 & H3). pose proof (gp_small _ _ _ _ _ _ Hp). pose proof (gp_g _ _ _ _ _ _ Hp).
  pose proof wbits_range. apply (Z.pow_lt_mono_r_iff 2); lia.
Qed.

(** The rests stay in the range where the steps are exact. *)
Lemma rest_range l d : (l <= dg)%nat -> - (q + 1) <= 2 * d <= q -> - q <= srest g l d <= q.
Proof.
  intros Hl Hd. pose proof (gp_g _ _ _ _ _ _ Hp). pose proof modulus_word.
  pose proof (modulus_pos q psi k Hr). induction l as [|l IH]; cbn [srest]; [lia|]. specialize (IH ltac:(lia)).
  pose proof (snext_eq g ltac:(lia) (srest g l d)). pose proof (srem_range g ltac:(lia) (srest g l d)).
  pose proof (base_half g ltac:(lia)). pose proof (half_base_pos g ltac:(lia)). nia.
Qed.

Lemma digit_turn jj kk l :
  (jj < 2)%nat -> (kk < n)%nat -> (l < dg)%nat ->
  ('(r, d) ← signed_digit g (MaxBits - g) (to_signed q) (srest g l (center q (input_coeffs jj !!! kk)));
   output ← add_entry (digits_at jj kk l) (jj + 2 * l) kk r; Ok (output, d))
  = Ok (digits_at jj kk (S l), srest g (S l) (center q (input_coeffs jj !!! kk))).
Proof.
  intros Hj Hk Hl. pose proof modulus_word as (H1 & H2 & H3). pose proof bits_lt_word.
  pose proof (gp_g _ _ _ _ _ _ Hp). pose proof (gp_small _ _ _ _ _ _ Hp). pose proof (base_half g ltac:(lia)).
  rewrite signed_digit_ok, bind_Ok by (lia || (apply rest_range; [lia | by apply input_center])).
  unfold digits_at. rewrite add_entry_table, bind_Ok by lia. do 2 f_equal. apply poly_table_ext. intros i j Hi Hlt.
  assert ((jj + 2 * l) mod 2 = jj /\ (jj + 2 * l) / 2 = l)%nat as [E1 E2].
  { split; [symmetry; apply (Nat.mod_unique _ 2 l); lia | symmetry; apply (Nat.div_unique _ 2 l jj); lia]. }
  pose proof (mod_range (srem g (srest g l (center q (input_coeffs jj !!! kk)))) q H1).
  destruct (Nat.eqb_spec i (jj + 2 * l)) as [->|Hne]; cbn [andb].
  - unfold written. rewrite E1, E2, !Nat.ltb_irrefl, Nat.eqb_refl. cbn [orb andb].
    destruct (Nat.eqb_spec j kk) as [->|Hne].
    + rewrite Nat.ltb_irrefl, (proj2 (Nat.ltb_lt l (S l))) by lia. cbn [orb andb].
      unfold AddEq, AddEqFast, digit_entry. rewrite E1, E2, andb_false_r, Z.add_0_l. by rewrite (wrap_small (_ mod q)), wrap_small by lia.
    + cbn [andb]. done.
  - unfold written. destruct (Nat.eqb_spec (i mod 2) jj) as [E|]; [|done]. cbn [andb].
    assert (i / 2 <> l)%nat. { intros <-. apply Hne. rewrite <- E. rewrite (Nat.div_mod_eq i 2) at 1. lia. }
    destruct (Nat.ltb_spec (i / 2) l), (Nat.ltb_spec (i / 2) (S l)); try done; lia.
Qed.

Lemma digits_next_k jj kk : (jj < 2)%nat -> (kk < n)%nat -> digits_at jj kk dg = digits_at jj (S kk) 0.
Proof.
  intros Hj Hk. apply poly_table_ext. intros i j Hi Hlt. unfold written.
  assert (i / 2 < dg)%nat by (apply Nat.Div0.div_lt_upper_bound; lia).
  rewrite (proj2 (Nat.ltb_lt (i / 2) dg)), andb_true_r by done. change (i / 2 <? 0)%nat with false.
  rewrite andb_false_r, orb_false_r.
  replace ((j <? kk) || (j =? kk))%nat with (j <? S kk)%nat; [done|].
  destruct (Nat.ltb_spec j kk), (Nat.eqb_spec j kk), (Nat.ltb_spec j (S kk)); try done; lia.
Qed.

Lemma digits_next_j jj : (jj < 2)%nat -> digits_at jj n 0 = digits_at (S jj) 0 0.
Proof.
  intros Hj. apply poly_table_ext. intros i j Hi Hlt. unfold written.
  rewrite (proj2 (Nat.ltb_lt j n)) by done. change (i / 2 <? 0)%nat with false. change (j <? 0)%nat with false.
  rewrite !andb_false_r. cbn [orb]. rewrite ?andb_false_r, andb_true_r, ?orb_false_r.
  destruct (Nat.ltb_spec (i mod 2) jj), (Nat.eqb_spec (i mod 2) jj), (Nat.ltb_spec (i mod 2) (S jj)); try done; lia.
Qed.

Context (p0 p1 : PolyImpl) (D0 : denotes q psi k p0 f0) (D1 : denotes q psi k p1 f1).
Context (F0 : m_format p0 = COEFFICIENT) (F1 : m_format p1 = COEFFICIENT).

Lemma denotes_index p f i : denotes q psi k p f -> m_format p = COEFFICIENT -> (i < n)%nat -> index p i = Ok (f !!! i).
Proof.
  intros H HF Hi. unfold index. rewrite (denotes_deref q psi k p f H), bind_Ok, HF. cbn [values_in m_data].
  apply vget_Some, list_lookup_lookup_total_lt. destruct (dn_elem _ _ _ _ _ H). lia.
Qed.

Lemma input_index jj kk : (jj < 2)%nat -> (kk < n)%nat ->
  (p ← vget [p0; p1] jj; index p kk) = Ok (input_coeffs jj !!! kk).
Proof.
  intros Hj Hk. unfold input_coeffs. destruct jj as [|[|]]; [| |lia]; cbn [Nat.eqb]; by apply denotes_index.
Qed.

Lemma center_ok x : 0 <= x < q ->
  (if x <? q / 2 then Ok (to_signed x) else scheck (to_signed x - to_signed q)) = Ok (center q x).
Proof.
  intros Hx. pose proof modulus_word as (H1 & H2 & H3). unfold center. rewrite !to_signed_small by lia.
  destruct (x <? q / 2); [done|]. apply scheck_ok. lia.
Qed.

(** The digits of the two ring elements, in turn. *)
Lemma SignedDigitDecompose_ok :
  SignedDigitDecompose params [p0; p1] (poly_table q pr (2 * dg) n (fun _ _ => 0))
  = Ok (map (fun i => coeff_poly q pr (sdigit_poly q g (i / 2) (input_coeffs (i mod 2)))) (seq 0 (2 * dg))).
Proof.
  unfold SignedDigitDecompose. pose proof modulus_word as (H1 & H2 & H3). pose proof bits_lt_word.
  pose proof (gp_g _ _ _ _ _ _ Hp). pose proof (gp_small _ _ _ _ _ _ Hp).
  rewrite (gp_Q _ _ _ _ _ _ Hp), RShift_half, bind_Ok, (gp_base _ _ _ _ _ _ Hp), (gp_digits _ _ _ _ _ _ Hp), (gp_N _ _ _ _ _ _ Hp).
  rewrite <- (pow2_nat_Z k), !Nat2Z.id. pose proof (pow2_pos g ltac:(lia)).
  rewrite (to_signed_small (2 ^ g)), Z.log2_pow2 by lia.
  transitivity (Ok (digits_at 2 0 0)).
  - replace (poly_table _ _ _ _ _) with (digits_at 0 0 0).
    { apply (for_range_exact (fun jj => digits_at jj 0 0)); [lia|]. intros jj Hj. rewrite <- digits_next_j by lia.
      apply (for_range_exact (fun kk => digits_at jj kk 0)); [lia|]. intros kk Hk. rewrite <- digits_next_k by lia.
      pose proof (input_index jj kk ltac:(lia) ltac:(lia)) as Ei. destruct (vget [p0; p1] jj) as [p| | |]; try done.
      rewrite bind_Ok in Ei. rewrite bind_Ok, Ei, bind_Ok. destruct (input_elem jj) as [Hl Hd].
      rewrite center_ok, bind_Ok by (apply reduced_at; [done | lia]).
      set (d := center q (input_coeffs jj !!! kk)). change (digits_at jj kk 0, d) with (digits_at jj kk 0, srest g 0 d).
      rewrite (for_range_exact (fun l => (digits_at jj kk l, srest g l d))); [done | lia |].
      intros l Hl'. apply digit_turn; lia. }
    apply poly_table_ext. intros i j _ _. unfold written. by rewrite !andb_false_r.
  - f_equal. unfold digits_at, poly_table. apply map_ext_in. intros i Hi%in_seq. f_equal.
    destruct (input_elem (i mod 2)) as [Hl Hd].
    apply (ring_elem_eq k); [by rewrite length_map, length_seq | by unfold sdigit_poly; rewrite length_map |].
    intros j Hj. rewrite map_seq_at by done. unfold sdigit_poly. rewrite fmap_at by lia. unfold written.
    pose proof (Nat.mod_upper_bound i 2 ltac:(lia)). by rewrite (proj2 (Nat.ltb_lt _ 2)) by done.
Qed.
End Loops.

(** ** The digits of a ring element *)

Section Digits.
Context `{W : NativeWidth}.
Context (q psi : Z) (k : nat) (Hr : root_ok q psi k).
Context (g : Z) (dg : nat) (params : RingGSWCryptoParams) (Hp : gsw_params q psi k g dg params).
Abbreviation n := (2 ^ k)%nat.

(** What the digits leave: the carry at position [dg]. *)
Definition carry_poly (f : list Z) : list Z :=
  map (fun x => ((2 ^ g) ^ Z.of_nat dg * srest g dg (center q x)) mod q) f.

(** A bound on the carries. *)
Definition carries_below (kappa : Z) : Prop :=
  forall x, 0 <= x < q -> small q kappa ((2 ^ g) ^ Z.of_nat dg * srest g dg (center q x)).

Lemma sdigit_poly_elem l f : ring_elem q k f -> ring_elem q k (sdigit_poly q g l f).
Proof. apply (map_elem q psi k Hr (fun x => sdigit g l (center q x))). Qed.

Lemma carry_poly_elem f : ring_elem q k f -> ring_elem q k (carry_poly f).
Proof. apply (map_elem q psi k Hr (fun x => (2 ^ g) ^ Z.of_nat dg * srest g dg (center q x))). Qed.

Lemma sdigit_poly_near l f : near q (half_base g) (sdigit_poly q g l f).
Proof.
  apply Forall_map, Forall_true. intros x. apply (small_eqmod _ _ _ _ (eqmod_mod _ _)).
  pose proof (srem_range g (gp_g _ _ _ _ _ _ Hp) (srest g l (center q x))). eexists. split; [|done]. unfold sdigit. lia.
Qed.

Lemma carry_poly_near kappa f : carries_below kappa -> ring_elem q k f -> near q kappa (carry_poly f).
Proof.
  intros Hk [_ Hf]. apply Forall_map. eapply Forall_impl; [exact Hf|]. intros x Hx.
  apply (small_eqmod _ _ _ _ (eqmod_mod _ _)). by apply Hk.
Qed.

Lemma psum_at F m r : (forall l, (l < m)%nat -> length (F l) = n) -> (r < n)%nat ->
  length (psum q k F m) = n /\ psum q k F m !!! r ==[q] nsum (fun l => F l !!! r) m.
Proof.
  intros H Hlt. induction m as [|m IH]; cbn [psum nsum].
  - split; [apply repeat_length|]. by rewrite zero_at.
  - destruct IH as [E1 E2]; [intros; apply H; lia|]. pose proof (H m ltac:(lia)). unfold padd.
    split; [rewrite length_zip_with; lia|]. rewrite zip_with_at by lia. by rewrite eqmod_mod, E2.
Qed.

(** The digits times the powers of the base: the polynomial without the carries. *)
Lemma digits_gadget f : ring_elem q k f ->
  psum q k (fun l => pscale q ((2 ^ g) ^ Z.of_nat l mod q) (sdigit_poly q g l f)) dg = psub q f (carry_poly f).
Proof.
  intros Hf. pose proof (modulus_pos q psi k Hr).
  assert (forall l, ring_elem q k (pscale q ((2 ^ g) ^ Z.of_nat l mod q) (sdigit_poly q g l f))) as He.
  { intros l. apply (pscale_elem q psi k Hr), sdigit_poly_elem, Hf. }
  assert (ring_elem q k (psum q k (fun l => pscale q ((2 ^ g) ^ Z.of_nat l mod q) (sdigit_poly q g l f)) dg)) as [L1 R1].
  { apply (psum_elem q psi k Hr). done. }
  pose proof (psub_elem q psi k Hr f (carry_poly f) Hf (carry_poly_elem f Hf)) as [L2 R2]. pose proof Hf as [Lf Rf].
  apply (ring_elem_eq k); [done | done |]. intros r Hlt.
  apply (eqmod_small q); [apply reduced_at; [done | lia] | apply reduced_at; [done | lia] |].
  rewrite (proj2 (psum_at _ _ r ltac:(intros l _; apply He) Hlt)). unfold psub.
  rewrite zip_with_at by (rewrite ?(proj1 (carry_poly_elem f Hf)); lia). rewrite eqmod_mod.
  unfold carry_poly. rewrite fmap_at by lia. rewrite eqmod_mod.
  transitivity (nsum (fun l => sdigit g l (center q (f !!! r)) * (2 ^ g) ^ Z.of_nat l) dg).
  - apply nsum_eqmod. intros l _. unfold pscale, sdigit_poly. rewrite map_map, fmap_at by lia. by rewrite !eqmod_mod.
  - pose proof (sdigits_recompose g (gp_g _ _ _ _ _ _ Hp) (center q (f !!! r)) dg) as E.
    transitivity (center q (f !!! r) - (2 ^ g) ^ Z.of_nat dg * srest g dg (center q (f !!! r))).
    + apply eqmod_eq. lia.
    + apply eqmod_sub; [|done]. unfold center. destruct (_ <? _); [done|].
      rewrite <- (eqmod_multiple q (_ - q) 1). apply eqmod_eq. ring.
Qed.

Lemma center_covered x : 0 <= x < q ->
  - 2 ^ (g * Z.of_nat dg) <= 2 * center q x <= 2 ^ (g * Z.of_nat dg).
Proof.
  intros Hx. pose proof (center_range q x Hx). pose proof (gp_cover _ _ _ _ _ _ Hp). lia.
Qed.

(** The carries are zero or one, so one bound is that of the power itself. *)
Lemma carries_power kappa : 0 <= kappa -> small q kappa ((2 ^ g) ^ Z.of_nat dg) -> carries_below kappa.
Proof.
  intros H0 Hs x Hx. pose proof (gp_dg _ _ _ _ _ _ Hp).
  pose proof (srest_carry g (gp_g _ _ _ _ _ _ Hp) (center q x) dg ltac:(lia) (center_covered x Hx)) as Hc.
  destruct (Z.eq_dec (srest g dg (center q x)) 0) as [->|Hne]; [rewrite Z.mul_0_r; by apply small_0|].
  replace (srest g dg (center q x)) with 1 by lia. by rewrite Z.mul_1_r.
Qed.

(** There is none when the digits reach half of the modulus. *)
Lemma carries_none : q <= 2 * digits_max g dg + 1 -> carries_below 0.
Proof.
  intros Hm x Hx. pose proof (gp_dg _ _ _ _ _ _ Hp). pose proof (center_range q x Hx).
  rewrite (srest_exact g (gp_g _ _ _ _ _ _ Hp)); [rewrite Z.mul_0_r; by apply small_0 | lia | by apply center_covered |].
  assert (2 * center q x <= q - 1 \/ 2 * center q x = q) as [|E] by lia; [lia|].
  unfold center in E. pose proof (Z.div_mod q 2 ltac:(lia)). pose proof (mod_range q 2 ltac:(lia)).
  destruct (Z.ltb_spec x (q / 2)); lia.
Qed.
End Digits.
#[export] Hint Resolve sdigit_poly_elem carry_poly_elem : relem.
