(* ===== verification/RgswRing.v ===== *)
(** * RingGSW ciphertexts: the operations on ring elements

    A ring element in a format is determined by the polynomial it denotes ([repr]),
    so the loops of the accumulators are described by equations between lists of
    polynomials; only the tables of the transforms are left to a predicate. *)
From stdpp Require Import base numbers list gmap.
From Stdlib Require Import ZArith Lia.
From S2P Require Import Prelude Bits NativeInt NativeIntProps NativeVector Ntt NttProps FttProps NbTheory AutoProps Poly PolyProps PolyAutoProps PolyDigitProps PolyAlg Rgsw RgswDigits.
Open Scope Z_scope.

Lemma params_eqb_refl pr : params_eqb pr pr = true.
Proof. unfold params_eqb. by rewrite !Z.eqb_refl. Qed.

Lemma vget2_Some {A} (v : list (list A)) i j row x :
  v !! i = Some row -> row !! j = Some x -> vget2 v i j = Ok x.
Proof. intros H1 H2. unfold vget2. rewrite (vget_Some _ _ _ H1), bind_Ok. by apply vget_Some. Qed.

Lemma vset2_at {A} (v : list (list A)) i j row x :
  v !! i = Some row -> (j < length row)%nat -> vset2 v i j x = Ok (<[i := <[j := x]> row]> v).
Proof.
  intros H Hj. unfold vset2. rewrite (vget_Some _ _ _ H), bind_Ok, vset_lt, bind_Ok by done.
  apply vset_lt. by eapply lookup_lt_Some.
Qed.

Section Representation.
Context `{W : NativeWidth}.
Context (q psi : Z) (k : nat) (Hr : root_ok q psi k).
Context (af ai : NativeVectorT -> ILParams -> outcome NativeVectorT).
Context (pr : ILParams) (Hpr : ring_params q psi k pr).
Abbreviation elem := (ring_elem q k).

Definition repr (F : Format) (f : list Z) : PolyImpl := mkPoly (Some (mkVector (values_in q psi k F f) q)) F pr.

Lemma repr_denotes F f : elem f -> denotes q psi k (repr F f) f.
Proof. intros Hf. by apply denotes_intro. Qed.

Lemma denotes_repr p f : denotes q psi k p f -> m_params p = pr -> p = repr (m_format p) f.
Proof. intros [_ _ Hv] E. destruct p as [v F pr']. unfold repr. cbn in *. by subst. Qed.

Lemma SetFormat_repr F F' f c : elem f -> cache_for q psi k c ->
  returns (SetFormat af ai (repr F f) F' c) (fun '(r, c') => r = repr F' f /\ cache_for q psi k c').
Proof.
  intros Hf Hc. eapply returns_mono; [by apply (SetFormat_denotes q psi k Hr); [apply repr_denotes|]|].
  intros [r c'] (H1 & H2 & H3 & H4). split; [|done]. rewrite <- H2. by apply denotes_repr.
Qed.

Lemma Times_repr f h : elem f -> elem h ->
  Times (repr EVALUATION f) (repr EVALUATION h) = Ok (repr EVALUATION (negacyclic q f h)).
Proof.
  intros Hf Hh. unfold Times, both_evaluation. cbn [repr m_format m_params m_values].
  rewrite params_eqb_refl, bool_decide_eq_true_2 by done. cbn [negb andb deref values_in]. rewrite !bind_Ok.
  rewrite (mul_values q psi k Hr), bind_Ok, <- (ntt_mul q psi k Hr) by (done || by apply (ntt_elem q psi k Hr)). done.
Qed.

Lemma TimesEq_repr f h : elem f -> elem h ->
  TimesEq (repr EVALUATION f) (repr EVALUATION h) = Ok (repr EVALUATION (negacyclic q f h)).
Proof. apply Times_repr. Qed.

Lemma PlusEq_repr F f h : elem f -> elem h -> PlusEq (repr F f) (repr F h) = Ok (repr F (padd q f h)).
Proof.
  intros Hf Hh. unfold PlusEq. cbn [repr m_params m_values]. rewrite params_eqb_refl. cbn [negb deref].
  rewrite bind_Ok, (proj1 (add_sub_values q psi k Hr _ _ (values_elem q psi k Hr F f Hf) (values_elem q psi k Hr F h Hh))), bind_Ok.
  by rewrite <- (values_add q psi k Hr).
Qed.

Lemma zero_values F : values_in q psi k F (pzero k) = pzero k.
Proof.
  destruct F; [|done]. cbn [values_in]. pose proof (pzero_elem q psi k Hr) as [Hl Hd].
  apply (ntt_ext q psi k Hr); [done | | done]. intros i Hi. rewrite zero_at by done. unfold pzero. by rewrite peval_zero.
Qed.

Lemma SetValuesToZero_repr F f : SetValuesToZero (repr F f) = Ok (repr F (pzero k)).
Proof.
  unfold SetValuesToZero, GetModulus. cbn [repr m_params].
  rewrite (ring_length_params q psi k pr Hpr), (rp_modulus _ _ _ _ Hpr).
  rewrite NativeVectorT_new_ok, bind_Ok by apply Hr. unfold set_values, repr. cbn [m_format m_params].
  by rewrite zero_values.
Qed.

Lemma PolyImpl_new_repr F : PolyImpl_new pr F true = Ok (repr F (pzero k)).
Proof. apply (SetValuesToZero_repr F (pzero k)). Qed.

Lemma index_repr f i : (i < length f)%nat -> index (repr COEFFICIENT f) i = Ok (f !!! i).
Proof. intros Hi. by apply index_at, list_lookup_lookup_total_lt. Qed.

Lemma set_index_repr f i x : (i < length f)%nat -> set_index (repr COEFFICIENT f) i x = Ok (repr COEFFICIENT (<[i := x]> f)).
Proof. apply set_index_at. Qed.

(** Lists of ring elements given by their polynomials. *)
Definition reprs (m : nat) (Fs : nat -> Format) (h : nat -> list Z) : list PolyImpl :=
  map (fun i => repr (Fs i) (h i)) (seq 0 m).

Lemma reprs_at m Fs h i : (i < m)%nat -> reprs m Fs h !! i = Some (repr (Fs i) (h i)).
Proof. apply (map_seq_lookup (fun i => repr (Fs i) (h i))). Qed.

Lemma set_formats_reprs m F Fs h c :
  (forall i, (i < m)%nat -> elem (h i)) -> cache_for q psi k c ->
  returns (set_formats af ai m F (reprs m Fs h) c) (fun '(v, c') => v = reprs m (fun _ => F) h /\ cache_for q psi k c').
Proof.
  intros Hh Hc. unfold set_formats. eapply returns_mono.
  - apply (for_range_inv (fun j '(v, c') => v = reprs m (fun i => if (i <? j)%nat then F else Fs i) h /\ cache_for q psi k c'));
      [lia | done |].
    intros i [v c1] Hi [-> Hc1]. rewrite (vget_Some _ _ _ (reprs_at m _ _ i ltac:(lia))), bind_Ok.
    eapply returns_bind; [apply SetFormat_repr; [apply Hh; lia | done]|]. intros [p c2] [-> Hc2].
    rewrite vset_lt, bind_Ok by (unfold reprs; rewrite length_map, length_seq; lia). split; [|done].
    unfold reprs. rewrite map_seq_insert by lia. apply map_ext. intros j.
    destruct (Nat.eqb_spec j i) as [->|]; [by rewrite (proj2 (Nat.ltb_lt i (S i))) by lia|].
    destruct (Nat.ltb_spec j i), (Nat.ltb_spec j (S i)); try done; lia.
  - intros [v c'] [-> Hc']. split; [|done]. apply map_ext_in. intros i Hi%in_seq.
    by rewrite (proj2 (Nat.ltb_lt i m)) by lia.
Qed.

Lemma zero_digits_repr m : zero_digits m pr = Ok (reprs m (fun _ => COEFFICIENT) (fun _ => pzero k)).
Proof.
  unfold zero_digits, reprs. rewrite (vmapM_Ok _ (fun _ => repr COEFFICIENT (pzero k))); [done|].
  apply Forall_forall. intros. apply PolyImpl_new_repr.
Qed.

(** ** Rows of keys *)

Definition rows (m : nat) (F : Format) (A B : nat -> list Z) : RingGSWEvalKeyImpl :=
  map (fun l => [repr F (A l); repr F (B l)]) (seq 0 m).

Definition column (A B : nat -> list Z) (col : nat) : nat -> list Z := if (col =? 0)%nat then A else B.

Lemma rows_at m F A B l : (l < m)%nat -> rows m F A B !! l = Some [repr F (A l); repr F (B l)].
Proof. apply (map_seq_lookup (fun l => [repr F (A l); repr F (B l)])). Qed.

Lemma rows_get m F A B l col : (l < m)%nat -> (col < 2)%nat ->
  vget2 (rows m F A B) l col = Ok (repr F (column A B col l)).
Proof.
  intros Hl Hc. eapply vget2_Some; [by apply rows_at|]. destruct col as [|[|]]; [done | done | lia].
Qed.

Lemma rows_ext m F A B A' B' : (forall l, (l < m)%nat -> A l = A' l /\ B l = B' l) -> rows m F A B = rows m F A' B'.
Proof. intros H. apply map_ext_in. intros l Hl%in_seq. by destruct (H l ltac:(lia)) as [-> ->]. Qed.

(** [psum] of the products from [lo] on. *)
Definition products (D C : nat -> list Z) (lo m : nat) : list Z :=
  psum q k (fun i => negacyclic q (D (lo + i)%nat) (C (lo + i)%nat)) (m - lo).

Section Sums.
Context (m : nat) (D A B : nat -> list Z).
Context (HD : forall l, elem (D l)) (HA : forall l, elem (A l)) (HB : forall l, elem (B l)).

Lemma column_elem col l : elem (column A B col l).
Proof. unfold column. by destruct (_ =? _)%nat. Qed.

Lemma products_elem C lo n' : (forall l, elem (C l)) -> elem (products D C lo n').
Proof. intros HC. apply (psum_elem q psi k Hr). intros l _. by apply (negacyclic_elem q psi k Hr). Qed.

Lemma products_snoc C lo i t : elem t -> (forall l, elem (C l)) -> (lo <= i)%nat ->
  padd q (padd q t (products D C lo i)) (negacyclic q (D i) (C i)) = padd q t (products D C lo (S i)).
Proof.
  intros Ht HC Hi. pose proof (products_elem C lo i HC). unfold products.
  replace (S i - lo)%nat with (S (i - lo)) by lia. cbn [psum]. fold (products D C lo i).
  replace (lo + (i - lo))%nat with i by lia. ring_eq Hr.
Qed.

Lemma accumulate_products_repr lo col t : (lo <= m)%nat -> (col < 2)%nat -> elem t ->
  accumulate_products lo m (reprs m (fun _ => EVALUATION) D) (rows m EVALUATION A B) col (repr EVALUATION t)
  = Ok (repr EVALUATION (padd q t (products D (column A B col) lo m))).
Proof.
  intros Hlo Hc Ht. pose proof (column_elem col) as HC. unfold accumulate_products.
  replace (repr EVALUATION t) with (repr EVALUATION (padd q t (products D (column A B col) lo lo))).
  2: { unfold products. rewrite Nat.sub_diag. cbn [psum]. by rewrite (padd_0_r q psi k Hr). }
  apply (for_range_exact (fun l => repr EVALUATION (padd q t (products D (column A B col) lo l)))); [done|].
  intros l Hl. rewrite (vget_Some _ _ _ (reprs_at m _ _ l ltac:(lia))), bind_Ok, rows_get, bind_Ok by lia.
  rewrite Times_repr, bind_Ok by done. pose proof (products_elem (column A B col) lo l HC).
  rewrite PlusEq_repr by relem. do 2 f_equal. apply products_snoc; [done | done | lia].
Qed.

Lemma accumulate_in_place_repr lo col t : (lo <= m)%nat -> (col < 2)%nat -> elem t ->
  returns (accumulate_in_place lo m (reprs m (fun _ => EVALUATION) D) (rows m EVALUATION A B) col (repr EVALUATION t))
    (fun '(_, r) => r = repr EVALUATION (padd q t (products D (column A B col) lo m))).
Proof.
  intros Hlo Hc Ht. pose proof (column_elem col) as HC. unfold accumulate_in_place. eapply returns_mono.
  - apply (for_range_inv (fun l '(dct, r) =>
      (forall i, (l <= i < m)%nat -> dct !! i = Some (repr EVALUATION (D i))) /\ length dct = m /\
      r = repr EVALUATION (padd q t (products D (column A B col) lo l)))); [done | |].
    + split_and!; [intros; apply reprs_at; lia | unfold reprs; by rewrite length_map, length_seq |].
      unfold products. rewrite Nat.sub_diag. cbn [psum]. by rewrite (padd_0_r q psi k Hr).
    + intros l [dct r] Hl (H1 & H2 & ->). pose proof (products_elem (column A B col) lo l HC).
      rewrite (vget_Some _ _ _ (H1 l ltac:(lia))), bind_Ok, rows_get, bind_Ok by lia.
      rewrite TimesEq_repr, bind_Ok, vset_lt, bind_Ok, PlusEq_repr, bind_Ok by (done || lia || relem).
      split_and!; [intros i Hi; rewrite list_lookup_insert_ne by lia; apply H1; lia | by rewrite length_insert |].
      f_equal. apply products_snoc; [done | done | lia].
  - intros [dct r] (_ & _ & ->). done.
Qed.
End Sums.
End Representation.
