(* ===== verification/RgswKeys.v ===== *)
(** * RingGSW key generation

    [KeyGenDM] and [KeyGenCGGI] return RingGSW encryptions: the rows are encryptions
    under the secret key of the multiples of the message by the gadget and the key,
    with the sampled polynomials as errors. *)
From stdpp Require Import base numbers list gmap.
From Stdlib Require Import ZArith Lia.
From S2P Require Import Prelude Bits NativeInt NativeIntProps NativeVector Ntt NttProps FttProps NbTheory AutoProps Poly PolyProps PolyAutoProps PolyDigitProps PolyAlg Rgsw RgswDigits RgswRing.
Open Scope Z_scope.

Section Keys.
Context `{W : NativeWidth}.
Context (q psi : Z) (k : nat) (Hr : root_ok q psi k).
Context (af ai : NativeVectorT -> ILParams -> outcome NativeVectorT).
Context (g : Z) (dg : nat) (params : RingGSWCryptoParams) (Hp : gsw_params q psi k g dg params).
Abbreviation pr := (GetPolyParams params).
Abbreviation elem := (ring_elem q k).
Abbreviation n := (2 ^ k)%nat.

(** The element [l] of the gadget. *)
Definition gad (l : nat) : Z := (2 ^ g) ^ Z.of_nat (l / 2) mod q.

(** The noise-free phase of row [l] of an encryption of [M] under [s]. *)
Definition gadget_part (s M : list Z) (l : nat) : list Z :=
  if Nat.even l then psub q (pzero k) (pscale q (gad l) (negacyclic q M s)) else pscale q (gad l) M.

(** A RingGSW encryption of [M] with errors of at most [eps]. *)
Definition rgsw (s M : list Z) (eps : Z) (ek : RingGSWEvalKeyImpl) : Prop :=
  exists A B E, ek = rows q psi k pr (2 * dg) EVALUATION A B /\
    (forall l, elem (A l) /\ elem (B l) /\ elem (E l) /\ near q eps (E l)) /\
    (forall l, (l < 2 * dg)%nat -> phase q s (A l) (B l) = padd q (E l) (gadget_part s M l)).

(** ** Sampling *)

(** A sampled vector: its entries are reduced. *)
Definition sampled (v : NativeVectorT) : Prop := elem (m_data v).

Lemma PolyImpl_sampled_repr v c : sampled v ->
  PolyImpl_sampled af ai v pr COEFFICIENT c = Ok (repr q psi k pr COEFFICIENT (m_data v), c).
Proof.
  intros Hv. unfold PolyImpl_sampled. rewrite (rp_modulus _ _ _ _ (gp_ring _ _ _ _ _ _ Hp)).
  unfold SetModulus. rewrite Z.gtb_ltb, (proj2 (Z.ltb_ge _ _)) by apply Hr. rewrite bind_Ok. done.
Qed.

Lemma sample_rows_repr m U E c : (forall i, sampled (U i)) -> (forall i, sampled (E i)) ->
  sample_rows af ai params m U E c
  = Ok (reprs q psi k pr m (fun _ => COEFFICIENT) (fun i => m_data (U i)),
        rows q psi k pr m COEFFICIENT (fun i => m_data (U i)) (fun i => m_data (E i)), c).
Proof.
  intros HU HE. unfold sample_rows. apply (for_range_exact (fun j =>
    (reprs q psi k pr j (fun _ => COEFFICIENT) (fun i => m_data (U i)),
     rows q psi k pr j COEFFICIENT (fun i => m_data (U i)) (fun i => m_data (E i)), c))); [lia|].
  intros j _. rewrite PolyImpl_sampled_repr, bind_Ok by done. rewrite PolyImpl_sampled_repr, bind_Ok by done.
  unfold reprs, rows. by rewrite seq_S, !map_app.
Qed.

(** ** The gadget *)

(** [+ X^j] or [- X^j], as a ring element. *)
Definition signed_mono (sg : Z) (j : nat) (M : list Z) : Prop :=
  elem M /\ forall i, ev psi k i M ==[q] sg * point psi k i ^ Z.of_nat j.

Lemma insert_signed_mono sg j M gg f :
  signed_mono sg j M -> (j < n)%nat -> elem f ->
  <[j := (f !!! j + sg * gg) mod q]> f = padd q f (pscale q gg M).
Proof.
  intros [HM EM] Hj Hf. pose proof (modulus_pos q psi k Hr).
  apply (ev_eq q psi k Hr); [apply insert_elem; [done | apply mod_range; lia] | relem |]. intros i Hi.
  rewrite (ev_insert q) by done. ev_norm Hr. rewrite EM. rewrite (eqmod_mod q). apply eqmod_eq. ring.
Qed.

Lemma pmono_signed j : (j < n)%nat -> signed_mono 1 j (pmono q k (Z.of_nat j)) /\
  signed_mono (-1) j (pmono q k (Z.of_nat j + Z.of_nat n)).
Proof.
  intros Hj. split; (split; [relem|]); intros i; rewrite (ev_mono_pos q psi k Hr) by lia; [apply eqmod_eq; ring|].
  rewrite Z.pow_add_r by lia. rewrite (point_root q psi k Hr). apply eqmod_eq. ring.
Qed.

Lemma update_entry_rows m op A B i col j y :
  (i < m)%nat -> (col < 2)%nat -> (j < n)%nat -> (forall l, length (A l) = n) -> (forall l, length (B l) = n) ->
  op (column A B col i !!! j) = Ok y ->
  update_entry op (rows q psi k pr m COEFFICIENT A B) i col j
  = Ok (rows q psi k pr m COEFFICIENT
          (fun l => if (l =? i)%nat && (col =? 0)%nat then <[j := y]> (A l) else A l)
          (fun l => if (l =? i)%nat && (col =? 1)%nat then <[j := y]> (B l) else B l)).
Proof.
  intros Hi Hc Hj HA HB Hy. unfold update_entry. rewrite rows_get, bind_Ok by done.
  assert (length (column A B col i) = n) as Hl by (unfold column; destruct (_ =? _)%nat; done).
  rewrite index_repr, bind_Ok, Hy, bind_Ok, set_index_repr, bind_Ok by lia.
  erewrite vset2_at by (by apply rows_at || (simpl; lia)). f_equal. unfold rows. rewrite map_seq_insert by done.
  apply map_ext. intros l. destruct (Nat.eqb_spec l i) as [->|]; [|done].
  destruct col as [|[|]]; [done | done | lia].
Qed.

(** The rows with the multiples of [M] added: the even ones to the first column,
    the odd ones to the second. *)
Definition with_gadget (even : bool) (M : list Z) (i : nat) (A : nat -> list Z) (l : nat) : list Z :=
  if Bool.eqb (Nat.even l) even && (l / 2 <? i)%nat then padd q (A l) (pscale q (gad l) M) else A l.

Lemma with_gadget_elem even M i A l : elem M -> (forall l, elem (A l)) -> elem (with_gadget even M i A l).
Proof. intros HM HA. pose proof (HA l). unfold with_gadget. destruct (_ && _); relem. Qed.

Lemma gadget_at i : (i < dg)%nat -> vget (GetGPower params) i = Ok ((2 ^ g) ^ Z.of_nat i mod q).
Proof.
  intros Hi. rewrite (gp_gadget _ _ _ _ _ _ Hp). apply vget_Some.
  by apply (map_seq_lookup (fun i => (2 ^ g) ^ Z.of_nat i mod q)).
Qed.

Lemma half_2i i : (2 * i / 2 = i /\ (2 * i + 1) / 2 = i)%nat.
Proof. split; [rewrite Nat.mul_comm; by apply Nat.div_mul | symmetry; apply (Nat.div_unique _ 2 i 1); lia]. Qed.

(** What a column gains in one turn. *)
Lemma with_gadget_turn sg j M i A even l :
  signed_mono sg j M -> (j < n)%nat -> (forall l, elem (A l)) ->
  (if (l =? 2 * i + Nat.b2n (negb even))%nat
   then <[j := (with_gadget even M i A l !!! j + sg * ((2 ^ g) ^ Z.of_nat i mod q)) mod q]> (with_gadget even M i A l)
   else with_gadget even M i A l) = with_gadget even M (S i) A l.
Proof.
  intros HM Hj HA. destruct (half_2i i) as [E1 E2]. destruct (Nat.eqb_spec l (2 * i + Nat.b2n (negb even))) as [->|Hne].
  - assert (Nat.even (2 * i + Nat.b2n (negb even)) = even /\ ((2 * i + Nat.b2n (negb even)) / 2 = i)%nat) as [E3 E4].
    { destruct even; cbn [negb Nat.b2n]; rewrite ?Nat.add_0_r; split; try done;
        rewrite ?Nat.add_1_r, ?Nat.even_succ; [by rewrite Nat.even_even | rewrite <- Nat.negb_even; by rewrite Nat.even_even]. }
    unfold with_gadget, gad. rewrite E3, E4, Bool.eqb_reflx, Nat.ltb_irrefl, (proj2 (Nat.ltb_lt i (S i))) by lia.
    cbn [andb]. by apply insert_signed_mono.
  - unfold with_gadget. destruct (Bool.eqb (Nat.even l) even) eqn:Ee; [|done]. apply eqb_prop in Ee. cbn [andb].
    assert (l / 2 <> i)%nat as Hl.
    { intros <-. apply Hne. pose proof (Nat.div2_odd l) as D. rewrite Nat.div2_div in D. rewrite <- Ee, Nat.negb_even. lia. }
    destruct (Nat.ltb_spec (l / 2) i), (Nat.ltb_spec (l / 2) (S i)); try done; lia.
Qed.

Lemma add_gadget_rows op sg j M A B :
  (forall x y, 0 <= x < q -> 0 <= y < q -> op x y q = Ok ((x + sg * y) mod q)) ->
  signed_mono sg j M -> (j < n)%nat -> (forall l, elem (A l)) -> (forall l, elem (B l)) ->
  add_gadget op params j (rows q psi k pr (2 * dg) COEFFICIENT A B)
  = Ok (rows q psi k pr (2 * dg) COEFFICIENT (with_gadget true M dg A) (with_gadget false M dg B)).
Proof.
  intros Hop HM Hj HA HB. unfold add_gadget. rewrite (gp_digits _ _ _ _ _ _ Hp), Nat2Z.id, (gp_Q _ _ _ _ _ _ Hp).
  pose proof (modulus_pos q psi k Hr). pose proof HM as [EM _].
  replace (rows _ _ _ _ _ _ A B) with (rows q psi k pr (2 * dg) COEFFICIENT (with_gadget true M 0 A) (with_gadget false M 0 B)).
  2: { apply rows_ext. intros l _. unfold with_gadget. change (l / 2 <? 0)%nat with false. by rewrite !andb_false_r. }
  apply (for_range_exact (fun i => rows q psi k pr (2 * dg) COEFFICIENT (with_gadget true M i A) (with_gadget false M i B))); [lia|].
  intros i Hi. rewrite gadget_at, bind_Ok by lia.
  pose proof (fun l => with_gadget_elem true M i A l EM HA) as HA'. pose proof (fun l => with_gadget_elem false M i B l EM HB) as HB'.
  assert (forall C, elem C -> op (C !!! j) ((2 ^ g) ^ Z.of_nat i mod q) q
            = Ok ((C !!! j + sg * ((2 ^ g) ^ Z.of_nat i mod q)) mod q)) as Ho.
  { intros C [Hl Hd]. apply Hop; [apply reduced_at; [done | lia] | apply mod_range; lia]. }
  assert (forall y l, length (if (l =? 2 * i)%nat && (0 =? 0)%nat then <[j := y]> (with_gadget true M i A l) else with_gadget true M i A l) = n) as Hlen.
  { intros y l. destruct (_ && _); rewrite ?length_insert; apply HA'. }
  erewrite update_entry_rows, bind_Ok; [|lia | lia | done | intros; apply HA' | intros; apply HB' | apply (Ho (with_gadget true M i A (2 * i))), HA'].
  erewrite update_entry_rows; [|lia | lia | done | intros; apply Hlen | |]; cycle 1.
  { intros l. rewrite andb_false_r. apply HB'. }
  { cbn [column Nat.eqb]. rewrite andb_false_r. apply Ho, HB'. }
  f_equal. apply rows_ext. intros l Hl.
  change (0 =? 0)%nat with true. change (0 =? 1)%nat with false. change (1 =? 0)%nat with false. change (1 =? 1)%nat with true.
  rewrite !andb_true_r, !andb_false_r.
  split.
  - rewrite <- (with_gadget_turn sg j M i A true) by done. cbn [negb Nat.b2n]. rewrite Nat.add_0_r.
    by destruct (Nat.eqb_spec l (2 * i)) as [->|].
  - rewrite <- (with_gadget_turn sg j M i B false) by done. cbn [negb Nat.b2n].
    by destruct (Nat.eqb_spec l (2 * i + 1)) as [->|].
Qed.

(** ** The products by the secret key *)

(** Rows whose entries are in mixed formats. *)
Definition mixed_rows (m : nat) (Fs : nat -> nat -> Format) (A B : nat -> list Z) : RingGSWEvalKeyImpl :=
  map (fun l => [repr q psi k pr (Fs l 0%nat) (A l); repr q psi k pr (Fs l 1%nat) (B l)]) (seq 0 m).

Lemma mixed_rows_at m Fs A B l : (l < m)%nat ->
  mixed_rows m Fs A B !! l = Some [repr q psi k pr (Fs l 0%nat) (A l); repr q psi k pr (Fs l 1%nat) (B l)].
Proof. apply (map_seq_lookup (fun l => [repr q psi k pr (Fs l 0%nat) (A l); repr q psi k pr (Fs l 1%nat) (B l)])). Qed.

(** The formats when the loops are at row [i] and column [j]. *)
Definition switched (i j l col : nat) : Format :=
  if (l <? i)%nat || (l =? i)%nat && (col <? j)%nat then EVALUATION else COEFFICIENT.

Lemma switched_turn m A B i j : (i < m)%nat -> (j < 2)%nat ->
  vset2 (mixed_rows m (switched i j) A B) i j (repr q psi k pr EVALUATION (column A B j i))
  = Ok (mixed_rows m (switched i (S j)) A B).
Proof.
  intros Hi Hj. erewrite vset2_at by (by apply mixed_rows_at || (simpl; lia)). f_equal. unfold mixed_rows.
  rewrite map_seq_insert by done. apply map_ext. intros l. unfold switched. destruct (Nat.eqb_spec l i) as [->|]; [|done].
  rewrite Nat.ltb_irrefl, Nat.eqb_refl. destruct j as [|[|]]; [done | done | lia].
Qed.

Lemma EvalKey_SetFormat_rows m A B c :
  (1 <= m)%nat -> (forall l, elem (A l)) -> (forall l, elem (B l)) -> cache_for q psi k c ->
  returns (EvalKey_SetFormat af ai (rows q psi k pr m COEFFICIENT A B) EVALUATION c)
    (fun '(r, c') => r = rows q psi k pr m EVALUATION A B /\ cache_for q psi k c').
Proof.
  intros Hm HA HB Hc. unfold EvalKey_SetFormat.
  assert (length (rows q psi k pr m COEFFICIENT A B) = m) as -> by (unfold rows; by rewrite length_map, length_seq).
  eapply returns_mono; [apply (for_range_inv (fun i '(r, c') => r = mixed_rows m (switched i 0) A B /\ cache_for q psi k c'))|].
  - lia.
  - split; [|done]. apply map_ext. intros l. unfold switched. by rewrite !andb_false_r.
  - intros i [r c1] Hi [-> Hc1]. rewrite (vget_Some _ _ _ (mixed_rows_at m _ A B 0 ltac:(lia))), bind_Ok. cbn [length].
    eapply returns_mono; [apply (for_range_inv (fun j '(r, c') => r = mixed_rows m (switched i j) A B /\ cache_for q psi k c'));
      [lia | done |]|].
    + intros j [r c2] Hj [-> Hc2].
      assert (vget2 (mixed_rows m (switched i j) A B) i j = Ok (repr q psi k pr COEFFICIENT (column A B j i))) as ->.
      { eapply vget2_Some; [apply mixed_rows_at; lia|]. unfold switched. rewrite Nat.ltb_irrefl, Nat.eqb_refl.
        destruct j as [|[|]]; [done | done | lia]. }
      rewrite bind_Ok. eapply returns_bind; [apply (SetFormat_repr q psi k Hr af ai pr (gp_ring _ _ _ _ _ _ Hp)); [|done]|].
      { unfold column. by destruct (_ =? _)%nat. }
      intros [p c3] [-> Hc3]. rewrite switched_turn, bind_Ok by lia. done.
    + intros [r c2] [-> Hc2]. split; [|done]. apply map_ext. intros l. unfold switched.
      rewrite !andb_false_r, orb_false_r. change (0 <? 2)%nat with true. change (1 <? 2)%nat with true. rewrite andb_true_r.
      replace (l <? S i)%nat with ((l <? i)%nat || (l =? i)%nat); [done|].
      destruct (Nat.ltb_spec l i), (Nat.eqb_spec l i), (Nat.ltb_spec l (S i)); try done; lia.
  - intros [r c'] [-> Hc']. split; [|done]. apply map_ext_in. intros l Hl%in_seq. unfold switched.
    by rewrite (proj2 (Nat.ltb_lt l m)) by lia.
Qed.

Lemma finish_rows_repr m s T A B c :
  (1 <= m)%nat -> elem s -> (forall l, elem (T l)) -> (forall l, elem (A l)) -> (forall l, elem (B l)) -> cache_for q psi k c ->
  returns (finish_rows af ai m (repr q psi k pr EVALUATION s) (reprs q psi k pr m (fun _ => COEFFICIENT) T)
             (rows q psi k pr m COEFFICIENT A B) c)
    (fun '(r, c') => r = rows q psi k pr m EVALUATION A (fun l => padd q (B l) (negacyclic q (T l) s)) /\ cache_for q psi k c').
Proof.
  intros Hm Hs HT HA HB Hc. unfold finish_rows. pose proof (gp_ring _ _ _ _ _ _ Hp) as Hpr.
  eapply returns_bind; [by apply EvalKey_SetFormat_rows|]. intros [r c1] [-> Hc1].
  set (Bi := fun i l => if (l <? i)%nat then padd q (B l) (negacyclic q (T l) s) else B l).
  eapply returns_mono; [apply (for_range_inv (fun i '(r, c') => r = rows q psi k pr m EVALUATION A (Bi i) /\ cache_for q psi k c'))|].
  - lia.
  - done.
  - intros i [r c2] Hi [-> Hc2]. rewrite (vget_Some _ _ _ (reprs_at q psi k pr m _ T i ltac:(lia))), bind_Ok.
    eapply returns_bind; [by apply (SetFormat_repr q psi k Hr af ai pr Hpr)|]. intros [a c3] [-> Hc3].
    rewrite (Times_repr q psi k Hr pr), bind_Ok, rows_get, bind_Ok by (done || lia).
    assert (column A (Bi i) 1 i = B i) as -> by (unfold column, Bi; cbn [Nat.eqb]; by rewrite Nat.ltb_irrefl).
    rewrite (PlusEq_repr q psi k Hr pr), bind_Ok by (done || by apply (negacyclic_elem q psi k Hr)).
    erewrite vset2_at by ((apply rows_at; lia) || (simpl; lia)). rewrite bind_Ok. split; [|done].
    unfold rows. rewrite map_seq_insert by lia. apply map_ext. intros l. unfold Bi.
    destruct (Nat.eqb_spec l i) as [->|]; [by rewrite (proj2 (Nat.ltb_lt i (S i))) by lia|].
    destruct (Nat.ltb_spec l i), (Nat.ltb_spec l (S i)); try done; lia.
  - intros [r c'] [-> Hc']. split; [|done]. apply rows_ext. intros l Hl. split; [done|]. unfold Bi.
    by rewrite (proj2 (Nat.ltb_lt l m)) by lia.
Qed.

(** The rows the key generation returns are an encryption. *)
Lemma rows_rgsw s M eps T E :
  elem s -> elem M -> (forall l, elem (T l)) -> (forall l, elem (E l) /\ near q eps (E l)) ->
  rgsw s M eps (rows q psi k pr (2 * dg) EVALUATION (with_gadget true M dg T)
    (fun l => padd q (with_gadget false M dg E l) (negacyclic q (T l) s))).
Proof.
  intros Hs HM HT HE. exists (with_gadget true M dg T),
    (fun l => padd q (with_gadget false M dg E l) (negacyclic q (T l) s)), E.
  pose proof (fun l => with_gadget_elem true M dg T l HM HT).
  pose proof (fun l => with_gadget_elem false M dg E l HM (fun l => proj1 (HE l))).
  split; [done|]. split.
  - intros l. pose proof (HT l). destruct (HE l). split_and!; [done | relem | done | done].
  - intros l Hl. pose proof (HT l). destruct (HE l) as [HEl _]. unfold phase, gadget_part, with_gadget.
    assert (l / 2 < dg)%nat by (apply Nat.Div0.div_lt_upper_bound; lia). rewrite (proj2 (Nat.ltb_lt (l / 2) dg)) by done.
    destruct (Nat.even l); cbn [Bool.eqb andb]; ring_eq Hr.
Qed.

Lemma size_small : 2 ^ Z.of_nat k <= 2 ^ 24.
Proof. pose proof (size_k q psi k Hr). apply Z.pow_le_mono_r; lia. Qed.

Lemma digitsG2_ok : Z.to_nat (u32 (GetDigitsG params * 2)) = (2 * dg)%nat.
Proof. rewrite (gp_digits _ _ _ _ _ _ Hp). pose proof (gp_dg _ _ _ _ _ _ Hp). rewrite u32_small by lia. lia. Qed.

Lemma modop_ok : (forall x y, 0 <= x < q -> 0 <= y < q -> ModAddEq x y q = Ok ((x + 1 * y) mod q)) /\
  (forall x y, 0 <= x < q -> 0 <= y < q -> ModSubEq x y q = Ok ((x + -1 * y) mod q)).
Proof.
  pose proof (modulus_word q psi k Hr) as (H1 & H2 & H3). split; intros x y Hx Hy.
  - change (ModAddEq x y q) with (ModAdd x y q). rewrite ModAdd_correct by lia. do 2 f_equal. lia.
  - change (ModSubEq x y q) with (ModSub x y q). rewrite ModSub_correct by lia. f_equal.
Qed.

Context (s : list Z) (Hs : elem s) (eps : Z).
(** What the generators may return: reduced vectors, the errors of at most [eps]. *)
Definition uniform (U : nat -> NativeVectorT) : Prop := forall i, sampled (U i).
Definition errors (E : nat -> NativeVectorT) : Prop := forall i, sampled (E i) /\ near q eps (m_data (E i)).

Lemma KeyGenCGGI_rgsw m U E c :
  uniform U -> errors E -> cache_for q psi k c ->
  returns (KeyGenCGGI af ai params (repr q psi k pr EVALUATION s) m U E c)
    (fun '(ek, c') => rgsw s (if m >? 0 then pmono q k 0 else pzero k) eps ek /\ cache_for q psi k c').
Proof.
  intros HU HE Hc. unfold KeyGenCGGI. rewrite digitsG2_ok. pose proof (gp_dg _ _ _ _ _ _ Hp).
  rewrite sample_rows_repr, bind_Ok by (intros; apply HU || apply HE).
  set (M := if m >? 0 then pmono q k 0 else pzero k). assert (elem M) as HM by (unfold M; destruct (m >? 0); relem).
  set (T := fun i => m_data (U i)). set (N := fun i => m_data (E i)).
  assert ((if m >? 0 then add_gadget ModAddEq params 0 (rows q psi k pr (2 * dg) COEFFICIENT T N)
           else Ok (rows q psi k pr (2 * dg) COEFFICIENT T N))
          = Ok (rows q psi k pr (2 * dg) COEFFICIENT (with_gadget true M dg T) (with_gadget false M dg N))) as ->.
  { unfold M. destruct (m >? 0).
    - apply (add_gadget_rows _ 1); [apply modop_ok | apply (pmono_signed 0) | | intros; apply HU | intros; apply HE];
        (apply Nat.neq_0_lt_0, Nat.pow_nonzero; lia).
    - f_equal. apply rows_ext. intros l _. pose proof (HU l). destruct (HE l). unfold with_gadget.
      split; destruct (_ && _); try done; ring_eq Hr. }
  rewrite bind_Ok. eapply returns_mono; [apply finish_rows_repr; [lia | done | intros; apply HU | | | done]|].
  - intros l. apply with_gadget_elem; [done | intros; apply HU].
  - intros l. apply with_gadget_elem; [done | intros; apply HE].
  - intros [ek c'] [-> Hc']. split; [|done]. apply rows_rgsw; [done | done | intros; apply HU | intros; apply HE].
Qed.

(** The LWE modulus: a power of two that divides twice the dimension. *)
Context (e : Z) (He : 0 <= e <= Z.of_nat k + 1) (Hq : Getq params = 2 ^ e).
Definition factor : Z := 2 ^ (Z.of_nat k + 1 - e).

Lemma order_factor : order k = 2 ^ e * factor.
Proof. unfold order, factor. rewrite <- Z.pow_add_r by lia. f_equal. lia. Qed.

(** The exponent [KeyGenDM] computes. *)
Lemma dm_exponent m :
  (t ← umod (u64 m) (2 ^ e); t ← umod (u64 (t + 2 ^ e)) (2 ^ e); f ← udiv (u32 (2 * 2 ^ Z.of_nat k)) (2 ^ e);
   Ok (i64 (u64 (t * f)))) = Ok ((m mod 2 ^ e) * factor).
Proof.
  pose proof (pow2_pos e ltac:(lia)). pose proof size_small. pose proof (pow2_pos (Z.of_nat k) ltac:(lia)).
  pose proof (pow2_pos (Z.of_nat k + 1 - e) ltac:(lia)) as Hf. fold factor in Hf.
  assert (2 * 2 ^ Z.of_nat k = 2 ^ e * factor) as E by (rewrite <- order_factor; unfold order; rewrite Z.pow_add_r by lia; lia).
  assert (2 ^ e <= 2 ^ 25) by (apply Z.pow_le_mono_r; pose proof (size_k q psi k Hr); lia).
  rewrite !umod_pos, bind_Ok by lia. rewrite umod_pos, bind_Ok by lia. rewrite udiv_pos, bind_Ok by lia.
  assert (u64 m mod 2 ^ e = m mod 2 ^ e) as ->.
  { pose proof (size_k q psi k Hr). unfold u64. apply Z.mod_mod_divide. exists (2 ^ (64 - e)). rewrite <- Z.pow_add_r by lia. f_equal. lia. }
  pose proof (mod_range m (2 ^ e) ltac:(lia)). rewrite (u64_small (_ + _)) by lia.
  rewrite <- (Z.mul_1_l (2 ^ e)) at 2. rewrite Z_mod_plus_full, Z.mod_mod by lia.
  rewrite u32_small, E, (Z.mul_comm (2 ^ e) factor), Z.div_mul by lia. f_equal. unfold i64.
  assert (0 <= m mod 2 ^ e * factor) by (apply Z.mul_nonneg_nonneg; lia).
  assert (m mod 2 ^ e * factor < 2 ^ e * factor) by (apply Z.mul_lt_mono_pos_r; lia).
  rewrite !u64_small by (rewrite ?u64_small; lia). by rewrite (proj2 (Z.ltb_lt _ _)) by lia.
Qed.

Lemma KeyGenDM_rgsw m U E c :
  uniform U -> errors E -> cache_for q psi k c ->
  returns (KeyGenDM af ai params (repr q psi k pr EVALUATION s) m U E c)
    (fun '(ek, c') => rgsw s (pmono q k (m * factor)) eps ek /\ cache_for q psi k c').
Proof.
  intros HU HE Hc. unfold KeyGenDM. rewrite digitsG2_ok, Hq, (gp_N _ _ _ _ _ _ Hp). pose proof (gp_dg _ _ _ _ _ _ Hp).
  pose proof (dm_exponent m) as Em. unfold umod, udiv in *. pose proof (pow2_pos e ltac:(lia)).
  rewrite (proj2 (Z.eqb_neq (2 ^ e) 0)) in * by lia. rewrite !bind_Ok in *. injection Em as Em. rewrite Em. clear Em.
  pose proof (mod_range m (2 ^ e) ltac:(lia)). pose proof (pow2_pos (Z.of_nat k + 1 - e) ltac:(lia)) as Hf. fold factor in Hf.
  pose proof order_factor as Eo. pose proof (order_n k) as En. set (mm := m mod 2 ^ e * factor) in *.
  assert (0 <= mm < order k) as Hmm by (unfold mm; nia).
  assert (pmono q k (m * factor) = pmono q k mm) as ->.
  { apply pmono_period. unfold mm. rewrite Eo. rewrite <- (Z.mul_mod_distr_r m) by lia. by rewrite Z.mod_mod by lia. }
  rewrite sample_rows_repr, bind_Ok by (intros; apply HU || apply HE).
  set (T := fun i => m_data (U i)). set (N := fun i => m_data (E i)). set (M := pmono q k mm).
  assert (add_gadget (if mm >=? 2 ^ Z.of_nat k then ModSubEq else ModAddEq) params
            (Z.to_nat (if mm >=? 2 ^ Z.of_nat k then mm - 2 ^ Z.of_nat k else mm)) (rows q psi k pr (2 * dg) COEFFICIENT T N)
          = Ok (rows q psi k pr (2 * dg) COEFFICIENT (with_gadget true M dg T) (with_gadget false M dg N))) as ->.
  { rewrite <- (pow2_nat_Z k) in *. rewrite Z.geb_leb. unfold M. destruct (Z.leb_spec (Z.of_nat n) mm).
    - apply (add_gadget_rows _ (-1)); [apply modop_ok | | lia | intros; apply HU | intros; apply HE].
      replace mm with (Z.of_nat (Z.to_nat (mm - Z.of_nat n)) + Z.of_nat n) at 2 by lia. apply pmono_signed. lia.
    - apply (add_gadget_rows _ 1); [apply modop_ok | | lia | intros; apply HU | intros; apply HE].
      replace mm with (Z.of_nat (Z.to_nat mm)) at 2 by lia. apply pmono_signed. lia. }
  rewrite bind_Ok. eapply returns_mono; [apply finish_rows_repr; [lia | done | intros; apply HU | | | done]|].
  - intros l. apply with_gadget_elem; [unfold M; relem | intros; apply HU].
  - intros l. apply with_gadget_elem; [unfold M; relem | intros; apply HE].
  - intros [ek c'] [-> Hc']. split; [|done]. apply rows_rgsw; [done | unfold M; relem | intros; apply HU | intros; apply HE].
Qed.
End Keys.
