(* ===== verification/RgswAcc.v ===== *)
(** * RingGSW accumulators: external products

    One update of an accumulator multiplies the polynomial it encrypts by the
    message of the key, up to a noise that the theorems bound. *)
From stdpp Require Import base numbers list gmap.
From Stdlib Require Import ZArith Lia.
From S2P Require Import Prelude Bits NativeInt NativeIntProps NativeVector Ntt NttProps FttProps NbTheory AutoProps Poly PolyProps PolyAutoProps PolyDigitProps PolyAlg Rgsw RgswDigits RgswRing RgswKeys.
Open Scope Z_scope.

Section External.
Context `{W : NativeWidth}.
Context (q psi : Z) (k : nat) (Hr : root_ok q psi k).
Context (g : Z) (dg : nat) (params : RingGSWCryptoParams) (Hp : gsw_params q psi k g dg params).
Abbreviation pr := (GetPolyParams params).
Abbreviation elem := (ring_elem q k).
Abbreviation n := (2 ^ k)%nat.
Context (s : list Z) (Hs : elem s).
Context (eps sigma kappa : Z) (H0 : 0 <= eps /\ 0 <= sigma /\ 0 <= kappa).
Context (Hsig : near q sigma s) (Hcar : carries_below q g dg kappa).

(** ** Algebra *)

(** Digit polynomial [l] of the ciphertext [(a, b)]. *)
Definition digit_of (a b : list Z) (l : nat) : list Z := sdigit_poly q g (l / 2) (input_coeffs a b (l mod 2)).

Lemma digit_of_elem a b l : elem a -> elem b -> elem (digit_of a b l).
Proof. intros Ha Hb. apply (sdigit_poly_elem q psi k Hr). by apply input_elem. Qed.

Lemma ext_phase D A B m :
  (forall l, elem (D l) /\ elem (A l) /\ elem (B l)) ->
  phase q s (psum q k (fun l => negacyclic q (D l) (A l)) m) (psum q k (fun l => negacyclic q (D l) (B l)) m)
  = psum q k (fun l => negacyclic q (D l) (phase q s (A l) (B l))) m.
Proof.
  intros H. assert (forall C, (forall l, elem (C l)) -> forall m', elem (psum q k (fun l => negacyclic q (D l) (C l)) m')) as HC.
  { intros C HC m'. apply (psum_elem q psi k Hr). intros l _. pose proof (HC l). destruct (H l) as (? & _). relem. }
  induction m as [|m IH]; cbn [psum]; [unfold phase; ring_eq Hr|]. rewrite <- IH.
  pose proof (HC A (fun l => proj1 (proj2 (H l))) m). pose proof (HC B (fun l => proj2 (proj2 (H l))) m). destruct (H m) as (? & ? & ?).
  unfold phase. ring_eq Hr.
Qed.

Context (a b : list Z) (Ha : elem a) (Hb : elem b).
Abbreviation D := (digit_of a b).

Lemma half_pair i : digit_of a b (2 * i) = sdigit_poly q g i a /\ digit_of a b (2 * i + 1) = sdigit_poly q g i b.
Proof.
  unfold digit_of. destruct (half_2i i) as [-> ->]. split.
  - assert (2 * i mod 2 = 0)%nat as -> by (rewrite Nat.mul_comm; apply Nat.Div0.mod_mul). done.
  - assert ((2 * i + 1) mod 2 = 1)%nat as -> by (symmetry; apply (Nat.mod_unique _ 2 i); lia). done.
Qed.

(** The digits times the gadget, over the pairs of rows. *)
Lemma gadget_sum M E m :
  elem M -> (forall l, elem (E l)) ->
  psum q k (fun l => negacyclic q (D l) (padd q (E l) (gadget_part q k g s M l))) (2 * m)
  = padd q (psum q k (fun l => negacyclic q (D l) (E l)) (2 * m))
      (negacyclic q M (phase q s
        (psum q k (fun l => pscale q ((2 ^ g) ^ Z.of_nat l mod q) (sdigit_poly q g l a)) m)
        (psum q k (fun l => pscale q ((2 ^ g) ^ Z.of_nat l mod q) (sdigit_poly q g l b)) m))).
Proof.
  intros HM HE. pose proof (fun l => digit_of_elem a b l Ha Hb) as HD.
  assert (forall f m', elem f -> elem (psum q k (fun l => pscale q ((2 ^ g) ^ Z.of_nat l mod q) (sdigit_poly q g l f)) m')) as HG.
  { intros f m' Hf. apply (psum_elem q psi k Hr). intros l _. relem. }
  assert (forall m', elem (psum q k (fun l => negacyclic q (D l) (E l)) m')) as HS.
  { intros m'. apply (psum_elem q psi k Hr). intros l _. pose proof (HD l). pose proof (HE l). relem. }
  induction m as [|m IH]; [cbn [psum Nat.mul Nat.add]; unfold phase; ring_eq Hr|].
  replace (2 * S m)%nat with (S (S (2 * m))) by lia. cbn [psum]. rewrite IH. clear IH.
  pose proof (HG a m Ha). pose proof (HG b m Hb). pose proof (HS (2 * m)%nat).
  pose proof (HE (2 * m)%nat). pose proof (HE (S (2 * m))).
  destruct (half_pair m) as [E1 E2]. rewrite Nat.add_1_r in E2. rewrite E1, E2.
  unfold gadget_part, gad. rewrite Nat.even_even, Nat.even_succ, <- Nat.negb_even, Nat.even_even. cbn [negb].
  destruct (half_2i m) as [E3 E4]. rewrite Nat.add_1_r in E4. rewrite E3, E4. unfold phase.
  set (Pa := psum q k (fun l => pscale q ((2 ^ g) ^ Z.of_nat l mod q) (sdigit_poly q g l a)) m) in *.
  set (Pb := psum q k (fun l => pscale q ((2 ^ g) ^ Z.of_nat l mod q) (sdigit_poly q g l b)) m) in *.
  set (Q := psum q k (fun l => negacyclic q (D l) (E l)) (2 * m)) in *.
  ring_eq Hr.
Qed.

(** The noise of an external product with the errors [E]. *)
Definition ext_noise (M : list Z) (E : nat -> list Z) : list Z :=
  psub q (psum q k (fun l => negacyclic q (D l) (E l)) (2 * dg))
    (negacyclic q M (phase q s (carry_poly q g dg a) (carry_poly q g dg b))).

(** Its bound. *)
Definition ext_bound : Z :=
  Z.of_nat (2 * dg) * (Z.of_nat n * (half_base g * eps)) + (kappa + Z.of_nat n * (kappa * sigma)).

(** Messages whose products do not enlarge the coefficients. *)
Definition isometric (M : list Z) : Prop := elem M /\ forall beta f, elem f -> 0 <= beta -> near q beta f -> near q beta (negacyclic q M f).

Lemma pmono_isometric m : isometric (pmono q k m).
Proof. split; [relem|]. intros beta f Hf _. by apply (near_mono_mul q psi k Hr). Qed.

Lemma pzero_isometric : isometric (pzero k).
Proof.
  split; [relem|]. intros beta f Hf Hb' _.
  replace (negacyclic q (pzero k) f) with (pzero k) by (ring_eq Hr).
  apply (near_mono _ 0); [done|]. apply near_zero.
Qed.

Lemma ext_noise_elem M E : elem M -> (forall l, elem (E l)) -> elem (ext_noise M E).
Proof.
  intros HM HE. assert (elem (psum q k (fun l => negacyclic q (D l) (E l)) (2 * dg))).
  { apply (psum_elem q psi k Hr). intros l _. pose proof (digit_of_elem a b l Ha Hb). pose proof (HE l). relem. }
  unfold ext_noise. relem.
Qed.

Lemma ext_noise_near M E : isometric M -> (forall l, elem (E l) /\ near q eps (E l)) -> near q ext_bound (ext_noise M E).
Proof.
  intros [HM Hiso] HE. pose proof (fun l => digit_of_elem a b l Ha Hb) as HD.
  assert (elem (psum q k (fun l => negacyclic q (D l) (E l)) (2 * dg))) as H1.
  { apply (psum_elem q psi k Hr). intros l _. pose proof (HD l). destruct (HE l). relem. }
  pose proof (carry_poly_elem q psi k Hr g dg a Ha) as Hca. pose proof (carry_poly_elem q psi k Hr g dg b Hb) as Hcb.
  unfold ext_noise, ext_bound. apply near_sub with (k := k); [done | relem | |].
  - apply (near_sum q psi k Hr). intros l _. destruct (HE l) as [HEl HEn]. split; [pose proof (HD l); relem|].
    apply near_mul; [apply HD | done | | done]. by apply (sdigit_poly_near q psi k g dg params Hp).
  - apply Hiso; [relem | pose proof (Z.mul_nonneg_nonneg kappa sigma ltac:(lia) ltac:(lia)); nia |].
    unfold phase. apply near_sub with (k := k); [done | relem | by apply (carry_poly_near q k) |].
    apply near_mul; [done | done | by apply (carry_poly_near q k) | done].
Qed.

(** The external product of all the rows: the message times what [(a, b)]
    encrypts, and the noise. *)
Lemma external_product_phase M ek :
  elem M -> rgsw q psi k g dg params s M eps ek ->
  exists A B E, ek = rows q psi k pr (2 * dg) EVALUATION A B /\
    (forall l, elem (A l) /\ elem (B l) /\ elem (E l) /\ near q eps (E l)) /\
    (forall l, (l < 2 * dg)%nat -> phase q s (A l) (B l) = padd q (E l) (gadget_part q k g s M l)) /\
    phase q s (psum q k (fun l => negacyclic q (D l) (A l)) (2 * dg)) (psum q k (fun l => negacyclic q (D l) (B l)) (2 * dg))
    = padd q (negacyclic q M (phase q s a b)) (ext_noise M E).
Proof.
  intros HM (A & B & E & -> & He & Hph). exists A, B, E. split_and!; [done | done | done |].
  pose proof (fun l => digit_of_elem a b l Ha Hb) as HD.
  rewrite (ext_phase D A B) by (intros l; split_and!; [apply HD | apply He | apply He]).
  assert (psum q k (fun l => negacyclic q (D l) (phase q s (A l) (B l))) (2 * dg)
          = psum q k (fun l => negacyclic q (D l) (padd q (E l) (gadget_part q k g s M l))) (2 * dg)) as ->.
  { assert (forall m, (m <= 2 * dg)%nat -> psum q k (fun l => negacyclic q (D l) (phase q s (A l) (B l))) m
          = psum q k (fun l => negacyclic q (D l) (padd q (E l) (gadget_part q k g s M l))) m) as X; [|by apply X].
    induction m as [|m IH]; intros Hm; cbn [psum]; [done|]. rewrite IH, Hph by lia. done. }
  rewrite gadget_sum by (done || (intros; apply He)).
  rewrite (digits_gadget q psi k Hr g dg params Hp a Ha), (digits_gadget q psi k Hr g dg params Hp b Hb).
  unfold ext_noise. assert (elem (psum q k (fun l => negacyclic q (D l) (E l)) (2 * dg))).
  { apply (psum_elem q psi k Hr). intros l _. pose proof (HD l). destruct (He l) as (_ & _ & ? & _). relem. }
  unfold phase. ring_eq Hr.
Qed.
End External.

(** ** The Ducas-Micciancio update *)

Section Updates.
Context `{W : NativeWidth}.
Context (q psi : Z) (k : nat) (Hr : root_ok q psi k).
Context (af ai : NativeVectorT -> ILParams -> outcome NativeVectorT).
Context (g : Z) (dg : nat) (params : RingGSWCryptoParams) (Hp : gsw_params q psi k g dg params).
Abbreviation pr := (GetPolyParams params).
Abbreviation elem := (ring_elem q k).
Abbreviation n := (2 ^ k)%nat.
Context (s : list Z) (Hs : elem s).
Context (eps sigma kappa : Z) (H0 : 0 <= eps /\ 0 <= sigma /\ 0 <= kappa).
Context (Hsig : near q sigma s) (Hcar : carries_below q g dg kappa).

(** An accumulator that encrypts [X^t * f] with noise at most [beta]. *)
Definition rotated (f : list Z) (t beta : Z) (acc : RLWECiphertextImpl) : Prop :=
  exists a b N, acc = [repr q psi k pr EVALUATION a; repr q psi k pr EVALUATION b] /\ elem a /\ elem b /\ elem N /\
    near q beta N /\ phase q s a b = padd q (negacyclic q (pmono q k t) f) N.

Lemma zero_table m : reprs q psi k pr m (fun _ => COEFFICIENT) (fun _ => pzero k) = poly_table q pr m n (fun _ _ => 0).
Proof.
  unfold reprs, poly_table. apply map_ext. intros i. unfold repr, coeff_poly, pzero. cbn [values_in]. do 3 f_equal.
  apply list_eq. intros j. destruct (decide (j < n)%nat).
  - by rewrite map_seq_lookup, lookup_repeat.
  - rewrite !lookup_ge_None_2; [done | |]; rewrite ?repeat_length, ?length_map, ?length_seq; lia.
Qed.

(** The digits of an accumulator, before and after the transforms. *)
Lemma decompose_repr a b : elem a -> elem b ->
  SignedDigitDecompose params [repr q psi k pr COEFFICIENT a; repr q psi k pr COEFFICIENT b]
    (reprs q psi k pr (2 * dg) (fun _ => COEFFICIENT) (fun _ => pzero k))
  = Ok (reprs q psi k pr (2 * dg) (fun _ => COEFFICIENT) (digit_of q g a b)).
Proof.
  intros Ha Hb. rewrite zero_table. pose proof (gp_ring _ _ _ _ _ _ Hp).
  by apply (SignedDigitDecompose_ok q psi k Hr g dg params Hp a b Ha Hb);
    try (apply (repr_denotes q psi k pr)).
Qed.

Lemma pair_formats F a b c : elem a -> elem b -> cache_for q psi k c ->
  returns (set_formats af ai 2 COEFFICIENT [repr q psi k pr F a; repr q psi k pr F b] c)
    (fun '(v, c') => v = [repr q psi k pr COEFFICIENT a; repr q psi k pr COEFFICIENT b] /\ cache_for q psi k c').
Proof.
  intros Ha Hb Hc. change [repr q psi k pr F a; repr q psi k pr F b] with
    (reprs q psi k pr 2 (fun _ => F) (fun i => input_coeffs a b i)).
  eapply returns_mono; [apply (set_formats_reprs q psi k Hr af ai pr (gp_ring _ _ _ _ _ _ Hp)); [|done]|].
  - intros i _. by apply input_elem.
  - intros [v c'] [-> Hc']. done.
Qed.

Lemma psum_shift F m : (forall l, elem (F l)) -> psum q k F (S m) = padd q (F 0%nat) (psum q k (fun i => F (S i)) m).
Proof.
  intros HF. induction m as [|m IH]; [cbn [psum]; pose proof (HF 0%nat); ring_eq Hr|].
  cbn [psum] in *. rewrite IH. pose proof (HF 0%nat). pose proof (HF (S m)).
  assert (elem (psum q k (fun i => F (S i)) m)) by (apply (psum_elem q psi k Hr); intros; apply HF). ring_eq Hr.
Qed.

(** The noise of one update. *)
Definition dm_bound : Z :=
  ext_bound k g dg eps sigma kappa + (Z.of_nat n * (half_base g * eps) + Z.of_nat n * (half_base g * sigma)).

(** The program part: the sums over the rows after the first. *)
Lemma AddToAccDM_repr a b A B c :
  elem a -> elem b -> (forall l, elem (A l)) -> (forall l, elem (B l)) -> cache_for q psi k c ->
  let sum C := padd q (pzero k) (products q k (digit_of q g a b) C 1 (2 * dg)) in
  returns (AddToAccDM af ai params (Some (rows q psi k pr (2 * dg) EVALUATION A B))
             [repr q psi k pr EVALUATION a; repr q psi k pr EVALUATION b] c)
    (fun '(acc, c') => acc = [repr q psi k pr EVALUATION (sum A); repr q psi k pr EVALUATION (sum B)] /\ cache_for q psi k c').
Proof.
  intros Ha Hb HA HB Hc sum. pose proof (gp_ring _ _ _ _ _ _ Hp) as Hpr.
  pose proof (gp_dg _ _ _ _ _ _ Hp). unfold AddToAccDM. rewrite (digitsG2_ok q psi k g dg params Hp).
  rewrite (zero_digits_repr q psi k Hr pr Hpr), bind_Ok.
  eapply returns_bind; [by apply pair_formats|]. intros [ct c1] [-> Hc1].
  rewrite decompose_repr, bind_Ok by done. pose proof (fun l => digit_of_elem q psi k Hr g a b l Ha Hb) as HD.
  eapply returns_bind; [apply (set_formats_reprs q psi k Hr af ai pr Hpr); [intros; apply HD | done]|].
  intros [dct c2] [-> Hc2]. cbn [deref]. rewrite bind_Ok. cbn [vget lookup list_lookup]. rewrite bind_Ok.
  rewrite (SetValuesToZero_repr q psi k Hr pr Hpr), bind_Ok.
  rewrite (accumulate_products_repr q psi k Hr pr (2 * dg) _ A B HD HA HB 1 0), bind_Ok by (lia || relem).
  cbn [vset length Nat.ltb Nat.leb insert list_insert]. rewrite bind_Ok. cbn [vget lookup list_lookup]. rewrite bind_Ok.
  rewrite (SetValuesToZero_repr q psi k Hr pr Hpr), bind_Ok.
  eapply returns_bind; [apply (accumulate_in_place_repr q psi k Hr pr (2 * dg) _ A B HD HA HB 1 1); lia || relem|].
  intros [dct' acc1] ->. done.
Qed.

(** What the missing first row costs. *)
Lemma skip_phase D0 A0 B0 E0 Sa Sb M X N f0 ph eta :
  elem D0 -> elem A0 -> elem B0 -> elem E0 -> elem Sa -> elem Sb -> elem M -> elem X -> elem N -> elem f0 -> elem eta ->
  phase q s A0 B0 = padd q E0 (psub q (pzero k) (pscale q (1 mod q) (negacyclic q M s))) ->
  phase q s (padd q (negacyclic q D0 A0) Sa) (padd q (negacyclic q D0 B0) Sb) = padd q (negacyclic q M ph) eta ->
  ph = padd q (negacyclic q X f0) N ->
  phase q s (padd q (pzero k) Sa) (padd q (pzero k) Sb)
  = padd q (negacyclic q (negacyclic q X M) f0)
      (padd q (negacyclic q M N) (padd q eta (psub q (negacyclic q D0 (negacyclic q M s)) (negacyclic q D0 E0)))).
Proof.
  intros HD HA HB HE HSa HSb HM HX HN Hf0 Heta E1 E2 ->. pose proof (modulus_pos q psi k Hr).
  transitivity (psub q (phase q s (padd q (negacyclic q D0 A0) Sa) (padd q (negacyclic q D0 B0) Sb))
                  (negacyclic q D0 (phase q s A0 B0))); [unfold phase; ring_eq Hr|].
  rewrite E2, E1, Z.mod_1_l by lia. ring_eq Hr.
Qed.

Definition dm_noise (a b M N : list Z) (E : nat -> list Z) : list Z :=
  padd q (negacyclic q M N) (padd q (ext_noise q k g dg s a b M E)
    (psub q (negacyclic q (digit_of q g a b 0) (negacyclic q M s)) (negacyclic q (digit_of q g a b 0) (E 0%nat)))).

Lemma dm_noise_near a b m N E beta :
  elem a -> elem b -> elem N -> near q beta N -> (forall l, elem (E l) /\ near q eps (E l)) ->
  elem (dm_noise a b (pmono q k m) N E) /\ near q (beta + dm_bound) (dm_noise a b (pmono q k m) N E).
Proof.
  intros Ha Hb HN Hn HE. destruct (pmono_isometric q psi k Hr m) as [HM Hiso].
  pose proof (ext_noise_elem q psi k Hr g dg s Hs a b Ha Hb (pmono q k m) E HM ltac:(intros; apply HE)) as Hxe.
  pose proof (digit_of_elem q psi k Hr g a b 0 Ha Hb) as HD0. destruct (HE 0%nat) as [HE0 HEn0].
  split; [unfold dm_noise; relem|].
  apply near_add with (k := k); [relem | relem | by apply (near_mono_mul q psi k Hr)|]. unfold dm_bound.
  apply near_add with (k := k); [done | relem | |].
  - by apply (ext_noise_near q psi k Hr g dg params Hp s Hs eps sigma kappa H0 Hsig Hcar).
  - rewrite (Z.add_comm (_ * (_ * eps))). apply near_sub with (k := k); [relem | relem | |].
    + apply near_mul; [done | relem | apply (sdigit_poly_near q psi k g dg params Hp) | by apply (near_mono_mul q psi k Hr)].
    + apply near_mul; [done | done | apply (sdigit_poly_near q psi k g dg params Hp) | done].
Qed.

Lemma AddToAccDM_rotates m ek f t beta acc c :
  elem f -> rgsw q psi k g dg params s (pmono q k m) eps ek -> rotated f t beta acc -> cache_for q psi k c ->
  returns (AddToAccDM af ai params (Some ek) acc c)
    (fun '(acc', c') => rotated f (t + m) (beta + dm_bound) acc' /\ cache_for q psi k c').
Proof.
  intros Hf Hek (a & b & N & -> & Ha & Hb & HN & Hn & Eph) Hc. pose proof (gp_dg _ _ _ _ _ _ Hp).
  destruct (external_product_phase q psi k Hr g dg params Hp s Hs eps a b Ha Hb (pmono q k m) ek ltac:(relem) Hek)
    as (A & B & E & -> & He & Hph & Eext).
  assert (forall l, elem (A l)) as HA by (intros; apply He). assert (forall l, elem (B l)) as HB by (intros; apply He).
  assert (forall l, elem (E l) /\ near q eps (E l)) as HE by (intros; split; apply He).
  pose proof (fun l => digit_of_elem q psi k Hr g a b l Ha Hb) as HD.
  eapply returns_mono; [by apply AddToAccDM_repr|]. intros [acc c'] [-> Hc']. split; [|done].
  destruct (dm_noise_near a b m N E beta Ha Hb HN Hn HE) as [He1 He2].
  pose proof (fun C HC => products_elem q psi k Hr (digit_of q g a b) HD C 1 (2 * dg) HC) as HP.
  pose proof (HP A HA). pose proof (HP B HB). exists (padd q (pzero k) (products q k (digit_of q g a b) A 1 (2 * dg))),
    (padd q (pzero k) (products q k (digit_of q g a b) B 1 (2 * dg))), (dm_noise a b (pmono q k m) N E).
  split_and!; [done | relem | relem | done | done |]. rewrite (pmono_add q psi k Hr).
  assert (exists m', (2 * dg = S m')%nat) as [m' Em] by (exists (2 * dg - 1)%nat; lia).
  assert (forall C, (forall l, elem (C l)) -> psum q k (fun l => negacyclic q (digit_of q g a b l) (C l)) (2 * dg)
    = padd q (negacyclic q (digit_of q g a b 0) (C 0%nat)) (products q k (digit_of q g a b) C 1 (2 * dg))) as Esh.
  { intros C HC. unfold products. rewrite Em. replace (S m' - 1)%nat with m' by lia. apply psum_shift.
    intros l. pose proof (HD l). pose proof (HC l). relem. }
  rewrite (Esh A HA), (Esh B HB) in Eext. specialize (Hph 0%nat ltac:(lia)). pose proof (HD 0%nat). pose proof (HA 0%nat).
  pose proof (HB 0%nat). destruct (HE 0%nat).
  apply (skip_phase (digit_of q g a b 0) (A 0%nat) (B 0%nat) (E 0%nat) _ _ _ _ _ _ (phase q s a b)); try done; try relem.
  apply (ext_noise_elem q psi k Hr); try done; try relem. intros; apply HE.
Qed.

(** ** The CGGI update *)

(** The table of the polynomials [X^m - 1]. *)
Definition mono_less_one (m : Z) : list Z := psub q (pmono q k m) (pmono q k 0).
Definition monomials_ok : Prop :=
  GetMonomials params = reprs q psi k pr (2 * n) (fun _ => EVALUATION) (fun i => mono_less_one (Z.of_nat i)).

Lemma mono_less_one_elem m : elem (mono_less_one m).
Proof. unfold mono_less_one. relem. Qed.

Section Traces.
Context (Hk : (10 <= k)%nat).

Lemma trace_size : (1024 <= n)%nat.
Proof. change 1024%nat with (2 ^ 10)%nat. apply Nat.pow_le_mono_r; lia. Qed.

Lemma trace_poly_repr F f : elem f -> trace_poly (repr q psi k pr F f) = Ok tt.
Proof.
  intros Hf. pose proof trace_size. unfold trace_poly. apply (for_range_exact (fun _ => tt)); [lia|]. intros i Hi.
  destruct (values_elem q psi k Hr F f Hf) as [Hl _].
  destruct (lookup_lt_is_Some_2 (values_in q psi k F f) i ltac:(lia)) as [x Hx].
  unfold repr. by rewrite (index_at _ _ _ _ _ _ Hx).
Qed.

Lemma trace_digits_reprs m Fs h : (8 <= m)%nat -> (forall l, elem (h l)) -> trace_digits (reprs q psi k pr m Fs h) = Ok tt.
Proof.
  intros Hm Hh. unfold trace_digits. apply (for_range_exact (fun _ => tt)); [lia|]. intros j Hj.
  rewrite (vget_Some _ _ _ (reprs_at q psi k pr m Fs h j ltac:(lia))), bind_Ok. by apply trace_poly_repr.
Qed.

Lemma trace_key_rows m F A B : (8 <= m)%nat -> (forall l, elem (A l)) -> (forall l, elem (B l)) ->
  trace_key (rows q psi k pr m F A B) = Ok tt.
Proof.
  intros Hm HA HB. unfold trace_key. apply (for_range_exact (fun _ => tt)); [lia|]. intros j Hj.
  rewrite !rows_get, bind_Ok by lia. cbn [column Nat.eqb]. rewrite trace_poly_repr, !bind_Ok by done. by apply trace_poly_repr.
Qed.

Section Products.
Context (m : nat) (D A B : nat -> list Z) (Hm : (1 <= m)%nat).
Context (HD : forall l, elem (D l)) (HA : forall l, elem (A l)) (HB : forall l, elem (B l)).

Lemma products_all C : (forall l, elem (C l)) ->
  padd q (negacyclic q (D 0%nat) (C 0%nat)) (products q k D C 1 m) = psum q k (fun l => negacyclic q (D l) (C l)) m.
Proof.
  intros HC. unfold products. destruct m as [|m']; [lia|]. rewrite psum_shift; [by rewrite Nat.sub_succ, Nat.sub_0_r|].
  intros l. pose proof (HD l). pose proof (HC l). relem.
Qed.

Lemma external_product_repr col M : (col < 2)%nat -> elem M ->
  let r := Ok (repr q psi k pr EVALUATION
             (negacyclic q (psum q k (fun l => negacyclic q (D l) (column A B col l)) m) M)) in
  external_product m (reprs q psi k pr m (fun _ => EVALUATION) D) (rows q psi k pr m EVALUATION A B) col
    (repr q psi k pr EVALUATION M) = r /\
  external_product_in_place m (reprs q psi k pr m (fun _ => EVALUATION) D) (rows q psi k pr m EVALUATION A B) col
    (repr q psi k pr EVALUATION M) = r.
Proof.
  intros Hc HM r. pose proof (column_elem q k A B HA HB col) as HC. pose proof (HC 0%nat). pose proof (HD 0%nat).
  assert (elem (psum q k (fun l => negacyclic q (D l) (column A B col l)) m)) as Hs'.
  { apply (psum_elem q psi k Hr). intros l _. pose proof (HD l). pose proof (HC l). relem. }
  unfold external_product, external_product_in_place.
  rewrite !(vget_Some _ _ _ (reprs_at q psi k pr m _ D 0 ltac:(lia))), !bind_Ok, !rows_get, !bind_Ok by lia.
  rewrite (Times_repr q psi k Hr pr), !bind_Ok by done.
  rewrite (accumulate_products_repr q psi k Hr pr m D A B HD HA HB 1 col), bind_Ok by (lia || relem).
  pose proof (accumulate_in_place_repr q psi k Hr pr m D A B HD HA HB 1 col
    (negacyclic q (D 0%nat) (column A B col 0)) ltac:(lia) Hc ltac:(relem)) as ([dct t] & -> & ->)%returns_Ok.
  rewrite bind_Ok, products_all, !trace_poly_repr, !bind_Ok by done.
  split; by apply (TimesEq_repr q psi k Hr pr).
Qed.
End Products.

(** ** The indices *)

Lemma monomial_indices_ok x : 0 <= x <= order k ->
  monomial_indices (2 ^ Z.of_nat k) x = Ok (x mod order k, (- x) mod order k).
Proof.
  intros Hx. unfold monomial_indices. pose proof (size_small q psi k Hr). pose proof (pow2_pos (Z.of_nat k) ltac:(lia)).
  assert (2 * 2 ^ Z.of_nat k = order k) as E by (unfold order; rewrite Z.pow_add_r by lia; lia).
  pose proof (order_pos k). pose proof wbits_range.
  assert (2 ^ 32 <= 2 ^ wbits) by (apply Z.pow_le_mono_r; lia).
  rewrite (u32_small (2 * _)), E, wrap_small by lia. rewrite ModSub_correct, bind_Ok by lia.
  assert ((order k - x) mod order k = (- x) mod order k) as ->.
  { rewrite <- (Z_mod_plus_full (- x) 1). f_equal. lia. }
  pose proof (mod_range (- x) (order k) ltac:(lia)). rewrite (proj2 (Z.eqb_neq ((- x) mod order k) (order k))) by lia.
  rewrite (u32_small ((- x) mod order k)) by lia. do 2 f_equal.
  destruct (Z.eqb_spec x (order k)) as [->|]; [by rewrite Z.mod_same by lia|]. rewrite u32_small, Z.mod_small; lia.
Qed.

Lemma GetMonomial_ok x : monomials_ok -> GetMonomial params (x mod order k) = Ok (repr q psi k pr EVALUATION (mono_less_one x)).
Proof.
  intros Hm. unfold GetMonomial. rewrite Hm. pose proof (order_pos k). pose proof (order_n k).
  pose proof (mod_range x (order k) ltac:(lia)).
  rewrite (vget_Some _ _ _ (reprs_at q psi k pr (2 * n) _ _ (Z.to_nat (x mod order k)) ltac:(lia))).
  do 2 f_equal. rewrite Z2Nat.id by lia. unfold mono_less_one. f_equal. apply pmono_period. by rewrite Z.mod_mod by lia.
Qed.

(** The sums over all the rows, in the two columns. *)
Definition row_sums (a b : list Z) (C : nat -> list Z) : list Z :=
  psum q k (fun l => negacyclic q (digit_of q g a b l) (C l)) (2 * dg).

(** The program part. *)
Lemma AddToAccCGGI_repr a b A1 B1 A2 B2 x c :
  (8 <= 2 * dg)%nat -> monomials_ok -> 0 <= x <= order k -> elem a -> elem b ->
  (forall l, elem (A1 l) /\ elem (B1 l)) -> (forall l, elem (A2 l) /\ elem (B2 l)) -> cache_for q psi k c ->
  let inc C1 C2 := padd q (negacyclic q (row_sums a b C1) (mono_less_one x)) (negacyclic q (row_sums a b C2) (mono_less_one (- x))) in
  returns (AddToAccCGGI af ai params (Some (rows q psi k pr (2 * dg) EVALUATION A1 B1))
             (Some (rows q psi k pr (2 * dg) EVALUATION A2 B2)) x
             [repr q psi k pr EVALUATION a; repr q psi k pr EVALUATION b] c)
    (fun '(acc, c') => acc = [repr q psi k pr EVALUATION (padd q a (inc A1 A2)); repr q psi k pr EVALUATION (padd q b (inc B1 B2))]
                       /\ cache_for q psi k c').
Proof.
  intros H8 Hmon Hx Ha Hb H1 H2 Hc inc. pose proof (gp_ring _ _ _ _ _ _ Hp) as Hpr.
  pose proof (fun l => digit_of_elem q psi k Hr g a b l Ha Hb) as HD.
  pose proof (mono_less_one_elem x) as Hm1. pose proof (mono_less_one_elem (- x)) as Hm2.
  assert (forall C, (forall l, elem (C l)) -> elem (row_sums a b C)) as HS.
  { intros C HC. apply (psum_elem q psi k Hr). intros l _. pose proof (HC l). pose proof (HD l). relem. }
  assert (forall l, elem (A1 l)) as HA1 by (intros; apply H1). assert (forall l, elem (B1 l)) as HB1 by (intros; apply H1).
  assert (forall l, elem (A2 l)) as HA2 by (intros; apply H2). assert (forall l, elem (B2 l)) as HB2 by (intros; apply H2).
  pose proof (HS A1 HA1). pose proof (HS B1 HB1). pose proof (HS A2 HA2). pose proof (HS B2 HB2).
  unfold AddToAccCGGI. rewrite (digitsG2_ok q psi k g dg params Hp).
  rewrite (zero_digits_repr q psi k Hr pr Hpr), bind_Ok.
  eapply returns_bind; [by apply pair_formats|]. intros [ct c1] [-> Hc1].
  cbn [vget lookup list_lookup]. rewrite !bind_Ok, !trace_poly_repr, !bind_Ok, decompose_repr, bind_Ok by done.
  rewrite trace_digits_reprs, bind_Ok by done.
  eapply returns_bind; [apply (set_formats_reprs q psi k Hr af ai pr Hpr); [intros; apply HD | done]|].
  intros [dct c2] [-> Hc2]. rewrite trace_digits_reprs, bind_Ok by done.
  rewrite (gp_N _ _ _ _ _ _ Hp), monomial_indices_ok, bind_Ok by done.
  rewrite !GetMonomial_ok, !bind_Ok by done. rewrite !trace_poly_repr, !bind_Ok by done. cbn [deref]. rewrite bind_Ok.
  rewrite trace_key_rows, bind_Ok by done.
  pose proof (fun col M => external_product_repr (2 * dg) (digit_of q g a b) A1 B1 ltac:(lia) HD HA1 HB1 col M) as X1.
  pose proof (fun col M => external_product_repr (2 * dg) (digit_of q g a b) A2 B2 ltac:(lia) HD HA2 HB2 col M) as X2.
  rewrite (proj1 (X1 0%nat _ ltac:(lia) Hm1)), bind_Ok, (proj1 (X1 1%nat _ ltac:(lia) Hm1)), bind_Ok, bind_Ok.
  rewrite trace_key_rows, bind_Ok, (proj1 (X2 0%nat _ ltac:(lia) Hm2)), bind_Ok by done.
  cbn [column Nat.eqb]. fold (row_sums a b A1) (row_sums a b B1) (row_sums a b A2).
  rewrite (PlusEq_repr q psi k Hr pr), bind_Ok, (proj2 (X2 1%nat _ ltac:(lia) Hm2)), bind_Ok by relem.
  cbn [column Nat.eqb]. fold (row_sums a b B2). rewrite (PlusEq_repr q psi k Hr pr), bind_Ok by relem.
  rewrite !trace_poly_repr, !bind_Ok, !(PlusEq_repr q psi k Hr pr), !bind_Ok by relem.
  cbn [vset length Nat.ltb Nat.leb insert list_insert]. rewrite bind_Ok. cbn [vget lookup list_lookup].
  rewrite bind_Ok, (PlusEq_repr q psi k Hr pr), bind_Ok by relem. done.
Qed.
End Traces.
End Updates.
