(* ===== verification/RgswEval.v ===== *)
(** * Blind rotation

    [EvalAcc] of both accumulators multiplies the polynomial the accumulator
    encrypts by [X^(-<a, s> * 2N/q)], up to a noise linear in the number of
    updates; and [KeyGenAcc] returns the keys this requires. *)
From stdpp Require Import base numbers list gmap.
From Stdlib Require Import ZArith Lia.
From S2P Require Import Prelude Bits NativeInt NativeIntProps NativeVector Ntt NttProps FttProps NbTheory AutoProps Poly PolyProps PolyAutoProps PolyDigitProps PolyAlg Rgsw RgswDigits RgswRing RgswKeys RgswAcc.
Open Scope Z_scope.

Lemma vget2_pair {A} (r0 r1 : list A) i x y :
  r0 !! i = Some x -> r1 !! i = Some y -> vget2 [r0; r1] 0 i = Ok x /\ vget2 [r0; r1] 1 i = Ok y.
Proof. intros H1 H2. split; by eapply vget2_Some. Qed.

(** A three-dimensional table given by its entries. *)
Definition table3 {A} (d1 d2 d3 : nat) (T : nat -> nat -> nat -> A) : list (list (list A)) :=
  map (fun i => map (fun j => map (T i j) (seq 0 d3)) (seq 0 d2)) (seq 0 d1).

Lemma table3_get {A} d1 d2 d3 (T : nat -> nat -> nat -> A) i j l : (i < d1)%nat -> (j < d2)%nat -> (l < d3)%nat ->
  (row ← vget (table3 d1 d2 d3 T) i; vget2 row j l) = Ok (T i j l).
Proof.
  intros Hi Hj Hl. unfold table3.
  rewrite (vget_Some _ _ _ (map_seq_lookup (fun i => map (fun j => map (T i j) (seq 0 d3)) (seq 0 d2)) _ _ Hi)), bind_Ok.
  eapply vget2_Some; [by apply (map_seq_lookup (fun j => map (T i j) (seq 0 d3))) | by apply map_seq_lookup].
Qed.

Lemma table3_set {A} d1 d2 d3 (T : nat -> nat -> nat -> A) i j l x : (i < d1)%nat -> (j < d2)%nat -> (l < d3)%nat ->
  (row ← vget (table3 d1 d2 d3 T) i; row ← vset2 row j l x; vset (table3 d1 d2 d3 T) i row)
  = Ok (table3 d1 d2 d3 (fun i' j' l' => if (i' =? i)%nat && (j' =? j)%nat && (l' =? l)%nat then x else T i' j' l')).
Proof.
  intros Hi Hj Hl. unfold table3.
  rewrite (vget_Some _ _ _ (map_seq_lookup (fun i => map (fun j => map (T i j) (seq 0 d3)) (seq 0 d2)) _ _ Hi)), bind_Ok.
  erewrite (vset2_at _ j l); [| by apply (map_seq_lookup (fun j => map (T i j) (seq 0 d3))) | by rewrite length_map, length_seq].
  rewrite bind_Ok, vset_lt, !map_seq_insert by (rewrite ?length_map, ?length_seq; done). f_equal.
  apply map_ext. intros i'. destruct (Nat.eqb_spec i' i) as [->|]; [|done].
  apply map_ext. intros j'. by destruct (Nat.eqb_spec j' j) as [->|].
Qed.

Section Rotation.
Context `{W : NativeWidth}.
Context (q psi : Z) (k : nat) (Hr : root_ok q psi k).
Context (af ai : NativeVectorT -> ILParams -> outcome NativeVectorT).
Context (g : Z) (dg : nat) (params : RingGSWCryptoParams) (Hp : gsw_params q psi k g dg params).
Abbreviation pr := (GetPolyParams params).
Abbreviation elem := (ring_elem q k).
Abbreviation n := (2 ^ k)%nat.
Context (s : list Z) (Hs : elem s).
Context (eps sigma kappa : Z) (H0 : 0 <= eps /\ 0 <= sigma /\ 0 <= kappa).
Context (Hsig : near q sigma s) (Hcar : carries_below q g dg kappa).
Abbreviation rotated := (rotated q psi k params s).
Abbreviation ext_bound := (ext_bound k g dg eps sigma kappa).
Abbreviation rgsw := (rgsw q psi k g dg params).

Lemma rotated_period f t t' beta acc : t mod order k = t' mod order k -> rotated f t beta acc -> rotated f t' beta acc.
Proof. intros E. unfold RgswAcc.rotated. by rewrite (pmono_period q k t t' E). Qed.

Lemma rotated_mono f t beta beta' acc : beta <= beta' -> rotated f t beta acc -> rotated f t beta' acc.
Proof.
  intros Hle (a & b & N & H1 & H2 & H3 & H4 & H5 & H6). exists a, b, N. split_and!; try done. by apply (near_mono _ beta).
Qed.

Lemma ext_bound_nonneg : 0 <= ext_bound.
Proof.
  unfold RgswAcc.ext_bound. assert (0 <= half_base g) by (apply Z.pow_nonneg; lia).
  pose proof (Z.mul_nonneg_nonneg kappa sigma). pose proof (Z.mul_nonneg_nonneg (half_base g) eps).
  assert (0 <= Z.of_nat n * (half_base g * eps)) by (apply Z.mul_nonneg_nonneg; lia).
  assert (0 <= Z.of_nat n * (kappa * sigma)) by (apply Z.mul_nonneg_nonneg; lia).
  assert (0 <= Z.of_nat (2 * dg) * (Z.of_nat n * (half_base g * eps))) by (apply Z.mul_nonneg_nonneg; lia). lia.
Qed.

(** ** One CGGI update *)

(** The messages of the two keys for the coefficient [si] of the secret. *)
Definition message (sign si : Z) : list Z := if si =? sign then pmono q k 0 else pzero k.

Lemma message_isometric sign si : isometric q k (message sign si).
Proof.
  unfold message. destruct (si =? sign); [apply (pmono_isometric q psi k Hr) | apply (pzero_isometric q psi k Hr)].
Qed.

(** The algebra of the update: the selected monomial. *)
Lemma cggi_phase x si a b P1a P1b P2a P2b X N f e1 e2 :
  -1 <= si <= 1 -> elem a -> elem b -> elem P1a -> elem P1b -> elem P2a -> elem P2b -> elem X -> elem N -> elem f ->
  elem e1 -> elem e2 -> phase q s a b = padd q (negacyclic q X f) N ->
  phase q s P1a P1b = padd q (negacyclic q (message 1 si) (phase q s a b)) e1 ->
  phase q s P2a P2b = padd q (negacyclic q (message (-1) si) (phase q s a b)) e2 ->
  let inc C1 C2 := padd q (negacyclic q C1 (mono_less_one q k x)) (negacyclic q C2 (mono_less_one q k (- x))) in
  phase q s (padd q a (inc P1a P2a)) (padd q b (inc P1b P2b))
  = padd q (negacyclic q (negacyclic q X (pmono q k (x * si))) f)
      (padd q (negacyclic q (pmono q k (x * si)) N)
        (padd q (negacyclic q e1 (mono_less_one q k x)) (negacyclic q e2 (mono_less_one q k (- x))))).
Proof.
  intros Hsi Ha Hb H1a H1b H2a H2b HX HN Hf He1 He2 Eph E1 E2 inc.
  pose proof (mono_less_one_elem q psi k Hr x) as Hm1. pose proof (mono_less_one_elem q psi k Hr (- x)) as Hm2.
  transitivity (padd q (phase q s a b) (padd q (negacyclic q (phase q s P1a P1b) (mono_less_one q k x))
                  (negacyclic q (phase q s P2a P2b) (mono_less_one q k (- x))))); [unfold inc, phase; ring_eq Hr|].
  rewrite E1, E2, Eph. destruct (message_isometric 1 si) as [M1 _]. destruct (message_isometric (-1) si) as [M2 _].
  assert (forall i, ev psi k i (pmono q k 0) ==[q] 1) as E0.
  { intros i. rewrite (ev_mono_pos q psi k Hr) by lia. done. }
  assert (forall i, 1 + ev psi k i (mono_less_one q k x) * ev psi k i (message 1 si)
            + ev psi k i (mono_less_one q k (- x)) * ev psi k i (message (-1) si) ==[q] ev psi k i (pmono q k (x * si))) as Es.
  { intros i. unfold mono_less_one, message. ev_norm Hr. rewrite !E0.
    assert (si = 0 \/ si = 1 \/ si = -1) as [-> | [-> | ->]] by lia; cbn [Z.eqb]; rewrite ?ev_zero, ?E0.
    - replace (x * 0) with 0 by lia. rewrite E0. apply eqmod_eq. ring.
    - replace (x * 1) with x by lia. apply eqmod_eq. ring.
    - replace (x * -1) with (- x) by lia. change (1 =? -1) with false. cbn iota. apply eqmod_eq. simpl. ring. }
  apply (ev_eq q psi k Hr); [relem | relem |]. intros i Hi. ev_norm Hr. rewrite <- !Es. apply eqmod_eq. ring.
Qed.

Lemma mono_less_one_near x beta e : elem e -> near q beta e -> near q (2 * beta) (negacyclic q e (mono_less_one q k x)).
Proof.
  intros He Hn. replace (negacyclic q e (mono_less_one q k x))
    with (psub q (negacyclic q (pmono q k x) e) (negacyclic q (pmono q k 0) e)) by (unfold mono_less_one; ring_eq Hr).
  replace (2 * beta) with (beta + beta) by lia.
  apply near_sub with (k := k); [relem | relem | |]; by apply (near_mono_mul q psi k Hr).
Qed.

Definition cggi_bound : Z := 4 * ext_bound.

Lemma AddToAccCGGI_rotates x si ek1 ek2 f t beta acc c :
  (10 <= k)%nat -> (8 <= 2 * dg)%nat -> monomials_ok q psi k params -> 0 <= x <= order k -> -1 <= si <= 1 -> elem f ->
  rgsw s (message 1 si) eps ek1 -> rgsw s (message (-1) si) eps ek2 -> rotated f t beta acc -> cache_for q psi k c ->
  returns (AddToAccCGGI af ai params (Some ek1) (Some ek2) x acc c)
    (fun '(acc', c') => rotated f (t + x * si) (beta + cggi_bound) acc' /\ cache_for q psi k c').
Proof.
  intros Hk H8 Hmon Hx Hsi Hf Hek1 Hek2 (a & b & N & -> & Ha & Hb & HN & Hn & Eph) Hc.
  destruct (message_isometric 1 si) as [M1 I1]. destruct (message_isometric (-1) si) as [M2 I2].
  destruct (external_product_phase q psi k Hr g dg params Hp s Hs eps a b Ha Hb _ ek1 M1 Hek1) as (A1 & B1 & E1 & -> & He1 & _ & X1).
  destruct (external_product_phase q psi k Hr g dg params Hp s Hs eps a b Ha Hb _ ek2 M2 Hek2) as (A2 & B2 & E2 & -> & He2 & _ & X2).
  pose proof (fun l => digit_of_elem q psi k Hr g a b l Ha Hb) as HD.
  assert (forall C, (forall l, elem (C l)) -> elem (row_sums q k g dg a b C)) as HS.
  { intros C HC. apply (psum_elem q psi k Hr). intros l _. pose proof (HC l). pose proof (HD l). relem. }
  pose proof (HS A1 (fun l => proj1 (He1 l))) as S1. pose proof (HS A2 (fun l => proj1 (He2 l))) as S3.
  pose proof (HS B1 (fun l => proj1 (proj2 (He1 l)))) as S2. pose proof (HS B2 (fun l => proj1 (proj2 (He2 l)))) as S4.
  pose proof (ext_noise_elem q psi k Hr g dg s Hs a b Ha Hb _ E1 M1 ltac:(intros l; apply He1)) as Hn1.
  pose proof (ext_noise_elem q psi k Hr g dg s Hs a b Ha Hb _ E2 M2 ltac:(intros l; apply He2)) as Hn2.
  pose proof (mono_less_one_elem q psi k Hr x) as Hm1. pose proof (mono_less_one_elem q psi k Hr (- x)) as Hm2.
  eapply returns_mono; [apply (AddToAccCGGI_repr q psi k Hr af ai g dg params Hp Hk a b A1 B1 A2 B2 x c);
    try done; intros l; split; (apply He1 || apply He2)|].
  intros [acc c'] [-> Hc']. split; [|done]. unfold RgswAcc.rotated. rewrite (pmono_add q psi k Hr).
  pose proof (pmono_elem q psi k Hr t) as Ht. pose proof (cggi_phase x si a b _ _ _ _ _ N f _ _ Hsi Ha Hb
    S1 S2 S3 S4 Ht HN Hf Hn1 Hn2 Eph X1 X2) as E.
  eexists _, _, _. split_and!; [done | relem | relem | | | exact E]; [relem|].
  unfold cggi_bound. replace (4 * ext_bound) with (2 * ext_bound + 2 * ext_bound) by lia.
  apply near_add with (k := k); [relem | relem | by apply (near_mono_mul q psi k Hr) |].
  apply near_add with (k := k); [relem | relem | |]; apply mono_less_one_near; try done;
    apply (ext_noise_near q psi k Hr g dg params Hp s Hs eps sigma kappa H0 Hsig Hcar); try done;
    intros l; split; (apply He1 || apply He2).
Qed.

(** ** The loops *)

(** The LWE modulus [2 ^ e] divides twice the dimension. *)
Context (e : Z) (He : 0 <= e <= Z.of_nat k + 1).
Abbreviation factor := (factor k e).

Lemma factor_pos : 0 < factor.
Proof. unfold RgswKeys.factor. apply pow2_pos. lia. Qed.

Lemma lwe_modulus_word : 0 < 2 ^ e <= 2 ^ 25 /\ 2 ^ 32 <= 2 ^ wbits.
Proof.
  pose proof (size_k q psi k Hr). pose proof wbits_range. split; [split; [apply pow2_pos; lia|]|]; apply Z.pow_le_mono_r; lia.
Qed.

(** A ciphertext vector and a secret, with their inner product. *)
Context (av : NativeVectorT) (Hav : reduced (2 ^ e) (m_data av)) (sec : nat -> Z).
Definition inner (m : nat) : Z := nsum (fun i => m_data av !!! i * sec i) m.

Lemma entry_at i : (i < GetLength av)%nat -> vget (m_data av) i = Ok (m_data av !!! i) /\ 0 <= m_data av !!! i < 2 ^ e.
Proof.
  intros Hi. unfold GetLength in Hi. split; [apply vget_Some, list_lookup_lookup_total_lt; done | by apply reduced_at].
Qed.

Lemma neg_entry x : 0 <= x < 2 ^ e -> ModSub (2 ^ e) x (2 ^ e) = Ok ((- x) mod 2 ^ e).
Proof.
  intros Hx. destruct lwe_modulus_word. rewrite ModSub_correct by lia. f_equal.
  rewrite <- (Z_mod_plus_full (- x) 1). f_equal. lia.
Qed.

(** The rotation of one coefficient, in exponents. *)
Lemma turn_exponent t i :
  (- (factor * inner i) + t + ((- (m_data av !!! i)) mod 2 ^ e * factor) * sec i) mod order k
  = (- (factor * inner (S i)) + t) mod order k.
Proof.
  pose proof (order_pos k). pose proof lwe_modulus_word as [? _]. cbn [inner nsum]. unfold inner. cbn [nsum]. fold (inner i).
  set (x := m_data av !!! i). pose proof (Z.div_mod (- x) (2 ^ e) ltac:(lia)) as D.
  rewrite <- (Z_mod_plus_full _ ((- x) / 2 ^ e * sec i)), (order_factor k e He). f_equal.
  assert ((- x) mod 2 ^ e = - x - 2 ^ e * ((- x) / 2 ^ e)) as -> by lia. ring.
Qed.

Context (f : list Z) (Hf : elem f) (t beta0 : Z).

(** CGGI: one update for each coefficient. *)
Definition cggi_keys (m : nat) (ek : RingGSWACCKeyImpl) : Prop :=
  exists K1 K2 : nat -> RingGSWEvalKeyImpl,
    ek = [[map (fun i => Some (K1 i)) (seq 0 m); map (fun i => Some (K2 i)) (seq 0 m)]] /\
    forall i, (i < m)%nat -> rgsw s (message 1 (sec i)) eps (K1 i) /\ rgsw s (message (-1) (sec i)) eps (K2 i).

Lemma EvalAccCGGI_rotates ek acc c :
  (10 <= k)%nat -> (8 <= 2 * dg)%nat -> monomials_ok q psi k params -> m_modulus av = 2 ^ e ->
  cggi_keys (GetLength av) ek -> (forall i, -1 <= sec i <= 1) -> rotated f t beta0 acc -> cache_for q psi k c ->
  returns (EvalAccCGGI af ai params ek acc av c)
    (fun '(acc', c') => rotated f (- (factor * inner (GetLength av)) + t)
                          (beta0 + Z.of_nat (GetLength av) * cggi_bound) acc' /\ cache_for q psi k c').
Proof.
  intros Hk H8 Hmon Hmod (K1 & K2 & -> & HK) Hsec Hacc Hc. unfold EvalAccCGGI. rewrite Hmod, (gp_N _ _ _ _ _ _ Hp).
  pose proof lwe_modulus_word as [He1 He2]. pose proof factor_pos. pose proof (size_small q psi k Hr).
  pose proof (order_factor k e He) as Eo. assert (2 * 2 ^ Z.of_nat k = order k) as E by (unfold order; rewrite Z.pow_add_r by lia; lia).
  pose proof (pow2_pos (Z.of_nat k) ltac:(lia)).
  eapply returns_mono; [apply (for_range_inv (fun i '(acc', c') =>
    rotated f (- (factor * inner i) + t) (beta0 + Z.of_nat i * cggi_bound) acc' /\ cache_for q psi k c'))|].
  - lia.
  - split; [|done]. unfold inner. cbn [nsum]. replace (- (factor * 0) + t) with t by lia. by replace (beta0 + _) with beta0 by lia.
  - intros i [acc1 c1] Hi [Ha1 Hc1]. destruct (entry_at i ltac:(lia)) as [Ei Ri].
    cbn [vget lookup list_lookup]. rewrite !bind_Ok.
    destruct (vget2_pair _ _ i _ _ (map_seq_lookup (fun i => Some (K1 i)) _ _ (proj2 Hi))
      (map_seq_lookup (fun i => Some (K2 i)) _ _ (proj2 Hi))) as [-> ->]. rewrite !bind_Ok.
    rewrite Ei, bind_Ok, neg_entry, bind_Ok by done. rewrite (u32_small (2 ^ e)), udiv_pos, bind_Ok by lia.
    rewrite u32_small by lia. rewrite E, Eo, Z.mul_comm, Z.div_mul by lia.
    pose proof (mod_range (- (m_data av !!! i)) (2 ^ e) ltac:(lia)).
    assert ((- (m_data av !!! i)) mod 2 ^ e * factor < 2 ^ e * factor) by (apply Z.mul_lt_mono_pos_r; lia).
    assert (0 <= (- (m_data av !!! i)) mod 2 ^ e * factor) by (apply Z.mul_nonneg_nonneg; lia).
    unfold Mul, MulFast. rewrite wrap_small by lia.
    eapply returns_mono; [apply (AddToAccCGGI_rotates _ (sec i) _ _ f (- (factor * inner i) + t) (beta0 + Z.of_nat i * cggi_bound));
      try done; try lia; apply HK; lia|].
    intros [acc2 c2] [Ha2 Hc2]. split; [|done].
    replace (beta0 + Z.of_nat (S i) * cggi_bound) with (beta0 + Z.of_nat i * cggi_bound + cggi_bound) by lia.
    eapply rotated_period; [apply turn_exponent|]. done.
  - intros [acc' c'] H'. done.
Qed.

(** ** Ducas-Micciancio: one update for each non-zero digit *)

Context (R : Z) (nd : nat) (HR : 2 <= R < 2 ^ 31) (Hcov : 2 ^ e <= R ^ Z.of_nat nd).
Context (HbR : GetBaseR params = R) (HdR : GetDigitsR params = map (fun i => R ^ Z.of_nat i) (seq 0 nd)).
Context (Hq : Getq params = 2 ^ e).
Abbreviation dm_bound := (dm_bound k g dg eps sigma kappa).

Definition dm_keys (m : nat) (ek : RingGSWACCKeyImpl) : Prop :=
  exists T, ek = table3 m (Z.to_nat R) nd T /\
    forall i j l, (i < m)%nat -> (1 <= j < Z.to_nat R)%nat -> (l < nd)%nat ->
      exists K, T i j l = Some K /\ rgsw s (pmono q k (sec i * Z.of_nat j * R ^ Z.of_nat l * factor)) eps K.

Lemma dm_bound_nonneg : 0 <= dm_bound.
Proof.
  unfold RgswAcc.dm_bound. pose proof ext_bound_nonneg. assert (0 <= half_base g) by (apply Z.pow_nonneg; lia).
  assert (0 <= Z.of_nat n * (half_base g * eps)) by (apply Z.mul_nonneg_nonneg; [lia | apply Z.mul_nonneg_nonneg; lia]).
  assert (0 <= Z.of_nat n * (half_base g * sigma)) by (apply Z.mul_nonneg_nonneg; [lia | apply Z.mul_nonneg_nonneg; lia]). lia.
Qed.

(** The digits of [x] read so far. *)
Definition digits_upto (x : Z) (l : nat) : Z := nsum (fun j => digit_at R j x * R ^ Z.of_nat j) l.

Lemma dm_turn ek i x l acc c t' beta' :
  dm_keys (GetLength av) ek -> (i < GetLength av)%nat -> (l < nd)%nat -> 0 <= x < 2 ^ e ->
  rotated f (t' + digits_upto x l * sec i * factor) beta' acc -> cache_for q psi k c ->
  returns
    (r ← Mod (x / R ^ Z.of_nat l) (wrap R);
     '(acc, c) ← (if negb (u32 r =? 0) then
                    row ← vget ek i; key ← vget2 row (Z.to_nat (u32 r)) l; AddToAccDM af ai params key acc c
                  else Ok (acc, c));
     aI ← DividedByEq (x / R ^ Z.of_nat l) (wrap R);
     Ok (acc, c, aI))
    (fun '(acc', c', aI) => rotated f (t' + digits_upto x (S l) * sec i * factor) (beta' + dm_bound) acc' /\
       cache_for q psi k c' /\ aI = x / R ^ Z.of_nat (S l)).
Proof.
  intros (T & -> & HT) Hi Hl Hx Hacc Hc. pose proof lwe_modulus_word as [He1 He2].
  rewrite (wrap_small R) by lia. unfold Mod. rewrite umod_pos, bind_Ok by lia. fold (digit_at R l x).
  assert (0 <= digit_at R l x < R) as Hd by (apply mod_range; lia). rewrite u32_small by lia.
  assert (DividedByEq (x / R ^ Z.of_nat l) R = Ok (x / R ^ Z.of_nat (S l))) as ->.
  { unfold DividedByEq. rewrite (proj2 (Z.eqb_neq R 0)), udiv_pos by lia. f_equal.
    rewrite Nat2Z.inj_succ, Z.pow_succ_r, (Z.mul_comm R), Z.div_div by (lia || apply Z.pow_pos_nonneg; lia). done. }
  assert (digits_upto x (S l) = digits_upto x l + digit_at R l x * R ^ Z.of_nat l) as Ed by done.
  destruct (Z.eqb_spec (digit_at R l x) 0) as [E|Hne]; cbn [negb].
  - rewrite bind_Ok. cbn beta iota. rewrite bind_Ok. split_and!; [|done|done].
    replace (digits_upto x (S l)) with (digits_upto x l) by (rewrite Ed, E; lia).
    eapply rotated_mono; [|exact Hacc]. pose proof dm_bound_nonneg. lia.
  - destruct (HT i (Z.to_nat (digit_at R l x)) l ltac:(lia) ltac:(lia) Hl) as (K & EK & HK).
    pose proof (table3_get (GetLength av) (Z.to_nat R) nd T i (Z.to_nat (digit_at R l x)) l ltac:(lia) ltac:(lia) Hl) as Eg.
    rewrite EK in Eg. destruct (vget (table3 (GetLength av) (Z.to_nat R) nd T) i) as [row| | |]; try done.
    rewrite bind_Ok in Eg. rewrite bind_Ok, Eg, bind_Ok.
    eapply returns_bind; [by eapply (AddToAccDM_rotates q psi k Hr af ai g dg params Hp s Hs eps sigma kappa); try exact HK; try exact Hacc|].
    intros [acc2 c2] [Ha2 Hc2]. rewrite bind_Ok. split_and!; [|done|done].
    replace (t' + digits_upto x (S l) * sec i * factor) with
      (t' + digits_upto x l * sec i * factor + sec i * Z.of_nat (Z.to_nat (digit_at R l x)) * R ^ Z.of_nat l * factor); [done|].
    rewrite Ed, Z2Nat.id by lia. ring.
Qed.

Lemma EvalAccDM_rotates ek acc c :
  dm_keys (GetLength av) ek -> rotated f t beta0 acc -> cache_for q psi k c ->
  returns (EvalAccDM af ai params ek acc av c)
    (fun '(acc', c') => rotated f (- (factor * inner (GetLength av)) + t)
                          (beta0 + Z.of_nat (GetLength av) * (Z.of_nat nd * dm_bound)) acc' /\ cache_for q psi k c').
Proof.
  intros Hek Hacc Hc. unfold EvalAccDM. rewrite HbR, Hq, HdR, length_map, length_seq.
  eapply returns_mono; [apply (for_range_inv (fun i '(acc', c') =>
    rotated f (- (factor * inner i) + t) (beta0 + Z.of_nat i * (Z.of_nat nd * dm_bound)) acc' /\ cache_for q psi k c'))|].
  - lia.
  - split; [|done]. unfold inner. cbn [nsum]. replace (- (factor * 0) + t) with t by lia. by replace (beta0 + _) with beta0 by lia.
  - intros i [acc1 c1] Hi [Ha1 Hc1]. destruct (entry_at i ltac:(lia)) as [Ei Ri]. pose proof lwe_modulus_word as [He1 He2].
    rewrite Ei, bind_Ok, neg_entry, bind_Ok by done. set (x := (- (m_data av !!! i)) mod 2 ^ e).
    assert (0 <= x < 2 ^ e) as Hx by (apply mod_range; lia).
    eapply returns_bind; [apply (for_range_inv (fun l '(acc', c', aI) =>
      rotated f (- (factor * inner i) + t + digits_upto x l * sec i * factor)
        (beta0 + Z.of_nat i * (Z.of_nat nd * dm_bound) + Z.of_nat l * dm_bound) acc' /\
      cache_for q psi k c' /\ aI = x / R ^ Z.of_nat l))|].
    + lia.
    + split_and!; [|done | by rewrite Z.div_1_r]. unfold digits_upto. cbn [nsum]. by rewrite !Z.mul_0_l, !Z.add_0_r.
    + intros l [[acc2 c2] aI] Hl (Ha2 & Hc2 & ->). eapply returns_mono; [by apply dm_turn; [done | lia | lia | done | exact Ha2 |]|].
      intros [[acc3 c3] aI] (Ha3 & Hc3 & ->). split_and!; [|done|done].
      replace (Z.of_nat (S l) * dm_bound) with (Z.of_nat l * dm_bound + dm_bound) by lia. by rewrite Z.add_assoc.
    + intros [[acc2 c2] aI] (Ha2 & Hc2 & _). split; [|done].
      replace (beta0 + Z.of_nat (S i) * (Z.of_nat nd * dm_bound)) with
        (beta0 + Z.of_nat i * (Z.of_nat nd * dm_bound) + Z.of_nat nd * dm_bound) by lia.
      eapply rotated_period; [apply turn_exponent|]. fold x. unfold digits_upto in Ha2.
      rewrite digits_recompose, Z.mod_small in Ha2 by lia.
      by replace (x * factor * sec i) with (x * sec i * factor) by ring.
  - intros [acc' c'] H'. done.
Qed.
End Rotation.
