(* ===== verification/RgswKeyGen.v ===== *)
(** * Generation of the accumulator keys and of the tables

    [KeyGenAcc] of both accumulators returns the keys the blind rotation needs, and
    [PreCompute] the gadget and the monomials. *)
From stdpp Require Import base numbers list gmap.
From Stdlib Require Import ZArith Lia.
From S2P Require Import Prelude Bits NativeInt NativeIntProps NativeVector Ntt NttProps FttProps NbTheory AutoProps Poly PolyProps PolyAutoProps PolyDigitProps PolyAlg Rgsw RgswDigits RgswRing RgswKeys RgswAcc RgswEval.
Open Scope Z_scope.

(** A loop that stops without a state at turn [i]. *)
Lemma for_range_stop {S} (r : outcome S) (I : nat -> S -> Prop) lo i hi body (s : S) :
  (forall f : S -> outcome S, r ≫= f = r) -> (lo <= i < hi)%nat -> I lo s ->
  (forall j s, (lo <= j < i)%nat -> I j s -> returns (body j s) (I (Datatypes.S j))) ->
  (forall s, I i s -> body i s = r) -> for_range lo hi body s = r.
Proof.
  intros Hr Hi H0 Hstep Ht. unfold for_range. remember (i - lo)%nat as d eqn:Ed.
  revert lo s Hi H0 Hstep Ed. induction d as [|d IH]; intros lo s Hi H0 Hstep Ed.
  - replace i with lo in * by lia. destruct (hi - lo)%nat eqn:E; [lia|]. cbn [for_n]. by rewrite Ht.
  - destruct (hi - lo)%nat as [|m] eqn:E; [lia|]. cbn [for_n].
    pose proof (Hstep lo s ltac:(lia) H0) as (s' & -> & Hs')%returns_Ok. rewrite bind_Ok.
    replace m with (hi - Datatypes.S lo)%nat by lia. apply IH; [lia | done | | lia].
    intros j s2 Hj. apply Hstep. lia.
Qed.

(** The first index without a decidable property. *)
Lemma first_not (P : nat -> Prop) `{!forall i, Decision (P i)} m :
  ~ Forall P (seq 0 m) -> exists i, (i < m)%nat /\ ~ P i /\ forall j, (j < i)%nat -> P j.
Proof.
  induction m as [|m IH]; intros Hnot; [by destruct Hnot|].
  destruct (decide (Forall P (seq 0 m))) as [Ha|Hn].
  - exists m. rewrite Forall_forall in Ha. split_and!; [lia | | intros j Hj; apply Ha, elem_of_seq; lia].
    intros HP. apply Hnot. rewrite seq_S. apply Forall_app_2; [by apply Forall_forall | by constructor].
  - destruct (IH Hn) as (i & Hi & H1 & H2). exists i. split_and!; [lia | done | done].
Qed.

Section KeyGen.
Context `{W : NativeWidth}.
Context (q psi : Z) (k : nat) (Hr : root_ok q psi k).
Context (af ai : NativeVectorT -> ILParams -> outcome NativeVectorT).
Context (g : Z) (dg : nat) (params : RingGSWCryptoParams) (Hp : gsw_params q psi k g dg params).
Abbreviation pr := (GetPolyParams params).
Abbreviation elem := (ring_elem q k).
Context (s : list Z) (Hs : elem s) (eps : Z).
Abbreviation skNTT := (repr q psi k pr EVALUATION s).
Abbreviation rgsw := (rgsw q psi k g dg params).

(** The LWE secret, modulo [qs]. *)
Context (sv : NativeVectorT) (qs : Z) (Hqs : 3 <= qs < 2 ^ 31).
Context (Hmod : m_modulus sv = qs) (Hsv : reduced qs (m_data sv)).
Definition secret (i : nat) : Z := let x := m_data sv !!! i in if x >? qs / 2 then x - qs else x.

Lemma secret_code i : (i < GetLength sv)%nat ->
  vget (m_data sv) i = Ok (m_data sv !!! i) /\
  (let x := i32 (m_data sv !!! i) in if x >? Z.shiftr (i32 qs) 1 then scheck32 (x - i32 qs) else Ok x) = Ok (secret i).
Proof.
  intros Hi. unfold GetLength in Hi. pose proof (reduced_at qs _ i Hsv Hi) as Hx.
  split; [by apply vget_Some, list_lookup_lookup_total_lt|]. cbv zeta. rewrite !i32_small by lia.
  unfold secret. rewrite Z.shiftr_div_pow2 by lia. change (2 ^ 1) with 2. destruct (_ >? _); [|done].
  unfold scheck32. by rewrite (proj2 (Z.leb_le _ _)), (proj2 (Z.ltb_lt _ _)) by lia.
Qed.

(** ** CGGI *)

Lemma ternary_messages_ok i : (i < GetLength sv)%nat ->
  ternary_messages (i32 qs) (Z.shiftr (i32 qs) 1) (m_data sv !!! i)
  = if bool_decide (-1 <= secret i <= 1)
    then Ok (if secret i =? 1 then 1 else 0, if secret i =? -1 then 1 else 0) else Throw not_implemented_error.
Proof.
  intros Hi. destruct (secret_code i Hi) as [_ E]. unfold ternary_messages. cbv zeta in E. rewrite E, bind_Ok.
  case_bool_decide as H.
  - assert (secret i = 0 \/ secret i = 1 \/ secret i = -1) as [-> | [-> | ->]] by lia; done.
  - rewrite !(proj2 (Z.eqb_neq _ _)) by lia. done.
Qed.

Lemma KeyGenCGGI_message (b : bool) U E c :
  uniform q k U -> errors q k eps E -> cache_for q psi k c ->
  returns (KeyGenCGGI af ai params skNTT (if b then 1 else 0) U E c)
    (fun '(ek, c') => rgsw s (if b then pmono q k 0 else pzero k) eps ek /\ cache_for q psi k c').
Proof.
  intros HU HE Hc. eapply returns_mono; [by apply (KeyGenCGGI_rgsw q psi k Hr af ai g dg params Hp s Hs eps)|].
  intros [ek c'] [H1 H2]. split; [|done]. by destruct b.
Qed.

Definition cggi_turn (U E : nat -> nat -> nat -> NativeVectorT) (i : nat) (st : RingGSWACCKeyImpl * FTTCache)
    : outcome (RingGSWACCKeyImpl * FTTCache) :=
  let '(ek, c) := st in
  svi ← vget (m_data sv) i;
  '(m0, m1) ← ternary_messages (i32 qs) (Z.shiftr (i32 qs) 1) svi;
  row ← vget ek 0;
  '(k0, c) ← KeyGenCGGI af ai params skNTT m0 (U i 0%nat) (E i 0%nat) c;
  row ← vset2 row 0 i (Some k0);
  '(k1, c) ← KeyGenCGGI af ai params skNTT m1 (U i 1%nat) (E i 1%nat) c;
  row ← vset2 row 1 i (Some k1);
  ek ← vset ek 0 row;
  Ok (ek, c).

(** The two rows of keys, complete up to [i]. *)
Definition cggi_upto (m i : nat) (st : RingGSWACCKeyImpl * FTTCache) : Prop :=
  exists K1 K2 : nat -> RingGSWEvalKey,
    fst st = [[map K1 (seq 0 m); map K2 (seq 0 m)]] /\ cache_for q psi k (snd st) /\
    forall j, (j < i)%nat -> exists k1 k2, K1 j = Some k1 /\ K2 j = Some k2 /\
      rgsw s (message q k 1 (secret j)) eps k1 /\ rgsw s (message q k (-1) (secret j)) eps k2.

Lemma cggi_turn_ok U E i st : (forall j b, uniform q k (U j b)) -> (forall j b, errors q k eps (E j b)) ->
  (i < GetLength sv)%nat -> -1 <= secret i <= 1 -> cggi_upto (GetLength sv) i st ->
  returns (cggi_turn U E i st) (cggi_upto (GetLength sv) (S i)).
Proof.
  intros HU HE Hi Ht (K1 & K2 & Eek & Hc & HK). destruct st as [ek c]. cbn [fst snd] in *. subst ek. unfold cggi_turn.
  rewrite (proj1 (secret_code i Hi)), bind_Ok, ternary_messages_ok, bool_decide_eq_true_2, bind_Ok by done.
  cbn [vget lookup list_lookup]. rewrite bind_Ok.
  eapply returns_bind; [by apply (KeyGenCGGI_message (secret i =? 1))|]. intros [k0 c1] [Hk0 Hc1].
  erewrite vset2_at, bind_Ok; [|done | by rewrite length_map, length_seq].
  eapply returns_bind; [by apply (KeyGenCGGI_message (secret i =? -1))|]. intros [k1 c2] [Hk1 Hc2].
  cbn [insert list_insert]. erewrite vset2_at, bind_Ok; [|done | by rewrite length_map, length_seq].
  cbn [vset length Nat.ltb Nat.leb insert list_insert]. rewrite bind_Ok, !map_seq_insert by done.
  eexists _, _. split_and!; [done | done |]. intros j Hj. cbv beta. destruct (Nat.eqb_spec j i) as [->|].
  - eexists _, _. split_and!; [done | done | exact Hk0 | exact Hk1].
  - apply HK. lia.
Qed.

(** The keys of a ternary secret; any other secret throws. *)
Lemma KeyGenAccCGGI_ok U E c :
  (forall j b, uniform q k (U j b)) -> (forall j b, errors q k eps (E j b)) -> cache_for q psi k c ->
  if bool_decide (Forall (fun i => -1 <= secret i <= 1) (seq 0 (GetLength sv)))
  then returns (KeyGenAccCGGI af ai params skNTT sv U E c)
         (fun '(ek, c') => cggi_keys q psi k g dg params s eps secret (GetLength sv) ek /\ cache_for q psi k c')
  else KeyGenAccCGGI af ai params skNTT sv U E c = Throw not_implemented_error.
Proof.
  intros HU HE Hc. unfold KeyGenAccCGGI. rewrite Hmod.
  assert (cggi_upto (GetLength sv) 0 (repeat (repeat (repeat None (GetLength sv)) 2) 1, c)) as Hinit.
  { exists (fun _ => None), (fun _ => None). cbn [fst snd repeat]. split_and!; [| done | intros; lia].
    assert (map (fun _ => None) (seq 0 (GetLength sv)) = repeat (None : RingGSWEvalKey) (GetLength sv)) as ->; [|done].
    generalize 0%nat. induction (GetLength sv) as [|m IH]; intros o; [done|]. cbn [seq map repeat]. by rewrite IH. }
  case_bool_decide as Ht.
  - rewrite Forall_forall in Ht. eapply returns_mono; [apply (for_range_inv (cggi_upto (GetLength sv)) 0 (GetLength sv) (cggi_turn U E))|].
    + lia.
    + done.
    + intros i st Hi Hst. apply cggi_turn_ok; try done; [lia|]. apply Ht. apply elem_of_seq. lia.
    + intros [ek c'] (K1 & K2 & Eek & Hc' & HK). cbn [fst snd] in *. subst ek. split; [|done].
      exists (fun i => default [] (K1 i)), (fun i => default [] (K2 i)). split.
      * assert (map K1 (seq 0 (GetLength sv)) = map (fun i => Some (default [] (K1 i))) (seq 0 (GetLength sv)) /\
                map K2 (seq 0 (GetLength sv)) = map (fun i => Some (default [] (K2 i))) (seq 0 (GetLength sv))) as [<- <-]; [|done].
        split; apply map_ext_in; intros j Hj%in_seq; destruct (HK j ltac:(lia)) as (k1 & k2 & E1 & E2 & _); by rewrite ?E1, ?E2.
      * intros i Hi. destruct (HK i Hi) as (k1 & k2 & -> & -> & H1 & H2). done.
  - (* the first coefficient that is not ternary *)
    destruct (first_not (fun i => -1 <= secret i <= 1) _ Ht) as (i & Hi & Hn & Hmin).
    apply (for_range_stop _ (cggi_upto (GetLength sv)) 0 i _ (cggi_turn U E)); [done | lia | done | |].
    + intros j st Hj Hst. apply cggi_turn_ok; try done; [lia|]. apply Hmin. lia.
    + intros [ek c'] _. unfold cggi_turn. rewrite (proj1 (secret_code i Hi)), bind_Ok, ternary_messages_ok, bool_decide_eq_false_2 by done.
      done.
Qed.

(** ** Ducas-Micciancio *)

Context (e : Z) (He : 0 <= e <= Z.of_nat k + 1) (Hq : Getq params = 2 ^ e).
Context (R : Z) (nd : nat) (HR : 2 <= R < 2 ^ 31) (Hdig : forall l, (l < nd)%nat -> R ^ Z.of_nat l < 2 ^ 31).
Context (HbR : GetBaseR params = R) (HdR : GetDigitsR params = map (fun i => R ^ Z.of_nat i) (seq 0 nd)).
Abbreviation factor := (factor k e).

Lemma i64_eqmod x : i64 x ==[2 ^ 64] x.
Proof.
  unfold i64. destruct (_ <? _); [apply u64_eqmod|]. transitivity (u64 x); [|apply u64_eqmod].
  rewrite <- (eqmod_multiple _ (u64 x - 2 ^ 64) 1). apply eqmod_eq. ring.
Qed.

(** The message of the code and the exact product have the same monomial. *)
Lemma pmono_u64 m m' : m ==[2 ^ 64] m' -> pmono q k (m * factor) = pmono q k (m' * factor).
Proof.
  intros E. apply pmono_period. pose proof (pow2_pos e ltac:(lia)). pose proof (size_k q psi k Hr).
  assert (0 < factor) by (apply pow2_pos; lia). rewrite (order_factor k e He), !Z.mul_mod_distr_r by lia. f_equal.
  assert (2 ^ e | 2 ^ 64) as Hd by (exists (2 ^ (64 - e)); rewrite <- Z.pow_add_r by lia; f_equal; lia).
  rewrite <- (Z.mod_mod_divide m (2 ^ 64)), <- (Z.mod_mod_divide m' (2 ^ 64)) by done. f_equal. apply E.
Qed.

Lemma dm_message_ok i j l : (i < GetLength sv)%nat -> (l < nd)%nat ->
  returns (dm_message (i32 qs) (Z.shiftr (i32 qs) 1) (m_data sv !!! i) j (R ^ Z.of_nat l))
    (fun m => m ==[2 ^ 64] secret i * Z.of_nat j * R ^ Z.of_nat l).
Proof.
  intros Hi Hl. destruct (secret_code i Hi) as [_ E]. unfold dm_message. cbv zeta in E. rewrite E, bind_Ok. cbn [returns].
  pose proof (Z.pow_pos_nonneg R (Z.of_nat l) ltac:(lia) ltac:(lia)).
  rewrite (i32_small (R ^ _)) by (split; [lia | by apply Hdig]). by rewrite i64_eqmod, !u64_eqmod.
Qed.

Definition dm_good (T : nat -> nat -> nat -> RingGSWEvalKey) (i j l : nat) : Prop :=
  exists K, T i j l = Some K /\ rgsw s (pmono q k (secret i * Z.of_nat j * R ^ Z.of_nat l * factor)) eps K.

(** The keys made when the loops are at [(i, j, l)]. *)
Definition dm_upto (i j l : nat) (st : RingGSWACCKeyImpl * FTTCache) : Prop :=
  exists T, fst st = table3 (GetLength sv) (Z.to_nat R) nd T /\ cache_for q psi k (snd st) /\
    forall i' j' l', (1 <= j' < Z.to_nat R)%nat -> (l' < nd)%nat ->
      (i' < i \/ i' = i /\ (j' < j \/ j' = j /\ l' < l))%nat -> dm_good T i' j' l'.

Definition dm_step (U E : nat -> nat -> nat -> nat -> NativeVectorT) (i j l : nat) (st : RingGSWACCKeyImpl * FTTCache)
    : outcome (RingGSWACCKeyImpl * FTTCache) :=
  let '(ek, c) := st in
  svi ← vget (m_data sv) i;
  digit ← vget (GetDigitsR params) l;
  m ← dm_message (i32 qs) (Z.shiftr (i32 qs) 1) svi j digit;
  '(key, c) ← KeyGenDM af ai params skNTT m (U i j l) (E i j l) c;
  row ← vget ek i;
  row ← vset2 row j l (Some key);
  ek ← vset ek i row;
  Ok (ek, c).

Lemma dm_step_ok U E i j l st :
  (forall i j l, uniform q k (U i j l)) -> (forall i j l, errors q k eps (E i j l)) ->
  (i < GetLength sv)%nat -> (1 <= j < Z.to_nat R)%nat -> (l < nd)%nat -> dm_upto i j l st ->
  returns (dm_step U E i j l st) (dm_upto i j (S l)).
Proof.
  intros HU HE Hi Hj Hl (T & Eek & Hc & HT). destruct st as [ek c]. cbn [fst snd] in *. subst ek. unfold dm_step.
  rewrite (proj1 (secret_code i Hi)), bind_Ok, HdR.
  rewrite (vget_Some _ _ _ (map_seq_lookup (fun i => R ^ Z.of_nat i) _ _ Hl)), bind_Ok.
  eapply returns_bind; [by apply dm_message_ok|]. intros m Em.
  eapply returns_bind; [by apply (KeyGenDM_rgsw q psi k Hr af ai g dg params Hp s Hs eps e He Hq m)|].
  intros [key c1] [Hkey Hc1]. rewrite (pmono_u64 _ _ Em) in Hkey.
  pose proof (table3_set (GetLength sv) (Z.to_nat R) nd T i j l (Some key) Hi ltac:(lia) Hl) as Es.
  destruct (vget (table3 _ _ _ T) i) as [row| | |]; try done. rewrite bind_Ok in Es. rewrite bind_Ok.
  destruct (vset2 row j l (Some key)) as [row'| | |]; try done. rewrite bind_Ok in Es. rewrite bind_Ok, Es, bind_Ok.
  eexists. split_and!; [done | done |]. intros i' j' l' Hj' Hl' Hpos. unfold dm_good.
  destruct (Nat.eqb_spec i' i) as [->|], (Nat.eqb_spec j' j) as [->|], (Nat.eqb_spec l' l) as [->|]; cbn [andb];
    try (apply HT; [done | done | lia]). by exists key.
Qed.

Lemma repeat_table m r d : repeat (repeat (repeat None d) r) m = table3 m r d (fun _ _ _ => None : RingGSWEvalKey).
Proof.
  assert (forall A (x : A) n o, map (fun _ => x) (seq o n) = repeat x n) as E.
  { intros A x n. induction n as [|n IH]; intros o; [done|]. cbn [seq map repeat]. by rewrite IH. }
  unfold table3. by rewrite !E.
Qed.

Lemma dm_upto_weaken i j l i' j' l' st :
  (forall a b c, (1 <= b < Z.to_nat R)%nat -> (c < nd)%nat ->
     (a < i' \/ a = i' /\ (b < j' \/ b = j' /\ c < l'))%nat -> (a < i \/ a = i /\ (b < j \/ b = j /\ c < l))%nat) ->
  dm_upto i j l st -> dm_upto i' j' l' st.
Proof. intros H (T & H1 & H2 & H3). exists T. split_and!; [done | done |]. intros. apply H3; auto. Qed.

Lemma KeyGenAccDM_ok U E c :
  (forall i j l, uniform q k (U i j l)) -> (forall i j l, errors q k eps (E i j l)) -> cache_for q psi k c ->
  returns (KeyGenAccDM af ai params skNTT sv U E c)
    (fun '(ek, c') => dm_keys q psi k g dg params s eps e secret R nd (GetLength sv) ek /\ cache_for q psi k c').
Proof.
  intros HU HE Hc. unfold KeyGenAccDM. rewrite Hmod, HbR, HdR, length_map, length_seq, repeat_table, <- HdR.
  eapply returns_mono; [apply (for_range_inv (fun i => dm_upto i 1 0))|].
  - lia.
  - eexists. split_and!; [done | done |]. intros; lia.
  - intros i st Hi Hst. eapply returns_mono; [apply (for_range_inv (fun j => dm_upto i j 0)); [lia | done |]|].
    + intros j st1 Hj Hst1. eapply returns_mono; [apply (for_range_inv (dm_upto i j)); [lia | done |]|].
      * intros l st2 Hl Hst2. change (returns (dm_step U E i j l st2) (dm_upto i j (S l))). apply dm_step_ok; done || lia.
      * intros st2. apply dm_upto_weaken. lia.
    + intros st1. apply dm_upto_weaken. lia.
  - intros [ek c'] (T & E1 & E2 & HT). cbn [fst snd] in *. split; [|done]. exists T. split; [done|].
    intros i j l Hi Hj Hl. apply HT; lia.
Qed.
End KeyGen.
