(* ===== verification/RgswTables.v ===== *)
(** * The tables of the RingGSW parameters

    [PreCompute] fills the gadget with the powers of the base, the digits of the
    Ducas-Micciancio method with the powers of its base and, for CGGI, the table of
    the polynomials [X^m - 1]. *)
From stdpp Require Import base numbers list gmap.
From Stdlib Require Import ZArith Lia.
From S2P Require Import Prelude Bits NativeInt NativeIntProps NativeVector Ntt NttProps FttProps NbTheory AutoProps Poly PolyProps PolyAutoProps PolyDigitProps PolyAlg Rgsw RgswDigits RgswRing RgswKeys RgswAcc.
Open Scope Z_scope.

Section Tables.
Context `{W : NativeWidth}.
Context (q psi : Z) (k : nat) (Hr : root_ok q psi k).
Context (af ai : NativeVectorT -> ILParams -> outcome NativeVectorT) (ceil_log : Z -> Z -> Z).
Abbreviation n := (2 ^ k)%nat.
Abbreviation elem := (ring_elem q k).

Lemma gadget_powers_ok m B v : 0 <= B < 2 ^ wbits ->
  gadget_powers m B q v = Ok (v ++ map (fun i => B ^ Z.of_nat i mod q) (seq 0 m)).
Proof.
  intros HB. pose proof (modulus_word q psi k Hr) as (H1 & H2 & H3). pose proof (modulus_pos q psi k Hr). unfold gadget_powers.
  replace (v, 1) with (v ++ map (fun i => B ^ Z.of_nat i mod q) (seq 0 0), B ^ Z.of_nat 0 mod q)
    by (cbn [seq map]; by rewrite app_nil_r, Z.mod_1_l by lia).
  rewrite (for_range_exact (fun j => (v ++ map (fun i => B ^ Z.of_nat i mod q) (seq 0 j), B ^ Z.of_nat j mod q))); [done | lia |].
  intros j _. pose proof (mod_range (B ^ Z.of_nat j) q ltac:(lia)).
  rewrite (wrap_small B), ModMul_correct, bind_Ok by lia. do 2 f_equal.
  - by rewrite seq_S, map_app, app_assoc.
  - rewrite Z.mul_mod_idemp_l, Nat2Z.inj_succ, Z.pow_succ_r by lia. f_equal. lia.
Qed.

Lemma digits_list_ok m R v : (forall l, (l < m)%nat -> 0 <= R ^ Z.of_nat l < 2 ^ wbits) ->
  digits_list m R v = v ++ map (fun i => R ^ Z.of_nat i) (seq 0 m).
Proof.
  intros H. unfold digits_list. assert (forall j, (j <= m)%nat -> exists x,
    Nat.iter j (fun '(digits, value) => (digits ++ [value], MulEq value R)) (v, 1)
    = (v ++ map (fun i => R ^ Z.of_nat i) (seq 0 j), x) /\ ((j < m)%nat -> x = R ^ Z.of_nat j)) as X.
  { induction j as [|j IH]; intros Hj.
    - exists 1. split; [simpl; by rewrite app_nil_r | done].
    - destruct (IH ltac:(lia)) as (x & E & Ex). eexists. rewrite Nat.iter_succ, E, Ex by lia. split.
      + f_equal. by rewrite seq_S, map_app, app_assoc.
      + intros Hlt. pose proof (H (S j) Hlt) as Hw. rewrite Nat2Z.inj_succ, Z.pow_succ_r, Z.mul_comm in Hw |- * by lia.
        unfold MulEq, MulEqFast. by rewrite wrap_small. }
  destruct (X m ltac:(lia)) as (x & -> & _). done.
Qed.

(** ** Monomials *)

Context (pr : ILParams) (Hpr : ring_params q psi k pr).

Lemma monomial_poly_ok positive i c : (i < n)%nat -> cache_for q psi k c ->
  returns (monomial_poly af ai positive pr q i c)
    (fun '(p, c') => p = repr q psi k pr EVALUATION (mono_less_one q k (if positive then Z.of_nat i else Z.of_nat i + Z.of_nat n))
                     /\ cache_for q psi k c').
Proof.
  intros Hi Hc. pose proof (modulus_word q psi k Hr) as (H1 & H2 & H3). pose proof (modulus_pos q psi k Hr).
  assert (0 < n)%nat as Hn by (apply Nat.neq_0_lt_0, Nat.pow_nonzero; lia).
  unfold monomial_poly. rewrite (PolyImpl_new_repr q psi k Hr pr Hpr), bind_Ok.
  pose proof (pzero_elem q psi k Hr) as Hz. pose proof Hz as [Lz _].
  rewrite index_repr, bind_Ok, zero_at by lia.
  set (sg := if positive then 1 else -1).
  set (M := pmono q k (if positive then Z.of_nat i else Z.of_nat i + Z.of_nat n)).
  assert (signed_mono q psi k sg i M) as HM by (unfold sg, M; destruct positive; apply (pmono_signed q psi k Hr i Hi)).
  destruct (pmono_signed q psi k Hr 0 Hn) as [Hm0 Hm1].
  assert ((if positive then ModAddEq 0 1 q else ModSubEq 0 1 q) = Ok ((0 + sg * 1) mod q)) as ->.
  { unfold sg. destruct positive; apply (modop_ok q psi k Hr); lia. }
  rewrite bind_Ok, set_index_repr, bind_Ok by lia.
  rewrite <- (zero_at k i Hi), (insert_signed_mono q psi k Hr sg i M 1 (pzero k) HM Hi Hz).
  set (f := padd q (pzero k) (pscale q 1 M)). destruct HM as [HM EM]. assert (elem f) as Hf by (unfold f; relem). pose proof Hf as [Lf Rf].
  rewrite index_repr, bind_Ok by lia. pose proof (reduced_at q f 0 Rf ltac:(lia)).
  rewrite (proj2 (modop_ok q psi k Hr)), bind_Ok, set_index_repr, bind_Ok by lia.
  rewrite (insert_signed_mono q psi k Hr (-1) 0 _ 1 f Hm1 Hn Hf).
  destruct Hm1 as [Hm1 E1]. destruct Hm0 as [Hm0 E0].
  replace (padd q f _) with (mono_less_one q k (if positive then Z.of_nat i else Z.of_nat i + Z.of_nat n)).
  { by apply (SetFormat_repr q psi k Hr af ai pr Hpr); [apply (mono_less_one_elem q psi k Hr)|]. }
  unfold mono_less_one, f. fold M. ring_eq Hr. rewrite E1, (E0 _). apply eqmod_eq. ring.
Qed.

Lemma monomials_loop_ok positive v c : cache_for q psi k c ->
  returns (monomials_loop af ai positive n pr q (v, c))
    (fun '(v', c') => v' = v ++ map (fun i => repr q psi k pr EVALUATION
        (mono_less_one q k (if positive then Z.of_nat i else Z.of_nat i + Z.of_nat n))) (seq 0 n) /\ cache_for q psi k c').
Proof.
  intros Hc. unfold monomials_loop.
  apply (for_range_inv (fun j '(v', c') => v' = v ++ map (fun i => repr q psi k pr EVALUATION
        (mono_less_one q k (if positive then Z.of_nat i else Z.of_nat i + Z.of_nat n))) (seq 0 j) /\ cache_for q psi k c')).
  - lia.
  - by rewrite app_nil_r.
  - intros i [v1 c1] Hi [-> Hc1]. eapply returns_bind; [apply monomial_poly_ok; [lia | done]|].
    intros [p c2] [-> Hc2]. split; [|done]. by rewrite seq_S, map_app, app_assoc.
Qed.

(** ** The parameters *)

Lemma gate_constants_ok ql : 0 <= ql < 2 ^ 27 -> gate_constants ql = Ok (map (fun m => m * (ql / 8)) [5; 7; 1; 3; 5; 1]).
Proof.
  intros Hq. unfold gate_constants, RShift, ushr. pose proof wbits_range. assert (2 ^ 32 <= 2 ^ wbits) by (apply Z.pow_le_mono_r; lia).
  rewrite (proj2 (Z.ltb_lt 3 wbits)) by lia. cbn [Z.leb andb Z.compare]. rewrite bind_Ok, Z.shiftr_div_pow2 by lia. change (2 ^ 3) with 8.
  assert (0 <= ql / 8 < 2 ^ 24) by (apply div_range; lia).
  f_equal. cbn [map]. unfold Mul, MulFast. rewrite !wrap_small by lia. done.
Qed.

Context (g : Z) (dg : nat) (e R : Z) (nd : nat) (method : BINFHE_METHOD).
Context (Hg : 1 <= g) (Hsmall : 2 ^ g < 2 * q) (Hdg : 1 <= Z.of_nat dg < 2 ^ 31) (Hcover : q < 2 ^ (g * Z.of_nat dg)).
Context (He : 0 <= e <= Z.of_nat k + 1) (Hlog : ceil_log (2 ^ e) R = Z.of_nat nd).
Context (HRw : forall l, (l < nd)%nat -> 0 <= R ^ Z.of_nat l < 2 ^ wbits).

(** The record the constructor starts from. *)
Definition fresh_params : RingGSWCryptoParams :=
  mkRingGSW (2 ^ Z.of_nat k) q (2 ^ e) (2 ^ g) (Z.of_nat dg) R [] [] ∅ pr [] [] method.

Lemma RingGSW_PreCompute_ok c : cache_for q psi k c ->
  returns (RingGSW_PreCompute af ai ceil_log fresh_params false c)
    (fun '(params, c') => gsw_params q psi k g dg params /\ cache_for q psi k c' /\ GetPolyParams params = pr /\
       Getq params = 2 ^ e /\ GetBaseR params = R /\ GetMethod params = method /\
       GetGateConst params = map (fun m => m * (2 ^ e / 8)) [5; 7; 1; 3; 5; 1] /\
       (method = GINX -> monomials_ok q psi k params) /\
       (method = AP -> GetDigitsR params = map (fun i => R ^ Z.of_nat i) (seq 0 nd))).
Proof.
  intros Hc. unfold RingGSW_PreCompute, fresh_params. cbn [GetMethod GetN GetQ Getq GetBaseG GetDigitsG GetBaseR GetDigitsR GetGPower GetGPowerMap GetPolyParams GetMonomials].
  pose proof (modulus_word q psi k Hr) as (H1 & H2 & H3). pose proof (pow2_pos g ltac:(lia)).
  rewrite Nat2Z.id, gadget_powers_ok, !bind_Ok by lia. cbn beta iota.
  assert (2 ^ e < 2 ^ 27) by (apply Z.pow_lt_mono_r; pose proof (size_k q psi k Hr); lia). pose proof (pow2_pos e ltac:(lia)).
  rewrite gate_constants_ok, bind_Ok by lia. rewrite <- (pow2_nat_Z k), Nat2Z.id, Hlog, Nat2Z.id.
  assert (forall params, GetN params = Z.of_nat n -> GetQ params = q -> GetBaseG params = 2 ^ g -> GetDigitsG params = Z.of_nat dg ->
    GetPolyParams params = pr -> GetGPower params = [] ++ map (fun i => (2 ^ g) ^ Z.of_nat i mod q) (seq 0 dg) ->
    gsw_params q psi k g dg params) as Hgp.
  { intros params E1 E2 E3 E4 E5 E6. split; try done; [by rewrite E1, (pow2_nat_Z k) | by rewrite E5]. }
  destruct (decide (method = GINX)) as [Hm|Hm];
    [rewrite (bool_decide_eq_true_2 (method = GINX)) by done | rewrite (bool_decide_eq_false_2 (method = GINX)) by done].
  - eapply returns_bind; [eapply returns_bind; [by apply (monomials_loop_ok true)|]|].
    + intros [v c1] [-> Hc1]. by apply (monomials_loop_ok false).
    + intros [v c2] [-> Hc2]. cbn [returns]. split_and!; try done; [by apply Hgp | | intros ->; done].
      intros _. unfold monomials_ok. cbn [GetMonomials GetPolyParams]. unfold reprs. cbn [app].
      replace (2 * n)%nat with (n + n)%nat by lia. rewrite seq_app, map_app. f_equal.
      replace (seq (0 + n) n) with (map (Nat.add n) (seq 0 n)) by (etransitivity; [apply (fmap_add_seq n 0 n) | f_equal; lia]).
      rewrite map_map. apply map_ext. intros i. do 2 f_equal. lia.
  - rewrite bind_Ok. cbn [returns]. split_and!; try done; [by apply Hgp|]. intros ->. cbn [GetDigitsR].
    rewrite bool_decide_eq_true_2 by done. by apply (digits_list_ok nd R []).
Qed.
End Tables.
