(* ===== verification/Double.v ===== *)
(** * Double-precision arithmetic

    The arithmetic of the type [double] (IEEE 754 binary64, rounding to the nearest
    with ties to even) as [SpecFloat] of the Standard Library defines it, for the
    expressions the sources compute with non-negative doubles. The operations are
    faithful: the result is one of the two doubles around the exact value, and so
    they keep the order with respect to doubles. *)
From stdpp Require Import base numbers.
From Stdlib Require Import ZArith Lia SpecFloat.
From S2P Require Import Prelude.
Open Scope Z_scope.

Definition prec : Z := 53.
Definition emax : Z := 1024.
Definition emin : Z := SpecFloat.emin prec emax.

(** [static_cast<double>(x)] of an integer, the operators, and the constant 0.5. *)
Definition double_of_int (x : Z) : spec_float := binary_normalize prec emax x 0 false.
Definition double_mul : spec_float -> spec_float -> spec_float := SFmul prec emax.
Definition double_div : spec_float -> spec_float -> spec_float := SFdiv prec emax.
Definition double_add : spec_float -> spec_float -> spec_float := SFadd prec emax.
Definition one_half : spec_float := double_div (double_of_int 1) (double_of_int 2).

(** [static_cast<uint64_t>(std::floor(x))]: undefined when the floor is no
    [uint64_t]. *)
Definition floor_uint64 (x : spec_float) : outcome Z :=
  match x with
  | S754_zero _ => Ok 0
  | S754_finite false m e =>
      let z := Z.shiftl (Z.pos m) e in if z <? 2 ^ 64 then Ok z else UB
  | _ => UB
  end.

(** ** Values *)

(** The value [m * 2 ^ e], in units far below the least double. *)
Definition unit_exp : Z := 5000.
Definition scaled (m e : Z) : Z := m * 2 ^ (e + unit_exp).

Lemma scaled_shift m e d : 0 <= d -> 0 <= e + unit_exp -> scaled (m * 2 ^ d) e = scaled m (e + d).
Proof.
  intros Hd He. unfold scaled. rewrite <- Z.mul_assoc, <- Z.pow_add_r by lia. do 2 f_equal. lia.
Qed.

Lemma scaled_le m n e : 0 <= e + unit_exp -> scaled m e <= scaled n e <-> m <= n.
Proof. intros He. unfold scaled. pose proof (pow2_pos (e + unit_exp) He). nia. Qed.

Lemma scaled_lt m n e : 0 <= e + unit_exp -> scaled m e < scaled n e <-> m < n.
Proof. intros He. unfold scaled. pose proof (pow2_pos (e + unit_exp) He). nia. Qed.

(** The finite non-negative doubles: at most 53 bits, above the least exponent. *)
Record representable (m e : Z) : Prop := {
  rp_bits : 0 <= m < 2 ^ prec;
  rp_least : emin <= e
}.

(** The doubles the operations return are normalised too. *)
Definition normal (m e : Z) : Prop := representable m e /\ (e = emin \/ 2 ^ (prec - 1) <= m).

(** ** Digits and shifts *)

Lemma Zdigits2_log2 p : Zdigits2 (Z.pos p) = Z.log2 (Z.pos p) + 1.
Proof.
  cbn [Zdigits2]. induction p as [p IH|p IH|]; [| |done]; cbn [digits2_pos]; rewrite Pos2Z.inj_succ, IH.
  - rewrite Pos2Z.inj_xI, Z.log2_succ_double; lia.
  - rewrite Pos2Z.inj_xO, Z.log2_double; lia.
Qed.

Lemma Zdigits2_bounds m : 0 < m -> 2 ^ (Zdigits2 m - 1) <= m < 2 ^ Zdigits2 m /\ 1 <= Zdigits2 m.
Proof.
  intros Hm. destruct m as [|p|p]; [lia| |lia]. rewrite Zdigits2_log2. pose proof (Z.log2_spec (Z.pos p) ltac:(lia)) as [H1 H2].
  replace (Z.log2 (Z.pos p) + 1 - 1) with (Z.log2 (Z.pos p)) by lia. pose proof (Z.log2_nonneg (Z.pos p)).
  split; [|lia]. by rewrite Z.add_1_r.
Qed.

Lemma Zdigits2_unique m d : 1 <= d -> 2 ^ (d - 1) <= m < 2 ^ d -> Zdigits2 m = d.
Proof.
  intros Hd Hm. pose proof (pow2_pos (d - 1) ltac:(lia)). destruct m as [|p|p]; [lia| |lia]. rewrite Zdigits2_log2.
  rewrite (Z.log2_unique (Z.pos p) (d - 1)); [lia | lia |]. by replace (Z.succ (d - 1)) with d by lia.
Qed.

Definition inexact (mrs : shr_record) : bool := shr_r mrs || shr_s mrs.

Lemma shr_1_spec mrs : 0 <= shr_m mrs ->
  shr_m (shr_1 mrs) = shr_m mrs / 2 /\
  inexact (shr_1 mrs) = inexact mrs || negb (shr_m mrs mod 2 =? 0).
Proof.
  destruct mrs as [m r s]. unfold inexact. cbn [shr_m shr_r shr_s]. intros Hm.
  destruct m as [|[p|p|]|p]; cbn [shr_1 shr_m shr_r shr_s]; [| | | |lia].
  - split; [done|]. cbn. by rewrite orb_false_r.
  - rewrite Pos2Z.inj_xI. split; [by apply (Z.div_unique _ 2 _ 1); lia|].
    rewrite <- (Z.mod_unique (2 * Z.pos p + 1) 2 (Z.pos p) 1) by lia. cbn. by rewrite orb_true_r.
  - rewrite Pos2Z.inj_xO. split; [by apply (Z.div_unique _ 2 _ 0); lia|].
    rewrite <- (Z.mod_unique (2 * Z.pos p) 2 (Z.pos p) 0) by lia. cbn. by rewrite orb_false_r.
  - split; [done|]. cbn. by rewrite orb_true_r.
Qed.

(** A function that shifts by [d] bits and remembers whether bits were lost. *)
Definition shifts (f : shr_record -> shr_record) (d : Z) : Prop := forall mrs, 0 <= shr_m mrs ->
  shr_m (f mrs) = shr_m mrs / 2 ^ d /\ inexact (f mrs) = inexact mrs || negb (shr_m mrs mod 2 ^ d =? 0).

Lemma shifts_compose f h d1 d2 : 0 <= d1 -> 0 <= d2 -> shifts f d1 -> shifts h d2 -> shifts (fun x => h (f x)) (d1 + d2).
Proof.
  intros H1 H2 Hf Hh mrs Hm. destruct (Hf mrs Hm) as [E1 E2]. pose proof (pow2_pos d1 H1). pose proof (pow2_pos d2 H2).
  assert (0 <= shr_m mrs / 2 ^ d1) by (apply Z.div_pos; lia).
  destruct (Hh (f mrs) ltac:(lia)) as [E3 E4]. rewrite E3, E4, E2, E1, Z.pow_add_r by lia. split; [by rewrite Z.div_div by lia|].
  rewrite <- orb_assoc. f_equal. rewrite Z.rem_mul_r by lia.
  pose proof (mod_range (shr_m mrs) (2 ^ d1) ltac:(lia)). pose proof (mod_range (shr_m mrs / 2 ^ d1) (2 ^ d2) ltac:(lia)).
  destruct (Z.eqb_spec (shr_m mrs mod 2 ^ d1) 0), (Z.eqb_spec ((shr_m mrs / 2 ^ d1) mod 2 ^ d2) 0),
    (Z.eqb_spec (shr_m mrs mod 2 ^ d1 + 2 ^ d1 * ((shr_m mrs / 2 ^ d1) mod 2 ^ d2)) 0); cbn; try done; nia.
Qed.

Lemma iter_shr_spec p : shifts (iter_pos shr_1 p) (Z.pos p).
Proof.
  induction p as [p IH|p IH|]; cbn [iter_pos].
  - rewrite Pos2Z.inj_xI. replace (2 * Z.pos p + 1) with (1 + (Z.pos p + Z.pos p)) by lia.
    apply (shifts_compose shr_1 (fun x => iter_pos shr_1 p (iter_pos shr_1 p x))); [lia | lia | exact shr_1_spec |].
    apply (shifts_compose (iter_pos shr_1 p) (iter_pos shr_1 p)); done || lia.
  - rewrite Pos2Z.inj_xO. replace (2 * Z.pos p) with (Z.pos p + Z.pos p) by lia.
    apply (shifts_compose (iter_pos shr_1 p) (iter_pos shr_1 p)); done || lia.
  - exact shr_1_spec.
Qed.

(** ** Rounding *)

Lemma fexp_double x : fexp prec emax x = Z.max (x - prec) emin.
Proof. done. Qed.

(** The shift to the exponent of the format. *)
Lemma shr_fexp_spec m e l : 0 < m -> e <= fexp prec emax (Zdigits2 m + e) ->
  let e' := fexp prec emax (Zdigits2 m + e) in
  exists mrs, shr_fexp prec emax m e l = (mrs, e') /\ shr_m mrs = m / 2 ^ (e' - e) /\
    inexact mrs = negb (match l with loc_Exact => m mod 2 ^ (e' - e) =? 0 | _ => false end).
Proof.
  intros Hm He e'. unfold shr_fexp. fold e'. unfold shr.
  assert (inexact (shr_record_of_loc m l) = match l with loc_Exact => false | _ => true end /\ shr_m (shr_record_of_loc m l) = m) as [E0 E1]
    by (by destruct l as [|[]]).
  destruct (e' - e) as [|p|p] eqn:Ed; [| |lia].
  - eexists. split; [f_equal; lia|]. rewrite E0, E1, Z.pow_0_r, Z.div_1_r, Z.mod_1_r. by destruct l.
  - destruct (iter_shr_spec p (shr_record_of_loc m l) ltac:(lia)) as [E2 E3]. eexists. split; [f_equal; lia|].
    rewrite E2, E3, E0, E1. split; [done|]. by destruct l.
Qed.

(** Rounding keeps an exact integer and otherwise takes it or the next. *)
Lemma round_choice mrs : exists b : bool,
  round_nearest_even (shr_m mrs) (loc_of_shr_record mrs) = shr_m mrs + (if b then 1 else 0) /\ (b = true -> inexact mrs = true).
Proof.
  destruct mrs as [m r s]. unfold inexact. cbn [shr_m shr_r shr_s].
  destruct r, s; cbn; try (by exists false; split; [lia|]); try (by exists true).
  destruct (Z.even m); [exists false | exists true]; split; (done || lia).
Qed.

(** The result of rounding: a double next to the exact value [(m, e)], whose lower
    bits are described by [l]. *)
Definition rounds (m e : Z) (l : location) (x : spec_float) : Prop :=
  exists p f, x = S754_finite false p f /\ normal (Z.pos p) f /\
    let e' := fexp prec emax (Zdigits2 m + e) in
    scaled (Z.pos p) f = scaled (m / 2 ^ (e' - e)) e' \/
    scaled (Z.pos p) f = scaled (m / 2 ^ (e' - e) + 1) e' /\ (l = loc_Exact -> m mod 2 ^ (e' - e) <> 0).

Lemma round_aux_rounds m e l :
  0 < m -> e <= fexp prec emax (Zdigits2 m + e) -> emin + 1 <= Zdigits2 m + e <= 1000 ->
  rounds m e l (binary_round_aux prec emax false m e l).
Proof.
  intros Hm He Hd. unfold binary_round_aux. set (e' := fexp prec emax (Zdigits2 m + e)) in *.
  destruct (shr_fexp_spec m e l Hm He) as (mrs & -> & Em & Ei). fold e' in Em, Ei.
  destruct (round_choice mrs) as (b & -> & Hb). destruct (Zdigits2_bounds m Hm) as [[B1 B2] B3].
  set (M := shr_m mrs) in *. set (D := Zdigits2 m) in *.
  assert (e' = Z.max (D + e - prec) emin) as Ee by done.
  assert (emin = -1074) as Emin by done. assert (prec = 53) as Eprec by done.
  pose proof (pow2_pos (e' - e) ltac:(lia)).
  change (fexp prec emax (D + e)) with e'. set (w := D + e - e'). assert (1 <= w <= 53) as Hw by lia.
  assert (2 ^ (w - 1) <= M < 2 ^ w) as HM.
  { rewrite Em. split.
    - apply Z.div_le_lower_bound; [lia|]. rewrite <- Z.pow_add_r by lia. by replace (e' - e + (w - 1)) with (D - 1) by lia.
    - apply Z.div_lt_upper_bound; [lia|]. rewrite <- Z.pow_add_r by lia. by replace (e' - e + w) with D by lia. }
  set (M' := M + (if b then 1 else 0)). pose proof (pow2_pos (w - 1) ltac:(lia)).
  assert (0 < M' <= 2 ^ w) as HM' by (unfold M'; destruct b; lia).
  assert (exists f, shr_fexp prec emax M' e' loc_Exact = (Build_shr_record (M' / 2 ^ (f - e')) false false, f) /\
            e' <= f <= e' + 1 /\ M' mod 2 ^ (f - e') = 0 /\ M' / 2 ^ (f - e') < 2 ^ 53 /\
            (f = emin \/ 2 ^ 52 <= M' / 2 ^ (f - e'))) as (f & -> & Hf & Hz & Hlt & Hnorm).
  { destruct (Z.eq_dec M' (2 ^ w)) as [E|Hne].
    - assert (Zdigits2 M' = w + 1) as Ed by (apply Zdigits2_unique; [lia|]; replace (w + 1 - 1) with w by lia; rewrite Z.pow_add_r by lia; lia).
      destruct (Z.eq_dec w 53) as [->|].
      + assert (fexp prec emax (Zdigits2 M' + e') = e' + 1) as Ef by (rewrite fexp_double, Ed; lia).
        exists (e' + 1). unfold shr_fexp. rewrite Ef. replace (e' + 1 - e') with 1 by lia. rewrite E. split_and!; [done | lia | lia | done | done | by right].
      + assert (fexp prec emax (Zdigits2 M' + e') = e') as Ef by (rewrite fexp_double, Ed; lia).
        exists e'. unfold shr_fexp. rewrite Ef, Z.sub_diag, Z.pow_0_r, Z.div_1_r, Z.mod_1_r. split_and!; [done | lia | lia | done | | left; lia].
        rewrite E. apply Z.pow_lt_mono_r; lia.
    - assert (Zdigits2 M' = w) as Ed by (apply Zdigits2_unique; [lia|]; unfold M' in *; destruct b; lia).
      assert (fexp prec emax (Zdigits2 M' + e') = e') as Ef by (rewrite fexp_double, Ed; lia).
      exists e'. unfold shr_fexp. rewrite Ef, Z.sub_diag, Z.pow_0_r, Z.div_1_r, Z.mod_1_r. split_and!; [done | lia | lia | done | |].
      + pose proof (Z.pow_le_mono_r 2 w 53 ltac:(lia) ltac:(lia)). lia.
      + destruct (Z.eq_dec w 53) as [Ew|]; [right | left; lia]. rewrite Ew in HM. change (53 - 1) with 52 in HM. unfold M'. destruct b; lia. }
  cbn [shr_m]. pose proof (pow2_pos (f - e') ltac:(lia)). pose proof (Z.div_mod M' (2 ^ (f - e')) ltac:(lia)) as Dm. rewrite Hz in Dm.
  destruct (M' / 2 ^ (f - e')) as [|p|p] eqn:Ep; [nia | | nia].
  rewrite (proj2 (Z.leb_le f (emax - prec))) by (change (emax - prec) with 971; lia).
  exists p, f. split; [done|]. split; [split; [split; [change prec with 53; lia | lia] | done]|]. cbv zeta. fold D e'.
  assert (scaled (Z.pos p) f = scaled M' e') as Es.
  { replace f with (e' + (f - e')) by lia. rewrite <- scaled_shift by (unfold unit_exp; lia). f_equal. lia. }
  rewrite Es, <- Em. unfold M'. destruct b; [right | left; f_equal; lia]. split; [done|].
  intros ->. specialize (Hb eq_refl). rewrite Ei in Hb. apply negb_true_iff, Z.eqb_neq in Hb. done.
Qed.

(** ** Order *)

Definition dval (x : spec_float) : Z := match x with S754_finite false p f => scaled (Z.pos p) f | _ => 0 end.

Section Order.
Context (m e : Z) (l : location) (x : spec_float) (Hx : rounds m e l x).
Context (Hm : 0 < m) (He : e <= fexp prec emax (Zdigits2 m + e)) (Hu : 0 <= e + unit_exp).
Context (n f : Z) (Hn : representable n f).

(** The grid of the result at its exponent, or a number below all of it. *)
Lemma grid_cases : let e' := fexp prec emax (Zdigits2 m + e) in
  (exists n', scaled n f = scaled n' e') \/ scaled n f < scaled (m / 2 ^ (e' - e)) e'.
Proof.
  intros e'. pose proof He as He'. fold e' in He'. destruct Hn as [Hb Hl]. assert (emin = -1074) as Emin by done. assert (prec = 53) as Eprec by done.
  assert (e' = Z.max (Zdigits2 m + e - prec) emin) as Ee by done. assert (unit_exp = 5000) as Eu by done.
  destruct (Z_le_gt_dec e' f) as [Hle|Hgt].
  - left. exists (n * 2 ^ (f - e')). rewrite scaled_shift by lia. f_equal. lia.
  - right. destruct (Zdigits2_bounds m Hm) as [[B1 _] _]. pose proof (pow2_pos (e' - e) ltac:(lia)).
    assert (2 ^ 52 <= m / 2 ^ (e' - e)) as HM.
    { apply Z.div_le_lower_bound; [lia|]. rewrite <- Z.pow_add_r by lia. by replace (e' - e + 52) with (Zdigits2 m - 1) by lia. }
    apply (Z.lt_le_trans _ (scaled (2 ^ 53) f)); [apply scaled_lt; [lia | change (2 ^ 53) with (2 ^ prec); lia]|].
    apply (Z.le_trans _ (scaled (2 ^ 52) e')); [|apply scaled_le; lia].
    unfold scaled. rewrite <- !Z.pow_add_r by lia. apply Z.pow_le_mono_r; lia.
Qed.

Lemma floor_scaled : let e' := fexp prec emax (Zdigits2 m + e) in
  scaled (m / 2 ^ (e' - e)) e' <= scaled m e < scaled (m / 2 ^ (e' - e) + 1) e' /\
  (m mod 2 ^ (e' - e) = 0 -> scaled (m / 2 ^ (e' - e)) e' = scaled m e).
Proof.
  intros e'. pose proof He as He'. fold e' in He'. pose proof (pow2_pos (e' - e) ltac:(lia)). pose proof (Z.div_mod m (2 ^ (e' - e)) ltac:(lia)) as D.
  pose proof (mod_range m (2 ^ (e' - e)) ltac:(lia)).
  assert (forall M, scaled M e' = scaled (M * 2 ^ (e' - e)) e) as Es.
  { intros M. rewrite scaled_shift by lia. f_equal. lia. }
  rewrite !Es, scaled_le, scaled_lt by lia. split; [lia|]. intros E. f_equal. lia.
Qed.

Lemma rounds_lower : scaled n f <= scaled m e -> scaled n f <= dval x.
Proof.
  intros H. destruct Hx as (p & f' & -> & _ & Hv). cbn [dval]. destruct floor_scaled as [[H1 H2] _]. destruct grid_cases as [[n' E]|Hlt].
  - set (e' := fexp prec emax (Zdigits2 m + e)) in *. rewrite E in H |- *.
    assert (0 <= e' + unit_exp) by lia. assert (n' <= m / 2 ^ (e' - e)) as Hle.
    { assert (n' < m / 2 ^ (e' - e) + 1) by (apply (scaled_lt _ _ e'); lia). lia. }
    apply (scaled_le n' (m / 2 ^ (e' - e)) e') in Hle; [|done]. destruct Hv as [-> | [-> _]]; [done|].
    pose proof (scaled_le (m / 2 ^ (e' - e)) (m / 2 ^ (e' - e) + 1) e' ltac:(lia)). lia.
  - set (e' := fexp prec emax (Zdigits2 m + e)) in *. destruct Hv as [-> | [-> _]]; [lia|].
    pose proof (scaled_le (m / 2 ^ (e' - e)) (m / 2 ^ (e' - e) + 1) e' ltac:(lia)). lia.
Qed.

Lemma rounds_upper : (l = loc_Exact /\ scaled m e <= scaled n f) \/ scaled m e < scaled n f -> dval x <= scaled n f.
Proof.
  intros H. destruct Hx as (p & f' & -> & _ & Hv). cbn [dval]. destruct floor_scaled as [[H1 H2] H3].
  destruct grid_cases as [[n' E]|Hlt]; [|lia].
  set (e' := fexp prec emax (Zdigits2 m + e)) in *. destruct Hv as [-> | [-> Hne]]; [lia|]. rewrite E in H |- *.
  assert (0 <= e' + unit_exp) by lia. apply scaled_le; [done|].
  enough (m / 2 ^ (e' - e) < n') by lia. apply (scaled_lt _ _ e'); [done|].
  destruct H as [[Hl Hle] | Hlt]; [|lia]. specialize (Hne Hl).
  destruct (Z.eq_dec (scaled (m / 2 ^ (e' - e)) e') (scaled m e)) as [E2|]; [|lia]. exfalso. apply Hne.
  pose proof (pow2_pos (e' - e) ltac:(lia)). replace e' with (e + (e' - e)) in E2 at 2 by lia. rewrite <- scaled_shift in E2 by lia.
  assert (m / 2 ^ (e' - e) * 2 ^ (e' - e) = m) as E3.
  { unfold scaled in E2. pose proof (pow2_pos (e + unit_exp) Hu). nia. }
  pose proof (Z.div_mod m (2 ^ (e' - e)) ltac:(lia)). lia.
Qed.
End Order.

(** ** Operations *)

(** A positive double and its value. *)
Definition pos_double (x : spec_float) (v : Z) : Prop :=
  exists p f, x = S754_finite false p f /\ normal (Z.pos p) f /\ v = scaled (Z.pos p) f.

Lemma rounds_pos m e l x : rounds m e l x -> pos_double x (dval x).
Proof. intros (p & f & -> & H & _). by exists p, f. Qed.

(** An exact value that is a double is kept. *)
Lemma rounds_exact m e n f x :
  rounds m e loc_Exact x -> 0 < m -> e <= fexp prec emax (Zdigits2 m + e) -> 0 <= e + unit_exp ->
  representable n f -> scaled m e = scaled n f -> dval x = scaled n f.
Proof.
  intros Hx Hm He Hu Hn E. apply Z.le_antisymm.
  - apply (rounds_upper m e loc_Exact x Hx Hm He Hu n f Hn). left. split; [done | lia].
  - apply (rounds_lower m e loc_Exact x Hx Hm He Hu n f Hn). lia.
Qed.

(** What rounding is given for the exact value of [(m, e)]. *)
Definition rounded (v : Z) (x : spec_float) : Prop :=
  exists m e, scaled m e = v /\ rounds m e loc_Exact x /\ 0 < m /\ e <= fexp prec emax (Zdigits2 m + e) /\ 0 <= e + unit_exp.

Lemma rounded_lower v x n f : rounded v x -> representable n f -> scaled n f <= v -> scaled n f <= dval x.
Proof. intros (m & e & <- & Hx & Hm & He & Hu) Hn. by apply (rounds_lower m e loc_Exact). Qed.

Lemma rounded_upper v x n f : rounded v x -> representable n f -> v <= scaled n f -> dval x <= scaled n f.
Proof. intros (m & e & <- & Hx & Hm & He & Hu) Hn H. apply (rounds_upper m e loc_Exact); try done. by left. Qed.

Lemma rounded_exact v x n f : rounded v x -> representable n f -> v = scaled n f -> dval x = scaled n f.
Proof. intros (m & e & <- & Hx & Hm & He & Hu) Hn H. by apply (rounds_exact m e). Qed.

Lemma rounded_pos v x : rounded v x -> pos_double x (dval x).
Proof. intros (m & e & _ & Hx & _). by eapply rounds_pos. Qed.

Lemma pow_digits m d : 0 < m -> 0 <= d -> Zdigits2 (m * 2 ^ d) = Zdigits2 m + d.
Proof.
  intros Hm Hd. destruct (Zdigits2_bounds m Hm) as [[B1 B2] B3]. apply Zdigits2_unique; [lia|].
  pose proof (pow2_pos d Hd). rewrite Z.pow_add_r by lia. replace (Zdigits2 m + d - 1) with (Zdigits2 m - 1 + d) by lia.
  rewrite Z.pow_add_r by lia. nia.
Qed.

Lemma binary_round_rounded p e :
  emin + 1 <= Zdigits2 (Z.pos p) + e <= 1000 -> -2200 <= e -> rounded (scaled (Z.pos p) e) (binary_round prec emax false p e).
Proof.
  intros Hd He. unfold binary_round, shl_align. set (D := Z.pos (digits2_pos p)). change (Zdigits2 (Z.pos p)) with D in Hd.
  assert (emin = -1074) as Emin by done. assert (prec = 53) as Eprec by done. assert (unit_exp = 5000) as Eu by done.
  set (f := fexp prec emax (D + e)). assert (f = Z.max (D + e - prec) emin) as Ef by done.
  assert (1 <= D) by lia.
  destruct (f - e) as [|d|d] eqn:Ed.
  - exists (Z.pos p), e. split_and!; [done | | done | change (Zdigits2 (Z.pos p)) with D; fold f; lia | lia].
    apply round_aux_rounds; [done | change (Zdigits2 (Z.pos p)) with D; fold f; lia | done].
  - exists (Z.pos p), e. split_and!; [done | | done | change (Zdigits2 (Z.pos p)) with D; fold f; lia | lia].
    apply round_aux_rounds; [done | change (Zdigits2 (Z.pos p)) with D; fold f; lia | done].
  - assert (Z.pos (shift_pos d p) = Z.pos p * 2 ^ Z.pos d) as Es by (rewrite shift_pos_correct, Z.mul_comm; by rewrite <- Z.pow_pos_fold || reflexivity).
    assert (Zdigits2 (Z.pos (shift_pos d p)) = D + Z.pos d) as Eg by (rewrite Es, pow_digits by lia; done).
    assert (fexp prec emax (Zdigits2 (Z.pos (shift_pos d p)) + f) = f) as Eff by (rewrite Eg; replace (D + Z.pos d + f) with (D + e) by lia; done).
    exists (Z.pos (shift_pos d p)), f. split_and!; [| | done | rewrite Eff; lia | lia].
    + rewrite Es, scaled_shift by lia. f_equal. lia.
    + change (PosDef.Pos.iter xO p d) with (shift_pos d p). apply round_aux_rounds; [done | rewrite Eff; lia | rewrite Eg; lia].
Qed.

Lemma scaled_one_pos v : scaled 1 0 <= v -> 0 < v.
Proof. unfold scaled. pose proof (pow2_pos (0 + unit_exp) ltac:(done)). lia. Qed.

(** Integers of at most 53 bits are doubles. *)
Lemma double_of_int_exact x : 0 < x < 2 ^ 53 -> pos_double (double_of_int x) (scaled x 0).
Proof.
  intros Hx. unfold double_of_int, binary_normalize. destruct x as [|p|p]; [lia| |lia].
  destruct (Zdigits2_bounds (Z.pos p) ltac:(lia)) as [[B1 B2] B3].
  assert (Zdigits2 (Z.pos p) <= 53). { destruct (Z_le_gt_dec (Zdigits2 (Z.pos p)) 53); [done|].
    pose proof (Z.pow_le_mono_r 2 53 (Zdigits2 (Z.pos p) - 1) ltac:(lia) ltac:(lia)). lia. }
  assert (rounded (scaled (Z.pos p) 0) (binary_round prec emax false p 0)) as Hr.
  { apply binary_round_rounded; [change emin with (-1074); lia | lia]. }
  rewrite <- (rounded_exact _ _ (Z.pos p) 0 Hr); [by eapply rounded_pos | | done].
  split; [change prec with 53; lia | change emin with (-1074); lia].
Qed.

(** A double of at least one is normalised. *)
Lemma pos_double_normal p f : normal (Z.pos p) f -> scaled 1 0 <= scaled (Z.pos p) f ->
  2 ^ 52 <= Z.pos p < 2 ^ 53 /\ -52 <= f.
Proof.
  intros [[Hb Hl] Hn] H1. change prec with 53 in *. change emin with (-1074) in *.
  assert (-52 <= f) as Hf.
  { destruct (Z_le_gt_dec (-52) f); [done|]. exfalso. unfold scaled in H1. change unit_exp with 5000 in H1.
    assert (Z.pos p * 2 ^ (f + 5000) < 2 ^ 53 * 2 ^ (f + 5000)) by (apply Z.mul_lt_mono_pos_r; [apply pow2_pos|]; lia).
    rewrite <- Z.pow_add_r in H by lia. pose proof (Z.pow_le_mono_r 2 (53 + (f + 5000)) (0 + 5000) ltac:(lia) ltac:(lia)). lia. }
  destruct Hn as [Hn|Hn]; [lia|]. change (53 - 1) with 52 in Hn. lia.
Qed.

Lemma scaled_mul m e n f : 0 <= e + f + unit_exp -> 0 <= e + unit_exp -> 0 <= f + unit_exp ->
  scaled (m * n) (e + f) * 2 ^ unit_exp = scaled m e * scaled n f.
Proof.
  intros H1 H2 H3. unfold scaled. rewrite <- !Z.mul_assoc, <- Z.pow_add_r by (done || lia).
  replace (m * (2 ^ (e + unit_exp) * (n * 2 ^ (f + unit_exp)))) with (m * (n * (2 ^ (e + unit_exp) * 2 ^ (f + unit_exp)))) by ring.
  rewrite <- Z.pow_add_r by lia. do 3 f_equal. lia.
Qed.

(** The exponent of a double that is an integer of at most 53 bits. *)
Lemma int_double p f x : 0 < x < 2 ^ 53 -> normal (Z.pos p) f -> scaled (Z.pos p) f = scaled x 0 ->
  2 ^ 52 <= Z.pos p < 2 ^ 53 /\ -52 <= f <= 0.
Proof.
  intros Hx Hn E. assert (scaled 1 0 <= scaled (Z.pos p) f) as H1 by (rewrite E; apply scaled_le; [done | lia]).
  destruct (pos_double_normal p f Hn H1) as [Hp Hf]. split; [done|]. split; [done|].
  destruct (Z_le_gt_dec f 0); [done|]. exfalso.
  assert (scaled x 0 < scaled (2 ^ 53) 0) by (apply scaled_lt; [done | lia]).
  replace (scaled (2 ^ 53) 0) with (scaled (2 ^ 52 * 2 ^ 1) 0) in H by done. rewrite scaled_shift in H by done.
  assert (scaled (2 ^ 52) (0 + 1) <= scaled (Z.pos p) f); [|lia].
  assert (scaled (Z.pos p) f = scaled (Z.pos p * 2 ^ (f - 1)) (0 + 1)) as -> by (rewrite scaled_shift by (lia || done); f_equal; lia).
  apply scaled_le; [done|]. pose proof (pow2_pos (f - 1) ltac:(lia)). nia.
Qed.

Lemma double_mul_exact x y a b : 0 < a < 2 ^ 53 -> 0 < b < 2 ^ 53 -> a * b < 2 ^ 53 ->
  pos_double x (scaled a 0) -> pos_double y (scaled b 0) -> pos_double (double_mul x y) (scaled (a * b) 0).
Proof.
  intros Ha Hb Hab (p & f & -> & Hn1 & E1) (p' & f' & -> & Hn2 & E2).
  destruct (int_double p f a Ha Hn1 (eq_sym E1)) as [Hp Hf]. destruct (int_double p' f' b Hb Hn2 (eq_sym E2)) as [Hp' Hf'].
  unfold double_mul, SFmul. cbn [xorb]. assert (unit_exp = 5000) as Eu by done.
  assert (scaled (Z.pos (p * p')) (f + f') = scaled (a * b) 0) as Ev.
  { apply (Z.mul_reg_r _ _ (2 ^ unit_exp)); [done|]. rewrite Pos2Z.inj_mul, scaled_mul by lia.
    rewrite <- E1, <- E2. symmetry. by apply (scaled_mul a 0 b 0). }
  assert (104 < Zdigits2 (Z.pos (p * p')) <= 106) as HD.
  { destruct (Zdigits2_bounds (Z.pos (p * p')) ltac:(lia)) as [[B1 B2] B3].
    assert (2 ^ 104 <= Z.pos (p * p') < 2 ^ 106) as [C1 C2] by (rewrite Pos2Z.inj_mul; change (2 ^ 104) with (2 ^ 52 * 2 ^ 52); change (2 ^ 106) with (2 ^ 53 * 2 ^ 53); nia).
    split; [apply (Z.pow_lt_mono_r_iff 2) | enough (Zdigits2 (Z.pos (p * p')) - 1 < 106) by lia; apply (Z.pow_lt_mono_r_iff 2)]; lia. }
  assert (f + f' <= fexp prec emax (Zdigits2 (Z.pos (p * p')) + (f + f'))) as Hfe.
  { rewrite fexp_double. change prec with 53. lia. }
  assert (rounds (Z.pos (p * p')) (f + f') loc_Exact (binary_round_aux prec emax false (Z.pos (p * p')) (f + f') loc_Exact)) as Hr.
  { apply round_aux_rounds; [lia | done | change emin with (-1074); lia]. }
  rewrite <- (rounds_exact _ _ (a * b) 0 _ Hr ltac:(lia) Hfe ltac:(lia)); [by eapply rounds_pos | | done].
  split; [change prec with 53; nia | change emin with (-1074); lia].
Qed.

(** Comparing a quotient with the numbers of its grid: the mantissas decide. *)
Lemma quotient_grid p f a p' f' b : scaled a 0 = scaled (Z.pos p) f -> scaled b 0 = scaled (Z.pos p') f' ->
  -52 <= f <= 0 -> -52 <= f' <= 0 -> forall N c,
  scaled N (f - f' - 53) * b <= c * scaled a 0 <-> N * Z.pos p' <= c * (Z.pos p * 2 ^ 53).
Proof.
  intros E1 E2 Hf Hf'. assert (unit_exp = 5000) as Eu by done. set (e := f - f' - 53).
  intros N c. assert (scaled N e * b * 2 ^ unit_exp = N * Z.pos p' * 2 ^ (f - 53 + 2 * unit_exp)) as L1.
    { assert (b * 2 ^ unit_exp = scaled (Z.pos p') f') as B by (rewrite <- E2; unfold scaled; f_equal).
      rewrite <- Z.mul_assoc, B. unfold scaled, e.
      replace (N * 2 ^ (f - f' - 53 + unit_exp) * (Z.pos p' * 2 ^ (f' + unit_exp))) with
        (N * Z.pos p' * (2 ^ (f - f' - 53 + unit_exp) * 2 ^ (f' + unit_exp))) by ring.
      rewrite <- Z.pow_add_r by lia. do 2 f_equal. lia. }
    assert (c * scaled a 0 * 2 ^ unit_exp = c * (Z.pos p * 2 ^ 53) * 2 ^ (f - 53 + 2 * unit_exp)) as L2.
    { rewrite E1. unfold scaled. replace (c * (Z.pos p * 2 ^ 53) * 2 ^ (f - 53 + 2 * unit_exp)) with
        (c * Z.pos p * (2 ^ 53 * 2 ^ (f - 53 + 2 * unit_exp))) by ring. rewrite <- Z.pow_add_r by lia.
      replace (53 + (f - 53 + 2 * unit_exp)) with (f + unit_exp + unit_exp) by lia. rewrite (Z.pow_add_r 2 (f + unit_exp)) by lia. ring. }
    pose proof (pow2_pos (f - 53 + 2 * unit_exp) ltac:(lia)). pose proof (pow2_pos unit_exp ltac:(lia)).
    split; intros H'; apply (Z.mul_le_mono_pos_r _ _ (2 ^ (f - 53 + 2 * unit_exp))) || apply (Z.mul_le_mono_pos_r _ _ (2 ^ unit_exp)); nia.
Qed.

(** The quotient: its double lies between the same halves of integers. *)
Lemma double_div_halves x y a b r : 0 < a < 2 ^ 52 -> 0 < b < 2 ^ 53 ->
  pos_double x (scaled a 0) -> pos_double y (scaled b 0) ->
  0 <= r -> (2 * r - 1) * b <= 2 * a < (2 * r + 1) * b ->
  pos_double (double_div x y) (dval (double_div x y)) /\
  scaled (2 * r - 1) (-1) <= dval (double_div x y) <= scaled (2 * r + 1) (-1).
Proof.
  intros Ha Hb (p & f & -> & Hn1 & E1) (p' & f' & -> & Hn2 & E2) Hr0 Hr.
  destruct (int_double p f a ltac:(lia) Hn1 (eq_sym E1)) as [Hp Hf]. destruct (int_double p' f' b Hb Hn2 (eq_sym E2)) as [Hp' Hf'].
  assert (unit_exp = 5000) as Eu by done. unfold double_div, SFdiv, SFdiv_core_binary. cbn [xorb].
  assert (Zdigits2 (Z.pos p) = 53 /\ Zdigits2 (Z.pos p') = 53) as [-> ->] by (split; apply Zdigits2_unique; lia).
  assert (Z.min (fexp prec emax (53 + f - (53 + f'))) (f - f') = f - f' - 53) as ->.
  { rewrite fexp_double. change prec with 53. change emin with (-1074). lia. }
  set (e := f - f' - 53). replace (f - f' - e) with 53 by lia. rewrite Z.shiftl_mul_pow2 by lia.
  pose proof (Z_div_mod (Z.pos p * 2 ^ 53) (Z.pos p') ltac:(lia)) as D.
  destruct (Z.div_eucl (Z.pos p * 2 ^ 53) (Z.pos p')) as [qq rr]. destruct D as [D Hrr].
  pose proof (quotient_grid p f a p' f' b E1 E2 Hf Hf') as Hgrid. fold e in Hgrid.
  assert (2 ^ 52 <= qq < 2 ^ 54) as Hq.
  { assert (2 ^ 52 * 2 ^ 53 <= Z.pos p * 2 ^ 53 < 2 ^ 53 * 2 ^ 53) by lia. split; nia. }
  destruct (Zdigits2_bounds qq ltac:(lia)) as [[B1 B2] B3].
  assert (52 < Zdigits2 qq <= 54) as HD.
  { split; [apply (Z.pow_lt_mono_r_iff 2) | enough (Zdigits2 qq - 1 < 54) by lia; apply (Z.pow_lt_mono_r_iff 2)]; lia. }
  set (l := new_location (Z.pos p') rr). assert (e <= fexp prec emax (Zdigits2 qq + e)) as He.
  { rewrite fexp_double. change prec with 53. lia. }
  assert (rounds qq e l (binary_round_aux prec emax false qq e l)) as Hx.
  { apply round_aux_rounds; [lia | done | change emin with (-1074); lia]. }
  split; [by eapply rounds_pos|]. set (z := binary_round_aux prec emax false qq e l) in *.
  assert (0 < dval z) as Hpos.
  { destruct Hx as (pz & fz & -> & [[_ Hl] _] & _). cbn [dval]. unfold scaled. change emin with (-1074) in Hl. pose proof (pow2_pos (fz + unit_exp) ltac:(lia)). lia. }
  assert (forall k, scaled k (-1) = scaled (k * 2 ^ (-1 - e)) e) as Hk.
  { intros k. rewrite scaled_shift by lia. f_equal. lia. }
  assert (forall k, k * b <= 2 * a <-> k * 2 ^ (-1 - e) <= qq) as Hcmp.
  { intros k. transitivity (k * 2 ^ (-1 - e) * Z.pos p' <= 1 * (Z.pos p * 2 ^ 53)); [|split; nia].
    rewrite <- Hgrid, <- Hk. unfold scaled. change (2 ^ (0 + unit_exp)) with (2 * 2 ^ (-1 + unit_exp)).
    pose proof (pow2_pos (-1 + unit_exp) ltac:(lia)). nia. }
  assert (2 * r - 1 < 2 ^ 53 - 2) as Hr53 by nia.
  split.
  - destruct (Z_le_gt_dec r 0) as [Hr1|Hr1].
    + assert (scaled (2 * r - 1) (-1) <= 0); [|lia]. unfold scaled. pose proof (pow2_pos (-1 + unit_exp) ltac:(lia)). nia.
    + apply (rounds_lower qq e l z Hx ltac:(lia) He ltac:(lia)); [split; [change prec with 53 | change emin with (-1074)]; lia|].
      rewrite Hk. apply scaled_le; [lia|]. apply Hcmp. lia.
  - apply (rounds_upper qq e l z Hx ltac:(lia) He ltac:(lia)); [split; [change prec with 53 | change emin with (-1074)]; lia|].
    right. rewrite Hk. apply scaled_lt; [lia|]. apply Z.nle_gt. rewrite <- Hcmp. lia.
Qed.

Lemma shl_align_scaled p e f : f <= e -> 0 <= f + unit_exp -> scaled (Z.pos (fst (shl_align p e f))) f = scaled (Z.pos p) e.
Proof.
  intros H Hf. unfold shl_align. destruct (f - e) as [|d|d] eqn:E; cbn [fst]; [f_equal; lia | lia |].
  change (PosDef.Pos.iter xO p d) with (shift_pos d p). rewrite shift_pos_correct.
  replace (Z.pow_pos 2 d * Z.pos p) with (Z.pos p * 2 ^ Z.pos d) by (rewrite Z.mul_comm; done).
  rewrite scaled_shift by lia. f_equal. lia.
Qed.

Lemma scaled_add m n e : scaled (m + n) e = scaled m e + scaled n e.
Proof. unfold scaled. ring. Qed.

(** The digits of a value between two powers of two. *)
Lemma digits_between m e lo hi : 0 < m -> 0 <= e + unit_exp -> 0 <= lo + unit_exp -> 0 <= hi + unit_exp ->
  scaled 1 lo <= scaled m e <= scaled 1 hi -> lo < Zdigits2 m + e <= hi + 1.
Proof.
  intros Hm He Hlo Hhi [H1 H2]. destruct (Zdigits2_bounds m Hm) as [[B1 B2] B3]. unfold scaled in H1, H2.
  pose proof (pow2_pos (e + unit_exp) He). rewrite Z.mul_1_l in H1, H2.
  assert (2 ^ (lo + unit_exp) < 2 ^ (Zdigits2 m + (e + unit_exp))) as A by (rewrite (Z.pow_add_r 2 (Zdigits2 m)) by lia; eapply Z.le_lt_trans; [exact H1|]; by apply Z.mul_lt_mono_pos_r).
  assert (2 ^ (Zdigits2 m - 1 + (e + unit_exp)) <= 2 ^ (hi + unit_exp)) as B by (rewrite (Z.pow_add_r 2 (Zdigits2 m - 1)) by lia; eapply Z.le_trans; [|exact H2]; by apply Z.mul_le_mono_pos_r).
  apply Z.pow_lt_mono_r_iff in A; [|lia..]. apply Z.pow_le_mono_r_iff in B; [|lia..]. lia.
Qed.

Lemma double_add_half y r : 0 <= r < 2 ^ 52 -> pos_double y (dval y) ->
  scaled (2 * r - 1) (-1) <= dval y <= scaled (2 * r + 1) (-1) ->
  pos_double (double_add one_half y) (dval (double_add one_half y)) /\
  scaled r 0 <= dval (double_add one_half y) <= scaled (r + 1) 0.
Proof.
  intros Hr (p & f & -> & [[_ Hl] _] & _) Hv. cbn [dval] in Hv. change emin with (-1074) in Hl.
  assert (unit_exp = 5000) as Eu by done. change one_half with (S754_finite false (2 ^ 52) (-53)).
  unfold double_add, SFadd. cbn [cond_Zopp]. set (e := Z.min (-53) f).
  set (m := Z.pos (fst (shl_align (2 ^ 52) (-53) e)) + Z.pos (fst (shl_align p f e))).
  assert (scaled m e = scaled 1 (-1) + scaled (Z.pos p) f) as Em.
  { unfold m. rewrite scaled_add, !shl_align_scaled by lia. done. }
  assert (scaled (2 * r) (-1) <= scaled m e <= scaled (2 * (r + 1)) (-1)) as Hm.
  { rewrite Em. replace (2 * r) with (1 + (2 * r - 1)) by lia. replace (2 * (r + 1)) with (1 + (2 * r + 1)) by lia. rewrite !(scaled_add 1). lia. }
  assert (forall k, scaled (2 * k) (-1) = scaled k 0) as E2 by (intros k; rewrite Z.mul_comm; change 2 with (2 ^ 1); by rewrite (scaled_shift k (-1) 1)).
  rewrite !E2 in Hm. assert (0 < scaled (Z.pos p) f) by (unfold scaled; pose proof (pow2_pos (f + unit_exp) ltac:(lia)); lia).
  assert (0 < m) as Hm0 by (unfold m; lia).
  assert (-1 < Zdigits2 m + e <= 54) as HD.
  { apply (digits_between m e (-1) 53); [lia.. |]. split; [lia|].
    transitivity (scaled (2 ^ 53) 0); [|exact (Z.eq_le_incl _ _ (scaled_shift 1 0 53 ltac:(done) ltac:(done)))]. transitivity (scaled (r + 1) 0); [lia|]. apply scaled_le; lia. }
  assert (rounded (scaled m e) (binary_normalize prec emax m e false)) as Hx.
  { destruct m as [|pm|pm]; [lia | | lia]. apply binary_round_rounded; [change emin with (-1074)|]; lia. }
  split; [by eapply rounded_pos|]. assert (forall k, 0 <= k <= 2 ^ 52 -> representable k 0) as Hrep by (intros k Hk; split; [change prec with 53 | change emin with (-1074)]; lia).
  split; [eapply rounded_lower | eapply rounded_upper]; try done; try apply Hrep; lia.
Qed.

Lemma floor_uint64_between y r : 0 <= r < 2 ^ 52 -> pos_double y (dval y) -> scaled r 0 <= dval y <= scaled (r + 1) 0 ->
  exists z, floor_uint64 y = Ok z /\ r <= z <= r + 1.
Proof.
  intros Hr (p & f & -> & [[_ Hl] _] & _) Hv. cbn [dval] in Hv. change emin with (-1074) in Hl. assert (unit_exp = 5000) as Eu by done.
  cbn [floor_uint64]. assert (r <= Z.shiftl (Z.pos p) f <= r + 1) as Hz; [|rewrite (proj2 (Z.ltb_lt _ _)) by lia; by eexists].
  destruct (Z_le_gt_dec 0 f) as [Hf|Hf].
  - rewrite Z.shiftl_mul_pow2 by done. replace f with (0 + f) in Hv by lia. rewrite <- scaled_shift, !scaled_le in Hv by lia. done.
  - rewrite <- (Z.opp_involutive f), Z.shiftl_opp_r, Z.shiftr_div_pow2 by lia. pose proof (pow2_pos (- f) ltac:(lia)).
    assert (forall k, scaled k 0 = scaled (k * 2 ^ (- f)) f) as Es by (intros k; rewrite scaled_shift by lia; f_equal; lia).
    rewrite !Es, !scaled_le in Hv by lia.
    split; [apply Z.div_le_lower_bound; lia | apply Z.lt_succ_r, Z.div_lt_upper_bound; nia].
Qed.

(** [floor(0.5 + v * q / Q)] in doubles: the nearest integer of [v * q / Q], or the
    next one, as long as the product has at most 52 bits. *)
Theorem double_scale_round v q Q : 0 <= v -> 0 < q < 2 ^ 53 -> 0 < Q < 2 ^ 53 -> v * q < 2 ^ 52 ->
  let r := (2 * v * q + Q) / (2 * Q) in
  exists z, floor_uint64 (double_add one_half (double_div (double_mul (double_of_int v) (double_of_int q)) (double_of_int Q))) = Ok z /\
    r <= z <= r + 1 /\ (v = 0 -> z = 0).
Proof.
  intros Hv Hq HQ Hvq r. pose proof (double_of_int_exact Q HQ) as HdQ.
  destruct (Z.eq_dec v 0) as [->|Hv0].
  - exists 0. assert (r = 0) as -> by (unfold r; apply Z.div_small; lia). split; [|lia].
    change (double_of_int 0) with (S754_zero false). destruct HdQ as (pQ & fQ & -> & _).
    by destruct (double_of_int_exact q Hq) as (pq & fq & -> & _).
  - assert (v < 2 ^ 53) by nia.
    pose proof (double_of_int_exact v ltac:(lia)) as Hdv. pose proof (double_of_int_exact q ltac:(lia)) as Hdq.
    pose proof (double_mul_exact _ _ v q ltac:(lia) ltac:(lia) ltac:(lia) Hdv Hdq) as Hdp.
    pose proof (Z.div_mod (2 * v * q + Q) (2 * Q) ltac:(lia)) as D. pose proof (mod_range (2 * v * q + Q) (2 * Q) ltac:(lia)). fold r in D.
    assert (0 <= r) by (apply Z.div_pos; nia). assert (r < 2 ^ 52) by (apply Z.div_lt_upper_bound; nia).
    destruct (double_div_halves _ _ (v * q) Q r ltac:(nia) ltac:(lia) Hdp HdQ ltac:(lia) ltac:(lia)) as [Hp Hb].
    destruct (double_add_half _ r ltac:(lia) Hp Hb) as [Ha Hab].
    destruct (floor_uint64_between _ r ltac:(lia) Ha Hab) as (z & Ez & Hz). exists z. split; [done|]. split; [done | lia].
Qed.
