(* ===== verification/LweSwitch.v ===== *)
(** * Modulus switching

    [RoundqQ] and [ModSwitch] of src/binfhe/lib/lwe-pke.cpp, in the doubles of
    [Double]: the switched ciphertext has the scaled phase, up to at most one and
    a half units for each coefficient. *)
From stdpp Require Import base numbers list.
From Stdlib Require Import ZArith Lia.
From S2P Require Import Prelude Bits NativeInt NativeIntProps NativeVector Lwe LweProps Double.
Open Scope Z_scope.

Section Definitions.
Context `{W : NativeWidth}.

Definition RoundqQ (v q Q : Z) : outcome Z :=
  z ← floor_uint64 (double_add one_half
        (double_div (double_mul (double_of_int v) (double_of_int q)) (double_of_int Q)));
  Mod (wrap z) q.

Definition ModSwitch (q : Z) (ctQ : LWECiphertextImpl) : outcome LWECiphertextImpl :=
  let n := GetLength (m_a ctQ) in
  let Q := GetModulus ctQ in
  a ← NativeVectorT_new n q;
  data ← for_range 0 n (fun i d =>
           x ← vget (m_data (m_a ctQ)) i;
           y ← RoundqQ x q Q;
           vset d i y) (m_data a);
  b ← RoundqQ (m_b ctQ) q Q;
  Ok (mkCiphertext (mkVector data (m_modulus a)) b).
End Definitions.

(** [z] is [x], scaled from [Q] to [q], with an error of at most 3/2. *)
Definition switched (q Q x z : Z) : Prop :=
  0 <= z < q /\ exists d, Q * z ==[Q * q] q * x + d /\ Z.abs (2 * d) <= 3 * Q.

(** The moduli a ciphertext is switched between. *)
Record switch_ok (q Q : Z) `{W : NativeWidth} : Prop := {
  so_q : 0 < q;
  so_size : GetMSB q <= MAX_MODULUS_SIZE;
  so_Q : 1 < Q;
  so_product : Q * q <= 2 ^ 52
}.

Section Facts.
Context `{W : NativeWidth}.

Lemma RoundqQ_switched v q Q : switch_ok q Q -> 0 <= v < Q -> returns (RoundqQ v q Q) (switched q Q v).
Proof.
  intros [Hq Hs HQ Hp] Hv. unfold RoundqQ. assert (v * q < 2 ^ 52) as Hvq by nia.
  destruct (double_scale_round v q Q ltac:(lia) ltac:(nia) ltac:(nia) Hvq) as (z & -> & Hz & _). rewrite bind_Ok.
  set (r := (2 * v * q + Q) / (2 * Q)) in *. pose proof (Z.div_mod (2 * v * q + Q) (2 * Q) ltac:(lia)) as D.
  pose proof (mod_range (2 * v * q + Q) (2 * Q) ltac:(lia)). fold r in D.
  destruct (modulus_size_word q Hq Hs) as [_ Hw]. pose proof word_half. pose proof (pow2_pos (wbits - 1)).
  assert (0 <= r) by (apply Z.div_pos; nia). assert (r < q + 1) by (apply Z.div_lt_upper_bound; nia).
  rewrite wrap_small by lia. unfold Mod. rewrite umod_pos by done. simpl.
  split; [by apply mod_range|]. exists (Q * z - q * v). split; [|nia].
  pose proof (Z.div_mod z q ltac:(lia)). apply eqmod_divide; [nia|]. exists (- (z / q)). nia.
Qed.

(** The integer secret, and the sum of its absolute values. *)
Definition weight (sk : NativeVectorT) : Z := nsum (fun i => Z.abs (centered (m_modulus sk) (m_data sk !!! i))) (GetLength sk).

Lemma switched_dot q Q n (a a' S : nat -> Z) : (forall i, (i < n)%nat -> switched q Q (a i) (a' i)) ->
  exists d, Q * nsum (fun i => a' i * S i) n ==[Q * q] q * nsum (fun i => a i * S i) n + d /\
    Z.abs (2 * d) <= 3 * Q * nsum (fun i => Z.abs (S i)) n.
Proof.
  intros H. induction n as [|n IH]; cbn [nsum].
  - exists 0. rewrite !Z.mul_0_r. by split.
  - destruct IH as (d & E & Hd); [intros i Hi; apply H; lia|]. destruct (H n) as (_ & d' & E' & Hd'); [lia|].
    exists (d + d' * S n). split.
    + rewrite Z.mul_add_distr_l, E. replace (Q * (a' n * S n)) with (Q * a' n * S n) by ring. rewrite E'. apply eqmod_eq. ring.
    + assert (Z.abs (2 * (d' * S n)) <= 3 * Q * Z.abs (S n)); [|lia].
      rewrite Z.mul_assoc, Z.abs_mul. apply Z.mul_le_mono_nonneg_r; lia.
Qed.

(** Congruences modulo [Q], scaled by [q]. *)
Lemma eqmod_scale q Q a b : 0 < q -> 0 < Q -> a ==[Q] b -> q * a ==[Q * q] q * b.
Proof.
  intros Hq HQ H. apply eqmod_divide in H as [j E]; [|done]. apply eqmod_divide; [nia|]. exists j. nia.
Qed.

(** The phase with respect to the integer secret. *)
Lemma phase_centered n q sk ct : ct_wf n q ct -> GetLength sk = n ->
  phase sk ct ==[q] m_b ct - nsum (fun i => m_data (m_a ct) !!! i * centered (m_modulus sk) (m_data sk !!! i)) n.
Proof.
  intros [V M L B] Hn. unfold phase, dot, GetModulus. rewrite M, Hn.
  rewrite (nsum_eqmod q _ (fun i => m_data (m_a ct) !!! i * centered (m_modulus sk) (m_data sk !!! i))); [done|].
  intros i Hi. unfold key_mod. assert (i < length (m_data sk))%nat as Hl by (unfold GetLength in Hn; lia).
  rewrite (list_lookup_total_correct (map _ _) i (centered (m_modulus sk) (m_data sk !!! i) mod q)); [by rewrite eqmod_mod|].
  rewrite list_lookup_fmap, list_lookup_lookup_total_lt by done. done.
Qed.

Lemma ModSwitch_loop q Q v : switch_ok q Q -> Forall (fun x => 0 <= x < Q) v ->
  returns (for_range 0 (length v) (fun i d => x ← vget v i; y ← RoundqQ x q Q; vset d i y) (repeat 0 (length v)))
    (fun d => length d = length v /\ forall i, (i < length v)%nat -> switched q Q (v !!! i) (d !!! i)).
Proof.
  intros Hs Hv. eapply returns_mono; [apply (for_range_inv (fun k d => length d = length v /\
    forall i, (i < k)%nat -> switched q Q (v !!! i) (d !!! i)))|]; [lia | split; [apply repeat_length | lia] | | done].
  intros k d Hk [L IH]. rewrite vget_at, bind_Ok by lia.
  eapply returns_bind; [apply (RoundqQ_switched _ q Q Hs); by apply entry_range; [|lia]|]. intros y Hy.
  rewrite vset_lt by lia. split; [by rewrite length_insert|]. intros i Hi.
  destruct (Nat.eq_dec i k) as [->|]; [by rewrite list_lookup_total_insert_eq by lia|].
  rewrite list_lookup_total_insert_ne by done. apply IH. lia.
Qed.

Lemma ModSwitch_ok n q Q sk ct : switch_ok q Q -> ct_wf n Q ct -> GetLength sk = n ->
  returns (ModSwitch q ct) (fun ct' => ct_wf n q ct' /\
    exists d, Q * phase sk ct' ==[Q * q] q * phase sk ct + d /\ Z.abs (2 * d) <= 3 * Q * (1 + weight sk)).
Proof.
  intros Hs H Hn. pose proof H as [V M L B]. pose proof Hs as [Hq Hsz HQ _]. unfold ModSwitch, GetModulus. rewrite M.
  unfold NativeVectorT_new. rewrite Z.gtb_ltb, (proj2 (Z.ltb_ge _ _)), SetModulus_ok, !bind_Ok by done. cbn [m_modulus m_data].
  eapply returns_bind; [apply (ModSwitch_loop q Q); [done | rewrite <- M; apply V]|]. intros d [Ld Hd].
  eapply returns_bind; [by apply RoundqQ_switched|]. intros b Hb. change (NativeVector.GetLength (m_a ct)) with (length (m_data (m_a ct))) in Ld.
  assert (ct_wf n q (mkCiphertext (mkVector d q) b)) as Hw.
  { destruct Hb as [Hb _]. split; cbn; [|done | lia | done]. split; cbn; [done | done|].
    apply Forall_lookup_2. intros i x Hx. pose proof (lookup_lt_Some _ _ _ Hx).
    rewrite <- (list_lookup_total_correct _ _ _ Hx). apply Hd. lia. }
  split; [done|]. destruct Hb as (_ & db & Eb & Hdb). rewrite L in Hd.
  destruct (switched_dot q Q n (fun i => m_data (m_a ct) !!! i) (fun i => d !!! i)
    (fun i => centered (m_modulus sk) (m_data sk !!! i)) Hd) as (da & Ea & Hda).
  exists (db - da). split.
  - rewrite (Z.mul_comm Q q). rewrite (eqmod_scale Q q _ _ ltac:(lia) Hq (phase_centered n q sk _ Hw Hn)). rewrite (Z.mul_comm q Q).
    rewrite (eqmod_scale q Q _ _ Hq ltac:(lia) (phase_centered n Q sk ct H Hn)). cbn [m_b m_a m_data].
    rewrite !Z.mul_sub_distr_l, Eb, Ea. apply eqmod_eq. ring.
  - unfold weight. rewrite Hn. lia.
Qed.
End Facts.

Section Claims.
Context `{W : NativeWidth}.

(** [C27] Switching the modulus of an LWE ciphertext with the floating-point rounding of
    the code scales its phase by the quotient of the moduli, up to an error of three
    halves for each unit of the secret and for the body, when the product of the
    moduli is at most 2^52. *)
Theorem ModSwitch_phase n q Q sk ct :
  switch_ok q Q -> ct_wf n Q ct -> GetLength sk = n ->
  returns (ModSwitch q ct) (fun ct' => ct_wf n q ct' /\
    exists d, Q * phase sk ct' ==[Q * q] q * phase sk ct + d /\ Z.abs (2 * d) <= 3 * Q * (1 + weight sk)).
Proof. apply ModSwitch_ok. Qed.
End Claims.

#[local] Existing Instance W64.

Lemma ModSwitch_phase_witness :
  returns (ModSwitch 512 ct2) (fun ct' => exists d, 1024 * phase key2 ct' ==[524288] 512 * phase key2 ct2 + d /\ Z.abs (2 * d) <= 3 * 1024 * (1 + weight key2)).
Proof.
  eapply returns_mono; [apply (ModSwitch_phase (W := W64) 2 512 1024 key2 ct2); [by split | apply ct2_wf | done]|]. intros ct' [_ H]. exact H.
Defined.
