(* ===== verification/StdLattice.v ===== *)
(** * Standard lattice parameters

    The tables of the Homomorphic Encryption Standard
    ([core/lib/lattice/stdlatticeparms.cpp] and [stdlatticeparms.h]): the ring
    dimension that a modulus needs for a distribution and a security level, and the
    largest modulus of a ring dimension. *)
From stdpp Require Import base numbers list sorting.
From Stdlib Require Import ZArith Lia.
From S2P Require Import Prelude Bits NativeInt.
Open Scope Z_scope.

Inductive DistributionType := HEStd_uniform | HEStd_error | HEStd_ternary.

Inductive SecurityLevel :=
  | HEStd_128_classic | HEStd_192_classic | HEStd_256_classic
  | HEStd_128_quantum | HEStd_192_quantum | HEStd_256_quantum
  | HEStd_NotSet.

#[export] Instance DistributionType_eq_dec : EqDecision DistributionType.
Proof. solve_decision. Defined.
#[export] Instance SecurityLevel_eq_dec : EqDecision SecurityLevel.
Proof. solve_decision. Defined.

(** [static_cast<int>] *)
Definition dist_index (d : DistributionType) : nat :=
  match d with HEStd_uniform => 0 | HEStd_error => 1 | HEStd_ternary => 2 end%nat.

Definition level_index (l : SecurityLevel) : nat :=
  match l with
  | HEStd_128_classic => 0 | HEStd_192_classic => 1 | HEStd_256_classic => 2
  | HEStd_128_quantum => 3 | HEStd_192_quantum => 4 | HEStd_256_quantum => 5
  | HEStd_NotSet => 6
  end%nat.

Definition convertToSecurityLevel (num : Z) : outcome SecurityLevel :=
  match num with
  | 0 => Ok HEStd_128_classic | 1 => Ok HEStd_192_classic | 2 => Ok HEStd_256_classic
  | 3 => Ok HEStd_128_quantum | 4 => Ok HEStd_192_quantum | 5 => Ok HEStd_256_quantum
  | _ => Throw config_error
  end.

Record StdLatticeParm := mkParm {
  distType : DistributionType;
  ringDim : Z;
  minSecLev : SecurityLevel;
  maxLogQ : Z
}.

Definition StandardLatticeParmSets : list StdLatticeParm :=
  [mkParm HEStd_uniform 1024 HEStd_128_classic 29; mkParm HEStd_uniform 1024 HEStd_192_classic 21; mkParm HEStd_uniform 1024 HEStd_256_classic 16;
   mkParm HEStd_uniform 2048 HEStd_128_classic 56; mkParm HEStd_uniform 2048 HEStd_192_classic 39; mkParm HEStd_uniform 2048 HEStd_256_classic 31;
   mkParm HEStd_uniform 4096 HEStd_128_classic 111; mkParm HEStd_uniform 4096 HEStd_192_classic 77; mkParm HEStd_uniform 4096 HEStd_256_classic 60;
   mkParm HEStd_uniform 8192 HEStd_128_classic 220; mkParm HEStd_uniform 8192 HEStd_192_classic 154; mkParm HEStd_uniform 8192 HEStd_256_classic 120;
   mkParm HEStd_uniform 16384 HEStd_128_classic 440; mkParm HEStd_uniform 16384 HEStd_192_classic 307; mkParm HEStd_uniform 16384 HEStd_256_classic 239;
   mkParm HEStd_uniform 32768 HEStd_128_classic 880; mkParm HEStd_uniform 32768 HEStd_192_classic 612; mkParm HEStd_uniform 32768 HEStd_256_classic 478;
   mkParm HEStd_error 1024 HEStd_128_classic 29; mkParm HEStd_error 1024 HEStd_192_classic 21; mkParm HEStd_error 1024 HEStd_256_classic 16;
   mkParm HEStd_error 2048 HEStd_128_classic 56; mkParm HEStd_error 2048 HEStd_192_classic 39; mkParm HEStd_error 2048 HEStd_256_classic 31;
   mkParm HEStd_error 4096 HEStd_128_classic 111; mkParm HEStd_error 4096 HEStd_192_classic 77; mkParm HEStd_error 4096 HEStd_256_classic 60;
   mkParm HEStd_error 8192 HEStd_128_classic 220; mkParm HEStd_error 8192 HEStd_192_classic 154; mkParm HEStd_error 8192 HEStd_256_classic 120;
   mkParm HEStd_error 16384 HEStd_128_classic 440; mkParm HEStd_error 16384 HEStd_192_classic 307; mkParm HEStd_error 16384 HEStd_256_classic 239;
   mkParm HEStd_error 32768 HEStd_128_classic 883; mkParm HEStd_error 32768 HEStd_192_classic 613; mkParm HEStd_error 32768 HEStd_256_classic 478;
   mkParm HEStd_error 65536 HEStd_128_classic 1774; mkParm HEStd_error 65536 HEStd_192_classic 1230; mkParm HEStd_error 65536 HEStd_256_classic 958;
   mkParm HEStd_ternary 1024 HEStd_128_classic 27; mkParm HEStd_ternary 1024 HEStd_192_classic 19; mkParm HEStd_ternary 1024 HEStd_256_classic 14;
   mkParm HEStd_ternary 2048 HEStd_128_classic 54; mkParm HEStd_ternary 2048 HEStd_192_classic 37; mkParm HEStd_ternary 2048 HEStd_256_classic 29;
   mkParm HEStd_ternary 4096 HEStd_128_classic 109; mkParm HEStd_ternary 4096 HEStd_192_classic 75; mkParm HEStd_ternary 4096 HEStd_256_classic 58;
   mkParm HEStd_ternary 8192 HEStd_128_classic 218; mkParm HEStd_ternary 8192 HEStd_192_classic 152; mkParm HEStd_ternary 8192 HEStd_256_classic 118;
   mkParm HEStd_ternary 16384 HEStd_128_classic 438; mkParm HEStd_ternary 16384 HEStd_192_classic 305; mkParm HEStd_ternary 16384 HEStd_256_classic 237;
   mkParm HEStd_ternary 32768 HEStd_128_classic 881; mkParm HEStd_ternary 32768 HEStd_192_classic 611; mkParm HEStd_ternary 32768 HEStd_256_classic 476;
   mkParm HEStd_ternary 65536 HEStd_128_classic 1772; mkParm HEStd_ternary 65536 HEStd_192_classic 1228; mkParm HEStd_ternary 65536 HEStd_256_classic 956;
   mkParm HEStd_uniform 1024 HEStd_128_quantum 27; mkParm HEStd_uniform 1024 HEStd_192_quantum 19; mkParm HEStd_uniform 1024 HEStd_256_quantum 15;
   mkParm HEStd_uniform 2048 HEStd_128_quantum 53; mkParm HEStd_uniform 2048 HEStd_192_quantum 37; mkParm HEStd_uniform 2048 HEStd_256_quantum 29;
   mkParm HEStd_uniform 4096 HEStd_128_quantum 103; mkParm HEStd_uniform 4096 HEStd_192_quantum 72; mkParm HEStd_uniform 4096 HEStd_256_quantum 56;
   mkParm HEStd_uniform 8192 HEStd_128_quantum 206; mkParm HEStd_uniform 8192 HEStd_192_quantum 143; mkParm HEStd_uniform 8192 HEStd_256_quantum 111;
   mkParm HEStd_uniform 16384 HEStd_128_quantum 413; mkParm HEStd_uniform 16384 HEStd_192_quantum 286; mkParm HEStd_uniform 16384 HEStd_256_quantum 222;
   mkParm HEStd_uniform 32768 HEStd_128_quantum 829; mkParm HEStd_uniform 32768 HEStd_192_quantum 573; mkParm HEStd_uniform 32768 HEStd_256_quantum 445;
   mkParm HEStd_error 1024 HEStd_128_quantum 27; mkParm HEStd_error 1024 HEStd_192_quantum 19; mkParm HEStd_error 1024 HEStd_256_quantum 15;
   mkParm HEStd_error 2048 HEStd_128_quantum 53; mkParm HEStd_error 2048 HEStd_192_quantum 37; mkParm HEStd_error 2048 HEStd_256_quantum 29;
   mkParm HEStd_error 4096 HEStd_128_quantum 103; mkParm HEStd_error 4096 HEStd_192_quantum 72; mkParm HEStd_error 4096 HEStd_256_quantum 56;
   mkParm HEStd_error 8192 HEStd_128_quantum 206; mkParm HEStd_error 8192 HEStd_192_quantum 143; mkParm HEStd_error 8192 HEStd_256_quantum 111;
   mkParm HEStd_error 16384 HEStd_128_quantum 413; mkParm HEStd_error 16384 HEStd_192_quantum 286; mkParm HEStd_error 16384 HEStd_256_quantum 222;
   mkParm HEStd_error 32768 HEStd_128_quantum 829; mkParm HEStd_error 32768 HEStd_192_quantum 573; mkParm HEStd_error 32768 HEStd_256_quantum 445;
   mkParm HEStd_ternary 1024 HEStd_128_quantum 25; mkParm HEStd_ternary 1024 HEStd_192_quantum 17; mkParm HEStd_ternary 1024 HEStd_256_quantum 13;
   mkParm HEStd_ternary 2048 HEStd_128_quantum 51; mkParm HEStd_ternary 2048 HEStd_192_quantum 35; mkParm HEStd_ternary 2048 HEStd_256_quantum 27;
   mkParm HEStd_ternary 4096 HEStd_128_quantum 101; mkParm HEStd_ternary 4096 HEStd_192_quantum 70; mkParm HEStd_ternary 4096 HEStd_256_quantum 54;
   mkParm HEStd_ternary 8192 HEStd_128_quantum 202; mkParm HEStd_ternary 8192 HEStd_192_quantum 141; mkParm HEStd_ternary 8192 HEStd_256_quantum 109;
   mkParm HEStd_ternary 16384 HEStd_128_quantum 411; mkParm HEStd_ternary 16384 HEStd_192_quantum 284; mkParm HEStd_ternary 16384 HEStd_256_quantum 220;
   mkParm HEStd_ternary 32768 HEStd_128_quantum 827; mkParm HEStd_ternary 32768 HEStd_192_quantum 571; mkParm HEStd_ternary 32768 HEStd_256_quantum 443].

(** ** The lookups *)

(** A [std::map] with integer keys, in the order of its keys. *)
Abbreviation std_map A := (list (Z * A)).

Fixpoint map_set {A} (k : Z) (v : A) (m : std_map A) : std_map A :=
  match m with
  | [] => [(k, v)]
  | (k', v') :: m' => if k <? k' then (k, v) :: m else if k =? k' then (k, v) :: m' else (k', v') :: map_set k v m'
  end.

Fixpoint map_find {A} (k : Z) (m : std_map A) : option A :=
  match m with
  | [] => None
  | (k', v') :: m' => if k =? k' then Some v' else map_find k m'
  end.

(** The static members. *)
Record Lookups := mkLookups {
  byRing : list (list (std_map StdLatticeParm));
  byLogQ : list (list (std_map StdLatticeParm));
  initialized : bool
}.

Definition no_lookups : Lookups := mkLookups (repeat (repeat [] 6) 3) (repeat (repeat [] 6) 3) false.

(** [t\[i\]\[j\]\[k\] = v] *)
Definition table_set (t : list (list (std_map StdLatticeParm))) (i j : nat) (k : Z) (v : StdLatticeParm)
    : outcome (list (list (std_map StdLatticeParm))) :=
  row ← vget t i;
  m ← vget row j;
  row ← vset row j (map_set k v m);
  vset t i row.

Definition initializeLookups (st : Lookups) : outcome Lookups :=
  '(r, q) ← for_range 0 (length StandardLatticeParmSets) (fun i '(r, q) =>
    s ← vget StandardLatticeParmSets i;
    r ← table_set r (dist_index (distType s)) (level_index (minSecLev s)) (ringDim s) s;
    q ← table_set q (dist_index (distType s)) (level_index (minSecLev s)) (maxLogQ s) s;
    Ok (r, q)) (byRing st, byLogQ st);
  Ok (mkLookups r q true).

Definition ensure_lookups (st : Lookups) : outcome Lookups :=
  if negb (initialized st) then initializeLookups st else Ok st.

Definition FindMaxQ (d : DistributionType) (l : SecurityLevel) (ring_dim : Z) (st : Lookups) : outcome (Z * Lookups) :=
  st ← ensure_lookups st;
  row ← vget (byRing st) (dist_index d);
  m ← vget row (level_index l);
  match map_find ring_dim m with
  | None => Ok (0, st)
  | Some s => Ok (maxLogQ s, st)
  end.

(** The loop over the sets, in the order of their largest moduli. *)
Fixpoint ring_dim_loop (curLogQ prev n : Z) (sets : std_map StdLatticeParm) : Z :=
  match sets with
  | [] => u32 (2 * n)
  | (_, s) :: sets =>
      if (curLogQ <=? maxLogQ s) && (curLogQ >? prev) then ringDim s
      else ring_dim_loop curLogQ (maxLogQ s) (ringDim s) sets
  end.

Definition FindRingDim (d : DistributionType) (l : SecurityLevel) (curLogQ : Z) (st : Lookups) : outcome (Z * Lookups) :=
  st ← ensure_lookups st;
  row ← vget (byLogQ st) (dist_index d);
  m ← vget row (level_index l);
  Ok (ring_dim_loop curLogQ 0 0 m, st).

(** ** Properties *)

(** The static members, before or after their initialisation. *)
Definition lookups_ok (st : Lookups) : Prop := st = no_lookups \/ initializeLookups no_lookups = Ok st.

Lemma ensure_lookups_ok st : lookups_ok st -> ensure_lookups st = initializeLookups no_lookups.
Proof. intros [->|H]; [done|]. rewrite H. revert H. vm_compute. by intros [= <-]. Qed.

(** The sets of a distribution and of a security level. *)
Definition sets_of (d : DistributionType) (l : SecurityLevel) : list StdLatticeParm :=
  filter (fun s => distType s = d /\ minSecLev s = l) StandardLatticeParmSets.

(** One set is smaller than another one in both its dimension and its modulus. *)
Definition set_lt (s t : StdLatticeParm) : Prop := 0 < maxLogQ s < maxLogQ t /\ ringDim s < ringDim t.

Definition keyed (f : StdLatticeParm -> Z) (sets : list StdLatticeParm) : std_map StdLatticeParm := map (fun s => (f s, s)) sets.

Definition set_ltb (s t : StdLatticeParm) : bool := (0 <? maxLogQ s) && (maxLogQ s <? maxLogQ t) && (ringDim s <? ringDim t).

Fixpoint sorted_setsb (sets : list StdLatticeParm) : bool :=
  match sets with [] => true | s :: sets => forallb (set_ltb s) sets && sorted_setsb sets end.

Lemma sorted_setsb_sound sets : sorted_setsb sets = true -> StronglySorted set_lt sets.
Proof.
  induction sets as [|s sets IH]; intros H; [constructor|]. cbn in H. apply andb_true_iff in H as [H1 H2]. constructor; [by apply IH|].
  rewrite Forall_forall. intros t Ht. rewrite forallb_forall in H1. specialize (H1 t). rewrite <- list_elem_of_In in H1. specialize (H1 Ht).
  unfold set_ltb in H1. unfold set_lt. lia.
Qed.

Lemma sets_sorted d l : StronglySorted set_lt (sets_of d l).
Proof. apply sorted_setsb_sound. destruct d, l; vm_compute; reflexivity. Qed.

(** The tables hold the sets. *)
Lemma tables_hold d l : l <> HEStd_NotSet ->
  returns (initializeLookups no_lookups) (fun st =>
    (row ← vget (byRing st) (dist_index d); vget row (level_index l)) = Ok (keyed ringDim (sets_of d l)) /\
    (row ← vget (byLogQ st) (dist_index d); vget row (level_index l)) = Ok (keyed maxLogQ (sets_of d l))).
Proof. intros Hl. destruct l; try (exfalso; apply Hl; reflexivity); destruct d; vm_compute; split; reflexivity. Qed.

Lemma in_sets_of s d l : s ∈ sets_of d l <-> s ∈ StandardLatticeParmSets /\ distType s = d /\ minSecLev s = l.
Proof. unfold sets_of. rewrite list_elem_of_filter. tauto. Qed.

(** The loop finds the first set whose modulus is large enough. *)
Lemma ring_dim_loop_first q prev n sets : StronglySorted set_lt sets -> prev < q ->
  (exists s, s ∈ sets /\ ring_dim_loop q prev n (keyed maxLogQ sets) = ringDim s /\ q <= maxLogQ s /\
     forall t, t ∈ sets -> q <= maxLogQ t -> ringDim s <= ringDim t) \/
  ((forall t, t ∈ sets -> maxLogQ t < q) /\ ring_dim_loop q prev n (keyed maxLogQ sets) = u32 (2 * default n (ringDim <$> last sets))).
Proof.
  revert prev n. induction sets as [|s sets IH]; intros prev n Hs Hq; [right; split; [by intros t Ht%elem_of_nil | done]|].
  inversion Hs as [|? ? Hs' Hall]; subst. rewrite Forall_forall in Hall. cbn [keyed map ring_dim_loop]. fold (keyed maxLogQ sets).
  rewrite Z.gtb_ltb, (proj2 (Z.ltb_lt prev q)) by done. destruct (Z.leb_spec q (maxLogQ s)); cbn [andb].
  - left. exists s. split_and!; [by left | done | done |]. intros t [->|Ht]%elem_of_cons _; [done|]. destruct (Hall t Ht). lia.
  - destruct (IH (maxLogQ s) (ringDim s) Hs' ltac:(lia)) as [(t & Ht & -> & Hqt & Hleast)|[Hnone ->]].
    + left. exists t. split_and!; [by right | done | done |]. intros t' [->|Ht']%elem_of_cons Hle; [lia | by apply Hleast].
    + right. split; [intros t [->|Ht]%elem_of_cons; [lia | by apply Hnone]|]. rewrite last_cons. by destruct (last sets).
Qed.

(** The largest dimension is that of the last set. *)
Lemma largest_twice d l t : t ∈ sets_of d l -> 2 * ringDim t <= u32 (2 * default 0 (ringDim <$> last (sets_of d l))).
Proof.
  intros Ht. assert (forallb (fun t => 2 * ringDim t <=? u32 (2 * default 0 (ringDim <$> last (sets_of d l)))) (sets_of d l) = true) as H
    by (destruct d, l; vm_compute; reflexivity).
  rewrite forallb_forall in H. apply Z.leb_le, H. by apply list_elem_of_In.
Qed.

Lemma map_find_keyed s sets : StronglySorted set_lt sets -> s ∈ sets -> map_find (ringDim s) (keyed ringDim sets) = Some s.
Proof.
  induction sets as [|t sets IH]; intros Hs Hin; [by apply elem_of_nil in Hin|]. inversion Hs as [|? ? Hs' Hall]; subst. rewrite Forall_forall in Hall.
  apply elem_of_cons in Hin as [->|Hin]; cbn; [by rewrite Z.eqb_refl|]. destruct (Hall s Hin). rewrite (proj2 (Z.eqb_neq _ _)) by lia. by apply IH.
Qed.

Lemma find_sets d l st : l <> HEStd_NotSet -> lookups_ok st -> exists st', lookups_ok st' /\
  (forall n, FindMaxQ d l n st = Ok (default 0 (maxLogQ <$> map_find n (keyed ringDim (sets_of d l))), st')) /\
  (forall q, FindRingDim d l q st = Ok (ring_dim_loop q 0 0 (keyed maxLogQ (sets_of d l)), st')).
Proof.
  intros Hl Hst. pose proof (tables_hold d l Hl) as Ht. unfold FindMaxQ, FindRingDim. rewrite (ensure_lookups_ok st Hst).
  destruct (initializeLookups no_lookups) as [st'| | |] eqn:Ei; [|contradiction..]. destruct Ht as [Hr Hq]. exists st'. split; [by right|].
  destruct (vget (byRing st') _) as [r1| | |] eqn:E1; [|discriminate..]. destruct (vget (byLogQ st') _) as [r2| | |] eqn:E2; [|discriminate..]. rewrite !bind_Ok in Hr, Hq.
  split; intros; rewrite bind_Ok, ?E1, ?E2, bind_Ok, ?Hr, ?Hq, bind_Ok; [by destruct (map_find _ _) | reflexivity].
Qed.


