(* ===== verification/BinFHE.v ===== *)
(** * The Boolean scheme

    The class [BinFHEScheme] of src/binfhe/lib/binfhe-base-scheme.cpp and
    include/binfhe-base-scheme.h: key generation, the Boolean gates, bootstrapping,
    the evaluation of functions given by a table, flooring, the large-precision sign
    and the digit decomposition, over the interface [RingGSWAccumulator] of
    include/rgsw-acc.h with its two implementations. Ciphertexts are values: whether
    two arguments are the same object, which [EvalBinGate] asks, is an argument. The
    files of the traces are not modelled; the reads of the traces are. *)
From stdpp Require Import base numbers list gmap.
From Stdlib Require Import ZArith Lia.
From S2P Require Import Prelude Bits NativeInt NativeIntProps NativeVector Ntt NbTheory Poly Lwe LweSwitch Rgsw.
Open Scope Z_scope.

Inductive BINGATE := OR | AND | NOR | NAND | XOR_FAST | XNOR_FAST | XOR | XNOR.

#[export] Instance BINGATE_eq_dec : EqDecision BINGATE.
Proof. solve_decision. Defined.

(** [static_cast<size_t>(gate)] *)
Definition gate_index (gate : BINGATE) : nat :=
  match gate with
  | OR => 0 | AND => 1 | NOR => 2 | NAND => 3 | XOR_FAST => 4 | XNOR_FAST => 5 | XOR => 6 | XNOR => 7
  end.

(** What the key generation of an accumulator samples: the uniform and the error
    polynomials of each row of each key. *)
Abbreviation samples := (nat -> nat -> nat -> nat -> NativeVectorT).

(** The virtual methods of the accumulators. *)
Record RingGSWAccumulator := mkAccumulator {
  KeyGenAcc : RingGSWCryptoParams -> PolyImpl -> NativeVectorT -> samples -> samples -> FTTCache ->
    outcome (RingGSWACCKeyImpl * FTTCache);
  EvalAcc : RingGSWCryptoParams -> RingGSWACCKeyImpl -> RLWECiphertextImpl -> NativeVectorT -> FTTCache ->
    outcome (RLWECiphertextImpl * FTTCache)
}.

(** The bootstrapping keys: the refreshing key is a [shared_ptr]. *)
Record RingGSWBTKey := mkBTKey { BSkey : option RingGSWACCKeyImpl; KSkey : LWESwitchingKeyImpl }.

Record BinFHECryptoParams := mkBinFHE { GetLWEParams : LWECryptoParams; GetRingGSWParams : RingGSWCryptoParams }.

Definition BinFHECryptoParams_eqb (a b : BinFHECryptoParams) : bool :=
  LWECryptoParams_eqb (GetLWEParams a) (GetLWEParams b) &&
  RingGSWCryptoParams_eqb (GetRingGSWParams a) (GetRingGSWParams b).

Section Definitions.
Context `{W : NativeWidth}.
Context (arb_forward arb_inverse : NativeVectorT -> ILParams -> outcome NativeVectorT).
Context (ceil_log : Z -> Z -> Z).

Let SetFormat := SetFormat arb_forward arb_inverse.

Definition RingGSWAccumulatorDM : RingGSWAccumulator :=
  mkAccumulator (KeyGenAccDM arb_forward arb_inverse) (EvalAccDM arb_forward arb_inverse).

Definition RingGSWAccumulatorCGGI : RingGSWAccumulator :=
  mkAccumulator (fun params skNTT LWEsk U E => KeyGenAccCGGI arb_forward arb_inverse params skNTT LWEsk
                   (fun i b => U i b 0%nat) (fun i b => E i b 0%nat))
    (EvalAccCGGI arb_forward arb_inverse).

(** The constructor of the scheme. *)
Definition BinFHEScheme_new (method : BINFHE_METHOD) : outcome RingGSWAccumulator :=
  match method with
  | AP => Ok RingGSWAccumulatorDM
  | GINX => Ok RingGSWAccumulatorCGGI
  | INVALID_METHOD => Throw config_error
  end.

(** [ceil(log(qKS) / log(baseKS))] *)
Definition digitCount (params : LWECryptoParams) : nat := Z.to_nat (ceil_log (m_qKS params) (m_baseKS params)).

Section Scheme.
Context (ACCscheme : RingGSWAccumulator).

(** [skN], [E], [A], [U] and [Err] are what the generators sample. *)
Definition BinFHE_KeyGen (params : BinFHECryptoParams) (LWEsk : NativeVectorT) (skN : NativeVectorT)
    (E : nat -> nat -> nat -> Z) (A : nat -> nat -> nat -> NativeVectorT) (U Err : samples) (c : FTTCache)
    : outcome (RingGSWBTKey * FTTCache) :=
  let LWEParams := GetLWEParams params in
  ks ← KeySwitchGen LWEParams (digitCount LWEParams) LWEsk skN E A;
  let RGSWParams := GetRingGSWParams params in
  skNPoly ← PolyImpl_new (GetPolyParams RGSWParams) EVALUATION false;
  skNPoly ← SetValues skNPoly skN COEFFICIENT;
  '(skNPoly, c) ← SetFormat skNPoly EVALUATION c;
  '(bs, c) ← KeyGenAcc ACCscheme RGSWParams skNPoly LWEsk U Err c;
  Ok (mkBTKey (Some bs) ks, c).

(** ** The accumulator of a bootstrapping *)

(** The polynomials an accumulator starts with, and the rotation. *)
Definition start_acc (RGSWParams : RingGSWCryptoParams) (ek : RingGSWACCKeyImpl) (ct : LWECiphertextImpl)
    (m : NativeVectorT) (c : FTTCache) : outcome (RLWECiphertextImpl * FTTCache) :=
  let polyParams := GetPolyParams RGSWParams in
  res0 ← PolyImpl_new polyParams EVALUATION true;
  res1 ← PolyImpl_new polyParams COEFFICIENT false;
  res1 ← SetValues res1 m COEFFICIENT;
  '(res1, c) ← SetFormat res1 EVALUATION c;
  EvalAcc ACCscheme RGSWParams ek [res0; res1] (m_a ct) c.

(** The value for [temp]: [Q/8] or its opposite, by the range of the gate. *)
Definition gate_value (q1 q2 Q8 Q8Neg temp : Z) : Z :=
  if q1 <? q2 then (if (temp >=? q1) && (temp <? q2) then Q8Neg else Q8)
  else (if (temp >=? q2) && (temp <? q1) then Q8 else Q8Neg).

(** The reads of the trace of [m]. *)
Definition trace_vector (m : list Z) : outcome unit :=
  for_range 0 1024 (fun i _ => _ ← vget m i; Ok tt) tt.

Definition BootstrapGateCore (params : BinFHECryptoParams) (gate : BINGATE) (ek : option RingGSWACCKeyImpl)
    (ct : LWECiphertextImpl) (c : FTTCache) : outcome (RLWECiphertextImpl * FTTCache) :=
  match ek with
  | None => Throw config_error
  | Some ek =>
      let LWEParams := GetLWEParams params in
      let RGSWParams := GetRingGSWParams params in
      let q := Lwe.GetModulus ct in
      let qHalf := u32 (Z.shiftr q 1) in
      q1 ← vget (GetGateConst RGSWParams) (gate_index gate);
      let q2 := ModAddFast q1 (wrap qHalf) q in
      let Q := m_Q LWEParams in
      Q8 ← DividedBy Q 8;
      let Q8 := Add Q8 1 in
      let Q8Neg := Sub Q Q8 in
      let N := m_N LWEParams in
      m ← NativeVectorT_new N Q;
      factor ← udiv (u32 (2 * Z.of_nat N)) q;
      let factor := u32 factor in
      let b := m_b ct in
      data ← for_range 0 (Z.to_nat qHalf) (fun j data =>
               temp ← ModSub b (wrap (Z.of_nat j)) q;
               vset data (Z.to_nat (u64 (Z.of_nat j * factor))) (gate_value q1 q2 Q8 Q8Neg temp)) (m_data m);
      _ ← trace_vector data;
      start_acc RGSWParams ek ct (mkVector data (m_modulus m)) c
  end.

(** [f] is given the value, its modulus and the modulus of the result. *)
Definition BootstrapFuncCore (params : BinFHECryptoParams) (ek : option RingGSWACCKeyImpl) (ct : LWECiphertextImpl)
    (f : Z -> Z -> Z -> outcome Z) (fmod : Z) (c : FTTCache) : outcome (RLWECiphertextImpl * FTTCache) :=
  match ek with
  | None => Throw config_error
  | Some ek =>
      let LWEParams := GetLWEParams params in
      let RGSWParams := GetRingGSWParams params in
      let Q := m_Q LWEParams in
      let N := m_N LWEParams in
      m ← NativeVectorT_new N Q;
      let ctMod := Lwe.GetModulus ct in
      factor ← udiv (u32 (2 * Z.of_nat N)) ctMod;
      let factor := u32 factor in
      let b := m_b ct in
      half ← RShift ctMod 1;
      data ← for_range 0 (Z.to_nat half) (fun j data =>
               temp ← ModSub b (wrap (Z.of_nat j)) ctMod;
               scale ← udiv Q fmod;
               y ← f temp ctMod fmod;
               vset data (Z.to_nat (u64 (Z.of_nat j * factor))) (Mul (wrap scale) y)) (m_data m);
      start_acc RGSWParams ek ct (mkVector data (m_modulus m)) c
  end.

(** The two polynomials in the coefficient representation, the first one
    transposed. *)
Definition transpose_acc (traced : bool) (accVec : RLWECiphertextImpl) (c : FTTCache)
    : outcome (PolyImpl * PolyImpl * FTTCache) :=
  acc0 ← vget accVec 0;
  _ ← (if traced then trace_poly acc0 else Ok tt);
  acc0 ← Transpose acc0;
  _ ← (if traced then trace_poly acc0 else Ok tt);
  '(acc0, c) ← SetFormat acc0 COEFFICIENT c;
  acc1 ← vget accVec 1;
  '(acc1, c) ← SetFormat acc1 COEFFICIENT c;
  Ok (acc0, acc1, c).

(** The LWE ciphertext of the constant coefficient. *)
Definition extract (acc0 : PolyImpl) (b : Z) : outcome LWECiphertextImpl :=
  a ← GetValues acc0;
  Ok (mkCiphertext a b).

(** Modulus switching, key switching, modulus switching. *)
Definition switch_back (params : BinFHECryptoParams) (K : LWESwitchingKeyImpl) (q : Z) (ctExt : LWECiphertextImpl)
    : outcome LWECiphertextImpl :=
  let LWEParams := GetLWEParams params in
  ctMS ← ModSwitch (m_qKS LWEParams) ctExt;
  ctKS ← KeySwitch LWEParams (digitCount LWEParams) K ctMS;
  ModSwitch q ctKS.

(** The end of [EvalBinGate] and of [Bootstrap], with and without traces. *)
Definition finish_gate (traced : bool) (params : BinFHECryptoParams) (EK : RingGSWBTKey) (q : Z)
    (acc : RLWECiphertextImpl) (c : FTTCache) : outcome (LWECiphertextImpl * FTTCache) :=
  '(acc0, acc1, c) ← transpose_acc traced acc c;
  let Q := m_Q (GetLWEParams params) in
  Q8 ← DividedBy Q 8;
  let b := Add Q8 1 in
  x ← index acc1 0;
  let b := ModAddFastEq b x Q in
  ctExt ← extract acc0 b;
  ct ← switch_back params (KSkey EK) q ctExt;
  Ok (ct, c).

Definition Bootstrap (params : BinFHECryptoParams) (EK : RingGSWBTKey) (ct : LWECiphertextImpl) (c : FTTCache)
    : outcome (LWECiphertextImpl * FTTCache) :=
  quarter ← RShift (Lwe.GetModulus ct) 2;
  let ctprep := EvalAddConstEq ct quarter in
  '(acc, c) ← BootstrapGateCore params AND (BSkey EK) ctprep c;
  finish_gate false params EK (Lwe.GetModulus ct) acc c.

(** The gates of one bootstrapping. *)
Definition EvalBasicGate (params : BinFHECryptoParams) (gate : BINGATE) (EK : RingGSWBTKey)
    (ct1 ct2 : LWECiphertextImpl) (c : FTTCache) : outcome (LWECiphertextImpl * FTTCache) :=
  ctprep ← (if bool_decide (gate = XOR_FAST) || bool_decide (gate = XNOR_FAST) then
              ctprep ← EvalSubEq ct1 ct2;
              EvalAddEq ctprep ctprep
            else EvalAddEq ct1 ct2);
  '(acc, c) ← BootstrapGateCore params gate (BSkey EK) ctprep c;
  finish_gate true params EK (Lwe.GetModulus ct1) acc c.

(** [same]: the two arguments are one object. The ciphertexts of the recursive
    calls are new objects. *)
Definition EvalBinGate (params : BinFHECryptoParams) (gate : BINGATE) (EK : RingGSWBTKey) (same : bool)
    (ct1 ct2 : LWECiphertextImpl) (c : FTTCache) : outcome (LWECiphertextImpl * FTTCache) :=
  if same then Throw config_error
  else if bool_decide (gate = XOR) || bool_decide (gate = XNOR) then
    ct1NOT ← EvalNOT ct1;
    ct2NOT ← EvalNOT ct2;
    '(ctAND1, c) ← EvalBasicGate params AND EK ct1 ct2NOT c;
    '(ctAND2, c) ← EvalBasicGate params AND EK ct1NOT ct2 c;
    '(ctOR, c) ← EvalBasicGate params OR EK ctAND1 ctAND2 c;
    if bool_decide (gate = XOR) then Ok (ctOR, c)
    else ct ← EvalNOT ctOR; Ok (ct, c)
  else EvalBasicGate params gate EK ct1 ct2 c.

(** ** Functions *)

Definition BootstrapFunc (params : BinFHECryptoParams) (EK : RingGSWBTKey) (ct : LWECiphertextImpl)
    (f : Z -> Z -> Z -> outcome Z) (fmod : Z) (c : FTTCache) : outcome (LWECiphertextImpl * FTTCache) :=
  '(acc, c) ← BootstrapFuncCore params (BSkey EK) ct f fmod c;
  '(acc0, acc1, c) ← transpose_acc false acc c;
  b ← index acc1 0;
  ctExt ← extract acc0 b;
  ct ← switch_back params (KSkey EK) fmod ctExt;
  Ok (ct, c).

(** The loop of [checkInputFunction]: whether some pair differs. *)
Fixpoint lut_differs (same : Z -> Z -> bool) (lut : list Z) (half : nat) (n i : nat) : outcome bool :=
  match n with
  | O => Ok false
  | S n =>
      x ← vget lut i;
      y ← vget lut (half + i);
      if negb (same x y) then Ok true else lut_differs same lut half n (S i)
  end.

(** 0 for negacyclic, 1 for periodic, 2 for arbitrary. *)
Definition checkInputFunction (lut : list Z) (mod_ : Z) : outcome Z :=
  let half := (length lut / 2)%nat in
  x ← vget lut 0;
  y ← vget lut half;
  if x =? Sub mod_ y then
    d ← lut_differs (fun x y => x =? Sub mod_ y) lut half (half - 1) 1;
    Ok (if d : bool then 2 else 0)
  else if x =? y then
    d ← lut_differs Z.eqb lut half (half - 1) 1;
    Ok (if d : bool then 2 else 1)
  else Ok 2.

(** The functions the bootstrappings evaluate. *)
Definition lut_function (LUT : list Z) (x q Q : Z) : outcome Z := vget LUT (Z.to_nat x).

Definition quarter_function (x q Q : Z) : outcome Z :=
  half ← DividedBy q 2;
  quarter ← DividedBy q 4;
  Ok (if x <? half then Sub Q quarter else quarter).

Definition half_lut_function (LUT : list Z) (x q Q : Z) : outcome Z :=
  half ← DividedBy q 2;
  if x <? half then vget LUT (Z.to_nat x)
  else
    y ← vget LUT (Z.to_nat (wrap (x - q / 2)));
    Ok (Sub Q y).

Definition floor_function (x q Q : Z) : outcome Z :=
  half ← DividedBy q 2;
  quarter ← DividedBy q 4;
  three ← DividedBy (Mul 3 q) 4;
  Ok (if x <? quarter then Sub (Sub Q half) x
      else if (quarter <=? x) && (x <? three) then x
      else Sub (Add Q half) x).

Definition sign_function (x q Q : Z) : outcome Z :=
  half ← DividedBy q 2;
  quarter ← DividedBy Q 4;
  Ok (if x <? half then quarter else Sub Q quarter).

Definition EvalFunc (params : BinFHECryptoParams) (EK : RingGSWBTKey) (ct : LWECiphertextImpl) (LUT : list Z)
    (beta : Z) (c : FTTCache) : outcome (LWECiphertextImpl * FTTCache) :=
  let q := Lwe.GetModulus ct in
  functionProperty ← checkInputFunction LUT q;
  if functionProperty =? 0 then
    let ct1 := EvalAddConstEq ct beta in
    BootstrapFunc params EK ct1 (lut_function LUT) q c
  else if functionProperty =? 2 then
    let N := Z.of_nat (m_N (GetLWEParams params)) in
    if q >? N then Throw not_implemented_error
    else
      let LUT2 := LUT ++ LUT in
      dq ← LShift q 1;
      a ← SetModulus (m_a ct) dq;
      let ct1 := mkCiphertext a (m_b ct) in
      let ct2 := EvalAddConstEq ct1 beta in
      '(ct3, c) ← BootstrapFunc params EK ct2 quarter_function dq c;
      ct3 ← EvalSubEq2 ct1 ct3;
      let ct3 := EvalAddConstEq ct3 beta in
      half ← RShift q 1;
      let ct3 := EvalSubConstEq ct3 half in
      '(ct4, c) ← BootstrapFunc params EK ct3 (half_lut_function LUT2) dq c;
      ct4 ← LWE_SetModulus ct4 q;
      Ok (ct4, c)
  else
    let ct1 := EvalAddConstEq ct beta in
    '(ct2, c) ← BootstrapFunc params EK ct1 quarter_function q c;
    ct2 ← EvalSubEq2 ct ct2;
    let ct2 := EvalAddConstEq ct2 beta in
    quarter ← RShift q 2;
    let ct2 := EvalSubConstEq ct2 quarter in
    BootstrapFunc params EK ct2 (half_lut_function LUT) q c.

(** [1 << roundbits], an [int], as a native integer. *)
Definition shl_int (roundbits : Z) : outcome Z :=
  if (0 <=? roundbits) && (roundbits <? 32) then Ok (wrap (i32 (2 ^ roundbits))) else UB.

Definition EvalFloor (params : BinFHECryptoParams) (EK : RingGSWBTKey) (ct : LWECiphertextImpl) (beta roundbits : Z)
    (c : FTTCache) : outcome (LWECiphertextImpl * FTTCache) :=
  q ← (if roundbits =? 0 then Ok (m_q (GetLWEParams params))
       else p ← shl_int roundbits; Ok (Mul (Mul beta 2) p));
  let mod_ := Lwe.GetModulus ct in
  let ct1 := EvalAddConstEq ct beta in
  ct1Modq ← LWE_SetModulus ct1 q;
  '(ct2, c) ← BootstrapFunc params EK ct1Modq quarter_function mod_ c;
  ct1 ← EvalSubEq ct1 ct2;
  ct2Modq ← LWE_SetModulus ct1 q;
  '(ct3, c) ← BootstrapFunc params EK ct2Modq floor_function mod_ c;
  ct1 ← EvalSubEq ct1 ct3;
  Ok (ct1, c).

(** ** Large precision *)

Context (ceil_log2 : Z -> Z).

Definition set_rgsw (params : BinFHECryptoParams) (r : RingGSWCryptoParams) : BinFHECryptoParams :=
  mkBinFHE (GetLWEParams params) r.

(** The base for the next rounds, when it changes. *)
Definition dynamic_base (mod_ : Z) : Z :=
  let binLog := u32 (ceil_log2 mod_) in
  if binLog <=? 17 then 2 ^ 27 else if binLog <=? 26 then 2 ^ 18 else 0.

(** The end of a round: the next modulus, the switched ciphertext and, with three
    keys, the change of base. *)
Definition next_round (params : BinFHECryptoParams) (EKs : gmap Z RingGSWBTKey) (curEK : RingGSWBTKey)
    (cttmp : LWECiphertextImpl) (mod_ q beta : Z)
    : outcome (BinFHECryptoParams * RingGSWBTKey * LWECiphertextImpl * Z) :=
  mod_ ← (d ← DividedBy mod_ q; Ok (Mul (Mul d 2) beta));
  cttmp ← ModSwitch mod_ cttmp;
  if (size EKs =? 3)%nat then
    let base := dynamic_base mod_ in
    if negb (0 =? base) then
      let params := set_rgsw params (Change_BaseG ceil_log (GetRingGSWParams params) base) in
      match EKs !! base with
      | None => Throw openfhe_error
      | Some EK => Ok (params, EK, cttmp, mod_)
      end
    else Ok (params, curEK, cttmp, mod_)
  else Ok (params, curEK, cttmp, mod_).

(** [while (mod > q)]: the loops of [EvalSign] and [EvalDecomp], which keeps the
    digits. The number of rounds the loop may take is [fuel]. *)
Fixpoint sign_rounds (fuel : nat) (params : BinFHECryptoParams) (EKs : gmap Z RingGSWBTKey) (curEK : RingGSWBTKey)
    (cttmp : LWECiphertextImpl) (mod_ q beta : Z) (digits : option (list LWECiphertextImpl)) (c : FTTCache)
    : outcome (BinFHECryptoParams * RingGSWBTKey * LWECiphertextImpl * option (list LWECiphertextImpl) * FTTCache) :=
  if negb (mod_ >? q) then Ok (params, curEK, cttmp, digits, c)
  else match fuel with
  | O => OutOfFuel
  | S fuel =>
      digits ← match digits with
               | None => Ok None
               | Some ret => ctq ← LWE_SetModulus cttmp q; Ok (Some (ret ++ [ctq]))
               end;
      '(cttmp, c) ← EvalFloor params curEK cttmp beta 0 c;
      '(params, curEK, cttmp, mod_) ← next_round params EKs curEK cttmp mod_ q beta;
      sign_rounds fuel params EKs curEK cttmp mod_ q beta digits c
  end.

(** The parameters are shared and their base changes: the result has the
    parameters the call leaves. *)
Definition EvalSign (fuel : nat) (params : BinFHECryptoParams) (EKs : gmap Z RingGSWBTKey) (ct : LWECiphertextImpl)
    (beta : Z) (c : FTTCache) : outcome (LWECiphertextImpl * BinFHECryptoParams * FTTCache) :=
  let mod_ := Lwe.GetModulus ct in
  let q := m_q (GetLWEParams params) in
  if mod_ <=? q then Throw not_implemented_error
  else
    let curBase := GetBaseG (GetRingGSWParams params) in
    match EKs !! curBase with
    | None => Throw openfhe_error
    | Some curEK =>
        '(params, curEK, cttmp, _, c) ← sign_rounds fuel params EKs curEK ct mod_ q beta None c;
        let cttmp := EvalAddConstEq cttmp beta in
        '(cttmp, c) ← BootstrapFunc params curEK cttmp sign_function q c;
        let params := set_rgsw params (Change_BaseG ceil_log (GetRingGSWParams params) curBase) in
        quarter ← RShift q 2;
        Ok (EvalSubConstEq cttmp quarter, params, c)
    end.

Definition EvalDecomp (fuel : nat) (params : BinFHECryptoParams) (EKs : gmap Z RingGSWBTKey) (ct : LWECiphertextImpl)
    (beta : Z) (c : FTTCache) : outcome (list LWECiphertextImpl * BinFHECryptoParams * FTTCache) :=
  let mod_ := Lwe.GetModulus ct in
  let q := m_q (GetLWEParams params) in
  if mod_ <=? q then Throw not_implemented_error
  else
    let curBase := GetBaseG (GetRingGSWParams params) in
    match EKs !! curBase with
    | None => Throw openfhe_error
    | Some curEK =>
        '(params, _, cttmp, ret, c) ← sign_rounds fuel params EKs curEK ct mod_ q beta (Some []) c;
        let params := set_rgsw params (Change_BaseG ceil_log (GetRingGSWParams params) curBase) in
        Ok (default [] ret ++ [cttmp], params, c)
    end.
End Scheme.
End Definitions.
