(* ===== verification/BinExtract.v ===== *)
(** * Reading the accumulator

    The constant coefficient of a rotated polynomial, the transposition that turns
    a coefficient of a ring product into an inner product, and the polynomial that
    holds the table of a function at the multiples of [2N / q]. *)
From stdpp Require Import base numbers list gmap.
From Stdlib Require Import ZArith Lia.
From S2P Require Import Prelude Bits NativeInt NativeIntProps NativeVector Ntt NttProps FttProps NbTheory AutoProps Poly PolyProps PolyAutoProps PolyDigitProps PolyAlg Lwe LweProps Rgsw RgswDigits RgswRing RgswKeys.
Open Scope Z_scope.

(** ** Sums *)

Lemma nsum_first c n : nsum c (S n) = c 0%nat + nsum (fun i => c (S i)) n.
Proof. induction n as [|n IH]; [cbn; ring|]. cbn [nsum] in *. rewrite IH. ring. Qed.

Lemma nsum_reverse c n : nsum c n = nsum (fun i => c (n - 1 - i)%nat) n.
Proof.
  induction n as [|n IH]; [done|]. rewrite (nsum_first (fun i => c (S n - 1 - i)%nat)). cbn [nsum]. rewrite IH, Z.add_comm.
  f_equal; [f_equal; lia|]. apply nsum_ext. intros i Hi. f_equal. lia.
Qed.

(** The table [h] at the multiples of [d] below [m * d], zero elsewhere. *)
Fixpoint sparse (n d : nat) (h : nat -> Z) (m : nat) : list Z :=
  match m with O => repeat 0 n | S m => <[(m * d)%nat := h m]> (sparse n d h m) end.

Lemma length_sparse n d h m : length (sparse n d h m) = n.
Proof. induction m as [|m IH]; cbn; [apply repeat_length | by rewrite length_insert]. Qed.

Lemma sparse_at n d h m j : (0 < d)%nat -> (m * d <= n)%nat -> (j < m)%nat -> sparse n d h m !!! (j * d)%nat = h j.
Proof.
  intros Hd Hm Hj. induction m as [|m IH]; [lia|]. cbn [sparse]. rewrite insert_at by (rewrite length_sparse; nia).
  case_decide as E; [f_equal; nia|]. apply IH; nia.
Qed.

Section Extract.
Context `{W : NativeWidth}.
Context (q psi : Z) (k : nat) (Hr : root_ok q psi k).
Abbreviation elem := (ring_elem q k).
Abbreviation n := (2 ^ k)%nat.

Lemma sparse_elem d h m : (forall j, (j < m)%nat -> 0 <= h j < q) -> elem (sparse n d h m).
Proof.
  intros H. induction m as [|m IH]; cbn [sparse]; [apply (pzero_elem q psi k Hr)|].
  apply insert_elem; [apply IH; intros; apply H; lia | apply H; lia].
Qed.

(** ** The transposition *)

Definition ptrans : list Z -> list Z := pauto q k (order k - 1).

Lemma n_pos : (0 < n)%nat.
Proof. pose proof (Nat.pow_nonzero 2 k). lia. Qed.

Lemma trans_odd : Z.odd (order k - 1) = true /\ 0 <= order k - 1.
Proof.
  rewrite (order_n k). pose proof n_pos. split; [|lia]. rewrite Z.odd_sub, Z.odd_mul. done.
Qed.

Lemma trans_at f j : (j < n)%nat -> ptrans f !!! j = if (j =? 0)%nat then f !!! 0%nat else (- f !!! (n - j)%nat) mod q.
Proof.
  intros Hj. destruct trans_odd as [Ho H0]. pose proof n_pos. pose proof (pow2_nat_Z k) as En. pose proof (order_n k) as Eo.
  unfold ptrans, pauto. destruct (Nat.eqb_spec j 0) as [->|Hne].
  - change 0%nat with (auto_pos k (order k - 1) 0) at 1. by rewrite (pauto_upto_at q psi k Hr _ Ho), (proj2 (Nat.ltb_lt _ _)) by lia.
  - assert (Z.of_nat (n - j) * (order k - 1) = (2 * Z.of_nat (n - j) - 1) * 2 ^ Z.of_nat k + Z.of_nat j) as E by (rewrite Eo, <- En; nia).
    assert (auto_pos k (order k - 1) (n - j) = j) as Ep.
    { unfold auto_pos. rewrite E, Z.add_comm, Z_mod_plus_full, Z.mod_small by lia. lia. }
    rewrite <- Ep at 1. rewrite (pauto_upto_at q psi k Hr _ Ho), (proj2 (Nat.ltb_lt _ _)) by lia.
    unfold auto_coeff, auto_neg. rewrite E, Z.div_add_l, (Z.div_small (Z.of_nat j)), Z.add_0_r by lia.
    replace (2 * Z.of_nat (n - j) - 1) with (1 + (Z.of_nat (n - j) - 1) * 2) by lia. by rewrite Z_mod_plus_full.
Qed.

Lemma trans_elem f : elem f -> elem (ptrans f).
Proof. destruct trans_odd. by apply (pauto_elem q psi k Hr). Qed.

(** The constant coefficient of a product is an inner product. *)
Lemma dot_trans a s : elem a -> dot n (ptrans a) s ==[q] negacyclic q a s !!! 0%nat.
Proof.
  intros [Ha _]. pose proof n_pos. rewrite (negacyclic_at q k), eqmod_mod by done. unfold dot.
  destruct n as [|m] eqn:En; [lia|]. rewrite !nsum_first, (nsum_reverse (fun i => a !!! S i * _)).
  rewrite trans_at, Nat.eqb_refl by lia. apply eqmod_add; [done|]. apply nsum_eqmod. intros i Hi.
  rewrite trans_at, (proj2 (Nat.eqb_neq _ _)), eqmod_mod, En by lia. unfold rotate.
  rewrite (proj2 (Nat.ltb_lt _ _)) by lia. apply eqmod_eq.
  replace (S (m - 1 - i)) with (S m - S i)%nat by lia. replace (S m - (S m - S i) + 0)%nat with (S i) by lia. ring.
Qed.

Context (pr : ILParams) (Hpr : ring_params q psi k pr).
Abbreviation repr := (repr q psi k pr).

Lemma Transpose_repr f : elem f -> Transpose (repr EVALUATION f) = Ok (repr EVALUATION (ptrans f)).
Proof.
  intros Hf. destruct trans_odd as [Ho H0]. unfold Transpose. cbn [RgswRing.repr m_format m_params].
  rewrite (rp_order _ _ _ _ Hpr). pose proof (size_small q psi k Hr). fold (order k).
  pose proof (order_n k). pose proof (pow2_nat_Z k) as En.
  rewrite u32_small by lia. unfold AutomorphismTransform. cbn [RgswRing.repr m_format m_params].
  rewrite (rp_power _ _ _ _ Hpr). cbn [negb]. rewrite (proj2 (Z.eqb_neq _ _)).
  - apply returns_eq. eapply returns_mono; [by apply (evaluation_denotes q psi k Hr _ Ho H0 _ f); [apply repr_denotes|]|].
    intros r (D1 & D2 & D3). rewrite <- D2. by apply denotes_repr.
  - rewrite Zmod_odd, Ho. done.
Qed.

(** ** The rotation *)

(** Coefficient zero of [X^(-u) * f]. *)
Lemma rotate_constant u f : elem f ->
  let r := Z.to_nat (u mod order k) in
  negacyclic q (pmono q k (- u)) f !!! 0%nat ==[q] if (r <? n)%nat then f !!! r else - f !!! (r - n)%nat.
Proof.
  intros Hf r. pose proof (pmono_elem q psi k Hr (- u)) as [Hl _]. pose proof n_pos. pose proof (order_n k) as Eo.
  pose proof (order_pos k). pose proof (mod_range u (order k) ltac:(lia)) as Hu.
  rewrite (negacyclic_at q k), eqmod_mod by done. unfold pmono.
  assert (Z.of_nat r = u mod order k) as Er by lia.
  assert (Z.to_nat (- u mod order k) = if (r =? 0)%nat then 0%nat else (2 * n - r)%nat) as ->.
  { destruct (Nat.eqb_spec r 0); [rewrite Z.mod_opp_l_z; lia | rewrite Z.mod_opp_l_nz; lia]. }
  assert (forall c, (q - 1) * c ==[q] - c) as Em.
  { intros c. rewrite <- (eqmod_multiple q (- c) c). apply eqmod_eq. ring. }
  destruct (Nat.eqb_spec r 0) as [->|Hr0].
  - rewrite (proj2 (Nat.ltb_lt 0 n)) by lia. rewrite (nsum_insert k), (proj2 (Nat.ltb_lt 0 n)) by lia. apply eqmod_eq. cbn [rotate Nat.ltb Nat.leb]. unfold rotate. cbn. ring.
  - destruct (Nat.ltb_spec (2 * n - r) n); (rewrite (nsum_insert k) by lia); rewrite (proj2 (Nat.ltb_lt _ _)) by lia.
    + rewrite (proj2 (Nat.ltb_ge r n)) by lia. unfold rotate. rewrite (proj2 (Nat.ltb_lt _ _)) by lia.
      replace (n - (2 * n - r) + 0)%nat with (r - n)%nat by lia. apply eqmod_eq. ring.
    + rewrite Em. unfold rotate. destruct (Nat.ltb_spec 0 (2 * n - r - n)).
      * rewrite (proj2 (Nat.ltb_lt r n)) by lia. replace (n - (2 * n - r - n) + 0)%nat with r by lia. apply eqmod_eq. ring.
      * rewrite (proj2 (Nat.ltb_ge r n)) by lia. replace (0 - (2 * n - r - n))%nat with (r - n)%nat by lia. done.
Qed.

(** The value a table function has after the rotation by [-x * 2N / 2^e]. *)
Context (e : Z) (He : 1 <= e <= Z.of_nat k + 1).
Abbreviation fac := (Z.to_nat (factor k e)).
Definition half : nat := Z.to_nat (2 ^ (e - 1)).

Lemma half_twice : 2 ^ e = 2 * Z.of_nat half /\ (0 < half)%nat.
Proof.
  unfold half. pose proof (pow2_pos (e - 1) ltac:(lia)). replace e with (1 + (e - 1)) at 1 by lia. rewrite Z.pow_add_r by lia. lia.
Qed.

Lemma half_factor : (half * fac = n)%nat /\ (0 < fac)%nat.
Proof.
  destruct half_twice as [E1 _]. pose proof (order_factor k e ltac:(lia)) as E2. rewrite (order_n k) in E2.
  assert (0 < factor k e) by (apply pow2_pos; lia). split; [|lia]. apply Nat2Z.inj. rewrite Nat2Z.inj_mul, Z2Nat.id; nia.
Qed.

Lemma table_constant h x : (forall j, (j < half)%nat -> 0 <= h j < q) ->
  let r := Z.to_nat (x mod 2 ^ e) in
  negacyclic q (pmono q k (- (factor k e * x))) (sparse n fac h half) !!! 0%nat
  ==[q] if (r <? half)%nat then h r else - h (r - half)%nat.
Proof.
  intros Hh r. rewrite (rotate_constant _ _ (sparse_elem _ _ _ Hh)). destruct half_factor as [E1 Hf0]. destruct half_twice as [E2 Hh0].
  pose proof (order_factor k e ltac:(lia)) as Eo. assert (0 < factor k e) as Hfp by (apply pow2_pos; lia).
  pose proof (mod_range x (2 ^ e) ltac:(lia)).
  assert (Z.to_nat ((factor k e * x) mod order k) = (r * fac)%nat) as ->.
  { rewrite Eo, (Z.mul_comm (2 ^ e)), Z.mul_mod_distr_l by lia. unfold r. nia. }
  destruct (Nat.ltb_spec r half).
  - rewrite (proj2 (Nat.ltb_lt _ _)) by nia. by rewrite sparse_at by nia.
  - rewrite (proj2 (Nat.ltb_ge _ _)) by nia. replace (r * fac - n)%nat with ((r - half) * fac)%nat by nia.
    by rewrite sparse_at by nia.
Qed.
End Extract.
