(* ===== verification/BinRotation.v ===== *)
(** * The accumulator interface

    What the Boolean scheme relies on: the keys [KeyGenAcc] generates let [EvalAcc]
    multiply the polynomial an accumulator encrypts by [X^(-<a, s> * 2N/q)], with a
    noise of at most [noise] for each coefficient of [a]. Both accumulators
    implement the interface. *)
From stdpp Require Import base numbers list gmap.
From Stdlib Require Import ZArith Lia.
From S2P Require Import Prelude Bits NativeInt NativeIntProps NativeVector Ntt NttProps FttProps Poly PolyProps PolyAlg Lwe Rgsw RgswDigits RgswRing RgswKeys RgswAcc RgswEval RgswKeyGen BinFHE.
Open Scope Z_scope.

(** An LWE secret modulo [qs], with entries [-1], [0] and [1]. *)
Record ternary (qs : Z) (sv : NativeVectorT) : Prop := {
  tn_qs : 3 <= qs < 2 ^ 31;
  tn_modulus : m_modulus sv = qs;
  tn_reduced : reduced qs (m_data sv);
  tn_small : forall i, -1 <= secret sv qs i <= 1
}.

(** What the generators sample for the keys. *)
Definition samples_for (q : Z) (k : nat) (eps : Z) (U E : samples) : Prop :=
  forall i j l, uniform q k (U i j l) /\ errors q k eps (E i j l).

Class BlindRotation `{W : NativeWidth} (q psi : Z) (k : nat) (params : RingGSWCryptoParams) (s : list Z) (eps e : Z)
    (A : RingGSWAccumulator) (noise : Z) (keys : nat -> (nat -> Z) -> RingGSWACCKeyImpl -> Prop) : Prop := {
  br_noise : 0 <= noise;
  br_KeyGenAcc qs sv U E c :
    ternary qs sv -> samples_for q k eps U E -> cache_for q psi k c ->
    returns (KeyGenAcc A params (repr q psi k (GetPolyParams params) EVALUATION s) sv U E c)
      (fun '(ek, c') => keys (GetLength sv) (secret sv qs) ek /\ cache_for q psi k c');
  br_EvalAcc av sec ek f t beta acc c :
    reduced (2 ^ e) (m_data av) -> m_modulus av = 2 ^ e -> ring_elem q k f -> (forall i, -1 <= sec i <= 1) ->
    keys (GetLength av) sec ek -> rotated q psi k params s f t beta acc -> cache_for q psi k c ->
    returns (EvalAcc A params ek acc av c)
      (fun '(acc', c') => rotated q psi k params s f (- (factor k e * inner av sec (GetLength av)) + t)
                            (beta + Z.of_nat (GetLength av) * noise) acc' /\ cache_for q psi k c')
}.

Section Instances.
Context `{W : NativeWidth}.
Context (q psi : Z) (k : nat) (Hr : root_ok q psi k).
Context (af ai : NativeVectorT -> ILParams -> outcome NativeVectorT).
Context (g : Z) (dg : nat) (params : RingGSWCryptoParams) (Hp : gsw_params q psi k g dg params).
Context (s : list Z) (Hs : ring_elem q k s).
Context (eps sigma kappa : Z) (H0 : 0 <= eps /\ 0 <= sigma /\ 0 <= kappa).
Context (Hsig : near q sigma s) (Hcar : carries_below q g dg kappa).
Context (e : Z) (He : 0 <= e <= Z.of_nat k + 1).

(** What the CGGI accumulator needs: the table of monomials, and dimensions for
    which the traces stay within their arrays. *)
Record cggi_params : Prop := {
  cp_dimension : (10 <= k)%nat;
  cp_rows : (8 <= 2 * dg)%nat;
  cp_monomials : monomials_ok q psi k params
}.

Lemma CGGI_BlindRotation : cggi_params ->
  BlindRotation q psi k params s eps e (RingGSWAccumulatorCGGI af ai) (cggi_bound k g dg eps sigma kappa)
    (fun m sec ek => cggi_keys q psi k g dg params s eps sec m ek).
Proof.
  intros [Hk H8 Hmon]. split.
  - unfold cggi_bound. pose proof (ext_bound_nonneg k g dg eps sigma kappa). lia.
  - intros qs sv U E c [Hqs Hm Hred Ht] HS Hc. cbn [KeyGenAcc RingGSWAccumulatorCGGI].
    pose proof (KeyGenAccCGGI_ok q psi k Hr af ai g dg params Hp s Hs eps sv qs Hqs Hm Hred
      (fun i b => U i b 0%nat) (fun i b => E i b 0%nat) c ltac:(intros; apply HS) ltac:(intros; apply HS) Hc) as H.
    rewrite bool_decide_eq_true_2 in H; [done|]. apply Forall_true. intros i. apply Ht.
  - intros av sec ek f t beta acc c Hav Hm Hf Hsec Hek Hacc Hc. cbn [EvalAcc RingGSWAccumulatorCGGI].
    by apply (EvalAccCGGI_rotates q psi k Hr af ai g dg params Hp s Hs eps sigma kappa H0 Hsig Hcar e He av Hav sec f Hf).
Qed.

(** What the Ducas-Micciancio accumulator needs: the digits of the secret. *)
Record dm_params (R : Z) (nd : nat) : Prop := {
  dp_base : 2 <= R < 2 ^ 31;
  dp_powers : forall l, (l < nd)%nat -> R ^ Z.of_nat l < 2 ^ 31;
  dp_cover : 2 ^ e <= R ^ Z.of_nat nd;
  dp_baseR : GetBaseR params = R;
  dp_digitsR : GetDigitsR params = map (fun i => R ^ Z.of_nat i) (seq 0 nd);
  dp_q : Getq params = 2 ^ e
}.

Lemma DM_BlindRotation R nd : dm_params R nd ->
  BlindRotation q psi k params s eps e (RingGSWAccumulatorDM af ai) (Z.of_nat nd * dm_bound k g dg eps sigma kappa)
    (fun m sec ek => dm_keys q psi k g dg params s eps e sec R nd m ek).
Proof.
  intros [HR Hpow Hcov HbR HdR Hq]. split.
  - pose proof (dm_bound_nonneg k g dg eps sigma kappa H0 e He R nd HR). apply Z.mul_nonneg_nonneg; lia.
  - intros qs sv U E c [Hqs Hm Hred Ht] HS Hc. cbn [KeyGenAcc RingGSWAccumulatorDM].
    apply (KeyGenAccDM_ok q psi k Hr af ai g dg params Hp s Hs eps sv qs Hqs Hm Hred e He Hq R nd HR Hpow HbR HdR);
      [intros; apply HS | intros; apply HS | done].
  - intros av sec ek f t beta acc c Hav Hm Hf Hsec Hek Hacc Hc. cbn [EvalAcc RingGSWAccumulatorDM].
    by apply (EvalAccDM_rotates q psi k Hr af ai g dg params Hp s Hs eps sigma kappa H0 Hsig Hcar e He av Hav sec f Hf t beta R nd).
Qed.
End Instances.
