(* ===== verification/RgswProps.v ===== *)
(** * Properties of the RingGSW layer

    The signed digits, the tables of the parameters, the keys of the accumulators and
    their interface. *)
From stdpp Require Import base numbers list gmap.
From Stdlib Require Import ZArith Lia.
From S2P Require Import Prelude Bits NativeInt NativeIntProps NativeVector Ntt NttProps FttProps NbTheory AutoProps Poly PolyProps PolyAutoProps PolyDigitProps PolyRing PolyAlg Rgsw RgswDigits RgswRing RgswKeys RgswAcc RgswEval RgswKeyGen RgswTables BinFHE BinRotation.
Open Scope Z_scope.

Section Claims.
Context `{W : NativeWidth}.
Context (q psi : Z) (k : nat).
Context (af ai : NativeVectorT -> ILParams -> outcome NativeVectorT).
Context (g : Z) (dg : nat) (params : RingGSWCryptoParams).
Abbreviation pr := (GetPolyParams params).

(** [C23] The signed digits of two ring elements are at most half the base in absolute
    value, and their combination with the powers of the base gives the elements
    back, up to carries past the last digit that stay below the given bound. *)
Theorem SignedDigitDecompose_recomposes kappa f0 f1 p0 p1 :
  root_ok q psi k -> gsw_params q psi k g dg params -> carries_below q g dg kappa ->
  ring_elem q k f0 -> ring_elem q k f1 -> denotes q psi k p0 f0 -> denotes q psi k p1 f1 ->
  m_format p0 = COEFFICIENT -> m_format p1 = COEFFICIENT ->
  returns (SignedDigitDecompose params [p0; p1] (poly_table q pr (2 * dg) (2 ^ k) (fun _ _ => 0))) (fun digits =>
    length digits = (2 * dg)%nat /\
    forall j, (j < 2)%nat -> exists (D : nat -> list Z) (C : list Z),
      (forall l, (l < dg)%nat -> digits !! (2 * l + j)%nat = Some (coeff_poly q pr (D l)) /\ near q (2 ^ (g - 1)) (D l)) /\
      near q kappa C /\
      psum q k (fun l => pscale q ((2 ^ g) ^ Z.of_nat l mod q) (D l)) dg = psub q (if (j =? 0)%nat then f0 else f1) C).
Proof.
  intros Hr Hp Hk H0 H1 D0 D1 F0 F1. rewrite (SignedDigitDecompose_ok q psi k Hr g dg params Hp f0 f1 H0 H1 p0 p1 D0 D1 F0 F1).
  cbn [returns]. split; [by rewrite length_map, length_seq|]. intros j Hj. set (f := if (j =? 0)%nat then f0 else f1).
  assert (ring_elem q k f) as Hf by (unfold f; by destruct (j =? 0)%nat).
  exists (fun l => sdigit_poly q g l f), (carry_poly q g dg f). split_and!.
  - intros l Hl. split; [|apply (sdigit_poly_near q psi k g dg params Hp)]. rewrite (map_seq_lookup _ _ (2 * l + j)) by lia.
    replace ((2 * l + j) / 2)%nat with l by (apply (Nat.div_unique _ 2 l j); lia).
    by replace ((2 * l + j) mod 2)%nat with j by (apply (Nat.mod_unique _ 2 l j); lia).
  - by apply (carry_poly_near q k).
  - by apply (digits_gadget q psi k Hr g dg params Hp).
Qed.

(** [C29] Key generation of the CGGI accumulator returns RingGSW encryptions of the two
    bits of every coefficient of a ternary secret, and throws not_implemented_error
    exactly when a coefficient of the secret is not ternary. *)
Theorem KeyGenAccCGGI_ternary s eps sv qs U E c :
  root_ok q psi k -> gsw_params q psi k g dg params -> ring_elem q k s ->
  3 <= qs < 2 ^ 31 -> m_modulus sv = qs -> reduced qs (m_data sv) ->
  (forall j b, uniform q k (U j b)) -> (forall j b, errors q k eps (E j b)) -> cache_for q psi k c ->
  if bool_decide (Forall (fun i => -1 <= secret sv qs i <= 1) (seq 0 (GetLength sv)))
  then returns (KeyGenAccCGGI af ai params (repr q psi k pr EVALUATION s) sv U E c)
         (fun '(ek, c') => cggi_keys q psi k g dg params s eps (secret sv qs) (GetLength sv) ek /\ cache_for q psi k c')
  else KeyGenAccCGGI af ai params (repr q psi k pr EVALUATION s) sv U E c = Throw not_implemented_error.
Proof. intros Hr Hp Hs Hqs Hm Hred HU HE Hc. by apply KeyGenAccCGGI_ok. Qed.

(** [C6] Both accumulators implement the interface of blind rotation: their keys encrypt
    the secret, and EvalAcc on these keys multiplies the polynomial that the
    accumulator encrypts by the power of X given by the inner product with the
    secret, adding at most the stated noise for each coefficient. *)
Theorem accumulators_implement_rotation s eps sigma kappa e R nd :
  root_ok q psi k -> gsw_params q psi k g dg params -> ring_elem q k s ->
  0 <= eps /\ 0 <= sigma /\ 0 <= kappa -> near q sigma s -> carries_below q g dg kappa -> 0 <= e <= Z.of_nat k + 1 ->
  (cggi_params q psi k dg params ->
   BlindRotation q psi k params s eps e (RingGSWAccumulatorCGGI af ai) (cggi_bound k g dg eps sigma kappa)
     (fun m sec ek => cggi_keys q psi k g dg params s eps sec m ek)) /\
  (dm_params params e R nd ->
   BlindRotation q psi k params s eps e (RingGSWAccumulatorDM af ai) (Z.of_nat nd * dm_bound k g dg eps sigma kappa)
     (fun m sec ek => dm_keys q psi k g dg params s eps e sec R nd m ek)).
Proof. intros Hr Hp Hs H0 Hsig Hcar He. split; [by apply CGGI_BlindRotation | by apply DM_BlindRotation]. Qed.
End Claims.

(** ** Tables *)

Section Tables.
Context `{W : NativeWidth}.
Context (q psi : Z) (k : nat).
Context (af ai : NativeVectorT -> ILParams -> outcome NativeVectorT) (ceil_log : Z -> Z -> Z).

(** The tables of the RingGSW parameters are right: the powers of the gadget base
    modulo the modulus, the gate constants, the powers of the digit base for Ducas-
    Micciancio and the transforms of X^m - 1 for all m for CGGI. *)
Theorem RingGSW_PreCompute_tables pr g dg e R nd method c :
  root_ok q psi k -> ring_params q psi k pr -> 1 <= g -> 2 ^ g < 2 * q -> 1 <= Z.of_nat dg < 2 ^ 31 -> q < 2 ^ (g * Z.of_nat dg) ->
  0 <= e <= Z.of_nat k + 1 -> ceil_log (2 ^ e) R = Z.of_nat nd -> (forall l, (l < nd)%nat -> 0 <= R ^ Z.of_nat l < 2 ^ wbits) ->
  cache_for q psi k c ->
  returns (RingGSW_PreCompute af ai ceil_log (fresh_params q k pr g dg e R method) false c) (fun '(params, c') =>
    gsw_params q psi k g dg params /\ cache_for q psi k c' /\
    GetGateConst params = map (fun m => m * (2 ^ e / 8)) [5; 7; 1; 3; 5; 1] /\
    (method = GINX -> monomials_ok q psi k params) /\
    (method = AP -> GetDigitsR params = map (fun i => R ^ Z.of_nat i) (seq 0 nd))).
Proof.
  intros Hr Hpr Hg Hs Hd Hcov He Hlog HR Hc.
  eapply returns_mono; [by apply (RingGSW_PreCompute_ok q psi k Hr af ai ceil_log pr Hpr g dg e R nd method)|].
  intros [params c'] (H1 & H2 & _ & _ & _ & _ & H3 & H4 & H5). done.
Qed.

(** The bases of the sign evaluation: each has its powers, and the gadget of a base
    that is not one of them is not filled. *)
Lemma sign_powers_ok params : root_ok q psi k -> GetQ params = q ->
  let powers b := map (fun i => b ^ Z.of_nat i mod q) (seq 0 (Z.to_nat (ceil_log q b))) in
  sign_powers ceil_log params
  = Ok (if bool_decide (GetBaseG params ∈ baseGlist) then powers (GetBaseG params) else GetGPower params,
        <[2 ^ 27 := powers (2 ^ 27)]> (<[2 ^ 18 := powers (2 ^ 18)]> (<[2 ^ 14 := powers (2 ^ 14)]> (GetGPowerMap params)))).
Proof.
  intros Hr HQ powers. unfold sign_powers. rewrite HQ. pose proof wbits_range. assert (2 ^ 32 <= 2 ^ wbits) by (apply Z.pow_le_mono_r; lia).
  set (body := fun (j : nat) '(Gpower, Gpower_map) => _).
  assert (forall j b G (M : gmap Z (list Z)), baseGlist !! j = Some b -> 0 <= b < 2 ^ 32 ->
    body j (G, M) = Ok (if GetBaseG params =? b then powers b else G, <[b := powers b]> M)) as Hbody.
  { intros j b G M Hj Hb. unfold body. by rewrite (vget_Some _ _ _ Hj), bind_Ok, (gadget_powers_ok q psi k Hr), bind_Ok by lia. }
  unfold for_range. cbn [Nat.sub for_n].
  rewrite (Hbody 0%nat (2 ^ 14)), bind_Ok, (Hbody 1%nat (2 ^ 18)), bind_Ok, (Hbody 2%nat (2 ^ 27)), bind_Ok by done. do 2 f_equal.
  unfold baseGlist. case_bool_decide as Hin.
  - rewrite !elem_of_cons, elem_of_nil in Hin. destruct Hin as [-> | [-> | [-> | []]]]; done.
  - rewrite !elem_of_cons, elem_of_nil in Hin. rewrite !(proj2 (Z.eqb_neq _ _)) by tauto. done.
Qed.
End Tables.

(** ** Instances *)

#[local] Existing Instance W64.

(** Two bits a digit, three digits, modulo 17. *)
Definition rgsw8 : RingGSWCryptoParams :=
  mkRingGSW 8 17 16 4 3 4 [1; 4] [1; 4; 16] ∅ params8 [] [] AP.

Lemma gsw8 : gsw_params 17 3 3 2 3 rgsw8.
Proof. by split. Qed.

Lemma carries8 : carries_below 17 2 3 0.
Proof. apply (carries_none 17 3 3 2 3 rgsw8 gsw8). vm_compute. discriminate. Qed.

Lemma elem8 d : length d = 8%nat -> forallb (fun x => (0 <=? x) && (x <? 17)) d = true -> ring_elem 17 3 d.
Proof.
  intros Hl H. split; [done|]. apply Forall_forall. intros x Hx. rewrite forallb_forall in H. specialize (H x). rewrite <- list_elem_of_In in H.
  specialize (H Hx). lia.
Qed.

Lemma ascending_elem : ring_elem 17 3 ascending.
Proof. by apply elem8. Qed.

Lemma ascending_denotes : denotes 17 3 3 (poly8 COEFFICIENT ascending) ascending.
Proof. apply poly8_denotes; [done | apply ascending_reduced]. Qed.

Lemma SignedDigitDecompose_recomposes_witness :
  returns (SignedDigitDecompose rgsw8 [poly8 COEFFICIENT ascending; poly8 COEFFICIENT ascending] (poly_table 17 params8 6 8 (fun _ _ => 0)))
    (fun digits => length digits = 6%nat).
Proof.
  eapply returns_mono; [apply (SignedDigitDecompose_recomposes (W := W64) 17 3 3 2 3 rgsw8 0 ascending ascending (poly8 COEFFICIENT ascending) (poly8 COEFFICIENT ascending));
    [apply root8 | apply gsw8 | apply carries8 | apply ascending_elem | apply ascending_elem | apply ascending_denotes | apply ascending_denotes | done | done]|].
  intros digits [H _]. exact H.
Defined.

(** Samples that are constant polynomials. *)
Definition sample8 (x : Z) (i j m : nat) : NativeVectorT := mkVector (x :: repeat 0 7) 17.

Lemma sample8_uniform x i j : 0 <= x < 17 -> uniform 17 3 (sample8 x i j).
Proof. intros Hx m. split; [done|]. cbn. constructor; [done|]. by repeat constructor. Qed.

Lemma sample8_errors i j : errors 17 3 1 (sample8 1 i j).
Proof.
  intros m. split; [by apply sample8_uniform|]. cbn. constructor; [by exists 1|]. repeat (constructor; [by exists 0|]). constructor.
Qed.

Definition secret8 (x : Z) : NativeVectorT := mkVector [1; x] 16.

(** The secret [1, 2] is not ternary. *)
Lemma KeyGenAccCGGI_ternary_witness :
  KeyGenAccCGGI no_arb no_arb rgsw8 (repr 17 3 3 params8 EVALUATION ascending) (secret8 2) (sample8 5) (sample8 1) empty_cache
  = Throw not_implemented_error.
Proof.
  pose proof (KeyGenAccCGGI_ternary (W := W64) 17 3 3 no_arb no_arb 2 3 rgsw8 ascending 1 (secret8 2) 16 (sample8 5) (sample8 1) empty_cache
    root8 gsw8 ascending_elem ltac:(lia) eq_refl ltac:(repeat constructor; cbn; lia) ltac:(intros; apply sample8_uniform; lia)
    ltac:(intros; apply sample8_errors) ltac:(by left)) as H.
  exact H.
Defined.

Lemma near8 : near 17 8 ascending.
Proof. unfold ascending. repeat (constructor; [eexists; split; [|reflexivity]; lia|]). constructor. Qed.

Lemma dm8 : dm_params rgsw8 4 4 2.
Proof. split; try done. intros [|[|l]] Hl; [done | done | lia]. Qed.

Lemma accumulators_implement_rotation_witness :
  BlindRotation 17 3 3 rgsw8 ascending 1 4 (RingGSWAccumulatorDM no_arb no_arb) (2 * dm_bound 3 2 3 1 8 0)
    (fun m sec ek => dm_keys 17 3 3 2 3 rgsw8 ascending 1 4 sec 4 2 m ek).
Proof.
  apply (accumulators_implement_rotation (W := W64) 17 3 3 no_arb no_arb 2 3 rgsw8 ascending 1 8 0 4 4 2);
    [apply root8 | apply gsw8 | apply ascending_elem | lia | apply near8 | apply carries8 | lia | apply dm8].
Defined.

Definition log8 (x b : Z) : Z := 2.

Lemma RingGSW_PreCompute_tables_witness :
  returns (RingGSW_PreCompute no_arb no_arb log8 (fresh_params 17 3 params8 2 3 4 4 AP) false empty_cache)
    (fun '(params, _) => gsw_params 17 3 3 2 3 params /\ GetDigitsR params = [1; 4]).
Proof.
  eapply returns_mono; [apply (RingGSW_PreCompute_tables (W := W64) 17 3 3 no_arb no_arb log8 params8 2 3 4 4 2 AP empty_cache);
    [apply root8 | apply params8_ok | lia | done | lia | done | lia | done | | by left]|].
  - intros [|[|l]] Hl; [done | done | lia].
  - intros [params c] (H1 & _ & _ & _ & H2). split; [exact H1 | exact (H2 eq_refl)].
Defined.
