(* ===== verification/BinBoot.v ===== *)
(** * Bootstrapping

    The steps of a bootstrapping on LWE phases: the accumulator rotates the table of
    a function, the constant coefficient is extracted as an LWE ciphertext, and the
    ciphertext is switched back to the modulus and the key of the input. *)
From stdpp Require Import base numbers list gmap.
From Stdlib Require Import ZArith Lia.
From S2P Require Import Prelude Bits NativeInt NativeIntProps NativeVector Ntt NttProps FttProps NbTheory Poly PolyProps PolyDigitProps PolyAlg Lwe LweProps LweSwitch Rgsw RgswDigits RgswRing RgswKeys RgswAcc RgswEval RgswKeyGen BinFHE BinExtract BinRotation.
Open Scope Z_scope.

Section Boot.
Context `{W : NativeWidth}.
Context (Q psi : Z) (k : nat) (Hr : root_ok Q psi k).
Context (af ai : NativeVectorT -> ILParams -> outcome NativeVectorT).
Context (rg : RingGSWCryptoParams) (Hpr : ring_params Q psi k (GetPolyParams rg)).
Abbreviation pr := (GetPolyParams rg).
Abbreviation repr := (repr Q psi k pr).
Abbreviation elem := (ring_elem Q k).
Abbreviation N := (2 ^ k)%nat.

(** The ring secret, as a vector and as a polynomial. *)
Context (skN : NativeVectorT) (HmN : m_modulus skN = Q) (HsN : elem (m_data skN)).
Abbreviation s := (m_data skN).

(** The LWE secret and the accumulator. *)
Context (e : Z) (He : 1 <= e <= Z.of_nat k + 1).
Context (qs : Z) (sk : NativeVectorT) (Hsk : ternary qs sk).
Context (eps noise : Z) (A : RingGSWAccumulator) (keys : nat -> (nat -> Z) -> RingGSWACCKeyImpl -> Prop).
Context {BR : BlindRotation Q psi k rg s eps e A noise keys}.
Abbreviation n := (GetLength sk).
Context (ek : RingGSWACCKeyImpl) (Hek : keys n (secret sk qs) ek).

(** ** The accumulator *)

Lemma SetValues_repr data p : m_params p = pr -> elem data -> SetValues p (mkVector data Q) COEFFICIENT = Ok (repr COEFFICIENT data).
Proof.
  intros Ep [Hl Hd]. unfold SetValues, Poly.GetModulus. rewrite Ep, (rp_root _ _ _ _ Hpr), (rp_dimension _ _ _ _ Hpr), (rp_modulus _ _ _ _ Hpr).
  pose proof (ro_psi _ _ _ Hr). rewrite (proj2 (Z.eqb_neq _ _)) by lia. unfold GetLength. cbn [m_data m_modulus].
  rewrite Hl, (pow2_nat_Z k), !Z.eqb_refl. done.
Qed.

Lemma rotated_start data : elem data -> rotated Q psi k rg s data 0 0 [repr EVALUATION (pzero k); repr EVALUATION data].
Proof.
  intros Hd. exists (pzero k), data, (pzero k). pose proof (pzero_elem Q psi k Hr).
  split_and!; try done; [apply near_zero|]. unfold PolyAlg.phase. rewrite (pmono_0_mul Q psi k Hr), (padd_0_r Q psi k Hr) by done. ring_eq Hr.
Qed.

Context (ct : LWECiphertextImpl) (Hct : ct_wf n (2 ^ e) ct).

Lemma start_acc_rotated data c : elem data -> cache_for Q psi k c ->
  returns (start_acc af ai A rg ek ct (mkVector data Q) c)
    (fun '(acc, c') => rotated Q psi k rg s data (- (factor k e * inner (m_a ct) (secret sk qs) n))
                         (Z.of_nat n * noise) acc /\ cache_for Q psi k c').
Proof.
  intros Hd Hc. pose proof Hct as [V M L B]. unfold start_acc. rewrite (PolyImpl_new_repr Q psi k Hr pr Hpr EVALUATION), bind_Ok.
  unfold PolyImpl_new. rewrite bind_Ok, SetValues_repr, bind_Ok by done.
  eapply returns_bind; [by apply (SetFormat_repr Q psi k Hr af ai pr Hpr)|]. intros [r c1] [-> Hc1].
  assert (GetLength (m_a ct) = n) as El by (by unfold GetLength at 1). 
  eapply returns_mono; [apply (br_EvalAcc (m_a ct) (secret sk qs) ek data 0 0); try done|].
  - rewrite <- M. apply V.
  - apply Hsk.
  - by rewrite El.
  - by apply rotated_start.
  - intros [acc c2] [H1 H2]. split; [|done]. rewrite El in H1. by rewrite Z.add_0_r, Z.add_0_l in H1.
Qed.

(** ** The extraction *)

Lemma transpose_acc_ok traced f t beta acc c : (traced = true -> (10 <= k)%nat) ->
  rotated Q psi k rg s f t beta acc -> cache_for Q psi k c ->
  returns (transpose_acc af ai traced acc c) (fun '(p0, p1, c') => cache_for Q psi k c' /\
    exists a b, p0 = repr COEFFICIENT (ptrans Q k a) /\ p1 = repr COEFFICIENT b /\ elem a /\ elem b /\
      exists z, PolyAlg.phase Q s a b = padd Q (negacyclic Q (pmono Q k t) f) z /\ elem z /\ near Q beta z).
Proof.
  intros Ht (a & b & z & -> & Ha & Hb & Hz & Hn & E) Hc. unfold transpose_acc. cbn [vget lookup list_lookup]. rewrite bind_Ok.
  assert (forall F f, elem f -> (if traced then trace_poly (repr F f) else Ok tt) = Ok tt) as Htr.
  { intros F h Hh. destruct traced; [|done]. apply (trace_poly_repr Q psi k Hr rg); [by apply Ht | done]. }
  pose proof (trans_elem Q psi k Hr a Ha) as Hta.
  rewrite Htr, bind_Ok, (Transpose_repr Q psi k Hr pr Hpr), bind_Ok, Htr, bind_Ok by done.
  eapply returns_bind; [by apply (SetFormat_repr Q psi k Hr af ai pr Hpr)|]. intros [p0 c1] [-> Hc1]. rewrite bind_Ok.
  eapply returns_bind; [by apply (SetFormat_repr Q psi k Hr af ai pr Hpr)|]. intros [p1 c2] [-> Hc2].
  split; [done|]. exists a, b. split_and!; try done. by exists z.
Qed.

Lemma key_mod_ring i : (i < N)%nat -> key_mod skN Q !!! i ==[Q] s !!! i.
Proof.
  intros Hi. destruct HsN as [Hl _]. unfold key_mod. rewrite HmN.
  rewrite (list_lookup_total_correct (map _ _) i (centered Q (s !!! i) mod Q)).
  - rewrite eqmod_mod. unfold centered. destruct (_ >? _); [|done]. rewrite <- (eqmod_multiple Q (s !!! i - Q) 1). apply eqmod_eq. ring.
  - rewrite list_lookup_fmap, list_lookup_lookup_total_lt by lia. done.
Qed.

(** The extracted ciphertext: its phase is the constant coefficient. *)
Lemma extract_phase a b b' z : elem a -> elem b -> 0 <= b' < Q -> b' ==[Q] b !!! 0%nat + z ->
  let ct' := mkCiphertext (mkVector (ptrans Q k a) Q) b' in
  ct_wf N Q ct' /\ LweProps.phase skN ct' ==[Q] PolyAlg.phase Q s a b !!! 0%nat + z.
Proof.
  intros Ha Hb Rb Eb ct'. pose proof (trans_elem Q psi k Hr a Ha) as [Lt Rt]. pose proof (n_pos k).
  pose proof (modulus_pos Q psi k Hr). split.
  - split; cbn; [split; cbn; [lia | apply Hr | done] | done | done | done].
  - unfold LweProps.phase, PolyAlg.phase, Lwe.GetModulus. cbn [ct' m_b m_a m_data m_modulus]. destruct HsN as [Ls _].
    pose proof (proj1 Hb) as Lb. unfold psub. rewrite zip_with_at by (rewrite ?length_negacyclic, ?(proj1 Ha); lia).
    rewrite eqmod_mod, <- (dot_trans Q psi k Hr a s Ha), Eb. unfold GetLength. rewrite Ls.
    unfold dot. rewrite (nsum_eqmod Q (fun i => ptrans Q k a !!! i * key_mod skN Q !!! i) (fun i => ptrans Q k a !!! i * s !!! i)); [apply eqmod_eq; ring|].
    intros i Hi. by rewrite key_mod_ring.
Qed.

(** ** The table *)

(** The rotated table at the phase: a function that changes sign, up to [delta],
    when its argument moves by half the modulus. *)
Definition negacyclic_function (F : Z -> Z) (delta : Z) : Prop :=
  forall y, 0 <= y < 2 ^ e -> small Q delta (F ((y + 2 ^ (e - 1)) mod 2 ^ e) + F y).

Definition table (F : Z -> Z) : nat -> Z := fun j => F ((m_b ct - Z.of_nat j) mod 2 ^ e).

Lemma phase_inner : LweProps.phase sk ct ==[2 ^ e] m_b ct - inner (m_a ct) (secret sk qs) n.
Proof.
  rewrite (phase_centered n (2 ^ e) sk ct Hct eq_refl). unfold inner, secret, centered. by rewrite (tn_modulus _ _ Hsk).
Qed.

Lemma table_phase F delta : (forall y, 0 <= y < 2 ^ e -> 0 <= F y < Q) -> 0 <= delta -> negacyclic_function F delta ->
  let f := sparse N (Z.to_nat (factor k e)) (table F) (half e) in
  elem f /\ exists z, Z.abs z <= delta /\
    negacyclic Q (pmono Q k (- (factor k e * inner (m_a ct) (secret sk qs) n))) f !!! 0%nat
    ==[Q] F (LweProps.phase sk ct mod 2 ^ e) + z.
Proof.
  intros HF Hd Hneg f. pose proof (half_twice k e He) as [E2 Hh].
  assert (forall j, 0 <= table F j < Q) as Ht by (intros j; apply HF, mod_range; lia).
  split; [by apply (sparse_elem Q psi k Hr)|]. set (x := inner _ _ _). unfold f.
  pose proof (table_constant Q psi k Hr e He (table F) x (fun j _ => Ht j)) as Ec. cbv zeta in Ec.
  set (r := Z.to_nat (x mod 2 ^ e)) in Ec. pose proof (mod_range x (2 ^ e) ltac:(lia)).
  assert (LweProps.phase sk ct mod 2 ^ e = (m_b ct - Z.of_nat r) mod 2 ^ e) as Eph.
  { apply eqmod_elim. rewrite phase_inner. fold x. unfold r. rewrite Z2Nat.id, eqmod_mod by lia. done. }
  assert (2 ^ (e - 1) = Z.of_nat (half e)) as Eh by (unfold half; pose proof (pow2_pos (e - 1) ltac:(lia)); lia).
  destruct (Nat.ltb_spec r (half e)).
  - exists 0. split; [done|]. rewrite Ec, Eph. apply eqmod_eq. unfold table. ring.
  - destruct (Hneg (LweProps.phase sk ct mod 2 ^ e) (mod_range (LweProps.phase sk ct) (2 ^ e) ltac:(lia))) as (z & Hz & Ez).
    exists (- z). split; [lia|]. rewrite Ec, <- Ez. unfold table. rewrite Eph, Eh, Z.add_mod_idemp_l by lia.
    replace (m_b ct - Z.of_nat (r - half e)) with (m_b ct - Z.of_nat r + Z.of_nat (half e)) by lia. apply eqmod_eq. ring.
Qed.
(** The loops that fill the table. *)
Lemma table_index j : (j < half e)%nat ->
  ModSub (m_b ct) (wrap (Z.of_nat j)) (2 ^ e) = Ok ((m_b ct - Z.of_nat j) mod 2 ^ e) /\
  Z.to_nat (u64 (Z.of_nat j * factor k e)) = (j * Z.to_nat (factor k e))%nat.
Proof.
  intros Hj. pose proof Hct as [_ _ _ Hb]. destruct (half_factor k e He) as [Ehf Hf]. destruct (half_twice k e He) as [E2 H2].
  pose proof (size_small Q psi k Hr) as Hsz. pose proof (pow2_nat_Z k) as En. pose proof wbits_range.
  assert (2 ^ 32 <= 2 ^ wbits) by (apply Z.pow_le_mono_r; lia).
  assert (2 ^ e <= 2 ^ 26) by (pose proof (size_k Q psi k Hr); apply Z.pow_le_mono_r; lia).
  assert (0 < factor k e) by (apply pow2_pos; lia). assert (j * Z.to_nat (factor k e) < N)%nat by nia.
  split; [by rewrite wrap_small, ModSub_correct by lia|]. rewrite u64_small; nia.
Qed.

Lemma table_fill F body :
  (forall j data, (j < half e)%nat ->
     body j data = vset data (j * Z.to_nat (factor k e))%nat (F ((m_b ct - Z.of_nat j) mod 2 ^ e))) ->
  for_range 0 (half e) body (repeat 0 N) = Ok (sparse N (Z.to_nat (factor k e)) (table F) (half e)).
Proof.
  intros Hbody. destruct (half_factor k e He) as [Ehf Hf].
  apply (for_range_exact (sparse N (Z.to_nat (factor k e)) (table F))); [lia|]. intros j Hj.
  rewrite Hbody, vset_lt by (rewrite ?length_sparse; nia). done.
Qed.

(** The step of the table. *)
Lemma table_factor : udiv (u32 (2 * Z.of_nat N)) (2 ^ e) = Ok (factor k e) /\ u32 (factor k e) = factor k e.
Proof.
  pose proof (order_factor k e ltac:(lia)) as E. rewrite (order_n k) in E. pose proof (pow2_pos e ltac:(lia)).
  assert (0 < factor k e) by (apply pow2_pos; lia). pose proof (size_small Q psi k Hr) as Hsz. rewrite <- (pow2_nat_Z k) in Hsz.
  rewrite u32_small, E, udiv_pos, Z.mul_comm, Z.div_mul by lia. split; [done|]. rewrite u32_small; nia.
Qed.
End Boot.

(** Errors of a switching key, as residues of small integers. *)
Definition small_errors (q eta : Z) (E : nat -> nat -> nat -> Z) : Prop := forall i d j, small q eta (E i d j).

Lemma switching_error_small q eta E B dc ct N : small_errors q eta E ->
  small q (Z.of_nat N * (Z.of_nat dc * eta)) (switching_error E B dc ct N).
Proof.
  intros H. unfold switching_error. apply small_nsum. intros i _. unfold digit_errors. apply small_nsum. intros j _. apply H.
Qed.

Section Back.
Context `{W : NativeWidth} (ceil_log : Z -> Z -> Z).
Context (params : BinFHECryptoParams).
Abbreviation lw := (GetLWEParams params).
Abbreviation dc := (digitCount ceil_log lw).
Abbreviation qKS := (m_qKS lw).

(** What the three steps need of the parameters. *)
Record back_ok (Q q : Z) (sk skN : NativeVectorT) : Prop := {
  bo_n : m_n lw = GetLength sk;
  bo_N : m_N lw = GetLength skN;
  bo_base : 1 < m_baseKS lw < 2 ^ wbits;
  bo_digits : qKS <= m_baseKS lw ^ Z.of_nat dc;
  bo_first : switch_ok qKS Q;
  bo_second : switch_ok q qKS
}.

(** Twice the error, in units of [1 / (Q * qKS)]. *)
Definition back_noise (Q q : Z) (sk skN : NativeVectorT) (eta : Z) : Z :=
  3 * q * Q * (1 + weight skN) + 2 * q * Q * (Z.of_nat (GetLength skN) * (Z.of_nat dc * eta)) + 3 * Q * qKS * (1 + weight sk).

Lemma switch_back_phase Q q sk skN K E eta ct P :
  back_ok Q q sk skN -> switching_key_ok qKS (m_baseKS lw) dc sk skN K E -> small_errors qKS eta E ->
  ct_wf (GetLength skN) Q ct -> phase skN ct ==[Q] P ->
  returns (switch_back ceil_log params K q ct) (fun ct' => ct_wf (GetLength sk) q ct' /\
    exists d, Q * qKS * phase sk ct' ==[Q * qKS * q] q * qKS * P + d /\ Z.abs (2 * d) <= back_noise Q q sk skN eta).
Proof.
  intros [Hn HN HB Hdc H1 H2] HK HE Hct HP. pose proof H1 as [Hk0 _ HQ0 _]. pose proof H2 as [Hq0 _ _ _]. unfold switch_back.
  eapply returns_bind; [by apply (ModSwitch_ok (GetLength skN) qKS Q skN ct H1 Hct)|]. intros ct1 (W1 & d1 & E1 & D1).
  eapply returns_bind; [by apply (KeySwitch_ok lw dc sk skN K E ct1 qKS)|]. intros ct2 [W2 E2].
  eapply returns_mono; [by apply (ModSwitch_ok (GetLength sk) q qKS sk ct2 H2 W2)|]. intros ct3 (W3 & d3 & E3 & D3).
  split; [done|]. destruct (switching_error_small qKS eta E (m_baseKS lw) dc ct1 (GetLength skN) HE) as (z & Hz & Ez).
  rewrite Ez in E2.
  apply eqmod_divide in E1 as [j1 E1]; [|nia]. apply eqmod_divide in E2 as [j2 E2]; [|lia].
  apply eqmod_divide in E3 as [j3 E3]; [|nia]. apply eqmod_divide in HP as [j0 HP]; [|lia].
  exists (q * d1 - q * Q * z + Q * d3). split.
  - apply eqmod_divide; [apply Z.mul_pos_pos; nia|]. exists (j3 + j2 + j1 + j0).
    replace (phase sk ct2) with (phase skN ct1 - z + j2 * qKS) in E3 by lia.
    assert (Q * phase skN ct1 = qKS * phase skN ct + d1 + j1 * (Q * qKS)) as X1 by lia.
    assert (qKS * phase sk ct3 = q * (phase skN ct1 - z + j2 * qKS) + d3 + j3 * (qKS * q)) as X3 by lia.
    replace (Q * qKS * phase sk ct3) with (Q * (qKS * phase sk ct3)) by ring. rewrite X3.
    replace (Q * (q * (phase skN ct1 - z + j2 * qKS) + d3 + j3 * (qKS * q))) with
      (q * (Q * phase skN ct1) - q * Q * z + Q * d3 + Q * qKS * q * (j2 + j3)) by ring.
    rewrite X1. replace (phase skN ct) with (P + j0 * Q) by lia. ring.
  - unfold back_noise.
    assert (Z.abs (2 * (q * d1)) <= q * (3 * Q * (1 + weight skN))) by nia.
    assert (Z.abs (2 * (Q * d3)) <= Q * (3 * qKS * (1 + weight sk))) by nia.
    assert (Z.abs (2 * (q * Q * z)) <= 2 * q * Q * (Z.of_nat (GetLength skN) * (Z.of_nat dc * eta))).
    { rewrite Z.mul_assoc, Z.abs_mul. rewrite (Z.abs_eq (2 * (q * Q))) by nia. rewrite <- !Z.mul_assoc. repeat (apply Z.mul_le_mono_nonneg_l; [lia|]). lia. }
    lia.
Qed.

(** A phase equal to [v], up to [tau]. *)
Definition holds (sk : NativeVectorT) (q v tau : Z) (ct : LWECiphertextImpl) : Prop :=
  ct_wf (GetLength sk) q ct /\ exists err, Z.abs err <= tau /\ phase sk ct ==[q] v + err.

(** A phase that is [m] quarters of the modulus, up to [tau]. *)
Definition encrypts (sk : NativeVectorT) (q m tau : Z) : LWECiphertextImpl -> Prop := holds sk q (m * (q / 4)) tau.

(** From the ring modulus to the LWE modulus. *)
Lemma scaled_value Q q v P d x tau : 0 < Q -> 0 < qKS -> 0 < q ->
  Q * qKS * x ==[Q * qKS * q] q * qKS * P + d ->
  2 * Z.abs (q * qKS * P - Q * qKS * v) + Z.abs (2 * d) < 2 * Q * qKS * (tau + 1) ->
  exists err, Z.abs err <= tau /\ x ==[q] v + err.
Proof.
  intros HQ Hk Hq E H. apply eqmod_divide in E as [j E]; [|apply Z.mul_pos_pos; nia].
  exists (x - v - j * q). split.
  - set (err := x - v - j * q). assert (Q * qKS * err = q * qKS * P - Q * qKS * v + d) as Ee.
    { replace (Q * qKS * err) with (Q * qKS * x - Q * qKS * v - j * (Q * qKS * q)) by (unfold err; ring). lia. }
    assert (0 < Q * qKS) as Hpos by nia.
    assert (Q * qKS * Z.abs err < Q * qKS * (tau + 1)) as Hlt; [|apply (Z.mul_lt_mono_pos_l (Q * qKS)) in Hlt; lia].
    rewrite <- (Z.abs_eq (Q * qKS)) at 1 by lia. rewrite <- Z.abs_mul, Ee. lia.
  - rewrite <- (eqmod_multiple q (v + _) j). apply eqmod_eq. ring.
Qed.

Lemma scaled_quarter Q q m P d x tau : 0 < Q -> 0 < qKS -> 0 < q -> (4 | q) ->
  Q * qKS * x ==[Q * qKS * q] q * qKS * P + d ->
  q * qKS * Z.abs (4 * P - m * Q) + 2 * Z.abs (2 * d) < 4 * Q * qKS * (tau + 1) ->
  exists err, Z.abs err <= tau /\ x ==[q] m * (q / 4) + err.
Proof.
  intros HQ Hk Hq [q4 Eq] E H. apply (scaled_value Q q _ P d); [done | done | done | done |].
  assert (q / 4 = q4) as -> by (rewrite Eq; by apply Z.div_mul).
  assert (q * qKS * Z.abs (4 * P - m * Q) = 4 * Z.abs (q * qKS * P - Q * qKS * (m * q4))) as Ea; [|lia].
  transitivity (Z.abs (q * qKS * (4 * P - m * Q))); [rewrite Z.abs_mul, (Z.abs_eq (q * qKS)) by nia; done|].
  transitivity (Z.abs (4 * (q * qKS * P - Q * qKS * (m * q4)))); [f_equal; rewrite Eq; ring | by rewrite Z.abs_mul].
Qed.
End Back.
