(* ===== verification/BinGate.v ===== *)
(** * Boolean gates

    A gate of one bootstrapping: the sum of the inputs lies in one half of the
    residues or in the other, the accumulator turns this into [Q/8] or its opposite,
    and the result is an encryption of the output of the gate with fresh noise; and
    the keys of [KeyGen] are keys the gates work with. *)
From stdpp Require Import base numbers list gmap.
From Stdlib Require Import ZArith Lia.
From S2P Require Import Prelude Bits NativeInt NativeIntProps NativeVector Ntt NttProps FttProps NbTheory Poly PolyProps PolyDigitProps PolyAlg Lwe LweProps LweSwitch Rgsw RgswDigits RgswRing RgswKeys RgswAcc RgswEval RgswKeyGen BinFHE BinExtract BinRotation BinBoot.
Open Scope Z_scope.

(** ** Truth tables *)

Definition gate_bool (gate : BINGATE) (x y : bool) : bool :=
  match gate with
  | OR => x || y | AND => x && y | NOR => negb (x || y) | NAND => negb (x && y)
  | XOR_FAST | XOR => xorb x y | XNOR_FAST | XNOR => negb (xorb x y)
  end.

(** The gates of one bootstrapping, their constants and their sums of inputs. *)
Definition basic (gate : BINGATE) : bool := match gate with XOR | XNOR => false | _ => true end.
Definition fast (gate : BINGATE) : bool := bool_decide (gate = XOR_FAST) || bool_decide (gate = XNOR_FAST).
Definition gate_constant (gate : BINGATE) : Z :=
  match gate with OR | XOR_FAST => 5 | AND => 7 | NOR | XNOR_FAST => 1 | NAND => 3 | _ => 0 end.
Definition gate_sum (gate : BINGATE) (m1 m2 : Z) : Z := if fast gate then 2 * (m1 - m2) else m1 + m2.

(** Whether a sum of [w] quarters selects the upper half. *)
Definition selects (gate : BINGATE) (w : Z) : bool := negb ((2 * w - gate_constant gate) mod 8 <? 4).

Lemma selects_gate gate x y : basic gate = true ->
  selects gate (gate_sum gate (Z.b2z x) (Z.b2z y)) = gate_bool gate x y.
Proof. by destruct gate, x, y. Qed.

(** ** The function of a gate *)

Section Function_.
Context (q8 c Q8 Q8Neg : Z) (Hq : 0 < q8) (Hc : 0 <= c < 8).
Abbreviation q := (8 * q8).
Abbreviation F := (gate_value (c * q8) ((c * q8 + 4 * q8) mod q) Q8 Q8Neg).

Lemma gate_value_interval y : 0 <= y < q -> F y = if (y - c * q8) mod q <? 4 * q8 then Q8Neg else Q8.
Proof.
  intros Hy. assert (0 <= c * q8 < q) as Hc8 by nia. unfold gate_value. rewrite !Z.geb_leb.
  assert ((y - c * q8) mod q = if c * q8 <=? y then y - c * q8 else y - c * q8 + q) as ->.
  { destruct (Z.leb_spec (c * q8) y); [by apply Z.mod_small; lia|].
    rewrite <- (Z_mod_plus_full _ 1), Z.mod_small; lia. }
  destruct (Z_lt_ge_dec (c * q8) (4 * q8)) as [Hlt|Hge].
  - rewrite (Z.mod_small (c * q8 + 4 * q8)) by lia. rewrite (proj2 (Z.ltb_lt (c * q8) _)) by lia.
    destruct (Z.leb_spec (c * q8) y), (Z.ltb_spec y (c * q8 + 4 * q8)); cbn [andb];
      [rewrite (proj2 (Z.ltb_lt _ _)) | rewrite (proj2 (Z.ltb_ge _ _)) | rewrite (proj2 (Z.ltb_ge _ _)) | rewrite (proj2 (Z.ltb_ge _ _))]; done || lia.
  - assert ((c * q8 + 4 * q8) mod q = c * q8 - 4 * q8) as -> by (rewrite <- (Z_mod_plus_full _ (-1)), Z.mod_small; lia).
    rewrite (proj2 (Z.ltb_ge (c * q8) _)) by lia.
    destruct (Z.leb_spec (c * q8) y), (Z.ltb_spec y (c * q8)), (Z.leb_spec (c * q8 - 4 * q8) y); cbn [andb]; try lia;
      [rewrite (proj2 (Z.ltb_lt _ _)) | rewrite (proj2 (Z.ltb_ge _ _)) | rewrite (proj2 (Z.ltb_lt _ _))]; done || lia.
Qed.

(** Half the modulus away, the other value. *)
Lemma gate_value_half y : 0 <= y < q -> F ((y + 4 * q8) mod q) + F y = Q8 + Q8Neg.
Proof.
  intros Hy. rewrite !gate_value_interval by (done || apply mod_range; lia). rewrite Zminus_mod_idemp_l.
  set (x := (y - c * q8) mod q). assert (0 <= x < q) as Hx by (apply mod_range; lia).
  assert ((y + 4 * q8 - c * q8) mod q = (x + 4 * q8) mod q) as ->.
  { unfold x. rewrite Z.add_mod_idemp_l by lia. f_equal. lia. }
  destruct (Z.ltb_spec x (4 * q8)).
  - rewrite Z.mod_small, (proj2 (Z.ltb_ge _ _)) by lia. lia.
  - rewrite <- (Z_mod_plus_full _ (-1)), Z.mod_small, (proj2 (Z.ltb_lt _ _)) by lia. lia.
Qed.

(** At [w] quarters, with an error below an eighth. *)
Lemma gate_value_sum w err : Z.odd c = true -> Z.abs err < q8 ->
  F ((w * (2 * q8) + err) mod q) = if (2 * w - c) mod 8 <? 4 then Q8Neg else Q8.
Proof.
  intros Hodd He. rewrite gate_value_interval by (apply mod_range; lia). rewrite Zminus_mod_idemp_l.
  set (p := (2 * w - c) mod 8). assert (0 <= p < 8) as Hp by (apply mod_range; lia).
  assert (Z.odd p = true) as Ho.
  { unfold p. rewrite Z.mod_eq by lia. rewrite Z.odd_sub, !Z.odd_mul, Z.odd_sub, Z.odd_mul, Hodd. done. }
  assert ((w * (2 * q8) + err - c * q8) mod q = p * q8 + err) as ->.
  { pose proof (Z.div_mod (2 * w - c) 8 ltac:(lia)) as D. fold p in D.
    replace (w * (2 * q8) + err - c * q8) with (p * q8 + err + ((2 * w - c) / 8) * q) by nia. rewrite Z_mod_plus_full.
    assert (p <> 0) by (intros E; by rewrite E in Ho). apply Z.mod_small. nia. }
  assert (p <> 4) by (intros E; by rewrite E in Ho). assert (p <> 0) by (intros E; by rewrite E in Ho).
  destruct (Z.ltb_spec p 4); [rewrite (proj2 (Z.ltb_lt _ _)) | rewrite (proj2 (Z.ltb_ge _ _))]; try done; nia.
Qed.
End Function_.

(** ** The accumulator of a gate *)

Section Gate.
Context `{W : NativeWidth}.
Context (Q psi : Z) (k : nat) (Hr : root_ok Q psi k).
Context (af ai : NativeVectorT -> ILParams -> outcome NativeVectorT) (ceil_log : Z -> Z -> Z).
Context (params : BinFHECryptoParams).
Abbreviation rg := (GetRingGSWParams params).
Abbreviation lw := (GetLWEParams params).
Abbreviation N := (2 ^ k)%nat.
Context (e : Z).
Abbreviation q := (2 ^ e).

(** The parameters the gates read. *)
Record gate_params : Prop := {
  ga_ring : ring_params Q psi k (GetPolyParams rg);
  ga_Q : m_Q lw = Q;
  ga_N : m_N lw = N;
  ga_e : 3 <= e <= Z.of_nat k + 1;
  ga_constants : GetGateConst rg = map (fun m => m * (q / 8)) [5; 7; 1; 3; 5; 1]
}.
Context (Hgp : gate_params).

Context (skN : NativeVectorT) (HmN : m_modulus skN = Q) (HsN : ring_elem Q k (m_data skN)).
Context (qs : Z) (sk : NativeVectorT) (Hsk : ternary qs sk).
Context (eps noise : Z) (A : RingGSWAccumulator) (keys : nat -> (nat -> Z) -> RingGSWACCKeyImpl -> Prop).
Context {BR : BlindRotation Q psi k rg (m_data skN) eps e A noise keys}.
Abbreviation n := (GetLength sk).
Context (EK : RingGSWBTKey) (ek : RingGSWACCKeyImpl) (HBS : BSkey EK = Some ek) (Hek : keys n (secret sk qs) ek).

Definition eighth : Z := Q / 8 + 1.
Definition gate_function (gate : BINGATE) : Z -> Z :=
  gate_value (gate_constant gate * (q / 8)) ((gate_constant gate * (q / 8) + 4 * (q / 8)) mod (8 * (q / 8))) eighth (Q - eighth).

Lemma eighth_range : 0 < eighth < Q.
Proof.
  unfold eighth. pose proof (ro_min _ _ _ Hr). pose proof (Z.div_mod Q 8 ltac:(lia)). pose proof (mod_range Q 8 ltac:(lia)). lia.
Qed.

Lemma q_eighths : q = 8 * (q / 8) /\ 0 < q / 8 /\ 2 ^ (e - 1) = 4 * (q / 8) /\ q / 4 = 2 * (q / 8).
Proof.
  pose proof (ga_e Hgp). pose proof (pow2_pos (e - 3) ltac:(lia)).
  assert (q = 2 ^ (e - 3) * 8) as E by (change 8 with (2 ^ 3); rewrite <- Z.pow_add_r by lia; f_equal; lia).
  rewrite E, Z.div_mul by lia. split_and!; [lia | lia | |].
  - change 4 with (2 ^ 2). rewrite <- Z.pow_add_r by lia. f_equal. lia.
  - replace (2 ^ (e - 3) * 8) with (2 * 2 ^ (e - 3) * 4) by ring. by rewrite Z.div_mul by lia.
Qed.

Lemma gate_constant_range gate : 0 <= gate_constant gate < 8.
Proof. by destruct gate. Qed.

Lemma gate_function_range gate y : 0 <= y < q -> 0 <= gate_function gate y < Q.
Proof.
  intros Hy. destruct q_eighths as (E & H & _ & _). unfold gate_function.
  rewrite gate_value_interval by (done || apply gate_constant_range || lia). pose proof eighth_range. destruct (_ <? _); lia.
Qed.

Lemma gate_function_negacyclic gate : negacyclic_function Q e (gate_function gate) 0.
Proof.
  intros y Hy. destruct q_eighths as (E & H & E2 & _). exists 0. split; [done|]. rewrite E2. unfold gate_function.
  assert ((y + 4 * (q / 8)) mod q = (y + 4 * (q / 8)) mod (8 * (q / 8))) as -> by (f_equal; lia).
  rewrite (gate_value_half (q / 8)) by (apply gate_constant_range || lia).
  rewrite <- (eqmod_multiple Q 0 1). apply eqmod_eq. ring.
Qed.

Lemma gate_constant_read gate : basic gate = true ->
  vget (GetGateConst rg) (gate_index gate) = Ok (gate_constant gate * (q / 8)).
Proof. intros Hb. rewrite (ga_constants Hgp). by destruct gate. Qed.

Lemma DividedBy_8 : DividedBy Q 8 = Ok (Q / 8).
Proof. unfold DividedBy. change (8 =? 0) with false. cbv iota. by rewrite udiv_pos. Qed.

Section Core.
Context (ct : LWECiphertextImpl) (Hct : ct_wf n q ct).
Abbreviation shift := (- (factor k e * inner (m_a ct) (secret sk qs) n)).
Abbreviation table_poly F := (sparse N (Z.to_nat (factor k e)) (table e ct F) (half e)).

Lemma trace_vector_ok data : (1024 <= length data)%nat -> trace_vector data = Ok tt.
Proof.
  intros H. apply (for_range_exact (fun _ => tt)); [lia|]. intros i Hi. by rewrite vget_at, bind_Ok by lia.
Qed.

Lemma trace_bound : (10 <= k)%nat -> (1024 <= N)%nat.
Proof. intros H. change 1024%nat with (2 ^ 10)%nat. by apply Nat.pow_le_mono_r. Qed.

Lemma trace_vector_short data : (length data < 1024)%nat -> trace_vector data = UB.
Proof.
  intros H. unfold trace_vector. apply (for_range_stop _ (fun _ _ => True) 0 (length data)); [done | lia | done | |].
  - intros i u Hi _. by rewrite vget_at, bind_Ok by lia.
  - intros u _. unfold vget. by rewrite lookup_ge_None_2 by lia.
Qed.

(** The table is filled, traced and rotated. *)
Lemma BootstrapGateCore_table gate c : basic gate = true ->
  BootstrapGateCore af ai A params gate (Some ek) ct c
  = (_ ← trace_vector (table_poly (gate_function gate));
     start_acc af ai A rg ek ct (mkVector (table_poly (gate_function gate)) Q) c).
Proof.
  intros Hb. destruct Hgp as [Hpr HQ HN He Hcst]. pose proof Hct as [V M L B]. destruct q_eighths as (Eq & Hq8 & Eh & _).
  pose proof (modulus_word Q psi k Hr) as (_ & HQw & _). pose proof word_half. pose proof wbits_range.
  assert (2 ^ 32 <= 2 ^ wbits) by (apply Z.pow_le_mono_r; lia). pose proof eighth_range as He8. unfold eighth in He8.
  assert (q <= 2 ^ 26) by (pose proof (size_k Q psi k Hr); apply Z.pow_le_mono_r; lia).
  unfold BootstrapGateCore, Lwe.GetModulus. cbv zeta. rewrite M, gate_constant_read, bind_Ok by done.
  rewrite HQ, DividedBy_8, bind_Ok.
  unfold Add, AddFast, Sub, SubFast. rewrite (wrap_small (Q / 8 + 1)), (wrap_small (Q - _)) by lia.
  rewrite HN, NativeVectorT_new_ok, bind_Ok by apply Hr. destruct (table_factor Q psi k Hr e ltac:(lia)) as [Ef Eu].
  rewrite Ef, bind_Ok, Eu. cbn [m_data m_modulus].
  assert (Z.shiftr q 1 = 2 ^ (e - 1)) as -> by (rewrite Z.shiftr_div_pow2, Eq, Eh by lia; change (2 ^ 1) with 2; symmetry; apply (Z.div_unique _ 2 _ 0); lia).
  rewrite u32_small by lia. change (Z.to_nat (2 ^ (e - 1))) with (half e).
  pose proof (gate_constant_range gate) as Hcr.
  assert (ModAddFast (gate_constant gate * (q / 8)) (wrap (2 ^ (e - 1))) q
          = (gate_constant gate * (q / 8) + 4 * (q / 8)) mod (8 * (q / 8))) as ->.
  { rewrite wrap_small, ModAddFast_correct, Eh by nia. f_equal. lia. }
  rewrite (table_fill k e ltac:(lia) ct (gate_function gate)); [by rewrite bind_Ok|].
  intros j data Hj. destruct (table_index Q psi k Hr e ltac:(lia) sk ct Hct j Hj) as [-> ->]. by rewrite bind_Ok.
Qed.

Lemma BootstrapGateCore_rotated gate c : basic gate = true -> (10 <= k)%nat -> cache_for Q psi k c ->
  returns (BootstrapGateCore af ai A params gate (Some ek) ct c)
    (fun '(acc, c') => rotated Q psi k rg (m_data skN) (table_poly (gate_function gate)) shift
                         (Z.of_nat n * noise) acc /\ cache_for Q psi k c').
Proof.
  intros Hb Hk Hc. rewrite BootstrapGateCore_table by done. pose proof (ga_e Hgp).
  rewrite trace_vector_ok, bind_Ok by (rewrite length_sparse; by apply trace_bound).
  apply (start_acc_rotated Q psi k Hr af ai rg (ga_ring Hgp) skN HsN e qs sk Hsk eps noise A keys ek Hek ct Hct); [|done].
  apply (sparse_elem Q psi k Hr). intros j Hj. apply gate_function_range, mod_range. apply pow2_pos. lia.
Qed.

(** ** The result *)

Context (E : nat -> nat -> nat -> Z) (eta tau : Z).
Abbreviation dc := (digitCount ceil_log lw).
Abbreviation qKS := (m_qKS lw).

(** The keys and the noise budget of a gate: the results have an error of at most
    [tau]. *)
Record gate_budget : Prop := {
  gb_back : back_ok ceil_log params Q q sk skN;
  gb_key : switching_key_ok qKS (m_baseKS lw) dc sk skN (KSkey EK) E;
  gb_errors : small_errors qKS eta E;
  gb_noise : q * qKS * (8 + 4 * (Z.of_nat n * noise)) + 2 * back_noise ceil_log params Q q sk skN eta < 4 * Q * qKS * (tau + 1)
}.
Context (Hgb : gate_budget).

Lemma sum_value gate w err : basic gate = true -> Z.abs err < q / 8 -> LweProps.phase sk ct ==[q] w * (q / 4) + err ->
  gate_function gate (LweProps.phase sk ct mod q) = if selects gate w then eighth else Q - eighth.
Proof.
  intros Hb He Hph. destruct q_eighths as (Eq & Hq8 & _ & E4). rewrite (eqmod_elim _ _ _ Hph), E4. unfold gate_function.
  assert ((w * (2 * (q / 8)) + err) mod q = (w * (2 * (q / 8)) + err) mod (8 * (q / 8))) as -> by (f_equal; lia).
  rewrite gate_value_sum by (done || apply gate_constant_range || by destruct gate).
  unfold selects. by destruct (_ <? _).
Qed.

Lemma eighth_quarter : 1 <= 8 * eighth - Q <= 8.
Proof. unfold eighth. pose proof (Z.div_mod Q 8 ltac:(lia)). pose proof (mod_range Q 8 ltac:(lia)). lia. Qed.

Lemma finish_gate_encrypts traced gate w err acc c :
  basic gate = true -> (traced = true -> (10 <= k)%nat) -> Z.abs err < q / 8 -> LweProps.phase sk ct ==[q] w * (q / 4) + err ->
  rotated Q psi k rg (m_data skN) (table_poly (gate_function gate)) shift (Z.of_nat n * noise) acc -> cache_for Q psi k c ->
  returns (finish_gate af ai ceil_log traced params EK q acc c)
    (fun '(ct', c') => encrypts sk q (Z.b2z (selects gate w)) tau ct' /\ cache_for Q psi k c').
Proof.
  intros Hb Ht Herr Hph Hacc Hc. destruct Hgp as [Hpr HQ HN He Hcst]. destruct q_eighths as (Eq & Hq8 & _ & E4).
  pose proof eighth_range as He8. pose proof (modulus_word Q psi k Hr) as (HQ0 & HQw & _). pose proof word_half.
  destruct Hgb as [Hback Hkey Herrs Hbud]. pose proof Hback as [_ _ _ _ [Hks _ _ _] _].
  unfold finish_gate. eapply returns_bind; [by eapply (transpose_acc_ok Q psi k Hr af ai rg Hpr skN)|].
  intros [[p0 p1] c1] (Hc1 & a & b & -> & -> & Ha & Hb' & z & Ez & Hez & Hz). rewrite HQ, DividedBy_8, bind_Ok.
  unfold Add, AddFast. fold eighth. rewrite wrap_small by (unfold eighth in *; lia).
  pose proof (n_pos k). pose proof Hb' as [Lb Rb]. pose proof (reduced_at Q b 0 Rb ltac:(lia)) as Hb0.
  rewrite (index_repr Q psi k (GetPolyParams rg)), bind_Ok by lia.
  change (ModAddFastEq eighth) with (ModAddFast eighth). rewrite ModAddFast_correct by lia.
  unfold extract, GetValues. cbn [RgswRing.repr m_values values_in]. rewrite !bind_Ok.
  destruct (extract_phase Q psi k Hr skN HmN HsN e ltac:(lia) a b ((eighth + b !!! 0%nat) mod Q) eighth Ha Hb' (mod_range _ _ HQ0)
    ltac:(rewrite eqmod_mod; apply eqmod_eq; ring)) as [Wct Pct].
  destruct (table_phase Q psi k Hr e ltac:(lia) qs sk Hsk ct Hct (gate_function gate) 0
    (gate_function_range gate) ltac:(lia) (gate_function_negacyclic gate)) as (Hf & z1 & Hz1 & Et).
  assert (small Q (Z.of_nat n * noise) (z !!! 0%nat)) as (z0 & Hz0 & Ez0) by (apply near_at; [done | destruct Hez; lia]).
  set (m := Z.b2z (selects gate w)).
  assert (LweProps.phase skN (mkCiphertext (mkVector (ptrans Q k a) Q) ((eighth + b !!! 0%nat) mod Q)) ==[Q] m * (2 * eighth) + z0) as HP.
  { rewrite Pct, Ez. unfold padd. rewrite zip_with_at by (rewrite ?length_negacyclic, ?(proj1 (pmono_elem Q psi k Hr _)); destruct Hez; lia).
    rewrite eqmod_mod, Et, Ez0, (sum_value gate w err Hb Herr Hph). replace z1 with 0 by lia. unfold m.
    destruct (selects gate w); cbn [Z.b2z]; [apply eqmod_eq; ring|]. rewrite <- (eqmod_multiple Q (0 * _ + _) 1). apply eqmod_eq. ring. }
  eapply returns_bind; [apply (switch_back_phase ceil_log params Q q sk skN (KSkey EK) E eta _ (m * (2 * eighth) + z0)); try done;
    by rewrite <- (proj1 HsN) in Wct|].
  intros ct' (Wct' & d & Ed & Hd). cbn [returns]. split; [|done]. split; [done|].
  apply (scaled_quarter params Q q m (m * (2 * eighth) + z0) d); [lia | lia | lia | exists (2 * (q / 8)); lia | done |].
  pose proof eighth_quarter. replace (4 * (m * (2 * eighth) + z0) - m * Q) with (m * (8 * eighth - Q) + 4 * z0) by ring.
  assert (0 <= m <= 1) by (unfold m; destruct (selects gate w); cbn; lia).
  assert (q * qKS * Z.abs (m * (8 * eighth - Q) + 4 * z0) <= q * qKS * (8 + 4 * (Z.of_nat n * noise))); [|lia].
  apply Z.mul_le_mono_nonneg_l; [nia|]. assert (Z.abs (m * (8 * eighth - Q)) <= 8) by nia. lia.
Qed.
End Core.
End Gate.

Section Gates.
Context `{W : NativeWidth}.
Context (Q psi : Z) (k : nat) (Hr : root_ok Q psi k).
Context (af ai : NativeVectorT -> ILParams -> outcome NativeVectorT) (ceil_log : Z -> Z -> Z).
Context (params : BinFHECryptoParams).
Abbreviation rg := (GetRingGSWParams params).
Context (e : Z) (Hgp : gate_params Q psi k params e).
Abbreviation q := (2 ^ e).
Context (skN : NativeVectorT) (HmN : m_modulus skN = Q) (HsN : ring_elem Q k (m_data skN)).
Context (qs : Z) (sk : NativeVectorT) (Hsk : ternary qs sk).
Context (eps noise : Z) (A : RingGSWAccumulator) (keys : nat -> (nat -> Z) -> RingGSWACCKeyImpl -> Prop).
Context {BR : BlindRotation Q psi k rg (m_data skN) eps e A noise keys}.
Context (E : nat -> nat -> nat -> Z) (eta tau : Z).

(** The keys of the scheme. *)
Record key_ok (EK : RingGSWBTKey) : Prop := {
  ko_refresh : exists ek, BSkey EK = Some ek /\ keys (GetLength sk) (secret sk qs) ek;
  ko_budget : gate_budget Q ceil_log params e skN sk noise EK E eta tau
}.

Context (EK : RingGSWBTKey) (HEK : key_ok EK) (Hk : (10 <= k)%nat).

Lemma EvalBasicGate_encrypts gate (b1 b2 : bool) tau1 tau2 ct1 ct2 c :
  basic gate = true -> encrypts sk q (Z.b2z b1) tau1 ct1 -> encrypts sk q (Z.b2z b2) tau2 ct2 ->
  (if fast gate then 2 * (tau1 + tau2) else tau1 + tau2) < q / 8 -> cache_for Q psi k c ->
  returns (EvalBasicGate af ai ceil_log A params gate EK ct1 ct2 c)
    (fun '(ct, c') => encrypts sk q (Z.b2z (gate_bool gate b1 b2)) tau ct /\ cache_for Q psi k c').
Proof.
  intros Hb (W1 & err1 & He1 & P1) (W2 & err2 & He2 & P2) Hsum Hc. destruct HEK as [(ek & Eek & Hek) Hbud]. unfold EvalBasicGate.
  destruct (EvalAdd_EvalSub_phase _ _ ct1 ct2 W1 W2) as (Hadd & Hsub & _). change (bool_decide _ || _) with (fast gate).
  assert (returns (if fast gate then ctprep ← EvalSubEq ct1 ct2; EvalAddEq ctprep ctprep else EvalAddEq ct1 ct2) (fun ct =>
    ct_wf (GetLength sk) q ct /\ exists err, Z.abs err < q / 8 /\
      LweProps.phase sk ct ==[q] gate_sum gate (Z.b2z b1) (Z.b2z b2) * (q / 4) + err)) as Hprep.
  { unfold gate_sum. destruct (fast gate).
    - eapply returns_bind; [exact Hsub|]. intros ct [Wc Pc]. destruct (EvalAdd_EvalSub_phase _ _ ct ct Wc Wc) as (Hdbl & _ & _).
      eapply returns_mono; [exact Hdbl|]. intros ct' [Wc' Pc']. split; [done|]. exists (2 * (err1 - err2)). split; [lia|].
      rewrite Pc', Pc, P1, P2 by done. apply eqmod_eq. ring.
    - eapply returns_mono; [exact Hadd|]. intros ct [Wc Pc]. split; [done|]. exists (err1 + err2). split; [lia|].
      rewrite Pc, P1, P2 by done. apply eqmod_eq. ring. }
  eapply returns_bind; [exact Hprep|]. intros ct (Wct & err & Herr & Pct). rewrite Eek.
  eapply returns_bind; [by eapply (BootstrapGateCore_rotated Q psi k Hr af ai params e Hgp skN HsN qs sk Hsk)|].
  intros [acc c1] [Hacc Hc1]. destruct W1 as [_ M1 _ _]. unfold Lwe.GetModulus. rewrite M1.
  rewrite <- (selects_gate gate b1 b2 Hb).
  by eapply (finish_gate_encrypts Q psi k Hr af ai ceil_log params e Hgp skN HmN HsN qs sk Hsk noise EK ct Wct E eta tau).
Qed.

Lemma EvalNOT_encrypts (b : bool) tau1 ct : encrypts sk q (Z.b2z b) tau1 ct ->
  returns (EvalNOT ct) (encrypts sk q (Z.b2z (negb b)) tau1).
Proof.
  intros (Wct & err & Herr & P). eapply returns_mono; [by apply (EvalNOT_phase (GetLength sk) q)|].
  intros ct' [Wct' P']. split; [done|]. exists (- err). split; [lia|]. rewrite P', P by done.
  destruct b; cbn; apply eqmod_eq; ring.
Qed.

(** All the gates; those of three bootstrappings need room for two of their own
    results. *)
Lemma EvalBinGate_encrypts gate (b1 b2 : bool) tau1 ct1 ct2 c :
  encrypts sk q (Z.b2z b1) tau1 ct1 -> encrypts sk q (Z.b2z b2) tau1 ct2 ->
  (if fast gate then 4 * tau1 else 2 * tau1) < q / 8 -> (basic gate = false -> 2 * tau < q / 8) -> cache_for Q psi k c ->
  returns (EvalBinGate af ai ceil_log A params gate EK false ct1 ct2 c)
    (fun '(ct, c') => encrypts sk q (Z.b2z (gate_bool gate b1 b2)) tau ct /\ cache_for Q psi k c').
Proof.
  intros H1 H2 Hsum Htau Hc. unfold EvalBinGate. cbv iota. destruct (basic gate) eqn:Hb.
  - assert (bool_decide (gate = XOR) || bool_decide (gate = XNOR) = false) as -> by (by destruct gate).
    eapply EvalBasicGate_encrypts; try done. destruct (fast gate); lia.
  - specialize (Htau eq_refl). assert (fast gate = false) as Hf by (by destruct gate). rewrite Hf in Hsum. cbv iota in Hsum.
    assert (bool_decide (gate = XOR) || bool_decide (gate = XNOR) = true) as -> by (by destruct gate).
    eapply returns_bind; [by eapply EvalNOT_encrypts|]. intros n1 N1. eapply returns_bind; [by eapply EvalNOT_encrypts|]. intros n2 N2.
    eapply returns_bind; [eapply (EvalBasicGate_encrypts AND b1 (negb b2) tau1 tau1); try done; change (fast AND) with false; cbv iota; lia|]. intros [a1 c1] [A1 C1].
    eapply returns_bind; [eapply (EvalBasicGate_encrypts AND (negb b1) b2 tau1 tau1); try done; change (fast AND) with false; cbv iota; lia|]. intros [a2 c2] [A2 C2].
    eapply returns_bind; [eapply (EvalBasicGate_encrypts OR _ _ tau tau _ _ _ eq_refl A1 A2); try done; change (fast OR) with false; cbv iota; lia|]. intros [o c3] [O C3].
    assert (gate_bool OR (gate_bool AND b1 (negb b2)) (gate_bool AND (negb b1) b2) = xorb b1 b2) as Ex by (by destruct b1, b2).
    rewrite Ex in O. destruct gate; try done; cbn [bool_decide decide].
    eapply returns_bind; [by eapply EvalNOT_encrypts|]. intros ct Hct. by split.
Qed.

(** A refreshed ciphertext. *)
Lemma Bootstrap_encrypts (b : bool) tau1 ct c : encrypts sk q (Z.b2z b) tau1 ct -> tau1 < q / 8 -> cache_for Q psi k c ->
  returns (Bootstrap af ai ceil_log A params EK ct c)
    (fun '(ct', c') => encrypts sk q (Z.b2z b) tau ct' /\ cache_for Q psi k c').
Proof.
  intros (Wct & err & Herr & P) Ht Hc. destruct HEK as [(ek & Eek & Hek) Hbud]. unfold Bootstrap, Lwe.GetModulus. rewrite (cw_modulus _ _ _ Wct).
  pose proof wbits_range. unfold RShift. rewrite ushr_ok, bind_Ok by lia. change (2 ^ 2) with 4.
  destruct (q_eighths Q psi k params e Hgp) as (Eq & Hq8 & _ & E4). 
  destruct (EvalConst_phase _ _ ct (q / 4) Wct ltac:(lia)) as ([Wp _] & Pp & _).
  rewrite Eek. eapply returns_bind; [by eapply (BootstrapGateCore_rotated Q psi k Hr af ai params e Hgp skN HsN qs sk Hsk)|].
  intros [acc c1] [Hacc Hc1]. replace b with (selects AND (Z.b2z b + 1)) by (by destruct b).
  eapply (finish_gate_encrypts Q psi k Hr af ai ceil_log params e Hgp skN HmN HsN qs sk Hsk noise EK _ Wp E eta tau Hbud false AND (Z.b2z b + 1) err); try done; [lia|].
  rewrite Pp, P. apply eqmod_eq. ring.
Qed.
End Gates.
