(* ===== verification/BinScheme.v ===== *)
(** * The Boolean scheme end to end

    Key generation, encryption, a gate and decryption: the decrypted bit is the
    output of the truth table, for both accumulators. *)
From stdpp Require Import base numbers list gmap.
From Stdlib Require Import ZArith Lia.
From S2P Require Import Prelude Bits NativeInt NativeIntProps NativeVector Ntt NttProps FttProps NbTheory Poly PolyProps PolyDigitProps PolyAlg Lwe LweProps LweSwitch Rgsw RgswDigits RgswRing RgswKeys RgswAcc RgswEval RgswKeyGen BinFHE BinExtract BinRotation BinBoot BinGate.
Open Scope Z_scope.

Section Scheme.
Context `{W : NativeWidth}.
Context (Q psi : Z) (k : nat) (Hr : root_ok Q psi k).
Context (af ai : NativeVectorT -> ILParams -> outcome NativeVectorT) (ceil_log : Z -> Z -> Z).
Context (params : BinFHECryptoParams).
Abbreviation rg := (GetRingGSWParams params).
Abbreviation lw := (GetLWEParams params).
Abbreviation qKS := (m_qKS lw).
Abbreviation dc := (digitCount ceil_log lw).
Context (e : Z).
Abbreviation q := (2 ^ e).

(** The secrets: a ternary one for LWE, and one of the ring. *)
Record secrets_ok (qs : Z) (sk skN : NativeVectorT) : Prop := {
  se_lwe : ternary qs sk;
  se_wf : vec_wf sk;
  se_ring : ring_elem Q k (m_data skN);
  se_modulus : m_modulus skN = Q
}.

(** The parameters, with a budget for results with an error of at most [tau]. *)
Record scheme_ok (sk skN : NativeVectorT) (noise eta tau : Z) : Prop := {
  sc_gate : gate_params Q psi k params e;
  sc_back : back_ok ceil_log params Q q sk skN;
  sc_qKS : lwe_modulus (GetLength sk) qKS;
  sc_digits : m_baseKS lw ^ Z.of_nat dc < 2 ^ wbits;
  sc_noise : q * qKS * (8 + 4 * (Z.of_nat (GetLength sk) * noise)) + 2 * back_noise ceil_log params Q q sk skN eta
             < 4 * Q * qKS * (tau + 1)
}.

(** What the generators sample in [KeyGen]. *)
Record keygen_samples (sk : NativeVectorT) (eps eta : Z) (E : nat -> nat -> nat -> Z)
    (V : nat -> nat -> nat -> NativeVectorT) (U Err : samples) : Prop := {
  ks_lwe : samples_ok (GetLength sk) qKS E V;
  ks_small : small_errors qKS eta E;
  ks_ring : samples_for Q k eps U Err
}.

(** What key generation needs of the parameters. *)
Record keygen_params (sk skN : NativeVectorT) : Prop := {
  kp_ring : ring_params Q psi k (GetPolyParams rg);
  kp_n : m_n lw = GetLength sk;
  kp_N : m_N lw = GetLength skN;
  kp_base : 1 < m_baseKS lw < 2 ^ wbits;
  kp_cover : qKS <= m_baseKS lw ^ Z.of_nat dc;
  kp_qKS : lwe_modulus (GetLength sk) qKS;
  kp_digits : m_baseKS lw ^ Z.of_nat dc < 2 ^ wbits
}.

Section Keys.
Context (qs : Z) (sk skN : NativeVectorT) (Hse : secrets_ok qs sk skN).
Context (eps eta : Z) (A : RingGSWAccumulator) (keys : nat -> (nat -> Z) -> RingGSWACCKeyImpl -> Prop).
Context (HA : forall U Err c, samples_for Q k eps U Err -> cache_for Q psi k c ->
  returns (KeyGenAcc A rg (repr Q psi k (GetPolyParams rg) EVALUATION (m_data skN)) sk U Err c)
    (fun '(ek, c') => keys (GetLength sk) (secret sk qs) ek /\ cache_for Q psi k c')).

Lemma KeyGen_keys E V U Err c : keygen_params sk skN -> keygen_samples sk eps eta E V U Err -> cache_for Q psi k c ->
  returns (BinFHE_KeyGen af ai ceil_log A params sk skN E V U Err c)
    (fun '(EK, c') => (exists ek, BSkey EK = Some ek /\ keys (GetLength sk) (secret sk qs) ek) /\
       switching_key_ok qKS (m_baseKS lw) dc sk skN (KSkey EK) E /\ cache_for Q psi k c').
Proof.
  intros [Hpr Hn HN [HB HB2] Hcov HqKS Hdig] [HE Hsm HU] Hc. destruct Hse as [Ht Hwf HsN HmN].
  pose proof (modulus_pos Q psi k Hr). unfold BinFHE_KeyGen.
  assert (vec_wf skN) as HwN by (split; rewrite HmN; [lia | apply Hr | apply HsN]).
  eapply returns_bind; [by apply (KeySwitchGen_ok lw dc sk skN E V qKS)|]. intros K HK.
  unfold PolyImpl_new. rewrite bind_Ok.
  assert (forall p, m_params p = GetPolyParams rg -> SetValues p skN COEFFICIENT = Ok (repr Q psi k (GetPolyParams rg) COEFFICIENT (m_data skN))) as Hset.
  { intros p Ep. rewrite <- (SetValues_repr Q psi k Hr rg Hpr (m_data skN) p Ep HsN), <- HmN. by destruct skN. }
  rewrite Hset, bind_Ok by done.
  eapply returns_bind; [by apply (SetFormat_repr Q psi k Hr af ai _ Hpr)|]. intros [p c1] [-> Hc1].
  eapply returns_bind; [by apply (HA U Err c1)|]. intros [ek c2] [Hek Hc2]. cbn [returns].
  split; [by exists ek | done].
Qed.
End Keys.

Section Accumulator.
Context (qs : Z) (sk skN : NativeVectorT) (Hse : secrets_ok qs sk skN).
Context (eps noise eta tau : Z) (Hsc : scheme_ok sk skN noise eta tau).
Context (A : RingGSWAccumulator) (keys : nat -> (nat -> Z) -> RingGSWACCKeyImpl -> Prop).
Context {BR : BlindRotation Q psi k rg (m_data skN) eps e A noise keys}.
Abbreviation key_ok := (key_ok Q ceil_log params e skN qs sk noise keys).

Lemma KeyGen_ok E V U Err c : keygen_samples sk eps eta E V U Err -> cache_for Q psi k c ->
  returns (BinFHE_KeyGen af ai ceil_log A params sk skN E V U Err c)
    (fun '(EK, c') => key_ok E eta tau EK /\ cache_for Q psi k c').
Proof.
  intros HS Hc. pose proof Hsc as [Hgp Hback HqKS Hdig Hno]. pose proof Hback as [Hn HN HB Hcov Hf Hs].
  eapply returns_mono; [apply (KeyGen_keys qs sk skN Hse eps eta A keys); [intros; by apply br_KeyGenAcc; [apply Hse|..] | split; try done; apply Hgp | done | done]|].
  intros [EK c'] (Hek & HK & Hc'). split; [|done]. split; [done|]. split; [done | done | apply HS | done].
Qed.

(** An encryption of a bit. *)
Lemma Encrypt_encrypts (b : bool) err noise1 tau1 a : lwe_modulus (GetLength sk) q -> 4 <= q ->
  vec_wf a -> m_modulus a = q -> length (m_data a) = GetLength sk ->
  0 <= err < q -> err ==[q] noise1 -> Z.abs noise1 <= tau1 ->
  returns (Encrypt sk (Z.b2z b) 4 q err a) (encrypts sk q (Z.b2z b) tau1).
Proof.
  intros Hq H4 Ha Hm Hl Hr0 En Hn. eapply returns_mono; [apply (Encrypt_phase sk _ 4 q err a); try done; apply Hse|].
  intros ct [Wct P]. split; [done|]. exists noise1. split; [done|]. rewrite P, En. by destruct b.
Qed.

Lemma Decrypt_encrypts (b : bool) ct tau1 : decrypt_ok (GetLength sk) q 4 -> 8 * tau1 < q ->
  encrypts sk q (Z.b2z b) tau1 ct -> Decrypt sk ct 4 = Ok (Z.b2z b).
Proof.
  intros Hd Ht (Wct & err & Herr & P). apply (Decrypt_phase sk ct q 4 (Z.b2z b) err); try done; [apply Hse | destruct b; cbn; lia | lia].
Qed.

Context (Hk : (10 <= k)%nat) (Hd : decrypt_ok (GetLength sk) q 4).

(** The samples of an encryption with an error of at most [tau1]. *)
Record encryption_sample (err : Z) (a : NativeVectorT) (tau1 : Z) : Prop := {
  es_vector : vec_wf a /\ m_modulus a = q /\ length (m_data a) = GetLength sk;
  es_error : 0 <= err < q /\ small q tau1 err
}.

Lemma encryption_encrypts (b : bool) err a tau1 : encryption_sample err a tau1 ->
  returns (Encrypt sk (Z.b2z b) 4 q err a) (encrypts sk q (Z.b2z b) tau1).
Proof.
  intros [(H1 & H2 & H3) (H4 & z & H5 & H6)]. pose proof Hd as [Hm _ _ _]. destruct (q_eighths Q psi k params e (sc_gate _ _ _ _ _ Hsc)) as (Eq & Hq8 & _).
  by apply (Encrypt_encrypts b err z); [| lia | ..].
Qed.

Lemma gate_pipeline gate (b1 b2 : bool) E V U Err err1 a1 err2 a2 tau1 c :
  keygen_samples sk eps eta E V U Err -> encryption_sample err1 a1 tau1 -> encryption_sample err2 a2 tau1 ->
  (if fast gate then 4 * tau1 else 2 * tau1) < q / 8 -> 2 * tau < q / 8 -> cache_for Q psi k c ->
  ('(EK, c) ← BinFHE_KeyGen af ai ceil_log A params sk skN E V U Err c;
   ct1 ← Encrypt sk (Z.b2z b1) 4 q err1 a1;
   ct2 ← Encrypt sk (Z.b2z b2) 4 q err2 a2;
   '(ct, _) ← EvalBinGate af ai ceil_log A params gate EK false ct1 ct2 c;
   Decrypt sk ct 4) = Ok (Z.b2z (gate_bool gate b1 b2)).
Proof.
  intros HS H1 H2 Hf Htau Hc. apply returns_eq. pose proof (sc_gate _ _ _ _ _ Hsc) as Hgp. destruct Hse as [Ht _ HsN HmN].
  destruct (q_eighths Q psi k params e Hgp) as (Eq & Hq8 & _).
  eapply returns_bind; [by eapply KeyGen_ok|]. intros [EK c1] [HEK Hc1].
  eapply returns_bind; [by eapply encryption_encrypts|]. intros ct1 E1. eapply returns_bind; [by eapply encryption_encrypts|]. intros ct2 E2.
  eapply returns_bind; [by eapply (EvalBinGate_encrypts Q psi k Hr af ai ceil_log params e Hgp skN HmN HsN qs sk Ht)|].
  intros [ct c2] [Hct _]. apply returns_eq. eapply Decrypt_encrypts; [done| |done]. lia.
Qed.
End Accumulator.
End Scheme.
