(* ===== verification/BinFunc.v ===== *)
(** * Evaluation of functions

    [BootstrapFunc] on a function that changes sign when its argument moves by half
    the modulus, and [EvalFunc] on tables: negacyclic ones take one bootstrapping,
    the others first bring the phase into half of the range. *)
From stdpp Require Import base numbers list gmap.
From Stdlib Require Import ZArith Lia.
From S2P Require Import Prelude Bits NativeInt NativeIntProps NativeVector Ntt NttProps FttProps NbTheory Poly PolyProps PolyDigitProps PolyAlg Lwe LweProps LweSwitch Rgsw RgswDigits RgswRing RgswKeys RgswAcc RgswEval RgswKeyGen BinFHE BinExtract BinRotation BinBoot BinGate.
Open Scope Z_scope.

Section Func.
Context `{W : NativeWidth}.
Context (Q psi : Z) (k : nat) (Hr : root_ok Q psi k).
Context (af ai : NativeVectorT -> ILParams -> outcome NativeVectorT) (ceil_log : Z -> Z -> Z).
Context (params : BinFHECryptoParams).
Abbreviation rg := (GetRingGSWParams params).
Abbreviation lw := (GetLWEParams params).
Abbreviation qKS := (m_qKS lw).
Abbreviation dc := (digitCount ceil_log lw).
Context (e fmod : Z).
Abbreviation q := (2 ^ e).

(** The parameters of a bootstrapping from modulus [2 ^ e] to modulus [fmod]. *)
Record func_params : Prop := {
  fu_ring : ring_params Q psi k (GetPolyParams rg);
  fu_Q : m_Q lw = Q;
  fu_N : m_N lw = (2 ^ k)%nat;
  fu_e : 2 <= e <= Z.of_nat k + 1;
  fu_fmod : 1 < fmod < Q
}.
Context (Hfp : func_params).

Context (skN : NativeVectorT) (HmN : m_modulus skN = Q) (HsN : ring_elem Q k (m_data skN)).
Context (qs : Z) (sk : NativeVectorT) (Hsk : ternary qs sk).
Context (eps noise : Z) (A : RingGSWAccumulator) (keys : nat -> (nat -> Z) -> RingGSWACCKeyImpl -> Prop).
Context {BR : BlindRotation Q psi k rg (m_data skN) eps e A noise keys}.
Abbreviation n := (GetLength sk).
Context (E : nat -> nat -> nat -> Z) (eta tau : Z).

(** The keys and the noise budget: results have an error of at most [tau]. *)
Record func_budget (EK : RingGSWBTKey) : Prop := {
  fb_refresh : exists ek, BSkey EK = Some ek /\ keys n (secret sk qs) ek;
  fb_back : back_ok ceil_log params Q fmod sk skN;
  fb_key : switching_key_ok qKS (m_baseKS lw) dc sk skN (KSkey EK) E;
  fb_errors : small_errors qKS eta E;
  fb_noise : 2 * (fmod * qKS * (3 * fmod + Z.of_nat n * noise)) + back_noise ceil_log params Q fmod sk skN eta < 2 * Q * qKS * (tau + 1)
}.
Context (EK : RingGSWBTKey) (HEK : func_budget EK).

(** ** One bootstrapping *)

Section Boot.
Context (f : Z -> Z -> Z -> outcome Z) (G : Z -> Z).
Context (Hf : forall x, 0 <= x < q -> f x q fmod = Ok (G x)) (HG : forall x, 0 <= x < q -> 0 <= G x <= fmod).
Context (Hneg : forall x, 0 <= x < q -> G ((x + 2 ^ (e - 1)) mod q) + G x ==[fmod] 0).

Abbreviation scale := (Q / fmod).

Lemma scale_range : 0 < scale /\ scale * fmod < Q /\ Q - fmod < scale * fmod.
Proof.
  pose proof (fu_fmod Hfp). pose proof (Z.div_mod Q fmod ltac:(lia)) as D. pose proof (mod_range Q fmod ltac:(lia)).
  assert (Q mod fmod <> 0) as Hne.
  { intros E0. destruct (ro_prime _ _ _ Hr) as [_ Hp]. apply (Hp fmod); [lia|]. by apply Z.mod_divide; [lia|]. }
  assert (0 < scale) by (apply Z.div_str_pos; lia). split_and!; lia.
Qed.

Definition scaled_function (x : Z) : Z := scale * G x.

Lemma scaled_function_range x : 0 <= x < q -> 0 <= scaled_function x < Q.
Proof. intros Hx. destruct scale_range as (H1 & H2 & _). pose proof (HG x Hx). unfold scaled_function. nia. Qed.

Lemma scaled_function_negacyclic : negacyclic_function Q e scaled_function (2 * fmod).
Proof.
  intros x Hx. pose proof (Hneg x Hx) as Hn. pose proof (fu_fmod Hfp). pose proof (fu_e Hfp).
  pose proof (HG x Hx). pose proof (HG ((x + 2 ^ (e - 1)) mod q) (mod_range (x + 2 ^ (e - 1)) q (pow2_pos e ltac:(lia)))).
  destruct scale_range as (S1 & S2 & S3). unfold scaled_function. rewrite <- Z.mul_add_distr_l.
  apply eqmod_0_divide in Hn as [j Ej]; [|lia]. rewrite Ej. assert (0 <= j <= 2) by nia.
  exists (scale * (j * fmod) - j * Q). split; [nia|]. rewrite <- (eqmod_multiple Q (_ - _) j). apply eqmod_eq. ring.
Qed.

Context (ct : LWECiphertextImpl) (Hct : ct_wf n q ct).
Abbreviation table_poly := (sparse (2 ^ k)%nat (Z.to_nat (factor k e)) (table e ct scaled_function) (half e)).

Lemma BootstrapFuncCore_table ek c :
  BootstrapFuncCore af ai A params (Some ek) ct f fmod c = start_acc af ai A rg ek ct (mkVector table_poly Q) c.
Proof.
  destruct Hfp as [Hpr HQ HN He Hfm]. pose proof Hct as [V M L B]. pose proof (modulus_word Q psi k Hr) as (_ & HQw & _).
  pose proof word_half. pose proof wbits_range. destruct scale_range as (H1 & H2 & H3).
  unfold BootstrapFuncCore, Lwe.GetModulus. cbv zeta. rewrite M, HQ, HN, NativeVectorT_new_ok, bind_Ok by apply Hr.
  destruct (table_factor Q psi k Hr e ltac:(lia)) as [Ef Eu]. rewrite Ef, bind_Ok, Eu. unfold RShift. rewrite ushr_ok, bind_Ok by lia.
  change (2 ^ 1) with 2. assert (q / 2 = 2 ^ (e - 1)) as ->.
  { replace e with (1 + (e - 1)) at 1 by lia. rewrite Z.pow_add_r, Z.mul_comm, Z.div_mul by lia. done. }
  change (Z.to_nat (2 ^ (e - 1))) with (half e). cbn [m_data m_modulus].
  rewrite (table_fill k e ltac:(lia) ct scaled_function); [by rewrite bind_Ok|].
  intros j data Hj. destruct (table_index Q psi k Hr e ltac:(lia) sk ct Hct j Hj) as [-> ->]. rewrite bind_Ok, udiv_pos, bind_Ok by lia.
  assert (0 <= (m_b ct - Z.of_nat j) mod q < q) as Hx by (apply mod_range, pow2_pos; lia).
  rewrite Hf, bind_Ok by done. pose proof (HG _ Hx). unfold Mul, MulFast. rewrite !wrap_small by (rewrite ?wrap_small by nia; nia). done.
Qed.

(** The phase of the result is the value of the function at the phase. *)
Lemma BootstrapFunc_holds c : cache_for Q psi k c ->
  returns (BootstrapFunc af ai ceil_log A params EK ct f fmod c)
    (fun '(ct', c') => holds sk fmod (G (LweProps.phase sk ct mod q)) tau ct' /\ cache_for Q psi k c').
Proof.
  intros Hc. destruct HEK as [(ek & Eek & Hek) Hback Hkey Herrs Hbud]. pose proof Hback as [_ _ _ _ [Hks _ _ _] _].
  pose proof Hfp as [Hpr HQ HN He Hfm]. assert (0 < q) as Hq0 by (apply pow2_pos; lia). destruct scale_range as (S1 & S2 & S3).
  unfold BootstrapFunc. rewrite Eek, BootstrapFuncCore_table.
  eapply returns_bind; [apply (start_acc_rotated Q psi k Hr af ai rg Hpr skN HsN e qs sk Hsk eps noise A keys ek Hek ct Hct); [|done];
    apply (sparse_elem Q psi k Hr); intros j Hj; apply scaled_function_range, mod_range; lia|].
  intros [acc c1] [Hacc Hc1]. eapply returns_bind; [by eapply (transpose_acc_ok Q psi k Hr af ai rg Hpr skN)|].
  intros [[p0 p1] c2] (Hc2 & a & b & -> & -> & Ha & Hb & z & Ez & Hez & Hz).
  pose proof (n_pos k). pose proof Hb as [Lb Rb]. pose proof (reduced_at Q b 0 Rb ltac:(lia)) as Hb0.
  rewrite (index_repr Q psi k (GetPolyParams rg)), bind_Ok by lia. unfold extract, GetValues. cbn [RgswRing.repr m_values values_in]. rewrite !bind_Ok.
  destruct (extract_phase Q psi k Hr skN HmN HsN e ltac:(lia) a b (b !!! 0%nat) 0 Ha Hb Hb0 ltac:(apply eqmod_eq; ring)) as [Wct Pct].
  destruct (table_phase Q psi k Hr e ltac:(lia) qs sk Hsk ct Hct scaled_function (2 * fmod)
    scaled_function_range ltac:(lia) scaled_function_negacyclic) as (Hfe & z1 & Hz1 & Et).
  assert (small Q (Z.of_nat n * noise) (z !!! 0%nat)) as (z0 & Hz0 & Ez0) by (apply near_at; [done | destruct Hez; lia]).
  set (v := G (LweProps.phase sk ct mod q)). set (P := scale * v + (z1 + z0)).
  assert (0 <= v <= fmod) as Hv by (apply HG, mod_range; lia).
  assert (LweProps.phase skN (mkCiphertext (mkVector (ptrans Q k a) Q) (b !!! 0%nat)) ==[Q] P) as HP.
  { rewrite Pct, Ez. unfold padd. rewrite zip_with_at by (rewrite ?length_negacyclic, ?(proj1 (pmono_elem Q psi k Hr _)); destruct Hez; lia).
    rewrite eqmod_mod, Et, Ez0. unfold P, v, scaled_function. apply eqmod_eq. ring. }
  eapply returns_bind; [apply (switch_back_phase ceil_log params Q fmod sk skN (KSkey EK) E eta _ P); try done;
    by rewrite <- (proj1 HsN) in Wct|].
  intros ct' (Wct' & d & Ed & Hd). cbn [returns]. split; [|done]. split; [done|].
  apply (scaled_value params Q fmod v P d); [lia | lia | lia | done |].
  assert (Z.abs (fmod * qKS * P - Q * qKS * v) <= fmod * qKS * (3 * fmod + Z.of_nat n * noise)); [|lia].
  replace (fmod * qKS * P - Q * qKS * v) with (qKS * ((scale * fmod - Q) * v + fmod * (z1 + z0))) by (unfold P; ring).
  rewrite Z.abs_mul, (Z.abs_eq qKS) by lia. replace (fmod * qKS * (3 * fmod + Z.of_nat n * noise)) with (qKS * (fmod * (3 * fmod + Z.of_nat n * noise))) by ring.
  apply Z.mul_le_mono_nonneg_l; [lia|]. assert (Z.abs ((scale * fmod - Q) * v) <= fmod * fmod) by (rewrite Z.abs_mul; nia).
  assert (Z.abs (fmod * (z1 + z0)) <= fmod * (2 * fmod + Z.of_nat n * noise)) by (rewrite Z.abs_mul; nia). nia.
Qed.
End Boot.
(** ** The functions of the scheme *)

Lemma q_halves : q = 4 * (q / 4) /\ q / 2 = 2 ^ (e - 1) /\ 2 ^ (e - 1) = 2 * (q / 4) /\ 0 < q / 4.
Proof.
  pose proof (fu_e Hfp). assert (q = 2 ^ (e - 2) * 4) as Eq by (change 4 with (2 ^ 2); rewrite <- Z.pow_add_r by lia; f_equal; lia).
  assert (2 ^ (e - 1) = 2 ^ (e - 2) * 2) as Eh by (change 2 with (2 ^ 1) at 4; rewrite <- Z.pow_add_r by lia; f_equal; lia).
  pose proof (pow2_pos (e - 2) ltac:(lia)). rewrite Eq, Eh, Z.div_mul by lia. split_and!; [lia | | lia | lia].
  symmetry. apply (Z.div_unique _ 2 _ 0); lia.
Qed.

Lemma DividedBy_pos a b : 0 < b -> DividedBy a b = Ok (a / b).
Proof. intros Hb. unfold DividedBy. by rewrite (proj2 (Z.eqb_neq _ _)), udiv_pos by lia. Qed.

(** Moving by half the modulus. *)
Lemma half_move x : 0 <= x < q -> (x + 2 ^ (e - 1)) mod q = if x <? 2 ^ (e - 1) then x + 2 ^ (e - 1) else x - 2 ^ (e - 1).
Proof.
  intros Hx. destruct q_halves as (E1 & E2 & E3 & E4). destruct (Z.ltb_spec x (2 ^ (e - 1))); [by apply Z.mod_small; lia|].
  rewrite <- (Z_mod_plus_full _ (-1)), Z.mod_small; lia.
Qed.

(** A function of the lower half, with its opposite in the upper half. *)
Definition odd_function (g : Z -> Z) (x : Z) : Z := if x <? 2 ^ (e - 1) then g x else fmod - g (x - 2 ^ (e - 1)).

Lemma odd_function_negacyclic g x : 0 <= x < q -> odd_function g ((x + 2 ^ (e - 1)) mod q) + odd_function g x ==[fmod] 0.
Proof.
  intros Hx. destruct q_halves as (E1 & E2 & E3 & E4). rewrite half_move by done. unfold odd_function.
  rewrite <- (eqmod_multiple fmod 0 1). apply eqmod_eq. destruct (Z.ltb_spec x (2 ^ (e - 1))).
  - rewrite (proj2 (Z.ltb_ge _ _)) by lia. replace (x + 2 ^ (e - 1) - 2 ^ (e - 1)) with x by lia. ring.
  - rewrite (proj2 (Z.ltb_lt _ _)) by lia. ring.
Qed.

Lemma odd_function_range g x : (forall y, 0 <= y < 2 ^ (e - 1) -> 0 <= g y <= fmod) -> 0 <= x < q -> 0 <= odd_function g x <= fmod.
Proof.
  intros Hg Hx. destruct q_halves as (E1 & E2 & E3 & E4). unfold odd_function. destruct (Z.ltb_spec x (2 ^ (e - 1))).
  - apply Hg. lia.
  - pose proof (Hg (x - 2 ^ (e - 1)) ltac:(lia)). lia.
Qed.

Lemma fmod_word : 0 < fmod < 2 ^ wbits /\ q < 2 ^ wbits.
Proof.
  pose proof (modulus_word Q psi k Hr) as (_ & HQw & _). pose proof word_half. pose proof (fu_fmod Hfp). pose proof (fu_e Hfp).
  pose proof (size_k Q psi k Hr). pose proof wbits_range. split; [lia|]. apply Z.pow_lt_mono_r; lia.
Qed.

Lemma half_word : q < 2 ^ (wbits - 1).
Proof.
  pose proof (fu_e Hfp). pose proof (size_k Q psi k Hr). pose proof wbits_range. apply Z.pow_lt_mono_r; lia.
Qed.

Lemma quarter_function_ok x : 0 <= x < q -> q / 4 <= fmod ->
  quarter_function x q fmod = Ok (odd_function (fun _ => fmod - q / 4) x).
Proof.
  intros Hx Hq. destruct q_halves as (E1 & E2 & E3 & E4). pose proof fmod_word. unfold quarter_function, odd_function.
  rewrite !DividedBy_pos, !bind_Ok, E2 by lia. f_equal. destruct (_ <? _); [|lia]. unfold Sub, SubFast. by rewrite wrap_small by lia.
Qed.

(** A table, as a function of the residues. *)
Definition entry (LUT : list Z) (x : Z) : Z := LUT !!! Z.to_nat x.

Lemma entry_read LUT x : 0 <= x < Z.of_nat (length LUT) -> vget LUT (Z.to_nat x) = Ok (entry LUT x).
Proof. intros Hx. apply vget_at. lia. Qed.

Lemma half_lut_function_ok LUT x : 0 <= x < q -> 2 ^ (e - 1) <= Z.of_nat (length LUT) ->
  Forall (fun y => 0 <= y <= fmod) LUT -> half_lut_function LUT x q fmod = Ok (odd_function (entry LUT) x).
Proof.
  intros Hx Hl Hr0. destruct q_halves as (E1 & E2 & E3 & E4). pose proof fmod_word as [Hw1 Hw2]. unfold half_lut_function, odd_function.
  rewrite DividedBy_pos, bind_Ok, E2 by lia. destruct (Z.ltb_spec x (2 ^ (e - 1))); [by apply entry_read; lia|].
  rewrite wrap_small, entry_read, bind_Ok by lia.
  assert (0 <= entry LUT (x - 2 ^ (e - 1)) <= fmod) by (apply (Forall_lookup_total_1 _ _ _ Hr0); lia).
  unfold Sub, SubFast. by rewrite wrap_small by lia.
Qed.

Lemma table_entry_range LUT x : Forall (fun y => 0 <= y <= fmod) LUT -> 0 <= x < Z.of_nat (length LUT) -> 0 <= entry LUT x <= fmod.
Proof. intros H Hx. apply (Forall_lookup_total_1 _ _ _ H). lia. Qed.
End Func.

(** ** The kinds of tables *)

Section Tables.
Context `{W : NativeWidth}.

Lemma forallb_ext_in {X} (f g : X -> bool) l : (forall x, In x l -> f x = g x) -> forallb f l = forallb g l.
Proof.
  intros H. induction l as [|x l IH]; [done|]. cbn [forallb]. rewrite (H x), IH; [done | intros; apply H; by right | by left].
Qed.

Lemma lut_differs_spec same lut h n i : (h + (i + n) <= length lut)%nat -> (i + n <= h)%nat ->
  returns (lut_differs same lut h n i)
    (fun d => d = negb (forallb (fun j => same (lut !!! j) (lut !!! (h + j)%nat)) (seq i n))).
Proof.
  revert i. induction n as [|n IH]; intros i Hl Hi; [done|]. cbn [lut_differs seq forallb].
  rewrite !vget_at, !bind_Ok by lia. destruct (same _ _); cbn [negb andb]; [|done]. apply IH; lia.
Qed.

Definition negacyclic_table (q : Z) (lut : list Z) (h : nat) : bool :=
  forallb (fun j => lut !!! j =? q - lut !!! (h + j)%nat) (seq 0 h).
Definition periodic_table (lut : list Z) (h : nat) : bool :=
  forallb (fun j => lut !!! j =? lut !!! (h + j)%nat) (seq 0 h).

(** Negacyclic tables are recognised exactly; a periodic table is recognised unless
    its first pair is also opposite. *)
Lemma checkInputFunction_spec q lut h : (0 < h)%nat -> length lut = (2 * h)%nat -> q < 2 ^ wbits ->
  Forall (fun y => 0 <= y <= q) lut ->
  checkInputFunction lut q = Ok (if negacyclic_table q lut h then 0
    else if periodic_table lut h && negb (lut !!! 0%nat =? q - lut !!! h) then 1 else 2).
Proof.
  intros Hh Hl Hq Hr. assert (forall j, (j < 2 * h)%nat -> 0 <= lut !!! j <= q) as Hb
    by (intros j Hj; apply (Forall_lookup_total_1 _ _ _ Hr); lia).
  assert (forall j, (j < 2 * h)%nat -> Sub q (lut !!! j) = q - lut !!! j) as Hs.
  { intros j Hj. pose proof (Hb j Hj). unfold Sub, SubFast. by rewrite wrap_small by lia. }
  unfold checkInputFunction. rewrite Hl, (Nat.mul_comm 2), Nat.div_mul by lia. rewrite !vget_at, !bind_Ok, Hs by lia.
  assert (forall same, exists d, lut_differs same lut h (h - 1) 1 = Ok d /\
    d = negb (forallb (fun j => same (lut !!! j) (lut !!! (h + j)%nat)) (seq 1 (h - 1)))) as Hd.
  { intros same. apply returns_Ok, lut_differs_spec; lia. }
  assert (seq 0 h = 0%nat :: seq 1 (h - 1)) as Es by (destruct h; [lia|]; cbn; do 2 f_equal; lia).
  unfold negacyclic_table, periodic_table. rewrite Es. cbn [forallb]. rewrite Nat.add_0_r.
  destruct (Z.eqb_spec (lut !!! 0%nat) (q - lut !!! h)) as [E0|Hne]; cbn [andb negb].
  - destruct (Hd (fun x y => x =? Sub q y)) as (d & -> & ->). rewrite bind_Ok, andb_false_r. f_equal.
    rewrite (forallb_ext_in _ (fun j => lut !!! j =? q - lut !!! (h + j)%nat)).
    { by destruct (forallb _ _). }
    intros j Hj%in_seq. by rewrite Hs by lia.
  - rewrite andb_true_r. destruct (Z.eqb_spec (lut !!! 0%nat) (lut !!! h)); cbn [andb]; [|done].
    destruct (Hd Z.eqb) as (d & -> & ->). rewrite bind_Ok. f_equal. by destruct (forallb _ _).
Qed.
End Tables.
