(* ===== verification/BinEval.v ===== *)
(** * Evaluation of tables

    [EvalFunc] on a table that is constant on the intervals of the plaintext space:
    the result holds the entry of the plaintext, whether the table is negacyclic,
    periodic or arbitrary. *)
From stdpp Require Import base numbers list gmap.
From Stdlib Require Import ZArith Lia.
From S2P Require Import Prelude Bits NativeInt NativeIntProps NativeVector Ntt NttProps FttProps NbTheory Poly PolyProps PolyDigitProps PolyAlg Lwe LweProps LweSwitch Rgsw RgswDigits RgswRing RgswKeys RgswAcc RgswEval RgswKeyGen BinFHE BinExtract BinRotation BinBoot BinGate BinFunc.
Open Scope Z_scope.

Section Moduli.
Context `{W : NativeWidth}.

(** Reducing a ciphertext to a modulus that divides its own keeps the phase. *)
Lemma LWE_SetModulus_phase n M q sk ct : ct_wf n M ct -> GetLength sk = n -> (q | M) -> 2 < q ->
  GetMSB q <= MAX_MODULUS_SIZE ->
  returns (LWE_SetModulus ct q) (fun ct' => ct_wf n q ct' /\ phase sk ct' ==[q] phase sk ct).
Proof.
  intros H Hn Hd Hq Hs. pose proof H as [V E L B]. pose proof (wf_word _ V) as (HM & _ & _). rewrite E in HM.
  destruct (modulus_size_word q ltac:(lia) Hs) as [_ Hw]. pose proof word_half. pose proof (pow2_pos (wbits - 1)).
  unfold LWE_SetModulus. destruct (Mod_vector_centered (m_a ct) q V ltac:(lia) ltac:(lia)) as [Ev Eq]. rewrite Eq, Ev, bind_Ok.
  rewrite SetModulus_ok, bind_Ok by done. unfold ModEq. rewrite umod_pos, bind_Ok by lia. cbn [m_data returns].
  set (ct' := mkCiphertext _ _). assert (ct_wf n q ct') as Wct.
  { split; cbn; [split; cbn; [lia | done |] | done | by rewrite length_map | apply mod_range; lia].
    apply Forall_map, Forall_true. intros x. apply mod_range. lia. }
  split; [done|]. rewrite (phase_centered n q sk ct' Wct Hn).
  assert (phase sk ct ==[q] m_b ct - nsum (fun i => m_data (m_a ct) !!! i * centered (m_modulus sk) (m_data sk !!! i)) n) as ->.
  { pose proof (phase_centered n M sk ct H Hn) as [Hp]. constructor. rewrite <- (Z.mod_mod_divide _ M q Hd), Hp. by apply Z.mod_mod_divide. }
  cbn [ct' m_b m_a m_data]. rewrite eqmod_mod. apply eqmod_sub; [done|]. apply nsum_eqmod. intros i Hi.
  rewrite (list_lookup_total_correct (map _ _) i (centered (m_modulus (m_a ct)) (m_data (m_a ct) !!! i) mod q)).
  - rewrite eqmod_mod. unfold centered at 1. destruct (_ >? _); [|done]. apply eqmod_mul; [|done].
    destruct Hd as [j Ej]. rewrite E, Ej, <- (eqmod_multiple q (_ - _) j). apply eqmod_eq. ring.
  - rewrite list_lookup_fmap, list_lookup_lookup_total_lt by lia. done.
Qed.

(** A ciphertext read with a multiple of its modulus. *)
Lemma raise_modulus n q j sk ct : ct_wf n q ct -> GetLength sk = n -> 0 < j -> GetMSB (j * q) <= MAX_MODULUS_SIZE ->
  let ct' := mkCiphertext (mkVector (m_data (m_a ct)) (j * q)) (m_b ct) in
  SetModulus (m_a ct) (j * q) = Ok (m_a ct') /\ ct_wf n (j * q) ct' /\ phase sk ct' ==[q] phase sk ct.
Proof.
  intros H Hn Hj Hs ct'. pose proof H as [V E L B]. pose proof (wf_word _ V) as (HM & _ & _). rewrite E in HM. pose proof V as [_ _ He].
  rewrite E in He. assert (ct_wf n (j * q) ct') as Wct.
  { split; cbn; [split; cbn; [nia | done |] | done | done | nia]. eapply Forall_impl; [exact He|]. cbn. nia. }
  split; [by rewrite SetModulus_ok|]. split; [done|]. pose proof (phase_centered n (j * q) sk ct' Wct Hn) as [Hp].
  rewrite (phase_centered n q sk ct H Hn). constructor.
  rewrite <- (Z.mod_mod_divide (phase sk ct') (j * q) q), Hp by (by exists j). by rewrite Z.mod_mod_divide by (by exists j).
Qed.
End Moduli.

Lemma raise_word `{W : NativeWidth} e : 2 ^ e < 2 ^ (wbits - 1) -> 2 * 2 ^ e < 2 ^ wbits.
Proof. pose proof word_half. lia. Qed.

(** ** Steps *)

(** A table that is constant on the intervals of length [d]. *)
Definition step_table (LUT : list Z) (d : Z) (h : Z -> Z) : Prop :=
  forall x, 0 <= x < Z.of_nat (length LUT) -> entry LUT x = h (x / d).

Section Eval.
Context `{W : NativeWidth}.
Context (Q psi : Z) (k : nat) (Hr : root_ok Q psi k).
Context (af ai : NativeVectorT -> ILParams -> outcome NativeVectorT) (ceil_log : Z -> Z -> Z).
Context (params : BinFHECryptoParams).
Abbreviation rg := (GetRingGSWParams params).
Context (skN : NativeVectorT) (HmN : m_modulus skN = Q) (HsN : ring_elem Q k (m_data skN)).
Context (qs : Z) (sk : NativeVectorT) (Hsk : ternary qs sk).
Context (eps noise : Z) (A : RingGSWAccumulator) (keys : nat -> (nat -> Z) -> RingGSWACCKeyImpl -> Prop).
Context (E : nat -> nat -> nat -> Z) (eta tau : Z) (EK : RingGSWBTKey).
Abbreviation n := (GetLength sk).
Abbreviation budget fmod := (func_budget Q ceil_log params fmod skN qs sk noise keys E eta tau EK).

(** The bootstrappings with an odd function, from modulus [2 ^ e] to [fmod]. *)
Lemma odd_bootstrap e fmod {BR : BlindRotation Q psi k rg (m_data skN) eps e A noise keys} f g ct c :
  func_params Q psi k params e fmod -> budget fmod ->
  (forall x, 0 <= x < 2 ^ e -> f x (2 ^ e) fmod = Ok (odd_function e fmod g x)) ->
  (forall y, 0 <= y < 2 ^ (e - 1) -> 0 <= g y <= fmod) -> ct_wf n (2 ^ e) ct -> cache_for Q psi k c ->
  returns (BootstrapFunc af ai ceil_log A params EK ct f fmod c)
    (fun '(ct', c') => holds sk fmod (odd_function e fmod g (phase sk ct mod 2 ^ e)) tau ct' /\ cache_for Q psi k c').
Proof.
  intros Hfp Hb Hf Hg Hct Hc. eapply (BootstrapFunc_holds Q psi k Hr); try done.
  - intros x Hx. by eapply odd_function_range.
  - intros x Hx. by eapply odd_function_negacyclic.
Qed.

(** Folding: the phase moves into the lower half, up to the error of a
    bootstrapping. *)
Lemma fold_lower e q4 beta ct c {BR : BlindRotation Q psi k rg (m_data skN) eps e A noise keys} :
  func_params Q psi k params e (2 ^ e) -> budget (2 ^ e) -> q4 = 2 ^ e / 4 -> 0 <= beta < 2 ^ e -> ct_wf n (2 ^ e) ct -> cache_for Q psi k c ->
  returns ('(ct2, c) ← BootstrapFunc af ai ceil_log A params EK (EvalAddConstEq ct beta) quarter_function (2 ^ e) c;
           ct2 ← EvalSubEq2 ct ct2;
           Ok (EvalSubConstEq (EvalAddConstEq ct2 beta) q4, c))
    (fun '(ct', c') => holds sk (2 ^ e) ((phase sk ct + beta) mod 2 ^ e mod 2 ^ (e - 1)) tau ct' /\ cache_for Q psi k c').
Proof.
  intros Hfp Hb -> Hbeta Hct Hc. destruct (q_halves _ _ _ _ _ _ Hfp) as (E1 & E2 & E3 & E4).
  destruct (EvalConst_phase n (2 ^ e) ct beta Hct Hbeta) as ([W1 _] & P1 & _). set (q := 2 ^ e) in *.
  eapply returns_bind; [apply (odd_bootstrap e q quarter_function (fun _ => q - q / 4)); try done|].
  { intros x Hx. apply (quarter_function_ok Q psi k Hr params e q Hfp x Hx). fold q. lia. }
  { intros y _. lia. }
  intros [ct2 c2] [(W2 & err & Herr & P2) Hc2]. fold q in P2. destruct (EvalAdd_EvalSub_phase n q ct ct2 Hct W2) as (_ & Hsub & Esub). rewrite Esub.
  eapply returns_bind; [exact Hsub|]. intros ct3 [W3 P3].
  destruct (EvalConst_phase n q ct3 beta W3 Hbeta) as ([W4 _] & P4 & _).
  destruct (EvalConst_phase n q _ (q / 4) W4 ltac:(lia)) as ([_ W5] & _ & P5 & _).
  cbn [returns]. split; [|done]. split; [done|]. exists (- err). split; [lia|].
  rewrite P5, P4, P3, P2 by done. rewrite (eqmod_elim _ _ _ (P1 sk)). set (x := (phase sk ct + beta) mod q).
  assert (phase sk ct + beta ==[q] x) as Ex by (symmetry; apply eqmod_mod). assert (0 <= x < q) as Hx by (apply mod_range; lia).
  set (o := odd_function e q _ x). transitivity (phase sk ct + beta - (o + err) - q / 4); [apply eqmod_eq; ring|]. rewrite Ex.
  unfold o, odd_function. rewrite E3. destruct (Z.ltb_spec x (2 * (q / 4))).
  - rewrite (Z.mod_small x) by lia. rewrite <- (eqmod_multiple q (_ - _ - _) 1). apply eqmod_eq. ring.
  - rewrite <- (Z_mod_plus_full x (-1)), Z.mod_small by lia. apply eqmod_eq. lia.
Qed.
(** ** The table of a function on the plaintext space *)

(** Plaintexts are multiples of [d], with an error that leaves room for one
    bootstrapping. *)
Context (e d beta tau0 : Z) (h : Z -> Z) (LUT : list Z).
Abbreviation q := (2 ^ e).
Record plaintext_space : Prop := {
  ps_e : 2 <= e;
  ps_divides : (d | 2 ^ (e - 1));
  ps_d : 0 < d;
  ps_tau : 0 <= tau0 /\ 0 <= tau;
  ps_beta : tau0 + tau < beta /\ 2 * beta <= d;
  ps_length : Z.of_nat (length LUT) = q;
  ps_entries : Forall (fun y => 0 <= y <= q) LUT;
  ps_step : step_table LUT d h
}.
Context (Hps : plaintext_space).

(** The value at the middle of interval [m], moved by at most [err]. *)
Lemma interval_entry m err : 0 <= m * d < q -> Z.abs err <= tau0 + tau ->
  0 <= m * d + beta + err < q /\ entry LUT (m * d + beta + err) = h m.
Proof.
  intros Hm He. destruct Hps as [He2 Hd Hd0 Ht [Hb1 Hb2] Hl Hr0 Hs].
  assert ((d | q)) as [p Ep]. { destruct Hd as [p Ep]. exists (2 * p). replace e with (1 + (e - 1)) at 1 by lia. rewrite Z.pow_add_r by lia. lia. }
  assert (m < p) by nia. assert (m * d + d <= q) by nia. split; [lia|]. rewrite Hs by lia. f_equal.
  symmetry. apply (Z.div_unique _ d _ (beta + err)); lia.
Qed.

Context (m : Z) (Hm : 0 <= m * d < q) (ct : LWECiphertextImpl) (Hct : holds sk q (m * d) tau0 ct).

Lemma beta_range : 0 <= beta < q.
Proof. destruct Hps as [_ _ _ Ht [Hb1 Hb2] _ _ _]. pose proof (interval_entry m 0 Hm ltac:(lia)) as [H _]. lia. Qed.

(** The phase of the input, moved to the middle of its interval. *)
Lemma centered_phase : exists err, Z.abs err <= tau0 /\ (phase sk ct + beta) mod q = m * d + beta + err.
Proof.
  destruct Hct as (Wct & err & Herr & P). destruct Hps as [_ _ _ Ht _ _ _ _]. exists err. split; [done|].
  symmetry. apply eqmod_unique; [apply interval_entry; [done | lia]|]. rewrite P. apply eqmod_eq. ring.
Qed.

Abbreviation hn := (Z.to_nat (2 ^ (e - 1))).
Abbreviation neg := (negacyclic_table q LUT hn).
Abbreviation per := (periodic_table LUT hn && negb (LUT !!! 0%nat =? q - LUT !!! hn)).

Lemma half_length : 2 ^ (e - 1) + 2 ^ (e - 1) = q /\ 0 < 2 ^ (e - 1) /\ length LUT = (2 * hn)%nat.
Proof.
  destruct Hps as [He2 _ _ _ _ Hl _ _]. pose proof (pow2_pos (e - 1) ltac:(lia)).
  assert (q = 2 ^ (e - 1) + 2 ^ (e - 1)) as Eq by (replace e with (1 + (e - 1)) at 1 by lia; rewrite Z.pow_add_r by lia; lia). split_and!; lia.
Qed.

Lemma EvalFunc_kind c : 2 * q < 2 ^ wbits ->
  EvalFunc af ai ceil_log A params EK ct LUT beta c
  = if neg then BootstrapFunc af ai ceil_log A params EK (EvalAddConstEq ct beta) (lut_function LUT) q c
    else if per then
      '(ct2, c) ← ('(ct2, c) ← BootstrapFunc af ai ceil_log A params EK (EvalAddConstEq ct beta) quarter_function q c;
                   ct2 ← EvalSubEq2 ct ct2;
                   Ok (EvalSubConstEq (EvalAddConstEq ct2 beta) (q / 4), c));
      BootstrapFunc af ai ceil_log A params EK ct2 (half_lut_function LUT) q c
    else if q >? Z.of_nat (m_N (GetLWEParams params)) then Throw not_implemented_error
    else
      a ← SetModulus (m_a ct) (2 * q);
      let ct1 := mkCiphertext a (m_b ct) in
      '(ct3, c) ← ('(ct3, c) ← BootstrapFunc af ai ceil_log A params EK (EvalAddConstEq ct1 beta) quarter_function (2 * q) c;
                   ct3 ← EvalSubEq2 ct1 ct3;
                   Ok (EvalSubConstEq (EvalAddConstEq ct3 beta) (2 * q / 4), c));
      '(ct4, c) ← BootstrapFunc af ai ceil_log A params EK ct3 (half_lut_function (LUT ++ LUT)) (2 * q) c;
      ct4 ← LWE_SetModulus ct4 q;
      Ok (ct4, c).
Proof.
  intros Hw. destruct half_length as (Eh & Hh & El). destruct Hps as [He2 _ _ _ _ Hl Hr0 _]. pose proof wbits_range.
  assert (q = 4 * 2 ^ (e - 2)) as E4 by (change 4 with (2 ^ 2); rewrite <- Z.pow_add_r by lia; f_equal; lia).
  unfold EvalFunc. unfold Lwe.GetModulus. rewrite (cw_modulus _ _ _ (proj1 Hct)). cbv zeta.
  rewrite (checkInputFunction_spec q LUT hn), bind_Ok by (lia || done).
  assert (RShift q 2 = Ok (q / 4)) as -> by (unfold RShift; by rewrite ushr_ok by lia).
  assert (RShift q 1 = Ok (2 * q / 4)) as ->.
  { unfold RShift. rewrite ushr_ok by lia. change (2 ^ 1) with 2. f_equal. rewrite E4.
    transitivity (2 * 2 ^ (e - 2)); [symmetry|]; apply Z.div_unique_exact; lia. }
  assert (LShift q 1 = Ok (2 * q)) as ->.
  { unfold LShift, ushl. rewrite (proj2 (Z.leb_le 0 1)), (proj2 (Z.ltb_lt 1 wbits)) by lia. cbn [andb]. rewrite Z.shiftl_mul_pow2 by lia.
    rewrite wrap_small by lia. f_equal. lia. }
  destruct neg; [done|]. destruct per; cbn [Z.eqb].
  - destruct (BootstrapFunc _ _ _ _ _ _ _ quarter_function _ _) as [[ct2 c2]| | |]; [|done..]. rewrite !bind_Ok.
    by destruct (EvalSubEq2 _ _).
  - change (2 =? 2) with true. cbv iota. destruct (q >? _); [done|]. rewrite bind_Ok. destruct (SetModulus _ _) as [a| | |]; [|done..]. rewrite !bind_Ok.
    destruct (BootstrapFunc _ _ _ _ _ _ _ quarter_function _ _) as [[ct3 c3]| | |]; [|done..]. rewrite !bind_Ok.
    by destruct (EvalSubEq2 _ _).
Qed.

Lemma table_pairs (test : Z -> Z -> bool) x : forallb (fun j => test (LUT !!! j) (LUT !!! (hn + j)%nat)) (seq 0 hn) = true ->
  0 <= x < 2 ^ (e - 1) -> test (entry LUT x) (entry LUT (x + 2 ^ (e - 1))) = true.
Proof.
  intros H Hx. rewrite forallb_forall in H. specialize (H (Z.to_nat x)). unfold entry.
  replace (Z.to_nat (x + 2 ^ (e - 1))) with (hn + Z.to_nat x)%nat by lia. apply H, in_seq. lia.
Qed.

Lemma EvalFunc_negacyclic c {BR : BlindRotation Q psi k rg (m_data skN) eps e A noise keys} :
  func_params Q psi k params e q -> budget q -> neg = true -> cache_for Q psi k c ->
  returns (EvalFunc af ai ceil_log A params EK ct LUT beta c)
    (fun '(ct', c') => holds sk q (h m) tau ct' /\ cache_for Q psi k c').
Proof.
  intros Hfp Hb Hneg Hc. destruct half_length as (Eh & Hh & El).
  pose proof (raise_word e (half_word Q psi k Hr params e q Hfp)).
  rewrite EvalFunc_kind, Hneg by done. pose proof beta_range as Hbr. pose proof (ps_entries Hps) as Hent. pose proof (ps_length Hps) as Hlen.
  destruct (EvalConst_phase n q ct beta (proj1 Hct) Hbr) as ([W1 _] & P1 & _).
  eapply returns_mono; [eapply (BootstrapFunc_holds Q psi k Hr af ai ceil_log params e q Hfp skN HmN HsN qs sk Hsk eps noise A keys E eta tau EK Hb
    (lut_function LUT) (entry LUT)); try done|].
  - intros x Hx. apply entry_read. lia.
  - intros x Hx. apply table_entry_range; [done | lia].
  - intros x Hx. rewrite (half_move Q psi k params e q Hfp) by done. rewrite <- (eqmod_multiple q 0 1). apply eqmod_eq.
    destruct (Z.ltb_spec x (2 ^ (e - 1))).
    + pose proof (table_pairs (fun u v => u =? q - v) x Hneg ltac:(lia)) as Ht%Z.eqb_eq. lia.
    + pose proof (table_pairs (fun u v => u =? q - v) (x - 2 ^ (e - 1)) Hneg ltac:(lia)) as Ht%Z.eqb_eq.
      replace (x - 2 ^ (e - 1) + 2 ^ (e - 1)) with x in Ht by lia. lia.
  - intros [ct' c'] [Hh' Hc']. split; [|done]. rewrite (eqmod_elim _ _ _ (P1 sk)) in Hh'. destruct centered_phase as (err & Herr & Ex).
    destruct Hps as [_ _ _ Ht _ _ _ _]. rewrite Ex in Hh'. destruct (interval_entry m err Hm ltac:(lia)) as [_ Ee]. by rewrite Ee in Hh'.
Qed.
(** The last bootstrapping: the phase is in the lower half and in interval [m']. *)
Lemma last_bootstrap e' fmod L m' err ct2 c {BR : BlindRotation Q psi k rg (m_data skN) eps e' A noise keys} :
  func_params Q psi k params e' fmod -> budget fmod -> 2 ^ (e' - 1) <= Z.of_nat (length L) -> Forall (fun y => 0 <= y <= fmod) L ->
  0 <= m' * d + beta + err -> Z.abs err <= tau0 ->
  (forall err, Z.abs err <= tau0 + tau -> 0 <= m' * d + beta + err < 2 ^ (e' - 1) /\ entry L (m' * d + beta + err) = h m') ->
  holds sk (2 ^ e') (m' * d + beta + err) tau ct2 -> cache_for Q psi k c ->
  returns (BootstrapFunc af ai ceil_log A params EK ct2 (half_lut_function L) fmod c)
    (fun '(ct', c') => holds sk fmod (h m') tau ct' /\ cache_for Q psi k c').
Proof.
  intros Hfp Hb Hl Hent H0 Herr Hint (W2 & err2 & Herr2 & P2) Hc. destruct (q_halves _ _ _ _ _ _ Hfp) as (E1 & E2 & E3 & E4).
  eapply returns_mono; [apply (odd_bootstrap e' fmod (half_lut_function L) (entry L)); try done|].
  - intros x Hx. by apply (half_lut_function_ok Q psi k Hr params e' fmod Hfp).
  - intros y Hy. apply table_entry_range; [done | lia].
  - intros [ct' c'] [Hh Hc']. split; [|done]. destruct (Hint (err + err2) ltac:(lia)) as [Hx He].
    rewrite <- (eqmod_unique (2 ^ e') (phase sk ct2) (m' * d + beta + (err + err2))) in Hh; [|lia | rewrite P2; apply eqmod_eq; ring].
    unfold odd_function in Hh. by rewrite (proj2 (Z.ltb_lt _ _)), He in Hh by lia.
Qed.

Lemma EvalFunc_periodic c {BR : BlindRotation Q psi k rg (m_data skN) eps e A noise keys} :
  func_params Q psi k params e q -> budget q -> neg = false -> per = true -> cache_for Q psi k c ->
  returns (EvalFunc af ai ceil_log A params EK ct LUT beta c)
    (fun '(ct', c') => holds sk q (h m) tau ct' /\ cache_for Q psi k c').
Proof.
  intros Hfp Hb Hneg Hper Hc. destruct half_length as (Eh & Hh & El). pose proof (raise_word e (half_word Q psi k Hr params e q Hfp)).
  rewrite EvalFunc_kind, Hneg, Hper by done. pose proof beta_range as Hbr. pose proof (ps_entries Hps) as Hent. pose proof (ps_length Hps) as Hlen.
  eapply returns_bind; [by apply (fold_lower e (q / 4) beta ct c); try done; apply Hct|]. intros [ct2 c2] [H2 Hc2].
  destruct centered_phase as (err & Herr & Ex). rewrite Ex in H2. pose proof (ps_tau Hps) as Ht. pose proof (ps_d Hps) as Hd0. pose proof (ps_beta Hps) as Hbeta.
  destruct (ps_divides Hps) as [p Ep]. assert (0 < p) as Hp by nia.
  set (m' := m mod p). assert (0 <= m' < p) as Hm' by (apply mod_range; lia). assert (0 <= m < 2 * p) as Hm2 by nia.
  assert ((m * d + beta + err) mod 2 ^ (e - 1) = m' * d + beta + err) as Emod.
  { unfold m'. pose proof (Z.div_mod m p ltac:(lia)) as D. fold m' in D. rewrite <- (Z_mod_plus_full _ (- (m / p))).
    rewrite Z.mod_small; fold m'; nia. }
  assert (forall er, Z.abs er <= tau0 + tau -> 0 <= m' * d + beta + er < 2 ^ (e - 1)) as Hin by (intros er Her; nia).
  assert (h m' = h m) as Ehm.
  { destruct (Z.eq_dec m m') as [<-|Hne]; [done|]. assert (m = m' + p) as Em.
    { pose proof (Z.div_mod m p ltac:(lia)) as D. fold m' in D. assert (m / p = 0 \/ m / p = 1) as [Eq|Eq]; [|nia|nia].
      pose proof (Z.div_lt_upper_bound m p 2 ltac:(lia) ltac:(lia)). pose proof (Z.div_pos m p ltac:(lia) ltac:(lia)). lia. }
    apply andb_true_iff in Hper as [Hper _]. pose proof (Hin 0 ltac:(lia)) as Hx0.
    pose proof (table_pairs Z.eqb (m' * d + beta + 0) Hper ltac:(lia)) as Ht2%Z.eqb_eq.
    destruct (interval_entry m' 0 ltac:(nia) ltac:(lia)) as [_ I1]. destruct (interval_entry m 0 Hm ltac:(lia)) as [_ I2].
    rewrite <- I1, <- I2, Ht2. f_equal. nia. }
  rewrite Emod in H2. rewrite <- Ehm. pose proof (Hin err ltac:(lia)).
  apply (last_bootstrap e q LUT m' err); try done; [lia | lia |].
  intros er Her. pose proof (Hin er Her). split; [done|]. apply interval_entry; [nia | done].
Qed.

Lemma EvalFunc_arbitrary c {BR : BlindRotation Q psi k rg (m_data skN) eps (e + 1) A noise keys} :
  func_params Q psi k params (e + 1) (2 * q) -> budget (2 * q) -> GetMSB q <= MAX_MODULUS_SIZE -> GetMSB (2 * q) <= MAX_MODULUS_SIZE ->
  neg = false -> per = false -> cache_for Q psi k c ->
  returns (EvalFunc af ai ceil_log A params EK ct LUT beta c)
    (fun '(ct', c') => holds sk q (h m) tau ct' /\ cache_for Q psi k c').
Proof.
  intros Hfp Hb Hs1 Hs2 Hneg Hper Hc. destruct half_length as (Eh & Hh & El). pose proof (ps_e Hps) as He2.
  assert (2 * q = 2 ^ (e + 1)) as E2q by (rewrite Z.pow_add_r by lia; lia).
  pose proof (raise_word (e + 1) (half_word Q psi k Hr params (e + 1) (2 * q) Hfp)) as Hw. pose proof (pow2_pos e ltac:(lia)).
  rewrite EvalFunc_kind, Hneg, Hper by lia. pose proof beta_range as Hbr. pose proof (ps_entries Hps) as Hent. pose proof (ps_length Hps) as Hlen.
  pose proof (fu_N _ _ _ _ _ _ Hfp) as HN. pose proof (fu_e _ _ _ _ _ _ Hfp) as Hek.
  rewrite Z.gtb_ltb, (proj2 (Z.ltb_ge _ _)) by (rewrite HN, (pow2_nat_Z k); apply Z.pow_le_mono_r; lia).
  destruct (raise_modulus n q 2 sk ct (proj1 Hct) eq_refl ltac:(lia) Hs2) as (-> & W1 & P1). rewrite bind_Ok. cbv zeta. set (ct1 := mkCiphertext _ _) in *.
  rewrite E2q in *.
  eapply returns_bind; [apply (fold_lower (e + 1) (2 ^ (e + 1) / 4) beta ct1 c); try done; lia|]. intros [ct2 c2] [H2 Hc2].
  replace (e + 1 - 1) with e in * by lia. destruct centered_phase as (err & Herr & Ex). pose proof (ps_tau Hps) as Ht.
  assert ((phase sk ct1 + beta) mod 2 ^ (e + 1) mod q = m * d + beta + err) as Emod.
  { rewrite Z.mod_mod_divide by (exists 2; lia). rewrite <- Ex. apply eqmod_elim. by rewrite P1. }
  rewrite Emod in H2. pose proof (interval_entry m err Hm ltac:(lia)) as [Hin _].
  eapply returns_bind; [apply (last_bootstrap (e + 1) (2 ^ (e + 1)) (LUT ++ LUT) m err); try done|].
  - rewrite length_app. replace (e + 1 - 1) with e by lia. lia.
  - apply Forall_app_2; (eapply Forall_impl; [exact Hent|]; cbn; lia).
  - lia.
  - intros er Her. destruct (interval_entry m er Hm Her) as [H1 H3]. replace (e + 1 - 1) with e by lia. split; [done|].
    rewrite <- H3. unfold entry. apply lookup_total_app_l. lia.
  - intros [ct4 c4] [(W4 & err4 & Herr4 & P4) Hc4].
    eapply returns_bind; [apply (LWE_SetModulus_phase n (2 ^ (e + 1)) q sk ct4 W4 eq_refl); [exists 2; lia | | done]|].
    { pose proof (Z.pow_le_mono_r 2 2 e ltac:(lia) ltac:(lia)). lia. }
    intros ct5 [W5 P5]. cbn [returns]. split; [|done]. split; [done|]. exists err4. split; [done|]. rewrite P5.
    destruct P4 as [P4]. constructor. rewrite <- (Z.mod_mod_divide (phase sk ct4) (2 ^ (e + 1)) q), P4 by (exists 2; lia).
    apply Z.mod_mod_divide. exists 2. lia.
Qed.
End Eval.
