(* ===== verification/BinFloor.v ===== *)
(** * Flooring

    [EvalFloor] clears the lower bits of the phase, with two bootstrappings. *)
From stdpp Require Import base numbers list gmap.
From Stdlib Require Import ZArith Lia.
From S2P Require Import Prelude Bits NativeInt NativeIntProps NativeVector Ntt NttProps FttProps NbTheory Poly PolyProps PolyDigitProps PolyAlg Lwe LweProps LweSwitch Rgsw RgswDigits RgswRing RgswKeys RgswAcc RgswEval RgswKeyGen BinFHE BinExtract BinRotation BinBoot BinGate BinFunc BinEval.
Open Scope Z_scope.

(** The middle of interval [m] of length [2 ^ b], moved by [err]: the lower [i] bits
    and the others. *)
Lemma middle_bits m b i err : 1 <= b <= i -> Z.abs err < 2 ^ (b - 1) ->
  let x := m * 2 ^ b + 2 ^ (b - 1) + err in
  x mod 2 ^ i = m mod 2 ^ (i - b) * 2 ^ b + 2 ^ (b - 1) + err /\ x / 2 ^ i = m / 2 ^ (i - b).
Proof.
  intros Hb Herr x. assert (2 ^ b = 2 * 2 ^ (b - 1)) as Eb by (rewrite <- Z.pow_succ_r by lia; f_equal; lia).
  assert (2 ^ i = 2 ^ (i - b) * 2 ^ b) as Ei by (rewrite <- Z.pow_add_r by lia; f_equal; lia).
  pose proof (pow2_pos (i - b) ltac:(lia)). pose proof (pow2_pos (b - 1) ltac:(lia)). set (u := 2 ^ (i - b)) in *. set (D := 2 ^ b) in *.
  assert (x / D = m) as Ex by (symmetry; apply (Z.div_unique x D m (2 ^ (b - 1) + err)); [left|]; lia).
  pose proof (Z.div_mod m u ltac:(lia)). pose proof (mod_range m u ltac:(lia)).
  assert (x / 2 ^ i = m / u) as Ediv by (rewrite Ei, Z.mul_comm, <- Z.div_div, Ex by lia; done). split; [|done].
  pose proof (Z.div_mod x (2 ^ i) ltac:(lia)) as Dx. rewrite Ediv in Dx. unfold x in *. nia.
Qed.

Section Floor.
Context `{W : NativeWidth}.
Context (Q psi : Z) (k : nat) (Hr : root_ok Q psi k).
Context (af ai : NativeVectorT -> ILParams -> outcome NativeVectorT) (ceil_log : Z -> Z -> Z).
Context (params : BinFHECryptoParams).
Abbreviation rg := (GetRingGSWParams params).
Abbreviation lw := (GetLWEParams params).
Context (skN : NativeVectorT) (HmN : m_modulus skN = Q) (HsN : ring_elem Q k (m_data skN)).
Context (qs : Z) (sk : NativeVectorT) (Hsk : ternary qs sk).
Context (eps noise : Z) (A : RingGSWAccumulator) (keys : nat -> (nat -> Z) -> RingGSWACCKeyImpl -> Prop).
Context (E : nat -> nat -> nat -> Z) (eta tau : Z) (Htau : 0 <= tau) (EK : RingGSWBTKey).
Abbreviation n := (GetLength sk).
Abbreviation budget fmod := (func_budget Q ceil_log params fmod skN qs sk noise keys E eta tau EK).
Context (e : Z).
Abbreviation q := (2 ^ e).
Abbreviation h := (2 ^ (e - 1)).

(** ** One flooring *)

(** The second function: the identity between the quarters. *)
Definition floor_value (M x : Z) : Z :=
  if x <? q / 4 then M - q / 2 - x else if (q / 4 <=? x) && (x <? 3 * q / 4) then x else M + q / 2 - x.

Section One.
Context (M : Z) (Hfp : func_params Q psi k params e M) (HqM : q <= M).

Lemma three_quarters : 3 * q / 4 = 3 * (q / 4).
Proof.
  destruct (q_halves _ _ _ _ _ _ Hfp) as (E1 & _). rewrite E1 at 1.
  replace (3 * (4 * (q / 4))) with (3 * (q / 4) * 4) by ring. by rewrite Z.div_mul by lia.
Qed.

Lemma floor_function_ok x : 0 <= x < q -> floor_function x q M = Ok (floor_value M x).
Proof.
  intros Hx. destruct (q_halves _ _ _ _ _ _ Hfp) as (E1 & E2 & E3 & E4).
  pose proof (raise_word e (half_word Q psi k Hr params e M Hfp)) as Hw. pose proof (modulus_word Q psi k Hr) as (_ & HQw & _). pose proof word_half.
  pose proof (fu_fmod _ _ _ _ _ _ Hfp) as HM.
  assert (3 * q < 2 ^ wbits).
  { pose proof (fu_e _ _ _ _ _ _ Hfp). pose proof (size_k Q psi k Hr). pose proof wbits_range.
    assert (2 ^ 2 * q <= 2 ^ wbits) by (rewrite <- Z.pow_add_r by lia; apply Z.pow_le_mono_r; lia). lia. }
  unfold floor_function, floor_value, Mul, MulFast. rewrite (wrap_small (3 * q)) by lia. rewrite !DividedBy_pos, !bind_Ok by lia. f_equal.
  rewrite three_quarters, E2, E3. unfold Sub, SubFast, Add, AddFast.
  destruct (Z.ltb_spec x (q / 4)); [by rewrite !wrap_small by (rewrite ?wrap_small; lia)|].
  destruct (Z.leb_spec (q / 4) x), (Z.ltb_spec x (3 * (q / 4))); cbn [andb]; try done;
    by rewrite !wrap_small by (rewrite ?wrap_small; lia).
Qed.

Lemma floor_value_range x : 0 <= x < q -> 0 <= floor_value M x <= M.
Proof.
  intros Hx. destruct (q_halves _ _ _ _ _ _ Hfp) as (E1 & E2 & E3 & E4). unfold floor_value. rewrite three_quarters, E2, E3.
  destruct (Z.ltb_spec x (q / 4)), (Z.leb_spec (q / 4) x), (Z.ltb_spec x (3 * (q / 4))); cbn [andb]; lia.
Qed.

Lemma floor_value_negacyclic x : 0 <= x < q -> floor_value M ((x + h) mod q) + floor_value M x ==[M] 0.
Proof.
  intros Hx. destruct (q_halves _ _ _ _ _ _ Hfp) as (E1 & E2 & E3 & E4). rewrite (half_move Q psi k params e M Hfp) by done.
  rewrite <- (eqmod_multiple M 0 1). apply eqmod_eq. unfold floor_value. rewrite three_quarters, E2, E3.
  destruct (Z.ltb_spec x (2 * (q / 4))).
  - destruct (Z.ltb_spec x (q / 4)), (Z.leb_spec (q / 4) x), (Z.ltb_spec x (3 * (q / 4))), (Z.ltb_spec (x + 2 * (q / 4)) (q / 4)),
      (Z.leb_spec (q / 4) (x + 2 * (q / 4))), (Z.ltb_spec (x + 2 * (q / 4)) (3 * (q / 4))); cbn [andb]; lia.
  - destruct (Z.ltb_spec x (q / 4)), (Z.leb_spec (q / 4) x), (Z.ltb_spec x (3 * (q / 4))), (Z.ltb_spec (x - 2 * (q / 4)) (q / 4)),
      (Z.leb_spec (q / 4) (x - 2 * (q / 4))), (Z.ltb_spec (x - 2 * (q / 4)) (3 * (q / 4))); cbn [andb]; lia.
Qed.
Context {BR : BlindRotation Q psi k rg (m_data skN) eps e A noise keys}.
Context (Hb : budget M) (HdM : (q | M)) (Hsize : GetMSB q <= MAX_MODULUS_SIZE).

(** A bootstrapping of the residue modulo [q]. *)
Lemma floor_bootstrap f G ct c :
  (forall x, 0 <= x < q -> f x q M = Ok (G x)) -> (forall x, 0 <= x < q -> 0 <= G x <= M) ->
  (forall x, 0 <= x < q -> G ((x + h) mod q) + G x ==[M] 0) -> ct_wf n M ct -> cache_for Q psi k c ->
  returns (ct1 ← LWE_SetModulus ct q; BootstrapFunc af ai ceil_log A params EK ct1 f M c)
    (fun '(ct', c') => holds sk M (G (phase sk ct mod q)) tau ct' /\ cache_for Q psi k c').
Proof.
  intros Hf HG Hn Hct Hc. destruct (q_halves _ _ _ _ _ _ Hfp) as (E1 & E2 & E3 & E4).
  eapply returns_bind; [apply (LWE_SetModulus_phase n M q sk ct Hct eq_refl HdM); [lia | done]|]. intros ct1 [W1 P1].
  eapply returns_mono; [by eapply (BootstrapFunc_holds Q psi k Hr af ai ceil_log params e M Hfp skN HmN HsN qs sk Hsk eps noise A keys E eta tau EK Hb f G)|].
  intros [ct' c'] [H Hc']. split; [|done]. by rewrite (eqmod_elim _ _ _ P1) in H.
Qed.

Lemma residue_halves x : (x mod q < h /\ x mod q = x mod h) \/ (h <= x mod q /\ x mod q = x mod h + h).
Proof.
  destruct (q_halves _ _ _ _ _ _ Hfp) as (E1 & E2 & E3 & E4).
  assert (x mod h = x mod q mod h) as -> by (symmetry; apply Z.mod_mod_divide; exists 2; lia).
  pose proof (mod_range x q ltac:(lia)) as Hx. revert Hx. generalize (x mod q) as r. intros r Hx.
  destruct (Z_lt_ge_dec r h); [left; by rewrite Z.mod_small by lia|].
  right. split; [lia|]. rewrite <- (Z_mod_plus_full r (-1) h), (Z.mod_small (r + -1 * h)); lia.
Qed.

(** The lower bits are cleared, when they are not too near the ends of their
    range. *)
Lemma EvalFloor_holds ct beta roundbits c :
  (if roundbits =? 0 then Ok (m_q lw) else p ← shl_int roundbits; Ok (Mul (Mul beta 2) p)) = Ok q -> ct_wf n M ct -> 0 <= beta < M ->
  let x := (phase sk ct + beta) mod M in
  tau <= x mod h -> x mod h + tau < h -> cache_for Q psi k c ->
  returns (EvalFloor af ai ceil_log A params EK ct beta roundbits c)
    (fun '(ct', c') => holds sk M (x / q * q) tau ct' /\ cache_for Q psi k c').
Proof.
  intros Hq Hct Hbeta x Hlo Hhi Hc. destruct (q_halves _ _ _ _ _ _ Hfp) as (E1 & E2 & E3 & E4). pose proof (fu_fmod _ _ _ _ _ _ Hfp) as HM.
  unfold EvalFloor. rewrite Hq, bind_Ok. unfold Lwe.GetModulus. rewrite (cw_modulus _ _ _ Hct).
  destruct (EvalConst_phase n M ct beta Hct Hbeta) as ([W1 _] & P1 & _). set (ct1 := EvalAddConstEq ct beta) in *.
  assert (phase sk ct1 ==[M] x) as Px by (rewrite P1; symmetry; apply eqmod_mod).
  assert (phase sk ct1 mod q = x mod q) as Pq by (rewrite <- (Z.mod_mod_divide _ M q HdM), (eqmod_elim _ _ _ Px); by apply Z.mod_mod_divide).
  assert (0 <= x < M) as Hx by (apply mod_range; lia).
  pose proof (floor_bootstrap quarter_function (odd_function e M (fun _ => M - q / 4)) ct1 c) as H1.
  assert (forall {B C} (m : outcome B) (f : B -> outcome C) P, returns (m ≫= f) P -> exists b, m = Ok b /\ returns (f b) P) as Hinv
    by (intros B C [b| | |] f P Hb0; try done; by exists b).
  apply Hinv in H1 as (ct1q & -> & H1); [| intros; by apply (quarter_function_ok Q psi k Hr params e M Hfp); [|lia] | | | done | done].
  2: { intros y Hy. eapply (odd_function_range Q psi k params e M Hfp); [intros; lia | done]. }
  2: { intros y Hy. by apply (odd_function_negacyclic Q psi k params e M Hfp). }
  rewrite bind_Ok. eapply returns_bind; [exact H1|]. intros [ct2 c2] [(W2 & err1 & Herr1 & P2) Hc2].
  destruct (EvalAdd_EvalSub_phase n M ct1 ct2 W1 W2) as (_ & Hsub & _). eapply returns_bind; [exact Hsub|]. intros ct3 [W3 P3].
  pose proof (floor_bootstrap floor_function (floor_value M) ct3 c2 floor_function_ok floor_value_range floor_value_negacyclic W3 Hc2) as H2.
  apply Hinv in H2 as (ct3q & -> & H2). rewrite bind_Ok. eapply returns_bind; [exact H2|]. intros [ct4 c4] [(W4 & err2 & Herr2 & P4) Hc4].
  destruct (EvalAdd_EvalSub_phase n M ct3 ct4 W3 W4) as (_ & Hsub2 & _). eapply returns_bind; [exact Hsub2|]. intros ct5 [W5 P5].
  cbn [returns]. split; [|done]. split; [done|]. exists (- err2). split; [lia|]. rewrite P5, P4 by done.
  assert ((x mod q < h /\ x mod q = x mod h) \/ (h <= x mod q /\ x mod q = x mod h + h)) as residue by (by apply residue_halves).
  pose proof (Z.div_mod x q ltac:(lia)) as Dx.
  (* the phase after the first step *)
  set (y := x / q * q + x mod h + q / 4 - err1). assert (phase sk ct3 ==[M] y) as Py.
  { rewrite Pq in P2. rewrite P3, P2, Px by done. unfold y. destruct residue as [[Hlt Er]|[Hge Er]]; unfold odd_function.
    - rewrite (proj2 (Z.ltb_lt _ _)) by done. rewrite <- (eqmod_multiple M (x - _) 1). apply eqmod_eq. lia.
    - rewrite (proj2 (Z.ltb_ge _ _)) by done. apply eqmod_eq. lia. }
  assert (phase sk ct3 mod q = x mod h + q / 4 - err1) as Pyq.
  { rewrite <- (Z.mod_mod_divide _ M q HdM), (eqmod_elim _ _ _ Py), Z.mod_mod_divide by done. unfold y.
    replace (x / q * q + x mod h + q / 4 - err1) with (x mod h + q / 4 - err1 + x / q * q) by ring.
    rewrite Z_mod_plus_full. apply Z.mod_small. lia. }
  rewrite Pyq, Py. unfold floor_value, y. rewrite three_quarters, (proj2 (Z.ltb_ge _ _)), (proj2 (Z.leb_le _ _)), (proj2 (Z.ltb_lt _ _)) by lia.
  cbn [andb]. apply eqmod_eq. ring.
Qed.
End One.
End Floor.
