(* ===== verification/BinSign.v ===== *)
(** * The sign and the digits of a large plaintext

    The loop of [EvalSign] and [EvalDecomp]: each round removes the lowest digit of
    the plaintext, so that the loop terminates, [EvalDecomp] returns the digits, and
    the last bootstrapping of [EvalSign] reads the highest bit. *)
From stdpp Require Import base numbers list gmap.
From Stdlib Require Import ZArith Lia.
From S2P Require Import Prelude Bits NativeInt NativeIntProps NativeVector Ntt NttProps FttProps NbTheory Poly PolyProps PolyDigitProps PolyAlg Lwe LweProps LweSwitch Rgsw RgswDigits RgswRing RgswKeys RgswAcc RgswEval RgswKeyGen BinFHE BinExtract BinRotation BinBoot BinGate BinFunc BinEval BinFloor.
Open Scope Z_scope.

Section Sign.
Context `{W : NativeWidth}.
Context (Q psi : Z) (k : nat) (Hr : root_ok Q psi k).
Context (af ai : NativeVectorT -> ILParams -> outcome NativeVectorT) (ceil_log : Z -> Z -> Z) (ceil_log2 : Z -> Z).
Context (params : BinFHECryptoParams).
Abbreviation rg := (GetRingGSWParams params).
Abbreviation lw := (GetLWEParams params).
Context (skN : NativeVectorT) (HmN : m_modulus skN = Q) (HsN : ring_elem Q k (m_data skN)).
Context (qs : Z) (sk : NativeVectorT) (Hsk : ternary qs sk).
Context (eps noise : Z) (A : RingGSWAccumulator) (keys : nat -> (nat -> Z) -> RingGSWACCKeyImpl -> Prop).
Context (E : nat -> nat -> nat -> Z) (eta tau rho : Z) (EK : RingGSWBTKey).
Abbreviation n := (GetLength sk).
Context (e b L : Z).
Abbreviation q := (2 ^ e).
Abbreviation D := (2 ^ b).

(** The modulus [2 ^ L] of the input, digits of [e - b] bits, and errors of at most
    [rho] that every round restores. *)
Record large_precision : Prop := {
  lp_q : m_q lw = q;
  lp_b : 1 <= b < e;
  lp_L : e < L;
  lp_size : 2 * L - e + b <= 52;
  lp_word : L <= wbits - 4 - 4;
  lp_tau : 0 <= tau /\ 0 <= rho;
  lp_margin : 2 * (rho + tau) < D;
  lp_rho : 2 * tau * D + 3 * q * (1 + weight sk) < 2 * q * (rho + 1);
  lp_rounds : forall j, e <= j <= L -> func_params Q psi k params e (2 ^ j) /\
                func_budget Q ceil_log params (2 ^ j) skN qs sk noise keys E eta tau EK;
  lp_last : forall j, 2 <= j <= e -> func_params Q psi k params j q;
  lp_rotation : forall j, 2 <= j <= e -> BlindRotation Q psi k rg (m_data skN) eps j A noise keys
}.
Context (Hlp : large_precision).
Abbreviation beta := (2 ^ (b - 1)).

Lemma D_beta : D = 2 * beta /\ 0 < beta.
Proof.
  destruct (lp_b Hlp). pose proof (pow2_pos (b - 1) ltac:(lia)). split; [|done].
  replace b with (1 + (b - 1)) at 1 by lia. rewrite Z.pow_add_r by lia. lia.
Qed.

Lemma pow_split i j : 0 <= i -> 0 <= j -> 2 ^ (i + j) = 2 ^ i * 2 ^ j.
Proof. intros. by apply Z.pow_add_r. Qed.

(** A modulus of the loop. *)
Lemma pow_size j : 0 <= j <= L -> GetMSB (2 ^ j) <= MAX_MODULUS_SIZE.
Proof.
  intros Hj. pose proof (lp_word Hlp). pose proof (pow2_pos j ltac:(lia)). rewrite GetMSB_log2, Z.log2_pow2 by lia.
  unfold MAX_MODULUS_SIZE. destruct wbits_cases as [Ew|Ew]; rewrite Ew in *; cbn; lia.
Qed.

(** ** One round *)

Section Round.
Context (l m : Z) (Hl : e < l <= L) (Hm : 0 <= m < 2 ^ (l - b)).
Abbreviation M := (2 ^ l).

Lemma digit_phase ct : holds sk M (m * D) rho ct ->
  let x := (phase sk ct + beta) mod M in
  exists err, Z.abs err <= rho /\ x = m * D + beta + err /\
    tau <= x mod 2 ^ (e - 1) /\ x mod 2 ^ (e - 1) + tau < 2 ^ (e - 1) /\ x / q = m / 2 ^ (e - b).
Proof.
  intros (Wct & err & Herr & P) x. destruct D_beta as [ED Hb0]. destruct (lp_b Hlp) as [Hb1 Hb2]. destruct (lp_tau Hlp). pose proof (lp_margin Hlp).
  assert (M = 2 ^ (l - b) * D) as EM by (rewrite <- pow_split by lia; f_equal; lia).
  assert (x = m * D + beta + err) as Ex.
  { symmetry. apply eqmod_unique; [nia|]. rewrite P. apply eqmod_eq. ring. }
  exists err. split; [done|]. split; [done|].
  rewrite Ex. destruct (middle_bits m b (e - 1) err ltac:(lia) ltac:(lia)) as [-> _]. destruct (middle_bits m b e err ltac:(lia) ltac:(lia)) as [_ ->].
  pose proof (pow2_pos (e - 1 - b) ltac:(lia)). pose proof (mod_range m (2 ^ (e - 1 - b)) ltac:(lia)).
  assert (2 ^ (e - 1) = 2 ^ (e - 1 - b) * D) as Eh by (rewrite <- pow_split by lia; f_equal; lia). split_and!; [nia | rewrite Eh; nia | done].
Qed.

Abbreviation l' := (l - e + b).
Abbreviation M' := (2 ^ l').

(** The next modulus, as the code computes it. *)
Lemma next_modulus : (d ← DividedBy M q; Ok (Mul (Mul d 2) beta)) = Ok M'.
Proof.
  destruct D_beta as [ED Hb0]. destruct (lp_b Hlp) as [Hb1 Hb2]. pose proof (lp_word Hlp). pose proof wbits_range.
  rewrite DividedBy_pos, bind_Ok by (apply pow2_pos; lia). f_equal.
  assert (M / q = 2 ^ (l - e)) as -> by (rewrite Z.pow_sub_r by lia; done).
  assert (2 ^ (l - e) * 2 * beta = M') as EM' by (rewrite <- Z.mul_assoc, <- ED, <- pow_split by lia; f_equal; lia).
  pose proof (pow2_pos (l - e) ltac:(lia)). assert (M' < 2 ^ wbits) by (apply Z.pow_lt_mono_r; lia).
  unfold Mul, MulFast. rewrite (wrap_small (_ * 2)) by nia. rewrite wrap_small; lia.
Qed.

(** Scaling from [2 ^ l] to the next modulus. *)
Lemma round_switch ct : holds sk M (m / 2 ^ (e - b) * q) tau ct ->
  returns (ModSwitch M' ct) (holds sk M' (m / 2 ^ (e - b) * D) rho).
Proof.
  intros (Wct & err & Herr & P). destruct (lp_b Hlp) as [Hb1 Hb2]. pose proof (lp_size Hlp). pose proof (lp_rho Hlp) as Hrho.
  assert (switch_ok M' M) as Hs.
  { split; [apply pow2_pos; lia | apply pow_size; lia | apply (Z.pow_lt_mono_r 2 0); lia |].
    rewrite <- pow_split by lia. apply Z.pow_le_mono_r; lia. }
  eapply returns_mono; [by apply (ModSwitch_ok n M' M sk ct Hs Wct)|]. intros ct' (W' & d & Ed & Hd). split; [done|].
  pose proof (pow2_pos l ltac:(lia)) as HM. pose proof (pow2_pos l' ltac:(lia)) as HM'. set (m1 := m / 2 ^ (e - b)) in *.
  assert (M' * q = M * D) as Escale by (rewrite <- !pow_split by lia; f_equal; lia).
  apply eqmod_divide in Ed as [j Ej]; [|nia]. apply eqmod_divide in P as [i Ei]; [|lia].
  exists (phase sk ct' - m1 * D - (i + j) * M'). split; [|rewrite <- (eqmod_multiple M' (m1 * D + _) (i + j)); apply eqmod_eq; ring].
  set (er := phase sk ct' - m1 * D - (i + j) * M').
  assert (M * er = M' * err + d) as Eer.
  { unfold er. replace (M * (phase sk ct' - m1 * D - (i + j) * M')) with (M * phase sk ct' - m1 * (M * D) - (i + j) * (M * M')) by ring.
    rewrite <- Escale. replace (M * phase sk ct') with (M' * phase sk ct + d + j * (M * M')) by lia.
    replace (phase sk ct) with (m1 * q + err + i * M) by lia. ring. }
  pose proof (pow2_pos e ltac:(lia)) as Hq0. pose proof (pow2_pos b ltac:(lia)) as HD0.
  (* in units of 1 / q *)
  assert (Z.abs (q * M * (2 * er)) < q * M * (2 * (rho + 1))) as Hlt.
  { replace (q * M * (2 * er)) with (2 * q * (M * er)) by ring. rewrite Eer.
    replace (2 * q * (M' * err + d)) with (2 * (M' * q) * err + q * (2 * d)) by ring. rewrite Escale.
    assert (Z.abs (2 * (M * D) * err) <= 2 * (M * D) * tau) by (rewrite Z.abs_mul, (Z.abs_eq (2 * (M * D))) by nia; apply Z.mul_le_mono_nonneg_l; nia).
    assert (Z.abs (q * (2 * d)) <= q * (3 * M * (1 + weight sk))) by (rewrite Z.abs_mul, (Z.abs_eq q) by lia; apply Z.mul_le_mono_nonneg_l; lia).
    assert (M * (2 * tau * D + 3 * q * (1 + weight sk)) < M * (2 * q * (rho + 1))) by (apply Z.mul_lt_mono_pos_l; lia). lia. }
  rewrite Z.abs_mul, (Z.abs_eq (q * M)) in Hlt by nia. apply Z.mul_lt_mono_pos_l in Hlt; [lia | nia].
Qed.
End Round.
(** ** The loop *)

Context (EKs : gmap Z RingGSWBTKey) (Hsize : size EKs <> 3%nat).
Abbreviation step := (e - b).

Lemma round_next l m ct : e < l <= L -> 0 <= m < 2 ^ (l - b) -> holds sk (2 ^ l) (m / 2 ^ step * q) tau ct ->
  returns (next_round ceil_log ceil_log2 params EKs EK ct (2 ^ l) q beta) (fun r =>
    exists ct', r = (params, EK, ct', 2 ^ (l - e + b)) /\ holds sk (2 ^ (l - e + b)) (m / 2 ^ step * D) rho ct').
Proof.
  intros Hl Hm Hct. unfold next_round. rewrite next_modulus, bind_Ok by done.
  eapply returns_bind; [by apply round_switch|]. intros ct' Hct'. rewrite (proj2 (Nat.eqb_neq _ _)) by done. cbn [returns]. by exists ct'.
Qed.

(** The digits that the rounds from [2 ^ l] find. *)
Definition digits_hold (m : Z) (ds : list LWECiphertextImpl) : Prop :=
  forall i ct, ds !! i = Some ct -> holds sk q (m / 2 ^ (Z.of_nat i * step) * D) rho ct.

Lemma digit_holds l m ct : e < l <= L -> holds sk (2 ^ l) (m * D) rho ct -> returns (LWE_SetModulus ct q) (holds sk q (m * D) rho).
Proof.
  intros Hl (Wct & err & Herr & P). destruct (lp_b Hlp). assert (q | 2 ^ l) as Hd by (exists (2 ^ (l - e)); rewrite <- pow_split by lia; f_equal; lia).
  eapply returns_mono; [apply (LWE_SetModulus_phase n (2 ^ l) q sk ct Wct eq_refl Hd); [|apply pow_size; lia]|].
  - apply (Z.lt_le_trans _ (2 ^ 2)); [lia|]. apply Z.pow_le_mono_r; lia.
  - intros ct' [W' P']. split; [done|]. exists err. split; [done|]. rewrite P'. destruct P as [P]. constructor.
    rewrite <- (Z.mod_mod_divide _ _ _ Hd), P. by apply Z.mod_mod_divide.
Qed.

(** What [r] rounds from [2 ^ l] leave. *)
Definition rounds_done (l m : Z) (digits digits' : option (list LWECiphertextImpl)) (ct' : LWECiphertextImpl) : Prop :=
  exists (r : nat) ds, b < l - Z.of_nat r * step <= e /\
    digits' = option_map (fun ret => ret ++ ds) digits /\ (digits <> None -> length ds = r /\ digits_hold m ds) /\
    holds sk (2 ^ (l - Z.of_nat r * step)) (m / 2 ^ (Z.of_nat r * step) * D) rho ct'.

Lemma div_pow_step m i j : 0 <= i -> 0 <= j -> m / 2 ^ i / 2 ^ j = m / 2 ^ (i + j).
Proof. intros Hi Hj. pose proof (pow2_pos i Hi). pose proof (pow2_pos j Hj). rewrite pow_split, Z.div_div by lia. done. Qed.

Lemma rounds_done_step l m digits ctq digits' ct' : (digits <> None -> holds sk q (m * D) rho ctq) ->
  rounds_done (l - step) (m / 2 ^ step) (option_map (fun ret => ret ++ [ctq]) digits) digits' ct' -> rounds_done l m digits digits' ct'.
Proof.
  intros Hq (r & ds & Hr' & -> & Hds & Hct). destruct (lp_b Hlp). exists (S r), (ctq :: ds).
  replace (l - Z.of_nat (S r) * step) with (l - step - Z.of_nat r * step) by lia.
  replace (m / 2 ^ (Z.of_nat (S r) * step)) with (m / 2 ^ step / 2 ^ (Z.of_nat r * step)) by (rewrite div_pow_step by nia; do 2 f_equal; lia).
  split_and!; [lia | lia | destruct digits; cbn; [by rewrite <- app_assoc | done] | | done].
  intros Hd. destruct Hds as [Hlen Hds]; [by destruct digits|]. split; [cbn; lia|]. intros [|i] ct; cbn.
  - intros [= <-]. rewrite Z.mul_0_l, Z.pow_0_r, Z.div_1_r. by apply Hq.
  - intros Hi. replace (m / 2 ^ (Z.of_nat (S i) * step)) with (m / 2 ^ step / 2 ^ (Z.of_nat i * step)) by (rewrite div_pow_step by nia; do 2 f_equal; lia).
    by apply Hds.
Qed.

Lemma sign_rounds_ok fuel l m ct digits c :
  b < l <= L -> l - e <= Z.of_nat fuel -> 0 <= m < 2 ^ (l - b) -> holds sk (2 ^ l) (m * D) rho ct -> cache_for Q psi k c ->
  returns (sign_rounds af ai ceil_log A ceil_log2 fuel params EKs EK ct (2 ^ l) q beta digits c)
    (fun '(params', EK', ct', digits', c') => params' = params /\ EK' = EK /\ cache_for Q psi k c' /\ rounds_done l m digits digits' ct').
Proof.
  destruct (lp_b Hlp) as [Hb1 Hb2]. destruct D_beta as [ED Hb0]. revert l m ct digits c.
  induction fuel as [|fuel IH]; intros l m ct digits c Hl Hfuel Hm Hct Hc; cbn [sign_rounds]; rewrite Z.gtb_ltb.
  all: destruct (Z_le_gt_dec l e) as [Hle|Hgt];
    [rewrite (proj2 (Z.ltb_ge _ _)) by (apply Z.pow_le_mono_r; lia); cbn [negb]; split_and!; try done; exists 0%nat, [];
     rewrite Z.mul_0_l, Z.sub_0_r, Z.pow_0_r, Z.div_1_r; split_and!; [lia | lia | destruct digits; cbn; by rewrite ?app_nil_r |
       intros _; split; [done | by intros i ct0 Hi] | done]
    | rewrite (proj2 (Z.ltb_lt _ _)) by (apply Z.pow_lt_mono_r; lia); cbn [negb]].
  { exfalso. lia. }
  destruct (lp_rounds Hlp l ltac:(lia)) as [Hfp Hbud]. pose proof (lp_rotation Hlp e ltac:(lia)) as HBR.
  destruct (digit_phase l m ltac:(lia) Hm ct Hct) as (err & Herr & Ex & Hlo & Hhi & Ediv).
  assert (returns match digits with None => Ok None | Some ret => ctq ← LWE_SetModulus ct q; Ok (Some (ret ++ [ctq])) end
    (fun d => exists ctq, d = option_map (fun ret => ret ++ [ctq]) digits /\ (digits <> None -> holds sk q (m * D) rho ctq))) as Hdig.
  { destruct digits as [ret|]; [|by exists ct]. eapply returns_bind; [by apply (digit_holds l); [lia|]|]. intros ctq Hq. by exists ctq. }
  eapply returns_bind; [exact Hdig|]. intros d (ctq & -> & Hctq).
  assert (0 <= beta < 2 ^ l) as Hbeta by (split; [lia|]; apply Z.pow_lt_mono_r; lia).
  assert (q | 2 ^ l) as Hdiv by (exists (2 ^ (l - e)); rewrite <- pow_split by lia; f_equal; lia).
  assert (q <= 2 ^ l) as Hle by (apply Z.pow_le_mono_r; lia).
  eapply returns_bind; [apply (EvalFloor_holds Q psi k Hr af ai ceil_log params skN HmN HsN qs sk Hsk eps noise A keys E eta tau (proj1 (lp_tau Hlp)) EK
    e (2 ^ l) Hfp Hle Hbud Hdiv (pow_size e ltac:(pose proof (lp_L Hlp); lia)) ct beta 0 c (f_equal Ok (lp_q Hlp)) (proj1 Hct) Hbeta Hlo Hhi Hc)|].
  intros [ct1 c1] [Hct1 Hc1]. rewrite Ediv in Hct1.
  eapply returns_bind; [apply (round_next l m); [lia | done | done]|]. intros [[[params' EK'] ct2] M2] (ct2' & [= -> -> -> ->] & Hct2).
  replace (l - e + b) with (l - step) in * by lia.
  eapply returns_mono; [apply (IH (l - step) (m / 2 ^ step)); [lia | lia | | done | done]|].
  - split; [apply Z.div_pos; [lia | apply pow2_pos; lia]|]. apply Z.div_lt_upper_bound; [apply pow2_pos; lia|].
    rewrite <- pow_split by lia. replace (step + (l - step - b)) with (l - b) by lia. lia.
  - intros [[[[params' EK'] ct'] digits'] c'] (-> & -> & Hc' & Hdone). split_and!; try done. by apply (rounds_done_step l m digits ctq).
Qed.

(** ** The whole calls *)

Context (HEK : EKs !! GetBaseG rg = Some EK).

Lemma same_base : set_rgsw params (Change_BaseG ceil_log rg (GetBaseG rg)) = params.
Proof. unfold Change_BaseG. rewrite Z.eqb_refl. by destruct params. Qed.

(** The highest bit of the plaintext is that of its last digit. *)
Lemma top_bit m (r : nat) lf : 0 <= m -> lf = L - Z.of_nat r * step -> b < lf ->
  (m / 2 ^ (Z.of_nat r * step) <? 2 ^ (lf - 1 - b)) = (m <? 2 ^ (L - 1 - b)).
Proof.
  intros Hm -> Hlf. destruct (lp_b Hlp). pose proof (pow2_pos (Z.of_nat r * step) ltac:(nia)).
  replace (2 ^ (L - 1 - b)) with (2 ^ (Z.of_nat r * step) * 2 ^ (L - Z.of_nat r * step - 1 - b)) by (rewrite <- pow_split by nia; f_equal; lia).
  set (u := 2 ^ (Z.of_nat r * step)) in *. set (v := 2 ^ (L - Z.of_nat r * step - 1 - b)).
  destruct (Z.ltb_spec m (u * v)) as [Hlt|Hge]; [apply Z.ltb_lt, Z.div_lt_upper_bound; lia | apply Z.ltb_ge, Z.div_le_lower_bound; lia].
Qed.

Lemma sign_function_ok j x : 2 <= j <= e -> 0 <= x < 2 ^ j -> sign_function x (2 ^ j) q = Ok (odd_function j q (fun _ => q / 4) x).
Proof.
  intros Hj Hx. pose proof (lp_last Hlp j Hj) as Hfp. destruct (q_halves _ _ _ _ _ _ Hfp) as (E1 & E2 & E3 & E4).
  pose proof (fmod_word Q psi k Hr params j q Hfp). pose proof (Z.div_le_upper_bound q 4 q ltac:(lia) ltac:(lia)). pose proof (Z.div_pos q 4 ltac:(lia) ltac:(lia)).
  unfold sign_function, odd_function. rewrite !DividedBy_pos, !bind_Ok, E2 by lia. f_equal.
  destruct (_ <? _); [done|]. unfold Sub, SubFast. by rewrite wrap_small by lia.
Qed.

(** The last bootstrapping: 0 or half the modulus. *)
Lemma last_bit j m ct c : b < j <= e -> 0 <= m < 2 ^ (j - b) -> holds sk (2 ^ j) (m * D) rho ct -> cache_for Q psi k c ->
  returns (BootstrapFunc af ai ceil_log A params EK (EvalAddConstEq ct beta) sign_function q c) (fun '(ct', c') =>
    holds sk q (if m <? 2 ^ (j - 1 - b) then q / 4 else q - q / 4) tau ct' /\ cache_for Q psi k c').
Proof.
  intros Hj Hm (Wct & err & Herr & P) Hc. destruct D_beta as [ED Hb0]. destruct (lp_b Hlp) as [Hb1 Hb2]. pose proof (lp_L Hlp). pose proof (lp_margin Hlp).
  destruct (lp_tau Hlp). assert (2 <= j <= e) as Hj2 by lia. pose proof (lp_last Hlp j Hj2) as Hfp. pose proof (lp_rotation Hlp j Hj2) as HBR.
  destruct (lp_rounds Hlp e ltac:(lia)) as [_ Hbud]. pose proof (pow2_pos e ltac:(lia)) as Hq0.
  assert (0 <= beta < 2 ^ j) as Hbeta by (split; [lia|]; apply Z.pow_lt_mono_r; lia).
  destruct (EvalConst_phase n (2 ^ j) ct beta Wct Hbeta) as ([W1 _] & P1 & _).
  assert (2 ^ j = 2 ^ (j - b) * D) as Ej by (rewrite <- pow_split by lia; f_equal; lia).
  assert (2 ^ (j - 1) = 2 ^ (j - 1 - b) * D) as Eh by (rewrite <- pow_split by lia; f_equal; lia).
  eapply returns_mono; [eapply (BootstrapFunc_holds Q psi k Hr af ai ceil_log params j q Hfp skN HmN HsN qs sk Hsk eps noise A keys E eta tau EK Hbud
    sign_function (odd_function j q (fun _ => q / 4)))|].
  - intros x Hx. by apply sign_function_ok.
  - intros x Hx. apply (odd_function_range Q psi k params j q Hfp); [|done]. intros y _.
    split; [apply Z.div_pos; lia | apply Z.div_le_upper_bound; lia].
  - intros x Hx. by apply (odd_function_negacyclic Q psi k params j q Hfp).
  - done.
  - done.
  - intros [ct' c'] [H' Hc']. split; [|done]. replace (phase sk (EvalAddConstEq ct beta) mod 2 ^ j) with (m * D + beta + err) in H'.
    2: { apply eqmod_unique; [nia|]. rewrite P1, P. apply eqmod_eq. ring. }
    unfold odd_function in H'. replace (m * D + beta + err <? 2 ^ (j - 1)) with (m <? 2 ^ (j - 1 - b)) in H'; [done|].
    rewrite Eh. destruct (Z.ltb_spec m (2 ^ (j - 1 - b))); symmetry; [apply Z.ltb_lt | apply Z.ltb_ge]; nia.
Qed.

Lemma EvalSign_holds fuel m ct c : L - e <= Z.of_nat fuel -> 0 <= m < 2 ^ (L - b) -> holds sk (2 ^ L) (m * D) rho ct -> cache_for Q psi k c ->
  returns (EvalSign af ai ceil_log A ceil_log2 fuel params EKs ct beta c) (fun '(ct', params', c') =>
    holds sk q (if m <? 2 ^ (L - 1 - b) then 0 else q / 2) tau ct' /\ params' = params /\ cache_for Q psi k c').
Proof.
  intros Hfuel Hm Hct Hc. destruct (lp_b Hlp) as [Hb1 Hb2]. pose proof (lp_L Hlp) as HL. pose proof (pow2_pos e ltac:(lia)) as Hq0.
  unfold EvalSign, Lwe.GetModulus. rewrite (cw_modulus _ _ _ (proj1 Hct)), (lp_q Hlp), HEK.
  rewrite (proj2 (Z.leb_gt _ _)) by (apply Z.pow_lt_mono_r; lia).
  eapply returns_bind; [apply (sign_rounds_ok fuel L m); [lia | done | done | done | done]|].
  intros [[[[params' EK'] ct1] d] c1] (-> & -> & Hc1 & r & ds & Hlf & _ & _ & Hct1). set (lf := L - Z.of_nat r * step) in *.
  set (mf := m / 2 ^ (Z.of_nat r * step)) in *. pose proof (pow2_pos (Z.of_nat r * step) ltac:(nia)) as Hr0.
  assert (0 <= mf < 2 ^ (lf - b)) as Hmf.
  { split; [apply Z.div_pos; lia|]. apply Z.div_lt_upper_bound; [done|]. rewrite <- pow_split by nia. replace (_ + _) with (L - b) by lia. lia. }
  eapply returns_bind; [by apply (last_bit lf mf)|]. intros [ct2 c2] [(W2 & err & Herr & P2) Hc2].
  unfold mf in P2. rewrite (top_bit m r lf) in P2 by lia.
  rewrite same_base. unfold RShift. rewrite ushr_ok, bind_Ok by (pose proof wbits_range; lia). change (2 ^ 2) with 4. cbn [returns].
  assert (0 <= q / 4 < q) as Hq4 by (split; [apply Z.div_pos | apply Z.div_lt]; lia).
  destruct (EvalConst_phase n q ct2 (q / 4) W2 Hq4) as ([_ W3] & _ & P3 & _). split_and!; [split; [done|] | done | done]. exists err. split; [done|]. rewrite P3, P2.
  destruct (q_halves _ _ _ _ _ _ (lp_last Hlp e ltac:(lia))) as (E1 & E2 & E3 & _).
  destruct (m <? _); [apply eqmod_eq; ring|]. apply eqmod_eq. lia.
Qed.

(** The digits, from the lowest one; the last ciphertext keeps the modulus that is
    left. *)
Lemma EvalDecomp_holds fuel m ct c : L - e <= Z.of_nat fuel -> 0 <= m < 2 ^ (L - b) -> holds sk (2 ^ L) (m * D) rho ct -> cache_for Q psi k c ->
  returns (EvalDecomp af ai ceil_log A ceil_log2 fuel params EKs ct beta c) (fun '(ret, params', c') =>
    (exists (r : nat) ds last, ret = ds ++ [last] /\ length ds = r /\ b < L - Z.of_nat r * step <= e /\ digits_hold m ds /\
      holds sk (2 ^ (L - Z.of_nat r * step)) (m / 2 ^ (Z.of_nat r * step) * D) rho last) /\
    params' = params /\ cache_for Q psi k c').
Proof.
  intros Hfuel Hm Hct Hc. destruct (lp_b Hlp) as [Hb1 Hb2]. pose proof (lp_L Hlp) as HL. 
  unfold EvalDecomp, Lwe.GetModulus. rewrite (cw_modulus _ _ _ (proj1 Hct)), (lp_q Hlp), HEK.
  rewrite (proj2 (Z.leb_gt _ _)) by (apply Z.pow_lt_mono_r; lia).
  eapply returns_bind; [apply (sign_rounds_ok fuel L m); [lia | done | done | done | done]|].
  intros [[[[params' EK'] ct1] d] c1] (-> & -> & Hc1 & r & ds & Hlf & -> & Hds & Hct1). destruct (Hds ltac:(done)) as [Hlen Hd].
  rewrite same_base. cbn [returns option_map default]. split_and!; try done. by exists r, ds, ct1.
Qed.
End Sign.
