(* ===== verification/BinProps.v ===== *)
(** * Properties of the Boolean scheme *)
From stdpp Require Import base numbers list gmap.
From Stdlib Require Import ZArith Lia.
From S2P Require Import Prelude Bits NativeInt NativeIntProps NativeVector Ntt NttProps FttProps NbTheory Poly PolyProps PolyDigitProps PolyAlg Lwe LweProps LweSwitch Rgsw RgswDigits RgswRing RgswKeys RgswAcc RgswEval RgswKeyGen BinFHE BinExtract BinRotation BinBoot BinGate BinScheme BinFunc.
Open Scope Z_scope.

Section Claims.
Context `{W : NativeWidth}.
Context (Q psi : Z) (k : nat) (g : Z) (dg : nat) (params : BinFHECryptoParams) (e : Z).
Context (af ai : NativeVectorT -> ILParams -> outcome NativeVectorT) (ceil_log : Z -> Z -> Z).
Abbreviation rg := (GetRingGSWParams params).
Abbreviation q := (2 ^ e).

(** The parameters of the ring, of the gadget and of the secrets. *)
Record ring_ok (skN : NativeVectorT) (eps sigma kappa : Z) : Prop := {
  rk_root : root_ok Q psi k;
  rk_gsw : gsw_params Q psi k g dg rg;
  rk_dimension : (10 <= k)%nat;
  rk_bounds : 0 <= eps /\ 0 <= sigma /\ 0 <= kappa;
  rk_secret : near Q sigma (m_data skN);
  rk_carries : carries_below Q g dg kappa
}.

(** [C1] A Boolean gate is correct from end to end with the CGGI accumulator: for every
    gate, generating the bootstrapping keys, encrypting two bits, evaluating the
    gate by bootstrapping and decrypting returns the bit of the truth table, for all
    samples within the noise budget of the parameters. *)
Theorem CGGI_gate_correct qs sk skN eps sigma kappa eta tau tau1 gate (b1 b2 : bool) E V U Err err1 a1 err2 a2 c :
  ring_ok skN eps sigma kappa -> cggi_params Q psi k dg rg -> secrets_ok Q k qs sk skN ->
  scheme_ok Q psi k ceil_log params e sk skN (cggi_bound k g dg eps sigma kappa) eta tau ->
  decrypt_ok (GetLength sk) q 4 -> keygen_samples Q k params sk eps eta E V U Err ->
  encryption_sample e sk err1 a1 tau1 -> encryption_sample e sk err2 a2 tau1 ->
  (if fast gate then 4 * tau1 else 2 * tau1) < q / 8 -> 2 * tau < q / 8 -> cache_for Q psi k c ->
  ('(EK, c) ← BinFHE_KeyGen af ai ceil_log (RingGSWAccumulatorCGGI af ai) params sk skN E V U Err c;
   ct1 ← Encrypt sk (Z.b2z b1) 4 q err1 a1;
   ct2 ← Encrypt sk (Z.b2z b2) 4 q err2 a2;
   '(ct, _) ← EvalBinGate af ai ceil_log (RingGSWAccumulatorCGGI af ai) params gate EK false ct1 ct2 c;
   Decrypt sk ct 4) = Ok (Z.b2z (gate_bool gate b1 b2)).
Proof.
  intros [Hr Hp Hk H0 Hsig Hcar] Hcp Hse Hsc Hd. pose proof (ga_e _ _ _ _ _ (sc_gate _ _ _ _ _ _ _ _ _ _ _ Hsc)) as He.
  pose proof (CGGI_BlindRotation Q psi k Hr af ai g dg rg Hp (m_data skN) (se_ring _ _ _ _ _ Hse) eps sigma kappa H0 Hsig Hcar e ltac:(lia) Hcp).
  by eapply (gate_pipeline Q psi k Hr).
Qed.

(** [C7] A Boolean gate is correct from end to end with the Ducas-Micciancio
    accumulator, although AddToAccDM leaves the first row out of its sums: key
    generation, encryption, the gate and decryption return the bit of the truth
    table. *)
Theorem DM_gate_correct R nd qs sk skN eps sigma kappa eta tau tau1 gate (b1 b2 : bool) E V U Err err1 a1 err2 a2 c :
  ring_ok skN eps sigma kappa -> dm_params rg e R nd -> secrets_ok Q k qs sk skN ->
  scheme_ok Q psi k ceil_log params e sk skN (Z.of_nat nd * dm_bound k g dg eps sigma kappa) eta tau ->
  decrypt_ok (GetLength sk) q 4 -> keygen_samples Q k params sk eps eta E V U Err ->
  encryption_sample e sk err1 a1 tau1 -> encryption_sample e sk err2 a2 tau1 ->
  (if fast gate then 4 * tau1 else 2 * tau1) < q / 8 -> 2 * tau < q / 8 -> cache_for Q psi k c ->
  ('(EK, c) ← BinFHE_KeyGen af ai ceil_log (RingGSWAccumulatorDM af ai) params sk skN E V U Err c;
   ct1 ← Encrypt sk (Z.b2z b1) 4 q err1 a1;
   ct2 ← Encrypt sk (Z.b2z b2) 4 q err2 a2;
   '(ct, _) ← EvalBinGate af ai ceil_log (RingGSWAccumulatorDM af ai) params gate EK false ct1 ct2 c;
   Decrypt sk ct 4) = Ok (Z.b2z (gate_bool gate b1 b2)).
Proof.
  intros [Hr Hp Hk H0 Hsig Hcar] Hcp Hse Hsc Hd. pose proof (ga_e _ _ _ _ _ (sc_gate _ _ _ _ _ _ _ _ _ _ _ Hsc)) as He.
  pose proof (DM_BlindRotation Q psi k Hr af ai g dg rg Hp (m_data skN) (se_ring _ _ _ _ _ Hse) eps sigma kappa H0 Hsig Hcar e ltac:(lia) R nd Hcp).
  by eapply (gate_pipeline Q psi k Hr).
Qed.

(** [C28] Bootstrapping an encryption of a bit returns an encryption of the same bit
    whose error does not depend on the error of the input. *)
Theorem Bootstrap_refreshes qs sk skN eps sigma kappa eta tau tau1 (b : bool) E V U Err err a c :
  ring_ok skN eps sigma kappa -> cggi_params Q psi k dg rg -> secrets_ok Q k qs sk skN ->
  scheme_ok Q psi k ceil_log params e sk skN (cggi_bound k g dg eps sigma kappa) eta tau ->
  decrypt_ok (GetLength sk) q 4 -> keygen_samples Q k params sk eps eta E V U Err ->
  encryption_sample e sk err a tau1 -> tau1 < q / 8 -> cache_for Q psi k c ->
  returns ('(EK, c) ← BinFHE_KeyGen af ai ceil_log (RingGSWAccumulatorCGGI af ai) params sk skN E V U Err c;
           ct ← Encrypt sk (Z.b2z b) 4 q err a;
           Bootstrap af ai ceil_log (RingGSWAccumulatorCGGI af ai) params EK ct c)
    (fun '(ct, _) => encrypts sk q (Z.b2z b) tau ct).
Proof.
  intros [Hr Hp Hk H0 Hsig Hcar] Hcp Hse Hsc Hd HS Hen Ht Hc. pose proof (sc_gate _ _ _ _ _ _ _ _ _ _ _ Hsc) as Hgp. pose proof (ga_e _ _ _ _ _ Hgp) as He.
  pose proof (CGGI_BlindRotation Q psi k Hr af ai g dg rg Hp (m_data skN) (se_ring _ _ _ _ _ Hse) eps sigma kappa H0 Hsig Hcar e ltac:(lia) Hcp) as HBR.
  eapply returns_bind; [by eapply (KeyGen_ok Q psi k Hr)|]. intros [EK c1] [HEK Hc1].
  eapply returns_bind; [by eapply encryption_encrypts|]. intros ct Hct. destruct Hse as [Hsk _ HsN HmN].
  eapply returns_mono; [by eapply (Bootstrap_encrypts Q psi k Hr af ai ceil_log params e Hgp skN HmN HsN qs sk Hsk)|]. intros [ct' c'] [H _]. exact H.
Qed.

(** [C26] With a ring dimension below 1024 every gate and every bootstrapping has
    undefined behaviour, whatever the accumulator and the keys: the trace of the
    accumulator's initial value reads 1024 entries. *)
Theorem gate_trace_out_of_bounds A gate EK ek n ct1 ct2 c :
  root_ok Q psi k -> gate_params Q psi k params e -> (k < 10)%nat -> BSkey EK = Some ek ->
  ct_wf n q ct1 -> ct_wf n q ct2 ->
  EvalBinGate af ai ceil_log A params gate EK false ct1 ct2 c = UB /\ Bootstrap af ai ceil_log A params EK ct1 c = UB.
Proof.
  intros Hr Hgp Hk Hek W1 W2. set (sk0 := mkVector (repeat 0 n) 0). assert (GetLength sk0 = n) as En by apply repeat_length.
  assert (forall gate ct, basic gate = true -> ct_wf n q ct -> BootstrapGateCore af ai A params gate (Some ek) ct c = UB) as HUB.
  { intros gate' ct' Hb' W'. rewrite <- En in W'. rewrite (BootstrapGateCore_table Q psi k Hr af ai params e Hgp sk0 A ek ct' W') by done.
    rewrite (trace_vector_short e); [done|]. rewrite length_sparse. apply (Nat.lt_le_trans _ (2 ^ 10)); [|done]. apply Nat.pow_lt_mono_r; lia. }
  destruct (q_eighths Q psi k params e Hgp) as (Eq & Hq8 & _ & E4). pose proof wbits_range. split.
  - assert (forall gate ct1 ct2, basic gate = true -> ct_wf n q ct1 -> ct_wf n q ct2 ->
      EvalBasicGate af ai ceil_log A params gate EK ct1 ct2 c = UB) as Hbasic.
    { intros gate' x y Hb' Wx Wy. destruct (EvalAdd_EvalSub_phase n q x y Wx Wy) as ((cta & Ea & Wa & _)%returns_Ok & (cts & Es & Ws & _)%returns_Ok & _).
      destruct (EvalAdd_EvalSub_phase n q cts cts Ws Ws) as ((ctd & Ed & Wd & _)%returns_Ok & _).
      unfold EvalBasicGate. destruct (_ || _); [rewrite Es, bind_Ok, Ed | rewrite Ea]; by rewrite bind_Ok, Hek, HUB. }
    unfold EvalBinGate. destruct (bool_decide (gate = XOR) || bool_decide (gate = XNOR)) eqn:Ex.
    + pose proof (EvalNOT_phase n q ct1 W1) as (x1 & E1 & _)%returns_Ok. pose proof (EvalNOT_phase n q ct2 W2) as (x2 & E2 & Wx2 & _)%returns_Ok.
      by rewrite E1, bind_Ok, E2, bind_Ok, Hbasic.
    + apply Hbasic; try done. by destruct gate.
  - unfold Bootstrap, Lwe.GetModulus. rewrite (cw_modulus _ _ _ W1). unfold RShift. rewrite ushr_ok, bind_Ok by lia. change (2 ^ 2) with 4.
    destruct (EvalConst_phase _ _ ct1 (q / 4) W1 ltac:(lia)) as ([Wp _] & _). by rewrite Hek, HUB.
Qed.
End Claims.

(** ** Tables that are not supported *)

(** [C31] A table that is neither negacyclic nor recognised as periodic makes EvalFunc
    throw not_implemented_error when the modulus exceeds the ring dimension; a
    periodic table whose first pair of entries is also opposite is not recognised. *)
Theorem EvalFunc_guard `{W : NativeWidth} af ai ceil_log A params EK ct LUT beta h c :
  (0 < h)%nat -> length LUT = (2 * h)%nat -> Lwe.GetModulus ct < 2 ^ wbits -> Forall (fun y => 0 <= y <= Lwe.GetModulus ct) LUT ->
  negacyclic_table (Lwe.GetModulus ct) LUT h = false ->
  periodic_table LUT h && negb (LUT !!! 0%nat =? Lwe.GetModulus ct - LUT !!! h) = false ->
  Z.of_nat (m_N (GetLWEParams params)) < Lwe.GetModulus ct ->
  EvalFunc af ai ceil_log A params EK ct LUT beta c = Throw not_implemented_error.
Proof.
  intros Hh Hl Hq Hr Hn Hp HN. unfold EvalFunc. rewrite (checkInputFunction_spec _ _ h), Hn, Hp, bind_Ok by done. cbn [Z.eqb].
  change (2 =? 2) with true. cbv iota. by rewrite Z.gtb_ltb, (proj2 (Z.ltb_lt _ _)).
Qed.
