(* ===== verification/BinWitness.v ===== *)
(** * A concrete instance of the Boolean scheme

    Dimension 1024, the largest 27-bit prime that is one modulo 2048, LWE modulus
    1024, an LWE secret of one coefficient. *)
From stdpp Require Import base numbers list gmap.
From Stdlib Require Import ZArith Lia.
From S2P Require Import Prelude Bits NativeInt NativeIntProps NativeVector Ntt NttProps FttProps NbTheory Poly PolyProps PolyDigitProps PolyAlg Lwe LweProps LweSwitch Rgsw RgswDigits RgswRing RgswKeys RgswAcc RgswEval RgswKeyGen BinFHE BinExtract BinRotation BinBoot BinGate BinScheme BinProps.
Open Scope Z_scope.

(** Primality by trial division: no number in [d .. d + n) divides [p]. *)
Fixpoint no_divisor (n : nat) (p d : Z) : bool :=
  match n with O => true | S n => negb (p mod d =? 0) && no_divisor n p (d + 1) end.

Lemma no_divisor_spec n p d m : 0 < d -> no_divisor n p d = true -> d <= m < d + Z.of_nat n -> ~ (m | p).
Proof.
  revert d. induction n as [|n IH]; intros d Hd H Hm; [lia|]. cbn [no_divisor] in H. apply andb_true_iff in H as [H1 H2].
  destruct (Z.eq_dec m d) as [->|]; [|apply (IH (d + 1)); [lia | done | lia]].
  intros Hdiv. apply Z.mod_divide in Hdiv; [|lia]. by rewrite Hdiv in H1.
Qed.

Lemma no_divisor_prime n p : 1 < p -> 2 + Z.of_nat n <= p -> p < (Z.of_nat n + 2) ^ 2 -> no_divisor n p 2 = true -> Z.prime p.
Proof.
  intros Hp Hle Hsq H. split; [done|]. intros d Hd Hdiv.
  assert (forall m, 1 < m < 2 + Z.of_nat n -> ~ (m | p)) as Hno by (intros m Hm; apply (no_divisor_spec n p 2); [lia | done | lia]).
  destruct (Z_lt_ge_dec d (2 + Z.of_nat n)) as [Hlt|Hge]; [apply (Hno d); [lia | done]|].
  destruct Hdiv as [m Em]. apply (Hno m); [nia|]. exists d. lia.
Qed.

(** Powers by repeated squaring. *)
Fixpoint squares (q : Z) (n : nat) (x : Z) : Z := match n with O => x | S n => squares q n (x * x mod q) end.

Lemma squares_pow q n x : x ^ 2 ^ Z.of_nat n ==[q] squares q n x.
Proof.
  revert x. induction n as [|n IH]; intros x; cbn [squares]; [by rewrite Z.pow_1_r|].
  rewrite <- IH, Nat2Z.inj_succ, Z.pow_succ_r, Z.pow_mul_r, Z.pow_2_r by lia. apply eqmod_pow. by rewrite eqmod_mod.
Qed.

Definition Q27 : Z := 134215681.
Definition psi27 : Z := 4073518.

Lemma prime27 : Z.prime Q27.
Proof. apply (no_divisor_prime (Z.to_nat 11584)); [done | done | done |]. vm_compute. reflexivity. Qed.

Lemma root27 : @root_ok W64 Q27 psi27 10.
Proof.
  split; [apply prime27 | done | done | lia | done |]. rewrite squares_pow. constructor. vm_compute. reflexivity.
Qed.

Definition ring27 : ILParams := Poly.mkParams 2048 1024 true Q27 psi27 0 0.

Lemma ring27_ok : ring_params Q27 psi27 10 ring27.
Proof. by split. Qed.

(** The gadget: four digits of seven bits. *)
Definition rgsw27 : RingGSWCryptoParams :=
  mkRingGSW 1024 Q27 1024 128 4 32 [1; 32] [1; 128; 16384; 2097152] ∅ ring27 [640; 896; 128; 384; 640; 128]
    (reprs Q27 psi27 10 ring27 2048 (fun _ => EVALUATION) (fun i => mono_less_one Q27 10 (Z.of_nat i))) GINX.

Definition lwe27 : LWECryptoParams := Lwe.mkParams 1 1024 1024 Q27 16384 3 3 128.
Definition params27 : BinFHECryptoParams := mkBinFHE lwe27 rgsw27.

(** The number of digits of [x] in base [b], both powers of two. *)
Definition digits_of (x b : Z) : Z := (Z.log2_up x + Z.log2_up b - 1) / Z.log2_up b.

Definition sk27 : NativeVectorT := mkVector [16383] 16384.
Definition skN27 : NativeVectorT := mkVector (1 :: repeat 0 1022 ++ [Q27 - 1]) Q27.

Lemma gsw27 : @gsw_params W64 Q27 psi27 10 7 4 rgsw27.
Proof. by split. Qed.

Lemma skN27_elem : ring_elem Q27 10 (m_data skN27).
Proof.
  split; [done|]. constructor; [done|]. apply Forall_app_2; [by apply Forall_repeat | by repeat constructor].
Qed.

Lemma skN27_near : near Q27 1 (m_data skN27).
Proof.
  constructor; [by exists 1|]. apply Forall_app_2; [apply Forall_repeat; by exists 0|]. constructor; [|constructor].
  exists (-1). split; [done|]. by constructor.
Qed.

Lemma carries27 : carries_below Q27 7 4 0.
Proof. apply (carries_none (W := W64) Q27 psi27 10 7 4 rgsw27 gsw27). vm_compute. discriminate. Qed.

Lemma ring_ok27 eps : 0 <= eps -> ring_ok (W := W64) Q27 psi27 10 7 4 params27 skN27 eps 1 0.
Proof. intros H. split; [apply root27 | apply gsw27 | lia | lia | apply skN27_near | apply carries27]. Qed.

Lemma cggi27 : cggi_params Q27 psi27 10 4 rgsw27.
Proof. split; [lia | lia | done]. Qed.

Lemma dm27 : dm_params rgsw27 10 32 2.
Proof. split; try done. intros [|[|l]] Hl; [done | done | lia]. Qed.

Lemma secrets27 : @secrets_ok W64 Q27 10 16384 sk27 skN27.
Proof.
  split; [| | apply skN27_elem | done].
  - split; [done | done | by repeat constructor |]. intros [|i]; [done|]. by destruct i.
  - split; [done | done | by repeat constructor].
Qed.

Lemma gate_params27 : gate_params Q27 psi27 10 params27 10.
Proof. split; try done. Qed.

Lemma back27 : @back_ok W64 digits_of params27 Q27 1024 sk27 skN27.
Proof. split; try done. Qed.

Lemma back_noise27 : back_noise digits_of params27 Q27 (2 ^ 10) sk27 skN27 0 = 14430870021120.
Proof. unfold back_noise. change (GetLWEParams params27) with lwe27. vm_compute. reflexivity. Qed.

Lemma scheme27 noise tau : noise <= 3000000 -> tau = 40 ->
  @scheme_ok W64 Q27 psi27 10 digits_of params27 10 sk27 skN27 noise 0 tau.
Proof.
  intros Hn ->. split; [apply gate_params27 | apply back27 | by split | done |].
  rewrite back_noise27. change (Z.of_nat (GetLength sk27)) with 1. change (m_qKS (GetLWEParams params27)) with 16384. unfold Q27. lia.
Qed.

Lemma decrypt27 : @decrypt_ok W64 (GetLength sk27) (2 ^ 10) 4.
Proof. split; [by split | done | done |]. by exists 128. Qed.

(** The samples: errors of absolute value one. *)
Definition E27 (i d j : nat) : Z := 0.
Definition V27 (i d j : nat) : NativeVectorT := mkVector [Z.of_nat (i + d + j) mod 16384] 16384.
Definition U27 : samples := fun i j l m => mkVector (repeat (Z.of_nat (i + j + l + m) mod Q27) 1024) Q27.
Definition Err27 : samples := fun i j l m => mkVector (repeat (if Nat.even m then 1 else Q27 - 1) 1024) Q27.

Lemma repeat_elem x : 0 <= x < Q27 -> ring_elem Q27 10 (repeat x 1024).
Proof. intros H. split; [apply repeat_length | by apply Forall_repeat]. Qed.

Lemma samples27 : keygen_samples (W := W64) Q27 10 params27 sk27 1 0 E27 V27 U27 Err27.
Proof.
  split.
  - intros i j l. split; [done|]. split; [|done]. pose proof (mod_range (Z.of_nat (i + j + l)) 16384 ltac:(lia)).
    split; [done | done |]. by apply Forall_singleton.
  - intros i d j. by exists 0.
  - intros i j l. split; intros m.
    + apply repeat_elem, mod_range. done.
    + split; [apply repeat_elem; by destruct (Nat.even m)|]. apply Forall_repeat. destruct (Nat.even m); [by exists 1|].
      exists (-1). split; [done | by constructor].
Qed.

Definition mask27 : NativeVectorT := mkVector [777] 1024.

Lemma encryption27 err : 0 <= err < 10 -> encryption_sample (W := W64) 10 sk27 err mask27 10.
Proof.
  intros H. split; [split; [split; [done | done | by repeat constructor] | done]|]. split; [change (2 ^ 10) with 1024; lia|].
  exists err. split; [lia | done].
Qed.

Lemma cache27 : @cache_for W64 Q27 psi27 10 empty_cache.
Proof. by left. Qed.

#[local] Existing Instance W64.

Definition no_arb : NativeVectorT -> ILParams -> outcome NativeVectorT := fun _ _ => UB.

Lemma CGGI_gate_correct_witness :
  ('(EK, c) ← @BinFHE_KeyGen W64 no_arb no_arb digits_of (RingGSWAccumulatorCGGI no_arb no_arb) params27 sk27 skN27 E27 V27 U27 Err27 empty_cache;
   ct1 ← Encrypt sk27 1 4 (2 ^ 10) 3 mask27;
   ct2 ← Encrypt sk27 0 4 (2 ^ 10) 4 mask27;
   '(ct, _) ← EvalBinGate no_arb no_arb digits_of (RingGSWAccumulatorCGGI no_arb no_arb) params27 XOR EK false ct1 ct2 c;
   Decrypt sk27 ct 4) = Ok 1.
Proof.
  apply (CGGI_gate_correct (W := W64) Q27 psi27 10 7 4 params27 10 no_arb no_arb digits_of 16384 sk27 skN27 1 1 0 0 40 10 XOR true false
    E27 V27 U27 Err27 3 mask27 4 mask27 empty_cache); [by apply ring_ok27 | apply cggi27 | apply secrets27
    | by apply scheme27 | apply decrypt27 | apply samples27 | by apply encryption27 | by apply encryption27 | done | done | apply cache27].
Defined.

Lemma DM_gate_correct_witness :
  ('(EK, c) ← @BinFHE_KeyGen W64 no_arb no_arb digits_of (RingGSWAccumulatorDM no_arb no_arb) params27 sk27 skN27 E27 V27 U27 Err27 empty_cache;
   ct1 ← Encrypt sk27 1 4 (2 ^ 10) 3 mask27;
   ct2 ← Encrypt sk27 1 4 (2 ^ 10) 4 mask27;
   '(ct, _) ← EvalBinGate no_arb no_arb digits_of (RingGSWAccumulatorDM no_arb no_arb) params27 NAND EK false ct1 ct2 c;
   Decrypt sk27 ct 4) = Ok 0.
Proof.
  apply (DM_gate_correct (W := W64) Q27 psi27 10 7 4 params27 10 no_arb no_arb digits_of 32 2 16384 sk27 skN27 1 1 0 0 40 10 NAND true true
    E27 V27 U27 Err27 3 mask27 4 mask27 empty_cache); [by apply ring_ok27 | apply dm27 | apply secrets27
    | by apply scheme27 | apply decrypt27 | apply samples27 | by apply encryption27 | by apply encryption27 | done | done | apply cache27].
Defined.
