(* ===== verification/BinContext.v ===== *)
(** * The context of the Boolean scheme

    The class [BinFHEContext] of src/binfhe/lib/binfhecontext.cpp and
    include/binfhecontext.h: the parameter sets, the keys the context keeps and the
    calls it forwards to the scheme. The methods are functions of the state of the
    context; the caches of the transforms, the counter of the random generator of the
    prime tests and the lookups of the standard parameters are arguments. What the
    generators of keys and ciphertexts sample is an argument too. [m_LWEscheme] is
    never assigned: its methods use no member of their object. *)
From stdpp Require Import base numbers list gmap sorting.
From Stdlib Require Import ZArith Lia.
From S2P Require Import Prelude Bits NativeInt NativeIntProps NativeVector Ntt NbTheory Poly Lwe LweSwitch StdLattice Rgsw BinFHE.
Open Scope Z_scope.

Inductive BINFHE_PARAMSET :=
  | TOY | MEDIUM | STD128_AP | STD128_APOPT | STD128 | STD128_OPT | STD192 | STD192_OPT | STD256 | STD256_OPT
  | STD128Q | STD128Q_OPT | STD192Q | STD192Q_OPT | STD256Q | STD256Q_OPT | SIGNED_MOD_TEST.

Inductive BINFHE_OUTPUT := INVALID_OUTPUT | FRESH | BOOTSTRAPPED.

#[export] Instance BINFHE_PARAMSET_eq_dec : EqDecision BINFHE_PARAMSET.
Proof. solve_decision. Defined.
#[export] Instance BINFHE_OUTPUT_eq_dec : EqDecision BINFHE_OUTPUT.
Proof. solve_decision. Defined.

(** A row of the table of parameter sets. *)
Record BinFHEContextParams := mkContextParams {
  numberBits : Z;
  cyclOrder : Z;
  latticeParam : nat;
  mod_lwe : Z;
  modKS : Z;
  stdDev : Z;
  cp_baseKS : Z;
  gadgetBase : Z;
  baseRK : Z
}.

(** [modKS] zero stands for the intermediate prime. *)
Definition PRIME : Z := 0.
(** 3.19, in hundredths. *)
Definition STD_DEV : Z := 319.

Definition paramsMap : list (BINFHE_PARAMSET * BinFHEContextParams) :=
  [(TOY, mkContextParams 27 1024 64 512 PRIME STD_DEV 25 (2 ^ 9) 23);
   (MEDIUM, mkContextParams 28 2048 422 1024 (2 ^ 14) STD_DEV (2 ^ 7) (2 ^ 10) 32);
   (STD128_AP, mkContextParams 27 2048 512 1024 (2 ^ 14) STD_DEV (2 ^ 7) (2 ^ 9) 32);
   (STD128_APOPT, mkContextParams 27 2048 502 1024 (2 ^ 14) STD_DEV (2 ^ 7) (2 ^ 9) 32);
   (STD128, mkContextParams 27 2048 512 1024 (2 ^ 14) STD_DEV (2 ^ 7) (2 ^ 7) 32);
   (STD128_OPT, mkContextParams 27 2048 502 1024 (2 ^ 14) STD_DEV (2 ^ 7) (2 ^ 7) 32);
   (STD192, mkContextParams 37 4096 1024 1024 (2 ^ 19) STD_DEV 28 (2 ^ 13) 32);
   (STD192_OPT, mkContextParams 37 4096 805 1024 (2 ^ 15) STD_DEV 32 (2 ^ 13) 32);
   (STD256, mkContextParams 29 4096 1024 2048 (2 ^ 14) STD_DEV (2 ^ 7) (2 ^ 8) 46);
   (STD256_OPT, mkContextParams 29 4096 990 2048 (2 ^ 14) STD_DEV (2 ^ 7) (2 ^ 8) 46);
   (STD128Q, mkContextParams 50 4096 1024 1024 (2 ^ 25) STD_DEV 32 (2 ^ 25) 32);
   (STD128Q_OPT, mkContextParams 50 4096 585 1024 (2 ^ 15) STD_DEV 32 (2 ^ 25) 32);
   (STD192Q, mkContextParams 35 4096 1024 1024 (2 ^ 17) STD_DEV 64 (2 ^ 12) 32);
   (STD192Q_OPT, mkContextParams 35 4096 875 1024 (2 ^ 15) STD_DEV 32 (2 ^ 12) 32);
   (STD256Q, mkContextParams 27 4096 2048 2048 (2 ^ 16) STD_DEV 16 (2 ^ 7) 46);
   (STD256Q_OPT, mkContextParams 27 4096 1225 1024 (2 ^ 16) STD_DEV 16 (2 ^ 7) 32);
   (SIGNED_MOD_TEST, mkContextParams 28 2048 512 1024 PRIME STD_DEV 25 (2 ^ 7) 23)].

Definition find_set (set : BINFHE_PARAMSET) : option BinFHEContextParams :=
  snd <$> List.find (fun e => bool_decide (fst e = set)) paramsMap.

(** The state: the pointers are null before a [GenerateBinFHEContext]. *)
Record BinFHEContext := mkContext {
  m_params : option BinFHECryptoParams;
  m_binfhescheme : option RingGSWAccumulator;
  m_BTKey : RingGSWBTKey;
  m_BTKey_map : gmap Z RingGSWBTKey;
  m_timeOptimization : bool
}.

(** Null keys; the switching key is not read when the refreshing key is null. *)
Definition null_key : RingGSWBTKey := mkBTKey None (mkSwitchingKey [] []).
Definition context_new : BinFHEContext := mkContext None None null_key ∅ false.

Definition GetBeta : Z := 128.

(** ** Keys *)

Definition BTKeyLoad (key : RingGSWBTKey) (ctx : BinFHEContext) : BinFHEContext :=
  mkContext (m_params ctx) (m_binfhescheme ctx) key (m_BTKey_map ctx) (m_timeOptimization ctx).

Definition BTKeyMapLoadSingleElement (baseG : Z) (key : RingGSWBTKey) (ctx : BinFHEContext) : BinFHEContext :=
  mkContext (m_params ctx) (m_binfhescheme ctx) (m_BTKey ctx) (<[baseG := key]> (m_BTKey_map ctx)) (m_timeOptimization ctx).

Definition ClearBTKeys (ctx : BinFHEContext) : BinFHEContext :=
  mkContext (m_params ctx) (m_binfhescheme ctx) null_key ∅ (m_timeOptimization ctx).

Definition GetMaxPlaintextSpace `{W : NativeWidth} (ctx : BinFHEContext) : outcome Z :=
  params ← deref (m_params ctx);
  d ← DividedBy (m_q (GetLWEParams params)) GetBeta;
  DividedBy d 2.

Section Definitions.
Context `{W : NativeWidth}.
Context (arb_forward arb_inverse : NativeVectorT -> ILParams -> outcome NativeVectorT).
Context (ceil_log : Z -> Z -> Z) (ceil_log2 floor_log2 : Z -> Z).
Context (dist : nat -> Z -> Z) (rfuel fuel : nat).

Let BinFHEScheme_new := BinFHEScheme_new arb_forward arb_inverse.
Let BinFHE_KeyGen := BinFHE_KeyGen arb_forward arb_inverse ceil_log.

(** ** Parameters *)

(** The end of the three [GenerateBinFHEContext]: the parameters of both layers and
    the scheme. *)
Definition make_context (n : nat) (N q Q qKS std baseKS baseG baseR : Z) (method : BINFHE_METHOD) (signEval : bool)
    (ctx : BinFHEContext) (rc : nat) (c : FTTCache) : outcome (BinFHEContext * nat * FTTCache) :=
  lweparams ← LWECryptoParams_new n (Z.to_nat N) q Q qKS std baseKS;
  '(rgswparams, rc, c) ← RingGSWCryptoParams_new arb_forward arb_inverse ceil_log dist rfuel fuel N Q q baseG baseR
                           method signEval rc c;
  scheme ← BinFHEScheme_new method;
  Ok (mkContext (Some (mkBinFHE lweparams rgswparams)) (Some scheme) (m_BTKey ctx) (m_BTKey_map ctx)
        (m_timeOptimization ctx), rc, c).

(** With explicit parameters. *)
Definition GenerateBinFHEContext_explicit (n : nat) (N q Q std baseKS baseG baseR : Z) (method : BINFHE_METHOD)
    (ctx : BinFHEContext) (rc : nat) (c : FTTCache) : outcome (BinFHEContext * nat * FTTCache) :=
  make_context n N q Q Q std baseKS baseG baseR method true ctx rc c.

(** The base of the gadget and the size of the prime, for the size of the modulus. *)
Definition gadget_choice (logQ : Z) : Z * Z :=
  if logQ >? 25 then (2 ^ 14, 54) else if logQ >? 16 then (2 ^ 18, 54) else if logQ >? 11 then (2 ^ 27, 54)
  else (2 ^ 5, 27).

(** For functions and large precision. *)
Definition GenerateBinFHEContext_func (set : BINFHE_PARAMSET) (arbFunc : bool) (logQ N : Z) (method : BINFHE_METHOD)
    (timeOptimization : bool) (ctx : BinFHEContext) (lookups : Lookups) (rc : nat) (c : FTTCache)
    : outcome (BinFHEContext * Lookups * nat * FTTCache) :=
  if negb (bool_decide (method = GINX)) then Throw not_implemented_error
  else if negb (bool_decide (set = STD128)) && negb (bool_decide (set = TOY)) then Throw not_implemented_error
  else if logQ >? 29 then Throw not_implemented_error
  else if logQ <? 11 then Throw not_implemented_error
  else
    let '(baseG, logQprime) := gadget_choice logQ in
    let ctx := mkContext (m_params ctx) (m_binfhescheme ctx) (m_BTKey ctx) (m_BTKey_map ctx) timeOptimization in
    '(ringDim, lookups) ← FindRingDim HEStd_ternary HEStd_128_classic logQprime lookups;
    let ringDim := if N >=? ringDim then u32 N else ringDim in
    '(first, rc) ← FirstPrime dist rfuel fuel logQprime (u32 (2 * ringDim)) rc;
    '(Q, rc) ← PreviousPrime dist rfuel fuel first (u32 (2 * ringDim)) rc;
    let q := if arbFunc then ringDim else u32 (2 * ringDim) in
    let qKS := 2 ^ 35 in
    let n := if bool_decide (set = TOY) then 32%nat else 1305%nat in
    '(ctx, rc, c) ← make_context n ringDim q Q qKS STD_DEV 32 baseG 23 method (negb (logQ =? 11) && timeOptimization) ctx rc c;
    Ok (ctx, lookups, rc, c).

(** From the table. *)
Definition GenerateBinFHEContext (set : BINFHE_PARAMSET) (method : BINFHE_METHOD) (ctx : BinFHEContext) (rc : nat)
    (c : FTTCache) : outcome (BinFHEContext * nat * FTTCache) :=
  match find_set set with
  | None => Throw config_error
  | Some params =>
      '(first, rc) ← FirstPrime dist rfuel fuel (numberBits params) (cyclOrder params) rc;
      '(Q, rc) ← PreviousPrime dist rfuel fuel first (cyclOrder params) rc;
      let ringDim := cyclOrder params / 2 in
      let qKS := if PRIME =? modKS params then Q else modKS params in
      make_context (latticeParam params) ringDim (mod_lwe params) Q qKS (stdDev params) (cp_baseKS params)
        (gadgetBase params) (baseRK params) method false ctx rc c
  end.

(** ** Calls that the context forwards *)

(** [Encrypt]: a ciphertext that is not asked to be fresh is bootstrapped. *)
Definition Context_Encrypt (ctx : BinFHEContext) (sk : NativeVectorT) (m : Z) (output : BINFHE_OUTPUT) (p mod_ : Z)
    (err : Z) (a : NativeVectorT) (c : FTTCache) : outcome (LWECiphertextImpl * FTTCache) :=
  params ← deref (m_params ctx);
  let mod_ := if mod_ =? 0 then m_q (GetLWEParams params) else mod_ in
  ct ← Encrypt sk m p mod_ err a;
  if negb (bool_decide (output = FRESH)) && (p =? 4) then
    scheme ← deref (m_binfhescheme ctx);
    Bootstrap arb_forward arb_inverse ceil_log scheme params (m_BTKey ctx) ct c
  else Ok (ct, c).

Definition Context_Decrypt (ctx : BinFHEContext) (sk : NativeVectorT) (ct : LWECiphertextImpl) (p : Z) : outcome Z :=
  _ ← deref (m_params ctx);
  Decrypt sk ct p.

Definition Context_KeySwitchGen (ctx : BinFHEContext) (sk skN : NativeVectorT) (E : nat -> nat -> nat -> Z)
    (V : nat -> nat -> nat -> NativeVectorT) : outcome LWESwitchingKeyImpl :=
  params ← deref (m_params ctx);
  KeySwitchGen (GetLWEParams params) (digitCount ceil_log (GetLWEParams params)) sk skN E V.

(** What one key generation samples. *)
Record key_samples := mkSamples {
  sample_skN : NativeVectorT;
  sample_E : nat -> nat -> nat -> Z;
  sample_A : nat -> nat -> nat -> NativeVectorT;
  sample_U : samples;
  sample_Err : samples
}.

Definition scheme_KeyGen (scheme : RingGSWAccumulator) (params : BinFHECryptoParams) (sk : NativeVectorT) (S : key_samples)
    (c : FTTCache) : outcome (RingGSWBTKey * FTTCache) :=
  BinFHE_KeyGen scheme params sk (sample_skN S) (sample_E S) (sample_A S) (sample_U S) (sample_Err S) c.

(** The bases of the gadget map, in the order of the map. *)
Definition map_bases (m : gmap Z (list Z)) : list Z := merge_sort Z.le (map fst (map_to_list m)).

(** The keys of the bases, in turn. *)
Fixpoint keys_loop (scheme : RingGSWAccumulator) (sk : NativeVectorT) (S : Z -> key_samples) (bases : list Z)
    (params : BinFHECryptoParams) (keys : gmap Z RingGSWBTKey) (c : FTTCache)
    : outcome (BinFHECryptoParams * gmap Z RingGSWBTKey * FTTCache) :=
  match bases with
  | [] => Ok (params, keys, c)
  | base :: bases =>
      let params := set_rgsw params (Change_BaseG ceil_log (GetRingGSWParams params) base) in
      '(key, c) ← scheme_KeyGen scheme params sk (S base) c;
      keys_loop scheme sk S bases params (<[base := key]> keys) c
  end.

(** [S] gives the samples for each base. *)
Definition BTKeyGen (sk : NativeVectorT) (S : Z -> key_samples) (ctx : BinFHEContext) (c : FTTCache)
    : outcome (BinFHEContext * FTTCache) :=
  params ← deref (m_params ctx);
  let temp := GetBaseG (GetRingGSWParams params) in
  '(params, keys, c) ←
    (if m_timeOptimization ctx then
       scheme ← deref (m_binfhescheme ctx);
       '(params, keys, c) ← keys_loop scheme sk S (map_bases (GetGPowerMap (GetRingGSWParams params))) params (m_BTKey_map ctx) c;
       Ok (set_rgsw params (Change_BaseG ceil_log (GetRingGSWParams params) temp), keys, c)
     else Ok (params, m_BTKey_map ctx, c));
  '(key, keys, c) ←
    (if negb (size keys =? 0)%nat then
       let key := default null_key (keys !! temp) in Ok (key, <[temp := key]> keys, c)
     else
       scheme ← deref (m_binfhescheme ctx);
       '(key, c) ← scheme_KeyGen scheme params sk (S temp) c;
       Ok (key, <[temp := key]> keys, c));
  Ok (mkContext (Some params) (m_binfhescheme ctx) key keys (m_timeOptimization ctx), c).

Definition Context_EvalBinGate (ctx : BinFHEContext) (gate : BINGATE) (same : bool) (ct1 ct2 : LWECiphertextImpl)
    (c : FTTCache) : outcome (LWECiphertextImpl * FTTCache) :=
  params ← deref (m_params ctx);
  scheme ← deref (m_binfhescheme ctx);
  EvalBinGate arb_forward arb_inverse ceil_log scheme params gate (m_BTKey ctx) same ct1 ct2 c.

Definition Context_Bootstrap (ctx : BinFHEContext) (ct : LWECiphertextImpl) (c : FTTCache)
    : outcome (LWECiphertextImpl * FTTCache) :=
  params ← deref (m_params ctx);
  scheme ← deref (m_binfhescheme ctx);
  Bootstrap arb_forward arb_inverse ceil_log scheme params (m_BTKey ctx) ct c.

Definition Context_EvalConstant (ctx : BinFHEContext) (value : bool) : outcome LWECiphertextImpl :=
  params ← deref (m_params ctx);
  NoiselessEmbedding (GetLWEParams params) (Z.b2z value).

Definition Context_EvalFunc (ctx : BinFHEContext) (ct : LWECiphertextImpl) (LUT : list Z) (c : FTTCache)
    : outcome (LWECiphertextImpl * FTTCache) :=
  params ← deref (m_params ctx);
  scheme ← deref (m_binfhescheme ctx);
  EvalFunc arb_forward arb_inverse ceil_log scheme params (m_BTKey ctx) ct LUT GetBeta c.

Definition Context_EvalFloor (ctx : BinFHEContext) (ct : LWECiphertextImpl) (roundbits : Z) (c : FTTCache)
    : outcome (LWECiphertextImpl * FTTCache) :=
  params ← deref (m_params ctx);
  scheme ← deref (m_binfhescheme ctx);
  EvalFloor arb_forward arb_inverse ceil_log scheme params (m_BTKey ctx) ct GetBeta roundbits c.

(** The copy of the parameters shares those of RingGSW: the base that a call leaves
    is that of the context. *)
Definition set_params (ctx : BinFHEContext) (params : BinFHECryptoParams) : BinFHEContext :=
  mkContext (Some params) (m_binfhescheme ctx) (m_BTKey ctx) (m_BTKey_map ctx) (m_timeOptimization ctx).

Definition Context_EvalSign (rounds : nat) (ctx : BinFHEContext) (ct : LWECiphertextImpl) (c : FTTCache)
    : outcome (LWECiphertextImpl * BinFHEContext * FTTCache) :=
  params ← deref (m_params ctx);
  scheme ← deref (m_binfhescheme ctx);
  '(ct, params, c) ← EvalSign arb_forward arb_inverse ceil_log scheme ceil_log2 rounds params (m_BTKey_map ctx) ct GetBeta c;
  Ok (ct, set_params ctx params, c).

Definition Context_EvalDecomp (rounds : nat) (ctx : BinFHEContext) (ct : LWECiphertextImpl) (c : FTTCache)
    : outcome (list LWECiphertextImpl * BinFHEContext * FTTCache) :=
  params ← deref (m_params ctx);
  scheme ← deref (m_binfhescheme ctx);
  '(ret, params, c) ← EvalDecomp arb_forward arb_inverse ceil_log scheme ceil_log2 rounds params (m_BTKey_map ctx) ct GetBeta c;
  Ok (ret, set_params ctx params, c).

(** The table of a function on the plaintexts. *)
Definition GenerateLUTviaFunction (ctx : BinFHEContext) (f : Z -> Z -> Z) (p : Z) : outcome (list Z) :=
  if negb (ceil_log2 p =? floor_log2 p) then Throw not_implemented_error
  else
    params ← deref (m_params ctx);
    let q := m_q (GetLWEParams params) in
    interval ← DividedBy q p;
    let vecSize := Z.to_nat (u32 q) in
    for_range 0 vecSize (fun i vec =>
      x ← DividedBy (wrap (Z.of_nat i)) interval;
      let temp := f x p in
      if temp >=? p then Throw not_implemented_error
      else vset vec i (Mul temp interval)) (repeat 0 vecSize).
End Definitions.
