(* ===== verification/ContextProps.v ===== *)
(** * Properties of the context

    The tables of functions, the keys the context keeps, and the evaluation of
    functions, of the sign and of the digits from key generation to decryption. *)
From stdpp Require Import base numbers list gmap sorting.
From Stdlib Require Import ZArith Lia.
From S2P Require Import Prelude Bits NativeInt NativeIntProps NativeVector Ntt NttProps FttProps NbTheory Poly PolyProps PolyDigitProps PolyAlg Lwe LweProps LweSwitch StdLattice Rgsw RgswDigits RgswRing RgswKeys RgswAcc RgswEval RgswKeyGen BinFHE BinExtract BinRotation BinBoot BinGate BinScheme BinProps BinFunc BinEval BinFloor BinSign BinContext.
Open Scope Z_scope.

(** ** Tables of functions *)

Section Tables.
Context `{W : NativeWidth} (ceil_log2 floor_log2 : Z -> Z).

(** The table after [i] turns. *)
Definition lut_upto (n : nat) (g : Z -> Z) (i : nat) : list Z :=
  map (fun j => if (j <? i)%nat then g (Z.of_nat j) else 0) (seq 0 n).

Lemma lut_upto_step n g i : (i < n)%nat -> vset (lut_upto n g i) i (g (Z.of_nat i)) = Ok (lut_upto n g (S i)).
Proof.
  intros Hi. unfold lut_upto. rewrite vset_lt by (by rewrite length_map, length_seq). rewrite map_seq_insert by done. f_equal.
  apply map_ext. intros j. destruct (Nat.eqb_spec j i) as [->|]; [by rewrite (proj2 (Nat.ltb_lt _ _)) by lia|].
  destruct (Nat.ltb_spec j i), (Nat.ltb_spec j (S i)); (done || lia).
Qed.

(** The entries of the table: each interval has one value. *)
Lemma GenerateLUT_ok ctx params f p e : m_params ctx = Some params -> m_q (GetLWEParams params) = 2 ^ e -> 0 <= e < 32 -> 2 ^ e < 2 ^ wbits ->
  0 < p -> (p | 2 ^ e) -> ceil_log2 p = floor_log2 p -> (forall x, 0 <= x < p -> 0 <= f x p < p) ->
  returns (GenerateLUTviaFunction ceil_log2 floor_log2 ctx f p) (fun LUT =>
    Z.of_nat (length LUT) = 2 ^ e /\ Forall (fun y => 0 <= y <= 2 ^ e) LUT /\ step_table LUT (2 ^ e / p) (fun x => f x p * (2 ^ e / p))).
Proof.
  intros Hp Hq He Hw Hp0 Hdiv Hlog Hf. unfold GenerateLUTviaFunction. rewrite Hlog, Z.eqb_refl. cbn [negb]. rewrite Hp. cbn [deref]. rewrite bind_Ok, Hq.
  pose proof (pow2_pos e ltac:(lia)) as Hq0. rewrite DividedBy_pos, bind_Ok by done. destruct Hdiv as [d Ed].
  assert (2 ^ e / p = d) as Edd by (by rewrite Ed, Z.div_mul by lia). rewrite Edd. assert (0 < d) as Hd by nia.
  assert (2 ^ e < 2 ^ 32) by (apply Z.pow_lt_mono_r; lia). assert (u32 (2 ^ e) = 2 ^ e) as -> by (unfold u32; apply Z.mod_small; lia).
  set (n := Z.to_nat (2 ^ e)). set (g := fun x => f (x / d) p * d).
  assert (forall i : nat, (i < n)%nat -> 0 <= Z.of_nat i / d < p) as Hin.
  { intros i Hi. split; [apply Z.div_pos; lia|]. apply Z.div_lt_upper_bound; lia. }
  assert (forall i : nat, (i < n)%nat -> 0 <= g (Z.of_nat i) <= 2 ^ e) as Hg by (intros i Hi; pose proof (Hf _ (Hin i Hi)); unfold g; nia).
  replace (repeat 0 n) with (lut_upto n g 0).
  2: { unfold lut_upto. generalize 0%nat at 2. induction n as [|n' IH]; intros o; [done|]. cbn [seq map repeat]. f_equal. apply IH. intros i Hi. apply Hin. lia. intros. apply Hg. lia. }
  rewrite (for_range_exact (lut_upto n g)); [| lia |].
  - cbn [returns]. assert (forall i, (i < n)%nat -> lut_upto n g n !!! i = g (Z.of_nat i)) as Hl.
    { intros i Hi. apply list_lookup_total_correct. unfold lut_upto. rewrite (map_seq_lookup _ _ _ Hi). by rewrite (proj2 (Nat.ltb_lt _ _)). }
    assert (length (lut_upto n g n) = n) as Hn by (unfold lut_upto; by rewrite length_map, length_seq). split_and!.
    + rewrite Hn. unfold n. lia.
    + unfold lut_upto. apply Forall_map, Forall_forall. intros i Hi%elem_of_seq. cbv beta. rewrite (proj2 (Nat.ltb_lt _ _)) by lia. apply Hg. lia.
    + intros x Hx. rewrite Hn in Hx. unfold entry. rewrite Hl by lia. by rewrite Z2Nat.id by lia.
  - intros i Hi. rewrite wrap_small by lia. rewrite DividedBy_pos, bind_Ok by lia. pose proof (Hf _ (Hin i ltac:(lia))) as Hfx.
    rewrite Z.geb_leb, (proj2 (Z.leb_gt _ _)) by lia. rewrite <- lut_upto_step by lia. f_equal. unfold Mul, MulFast. apply wrap_small. pose proof (Hg i). unfold g in *. lia.
Qed.
End Tables.

(** ** Digits *)

(** The number with these digits of [w] bits, the lowest one first. *)
Definition digits_value (w : Z) (digits : list Z) : Z := foldr (fun x acc => x + 2 ^ w * acc) 0 digits.

(** The digits of [m]: [r] of [w] bits and what is left. *)
Definition digits_from (w m : Z) (r : nat) : list Z :=
  map (fun i => m / 2 ^ (Z.of_nat i * w) mod 2 ^ w) (seq 0 r) ++ [m / 2 ^ (Z.of_nat r * w)].

Lemma digits_from_S w m r : 0 <= w -> digits_from w m (S r) = m mod 2 ^ w :: digits_from w (m / 2 ^ w) r.
Proof.
  intros Hw. unfold digits_from. cbn [seq map app]. rewrite Z.mul_0_l, Z.pow_0_r, Z.div_1_r. f_equal.
  assert (forall i : nat, m / 2 ^ w / 2 ^ (Z.of_nat i * w) = m / 2 ^ (Z.of_nat (S i) * w)) as Hd.
  { intros i. pose proof (pow2_pos w Hw). pose proof (pow2_pos (Z.of_nat i * w) ltac:(nia)). rewrite Z.div_div, <- Z.pow_add_r by nia. do 2 f_equal. lia. }
  rewrite <- seq_shift, map_map, Hd. f_equal. apply map_ext. intros i. by rewrite Hd.
Qed.

Lemma digits_from_value w m r : 0 <= w -> digits_value w (digits_from w m r) = m.
Proof.
  intros Hw. revert m. induction r as [|r IH]; intros m.
  - unfold digits_from. cbn. rewrite Z.div_1_r. lia.
  - rewrite digits_from_S by done. cbn [digits_value foldr]. fold (digits_value w (digits_from w (m / 2 ^ w) r)). rewrite IH.
    pose proof (pow2_pos w Hw). pose proof (Z.div_mod m (2 ^ w) ltac:(lia)). lia.
Qed.

(** ** Fresh contexts *)

(** A context with parameters and without keys. *)
Definition fresh_context (params : BinFHECryptoParams) (A : RingGSWAccumulator) : BinFHEContext :=
  mkContext (Some params) (Some A) null_key ∅ false.

(** The context with one key. *)
Definition keyed_context (params : BinFHECryptoParams) (A : RingGSWAccumulator) (EK : RingGSWBTKey) : BinFHEContext :=
  mkContext (Some params) (Some A) EK {[GetBaseG (GetRingGSWParams params) := EK]} false.

Lemma BTKeyGen_fresh `{W : NativeWidth} af ai ceil_log params A sk S c :
  BTKeyGen af ai ceil_log sk S (fresh_context params A) c
  = let s := S (GetBaseG (GetRingGSWParams params)) in
    '(EK, c) ← BinFHE_KeyGen af ai ceil_log A params sk (sample_skN s) (sample_E s) (sample_A s) (sample_U s) (sample_Err s) c;
    Ok (keyed_context params A EK, c).
Proof.
  unfold BTKeyGen, fresh_context. cbn [m_params m_timeOptimization m_BTKey_map m_binfhescheme deref]. rewrite !bind_Ok.
  unfold scheme_KeyGen. cbn beta iota zeta. rewrite map_size_empty. cbn [Nat.eqb negb].
  destruct (BinFHE_KeyGen _ _ _ _ _ _ _ _ _ _ _ _) as [[EK c']| | |]; done.
Qed.

Section Pipeline.
Context `{W : NativeWidth}.
Context (Q psi : Z) (k : nat) (g : Z) (dg : nat) (params : BinFHECryptoParams) (e : Z).
Context (af ai : NativeVectorT -> ILParams -> outcome NativeVectorT) (ceil_log : Z -> Z -> Z) (ceil_log2 floor_log2 : Z -> Z).
Abbreviation rg := (GetRingGSWParams params).
Abbreviation lw := (GetLWEParams params).
Abbreviation q := (2 ^ e).
Abbreviation A := (RingGSWAccumulatorCGGI af ai).
Abbreviation qKS := (m_qKS lw).
Context (qs : Z) (sk : NativeVectorT) (eps sigma kappa eta tau : Z) (S : Z -> key_samples).
Abbreviation s0 := (S (GetBaseG rg)).
Abbreviation skN := (sample_skN s0).
Abbreviation n := (GetLength sk).
Abbreviation noise := (cggi_bound k g dg eps sigma kappa).

(** What does not depend on the moduli of the ciphertexts. *)
Record keys_ready : Prop := {
  kr_ring : ring_ok Q psi k g dg params skN eps sigma kappa;
  kr_cggi : cggi_params Q psi k dg rg;
  kr_secrets : secrets_ok Q k qs sk skN;
  kr_keygen : keygen_params Q psi k ceil_log params sk skN;
  kr_samples : keygen_samples Q k params sk eps eta (sample_E s0) (sample_A s0) (sample_U s0) (sample_Err s0);
  kr_q : m_q lw = q;
  kr_tau : 0 <= tau
}.

(** A bootstrapping from modulus [2 ^ j] to modulus [fmod] has an error of at most
    [tau]. *)
Record bootstraps (j fmod : Z) : Prop := {
  bs_params : func_params Q psi k params j fmod;
  bs_back : back_ok ceil_log params Q fmod sk skN;
  bs_noise : 2 * (fmod * qKS * (3 * fmod + Z.of_nat n * noise)) + back_noise ceil_log params Q fmod sk skN eta < 2 * Q * qKS * (tau + 1)
}.
Context (Hkr : keys_ready).
Abbreviation keys := (fun m sec ek => cggi_keys Q psi k g dg rg (m_data skN) eps sec m ek).

Lemma rotation j : 0 <= j <= Z.of_nat k + 1 -> BlindRotation Q psi k rg (m_data skN) eps j A noise keys.
Proof.
  intros Hj. destruct (kr_ring Hkr) as [Hr Hp Hk H0 Hsig Hcar].
  exact (CGGI_BlindRotation Q psi k Hr af ai g dg rg Hp (m_data skN) (se_ring _ _ _ _ _ (kr_secrets Hkr)) eps sigma kappa H0 Hsig Hcar j Hj (kr_cggi Hkr)).
Qed.

(** The key is good for every modulus with a budget. *)
Definition good_key (EK : RingGSWBTKey) : Prop :=
  forall j fmod, bootstraps j fmod -> func_budget Q ceil_log params fmod skN qs sk noise keys (sample_E s0) eta tau EK.

Lemma BTKeyGen_good c : cache_for Q psi k c ->
  returns (BTKeyGen af ai ceil_log sk S (fresh_context params A) c) (fun '(ctx, c') =>
    exists EK, ctx = keyed_context params A EK /\ good_key EK /\ cache_for Q psi k c').
Proof.
  intros Hc. rewrite BTKeyGen_fresh. cbv zeta. pose proof (kr_ring Hkr) as Hrk. pose proof (rotation 0 ltac:(lia)) as HBR.
  eapply returns_bind; [apply (KeyGen_keys Q psi k (rk_root _ _ _ _ _ _ _ _ _ _ Hrk) af ai ceil_log params qs sk skN (kr_secrets Hkr) eps eta A keys);
    [intros; apply (br_KeyGenAcc (keys := keys) qs); [apply (kr_secrets Hkr) | done | done] | apply (kr_keygen Hkr) | apply (kr_samples Hkr) | done]|].
  intros [EK c'] (Hek & HK & Hc'). exists EK. split_and!; [done | | done].
  intros j fmod [_ Hb Hn]. split; try done. apply (kr_samples Hkr).
Qed.

(** A fresh encryption, with modulus [2 ^ j] and plaintexts modulo [p]. *)
Lemma Context_Encrypt_holds EK m p j mod_ err a rho c : (if mod_ =? 0 then m_q lw else mod_) = 2 ^ j -> 0 < p <= 2 ^ j -> 0 <= m < p -> p < 2 ^ 64 -> lwe_modulus n (2 ^ j) -> encryption_sample j sk err a rho ->
  returns (Context_Encrypt af ai ceil_log (keyed_context params A EK) sk m FRESH p mod_ err a c)
    (fun '(ct, c') => holds sk (2 ^ j) (m * (2 ^ j / p)) rho ct /\ c' = c).
Proof.
  intros Ej Hp Hm Hp64 Hq [(H1 & H2 & H3) (H4 & z & H5 & H6)]. unfold Context_Encrypt. cbn [keyed_context m_params deref]. rewrite bind_Ok.
  rewrite Ej.
  eapply returns_bind; [apply (Encrypt_phase sk m p (2 ^ j) err a); try done; [apply (kr_secrets Hkr) | lia]|].
  intros ct [Wct P]. rewrite bool_decide_eq_true_2 by done. cbn [negb andb returns]. split; [|done]. split; [done|]. exists z. split; [done|].
  rewrite P, H6. assert (u64 m mod p = m) as -> by (unfold u64; by rewrite (Z.mod_small m), Z.mod_small by lia). done.
Qed.

(** Decryption of a multiple of the interval. *)
Lemma Context_Decrypt_holds EK m p j rho ct : decrypt_ok n (2 ^ j) p -> 0 <= m < p -> 2 * rho < 2 ^ j / p ->
  holds sk (2 ^ j) (m * (2 ^ j / p)) rho ct -> Context_Decrypt (keyed_context params A EK) sk ct p = Ok m.
Proof.
  intros Hd Hm Hrho (Wct & err & Herr & P). unfold Context_Decrypt. cbn [keyed_context m_params deref]. rewrite bind_Ok.
  apply (Decrypt_phase sk ct (2 ^ j) p m err); try done; [apply (kr_secrets Hkr)|].
  pose proof (do_divides _ _ _ Hd) as [d Ed]. assert (2 ^ j / p = 2 * d) as Eq by (rewrite Ed; symmetry; apply Z.div_unique_exact; lia).
  rewrite Eq in Hrho. rewrite Ed. nia.
Qed.

(** Functions on the plaintexts modulo [2 ^ t]: the intervals leave room for the
    errors on both sides of their middle. *)
Record function_space (t tau0 : Z) (f : Z -> Z -> Z) : Prop := {
  fs_e : e < 32 /\ q < 2 ^ wbits;
  fs_t : 1 <= t /\ t + 8 <= e;
  fs_logs : ceil_log2 (2 ^ t) = floor_log2 (2 ^ t);
  fs_range : forall x, 0 <= x < 2 ^ t -> 0 <= f x (2 ^ t) < 2 ^ t;
  fs_errors : 0 <= tau0 /\ tau0 + tau < GetBeta;
  fs_decrypt : decrypt_ok n q (2 ^ t)
}.

Lemma pow_div i j : 0 <= j <= i -> 2 ^ i / 2 ^ j = 2 ^ (i - j).
Proof. intros H. by rewrite Z.pow_sub_r by lia. Qed.

Lemma function_plaintexts t tau0 f LUT : function_space t tau0 f -> Z.of_nat (length LUT) = q -> Forall (fun y => 0 <= y <= q) LUT ->
  step_table LUT (q / 2 ^ t) (fun x => f x (2 ^ t) * (q / 2 ^ t)) ->
  plaintext_space tau e (q / 2 ^ t) GetBeta tau0 (fun x => f x (2 ^ t) * (q / 2 ^ t)) LUT.
Proof.
  intros [He Ht _ _ Herr _] Hl Hent Hs. rewrite pow_div in * by lia. unfold GetBeta in *. pose proof (pow2_pos (e - t) ltac:(lia)).
  split; try done; [lia | | split; [lia | apply (kr_tau Hkr)] |].
  - exists (2 ^ (t - 1)). rewrite <- Z.pow_add_r by lia. f_equal. lia.
  - pose proof (Z.pow_le_mono_r 2 8 (e - t) ltac:(lia) ltac:(lia)). lia.
Qed.

(** The evaluation of any function of a plaintext, when the ring has room for twice
    the modulus. *)
Lemma Context_EvalFunc_holds EK t tau0 f LUT m ct c : good_key EK -> function_space t tau0 f ->
  Z.of_nat (length LUT) = q -> Forall (fun y => 0 <= y <= q) LUT -> step_table LUT (q / 2 ^ t) (fun x => f x (2 ^ t) * (q / 2 ^ t)) ->
  bootstraps e q -> bootstraps (e + 1) (2 * q) -> GetMSB (2 * q) <= MAX_MODULUS_SIZE ->
  0 <= m < 2 ^ t -> holds sk q (m * (q / 2 ^ t)) tau0 ct -> cache_for Q psi k c ->
  returns (Context_EvalFunc af ai ceil_log (keyed_context params A EK) ct LUT c)
    (fun '(ct', c') => holds sk q (f m (2 ^ t) * (q / 2 ^ t)) tau ct' /\ cache_for Q psi k c').
Proof.
  intros HEK Hfs Hl Hent Hs Hb1 Hb2 Hmsb Hm Hct Hc. pose proof (function_plaintexts t tau0 f LUT Hfs Hl Hent Hs) as Hps.
  unfold Context_EvalFunc. cbn [keyed_context m_params m_binfhescheme m_BTKey deref]. rewrite !bind_Ok.
  pose proof (kr_ring Hkr) as [Hr _ _ _ _ _]. destruct (kr_secrets Hkr) as [Hsk _ HsN HmN]. pose proof (fs_t _ _ _ Hfs) as Ht.
  assert (0 <= m * (q / 2 ^ t) < q) as Hmq.
  { rewrite pow_div by lia. pose proof (pow2_pos (e - t) ltac:(lia)). replace q with (2 ^ t * 2 ^ (e - t)) by (rewrite <- Z.pow_add_r by lia; f_equal; lia). nia. }
  pose proof (fu_e _ _ _ _ _ _ (bs_params _ _ Hb1)) as Hk1. pose proof (fu_e _ _ _ _ _ _ (bs_params _ _ Hb2)) as Hk2.
  pose proof (rotation e ltac:(lia)) as R1. pose proof (rotation (e + 1) ltac:(lia)) as R2.
  pose proof (lm_size _ _ (do_modulus _ _ _ (fs_decrypt _ _ _ Hfs))) as Hsz.
  destruct (negacyclic_table q LUT (Z.to_nat (2 ^ (e - 1)))) eqn:En;
    [|destruct (periodic_table LUT (Z.to_nat (2 ^ (e - 1))) && negb (LUT !!! 0%nat =? q - LUT !!! Z.to_nat (2 ^ (e - 1)))) eqn:Ep].
  - apply (EvalFunc_negacyclic Q psi k Hr af ai ceil_log params skN HmN HsN qs sk Hsk eps noise A keys (sample_E s0) eta tau EK e (q / 2 ^ t) GetBeta tau0
      (fun x => f x (2 ^ t) * (q / 2 ^ t)) LUT Hps m Hmq ct Hct c (bs_params _ _ Hb1) (HEK _ _ Hb1)); done.
  - apply (EvalFunc_periodic Q psi k Hr af ai ceil_log params skN HmN HsN qs sk Hsk eps noise A keys (sample_E s0) eta tau EK e (q / 2 ^ t) GetBeta tau0
      (fun x => f x (2 ^ t) * (q / 2 ^ t)) LUT Hps m Hmq ct Hct c (bs_params _ _ Hb1) (HEK _ _ Hb1)); done.
  - apply (EvalFunc_arbitrary Q psi k Hr af ai ceil_log params skN HmN HsN qs sk Hsk eps noise A keys (sample_E s0) eta tau EK e (q / 2 ^ t) GetBeta tau0
      (fun x => f x (2 ^ t) * (q / 2 ^ t)) LUT Hps m Hmq ct Hct c (bs_params _ _ Hb2) (HEK _ _ Hb2)); done.
Qed.

(** [C3] Function evaluation through a fresh context is correct for every function on
    the plaintexts: key generation, the table of the function, encryption, EvalFunc
    (negacyclic, periodic or arbitrary tables, with one or two bootstrappings) and
    decryption return the value of the function at the plaintext. *)
Theorem EvalFunc_correct t tau0 f m err a c :
  function_space t tau0 f -> bootstraps e q -> bootstraps (e + 1) (2 * q) -> GetMSB (2 * q) <= MAX_MODULUS_SIZE ->
  0 <= m < 2 ^ t -> encryption_sample e sk err a tau0 -> cache_for Q psi k c ->
  ('(ctx, c) ← BTKeyGen af ai ceil_log sk S (fresh_context params A) c;
   LUT ← GenerateLUTviaFunction ceil_log2 floor_log2 ctx f (2 ^ t);
   '(ct, c) ← Context_Encrypt af ai ceil_log ctx sk m FRESH (2 ^ t) 0 err a c;
   '(ct, _) ← Context_EvalFunc af ai ceil_log ctx ct LUT c;
   Context_Decrypt ctx sk ct (2 ^ t)) = Ok (f m (2 ^ t)).
Proof.
  intros Hfs Hb1 Hb2 Hmsb Hm Hen Hc. apply returns_eq. pose proof Hfs as [He Ht Hlog Hf Herr Hd]. unfold GetBeta in Herr.
  pose proof (pow2_pos t ltac:(lia)) as Ht0. pose proof (Z.pow_le_mono_r 2 t e ltac:(lia) ltac:(lia)) as Hte. pose proof (Z.pow_lt_mono_r 2 t 64 ltac:(lia) ltac:(lia) ltac:(lia)) as Ht64.
  eapply returns_bind; [by apply BTKeyGen_good|]. intros [ctx c1] (EK & -> & HEK & Hc1).
  eapply returns_bind; [apply (GenerateLUT_ok _ _ _ params f (2 ^ t) e); try done; [apply (kr_q Hkr) | lia | lia | exists (2 ^ (e - t)); rewrite <- Z.pow_add_r by lia; f_equal; lia]|].
  intros LUT (Hl & Hent & Hs).
  eapply returns_bind; [apply (Context_Encrypt_holds EK m (2 ^ t) e 0 err a tau0 c1 (kr_q Hkr)); try done; apply Hd|].
  intros [ct c2] [Hct ->].
  eapply returns_bind; [by apply (Context_EvalFunc_holds EK t tau0 f LUT m ct c1)|]. intros [ct' c3] [Hct' _].
  apply returns_eq. apply (Context_Decrypt_holds EK (f m (2 ^ t)) (2 ^ t) e tau); try done; [by apply Hf|].
  rewrite pow_div by lia. pose proof (Z.pow_le_mono_r 2 8 (e - t) ltac:(lia) ltac:(lia)). lia.
Qed.

(** ** Flooring *)

(** Plaintexts are multiples of [2 * beta]; the [r] lower bits of a plaintext are
    cleared. *)
Record floor_space (r rho : Z) : Prop := {
  fl_r : 1 <= r /\ r + 8 <= e < 32;
  fl_errors : 0 <= rho /\ rho + tau < GetBeta;
  fl_bootstraps : bootstraps (r + 8) q;
  fl_decrypt : decrypt_ok n q (2 ^ (e - 8))
}.

Lemma floor_modulus r : 1 <= r < 24 ->
  (if r =? 0 then Ok (m_q lw) else p ← shl_int r; Ok (Mul (Mul GetBeta 2) p)) = Ok (2 ^ (r + 8)).
Proof.
  intros Hr. rewrite (proj2 (Z.eqb_neq _ _)) by lia. unfold shl_int. rewrite (proj2 (Z.leb_le _ _)), (proj2 (Z.ltb_lt _ _)) by lia. cbn [andb]. rewrite bind_Ok.
  assert (2 ^ (r + 8) = 256 * 2 ^ r) as Er by (rewrite Z.pow_add_r by lia; lia). assert (0 < 2 ^ r < 2 ^ 24) as H24 by (split; [apply pow2_pos; lia | apply Z.pow_lt_mono_r; lia]).
  rewrite i32_small by lia. pose proof wbits_range. assert (2 ^ 32 <= 2 ^ wbits) by (apply Z.pow_le_mono_r; lia).
  unfold Mul, MulFast, GetBeta. rewrite (wrap_small (2 ^ r)), (wrap_small (128 * 2)), wrap_small by lia. by rewrite Er.
Qed.

Lemma Context_EvalFloor_holds EK r rho m ct c : good_key EK -> floor_space r rho -> 0 <= m < 2 ^ (e - 8) -> holds sk q (m * 256) rho ct -> cache_for Q psi k c ->
  returns (Context_EvalFloor af ai ceil_log (keyed_context params A EK) ct r c)
    (fun '(ct', c') => holds sk q (m / 2 ^ r * 2 ^ r * 256) tau ct' /\ cache_for Q psi k c').
Proof.
  intros HEK [Hre Herr Hb Hd] Hm (Wct & er & Her & P) Hc. unfold Context_EvalFloor. cbn [keyed_context m_params m_binfhescheme m_BTKey deref]. rewrite !bind_Ok.
  pose proof (kr_ring Hkr) as [Hr _ _ _ _ _]. destruct (kr_secrets Hkr) as [Hsk _ HsN HmN]. unfold GetBeta in Herr. pose proof (kr_tau Hkr) as Htau.
  pose proof (fu_e _ _ _ _ _ _ (bs_params _ _ Hb)) as Hk1. pose proof (rotation (r + 8) ltac:(lia)) as R1.
  assert (q = 2 ^ (e - 8) * 256) as Eq by (change 256 with (2 ^ 8); rewrite <- Z.pow_add_r by lia; f_equal; lia).
  assert ((phase sk ct + GetBeta) mod q = m * 256 + 128 + er) as Ex.
  { symmetry. apply eqmod_unique; [lia|]. rewrite P. unfold GetBeta. apply eqmod_eq. ring. }
  destruct (middle_bits m 8 (r + 8 - 1) er ltac:(lia) ltac:(cbn; lia)) as [Emod _]. destruct (middle_bits m 8 (r + 8) er ltac:(lia) ltac:(cbn; lia)) as [_ Ediv].
  change (2 ^ 8) with 256 in Emod, Ediv. change (2 ^ (8 - 1)) with 128 in Emod, Ediv. replace (r + 8 - 1 - 8) with (r - 1) in Emod by lia. replace (r + 8 - 8) with r in Ediv by lia.
  assert (2 ^ (r + 8 - 1) = 2 ^ (r - 1) * 256) as Eh by (change 256 with (2 ^ 8); rewrite <- Z.pow_add_r by lia; f_equal; lia).
  assert (2 ^ (r + 8) = 2 ^ r * 256) as Er by (change 256 with (2 ^ 8); rewrite <- Z.pow_add_r by lia; f_equal; lia).
  pose proof (pow2_pos (r - 1) ltac:(lia)). pose proof (mod_range m (2 ^ (r - 1)) ltac:(lia)). pose proof (pow2_pos (e - 8) ltac:(lia)).
  pose proof (Z.pow_le_mono_r 2 (r + 8) e ltac:(lia) ltac:(lia)) as Hle.
  assert ((2 ^ (r + 8) | q)) as Hdv by (exists (2 ^ (e - (r + 8))); rewrite <- Z.pow_add_r by lia; f_equal; lia).
  assert (GetMSB (2 ^ (r + 8)) <= MAX_MODULUS_SIZE) as Hsz.
  { pose proof (lm_size _ _ (do_modulus _ _ _ Hd)) as Hq. pose proof (pow2_pos (r + 8) ltac:(lia)). rewrite GetMSB_log2 in Hq |- * by lia. rewrite Z.log2_pow2 in Hq |- * by lia. lia. }
  eapply returns_mono; [apply (EvalFloor_holds Q psi k Hr af ai ceil_log params skN HmN HsN qs sk Hsk eps noise A keys (sample_E s0) eta tau (kr_tau Hkr) EK
    (r + 8) q (bs_params _ _ Hb) Hle (HEK _ _ Hb) Hdv Hsz ct GetBeta r c (floor_modulus r ltac:(lia)) Wct); try done|].
  - unfold GetBeta. lia.
  - rewrite Ex, Emod. pose proof (kr_tau Hkr). nia.
  - rewrite Ex, Emod, Eh. nia.
  - intros [ct' c'] [H' Hc']. split; [|done]. by rewrite Ex, Ediv, Er, Z.mul_assoc in H'.
Qed.

(** [C25] Flooring through a fresh context clears the given number of lower bits of the
    plaintext: key generation, encryption in the largest plaintext space, EvalFloor
    and decryption return the plaintext rounded down to a multiple of the power of
    two. *)
Theorem EvalFloor_correct r rho m err a c :
  floor_space r rho -> 0 <= m < 2 ^ (e - 8) -> encryption_sample e sk err a rho -> cache_for Q psi k c ->
  ('(ctx, c) ← BTKeyGen af ai ceil_log sk S (fresh_context params A) c;
   p ← GetMaxPlaintextSpace ctx;
   '(ct, c) ← Context_Encrypt af ai ceil_log ctx sk m FRESH p 0 err a c;
   '(ct, _) ← Context_EvalFloor af ai ceil_log ctx ct r c;
   Context_Decrypt ctx sk ct p) = Ok (m / 2 ^ r * 2 ^ r).
Proof.
  intros Hfs Hm Hen Hc. apply returns_eq. pose proof Hfs as [Hre Herr Hb Hd].
  assert (q = 2 ^ (e - 8) * 256) as Eq by (change 256 with (2 ^ 8); rewrite <- Z.pow_add_r by lia; f_equal; lia). pose proof (pow2_pos (e - 8) ltac:(lia)) as Hp0.
  assert (q / 2 ^ (e - 8) = 256) as E256 by (rewrite pow_div by lia; replace (e - (e - 8)) with 8 by lia; done).
  eapply returns_bind; [by apply BTKeyGen_good|]. intros [ctx c1] (EK & -> & HEK & Hc1).
  assert (GetMaxPlaintextSpace (keyed_context params A EK) = Ok (2 ^ (e - 8))) as ->.
  { unfold GetMaxPlaintextSpace, GetBeta. cbn [keyed_context m_params deref]. rewrite bind_Ok, (kr_q Hkr), !DividedBy_pos, bind_Ok, DividedBy_pos by lia.
    f_equal. rewrite Z.div_div by lia. change (128 * 2) with 256. rewrite Eq. by apply Z.div_mul. }
  rewrite bind_Ok. pose proof (Z.pow_lt_mono_r 2 (e - 8) 64 ltac:(lia) ltac:(lia) ltac:(lia)).
  eapply returns_bind; [apply (Context_Encrypt_holds EK m (2 ^ (e - 8)) e 0 err a rho c1 (kr_q Hkr)); try done; [lia | apply Hd]|].
  intros [ct c2] [Hct ->]. rewrite E256 in Hct.
  eapply returns_bind; [by apply (Context_EvalFloor_holds EK r rho m ct c1)|]. intros [ct' c3] [Hct' _]. rewrite <- E256 in Hct'.
  pose proof (pow2_pos r ltac:(lia)). pose proof (Z.mul_div_le m (2 ^ r) ltac:(lia)). pose proof (Z.div_pos m (2 ^ r) ltac:(lia) ltac:(lia)).
  apply returns_eq. apply (Context_Decrypt_holds EK _ (2 ^ (e - 8)) e tau); try done; [nia|]. unfold GetBeta in Herr. lia.
Qed.

(** ** Sign and digits *)

(** Plaintexts of [L - 8] bits, at modulus [2 ^ L]; the errors stay below [rho] in
    every round. *)
Record sign_space (L rho : Z) : Prop := {
  sg_L : 8 < e < L /\ 2 * L - e + 8 <= 52 /\ L <= wbits - 8;
  sg_errors : 0 <= rho /\ rho + tau < GetBeta;
  sg_rho : 2 * tau * 256 + 3 * q * (1 + weight sk) < 2 * q * (rho + 1);
  sg_bootstraps : forall j, e <= j <= L -> bootstraps e (2 ^ j);
  sg_encrypt : lwe_modulus n (2 ^ L)
}.

Lemma sign_precision EK L rho : good_key EK -> sign_space L rho ->
  large_precision Q psi k ceil_log params skN qs sk eps noise A keys (sample_E s0) eta tau rho EK e 8 L.
Proof.
  intros HEK [HL Herr Hrho Hb Hen]. unfold GetBeta in Herr. change (2 ^ 8) with 256. pose proof (bs_params _ _ (Hb e ltac:(lia))) as [H1 H2 H3 H4 H5].
  split; try lia.
  - apply (kr_q Hkr).
  - pose proof (kr_tau Hkr). lia.
  - intros j Hj. split; [apply (bs_params _ _ (Hb j Hj)) | apply (HEK _ _ (Hb j Hj))].
  - intros j Hj. split; try done. lia.
  - intros j Hj. apply rotation. lia.
Qed.

Lemma one_key (EK : RingGSWBTKey) : size ({[GetBaseG rg := EK]} : gmap Z RingGSWBTKey) <> 3%nat /\
  ({[GetBaseG rg := EK]} : gmap Z RingGSWBTKey) !! GetBaseG rg = Some EK.
Proof. rewrite map_size_singleton, lookup_singleton_eq. done. Qed.

(** The first half of both pipelines: keys and a large ciphertext. *)
Lemma large_ciphertext L rho m err a c : sign_space L rho -> 0 <= m < 2 ^ (L - 8) -> encryption_sample L sk err a rho -> cache_for Q psi k c ->
  returns ('(ctx, c) ← BTKeyGen af ai ceil_log sk S (fresh_context params A) c;
           '(ct, c) ← Context_Encrypt af ai ceil_log ctx sk m FRESH (2 ^ (L - 8)) (2 ^ L) err a c;
           Ok (ctx, ct, c))
    (fun '(ctx, ct, c') => exists EK, ctx = keyed_context params A EK /\ good_key EK /\ holds sk (2 ^ L) (m * 2 ^ 8) rho ct /\ cache_for Q psi k c').
Proof.
  intros Hss Hm Hen Hc. pose proof Hss as [HL Herr Hrho Hb Hlm]. pose proof wbits_range.
  eapply returns_bind; [by apply BTKeyGen_good|]. intros [ctx c1] (EK & -> & HEK & Hc1).
  pose proof (pow2_pos (L - 8) ltac:(lia)). pose proof (pow2_pos L ltac:(lia)). pose proof (Z.pow_le_mono_r 2 (L - 8) L ltac:(lia) ltac:(lia)). pose proof (Z.pow_lt_mono_r 2 (L - 8) 64 ltac:(lia) ltac:(lia) ltac:(lia)).
  eapply returns_bind; [apply (Context_Encrypt_holds EK m (2 ^ (L - 8)) L (2 ^ L) err a rho c1); try done; by rewrite (proj2 (Z.eqb_neq _ _)) by lia|].
  intros [ct c2] [Hct ->]. cbn [returns]. exists EK. split_and!; try done. rewrite pow_div in Hct by lia. by replace (L - (L - 8)) with 8 in Hct by lia.
Qed.


(** A plaintext modulo the modulus. *)
Lemma holds_mod j b m rho ct : 0 <= b <= j -> holds sk (2 ^ j) (m * 2 ^ b) rho ct -> holds sk (2 ^ j) (m mod 2 ^ (j - b) * 2 ^ b) rho ct.
Proof.
  intros Hj (Wct & err & Herr & P). split; [done|]. exists err. split; [done|]. rewrite P. apply eqmod_add; [|done].
  pose proof (pow2_pos (j - b) ltac:(lia)). pose proof (Z.div_mod m (2 ^ (j - b)) ltac:(lia)) as Dm.
  assert (2 ^ j = 2 ^ (j - b) * 2 ^ b) as Ej by (rewrite <- Z.pow_add_r by lia; f_equal; lia).
  rewrite <- (eqmod_multiple (2 ^ j) (m mod _ * _) (m / 2 ^ (j - b))). apply eqmod_eq. rewrite Ej. nia.
Qed.

Lemma decrypt_digit EK j m rho ct : 8 < j -> decrypt_ok n (2 ^ j) (2 ^ (j - 8)) -> 0 <= m < 2 ^ (j - 8) -> rho < 128 ->
  holds sk (2 ^ j) (m * 2 ^ 8) rho ct -> Context_Decrypt (keyed_context params A EK) sk ct (Lwe.GetModulus ct / 256) = Ok m.
Proof.
  intros Hj Hd Hm Hrho Hct. unfold Lwe.GetModulus. rewrite (cw_modulus _ _ _ (proj1 Hct)). change 256 with (2 ^ 8). rewrite pow_div by lia.
  assert (2 ^ j / 2 ^ (j - 8) = 256) as E8 by (rewrite pow_div by lia; by replace (j - (j - 8)) with 8 by lia).
  apply (Context_Decrypt_holds EK m (2 ^ (j - 8)) j rho ct); try done; rewrite E8; [lia | done].
Qed.

(** [C5] The digit decomposition of a ciphertext with a large modulus terminates, and
    the ciphertexts it returns decrypt to digits below the base whose positional
    value is the plaintext, the lowest digit first. *)
Theorem EvalDecomp_correct L rho m err a fuel c :
  sign_space L rho -> 0 <= m < 2 ^ (L - 8) -> encryption_sample L sk err a rho -> L - e <= Z.of_nat fuel ->
  (forall j, 8 < j <= e -> decrypt_ok n (2 ^ j) (2 ^ (j - 8))) -> cache_for Q psi k c ->
  returns ('(ctx, c) ← BTKeyGen af ai ceil_log sk S (fresh_context params A) c;
    '(ct, c) ← Context_Encrypt af ai ceil_log ctx sk m FRESH (2 ^ (L - 8)) (2 ^ L) err a c;
    '(ret, ctx', _) ← Context_EvalDecomp af ai ceil_log ceil_log2 fuel ctx ct c;
    Ok (ret, ctx, ctx'))
    (fun '(ret, ctx, ctx') => ctx' = ctx /\ exists digits,
       Forall2 (fun ct x => Context_Decrypt ctx sk ct (Lwe.GetModulus ct / 256) = Ok x) ret digits /\
       Forall (fun x => 0 <= x < 2 ^ (e - 8)) digits /\ digits_value (e - 8) digits = m).
Proof.
  intros Hss Hm Hen Hfuel Hd Hc. pose proof Hss as [HL Herr Hrho Hb Hlm]. unfold GetBeta in Herr. pose proof (kr_tau Hkr) as Htau.
  pose proof (large_ciphertext L rho m err a c Hss Hm Hen Hc) as Hlc. revert Hlc.
  destruct (BTKeyGen _ _ _ _ _ _ _) as [[ctx c1]| | |]; try done. rewrite !bind_Ok.
  destruct (Context_Encrypt _ _ _ _ _ _ _ _ _ _ _ _) as [[ct c2]| | |]; try done. rewrite !bind_Ok.
  intros (EK & -> & HEK & Hct & Hc2).
  pose proof (kr_ring Hkr) as [Hr _ _ _ _ _]. destruct (kr_secrets Hkr) as [Hsk _ HsN HmN]. destruct (one_key EK) as [Hsize Hek].
  unfold Context_EvalDecomp. cbn [keyed_context m_params m_binfhescheme m_BTKey_map deref]. rewrite !bind_Ok.
  pose proof (EvalDecomp_holds Q psi k Hr af ai ceil_log ceil_log2 params skN HmN HsN qs sk Hsk eps noise A keys (sample_E s0) eta tau rho EK e 8 L
    (sign_precision EK L rho HEK Hss) _ Hsize Hek fuel m ct c2 Hfuel Hm Hct Hc2) as Hdec. change (2 ^ (8 - 1)) with GetBeta in Hdec.
  revert Hdec. destruct (EvalDecomp _ _ _ _ _ _ _ _ _ _ _) as [[[ret params'] c']| | |]; try done. rewrite !bind_Ok. cbn [returns].
  intros ((r & ds & last & -> & Hlen & Hlf & Hds & Hlast) & -> & Hc'). split; [done|]. exists (digits_from (e - 8) m r).
  assert (0 <= m / 2 ^ (Z.of_nat r * (e - 8)) < 2 ^ (L - Z.of_nat r * (e - 8) - 8)) as Hml.
  { pose proof (pow2_pos (Z.of_nat r * (e - 8)) ltac:(nia)). split; [apply Z.div_pos; lia|]. apply Z.div_lt_upper_bound; [done|].
    rewrite <- Z.pow_add_r by nia. replace (_ + _) with (L - 8) by lia. lia. }
  pose proof (pow2_pos (e - 8) ltac:(lia)) as Hstep. split_and!; [| |apply digits_from_value; lia].
  - unfold digits_from. apply Forall2_app; [|constructor; [|constructor]].
    + apply Forall2_same_length_lookup_2; [by rewrite length_map, length_seq|]. intros i ct' x Hi Hx.
      assert (i < r)%nat as Hir by (apply lookup_lt_Some in Hi; lia). rewrite (map_seq_lookup _ _ _ Hir) in Hx. injection Hx as <-.
      apply (decrypt_digit EK e _ rho); [lia | apply Hd; lia | apply mod_range; lia | lia |]. apply holds_mod; [lia|]. by apply Hds.
    + by apply (decrypt_digit EK (L - Z.of_nat r * (e - 8)) _ rho); [lia | apply Hd; lia | | lia |].
  - apply Forall_app_2; [apply Forall_map, Forall_true; intros i; apply mod_range; lia|]. constructor; [|constructor].
    pose proof (Z.pow_le_mono_r 2 (L - Z.of_nat r * (e - 8) - 8) (e - 8) ltac:(lia) ltac:(lia)). lia.
Qed.
End Pipeline.

(** ** The keys of several bases *)

Section Bases.
Context `{W : NativeWidth}.
Context (af ai : NativeVectorT -> ILParams -> outcome NativeVectorT) (ceil_log : Z -> Z -> Z).

(** The gadget in use is that of the map. *)
Record base_ok (p : RingGSWCryptoParams) : Prop := {
  ba_gadget : GetGPowerMap p !! GetBaseG p = Some (GetGPower p);
  ba_digits : GetDigitsG p = ceil_log (GetQ p) (GetBaseG p)
}.

Lemma Change_BaseG_map p b : is_Some (GetGPowerMap p !! b) -> GetGPowerMap (Change_BaseG ceil_log p b) = GetGPowerMap p.
Proof. intros [v Hv]. unfold Change_BaseG. destruct (negb _); [|done]. cbn. rewrite Hv. cbn. by apply insert_id. Qed.

(** A change of base does not depend on the bases before. *)
Lemma Change_BaseG_twice p b1 b2 : base_ok p -> is_Some (GetGPowerMap p !! b1) -> is_Some (GetGPowerMap p !! b2) ->
  Change_BaseG ceil_log (Change_BaseG ceil_log p b1) b2 = Change_BaseG ceil_log p b2.
Proof.
  intros [Hg Hd] [v1 H1] [v2 H2]. destruct p as [N Q q0 B dgs R dR G M pp gc mono meth]. cbn in *. unfold Change_BaseG. cbn.
  destruct (Z.eqb_spec B b1) as [->|]; cbn; [done|]. rewrite H1. cbn. rewrite (insert_id M b1) by done.
  destruct (Z.eqb_spec b1 b2) as [->|]; cbn.
  - rewrite (proj2 (Z.eqb_neq B b2)) by done. cbn. rewrite H1. cbn. by rewrite insert_id.
  - rewrite H2. cbn. rewrite (insert_id M b2) by done. destruct (Z.eqb_spec B b2) as [->|]; cbn; [|done].
    rewrite Hg in H2. injection H2 as <-. by rewrite Hd.
Qed.

Lemma Change_BaseG_self p : Change_BaseG ceil_log p (GetBaseG p) = p.
Proof. unfold Change_BaseG. by rewrite Z.eqb_refl. Qed.

(** The parameters with another base. *)
Definition with_base (params : BinFHECryptoParams) (b : Z) : BinFHECryptoParams :=
  set_rgsw params (Change_BaseG ceil_log (GetRingGSWParams params) b).

Section Loop.
Context (params : BinFHECryptoParams) (Hbase : base_ok (GetRingGSWParams params)).
Abbreviation M := (GetGPowerMap (GetRingGSWParams params)).

Lemma with_base_twice b1 b2 : is_Some (M !! b1) -> is_Some (M !! b2) -> with_base (with_base params b1) b2 = with_base params b2.
Proof. intros H1 H2. unfold with_base. cbn. by rewrite Change_BaseG_twice. Qed.

Context (scheme : RingGSWAccumulator) (sk : NativeVectorT) (S : Z -> key_samples).
Context (P : Z -> RingGSWBTKey -> Prop) (C : FTTCache -> Prop).
Context (HP : forall b c, is_Some (M !! b) -> C c ->
  returns (scheme_KeyGen af ai ceil_log scheme (with_base params b) sk (S b) c) (fun '(key, c') => P b key /\ C c')).

Lemma keys_loop_ok bases b0 keys c : is_Some (M !! b0) -> Forall (fun b => is_Some (M !! b)) bases -> C c ->
  returns (keys_loop af ai ceil_log scheme sk S bases (with_base params b0) keys c) (fun '(params', keys', c') =>
    (exists b, is_Some (M !! b) /\ params' = with_base params b) /\ C c' /\
    (forall b, b ∈ bases -> exists key, keys' !! b = Some key /\ P b key) /\
    (forall b, ~ b ∈ bases -> keys' !! b = keys !! b)).
Proof.
  intros H0 Hall Hc. revert b0 keys c H0 Hc. induction Hall as [|b bases Hb Hall IH]; intros b0 keys c H0 Hc; cbn [keys_loop].
  - split_and!; [by exists b0 | done | by intros b Hb%elem_of_nil | done].
  - fold (with_base (with_base params b0) b). rewrite with_base_twice by done.
    eapply returns_bind; [by apply HP|]. intros [key c1] [Hkey Hc1].
    eapply returns_mono; [by apply IH|]. intros [[params' keys'] c'] (Hp & Hc' & Hin & Hout). split_and!; try done.
    + intros b' Hb'. destruct (decide (b' ∈ bases)) as [Hi|Hi]; [by apply Hin|]. apply elem_of_cons in Hb' as [->|]; [|done].
      exists key. split; [|done]. by rewrite Hout, lookup_insert_eq by done.
    + intros b' Hb'. rewrite not_elem_of_cons in Hb'. rewrite Hout by tauto. apply lookup_insert_ne. naive_solver.
Qed.
End Loop.

Lemma in_map_bases (m : gmap Z (list Z)) b : b ∈ map_bases m <-> is_Some (m !! b).
Proof.
  unfold map_bases. rewrite (merge_sort_Permutation Z.le). split.
  - intros ([b' v] & -> & Hb)%list_elem_of_fmap. apply elem_of_map_to_list in Hb. by exists v.
  - intros [v Hv]. apply list_elem_of_fmap. exists (b, v). split; [done|]. by apply elem_of_map_to_list.
Qed.
End Bases.

Section Keys.
Context `{W : NativeWidth}.
Context (Q psi : Z) (k : nat) (af ai : NativeVectorT -> ILParams -> outcome NativeVectorT) (ceil_log : Z -> Z -> Z).
Context (params : BinFHECryptoParams) (qs : Z) (sk : NativeVectorT) (eps eta : Z) (S : Z -> key_samples).
Abbreviation rg := (GetRingGSWParams params).
Abbreviation lw := (GetLWEParams params).

(** A key for base [b]: encryptions of the bits of the secret for the gadget of
    that base, and a switching key. *)
Definition key_for (b : Z) (EK : RingGSWBTKey) : Prop :=
  exists ek g dg, BSkey EK = Some ek /\ gsw_params Q psi k g dg (Change_BaseG ceil_log rg b) /\
    cggi_keys Q psi k g dg (Change_BaseG ceil_log rg b) (m_data (sample_skN (S b))) eps (secret sk qs) (GetLength sk) ek /\
    switching_key_ok (m_qKS lw) (m_baseKS lw) (digitCount ceil_log lw) sk (sample_skN (S b)) (KSkey EK) (sample_E (S b)).

Lemma Change_BaseG_poly p b : GetPolyParams (Change_BaseG ceil_log p b) = GetPolyParams p.
Proof. unfold Change_BaseG. by destruct (negb _). Qed.

Lemma scheme_KeyGen_ok b c : root_ok Q psi k -> (exists g dg, gsw_params Q psi k g dg (Change_BaseG ceil_log rg b)) ->
  secrets_ok Q k qs sk (sample_skN (S b)) -> keygen_params Q psi k ceil_log params sk (sample_skN (S b)) ->
  keygen_samples Q k params sk eps eta (sample_E (S b)) (sample_A (S b)) (sample_U (S b)) (sample_Err (S b)) -> cache_for Q psi k c ->
  returns (scheme_KeyGen af ai ceil_log (RingGSWAccumulatorCGGI af ai) (with_base ceil_log params b) sk (S b) c)
    (fun '(key, c') => key_for b key /\ cache_for Q psi k c').
Proof.
  intros Hr (g & dg & Hp) Hse [Hpr Hn HN HB Hcov HqKS Hdig] HS Hc. unfold scheme_KeyGen.
  eapply returns_mono; [apply (KeyGen_keys Q psi k Hr af ai ceil_log (with_base ceil_log params b) qs sk _ Hse eps eta (RingGSWAccumulatorCGGI af ai)
    (fun m sec ek => cggi_keys Q psi k g dg (Change_BaseG ceil_log rg b) (m_data (sample_skN (S b))) eps sec m ek)); [ | | destruct HS; by split | exact Hc]|].
  - intros U Err c1 HU Hc1. destruct Hse as [[Hqs Hm Hred Ht] _ HsN _].
    pose proof (KeyGenAccCGGI_ok Q psi k Hr af ai g dg _ Hp _ HsN eps sk qs Hqs Hm Hred (fun i j => U i j 0%nat) (fun i j => Err i j 0%nat) c1
      ltac:(intros; apply HU) ltac:(intros; apply HU) Hc1) as H. rewrite bool_decide_eq_true_2 in H; [done|]. apply Forall_true. intros i. apply Ht.
  - split; try done. unfold with_base. cbn [set_rgsw GetRingGSWParams]. by rewrite Change_BaseG_poly.
  - intros [EK c'] ((ek & Eek & Hek) & HK & Hc'). split; [|done]. by exists ek, g, dg.
Qed.

(** [C24] Key generation with time optimisation leaves the parameters with the base they
    had, a key in the map for every base of the gadget map, each valid for the
    gadget of its base, and the key of the current base as the key of the context;
    keys of other bases are untouched. *)
Theorem BTKeyGen_keys key0 keys0 c :
  root_ok Q psi k -> base_ok ceil_log rg ->
  (forall b, is_Some (GetGPowerMap rg !! b) -> exists g dg, gsw_params Q psi k g dg (Change_BaseG ceil_log rg b)) ->
  (forall b, is_Some (GetGPowerMap rg !! b) -> secrets_ok Q k qs sk (sample_skN (S b)) /\
     keygen_params Q psi k ceil_log params sk (sample_skN (S b)) /\
     keygen_samples Q k params sk eps eta (sample_E (S b)) (sample_A (S b)) (sample_U (S b)) (sample_Err (S b))) ->
  cache_for Q psi k c ->
  returns (BTKeyGen af ai ceil_log sk S (mkContext (Some params) (Some (RingGSWAccumulatorCGGI af ai)) key0 keys0 true) c)
    (fun '(ctx, c') => m_params ctx = Some params /\ m_BTKey_map ctx !! GetBaseG rg = Some (m_BTKey ctx) /\
       (forall b, is_Some (GetGPowerMap rg !! b) -> exists EK, m_BTKey_map ctx !! b = Some EK /\ key_for b EK) /\
       (forall b, GetGPowerMap rg !! b = None -> m_BTKey_map ctx !! b = keys0 !! b) /\ cache_for Q psi k c').
Proof.
  intros Hr Hb Hg HS Hc. unfold BTKeyGen. cbn [m_params m_timeOptimization m_binfhescheme m_BTKey_map deref]. rewrite bind_Ok.
  assert (with_base ceil_log params (GetBaseG rg) = params) as Eself by (unfold with_base; rewrite Change_BaseG_self; by destruct params).
  assert (is_Some (GetGPowerMap rg !! GetBaseG rg)) as Hin by (eexists; apply (ba_gadget _ _ Hb)).
  eapply returns_bind; [rewrite bind_Ok; rewrite <- Eself at 2; eapply returns_bind; [apply (keys_loop_ok af ai ceil_log params Hb _ sk S key_for (cache_for Q psi k))|]|].
  - intros b c1 Hbm Hc1. destruct (HS b Hbm) as (H1 & H2 & H3). by apply scheme_KeyGen_ok; [|by apply Hg|..].
  - done.
  - apply Forall_forall. intros b. by apply in_map_bases.
  - done.
  - intros [[params' keys'] c'] ((b & Hbm & ->) & Hc' & Hk & Hout). cbn [returns].
    instantiate (1 := fun '(params', keys', c') => params' = params /\ cache_for Q psi k c' /\
      (forall b, is_Some (GetGPowerMap rg !! b) -> exists EK, keys' !! b = Some EK /\ key_for b EK) /\
      (forall b, GetGPowerMap rg !! b = None -> keys' !! b = keys0 !! b)). cbv beta iota. split_and!; [| done | |].
    + change (with_base ceil_log (with_base ceil_log params b) (GetBaseG rg) = params). by rewrite with_base_twice.
    + intros b' Hb'. apply Hk. by apply in_map_bases.
    + intros b' Hb'. apply Hout. rewrite in_map_bases, Hb'. by intros [? [=]].
  - intros [[params' keys'] c'] (-> & Hc' & Hk & Hout). destruct (Hk _ Hin) as (EK & EEK & HEK).
    rewrite (proj2 (Nat.eqb_neq (size keys') 0)) by (rewrite map_size_ne_0_lookup; by exists (GetBaseG rg)). cbn [negb]. rewrite !bind_Ok, EEK. cbn [default].
    rewrite insert_id by done. cbn. done.
Qed.

(** Without time optimisation, a context that has keys keeps them: the secret is not
    read. *)
Lemma BTKeyGen_stale A key0 keys0 c : keys0 <> ∅ ->
  BTKeyGen af ai ceil_log sk S (mkContext (Some params) (Some A) key0 keys0 false) c
  = let key := default null_key (keys0 !! GetBaseG rg) in
    Ok (mkContext (Some params) (Some A) key (<[GetBaseG rg := key]> keys0) false, c).
Proof.
  intros Hk. unfold BTKeyGen. cbn [m_params m_timeOptimization m_binfhescheme m_BTKey_map deref]. rewrite !bind_Ok.
  rewrite (proj2 (Nat.eqb_neq (size keys0) 0)) by (by rewrite map_size_empty_iff). cbn [negb]. by rewrite !bind_Ok.
Qed.
End Keys.

(** ** The parameter sets *)

(** The number of rows of an encryption of a bit, for a prime of [numberBits] bits. *)
Definition set_rows (p : BinFHEContextParams) : Z :=
  2 * ((numberBits p + Z.log2 (gadgetBase p) - 1) / Z.log2 (gadgetBase p)).

(** The sets whose arrays are long enough for the traces of the CGGI accumulator:
    1024 values and eight rows. *)
Definition traced_set (p : BinFHEContextParams) : bool := (1024 <=? cyclOrder p / 2) && (8 <=? set_rows p).

(** Every set is in the table, its ring dimension and its moduli are powers of two,
    the LWE modulus divides twice the ring dimension and is a multiple of eight, and
    the gadget base is a power of two. *)
Definition set_consistent (p : BinFHEContextParams) : bool :=
  (cyclOrder p =? 2 ^ Z.log2 (cyclOrder p)) && (mod_lwe p =? 2 ^ Z.log2 (mod_lwe p)) &&
  (cyclOrder p mod mod_lwe p =? 0) && (mod_lwe p mod 8 =? 0) && IsPowerOfTwo (gadgetBase p) &&
  ((modKS p =? PRIME) || ((modKS p =? 2 ^ Z.log2 (modKS p)) && (mod_lwe p <? modKS p))) && (1 <? cp_baseKS p) && (1 <? baseRK p).

Lemma parameter_sets_consistent set : exists p, find_set set = Some p /\ set_consistent p = true.
Proof. destruct set; eexists; (split; [reflexivity | vm_compute; reflexivity]). Qed.

Lemma parameter_sets_traced :
  map fst (List.filter (fun e => negb (traced_set (snd e))) paramsMap)
  = [TOY; MEDIUM; STD128_AP; STD128_APOPT; STD192; STD192_OPT; STD128Q; STD128Q_OPT; STD192Q; STD192Q_OPT].
Proof. vm_compute. reflexivity. Qed.
