(* ===== verification/ContextWitness.v ===== *)
(** * A concrete context

    The instance of dimension 1024 of the Boolean scheme: functions, flooring, sign,
    digits and keys. *)
From stdpp Require Import base numbers list gmap sorting.
From Stdlib Require Import ZArith Lia.
From S2P Require Import Prelude Bits NativeInt NativeIntProps NativeVector Ntt NttProps FttProps NbTheory Poly PolyProps PolyDigitProps PolyAlg Lwe LweProps LweSwitch StdLattice Rgsw RgswDigits RgswRing RgswKeys RgswAcc RgswEval RgswKeyGen BinFHE BinExtract BinRotation BinBoot BinGate BinScheme BinProps BinFunc BinEval BinFloor BinSign BinContext ContextProps BinWitness.
Open Scope Z_scope.

#[local] Existing Instance W64.

Definition S27 (base : Z) : key_samples := mkSamples skN27 E27 V27 U27 Err27.
Definition log2_exact (x : Z) : Z := Z.log2 x.

Lemma keygen_params27 : keygen_params Q27 psi27 10 digits_of params27 sk27 skN27.
Proof. split; try done. Qed.

Lemma ready27 : keys_ready Q27 psi27 10 7 4 params27 10 digits_of 16384 sk27 1 1 0 0 68 S27.
Proof. split; [by apply ring_ok27 | apply cggi27 | apply secrets27 | apply keygen_params27 | apply samples27 | done | done]. Qed.

Lemma bound27 : cggi_bound 10 7 4 1 1 0 = 2097152.
Proof. vm_compute. reflexivity. Qed.

Lemma weight27 : weight sk27 = 1 /\ weight skN27 = 2.
Proof. vm_compute. done. Qed.

(** The budget for the moduli of at most 12 bits. *)
Lemma bootstraps27 j i : 2 <= j <= 11 -> 2 <= i <= 12 -> bootstraps Q27 psi27 10 7 4 params27 digits_of sk27 1 1 0 0 68 S27 j (2 ^ i).
Proof.
  intros Hj Hi. pose proof (pow2_pos i ltac:(lia)) as H0. assert (2 ^ i <= 4096) as Hle by (change 4096 with (2 ^ 12); apply Z.pow_le_mono_r; lia).
  assert (4 <= 2 ^ i) by (change 4 with (2 ^ 2); apply Z.pow_le_mono_r; lia).
  split.
  - split; try done. unfold Q27. lia.
  - assert (GetMSB (2 ^ i) <= MAX_MODULUS_SIZE) by (rewrite GetMSB_log2, Z.log2_pow2 by lia; cbn; lia).
    split; try done. split; try done. change (m_qKS (GetLWEParams params27)) with 16384. lia.
  - unfold back_noise. rewrite bound27. cbn [sample_skN S27]. rewrite (proj1 weight27), (proj2 weight27). rewrite ?Z.mul_0_r.
    change (m_qKS (GetLWEParams params27)) with 16384. change (Z.of_nat (GetLength sk27)) with 1. unfold Q27. nia.
Qed.

Lemma lwe_modulus27 j : 3 <= j <= 12 -> lwe_modulus (GetLength sk27) (2 ^ j).
Proof.
  intros Hj. assert (j = 3 \/ j = 4 \/ j = 5 \/ j = 6 \/ j = 7 \/ j = 8 \/ j = 9 \/ j = 10 \/ j = 11 \/ j = 12) as Hc by lia.
  repeat (destruct Hc as [-> | Hc]; [by split|]). subst. by split.
Qed.

Lemma decrypt27_at j t : 3 <= j <= 12 -> 0 <= t < j -> decrypt_ok (GetLength sk27) (2 ^ j) (2 ^ t).
Proof.
  intros Hj Ht. pose proof (pow2_pos t ltac:(lia)). pose proof (Z.pow_le_mono_r 2 t 12 ltac:(lia) ltac:(lia)). pose proof (Z.pow_le_mono_r 2 j 12 ltac:(lia) ltac:(lia)).
  split; [by apply lwe_modulus27 | cbn in *; lia | change (2 ^ wbits) with (2 ^ 64); cbn in *; nia |].
  exists (2 ^ (j - 1 - t)). change 2 with (2 ^ 1) at 3. rewrite <- !Z.pow_add_r by lia. f_equal. lia.
Qed.

Definition square (x p : Z) : Z := x * x mod p.

Lemma function27 : function_space 10 log2_exact log2_exact sk27 68 2 10 square.
Proof. split; [done | lia | done | intros x _; apply mod_range; lia | unfold GetBeta; lia | by apply decrypt27_at]. Qed.

Lemma EvalFunc_correct_witness :
  ('(ctx, c) ← BTKeyGen no_arb no_arb digits_of sk27 S27 (fresh_context params27 (RingGSWAccumulatorCGGI no_arb no_arb)) empty_cache;
   LUT ← GenerateLUTviaFunction log2_exact log2_exact ctx square (2 ^ 2);
   '(ct, c) ← Context_Encrypt no_arb no_arb digits_of ctx sk27 3 FRESH (2 ^ 2) 0 4 mask27 c;
   '(ct, _) ← Context_EvalFunc no_arb no_arb digits_of ctx ct LUT c;
   Context_Decrypt ctx sk27 ct (2 ^ 2)) = Ok 1.
Proof.
  apply (EvalFunc_correct (W := W64) Q27 psi27 10 7 4 params27 10 no_arb no_arb digits_of log2_exact log2_exact 16384 sk27 1 1 0 0 68 S27 ready27
    2 10 square 3 4 mask27 empty_cache); [apply function27 | by apply bootstraps27 | by apply (bootstraps27 11 11) | done | lia | by apply encryption27 | apply cache27].
Defined.

Lemma EvalFloor_correct_witness :
  ('(ctx, c) ← BTKeyGen no_arb no_arb digits_of sk27 S27 (fresh_context params27 (RingGSWAccumulatorCGGI no_arb no_arb)) empty_cache;
   p ← GetMaxPlaintextSpace ctx;
   '(ct, c) ← Context_Encrypt no_arb no_arb digits_of ctx sk27 3 FRESH p 0 4 mask27 c;
   '(ct, _) ← Context_EvalFloor no_arb no_arb digits_of ctx ct 1 c;
   Context_Decrypt ctx sk27 ct p) = Ok 2.
Proof.
  apply (EvalFloor_correct (W := W64) Q27 psi27 10 7 4 params27 10 no_arb no_arb digits_of 16384 sk27 1 1 0 0 68 S27 ready27 1 10 3 4 mask27 empty_cache);
    [split; [lia | unfold GetBeta; lia | by apply bootstraps27 | by apply (decrypt27_at 10 2)] | lia | by apply encryption27 | apply cache27].
Defined.

Definition mask12 : NativeVectorT := mkVector [777] 4096.

Lemma encryption12 : encryption_sample 12 sk27 4 mask12 20.
Proof. split; [split; [split; [done | done | by repeat constructor] | done]|]. split; [done|]. exists 4. split; [lia | done]. Qed.

Lemma sign27 : sign_space Q27 psi27 10 7 4 params27 10 digits_of sk27 1 1 0 0 68 S27 12 20.
Proof.
  split; [split; [lia|]; split; [lia | cbn; lia] | unfold GetBeta; lia | rewrite (proj1 weight27); done | intros j Hj; apply bootstraps27; lia | by apply lwe_modulus27].
Qed.


Lemma EvalDecomp_correct_witness :
  returns ('(ctx, c) ← BTKeyGen no_arb no_arb digits_of sk27 S27 (fresh_context params27 (RingGSWAccumulatorCGGI no_arb no_arb)) empty_cache;
    '(ct, c) ← Context_Encrypt no_arb no_arb digits_of ctx sk27 11 FRESH (2 ^ 4) (2 ^ 12) 4 mask12 c;
    '(ret, ctx', _) ← Context_EvalDecomp no_arb no_arb digits_of log2_exact 2 ctx ct c;
    Ok (ret, ctx, ctx'))
    (fun '(ret, ctx, ctx') => ctx' = ctx /\ exists digits,
       Forall2 (fun ct x => Context_Decrypt ctx sk27 ct (Lwe.GetModulus ct / 256) = Ok x) ret digits /\
       Forall (fun x => 0 <= x < 4) digits /\ digits_value 2 digits = 11).
Proof.
  apply (EvalDecomp_correct (W := W64) Q27 psi27 10 7 4 params27 10 no_arb no_arb digits_of log2_exact 16384 sk27 1 1 0 0 68 S27 ready27 12 20 11 4 mask12 2 empty_cache);
    [apply sign27 | lia | apply encryption12 | lia | intros j Hj; apply decrypt27_at; lia | apply cache27].
Defined.

Lemma Bootstrap_refreshes_witness :
  returns ('(EK, c) ← BinFHE_KeyGen no_arb no_arb digits_of (RingGSWAccumulatorCGGI no_arb no_arb) params27 sk27 skN27 E27 V27 U27 Err27 empty_cache;
           ct ← Encrypt sk27 1 4 (2 ^ 10) 9 mask27;
           Bootstrap no_arb no_arb digits_of (RingGSWAccumulatorCGGI no_arb no_arb) params27 EK ct c)
    (fun '(ct, _) => encrypts sk27 (2 ^ 10) 1 40 ct).
Proof.
  apply (Bootstrap_refreshes (W := W64) Q27 psi27 10 7 4 params27 10 no_arb no_arb digits_of 16384 sk27 skN27 1 1 0 0 40 10 true
    E27 V27 U27 Err27 9 mask27 empty_cache); [by apply ring_ok27 | apply cggi27 | apply secrets27
    | by apply scheme27 | apply decrypt27 | apply samples27 | by apply encryption27 | done | apply cache27].
Defined.

(** ** A ring of dimension 8 *)

Definition ring8 : ILParams := Poly.mkParams 16 8 true 17 3 0 0.
Definition map8 : gmap Z (list Z) := <[4 := [1; 4; 16]]> {[8 := [1; 8]]}.
Definition rgsw8 : RingGSWCryptoParams :=
  mkRingGSW 8 17 16 4 3 4 [] [1; 4; 16] map8 ring8 [10; 14; 2; 6; 10; 2] [] GINX.
Definition lwe8 : LWECryptoParams := Lwe.mkParams 1 8 16 17 16 3 3 4.
Definition params8 : BinFHECryptoParams := mkBinFHE lwe8 rgsw8.

Lemma gate_params8 : gate_params 17 3 3 params8 4.
Proof. by split. Qed.

Definition ct8 : LWECiphertextImpl := mkCiphertext (mkVector [5] 16) 3.

Lemma ct8_wf : ct_wf 1 16 ct8.
Proof. split; [split; [done | done | by repeat constructor] | done | done | done]. Qed.

Lemma gate_trace_out_of_bounds_witness :
  EvalBinGate no_arb no_arb digits_of (RingGSWAccumulatorCGGI no_arb no_arb) params8 XOR (mkBTKey (Some []) (mkSwitchingKey [] [])) false ct8 ct8 empty_cache = UB.
Proof.
  exact (proj1 (gate_trace_out_of_bounds (W := W64) 17 3 3 params8 4 no_arb no_arb digits_of (RingGSWAccumulatorCGGI no_arb no_arb) XOR
    (mkBTKey (Some []) (mkSwitchingKey [] [])) [] 1 ct8 ct8 empty_cache root8 gate_params8 ltac:(lia) eq_refl ct8_wf ct8_wf)).
Defined.

(** A periodic table whose first entries are half the modulus is not supported. *)
Definition lut8 : list Z := [8; 1; 1; 1; 1; 1; 1; 1; 8; 1; 1; 1; 1; 1; 1; 1].

Lemma EvalFunc_guard_witness :
  periodic_table lut8 8 = true /\
  EvalFunc no_arb no_arb digits_of (RingGSWAccumulatorCGGI no_arb no_arb) params8 null_key ct8 lut8 1 empty_cache = Throw not_implemented_error.
Proof.
  split; [reflexivity|]. apply (EvalFunc_guard (W := W64) no_arb no_arb digits_of (RingGSWAccumulatorCGGI no_arb no_arb) params8 null_key ct8 lut8 1 8 empty_cache);
    [lia | done | done | by repeat constructor | done | done | done].
Defined.

Lemma base8 : base_ok digits_of rgsw8.
Proof. split; reflexivity. Qed.

Lemma bases8 b : is_Some (map8 !! b) -> b = 4 \/ b = 8.
Proof.
  unfold map8. intros [v Hv]. destruct (decide (b = 4)) as [->|]; [by left|]. rewrite lookup_insert_ne in Hv by done.
  apply lookup_singleton_Some in Hv as [<- _]. by right.
Qed.

Lemma gadgets8 b : is_Some (map8 !! b) -> exists g dg, gsw_params 17 3 3 g dg (Change_BaseG digits_of rgsw8 b).
Proof. intros [-> | ->]%bases8; [exists 2, 3%nat | exists 3, 2%nat]; by split. Qed.

Definition sk8 : NativeVectorT := mkVector [15] 16.
Definition skN8 : NativeVectorT := mkVector (1 :: repeat 0 7) 17.
Definition S8 (base : Z) : key_samples :=
  mkSamples skN8 E27 (fun i d j => mkVector [Z.of_nat (i + d + j) mod 16] 16)
    (fun i j l m => mkVector (repeat (base mod 17) 8) 17) (fun i j l m => mkVector (repeat 1 8) 17).

Lemma repeat8 x : 0 <= x < 17 -> ring_elem 17 3 (repeat x 8).
Proof. intros H. split; [done | by apply Forall_repeat]. Qed.

Lemma secrets8 : secrets_ok 17 3 16 sk8 skN8.
Proof.
  split; [| split; [done | done | by repeat constructor] | split; [done | by repeat constructor] | done].
  split; [done | done | by repeat constructor |]. intros [|i]; [done|]. by destruct i.
Qed.

Lemma keygen_params8 : keygen_params 17 3 3 digits_of params8 sk8 skN8.
Proof. split; try done. Qed.

Lemma samples8 b : keygen_samples 17 3 params8 sk8 1 0 (sample_E (S8 b)) (sample_A (S8 b)) (sample_U (S8 b)) (sample_Err (S8 b)).
Proof.
  split.
  - intros i j l. split; [done|]. split; [|done]. pose proof (mod_range (Z.of_nat (i + j + l)) 16 ltac:(lia)).
    split; [done | done |]. by apply Forall_singleton.
  - intros i d j. by exists 0.
  - intros i j l. split; intros m; [apply repeat8, mod_range; lia|]. split; [by apply repeat8|]. apply Forall_repeat. by exists 1.
Qed.

Lemma BTKeyGen_keys_witness :
  returns (BTKeyGen no_arb no_arb digits_of sk8 S8 (mkContext (Some params8) (Some (RingGSWAccumulatorCGGI no_arb no_arb)) null_key ∅ true) empty_cache)
    (fun '(ctx, _) => m_params ctx = Some params8 /\ m_BTKey_map ctx !! 4 = Some (m_BTKey ctx) /\ exists EK, m_BTKey_map ctx !! 8 = Some EK).
Proof.
  eapply returns_mono; [apply (BTKeyGen_keys (W := W64) 17 3 3 no_arb no_arb digits_of params8 16 sk8 1 0 S8 null_key ∅ empty_cache);
    [apply root8 | apply base8 | apply gadgets8 | intros b _; split_and!; [apply secrets8 | apply keygen_params8 | apply samples8] | by left]|].
  intros [ctx c] (H1 & H2 & H3 & _). split; [exact H1|]. split; [exact H2|].
  destruct (H3 8) as (EK & HEK & _); [by exists [1; 8]|]. by exists EK.
Defined.
