(* ===== verification/Dcrt.v ===== *)
(** * Double-CRT polynomials

    The class [DCRTPolyImpl] of core/lib/lattice/hal/default/dcrtpoly.cpp and
    core/include/lattice/hal/default/dcrtpoly.h, with its parameters [ILDCRTParams]
    of core/include/lattice/ildcrtparams.h. An element is the record of its towers,
    ring elements over native moduli ([PolyImpl] of Poly.v), the representation and
    the parameters; the product of the moduli is a multiprecision integer, and
    interpolation returns a ring element over a multiprecision vector ([BigPoly]).

    The loops over the towers are parallel in the source; every turn writes a tower of
    its own, and the model runs them in order. A turn that transforms or changes the
    modulus of a tower threads the state [rstate]: the table cache of the transforms and
    the number of the next draw of the factorization in [GetTotient]. The parameters are
    shared between elements; only [originalModulus] is changed through an element, and no
    operation here reads it. *)
From stdpp Require Import base numbers list.
From Stdlib Require Import ZArith Lia Ascii.
From S2P Require Import Prelude Bits NativeInt NativeVector Ntt NbTheory BigInt BigDiv BigVector BigNtt Poly.
Open Scope Z_scope.

(** ** Parameters *)

(** The fields of the base class and of [ILDCRTParams]; the two roots of unity of the base
    class stay zero. *)
Record ILDCRTParams := mkDParams {
  d_cyclotomicOrder : Z;
  d_ringDimension : Z;
  d_isPowerOfTwo : bool;
  d_ciphertextModulus : ubint;
  d_bigCiphertextModulus : ubint;
  d_parms : list ILParams;
  d_originalModulus : ubint
}.

Definition set_modulus (p : ILDCRTParams) (m : ubint) (parms : list ILParams) : ILDCRTParams :=
  mkDParams (d_cyclotomicOrder p) (d_ringDimension p) (d_isPowerOfTwo p) m (d_bigCiphertextModulus p)
    parms (d_originalModulus p).
Definition SetOriginalModulus (p : ILDCRTParams) (m : ubint) : ILDCRTParams :=
  mkDParams (d_cyclotomicOrder p) (d_ringDimension p) (d_isPowerOfTwo p) (d_ciphertextModulus p)
    (d_bigCiphertextModulus p) (d_parms p) m.

(** [modulus = 1; for (...) modulus = modulus * IntType(m_parms\[i\]->...)] *)
Fixpoint product_from (mul : ubint -> ubint -> outcome ubint) (acc : ubint) (ms : list Z) : outcome ubint :=
  match ms with
  | [] => Ok acc
  | m :: ms => acc ← mul acc (ubint_int m); product_from mul acc ms
  end.
Definition RecalculateModulus (p : ILDCRTParams) : outcome ILDCRTParams :=
  m ← product_from Mul (ubint_int 1) (map ciphertextModulus (d_parms p));
  Ok (set_modulus p m (d_parms p)).
Definition RecalculateBigModulus (p : ILDCRTParams) : outcome ILDCRTParams :=
  m ← product_from Mul (ubint_int 1) (map bigCiphertextModulus (d_parms p));
  Ok (mkDParams (d_cyclotomicOrder p) (d_ringDimension p) (d_isPowerOfTwo p) (d_ciphertextModulus p) m
        (d_parms p) (d_originalModulus p)).

Definition PopLastParam (p : ILDCRTParams) : outcome ILDCRTParams :=
  match last (d_parms p) with
  | None => UB
  | Some l =>
      m ← DividedByEq (d_ciphertextModulus p) (ubint_int (ciphertextModulus l));
      Ok (set_modulus p m (take (length (d_parms p) - 1) (d_parms p)))
  end.
Definition PopFirstParam (p : ILDCRTParams) : outcome ILDCRTParams :=
  match d_parms p with
  | [] => UB
  | f :: parms =>
      m ← DividedByEq (d_ciphertextModulus p) (ubint_int (ciphertextModulus f));
      Ok (set_modulus p m parms)
  end.

Definition GetParamPartition (p : ILDCRTParams) (start end_ : nat) : outcome (list ILParams) :=
  if (end_ <? start)%nat || (length (d_parms p) <? end_)%nat then Throw math_error
  else vmapM (fun i => vget (d_parms p) (i + start)) (seq 0 (end_ - start + 1)).

Definition dparams_eqb (a b : ILDCRTParams) : outcome bool :=
  m ← op_eq (d_ciphertextModulus a) (d_ciphertextModulus b);
  mb ← op_eq (d_bigCiphertextModulus a) (d_bigCiphertextModulus b);
  Ok ((d_cyclotomicOrder a =? d_cyclotomicOrder b) && (d_ringDimension a =? d_ringDimension b) &&
      (m : bool) && (mb : bool) && (length (d_parms a) =? length (d_parms b))%nat &&
      forallb (fun '(x, y) => params_eqb x y) (combine (d_parms a) (d_parms b))).

(** ** Elements *)

Record DCRTPoly := mkDCRT {
  m_vectors : list PolyImpl;
  m_format : Format;
  m_params : ILDCRTParams
}.

Definition set_vectors (d : DCRTPoly) (vs : list PolyImpl) : DCRTPoly := mkDCRT vs (m_format d) (m_params d).
Definition GetRingDimension (d : DCRTPoly) : nat := Z.to_nat (d_ringDimension (m_params d)).

(** A ring element over a multiprecision vector, as interpolation builds it. *)
Record BigPoly := mkBigPoly {
  bp_values : option mubintvec;
  bp_format : Format;
  bp_order : Z;
  bp_dimension : Z;
  bp_modulus : ubint;
  bp_root : ubint
}.

Definition rstate : Type := FTTCache * nat.

(** Loops over the towers: alone, together with a second vector that is read at the same
    index, and threading the state. *)
Fixpoint zip_towers {A B C} (f : A -> B -> outcome C) (vs : list A) (us : list B) : outcome (list C) :=
  match vs, us with
  | [], _ => Ok []
  | _ :: _, [] => UB
  | v :: vs, u :: us => r ← f v u; rs ← zip_towers f vs us; Ok (r :: rs)
  end.
Fixpoint towers_st {A B S} (f : A -> S -> outcome (B * S)) (l : list A) (st : S) : outcome (list B * S) :=
  match l with
  | [] => Ok ([], st)
  | x :: l => '(r, st) ← f x st; '(rs, st) ← towers_st f l st; Ok (r :: rs, st)
  end.

Section Definitions.
Context `{W : NativeWidth}.
Context (arb_forward arb_inverse : NativeVectorT -> ILParams -> outcome NativeVectorT).
Context (dist : nat -> Z -> Z) (rfuel fuel : nat).

(** The operations of a tower that use the state. *)
Definition tower_SwitchFormat (p : PolyImpl) (st : rstate) : outcome (PolyImpl * rstate) :=
  '(p, c) ← Poly.SwitchFormat arb_forward arb_inverse p (fst st); Ok (p, (c, snd st)).
Definition tower_SetFormat (F : Format) (p : PolyImpl) (st : rstate) : outcome (PolyImpl * rstate) :=
  '(p, c) ← Poly.SetFormat arb_forward arb_inverse p F (fst st); Ok (p, (c, snd st)).
Definition tower_SwitchModulus (modulus root : Z) (p : PolyImpl) (st : rstate) : outcome (PolyImpl * rstate) :=
  '(p, n) ← SwitchModulus_poly dist rfuel fuel p modulus root 0 0 (snd st); Ok (p, (fst st, n)).
Definition native_params (order modulus root bigModulus bigRoot : Z) (st : rstate)
    : outcome (ILParams * rstate) :=
  '(p, n) ← ElemParams_new dist rfuel fuel order modulus root bigModulus bigRoot (snd st);
  Ok (p, (fst st, n)).

(** [ElemParams<IntType>(order, 0, 0, 0, 0)] of the parameters of an element. *)
Definition dparams_base (order : Z) (om : ubint) (st : rstate) : outcome (ILDCRTParams * rstate) :=
  '(p, st) ← native_params order 0 0 0 0 st;
  Ok (mkDParams (cyclotomicOrder p) (ringDimension p) (isPowerOfTwo p) (ubint_int 0) (ubint_int 0) [] om, st).

(** The constructor from moduli and roots of unity. *)
Definition DCRTParams_lists (order : Z) (moduli roots moduliBig rootsBig : list Z) (om : ubint) (st : rstate)
    : outcome (ILDCRTParams * rstate) :=
  '(p, st) ← dparams_base order om st;
  if negb (length moduli =? length roots)%nat then Throw math_error
  else if (length moduliBig =? length moduli)%nat then
    '(parms, st) ← towers_st (fun i st =>
        q ← vget moduli i; r ← vget roots i; qb ← vget moduliBig i; rb ← vget rootsBig i;
        native_params order q r qb rb st) (seq 0 (length moduli)) st;
    p ← RecalculateBigModulus (set_modulus p (d_ciphertextModulus p) parms);
    p ← RecalculateModulus p;
    Ok (p, st)
  else
    '(parms, st) ← towers_st (fun i st =>
        q ← vget moduli i; r ← vget roots i; native_params order q r 0 0 st) (seq 0 (length moduli)) st;
    p ← RecalculateModulus (set_modulus p (d_ciphertextModulus p) parms);
    Ok (p, st).

(** The constructor from moduli only: the roots are zero. *)
Definition DCRTParams_moduli (order : Z) (moduli : list Z) (om : ubint) (st : rstate)
    : outcome (ILDCRTParams * rstate) :=
  '(p, st) ← dparams_base order om st;
  '(parms, st) ← towers_st (fun q st => native_params order q 0 0 0 st) moduli st;
  p ← RecalculateModulus (set_modulus p (d_ciphertextModulus p) parms);
  Ok (p, st).

(** The constructor from the parameters of the towers. *)
Definition DCRTParams_parms (order : Z) (parms : list ILParams) (om : ubint) (st : rstate)
    : outcome (ILDCRTParams * rstate) :=
  '(p, st) ← dparams_base order om st;
  p ← RecalculateModulus (set_modulus p (d_ciphertextModulus p) parms);
  Ok (p, st).

(** ** Constructors *)

Definition DCRTPoly_new (params : ILDCRTParams) (format : Format) (initializeElementToZero : bool)
    : outcome DCRTPoly :=
  vs ← vmapM (fun p => PolyImpl_new p format initializeElementToZero) (d_parms params);
  Ok (mkDCRT vs format params).

Definition CloneParametersOnly (d : DCRTPoly) : outcome DCRTPoly :=
  DCRTPoly_new (m_params d) (m_format d) false.

(** The constructor from a vector of towers. *)
Definition DCRTPoly_towers (towers : list PolyImpl) (st : rstate) : outcome (DCRTPoly * rstate) :=
  match towers with
  | [] => Throw std_exception
  | t :: _ =>
      let order := cyclotomicOrder (Poly.m_params t) in
      if forallb (fun t => cyclotomicOrder (Poly.m_params t) =? order) towers then
        '(params, st) ← DCRTParams_parms order (map Poly.m_params towers) (ubint_int 0) st;
        Ok (mkDCRT towers (Poly.m_format t) params, st)
      else Throw math_error
  end.

(** [operator=(const PolyLargeType&)] *)
Definition assign_large (this : DCRTPoly) (element : BigPoly) : outcome DCRTPoly :=
  gt ← op_gt (bp_modulus element) (d_ciphertextModulus (m_params this));
  if (gt : bool) then Throw math_error
  else
    let params := SetOriginalModulus (m_params this) (bp_modulus element) in
    let vecCount := length (d_parms params) in
    vs ← vmapM (fun p => PolyImpl_new p (m_format this) true) (d_parms params);
    let bigmods := map (fun p => ubint_int (ciphertextModulus p)) (d_parms params) in
    values ← match bp_values element with None => Throw not_available_error | Some v => Ok v end;
    vs ← for_range 0 (GetLength values) (fun p vs =>
           for_range 0 vecCount (fun v vs =>
             e ← vget (m_data values) p;
             m ← vget bigmods v;
             tmp ← Mod e m;
             x ← ConvertToInt tmp;
             t ← vget vs v;
             t ← set_index t p (wrap x);
             vset vs v t) vs) vs;
    Ok (mkDCRT vs (m_format this) params).

(** [operator=(const PolyType&)] *)
Definition assign_native (this : DCRTPoly) (element : PolyImpl) (st : rstate) : outcome (DCRTPoly * rstate) :=
  gt ← op_gt (ubint_int (Poly.GetModulus element)) (d_ciphertextModulus (m_params this));
  if (gt : bool) then Throw math_error
  else
    '(vs, st) ← towers_st (fun p st =>
        tower_SwitchModulus (ciphertextModulus p) (rootOfUnity p) element st)
        (tail (d_parms (m_params this))) st;
    Ok (set_vectors this (element :: vs), st).

(** The constructors from a ring element with a large or a native modulus. *)
Definition DCRTPoly_large (element : BigPoly) (params : ILDCRTParams) : outcome DCRTPoly :=
  if negb (bp_order element =? d_cyclotomicOrder params) then Throw math_error
  else assign_large (mkDCRT [] (bp_format element) (SetOriginalModulus params (bp_modulus element))) element.
Definition DCRTPoly_native (element : PolyImpl) (params : ILDCRTParams) (st : rstate)
    : outcome (DCRTPoly * rstate) :=
  if negb (cyclotomicOrder (Poly.m_params element) =? d_cyclotomicOrder params) then Throw math_error
  else assign_native (mkDCRT [] (Poly.m_format element) params) element st.

(** A sampled integer as an entry: the opposite of a negative one is subtracted from the
    modulus. *)
Definition sampled_entry (modulus k : Z) : Z :=
  if k <? 0 then wrap (modulus - wrap (- k)) else wrap k.
(** One vector of integers for all towers, with [entry] for each. *)
Definition signed_towers (entry : Z -> Z -> outcome Z) (values : list Z) (params : ILDCRTParams) (format : Format)
    (st : rstate) : outcome (DCRTPoly * rstate) :=
  '(vs, st) ← towers_st (fun p st =>
      v ← NativeVectorT_new (Z.to_nat (d_ringDimension params)) (ciphertextModulus p);
      data ← for_range 0 (Z.to_nat (d_ringDimension params)) (fun j data =>
               k ← vget values j; e ← entry (ciphertextModulus p) k; vset data j e) (NativeVector.m_data v);
      ilvector ← Poly.SetValues (mkPoly None EVALUATION p) (mkVector data (NativeVector.m_modulus v)) COEFFICIENT;
      tower_SetFormat format ilvector st) (d_parms params) st;
  Ok (mkDCRT vs format params, st).
(** The constructor from the ternary generator: [values] are the integers it returned. *)
Definition DCRTPoly_ternary : list Z -> ILDCRTParams -> Format -> rstate -> outcome (DCRTPoly * rstate) :=
  signed_towers (fun q k => Ok (sampled_entry q k)).
(** The constructor from the Gaussian generator: an integer is reduced first when the standard
    deviation is above the modulus, a comparison of floating-point numbers that is an argument. *)
Definition gaussian_entry (std_above : Z -> bool) (modulus k : Z) : outcome Z :=
  let qmodulus := to_signed modulus in
  if std_above qmodulus then if qmodulus =? 0 then UB else Ok (sampled_entry modulus (Z.rem k qmodulus))
  else Ok (sampled_entry modulus k).
Definition DCRTPoly_gaussian (std_above : Z -> bool) : list Z -> ILDCRTParams -> Format -> rstate -> outcome (DCRTPoly * rstate) :=
  signed_towers (gaussian_entry std_above).

(** The constructor from the binary generator: one polynomial for the first modulus, switched
    from tower to tower. *)
Fixpoint binary_towers (format : Format) (ilvector : PolyImpl) (ps : list ILParams) (st : rstate)
    : outcome (list PolyImpl * rstate) :=
  match ps with
  | [] => Ok ([], st)
  | p :: ps =>
      '(ilvector, st) ← tower_SwitchModulus (ciphertextModulus p) (rootOfUnity p) ilvector st;
      '(newVector, st) ← tower_SetFormat format ilvector st;
      '(vs, st) ← binary_towers format ilvector ps st;
      Ok (newVector :: vs, st)
  end.
Definition DCRTPoly_binary (values : NativeVectorT) (params : ILDCRTParams) (format : Format) (st : rstate)
    : outcome (DCRTPoly * rstate) :=
  match d_parms params with
  | [] => UB
  | p :: ps =>
      '(ilvector, c) ← PolyImpl_binary arb_forward arb_inverse values p COEFFICIENT (fst st);
      '(newVector, st) ← tower_SetFormat format ilvector (c, snd st);
      '(vs, st) ← binary_towers format ilvector ps st;
      Ok (mkDCRT (newVector :: vs) format params, st)
  end.

(** The constructor from the uniform generator: [draws] are its vectors. *)
Definition DCRTPoly_uniform (draws : list NativeVectorT) (params : ILDCRTParams) (format : Format) (st : rstate)
    : outcome (DCRTPoly * rstate) :=
  '(vs, st) ← towers_st (fun i st =>
      p ← vget (d_parms params) i;
      vals ← vget draws i;
      ilvector ← Poly.SetValues (mkPoly None EVALUATION p) vals COEFFICIENT;
      tower_SetFormat format ilvector st) (seq 0 (length (d_parms params))) st;
  Ok (mkDCRT vs format params, st).

Definition GetElementAtIndex (d : DCRTPoly) (i : nat) : outcome PolyImpl :=
  match m_vectors d with
  | [] => Throw config_error
  | _ => match m_vectors d !! i with None => Throw math_error | Some v => Ok v end
  end.
Definition SetElementAtIndex (d : DCRTPoly) (i : nat) (element : PolyImpl) : outcome DCRTPoly :=
  v ← vget (m_vectors d) i;
  vs ← vset (m_vectors d) i (assign_poly v element);
  Ok (set_vectors d vs).

(** [CloneTowers]: the result is marked as an evaluation whatever the towers are. The number of
    towers wraps at 32 bits when the end is before the start by more than one, a size that is not
    modelled. *)
Definition CloneTowers (d : DCRTPoly) (startTower endTower : nat) (st : rstate) : outcome (DCRTPoly * rstate) :=
  let idx := seq startTower (endTower + 1 - startTower) in
  _ ← (if (endTower + 1 <? startTower)%nat then UB else Ok tt);
  ps ← vmapM (vget (d_parms (m_params d))) idx;
  '(params, st) ← DCRTParams_lists (d_cyclotomicOrder (m_params d)) (map ciphertextModulus ps)
                    (map rootOfUnity ps) [] [] (ubint_int 0) st;
  res ← DCRTPoly_new params EVALUATION false;
  res ← for_range startTower (endTower + 1) (fun i res =>
          e ← GetElementAtIndex d i; SetElementAtIndex res (i - startTower) e) res;
  Ok (res, st).

(** ** Arithmetic *)

(** Towers one by one, and two elements after the test on the number of towers. *)
Definition map_towers (f : PolyImpl -> outcome PolyImpl) (d : DCRTPoly) : outcome DCRTPoly :=
  vs ← vmapM f (m_vectors d); Ok (set_vectors d vs).
Definition zip_checked {A} (f : PolyImpl -> A -> outcome PolyImpl) (d : DCRTPoly) (us : list A) : outcome DCRTPoly :=
  if negb (length (m_vectors d) =? length us)%nat then Throw math_error
  else vs ← zip_towers f (m_vectors d) us; Ok (set_vectors d vs).
Definition zip_unchecked {A} (f : PolyImpl -> A -> outcome PolyImpl) (d : DCRTPoly) (us : list A) : outcome DCRTPoly :=
  vs ← zip_towers f (m_vectors d) us; Ok (set_vectors d vs).

Definition Plus (d element : DCRTPoly) : outcome DCRTPoly := zip_checked Poly.PlusEq d (m_vectors element).
Definition Minus (d element : DCRTPoly) : outcome DCRTPoly := zip_checked Poly.MinusEq d (m_vectors element).
Definition Times (d element : DCRTPoly) : outcome DCRTPoly := zip_checked Poly.TimesEq d (m_vectors element).
Definition PlusEq (d rhs : DCRTPoly) : outcome DCRTPoly := zip_unchecked Poly.PlusEq d (m_vectors rhs).
Definition MinusEq (d rhs : DCRTPoly) : outcome DCRTPoly := zip_unchecked Poly.MinusEq d (m_vectors rhs).
Definition TimesEq (d rhs : DCRTPoly) : outcome DCRTPoly := zip_unchecked Poly.TimesEq d (m_vectors rhs).
Definition Negate (d : DCRTPoly) : outcome DCRTPoly := map_towers Poly.Negate d.
Definition neg_dcrt (d : DCRTPoly) : outcome DCRTPoly :=
  all0 ← DCRTPoly_new (m_params d) (m_format d) true; Minus all0 d.
Definition MultiplicativeInverse (d : DCRTPoly) : outcome DCRTPoly :=
  map_towers (fun v => r ← Poly.MultiplicativeInverse v; Ok (assign_poly v r)) d.

(** The operations with an integer: the named ones take its lowest 64 bits, the assignment
    operators reduce it modulo each tower first. *)
Definition Plus_integer (d : DCRTPoly) (element : ubint) : outcome DCRTPoly :=
  map_towers (fun v => e ← ConvertToInt element; PlusEq_scalar v (wrap e)) d.
Definition Minus_integer (d : DCRTPoly) (element : ubint) : outcome DCRTPoly :=
  map_towers (fun v => e ← ConvertToInt element; MinusEq_scalar v (wrap e)) d.
(** [m_vectors\[i\] * element.ConvertToInt()]: of the overloads of [operator*] the one for
    [int64_t] is the better match for a [uint64_t], so the integer is read as signed. *)
Definition times_uint64 (v : PolyImpl) (e : Z) : outcome PolyImpl :=
  r ← Times_signed v (to_signed (wrap e)); Ok (assign_poly v r).
Definition Times_integer (d : DCRTPoly) (element : ubint) : outcome DCRTPoly :=
  map_towers (fun v => e ← ConvertToInt element; times_uint64 v e) d.
Definition Times_signed_dcrt (d : DCRTPoly) (element : Z) : outcome DCRTPoly :=
  map_towers (fun v => r ← Times_signed v element; Ok (assign_poly v r)) d.
Definition reduced_integer (element : ubint) (v : PolyImpl) : outcome Z :=
  r ← Mod element (ubint_int (Poly.GetModulus v)); x ← ConvertToInt r; Ok (wrap x).
Definition PlusEq_integer (d : DCRTPoly) (element : ubint) : outcome DCRTPoly :=
  map_towers (fun v => e ← reduced_integer element v; PlusEq_scalar v e) d.
Definition MinusEq_integer (d : DCRTPoly) (element : ubint) : outcome DCRTPoly :=
  map_towers (fun v => e ← reduced_integer element v; MinusEq_scalar v e) d.
Definition TimesEq_integer (d : DCRTPoly) (element : ubint) : outcome DCRTPoly :=
  map_towers (fun v => e ← reduced_integer element v; TimesEq_scalar v e) d.

(** One integer per tower. *)
Definition Plus_crt (d : DCRTPoly) (crtElement : list ubint) : outcome DCRTPoly :=
  zip_unchecked (fun v e => e ← ConvertToInt e; PlusEq_scalar v (wrap e)) d crtElement.
Definition Minus_crt (d : DCRTPoly) (crtElement : list ubint) : outcome DCRTPoly :=
  zip_unchecked (fun v e => e ← ConvertToInt e; MinusEq_scalar v (wrap e)) d crtElement.
Definition Times_crt (d : DCRTPoly) (crtElement : list ubint) : outcome DCRTPoly :=
  zip_unchecked (fun v e => e ← ConvertToInt e; r ← Times_scalar v (wrap e); Ok (assign_poly v r)) d crtElement.
Definition Times_native (d : DCRTPoly) (element : list Z) : outcome DCRTPoly := zip_checked TimesEq_scalar d element.
(** [TimesNoCheck]: the towers beyond the vector stay. *)
Fixpoint zip_short {A} (f : PolyImpl -> A -> outcome PolyImpl) (vs : list PolyImpl) (us : list A)
    : outcome (list PolyImpl) :=
  match vs, us with
  | [], _ => Ok []
  | vs, [] => Ok vs
  | v :: vs, u :: us => r ← f v u; rs ← zip_short f vs us; Ok (r :: rs)
  end.
Definition TimesNoCheck (d : DCRTPoly) (element : list Z) : outcome DCRTPoly :=
  vs ← zip_short TimesEq_scalar (m_vectors d) element; Ok (set_vectors d vs).

Definition SetValuesToZero (d : DCRTPoly) : outcome DCRTPoly := map_towers Poly.SetValuesToZero d.
Definition AddILElementOne (d : DCRTPoly) : outcome DCRTPoly :=
  match m_format d with
  | COEFFICIENT => Throw not_available_error
  | EVALUATION => map_towers Poly.AddILElementOne d
  end.
Definition MakeSparse (d : DCRTPoly) (wFactor : Z) : outcome DCRTPoly :=
  map_towers (fun v => Poly.MakeSparse v wFactor) d.
(** [for (i = 0; i < size; i++) if (!InverseExists) return false;] *)
Fixpoint all_invertible (vs : list PolyImpl) : outcome bool :=
  match vs with
  | [] => Ok true
  | v :: vs => e ← Poly.InverseExists v; if (e : bool) then all_invertible vs else Ok false
  end.
Definition InverseExists (d : DCRTPoly) : outcome bool := all_invertible (m_vectors d).
Definition AutomorphismTransform (d : DCRTPoly) (i : Z) : outcome DCRTPoly :=
  map_towers (fun v => r ← Poly.AutomorphismTransform v i; Ok (assign_poly v r)) d.
Definition AutomorphismTransform_precomp (d : DCRTPoly) (i : Z) (vec : list Z) : outcome DCRTPoly :=
  map_towers (fun v => r ← Poly.AutomorphismTransform_precomp v i vec; Ok (assign_poly v r)) d.
Definition Transpose (d : DCRTPoly) : outcome DCRTPoly :=
  match m_format d with
  | COEFFICIENT => Throw not_implemented_error
  | EVALUATION => AutomorphismTransform d (u32 (d_cyclotomicOrder (m_params d) - 1))
  end.

(** ** Assignments *)

Definition IsEmpty (d : DCRTPoly) : bool := forallb Poly.IsEmpty (m_vectors d).

(** [NativeVector temp(ringDimension); temp.SetModulus(...)] *)
Definition empty_values (d : DCRTPoly) (v : PolyImpl) : outcome NativeVectorT :=
  NativeVector.SetModulus (mkVector (repeat 0 (GetRingDimension d)) 0) (Poly.GetModulus v).
Definition assign_list {A} (conv : A -> outcome Z) (assign : NativeVectorT -> list A -> outcome NativeVectorT)
    (d : DCRTPoly) (rhs : list A) : outcome DCRTPoly :=
  if IsEmpty d then
    map_towers (fun v => temp ← empty_values d v; temp ← assign temp rhs; Poly.SetValues v temp (m_format d)) d
  else
    v ← vget (m_vectors d) 0;
    n ← GetLength_poly v;
    map_towers (fill_entries conv rhs n) d.
Definition assign_uint64s_dcrt (d : DCRTPoly) (rhs : list Z) : outcome DCRTPoly :=
  assign_list (fun x => Ok (wrap x)) NativeVector.assign_ints d rhs.
Definition assign_strings_dcrt (d : DCRTPoly) (rhs : list (list ascii)) : outcome DCRTPoly :=
  assign_list NativeInt.AssignVal NativeVector.assign_strings d rhs.
Definition assign_uint64_dcrt (d : DCRTPoly) (val : Z) : outcome DCRTPoly :=
  if IsEmpty d then
    map_towers (fun v => temp ← empty_values d v; temp ← NativeVector.assign_val temp val; Poly.SetValues v temp (m_format d)) d
  else map_towers (fun v => Poly.assign_uint64 v val) d.
Definition assign_signed_dcrt (width : Z) (d : DCRTPoly) (val : list Z) : outcome DCRTPoly :=
  d ← (if IsEmpty d then
         map_towers (fun v => temp ← empty_values d v; v ← Poly.SetValues v temp (m_format d); assign_signed width v val) d
       else map_towers (fun v => assign_signed width v val) d);
  Ok (mkDCRT (m_vectors d) COEFFICIENT (m_params d)).

(** [operator==]: towers in order, up to the first difference. *)
Fixpoint towers_eqb (vs us : list PolyImpl) : outcome bool :=
  match vs, us with
  | v :: vs, u :: us => e ← eqb_poly v u; if (e : bool) then towers_eqb vs us else Ok false
  | _, _ => Ok true
  end.
Definition eqb_dcrt (d rhs : DCRTPoly) : outcome bool :=
  if negb (d_cyclotomicOrder (m_params d) =? d_cyclotomicOrder (m_params rhs)) then Ok false
  else
    ne ← op_ne (d_ciphertextModulus (m_params d)) (d_ciphertextModulus (m_params rhs));
    if (ne : bool) then Ok false
    else if negb (bool_decide (m_format d = m_format rhs)) then Ok false
    else if negb (length (m_vectors d) =? length (m_vectors rhs))%nat then Ok false
    else towers_eqb (m_vectors d) (m_vectors rhs).

(** ** Changing the representation *)

Definition SwitchFormat (d : DCRTPoly) (st : rstate) : outcome (DCRTPoly * rstate) :=
  let format := match m_format d with COEFFICIENT => EVALUATION | EVALUATION => COEFFICIENT end in
  '(vs, st) ← towers_st tower_SwitchFormat (m_vectors d) st;
  Ok (mkDCRT vs format (m_params d), st).
Definition SetFormat (F : Format) (d : DCRTPoly) (st : rstate) : outcome (DCRTPoly * rstate) :=
  if bool_decide (m_format d = F) then Ok (d, st) else SwitchFormat d st.

(** ** Towers and moduli *)

Definition DropLastElement (d : DCRTPoly) : outcome DCRTPoly :=
  if (length (m_vectors d) =? 0)%nat then Throw config_error
  else if (length (m_vectors d) =? 1)%nat then Throw config_error
  else
    p ← PopLastParam (m_params d);
    Ok (mkDCRT (take (length (m_vectors d) - 1) (m_vectors d)) (m_format d) p).

Definition DropLastElements (d : DCRTPoly) (i : nat) : outcome DCRTPoly :=
  if (length (m_vectors d) <=? i)%nat then Throw config_error
  else
    p ← for_range 0 i (fun _ p => PopLastParam p) (m_params d);
    Ok (mkDCRT (take (length (m_vectors d) - i) (m_vectors d)) (m_format d) p).

Definition SwitchModulusAtIndex (d : DCRTPoly) (index : nat) (modulus root : ubint) (st : rstate)
    : outcome (DCRTPoly * rstate) :=
  if (0 <? length (m_vectors d))%nat && (length (m_vectors d) - 1 <? index)%nat then Throw math_error
  else
    v ← vget (m_vectors d) index;
    m ← ConvertToInt modulus;
    r ← ConvertToInt root;
    '(v, st) ← tower_SwitchModulus (wrap m) (wrap r) v st;
    vs ← vset (m_vectors d) index v;
    p ← RecalculateModulus (m_params d);
    Ok (mkDCRT vs (m_format d) p, st).

Definition GetWorkingModulus (d : DCRTPoly) : outcome ubint :=
  ps ← vmapM (vget (d_parms (m_params d))) (seq 0 (length (m_vectors d)));
  product_from MulEq (ubint_int 1) (map ciphertextModulus ps).

Definition GetExtendedCRTBasis (d : DCRTPoly) (paramsP : ILDCRTParams) (st : rstate)
    : outcome (ILDCRTParams * rstate) :=
  ps ← vmapM (vget (d_parms (m_params d))) (seq 0 (length (m_vectors d)));
  let parms := ps ++ d_parms paramsP in
  DCRTParams_lists (u32 (2 * d_ringDimension (m_params d))) (map ciphertextModulus parms)
    (map rootOfUnity parms) [] [] (ubint_int 0) st.

(** Rescaling for CKKS: the last tower, in its centered representatives, is subtracted and the
    result divided by its modulus. The two vectors of precomputed quotients are not used. *)
Definition DropLastElementAndScale (QlQlInvModqlDivqlModq qlInvModq : list Z) (d : DCRTPoly) (st : rstate)
    : outcome (DCRTPoly * rstate) :=
  lastPoly ← vget (m_vectors d) (length (m_vectors d) - 1);
  d ← DropLastElement d;
  '(lastPoly, st) ← tower_SetFormat COEFFICIENT lastPoly st;
  extra ← DCRTPoly_new (m_params d) COEFFICIENT true;
  '(ex, st) ← towers_st (fun i st =>
      v ← vget (m_vectors d) i;
      '(temp, st) ← tower_SwitchModulus (Poly.GetModulus v) (rootOfUnity (Poly.m_params v)) lastPoly st;
      c ← vget QlQlInvModqlDivqlModq i;
      temp ← TimesEq_scalar temp c;
      Ok (temp, st)) (seq 0 (length (m_vectors extra))) st;
  let extra := set_vectors extra ex in
  '(extra, st) ← (match m_format d with
                  | EVALUATION => SetFormat EVALUATION extra st
                  | COEFFICIENT => Ok (extra, st)
                  end);
  vs ← zip_towers (fun v '(c, e) => v ← TimesEq_scalar v c; Poly.PlusEq v e) (m_vectors d)
         (combine qlInvModq (m_vectors extra));
  SetFormat EVALUATION (set_vectors d vs) st.

(** Modulus switching for BGV: a multiple of [t] that cancels the last tower is added before
    the division by its modulus. *)
Definition ModReduce (t negtInvModq : Z) (qlInvModq : list Z) (d : DCRTPoly) (st : rstate)
    : outcome (DCRTPoly * rstate) :=
  delta ← vget (m_vectors d) (length (m_vectors d) - 1);
  '(delta, st) ← tower_SetFormat COEFFICIENT delta st;
  d ← DropLastElement d;
  delta ← TimesEq_scalar delta negtInvModq;
  match m_format d with
  | EVALUATION =>
      extra ← DCRTPoly_new (m_params d) COEFFICIENT true;
      '(ex, st) ← towers_st (fun v st =>
          tower_SwitchModulus (Poly.GetModulus v) (rootOfUnity (Poly.m_params v)) delta st) (m_vectors d) st;
      '(extra, st) ← SetFormat EVALUATION (set_vectors extra ex) st;
      vs ← zip_towers (fun v '(c, e) =>
             e ← TimesEq_scalar e t; v ← Poly.PlusEq v e; TimesEq_scalar v c) (m_vectors d)
             (combine qlInvModq (m_vectors extra));
      Ok (set_vectors d vs, st)
  | COEFFICIENT =>
      '(vs, st) ← towers_st (fun i st =>
          v ← vget (m_vectors d) i;
          '(temp, st) ← tower_SwitchModulus (Poly.GetModulus v) (rootOfUnity (Poly.m_params v)) delta st;
          temp ← TimesEq_scalar temp t;
          v ← Poly.PlusEq v temp;
          c ← vget qlInvModq i;
          v ← TimesEq_scalar v c;
          Ok (v, st)) (seq 0 (length (m_vectors d))) st;
      Ok (set_vectors d vs, st)
  end.

(** ** Interpolation *)

(** The factors [(Q / q_j) * ((Q / q_j)^-1 mod q_j)]. *)
Definition crt_multiplier (bigModulus : ubint) (v : PolyImpl) : outcome ubint :=
  let qj := ubint_int (Poly.GetModulus v) in
  divBy ← DividedBy bigModulus qj;
  inv ← BigModInverse divBy qj;
  modInv ← Mod inv qj;
  Mul divBy modInv.

(** [coefficients\[ri\]]: the sum over the towers, reduced. *)
Definition crt_coefficient (bigModulus mu : ubint) (vecs : list PolyImpl) (multiplier : list ubint) (ri : nat)
    : outcome ubint :=
  s ← for_range 0 (length vecs) (fun vi s =>
        v ← vget vecs vi;
        vals ← Poly.GetValues v;
        x ← vget (NativeVector.m_data vals) ri;
        m ← vget multiplier vi;
        y ← Mul (ubint_int x) m;
        AddEq s y) (ubint_int 0);
  ModEq_mu s bigModulus mu.

(** [ILParamsImpl<Integer>(order, modulus, 1)] and [SetValues]. *)
Definition BigPoly_from (order : Z) (modulus : ubint) (values : mubintvec) (st : rstate)
    : outcome (BigPoly * rstate) :=
  '(p, st) ← native_params order 0 1 0 0 st;
  vm ← BigVector.GetModulus values;
  ne ← op_ne modulus vm;
  if negb (ringDimension p =? Z.of_nat (GetLength values)) || (ne : bool) then Throw type_error
  else Ok (mkBigPoly (Some values) COEFFICIENT order (ringDimension p) modulus (ubint_int 1), st).

(** The towers in the coefficient representation, as copies when they are not. *)
Definition coefficient_towers (d : DCRTPoly) (st : rstate) : outcome (list PolyImpl * rstate) :=
  match m_format d with
  | EVALUATION => towers_st (tower_SetFormat COEFFICIENT) (m_vectors d) st
  | COEFFICIENT => Ok (m_vectors d, st)
  end.

Definition CRTInterpolate (d : DCRTPoly) (st : rstate) : outcome (BigPoly * rstate) :=
  bigModulus ← ubint_copy (d_ciphertextModulus (m_params d));
  coefficients ← mubintvec_ubint (GetRingDimension d) bigModulus;
  multiplier ← vmapM (crt_multiplier bigModulus) (m_vectors d);
  '(vecs, st) ← coefficient_towers d st;
  mu ← ComputeMu bigModulus;
  data ← for_range 0 (GetRingDimension d) (fun ri data =>
           c ← crt_coefficient bigModulus mu vecs multiplier ri;
           vset data ri c) (m_data coefficients);
  BigPoly_from (d_cyclotomicOrder (m_params d)) bigModulus (set_data coefficients data) st.

Definition CRTInterpolateIndex (d : DCRTPoly) (i : nat) (st : rstate) : outcome (BigPoly * rstate) :=
  bigModulus ← ubint_copy (d_ciphertextModulus (m_params d));
  coefficients ← mubintvec_ubint (GetRingDimension d) bigModulus;
  multiplier ← vmapM (crt_multiplier bigModulus) (m_vectors d);
  '(vecs, st) ← coefficient_towers d st;
  mu ← ComputeMu bigModulus;
  data ← for_range 0 (GetRingDimension d) (fun ri data =>
           c ← (if (ri =? i)%nat then crt_coefficient bigModulus mu vecs multiplier ri else Ok (ubint_int 0));
           vset data ri c) (m_data coefficients);
  BigPoly_from (d_cyclotomicOrder (m_params d)) bigModulus (set_data coefficients data) st.

(** [PolyImpl<BigVector>::DecryptionCRTInterpolate] and its call on the interpolated element. *)
Definition BigPoly_Decryption (p : BigPoly) (ptm : Z) (st : rstate) : outcome (PolyImpl * rstate) :=
  v ← match bp_values p with None => Throw not_available_error | Some v => Ok v end;
  smaller ← Mod_vector v (ubint_int ptm);
  '(params, st) ← native_params (bp_order p) (wrap ptm) 1 0 0 st;
  interp ← PolyImpl_new params (bp_format p) true;
  interp ← for_range 0 (GetLength smaller) (fun i interp =>
             x ← vget (m_data smaller) i;
             x ← ConvertToInt x;
             set_index interp i (wrap x)) interp;
  Ok (interp, st).
Definition DecryptionCRTInterpolate (d : DCRTPoly) (ptm : Z) (st : rstate) : outcome (PolyImpl * rstate) :=
  '(p, st) ← CRTInterpolate d st;
  BigPoly_Decryption p ptm st.

(** ** Changing the basis *)

Definition TimesQovert (tInvModq : list Z) (t NegQModt NegQModtPrecon : Z) (d : DCRTPoly) : outcome DCRTPoly :=
  if (length tInvModq <? length (m_vectors d))%nat then Throw math_error
  else
    d ← map_towers (fun v =>
          for_range 0 (GetRingDimension d) (fun ri v =>
            xi ← index v ri;
            xi ← NativeInt.ModMulFastConstEq xi NegQModt t NegQModtPrecon;
            set_index v ri xi) v) d;
    Times_native d tInvModq.

(** The number of towers that are converted. *)
Definition size_Q (d : DCRTPoly) (paramsQ : ILDCRTParams) : nat :=
  if (length (d_parms paramsQ) <? length (m_vectors d))%nat then length (d_parms paramsQ)
  else length (m_vectors d).

(** With 128-bit integers: the products are summed up and reduced once. *)
Definition switch_sums (vs : list PolyImpl) (sizeQ sizeP ri : nat) (QHatInvModq QHatInvModqPrecon : list Z)
    (QHatModp : list (list Z)) : outcome (list Z) :=
  for_range 0 sizeQ (fun i sum =>
    v ← vget vs i;
    xi ← index v ri;
    b ← vget QHatInvModq i;
    bInv ← vget QHatInvModqPrecon i;
    x ← NativeInt.ModMulFastConst xi b (Poly.GetModulus v) bInv;
    for_range 0 sizeP (fun j sum =>
      s ← vget sum j;
      row ← vget QHatModp i;
      r ← vget row j;
      vset sum j (u128 (s + Mul128 x r))) sum) (repeat 0 sizeP).

Definition ApproxSwitchCRTBasis_128 (paramsQ paramsP : ILDCRTParams) (QHatInvModq QHatInvModqPrecon : list Z)
    (QHatModp : list (list Z)) (modpBarrettMu : list Z) (d : DCRTPoly) : outcome DCRTPoly :=
  ans ← DCRTPoly_new paramsP (m_format d) true;
  let sizeQ := size_Q d paramsQ in
  let sizeP := length (m_vectors ans) in
  vs ← for_range 0 (GetRingDimension d) (fun ri vs =>
         sum ← switch_sums (m_vectors d) sizeQ sizeP ri QHatInvModq QHatInvModqPrecon QHatModp;
         for_range 0 sizeP (fun j vs =>
           s ← vget sum j;
           v ← vget vs j;
           mu ← vget modpBarrettMu j;
           x ← BarrettUint128ModUint64 2 s (Poly.GetModulus v) mu;
           v ← set_index v ri (wrap x);
           vset vs j v) vs) (m_vectors ans);
  Ok (set_vectors ans vs).

(** Without them: tower by tower. *)
Definition ApproxSwitchCRTBasis (paramsQ paramsP : ILDCRTParams) (QHatInvModq : list Z) (QHatModp : list (list Z))
    (d : DCRTPoly) (st : rstate) : outcome (DCRTPoly * rstate) :=
  ans ← DCRTPoly_new paramsP (m_format d) true;
  '(ans, st) ← for_range 0 (size_Q d paramsQ) (fun i '(ans, st) =>
      v ← vget (m_vectors d) i;
      b ← vget QHatInvModq i;
      xQHatInvModqi ← Times_scalar v b;
      row ← vget QHatModp i;
      '(vs, st) ← towers_st (fun j st =>
          a ← vget (m_vectors ans) j;
          '(temp, st) ← tower_SwitchModulus (Poly.GetModulus a) (rootOfUnity (Poly.m_params a)) xQHatInvModqi st;
          r ← vget row j;
          temp ← TimesEq_scalar temp r;
          a ← Poly.PlusEq a temp;
          Ok (a, st)) (seq 0 (length (m_vectors ans))) st;
      Ok (set_vectors ans vs, st)) (ans, st);
  Ok (ans, st).

(** [m_vectors.resize(n)] where the new towers are all written afterwards. The callers pass
    the parameters of both bases; another number of towers would leave towers without
    parameters or write past the end. *)
Definition resized (n : nat) (vs : list PolyImpl) : outcome (list PolyImpl) :=
  if (length vs =? n)%nat then Ok vs else UB.

(** [ApproxModUp] with the conversion [switch] as an argument: it is one of the two above. *)
Definition ApproxModUp (switch : DCRTPoly -> rstate -> outcome (DCRTPoly * rstate)) (paramsQP : ILDCRTParams)
    (d : DCRTPoly) (st : rstate) : outcome (DCRTPoly * rstate) :=
  let polyInNTT := match m_format d with EVALUATION => m_vectors d | COEFFICIENT => [] end in
  '(d, st) ← SetFormat COEFFICIENT d st;
  '(partP, st) ← switch d st;
  '(ps, st) ← towers_st (tower_SetFormat EVALUATION) (m_vectors partP) st;
  '(qs, st) ← (if (0 <? length polyInNTT)%nat then Ok (polyInNTT, st)
               else towers_st tower_SwitchFormat (m_vectors d) st);
  vs ← resized (length (d_parms paramsQP)) (qs ++ ps);
  Ok (mkDCRT vs EVALUATION paramsQP, st).

(** With fewer towers than [P] the difference of the sizes wraps, and the call that drops
    towers of the answer throws. *)
Definition ApproxModDown (switch : DCRTPoly -> rstate -> outcome (DCRTPoly * rstate)) (paramsQ paramsP : ILDCRTParams)
    (PInvModq tInvModp : list Z) (t : Z) (d : DCRTPoly) (st : rstate) : outcome (DCRTPoly * rstate) :=
  if (length (m_vectors d) <? length (d_parms paramsP))%nat then Throw config_error
  else
    let sizeQ := (length (m_vectors d) - length (d_parms paramsP))%nat in
    partP ← DCRTPoly_new paramsP (m_format d) true;
    partP ← zip_unchecked (fun p v => Ok (assign_poly p v)) partP (drop sizeQ (m_vectors d));
    '(partP, st) ← SetFormat COEFFICIENT partP st;
    partP ← (if t >? 0 then zip_unchecked TimesEq_scalar partP tInvModp else Ok partP);
    '(switched, st) ← switch partP st;
    ans ← DCRTPoly_new paramsQ EVALUATION true;
    ans ← (if (length (d_parms paramsQ) <? sizeQ)%nat then Throw config_error
           else
             let diffQ := (length (d_parms paramsQ) - sizeQ)%nat in
             if (0 <? diffQ)%nat then DropLastElements ans diffQ else Ok ans);
    switched ← (if t >? 0 then
                  vs ← vmapM (fun v => TimesEq_scalar v t) (take sizeQ (m_vectors switched));
                  Ok (set_vectors switched (vs ++ drop sizeQ (m_vectors switched)))
                else Ok switched);
    '(switched, st) ← SetFormat EVALUATION switched st;
    vs ← zip_towers (fun v '(s, c) => diff ← Poly.Minus v s; Times_scalar diff c)
           (take sizeQ (m_vectors d)) (combine (m_vectors switched) PInvModq);
    Ok (set_vectors ans vs, st).

Definition ExpandCRTBasisQlHat (paramsQ : ILDCRTParams) (QlHatModq QlHatModqPrecon : list Z) (sizeQ : nat)
    (d : DCRTPoly) : outcome DCRTPoly :=
  let sizeQl := length (m_vectors d) in
  vs ← zip_towers (fun v '(c, pc) =>
         for_range 0 (GetRingDimension d) (fun ri v =>
           x ← index v ri;
           x ← NativeInt.ModMulFastConstEq x c (Poly.GetModulus v) pc;
           set_index v ri x) v) (m_vectors d) (combine QlHatModq QlHatModqPrecon);
  zs ← vmapM (fun i => p ← vget (d_parms paramsQ) i; PolyImpl_new p (m_format d) true)
         (seq sizeQl (sizeQ - sizeQl));
  Ok (mkDCRT (take sizeQ vs ++ zs) (m_format d) paramsQ).

(** ** Digits *)

Definition PowersOfBase (d : DCRTPoly) (baseBits : Z) : outcome (list DCRTPoly) :=
  let nBits := m_MSB (d_ciphertextModulus (m_params d)) in
  nWindows ← udiv nBits baseBits;
  r ← umod nBits baseBits;
  let nWindows := Z.to_nat (if r >? 0 then nWindows + 1 else nWindows) in
  for_range 0 nWindows (fun i result =>
    twoPow ← BigInt.Exp (ubint_int 2) (u32 (Z.of_nat i * baseBits));
    vs ← zip_towers (fun p v =>
           pI ← Mod twoPow (ubint_int (ciphertextModulus p));
           e ← ConvertToInt pI;
           Times_signed v (to_signed (wrap e))) (d_parms (m_params d)) (m_vectors d);
    Ok (result ++ [mkDCRT vs (m_format d) (m_params d)])) [].

(** [CRTDecompose(0)]: tower [i] switched to every modulus. *)
Definition crt_digit (this input : DCRTPoly) (i : nat) (st : rstate) : outcome (DCRTPoly * rstate) :=
  '(vs, st) ← towers_st (fun k st =>
      if negb (i =? k)%nat then
        temp ← vget (m_vectors input) i;
        v ← vget (m_vectors input) k;
        '(temp, st) ← tower_SwitchModulus (Poly.GetModulus v) (rootOfUnity (Poly.m_params v)) temp st;
        tower_SetFormat EVALUATION temp st
      else
        v ← vget (m_vectors this) k;
        tower_SetFormat EVALUATION v st) (seq 0 (length (m_vectors this))) st;
  Ok (mkDCRT vs EVALUATION (m_params input), st).

(** [CRTDecompose(baseBits)]: the digits of tower [i] switched to every modulus. *)
Definition crt_base_digits (baseBits : Z) (this input : DCRTPoly) (i : nat) (st : rstate)
    : outcome (list DCRTPoly * rstate) :=
  v ← vget (m_vectors input) i;
  '(decomposed, c) ← Poly.BaseDecompose arb_forward arb_inverse v baseBits false (fst st);
  towers_st (fun digit st =>
    '(vs, st) ← towers_st (fun k st =>
        if negb (i =? k)%nat then
          v ← vget (m_vectors input) k;
          tower_SwitchModulus (Poly.GetModulus v) (rootOfUnity (Poly.m_params v)) digit st
        else Ok (digit, st)) (seq 0 (length (m_vectors this))) st;
    SwitchFormat (mkDCRT vs (m_format input) (m_params input)) st) decomposed (c, snd st).

Definition CRTDecompose (baseBits : Z) (d : DCRTPoly) (st : rstate) : outcome (list DCRTPoly * rstate) :=
  '(input, st) ← SetFormat COEFFICIENT d st;
  if baseBits =? 0 then towers_st (crt_digit d input) (seq 0 (length (m_vectors d))) st
  else
    '(ds, st) ← towers_st (crt_base_digits baseBits d input) (seq 0 (length (m_vectors d))) st;
    Ok (concat ds, st).
End Definitions.
