(* ===== verification/DcrtTowers.v ===== *)
(** * Double-CRT polynomials: towers

    A tower is determined by its modulus, its root of unity, the representation and the
    residues of the polynomial ([tower]). The operations of a tower on such elements are
    equations; the state of the transforms is left to a predicate that every step keeps
    for all moduli in use ([ready]). *)
From stdpp Require Import base numbers list gmap.
From Stdlib Require Import ZArith Znumtheory Lia.
From S2P Require Import Prelude Bits NativeInt NativeIntProps NativeVector Ntt NttProps FttProps NbTheory NbTheoryProps AutoProps BigInt BigDiv BigVector Poly PolyProps PolyAlg RgswRing Dcrt.
Open Scope Z_scope.

(** ** Loops over towers *)

Lemma towers_map_ok {A B S T} (I : S -> Prop) (f : A -> S -> outcome (B * S)) (ga : T -> A) (gb : T -> B) (ts : list T) st :
  (forall t st, t ∈ ts -> I st -> returns (f (ga t) st) (fun '(r, st') => r = gb t /\ I st')) -> I st ->
  returns (towers_st f (map ga ts) st) (fun '(rs, st') => rs = map gb ts /\ I st').
Proof.
  revert st. induction ts as [|t ts IH]; intros st Hf HI; cbn [map towers_st]; [done|].
  eapply returns_bind; [apply Hf; [left | done]|]. intros [r st1] [-> H1].
  eapply returns_bind; [apply IH; [|exact H1]; intros; apply Hf; [by right | done]|].
  intros [rs st2] [-> H2]. done.
Qed.

Lemma towers_st_ok {A B S} (I : S -> Prop) (f : A -> S -> outcome (B * S)) (g : A -> B) l st :
  (forall x st, x ∈ l -> I st -> returns (f x st) (fun '(r, st') => r = g x /\ I st')) -> I st ->
  returns (towers_st f l st) (fun '(rs, st') => rs = map g l /\ I st').
Proof. intros. rewrite <- (map_id l) at 1. by apply (towers_map_ok I f id g). Qed.

Lemma zip_towers_ok {A B C T} (f : A -> B -> outcome C) (ga : T -> A) (gb : T -> B) (gc : T -> C) (ts : list T) :
  (forall t, t ∈ ts -> f (ga t) (gb t) = Ok (gc t)) -> zip_towers f (map ga ts) (map gb ts) = Ok (map gc ts).
Proof.
  induction ts as [|t ts IH]; intros H; cbn [map zip_towers]; [done|].
  rewrite H by left. rewrite bind_Ok, IH; [done|]. intros. apply H. by right.
Qed.

Lemma vmapM_towers {A B T} (f : A -> outcome B) (ga : T -> A) (gb : T -> B) (ts : list T) :
  (forall t, t ∈ ts -> f (ga t) = Ok (gb t)) -> vmapM f (map ga ts) = Ok (map gb ts).
Proof.
  induction ts as [|t ts IH]; intros H; cbn [map vmapM]; [done|].
  rewrite H by left. rewrite bind_Ok, IH; [done|]. intros. apply H. by right.
Qed.

Lemma combine_map {A B T} (f : T -> A) (g : T -> B) (ts : list T) :
  combine (map f ts) (map g ts) = map (fun t => (f t, g t)) ts.
Proof. induction ts as [|t ts IH]; simpl; [done | by rewrite IH]. Qed.

Lemma map_seq_list {A B} `{Inhabited A} (h : A -> B) (l : list A) :
  map (fun i => h (l !!! i)) (seq 0 (length l)) = map h l.
Proof.
  apply list_eq. intros i. rewrite !list_lookup_fmap. destruct (decide (i < length l)%nat).
  - rewrite lookup_seq_lt by done. cbn. by rewrite list_lookup_lookup_total_lt.
  - rewrite lookup_seq_ge, lookup_ge_None_2 by lia. done.
Qed.

Lemma vset_map_seq {A} (f : nat -> A) (d : A) n i : (i < n)%nat ->
  vset (map f (seq 0 i) ++ repeat d (n - i)) i (f i) = Ok (map f (seq 0 (S i)) ++ repeat d (n - S i)).
Proof.
  intros Hi. rewrite vset_lt by (rewrite length_app, length_map, length_seq, repeat_length; lia). f_equal.
  rewrite insert_app_r_alt, length_map, length_seq, Nat.sub_diag by (rewrite length_map, length_seq; lia).
  replace (n - i)%nat with (S (n - S i)) by lia. rewrite seq_S, map_app. simpl. by rewrite <- app_assoc.
Qed.

(** A loop that fills a vector entry by entry. *)
Lemma fill_vector {A} (f : nat -> outcome A) (g : nat -> A) (d : A) n :
  (forall i, (i < n)%nat -> f i = Ok (g i)) ->
  for_range 0 n (fun i data => c ← f i; vset data i c) (repeat d n) = Ok (map g (seq 0 n)).
Proof.
  intros Hf. pose proof (for_range_exact (fun i => map g (seq 0 i) ++ repeat d (n - i)) 0 n
    (fun i data => c ← f i; vset data i c) ltac:(lia)) as H. cbv beta in H.
  rewrite Nat.sub_0_r, Nat.sub_diag, app_nil_r in H. apply H. intros i Hi. rewrite Hf, bind_Ok by lia. apply vset_map_seq. lia.
Qed.

Lemma map_seq_id (X : list Z) : map (fun i => X !!! i) (seq 0 (length X)) = X.
Proof.
  apply list_eq_total; rewrite length_map, length_seq; [done|]. intros i Hi. by rewrite map_seq_at.
Qed.

(** A loop that updates every entry of a vector once. *)
Lemma update_loop {A T} (f g : T -> A) (body : nat -> list A -> outcome (list A)) (ts : list T) :
  (forall j t l, ts !! j = Some t -> l !! j = Some (f t) -> body j l = Ok (<[j := g t]> l)) ->
  for_range 0 (length ts) body (map f ts) = Ok (map g ts).
Proof.
  intros Hb. pose proof (for_range_exact (fun v => map g (take v ts) ++ map f (drop v ts)) 0 (length ts) body) as H.
  cbv beta in H. rewrite take_0, drop_0, (take_ge ts), (drop_ge ts), app_nil_r in H by lia. apply H; [lia|]. clear H.
  intros j Hj. destruct (lookup_lt_is_Some_2 ts j ltac:(lia)) as [t Et].
  assert (length (map g (take j ts)) = j) as Hl by (rewrite length_map, length_take; lia).
  rewrite (drop_S ts t j Et). cbn [map]. rewrite (Hb j t) by (done || by rewrite lookup_app_r, Hl, Nat.sub_diag by lia).
  f_equal. rewrite insert_app_r_alt, Hl, Nat.sub_diag by lia. cbn [insert list_insert].
  by rewrite (take_S_r ts j t Et), map_app, <- app_assoc.
Qed.

Lemma vget_map {A T} (f : T -> A) (ts : list T) j t : ts !! j = Some t -> vget (map f ts) j = Ok (f t).
Proof. intros E. apply vget_Some. by rewrite list_lookup_fmap, E. Qed.

(** ** The cache *)

Definition cache_frame (q : Z) (c c' : FTTCache) : Prop :=
  forall q', q' <> q ->
    m_cycloOrderInverseTableByModulus c' !! q' = m_cycloOrderInverseTableByModulus c !! q' /\
    m_cycloOrderInversePreconTableByModulus c' !! q' = m_cycloOrderInversePreconTableByModulus c !! q' /\
    m_rootOfUnityReverseTableByModulus c' !! q' = m_rootOfUnityReverseTableByModulus c !! q' /\
    m_rootOfUnityInverseReverseTableByModulus c' !! q' = m_rootOfUnityInverseReverseTableByModulus c !! q' /\
    m_rootOfUnityPreconReverseTableByModulus c' !! q' = m_rootOfUnityPreconReverseTableByModulus c !! q' /\
    m_rootOfUnityInversePreconReverseTableByModulus c' !! q' = m_rootOfUnityInversePreconReverseTableByModulus c !! q'.

Lemma cache_frame_refl q c : cache_frame q c c.
Proof. by intros q' _. Qed.

(** What a computation returns, if it returns: a rule without a proof of termination. *)
Definition if_returns {A} (m : outcome A) (Q : A -> Prop) : Prop := forall a, m = Ok a -> Q a.
Lemma if_returns_bind {A B} (m : outcome A) (f : A -> outcome B) (P : A -> Prop) Q :
  if_returns m P -> (forall a, P a -> if_returns (f a) Q) -> if_returns (m ≫= f) Q.
Proof. intros H1 H2 b. destruct m as [a|e| |]; simpl; [apply (H2 a (H1 a eq_refl)) | discriminate..]. Qed.
Lemma if_returns_any {A} (m : outcome A) : if_returns m (fun _ => True).
Proof. by intros a. Qed.
Lemma if_returns_Ok {A} (a : A) (Q : A -> Prop) : Q a -> if_returns (Ok a) Q.
Proof. intros H b [= <-]. done. Qed.
Lemma if_returns_Throw {A} e (Q : A -> Prop) : if_returns (Throw e) Q.
Proof. by intros b. Qed.
Lemma returns_both {A} (m : outcome A) (P Q : A -> Prop) : returns m P -> if_returns m Q -> returns m (fun a => P a /\ Q a).
Proof. destruct m as [a|e| |]; simpl; [intros H1 H2; split; [done | by apply H2] | done..]. Qed.

Section Frames.
Context `{W : NativeWidth}.

Lemma PreCompute_frame psi M q c : if_returns (PreCompute psi M q c) (cache_frame q c).
Proof.
  unfold PreCompute. destruct (table_missing _ _ _); [|apply if_returns_Ok, cache_frame_refl].
  repeat (eapply if_returns_bind; [apply if_returns_any | intros ? _]). apply if_returns_Ok. intros q' Hne. cbn.
  split_and!; by rewrite lookup_insert_ne.
Qed.

Lemma FTT_prepare_frame psi M n q c : if_returns (FTT_prepare psi M n q c) (cache_frame q c).
Proof.
  unfold FTT_prepare. destruct (negb _); [apply if_returns_Throw|]. destruct (negb _); [apply if_returns_Throw|].
  destruct (table_missing _ _ _); [apply PreCompute_frame | apply if_returns_Ok, cache_frame_refl].
Qed.

Lemma transforms_frame psi M v c :
  if_returns (FTT_ForwardTransformToBitReverseInPlace psi M v c) (fun r => cache_frame (NativeVector.m_modulus v) c (snd r)) /\
  if_returns (FTT_InverseTransformFromBitReverseInPlace psi M v c) (fun r => cache_frame (NativeVector.m_modulus v) c (snd r)).
Proof.
  unfold FTT_InverseTransformFromBitReverseInPlace, FTT_ForwardTransformToBitReverseInPlace.
  destruct (_ || _); [split; apply if_returns_Ok, cache_frame_refl|].
  split; (eapply if_returns_bind; [apply FTT_prepare_frame|]; intros c' Hc');
    (eapply if_returns_bind; [apply if_returns_any | intros ? _; by apply if_returns_Ok]).
Qed.

Lemma SwitchFormat_frame af ai p c :
  if_returns (Poly.SwitchFormat af ai p c)
    (fun r => forall v, m_values p = Some v -> cache_frame (NativeVector.m_modulus v) c (snd r)).
Proof.
  unfold Poly.SwitchFormat. destruct (m_values p) as [v|]; [|apply if_returns_Throw].
  destruct (negb _).
  { eapply if_returns_bind; [apply if_returns_any|]. intros. apply if_returns_Ok. intros v' _. apply cache_frame_refl. }
  destruct (Poly.m_format p);
    (eapply if_returns_bind; [apply transforms_frame | intros [v' c'] H; apply if_returns_Ok; by intros ? [= <-]]).
Qed.

Lemma cache_for_frame q q' psi' k c c' :
  cache_frame q c c' -> q' <> q -> cache_for q' psi' k c -> cache_for q' psi' k c'.
Proof.
  intros Hf Hne. destruct (Hf q' Hne) as (E1 & E2 & E3 & E4 & E5 & E6).
  unfold cache_for, cache_has, table_missing. by rewrite E1, E2, E3, E4, E5, E6.
Qed.
End Frames.

(** ** Towers as values *)

Definition other (F : Format) : Format := match F with COEFFICIENT => EVALUATION | EVALUATION => COEFFICIENT end.
(** The residues of the coefficients. *)
Definition residues (q : Z) (X : list Z) : list Z := map (fun x => x mod q) X.
Definition recenter (q q' : Z) (f : list Z) : list Z := map (fun x => centered q x mod q') f.

Section Towers.
Context `{W : NativeWidth}.
Context (af ai : NativeVectorT -> ILParams -> outcome NativeVectorT).
Context (dist : nat -> Z -> Z) (rfuel : nat) `{HS : UniformSource dist rfuel} (fuel k : nat).

Definition tparams (t : Z * Z) : ILParams :=
  mkParams (2 ^ (Z.of_nat k + 1)) (2 ^ Z.of_nat k) true (fst t) (snd t) 0 0.
Definition elem (F : Format) (t : Z * Z) (f : list Z) : PolyImpl := repr (fst t) (snd t) k (tparams t) F f.
Definition tower (F : Format) (X : list Z) (t : Z * Z) : PolyImpl := elem F t (residues (fst t) X).
Definition root_at (t : Z * Z) : Prop := root_ok (fst t) (snd t) k.

Lemma tparams_ring t : ring_params (fst t) (snd t) k (tparams t).
Proof. by split. Qed.

Lemma residues_elem q X : 0 < q -> length X = (2 ^ k)%nat -> ring_elem q k (residues q X).
Proof.
  intros Hq Hl. split; [unfold residues; by rewrite length_map|].
  apply Forall_map, Forall_true. intros. by apply mod_range.
Qed.

Lemma recenter_elem q q' f : 0 < q' -> length f = (2 ^ k)%nat -> ring_elem q' k (recenter q q' f).
Proof.
  intros Hq Hl. split; [unfold recenter; by rewrite length_map|].
  apply Forall_map, Forall_true. intros. by apply mod_range.
Qed.

Section One.
Context (t : Z * Z) (Ht : root_at t).

Lemma root_pos : 4 <= fst t.
Proof. apply Ht. Qed.

Lemma elem_PlusEq F f g : ring_elem (fst t) k f -> ring_elem (fst t) k g ->
  Poly.PlusEq (elem F t f) (elem F t g) = Ok (elem F t (padd (fst t) f g)).
Proof. by apply PlusEq_repr. Qed.

Lemma elem_minus F f g : ring_elem (fst t) k f -> ring_elem (fst t) k g ->
  Poly.MinusEq (elem F t f) (elem F t g) = Ok (elem F t (psub (fst t) f g)) /\
  Poly.Minus (elem F t f) (elem F t g) = Ok (elem F t (psub (fst t) f g)).
Proof.
  intros Hf Hg. unfold Poly.MinusEq, Poly.Minus. cbn [elem repr Poly.m_params m_values deref].
  rewrite params_eqb_refl. cbn [negb]. rewrite !bind_Ok.
  pose proof (values_elem _ _ k Ht F f Hf) as Vf. pose proof (values_elem _ _ k Ht F g Hg) as Vg.
  rewrite (proj2 (add_sub_values _ _ k Ht _ _ Vf Vg)), bind_Ok, <- (values_sub _ _ k Ht) by done. done.
Qed.

Lemma elem_TimesEq f g : ring_elem (fst t) k f -> ring_elem (fst t) k g ->
  Poly.TimesEq (elem EVALUATION t f) (elem EVALUATION t g) = Ok (elem EVALUATION t (negacyclic (fst t) f g)).
Proof. by apply TimesEq_repr. Qed.

Lemma elem_scale F s f : ring_elem (fst t) k f -> 0 <= s < 2 ^ wbits ->
  TimesEq_scalar (elem F t f) s = Ok (elem F t (pscale (fst t) s f)) /\
  Times_scalar (elem F t f) s = Ok (elem F t (pscale (fst t) s f)).
Proof.
  intros Hf Hs. pose proof (values_elem _ _ k Ht F f Hf) as Vf.
  pose proof (scale_values _ _ k Ht _ s Vf Hs) as E. rewrite <- (values_scale _ _ k Ht) in E by done.
  unfold TimesEq_scalar, Times_scalar, GetValues, NativeVector.ModMul_scalar. cbn [elem repr m_values deref]. rewrite !bind_Ok, E, !bind_Ok.
  split; [done|]. apply (SetValues_ok _ _ k Ht _ _ _ (tparams t)); [apply tparams_ring | done |].
  apply (values_elem _ _ k Ht), (pscale_elem _ (snd t) k Ht). done.
Qed.

Lemma elem_Negate F f : ring_elem (fst t) k f ->
  Poly.Negate (elem F t f) = Ok (elem F t (pscale (fst t) (fst t - 1) f)).
Proof.
  intros Hf. pose proof root_pos. destruct (modulus_size_word (fst t) ltac:(lia) (ro_size _ _ _ Ht)) as [H2 H3].
  assert (NativeInt.Sub (fst t) 1 = fst t - 1) as E.
  { unfold NativeInt.Sub, SubFast. rewrite wrap_small; [done|]. pose proof wbits_range.
    assert (2 ^ (wbits - 1) <= 2 ^ wbits) by (apply Z.pow_le_mono_r; lia). lia. }
  unfold Poly.Negate. change (Poly.GetModulus (elem F t f)) with (fst t). rewrite E.
  apply (elem_scale F (fst t - 1) f Hf). pose proof wbits_range.
  assert (2 ^ (wbits - 1) <= 2 ^ wbits) by (apply Z.pow_le_mono_r; lia). lia.
Qed.

Lemma elem_new F : PolyImpl_new (tparams t) F true = Ok (elem F t (pzero k)).
Proof. apply PolyImpl_new_repr; [done | apply tparams_ring]. Qed.
End One.

(** ** The state *)

Lemma native_params_ok t st : (k + 1 <= fuel)%nat -> (1 <= k <= 24)%nat ->
  exists n, native_params dist rfuel fuel (2 ^ (Z.of_nat k + 1)) (fst t) (snd t) 0 0 st = Ok (tparams t, (fst st, n)).
Proof.
  intros Hfu Hk. pose proof wbits_range.
  destruct (GetTotient_pow2 dist rfuel (k + 1) fuel (snd st)) as [n E]; [lia.. |].
  rewrite Nat2Z.inj_add in E. change (Z.of_nat 1) with 1 in E. exists n. unfold native_params, ElemParams_new. rewrite E, !bind_Ok.
  replace (Z.of_nat k + 1 - 1) with (Z.of_nat k) by lia.
  assert (2 ^ Z.of_nat k < 2 ^ 32) by (apply Z.pow_lt_mono_r; lia). pose proof (pow2_pos (Z.of_nat k) ltac:(lia)).
  rewrite u32_small, Z.pow_add_r, Z.div_mul, Z.eqb_refl by lia. unfold tparams. by rewrite Z.pow_add_r by lia.
Qed.

Context (Hfuel : (k + 1 <= fuel)%nat) (U : list (Z * Z)) (HU : Forall root_at U) (HN : NoDup (map fst U)).

Definition ready (st : rstate) : Prop := Forall (fun t => cache_for (fst t) (snd t) k (fst st)) U.

Lemma root_in t : t ∈ U -> root_at t.
Proof. intros Ht. by apply (Forall_forall root_at U). Qed.

Lemma size_in t : t ∈ U -> (1 <= k <= 24)%nat.
Proof. intros Ht. apply (root_in t Ht). Qed.

Lemma fst_inj t t' : t ∈ U -> t' ∈ U -> fst t = fst t' -> t = t'.
Proof.
  clear HU. intros Ht Ht' E. induction U as [|u V IH]; [by apply elem_of_nil in Ht|].
  simpl in HN. apply NoDup_cons in HN as [Hu HV].
  apply elem_of_cons in Ht as [->|Ht]; apply elem_of_cons in Ht' as [->|Ht']; [done | | | by apply IH].
  - destruct Hu. rewrite E. by apply (list_elem_of_fmap_2 fst).
  - destruct Hu. rewrite <- E. by apply (list_elem_of_fmap_2 fst).
Qed.

Lemma ready_frame t st st' : t ∈ U -> ready st -> cache_frame (fst t) (fst st) (fst st') ->
  cache_for (fst t) (snd t) k (fst st') -> ready st'.
Proof.
  intros Ht Hr Hf Hc. apply Forall_forall. intros t' Ht'. destruct (decide (fst t' = fst t)) as [E|Hne].
  - by rewrite (fst_inj t' t Ht' Ht E).
  - eapply cache_for_frame; [exact Hf | done |]. by apply (proj1 (Forall_forall _ _) Hr).
Qed.

Lemma elem_SwitchFormat F t f st : t ∈ U -> ring_elem (fst t) k f -> ready st ->
  returns (tower_SwitchFormat af ai (elem F t f) st) (fun '(r, st') => r = elem (other F) t f /\ ready st').
Proof.
  intros Ht Hf Hs. pose proof (root_in t Ht) as Hr. unfold tower_SwitchFormat.
  pose proof (SwitchFormat_frame af ai (elem F t f) (fst st)) as Hfr.
  assert (cache_for (fst t) (snd t) k (fst st)) as Hc by (by apply (proj1 (Forall_forall _ _) Hs)).
  eapply returns_bind; [apply returns_both; [|exact Hfr]; apply (SwitchFormat_denotes _ _ k Hr af ai _ f);
    [apply repr_denotes; [apply tparams_ring | done] | exact Hc]|].
  intros [r c'] [(H1 & H2 & H3 & H4) H5]. split.
  - rewrite (denotes_repr _ _ k (tparams t) r f H1 H3). unfold elem. f_equal.
    cbn [elem repr Poly.m_format] in H2. by destruct (Poly.m_format r), F.
  - eapply (ready_frame t st); [done | done | exact (H5 _ eq_refl) | by right].
Qed.

Lemma elem_SetFormat F F' t f st : t ∈ U -> ring_elem (fst t) k f -> ready st ->
  returns (tower_SetFormat af ai F' (elem F t f) st) (fun '(r, st') => r = elem F' t f /\ ready st').
Proof.
  intros Ht Hf Hs. pose proof (elem_SwitchFormat F t f st Ht Hf Hs) as H.
  unfold tower_SetFormat, tower_SwitchFormat, Poly.SetFormat in *. cbn [elem repr Poly.m_format] in *.
  case_bool_decide as E; [subst; rewrite bind_Ok; split; [done | by destruct st]|].
  fold (repr (fst t) (snd t) k (tparams t) F f) in *. fold (elem F t f) in *.
  replace F' with (other F) by (by destruct F, F'). exact H.
Qed.

Lemma elem_SwitchModulus t t' f st : root_at t -> t' ∈ U -> ring_elem (fst t) k f -> ready st ->
  returns (tower_SwitchModulus dist rfuel fuel (fst t') (snd t') (elem COEFFICIENT t f) st)
    (fun '(r, st') => r = elem COEFFICIENT t' (recenter (fst t) (fst t') f) /\ ready st').
Proof.
  intros Ht Ht' Hf Hs. pose proof (root_in t' Ht') as Hr'. pose proof (root_pos t' Hr').
  pose proof (values_wf _ _ k Ht COEFFICIENT f Hf) as Hw.
  unfold tower_SwitchModulus, SwitchModulus_poly. cbn [elem repr m_values Poly.m_params Poly.m_format values_in].
  rewrite (proj1 (SwitchModulus_ok (mkVector f (fst t)) (fst t') Hw ltac:(lia) (ro_size _ _ _ Hr'))), bind_Ok.
  cbn [NativeVector.m_data NativeVector.m_modulus cyclotomicOrder tparams].
  destruct (native_params_ok t' st Hfuel (size_in t' Ht')) as [n E]. unfold native_params in E.
  destruct (ElemParams_new _ _ _ _ _ _ _ _ _) as [[p n']| | |]; try discriminate E. rewrite bind_Ok in E.
  injection E as -> ->. rewrite !bind_Ok. by split.
Qed.
End Towers.

(** ** Writing the entries *)

Lemma wrap_64_small `{W : NativeWidth} x m : 0 <= x < m -> m < 2 ^ wbits -> wrap (x mod 2 ^ 64) = x.
Proof.
  intros Hx Hm. pose proof wbits_range. assert (2 ^ wbits <= 2 ^ 64) by (apply Z.pow_le_mono_r; lia).
  rewrite Z.mod_small by lia. apply wrap_small. lia.
Qed.

Lemma residues_at q X i : (i < length X)%nat -> residues q X !!! i = X !!! i mod q.
Proof. apply (fmap_at (fun x => x mod q)). Qed.

Section Filling.
Context (k : nat).

(** Filling the entries of a tower one after the other. *)
Definition filled (t : Z * Z) (f : list Z) (i : nat) : PolyImpl :=
  elem k COEFFICIENT t (map (fun j => f !!! j) (seq 0 i) ++ repeat 0 (2 ^ k - i)).

Lemma filled_step t f i : (i < 2 ^ k)%nat -> set_index (filled t f i) i (f !!! i) = Ok (filled t f (S i)).
Proof.
  intros Hi. unfold filled, elem. rewrite set_index_repr by (rewrite length_app, length_map, length_seq, repeat_length; lia).
  pose proof (vset_map_seq (fun j => f !!! j) 0 (2 ^ k) i Hi) as E.
  rewrite vset_lt in E by (rewrite length_app, length_map, length_seq, repeat_length; lia). injection E as E. by rewrite E.
Qed.

Lemma filled_full t f : length f = (2 ^ k)%nat -> filled t f (2 ^ k) = elem k COEFFICIENT t f.
Proof. intros Hl. unfold filled. rewrite Nat.sub_diag, app_nil_r, <- Hl, map_seq_id. done. Qed.
End Filling.
