(* ===== verification/Crt.v ===== *)
(** * The Chinese remainder theorem

    A basis is a list of pairs of a modulus and a root of unity. For distinct primes the
    residues determine a number below their product; interpolation recovers it, and the
    sum without the final reduction is the number plus a small multiple of the product. *)
From stdpp Require Import base numbers list sets.
From Stdlib Require Import ZArith Znumtheory Lia.
From S2P Require Import Prelude NttProps PolyProps PolyDigitProps DcrtTowers.
Open Scope Z_scope.

Fixpoint Qof (ts : list (Z * Z)) : Z := match ts with [] => 1 | t :: ts => fst t * Qof ts end.

(** Distinct primes. *)
Record coprime_basis (ts : list (Z * Z)) : Prop := {
  cb_prime : Forall (fun t => Z.prime (fst t)) ts;
  cb_distinct : NoDup (map fst ts)
}.

Lemma coprime_basis_tail t ts : coprime_basis (t :: ts) -> coprime_basis ts.
Proof. intros [H1 H2]. apply Forall_cons in H1 as [_ H1]. simpl in H2. apply NoDup_cons in H2 as [_ H2]. by split. Qed.

Lemma prime_pos q : Z.prime q -> 1 < q.
Proof. intros H. apply Z.prime_ge_2 in H. lia. Qed.

Lemma Qof_pos ts : coprime_basis ts -> 0 < Qof ts.
Proof.
  induction ts as [|t ts IH]; intros Hb; simpl; [lia|].
  pose proof (IH (coprime_basis_tail _ _ Hb)). destruct Hb as [Hp _]. apply Forall_cons in Hp as [Hp _].
  apply prime_pos in Hp. nia.
Qed.

Lemma Qof_app ts us : Qof (ts ++ us) = Qof ts * Qof us.
Proof. induction ts as [|t ts IH]; simpl; [lia|]. rewrite IH. ring. Qed.

Lemma Qof_divide t ts : t ∈ ts -> (fst t | Qof ts).
Proof.
  induction 1 as [t ts|t u ts _ [z E]]; simpl; [exists (Qof ts); ring|]. exists (fst u * z). rewrite E. ring.
Qed.

(** A prime that divides the product is one of the moduli. *)
Lemma prime_Qof p ts : Z.prime p -> Forall (fun t => Z.prime (fst t)) ts -> (p | Qof ts) -> p ∈ map fst ts.
Proof.
  intros Hp. induction 1 as [|t ts Ht _ IH]; simpl; intros Hd.
  - apply Z.divide_1_r_nonneg in Hd; [|apply prime_pos in Hp; lia]. apply prime_pos in Hp. lia.
  - apply elem_of_cons. apply Z.divide_prime_mul in Hd as [Hd|Hd]; [| |done]; [left | right; by apply IH].
    by apply Z.divide_prime_prime.
Qed.

Lemma Qof_coprime t ts : coprime_basis (t :: ts) -> Z.gcd (fst t) (Qof ts) = 1.
Proof.
  intros Hb. pose proof (coprime_basis_tail _ _ Hb) as [Hts _]. destruct Hb as [Hp Hd].
  apply Forall_cons in Hp as [Hp _]. simpl in Hd. apply NoDup_cons in Hd as [Hd _].
  apply Z.coprime_prime_l; [done|]. intros H. apply Hd. by apply prime_Qof.
Qed.

(** Numbers with the same residues are congruent modulo the product. *)
Lemma crt_congruent ts x y : coprime_basis ts -> (forall t, t ∈ ts -> x ==[fst t] y) -> x ==[Qof ts] y.
Proof.
  induction ts as [|t ts IH]; intros Hb H; simpl; [constructor; by rewrite !Z.mod_1_r|].
  pose proof (coprime_basis_tail _ _ Hb) as Hb'. pose proof (Qof_pos _ Hb) as Hq. pose proof (Qof_pos _ Hb') as Hq'. simpl in Hq.
  assert (0 < fst t) by (destruct Hb as [Hp _]; apply Forall_cons in Hp as [Hp _]; apply prime_pos in Hp; lia).
  apply eqmod_divide; [done|].
  destruct (proj1 (eqmod_divide (fst t) x y ltac:(done)) (H t ltac:(left))) as [z Ez].
  pose proof (proj1 (eqmod_divide (Qof ts) x y Hq') (IH Hb' ltac:(intros; apply H; by right))) as Hd.
  rewrite Ez, Z.mul_comm in Hd. apply Z.gauss in Hd as [u ->]; [|rewrite Z.gcd_comm; by apply Qof_coprime].
  exists u. rewrite Ez. ring.
Qed.

(** ** Interpolation *)

(** The sum of the products [y_t * (Q / q_t)]. *)
Fixpoint crt_sum (Q : Z) (y : Z * Z -> Z) (ts : list (Z * Z)) : Z :=
  match ts with [] => 0 | t :: ts => y t * (Q / fst t) + crt_sum Q y ts end.

Section Interpolation.
Context (ts : list (Z * Z)) (Hb : coprime_basis ts).
Let Q := Qof ts.

Lemma modulus_gt t : t ∈ ts -> 1 < fst t.
Proof. intros Ht. destruct Hb as [Hp _]. rewrite Forall_forall in Hp. by apply prime_pos, Hp. Qed.

Lemma quotient_mul t : t ∈ ts -> fst t * (Q / fst t) = Q.
Proof.
  intros Ht. pose proof (modulus_gt t Ht). destruct (Qof_divide t ts Ht) as [z E]. unfold Q. rewrite E, Z.div_mul by lia. ring.
Qed.

(** Another modulus divides the quotient. *)
Lemma quotient_divide t u : t ∈ ts -> u ∈ ts -> fst t <> fst u -> (fst u | Q / fst t).
Proof.
  intros Ht Hu Hne. pose proof (modulus_gt t Ht). pose proof (modulus_gt u Hu). pose proof (quotient_mul t Ht) as E.
  assert (fst u | fst t * (Q / fst t)) as Hd by (rewrite E; by apply Qof_divide).
  destruct Hb as [Hp _]. rewrite Forall_forall in Hp.
  apply Z.divide_prime_mul in Hd as [Hd|Hd]; [| done | by apply Hp].
  apply Z.divide_prime_prime in Hd; [congruence | by apply Hp..].
Qed.

(** The quotient by a modulus is a unit modulo it. *)
Lemma quotient_coprime t : t ∈ ts -> Z.gcd (Q / fst t) (fst t) = 1.
Proof.
  intros Ht. pose proof (modulus_gt t Ht). rewrite Z.gcd_comm.
  pose proof Hb as [Hp Hd]. apply list_elem_of_split in Ht as (l1 & l2 & E).
  assert (Q / fst t = Qof (l1 ++ l2)) as ->.
  { unfold Q. rewrite E, !Qof_app. simpl. rewrite Z.mul_assoc, (Z.mul_comm _ (fst t)), <- Z.mul_assoc, Z.mul_comm, Z.div_mul; lia. }
  rewrite E in Hp, Hd. rewrite map_app in Hd. simpl in Hd. apply NoDup_app in Hd as (Hd1 & Hd2 & Hd3).
  apply NoDup_cons in Hd3 as [Hd3 _]. apply Forall_app in Hp as [Hp1 Hp2]. apply Forall_cons in Hp2 as [Hpt Hp2].
  apply Z.coprime_prime_l; [done|]. intros H'. apply prime_Qof in H'; [| done | by apply Forall_app].
  rewrite map_app, elem_of_app in H'. destruct H' as [H'|H']; [|done]. apply (Hd2 _ H'). left.
Qed.

Lemma crt_sum_other us y u : us ⊆ ts -> u ∈ ts -> u.1 ∉ map fst us -> crt_sum Q y us ==[fst u] 0.
Proof.
  intros Hs Hu. induction us as [|t us IH]; intros Hn; simpl; [done|].
  apply not_elem_of_cons in Hn as [Hne Hn]. rewrite IH by (set_solver || done).
  destruct (quotient_divide t u) as [z ->]; [set_solver | done | congruence |].
  replace (y t * (z * fst u) + 0) with (0 + (y t * z) * fst u) by ring. apply eqmod_multiple.
Qed.

Lemma crt_sum_at us y u : us ⊆ ts -> NoDup (map fst us) -> u ∈ us -> crt_sum Q y us ==[fst u] y u * (Q / fst u).
Proof.
  intros Hs. induction us as [|t us IH]; intros Hn Hu; [by apply elem_of_nil in Hu|]. simpl in *.
  apply NoDup_cons in Hn as [Ht Hn]. apply elem_of_cons in Hu as [->|Hu].
  - rewrite (crt_sum_other us y t) by (done || set_solver). apply eqmod_eq. ring.
  - rewrite IH by (done || set_solver). destruct (quotient_divide t u) as [z ->]; [set_solver.. | |].
    + intros E. apply Ht. rewrite E. by apply (list_elem_of_fmap_2 fst).
    + replace (y t * (z * fst u) + y u * (Q / fst u)) with (y u * (Q / fst u) + (y t * z) * fst u) by ring.
      apply eqmod_multiple.
Qed.

(** With [y_t = x * (Q / q_t)^-1] modulo [q_t] the sum is congruent to [x]. *)
Lemma crt_sum_congruent y x : (forall t, t ∈ ts -> y t * (Q / fst t) ==[fst t] x) -> crt_sum Q y ts ==[Q] x.
Proof.
  intros H. apply crt_congruent; [done|]. intros t Ht. rewrite crt_sum_at by (done || apply Hb). by apply H.
Qed.

Lemma crt_sum_bound us y : us ⊆ ts -> (forall t, t ∈ us -> 0 <= y t < fst t) ->
  0 <= crt_sum Q y us <= Z.of_nat (length us) * Q.
Proof.
  intros Hs. pose proof (Qof_pos ts Hb) as Hq. fold Q in Hq.
  induction us as [|t us IH]; intros H; cbn [crt_sum length]; [lia|].
  pose proof (quotient_mul t ltac:(set_solver)) as E. pose proof (modulus_gt t ltac:(set_solver)).
  pose proof (H t ltac:(left)). pose proof (IH ltac:(set_solver) ltac:(intros; apply H; by right)).
  assert (0 <= Q / fst t) by (apply Z.div_pos; lia). nia.
Qed.

Lemma crt_sum_strict us y : us ⊆ ts -> us <> [] -> (forall t, t ∈ us -> 0 <= y t < fst t) ->
  crt_sum Q y us < Z.of_nat (length us) * Q.
Proof.
  intros Hs Hne Hy. pose proof (Qof_pos ts Hb) as Hq. fold Q in Hq. destruct us as [|t us]; [done|]. cbn [crt_sum length].
  pose proof (crt_sum_bound us y ltac:(set_solver) ltac:(intros; apply Hy; by right)) as Hb'.
  pose proof (quotient_mul t ltac:(set_solver)) as Et. pose proof (modulus_gt t ltac:(set_solver)). pose proof (Hy t ltac:(left)).
  assert (0 < Q / fst t) by nia. nia.
Qed.

(** The sum is [x] plus a multiple of [Q] smaller than the number of moduli. *)
Lemma crt_sum_overflow y x : 0 <= x < Q -> ts <> [] -> (forall t, t ∈ ts -> 0 <= y t < fst t) ->
  (forall t, t ∈ ts -> y t * (Q / fst t) ==[fst t] x) ->
  exists u, 0 <= u < Z.of_nat (length ts) /\ crt_sum Q y ts = x + u * Q.
Proof.
  intros Hx Hne Hy H. pose proof (Qof_pos ts Hb) as Hq. fold Q in Hq.
  destruct (proj1 (eqmod_divide _ _ _ Hq) (crt_sum_congruent y x H)) as [u Eu].
  pose proof (crt_sum_strict ts y ltac:(done) Hne Hy).
  pose proof (crt_sum_bound ts y ltac:(done) Hy). exists u. nia.
Qed.
End Interpolation.

(** ** Polynomials over a product of moduli *)

Lemma eqmod_mod_divide q Q x : 0 < q -> 0 < Q -> (q | Q) -> x mod Q ==[q] x.
Proof.
  intros Hq HQ [z Ez]. apply eqmod_divide; [done|]. exists (- (x / Q) * z).
  rewrite (Z.mod_eq x Q) by lia. rewrite Ez at 1. ring.
Qed.

Lemma padd_map {A} q (f g : A -> Z) X : padd q (map f X) (map g X) = map (fun x => (f x + g x) mod q) X.
Proof. unfold padd. induction X as [|x X IH]; simpl; [done | by rewrite IH]. Qed.
Lemma psub_map {A} q (f g : A -> Z) X : psub q (map f X) (map g X) = map (fun x => (f x - g x) mod q) X.
Proof. unfold psub. induction X as [|x X IH]; simpl; [done | by rewrite IH]. Qed.
Lemma pscale_map {A} q s (f : A -> Z) X : pscale q s (map f X) = map (fun x => (f x * s) mod q) X.
Proof. unfold pscale. apply map_map. Qed.
Lemma residues_map {A} q (f : A -> Z) X : residues q (map f X) = map (fun x => f x mod q) X.
Proof. apply map_map. Qed.
Lemma recenter_map {A} q q' (f : A -> Z) X : recenter q q' (map f X) = map (fun x => centered q (f x) mod q') X.
Proof. apply map_map. Qed.

(** Equations between lists of residues, coefficient by coefficient. *)
Lemma map_residue_ext {A} q (f g : A -> Z) X : (forall x, x ∈ X -> f x ==[q] g x) ->
  map (fun x => f x mod q) X = map (fun x => g x mod q) X.
Proof. intros H. apply map_ext_in. intros x Hx%list_elem_of_In. by apply eqmod_elim, H. Qed.

Section Homomorphism.
Context (q Q : Z) (Hq : 0 < q) (HQ : 0 < Q) (Hd : (q | Q)).

Lemma residues_zip (h : Z -> Z -> Z) X Y :
  (forall x y, h x y ==[q] h (x mod q) (y mod q)) ->
  residues q (zip_with (fun x y => h x y mod Q) X Y) = zip_with (fun x y => h x y mod q) (residues q X) (residues q Y).
Proof.
  intros Hh. revert Y. induction X as [|x X IH]; intros [|y Y]; simpl; [done.. |]. rewrite <- IH. f_equal.
  apply eqmod_elim. rewrite eqmod_mod_divide by done. apply Hh.
Qed.

Lemma residues_padd X Y : residues q (padd Q X Y) = padd q (residues q X) (residues q Y).
Proof. apply (residues_zip Z.add). intros. by rewrite !eqmod_mod. Qed.
Lemma residues_psub X Y : residues q (psub Q X Y) = psub q (residues q X) (residues q Y).
Proof. apply (residues_zip Z.sub). intros. by rewrite !eqmod_mod. Qed.
Lemma residues_pscale s s' X : s ==[q] s' -> residues q (pscale Q s X) = pscale q s' (residues q X).
Proof.
  intros E. unfold pscale, residues. rewrite !map_map. apply (map_residue_ext q). intros x _.
  rewrite eqmod_mod_divide by done. by rewrite eqmod_mod, E.
Qed.

Lemma residues_rotate n Y i r : (n <= length Y)%nat -> (i <= n)%nat -> (r < n)%nat ->
  rotate n (residues q Y) i r ==[q] rotate n Y i r.
Proof.
  intros Hl Hi Hr. unfold rotate, residues. destruct (Nat.ltb_spec r i).
  - rewrite fmap_at by lia. by rewrite eqmod_mod.
  - rewrite fmap_at by lia. by rewrite eqmod_mod.
Qed.

Lemma residues_negacyclic X Y : length Y = length X ->
  residues q (negacyclic Q X Y) = negacyclic q (residues q X) (residues q Y).
Proof.
  intros Hl. unfold negacyclic. rewrite residues_map.
  replace (length (residues q X)) with (length X) by (symmetry; apply length_map).
  apply map_ext_in. intros r Hr%in_seq. apply eqmod_elim. rewrite eqmod_mod_divide by done.
  symmetry. apply nsum_eqmod. intros i Hi. rewrite residues_rotate by lia.
  unfold residues. rewrite fmap_at by done. by rewrite eqmod_mod.
Qed.

Lemma residues_idem X : residues q (residues Q X) = residues q X.
Proof. unfold residues. rewrite map_map. apply (map_residue_ext q). intros. by apply eqmod_mod_divide. Qed.
End Homomorphism.

Lemma residues_small q X : reduced q X -> residues q X = X.
Proof.
  intros H. rewrite <- (map_id X) at 2. apply map_ext_in. intros x Hx%list_elem_of_In.
  apply Z.mod_small. by apply (proj1 (Forall_forall _ _) H).
Qed.

Lemma residues_0 q n : residues q (repeat 0 n) = repeat 0 n.
Proof. unfold residues. induction n; simpl; [done|]. by rewrite IHn, Zmod_0_l. Qed.
