(* ===== verification/DcrtProps.v ===== *)
(** * Double-CRT polynomials: arithmetic

    An element over a basis of distinct primes stands for one polynomial modulo the product
    [Q] of the primes and modulo [X^n + 1] ([dcrt]). The arithmetic of the class is that of
    this ring, in every representation it supports; the changes of representation and
    dropping towers act on the same polynomial. *)
From stdpp Require Import base numbers list sets.
From Stdlib Require Import ZArith Znumtheory Lia.
From S2P Require Import Prelude Bits NativeInt NativeIntProps NativeVector Ntt NttProps FttProps NbTheory NbTheoryProps AutoProps BigInt BigDiv BigIntProps BigShiftProps BigModProps BigRefine BigVector BigVectorProps BigNtt BigNttProps Poly PolyProps PolyAlg RgswRing Dcrt DcrtTowers Crt.
Open Scope Z_scope.

Section Elements.
Context `{W : NativeWidth}.
Context (af ai : NativeVectorT -> ILParams -> outcome NativeVectorT).
Context (k : nat).

(** [U] holds all moduli in use, with a root of unity for each. *)
Record moduli_ok (U : list (Z * Z)) : Prop := {
  mo_root : Forall (root_at k) U;
  mo_distinct : NoDup (map fst U);
  mo_size : 2 * GetMSB (Qof U) + 3 < 2 ^ 16
}.
Context (U : list (Z * Z)) (HU : moduli_ok U).

Record basis (ts : list (Z * Z)) : Prop := {
  ba_in : ts ⊆ U;
  ba_distinct : NoDup (map fst ts)
}.

Definition dparams (om : ubint) (ts : list (Z * Z)) : ILDCRTParams :=
  mkDParams (2 ^ (Z.of_nat k + 1)) (2 ^ Z.of_nat k) true (encode (Qof ts)) (ubint_int 0) (map (tparams k) ts) om.
Definition dcrt (om : ubint) (F : Format) (ts : list (Z * Z)) (X : list Z) : DCRTPoly :=
  mkDCRT (map (tower k F X) ts) F (dparams om ts).

Lemma basis_root ts t : basis ts -> t ∈ ts -> root_at k t.
Proof. intros [Hs _] Ht. destruct HU as [Hr _ _]. rewrite Forall_forall in Hr. by apply Hr, Hs. Qed.

Lemma basis_coprime ts : basis ts -> coprime_basis ts.
Proof. intros Hb. split; [|apply Hb]. apply Forall_forall. intros t Ht. apply (basis_root ts t Hb Ht). Qed.

Lemma basis_pos ts : basis ts -> 0 < Qof ts.
Proof. intros Hb. by apply Qof_pos, basis_coprime. Qed.

Lemma basis_U : basis U.
Proof. split; [done | apply HU]. Qed.

Lemma basis_divides ts : basis ts -> (Qof ts | Qof U).
Proof.
  intros Hb. apply eqmod_0_divide; [by apply basis_pos|]. apply crt_congruent; [by apply basis_coprime|].
  intros t Ht. pose proof (basis_root ts t Hb Ht) as [_ H4 _ _ _ _]. apply eqmod_0_divide; [lia|].
  apply Qof_divide. by apply Hb.
Qed.

Lemma basis_fits ts : basis ts -> fits (Qof ts).
Proof.
  intros Hb. pose proof (basis_pos U basis_U) as HQ. pose proof (basis_pos ts Hb).
  pose proof (Z.divide_pos_le _ _ HQ (basis_divides ts Hb)) as Hle.
  destruct HU as [_ _ Hs]. pose proof (GetMSB_bounds (Qof U) ltac:(lia)) as [_ Hm]. pose proof (GetMSB_pos (Qof U) ltac:(lia)).
  apply (fits_bits _ (GetMSB (Qof U))); [lia | unfold max_limbs; lia].
Qed.

Lemma root_word t : root_at k t -> 4 <= fst t /\ 2 * fst t <= 2 ^ (wbits - 1) /\ fst t < 2 ^ wbits /\ fst t < 2 ^ 64.
Proof.
  intros Ht. pose proof (ro_min _ _ _ Ht). destruct (modulus_size_word (fst t) ltac:(lia) (ro_size _ _ _ Ht)) as [H2 H3].
  pose proof wbits_range. assert (2 ^ (wbits - 1) <= 2 ^ wbits) by (apply Z.pow_le_mono_r; lia).
  assert (2 ^ wbits <= 2 ^ 64) by (apply Z.pow_le_mono_r; lia). lia.
Qed.

Lemma modulus_encode t : root_at k t -> ubint_int (fst t) = encode (fst t) /\ fits (fst t).
Proof.
  intros Ht. pose proof (root_word t Ht). split; [apply encode_int; lia|].
  apply (fits_bits _ 64); [lia | by vm_compute].
Qed.

(** ** Arithmetic *)

Section Ring.
Context (om om' : ubint) (ts : list (Z * Z)) (Hb : basis ts).
Let Q := Qof ts.

Lemma tower_divides t : t ∈ ts -> 0 < fst t /\ (fst t | Q).
Proof. intros Ht. pose proof (root_word t (basis_root ts t Hb Ht)). split; [lia | by apply Qof_divide]. Qed.

Lemma tower_elem t X : t ∈ ts -> length X = (2 ^ k)%nat -> ring_elem (fst t) k (residues (fst t) X).
Proof. intros Ht Hl. apply residues_elem; [apply (tower_divides t Ht) | done]. Qed.

Lemma zip_dcrt F X Y Z f :
  (forall t, t ∈ ts -> f (tower k F X t) (tower k F Y t) = Ok (tower k F Z t)) ->
  zip_checked f (dcrt om F ts X) (m_vectors (dcrt om' F ts Y)) = Ok (dcrt om F ts Z) /\
  zip_unchecked f (dcrt om F ts X) (m_vectors (dcrt om' F ts Y)) = Ok (dcrt om F ts Z).
Proof.
  intros H. unfold zip_checked, zip_unchecked. cbn [dcrt m_vectors]. rewrite !length_map, Nat.eqb_refl. cbn [negb].
  by rewrite (zip_towers_ok _ _ _ (tower k F Z)), bind_Ok.
Qed.

Lemma map_dcrt F X Z f : (forall t, t ∈ ts -> f (tower k F X t) = Ok (tower k F Z t)) ->
  map_towers f (dcrt om F ts X) = Ok (dcrt om F ts Z).
Proof. intros H. unfold map_towers. cbn [dcrt m_vectors]. by rewrite (vmapM_towers _ _ (tower k F Z)), bind_Ok. Qed.

Section Pair.
Context (X Y : list Z) (HX : length X = (2 ^ k)%nat) (HY : length Y = (2 ^ k)%nat).

Lemma Plus_dcrt F :
  Dcrt.Plus (dcrt om F ts X) (dcrt om' F ts Y) = Ok (dcrt om F ts (padd Q X Y)) /\
  Dcrt.PlusEq (dcrt om F ts X) (dcrt om' F ts Y) = Ok (dcrt om F ts (padd Q X Y)).
Proof.
  apply zip_dcrt. intros t Ht. destruct (tower_divides t Ht) as [H1 H2]. unfold tower.
  rewrite (residues_padd (fst t) Q H1 (basis_pos ts Hb) H2). apply elem_PlusEq; [by apply (basis_root ts) | by apply tower_elem..].
Qed.

Lemma Minus_dcrt F :
  Dcrt.Minus (dcrt om F ts X) (dcrt om' F ts Y) = Ok (dcrt om F ts (psub Q X Y)) /\
  Dcrt.MinusEq (dcrt om F ts X) (dcrt om' F ts Y) = Ok (dcrt om F ts (psub Q X Y)).
Proof.
  apply zip_dcrt. intros t Ht. destruct (tower_divides t Ht) as [H1 H2]. unfold tower.
  rewrite (residues_psub (fst t) Q H1 (basis_pos ts Hb) H2). apply elem_minus; [by apply (basis_root ts) | by apply tower_elem..].
Qed.

Lemma Times_dcrt :
  Dcrt.Times (dcrt om EVALUATION ts X) (dcrt om' EVALUATION ts Y) = Ok (dcrt om EVALUATION ts (negacyclic Q X Y)) /\
  Dcrt.TimesEq (dcrt om EVALUATION ts X) (dcrt om' EVALUATION ts Y) = Ok (dcrt om EVALUATION ts (negacyclic Q X Y)).
Proof.
  apply zip_dcrt. intros t Ht. destruct (tower_divides t Ht) as [H1 H2]. unfold tower.
  rewrite (residues_negacyclic (fst t) Q H1 (basis_pos ts Hb) H2) by lia.
  apply elem_TimesEq; [by apply (basis_root ts) | by apply tower_elem..].
Qed.

Lemma Negate_dcrt F : Dcrt.Negate (dcrt om F ts X) = Ok (dcrt om F ts (pscale Q (-1) X)).
Proof.
  apply map_dcrt. intros t Ht. destruct (tower_divides t Ht) as [H1 H2]. unfold tower.
  rewrite (residues_pscale (fst t) Q H1 (basis_pos ts Hb) H2 (-1) (fst t - 1)).
  - apply elem_Negate; [by apply (basis_root ts) | by apply tower_elem].
  - apply eqmod_divide; [done|]. exists (-1). ring.
Qed.

Lemma TimesEq_integer_dcrt F s : fits s ->
  Dcrt.TimesEq_integer (dcrt om F ts X) (encode s) = Ok (dcrt om F ts (pscale Q s X)).
Proof.
  intros Hs. apply map_dcrt. intros t Ht. pose proof (basis_root ts t Hb Ht) as Hr.
  destruct (tower_divides t Ht) as [H1 H2]. pose proof (root_word t Hr). destruct (modulus_encode t Hr) as [E Hf].
  unfold reduced_integer. change (Poly.GetModulus (tower k F X t)) with (fst t). rewrite E.
  pose proof (mod_range s (fst t) H1).
  rewrite (encode_Ok (Mod _ _) (s mod fst t)) by (apply Mod_represents; auto with fhe; by apply encode_represents).
  rewrite bind_Ok, (ConvertToInt_spec _ (s mod fst t)) by (apply encode_represents; by apply fits_mod).
  rewrite !bind_Ok, Z.mod_small, wrap_small by lia.
  unfold tower. rewrite (residues_pscale (fst t) Q H1 (basis_pos ts Hb) H2 s (s mod fst t)) by (by rewrite eqmod_mod).
  apply elem_scale; [done | by apply tower_elem | lia].
Qed.
End Pair.

Lemma DCRTPoly_new_dcrt F : DCRTPoly_new (dparams om ts) F true = Ok (dcrt om F ts (pzero k)).
Proof.
  unfold DCRTPoly_new. cbn [dparams d_parms]. rewrite (vmapM_towers _ _ (tower k F (pzero k))), bind_Ok; [done|].
  intros t Ht. unfold tower, pzero. rewrite residues_0. by apply elem_new, (basis_root ts).
Qed.

(** ** Changing the representation *)

Abbreviation ready := (ready k U).

(** The same for towers that are given one by one. *)
Definition family (F : Format) (h : Z * Z -> list Z) : DCRTPoly :=
  mkDCRT (map (fun t => elem k F t (h t)) ts) F (dparams om ts).

Lemma SwitchFormat_family F h st : (forall t, t ∈ ts -> ring_elem (fst t) k (h t)) -> ready st ->
  returns (Dcrt.SwitchFormat af ai (family F h) st) (fun '(r, st') => r = family (other F) h /\ ready st').
Proof.
  intros Hh Hst. unfold Dcrt.SwitchFormat. cbn [family m_vectors m_format Dcrt.m_params].
  eapply returns_bind; [apply (towers_map_ok ready _ _ (fun t => elem k (other F) t (h t))); [|done]|].
  { intros t st' Ht Hs. apply (elem_SwitchFormat af ai k U (mo_root U HU) (mo_distinct U HU)); [by apply Hb | by apply Hh | done]. }
  intros [rs st'] [-> Hst']. split; [|done]. by destruct F.
Qed.

Lemma SetFormat_family F F' h st : (forall t, t ∈ ts -> ring_elem (fst t) k (h t)) -> ready st ->
  returns (Dcrt.SetFormat af ai F' (family F h) st) (fun '(r, st') => r = family F' h /\ ready st').
Proof.
  intros Hl Hst. unfold Dcrt.SetFormat. cbn [family m_format]. case_bool_decide as E; [by subst|].
  fold (family F h). replace F' with (other F) by (by destruct F, F'). by apply SwitchFormat_family.
Qed.

Lemma SwitchFormat_dcrt F X st : length X = (2 ^ k)%nat -> ready st ->
  returns (Dcrt.SwitchFormat af ai (dcrt om F ts X) st) (fun '(r, st') => r = dcrt om (other F) ts X /\ ready st').
Proof. intros Hl. apply (SwitchFormat_family F (fun t => residues (fst t) X)). intros. by apply tower_elem. Qed.

Lemma SetFormat_dcrt F F' X st : length X = (2 ^ k)%nat -> ready st ->
  returns (Dcrt.SetFormat af ai F' (dcrt om F ts X) st) (fun '(r, st') => r = dcrt om F' ts X /\ ready st').
Proof. intros Hl. apply (SetFormat_family F F' (fun t => residues (fst t) X)). intros. by apply tower_elem. Qed.
End Ring.
End Elements.
