(* ===== verification/DcrtInterp.v ===== *)
(** * Double-CRT polynomials: interpolation

    [CRTInterpolate] returns the polynomial modulo [Q] that an element stands for, and the
    assignment from a polynomial modulo [Q] is its inverse; decryption reduces the centered
    representatives of the interpolated coefficients modulo the plaintext modulus. *)
From stdpp Require Import base numbers list sets.
From Stdlib Require Import ZArith Znumtheory Zcong Lia.
From S2P Require Import Prelude Bits NativeInt NativeIntProps NativeVector Ntt NttProps FttProps NbTheory NbTheoryProps AutoProps BigInt BigDiv BigIntProps BigShiftProps BigModProps BigRefine BigVector BigVectorProps BigNtt BigNttProps BigFttProps Poly PolyProps PolyAlg RgswRing Dcrt DcrtTowers Crt DcrtProps.
Open Scope Z_scope.

(** The inverse of [Q / q] modulo [q]. *)
Definition hat_inv (Q q : Z) : Z := Z.invmod (Q / q) q.

Lemma crt_sum_app Q y us vs : crt_sum Q y (us ++ vs) = crt_sum Q y us + crt_sum Q y vs.
Proof. induction us as [|t us IH]; cbn [app crt_sum]; [done | rewrite IH; ring]. Qed.

Lemma crt_sum_le Q y us b : 0 <= b -> (forall t, t ∈ us -> 0 <= y t * (Q / fst t) <= b) ->
  0 <= crt_sum Q y us <= Z.of_nat (length us) * b.
Proof.
  intros Hb. induction us as [|t us IH]; intros H; cbn [crt_sum length]; [lia|].
  pose proof (H t ltac:(left)). pose proof (IH ltac:(intros; apply H; by right)). lia.
Qed.

Lemma Qof_length ts : Forall (fun t => 2 <= fst t) ts -> 1 <= Qof ts /\ Z.of_nat (length ts) <= Qof ts.
Proof. induction 1 as [|t ts Ht _ IH]; cbn [length Qof]; [lia|]. nia. Qed.

Section Interpolate.
Context `{W : NativeWidth}.
Context (af ai : NativeVectorT -> ILParams -> outcome NativeVectorT).
Context (k : nat) (U : list (Z * Z)) (HU : moduli_ok k U).
Context (ts : list (Z * Z)) (Hb : basis U ts) (Hne : ts <> []).
Let Q := Qof ts.

Lemma hat_inv_ok t : t ∈ ts -> 0 <= hat_inv Q (fst t) < fst t /\ (hat_inv Q (fst t) * (Q / fst t)) mod fst t = 1.
Proof.
  intros Ht. pose proof (root_word k t (basis_root k U HU ts t Hb Ht)). split.
  - unfold hat_inv. rewrite <- Z.mod_invmod. apply mod_range. lia.
  - apply Z.invmod_coprime; [lia|]. apply (quotient_coprime ts (basis_coprime k U HU ts Hb) t Ht).
Qed.

Definition multiplier (t : Z * Z) : ubint := encode (Q / fst t * hat_inv Q (fst t)).

Lemma Q_modulus : 1 < Q.
Proof.
  destruct ts as [|t us] eqn:E; [done|]. clear Hne. assert (t ∈ t :: us) as Ht by left.
  pose proof (root_word k t (basis_root k U HU _ t Hb Ht)). pose proof (basis_pos k U HU _ Hb) as Hp.
  pose proof (Z.divide_pos_le _ _ Hp (Qof_divide t _ Ht)). unfold Q. lia.
Qed.

Lemma product_range t : t ∈ ts -> 0 <= Q / fst t * hat_inv Q (fst t) <= Q /\ 0 < Q / fst t <= Q.
Proof.
  intros Ht. pose proof (hat_inv_ok t Ht) as [H1 _]. pose proof Q_modulus.
  pose proof (quotient_mul ts (basis_coprime k U HU ts Hb) t Ht) as E. fold Q in E. nia.
Qed.

Lemma fits_Q : fits Q.
Proof. apply (basis_fits k U HU ts Hb). Qed.

Lemma crt_multiplier_ok F X t : t ∈ ts -> crt_multiplier (encode Q) (tower k F X t) = Ok (multiplier t).
Proof.
  intros Ht. pose proof (basis_root k U HU ts t Hb Ht) as Hr. pose proof (root_word k t Hr).
  destruct (modulus_encode k t Hr) as [E Hf]. destruct (hat_inv_ok t Ht) as [Hi Ei]. destruct (product_range t Ht).
  pose proof fits_Q as FQ. assert (fits (Q / fst t)) as Fd by (eapply fits_mono; [exact FQ | lia]).
  unfold crt_multiplier. change (Poly.GetModulus (tower k F X t)) with (fst t). rewrite E.
  rewrite (encode_Ok (DividedBy _ _) (Q / fst t)) by (apply DividedBy_represents; auto with fhe; lia). rewrite bind_Ok.
  destruct (BigModInverse_ok (fst t) (Q / fst t)) as (z & Hz & Ez & ->); [lia | done | done |
    apply (quotient_coprime ts (basis_coprime k U HU ts Hb) t Ht) |].
  assert (z = hat_inv Q (fst t)) as ->.
  { apply (eqmod_small (fst t)); [lia | lia |].
    transitivity (z * (hat_inv Q (fst t) * (Q / fst t))).
    - rewrite (eqmod_1 (fst t) (hat_inv Q (fst t) * (Q / fst t))) by (done || lia). apply eqmod_eq. ring.
    - replace (z * _) with (Q / fst t * z * hat_inv Q (fst t)) by ring.
      rewrite (eqmod_1 (fst t) (Q / fst t * z)) by (done || lia). apply eqmod_eq. ring. }
  assert (fits (hat_inv Q (fst t))) as Fi by (eapply fits_mono; [exact Hf | lia]).
  rewrite bind_Ok, (encode_Ok (Mod _ _) (hat_inv Q (fst t) mod fst t)) by (apply Mod_represents; auto with fhe; lia).
  rewrite bind_Ok, Z.mod_small by lia. enc. apply Mul_represents; auto with fhe. eapply fits_mono; [exact FQ | lia].
Qed.

(** The sum over the towers, for one coefficient. *)
Definition terms (x : Z) (t : Z * Z) : Z := x mod fst t * hat_inv Q (fst t).

Lemma fits_sum us x : us ⊆ ts -> (length us <= length ts)%nat -> fits (crt_sum Q (terms x) us).
Proof.
  intros Hs Hl. pose proof Q_modulus.
  assert (forall t, t ∈ us -> 0 <= terms x t * (Q / fst t) <= 2 ^ 64 * Q) as Hy.
  { intros t Ht%Hs. pose proof (root_word k t (basis_root k U HU ts t Hb Ht)) as Hw. pose proof (mod_range x (fst t) ltac:(lia)).
    pose proof (product_range t Ht) as [Hp _]. unfold terms. rewrite <- Z.mul_assoc, (Z.mul_comm (hat_inv _ _)).
    assert (0 <= x mod fst t <= 2 ^ 64) by lia. nia. }
  pose proof (crt_sum_le Q (terms x) us (2 ^ 64 * Q) ltac:(lia) Hy) as Hle.
  assert (Z.of_nat (length ts) <= Q) as Hn.
  { apply Qof_length. apply Forall_forall. intros t Ht. pose proof (root_word k t (basis_root k U HU ts t Hb Ht)). lia. }
  pose proof (Z.divide_pos_le _ _ (basis_pos k U HU U (basis_U k U HU)) (basis_divides k U HU ts Hb)) as HQU. fold Q in HQU.
  pose proof (basis_pos k U HU U (basis_U k U HU)) as HUp.
  destruct HU as [_ _ Hsz]. pose proof (GetMSB_bounds (Qof U) HUp) as [_ Hm]. pose proof (GetMSB_pos (Qof U) HUp).
  set (b := GetMSB (Qof U)) in *.
  apply (fits_bits _ (b + b + 64)); [|unfold max_limbs; lia]. split; [lia|].
  rewrite !Z.pow_add_r by lia. assert (Q < 2 ^ b) by lia. nia.
Qed.

Lemma crt_coefficient_ok mu X i : length X = (2 ^ k)%nat -> (i < 2 ^ k)%nat ->
  crt_coefficient (encode Q) mu (map (tower k COEFFICIENT X) ts) (map multiplier ts) i = Ok (encode (X !!! i mod Q)).
Proof.
  intros Hl Hi. pose proof Q_modulus. pose proof fits_Q as FQ. unfold crt_coefficient. rewrite length_map.
  set (x := X !!! i).
  assert (for_range 0 (length ts) (fun vi s =>
        v ← vget (map (tower k COEFFICIENT X) ts) vi; vals ← Poly.GetValues v; x ← vget (NativeVector.m_data vals) i;
        m ← vget (map multiplier ts) vi; y ← Mul (ubint_int x) m; AddEq s y) (encode (crt_sum Q (terms x) (take 0 ts)))
      = Ok (encode (crt_sum Q (terms x) (take (length ts) ts)))) as E.
  { apply (for_range_exact (fun j => encode (crt_sum Q (terms x) (take j ts)))); [lia|]. intros j Hj.
    destruct (lookup_lt_is_Some_2 ts j ltac:(lia)) as [t Et]. assert (t ∈ ts) as Ht by (by eapply list_elem_of_lookup_2).
    rewrite (vget_Some (map _ ts) j (tower k COEFFICIENT X t)), bind_Ok by (by rewrite list_lookup_fmap, Et).
    unfold tower, elem, repr, Poly.GetValues. cbn [m_values values_in NativeVector.m_data]. rewrite bind_Ok. cbn [NativeVector.m_data].
    rewrite (vget_Some (residues (fst t) X) i (x mod fst t)), bind_Ok
      by (unfold residues; rewrite list_lookup_fmap, list_lookup_lookup_total_lt by lia; done).
    rewrite (vget_Some (map _ ts) j (multiplier t)), bind_Ok by (by rewrite list_lookup_fmap, Et).
    pose proof (root_word k t (basis_root k U HU ts t Hb Ht)). pose proof (mod_range x (fst t) ltac:(lia)).
    pose proof (product_range t Ht) as [Hp _]. pose proof (fits_sum (take (S j) ts) x (subseteq_take _ ts) ltac:(rewrite length_take; lia)) as Fs.
    pose proof (fits_sum (take j ts) x (subseteq_take _ ts) ltac:(rewrite length_take; lia)) as Fj.
    rewrite (take_S_r ts j t Et), crt_sum_app in Fs |- *. cbn [crt_sum] in Fs |- *. rewrite Z.add_0_r in Fs |- *.
    replace (terms x t * (Q / fst t)) with (x mod fst t * (Q / fst t * hat_inv Q (fst t))) in * by (unfold terms; ring).
    assert (fits (x mod fst t)) by (apply (fits_bits _ 64); [lia | by vm_compute]).
    assert (fits (Q / fst t * hat_inv Q (fst t))) by (eapply fits_mono; [exact FQ | lia]).
    assert (fits (x mod fst t * (Q / fst t * hat_inv Q (fst t)))) by (eapply fits_mono; [exact Fs | destruct Fj; nia]).
    rewrite encode_int by lia. unfold multiplier.
    rewrite (encode_Ok (Mul _ _) (x mod fst t * (Q / fst t * hat_inv Q (fst t)))), bind_Ok by (apply Mul_represents; auto with fhe).
    enc. apply AddEq_represents; auto with fhe. }
  change (encode (crt_sum Q (terms x) (take 0 ts))) with (ubint_int 0) in E. rewrite E, bind_Ok, take_ge by lia.
  unfold ModEq_mu. enc.
  replace (x mod Q) with (crt_sum Q (terms x) ts mod Q).
  - apply ModEq_represents; [apply encode_represents, fits_sum; done | auto with fhe | lia].
  - apply eqmod_elim. apply (crt_sum_congruent ts (basis_coprime k U HU ts Hb)). intros t Ht.
    pose proof (root_word k t (basis_root k U HU ts t Hb Ht)). destruct (hat_inv_ok t Ht) as [_ Ei]. fold Q.
    unfold terms. rewrite <- Z.mul_assoc, (eqmod_1 (fst t) (hat_inv Q (fst t) * _)) by (done || lia).
    rewrite Z.mul_1_r. apply eqmod_mod.
Qed.

(** The polynomial as a ring element over a multiprecision vector. *)
Definition big_poly (X : list Z) : BigPoly :=
  mkBigPoly (Some (encode_vec Q X)) COEFFICIENT (2 ^ (Z.of_nat k + 1)) (2 ^ Z.of_nat k) (encode Q) (ubint_int 1).

Lemma fits_2Q : fits (2 * Q).
Proof.
  pose proof Q_modulus. pose proof (basis_pos k U HU U (basis_U k U HU)) as HUp.
  pose proof (Z.divide_pos_le _ _ HUp (basis_divides k U HU ts Hb)) as HQU. fold Q in HQU.
  destruct HU as [_ _ Hsz]. pose proof (GetMSB_bounds (Qof U) HUp) as [_ Hm]. pose proof (GetMSB_pos (Qof U) HUp).
  apply (fits_bits _ (GetMSB (Qof U) + 1)); [rewrite Z.pow_add_r by lia; lia | unfold max_limbs; lia].
Qed.

Lemma mu_Q : exists mu, ComputeMu (encode Q) = Ok mu.
Proof.
  pose proof Q_modulus. apply ComputeMu_total; [done | | apply fits_Q].
  pose proof (basis_pos k U HU U (basis_U k U HU)) as HUp.
  pose proof (Z.divide_pos_le _ _ HUp (basis_divides k U HU ts Hb)) as HQU. fold Q in HQU.
  destruct HU as [_ _ Hsz]. pose proof (GetMSB_le Q (GetMSB (Qof U))) as Hle.
  rewrite !GetMSB_log2 in * by lia. pose proof (Z.log2_le_mono Q (Qof U) HQU). lia.
Qed.

Lemma ring_dimension om F X : GetRingDimension (dcrt k om F ts X) = (2 ^ k)%nat.
Proof. unfold GetRingDimension. cbn. rewrite <- pow2_nat_Z. lia. Qed.

Abbreviation ready := (ready k U).

Lemma coefficient_towers_ok om F X st : length X = (2 ^ k)%nat -> ready st ->
  returns (coefficient_towers af ai (dcrt k om F ts X) st) (fun '(vs, st') => vs = map (tower k COEFFICIENT X) ts /\ ready st').
Proof.
  intros Hl Hst. unfold coefficient_towers. cbn [dcrt m_format m_vectors]. destruct F; [|done].
  apply (towers_map_ok ready _ (tower k EVALUATION X) (tower k COEFFICIENT X)); [|done].
  intros t st' Ht Hs. apply (elem_SetFormat af ai k U (mo_root k U HU) (mo_distinct k U HU));
    [by apply Hb | by apply (tower_elem k U HU ts Hb) | done].
Qed.

(** ** From a polynomial modulo [Q] *)

(** The inner loop: entry [i] of every tower. *)
Lemma assign_row X i : length X = (2 ^ k)%nat -> (i < 2 ^ k)%nat -> reduced Q X ->
  for_range 0 (length ts) (fun v vs =>
    e ← vget (map encode X) i;
    m ← vget (map (fun p => ubint_int (ciphertextModulus p)) (map (tparams k) ts)) v;
    tmp ← Mod e m;
    x ← ConvertToInt tmp;
    t ← vget vs v;
    t ← set_index t i (wrap x);
    vset vs v t) (map (fun t => filled k t (residues (fst t) X) i) ts)
  = Ok (map (fun t => filled k t (residues (fst t) X) (S i)) ts).
Proof.
  intros Hl Hi HX. apply (update_loop (fun t => filled k t (residues (fst t) X) i) (fun t => filled k t (residues (fst t) X) (S i))).
  intros v t l Et El. assert (t ∈ ts) as Ht by (by eapply list_elem_of_lookup_2).
  pose proof (basis_root k U HU ts t Hb Ht) as Hr. pose proof (root_word k t Hr). destruct (modulus_encode k t Hr) as [Em Fm].
  pose proof (reduced_at Q X i HX ltac:(lia)) as Rx. pose proof (mod_range (X !!! i) (fst t) ltac:(lia)) as Rm.
  assert (fits (X !!! i)) as Fx by (eapply fits_mono; [apply fits_Q | lia]).
  rewrite (vget_map encode X i (X !!! i)), bind_Ok by (apply list_lookup_lookup_total_lt; lia).
  rewrite map_map, (vget_map _ ts v t Et), bind_Ok. cbn [tparams ciphertextModulus]. rewrite Em.
  rewrite (encode_Ok (Mod _ _) (X !!! i mod fst t)) by (apply Mod_represents; auto with fhe; lia). rewrite bind_Ok.
  rewrite (ConvertToInt_spec _ (X !!! i mod fst t)), bind_Ok by (apply encode_represents; apply fits_mod; [done | lia]).
  rewrite (wrap_64_small _ (fst t)) by lia. rewrite (vget_Some _ _ _ El), bind_Ok, <- residues_at by lia.
  rewrite filled_step, bind_Ok by lia. by rewrite vset_lt by (by eapply lookup_lt_Some).
Qed.

Lemma assign_large_dcrt om X : length X = (2 ^ k)%nat -> reduced Q X ->
  DCRTPoly_large (big_poly X) (dparams k om ts) = Ok (dcrt k (encode Q) COEFFICIENT ts X).
Proof.
  intros Hl HX. unfold DCRTPoly_large, assign_large. cbn [big_poly bp_order bp_format bp_modulus bp_values dparams d_cyclotomicOrder].
  rewrite Z.eqb_refl. cbn [negb SetOriginalModulus Dcrt.m_params d_ciphertextModulus m_format d_parms dparams].
  rewrite op_gt_encode, bind_Ok by apply fits_Q. rewrite Z.ltb_irrefl.
  rewrite (vmapM_towers _ _ (fun t => filled k t (residues (fst t) X) 0)), bind_Ok.
  2: { intros t Ht. rewrite elem_new by (by apply (basis_root k U HU ts)). unfold filled. by rewrite Nat.sub_0_r. }
  rewrite bind_Ok. unfold GetLength. cbn [m_data encode_vec]. rewrite length_map, Hl, length_map.
  rewrite (for_range_exact (fun i => map (fun t => filled k t (residues (fst t) X) i) ts) 0 (2 ^ k)); [| lia |].
  - rewrite bind_Ok. unfold dcrt, dparams. do 2 f_equal. apply map_ext. intros t. apply filled_full.
    unfold residues. by rewrite length_map.
  - intros i Hi. apply assign_row; [done | lia | done].
Qed.

Context (dist : nat -> Z -> Z) (rfuel : nat) `{HS : UniformSource dist rfuel} (fuel : nat) (Hfuel : (k + 1 <= fuel)%nat).

Lemma size_k_basis : (1 <= k <= 24)%nat.
Proof.
  destruct ts as [|t us] eqn:E; [done|]. clear Hne. assert (t ∈ t :: us) as Ht by left.
  apply (basis_root k U HU _ t Hb Ht).
Qed.

Lemma BigPoly_from_ok X st : length X = (2 ^ k)%nat -> ready st ->
  returns (BigPoly_from dist rfuel fuel (2 ^ (Z.of_nat k + 1)) (encode Q) (encode_vec Q X) st)
    (fun '(p, st') => p = big_poly X /\ ready st').
Proof.
  intros Hl Hst. unfold BigPoly_from.
  destruct (native_params_ok dist rfuel fuel k (0, 1) st Hfuel size_k_basis) as [n E]. cbn [fst snd] in E.
  rewrite E, bind_Ok. unfold BigVector.GetModulus. rewrite bool_decide_true, bind_Ok by done. cbn [m_modulus encode_vec].
  rewrite op_ne_encode, Z.eqb_refl, bind_Ok by apply fits_Q. cbn [negb orb].
  unfold GetLength. cbn [ringDimension tparams m_data encode_vec]. rewrite length_map, Hl, pow2_nat_Z, Z.eqb_refl. cbn [negb orb].
  split; [done|]. exact Hst.
Qed.

Lemma CRTInterpolate_dcrt om F X st : length X = (2 ^ k)%nat -> reduced Q X -> ready st ->
  returns (CRTInterpolate af ai dist rfuel fuel (dcrt k om F ts X) st) (fun '(p, st') => p = big_poly X /\ ready st').
Proof.
  intros Hl HX Hst. pose proof Q_modulus. unfold CRTInterpolate. rewrite ring_dimension.
  cbn [dcrt dparams Dcrt.m_params d_ciphertextModulus d_cyclotomicOrder]. fold Q.
  rewrite (represents_copy _ Q), bind_Ok by (apply encode_represents, fits_Q).
  rewrite zero_vector_ok, bind_Ok by (lia || apply fits_2Q).
  change (m_vectors (dcrt k om F ts X)) with (map (tower k F X) ts).
  rewrite (vmapM_towers _ (tower k F X) multiplier), bind_Ok by (intros; by apply crt_multiplier_ok).
  eapply returns_bind; [by apply (coefficient_towers_ok om F X)|]. intros [vecs st1] [-> H1].
  destruct mu_Q as [mu ->]. rewrite bind_Ok. cbn [m_data encode_vec].
  replace (map encode (repeat 0 (2 ^ k))) with (repeat (encode 0) (2 ^ k)) by (symmetry; apply map_repeat).
  rewrite (fill_vector _ (fun i => encode (X !!! i))), bind_Ok.
  2: { intros i Hi. rewrite crt_coefficient_ok by done. do 2 f_equal. apply Z.mod_small.
       apply reduced_at; [done | lia]. }
  replace (map (fun i => encode (X !!! i)) (seq 0 (2 ^ k))) with (map encode X)
    by (rewrite <- (map_seq_id X) at 1; rewrite map_map, Hl; done).
  by apply BigPoly_from_ok.
Qed.

(** ** Decryption *)

Lemma Qof_odd us : us ⊆ ts -> Z.odd (Qof us) = true.
Proof.
  induction us as [|t us IH]; intros Hs; cbn [Qof]; [done|]. rewrite Z.odd_mul, IH, andb_true_r by set_solver.
  assert (t ∈ ts) as Ht by set_solver. pose proof (basis_root k U HU ts t Hb Ht) as Hr.
  destruct (Z.odd (fst t)) eqn:E; [done|]. rewrite <- Z.negb_even in E. apply negb_false_iff, Z.even_spec in E as [z Ez].
  pose proof (ro_prime _ _ _ Hr) as Hp. pose proof (ro_min _ _ _ Hr). assert (2 | fst t) as Hd by (exists z; lia).
  apply Z.divide_prime_prime in Hd; [lia | apply Z.prime_2 | done].
Qed.

Lemma centered_parity x : 0 <= x < Q -> (if Q / 2 <? x then 1 - x mod 2 else x mod 2) = centered Q x mod 2.
Proof.
  intros Hx. pose proof (Qof_odd ts ltac:(done)) as Ho. apply Z.odd_spec in Ho as [z Ez]. fold Q in Ez. unfold centered.
  rewrite Z.gtb_ltb. destruct (Q / 2 <? x); [|done]. rewrite Ez.
  replace (x - (2 * z + 1)) with (x - 1 + (- z) * 2) by ring. rewrite Z_mod_plus_full.
  pose proof (Z.mod_pos_bound x 2). rewrite <- Zminus_mod_idemp_l. assert (x mod 2 = 0 \/ x mod 2 = 1) as [-> | ->] by lia; done.
Qed.

(** The plaintext that [DecryptionCRTInterpolate] returns. *)
Definition plaintext (ptm : Z) (X : list Z) : PolyImpl :=
  mkPoly (Some (mkVector (map (fun x => centered Q x mod ptm) X) ptm)) COEFFICIENT (tparams k (ptm, 1)).

Lemma big_Mod_ok ptm X : 0 < ptm < 2 ^ 64 -> reduced Q X ->
  Mod_vector (encode_vec Q X) (ubint_int ptm) = Ok (encode_vec Q (map (fun x => centered Q x mod ptm) X)).
Proof.
  intros Hp HX. pose proof Q_modulus. rewrite encode_int by lia.
  assert (Forall fits X) as FX.
  { eapply Forall_impl; [exact HX|]. intros x Hx. eapply fits_mono; [apply fits_Q | cbv beta in Hx; lia]. }
  rewrite (proj1 (bigvec_Mod_centered Q ptm X ltac:(lia) ltac:(lia) fits_Q
    ltac:(apply (fits_bits _ 65); [lia | by vm_compute]) FX)).
  do 2 f_equal. apply map_ext_in. intros x Hx%list_elem_of_In. destruct (Z.eqb_spec ptm 2) as [->|]; [|done].
  apply centered_parity. by apply (proj1 (Forall_forall _ _) HX).
Qed.

Lemma BigPoly_Decryption_ok ptm X st : 0 < ptm -> GetMSB ptm <= MAX_MODULUS_SIZE ->
  length X = (2 ^ k)%nat -> reduced Q X -> ready st ->
  returns (BigPoly_Decryption dist rfuel fuel (big_poly X) ptm st) (fun '(p, st') => p = plaintext ptm X /\ ready st').
Proof.
  intros Hp Hm Hl HX Hst. destruct (modulus_size_word ptm Hp Hm) as [_ Hw]. pose proof wbits_range.
  assert (2 ^ (wbits - 1) <= 2 ^ wbits) by (apply Z.pow_le_mono_r; lia).
  assert (2 ^ wbits <= 2 ^ 64) by (apply Z.pow_le_mono_r; lia).
  unfold BigPoly_Decryption. cbn [big_poly bp_values bp_order bp_format]. rewrite bind_Ok, big_Mod_ok, bind_Ok by (lia || done).
  rewrite wrap_small by lia. set (f := map (fun x => centered Q x mod ptm) X).
  assert (length f = (2 ^ k)%nat) as Hlf by (unfold f; by rewrite length_map).
  destruct (native_params_ok dist rfuel fuel k (ptm, 1) st Hfuel size_k_basis) as [n E]. cbn [fst snd] in E. rewrite E, bind_Ok.
  assert (PolyImpl_new (tparams k (ptm, 1)) COEFFICIENT true = Ok (filled k (ptm, 1) f 0)) as ->.
  { unfold PolyImpl_new, Poly.SetValuesToZero, ring_length, Poly.GetModulus. cbn [tparams Poly.m_params ringDimension ciphertextModulus fst].
    rewrite NativeVectorT_new_ok, bind_Ok by done. unfold set_values, filled, elem, repr. cbn. rewrite Nat.sub_0_r.
    replace (Z.to_nat (2 ^ Z.of_nat k)) with (2 ^ k)%nat by (rewrite <- pow2_nat_Z; lia). done. }
  rewrite bind_Ok. unfold GetLength. cbn [m_data encode_vec]. rewrite length_map, Hlf.
  rewrite (for_range_exact (filled k (ptm, 1) f) 0 (2 ^ k)); [| lia |].
  - rewrite bind_Ok, filled_full by done. split; [done | exact Hst].
  - intros i Hi. pose proof (list_lookup_lookup_total_lt f i ltac:(lia)) as Ef.
    rewrite (vget_Some _ i (encode (f !!! i))), bind_Ok by (by rewrite list_lookup_fmap, Ef).
    assert (0 <= f !!! i < ptm) as Hr.
    { unfold f. rewrite fmap_at by lia. by apply mod_range. }
    rewrite (ConvertToInt_spec _ (f !!! i)), bind_Ok
      by (apply encode_represents, (fits_bits _ 64); [lia | by vm_compute]).
    rewrite (wrap_64_small _ ptm) by lia. apply filled_step. lia.
Qed.

Lemma CRTInterpolateIndex_dcrt om F X i st : length X = (2 ^ k)%nat -> reduced Q X -> (i < 2 ^ k)%nat -> ready st ->
  returns (CRTInterpolateIndex af ai dist rfuel fuel (dcrt k om F ts X) i st)
    (fun '(p, st') => p = big_poly (<[i := X !!! i]> (repeat 0 (2 ^ k))) /\ ready st').
Proof.
  intros Hl HX Hi Hst. pose proof Q_modulus. unfold CRTInterpolateIndex. rewrite ring_dimension.
  cbn [dcrt dparams Dcrt.m_params d_ciphertextModulus d_cyclotomicOrder]. fold Q.
  rewrite (represents_copy _ Q), bind_Ok by (apply encode_represents, fits_Q).
  rewrite zero_vector_ok, bind_Ok by (lia || apply fits_2Q).
  change (m_vectors (dcrt k om F ts X)) with (map (tower k F X) ts).
  rewrite (vmapM_towers _ (tower k F X) multiplier), bind_Ok by (intros; by apply crt_multiplier_ok).
  eapply returns_bind; [by apply (coefficient_towers_ok om F X)|]. intros [vecs st1] [-> H1].
  destruct mu_Q as [mu ->]. rewrite bind_Ok. cbn [m_data encode_vec].
  replace (map encode (repeat 0 (2 ^ k))) with (repeat (encode 0) (2 ^ k)) by (symmetry; apply map_repeat).
  set (Y := <[i := X !!! i]> (repeat 0 (2 ^ k))).
  assert (length Y = (2 ^ k)%nat) as HlY by (unfold Y; by rewrite length_insert, repeat_length).
  rewrite (fill_vector _ (fun i => encode (Y !!! i))), bind_Ok.
  2: { intros j Hj. unfold Y. destruct (Nat.eqb_spec j i) as [->|Hne'].
       - rewrite crt_coefficient_ok, list_lookup_total_insert_eq by (done || by rewrite repeat_length).
         do 2 f_equal. apply Z.mod_small. apply reduced_at; [done | lia].
       - rewrite list_lookup_total_insert_ne by done. change (ubint_int 0) with (encode 0). do 2 f_equal.
         symmetry. by apply list_lookup_total_correct, lookup_repeat. }
  replace (map (fun i => encode (Y !!! i)) (seq 0 (2 ^ k))) with (map encode Y)
    by (rewrite <- (map_seq_id Y) at 1; rewrite map_map, HlY; done).
  by apply BigPoly_from_ok.
Qed.
End Interpolate.
