(* ===== verification/DcrtScale.v ===== *)
(** * Double-CRT polynomials: dropping towers and scaling

    Dropping a tower keeps the polynomial modulo the remaining product. The rescaling of CKKS
    divides every coefficient by the dropped modulus and rounds to the nearest integer; the
    modulus switching of BGV divides exactly after adding a multiple of the plaintext modulus. *)
From stdpp Require Import base numbers list sets.
From Stdlib Require Import ZArith Znumtheory Lia.
From S2P Require Import Prelude Bits NativeInt NativeIntProps NativeVector Ntt NttProps FttProps NbTheory NbTheoryProps AutoProps BigInt BigDiv BigIntProps BigShiftProps BigModProps BigRefine BigVector BigVectorProps Poly PolyProps PolyAlg RgswRing Dcrt DcrtTowers Crt DcrtProps.
Open Scope Z_scope.

(** Division by [l] rounded to the nearest integer, with the centered remainder. *)
Definition rescale (l : Z) (X : list Z) : list Z := map (fun x => (x - centered l (x mod l)) / l) X.

Lemma centered_bounds l x : 0 < l -> 0 <= x < l -> - l <= 2 * centered l x <= l.
Proof.
  intros Hl Hx. unfold centered. rewrite Z.gtb_ltb. pose proof (Z.div_mod l 2). pose proof (Z.mod_pos_bound l 2).
  destruct (Z.ltb_spec (l / 2) x); lia.
Qed.

Lemma rescale_exact l x : 0 < l -> x - centered l (x mod l) = l * ((x - centered l (x mod l)) / l).
Proof.
  intros Hl. assert (l | x - centered l (x mod l)) as [z Ez].
  { apply eqmod_divide; [done|]. by rewrite centered_eqmod, eqmod_mod. }
  rewrite Ez, Z.div_mul by lia. ring.
Qed.

(** The rescaled coefficient is within half a unit of the quotient. *)
Lemma rescale_nearest l x : 0 < l -> - l <= 2 * (x - l * ((x - centered l (x mod l)) / l)) <= l.
Proof.
  intros Hl. rewrite <- rescale_exact by done. pose proof (centered_bounds l (x mod l) Hl (mod_range x l Hl)). lia.
Qed.

(** The multiple of [t] that BGV adds to make a coefficient divisible by [l], and the quotient. *)
Definition correction (l negtInv x : Z) : Z := centered l ((x mod l * negtInv) mod l).
Definition mod_reduced (t l negtInv : Z) (X : list Z) : list Z :=
  map (fun x => (x + t * correction l negtInv x) / l) X.

Lemma mod_reduced_exact t l negtInv x : 0 < l -> t * negtInv ==[l] -1 ->
  x + t * correction l negtInv x = l * ((x + t * correction l negtInv x) / l).
Proof.
  intros Hl Ht. assert (l | x + t * correction l negtInv x) as [z Ez].
  { apply eqmod_0_divide; [done|]. unfold correction. rewrite centered_eqmod, !eqmod_mod.
    replace (x + t * (x * negtInv)) with (x + x * (t * negtInv)) by ring. rewrite Ht. apply eqmod_eq. ring. }
  rewrite Ez, Z.div_mul by lia. ring.
Qed.

(** Times the modulus it is the coefficient modulo [t], with a bound on the difference. *)
Lemma mod_reduced_spec t l negtInv x : 0 < l -> 0 < t -> t * negtInv ==[l] -1 ->
  l * ((x + t * correction l negtInv x) / l) ==[t] x /\
  - (t * l) <= 2 * (l * ((x + t * correction l negtInv x) / l) - x) <= t * l.
Proof.
  intros Hl Ht H. rewrite <- (mod_reduced_exact t l negtInv x Hl H). split.
  - replace (x + t * _) with (x + correction l negtInv x * t) by ring. apply eqmod_multiple.
  - pose proof (centered_bounds l _ Hl (mod_range (x mod l * negtInv) l Hl)) as Hc. unfold correction. nia.
Qed.

Lemma PopLastParam_dparams `{W : NativeWidth} k U (HU : moduli_ok k U) om ts t : basis U (ts ++ [t]) ->
  PopLastParam (dparams k om (ts ++ [t])) = Ok (dparams k om ts).
Proof.
  intros Hb. assert (root_at k t) as Hr by (apply (basis_root k U HU _ t Hb), elem_of_app; right; by apply elem_of_cons; left).
  unfold PopLastParam. cbn [dparams d_parms d_ciphertextModulus].
  rewrite !map_app. cbn [map]. rewrite last_snoc. change (ciphertextModulus (tparams k t)) with (fst t).
  pose proof (root_word k t Hr). destruct (modulus_encode k t Hr) as [E Hf]. rewrite E.
  assert (DividedByEq (encode (Qof (ts ++ [t]))) (encode (fst t)) = Ok (encode (Qof ts))) as ->.
  { unfold DividedByEq. rewrite (encode_Ok (DividedBy _ _) (Qof (ts ++ [t]) / fst t))
      by (apply DividedBy_represents; [apply encode_represents, (basis_fits k U HU _ Hb) | auto with fhe | lia]).
    rewrite Qof_app. cbn [Qof]. rewrite Z.mul_1_r, Z.div_mul by lia. done. }
  rewrite bind_Ok, length_app, !length_map. cbn [length]. replace (length ts + 1 - 1)%nat with (length ts) by lia.
  rewrite take_app_le, take_ge by (rewrite ?length_map; lia). done.
Qed.

Section Scale.
Context `{W : NativeWidth}.
Context (af ai : NativeVectorT -> ILParams -> outcome NativeVectorT) (k : nat).
Context (U : list (Z * Z)) (HU : moduli_ok k U).
Context (om : ubint) (ts : list (Z * Z)) (t : Z * Z) (Hb : basis U (ts ++ [t])) (Hne : ts <> []).

Lemma basis_front : basis U ts.
Proof.
  destruct Hb as [Hs Hd]. split; [set_solver|]. rewrite map_app in Hd. by apply NoDup_app in Hd as (Hd & _).
Qed.

Lemma last_root : root_at k t.
Proof. apply (basis_root k U HU _ t Hb). apply elem_of_app. right. by apply elem_of_cons; left. Qed.

Lemma DropLastElement_dcrt F X :
  Dcrt.DropLastElement (dcrt k om F (ts ++ [t]) X) = Ok (dcrt k om F ts X).
Proof.
  assert (length ts <> 0)%nat as Hl by (by destruct ts). unfold Dcrt.DropLastElement.
  cbn [dcrt m_vectors Dcrt.m_params m_format]. rewrite length_map, length_app. cbn [length].
  rewrite (proj2 (Nat.eqb_neq _ _)), (proj2 (Nat.eqb_neq _ _)) by lia. rewrite (PopLastParam_dparams k U HU om ts t Hb), bind_Ok.
  rewrite map_app. replace (length ts + 1 - 1)%nat with (length ts) by lia.
  rewrite take_app_le, take_ge by (rewrite ?length_map; lia). done.
Qed.

(** ** Constants per tower *)

Definition inverts (l : Z) (b : Z * Z -> Z) : Prop :=
  forall u, u ∈ ts -> 0 <= b u < 2 ^ wbits /\ l * b u ==[fst u] 1.
Definition negates (l : Z) (a : Z * Z -> Z) : Prop :=
  forall u, u ∈ ts -> 0 <= a u < 2 ^ wbits /\ l * a u ==[fst u] -1.

Lemma rescale_tower q l a b X : 0 < q -> 0 < l -> l * b ==[q] 1 -> l * a ==[q] -1 ->
  padd q (pscale q b (residues q X)) (pscale q a (recenter l q (residues l X))) = residues q (rescale l X).
Proof.
  intros Hq Hl Hlb Hla. unfold rescale, residues at 1 2. rewrite recenter_map, !pscale_map, padd_map, residues_map.
  apply (map_residue_ext q). intros x _. rewrite !eqmod_mod. set (c := centered l (x mod l)). set (y := (x - c) / l).
  pose proof (rescale_exact l x Hl) as E. fold c in E. fold y in E. replace x with (l * y + c) by lia.
  replace ((l * y + c) * b + c * a) with (y * (l * b) + c * (b + a)) by ring. rewrite Hlb.
  transitivity (y * 1 + c * ((l * b) * (b + a))); [rewrite Hlb; apply eqmod_eq; ring|].
  replace (l * b * (b + a)) with (b * (l * b) + b * (l * a)) by ring. rewrite Hlb, Hla. apply eqmod_eq. ring.
Qed.

Lemma mod_reduced_tower q l pt negtInv b X : 0 < q -> 0 < l -> l * b ==[q] 1 -> pt * negtInv ==[l] -1 ->
  pscale q b (padd q (residues q X) (pscale q pt (recenter l q (pscale l negtInv (residues l X)))))
  = residues q (mod_reduced pt l negtInv X).
Proof.
  intros Hq Hl Hlb Ht. unfold mod_reduced, residues at 1 2. rewrite !pscale_map, recenter_map, pscale_map, padd_map, pscale_map, residues_map.
  apply (map_residue_ext q). intros x _. rewrite !eqmod_mod. fold (correction l negtInv x).
  pose proof (mod_reduced_exact pt l negtInv x Hl Ht) as E. set (y := (x + pt * _) / l) in *.
  replace ((x + correction l negtInv x * pt) * b) with (y * (l * b)) by (rewrite (Z.mul_comm _ pt), E; ring).
  rewrite Hlb. apply eqmod_eq. ring.
Qed.

(** ** Rescaling *)

Context (dist : nat -> Z -> Z) (rfuel : nat) `{HS : UniformSource dist rfuel} (fuel : nat) (Hfuel : (k + 1 <= fuel)%nat).
Abbreviation ready := (ready k U).

Lemma last_tower F X : vget (m_vectors (dcrt k om F (ts ++ [t]) X)) (length (m_vectors (dcrt k om F (ts ++ [t]) X)) - 1)
  = Ok (tower k F X t).
Proof.
  cbn [dcrt m_vectors]. rewrite length_map, length_app. cbn [length]. apply vget_Some.
  rewrite list_lookup_fmap, lookup_app_r by lia. replace (length ts + 1 - 1 - length ts)%nat with 0%nat by lia. done.
Qed.

Lemma last_in : t ∈ U.
Proof. destruct Hb as [Hs _]. apply Hs, elem_of_app. right. by apply elem_of_cons; left. Qed.

Lemma tower_vget F X i : (i < length ts)%nat -> vget (map (tower k F X) ts) i = Ok (tower k F X (ts !!! i)) /\ ts !!! i ∈ ts.
Proof.
  intros Hi. pose proof (list_lookup_lookup_total_lt ts i Hi) as E. split; [|by eapply list_elem_of_lookup_2].
  apply vget_Some. by rewrite list_lookup_fmap, E.
Qed.

Lemma const_vget (a : Z * Z -> Z) i : (i < length ts)%nat -> vget (map a ts) i = Ok (a (ts !!! i)).
Proof. intros Hi. apply vget_Some. by rewrite list_lookup_fmap, list_lookup_lookup_total_lt. Qed.

Lemma front_root u : u ∈ ts -> root_at k u /\ u ∈ U /\ 0 < fst u.
Proof.
  intros Hu. pose proof (basis_root k U HU ts u basis_front Hu) as Hr. pose proof (root_word k u Hr).
  split_and!; [done | by apply basis_front | lia].
Qed.

Lemma centered_elem q q' X : 0 < q' -> length X = (2 ^ k)%nat -> ring_elem q' k (recenter q q' (residues q X)).
Proof. intros Hq Hl. apply recenter_elem; [done|]. unfold residues. by rewrite length_map. Qed.

Lemma DropLastElementAndScale_dcrt F a b X st : negates (fst t) a -> inverts (fst t) b -> length X = (2 ^ k)%nat -> ready st ->
  returns (DropLastElementAndScale af ai dist rfuel fuel (map a ts) (map b ts) (dcrt k om F (ts ++ [t]) X) st)
    (fun '(r, st') => r = dcrt k om EVALUATION ts (rescale (fst t) X) /\ ready st').
Proof.
  intros Ha Hib Hl Hst. pose proof (root_word k t last_root). unfold DropLastElementAndScale.
  rewrite last_tower, bind_Ok, DropLastElement_dcrt, bind_Ok.
  eapply returns_bind; [apply (elem_SetFormat af ai k U (mo_root k U HU) (mo_distinct k U HU) F COEFFICIENT t);
    [apply last_in | apply residues_elem; [lia | done] | done]|].
  intros [lp st1] [-> H1]. change (Dcrt.m_params (dcrt k om F ts X)) with (dparams k om ts).
  rewrite (DCRTPoly_new_dcrt k U HU om ts basis_front), bind_Ok. cbn [dcrt m_vectors set_vectors Dcrt.m_params m_format].
  rewrite length_map. set (h := fun u => pscale (fst u) (a u) (recenter (fst t) (fst u) (residues (fst t) X))).
  assert (forall u, u ∈ ts -> ring_elem (fst u) k (h u)) as Hh.
  { intros u Hu. destruct (front_root u Hu) as (Hr & _ & Hq). by apply (pscale_elem _ (snd u) k Hr), centered_elem. }
  eapply returns_bind; [apply (towers_st_ok ready _ (fun i => elem k COEFFICIENT (ts !!! i) (h (ts !!! i)))); [|exact H1]|].
  { intros i st' [_ Hi]%elem_of_seq Hs. destruct (tower_vget F X i Hi) as [-> Hu]. destruct (front_root _ Hu) as (Hr & HuU & Hq).
    rewrite bind_Ok. eapply returns_bind; [apply (elem_SwitchModulus dist rfuel fuel k Hfuel U (mo_root k U HU));
      [apply last_root | exact HuU | apply residues_elem; [lia | done] | exact Hs]|].
    intros [r st2] [-> H2]. rewrite const_vget, bind_Ok by done.
    rewrite (proj1 (elem_scale k _ Hr COEFFICIENT (a (ts !!! i)) _ (centered_elem _ _ X Hq Hl) (proj1 (Ha _ Hu)))), bind_Ok.
    by split. }
  intros [ex st2] [-> H2]. rewrite (map_seq_list (fun u => elem k COEFFICIENT u (h u))).
  eapply (returns_bind _ _ (fun '(e, s) => e = family k om ts F h /\ ready s)).
  { destruct F; [|by split].
    apply (SetFormat_family af ai k U HU om ts basis_front COEFFICIENT EVALUATION h); done. }
  intros [e st3] [-> H3]. cbn [family m_vectors]. rewrite combine_map.
  rewrite (zip_towers_ok _ _ _ (tower k F (rescale (fst t) X))), bind_Ok.
  - apply (SetFormat_dcrt af ai k U HU om ts basis_front); [unfold rescale; by rewrite length_map | done].
  - intros u Hu. destruct (front_root u Hu) as (Hr & _ & Hq). unfold tower.
    pose proof (residues_elem k (fst u) X Hq Hl) as He.
    rewrite (proj1 (elem_scale k u Hr F (b u) _ He (proj1 (Hib u Hu)))), bind_Ok, (elem_PlusEq k u Hr);
      [| by apply (pscale_elem _ (snd u) k Hr) | by apply Hh].
    unfold h. rewrite rescale_tower; [done | done | lia | by apply Hib | by apply Ha].
Qed.

(** ** Modulus switching *)

Section Reduce.
Context (pt negtInv : Z) (b : Z * Z -> Z) (Hpt : 0 <= pt < 2 ^ wbits) (Hn : 0 <= negtInv < 2 ^ wbits)
  (Hinv : pt * negtInv ==[fst t] -1) (Hib : inverts (fst t) b).

(** The last tower times [-1/t], in the tower of [u]. *)
Let delta (X : list Z) (u : Z * Z) : list Z := recenter (fst t) (fst u) (pscale (fst t) negtInv (residues (fst t) X)).

Lemma delta_last X : length X = (2 ^ k)%nat -> ring_elem (fst t) k (pscale (fst t) negtInv (residues (fst t) X)).
Proof. intros Hl. pose proof (root_word k t last_root). apply (pscale_elem _ (snd t) k last_root), residues_elem; [lia | done]. Qed.

Lemma delta_elem X u : length X = (2 ^ k)%nat -> u ∈ ts -> ring_elem (fst u) k (delta X u).
Proof.
  intros Hl Hu. destruct (front_root u Hu) as (_ & _ & Hq). apply recenter_elem; [done|].
  by destruct (delta_last X Hl) as [-> _].
Qed.

Lemma switch_delta X u st : length X = (2 ^ k)%nat -> u ∈ ts -> ready st ->
  returns (tower_SwitchModulus dist rfuel fuel (fst u) (snd u) (elem k COEFFICIENT t (pscale (fst t) negtInv (residues (fst t) X))) st)
    (fun '(r, st') => r = elem k COEFFICIENT u (delta X u) /\ ready st').
Proof.
  intros Hl Hu Hs. destruct (front_root u Hu) as (_ & HuU & _).
  apply (elem_SwitchModulus dist rfuel fuel k Hfuel U (mo_root k U HU)); [apply last_root | done | by apply delta_last | done].
Qed.

Lemma reduce_tower F X u : length X = (2 ^ k)%nat -> u ∈ ts ->
  (e ← TimesEq_scalar (elem k F u (delta X u)) pt; v ← Poly.PlusEq (tower k F X u) e; TimesEq_scalar v (b u))
  = Ok (tower k F (mod_reduced pt (fst t) negtInv X) u).
Proof.
  intros Hl Hu. destruct (front_root u Hu) as (Hr & _ & Hq). pose proof (root_word k t last_root).
  pose proof (delta_elem X u Hl Hu) as He. pose proof (residues_elem k (fst u) X Hq Hl) as Hx.
  rewrite (proj1 (elem_scale k u Hr F pt _ He Hpt)), bind_Ok. unfold tower.
  pose proof (pscale_elem _ (snd u) k Hr pt _ He) as Hs. rewrite (elem_PlusEq k u Hr), bind_Ok by done.
  rewrite (proj1 (elem_scale k u Hr F (b u) _ (padd_elem _ (snd u) k Hr _ _ Hx Hs) (proj1 (Hib u Hu)))).
  unfold delta. rewrite mod_reduced_tower; [done | done | lia | by apply Hib | done].
Qed.

Lemma ModReduce_dcrt F X st : length X = (2 ^ k)%nat -> ready st ->
  returns (ModReduce af ai dist rfuel fuel pt negtInv (map b ts) (dcrt k om F (ts ++ [t]) X) st)
    (fun '(r, st') => r = dcrt k om F ts (mod_reduced pt (fst t) negtInv X) /\ ready st').
Proof.
  intros Hl Hst. pose proof (root_word k t last_root). unfold ModReduce. rewrite last_tower, bind_Ok.
  pose proof (residues_elem k (fst t) X ltac:(lia) Hl) as Hx.
  eapply returns_bind; [apply (elem_SetFormat af ai k U (mo_root k U HU) (mo_distinct k U HU) F COEFFICIENT t);
    [apply last_in | exact Hx | done]|].
  intros [lp st1] [-> H1]. rewrite DropLastElement_dcrt, bind_Ok.
  rewrite (proj1 (elem_scale k t last_root COEFFICIENT negtInv _ Hx Hn)), bind_Ok.
  cbn [dcrt m_format m_vectors Dcrt.m_params]. destruct F.
  - rewrite (DCRTPoly_new_dcrt k U HU om ts basis_front), bind_Ok.
    eapply returns_bind; [apply (towers_map_ok ready _ (tower k EVALUATION X) (fun u => elem k COEFFICIENT u (delta X u))); [|exact H1]|].
    { intros u st' Hu Hs. by apply switch_delta. }
    intros [ex st2] [-> H2].
    eapply returns_bind; [apply (SetFormat_family af ai k U HU om ts basis_front COEFFICIENT EVALUATION (delta X));
      [intros; by apply delta_elem | exact H2]|].
    intros [e st3] [-> H3]. cbn [family m_vectors]. rewrite combine_map.
    rewrite (zip_towers_ok _ _ _ (tower k EVALUATION (mod_reduced pt (fst t) negtInv X))), bind_Ok; [by split|].
    intros u Hu. by apply reduce_tower.
  - rewrite length_map.
    eapply returns_bind; [apply (towers_st_ok ready _ (fun i => tower k COEFFICIENT (mod_reduced pt (fst t) negtInv X) (ts !!! i))); [|exact H1]|].
    { intros i st' [_ Hi]%elem_of_seq Hs. destruct (tower_vget COEFFICIENT X i Hi) as [-> Hu]. rewrite bind_Ok.
      eapply returns_bind; [by apply (switch_delta X)|]. intros [r st2] [-> H2]. rewrite const_vget by done.
      pose proof (reduce_tower COEFFICIENT X _ Hl Hu) as E.
      destruct (TimesEq_scalar (elem k COEFFICIENT (ts !!! i) (delta X (ts !!! i))) pt) as [e| | |]; try done.
      rewrite bind_Ok. change (Ok e ≫= ?f) with (f e) in E. cbv beta in E. destruct (Poly.PlusEq (tower k COEFFICIENT X (ts !!! i)) e) as [v| | |]; try done.
      change (Ok v ≫= ?f) with (f v) in E. cbv beta in E. rewrite !bind_Ok, E, bind_Ok. by split. }
    intros [vs st2] [-> H2]. rewrite map_seq_list. by split.
Qed.
End Reduce.
End Scale.
