(* ===== verification/DcrtBasis.v ===== *)
(** * Double-CRT polynomials: changing the basis

    The conversion to another basis without the final reduction ([ApproxSwitchCRTBasis]
    with 128-bit sums) returns the residues of a representative [x + u * Q] with a small
    [u]; raising the modulus ([ApproxModUp]) and dividing by the special modulus
    ([ApproxModDown]), the two halves of hybrid key switching, are built on it. *)
From stdpp Require Import base numbers list sets.
From Stdlib Require Import ZArith Znumtheory Lia.
From S2P Require Import Prelude Bits NativeInt NativeIntProps NativeVector Ntt NttProps FttProps NbTheory NbTheoryProps AutoProps BigInt BigDiv BigIntProps BigShiftProps BigModProps BigRefine BigVector BigVectorProps Poly PolyProps PolyAlg RgswRing Dcrt DcrtTowers Crt DcrtProps DcrtInterp DcrtScale.
Open Scope Z_scope.

(** ** The representative *)

Section Representative.
Context (ts : list (Z * Z)).
Let Q := Qof ts.

(** [x * (Q / q)^-1 mod q], and the sum of the products with [Q / q]. *)
Definition digit (x : Z) (t : Z * Z) : Z := (x mod fst t * hat_inv Q (fst t)) mod fst t.
Definition extended (x : Z) : Z := crt_sum Q (digit x) ts.

(** The sum of the code, with the residues of [Q / q] modulo [p]. *)
Fixpoint wide_sum (x p : Z) (us : list (Z * Z)) : Z :=
  match us with [] => 0 | t :: us => digit x t * ((Q / fst t) mod p) + wide_sum x p us end.

Lemma wide_sum_snoc x p us t : wide_sum x p (us ++ [t]) = wide_sum x p us + digit x t * ((Q / fst t) mod p).
Proof. induction us as [|u us IH]; cbn [app wide_sum]; [lia|]. rewrite IH. ring. Qed.

Lemma wide_sum_eqmod x p us : wide_sum x p us ==[p] crt_sum Q (digit x) us.
Proof. induction us as [|t us IH]; cbn [wide_sum crt_sum]; [done|]. by rewrite IH, eqmod_mod. Qed.

Lemma wide_sum_bound x p b us : 0 < p <= b -> (forall t, t ∈ us -> 0 < fst t <= b) ->
  0 <= wide_sum x p us <= Z.of_nat (length us) * (b * b).
Proof.
  intros Hp. induction us as [|t us IH]; intros H; cbn [wide_sum length]; [lia|].
  pose proof (H t ltac:(left)). pose proof (IH ltac:(intros; apply H; by right)).
  pose proof (mod_range (Q / fst t) p ltac:(lia)). pose proof (mod_range (x mod fst t * hat_inv Q (fst t)) (fst t) ltac:(lia)) as Hd.
  fold (digit x t) in Hd. assert (0 <= digit x t <= b) by lia. assert (0 <= (Q / fst t) mod p <= b) by lia. nia.
Qed.
End Representative.

Section Basis.
Context `{W : NativeWidth}.
Context (af ai : NativeVectorT -> ILParams -> outcome NativeVectorT) (k : nat).
Context (U : list (Z * Z)) (HU : moduli_ok k U).

Lemma root_small t : root_at k t -> fst t <= 2 ^ 60.
Proof.
  intros Ht. pose proof (ro_min _ _ _ Ht). pose proof (ro_size _ _ _ Ht) as Hs. pose proof (GetMSB_bounds (fst t) ltac:(lia)) as [_ Hm].
  assert (2 ^ GetMSB (fst t) <= 2 ^ 60); [|lia]. apply Z.pow_le_mono_r; [lia|]. unfold MAX_MODULUS_SIZE in Hs.
  destruct (wbits =? 64); lia.
Qed.

Section Switch.
Context (ts : list (Z * Z)) (Hb : basis U ts) (Hne : ts <> []).
Let Q := Qof ts.

(** The representative is [x] up to a multiple of [Q] that is smaller than the number of towers. *)
Lemma digit_ok x t : t ∈ ts -> 0 <= digit ts x t < fst t /\ digit ts x t * (Q / fst t) ==[fst t] x.
Proof.
  intros Ht. pose proof (root_word k t (basis_root k U HU ts t Hb Ht)). split; [apply mod_range; lia|].
  destruct (hat_inv_ok k U HU ts Hb t Ht) as [_ Ei]. fold Q in Ei. unfold digit. fold Q. rewrite !eqmod_mod.
  rewrite <- Z.mul_assoc, (eqmod_1 (fst t) (hat_inv Q (fst t) * _)) by (done || lia). apply eqmod_eq. ring.
Qed.

Lemma extended_spec x : 0 <= x < Q -> exists u, 0 <= u < Z.of_nat (length ts) /\ extended ts x = x + u * Q.
Proof.
  intros Hx. apply (crt_sum_overflow ts (basis_coprime k U HU ts Hb) (digit ts x) x); [done | done | intros; by apply digit_ok..].
Qed.

Lemma extended_residue x t : t ∈ ts -> extended ts x ==[fst t] x.
Proof.
  intros Ht. unfold extended. rewrite (crt_sum_at ts (basis_coprime k U HU ts Hb)); [by apply digit_ok | done | apply Hb | done].
Qed.

Context (ps : list (Z * Z)) (Hp : basis U ps) (Hlen : (length ts < 256)%nat) (pre : Z * Z -> Z)
  (Hpre : forall t, t ∈ ts -> PrepModMulConst (hat_inv Q (fst t)) (fst t) = Ok (pre t)).

(** The precomputed constants of the conversion to the basis [us]. *)
Definition hats : list Z := map (fun t => hat_inv Q (fst t)) ts.
Definition quotients (us : list (Z * Z)) : list (list Z) := map (fun t => map (fun p => (Q / fst t) mod fst p) us) ts.
Definition mus (us : list (Z * Z)) : list Z := map (fun p => 2 ^ 128 / fst p) us.
(** The tables may be for more moduli than the basis has. *)
Context (rs : list (Z * Z)).

Lemma wide_sum_small x p us : us ⊆ ts -> (length us < 256)%nat -> p ∈ ps -> 0 <= wide_sum ts x (fst p) us < 2 ^ 128 /\
  u128 (wide_sum ts x (fst p) us) = wide_sum ts x (fst p) us.
Proof.
  intros Hs Hl Hin. pose proof (root_word k p (basis_root k U HU ps p Hp Hin)).
  pose proof (root_small p (basis_root k U HU ps p Hp Hin)).
  pose proof (wide_sum_bound ts x (fst p) (2 ^ 60) us ltac:(lia)) as H1.
  assert (0 <= wide_sum ts x (fst p) us < 2 ^ 128) as H2.
  { destruct H1 as [H1 H2]; [|split; [done|]; assert (Z.of_nat (length us) * (2 ^ 60 * 2 ^ 60) < 2 ^ 128) by lia; lia].
    intros t Ht%Hs. pose proof (basis_root k U HU ts t Hb Ht) as Hr. pose proof (root_word k t Hr). pose proof (root_small t Hr). lia. }
  split; [done|]. by apply u128_small.
Qed.

Lemma tower_index X t i : length X = (2 ^ k)%nat -> (i < 2 ^ k)%nat -> index (tower k COEFFICIENT X t) i = Ok (X !!! i mod fst t).
Proof.
  intros Hl Hi. unfold tower, elem. rewrite index_repr by (unfold residues; rewrite length_map; lia). by rewrite residues_at by lia.
Qed.

Lemma switch_sums_ok X i : length X = (2 ^ k)%nat -> (i < 2 ^ k)%nat ->
  switch_sums (map (tower k COEFFICIENT X) ts) (length ts) (length ps) i hats (map pre ts) (quotients (ps ++ rs))
  = Ok (map (fun p => wide_sum ts (X !!! i) (fst p) ts) ps).
Proof.
  intros Hl Hi. unfold switch_sums. set (x := X !!! i).
  replace (repeat 0 (length ps)) with (map (fun p => wide_sum ts x (fst p) (take 0 ts)) ps)
    by (rewrite take_0; cbn [wide_sum]; clear; induction ps as [|p l IH]; simpl; [done | by rewrite IH]).
  rewrite (for_range_exact (fun j => map (fun p => wide_sum ts x (fst p) (take j ts)) ps) 0 (length ts)); [by rewrite take_ge by lia | lia |].
  intros j Hj. destruct (lookup_lt_is_Some_2 ts j ltac:(lia)) as [t Et]. assert (t ∈ ts) as Ht by (by eapply list_elem_of_lookup_2).
  pose proof (basis_root k U HU ts t Hb Ht) as Hr. pose proof (root_word k t Hr) as Hw. pose proof (mod_range x (fst t) ltac:(lia)) as Hx.
  destruct (hat_inv_ok k U HU ts Hb t Ht) as [Hi' _].
  rewrite (vget_map (tower k COEFFICIENT X) ts j t Et), bind_Ok.
  rewrite tower_index, bind_Ok by (done || lia). fold x.
  unfold hats. rewrite (vget_map (fun t => hat_inv Q (fst t)) ts j t Et), bind_Ok, (vget_map pre ts j t Et), bind_Ok.
  change (Poly.GetModulus (tower k COEFFICIENT X t)) with (fst t).
  rewrite (ModMulFastConst_prec (x mod fst t) (hat_inv Q (fst t)) (fst t) ltac:(split; [apply Hx | etransitivity; [apply Hx | apply Hw]])
    Hi' ltac:(apply Hw) (pre t) (Hpre t Ht)), bind_Ok.
  change ((x mod fst t * hat_inv Q (fst t)) mod fst t) with (digit ts x t).
  apply (update_loop (fun p => wide_sum ts x (fst p) (take j ts)) (fun p => wide_sum ts x (fst p) (take (S j) ts))).
  intros m p l Ep El. assert (p ∈ ps) as Hin by (by eapply list_elem_of_lookup_2).
  rewrite (vget_Some _ _ _ El), bind_Ok. unfold quotients.
  rewrite (vget_map (fun t => map (fun p => (Q / fst t) mod fst p) (ps ++ rs)) ts j t Et), bind_Ok.
  rewrite (vget_map (fun p => (Q / fst t) mod fst p) (ps ++ rs) m p (lookup_app_l_Some _ _ _ _ Ep)), bind_Ok.
  rewrite vset_lt by (by eapply lookup_lt_Some). do 2 f_equal.
  pose proof (wide_sum_small x p (take j ts) (subseteq_take _ ts) ltac:(rewrite length_take; lia) Hin) as [Hs1 _].
  pose proof (wide_sum_small x p (take (S j) ts) (subseteq_take _ ts) ltac:(rewrite length_take; lia) Hin) as [Hs2 _].
  rewrite (take_S_r ts j t Et), wide_sum_snoc in Hs2 |- *. fold Q in Hs2 |- *.
  pose proof (proj1 (digit_ok x t Ht)). pose proof (root_word k p (basis_root k U HU ps p Hp Hin)).
  pose proof (mod_range (Q / fst t) (fst p) ltac:(lia)).
  unfold Mul128. rewrite (u128_small (_ * _)) by nia. by apply u128_small.
Qed.

(** [ApproxSwitchCRTBasis] on the default back end: the towers of the representatives. *)
Lemma ApproxSwitchCRTBasis_wide om om' paramsQ X : (length ts <= length (d_parms paramsQ))%nat -> length X = (2 ^ k)%nat ->
  ApproxSwitchCRTBasis_128 paramsQ (dparams k om' ps) hats (map pre ts) (quotients (ps ++ rs)) (mus (ps ++ rs)) (dcrt k om COEFFICIENT ts X)
  = Ok (dcrt k om' COEFFICIENT ps (map (extended ts) X)).
Proof.
  intros Hq Hl. unfold ApproxSwitchCRTBasis_128, size_Q. cbn [dcrt m_format m_vectors].
  rewrite (DCRTPoly_new_dcrt k U HU om' ps Hp), bind_Ok, ring_dimension. cbn [dcrt m_vectors]. rewrite !length_map.
  rewrite (proj2 (Nat.ltb_ge _ _)) by done. set (h := fun p : Z * Z => residues (fst p) (map (extended ts) X)).
  assert (forall p, length (h p) = (2 ^ k)%nat) as Hh by (intros; unfold h, residues; by rewrite !length_map).
  replace (map (tower k COEFFICIENT (pzero k)) ps) with (map (fun p => filled k p (h p) 0) ps).
  2: { apply map_ext. intros p. unfold filled, tower, pzero. rewrite residues_0, Nat.sub_0_r. done. }
  rewrite (for_range_exact (fun i => map (fun p => filled k p (h p) i) ps) 0 (2 ^ k)); [| lia |].
  - rewrite bind_Ok. unfold set_vectors, dcrt. cbn [m_format Dcrt.m_params]. do 2 f_equal. apply map_ext. intros p. by apply filled_full.
  - intros i Hi. rewrite switch_sums_ok, bind_Ok by (done || lia).
    apply (update_loop (fun p => filled k p (h p) i) (fun p => filled k p (h p) (S i))).
    intros m p l Ep El. assert (p ∈ ps) as Hin by (by eapply list_elem_of_lookup_2).
    rewrite (vget_map (fun p => wide_sum ts (X !!! i) (fst p) ts) ps m p Ep), bind_Ok, (vget_Some _ _ _ El), bind_Ok.
    unfold mus. rewrite (vget_map (fun p => 2 ^ 128 / fst p) (ps ++ rs) m p (lookup_app_l_Some _ _ _ _ Ep)), bind_Ok.
    pose proof (basis_root k U HU ps p Hp Hin) as Hr. pose proof (root_small p Hr). pose proof (root_word k p Hr) as Hw.
    change (Poly.GetModulus (filled k p (h p) i)) with (fst p).
    rewrite BarrettUint128ModUint64_correct, bind_Ok by (lia || (apply wide_sum_small; done)).
    assert (wide_sum ts (X !!! i) (fst p) ts mod fst p = h p !!! i) as ->.
    { unfold h. rewrite residues_at, fmap_at by (rewrite ?length_map; lia). apply eqmod_elim, wide_sum_eqmod. }
    assert (0 <= h p !!! i < fst p) as Hr'.
    { unfold h. rewrite residues_at by (rewrite length_map; lia). apply mod_range. lia. }
    rewrite wrap_small by (split; [apply Hr' | etransitivity; [apply Hr' | apply Hw]]).
    rewrite filled_step, bind_Ok by lia. by rewrite vset_lt by (by eapply lookup_lt_Some).
Qed.
End Switch.

Lemma ApproxSwitchCRTBasis_dcrt ts (Hb : basis U ts) ps (Hp : basis U ps) (Hlen : (length ts < 256)%nat) (pre : Z * Z -> Z)
  (Hpre : forall t, t ∈ ts -> PrepModMulConst (hat_inv (Qof ts) (fst t)) (fst t) = Ok (pre t)) om om' paramsQ X :
  (length ts <= length (d_parms paramsQ))%nat -> length X = (2 ^ k)%nat ->
  ApproxSwitchCRTBasis_128 paramsQ (dparams k om' ps) (hats ts) (map pre ts) (quotients ts ps) (mus ps) (dcrt k om COEFFICIENT ts X)
  = Ok (dcrt k om' COEFFICIENT ps (map (extended ts) X)).
Proof. intros H1 H2. pose proof (ApproxSwitchCRTBasis_wide ts Hb ps Hp Hlen pre Hpre [] om om' paramsQ X H1 H2) as E. by rewrite app_nil_r in E. Qed.

(** ** Dropping several towers *)

Lemma basis_app_l ts rs : basis U (ts ++ rs) -> basis U ts.
Proof. intros [Hs Hd]. split; [set_solver|]. rewrite map_app in Hd. by apply NoDup_app in Hd as (Hd & _). Qed.

Lemma basis_app_r ts rs : basis U (ts ++ rs) -> basis U rs.
Proof. intros [Hs Hd]. split; [set_solver|]. rewrite map_app in Hd. by apply NoDup_app in Hd as (_ & _ & Hd). Qed.

Lemma DropLastElements_dcrt om F ts rs X : basis U (ts ++ rs) -> ts <> [] ->
  DropLastElements (dcrt k om F (ts ++ rs) X) (length rs) = Ok (dcrt k om F ts X).
Proof.
  intros Hb Hne. assert (length ts <> 0)%nat as Hl by (by destruct ts). unfold DropLastElements.
  cbn [dcrt m_vectors Dcrt.m_params m_format]. rewrite length_map, length_app, (proj2 (Nat.leb_gt _ _)) by lia.
  pose proof (for_range_exact (fun i => dparams k om (ts ++ take (length rs - i) rs)) 0 (length rs) (fun _ p => PopLastParam p)) as H.
  cbv beta in H. rewrite Nat.sub_0_r, Nat.sub_diag, take_ge, take_0, app_nil_r in H by lia. rewrite H, bind_Ok; [| lia |].
  - replace (length ts + length rs - length rs)%nat with (length ts) by lia.
    rewrite map_app, take_app_le, take_ge by (rewrite ?length_map; lia). done.
  - intros i Hi. replace (length rs - i)%nat with (S (length rs - S i)) by lia.
    destruct (lookup_lt_is_Some_2 rs (length rs - S i) ltac:(lia)) as [t Et]. rewrite (take_S_r rs _ t Et), app_assoc.
    apply (PopLastParam_dparams k U HU). rewrite <- app_assoc, <- (take_S_r rs _ t Et).
    eapply basis_app_l. rewrite <- app_assoc, take_drop. done.
Qed.

(** ** Raising the modulus *)

(** The conversion of the default back end as an argument of the two operations below. *)
Definition switch_128 (paramsQ paramsP : ILDCRTParams) (QHatInvModq QHatInvModqPrecon : list Z)
    (QHatModp : list (list Z)) (modpBarrettMu : list Z) (d : DCRTPoly) (st : rstate) : outcome (DCRTPoly * rstate) :=
  d ← ApproxSwitchCRTBasis_128 paramsQ paramsP QHatInvModq QHatInvModqPrecon QHatModp modpBarrettMu d; Ok (d, st).

Abbreviation ready := (ready k U).

Lemma extended_tower ts F X t : basis U ts -> t ∈ ts -> tower k F (map (extended ts) X) t = tower k F X t.
Proof.
  intros Hb Ht. unfold tower, residues. rewrite map_map. f_equal. apply (map_residue_ext (fst t)). intros x _. by apply extended_residue.
Qed.

Lemma ApproxModUp_dcrt om omq omp omqp F ts ps pre X st : basis U ts -> ts <> [] -> basis U ps -> (length ts < 256)%nat ->
  (forall t, t ∈ ts -> PrepModMulConst (hat_inv (Qof ts) (fst t)) (fst t) = Ok (pre t)) ->
  length X = (2 ^ k)%nat -> ready st ->
  returns (ApproxModUp af ai (switch_128 (dparams k omq ts) (dparams k omp ps) (hats ts) (map pre ts) (quotients ts ps) (mus ps))
             (dparams k omqp (ts ++ ps)) (dcrt k om F ts X) st)
    (fun '(r, st') => r = dcrt k omqp EVALUATION (ts ++ ps) (map (extended ts) X) /\ ready st').
Proof.
  intros Hb Hne Hp Hlen Hpre Hl Hst. unfold ApproxModUp.
  eapply returns_bind; [by apply (SetFormat_dcrt af ai k U HU om ts Hb)|]. intros [d st1] [-> H1].
  unfold switch_128. rewrite (ApproxSwitchCRTBasis_dcrt ts Hb ps Hp Hlen pre Hpre), !bind_Ok by (cbn; rewrite ?length_map; done).
  cbn [dcrt m_vectors m_format].
  eapply returns_bind; [apply (towers_map_ok ready _ (tower k COEFFICIENT (map (extended ts) X)) (tower k EVALUATION (map (extended ts) X))); [|exact H1]|].
  { intros p st' Hin Hs. apply (elem_SetFormat af ai k U (mo_root k U HU) (mo_distinct k U HU));
      [by apply Hp | apply (tower_elem k U HU ps Hp); [done | by rewrite length_map] | done]. }
  intros [qs st2] [-> H2].
  eapply (returns_bind _ _ (fun '(vs, s) => vs = map (tower k EVALUATION X) ts /\ ready s)).
  { destruct F; [rewrite length_map, (proj2 (Nat.ltb_lt _ _)) by (destruct ts; [done | cbn; lia]); by split|].
    apply (towers_map_ok ready _ (tower k COEFFICIENT X) (tower k EVALUATION X)); [|done]. intros t st' Ht Hs.
    apply (elem_SwitchFormat af ai k U (mo_root k U HU) (mo_distinct k U HU)); [by apply Hb | by apply (tower_elem k U HU ts Hb) | done]. }
  intros [vs st3] [-> H3]. unfold resized. cbn [dparams d_parms]. rewrite length_app, !length_map, length_app, Nat.eqb_refl, bind_Ok.
  split; [|done]. unfold dcrt. rewrite map_app. do 2 f_equal. apply map_ext_in. intros t Ht%list_elem_of_In. by rewrite extended_tower.
Qed.

(** ** Dividing by the special modulus *)

Section Special.
Context (ps : list (Z * Z)) (pt tinv : Z).
Let P := Qof ps.

(** The multiple of [t] that is congruent to [x] modulo [P], or [x] modulo [P] plus a multiple of [P]
    when there is no [t], and the quotient by [P] without it. *)
Definition special_part (x : Z) : Z := if pt >? 0 then pt * extended ps (x * tinv) else extended ps x.
Definition mod_down (x : Z) : Z := (x - special_part x) / P.

Lemma extended_congruent x : basis U ps -> extended ps x ==[P] x.
Proof. intros Hp. apply crt_congruent; [by apply (basis_coprime k U HU)|]. intros p Hin. by apply extended_residue. Qed.

Lemma mod_down_exact x : basis U ps -> pt = 0 \/ pt * tinv ==[P] 1 -> x = P * mod_down x + special_part x.
Proof.
  intros Hp Ht. pose proof (basis_pos k U HU ps Hp) as HP. fold P in HP.
  assert (P | x - special_part x) as [z Ez]; [|unfold mod_down; rewrite Ez, Z.div_mul by lia; lia].
  apply eqmod_divide; [done|]. unfold special_part. destruct (Z.gtb_spec pt 0).
  - rewrite extended_congruent by done. destruct Ht as [->|E]; [lia|]. replace (pt * (x * tinv)) with (x * (pt * tinv)) by ring.
    rewrite E. apply eqmod_eq. ring.
  - by rewrite extended_congruent.
Qed.

End Special.

Section Down.
Context (ts rs ps : list (Z * Z)) (Hq : basis U (ts ++ rs)) (Hqp : basis U (ts ++ ps)) (Hts : ts <> []) (Hps : ps <> []).
Context (Hlen : (length ps < 256)%nat) (pre : Z * Z -> Z)
  (Hpre : forall t, t ∈ ps -> PrepModMulConst (hat_inv (Qof ps) (fst t)) (fst t) = Ok (pre t)).
Context (pt tinv : Z) (Hpt : 0 <= pt < 2 ^ wbits) (Ht : pt = 0 \/ pt * tinv ==[Qof ps] 1).
Context (b : Z * Z -> Z) (Hinv : inverts ts (Qof ps) b).
Let P := Qof ps.

Lemma basis_special : basis U ps.
Proof. by apply (basis_app_r ts). Qed.

Lemma assign_towers om omp X : zip_unchecked (fun p v => Ok (assign_poly p v)) (dcrt k omp EVALUATION ps (pzero k))
    (drop (length ts) (m_vectors (dcrt k om EVALUATION (ts ++ ps) X))) = Ok (dcrt k omp EVALUATION ps X).
Proof.
  unfold zip_unchecked. cbn [dcrt m_vectors]. rewrite map_app, drop_app_length' by (by rewrite length_map).
  by rewrite (zip_towers_ok _ _ _ (tower k EVALUATION X)), bind_Ok.
Qed.

Lemma scale_special omp X : length X = (2 ^ k)%nat ->
  zip_unchecked TimesEq_scalar (dcrt k omp COEFFICIENT ps X) (map (fun p => tinv mod fst p) ps)
  = Ok (dcrt k omp COEFFICIENT ps (map (fun x => x * tinv) X)).
Proof.
  intros Hl. unfold zip_unchecked. cbn [dcrt m_vectors].
  rewrite (zip_towers_ok _ _ _ (tower k COEFFICIENT (map (fun x => x * tinv) X))), bind_Ok; [done|]. intros p Hp.
  pose proof (basis_root k U HU ps p basis_special Hp) as Hr. pose proof (root_word k p Hr) as Hw.
  pose proof (mod_range tinv (fst p) ltac:(lia)) as Hm. unfold tower.
  rewrite (proj1 (elem_scale k p Hr COEFFICIENT (tinv mod fst p) _ (tower_elem k U HU ps basis_special p X Hp Hl) ltac:(lia))).
  do 2 f_equal. unfold residues at 1. rewrite pscale_map, residues_map. apply (map_residue_ext (fst p)). intros x _. by rewrite !eqmod_mod.
Qed.

(** The towers that are subtracted; those beyond [ts] are converted but not used. *)
Definition subtracted (X : list Z) (u : Z * Z) : list Z :=
  residues (fst u) (map (fun x => if bool_decide (u ∈ ts) then special_part ps pt tinv x
                                  else extended ps (if pt >? 0 then x * tinv else x)) X).

Lemma tail_not_in u : u ∈ rs -> u ∉ ts.
Proof.
  intros Hu Hin. destruct Hq as [_ Hd]. rewrite map_app in Hd. apply NoDup_app in Hd as (_ & Hd & _).
  apply (Hd (fst u)); by apply (list_elem_of_fmap_2 fst).
Qed.

Lemma subtracted_elem X u : length X = (2 ^ k)%nat -> u ∈ ts ++ rs -> ring_elem (fst u) k (subtracted X u).
Proof. intros Hl Hu. apply (tower_elem k U HU _ Hq); [done | by rewrite length_map]. Qed.

Lemma scale_switched omq X : length X = (2 ^ k)%nat -> (pt >? 0) = true ->
  (vs ← vmapM (fun v => TimesEq_scalar v pt)
          (take (length ts) (map (tower k COEFFICIENT (map (extended ps) (map (fun x => x * tinv) X))) (ts ++ rs)));
   Ok (set_vectors (dcrt k omq COEFFICIENT (ts ++ rs) (map (extended ps) (map (fun x => x * tinv) X)))
         (vs ++ drop (length ts) (map (tower k COEFFICIENT (map (extended ps) (map (fun x => x * tinv) X))) (ts ++ rs)))))
  = Ok (family k omq (ts ++ rs) COEFFICIENT (subtracted X)).
Proof.
  intros Hl Hpos. rewrite map_app, take_app_length', drop_app_length' by (by rewrite length_map).
  rewrite (vmapM_towers _ _ (fun u => elem k COEFFICIENT u (subtracted X u))), bind_Ok.
  - unfold set_vectors, family. cbn [dcrt m_format Dcrt.m_params]. rewrite map_app. do 3 f_equal.
    apply map_ext_in. intros u Hu%list_elem_of_In. unfold tower, subtracted. do 2 f_equal.
    rewrite map_map, bool_decide_false by (by apply tail_not_in). by rewrite Hpos.
  - intros u Hu. assert (u ∈ ts ++ rs) as Hu' by (apply elem_of_app; by left).
    pose proof (basis_root k U HU _ u Hq Hu') as Hr. unfold tower. rewrite map_map. set (Y := map _ X).
    assert (length Y = (2 ^ k)%nat) as HY by (unfold Y; by rewrite length_map).
    rewrite (proj1 (elem_scale k u Hr COEFFICIENT pt _ (tower_elem k U HU _ Hq u Y Hu' HY) Hpt)).
    do 2 f_equal. unfold subtracted, Y. rewrite !residues_map, pscale_map, bool_decide_true by done.
    apply (map_residue_ext (fst u)). intros x _. unfold special_part. rewrite Hpos, eqmod_mod. apply eqmod_eq. ring.
Qed.

Lemma unscaled_switched omq X : (pt >? 0) = false ->
  dcrt k omq COEFFICIENT (ts ++ rs) (map (extended ps) X) = family k omq (ts ++ rs) COEFFICIENT (subtracted X).
Proof.
  intros Hpos. unfold dcrt, family. f_equal. apply map_ext_in. intros u _. unfold tower, subtracted. do 2 f_equal.
  apply map_ext. intros x. unfold special_part. rewrite Hpos. by destruct (bool_decide _).
Qed.

Lemma zip_towers_app {A B C} (f : A -> B -> outcome C) vs us ws : length vs = length us ->
  zip_towers f vs (us ++ ws) = zip_towers f vs us.
Proof. revert us. induction vs as [|v vs IH]; intros [|u us] Hl; try done. cbn. by rewrite IH by (simpl in Hl; lia). Qed.

Lemma quotient_tower X u : u ∈ ts -> length X = (2 ^ k)%nat ->
  (diff ← Poly.Minus (tower k EVALUATION X u) (elem k EVALUATION u (subtracted X u)); Times_scalar diff (b u))
  = Ok (tower k EVALUATION (map (mod_down ps pt tinv) X) u).
Proof.
  intros Hu Hl. assert (u ∈ ts ++ rs) as Hu' by (apply elem_of_app; by left). pose proof (basis_root k U HU _ u Hq Hu') as Hr.
  pose proof (tower_elem k U HU _ Hq u X Hu' Hl) as Hx. pose proof (subtracted_elem X u Hl Hu') as Hs.
  unfold tower. rewrite (proj2 (elem_minus k u Hr EVALUATION _ _ Hx Hs)), bind_Ok.
  rewrite (proj2 (elem_scale k u Hr EVALUATION (b u) _ (psub_elem _ (snd u) k Hr _ _ Hx Hs) (proj1 (Hinv u Hu)))).
  do 2 f_equal. unfold subtracted. rewrite residues_map. unfold residues at 1. rewrite psub_map, pscale_map, residues_map.
  apply (map_residue_ext (fst u)). intros x _. rewrite !eqmod_mod, bool_decide_true by done.
  pose proof (mod_down_exact ps pt tinv x basis_special Ht) as Ex. fold P in Ex. set (y := mod_down ps pt tinv x) in *.
  replace (x - special_part ps pt tinv x) with (P * y) by lia. replace (P * y * b u) with (y * (P * b u)) by ring.
  pose proof (proj2 (Hinv u Hu)) as E. fold P in E. rewrite E. apply eqmod_eq. ring.
Qed.

(** With any conversion that returns the representatives. *)
Lemma ApproxModDown_with om omq omp switch bs X st :
  (forall Y st, length Y = (2 ^ k)%nat ->
     switch (dcrt k omp COEFFICIENT ps Y) st = Ok (dcrt k omq COEFFICIENT (ts ++ rs) (map (extended ps) Y), st)) ->
  length X = (2 ^ k)%nat -> ready st ->
  returns (ApproxModDown af ai switch
             (dparams k omq (ts ++ rs)) (dparams k omp ps) (map b ts ++ bs) (map (fun p => tinv mod fst p) ps) pt
             (dcrt k om EVALUATION (ts ++ ps) X) st)
    (fun '(r, st') => r = dcrt k omq EVALUATION ts (map (mod_down ps pt tinv) X) /\ ready st').
Proof.
  intros Hsw Hl Hst. pose proof basis_special as Hp. unfold ApproxModDown.
  replace (length (m_vectors (dcrt k om EVALUATION (ts ++ ps) X))) with (length ts + length ps)%nat
    by (cbn; by rewrite length_map, length_app).
  cbn [dparams d_parms]. rewrite !length_map, length_app, (proj2 (Nat.ltb_ge _ _)) by lia.
  replace (length ts + length ps - length ps)%nat with (length ts) by lia.
  fold (dparams k omp ps) (dparams k omq (ts ++ rs)).
  change (m_format (dcrt k om EVALUATION (ts ++ ps) X)) with EVALUATION.
  rewrite (DCRTPoly_new_dcrt k U HU omp ps Hp), bind_Ok, assign_towers, bind_Ok.
  eapply returns_bind; [by apply (SetFormat_dcrt af ai k U HU omp ps Hp)|]. intros [d st1] [-> H1].
  set (Y := map (fun x => if pt >? 0 then x * tinv else x) X).
  assert ((if pt >? 0 then zip_unchecked TimesEq_scalar (dcrt k omp COEFFICIENT ps X) (map (fun p => tinv mod fst p) ps)
           else Ok (dcrt k omp COEFFICIENT ps X)) = Ok (dcrt k omp COEFFICIENT ps Y)) as ->.
  { unfold Y. destruct (pt >? 0); [by apply scale_special | by rewrite map_id]. }
  rewrite bind_Ok, Hsw, bind_Ok by (unfold Y; by rewrite length_map).
  rewrite (DCRTPoly_new_dcrt k U HU omq (ts ++ rs) Hq), bind_Ok, (proj2 (Nat.ltb_ge _ _)) by lia.
  replace (length ts + length rs - length ts)%nat with (length rs) by lia.
  assert ((if (0 <? length rs)%nat then DropLastElements (dcrt k omq EVALUATION (ts ++ rs) (pzero k)) (length rs)
           else Ok (dcrt k omq EVALUATION (ts ++ rs) (pzero k))) = Ok (dcrt k omq EVALUATION ts (pzero k))) as ->.
  { destruct (Nat.ltb_spec 0 (length rs)); [by apply DropLastElements_dcrt|]. destruct rs; [by rewrite app_nil_r | simpl in *; lia]. }
  rewrite bind_Ok.
  eapply (returns_bind _ _ (fun s => s = family k omq (ts ++ rs) COEFFICIENT (subtracted X))).
  { apply returns_eq. cbn [dcrt m_vectors]. unfold Y. destruct (pt >? 0) eqn:Hpos; [by apply scale_switched | by rewrite map_id, unscaled_switched]. }
  intros s ->. eapply returns_bind; [apply (SetFormat_family af ai k U HU omq (ts ++ rs) Hq COEFFICIENT EVALUATION (subtracted X));
    [intros; by apply subtracted_elem | exact H1]|].
  intros [e st2] [-> H2]. cbn [family dcrt m_vectors]. rewrite !map_app, take_app_length' by (by rewrite length_map).
  replace (combine _ _) with (map (fun u => (elem k EVALUATION u (subtracted X u), b u)) ts ++
    combine (map (fun u => elem k EVALUATION u (subtracted X u)) rs) bs).
  2: { rewrite <- combine_map. clear. induction ts as [|u l IH]; cbn; [done | by rewrite IH]. }
  rewrite zip_towers_app by (by rewrite !length_map).
  rewrite (zip_towers_ok _ _ _ (tower k EVALUATION (map (mod_down ps pt tinv) X))), bind_Ok; [by split|]. intros u Hu. by apply quotient_tower.
Qed.

Lemma ApproxModDown_dcrt om omq omp bs X st : length X = (2 ^ k)%nat -> ready st ->
  returns (ApproxModDown af ai (switch_128 (dparams k omp ps) (dparams k omq (ts ++ rs)) (hats ps) (map pre ps)
               (quotients ps (ts ++ rs)) (mus (ts ++ rs)))
             (dparams k omq (ts ++ rs)) (dparams k omp ps) (map b ts ++ bs) (map (fun p => tinv mod fst p) ps) pt
             (dcrt k om EVALUATION (ts ++ ps) X) st)
    (fun '(r, st') => r = dcrt k omq EVALUATION ts (map (mod_down ps pt tinv) X) /\ ready st').
Proof.
  intros Hl Hst. apply ApproxModDown_with; [|done | done]. intros Y st' HY. unfold switch_128.
  by rewrite (ApproxSwitchCRTBasis_dcrt ps basis_special (ts ++ rs) Hq Hlen pre Hpre) by (cbn; rewrite ?length_map; done).
Qed.
End Down.
End Basis.
