(* ===== verification/DcrtRing.v ===== *)
(** * Double-CRT polynomials: promises

    What the class promises to the schemes built on it, for a basis of distinct primes with
    product [Q]: the arithmetic of [Z_Q\[X\]/(X^n + 1)], interpolation and decryption, the
    rescaling of CKKS, the modulus switching of BGV, and the two basis changes of hybrid key
    switching. Every theorem starts from an element that stands for a polynomial and a state
    whose tables are right, and says that the operation returns. *)
From stdpp Require Import base numbers list sets gmap.
From Stdlib Require Import ZArith Lia.
From S2P Require Import Prelude Bits NativeInt NativeIntProps NativeVector Ntt NttProps FttProps NbTheory NbTheoryProps BigInt BigIntProps BigRefine BigVector BigVectorProps Poly PolyProps PolyRing PolyAlg RgswRing Dcrt DcrtTowers Crt DcrtProps DcrtInterp DcrtScale DcrtBasis BinWitness.
Open Scope Z_scope.

Lemma Forall2_map_self {A B} (R : A -> B -> Prop) (f : A -> B) X : (forall x, x ∈ X -> R x (f x)) -> Forall2 R X (map f X).
Proof. induction X as [|x X IH]; intros H; cbn [map]; constructor; [apply H; left | apply IH; intros; apply H; by right]. Qed.

Section Promises.
Context `{W : NativeWidth}.
Context (af ai : NativeVectorT -> ILParams -> outcome NativeVectorT).
Context (dist : nat -> Z -> Z) (rfuel : nat) `{HS : UniformSource dist rfuel} (fuel k : nat) (Hfuel : (k + 1 <= fuel)%nat).
Context (U : list (Z * Z)) (HU : moduli_ok k U).
Abbreviation ready := (ready k U).

(** [C15] A double-CRT element over distinct primes with product Q stands for one
    polynomial modulo Q and X^n + 1, and the class computes in this ring: sums,
    differences, opposites and multiples by a multiprecision integer in either
    representation, and, with the changes of representation through the table cache,
    products, return the element of the result. *)
Theorem dcrt_ring_refines om om' F F' ts X Y st :
  basis U ts -> length X = (2 ^ k)%nat -> length Y = (2 ^ k)%nat -> ready st ->
  let Q := Qof ts in
  Dcrt.Plus (dcrt k om F ts X) (dcrt k om' F ts Y) = Ok (dcrt k om F ts (padd Q X Y)) /\
  Dcrt.Minus (dcrt k om F ts X) (dcrt k om' F ts Y) = Ok (dcrt k om F ts (psub Q X Y)) /\
  Dcrt.Negate (dcrt k om F ts X) = Ok (dcrt k om F ts (pscale Q (-1) X)) /\
  (forall s, fits s -> Dcrt.TimesEq_integer (dcrt k om F ts X) (encode s) = Ok (dcrt k om F ts (pscale Q s X))) /\
  returns ('(a, st) ← Dcrt.SetFormat af ai EVALUATION (dcrt k om F ts X) st;
           '(b, st) ← Dcrt.SetFormat af ai EVALUATION (dcrt k om' F' ts Y) st;
           r ← Dcrt.Times a b;
           Dcrt.SetFormat af ai COEFFICIENT r st)
    (fun '(r, st') => r = dcrt k om COEFFICIENT ts (negacyclic Q X Y) /\ ready st').
Proof.
  intros Hb HX HY Hst Q. split_and!;
    [by apply (Plus_dcrt k U HU) | by apply (Minus_dcrt k U HU) | by apply (Negate_dcrt k U HU) | intros; by apply (TimesEq_integer_dcrt k U HU om ts Hb X Y) |].
  eapply returns_bind; [by apply (SetFormat_dcrt af ai k U HU om ts Hb)|]. intros [a st1] [-> H1].
  eapply returns_bind; [by apply (SetFormat_dcrt af ai k U HU om' ts Hb)|]. intros [b st2] [-> H2].
  rewrite (proj1 (Times_dcrt k U HU om om' ts Hb X Y HX HY)), bind_Ok.
  apply (SetFormat_dcrt af ai k U HU om ts Hb); [unfold negacyclic; by rewrite length_map, length_seq | done].
Qed.

(** [C16] Splitting a polynomial modulo Q into towers, changing the representation and
    interpolating with the Chinese remainder theorem over multiprecision integers
    returns the same polynomial. *)
Theorem dcrt_round_trip om F ts X st :
  basis U ts -> ts <> [] -> length X = (2 ^ k)%nat -> reduced (Qof ts) X -> ready st ->
  returns (d ← DCRTPoly_large (big_poly k ts X) (dparams k om ts);
           '(d, st) ← Dcrt.SetFormat af ai F d st;
           CRTInterpolate af ai dist rfuel fuel d st)
    (fun '(p, st') => p = big_poly k ts X /\ ready st').
Proof.
  intros Hb Hne Hl HX Hst. rewrite (assign_large_dcrt k U HU ts Hb), bind_Ok by done.
  eapply returns_bind; [by apply (SetFormat_dcrt af ai k U HU _ ts Hb)|]. intros [d st1] [-> H1].
  by apply (CRTInterpolate_dcrt af ai k U HU ts Hb Hne dist rfuel fuel Hfuel).
Qed.

(** [C17] The interpolation of decryption returns, in the coefficient representation,
    the representatives between -Q/2 and Q/2 of the coefficients reduced modulo the
    plaintext modulus. *)
Theorem dcrt_decryption om F ts ptm X st :
  basis U ts -> ts <> [] -> 0 < ptm -> GetMSB ptm <= MAX_MODULUS_SIZE ->
  length X = (2 ^ k)%nat -> reduced (Qof ts) X -> ready st ->
  returns (DecryptionCRTInterpolate af ai dist rfuel fuel (dcrt k om F ts X) ptm st)
    (fun '(p, st') => m_values p = Some (mkVector (map (fun x => centered (Qof ts) x mod ptm) X) ptm) /\
                      Poly.m_format p = COEFFICIENT /\ ready st').
Proof.
  intros Hb Hne Hp Hm Hl HX Hst. unfold DecryptionCRTInterpolate.
  eapply returns_bind; [by apply (CRTInterpolate_dcrt af ai k U HU ts Hb Hne dist rfuel fuel Hfuel)|]. intros [p st1] [-> H1].
  eapply returns_mono; [by apply (BigPoly_Decryption_ok k U HU ts Hb Hne dist rfuel fuel Hfuel)|].
  intros [r st2] [-> H2]. by split_and!.
Qed.

(** The rescaling of CKKS drops the last tower and returns, over the remaining
    towers and in the evaluation representation, the coefficients divided by the
    dropped modulus and rounded to a nearest integer, when the precomputed constants
    are the inverses they are meant to be. *)
Theorem DropLastElementAndScale_rounds om F ts t a b X st :
  basis U (ts ++ [t]) -> ts <> [] -> negates ts (fst t) a -> inverts ts (fst t) b -> length X = (2 ^ k)%nat -> ready st ->
  returns (DropLastElementAndScale af ai dist rfuel fuel (map a ts) (map b ts) (dcrt k om F (ts ++ [t]) X) st)
    (fun '(r, st') => exists Y, r = dcrt k om EVALUATION ts Y /\
       Forall2 (fun x y => - fst t <= 2 * (x - fst t * y) <= fst t) X Y /\ ready st').
Proof.
  intros Hb Hne Ha Hib Hl Hst. pose proof (root_word k t (last_root k U HU ts t Hb)).
  eapply returns_mono; [by apply (DropLastElementAndScale_dcrt af ai k U HU om ts t Hb Hne dist rfuel fuel Hfuel)|].
  intros [r st'] [-> H1]. eexists. split; [done|]. split; [|done]. apply Forall2_map_self. intros x _. apply rescale_nearest. lia.
Qed.

(** The modulus switching of BGV drops the last tower, of modulus q, and returns
    an element whose coefficients y satisfy: q y is congruent to the old coefficient
    modulo the plaintext modulus t and within t q / 2 of it; in both
    representations. *)
Theorem ModReduce_divides om F ts t pt negtInv b X st :
  basis U (ts ++ [t]) -> ts <> [] -> 0 < pt < 2 ^ wbits -> 0 <= negtInv < 2 ^ wbits -> pt * negtInv ==[fst t] -1 ->
  inverts ts (fst t) b -> length X = (2 ^ k)%nat -> ready st ->
  returns (ModReduce af ai dist rfuel fuel pt negtInv (map b ts) (dcrt k om F (ts ++ [t]) X) st)
    (fun '(r, st') => exists Y, r = dcrt k om F ts Y /\
       Forall2 (fun x y => fst t * y ==[pt] x /\ - (pt * fst t) <= 2 * (fst t * y - x) <= pt * fst t) X Y /\ ready st').
Proof.
  intros Hb Hne Hpt Hn Hinv Hib Hl Hst. pose proof (root_word k t (last_root k U HU ts t Hb)).
  assert (0 <= pt < 2 ^ wbits) as Hpt' by lia.
  eapply returns_mono; [by apply (ModReduce_dcrt af ai k U HU om ts t Hb Hne dist rfuel fuel Hfuel pt negtInv b)|].
  intros [r st'] [-> H1]. eexists. split; [done|]. split; [|done]. apply Forall2_map_self. intros x _. apply mod_reduced_spec; [lia | lia | done].
Qed.

End Promises.

Section Basis.
Context `{W : NativeWidth}.
Context (af ai : NativeVectorT -> ILParams -> outcome NativeVectorT).
Context (k : nat) (U : list (Z * Z)) (HU : moduli_ok k U).
Abbreviation ready := (ready k U).

(** Raising the modulus from Q to Q P with 128-bit sums returns, over both bases,
    the element of the coefficients plus a multiple u Q with 0 <= u < number of
    towers; for fewer than 256 towers no sum overflows 128 bits. *)
Theorem ApproxModUp_extends om omq omp omqp F ts ps pre X st :
  basis U ts -> ts <> [] -> basis U ps -> (length ts < 256)%nat ->
  (forall t, t ∈ ts -> PrepModMulConst (hat_inv (Qof ts) (fst t)) (fst t) = Ok (pre t)) ->
  length X = (2 ^ k)%nat -> reduced (Qof ts) X -> ready st ->
  returns (ApproxModUp af ai (switch_128 (dparams k omq ts) (dparams k omp ps) (hats ts) (map pre ts) (quotients ts ps) (mus ps))
             (dparams k omqp (ts ++ ps)) (dcrt k om F ts X) st)
    (fun '(r, st') => exists Y, r = dcrt k omqp EVALUATION (ts ++ ps) Y /\
       Forall2 (fun x y => exists u, 0 <= u < Z.of_nat (length ts) /\ y = x + u * Qof ts) X Y /\ ready st').
Proof.
  intros Hb Hne Hp Hlen Hpre Hl HX Hst.
  eapply returns_mono; [by apply (ApproxModUp_dcrt af ai k U HU om omq omp omqp F ts ps pre X st Hb Hne Hp Hlen Hpre)|].
  intros [r st'] [-> H1]. eexists. split; [done|]. split; [|done]. apply Forall2_map_self. intros x Hx.
  apply (extended_spec k U HU ts Hb Hne). by apply (proj1 (Forall_forall _ _) HX).
Qed.

(** The quotient by the special modulus. *)
Definition divided (pt : Z) (ps : list (Z * Z)) (x y : Z) : Prop :=
  let P := Qof ps in let n := Z.of_nat (length ps) in
  if pt >? 0 then P * y ==[pt] x /\ 0 <= x - P * y < pt * (n * P)
  else exists u, 0 <= u < n /\ y = x / P - u.

Lemma extended_mod ps x : basis U ps -> extended ps (x mod Qof ps) = extended ps x.
Proof.
  intros Hp. pose proof (basis_pos k U HU ps Hp). unfold extended.
  assert (forall us, us ⊆ ps -> crt_sum (Qof ps) (digit ps (x mod Qof ps)) us = crt_sum (Qof ps) (digit ps x) us) as H'; [|by apply H'].
  induction us as [|t us IH]; intros Hs; cbn [crt_sum]; [done|]. rewrite IH by set_solver. do 2 f_equal. unfold digit. do 2 f_equal.
  assert (t ∈ ps) as Ht by set_solver. pose proof (root_word k t (basis_root k U HU ps t Hp Ht)).
  apply eqmod_elim, eqmod_mod_divide; [lia | done | by apply Qof_divide].
Qed.

Lemma mod_down_divided ts ps pt tinv x : basis U (ts ++ ps) -> ps <> [] -> 0 <= pt -> pt = 0 \/ pt * tinv ==[Qof ps] 1 ->
  divided pt ps x (mod_down ps pt tinv x).
Proof.
  intros Hqp Hps Hpt Ht. pose proof (basis_app_r k U HU ts ps Hqp) as Hp. pose proof (basis_pos k U HU ps Hp) as HP.
  pose proof (mod_down_exact k U HU ps pt tinv x Hp Ht) as E. unfold divided, special_part in *.
  destruct (Z.gtb_spec pt 0).
  - destruct (extended_spec k U HU ps Hp Hps ((x * tinv) mod Qof ps) (mod_range _ _ HP)) as (u & Hu & Eu). rewrite extended_mod in Eu by done.
    pose proof (mod_range (x * tinv) (Qof ps) HP). set (e := extended ps (x * tinv)) in *.
    assert (0 <= e < Z.of_nat (length ps) * Qof ps) as He by nia. split; [|nia]. rewrite E at 2.
    rewrite (Z.mul_comm pt). symmetry. apply eqmod_multiple.
  - destruct (extended_spec k U HU ps Hp Hps (x mod Qof ps) (mod_range _ _ HP)) as (u & Hu & Eu). rewrite extended_mod in Eu by done.
    exists u. split; [done|]. rewrite Eu in E. pose proof (Z.div_mod x (Qof ps) ltac:(lia)). nia.
Qed.

(** Dividing an element modulo Q P by the special modulus P returns over the
    towers of Q the quotients floor(x / P) - u with 0 <= u < number of towers of P;
    with a plaintext modulus t the result y satisfies P y = x modulo t with x - P y
    between 0 and t P times the number of towers. The parameters of Q may have more
    towers than the element. *)
Theorem ApproxModDown_divides om omq omp ts rs ps pre pt tinv b bs X st :
  basis U (ts ++ rs) -> basis U (ts ++ ps) -> ts <> [] -> ps <> [] -> (length ps < 256)%nat ->
  (forall t, t ∈ ps -> PrepModMulConst (hat_inv (Qof ps) (fst t)) (fst t) = Ok (pre t)) ->
  0 <= pt < 2 ^ wbits -> pt = 0 \/ pt * tinv ==[Qof ps] 1 -> inverts ts (Qof ps) b -> length X = (2 ^ k)%nat -> ready st ->
  returns (ApproxModDown af ai (switch_128 (dparams k omp ps) (dparams k omq (ts ++ rs)) (hats ps) (map pre ps)
               (quotients ps (ts ++ rs)) (mus (ts ++ rs)))
             (dparams k omq (ts ++ rs)) (dparams k omp ps) (map b ts ++ bs) (map (fun p => tinv mod fst p) ps) pt
             (dcrt k om EVALUATION (ts ++ ps) X) st)
    (fun '(r, st') => exists Y, r = dcrt k omq EVALUATION ts Y /\ Forall2 (divided pt ps) X Y /\ ready st').
Proof.
  intros Hq Hqp Hts Hps Hlen Hpre Hpt Ht Hinv Hl Hst.
  eapply returns_mono; [by apply (ApproxModDown_dcrt af ai k U HU ts rs ps Hq Hqp Hts Hlen pre Hpre pt tinv Hpt Ht b Hinv om omq omp bs)|].
  intros [r st'] [-> H1]. eexists. split; [done|]. split; [|done]. apply Forall2_map_self. intros x _.
  apply (mod_down_divided ts); [done | done | lia | done].
Qed.
End Basis.

(** ** Examples: dimension four, the moduli 17, 41 and 73 *)

Definition moduli4 : list (Z * Z) := [(17, 2); (41, 3); (73, 10)].
Definition fresh : rstate := (empty_cache, 0%nat).
Definition om0 : ubint := ubint_int 0.

Lemma root4 t : t ∈ moduli4 -> @root_at W64 2 t.
Proof.
  intros Ht. unfold moduli4 in Ht. repeat (apply elem_of_cons in Ht as [->|Ht]); [| | | by apply elem_of_nil in Ht];
    (split; [apply (no_divisor_prime 8); [done | done | done | by vm_compute] | done | by vm_compute | lia | done | by constructor]).
Qed.

Lemma moduli4_ok : @moduli_ok W64 2 moduli4.
Proof.
  split; [apply Forall_forall; intros; by apply root4 | | by vm_compute].
  apply (bool_decide_unpack _). by vm_compute.
Qed.

Lemma fresh_ready : @ready W64 2 moduli4 fresh.
Proof. apply Forall_true. intros t. left. reflexivity. Qed.

Lemma basis4 ts : bool_decide (ts ⊆ moduli4 /\ NoDup (map fst ts)) = true -> basis moduli4 ts.
Proof. intros [H1 H2]%bool_decide_eq_true. by split. Qed.

Definition pre4 (ts : list (Z * Z)) (t : Z * Z) : Z :=
  match @PrepModMulConst W64 (hat_inv (Qof ts) (fst t)) (fst t) with Ok x => x | _ => 0 end.
(** The inverse of [l] modulo the modulus of a tower, and its opposite. *)
Definition inv4 (l : Z) (t : Z * Z) : Z := Zcong.Z.invmod l (fst t).
Definition neg4 (l : Z) (t : Z * Z) : Z := (- inv4 l t) mod fst t.

Ltac members := let t := fresh "t" in let H := fresh in
  intros t H; repeat (apply elem_of_cons in H as [->|H]; [try (by vm_compute)|]); try (by apply elem_of_nil in H).

Lemma dcrt_ring_refines_witness :
  returns ('(a, st) ← @Dcrt.SetFormat W64 no_arb no_arb EVALUATION (dcrt 2 om0 COEFFICIENT moduli4 [1; 2; 3; 50000]) fresh;
           '(b, st) ← @Dcrt.SetFormat W64 no_arb no_arb EVALUATION (dcrt 2 om0 COEFFICIENT moduli4 [0; 1; 0; 0]) st;
           r ← @Dcrt.Times W64 a b;
           @Dcrt.SetFormat W64 no_arb no_arb COEFFICIENT r st)
    (fun '(r, _) => r = dcrt 2 om0 COEFFICIENT moduli4 [881; 1; 2; 3]).
Proof.
  destruct (dcrt_ring_refines (W := W64) no_arb no_arb 2 moduli4 moduli4_ok om0 om0 COEFFICIENT COEFFICIENT moduli4
    [1; 2; 3; 50000] [0; 1; 0; 0] fresh) as (_ & _ & _ & _ & H);
    [apply basis4; by vm_compute | done | done | apply fresh_ready |].
  eapply returns_mono; [exact H|]. intros [r st] [E _]. rewrite E. by vm_compute.
Defined.

Lemma dcrt_round_trip_witness :
  returns (d ← @DCRTPoly_large W64 (big_poly 2 moduli4 [1; 50880; 3; 30000]) (dparams 2 om0 moduli4);
           '(d, st) ← @Dcrt.SetFormat W64 no_arb no_arb EVALUATION d fresh;
           @CRTInterpolate W64 no_arb no_arb counting_source 1 10 d st)
    (fun '(p, _) => p = big_poly 2 moduli4 [1; 50880; 3; 30000]).
Proof.
  eapply returns_mono; [apply (dcrt_round_trip (W := W64) no_arb no_arb counting_source 1 10 2 ltac:(lia) moduli4 moduli4_ok om0 EVALUATION
    moduli4 [1; 50880; 3; 30000] fresh); [apply basis4; by vm_compute | done | done | repeat constructor; by vm_compute | apply fresh_ready]|].
  by intros [p st] [H _].
Defined.

Lemma dcrt_decryption_witness :
  returns (@DecryptionCRTInterpolate W64 no_arb no_arb counting_source 1 10 (dcrt 2 om0 COEFFICIENT moduli4 [1; 50880; 12; 50876]) 5 fresh)
    (fun '(p, _) => m_values p = Some (mkVector [1; 4; 2; 0] 5)).
Proof.
  eapply returns_mono; [apply (dcrt_decryption (W := W64) no_arb no_arb counting_source 1 10 2 ltac:(lia) moduli4 moduli4_ok om0 COEFFICIENT
    moduli4 5 [1; 50880; 12; 50876] fresh);
    [apply basis4; by vm_compute | done | done | by vm_compute | done | repeat constructor; by vm_compute | apply fresh_ready]|].
  intros [p st] [H _]. rewrite H. by vm_compute.
Defined.

(** The last modulus is 73; every coefficient is divided by it. *)
Definition front4 : list (Z * Z) := [(17, 2); (41, 3)].

Lemma DropLastElementAndScale_rounds_witness :
  returns (@DropLastElementAndScale W64 no_arb no_arb counting_source 1 10 (map (neg4 73) front4) (map (inv4 73) front4)
             (dcrt 2 om0 EVALUATION (front4 ++ [(73, 10)]) [730; 760; 770; 50000]) fresh)
    (fun '(r, _) => exists Y, r = dcrt 2 om0 EVALUATION front4 Y /\
       Forall2 (fun x y => -73 <= 2 * (x - 73 * y) <= 73) [730; 760; 770; 50000] Y).
Proof.
  eapply returns_mono; [apply (DropLastElementAndScale_rounds (W := W64) no_arb no_arb counting_source 1 10 2 ltac:(lia) moduli4 moduli4_ok om0
    EVALUATION front4 (73, 10) (neg4 73) (inv4 73) [730; 760; 770; 50000] fresh);
    [apply basis4; by vm_compute | done | members; (split; [by vm_compute | constructor; by vm_compute])..
    | done | apply fresh_ready]|].
  intros [r st] (Y & H1 & H2 & _). by exists Y.
Defined.

Lemma ModReduce_divides_witness :
  returns (@ModReduce W64 no_arb no_arb counting_source 1 10 5 29 (map (inv4 73) front4)
             (dcrt 2 om0 COEFFICIENT (front4 ++ [(73, 10)]) [730; 760; 770; 50000]) fresh)
    (fun '(r, _) => exists Y, r = dcrt 2 om0 COEFFICIENT front4 Y /\
       Forall2 (fun x y => 73 * y ==[5] x /\ -365 <= 2 * (73 * y - x) <= 365) [730; 760; 770; 50000] Y).
Proof.
  eapply returns_mono; [apply (ModReduce_divides (W := W64) no_arb no_arb counting_source 1 10 2 ltac:(lia) moduli4 moduli4_ok om0
    COEFFICIENT front4 (73, 10) 5 29 (inv4 73) [730; 760; 770; 50000] fresh);
    [apply basis4; by vm_compute | done | done | done | constructor; by vm_compute
    | members; (split; [by vm_compute | constructor; by vm_compute]) | done | apply fresh_ready]|].
  intros [r st] (Y & H1 & H2 & _). by exists Y.
Defined.

Lemma ApproxModUp_extends_witness :
  returns (@ApproxModUp W64 no_arb no_arb (@switch_128 W64 (dparams 2 om0 front4) (dparams 2 om0 [(73, 10)]) (hats front4)
               (map (pre4 front4) front4) (quotients front4 [(73, 10)]) (mus [(73, 10)]))
             (dparams 2 om0 (front4 ++ [(73, 10)])) (dcrt 2 om0 EVALUATION front4 [1; 2; 600; 696]) fresh)
    (fun '(r, _) => exists Y, r = dcrt 2 om0 EVALUATION (front4 ++ [(73, 10)]) Y /\
       Forall2 (fun x y => exists u, 0 <= u < 2 /\ y = x + u * 697) [1; 2; 600; 696] Y).
Proof.
  eapply returns_mono; [apply (ApproxModUp_extends (W := W64) no_arb no_arb 2 moduli4 moduli4_ok om0 om0 om0 om0
    EVALUATION front4 [(73, 10)] (pre4 front4) [1; 2; 600; 696] fresh);
    [apply basis4; by vm_compute | done | apply basis4; by vm_compute | by vm_compute; lia | members | done | repeat constructor; by vm_compute | apply fresh_ready]|].
  intros [r st] (Y & H1 & H2 & _). by exists Y.
Defined.

(** Division by 73 of an element with the modulus 17 * 73, while the full modulus has two towers. *)
Lemma ApproxModDown_divides_witness :
  returns (@ApproxModDown W64 no_arb no_arb (@switch_128 W64 (dparams 2 om0 [(73, 10)]) (dparams 2 om0 ([(17, 2)] ++ [(41, 3)])) (hats [(73, 10)])
               (map (pre4 [(73, 10)]) [(73, 10)]) (quotients [(73, 10)] ([(17, 2)] ++ [(41, 3)])) (mus ([(17, 2)] ++ [(41, 3)])))
             (dparams 2 om0 ([(17, 2)] ++ [(41, 3)])) (dparams 2 om0 [(73, 10)]) (map (inv4 73) [(17, 2)] ++ [0])
             (map (fun p => 0 mod fst p) [(73, 10)]) 0 (dcrt 2 om0 EVALUATION ([(17, 2)] ++ [(73, 10)]) [730; 760; 770; 1240]) fresh)
    (fun '(r, _) => r = dcrt 2 om0 EVALUATION [(17, 2)] [10; 10; 10; 16]).
Proof.
  eapply returns_mono; [apply (ApproxModDown_divides (W := W64) no_arb no_arb 2 moduli4 moduli4_ok om0 om0 om0
    [(17, 2)] [(41, 3)] [(73, 10)] (pre4 [(73, 10)]) 0 0 (inv4 73) [0] [730; 760; 770; 1240] fresh);
    [apply basis4; by vm_compute | apply basis4; by vm_compute | done | done | by vm_compute; lia | members | done | by left
    | members; (split; [by vm_compute | constructor; by vm_compute]) | done | apply fresh_ready]|].
  intros [r st] (Y & H1 & H2 & _). rewrite H1. f_equal.
  repeat (apply Forall2_cons_inv_l in H2 as (? & ? & (u & Hu & ->) & H2 & ->); assert (u = 0) as -> by (cbn in Hu; lia); clear Hu).
  apply Forall2_nil_inv_l in H2 as ->. by vm_compute.
Defined.
