(* ===== verification/Rns.v ===== *)
(** * Residue number systems of the schemes

    The tables that the crypto-parameters of the schemes precompute and the modulus
    reduction of ciphertexts that uses them: [CryptoParametersCKKSRNS::PrecomputeCRTTables]
    of pke/lib/scheme/ckksrns/ckksrns-cryptoparameters.cpp,
    [CryptoParametersBGVRNS::PrecomputeCRTTables] of
    pke/lib/scheme/bgvrns/bgvrns-cryptoparameters.cpp, the tables for the special modulus
    of pke/lib/schemerns/rns-cryptoparameters.cpp, and [ModReduceInternalInPlace] and
    [LevelReduceInternalInPlace] of pke/lib/scheme/ckksrns/ckksrns-leveledshe.cpp and
    pke/lib/scheme/bgvrns/bgvrns-leveledshe.cpp. *)
From Stdlib Require Import ZArith Lia Ascii String.
From stdpp Require Import base numbers list.
From S2P Require Import Prelude Bits NativeInt NativeVector Ntt NbTheory BigInt BigDiv BigNtt Poly Dcrt.
Open Scope Z_scope.

Definition moduli_of (p : ILDCRTParams) : list Z := map ciphertextModulus (d_parms p).
Definition roots_of (p : ILDCRTParams) : list Z := map rootOfUnity (d_parms p).

(** The constants of the 128-bit reduction: [BarrettBase128Bit] and [TwoPower64]. *)
Definition BarrettBase128Bit : outcome ubint :=
  ubint_string (list_ascii_of_string "340282366920938463463374607431768211456"%string).
Definition TwoPower64 : outcome ubint := ubint_string (list_ascii_of_string "18446744073709551616"%string).

(** [memcpy] of the two words of [mu] into a 128-bit integer, lowest first. *)
Definition barrett_mu (modulus : Z) : outcome Z :=
  base ← BarrettBase128Bit;
  two64 ← TwoPower64;
  mu ← DividedBy base (ubint_int modulus);
  m ← Mod mu two64;
  val0 ← ConvertToInt m;
  h ← RShift mu 64;
  val1 ← ConvertToInt h;
  Ok (val0 + 2 ^ 64 * val1).

Section Tables.
Context `{W : NativeWidth}.

(** A multiprecision integer stored in a [NativeInteger]. *)
Definition to_native (x : ubint) : outcome Z := r ← ConvertToInt x; Ok (wrap r).

(** ** Rescaling tables of CKKS *)

(** Entry [i] of the four tables of a level. *)
Record RescaleEntry := mkRescale {
  QlQlInvModqlDivqlModq : Z;
  QlQlInvModqlDivqlModqPrecon : Z;
  re_qlInvModq : Z;
  re_qlInvModqPrecon : Z
}.

Definition rescale_entry (ql : Z) (result : ubint) (qi : Z) : outcome RescaleEntry :=
  r ← Mod result (ubint_int qi);
  a ← to_native r;
  ap ← NativeInt.PrepModMulConst a qi;
  b ← NativeInt.ModInverse ql qi;
  bp ← NativeInt.PrepModMulConst b qi;
  Ok (mkRescale a ap b bp).

(** The level that drops the modulus [l]; [modulusQ] is the product of the moduli before it. *)
Definition rescale_row (moduliQ : list Z) (l : nat) (ql : Z) (modulusQ : ubint) : outcome (list RescaleEntry) :=
  QlInvModql ← BigModInverse modulusQ (ubint_int ql);
  prod ← Mul QlInvModql modulusQ;
  result ← DividedBy prod (ubint_int ql);
  vmapM (fun i => qi ← vget moduliQ i; rescale_entry ql result qi) (seq 0 l).

(** An empty list of moduli makes the size of the tables wrap, which [resize] rejects. *)
Definition rescale_tables (params : ILDCRTParams) : outcome (list (list RescaleEntry)) :=
  let moduliQ := moduli_of params in
  let sizeQ := length moduliQ in
  if (sizeQ =? 0)%nat then Throw std_exception
  else
    '(_, rows) ← for_range 0 (sizeQ - 1) (fun k '(modulusQ, rows) =>
        let l := (sizeQ - (k + 1))%nat in
        ql ← vget moduliQ l;
        modulusQ ← DividedBy modulusQ (ubint_int ql);
        row ← rescale_row moduliQ l ql modulusQ;
        Ok (modulusQ, rows ++ [row])) (d_ciphertextModulus params, []);
    Ok rows.

(** ** Tables of BGV *)

(** The constants of tower [i]: the opposite of the inverse of [t], the quotient for [t], and
    the inverses of the modulus modulo the moduli before it. *)
Record BGVEntry := mkBGV {
  negtInvModq : Z;
  negtInvModqPrecon : Z;
  tModqPrecon : Z;
  bg_qlInvModq : list Z;
  bg_qlInvModqPrecon : list Z
}.

Definition inverse_precon (v modulus : Z) : outcome (Z * Z) :=
  x ← NativeInt.ModInverse v modulus;
  p ← NativeInt.PrepModMulConst x modulus;
  Ok (x, p).

Definition bgv_entry (t : Z) (moduliQ : list Z) (i : nat) : outcome BGVEntry :=
  qi ← vget moduliQ i;
  tInv ← NativeInt.ModInverse t qi;
  let neg := NativeInt.Sub qi tInv in
  negPrecon ← NativeInt.PrepModMulConst neg qi;
  tModQi ← NativeInt.Mod t qi;
  tPrecon ← NativeInt.PrepModMulConst tModQi qi;
  row ← vmapM (fun j => qj ← vget moduliQ j; inverse_precon qi qj) (seq 0 i);
  Ok (mkBGV neg negPrecon tPrecon (map fst row) (map snd row)).
Definition bgv_tables (t : Z) (params : ILDCRTParams) : outcome (list BGVEntry) :=
  let moduliQ := moduli_of params in
  vmapM (bgv_entry (wrap t) moduliQ) (seq 0 (length moduliQ)).

(** The inverses of [t] modulo the primes of a basis, with their quotients. *)
Definition bgv_inverses (t : Z) (params : ILDCRTParams) : outcome (list (Z * Z)) :=
  vmapM (inverse_precon (wrap t)) (moduli_of params).

Inductive ScalingTechnique := FIXEDMANUAL | FIXEDAUTO | FLEXIBLEAUTO | FLEXIBLEAUTOEXT | NORESCALE | INVALID_RS_TECHNIQUE.

(** The scaling factors of the levels and their squares for FLEXIBLEAUTO ([ext] is one for
    FLEXIBLEAUTOEXT), and the moduli modulo [t]. *)
Definition bgv_scaling_factors (ext : bool) (t : Z) (params : ILDCRTParams) : outcome (list Z * list Z * list Z) :=
  let t := wrap t in
  let moduliQ := moduli_of params in
  let sizeQ := length moduliQ in
  let e := if ext then 1%nat else 0%nat in
  if (sizeQ <=? e)%nat then UB
  else
    q ← vget moduliQ (sizeQ - 1);
    s0 ← NativeInt.Mod q t;
    let factors := <[0%nat := s0]> (repeat 0 sizeQ) in
    factors ← (if ext then q ← vget moduliQ (sizeQ - 2); s1 ← NativeInt.Mod q t; vset factors 1 s1 else Ok factors);
    factors ← for_range (1 + e) (Nat.max (1 + e) (sizeQ - e)) (fun k factors =>
        prevSF ← vget factors (k - 1);
        q ← vget moduliQ (sizeQ - k);
        qInv ← NativeInt.ModInverse q t;
        r ← NativeInt.ModMul prevSF prevSF t;
        r ← NativeInt.ModMul r qInv t;
        vset factors k r) factors;
    big ← vmapM (fun k =>
        a ← vget factors k;
        b ← vget factors (if (k =? 0)%nat then e else k);
        NativeInt.ModMul a b t) (seq 0 (sizeQ - 1));
    qModt ← vmapM (fun q => NativeInt.Mod q t) moduliQ;
    Ok (factors, big, qModt).

(** The table of the moduli modulo [t], which only the flexible techniques have. *)
Definition bgv_qModt (technique : ScalingTechnique) (t : Z) (params : ILDCRTParams) : outcome (option (list Z)) :=
  match technique with
  | FLEXIBLEAUTO => '(_, _, qModt) ← bgv_scaling_factors false t params; Ok (Some qModt)
  | FLEXIBLEAUTOEXT => '(_, _, qModt) ← bgv_scaling_factors true t params; Ok (Some qModt)
  | _ => Ok None
  end.

(** ** Tables for the special modulus *)

(** [P mod q_i], and the inverse of [P] with its quotient. *)
Definition p_entry (modulusP : ubint) (qi : Z) : outcome (Z * (Z * Z)) :=
  r ← Mod modulusP (ubint_int qi);
  PModq ← to_native r;
  PInvModqi ← BigModInverse modulusP (ubint_int qi);
  x ← to_native PInvModqi;
  precon ← NativeInt.PrepModMulConst x qi;
  Ok (PModq, (x, precon)).
(** The inverse of [M / m_j] modulo [m_j] with its quotient. *)
Definition hat_entry (modulus : ubint) (mj : Z) : outcome (Z * Z) :=
  Hatj ← DividedBy modulus (ubint_int mj);
  HatInv ← BigModInverse Hatj (ubint_int mj);
  x ← to_native HatInv;
  precon ← NativeInt.PrepModMulConst x mj;
  Ok (x, precon).
(** [M / m_j] modulo the moduli of another basis. *)
Definition hat_row (modulus : ubint) (others : list Z) (mj : Z) : outcome (list Z) :=
  Hatj ← DividedBy modulus (ubint_int mj);
  vmapM (fun q => r ← Mod Hatj (ubint_int q); to_native r) others.

(** What the conversion from a basis with product [modulus] to the moduli [others] needs. *)
Record SwitchTables := mkSwitch {
  HatInv : list (Z * Z);
  HatMod : list (list Z);
  BarrettMu : list Z
}.
Definition switch_tables (modulus : ubint) (moduli others : list Z) : outcome SwitchTables :=
  inv ← vmapM (hat_entry modulus) moduli;
  rows ← vmapM (hat_row modulus others) moduli;
  mu ← vmapM barrett_mu others;
  Ok (mkSwitch inv rows mu).

Record SpecialTables := mkSpecial {
  PModq : list Z;
  PInvModq : list (Z * Z);
  toQ : SwitchTables
}.
Definition special_tables (paramsQ paramsP : ILDCRTParams) (modulusP : ubint) : outcome SpecialTables :=
  es ← vmapM (p_entry modulusP) (moduli_of paramsQ);
  sw ← switch_tables modulusP (moduli_of paramsP) (moduli_of paramsQ);
  Ok (mkSpecial (map fst es) (map snd es) sw).

(** ** Ciphertexts *)

(** The parts of [CiphertextImpl] that reduction changes. The scaling factor is a number of
    type [F], a double in CKKS and an integer modulo [t] in BGV. *)
Record Ciphertext (F : Type) := mkCiphertext {
  m_elements : list DCRTPoly;
  m_noiseScaleDeg : Z;
  m_level : Z;
  m_scalingFactor : F
}.
#[global] Arguments mkCiphertext {F}.
#[global] Arguments m_elements {F}.
#[global] Arguments m_noiseScaleDeg {F}.
#[global] Arguments m_level {F}.
#[global] Arguments m_scalingFactor {F}.

Context (arb_forward arb_inverse : NativeVectorT -> ILParams -> outcome NativeVectorT).
Context (dist : nat -> Z -> Z) (rfuel fuel : nat).

Section Reduce.
Context {F : Type}.

(** [LeveledSHECKKSRNS::ModReduceInternalInPlace], with the division of the scaling factors and
    the factors of the moduli as arguments. With fewer moduli in the parameters than towers in
    the ciphertext the index of the table wraps. *)
Definition ckks_ModReduceInternal (fdiv : F -> F -> F) (GetModReduceFactor : Z -> F) (sizeQ : nat)
    (tables : list (list RescaleEntry)) (levels : nat) (ct : Ciphertext F) (st : rstate)
    : outcome (Ciphertext F * rstate) :=
  c0 ← vget (m_elements ct) 0;
  let sizeQl := length (m_vectors c0) in
  '(cv, st) ← for_range 0 levels (fun l '(cv, st) =>
      row ← (if (sizeQ <? sizeQl)%nat then UB else vget tables (sizeQ - sizeQl + l));
      towers_st (fun c st =>
        DropLastElementAndScale arb_forward arb_inverse dist rfuel fuel
          (map QlQlInvModqlDivqlModq row) (map re_qlInvModq row) c st) cv st) (m_elements ct, st);
  let sf := fold_left (fun sf i => fdiv sf (GetModReduceFactor (u32 (Z.of_nat sizeQl - 1 - Z.of_nat i))))
              (seq 0 levels) (m_scalingFactor ct) in
  Ok (mkCiphertext cv (u32 (m_noiseScaleDeg ct - Z.of_nat levels)) (u32 (m_level ct + Z.of_nat levels)) sf, st).

(** [LevelReduceInternalInPlace] of both schemes. *)
Definition LevelReduceInternal (levels : nat) (ct : Ciphertext F) : outcome (Ciphertext F) :=
  cv ← vmapM (fun c => DropLastElements c levels) (m_elements ct);
  Ok (mkCiphertext cv (m_noiseScaleDeg ct) (u32 (m_level ct + Z.of_nat levels)) (m_scalingFactor ct)).
End Reduce.

(** [LeveledSHEBGVRNS::ModReduceInternalInPlace]: [qModt] are the moduli modulo [t] when the
    scaling technique is FLEXIBLEAUTO or FLEXIBLEAUTOEXT. *)
Definition bgv_ModReduceInternal (t : Z) (tables : list BGVEntry) (qModt : option (list Z)) (levels : nat)
    (ct : Ciphertext Z) (st : rstate) : outcome (Ciphertext Z * rstate) :=
  c0 ← vget (m_elements ct) 0;
  let sizeQl := length (m_vectors c0) in
  if negb (levels <? sizeQl)%nat then Throw config_error
  else
    '(cv, st) ← towers_st (fun c st =>
        for_range 0 levels (fun k '(c, st) =>
          e ← vget tables (sizeQl - 1 - k);
          ModReduce arb_forward arb_inverse dist rfuel fuel (wrap t) (negtInvModq e) (bg_qlInvModq e) c st) (c, st))
        (m_elements ct) st;
    sf ← (match qModt with
          | None => Ok (m_scalingFactor ct)
          | Some qs =>
              for_range 0 levels (fun i sf =>
                f ← vget qs (sizeQl - 1 - i);
                inv ← NativeInt.ModInverse f (wrap t);
                NativeInt.ModMul sf inv (wrap t)) (m_scalingFactor ct)
          end);
    Ok (mkCiphertext cv (u32 (m_noiseScaleDeg ct - Z.of_nat levels)) (u32 (m_level ct + Z.of_nat levels)) sf, st).
End Tables.
