(* ===== verification/RnsProps.v ===== *)
(** * Residue number systems of the schemes: tables and reduction

    The tables hold the constants that the operations of double-CRT polynomials need: the
    inverses and the residues they are named after. With them [ModReduceInternalInPlace] of
    CKKS and BGV divides every element of a ciphertext by the dropped moduli, one after the
    other. *)
From Stdlib Require Import ZArith Znumtheory Zcong Lia Ascii String.
From stdpp Require Import base numbers list sets.
From S2P Require Import Prelude Bits NativeInt NativeIntProps NativeVector Ntt NttProps FttProps NbTheory NbTheoryProps BigInt BigDiv BigIntProps BigShiftProps BigModProps BigRefine BigVector BigVectorProps BigNtt BigNttProps BigFttProps Poly PolyProps PolyAlg PolyRing RgswRing Dcrt DcrtTowers Crt DcrtProps DcrtInterp DcrtScale DcrtBasis Rns BinWitness DcrtRing.
Open Scope Z_scope.

(** ** Numbers *)

Lemma invmod_unique v q z : 1 < q -> 0 <= z < q -> (v * z) mod q = 1 -> Z.gcd v q = 1 -> z = Z.invmod v q.
Proof.
  intros Hq Hz Ez Hg. pose proof (Z.invmod_coprime v q ltac:(lia) Hg) as Ei.
  assert (0 <= Z.invmod v q < q) by (rewrite <- Z.mod_invmod; apply mod_range; lia).
  apply (eqmod_small q); [done | done |].
  transitivity (z * (Z.invmod v q * v)).
  - rewrite (eqmod_1 q (Z.invmod v q * v)) by (done || lia). apply eqmod_eq. ring.
  - replace (z * _) with (v * z * Z.invmod v q) by ring. rewrite (eqmod_1 q (v * z)) by (done || lia). apply eqmod_eq. ring.
Qed.

Lemma invmod_range v q : 0 < q -> 0 <= Z.invmod v q < q.
Proof. intros Hq. rewrite <- Z.mod_invmod. by apply mod_range. Qed.

(** The opposite of the inverse of [pt] modulo [m]. *)
Definition negt (pt m : Z) : Z := m - Z.invmod pt m.

Lemma negt_ok pt m : 1 < m -> Z.gcd pt m = 1 -> 0 <= negt pt m < m /\ pt * negt pt m ==[m] -1.
Proof.
  intros Hm Hg. pose proof (Z.invmod_coprime pt m ltac:(lia) Hg) as E. pose proof (invmod_range pt m ltac:(lia)) as Hr.
  assert (Z.invmod pt m <> 0) by (intros E0; rewrite E0, Z.mul_0_l, Zmod_0_l in E; lia). unfold negt. split; [lia|].
  replace (pt * (m - Z.invmod pt m)) with (- (Z.invmod pt m * pt) + pt * m) by ring.
  rewrite eqmod_multiple, (eqmod_1 m (Z.invmod pt m * pt)) by done. done.
Qed.

(** The two words of the Barrett quotient make up the quotient. *)
Lemma barrett_mu_ok q : 4 <= q < 2 ^ 64 -> barrett_mu q = Ok (2 ^ 128 / q).
Proof.
  intros Hq. unfold barrett_mu.
  assert (BarrettBase128Bit = Ok (encode (2 ^ 128))) as -> by (by vm_compute).
  assert (TwoPower64 = Ok (encode (2 ^ 64))) as -> by (by vm_compute). rewrite !bind_Ok, encode_int by lia.
  assert (fits q) by (apply (fits_bits _ 64); [lia | by vm_compute]).
  assert (fits (2 ^ 128)) by (apply (fits_bits _ 129); [lia | by vm_compute]).
  assert (fits (2 ^ 64)) by (apply (fits_bits _ 65); [lia | by vm_compute]).
  assert (0 <= 2 ^ 128 / q < 2 ^ 127) as Hm.
  { split; [apply Z.div_pos; lia|]. apply Z.div_lt_upper_bound; lia. }
  set (mu := 2 ^ 128 / q) in *. assert (fits mu) by (apply (fits_bits _ 128); [lia | by vm_compute]).
  rewrite (encode_Ok (DividedBy _ _) mu) by (apply DividedBy_represents; auto with fhe; lia). rewrite bind_Ok. clearbody mu.
  pose proof (mod_range mu (2 ^ 64) ltac:(lia)) as Hr.
  rewrite (encode_Ok (Mod _ _) (mu mod 2 ^ 64)) by (apply Mod_represents; auto with fhe; lia). rewrite bind_Ok.
  rewrite (ConvertToInt_spec _ (mu mod 2 ^ 64)) by (apply encode_represents, (fits_bits _ 64); [exact Hr | by vm_compute]).
  rewrite bind_Ok. assert (0 <= mu / 2 ^ 64 < 2 ^ 63) as Hh.
  { split; [apply Z.div_pos; lia|]. apply Z.div_lt_upper_bound; lia. }
  rewrite (encode_Ok (RShift _ _) (mu / 2 ^ 64)) by (apply RShift_represents; [auto with fhe | lia | done]). rewrite bind_Ok.
  rewrite (ConvertToInt_spec _ (mu / 2 ^ 64)) by (apply encode_represents, (fits_bits _ 64); [lia | by vm_compute]).
  rewrite bind_Ok, (Z.mod_small (mu mod 2 ^ 64)), (Z.mod_small (mu / 2 ^ 64)) by lia. f_equal. pose proof (Z.div_mod mu (2 ^ 64) ltac:(lia)). lia.
Qed.

Section Tables.
Context `{W : NativeWidth} (k : nat) (U : list (Z * Z)) (HU : moduli_ok k U).

Lemma to_native_ok x q : 0 <= x < q -> q < 2 ^ wbits -> to_native (encode x) = Ok x.
Proof.
  intros Hx Hq. pose proof wbits_range. assert (2 ^ wbits <= 2 ^ 64) by (apply Z.pow_le_mono_r; lia).
  unfold to_native. rewrite (ConvertToInt_spec _ x) by (apply encode_represents, (fits_bits _ 64); [lia | by vm_compute]).
  by rewrite bind_Ok, (wrap_64_small _ q).
Qed.

Lemma ModInverse_invmod v q : 2 <= q < 2 ^ (wbits - 1) -> Z.gcd v q = 1 -> NativeInt.ModInverse v q = Ok (Z.invmod v q).
Proof.
  intros Hq Hg. pose proof (ModInverse_correct v q Hq Hg) as H. apply returns_Ok in H as (z & -> & Hz & Ez).
  f_equal. by apply invmod_unique; [lia | | |].
Qed.

Lemma BigModInverse_invmod v q : 1 < q -> fits q -> fits v -> Z.gcd v q = 1 -> BigModInverse (encode v) (encode q) = Ok (encode (Z.invmod v q)).
Proof.
  intros Hq Fq Fv Hg. destruct (BigModInverse_ok q v Hq Fq Fv Hg) as (z & Hz & Ez & ->). do 2 f_equal. by apply invmod_unique.
Qed.

(** The quotient that [PrepModMulConst] returns. *)
Definition precon (b q : Z) : Z := b * 2 ^ wbits / q.
Lemma PrepModMulConst_precon b q : 0 <= b < q -> q < 2 ^ wbits -> NativeInt.PrepModMulConst b q = Ok (precon b q).
Proof. intros Hb Hq. by destruct (PrepModMulConst_ok b q Hb Hq) as (z & -> & -> & _). Qed.

Lemma tower_modulus t : t ∈ U -> root_at k t /\ 4 <= fst t /\ 2 <= fst t < 2 ^ (wbits - 1) /\ fst t < 2 ^ wbits /\ fst t < 2 ^ 64 /\
  ubint_int (fst t) = encode (fst t) /\ fits (fst t).
Proof.
  intros Ht. assert (root_at k t) as Hr by (apply (basis_root k U HU U t (basis_U k U HU) Ht)).
  pose proof (root_word k t Hr) as (H4 & H2 & Hw & H64). destruct (modulus_encode k t Hr) as [E F].
  refine (conj Hr (conj H4 (conj (conj _ _) (conj Hw (conj H64 (conj E F)))))); lia.
Qed.

Lemma towers_coprime t u : t ∈ U -> u ∈ U -> fst t <> fst u -> Z.gcd (fst t) (fst u) = 1.
Proof.
  intros Ht Hu Hne. destruct (tower_modulus t Ht) as (Rt & _). destruct (tower_modulus u Hu) as (Ru & _).
  apply Z.coprime_prime_l; [apply Rt|]. intros Hd. apply Hne. apply Z.divide_prime_prime in Hd; [done | apply Rt | apply Ru].
Qed.

(** A modulus outside a basis is coprime to its product. *)
Lemma product_coprime ts u : basis U ts -> u ∈ U -> fst u ∉ map fst ts -> Z.gcd (Qof ts) (fst u) = 1.
Proof.
  intros Hb Hu Hn. rewrite Z.gcd_comm. apply Qof_coprime. destruct (basis_coprime k U HU ts Hb) as [Hp Hd].
  split; [constructor; [apply (tower_modulus u Hu) | done]|]. simpl. by constructor.
Qed.

(** ** Rescaling *)

(** The quotient of [Q' (Q'^-1 mod q)] by [q], for the product [Q'] of the moduli before [q]. *)
Definition ql_quotient (Q' q : Z) : Z := Z.invmod Q' q * Q' / q.

Lemma ql_quotient_mul Q' q : 1 < q -> Z.gcd Q' q = 1 -> q * ql_quotient Q' q = Z.invmod Q' q * Q' - 1.
Proof.
  intros Hq Hg. unfold ql_quotient. pose proof (Z.invmod_coprime Q' q ltac:(lia) Hg) as E.
  pose proof (Z.div_mod (Z.invmod Q' q * Q') q ltac:(lia)). lia.
Qed.

Section Rescale.
Context (om : ubint) (ts : list (Z * Z)) (Hb : basis U ts).

Definition entry_of (u : Z * Z) (Q' : Z) (t : Z * Z) : RescaleEntry :=
  let a := ql_quotient Q' (fst u) mod fst t in let b := Z.invmod (fst u) (fst t) in
  mkRescale a (precon a (fst t)) b (precon b (fst t)).
Definition row_of (l : nat) : list RescaleEntry := map (entry_of (ts !!! l) (Qof (take l ts))) (take l ts).

Lemma take_basis l : basis U (take l ts).
Proof. apply (basis_app_l k U HU _ (drop l ts)). by rewrite take_drop. Qed.

Lemma level_modulus l : (l < length ts)%nat -> ts !!! l ∈ U /\ fst (ts !!! l) ∉ map fst (take l ts).
Proof.
  intros Hl. pose proof (list_lookup_lookup_total_lt ts l Hl) as E. split.
  - apply Hb. by eapply list_elem_of_lookup_2.
  - destruct Hb as [_ Hd]. rewrite <- (take_drop_middle ts l _ E), map_app in Hd. apply NoDup_app in Hd as (_ & Hd & _).
    intros Hin. apply (Hd _ Hin). left.
Qed.

Lemma rescale_row_ok l : (l < length ts)%nat ->
  rescale_row (map fst ts) l (fst (ts !!! l)) (encode (Qof (take l ts))) = Ok (row_of l).
Proof.
  intros Hl. destruct (level_modulus l Hl) as [Hu Hn]. set (u := ts !!! l) in *.
  destruct (tower_modulus u Hu) as (_ & H4 & Hu2 & Hw & H64 & Eu & Fu). pose proof (take_basis l) as Hb'.
  pose proof (product_coprime _ u Hb' Hu Hn) as Hg. pose proof (basis_fits k U HU _ Hb') as FQ. pose proof (basis_pos k U HU _ Hb') as PQ.
  set (Q' := Qof (take l ts)) in *. pose proof (invmod_range Q' (fst u) ltac:(lia)) as Hi.
  unfold rescale_row. rewrite Eu, BigModInverse_invmod, bind_Ok by (done || lia).
  assert (fits (Z.invmod Q' (fst u))) as Fi by (eapply fits_mono; [exact Fu | lia]).
  pose proof (ql_quotient_mul Q' (fst u) ltac:(lia) Hg) as Em.
  assert (fits (Z.invmod Q' (fst u) * Q')) as Fp.
  { eapply fits_mono; [apply (basis_fits k U HU _ (take_basis (S l)))|]. rewrite (take_S_r ts l u), Qof_app
      by (by apply list_lookup_lookup_total_lt). cbn [Qof]. fold Q'. nia. }
  rewrite (encode_Ok (Mul _ _) (Z.invmod Q' (fst u) * Q')) by (apply Mul_represents; auto with fhe). rewrite bind_Ok.
  assert (0 <= ql_quotient Q' (fst u)) as Hq0 by (apply Z.div_pos; nia).
  assert (fits (ql_quotient Q' (fst u))) as Fq by (eapply fits_mono; [exact Fp | nia]).
  rewrite (encode_Ok (DividedBy _ _) (ql_quotient Q' (fst u))) by (apply DividedBy_represents; auto with fhe; lia). rewrite bind_Ok.
  unfold row_of. fold u Q'.
  assert (seq 0 l = map (fun i => i) (seq 0 (length (take l ts)))) as -> by (rewrite map_id, length_take; f_equal; lia).
  rewrite <- (map_seq_list (entry_of u Q') (take l ts)). apply vmapM_towers. intros i [_ Hi']%elem_of_seq.
  rewrite length_take in Hi'. assert (take l ts !!! i = ts !!! i) as -> by (rewrite lookup_total_take; (destruct (decide (i < l)%nat); [done | lia])).
  pose proof (list_lookup_lookup_total_lt ts i ltac:(lia)) as Ei. rewrite (vget_map fst ts i _ Ei), bind_Ok.
  assert (ts !!! i ∈ U) as Ht by (apply Hb; by eapply list_elem_of_lookup_2).
  assert (fst (ts !!! i) <> fst u) as Hne.
  { intros E. apply Hn. rewrite <- E. apply (list_elem_of_fmap_2 fst), (list_elem_of_lookup_2 _ i). rewrite lookup_take_lt by lia. done. }
  set (t := ts !!! i) in *. destruct (tower_modulus t Ht) as (_ & H4' & Ht2 & Hw' & _ & Et & Ft).
  unfold rescale_entry, entry_of. rewrite Et. pose proof (mod_range (ql_quotient Q' (fst u)) (fst t) ltac:(lia)) as Hr.
  rewrite (encode_Ok (Mod _ _) (ql_quotient Q' (fst u) mod fst t)) by (apply Mod_represents; auto with fhe; lia). rewrite bind_Ok.
  rewrite (to_native_ok _ (fst t)), bind_Ok, PrepModMulConst_precon, bind_Ok by (done || lia).
  rewrite ModInverse_invmod, bind_Ok by (done || apply towers_coprime; done || (apply towers_coprime; [done | done | congruence])).
  rewrite PrepModMulConst_precon, bind_Ok by (done || (apply invmod_range; lia)). done.
Qed.

Lemma rescale_tables_ok : ts <> [] ->
  rescale_tables (dparams k om ts) = Ok (map (fun j => row_of (length ts - 1 - j)) (seq 0 (length ts - 1))).
Proof.
  intros Hne. assert (length ts <> 0)%nat as Hn by (by destruct ts). set (n := length ts) in *. unfold rescale_tables.
  assert (moduli_of (dparams k om ts) = map fst ts) as -> by (unfold moduli_of; cbn; rewrite map_map; done).
  rewrite length_map. fold n. rewrite (proj2 (Nat.eqb_neq _ _)) by done. cbn [dparams d_ciphertextModulus].
  pose proof (for_range_exact (fun j => (encode (Qof (take (n - j) ts)), map (fun j => row_of (n - 1 - j)) (seq 0 j))) 0 (n - 1)) as H.
  cbv beta in H. rewrite Nat.sub_0_r, (take_ge ts n) in H by done. change (map _ (seq 0 0)) with (@nil (list RescaleEntry)) in H.
  rewrite H, bind_Ok; [done | lia |].
  clear H. intros j Hj. replace (n - (j + 1))%nat with (n - 1 - j)%nat by lia. set (l := (n - 1 - j)%nat).
  pose proof (list_lookup_lookup_total_lt ts l ltac:(unfold l; lia)) as El.
  rewrite (vget_map fst ts l _ El), bind_Ok. destruct (level_modulus l ltac:(unfold l; lia)) as [Hu _].
  destruct (tower_modulus _ Hu) as (_ & H4 & _ & _ & _ & Eu & Fu).
  replace (n - j)%nat with (S l) by (unfold l; lia). replace (n - S j)%nat with l by (unfold l; lia). rewrite Eu.
  assert (DividedBy (encode (Qof (take (S l) ts))) (encode (fst (ts !!! l))) = Ok (encode (Qof (take l ts)))) as ->.
  { rewrite (encode_Ok (DividedBy _ _) (Qof (take (S l) ts) / fst (ts !!! l)))
      by (apply DividedBy_represents; [apply encode_represents, (basis_fits k U HU), take_basis | auto with fhe | lia]).
    rewrite (take_S_r ts l _ El), Qof_app. cbn [Qof]. rewrite Z.mul_1_r, Z.div_mul by lia. done. }
  rewrite bind_Ok, rescale_row_ok, bind_Ok by (unfold l; lia). rewrite seq_S, map_app. done.
Qed.

(** The constants of a level are those that rescaling needs. *)
Lemma row_constants l : (l < length ts)%nat ->
  exists a b, map QlQlInvModqlDivqlModq (row_of l) = map a (take l ts) /\ map re_qlInvModq (row_of l) = map b (take l ts) /\
    negates (take l ts) (fst (ts !!! l)) a /\ inverts (take l ts) (fst (ts !!! l)) b.
Proof.
  intros Hl. destruct (level_modulus l Hl) as [Hu Hn]. set (u := ts !!! l) in *. set (Q' := Qof (take l ts)).
  exists (fun t => ql_quotient Q' (fst u) mod fst t), (fun t => Z.invmod (fst u) (fst t)).
  unfold row_of. rewrite !map_map. split_and!; [done | done | |]; intros t Ht.
  all: assert (t ∈ U) as HtU by (by apply (take_basis l)); destruct (tower_modulus t HtU) as (_ & H4 & _ & Hw & _);
       destruct (tower_modulus u Hu) as (_ & H4u & _).
  - pose proof (mod_range (ql_quotient Q' (fst u)) (fst t) ltac:(lia)). split; [lia|]. rewrite eqmod_mod.
    rewrite ql_quotient_mul by (lia || (apply product_coprime; [apply take_basis | done | done])).
    destruct (Qof_divide t (take l ts) Ht) as [z Ez]. fold Q' in Ez. rewrite Ez.
    replace (Z.invmod (z * fst t) (fst u) * (z * fst t) - 1) with (-1 + (Z.invmod (z * fst t) (fst u) * z) * fst t) by ring.
    apply eqmod_multiple.
  - pose proof (invmod_range (fst u) (fst t) ltac:(lia)). split; [lia|]. rewrite Z.mul_comm. apply eqmod_1; [lia|].
    apply Z.invmod_coprime; [lia|]. apply towers_coprime; [done | done |].
    intros E. apply Hn. rewrite E. by apply (list_elem_of_fmap_2 fst).
Qed.
End Rescale.

(** ** Modulus switching of BGV *)

Section Switching.
Context (om : ubint) (ts : list (Z * Z)) (Hb : basis U ts).
Context (pt : Z) (Hpt : 0 < pt < 2 ^ wbits) (Hco : forall t, t ∈ ts -> Z.gcd pt (fst t) = 1).

Definition bgv_row (i : nat) : BGVEntry :=
  let u := ts !!! i in let inv t := Z.invmod (fst u) (fst t) in
  mkBGV (negt pt (fst u)) (precon (negt pt (fst u)) (fst u)) (precon (pt mod fst u) (fst u))
    (map inv (take i ts)) (map (fun t => precon (inv t) (fst t)) (take i ts)).

Lemma inverse_precon_ok v t : t ∈ U -> Z.gcd v (fst t) = 1 ->
  inverse_precon v (fst t) = Ok (Z.invmod v (fst t), precon (Z.invmod v (fst t)) (fst t)).
Proof.
  intros Ht Hg. destruct (tower_modulus t Ht) as (_ & H4 & H2 & Hw & _). unfold inverse_precon.
  rewrite ModInverse_invmod, bind_Ok by done. rewrite PrepModMulConst_precon by (done || (apply invmod_range; lia)). done.
Qed.

(** The moduli before level [i] differ from its modulus. *)
Lemma before_coprime i t : (i < length ts)%nat -> t ∈ take i ts -> t ∈ U /\ Z.gcd (fst (ts !!! i)) (fst t) = 1.
Proof.
  intros Hi Ht. destruct (level_modulus ts Hb i Hi) as [Hu Hn]. assert (t ∈ U) as HtU by (by apply (take_basis ts Hb i)).
  split; [done|]. apply towers_coprime; [done | done |]. intros E. apply Hn. rewrite E. by apply (list_elem_of_fmap_2 fst).
Qed.

Lemma bgv_entry_ok i : (i < length ts)%nat -> bgv_entry pt (map fst ts) i = Ok (bgv_row i).
Proof.
  intros Hi. pose proof (list_lookup_lookup_total_lt ts i Hi) as Ei. destruct (level_modulus ts Hb i Hi) as [Hu _].
  destruct (tower_modulus _ Hu) as (_ & H4 & H2 & Hw & _). pose proof (Hco _ (list_elem_of_lookup_2 _ _ _ Ei)) as Hg.
  unfold bgv_entry, bgv_row. rewrite (vget_map fst ts i _ Ei), bind_Ok. set (u := ts !!! i) in *.
  rewrite ModInverse_invmod, bind_Ok by done. destruct (negt_ok pt (fst u) ltac:(lia) Hg) as [Hn _].
  assert (NativeInt.Sub (fst u) (Z.invmod pt (fst u)) = negt pt (fst u)) as ->.
  { unfold NativeInt.Sub, SubFast, negt in *. apply wrap_small. split; [apply Hn | etransitivity; [apply Hn | done]]. }
  rewrite PrepModMulConst_precon, bind_Ok by done. pose proof (mod_range pt (fst u) ltac:(lia)) as Hm.
  unfold NativeInt.Mod. rewrite umod_pos, bind_Ok by lia. rewrite PrepModMulConst_precon, bind_Ok by done.
  set (g := fun t : Z * Z => (Z.invmod (fst u) (fst t), precon (Z.invmod (fst u) (fst t)) (fst t))).
  assert (vmapM (fun j => qj ← vget (map fst ts) j; inverse_precon (fst u) qj) (seq 0 i) = Ok (map g (take i ts))) as ->.
  { assert (seq 0 i = map (fun j => j) (seq 0 (length (take i ts)))) as -> by (rewrite map_id, length_take; f_equal; lia).
    rewrite <- (map_seq_list g (take i ts)). apply vmapM_towers. intros j [_ Hj]%elem_of_seq. rewrite length_take in Hj.
    assert (take i ts !!! j = ts !!! j) as -> by (rewrite lookup_total_take; destruct (decide (j < i)%nat); [done | lia]).
    pose proof (list_lookup_lookup_total_lt ts j ltac:(lia)) as Ej. rewrite (vget_map fst ts j _ Ej), bind_Ok.
    destruct (before_coprime i (ts !!! j) Hi) as [HtU Hgj]; [apply (list_elem_of_lookup_2 _ j); by rewrite lookup_take_lt by lia|].
    by apply inverse_precon_ok. }
  rewrite bind_Ok, !map_map. done.
Qed.

Lemma bgv_tables_ok : bgv_tables pt (dparams k om ts) = Ok (map bgv_row (seq 0 (length ts))).
Proof.
  unfold bgv_tables. assert (moduli_of (dparams k om ts) = map fst ts) as -> by (unfold moduli_of; cbn; rewrite map_map; done).
  rewrite length_map, wrap_small by lia. rewrite <- (map_id (seq 0 (length ts))) at 1. apply vmapM_towers.
  intros i [_ Hi]%elem_of_seq. by apply bgv_entry_ok.
Qed.

Lemma bgv_row_inverts i : (i < length ts)%nat -> inverts (take i ts) (fst (ts !!! i)) (fun t => Z.invmod (fst (ts !!! i)) (fst t)).
Proof.
  intros Hi t Ht. destruct (before_coprime i t Hi Ht) as [HtU Hg]. destruct (tower_modulus t HtU) as (_ & H4 & _ & Hw & _).
  pose proof (invmod_range (fst (ts !!! i)) (fst t) ltac:(lia)). split; [lia|]. rewrite Z.mul_comm. apply eqmod_1; [lia|].
  apply Z.invmod_coprime; [lia | done].
Qed.
(** The scaling factors of the levels. *)
Section Factors.
Context (Ht2 : 2 <= pt < 2 ^ (wbits - 1)).
Let q (i : nat) : Z := fst (ts !!! i).

Lemma modulus_inverse i : (i < length ts)%nat ->
  NativeInt.ModInverse (q i) pt = Ok (Z.invmod (q i) pt) /\ Z.invmod (q i) pt * q i ==[pt] 1 /\ 0 <= Z.invmod (q i) pt < pt.
Proof.
  intros Hi. assert (Z.gcd (q i) pt = 1) as Hg by (rewrite Z.gcd_comm; by apply Hco, (list_elem_of_lookup_2 _ i), list_lookup_lookup_total_lt).
  split; [by apply ModInverse_invmod|]. split; [|apply invmod_range; lia]. apply eqmod_1; [lia|]. by apply Z.invmod_coprime; [lia|].
Qed.

(** The factors of the first [i] levels: the first is the last modulus, and every other one times
    a modulus is the square of the one before it. *)
Definition factors_upto (e i : nat) (f : list Z) : Prop :=
  length f = length ts /\ Forall (fun x => 0 <= x < pt) f /\ f !!! 0%nat = q (length ts - 1)%nat mod pt /\
  (forall j, (1 + e <= j < i)%nat -> (f !!! j * q (length ts - j)%nat) ==[pt] (f !!! (j - 1)%nat * f !!! (j - 1)%nat)).

Lemma factors_entry e l f i : factors_upto e l f -> (i < length ts)%nat -> vget f i = Ok (f !!! i) /\ 0 <= f !!! i < pt.
Proof.
  intros (Hl & Hr & _) Hi. rewrite <- Hl in Hi. split; [by apply vget_Some, list_lookup_lookup_total_lt|].
  by apply (proj1 (Forall_lookup _ _) Hr i), list_lookup_lookup_total_lt.
Qed.

Lemma factors_first (ext : bool) : ((if ext then 1 else 0) < length ts)%nat ->
  returns (s0 ← NativeInt.Mod (q (length ts - 1)%nat) pt;
           let f := <[0%nat := s0]> (repeat 0 (length ts)) in
           if ext then s ← vget (map fst ts) (length ts - 2); s1 ← NativeInt.Mod s pt; vset f 1 s1 else Ok f)
    (factors_upto (if ext then 1 else 0) (1 + if ext then 1 else 0)).
Proof.
  intros Hn. unfold NativeInt.Mod. rewrite umod_pos, bind_Ok by lia. pose proof (mod_range (q (length ts - 1)%nat) pt ltac:(lia)) as Hr.
  assert (Forall (fun x => 0 <= x < pt) (<[0%nat := q (length ts - 1)%nat mod pt]> (repeat 0 (length ts)))) as HF.
  { apply Forall_insert; [|done]. apply Forall_forall. intros x Hx%list_elem_of_In%repeat_spec. lia. }
  assert (length (<[0%nat := q (length ts - 1)%nat mod pt]> (repeat 0 (length ts))) = length ts) as HL by (by rewrite length_insert, repeat_length).
  destruct ext; cbv beta iota zeta.
  - rewrite (vget_map fst ts _ _ (list_lookup_lookup_total_lt ts (length ts - 2) ltac:(lia))), bind_Ok, umod_pos, bind_Ok by lia.
    rewrite vset_lt by (rewrite HL; lia). cbn [returns]. pose proof (mod_range (fst (ts !!! (length ts - 2)%nat)) pt ltac:(lia)).
    split_and!; [by rewrite length_insert | by apply Forall_insert | | intros; lia].
    rewrite list_lookup_total_insert_ne by done. apply list_lookup_total_insert_eq. rewrite repeat_length. lia.
  - cbn [returns]. split_and!; [done | done | | intros; lia]. apply list_lookup_total_insert_eq. rewrite repeat_length. lia.
Qed.

Lemma factors_step e i f : (1 + e <= i)%nat -> (i < length ts)%nat -> factors_upto e i f ->
  returns (prevSF ← vget f (i - 1); s ← vget (map fst ts) (length ts - i); qInv ← NativeInt.ModInverse s pt;
           r ← NativeInt.ModMul prevSF prevSF pt; r ← NativeInt.ModMul r qInv pt; vset f i r) (factors_upto e (S i)).
Proof.
  intros Hei Hi Hf.
  assert (factors_upto e i f) as (Hl & HF & H0 & Hj) by done.
  assert (vget f (i - 1) = Ok (f !!! (i - 1)%nat) /\ 0 <= f !!! (i - 1)%nat < pt) as [-> Hp] by (apply (factors_entry e i f (i - 1)); [done | lia]).
  rewrite bind_Ok, (vget_map fst ts _ _ (list_lookup_lookup_total_lt ts (length ts - i) ltac:(lia))), bind_Ok.
  destruct (modulus_inverse (length ts - i) ltac:(lia)) as (Ei & Hinv & Hri). unfold q in Ei at 1. rewrite Ei, bind_Ok.
  assert (2 ^ (wbits - 1) <= 2 ^ wbits) by (apply Z.pow_le_mono_r; lia). set (x := f !!! (i - 1)%nat) in *.
  pose proof (mod_range (x * x) pt ltac:(lia)). rewrite ModMul_correct, bind_Ok by lia. rewrite ModMul_correct, bind_Ok by lia.
  rewrite vset_lt by (by rewrite Hl). cbn [returns]. pose proof (mod_range ((x * x) mod pt * Z.invmod (q (length ts - i)%nat) pt) pt ltac:(lia)).
  split_and!; [by rewrite length_insert | by apply Forall_insert | rewrite list_lookup_total_insert_ne by lia; done |].
  intros j Hj'. destruct (decide (j = i)) as [-> | Hne].
  - rewrite list_lookup_total_insert_eq, list_lookup_total_insert_ne by (rewrite ?Hl; lia). fold x. rewrite !eqmod_mod.
    transitivity (x * x * (Z.invmod (q (length ts - i)%nat) pt * q (length ts - i)%nat)); [apply eqmod_eq; ring|]. rewrite Hinv. apply eqmod_eq. ring.
  - rewrite !list_lookup_total_insert_ne by lia. apply Hj. lia.
Qed.

Lemma bgv_scaling_factors_ok (ext : bool) : ((if ext then 1 else 0) < length ts)%nat ->
  returns (bgv_scaling_factors ext pt (dparams k om ts))
    (fun '(f, big, qModt) => factors_upto (if ext then 1 else 0) (length ts - if ext then 1 else 0) f /\
       big = map (fun j => (f !!! j * f !!! (if (j =? 0)%nat then if ext then 1%nat else 0%nat else j)) mod pt) (seq 0 (length ts - 1)) /\
       qModt = map (fun t => fst t mod pt) ts).
Proof.
  intros Hn. unfold bgv_scaling_factors. assert (moduli_of (dparams k om ts) = map fst ts) as -> by (unfold moduli_of; cbn; rewrite map_map; done).
  assert (2 ^ (wbits - 1) <= 2 ^ wbits) by (apply Z.pow_le_mono_r; lia).
  rewrite length_map, wrap_small by lia. set (e := if ext then 1%nat else 0%nat) in *. rewrite (proj2 (Nat.leb_gt _ _)) by done.
  rewrite (vget_map fst ts _ _ (list_lookup_lookup_total_lt ts (length ts - 1) ltac:(lia))), bind_Ok.
  pose proof (factors_first ext Hn) as H0. fold e in H0. apply returns_Ok in H0 as (f0 & E0 & H0). fold (q (length ts - 1)%nat).
  destruct (NativeInt.Mod (q (length ts - 1)%nat) pt) as [s0| | |]; try done. rewrite !bind_Ok in *. cbv zeta in *. rewrite E0, bind_Ok.
  eapply returns_bind; [apply (for_range_inv (factors_upto e) (1 + e) (Nat.max (1 + e) (length ts - e))); [lia | done |]|].
  - intros i f Hi Hf. apply factors_step; [lia | lia | done].
  - intros f Hf. rewrite <- (map_id (seq 0 (length ts - 1))) at 1.
    rewrite (vmapM_towers _ _ (fun j => (f !!! j * f !!! (if (j =? 0)%nat then e else j)) mod pt)), bind_Ok.
    + rewrite (vmapM_towers _ fst (fun t => fst t mod pt)), bind_Ok by (intros; apply umod_pos; lia). cbn [returns].
      split; [|done]. destruct Hf as (? & ? & ? & Hj). split_and!; [done | done | done |]. intros j Hj'. apply Hj. lia.
    + intros j [_ Hj]%elem_of_seq. destruct (factors_entry _ _ f j Hf ltac:(lia)) as [-> Hr]. rewrite bind_Ok.
      destruct (factors_entry _ _ f (if (j =? 0)%nat then e else j) Hf ltac:(destruct (j =? 0)%nat; lia)) as [-> Hr']. rewrite bind_Ok.
      apply ModMul_correct; lia.
Qed.

Lemma bgv_qModt_ok technique : (match technique with FLEXIBLEAUTOEXT => 1 | _ => 0 end < length ts)%nat ->
  bgv_qModt technique pt (dparams k om ts)
  = Ok (match technique with FLEXIBLEAUTO | FLEXIBLEAUTOEXT => Some (map (fun t => fst t mod pt) ts) | _ => None end).
Proof.
  intros Hn. unfold bgv_qModt. destruct technique; [done | done | | | done | done].
  - destruct (proj1 (returns_Ok _ _) (bgv_scaling_factors_ok false Hn)) as ([[f big] qs] & -> & _ & _ & ->). done.
  - destruct (proj1 (returns_Ok _ _) (bgv_scaling_factors_ok true Hn)) as ([[f big] qs] & -> & _ & _ & ->). done.
Qed.
End Factors.
End Switching.

(** ** Conversion between bases *)

Lemma moduli_dparams om ts : moduli_of (dparams k om ts) = map fst ts /\ roots_of (dparams k om ts) = map snd ts.
Proof. unfold moduli_of, roots_of. cbn. by rewrite !map_map. Qed.

Section Convert.
Context (ps qs : list (Z * Z)) (Hp : basis U ps) (Hq : basis U qs).
Let P := Qof ps.

Definition pre_hat (p : Z * Z) : Z := precon (hat_inv P (fst p)) (fst p).

Lemma pre_hat_ok p : p ∈ ps -> NativeInt.PrepModMulConst (hat_inv P (fst p)) (fst p) = Ok (pre_hat p).
Proof.
  intros Hin. destruct (tower_modulus p ltac:(by apply Hp)) as (_ & _ & _ & Hw & _).
  apply PrepModMulConst_precon; [apply (hat_inv_ok k U HU ps Hp p Hin) | done].
Qed.

Lemma quotient_fits p : p ∈ ps -> fits (P / fst p) /\ DividedBy (encode P) (encode (fst p)) = Ok (encode (P / fst p)).
Proof.
  intros Hin. destruct (tower_modulus p ltac:(by apply Hp)) as (_ & H4 & _ & _ & _ & _ & Fp).
  pose proof (basis_fits k U HU ps Hp) as FP. pose proof (basis_pos k U HU ps Hp) as PP. fold P in FP, PP.
  pose proof (quotient_mul ps (basis_coprime k U HU ps Hp) p Hin) as E. fold P in E.
  assert (fits (P / fst p)) as F by (eapply fits_mono; [exact FP | split; [apply Z.div_pos; lia | nia]]). split; [done|].
  enc. apply DividedBy_represents; auto with fhe; lia.
Qed.

Lemma hat_entry_ok p : p ∈ ps -> hat_entry (encode P) (fst p) = Ok (hat_inv P (fst p), pre_hat p).
Proof.
  intros Hin. destruct (tower_modulus p ltac:(by apply Hp)) as (_ & H4 & _ & Hw & _ & Ep & Fp).
  destruct (quotient_fits p Hin) as [Fq Eq]. unfold hat_entry. rewrite Ep, Eq, bind_Ok.
  rewrite BigModInverse_invmod, bind_Ok by (done || lia || apply (quotient_coprime ps (basis_coprime k U HU ps Hp) p Hin)).
  fold (hat_inv P (fst p)). pose proof (proj1 (hat_inv_ok k U HU ps Hp p Hin)) as Hr. fold P in Hr.
  rewrite (to_native_ok _ (fst p)), bind_Ok, pre_hat_ok by done. done.
Qed.

Lemma hat_row_ok p : p ∈ ps -> hat_row (encode P) (map fst qs) (fst p) = Ok (map (fun q => (P / fst p) mod fst q) qs).
Proof.
  intros Hin. destruct (tower_modulus p ltac:(by apply Hp)) as (_ & _ & _ & _ & _ & Ep & _).
  destruct (quotient_fits p Hin) as [Fq Eq]. unfold hat_row. rewrite Ep, Eq, bind_Ok. apply vmapM_towers. intros q Hin'.
  destruct (tower_modulus q ltac:(by apply Hq)) as (_ & H4 & _ & Hw & _ & Eq' & Fq'). rewrite Eq'.
  rewrite (encode_Ok (Mod _ _) ((P / fst p) mod fst q)) by (apply Mod_represents; auto with fhe; lia). rewrite bind_Ok.
  apply (to_native_ok _ (fst q)); [apply mod_range; lia | done].
Qed.

Lemma switch_tables_ok : switch_tables (encode P) (map fst ps) (map fst qs)
  = Ok (mkSwitch (map (fun p => (hat_inv P (fst p), pre_hat p)) ps) (quotients ps qs) (mus qs)).
Proof.
  unfold switch_tables. rewrite (vmapM_towers _ fst (fun p => (hat_inv P (fst p), pre_hat p))), bind_Ok by apply hat_entry_ok.
  rewrite (vmapM_towers _ fst (fun p => map (fun q => (P / fst p) mod fst q) qs)), bind_Ok by apply hat_row_ok.
  rewrite (vmapM_towers _ fst (fun q => 2 ^ 128 / fst q)), bind_Ok; [done|]. intros q Hin. apply barrett_mu_ok.
  destruct (tower_modulus q ltac:(by apply Hq)) as (_ & H4 & _ & _ & H64 & _). lia.
Qed.

(** The residue and the inverse of [P] modulo the other moduli. *)
Lemma p_entry_ok q : q ∈ qs -> fst q ∉ map fst ps ->
  p_entry (encode P) (fst q) = Ok (P mod fst q, (Z.invmod P (fst q), precon (Z.invmod P (fst q)) (fst q))).
Proof.
  intros Hin Hn. assert (q ∈ U) as HqU by (by apply Hq). destruct (tower_modulus q HqU) as (_ & H4 & _ & Hw & _ & Eq & Fq).
  pose proof (basis_fits k U HU ps Hp) as FP. fold P in FP. pose proof (product_coprime ps q Hp HqU Hn) as Hg. fold P in Hg.
  unfold p_entry. rewrite Eq. rewrite (encode_Ok (Mod _ _) (P mod fst q)) by (apply Mod_represents; auto with fhe; lia). rewrite bind_Ok.
  rewrite (to_native_ok _ (fst q)), bind_Ok by (done || (apply mod_range; lia)).
  rewrite BigModInverse_invmod, bind_Ok by (done || lia). pose proof (invmod_range P (fst q) ltac:(lia)) as Hr.
  rewrite (to_native_ok _ (fst q)), bind_Ok, PrepModMulConst_precon, bind_Ok by done. done.
Qed.

Lemma special_tables_ok om om' : (forall q, q ∈ qs -> fst q ∉ map fst ps) ->
  special_tables (dparams k om qs) (dparams k om' ps) (encode P)
  = Ok (mkSpecial (map (fun q => P mod fst q) qs) (map (fun q => (Z.invmod P (fst q), precon (Z.invmod P (fst q)) (fst q))) qs)
         (mkSwitch (map (fun p => (hat_inv P (fst p), pre_hat p)) ps) (quotients ps qs) (mus qs))).
Proof.
  intros Hd. unfold special_tables. rewrite (proj1 (moduli_dparams om qs)), (proj1 (moduli_dparams om' ps)).
  rewrite (vmapM_towers _ fst (fun q => (P mod fst q, (Z.invmod P (fst q), precon (Z.invmod P (fst q)) (fst q))))), bind_Ok
    by (intros; apply p_entry_ok; auto).
  rewrite switch_tables_ok, bind_Ok, !map_map. done.
Qed.
End Convert.
End Tables.

(** ** Dividing by several moduli *)

(** [y] is [x] divided by the moduli in turn, each quotient rounded to a nearest integer. *)
Fixpoint rescaled (ms : list Z) (x y : Z) : Prop :=
  match ms with
  | [] => y = x
  | m :: ms => exists z, - m <= 2 * (x - m * z) <= m /\ rescaled ms z y
  end.
Definition rescale_steps (ms : list Z) (x : Z) : Z := fold_left (fun x m => (x - centered m (x mod m)) / m) ms x.

Lemma rescale_steps_ok ms x : Forall (fun m => 0 < m) ms -> rescaled ms x (rescale_steps ms x).
Proof.
  intros H. revert x. induction H as [|m ms Hm _ IH]; intros x; cbn [rescaled]; [done|].
  exists ((x - centered m (x mod m)) / m). split; [by apply rescale_nearest | apply IH].
Qed.

Lemma rescale_steps_snoc ms m X : rescale m (map (rescale_steps ms) X) = map (rescale_steps (ms ++ [m])) X.
Proof. unfold rescale, rescale_steps. rewrite map_map. apply map_ext. intros x. by rewrite fold_left_app. Qed.

(** [m z] is congruent to [x] modulo [t] and within [t m / 2] of it, in turn for every modulus. *)
Fixpoint switched (t : Z) (ms : list Z) (x y : Z) : Prop :=
  match ms with
  | [] => y = x
  | m :: ms => exists z, (m * z ==[t] x /\ - (t * m) <= 2 * (m * z - x) <= t * m) /\ switched t ms z y
  end.
Definition switch_steps (t : Z) (ms : list Z) (x : Z) : Z :=
  fold_left (fun x m => (x + t * correction m (negt t m) x) / m) ms x.

Lemma switch_steps_ok t ms x : 0 < t -> Forall (fun m => 1 < m /\ Z.gcd t m = 1) ms -> switched t ms x (switch_steps t ms x).
Proof.
  intros Ht H. revert x. induction H as [|m ms [Hm Hg] _ IH]; intros x; cbn [switched]; [done|].
  exists ((x + t * correction m (negt t m) x) / m). split; [|apply IH].
  apply mod_reduced_spec; [lia | done | by destruct (negt_ok t m Hm Hg)].
Qed.

Lemma switch_steps_snoc t ms m X : mod_reduced t m (negt t m) (map (switch_steps t ms) X) = map (switch_steps t (ms ++ [m])) X.
Proof. unfold mod_reduced, switch_steps. rewrite map_map. apply map_ext. intros x. by rewrite fold_left_app. Qed.

Section Reduce.
Context `{W : NativeWidth}.
Context (af ai : NativeVectorT -> ILParams -> outcome NativeVectorT).
Context (dist : nat -> Z -> Z) (rfuel : nat) `{HS : UniformSource dist rfuel} (fuel k : nat) (Hfuel : (k + 1 <= fuel)%nat).
Context (U : list (Z * Z)) (HU : moduli_ok k U) (om : ubint) (ts : list (Z * Z)) (Hb : basis U ts).
Abbreviation ready := (ready k U).
Let n := length ts.

(** The moduli that are dropped from a ciphertext with [m] towers, first the last one. *)
Definition dropped (m levels : nat) : list Z := map (fun j => fst (ts !!! (m - 1 - j)%nat)) (seq 0 levels).

Lemma dropped_S m l : dropped m (S l) = dropped m l ++ [fst (ts !!! (m - 1 - l)%nat)].
Proof. unfold dropped. by rewrite seq_S, map_app. Qed.

Lemma dropped_pos m levels : (m <= n)%nat -> (levels <= m)%nat -> Forall (fun q => exists t, t ∈ U /\ q = fst t) (dropped m levels).
Proof.
  intros Hm Hl. apply Forall_map, Forall_forall. intros j [_ Hj]%elem_of_seq. exists (ts !!! (m - 1 - j)%nat).
  split; [|done]. apply (level_modulus U ts Hb). unfold n in Hm. lia.
Qed.

(** The towers before a level is dropped. *)
Lemma level_towers m l : (m <= n)%nat -> (l < m)%nat ->
  take (m - l) ts = take (m - 1 - l) ts ++ [ts !!! (m - 1 - l)%nat] /\ basis U (take (m - 1 - l) ts ++ [ts !!! (m - 1 - l)%nat]).
Proof.
  intros Hm Hl. assert (take (m - l) ts = take (m - 1 - l) ts ++ [ts !!! (m - 1 - l)%nat]) as E.
  { replace (m - l)%nat with (S (m - 1 - l)) by lia. apply take_S_r, list_lookup_lookup_total_lt. unfold n in Hm. lia. }
  split; [done|]. rewrite <- E. by apply (take_basis k U HU).
Qed.

Lemma take_nonempty (l : nat) : (1 <= l <= n)%nat -> take l ts <> [].
Proof. intros Hl E. apply (f_equal length) in E. rewrite length_take in E. unfold n in Hl. simpl in E. lia. Qed.

Section CKKS.
Context {F : Type} (fdiv : F -> F -> F) (factor : Z -> F).

Lemma ckks_level m l Xs st : (m <= n)%nat -> (S l < m)%nat -> Forall (fun X => length X = (2 ^ k)%nat) Xs -> ready st ->
  returns (towers_st (fun c st => DropLastElementAndScale af ai dist rfuel fuel
        (map QlQlInvModqlDivqlModq (row_of ts (m - 1 - l))) (map re_qlInvModq (row_of ts (m - 1 - l))) c st)
      (map (dcrt k om EVALUATION (take (m - l) ts)) (map (fun X => map (rescale_steps (dropped m l)) X) Xs)) st)
    (fun '(cv, st') => cv = map (dcrt k om EVALUATION (take (m - S l) ts)) (map (fun X => map (rescale_steps (dropped m (S l))) X) Xs) /\ ready st').
Proof.
  intros Hm Hl HX Hst. destruct (level_towers m l Hm ltac:(lia)) as [-> Hbl]. replace (m - S l)%nat with (m - 1 - l)%nat by lia.
  destruct (row_constants k U HU ts Hb (m - 1 - l) ltac:(unfold n in Hm; lia)) as (a & b & -> & -> & Ha & Hi).
  rewrite !map_map. apply towers_map_ok; [|done]. intros X st' HXs Hs. rewrite dropped_S, <- rescale_steps_snoc.
  apply (DropLastElementAndScale_dcrt af ai k U HU om _ _ Hbl (take_nonempty (m - 1 - l) ltac:(lia)) dist rfuel fuel Hfuel EVALUATION a b);
    [done | done | | done]. rewrite length_map. by apply (proj1 (Forall_forall _ _) HX).
Qed.

Lemma ckks_ModReduce_ok m levels Xs deg lev sf st : (m <= n)%nat -> (levels < m)%nat -> Xs <> [] ->
  Forall (fun X => length X = (2 ^ k)%nat) Xs -> ready st ->
  returns (tables ← rescale_tables (dparams k om ts);
           ckks_ModReduceInternal af ai dist rfuel fuel fdiv factor n tables levels
             (mkCiphertext (map (dcrt k om EVALUATION (take m ts)) Xs) deg lev sf) st)
    (fun '(ct, st') => m_elements ct = map (dcrt k om EVALUATION (take (m - levels) ts)) (map (fun X => map (rescale_steps (dropped m levels)) X) Xs) /\
       m_noiseScaleDeg ct = u32 (deg - Z.of_nat levels) /\ m_level ct = u32 (lev + Z.of_nat levels) /\ ready st').
Proof.
  intros Hm Hl Hne HX Hst. rewrite (rescale_tables_ok k U HU om ts Hb), bind_Ok by (intros ->; unfold n in Hm; simpl in Hm; lia).
  unfold ckks_ModReduceInternal. cbn [m_elements m_scalingFactor m_noiseScaleDeg m_level].
  destruct Xs as [|X0 Xs0] eqn:EXs; [done|]. rewrite <- EXs in *. assert (vget (map (dcrt k om EVALUATION (take m ts)) Xs) 0 = Ok (dcrt k om EVALUATION (take m ts) X0)) as -> by (by subst Xs).
  rewrite bind_Ok. cbn [dcrt m_vectors]. rewrite length_map, length_take. fold n. replace (m `min` n)%nat with m by lia.
  rewrite (proj2 (Nat.ltb_ge _ _)) by lia.
  eapply returns_bind; [apply (for_range_inv (fun l '(cv, st') =>
    cv = map (dcrt k om EVALUATION (take (m - l) ts)) (map (fun X => map (rescale_steps (dropped m l)) X) Xs) /\ ready st') 0 levels)|].
  - lia.
  - split; [|done]. rewrite Nat.sub_0_r. f_equal. rewrite <- (map_id Xs) at 1. apply map_ext. intros X. by rewrite map_id.
  - intros l [cv st'] Hll [-> Hs]. rewrite (vget_map (fun j => row_of ts (n - 1 - j)) _ _ (n - m + l)%nat) by (by rewrite lookup_seq_lt by (unfold n in *; lia)).
    rewrite bind_Ok. replace (n - 1 - (n - m + l))%nat with (m - 1 - l)%nat by lia. apply ckks_level; [done | lia | done | done].
  - intros [cv st'] [-> Hs]. split_and!; done.
Qed.
End CKKS.

Section BGV.
Context (pt : Z) (Hpt : 0 < pt < 2 ^ wbits) (Hco : forall t, t ∈ ts -> Z.gcd pt (fst t) = 1).

Lemma bgv_level m F l X st : (m <= n)%nat -> (S l < m)%nat -> length X = (2 ^ k)%nat -> ready st ->
  returns (ModReduce af ai dist rfuel fuel pt (negtInvModq (bgv_row ts pt (m - 1 - l))) (bg_qlInvModq (bgv_row ts pt (m - 1 - l)))
      (dcrt k om F (take (m - l) ts) (map (switch_steps pt (dropped m l)) X)) st)
    (fun '(c, st') => c = dcrt k om F (take (m - S l) ts) (map (switch_steps pt (dropped m (S l))) X) /\ ready st').
Proof.
  intros Hm Hl HX Hst. destruct (level_towers m l Hm ltac:(lia)) as [-> Hbl]. replace (m - S l)%nat with (m - 1 - l)%nat by lia.
  assert (m - 1 - l < length ts)%nat as Hi by (unfold n in Hm; lia). set (i := (m - 1 - l)%nat) in *.
  destruct (level_modulus U ts Hb i Hi) as [Hu _]. destruct (tower_modulus k U HU _ Hu) as (_ & H4 & _ & Hw & _).
  destruct (negt_ok pt (fst (ts !!! i))) as [Hn Hinv]; [lia | by apply Hco, (list_elem_of_lookup_2 _ i), list_lookup_lookup_total_lt|].
  rewrite dropped_S, <- switch_steps_snoc. cbn [bgv_row negtInvModq bg_qlInvModq]. fold i.
  apply (ModReduce_dcrt af ai k U HU om _ _ Hbl (take_nonempty i ltac:(lia)) dist rfuel fuel Hfuel pt (negt pt (fst (ts !!! i)))
    (fun t => Z.invmod (fst (ts !!! i)) (fst t))); [lia | lia | done | by apply (bgv_row_inverts k U HU ts Hb) | by rewrite length_map | done].
Qed.

(** The moduli modulo [pt] of the flexible techniques. *)
Definition flexible (technique : ScalingTechnique) : bool :=
  match technique with FLEXIBLEAUTO | FLEXIBLEAUTOEXT => true | _ => false end.
Definition technique_ok (technique : ScalingTechnique) : Prop :=
  (flexible technique = true -> 2 <= pt < 2 ^ (wbits - 1)) /\ (technique = FLEXIBLEAUTOEXT -> (1 < n)%nat).
Definition moduli_table (technique : ScalingTechnique) : option (list Z) :=
  if flexible technique then Some (map (fun t => fst t mod pt) ts) else None.

Lemma qModt_table technique : (0 < n)%nat -> technique_ok technique ->
  bgv_qModt technique pt (dparams k om ts) = Ok (moduli_table technique).
Proof.
  intros Hn [H2 H1]. destruct technique eqn:E; try done; (rewrite (bgv_qModt_ok k om ts pt Hpt Hco (H2 eq_refl)); [done|]).
  - exact Hn.
  - by apply H1.
Qed.

Lemma prod_snoc l x : prod (l ++ [x]) = prod l * x.
Proof. unfold prod. induction l as [|y l IH]; simpl; [ring | rewrite IH; ring]. Qed.

(** Dividing the scaling factor by the dropped moduli. *)
Lemma scaling_factor_ok m levels sf : 2 <= pt < 2 ^ (wbits - 1) -> (m <= n)%nat -> (levels <= m)%nat -> 0 <= sf < 2 ^ wbits ->
  returns (for_range 0 levels (fun i sf =>
      f ← vget (map (fun t => fst t mod pt) ts) (m - 1 - i); inv ← NativeInt.ModInverse f pt; NativeInt.ModMul sf inv pt) sf)
    (fun sf' => sf' * prod (dropped m levels) ==[pt] sf /\ 0 <= sf' < 2 ^ wbits).
Proof.
  intros H2 Hm Hl Hsf. apply (for_range_inv (fun l sf' => sf' * prod (dropped m l) ==[pt] sf /\ 0 <= sf' < 2 ^ wbits)).
  - lia.
  - split; [|done]. apply eqmod_eq. simpl. lia.
  - intros l sf' Hll [He Hr]. pose proof (list_lookup_lookup_total_lt ts (m - 1 - l) ltac:(unfold n in *; lia)) as El.
    rewrite (vget_map _ ts _ _ El), bind_Ok. set (q := fst (ts !!! (m - 1 - l)%nat)).
    assert (Z.gcd (q mod pt) pt = 1) as Hg.
    { rewrite Z.gcd_mod by lia. by apply Hco, (list_elem_of_lookup_2 _ (m - 1 - l)). }
    rewrite ModInverse_invmod, bind_Ok by done. pose proof (invmod_range (q mod pt) pt ltac:(lia)).
    rewrite ModMul_correct by lia. cbn [returns]. pose proof (mod_range (sf' * Z.invmod (q mod pt) pt) pt ltac:(lia)).
    split; [|lia]. rewrite <- He, dropped_S, prod_snoc. fold q. rewrite eqmod_mod. pose proof (Z.invmod_coprime (q mod pt) pt ltac:(lia) Hg) as Ei.
    transitivity (sf' * prod (dropped m l) * (Z.invmod (q mod pt) pt * q)); [apply eqmod_eq; ring|].
    apply (eqmod_1 pt) in Ei; [|lia]. set (qi := Z.invmod (q mod pt) pt) in *. rewrite eqmod_mod in Ei. rewrite Ei. apply eqmod_eq. ring.
Qed.

Lemma bgv_ModReduce_ok technique m F levels Xs deg lev sf st : (m <= n)%nat -> (levels < m)%nat -> technique_ok technique -> 0 <= sf < 2 ^ wbits -> Xs <> [] ->
  Forall (fun X => length X = (2 ^ k)%nat) Xs -> ready st ->
  returns (tables ← bgv_tables pt (dparams k om ts);
           qModt ← bgv_qModt technique pt (dparams k om ts);
           bgv_ModReduceInternal af ai dist rfuel fuel pt tables qModt levels
             (mkCiphertext (map (dcrt k om F (take m ts)) Xs) deg lev sf) st)
    (fun '(ct, st') => m_elements ct = map (dcrt k om F (take (m - levels) ts)) (map (fun X => map (switch_steps pt (dropped m levels)) X) Xs) /\
       m_noiseScaleDeg ct = u32 (deg - Z.of_nat levels) /\ m_level ct = u32 (lev + Z.of_nat levels) /\
       m_scalingFactor ct * (if flexible technique then prod (dropped m levels) else 1) ==[pt] sf /\ ready st').
Proof.
  intros Hm Hl Hte Hsf Hne HX Hst. rewrite (bgv_tables_ok k U HU om ts Hb pt Hpt Hco), bind_Ok, qModt_table, bind_Ok by (done || lia). unfold bgv_ModReduceInternal.
  cbn [m_elements m_scalingFactor m_noiseScaleDeg m_level]. destruct Xs as [|X0 Xs0] eqn:EXs; [done|]. rewrite <- EXs in *.
  assert (vget (map (dcrt k om F (take m ts)) Xs) 0 = Ok (dcrt k om F (take m ts) X0)) as -> by (by subst Xs).
  rewrite bind_Ok. cbn [dcrt m_vectors]. rewrite length_map, length_take. fold n. replace (m `min` n)%nat with m by lia.
  rewrite (proj2 (Nat.ltb_lt _ _)) by done. cbn [negb]. rewrite wrap_small by lia. rewrite map_map.
  eapply returns_bind; [apply (towers_map_ok ready _ (dcrt k om F (take m ts))
    (fun X => dcrt k om F (take (m - levels) ts) (map (switch_steps pt (dropped m levels)) X))); [|done]|].
  - intros X st' HXs Hs. pose proof (proj1 (Forall_forall _ _) HX X HXs) as HlX.
    eapply returns_mono; [apply (for_range_inv (fun l '(c, st') =>
      c = dcrt k om F (take (m - l) ts) (map (switch_steps pt (dropped m l)) X) /\ ready st') 0 levels)|].
    + lia.
    + split; [|done]. rewrite Nat.sub_0_r. f_equal. symmetry. apply map_id.
    + intros l [c st2] Hll [-> Hs2]. rewrite (vget_map (bgv_row ts pt) _ _ (m - 1 - l)%nat) by (by rewrite lookup_seq_lt by (unfold n in *; lia)).
      rewrite bind_Ok. apply bgv_level; [done | lia | done | done].
    + by intros [c st2].
  - intros [cv st'] [-> Hs]. unfold moduli_table. destruct Hte as [H2 _]. destruct (flexible technique).
    + eapply returns_bind; [by apply scaling_factor_ok; [apply H2 | | lia|]|]. intros sf' [He _]. split_and!; done.
    + rewrite bind_Ok. split_and!; try done. apply eqmod_eq. apply Z.mul_1_r.
Qed.
End BGV.
End Reduce.

(** ** Properties *)

Section Properties.
Context `{W : NativeWidth}.
Context (af ai : NativeVectorT -> ILParams -> outcome NativeVectorT).
Context (dist : nat -> Z -> Z) (rfuel : nat) `{HS : UniformSource dist rfuel} (fuel k : nat) (Hfuel : (k + 1 <= fuel)%nat).
Context (U : list (Z * Z)) (HU : moduli_ok k U).
Abbreviation ready := (ready k U).

Lemma Forall2_steps (R : Z -> Z -> Prop) (f : Z -> Z) Xs : (forall x, R x (f x)) ->
  Forall2 (Forall2 R) Xs (map (fun X => map f X) Xs).
Proof. intros H. apply Forall2_map_self. intros X _. apply Forall2_map_self. intros x _. apply H. Qed.

(** [C20] Reducing a CKKS ciphertext by several levels with the tables its parameters
    compute returns, for every element and over the remaining towers, the
    coefficients divided by the dropped moduli one after the other, each quotient
    rounded to a nearest integer; the degree and the level of the ciphertext change
    by the number of levels. The tables may be for more towers than the ciphertext
    has. *)
Theorem ckks_ModReduce_rounds {F} (fdiv : F -> F -> F) (factor : Z -> F) om ts m levels Xs deg lev sf st :
  basis U ts -> (m <= length ts)%nat -> (levels < m)%nat -> Xs <> [] -> Forall (fun X => length X = (2 ^ k)%nat) Xs -> ready st ->
  returns (tables ← rescale_tables (dparams k om ts);
           ckks_ModReduceInternal af ai dist rfuel fuel fdiv factor (length ts) tables levels
             (mkCiphertext (map (dcrt k om EVALUATION (take m ts)) Xs) deg lev sf) st)
    (fun '(ct, st') => exists Ys, m_elements ct = map (dcrt k om EVALUATION (take (m - levels) ts)) Ys /\
       Forall2 (Forall2 (rescaled (dropped ts m levels))) Xs Ys /\
       m_noiseScaleDeg ct = u32 (deg - Z.of_nat levels) /\ m_level ct = u32 (lev + Z.of_nat levels) /\ ready st').
Proof.
  intros Hb Hm Hl Hne HX Hst.
  eapply returns_mono; [by apply (ckks_ModReduce_ok af ai dist rfuel fuel k Hfuel U HU om ts Hb fdiv factor)|].
  intros [ct st'] (-> & -> & -> & H). eexists. split_and!; [done | | done | done | done]. apply Forall2_steps. intros x.
  apply rescale_steps_ok. eapply Forall_impl; [apply (dropped_pos fuel k Hfuel U ts Hb m levels Hm); lia|].
  intros q (t & Ht & ->). destruct (tower_modulus k U HU t Ht) as (_ & H4 & _). lia.
Qed.

(** [C21] Reducing a BGV ciphertext by several levels with the tables its parameters
    compute divides every coefficient by the dropped moduli in turn, where a step
    from x by q gives y with q y congruent to x modulo the plaintext modulus t and
    within t q / 2 of it; with the flexible techniques the new scaling factor times
    the dropped moduli is the old one modulo t, otherwise it does not change. *)
Theorem bgv_ModReduce_divides pt technique om F ts m levels Xs deg lev sf st :
  basis U ts -> 0 < pt < 2 ^ wbits -> (forall t, t ∈ ts -> Z.gcd pt (fst t) = 1) -> technique_ok ts pt technique -> 0 <= sf < 2 ^ wbits ->
  (m <= length ts)%nat -> (levels < m)%nat -> Xs <> [] -> Forall (fun X => length X = (2 ^ k)%nat) Xs -> ready st ->
  returns (tables ← bgv_tables pt (dparams k om ts);
           qModt ← bgv_qModt technique pt (dparams k om ts);
           bgv_ModReduceInternal af ai dist rfuel fuel pt tables qModt levels
             (mkCiphertext (map (dcrt k om F (take m ts)) Xs) deg lev sf) st)
    (fun '(ct, st') => exists Ys, m_elements ct = map (dcrt k om F (take (m - levels) ts)) Ys /\
       Forall2 (Forall2 (switched pt (dropped ts m levels))) Xs Ys /\
       m_noiseScaleDeg ct = u32 (deg - Z.of_nat levels) /\ m_level ct = u32 (lev + Z.of_nat levels) /\
       m_scalingFactor ct * (if flexible technique then prod (dropped ts m levels) else 1) ==[pt] sf /\ ready st').
Proof.
  intros Hb Hpt Hco Hte Hsf Hm Hl Hne HX Hst.
  eapply returns_mono; [by apply (bgv_ModReduce_ok af ai dist rfuel fuel k Hfuel U HU om ts Hb pt Hpt Hco)|].
  intros [ct st'] (-> & -> & -> & H). eexists. split_and!; [done | | done | done | apply H | apply H]. apply Forall2_steps. intros x.
  apply switch_steps_ok; [lia|]. apply Forall_map, Forall_forall. intros j [_ Hj]%elem_of_seq.
  pose proof (list_lookup_lookup_total_lt ts (m - 1 - j) ltac:(lia)) as E. apply list_elem_of_lookup_2 in E.
  destruct (tower_modulus k U HU (ts !!! (m - 1 - j)%nat)) as (_ & H4 & _); [by apply Hb|]. split; [lia | by apply Hco].
Qed.
End Properties.

(** Two levels of a ciphertext over 17, 41 and 73. *)
Lemma ckks_ModReduce_rounds_witness :
  returns (tables ← @rescale_tables W64 (dparams 2 om0 moduli4);
           @ckks_ModReduceInternal W64 no_arb no_arb counting_source 1 10 Z Z.div (fun _ => 1) 3 tables 2
             (mkCiphertext (map (dcrt 2 om0 EVALUATION (take 3 moduli4)) [[1; 2; 3; 50000]; [7; 7; 7; 20000]]) 3 0 1) fresh)
    (fun '(ct, _) => exists Ys, m_elements ct = map (dcrt 2 om0 EVALUATION [(17, 2)]) Ys /\
       Forall2 (Forall2 (rescaled [73; 41])) [[1; 2; 3; 50000]; [7; 7; 7; 20000]] Ys /\ m_noiseScaleDeg ct = 1 /\ m_level ct = 2).
Proof.
  eapply returns_mono; [apply (ckks_ModReduce_rounds (W := W64) no_arb no_arb counting_source 1 10 2 ltac:(lia) moduli4 moduli4_ok
    Z.div (fun _ => 1) om0 moduli4 3 2 [[1; 2; 3; 50000]; [7; 7; 7; 20000]] 3 0 1 fresh);
    [apply basis4; by vm_compute | done | lia | done | by repeat constructor | apply fresh_ready]|].
  intros [ct st] (Ys & H1 & H2 & H3 & H4 & _). exists Ys. split_and!; [exact H1 | exact H2 | by rewrite H3 | by rewrite H4].
Defined.

Lemma bgv_ModReduce_divides_witness :
  returns (tables ← @bgv_tables W64 5 (dparams 2 om0 moduli4);
           qModt ← @bgv_qModt W64 FLEXIBLEAUTO 5 (dparams 2 om0 moduli4);
           @bgv_ModReduceInternal W64 no_arb no_arb counting_source 1 10 5 tables qModt 2
             (mkCiphertext (map (dcrt 2 om0 EVALUATION (take 3 moduli4)) [[1; 2; 3; 50000]; [7; 7; 7; 20000]]) 3 0 2) fresh)
    (fun '(ct, _) => exists Ys, m_elements ct = map (dcrt 2 om0 EVALUATION [(17, 2)]) Ys /\
       Forall2 (Forall2 (switched 5 [73; 41])) [[1; 2; 3; 50000]; [7; 7; 7; 20000]] Ys /\
       m_scalingFactor ct * (73 * (41 * 1)) ==[5] 2).
Proof.
  eapply returns_mono; [apply (bgv_ModReduce_divides (W := W64) no_arb no_arb counting_source 1 10 2 ltac:(lia) moduli4 moduli4_ok
    5 FLEXIBLEAUTO om0 EVALUATION moduli4 3 2 [[1; 2; 3; 50000]; [7; 7; 7; 20000]] 3 0 2 fresh);
    [apply basis4; by vm_compute | done | members | by split | done | done | lia | done | by repeat constructor | apply fresh_ready]|].
  intros [ct st] (Ys & H1 & H2 & _ & _ & H3 & _). exists Ys. split_and!; [exact H1 | exact H2 | exact H3].
Defined.
