(* ===== verification/KeySwitch.v ===== *)
(** * Hybrid key switching

    The class [KeySwitchHYBRID] of pke/lib/keyswitch/keyswitch-hybrid.cpp, and the tables of
    the partitions of [Q] that [CryptoParametersRNS::PrecomputeCRTTables] of
    pke/lib/schemerns/rns-cryptoparameters.cpp computes for it. The moduli of [Q] are split
    into parts; an element is split into one digit for every part, each digit is extended to
    all moduli of [Q P] and multiplied by its part of the key, and the sum is divided by [P]. *)
From Stdlib Require Import ZArith Lia.
From stdpp Require Import base numbers list.
From S2P Require Import Prelude Bits NativeInt NativeVector Ntt NbTheory BigInt BigDiv BigNtt Poly Dcrt DcrtBasis Rns.
Open Scope Z_scope.

(** [ceil(static_cast<double>(a) / b)] stored in an unsigned integer. For operands below [2 ^ 32]
    the rounding of the quotient does not reach the integer below or above it, so that this is the
    ceiling of the rational number; a quotient by zero is infinite and cannot be converted. *)
Definition ceil_div (a b : nat) : outcome nat := if (b =? 0)%nat then UB else Ok ((a + b - 1) / b)%nat.

Section Tables.
Context `{W : NativeWidth}.
Context (dist : nat -> Z -> Z) (rfuel fuel : nat).

(** ** Partitions of the moduli *)

(** The towers per part; every part has to get at least one tower. *)
Definition towers_per_part (sizeQ numPartQ : nat) : outcome nat :=
  a ← ceil_div sizeQ numPartQ;
  if (sizeQ <=? a * (numPartQ - 1))%nat then Throw config_error else Ok a.

(** The parameters of the parts of [Q]. *)
Definition part_params (paramsQ : ILDCRTParams) (a numPartQ : nat) (st : rstate) : outcome (list ILDCRTParams * rstate) :=
  let sizeQ := length (d_parms paramsQ) in
  towers_st (fun j st =>
      let startTower := (j * a)%nat in
      let endTower := if ((j + 1) * a - 1 <? sizeQ)%nat then ((j + 1) * a - 1)%nat else (sizeQ - 1)%nat in
      params ← GetParamPartition paramsQ startTower endTower;
      p0 ← vget params 0;
      DCRTParams_lists dist rfuel fuel (cyclotomicOrder p0) (map ciphertextModulus params) (map rootOfUnity params)
        [] [] (ubint_int 0) st) (seq 0 numPartQ) st.

(** The parameters of both bases together. *)
Definition params_QP (n : Z) (paramsQ paramsP : ILDCRTParams) (st : rstate) : outcome (ILDCRTParams * rstate) :=
  DCRTParams_lists dist rfuel fuel (u32 (2 * n)) (moduli_of paramsQ ++ moduli_of paramsP) (roots_of paramsQ ++ roots_of paramsP)
    [] [] (ubint_int 0) st.

(** The number of towers of part [j] among the first [l + 1] towers of [Q], which reach [beta] parts. *)
Definition part_size (paramsPartQ : list ILDCRTParams) (alpha l beta j : nat) : outcome nat :=
  p ← vget paramsPartQ j;
  Ok (if (j =? beta - 1)%nat then (l + 1 - j * alpha)%nat else length (d_parms p)).

(** Tower [i] of the basis that part [j] is extended by: the other parts, then [P]. *)
Definition compl_tower (paramsPartQ : list ILDCRTParams) (paramsP : ILDCRTParams) (alpha rest j i : nat) : outcome ILParams :=
  if (i <? rest)%nat then
    if (alpha =? 0)%nat then UB
    else
      let currDigit := (if (j <=? i / alpha)%nat then i / alpha + 1 else i / alpha)%nat in
      p ← vget paramsPartQ currDigit;
      vget (d_parms p) (i mod alpha)
  else vget (d_parms paramsP) (i - rest).

(** The basis itself with its constants for the 128-bit reduction. *)
Definition compl_params (paramsPartQ : list ILDCRTParams) (paramsP : ILDCRTParams) (alpha l beta j : nat) (st : rstate)
    : outcome ((ILDCRTParams * list Z) * rstate) :=
  digitPartition ← vget paramsPartQ j;
  sizePartQj ← part_size paramsPartQ alpha l beta j;
  _ ← (if (l + 1 <? sizePartQj)%nat then UB else Ok tt);
  let rest := (l + 1 - sizePartQj)%nat in
  towers ← vmapM (compl_tower paramsPartQ paramsP alpha rest j) (seq 0 (rest + length (d_parms paramsP)));
  '(params, st) ← DCRTParams_lists dist rfuel fuel (d_cyclotomicOrder digitPartition) (map ciphertextModulus towers)
                    (map rootOfUnity towers) [] [] (ubint_int 0) st;
  mu ← vmapM barrett_mu (map ciphertextModulus towers);
  Ok ((params, mu), st).

(** For every number of towers, the inverses of [M / m_i] modulo [m_i] with their quotients;
    the modulus loses its last factor from one row to the row before it. *)
Definition level_hats (modulus : ubint) (moduli : list Z) : outcome (list (list (Z * Z))) :=
  let size := length moduli in
  '(_, rows) ← for_range 0 size (fun l '(m, rows) =>
      m ← (if (0 <? l)%nat then q ← vget moduli (size - l); DividedBy m (ubint_int q) else Ok m);
      row ← vmapM (hat_entry m) (take (size - l) moduli);
      Ok (m, row :: rows)) (modulus, []);
  Ok rows.

(** The quotients of part [k] modulo the basis it is extended by. *)
Definition part_quotients (paramsPartQ : list ILDCRTParams) (alpha l beta k : nat) (compl : ILDCRTParams)
    : outcome (list (list Z)) :=
  p ← vget paramsPartQ k;
  let moduli := moduli_of p in
  digitSize ← part_size paramsPartQ alpha l beta k;
  partQ ← (if (k =? beta - 1)%nat
           then for_range digitSize (Nat.max digitSize (length moduli)) (fun i partQ =>
                  q ← vget moduli i; DividedBy partQ (ubint_int q)) (d_ciphertextModulus p)
           else Ok (d_ciphertextModulus p));
  vmapM (fun i => q ← vget moduli i; hat_row partQ (moduli_of compl) q) (seq 0 digitSize).

(** What key switching uses of the parameters of a scheme. The entries for a number of towers
    are at the index one below it. *)
Record HybridTables := mkHybrid {
  h_paramsQ : ILDCRTParams;
  h_paramsP : ILDCRTParams;
  h_paramsQP : ILDCRTParams;
  m_numPartQ : nat;
  m_numPerPartQ : nat;
  m_paramsPartQ : list ILDCRTParams;
  m_QlHatInvModq : list (list (Z * Z));
  m_paramsComplPartQ : list (list (ILDCRTParams * list Z));
  m_PartQlHatInvModq : list (list (list (Z * Z)));
  m_PartQlHatModp : list (list (list (list Z)));
  m_special : SpecialTables
}.

(** The tables, for special primes that have been found. The complementary bases are built from the
    last number of towers to the first. *)
Definition hybrid_tables (numPartQ : nat) (paramsQ paramsP : ILDCRTParams) (modulusP : ubint) (st : rstate)
    : outcome (HybridTables * rstate) :=
  let sizeQ := length (d_parms paramsQ) in
  a ← towers_per_part sizeQ numPartQ;
  '(paramsPartQ, st) ← part_params paramsQ a numPartQ st;
  '(paramsQP, st) ← params_QP (d_ringDimension paramsQ) paramsQ paramsP st;
  special ← special_tables paramsQ paramsP modulusP;
  QlHatInvModq ← level_hats (d_ciphertextModulus paramsQ) (moduli_of paramsQ);
  alpha ← ceil_div sizeQ numPartQ;
  '(compl, st) ← towers_st (fun k st =>
      let l := (sizeQ - 1 - k)%nat in
      beta ← ceil_div (l + 1) alpha;
      towers_st (compl_params paramsPartQ paramsP alpha l beta) (seq 0 beta) st) (seq 0 sizeQ) st;
  let compl := rev compl in
  PartQlHatInvModq ← vmapM (fun p => level_hats (d_ciphertextModulus p) (moduli_of p)) paramsPartQ;
  PartQlHatModp ← vmapM (fun l =>
      beta ← ceil_div (l + 1) alpha;
      row ← vget compl l;
      vmapM (fun k => c ← vget row k; part_quotients paramsPartQ alpha l beta k (fst c)) (seq 0 beta)) (seq 0 sizeQ);
  Ok (mkHybrid paramsQ paramsP paramsQP numPartQ a paramsPartQ QlHatInvModq compl PartQlHatInvModq PartQlHatModp special, st).
End Tables.

(** ** Keys *)

(** The vectors of [EvalKeyRelinImpl]. *)
Record EvalKey := mkEvalKey { AVector : list DCRTPoly; BVector : list DCRTPoly }.

Section KeySwitching.
Context `{W : NativeWidth}.
Context (arb_forward arb_inverse : NativeVectorT -> ILParams -> outcome NativeVectorT).
Context (dist : nat -> Z -> Z) (rfuel fuel : nat).
Abbreviation SetFormat := (Dcrt.SetFormat arb_forward arb_inverse).

Section Key.
Context (tables : HybridTables).
(** The noise scale, and the comparison of the standard deviation of the errors with a modulus. *)
Context (ns : Z) (std_above : Z -> bool).
Let sizeQ := length (d_parms (h_paramsQ tables)).
Let sizeQP := length (d_parms (h_paramsQP tables)).

(** The new secret over all moduli: its first tower, in centered representatives, gives the towers of [P]. *)
Definition extend_secret (sNew : DCRTPoly) (st : rstate) : outcome (DCRTPoly * rstate) :=
  '(sNew, st) ← SetFormat COEFFICIENT sNew st;
  sNewExt ← DCRTPoly_new (h_paramsQP tables) COEFFICIENT true;
  sNewExt ← for_range 0 sizeQ (fun i d => e ← GetElementAtIndex sNew i; SetElementAtIndex d i e) sNewExt;
  '(sNewExt, st) ← for_range sizeQ sizeQP (fun j '(d, st) =>
      pj ← vget (d_parms (h_paramsQP tables)) j;
      sNew0 ← GetElementAtIndex sNew 0;
      '(sNew0, st) ← tower_SwitchModulus dist rfuel fuel (ciphertextModulus pj) (rootOfUnity pj) sNew0 st;
      d ← SetElementAtIndex d j sNew0;
      Ok (d, st)) (sNewExt, st);
  SetFormat EVALUATION sNewExt st.

(** [ns * e] is the product with a signed integer. *)
Definition noise_term (e : PolyImpl) : outcome PolyImpl := Times_signed e (to_signed (wrap ns)).
Definition in_part (part i : nat) : bool :=
  let startPartIdx := (m_numPerPartQ tables * part)%nat in
  let endPartIdx := if (startPartIdx + m_numPerPartQ tables <? sizeQ)%nat then (startPartIdx + m_numPerPartQ tables)%nat else sizeQ in
  negb ((i <? startPartIdx)%nat || (endPartIdx <=? i)%nat).

(** One tower of [b = - a * s + P * sOld + ns * e], where the multiple of [P] is for the part only. *)
Definition key_tower (sOld sNewExt a e : DCRTPoly) (part i : nat) : outcome PolyImpl :=
  ai ← GetElementAtIndex a i;
  ei ← GetElementAtIndex e i;
  sNewi ← GetElementAtIndex sNewExt i;
  nai ← neg_poly ai;
  x ← Poly.Times nai sNewi;
  if negb (in_part part i) then
    ne ← noise_term ei;
    Poly.Plus x ne
  else
    sOldi ← GetElementAtIndex sOld i;
    c ← vget (PModq (m_special tables)) i;
    y ← Times_scalar sOldi c;
    xy ← Poly.Plus x y;
    ne ← noise_term ei;
    Poly.Plus xy ne.
Definition key_part (sOld sNewExt : DCRTPoly) (prev : option (list DCRTPoly)) (draws : list (list NativeVectorT))
    (errors : list (list Z)) (part : nat) (st : rstate) : outcome ((DCRTPoly * DCRTPoly) * rstate) :=
  '(a, st) ← (match prev with
              | None => vs ← vget draws part; DCRTPoly_uniform arb_forward arb_inverse vs (h_paramsQP tables) EVALUATION st
              | Some av => a ← vget av part; Ok (a, st)
              end);
  es ← vget errors part;
  '(e, st) ← DCRTPoly_gaussian arb_forward arb_inverse std_above es (h_paramsQP tables) EVALUATION st;
  b ← DCRTPoly_new (h_paramsQP tables) EVALUATION true;
  b ← for_range 0 sizeQP (fun i b => v ← key_tower sOld sNewExt a e part i; SetElementAtIndex b i v) b;
  Ok ((a, b), st).

(** [KeySwitchGen]: the masks are those of another key, or [draws]; [errors] are the Gaussian samples. *)
Definition KeySwitchGen (sOld sNew : DCRTPoly) (prev : option (list DCRTPoly)) (draws : list (list NativeVectorT))
    (errors : list (list Z)) (st : rstate) : outcome (EvalKey * rstate) :=
  '(sNewExt, st) ← extend_secret sNew st;
  '(ab, st) ← towers_st (key_part sOld sNewExt prev draws errors) (seq 0 (m_numPartQ tables)) st;
  Ok (mkEvalKey (map fst ab) (map snd ab), st).

(** [KeySwitchGen] for a public key [newp0], [newp1]: [u] is Gaussian or ternary. *)
Definition public_part (gaussian_secret : bool) (sOld newp0 newp1 : DCRTPoly) (us e0s e1s : list (list Z)) (part : nat)
    (st : rstate) : outcome ((DCRTPoly * DCRTPoly) * rstate) :=
  uv ← vget us part;
  '(u, st) ← (if gaussian_secret then DCRTPoly_gaussian arb_forward arb_inverse std_above uv (h_paramsQP tables) EVALUATION st
              else DCRTPoly_ternary arb_forward arb_inverse uv (h_paramsQP tables) EVALUATION st);
  e0v ← vget e0s part;
  '(e0, st) ← DCRTPoly_gaussian arb_forward arb_inverse std_above e0v (h_paramsQP tables) EVALUATION st;
  e1v ← vget e1s part;
  '(e1, st) ← DCRTPoly_gaussian arb_forward arb_inverse std_above e1v (h_paramsQP tables) EVALUATION st;
  a ← DCRTPoly_new (h_paramsQP tables) EVALUATION true;
  b ← DCRTPoly_new (h_paramsQP tables) EVALUATION true;
  '(a, b) ← for_range 0 sizeQP (fun i '(a, b) =>
      e0i ← GetElementAtIndex e0 i;
      e1i ← GetElementAtIndex e1 i;
      ui ← GetElementAtIndex u i;
      newp0i ← GetElementAtIndex newp0 i;
      newp1i ← GetElementAtIndex newp1 i;
      x ← Poly.Times newp1i ui;
      ne ← noise_term e1i;
      ai ← Poly.Plus x ne;
      a ← SetElementAtIndex a i ai;
      y ← Poly.Times newp0i ui;
      ne ← noise_term e0i;
      bi ← Poly.Plus y ne;
      bi ← (if negb (in_part part i) then Ok bi
            else sOldi ← GetElementAtIndex sOld i;
                 c ← vget (PModq (m_special tables)) i;
                 z ← Times_scalar sOldi c;
                 Poly.Plus bi z);
      b ← SetElementAtIndex b i bi;
      Ok (a, b)) (a, b);
  Ok ((a, b), st).
Definition KeySwitchGen_public (gaussian_secret : bool) (sOld newp0 newp1 : DCRTPoly) (us e0s e1s : list (list Z)) (st : rstate)
    : outcome (EvalKey * rstate) :=
  '(ab, st) ← towers_st (public_part gaussian_secret sOld newp0 newp1 us e0s e1s) (seq 0 (m_numPartQ tables)) st;
  Ok (mkEvalKey (map fst ab) (map snd ab), st).
End Key.

(** ** Switching *)

Section Switch.
Context (tables : HybridTables).

(** The towers of part [part] of an element; the last part may be shorter. *)
Definition digit_part (c : DCRTPoly) (sizeQl numPartQl part : nat) (st : rstate) : outcome (DCRTPoly * rstate) :=
  let alpha := m_numPerPartQ tables in
  paramsPartQ ← vget (m_paramsPartQ tables) part;
  '(d, st) ← (if (part =? numPartQl - 1)%nat then
                if (sizeQl <? alpha * part)%nat then UB
                else
                  ps ← vmapM (vget (d_parms paramsPartQ)) (seq 0 (sizeQl - alpha * part));
                  '(params, st) ← DCRTParams_lists dist rfuel fuel (d_cyclotomicOrder paramsPartQ) (map ciphertextModulus ps)
                                    (map rootOfUnity ps) [] [] (ubint_int 0) st;
                  d ← DCRTPoly_new params EVALUATION true;
                  Ok (d, st)
              else d ← DCRTPoly_new paramsPartQ EVALUATION true; Ok (d, st));
  d ← for_range 0 (length (m_vectors d)) (fun i d => e ← GetElementAtIndex c (alpha * part + i); SetElementAtIndex d i e) d;
  Ok (d, st).

(** The getters of two tables check the indices. *)
Definition GetPartQlHatInvModq (part sublvl : nat) : outcome (list (Z * Z)) :=
  match m_PartQlHatInvModq tables !! part with
  | Some rows => match rows !! sublvl with Some row => Ok row | None => Throw math_error end
  | None => Throw math_error
  end.
Definition GetPartQlHatModp (lvl part : nat) : outcome (list (list Z)) :=
  match m_PartQlHatModp tables !! lvl with
  | Some rows => match rows !! part with Some row => Ok row | None => Throw math_error end
  | None => Throw math_error
  end.

(** A digit over all moduli: its own towers in their place, the others converted. *)
Definition extend_digit (paramsQlP : ILDCRTParams) (sizeQl sizeQlP : nat) (partCt : DCRTPoly) (part : nat) (st : rstate)
    : outcome (DCRTPoly * rstate) :=
  '(partCtClone, st) ← SetFormat COEFFICIENT partCt st;
  let sizePartQl := length (m_vectors partCt) in
  paramsPartQ ← vget (m_paramsPartQ tables) part;
  compls ← vget (m_paramsComplPartQ tables) (sizeQl - 1);
  '(compl, mu) ← vget compls part;
  hats ← GetPartQlHatInvModq part (sizePartQl - 1);
  quotients ← GetPartQlHatModp (sizeQl - 1) part;
  partCtCompl ← ApproxSwitchCRTBasis_128 paramsPartQ compl (map fst hats) (map snd hats) quotients mu partCtClone;
  '(partCtCompl, st) ← SetFormat EVALUATION partCtCompl st;
  d ← DCRTPoly_new paramsQlP EVALUATION true;
  let startPartIdx := (m_numPerPartQ tables * part)%nat in
  let endPartIdx := (startPartIdx + sizePartQl)%nat in
  d ← for_range 0 startPartIdx (fun i d => e ← GetElementAtIndex partCtCompl i; SetElementAtIndex d i e) d;
  d ← for_range startPartIdx endPartIdx (fun i d => e ← GetElementAtIndex partCt (i - startPartIdx); SetElementAtIndex d i e) d;
  d ← for_range endPartIdx (Nat.max endPartIdx sizeQlP) (fun i d => e ← GetElementAtIndex partCtCompl (i - sizePartQl); SetElementAtIndex d i e) d;
  Ok (d, st).

Definition EvalKeySwitchPrecomputeCore (c : DCRTPoly) (st : rstate) : outcome (list DCRTPoly * rstate) :=
  '(paramsQlP, st) ← GetExtendedCRTBasis dist rfuel fuel c (h_paramsP tables) st;
  let sizeQl := length (d_parms (Dcrt.m_params c)) in
  let sizeQlP := (sizeQl + length (d_parms (h_paramsP tables)))%nat in
  numPartQl ← ceil_div sizeQl (m_numPerPartQ tables);
  let numPartQl := Nat.min numPartQl (length (m_paramsPartQ tables)) in
  '(partsCt, st) ← towers_st (digit_part c sizeQl numPartQl) (seq 0 numPartQl) st;
  towers_st (fun part st => partCt ← vget partsCt part; extend_digit paramsQlP sizeQl sizeQlP partCt part st) (seq 0 numPartQl) st.

(** One product added to a tower of both sums; [idx] is the tower of the key. *)
Definition accumulate_tower (cj bj aj : DCRTPoly) (i idx : nat) (sums : DCRTPoly * DCRTPoly) : outcome (DCRTPoly * DCRTPoly) :=
  let '(cTilda0, cTilda1) := sums in
  cji ← GetElementAtIndex cj i;
  aji ← GetElementAtIndex aj idx;
  bji ← GetElementAtIndex bj idx;
  x ← GetElementAtIndex cTilda0 i;
  p ← Poly.Times cji bji;
  x ← Poly.Plus x p;
  cTilda0 ← SetElementAtIndex cTilda0 i x;
  y ← GetElementAtIndex cTilda1 i;
  p ← Poly.Times cji aji;
  y ← Poly.Plus y p;
  cTilda1 ← SetElementAtIndex cTilda1 i y;
  Ok (cTilda0, cTilda1).
Definition EvalFastKeySwitchCoreExt (digits : list DCRTPoly) (evalKey : EvalKey) (paramsQl : ILDCRTParams)
    : outcome (DCRTPoly * DCRTPoly) :=
  d0 ← vget digits 0;
  let paramsQlP := Dcrt.m_params d0 in
  let sizeQl := length (d_parms paramsQl) in
  let sizeQlP := length (d_parms paramsQlP) in
  let sizeQ := length (d_parms (h_paramsQ tables)) in
  cTilda0 ← DCRTPoly_new paramsQlP EVALUATION true;
  cTilda1 ← DCRTPoly_new paramsQlP EVALUATION true;
  for_range 0 (length digits) (fun j sums =>
    cj ← vget digits j;
    bj ← vget (BVector evalKey) j;
    aj ← vget (AVector evalKey) j;
    sums ← for_range 0 sizeQl (fun i sums => accumulate_tower cj bj aj i i sums) sums;
    for_range sizeQl (Nat.max sizeQl sizeQlP) (fun i sums => accumulate_tower cj bj aj i (sizeQ + (i - sizeQl)) sums) sums)
    (cTilda0, cTilda1).

(** The division by [P] with the tables of the parameters; [t] is the plaintext modulus when the noise
    is a multiple of it. [tInvModp] are the inverses of the plaintext modulus. *)
Definition mod_down_with (ns plaintextModulus : Z) (tInvModp : list Z) (paramsQl : ILDCRTParams) (c : DCRTPoly) (st : rstate)
    : outcome (DCRTPoly * rstate) :=
  let t := if ns =? 1 then 0 else plaintextModulus in
  let sp := m_special tables in
  ApproxModDown arb_forward arb_inverse
    (switch_128 (h_paramsP tables) paramsQl (map fst (HatInv (toQ sp))) (map snd (HatInv (toQ sp))) (HatMod (toQ sp)) (BarrettMu (toQ sp)))
    paramsQl (h_paramsP tables) (map fst (PInvModq sp)) tInvModp t c st.
Section Down.
Context (ns plaintextModulus : Z) (tInvModp : list Z).
Definition EvalFastKeySwitchCore (digits : list DCRTPoly) (evalKey : EvalKey) (paramsQl : ILDCRTParams) (st : rstate)
    : outcome ((DCRTPoly * DCRTPoly) * rstate) :=
  '(cTilda0, cTilda1) ← EvalFastKeySwitchCoreExt digits evalKey paramsQl;
  '(ct0, st) ← mod_down_with ns plaintextModulus tInvModp paramsQl cTilda0 st;
  '(ct1, st) ← mod_down_with ns plaintextModulus tInvModp paramsQl cTilda1 st;
  Ok ((ct0, ct1), st).
Definition KeySwitchCore (a : DCRTPoly) (evalKey : EvalKey) (st : rstate) : outcome ((DCRTPoly * DCRTPoly) * rstate) :=
  '(digits, st) ← EvalKeySwitchPrecomputeCore a st;
  EvalFastKeySwitchCore digits evalKey (Dcrt.m_params a) st.

(** [KeySwitchInPlace] on the elements of a ciphertext: the last of two elements is replaced, the
    third of three or more is removed. *)
Definition KeySwitchInPlace (cv : list DCRTPoly) (ek : EvalKey) (st : rstate) : outcome (list DCRTPoly * rstate) :=
  c ← (if (length cv =? 2)%nat then vget cv 1 else vget cv 2);
  '((ba0, ba1), st) ← KeySwitchCore c ek st;
  cv0 ← vget cv 0;
  '(cv0, st) ← SetFormat (m_format ba0) cv0 st;
  cv0 ← Dcrt.PlusEq cv0 ba0;
  cv1 ← vget cv 1;
  '(cv1, st) ← SetFormat (m_format ba1) cv1 st;
  cv1 ← (if (2 <? length cv)%nat then Dcrt.PlusEq cv1 ba1 else Ok ba1);
  Ok ([cv0; cv1], st).

(** [KeySwitchExt]: the elements times [P] over the extended basis. *)
Definition KeySwitchExt (addFirst : bool) (cv : list DCRTPoly) (st : rstate) : outcome (list DCRTPoly * rstate) :=
  c0 ← vget cv 0;
  '(paramsQlP, st) ← GetExtendedCRTBasis dist rfuel fuel c0 (h_paramsP tables) st;
  let sizeQl := length (d_parms (Dcrt.m_params c0)) in
  rs ← vmapM (fun k =>
      c ← vget cv k;
      d ← DCRTPoly_new paramsQlP EVALUATION true;
      if addFirst || (0 <? k)%nat then
        cMult ← TimesNoCheck c (PModq (m_special tables));
        for_range 0 sizeQl (fun i d => e ← GetElementAtIndex cMult i; SetElementAtIndex d i e) d
      else Ok d) (seq 0 (length cv));
  Ok (rs, st).

(** The parameters of [Q_l] from those of [Q_l P]. *)
Definition params_Ql (paramsQlP : ILDCRTParams) (st : rstate) : outcome (ILDCRTParams * rstate) :=
  let sizeP := length (d_parms (h_paramsP tables)) in
  _ ← (if (length (d_parms paramsQlP) <? sizeP)%nat then UB else Ok tt);
  let sizeQl := (length (d_parms paramsQlP) - sizeP)%nat in
  DCRTParams_lists dist rfuel fuel (u32 (2 * d_ringDimension paramsQlP)) (take sizeQl (moduli_of paramsQlP))
    (take sizeQl (roots_of paramsQlP)) [] [] (ubint_int 0) st.
Definition KeySwitchDown (cTilda : list DCRTPoly) (st : rstate) : outcome (list DCRTPoly * rstate) :=
  c0 ← vget cTilda 0;
  '(paramsQl, st) ← params_Ql (Dcrt.m_params c0) st;
  '(ct0, st) ← mod_down_with ns plaintextModulus tInvModp paramsQl c0 st;
  c1 ← vget cTilda 1;
  '(ct1, st) ← mod_down_with ns plaintextModulus tInvModp paramsQl c1 st;
  Ok ([ct0; ct1], st).
Definition KeySwitchDownFirstElement (cTilda : list DCRTPoly) (st : rstate) : outcome (DCRTPoly * rstate) :=
  c0 ← vget cTilda 0;
  '(paramsQl, st) ← params_Ql (Dcrt.m_params c0) st;
  mod_down_with ns plaintextModulus tInvModp paramsQl c0 st.
End Down.
End Switch.
End KeySwitching.
