(* ===== verification/KeyTables.v ===== *)
(** * Hybrid key switching: tables and digits

    What the tables of [hybrid_tables] hold, for every number of towers: the parts of the
    moduli, the basis that every part is extended by, the constants of the conversions. With
    them [EvalKeySwitchPrecomputeCore] splits an element over the first towers of [Q] into
    digits, one for every part of the towers, and extends each to all towers and those of [P]. *)
From Stdlib Require Import ZArith Znumtheory Zcong Lia.
From stdpp Require Import base numbers list sets.
From S2P Require Import Prelude Bits NativeInt NativeIntProps NativeVector Ntt NttProps FttProps NbTheory NbTheoryProps BigInt BigDiv BigIntProps BigModProps BigRefine BigVectorProps BigNtt BigFttProps Poly PolyProps PolyAlg RgswRing Dcrt DcrtTowers Crt DcrtProps DcrtInterp DcrtScale DcrtBasis Rns RnsProps KeySwitch.
Open Scope Z_scope.

(** ** Parts of a list *)

Definition part {A} (a j : nat) (l : list A) : list A := take a (drop (a * j) l).
Definition others {A} (a j : nat) (l : list A) : list A := take (a * j) l ++ drop (a * (j + 1)) l.

Lemma part_split {A} a j (l : list A) : l = take (a * j) l ++ part a j l ++ drop (a * (j + 1)) l.
Proof.
  unfold part. replace (a * (j + 1))%nat with (a * j + a)%nat by lia. by rewrite <- drop_drop, !take_drop.
Qed.

Lemma part_length {A} a j (l : list A) : length (part a j l) = Nat.min a (length l - a * j).
Proof. unfold part. by rewrite length_take, length_drop. Qed.

Lemma part_lookup {A} a j (l : list A) i : (i < a)%nat -> part a j l !! i = l !! (a * j + i)%nat.
Proof. intros Hi. unfold part. rewrite lookup_take_lt by done. apply lookup_drop. Qed.

Lemma elem_of_part {A} a j (l : list A) x : x ∈ part a j l -> x ∈ l.
Proof. intros H. rewrite (part_split a j l). set_solver. Qed.

(** Every position of a list is in one part. *)
Lemma part_of_index {A} a (l : list A) i x : (0 < a)%nat -> l !! i = Some x -> x ∈ part a (i / a) l.
Proof.
  intros Ha E. pose proof (Nat.div_mod_eq i a) as Ei. pose proof (Nat.mod_upper_bound i a ltac:(lia)).
  apply (list_elem_of_lookup_2 _ (i mod a)). rewrite part_lookup by done. by rewrite <- Ei.
Qed.

Lemma part_take {A} a j m (l : list A) : part a j (take m l) = take (m - a * j) (part a j l).
Proof. unfold part. by rewrite skipn_firstn_comm, !take_take, Nat.min_comm. Qed.

Lemma ceil_div_ok a b : (0 < b)%nat -> ceil_div a b = Ok ((a + b - 1) / b)%nat.
Proof. intros Hb. unfold ceil_div. by rewrite (proj2 (Nat.eqb_neq _ _)) by lia. Qed.

Lemma ceil_bounds a b : (0 < b)%nat -> (0 < a)%nat ->
  let c := ((a + b - 1) / b)%nat in (0 < c)%nat /\ (b * (c - 1) < a)%nat /\ (a <= b * c)%nat.
Proof. intros Hb Ha c. pose proof (Nat.div_mod_eq (a + b - 1) b). pose proof (Nat.mod_upper_bound (a + b - 1) b ltac:(lia)). fold c in H. nia. Qed.

Lemma towers_per_part_inv n np a : towers_per_part n np = Ok a ->
  (0 < np)%nat /\ (0 < a)%nat /\ (a * (np - 1) < n)%nat /\ (n <= a * np)%nat /\ ceil_div n np = Ok a.
Proof.
  unfold towers_per_part. destruct (Nat.eqb_spec np 0) as [->|Hnp]; [done|]. rewrite ceil_div_ok, bind_Ok by lia.
  destruct (Nat.leb_spec n ((n + np - 1) / np * (np - 1))); [done|]. intros [= <-].
  assert (0 < n)%nat by (eapply Nat.le_lt_trans; [apply Nat.le_0_l | done]).
  destruct (ceil_bounds n np ltac:(lia) ltac:(lia)) as (H1 & H2 & H3). split_and!; [lia | lia | lia | lia | done].
Qed.

Lemma rev_countdown {A} (g : nat -> A) n : rev (map (fun i => g (n - 1 - i)%nat) (seq 0 n)) = map g (seq 0 n).
Proof.
  induction n as [|n IH]; [done|]. rewrite seq_S at 2. cbn [seq map rev Nat.add]. rewrite map_app, <- IH. f_equal.
  - f_equal. rewrite <- seq_shift, map_map. apply map_ext. intros i. f_equal. lia.
  - cbn [map]. do 2 f_equal. lia.
Qed.

Section Tables.
Context `{W : NativeWidth}.
Context (k : nat) (U : list (Z * Z)) (HU : moduli_ok k U).
Abbreviation ready := (ready k U).

Lemma ready_draw st n : ready st -> ready (fst st, n).
Proof. done. Qed.

(** The product of the moduli. *)
Lemma product_from_ok (mul : ubint -> ubint -> outcome ubint) vs acc :
  (forall x y, fits x -> fits y -> fits (x * y) -> mul (encode x) (encode y) = Ok (encode (x * y))) ->
  basis U (acc ++ vs) -> product_from mul (encode (Qof acc)) (map fst vs) = Ok (encode (Qof (acc ++ vs))).
Proof.
  intros Hmul. revert acc. induction vs as [|v vs IH]; intros acc Hb; cbn [map product_from]; [by rewrite app_nil_r|].
  assert (basis U (acc ++ [v])) as Hb1 by (apply (basis_app_l k U HU _ vs); by rewrite <- app_assoc).
  assert (basis U acc) as Hb0 by (by apply (basis_app_l k U HU _ [v])).
  destruct (tower_modulus k U HU v) as (_ & H4 & _ & _ & _ & Ev & Fv); [apply Hb; set_solver|].
  assert (Qof (acc ++ [v]) = Qof acc * fst v) as E by (rewrite Qof_app; simpl; ring).
  pose proof (basis_fits k U HU _ Hb1) as F1. rewrite E in F1.
  rewrite Ev, Hmul, bind_Ok by (done || by apply (basis_fits k U HU)).
  rewrite <- E, IH by (by rewrite <- app_assoc). by rewrite <- app_assoc.
Qed.

Lemma product_ok vs : basis U vs -> product_from Mul (ubint_int 1) (map fst vs) = Ok (encode (Qof vs)).
Proof.
  intros Hb. rewrite encode_int by lia. apply (product_from_ok Mul vs []); [|done]. intros x y Fx Fy F.
  enc. apply Mul_represents; auto with fhe.
Qed.

Lemma sub_basis vs ws : basis U ws -> vs ⊆ ws -> NoDup (map fst vs) -> basis U vs.
Proof. intros [Hs _] H Hn. split; [set_solver | done]. Qed.

Lemma part_basis a j vs : basis U vs -> basis U (part a j vs).
Proof.
  intros Hb. rewrite (part_split a j vs) in Hb. apply (basis_app_r k U HU) in Hb. by apply (basis_app_l k U HU) in Hb.
Qed.

Lemma order_u32 (v : Z * Z) : v ∈ U -> u32 (2 * 2 ^ Z.of_nat k) = 2 ^ (Z.of_nat k + 1).
Proof.
  intros Hv. assert (1 <= k <= 24)%nat by (apply (basis_root k U HU U v (basis_U k U HU) Hv)).
  rewrite Z.pow_add_r by lia. replace (2 ^ Z.of_nat k * 2 ^ 1) with (2 * 2 ^ Z.of_nat k) by lia. apply u32_small.
  assert (2 ^ Z.of_nat k <= 2 ^ 24) by (apply Z.pow_le_mono_r; lia). lia.
Qed.

(** ** Dividing by the last moduli *)

Lemma divide_at vs v ws : basis U (vs ++ v :: ws) ->
  DividedBy (encode (Qof (vs ++ v :: ws))) (ubint_int (fst v)) = Ok (encode (Qof (vs ++ ws))).
Proof.
  intros Hb. destruct (tower_modulus k U HU v) as (_ & H4 & _ & _ & _ & -> & Fv); [apply Hb; set_solver|].
  pose proof (basis_fits k U HU _ Hb) as F. pose proof (basis_pos k U HU _ Hb) as HP.
  assert (Qof (vs ++ v :: ws) = Qof (vs ++ ws) * fst v) as E by (rewrite !Qof_app; simpl; ring).
  replace (Qof (vs ++ ws)) with (Qof (vs ++ v :: ws) / fst v) by (rewrite E; apply Z.div_mul; lia).
  assert (fits (Qof (vs ++ v :: ws) / fst v)) by (eapply fits_mono; [exact F | rewrite E, Z.div_mul by lia; nia]).
  enc. apply DividedBy_represents; auto with fhe; lia.
Qed.

Lemma divide_last vs v : basis U (vs ++ [v]) ->
  DividedBy (encode (Qof (vs ++ [v]))) (ubint_int (fst v)) = Ok (encode (Qof vs)).
Proof. intros Hb. rewrite (divide_at vs v [] Hb). by rewrite app_nil_r. Qed.

Definition hat_pairs (vs : list (Z * Z)) : list (Z * Z) := map (fun p => (hat_inv (Qof vs) (fst p), pre_hat vs p)) vs.

Lemma level_hats_ok vs : basis U vs ->
  level_hats (encode (Qof vs)) (map fst vs) = Ok (map (fun l => hat_pairs (take (S l) vs)) (seq 0 (length vs))).
Proof.
  intros Hb. unfold level_hats. rewrite length_map. set (n := length vs).
  pose proof (for_range_exact (fun l => (encode (Qof (take (n - (l - 1)) vs)), map (fun l => hat_pairs (take (S l) vs)) (seq (n - l) l))) 0 n) as H.
  cbv beta in H. cbn [seq map] in H. rewrite Nat.sub_0_l, Nat.sub_0_r, (take_ge vs n), Nat.sub_diag in H by (unfold n; lia).
  rewrite H, bind_Ok; [done | lia |]. clear H. intros l Hl.
  assert ((if (0 <? l)%nat then q ← vget (map fst vs) (n - l); DividedBy (encode (Qof (take (n - (l - 1)) vs))) (ubint_int q)
           else Ok (encode (Qof (take (n - (l - 1)) vs)))) = Ok (encode (Qof (take (n - l) vs)))) as ->.
  { destruct (Nat.ltb_spec 0 l); [|by replace l with 0%nat by lia].
    pose proof (list_lookup_lookup_total_lt vs (n - l) ltac:(unfold n in *; lia)) as El.
    rewrite (vget_map fst vs _ _ El), bind_Ok. replace (n - (l - 1))%nat with (S (n - l)) by lia.
    rewrite (take_S_r vs _ _ El). apply divide_last. rewrite <- (take_S_r vs _ _ El). by apply (take_basis k U HU). }
  rewrite bind_Ok, firstn_map.
  pose proof (take_basis k U HU vs Hb (n - l)) as Hb'.
  rewrite (vmapM_towers _ fst (fun p => (hat_inv (Qof (take (n - l) vs)) (fst p), pre_hat (take (n - l) vs) p))), bind_Ok
    by (intros; by apply (hat_entry_ok k U HU)).
  replace (S l - 1)%nat with l by lia. by replace (S (n - S l)) with (n - l)%nat by lia.
Qed.

(** ** Partitions *)

Section Partition.
Context (om omp : ubint) (ts ps : list (Z * Z)) (Hqp : basis U (ts ++ ps)) (Hps : ps <> []).
Context (np a : nat) (Ha : towers_per_part (length ts) np = Ok a).
Let n := length ts.
Abbreviation z0 := (ubint_int 0).

Lemma Q_basis : basis U ts.
Proof. by apply (basis_app_l k U HU _ ps). Qed.
Lemma P_basis : basis U ps.
Proof. by apply (basis_app_r k U HU ts). Qed.

Definition parts : list ILDCRTParams := map (fun j => dparams k z0 (part a j ts)) (seq 0 np).
(** The number of parts that [m] towers reach, and the basis that part [j] of them is extended by. *)
Definition beta (m : nat) : nat := ((m + a - 1) / a)%nat.
Definition compl (m j : nat) : list (Z * Z) := others a j (take m ts) ++ ps.

Lemma part_bounds : (0 < np)%nat /\ (0 < a)%nat /\ (a * (np - 1) < n)%nat /\ (n <= a * np)%nat.
Proof. destruct (towers_per_part_inv _ _ _ Ha) as (? & ? & ? & ? & _). done. Qed.

Lemma beta_bounds m : (0 < m <= n)%nat -> (0 < beta m <= np)%nat /\ (a * (beta m - 1) < m)%nat /\ (m <= a * beta m)%nat.
Proof.
  intros Hm. destruct part_bounds as (H1 & H2 & H3 & H4). destruct (ceil_bounds m a H2 ltac:(lia)) as (H5 & H6 & H7).
  fold (beta m) in *. split_and!; [done | | done | done]. nia.
Qed.

Lemma part_nonempty j : (j < np)%nat -> part a j ts <> [].
Proof.
  intros Hj E. destruct part_bounds as (H1 & H2 & H3 & H4). apply (f_equal length) in E. rewrite part_length in E. cbn in E.
  assert (a * j <= a * (np - 1))%nat by (apply Nat.mul_le_mono_l; lia). unfold n in *. lia.
Qed.

Lemma part_start m j : (0 < m <= n)%nat -> (j < beta m)%nat -> (a * j < m)%nat.
Proof.
  intros Hm Hj. destruct (beta_bounds m Hm) as (H1 & H2 & H3). assert (a * j <= a * (beta m - 1))%nat by (apply Nat.mul_le_mono_l; lia). lia.
Qed.

Lemma level_part_nonempty m j : (0 < m <= n)%nat -> (j < beta m)%nat -> part a j (take m ts) <> [].
Proof.
  intros Hm Hj E. pose proof (part_start m j Hm Hj). destruct part_bounds as (_ & H2 & _). apply (f_equal length) in E.
  rewrite part_length, length_take in E. cbn in E. unfold n in *. lia.
Qed.

Lemma parts_get j : (j < np)%nat -> vget parts j = Ok (dparams k z0 (part a j ts)).
Proof. intros Hj. apply (vget_map (fun j => dparams k z0 (part a j ts))). by apply lookup_seq_lt. Qed.

Section Level.
Context (l : nat) (Hl : (l < n)%nat).
Let m := S l.
Let qs := take m ts.

Lemma level_range : (0 < m <= n)%nat.
Proof. unfold m. lia. Qed.
Lemma level_length : length qs = m.
Proof. unfold qs. rewrite length_take. fold n. pose proof level_range. lia. Qed.

Lemma level_part_length j : (j < beta m)%nat ->
  length (part a j qs) = if (j =? beta m - 1)%nat then (l + 1 - j * a)%nat else a.
Proof.
  intros Hj. rewrite part_length, level_length. destruct (beta_bounds m level_range) as (H1 & H2 & H3).
  pose proof (part_start m j level_range Hj). destruct (Nat.eqb_spec j (beta m - 1)) as [->|Hne].
  - assert (a * beta m = a * (beta m - 1) + a)%nat as E by (rewrite <- Nat.mul_succ_r; f_equal; lia). unfold m in *. lia.
  - assert (a * (j + 1) <= a * (beta m - 1))%nat by (apply Nat.mul_le_mono_l; lia). lia.
Qed.

Lemma part_size_ok j : (j < beta m)%nat -> part_size parts a l (beta m) j = Ok (length (part a j qs)).
Proof.
  intros Hj. destruct (beta_bounds m level_range) as (H1 & H2 & H3). unfold part_size. rewrite parts_get, bind_Ok by lia.
  rewrite level_part_length by done. destruct (Nat.eqb_spec j (beta m - 1)) as [|Hne]; [done|].
  cbn [dparams d_parms]. rewrite length_map, part_length. fold n. assert (a * (j + 1) <= a * (beta m - 1))%nat by (apply Nat.mul_le_mono_l; lia).
  pose proof level_range. do 2 f_equal. lia.
Qed.

Lemma others_length j : (j < beta m)%nat -> length (others a j qs) = (l + 1 - length (part a j qs))%nat.
Proof.
  intros Hj. pose proof (f_equal length (part_split a j qs)) as E. rewrite !length_app, level_length in E.
  unfold others. rewrite length_app. unfold m in E. lia.
Qed.

(** A tower of the other parts is found in its part. *)
Lemma other_tower j i t : (j < beta m)%nat -> others a j qs !! i = Some t ->
  exists d, (if (j <=? i / a)%nat then i / a + 1 else i / a)%nat = d /\ (d < np)%nat /\ part a d ts !! (i mod a)%nat = Some t.
Proof.
  intros Hj Ei. destruct part_bounds as (B1 & B2 & B3 & B4). destruct (beta_bounds m level_range) as (H1 & H2 & H3).
  pose proof (part_start m j level_range Hj) as Hs. pose proof level_length as HL. pose proof level_range.
  pose proof (Nat.div_mod_eq i a) as Edm. pose proof (Nat.mod_upper_bound i a ltac:(lia)) as Hmod.
  assert (forall c x, qs !! x = Some t -> x = (a * c + i mod a)%nat -> (c < np)%nat /\ part a c ts !! (i mod a)%nat = Some t) as Hin.
  { intros c x Ex ->. assert (a * c + i mod a < m)%nat by (rewrite <- HL; by eapply lookup_lt_Some). split.
    - destruct (decide (c < np)%nat); [done|]. assert (a * np <= a * c)%nat by (apply Nat.mul_le_mono_l; lia). lia.
    - rewrite part_lookup by done. unfold qs in Ex. by rewrite lookup_take_lt in Ex by done. }
  unfold others in Ei. destruct (Nat.leb_spec j (i / a)).
  - assert (a * j <= a * (i / a))%nat by (apply Nat.mul_le_mono_l; lia).
    rewrite lookup_app_r, length_take, HL, lookup_drop in Ei by (rewrite length_take; lia).
    exists (i / a + 1)%nat. split; [done|]. apply (Hin _ _ Ei). lia.
  - assert (a * (i / a + 1) <= a * j)%nat by (apply Nat.mul_le_mono_l; lia).
    rewrite lookup_app_l, lookup_take_lt in Ei by (rewrite ?length_take; lia). exists (i / a)%nat. split; [done|]. apply (Hin _ _ Ei). lia.
Qed.

Lemma compl_basis j : basis U (compl m j).
Proof.
  unfold compl, others. apply (sub_basis _ (ts ++ ps) Hqp).
  - intros t. fold qs. rewrite !elem_of_app. intros [[Ht|Ht]|Ht]; [left | left | by right]; apply (subseteq_take m ts).
    + exact (subseteq_take (a * j) qs t Ht).
    + exact (subseteq_drop (a * (j + 1)) qs t Ht).
  - destruct Hqp as [_ Hd]. eapply sublist_NoDup; [exact Hd|]. apply fmap_sublist. fold qs.
    apply sublist_app; [|done]. rewrite <- (take_drop m ts). fold qs. apply sublist_inserts_r.
    rewrite (part_split a j qs) at 3. apply sublist_app; [done|]. by apply sublist_inserts_l.
Qed.

Lemma compl_nonempty j : compl m j <> [].
Proof. unfold compl. intros E%app_eq_nil. by destruct E. Qed.

Lemma compl_towers_ok j : (j < beta m)%nat ->
  vmapM (compl_tower parts (dparams k omp ps) a (l + 1 - length (part a j qs)) j) (seq 0 (l + 1 - length (part a j qs) + length ps))
  = Ok (map (tparams k) (compl m j)).
Proof.
  intros Hj. rewrite <- others_length by done. rewrite <- length_app. fold qs (compl m j).
  rewrite <- (map_seq_list (tparams k) (compl m j)). rewrite <- (map_id (seq 0 _)) at 1. apply vmapM_towers.
  intros i [_ Hi]%elem_of_seq. pose proof (list_lookup_lookup_total_lt _ i Hi) as Ei. set (t := compl m j !!! i) in *.
  destruct part_bounds as (B1 & B2 & B3 & B4). unfold compl_tower. unfold compl in Ei. fold qs in Ei.
  destruct (Nat.ltb_spec i (length (others a j qs))).
  - rewrite (proj2 (Nat.eqb_neq _ _)) by lia. rewrite lookup_app_l in Ei by done.
    destruct (other_tower j i t Hj Ei) as (d & -> & Hd & Ed). rewrite parts_get, bind_Ok by done. by apply vget_map.
  - rewrite lookup_app_r in Ei by done. by apply vget_map.
Qed.

(** The product of the towers of a part among the first ones. *)
Lemma part_product j : (j < beta m)%nat ->
  (if (j =? beta m - 1)%nat
   then for_range (length (part a j qs)) (Nat.max (length (part a j qs)) (length (part a j ts))) (fun i partQ =>
          q ← vget (map fst (part a j ts)) i; DividedBy partQ (ubint_int q)) (encode (Qof (part a j ts)))
   else Ok (encode (Qof (part a j ts)))) = Ok (encode (Qof (part a j qs))).
Proof.
  intros Hj. pose proof (level_part_length j Hj) as HL. destruct (beta_bounds m level_range) as (H1 & H2 & H3).
  destruct (Nat.eqb_spec j (beta m - 1)) as [E|Hne].
  - set (p := part a j ts). set (d := (m - a * j)%nat).
    assert (d <= length p)%nat as Hd.
    { unfold p, d. rewrite part_length. fold n. pose proof level_range. assert (a * beta m = a * j + a)%nat by (rewrite E, <- Nat.mul_succ_r; f_equal; lia). lia. }
    assert (part a j qs = take d p) as -> by (unfold qs; apply part_take). rewrite length_take. replace (Nat.min d (length p)) with d by lia. replace (Nat.max d (length p)) with (length p) by lia.
    pose proof (for_range_exact (fun i => encode (Qof (take d p ++ drop i p))) d (length p)) as H. cbv beta in H.
    rewrite take_drop, drop_ge, app_nil_r in H by lia. apply H; [done|]. intros i Hi.
    pose proof (list_lookup_lookup_total_lt p i ltac:(lia)) as Ei. rewrite (vget_map fst p _ _ Ei), bind_Ok, (drop_S p _ i Ei).
    apply divide_at. rewrite <- (drop_S p _ i Ei). apply (sub_basis _ p); [by apply part_basis, Q_basis | |].
    + intros t [Ht|Ht]%elem_of_app; [by apply (subseteq_take d) | by apply (subseteq_drop i)].
    + destruct (part_basis a j ts Q_basis) as [_ Hn]. fold p in Hn. eapply sublist_NoDup; [exact Hn|].
      rewrite <- (take_drop d p) at 3. rewrite !map_app. apply sublist_app; [done|]. apply fmap_sublist.
      replace i with (d + (i - d))%nat by lia. rewrite <- drop_drop. apply sublist_drop.
  - do 2 f_equal. unfold qs. rewrite part_take, take_ge; [done|]. assert (a * (j + 1) <= a * (beta m - 1))%nat by (apply Nat.mul_le_mono_l; lia).
    rewrite part_length. lia.
Qed.

Lemma part_quotients_ok j : (j < beta m)%nat ->
  part_quotients parts a l (beta m) j (dparams k z0 (compl m j)) = Ok (quotients (part a j qs) (compl m j)).
Proof.
  intros Hj. destruct (beta_bounds m level_range) as (H1 & _). unfold part_quotients. rewrite parts_get, bind_Ok by lia.
  destruct (moduli_dparams k z0 (part a j ts)) as [-> _]. destruct (moduli_dparams k z0 (compl m j)) as [-> _].
  rewrite part_size_ok, bind_Ok, length_map by done. cbn [dparams d_ciphertextModulus]. rewrite part_product, bind_Ok by done.
  pose proof (take_basis k U HU ts Q_basis m) as Hqs. fold qs in Hqs. pose proof (part_basis a j qs Hqs) as Hp.
  unfold quotients. rewrite <- (map_seq_list (fun t => map (fun p => (Qof (part a j qs) / fst t) mod fst p) (compl m j)) (part a j qs)).
  rewrite <- (map_id (seq 0 _)) at 1. apply vmapM_towers. intros i [_ Hi]%elem_of_seq.
  pose proof (list_lookup_lookup_total_lt _ i Hi) as Ei.
  assert (part a j ts !! i = Some (part a j qs !!! i)) as E'.
  { unfold qs in Ei. rewrite part_take in Ei. apply lookup_take_Some in Ei as [Ei _]. rewrite Ei. unfold qs. by rewrite part_take. }
  rewrite (vget_map fst _ _ _ E'), bind_Ok. apply (hat_row_ok k U HU); [done | apply compl_basis | by eapply list_elem_of_lookup_2].
Qed.
End Level.

Lemma special_disjoint q : q ∈ ts -> fst q ∉ map fst ps.
Proof.
  intros Hq Hin. destruct Hqp as [_ Hd]. rewrite map_app in Hd. apply NoDup_app in Hd as (_ & Hd & _).
  apply (Hd (fst q)); [by apply (list_elem_of_fmap_2 fst) | done].
Qed.

(** The constants for [P], for all towers of [Q]. *)
Definition special_of : SpecialTables :=
  mkSpecial (map (fun q => Qof ps mod fst q) ts)
    (map (fun q => (Z.invmod (Qof ps) (fst q), precon (Z.invmod (Qof ps) (fst q)) (fst q))) ts)
    (mkSwitch (hat_pairs ps) (quotients ps ts) (mus ts)).

Definition tables_of : HybridTables :=
  mkHybrid (dparams k om ts) (dparams k omp ps) (dparams k z0 (ts ++ ps)) np a parts
    (map (fun l => hat_pairs (take (S l) ts)) (seq 0 n))
    (map (fun l => map (fun j => (dparams k z0 (compl (S l) j), mus (compl (S l) j))) (seq 0 (beta (S l)))) (seq 0 n))
    (map (fun j => map (fun l => hat_pairs (take (S l) (part a j ts))) (seq 0 (length (part a j ts)))) (seq 0 np))
    (map (fun l => map (fun j => quotients (part a j (take (S l) ts)) (compl (S l) j)) (seq 0 (beta (S l)))) (seq 0 n))
    special_of.

(** ** The computation of the tables *)

Context (dist : nat -> Z -> Z) (rfuel : nat) `{HS : UniformSource dist rfuel} (fuel : nat) (Hfuel : (k + 1 <= fuel)%nat).

Lemma DCRTParams_lists_ok vs o st : basis U vs -> vs <> [] -> ready st ->
  returns (DCRTParams_lists dist rfuel fuel (2 ^ (Z.of_nat k + 1)) (map fst vs) (map snd vs) [] [] o st)
    (fun '(p, st') => p = dparams k o vs /\ ready st').
Proof.
  intros Hb Hne Hst. assert (1 <= k <= 24)%nat as Hk.
  { destruct vs as [|v vs']; [done|]. apply (basis_root k U HU _ v Hb). left. }
  unfold DCRTParams_lists, dparams_base. destruct (native_params_ok dist rfuel fuel k (0, 0) st Hfuel Hk) as [n0 E0].
  cbn [fst snd] in E0. rewrite E0, !bind_Ok, !length_map, Nat.eqb_refl. cbn [negb length tparams cyclotomicOrder ringDimension isPowerOfTwo].
  rewrite (proj2 (Nat.eqb_neq 0 (length vs))) by (by destruct vs).
  eapply returns_bind; [apply (towers_st_ok ready _ (fun i => tparams k (vs !!! i))); [|exact Hst]|].
  - intros i st' [_ Hi]%elem_of_seq Hs. pose proof (list_lookup_lookup_total_lt vs i Hi) as Ei.
    rewrite (vget_map fst vs i _ Ei), bind_Ok, (vget_map snd vs i _ Ei), bind_Ok.
    destruct (native_params_ok dist rfuel fuel k (vs !!! i) st' Hfuel Hk) as [c E]. rewrite E. by split.
  - intros [parms st'] [-> Hs]. rewrite (map_seq_list (tparams k) vs). unfold RecalculateModulus, set_modulus.
    cbn [d_parms d_ciphertextModulus d_cyclotomicOrder d_ringDimension d_isPowerOfTwo d_bigCiphertextModulus d_originalModulus].
    rewrite map_map. change (map (fun x => ciphertextModulus (tparams k x)) vs) with (map fst vs).
    rewrite (product_ok vs Hb), !bind_Ok. by split.
Qed.

Lemma part_params_ok st : ready st ->
  returns (part_params dist rfuel fuel (dparams k om ts) a np st) (fun '(l, st') => l = parts /\ ready st').
Proof.
  intros Hst. unfold part_params. cbn [dparams d_parms]. rewrite length_map. fold n.
  apply (towers_st_ok ready); [|done]. intros j st' [_ Hj]%elem_of_seq Hs. destruct part_bounds as (H1 & H2 & H3 & H4).
  assert (a * j <= a * (np - 1))%nat as Hj' by (apply Nat.mul_le_mono_l; lia).
  set (e := if ((j + 1) * a - 1 <? n)%nat then ((j + 1) * a - 1)%nat else (n - 1)%nat).
  assert (e < n /\ a * j <= e /\ e - j * a + 1 = length (part a j ts))%nat as (He1 & He2 & He3).
  { rewrite part_length. fold n. unfold e. destruct (Nat.ltb_spec ((j + 1) * a - 1) n); lia. }
  assert (GetParamPartition (dparams k om ts) (j * a) e = Ok (map (tparams k) (part a j ts))) as ->.
  { unfold GetParamPartition. cbn [dparams d_parms]. rewrite length_map. fold n.
    rewrite (proj2 (Nat.ltb_ge e _)), (proj2 (Nat.ltb_ge n e)) by lia. cbn [orb]. rewrite He3.
    rewrite <- (map_seq_list (tparams k) (part a j ts)). rewrite <- (map_id (seq 0 _)) at 1. apply vmapM_towers.
    intros i [_ Hi]%elem_of_seq. apply vget_map. rewrite part_length in Hi.
    replace (i + j * a)%nat with (a * j + i)%nat by lia. rewrite <- part_lookup by lia.
    apply list_lookup_lookup_total_lt. rewrite part_length. lia. }
  rewrite bind_Ok. pose proof (part_nonempty j ltac:(lia)) as Hne.
  assert (exists p0 r, part a j ts = p0 :: r) as (p0 & r & E) by (destruct (part a j ts) eqn:E; [done | eauto]).
  assert (vget (map (tparams k) (part a j ts)) 0 = Ok (tparams k p0)) as -> by (by rewrite E). rewrite bind_Ok, !map_map.
  apply (DCRTParams_lists_ok (part a j ts) z0 st'); [by apply part_basis, Q_basis | done | done].
Qed.

Lemma params_QP_ok st : ready st ->
  returns (params_QP dist rfuel fuel (2 ^ Z.of_nat k) (dparams k om ts) (dparams k omp ps) st)
    (fun '(p, st') => p = dparams k z0 (ts ++ ps) /\ ready st').
Proof.
  intros Hst. unfold params_QP. destruct (moduli_dparams k om ts) as [-> ->]. destruct (moduli_dparams k omp ps) as [-> ->].
  destruct ps as [|p ps']; [done|]. rewrite <- !map_app, (order_u32 p) by (apply Hqp; set_solver).
  apply (DCRTParams_lists_ok (ts ++ p :: ps') z0 st Hqp); [by destruct ts | done].
Qed.

Lemma compl_params_ok l j st : let m := S l in (l < n)%nat -> (j < beta m)%nat -> ready st ->
  returns (compl_params dist rfuel fuel parts (dparams k omp ps) a l (beta m) j st)
    (fun '(r, st') => r = (dparams k z0 (compl m j), mus (compl m j)) /\ ready st').
Proof.
  intros m Hl Hj Hst. set (qs := take m ts). destruct (beta_bounds m (level_range l Hl)) as (H1 & _). unfold compl_params. rewrite parts_get, bind_Ok, (part_size_ok l Hl), bind_Ok by (done || lia). fold m qs.
  assert (length (part a j qs) <= l + 1)%nat by (rewrite part_length; unfold qs, m; rewrite length_take; lia).
  rewrite (proj2 (Nat.ltb_ge _ _)), bind_Ok by done.
  replace (length (d_parms (dparams k omp ps))) with (length ps) by (cbn; by rewrite length_map).
  rewrite (compl_towers_ok l Hl), bind_Ok, !map_map by done. cbn [dparams d_cyclotomicOrder].
  eapply returns_bind; [apply (DCRTParams_lists_ok (compl m j) z0 st (compl_basis l j) (compl_nonempty l j) Hst)|].
  intros [p st'] [-> Hs]. rewrite (vmapM_towers _ _ (fun p => 2 ^ 128 / fst p)), bind_Ok; [by split|].
  intros t Ht. destruct (tower_modulus k U HU t ltac:(by apply (compl_basis l j))) as (_ & H4 & _ & _ & H64 & _). by apply barrett_mu_ok.
Qed.

Lemma hybrid_tables_ok st : ready st ->
  returns (hybrid_tables dist rfuel fuel np (dparams k om ts) (dparams k omp ps) (encode (Qof ps)) st)
    (fun '(h, st') => h = tables_of /\ ready st').
Proof.
  intros Hst. destruct (towers_per_part_inv _ _ _ Ha) as (B1 & B2 & B3 & B4 & Hc). unfold hybrid_tables.
  replace (length (d_parms (dparams k om ts))) with n by (cbn; by rewrite length_map). fold n in Ha, Hc. rewrite Ha, bind_Ok.
  eapply returns_bind; [by apply part_params_ok|]. intros [l0 st1] [-> H1].
  eapply returns_bind; [by apply params_QP_ok|]. intros [qp st2] [-> H2].
  rewrite (special_tables_ok k U HU ps ts P_basis Q_basis) by apply special_disjoint. rewrite bind_Ok.
  destruct (moduli_dparams k om ts) as [-> _]. change (d_ciphertextModulus (dparams k om ts)) with (encode (Qof ts)).
  rewrite (level_hats_ok ts Q_basis), bind_Ok, Hc, bind_Ok.
  set (row := fun l => map (fun j => (dparams k z0 (compl (S l) j), mus (compl (S l) j))) (seq 0 (beta (S l)))).
  eapply returns_bind; [apply (towers_st_ok ready _ (fun i => row (n - 1 - i)%nat)); [|exact H2]|].
  { intros i st' [_ Hi]%elem_of_seq Hs. rewrite ceil_div_ok, bind_Ok by done. replace (n - 1 - i + 1)%nat with (S (n - 1 - i)) by lia.
    fold (beta (S (n - 1 - i))). apply (towers_st_ok ready); [|done]. intros j st'' [_ Hj]%elem_of_seq Hs''.
    apply compl_params_ok; [lia | lia | done]. }
  intros [c st3] [-> H3]. rewrite (rev_countdown row n).
  assert (vmapM (fun p => level_hats (d_ciphertextModulus p) (moduli_of p)) parts
    = Ok (map (fun j => map (fun l => hat_pairs (take (S l) (part a j ts))) (seq 0 (length (part a j ts)))) (seq 0 np))) as ->.
  { apply vmapM_towers. intros j _. destruct (moduli_dparams k z0 (part a j ts)) as [-> _]. apply level_hats_ok. by apply part_basis, Q_basis. }
  rewrite bind_Ok.
  rewrite (vmapM_Ok _ (fun l => map (fun j => quotients (part a j (take (S l) ts)) (compl (S l) j)) (seq 0 (beta (S l))))), bind_Ok; [by split|].
  apply Forall_forall. intros l [_ Hl]%elem_of_seq. rewrite ceil_div_ok, bind_Ok by done. replace (l + 1)%nat with (S l) by lia. fold (beta (S l)).
  rewrite (vget_map row _ _ l) by (by apply lookup_seq_lt). rewrite bind_Ok.
  apply vmapM_Ok, Forall_forall. intros j [_ Hj]%elem_of_seq.
  unfold row. rewrite (vget_map (fun j => (dparams k z0 (compl (S l) j), mus (compl (S l) j))) _ _ j) by (apply lookup_seq_lt; lia).
  rewrite bind_Ok. apply part_quotients_ok; lia.
Qed.
End Partition.
End Tables.

(** * Digits *)

Lemma for_range_ext {S} (f g : nat -> S -> outcome S) lo hi s :
  (forall i s, (lo <= i < hi)%nat -> f i s = g i s) -> for_range lo hi f s = for_range lo hi g s.
Proof.
  unfold for_range. remember (hi - lo)%nat as n eqn:En. revert lo s En. induction n as [|n IH]; intros lo s En H; [done|].
  cbn. rewrite H by lia. destruct (g lo s); cbn; [|done..]. apply IH; [lia|]. intros. apply H. lia.
Qed.

(** ** Writing the towers of an element *)

(** Towers that are there have values. *)
Definition valued (p : PolyImpl) : Prop := m_values p <> None.

Lemma SetElementAtIndex_at vs F pr i v : (i < length vs)%nat -> valued v ->
  SetElementAtIndex (mkDCRT vs F pr) i v = Ok (mkDCRT (<[i := v]> vs) F pr).
Proof.
  intros Hi Hv. unfold SetElementAtIndex. cbn [m_vectors]. destruct (lookup_lt_is_Some_2 vs i Hi) as [x Ex].
  rewrite (vget_Some _ _ _ Ex), bind_Ok, vset_lt, bind_Ok by done. unfold set_vectors. cbn [m_format Dcrt.m_params].
  unfold assign_poly. unfold valued in Hv. destruct v as [[w|] G q]; [done | by destruct Hv].
Qed.

Lemma GetElementAtIndex_at d i v : m_vectors d !! i = Some v -> GetElementAtIndex d i = Ok v.
Proof. intros E. unfold GetElementAtIndex. rewrite E. by destruct (m_vectors d). Qed.

(** One more tower of an element whose first [i] towers hold [G]. *)
Lemma fill_step (G : nat -> PolyImpl) i vs F pr : (i < length vs)%nat -> valued (G i) ->
  SetElementAtIndex (mkDCRT (map G (seq 0 i) ++ drop i vs) F pr) i (G i) = Ok (mkDCRT (map G (seq 0 (S i)) ++ drop (S i) vs) F pr).
Proof.
  intros Hi HG. assert (length (map G (seq 0 i)) = i) as Hl by (by rewrite length_map, length_seq).
  rewrite SetElementAtIndex_at by (done || (rewrite length_app, Hl, length_drop; lia)). do 2 f_equal.
  destruct (lookup_lt_is_Some_2 vs i ltac:(lia)) as [x Ex]. rewrite (drop_S vs x i Ex), insert_app_r_alt, Hl, Nat.sub_diag by lia.
  cbn [insert list_insert]. rewrite seq_S, map_app. by rewrite <- app_assoc.
Qed.

(** Filling the towers from [lo] to [hi]; those before it hold [G] already. *)
Lemma fill_towers (G : nat -> PolyImpl) (body : nat -> outcome PolyImpl) lo hi vs F pr :
  (lo <= hi)%nat -> (hi <= length vs)%nat -> (forall i, valued (G i)) ->
  (forall i, (lo <= i < hi)%nat -> body i = Ok (G i)) ->
  for_range lo hi (fun i d => e ← body i; SetElementAtIndex d i e) (mkDCRT (map G (seq 0 lo) ++ drop lo vs) F pr)
  = Ok (mkDCRT (map G (seq 0 hi) ++ drop hi vs) F pr).
Proof.
  intros H1 H2 HG Hb. apply (for_range_exact (fun i => mkDCRT (map G (seq 0 i) ++ drop i vs) F pr)); [done|].
  intros i Hi. rewrite Hb, bind_Ok by done. apply fill_step; [lia | done].
Qed.

Lemma fill_all (G : nat -> PolyImpl) (body : nat -> outcome PolyImpl) n vs F pr :
  length vs = n -> (forall i, valued (G i)) -> (forall i, (i < n)%nat -> body i = Ok (G i)) ->
  for_range 0 n (fun i d => e ← body i; SetElementAtIndex d i e) (mkDCRT vs F pr) = Ok (mkDCRT (map G (seq 0 n)) F pr).
Proof.
  intros Hn HG Hb. pose proof (fill_towers G body 0 n vs F pr ltac:(lia) ltac:(lia) HG) as H. cbn [seq map app] in H.
  rewrite drop_0, (drop_ge vs n), app_nil_r in H by lia. apply H. intros. apply Hb. lia.
Qed.

Section Digits.
Context `{W : NativeWidth}.
Context (af ai : NativeVectorT -> ILParams -> outcome NativeVectorT).
Context (k : nat) (U : list (Z * Z)) (HU : moduli_ok k U).
Abbreviation ready := (ready k U).
Abbreviation z0 := (ubint_int 0).

Lemma tower_valued F X t : valued (tower k F X t).
Proof. done. Qed.

Lemma dcrt_get om F ws X i : (i < length ws)%nat -> GetElementAtIndex (dcrt k om F ws X) i = Ok (tower k F X (ws !!! i)).
Proof. intros Hi. apply GetElementAtIndex_at. cbn. by rewrite list_lookup_fmap, list_lookup_lookup_total_lt. Qed.

Lemma dcrt_seq om F ws X : mkDCRT (map (fun i => tower k F X (ws !!! i)) (seq 0 (length ws))) F (dparams k om ws) = dcrt k om F ws X.
Proof. unfold dcrt. by rewrite (map_seq_list (tower k F X) ws). Qed.

Context (om omp : ubint) (ts ps : list (Z * Z)) (Hqp : basis U (ts ++ ps)) (Hps : ps <> []).
Context (np a : nat) (Ha : towers_per_part (length ts) np = Ok a) (Ha256 : (a < 256)%nat).
Let n := length ts.
Abbreviation tables := (tables_of k om omp ts ps np a).

(** An element over the first [m] towers. *)
Context (omc : ubint) (m : nat) (Hm : (0 < m <= n)%nat) (X : list Z) (HX : length X = (2 ^ k)%nat).
Let qs := take m ts.
Let bm := beta a m.

Lemma qs_length : length qs = m.
Proof. unfold qs. rewrite length_take. unfold n in Hm. lia. Qed.
Lemma qs_basis : basis U qs.
Proof. apply (take_basis k U HU). by apply (Q_basis k U HU ts ps). Qed.
Lemma qsp_basis : basis U (qs ++ ps).
Proof.
  apply (sub_basis k U HU _ (ts ++ ps) Hqp).
  - intros t. rewrite !elem_of_app. intros [H|H]; [left; by apply (subseteq_take m) | by right].
  - destruct Hqp as [_ Hd]. eapply sublist_NoDup; [exact Hd|]. apply fmap_sublist, sublist_app; [apply sublist_take | done].
Qed.
Lemma part_level_basis j : basis U (part a j qs).
Proof. apply (part_basis k U HU), qs_basis. Qed.
Lemma bm_bounds : (0 < bm <= np)%nat /\ (a * (bm - 1) < m)%nat /\ (m <= a * bm)%nat.
Proof. by apply (beta_bounds ts np a Ha). Qed.

Context (dist : nat -> Z -> Z) (rfuel : nat) `{HS : UniformSource dist rfuel} (fuel : nat) (Hfuel : (k + 1 <= fuel)%nat).

Lemma digit_part_ok j st : (j < bm)%nat -> ready st ->
  returns (digit_part dist rfuel fuel tables (dcrt k omc EVALUATION qs X) m bm j st)
    (fun '(d, st') => d = dcrt k z0 EVALUATION (part a j qs) X /\ ready st').
Proof.
  intros Hj Hst. destruct bm_bounds as (B1 & B2 & B3). unfold digit_part. cbn [tables_of m_numPerPartQ m_paramsPartQ].
  rewrite (parts_get k ts np a), bind_Ok by lia. pose proof (part_start ts np a Ha m j Hm Hj) as Hs.
  pose proof (part_length a j qs) as HL. rewrite qs_length in HL.
  eapply (returns_bind _ _ (fun '(d, st') => d = dcrt k z0 EVALUATION (part a j qs) (pzero k) /\ ready st')).
  - destruct (Nat.eqb_spec j (bm - 1)) as [E|Hne].
    + rewrite (proj2 (Nat.ltb_ge _ _)) by lia.
      assert (vmapM (vget (d_parms (dparams k z0 (part a j ts)))) (seq 0 (m - a * j)) = Ok (map (tparams k) (part a j qs))) as ->.
      { rewrite <- (map_seq_list (tparams k) (part a j qs)). assert (length (part a j qs) = m - a * j)%nat as ->.
        { rewrite HL. assert (a * bm = a * j + a)%nat by (rewrite E, <- Nat.mul_succ_r; f_equal; lia). lia. }
        apply vmapM_Ok, Forall_forall. intros i [_ Hi]%elem_of_seq. cbn [dparams d_parms]. apply vget_map.
        pose proof (list_lookup_lookup_total_lt (part a j qs) i ltac:(assert (a * bm = a * j + a)%nat by (rewrite E, <- Nat.mul_succ_r; f_equal; lia); lia)) as Ei.
        rewrite <- Ei. unfold qs. rewrite part_take, lookup_take_lt by lia. done. }
      rewrite bind_Ok, !map_map. cbn [dparams d_cyclotomicOrder].
      eapply returns_bind; [apply (DCRTParams_lists_ok k U HU dist rfuel fuel Hfuel (part a j qs) z0 st (part_level_basis j)); [|exact Hst]|].
      { by apply (level_part_nonempty ts np a Ha). }
      intros [p st'] [-> Hs']. rewrite (DCRTPoly_new_dcrt k U HU z0 _ (part_level_basis j)), bind_Ok. by split.
    + assert (part a j ts = part a j qs) as ->.
      { unfold qs. rewrite part_take, take_ge; [done|]. assert (a * (j + 1) <= a * (bm - 1))%nat by (apply Nat.mul_le_mono_l; lia). rewrite part_length. lia. }
      rewrite (DCRTPoly_new_dcrt k U HU z0 _ (part_level_basis j)), bind_Ok. by split.
  - intros [d st'] [-> Hs']. cbn [dcrt m_vectors]. rewrite length_map.
    change (dcrt k z0 EVALUATION (part a j qs) (pzero k)) with
      (mkDCRT (map (tower k EVALUATION (pzero k)) (part a j qs)) EVALUATION (dparams k z0 (part a j qs))).
    rewrite (fill_all (fun i => tower k EVALUATION X (part a j qs !!! i))), bind_Ok; [|by rewrite length_map | done |].
    + split; [apply dcrt_seq | done].
    + intros i Hi. rewrite dcrt_get by (rewrite qs_length; lia). do 2 f_equal. symmetry. apply list_lookup_total_correct.
      rewrite part_lookup by lia. apply list_lookup_lookup_total_lt. rewrite qs_length. lia.
Qed.

(** The polynomial of a digit. *)
Definition digit_poly (j : nat) : list Z := map (extended (part a j qs)) X.

Lemma digit_poly_length j : length (digit_poly j) = (2 ^ k)%nat.
Proof. unfold digit_poly. by rewrite length_map. Qed.

(** The constants of the conversion of a digit. *)
Lemma hat_pairs_split vs : map fst (hat_pairs vs) = hats vs /\ map snd (hat_pairs vs) = map (pre_hat vs) vs.
Proof. unfold hat_pairs, hats. by rewrite !map_map. Qed.

Lemma switch_digit_ok j : (j < bm)%nat ->
  ApproxSwitchCRTBasis_128 (dparams k z0 (part a j ts)) (dparams k z0 (compl ts ps a m j)) (map fst (hat_pairs (part a j qs)))
    (map snd (hat_pairs (part a j qs))) (quotients (part a j qs) (compl ts ps a m j)) (mus (compl ts ps a m j))
    (dcrt k z0 COEFFICIENT (part a j qs) X)
  = Ok (dcrt k z0 COEFFICIENT (compl ts ps a m j) (digit_poly j)).
Proof.
  intros Hj. destruct (hat_pairs_split (part a j qs)) as [-> ->].
  assert (basis U (compl ts ps a m j)) as Hc by (replace m with (S (m - 1)) by lia; by apply (compl_basis k U HU)).
  apply (ApproxSwitchCRTBasis_dcrt k U HU (part a j qs) (part_level_basis j) _ Hc).
  - rewrite part_length. lia.
  - intros t Ht. by apply (pre_hat_ok k U HU); [apply part_level_basis|].
  - cbn. rewrite length_map. unfold qs. rewrite part_take, length_take. lia.
  - done.
Qed.

(** The towers of the converted digit and of the digit itself, in the order of all towers. *)
Lemma compl_before j i : (i < a * j)%nat -> (j < bm)%nat -> compl ts ps a m j !! i = (qs ++ ps) !! i.
Proof.
  intros Hi Hj. pose proof (part_start ts np a Ha m j Hm Hj) as Hs. unfold compl, others. fold qs.
  rewrite !lookup_app_l by (rewrite ?length_app, ?length_take, ?qs_length; lia). by rewrite lookup_take_lt by done.
Qed.

Lemma compl_after j i : (a * j + length (part a j qs) <= i)%nat -> (j < bm)%nat ->
  compl ts ps a m j !! (i - length (part a j qs))%nat = (qs ++ ps) !! i.
Proof.
  intros Hi Hj. pose proof (part_start ts np a Ha m j Hm Hj) as Hs. unfold compl, others. fold qs.
  pose proof (part_length a j qs) as HL. rewrite qs_length in HL.
  assert (qs ++ ps = take (a * j) qs ++ part a j qs ++ drop (a * (j + 1)) qs ++ ps) as ->
    by (rewrite (part_split a j qs) at 1; by rewrite <- !app_assoc).
  assert (length (take (a * j) qs) = a * j)%nat as HT by (rewrite length_take, qs_length; lia). rewrite <- app_assoc.
  rewrite (lookup_app_r (take (a * j) qs) (drop (a * (j + 1)) qs ++ ps)), (lookup_app_r (take (a * j) qs) (part a j qs ++ _)), (lookup_app_r (part a j qs)), HT by lia.
  f_equal. lia.
Qed.

Lemma part_inside j i : (a * j <= i < a * j + length (part a j qs))%nat -> (j < bm)%nat ->
  part a j qs !! (i - a * j)%nat = (qs ++ ps) !! i.
Proof.
  intros Hi Hj. pose proof (part_length a j qs) as HL. rewrite qs_length in HL.
  rewrite part_lookup by lia. rewrite lookup_app_l by (rewrite qs_length; lia). f_equal. lia.
Qed.

Lemma compl_length j : (j < bm)%nat -> (length (compl ts ps a m j) + length (part a j qs) = m + length ps)%nat.
Proof.
  intros Hj. unfold compl. fold qs. rewrite length_app. pose proof (f_equal length (part_split a j qs)) as E.
  rewrite !length_app, qs_length in E. unfold others. rewrite length_app. lia.
Qed.

(** The entries of the tables for a digit. *)
Lemma digit_entries j : (j < bm)%nat ->
  (exists r, vget (m_paramsComplPartQ tables) (m - 1) = Ok r /\ vget r j = Ok (dparams k z0 (compl ts ps a m j), mus (compl ts ps a m j))) /\
  GetPartQlHatInvModq tables j (length (part a j qs) - 1) = Ok (hat_pairs (part a j qs)) /\
  GetPartQlHatModp tables (m - 1) j = Ok (quotients (part a j qs) (compl ts ps a m j)).
Proof.
  intros Hj. destruct bm_bounds as (B1 & B2 & B3). destruct (part_bounds ts np a Ha) as (_ & Ha0 & _).
  pose proof (part_start ts np a Ha m j Hm Hj) as Hs. pose proof (part_length a j qs) as HL. rewrite qs_length in HL.
  assert (seq 0 n !! (m - 1)%nat = Some (m - 1)%nat) as E1 by (apply lookup_seq_lt; lia).
  assert (S (m - 1) = m) as E2 by lia. assert (seq 0 bm !! j = Some j) as E3 by (by apply lookup_seq_lt).
  unfold GetPartQlHatInvModq, GetPartQlHatModp, tables_of. cbn [m_paramsComplPartQ m_PartQlHatInvModq m_PartQlHatModp]. split_and!.
  - eexists. split; [apply (vget_map _ _ _ _ E1)|]. cbv beta. rewrite E2. by rewrite (vget_map _ _ _ _ E3).
  - assert (length (part a j qs) - 1 < length (part a j ts))%nat by (unfold qs in HL |- *; rewrite part_take, length_take in HL |- *; lia).
    rewrite list_lookup_fmap, (lookup_seq_lt 0 np j) by lia. cbn [fmap option_fmap option_map]. rewrite list_lookup_fmap, lookup_seq_lt by done. cbn [fmap option_fmap option_map Nat.add].
    replace (S (length (part a j qs) - 1)) with (length (part a j qs)) by lia. do 2 f_equal. unfold qs. rewrite part_take, length_take.
    destruct (Nat.min_spec (m - a * j) (length (part a j ts))) as [[Hlt ->] | [Hle ->]]; [done|]. by rewrite !take_ge by lia.
  - fold n. rewrite list_lookup_fmap, E1. cbn [fmap option_fmap option_map]. rewrite list_lookup_fmap, E2. fold bm. rewrite E3. done.
Qed.

Lemma extend_digit_ok j st : (j < bm)%nat -> ready st ->
  returns (extend_digit af ai tables (dparams k z0 (qs ++ ps)) m (m + length ps) (dcrt k z0 EVALUATION (part a j qs) X) j st)
    (fun '(d, st') => d = dcrt k z0 EVALUATION (qs ++ ps) (digit_poly j) /\ ready st').
Proof.
  intros Hj Hst. destruct bm_bounds as (B1 & B2 & B3). unfold extend_digit.
  eapply returns_bind; [by apply (SetFormat_dcrt af ai k U HU z0 _ (part_level_basis j))|]. intros [c st1] [-> H1].
  change (m_paramsPartQ tables) with (parts k ts np a). change (m_numPerPartQ tables) with a.
  rewrite (parts_get k ts np a), bind_Ok by lia.
  replace (length (m_vectors (dcrt k z0 EVALUATION (part a j qs) X))) with (length (part a j qs)) by (cbn; by rewrite length_map).
  destruct (digit_entries j Hj) as ((r1 & E1 & F1) & E2 & E3).
  rewrite E1, bind_Ok, F1, bind_Ok, E2, bind_Ok, E3, bind_Ok, switch_digit_ok, bind_Ok by done.
  assert (basis U (compl ts ps a m j)) as Hc by (replace m with (S (m - 1)) by lia; by apply (compl_basis k U HU)).
  eapply returns_bind; [apply (SetFormat_dcrt af ai k U HU z0 _ Hc); [apply digit_poly_length | exact H1]|]. intros [d st2] [-> H2].
  rewrite (DCRTPoly_new_dcrt k U HU z0 _ qsp_basis), bind_Ok. cbn [dcrt m_vectors].
  pose proof (compl_length j Hj) as HC. pose proof (part_length a j qs) as HL. rewrite qs_length in HL. pose proof (part_start ts np a Ha m j Hm Hj) as Hs.
  set (G := fun i => tower k EVALUATION (digit_poly j) ((qs ++ ps) !!! i)).
  assert (length (qs ++ ps) = m + length ps)%nat as HN by (by rewrite length_app, qs_length).
  set (vs0 := map (tower k EVALUATION (pzero k)) (qs ++ ps)).
  assert (length vs0 = m + length ps)%nat as HV by (unfold vs0; by rewrite length_map).
  set (s := (a * j)%nat) in *. set (e := (s + length (part a j qs))%nat).
  assert (forall (i : nat) (ws : list (Z * Z)) (i' : nat), ws !! i' = (qs ++ ps) !! i -> (i < m + length ps)%nat -> ws !! i' = Some ((qs ++ ps) !!! i)) as Hget.
  { intros i ws i' -> Hi. apply list_lookup_lookup_total_lt. lia. }
  pose proof (fill_towers G (GetElementAtIndex (dcrt k z0 EVALUATION (compl ts ps a m j) (digit_poly j))) 0 s vs0 EVALUATION (dparams k z0 (qs ++ ps))) as L1.
  pose proof (fill_towers G (fun i => GetElementAtIndex (dcrt k z0 EVALUATION (part a j qs) X) (i - s)) s e vs0 EVALUATION (dparams k z0 (qs ++ ps))) as L2.
  pose proof (fill_towers G (fun i => GetElementAtIndex (dcrt k z0 EVALUATION (compl ts ps a m j) (digit_poly j)) (i - length (part a j qs))) e (m + length ps) vs0
    EVALUATION (dparams k z0 (qs ++ ps))) as L3.
  cbn [seq map app] in L1. rewrite drop_0 in L1.
  change (dcrt k z0 EVALUATION (qs ++ ps) (pzero k)) with (mkDCRT vs0 EVALUATION (dparams k z0 (qs ++ ps))).
  rewrite L1, bind_Ok; [| lia | lia | done |].
  2: { intros i Hi. apply GetElementAtIndex_at. cbn. rewrite list_lookup_fmap, (Hget i) by (lia || (apply compl_before; [lia | done])). done. }
  rewrite L2, bind_Ok; [| lia | lia | done |].
  2: { intros i Hi. apply GetElementAtIndex_at. cbn. rewrite list_lookup_fmap, (Hget i) by (lia || (apply part_inside; [lia | done])). cbn. f_equal. unfold G.
       symmetry. apply (extended_tower k U HU); [apply part_level_basis|]. eapply list_elem_of_lookup_2. apply (Hget i); [apply part_inside; [lia | done] | lia]. }
  replace (Nat.max e (m + length ps)) with (m + length ps)%nat by lia. rewrite L3, bind_Ok; [| lia | lia | done |].
  2: { intros i Hi. apply GetElementAtIndex_at. cbn. rewrite list_lookup_fmap, (Hget i) by (lia || (apply compl_after; [lia | done])). done. }
  rewrite drop_ge, app_nil_r by lia. split; [|done]. unfold G. rewrite <- HN. apply dcrt_seq.
Qed.

Lemma EvalKeySwitchPrecomputeCore_ok st : ready st ->
  returns (EvalKeySwitchPrecomputeCore af ai dist rfuel fuel tables (dcrt k omc EVALUATION qs X) st)
    (fun '(ds, st') => ds = map (fun j => dcrt k z0 EVALUATION (qs ++ ps) (digit_poly j)) (seq 0 bm) /\ ready st').
Proof.
  intros Hst. destruct bm_bounds as (B1 & B2 & B3). destruct (part_bounds ts np a Ha) as (_ & Ha0 & _). unfold EvalKeySwitchPrecomputeCore.
  eapply (returns_bind _ _ (fun '(p, st') => p = dparams k z0 (qs ++ ps) /\ ready st')).
  { unfold GetExtendedCRTBasis. cbn [dcrt m_vectors Dcrt.m_params dparams d_parms d_ringDimension h_paramsP tables_of].
    rewrite length_map, (vmapM_Ok _ (fun i => tparams k (qs !!! i))), bind_Ok.
    2: { apply Forall_forall. intros i [_ Hi]%elem_of_seq. by apply vget_map, list_lookup_lookup_total_lt. }
    rewrite (map_seq_list (tparams k) qs), <- map_app, !map_map.
    assert (exists p, p ∈ ps) as [p Hp] by (clear - Hps; destruct ps as [|p ps']; [done | exists p; left]).
    rewrite (order_u32 k U HU p) by (apply Hqp, elem_of_app; by right).
    apply (DCRTParams_lists_ok k U HU dist rfuel fuel Hfuel (qs ++ ps) z0 st qsp_basis); [|done]. intros E%app_eq_nil. by destruct E. }
  intros [p st1] [-> H1]. cbn [dcrt Dcrt.m_params dparams d_parms]. rewrite !length_map, qs_length.
  change (m_numPerPartQ tables) with a. rewrite ceil_div_ok, bind_Ok by done. fold (beta a m). fold bm.
  replace (Nat.min bm (length (m_paramsPartQ tables))) with bm by (cbn [m_paramsPartQ tables_of]; unfold parts; rewrite length_map, length_seq; lia).
  eapply returns_bind; [apply (towers_st_ok ready _ (fun j => dcrt k z0 EVALUATION (part a j qs) X)); [|exact H1]|].
  { intros j st' [_ Hj]%elem_of_seq Hs. by apply digit_part_ok. }
  intros [cs st2] [-> H2]. apply (towers_st_ok ready); [|done]. intros j st' [_ Hj]%elem_of_seq Hs.
  rewrite (vget_map (fun j => dcrt k z0 EVALUATION (part a j qs) X) _ _ j) by (by apply lookup_seq_lt). rewrite bind_Ok.
  replace (length (d_parms (h_paramsP tables))) with (length ps) by (cbn; by rewrite length_map). by apply extend_digit_ok.
Qed.
End Digits.
