(* ===== verification/KeyKeys.v ===== *)
(** * Hybrid key switching: the keys

    What the two variants of [KeySwitchGen] compute: over every tower, part [j] of the key is
    [- a_j * s + ns * e_j], plus [P * sOld] over the towers of part [j]. For a public key of [s]
    the mask [a_j] and the error [e_j] are made of the public key and the samples. *)
From Stdlib Require Import ZArith Znumtheory Zcong Lia.
From stdpp Require Import base numbers list sets.
From S2P Require Import Prelude Bits NativeInt NativeIntProps NativeVector Ntt NttProps FttProps NbTheory NbTheoryProps BigInt BigDiv BigIntProps BigRefine BigVectorProps BigNtt BigFttProps Poly PolyProps PolyRing PolyAlg RgswRing BinWitness Dcrt DcrtTowers Crt DcrtProps DcrtInterp DcrtScale DcrtBasis DcrtRing Rns RnsProps KeySwitch KeyTables.
Open Scope Z_scope.

(** ** Products of integer polynomials *)

Definition zmul (f g : list Z) : list Z :=
  map (fun r => nsum (fun i => f !!! i * rotate (length f) g i r) (length f)) (seq 0 (length f)).

Lemma zmul_length f g : length (zmul f g) = length f.
Proof. unfold zmul. by rewrite length_map, length_seq. Qed.

Lemma residues_zmul q f g : 0 < q -> length g = length f -> residues q (zmul f g) = negacyclic q (residues q f) (residues q g).
Proof.
  intros Hq Hl. unfold zmul, negacyclic. rewrite residues_map.
  replace (length (residues q f)) with (length f) by (unfold residues; by rewrite length_map).
  apply map_ext_in. intros r Hr%in_seq. apply eqmod_elim, nsum_eqmod. intros i Hi.
  rewrite (residues_rotate q (length f) g i r) by lia. by rewrite residues_at, eqmod_mod by lia.
Qed.

Lemma nsum_bound c b n : (forall i, (i < n)%nat -> Z.abs (c i) <= b) -> Z.abs (nsum c n) <= Z.of_nat n * b.
Proof. induction n as [|n IH]; intros H; cbn [nsum]; [lia|]. pose proof (IH ltac:(intros; apply H; lia)). pose proof (H n ltac:(lia)). lia. Qed.

Definition bounded (b : Z) (f : list Z) : Prop := Forall (fun x => Z.abs x <= b) f.

Lemma bounded_at b f i : bounded b f -> (i < length f)%nat -> Z.abs (f !!! i) <= b.
Proof. intros H Hi. by apply (Forall_lookup_total_1 _ _ _ H). Qed.

Lemma bounded_in b f x : bounded b f -> x ∈ f -> Z.abs x <= b.
Proof. intros H Hx. by apply (proj1 (Forall_forall _ _) H). Qed.

Lemma zmul_bounded bf bg f g : length g = length f -> bounded bf f -> bounded bg g -> 0 <= bf ->
  bounded (Z.of_nat (length f) * (bf * bg)) (zmul f g).
Proof.
  intros Hl Hf Hg Hbf. apply Forall_map, Forall_forall. intros r Hr%elem_of_seq. apply nsum_bound. intros i Hi. rewrite Z.abs_mul.
  pose proof (bounded_at bf f i Hf Hi). assert (Z.abs (rotate (length f) g i r) <= bg).
  { unfold rotate. destruct (r <? i)%nat eqn:E; [apply Nat.ltb_lt in E; rewrite Z.abs_opp | apply Nat.ltb_ge in E]; apply bounded_at; (done || lia). }
  apply Z.mul_le_mono_nonneg; lia.
Qed.

Section Elements.
Context `{W : NativeWidth}.
Context (k : nat) (t : Z * Z) (Ht : root_at k t).
Abbreviation relem := (ring_elem (fst t) k).

Lemma elem_Plus F f g : relem f -> relem g -> Poly.Plus (elem k F t f) (elem k F t g) = Ok (elem k F t (padd (fst t) f g)).
Proof.
  intros Hf Hg. pose proof (elem_PlusEq k t Ht F f g Hf Hg) as E. unfold Poly.PlusEq in E. unfold Poly.Plus.
  cbn [elem repr Poly.m_params m_values deref] in E |- *. rewrite params_eqb_refl in E. cbn [negb] in E. rewrite !bind_Ok in E |- *. exact E.
Qed.

Lemma elem_Times f g : relem f -> relem g ->
  Poly.Times (elem k EVALUATION t f) (elem k EVALUATION t g) = Ok (elem k EVALUATION t (negacyclic (fst t) f g)).
Proof. by apply Times_repr. Qed.

Lemma elem_neg F f : relem f -> neg_poly (elem k F t f) = Ok (elem k F t (psub (fst t) (pzero k) f)).
Proof.
  intros Hf. unfold neg_poly. change (Poly.m_params (elem k F t f)) with (tparams k t). change (Poly.m_format (elem k F t f)) with F.
  rewrite (elem_new k t Ht), bind_Ok. apply (elem_minus k t Ht); [apply (pzero_elem _ (snd t) k Ht) | done].
Qed.

(** The product with a noise scale that is not negative as a signed word. *)
Lemma elem_signed F s f : relem f -> 0 <= s < 2 ^ (wbits - 1) ->
  Times_signed (elem k F t f) (to_signed (wrap s)) = Ok (elem k F t (pscale (fst t) s f)).
Proof.
  intros Hf Hs. pose proof wbits_range. assert (2 ^ wbits = 2 * 2 ^ (wbits - 1)) as E2 by (rewrite <- Z.pow_succ_r by lia; f_equal; lia).
  pose proof (root_word k t Ht) as (H4 & _ & Hw & _).
  assert (to_signed (wrap s) = s) as Es by (unfold to_signed; rewrite !wrap_small by (rewrite ?wrap_small by lia; lia); by rewrite (proj2 (Z.ltb_lt _ _)) by lia).
  unfold Times_signed. rewrite Es, (proj2 (Z.ltb_ge _ _)) by lia. change (Poly.GetModulus (elem k F t f)) with (fst t). rewrite wrap_small by lia.
  set (r := if s >? fst t then s mod fst t else s).
  assert ((if s >? fst t then NativeInt.ModEq s (fst t) else Ok s) = Ok r) as ->.
  { unfold r. destruct (s >? fst t); [|done]. unfold NativeInt.ModEq. by rewrite umod_pos by lia. }
  rewrite bind_Ok. assert (0 <= r < 2 ^ wbits) as Hr.
  { unfold r. pose proof (mod_range s (fst t) ltac:(lia)). destruct (s >? fst t); lia. }
  pose proof (proj2 (elem_scale k t Ht F r f Hf Hr)) as E. unfold Times_scalar in E. rewrite E. do 2 f_equal.
  unfold pscale. apply (map_residue_ext (fst t)). intros x _. unfold r. destruct (s >? fst t); [by rewrite eqmod_mod | done].
Qed.

(** Values given in the coefficient representation. *)
Lemma elem_SetValues f : relem f ->
  Poly.SetValues (mkPoly None EVALUATION (tparams k t)) (mkVector f (fst t)) COEFFICIENT = Ok (elem k COEFFICIENT t f).
Proof. intros [Hl _]. apply (SetValues_ok _ _ k Ht _ COEFFICIENT f (tparams k t)); [apply tparams_ring | done | done]. Qed.
End Elements.

Lemma sampled_entry_ok `{W : NativeWidth} q e : Z.abs e < q -> q < 2 ^ wbits -> sampled_entry q e = e mod q.
Proof.
  intros He Hq. unfold sampled_entry. destruct (Z.ltb_spec e 0).
  - rewrite (wrap_small (- e)), wrap_small by lia. apply eqmod_unique; [lia|].
    replace (q - - e) with (e + 1 * q) by lia. apply eqmod_multiple.
  - rewrite wrap_small, Z.mod_small by lia. done.
Qed.
Lemma gaussian_entry_ok `{W : NativeWidth} std_above q e : Z.abs e < q -> q < 2 ^ (wbits - 1) -> gaussian_entry std_above q e = Ok (e mod q).
Proof.
  intros He Hq. pose proof wbits_range. assert (2 ^ (wbits - 1) <= 2 ^ wbits) by (apply Z.pow_le_mono_r; lia). unfold gaussian_entry.
  assert (to_signed q = q) as -> by (unfold to_signed; rewrite wrap_small by lia; by rewrite (proj2 (Z.ltb_lt _ _)) by lia).
  rewrite (proj2 (Z.eqb_neq _ _)) by lia. assert (Z.rem e q = e) as ->.
  { destruct (Z.le_gt_cases 0 e); [apply Z.rem_small; lia|]. rewrite <- (Z.opp_involutive e), Z.rem_opp_l, Z.rem_small by lia. done. }
  rewrite sampled_entry_ok by lia. by destruct (std_above q).
Qed.

Section Keys.
Context `{W : NativeWidth}.
Context (af ai : NativeVectorT -> ILParams -> outcome NativeVectorT).
Context (k : nat) (U : list (Z * Z)) (HU : moduli_ok k U).
Abbreviation ready := (ready k U).
Abbreviation z0 := (ubint_int 0).

Lemma family_seq om ws F h : mkDCRT (map (fun i => elem k F (ws !!! i) (h (ws !!! i))) (seq 0 (length ws))) F (dparams k om ws) = family k om ws F h.
Proof. unfold family. by rewrite (map_seq_list (fun t => elem k F t (h t)) ws). Qed.

Lemma family_get om ws F h i : (i < length ws)%nat -> GetElementAtIndex (family k om ws F h) i = Ok (elem k F (ws !!! i) (h (ws !!! i))).
Proof. intros Hi. apply GetElementAtIndex_at. cbn. by rewrite list_lookup_fmap, list_lookup_lookup_total_lt. Qed.

(** ** Sampled elements *)

Lemma DCRTPoly_uniform_ok om ws (h : Z * Z -> list Z) st : basis U ws -> (forall t, t ∈ ws -> ring_elem (fst t) k (h t)) -> ready st ->
  returns (DCRTPoly_uniform af ai (map (fun t => mkVector (h t) (fst t)) ws) (dparams k om ws) EVALUATION st)
    (fun '(d, st') => d = family k om ws EVALUATION h /\ ready st').
Proof.
  intros Hb Hh Hst. unfold DCRTPoly_uniform. cbn [dparams d_parms]. rewrite length_map.
  eapply returns_bind; [apply (towers_st_ok ready _ (fun i => elem k EVALUATION (ws !!! i) (h (ws !!! i)))); [|exact Hst]|].
  - intros i st' [_ Hi]%elem_of_seq Hs. pose proof (list_lookup_lookup_total_lt ws i Hi) as Ei.
    assert (ws !!! i ∈ ws) as Hin by (by eapply list_elem_of_lookup_2).
    rewrite (vget_map (tparams k) _ _ _ Ei), bind_Ok, (vget_map (fun t => mkVector (h t) (fst t)) _ _ _ Ei), bind_Ok.
    rewrite (elem_SetValues k _ (basis_root k U HU ws _ Hb Hin)), bind_Ok by (by apply Hh).
    apply (elem_SetFormat af ai k U (mo_root k U HU) (mo_distinct k U HU)); [by apply Hb | by apply Hh | done].
  - intros [vs st'] [-> Hs]. split; [|done]. apply family_seq.
Qed.

Lemma signed_towers_ok entry om ws E st : basis U ws -> length E = (2 ^ k)%nat ->
  (forall t e, t ∈ ws -> e ∈ E -> entry (fst t) e = Ok (e mod fst t)) -> ready st ->
  returns (signed_towers af ai entry E (dparams k om ws) EVALUATION st)
    (fun '(d, st') => d = dcrt k om EVALUATION ws E /\ ready st').
Proof.
  intros Hb HE Hent Hst. unfold signed_towers. cbn [dparams d_parms d_ringDimension].
  eapply returns_bind; [apply (towers_map_ok ready _ (tparams k) (tower k EVALUATION E)); [|exact Hst]|].
  - intros t st' Hin Hs. pose proof (basis_root k U HU ws t Hb Hin) as Hr. pose proof (root_word k t Hr) as (H4 & _ & Hw & _).
    replace (Z.to_nat (2 ^ Z.of_nat k)) with (2 ^ k)%nat by (rewrite <- (Nat2Z.id (2 ^ k)), <- pow2_nat_Z; done).
    cbn [tparams ciphertextModulus].
    rewrite NativeVectorT_new_ok, bind_Ok by apply Hr. cbn [NativeVector.m_data NativeVector.m_modulus].
    pose proof (fill_vector (fun j => k0 ← vget E j; entry (fst t) k0) (fun j => E !!! j mod fst t) 0 (2 ^ k)) as Hf.
    assert (forall j d, (k0 ← vget E j; e ← entry (fst t) k0; vset d j e) = (c ← (k0 ← vget E j; entry (fst t) k0); vset d j c)) as Hassoc
      by (intros; by rewrite bind_assoc).
    rewrite (for_range_ext _ (fun j data => c ← (k0 ← vget E j; entry (fst t) k0); vset data j c)) by (intros; apply Hassoc).
    rewrite Hf, bind_Ok.
    2: { intros j Hj. rewrite vget_total, bind_Ok by lia. apply Hent; [done|]. apply (list_elem_of_lookup_2 _ j), list_lookup_lookup_total_lt. lia. }
    assert (map (fun j => E !!! j mod fst t) (seq 0 (2 ^ k)) = residues (fst t) E) as -> by (rewrite <- HE; apply (map_seq_list (fun x => x mod fst t))).
    rewrite (elem_SetValues k t Hr), bind_Ok by (by apply (tower_elem k U HU ws Hb)).
    apply (elem_SetFormat af ai k U (mo_root k U HU) (mo_distinct k U HU)); [by apply Hb | by apply (tower_elem k U HU ws Hb) | done].
  - intros [vs st'] [-> Hs]. by split.
Qed.

Lemma DCRTPoly_gaussian_ok std_above om ws E st : basis U ws -> length E = (2 ^ k)%nat ->
  (forall t e, t ∈ ws -> e ∈ E -> Z.abs e < fst t) -> ready st ->
  returns (DCRTPoly_gaussian af ai std_above E (dparams k om ws) EVALUATION st)
    (fun '(d, st') => d = dcrt k om EVALUATION ws E /\ ready st').
Proof.
  intros Hb HE Hs Hst. apply signed_towers_ok; [done | done | | done]. intros t e Ht He.
  destruct (tower_modulus k U HU t ltac:(by apply Hb)) as (_ & _ & H2 & _). apply gaussian_entry_ok; [by apply Hs | lia].
Qed.

(** ** The new secret over all moduli *)

Lemma centered_residue q x : 0 < q -> - q < 2 * x < q -> centered q (x mod q) = x.
Proof.
  intros Hq Hx. pose proof (mod_range x q Hq) as Hr. destruct (centered_range q (x mod q) Hr) as [Hc He]. set (c := centered q (x mod q)) in *. rewrite eqmod_mod in He.
  apply eqmod_divide in He as [z Ez]; [|done]. assert (z = 0) by nia. subst z. lia.
Qed.

Section Generation.
Context (om omp : ubint) (ts ps : list (Z * Z)) (Hqp : basis U (ts ++ ps)) (Hps : ps <> []).
Context (np a : nat) (Ha : towers_per_part (length ts) np = Ok a).
Let n := length ts.
Let ws := ts ++ ps.
Abbreviation tables := (tables_of k om omp ts ps np a).

(** The new secret has coefficients below half of the first modulus. *)
Context (S Sold : list Z) (HS_len : length S = (2 ^ k)%nat) (HSo : length Sold = (2 ^ k)%nat).
Context (HS0 : forall s, s ∈ S -> Z.abs (2 * s) < fst (ts !!! 0%nat)).

Lemma towers_pos : (0 < n)%nat.
Proof. destruct (part_bounds ts np a Ha) as (H1 & H2 & H3 & H4). unfold n. nia. Qed.

Lemma ws_length : length ws = (n + length ps)%nat.
Proof. unfold ws. by rewrite length_app. Qed.

Lemma first_tower_recentered (t : Z * Z) : recenter (fst (ts !!! 0%nat)) (fst t) (residues (fst (ts !!! 0%nat)) S) = residues (fst t) S.
Proof.
  pose proof towers_pos as Hn. pose proof (list_lookup_lookup_total_lt ts 0 Hn) as E0.
  pose proof (root_word k _ (basis_root k U HU ws (ts !!! 0%nat) Hqp ltac:(apply elem_of_app; left; by eapply list_elem_of_lookup_2))) as (H4 & _).
  unfold residues. rewrite recenter_map. apply map_ext_in. intros x Hx%list_elem_of_In. rewrite centered_residue; [done | lia |].
  pose proof (HS0 x Hx). lia.
Qed.

(** ** The parts of the key *)

Lemma ws_distinct i j : (i < length ws)%nat -> (j < length ws)%nat -> ws !!! i = ws !!! j -> i = j.
Proof.
  intros Hi Hj E. destruct Hqp as [_ Hd]. apply (NoDup_lookup (map fst ws) i j (fst (ws !!! i)) Hd).
  - rewrite list_lookup_fmap. by rewrite list_lookup_lookup_total_lt.
  - rewrite list_lookup_fmap, list_lookup_lookup_total_lt by done. by rewrite E.
Qed.

Lemma in_part_ok j i : (i < length ws)%nat -> in_part tables j i = bool_decide (ws !!! i ∈ part a j ts).
Proof.
  intros Hi. unfold in_part. replace (length (d_parms (h_paramsQ tables))) with n by (cbn; by rewrite length_map).
  change (m_numPerPartQ tables) with a. set (e := if (a * j + a <? n)%nat then (a * j + a)%nat else n).
  assert (e = Nat.min (a * j + a) n) as He by (unfold e; destruct (Nat.ltb_spec (a * j + a) n); lia). rewrite He. pose proof ws_length as HW.
  symmetry. case_bool_decide as Hin.
  - apply list_elem_of_lookup in Hin as [x Ex]. assert (x < length (part a j ts))%nat as Hx by (by eapply lookup_lt_Some).
    rewrite part_length in Hx. fold n in Hx. rewrite part_lookup in Ex by lia.
    assert (i = a * j + x)%nat as ->.
    { apply ws_distinct; [done | unfold ws; rewrite length_app; unfold n in Hx; lia |]. symmetry. apply list_lookup_total_correct.
      unfold ws. rewrite lookup_app_l by (unfold n in Hx; lia). done. }
    rewrite (proj2 (Nat.ltb_ge _ _)), (proj2 (Nat.leb_gt _ _)) by lia. done.
  - destruct (Nat.ltb_spec i (a * j)); [done|]. destruct (Nat.leb_spec (Nat.min (a * j + a) n) i); [done|].
    exfalso. apply Hin. apply (list_elem_of_lookup_2 _ (i - a * j)). rewrite part_lookup by lia. replace (a * j + (i - a * j))%nat with i by lia.
    unfold ws. rewrite lookup_total_app_l by (unfold n in *; lia). apply list_lookup_lookup_total_lt. unfold n in *. lia.
Qed.

Context (ns : Z) (Hns : 0 <= ns < 2 ^ (wbits - 1)) (std_above : Z -> bool).
Context (A : nat -> Z * Z -> list Z) (HA : forall j t, t ∈ ws -> ring_elem (fst t) k (A j t)).
Context (E : nat -> list Z) (HE : forall j, length (E j) = (2 ^ k)%nat) (HEs : forall j t e, t ∈ ws -> e ∈ E j -> Z.abs e < fst t).

(** Part [j] of the key over a tower. *)
Definition key_poly (j : nat) (t : Z * Z) : list Z :=
  let q := fst t in
  let mask := negacyclic q (psub q (pzero k) (A j t)) (residues q S) in
  let noise := pscale q ns (residues q (E j)) in
  if bool_decide (t ∈ part a j ts) then padd q (padd q mask (pscale q (Qof ps mod q) (residues q Sold))) noise
  else padd q mask noise.

Lemma key_poly_elem j t : t ∈ ws -> ring_elem (fst t) k (key_poly j t).
Proof.
  intros Ht. pose proof (basis_root k U HU ws t Hqp Ht) as Hr.
  pose proof (tower_elem k U HU ws Hqp t S Ht HS_len). pose proof (tower_elem k U HU ws Hqp t Sold Ht HSo).
  pose proof (tower_elem k U HU ws Hqp t (E j) Ht (HE j)). pose proof (HA j t Ht). unfold key_poly.
  assert (ring_elem (fst t) k (pzero k)) by apply (pzero_elem _ (snd t) k Hr).
  destruct (bool_decide _); repeat first [done | apply (padd_elem _ (snd t) k Hr) | apply (negacyclic_elem _ (snd t) k Hr) | apply (psub_elem _ (snd t) k Hr) | apply (pscale_elem _ (snd t) k Hr)].
Qed.

(** The tower of the old secret times [P], where the part has it. *)
Lemma old_secret_tower omo j i : (i < length ws)%nat -> ws !!! i ∈ part a j ts ->
  let t := ws !!! i in
  GetElementAtIndex (dcrt k omo EVALUATION ts Sold) i = Ok (tower k EVALUATION Sold t) /\
  vget (PModq (m_special tables)) i = Ok (Qof ps mod fst t) /\
  Times_scalar (tower k EVALUATION Sold t) (Qof ps mod fst t) = Ok (elem k EVALUATION t (pscale (fst t) (Qof ps mod fst t) (residues (fst t) Sold))).
Proof.
  intros Hi Hin t. pose proof (list_lookup_lookup_total_lt ws i Hi) as Ei. fold t in Ei, Hin. assert (t ∈ ws) as Ht by (by eapply list_elem_of_lookup_2).
  pose proof (basis_root k U HU ws t Hqp Ht) as Hr. assert (t ∈ ts) as Hts by (exact (elem_of_part a j ts t Hin)).
  assert (i < n)%nat as Hin'.
  { apply list_elem_of_lookup in Hts as [x Ex]. assert (x < length ts)%nat by (by eapply lookup_lt_Some).
    assert (i = x) as ->; [|done]. apply ws_distinct; [done | unfold ws; rewrite length_app; lia |]. fold t. symmetry. apply list_lookup_total_correct.
    unfold ws. by rewrite lookup_app_l. }
  assert (ts !!! i = t) as Et by (unfold t, ws; by rewrite lookup_total_app_l). split_and!.
  - by rewrite (dcrt_get k omo EVALUATION ts Sold i Hin'), Et.
  - cbn [tables_of m_special special_of PModq]. apply (vget_map (fun q => Qof ps mod fst q)). rewrite <- Et. by apply list_lookup_lookup_total_lt.
  - pose proof (root_word k t Hr) as (H4 & _ & Hw & _). pose proof (mod_range (Qof ps) (fst t) ltac:(lia)) as Hm.
    apply (proj2 (elem_scale k t Hr EVALUATION (Qof ps mod fst t) _ (tower_elem k U HU ws Hqp t Sold Ht HSo) ltac:(lia))).
Qed.

Lemma key_tower_ok omo j i : (i < length ws)%nat ->
  key_tower tables ns (dcrt k omo EVALUATION ts Sold) (dcrt k z0 EVALUATION ws S) (family k z0 ws EVALUATION (A j)) (dcrt k z0 EVALUATION ws (E j)) j i
  = Ok (elem k EVALUATION (ws !!! i) (key_poly j (ws !!! i))).
Proof.
  intros Hi. pose proof (list_lookup_lookup_total_lt ws i Hi) as Ei. set (t := ws !!! i) in *.
  assert (t ∈ ws) as Ht by (by eapply list_elem_of_lookup_2). pose proof (basis_root k U HU ws t Hqp Ht) as Hr.
  pose proof (tower_elem k U HU ws Hqp t S Ht HS_len) as HSe. pose proof (tower_elem k U HU ws Hqp t Sold Ht HSo) as HSoe.
  pose proof (tower_elem k U HU ws Hqp t (E j) Ht (HE j)) as HEe. pose proof (HA j t Ht) as HAe.
  pose proof (psub_elem _ (snd t) k Hr _ _ (pzero_elem _ (snd t) k Hr) HAe) as Hn1. pose proof (negacyclic_elem _ (snd t) k Hr _ _ Hn1 HSe) as Hn2.
  unfold key_tower. rewrite family_get, bind_Ok, (dcrt_get k z0 EVALUATION ws (E j) i Hi), bind_Ok, (dcrt_get k z0 EVALUATION ws S i Hi), bind_Ok by done. fold t.
  rewrite (elem_neg k t Hr), bind_Ok by done. unfold tower. rewrite (elem_Times k t Hr), bind_Ok by done.
  rewrite in_part_ok by done. fold t. unfold noise_term, key_poly. destruct (bool_decide (t ∈ part a j ts)) eqn:Hin; cbn [negb].
  - apply bool_decide_eq_true in Hin. destruct (old_secret_tower omo j i Hi Hin) as (Eo & Ec & Et). fold t in Eo, Ec, Et. rewrite Eo, bind_Ok, Ec, bind_Ok, Et, bind_Ok.
    pose proof (pscale_elem _ (snd t) k Hr (Qof ps mod fst t) _ HSoe) as Hp.
    rewrite (elem_Plus k t Hr), bind_Ok by done. rewrite (elem_signed k t Hr), bind_Ok by done.
    apply (elem_Plus k t Hr); [by apply (padd_elem _ (snd t) k Hr) | by apply (pscale_elem _ (snd t) k Hr)].
  - rewrite (elem_signed k t Hr), bind_Ok by done. apply (elem_Plus k t Hr); [done | by apply (pscale_elem _ (snd t) k Hr)].
Qed.

Context (dist : nat -> Z -> Z) (rfuel : nat) `{HS : UniformSource dist rfuel} (fuel : nat) (Hfuel : (k + 1 <= fuel)%nat).

Lemma extend_secret_ok oms F st : ready st ->
  returns (extend_secret af ai dist rfuel fuel tables (dcrt k oms F ts S) st)
    (fun '(d, st') => d = dcrt k z0 EVALUATION ws S /\ ready st').
Proof.
  intros Hst. pose proof (Q_basis k U HU ts ps Hqp) as Hq. pose proof towers_pos as Hn. pose proof ws_length as HW. unfold extend_secret.
  eapply returns_bind; [by apply (SetFormat_dcrt af ai k U HU oms ts Hq)|]. intros [d st1] [-> H1].
  change (h_paramsQP tables) with (dparams k z0 ws).
  replace (length (d_parms (h_paramsQ tables))) with n by (cbn; by rewrite length_map).
  replace (length (d_parms (dparams k z0 ws))) with (n + length ps)%nat by (cbn; by rewrite length_map, HW).
  rewrite (DCRTPoly_new_dcrt k U HU z0 ws Hqp), bind_Ok.
  set (G := fun i => tower k COEFFICIENT S (ws !!! i)). set (vs0 := map (tower k COEFFICIENT (pzero k)) ws).
  assert (length vs0 = n + length ps)%nat as HV by (unfold vs0; by rewrite length_map, HW).
  pose proof (fill_towers G (GetElementAtIndex (dcrt k oms COEFFICIENT ts S)) 0 n vs0 COEFFICIENT (dparams k z0 ws)) as L1.
  cbn [seq map app] in L1. rewrite drop_0 in L1. change (dcrt k z0 COEFFICIENT ws (pzero k)) with (mkDCRT vs0 COEFFICIENT (dparams k z0 ws)).
  rewrite L1, bind_Ok; [| lia | lia | done |].
  2: { intros i Hi. rewrite dcrt_get by (unfold n in Hi; lia). unfold G, ws. by rewrite lookup_total_app_l by (unfold n in Hi; lia). }
  eapply returns_bind.
  - apply (for_range_inv (fun i '(d, st') => d = mkDCRT (map G (seq 0 i) ++ drop i vs0) COEFFICIENT (dparams k z0 ws) /\ ready st') n (n + length ps)); [lia | by split |].
    intros i [d st'] Hi [-> Hs]. pose proof (list_lookup_lookup_total_lt ws i ltac:(lia)) as Ei. assert (ws !!! i ∈ ws) as Hin by (by eapply list_elem_of_lookup_2).
    cbn [dparams d_parms]. rewrite (vget_map (tparams k) ws i _ Ei), bind_Ok, dcrt_get, bind_Ok by done. cbn [tparams ciphertextModulus rootOfUnity].
    pose proof (list_lookup_lookup_total_lt ts 0 Hn) as E0. assert (ts !!! 0%nat ∈ ts) as H0 by (by eapply list_elem_of_lookup_2).
    eapply returns_bind; [apply (elem_SwitchModulus dist rfuel fuel k Hfuel U (mo_root k U HU) (ts !!! 0%nat) (ws !!! i))|].
    + by apply (basis_root k U HU ts).
    + by apply Hqp.
    + by apply (tower_elem k U HU ts Hq).
    + done.
    + intros [v st2] [-> H2]. rewrite first_tower_recentered. fold (tower k COEFFICIENT S (ws !!! i)) (G i).
      rewrite fill_step, bind_Ok by (done || lia). by split.
  - intros [d st'] [-> Hs]. rewrite drop_ge, app_nil_r by lia. rewrite <- HW. unfold G. rewrite dcrt_seq.
    by apply (SetFormat_dcrt af ai k U HU z0 ws Hqp).
Qed.

(** The masks are those of another key or drawn. *)
Definition masks_given (prev : option (list DCRTPoly)) (draws : list (list NativeVectorT)) : Prop :=
  match prev with
  | None => draws = map (fun j => map (fun t => mkVector (A j t) (fst t)) ws) (seq 0 np)
  | Some av => av = map (fun j => family k z0 ws EVALUATION (A j)) (seq 0 np)
  end.

Lemma key_part_ok omo prev draws j st : (j < np)%nat -> masks_given prev draws -> ready st ->
  returns (key_part af ai tables ns std_above (dcrt k omo EVALUATION ts Sold) (dcrt k z0 EVALUATION ws S) prev draws (map E (seq 0 np)) j st)
    (fun '(r, st') => r = (family k z0 ws EVALUATION (A j), family k z0 ws EVALUATION (key_poly j)) /\ ready st').
Proof.
  intros Hj Hm Hst. assert (seq 0 np !! j = Some j) as Ej by (by apply lookup_seq_lt). unfold key_part. change (h_paramsQP tables) with (dparams k z0 ws).
  eapply (returns_bind _ _ (fun '(d, st') => d = family k z0 ws EVALUATION (A j) /\ ready st')).
  { destruct prev as [av|]; cbn in Hm; subst.
    - rewrite (vget_map _ _ _ _ Ej), bind_Ok. by split.
    - rewrite (vget_map _ _ _ _ Ej), bind_Ok. apply DCRTPoly_uniform_ok; [done | by apply HA | done]. }
  intros [d st1] [-> H1]. rewrite (vget_map _ _ _ _ Ej), bind_Ok.
  eapply returns_bind; [apply (DCRTPoly_gaussian_ok std_above z0 ws (E j)); [done | done | by apply HEs | exact H1]|]. intros [e st2] [-> H2].
  rewrite (DCRTPoly_new_dcrt k U HU z0 ws Hqp), bind_Ok.
  replace (length (d_parms (dparams k z0 ws))) with (length ws) by (cbn; by rewrite length_map).
  change (dcrt k z0 EVALUATION ws (pzero k)) with (mkDCRT (map (tower k EVALUATION (pzero k)) ws) EVALUATION (dparams k z0 ws)).
  rewrite (fill_all (fun i => elem k EVALUATION (ws !!! i) (key_poly j (ws !!! i)))), bind_Ok; [| by rewrite length_map | done | intros; by apply key_tower_ok].
  split; [|done]. f_equal. apply (family_seq z0 ws EVALUATION (key_poly j)).
Qed.

(** The key. *)
Definition key_of : EvalKey :=
  mkEvalKey (map (fun j => family k z0 ws EVALUATION (A j)) (seq 0 np)) (map (fun j => family k z0 ws EVALUATION (key_poly j)) (seq 0 np)).

Lemma key_generation_ok omo oms F prev draws st : masks_given prev draws -> ready st ->
  returns (KeySwitchGen af ai dist rfuel fuel tables ns std_above (dcrt k omo EVALUATION ts Sold) (dcrt k oms F ts S) prev draws (map E (seq 0 np)) st)
    (fun '(ek, st') => ek = key_of /\ ready st').
Proof.
  intros Hm Hst. unfold KeySwitchGen. eapply returns_bind; [by apply extend_secret_ok|]. intros [d st1] [-> H1].
  change (m_numPartQ tables) with np.
  eapply returns_bind; [apply (towers_st_ok ready _ (fun j => (family k z0 ws EVALUATION (A j), family k z0 ws EVALUATION (key_poly j)))); [|exact H1]|].
  { intros j st' [_ Hj]%elem_of_seq Hs. by apply key_part_ok. }
  intros [ab st2] [-> H2]. rewrite !map_map. by split.
Qed.
End Generation.
End Keys.

(** * Keys for a public key *)

Section Public.
Context `{W : NativeWidth}.
Context (af ai : NativeVectorT -> ILParams -> outcome NativeVectorT).
Context (k : nat) (U : list (Z * Z)) (HU : moduli_ok k U).
Abbreviation ready := (ready k U).
Abbreviation z0 := (ubint_int 0).
Context (om omp : ubint) (ts ps : list (Z * Z)) (Hqp : basis U (ts ++ ps)).
Context (np a : nat) (Ha : towers_per_part (length ts) np = Ok a).
Let ws := ts ++ ps.
Abbreviation tables := (tables_of k om omp ts ps np a).
Context (Sold : list Z) (HSo : length Sold = (2 ^ k)%nat) (ns : Z) (Hns : 0 <= ns < 2 ^ (wbits - 1)) (std_above : Z -> bool).

(** The public key, and the samples of the parts. *)
Context (p0 p1 : Z * Z -> list Z) (Hp0 : forall t, t ∈ ws -> ring_elem (fst t) k (p0 t)) (Hp1 : forall t, t ∈ ws -> ring_elem (fst t) k (p1 t)).
Context (V E0 E1 : nat -> list Z) (HV : forall j, length (V j) = (2 ^ k)%nat) (HE0 : forall j, length (E0 j) = (2 ^ k)%nat) (HE1 : forall j, length (E1 j) = (2 ^ k)%nat).
Context (Hsmall : forall j t e, t ∈ ws -> e ∈ V j ++ E0 j ++ E1 j -> Z.abs e < fst t).

Definition public_mask (j : nat) (t : Z * Z) : list Z :=
  let q := fst t in padd q (negacyclic q (p1 t) (residues q (V j))) (pscale q ns (residues q (E1 j))).
Definition public_poly (j : nat) (t : Z * Z) : list Z :=
  let q := fst t in
  let b := padd q (negacyclic q (p0 t) (residues q (V j))) (pscale q ns (residues q (E0 j))) in
  if bool_decide (t ∈ part a j ts) then padd q b (pscale q (Qof ps mod q) (residues q Sold)) else b.

Lemma public_mask_elem j t : t ∈ ws -> ring_elem (fst t) k (public_mask j t).
Proof.
  intros Ht. pose proof (basis_root k U HU ws t Hqp Ht) as Hr. pose proof (tower_elem k U HU ws Hqp t (V j) Ht (HV j)).
  pose proof (tower_elem k U HU ws Hqp t (E1 j) Ht (HE1 j)). pose proof (Hp1 t Ht). unfold public_mask.
  apply (padd_elem _ (snd t) k Hr); [by apply (negacyclic_elem _ (snd t) k Hr) | by apply (pscale_elem _ (snd t) k Hr)].
Qed.

(** One tower of both elements. *)
Section Step.
Context (omo : ubint) (j i : nat) (Hi : (i < length ws)%nat).
Let t := ws !!! i.

Lemma public_step da db da' db' : SetElementAtIndex da i (elem k EVALUATION t (public_mask j t)) = Ok da' -> SetElementAtIndex db i (elem k EVALUATION t (public_poly j t)) = Ok db' ->
  (e0i ← GetElementAtIndex (dcrt k z0 EVALUATION ws (E0 j)) i;
   e1i ← GetElementAtIndex (dcrt k z0 EVALUATION ws (E1 j)) i;
   ui ← GetElementAtIndex (dcrt k z0 EVALUATION ws (V j)) i;
   newp0i ← GetElementAtIndex (family k z0 ws EVALUATION p0) i;
   newp1i ← GetElementAtIndex (family k z0 ws EVALUATION p1) i;
   x ← Poly.Times newp1i ui;
   ne ← noise_term ns e1i;
   ai ← Poly.Plus x ne;
   a' ← SetElementAtIndex da i ai;
   y ← Poly.Times newp0i ui;
   ne ← noise_term ns e0i;
   bi ← Poly.Plus y ne;
   bi ← (if negb (in_part tables j i) then Ok bi
         else sOldi ← GetElementAtIndex (dcrt k omo EVALUATION ts Sold) i;
              c ← vget (PModq (m_special tables)) i;
              z ← Times_scalar sOldi c;
              Poly.Plus bi z);
   b' ← SetElementAtIndex db i bi;
   Ok (a', b')) = Ok (da', db').
Proof.
  intros Hda Hdb. pose proof (list_lookup_lookup_total_lt ws i Hi) as Ei. fold t in Ei. assert (t ∈ ws) as Ht by (by eapply list_elem_of_lookup_2).
  pose proof (basis_root k U HU ws t Hqp Ht) as Hr. pose proof (tower_elem k U HU ws Hqp t (V j) Ht (HV j)) as HVe.
  pose proof (tower_elem k U HU ws Hqp t (E0 j) Ht (HE0 j)) as H0e. pose proof (tower_elem k U HU ws Hqp t (E1 j) Ht (HE1 j)) as H1e.
  pose proof (tower_elem k U HU ws Hqp t Sold Ht HSo) as HSe. pose proof (Hp0 t Ht) as P0. pose proof (Hp1 t Ht) as P1.
  pose proof (negacyclic_elem _ (snd t) k Hr _ _ P0 HVe) as N0. pose proof (negacyclic_elem _ (snd t) k Hr _ _ P1 HVe) as N1.
  pose proof (pscale_elem _ (snd t) k Hr ns _ H0e) as G0. pose proof (pscale_elem _ (snd t) k Hr ns _ H1e) as G1.
  rewrite !(dcrt_get k z0 EVALUATION ws _ i Hi), !bind_Ok, !(family_get k z0 ws EVALUATION _ i Hi), !bind_Ok. fold t. unfold tower, noise_term.
  rewrite (elem_Times k t Hr _ _ P1 HVe), bind_Ok, (elem_signed k t Hr _ _ _ H1e Hns), bind_Ok, (elem_Plus k t Hr _ _ _ N1 G1), bind_Ok.
  fold (public_mask j t). rewrite Hda, bind_Ok.
  rewrite (elem_Times k t Hr _ _ P0 HVe), bind_Ok, (elem_signed k t Hr _ _ _ H0e Hns), bind_Ok, (elem_Plus k t Hr _ _ _ N0 G0), bind_Ok.
  rewrite (in_part_ok k U om omp ts ps Hqp np a Sold Sold HSo HSo j i Hi). fold ws. fold t. revert Hdb. unfold public_poly.
  destruct (bool_decide (t ∈ part a j ts)) eqn:Hin; cbn [negb]; intros Hdb.
  - apply bool_decide_eq_true in Hin. destruct (old_secret_tower k U HU om omp ts ps Hqp np a Sold Sold HSo HSo omo j i Hi Hin) as (Eo & Ec & Et).
    fold ws in Eo, Ec, Et. fold t in Eo, Ec, Et. rewrite Eo, bind_Ok, Ec, bind_Ok, Et, bind_Ok.
    rewrite (elem_Plus k t Hr), bind_Ok, Hdb by (by apply (padd_elem _ (snd t) k Hr) || by apply (pscale_elem _ (snd t) k Hr)). by rewrite bind_Ok.
  - rewrite bind_Ok, Hdb. by rewrite bind_Ok.
Qed.
End Step.

(** The ternary samples are below the moduli like the Gaussian ones. *)
Lemma DCRTPoly_ternary_ok om' E st : length E = (2 ^ k)%nat -> (forall t e, t ∈ ws -> e ∈ E -> Z.abs e < fst t) -> ready st ->
  returns (DCRTPoly_ternary af ai E (dparams k om' ws) EVALUATION st) (fun '(d, st') => d = dcrt k om' EVALUATION ws E /\ ready st').
Proof.
  intros HE Hs Hst. apply (signed_towers_ok af ai k U HU); [done | done | | done]. intros t e Ht He.
  destruct (tower_modulus k U HU t ltac:(by apply Hqp)) as (_ & _ & _ & Hw & _). by rewrite sampled_entry_ok by (done || by apply Hs).
Qed.

Lemma public_part_ok gaussian omo j st : (j < np)%nat -> ready st ->
  returns (public_part af ai tables ns std_above gaussian (dcrt k omo EVALUATION ts Sold) (family k z0 ws EVALUATION p0) (family k z0 ws EVALUATION p1)
      (map V (seq 0 np)) (map E0 (seq 0 np)) (map E1 (seq 0 np)) j st)
    (fun '(r, st') => r = (family k z0 ws EVALUATION (public_mask j), family k z0 ws EVALUATION (public_poly j)) /\ ready st').
Proof.
  intros Hj Hst. assert (seq 0 np !! j = Some j) as Ej by (by apply lookup_seq_lt). unfold public_part. change (h_paramsQP tables) with (dparams k z0 ws).
  rewrite (vget_map V _ _ _ Ej), bind_Ok.
  eapply (returns_bind _ _ (fun '(d, st') => d = dcrt k z0 EVALUATION ws (V j) /\ ready st')).
  { destruct gaussian; [apply (DCRTPoly_gaussian_ok af ai k U HU) | apply DCRTPoly_ternary_ok]; try done; intros; apply (Hsmall j); set_solver. }
  intros [u st1] [-> H1]. rewrite (vget_map E0 _ _ _ Ej), bind_Ok.
  eapply returns_bind; [apply (DCRTPoly_gaussian_ok af ai k U HU std_above z0 ws (E0 j)); [done | done | intros; apply (Hsmall j); set_solver | exact H1]|].
  intros [e0 st2] [-> H2]. rewrite (vget_map E1 _ _ _ Ej), bind_Ok.
  eapply returns_bind; [apply (DCRTPoly_gaussian_ok af ai k U HU std_above z0 ws (E1 j)); [done | done | intros; apply (Hsmall j); set_solver | exact H2]|].
  intros [e1 st3] [-> H3]. rewrite !(DCRTPoly_new_dcrt k U HU z0 ws Hqp), !bind_Ok.
  replace (length (d_parms (dparams k z0 ws))) with (length ws) by (cbn; by rewrite length_map).
  set (vs0 := map (tower k EVALUATION (pzero k)) ws). set (GA := fun i => elem k EVALUATION (ws !!! i) (public_mask j (ws !!! i))).
  set (GB := fun i => elem k EVALUATION (ws !!! i) (public_poly j (ws !!! i))).
  set (St := fun (G : nat -> PolyImpl) i => mkDCRT (map G (seq 0 i) ++ drop i vs0) EVALUATION (dparams k z0 ws)).
  change (dcrt k z0 EVALUATION ws (pzero k)) with (St GA 0%nat) at 1. change (dcrt k z0 EVALUATION ws (pzero k)) with (St GB 0%nat) at 1.
  assert (length vs0 = length ws) as HL by (unfold vs0; by rewrite length_map).
  rewrite (for_range_exact (fun i => (St GA i, St GB i)) 0 (length ws)), bind_Ok; [| lia |].
  - unfold St. rewrite drop_ge, !app_nil_r by lia. unfold GA, GB. by rewrite !(family_seq k z0 ws EVALUATION).
  - intros i Hi. apply public_step; [lia | apply (fill_step GA); [lia | done] | apply (fill_step GB); [lia | done]].
Qed.

Lemma KeySwitchGen_public_ok gaussian omo st : ready st ->
  returns (KeySwitchGen_public af ai tables ns std_above gaussian (dcrt k omo EVALUATION ts Sold) (family k z0 ws EVALUATION p0) (family k z0 ws EVALUATION p1)
      (map V (seq 0 np)) (map E0 (seq 0 np)) (map E1 (seq 0 np)) st)
    (fun '(ek, st') => ek = mkEvalKey (map (fun j => family k z0 ws EVALUATION (public_mask j)) (seq 0 np)) (map (fun j => family k z0 ws EVALUATION (public_poly j)) (seq 0 np)) /\ ready st').
Proof.
  intros Hst. unfold KeySwitchGen_public. change (m_numPartQ tables) with np.
  eapply returns_bind; [apply (towers_st_ok ready _ (fun j => (family k z0 ws EVALUATION (public_mask j), family k z0 ws EVALUATION (public_poly j)))); [|exact Hst]|].
  { intros j st' [_ Hj]%elem_of_seq Hs. by apply public_part_ok. }
  intros [ab st1] [-> H1]. rewrite !map_map. by split.
Qed.

(** ** The error of the key *)

(** The public key is [(- p1 * s + ns * e, p1)]. *)
Context (S E : list Z) (HS : length S = (2 ^ k)%nat) (HE : length E = (2 ^ k)%nat).
Context (Hpk : forall t, t ∈ ws -> p0 t = padd (fst t) (negacyclic (fst t) (psub (fst t) (pzero k) (p1 t)) (residues (fst t) S)) (pscale (fst t) ns (residues (fst t) E))).

Definition public_noise (j : nat) : list Z := map (fun i => zmul (V j) E !!! i + E0 j !!! i + zmul (E1 j) S !!! i) (seq 0 (2 ^ k)).

Lemma public_noise_length j : length (public_noise j) = (2 ^ k)%nat.
Proof. unfold public_noise. by rewrite length_map, length_seq. Qed.

Lemma public_noise_residues t j : t ∈ ws -> let q := fst t in
  residues q (public_noise j) = padd q (padd q (negacyclic q (residues q (V j)) (residues q E)) (residues q (E0 j))) (negacyclic q (residues q (E1 j)) (residues q S)).
Proof.
  intros Ht q. destruct (tower_modulus k U HU t ltac:(by apply Hqp)) as (_ & H4 & _). fold q in H4.
  rewrite <- !residues_zmul by (lia || (rewrite ?HV, ?HE1; done)). unfold public_noise. rewrite residues_map.
  assert (length (zmul (V j) E) = (2 ^ k)%nat) as L1 by (by rewrite zmul_length). assert (length (zmul (E1 j) S) = (2 ^ k)%nat) as L2 by (by rewrite zmul_length).
  apply list_eq_total; unfold padd.
  { rewrite !length_zip_with, length_map, length_seq. unfold residues. rewrite !length_map, L1, L2, HE0. lia. }
  intros i Hi. rewrite length_map, length_seq in Hi.
  rewrite !zip_with_at by (rewrite ?length_zip_with; unfold residues; rewrite ?length_map, ?L1, ?L2, ?HE0; lia).
  rewrite (map_seq_at _ (2 ^ k) i Hi), !residues_at by (rewrite ?L1, ?L2, ?HE0; lia). apply eqmod_elim. by rewrite !eqmod_mod.
Qed.

Lemma public_poly_key j t : t ∈ ws -> public_poly j t = key_poly k ts ps a S Sold ns public_mask public_noise j t.
Proof.
  intros Ht. pose proof (basis_root k U HU ws t Hqp Ht) as Hr. unfold public_poly, key_poly. rewrite (public_noise_residues t j Ht), (Hpk t Ht). unfold public_mask.
  pose proof (tower_elem k U HU ws Hqp t (V j) Ht (HV j)). pose proof (tower_elem k U HU ws Hqp t (E0 j) Ht (HE0 j)). pose proof (tower_elem k U HU ws Hqp t (E1 j) Ht (HE1 j)).
  pose proof (tower_elem k U HU ws Hqp t Sold Ht HSo). pose proof (tower_elem k U HU ws Hqp t S Ht HS). pose proof (tower_elem k U HU ws Hqp t E Ht HE). pose proof (Hp1 t Ht).
  pose proof (pzero_elem _ (snd t) k Hr). destruct (bool_decide _); ring_eq Hr.
Qed.

Lemma public_key_of : mkEvalKey (map (fun j => family k z0 ws EVALUATION (public_mask j)) (seq 0 np)) (map (fun j => family k z0 ws EVALUATION (public_poly j)) (seq 0 np))
  = key_of k ts ps np a S Sold ns public_mask public_noise.
Proof.
  unfold key_of. f_equal. apply map_ext. intros j. unfold family. f_equal. apply map_ext_in. intros t Ht%list_elem_of_In. f_equal. by apply public_poly_key.
Qed.

Lemma public_noise_bounded bv be b0 b1 bs j : 0 <= bv -> 0 <= b1 -> bounded bv (V j) -> bounded be E -> bounded b0 (E0 j) -> bounded b1 (E1 j) -> bounded bs S ->
  bounded (Z.of_nat (2 ^ k) * (bv * be) + b0 + Z.of_nat (2 ^ k) * (b1 * bs)) (public_noise j).
Proof.
  intros Hv H1 Bv Be B0 B1 Bs. apply Forall_map, Forall_forall. intros i [_ Hi]%elem_of_seq. cbn in Hi.
  pose proof (bounded_at _ _ i (zmul_bounded bv be (V j) E ltac:(by rewrite HE, HV) Bv Be Hv) ltac:(by rewrite zmul_length, HV)) as X1.
  pose proof (bounded_at _ _ i (zmul_bounded b1 bs (E1 j) S ltac:(by rewrite HS, HE1) B1 Bs H1) ltac:(by rewrite zmul_length, HE1)) as X2.
  pose proof (bounded_at _ _ i B0 ltac:(by rewrite HE0)). rewrite HV in X1. rewrite HE1 in X2. lia.
Qed.
End Public.
