(* ===== verification/KeyPhase.v ===== *)
(** * Hybrid key switching: the phase and the error

    The sums of products of digits and parts of the key, their division by [P], and the phase
    of the result: the switched element times the old secret, up to an error that is bounded
    and a multiple of the noise scale. *)
From Stdlib Require Import ZArith Znumtheory Zcong Lia.
From stdpp Require Import base numbers list sets.
From S2P Require Import Prelude Bits NativeInt NativeIntProps NativeVector Ntt NttProps FttProps NbTheory NbTheoryProps BigInt BigDiv BigIntProps BigRefine BigVectorProps BigNtt BigFttProps Poly PolyProps PolyAlg RgswRing Dcrt DcrtTowers Crt DcrtProps DcrtInterp DcrtScale DcrtBasis Rns RnsProps KeySwitch KeyTables KeyKeys.
Open Scope Z_scope.

(** * Lists of residues *)

Lemma psum_coefficient q k F m i : (forall j, length (F j) = (2 ^ k)%nat) -> (i < 2 ^ k)%nat ->
  length (psum q k F m) = (2 ^ k)%nat /\ psum q k F m !!! i ==[q] nsum (fun j => F j !!! i) m.
Proof.
  intros HF Hi. induction m as [|m [IHl IH]]; cbn [psum nsum]; [split; [apply repeat_length | by rewrite zero_at]|].
  split; [unfold padd; by rewrite length_zip_with, IHl, HF, Nat.min_id|]. unfold padd. rewrite zip_with_at by (rewrite ?IHl, ?HF; lia).
  by rewrite eqmod_mod, IH.
Qed.

(** Lists of residues modulo a product are determined by their residues modulo the factors. *)
Lemma residues_inj vs X Y : coprime_basis vs -> reduced (Qof vs) X -> reduced (Qof vs) Y -> length X = length Y ->
  (forall t, t ∈ vs -> residues (fst t) X = residues (fst t) Y) -> X = Y.
Proof.
  intros Hb HX HY Hl H. apply list_eq_total; [done|]. intros i Hi. apply (eqmod_small (Qof vs)); [by apply reduced_at | apply reduced_at; [done | lia]|].
  apply crt_congruent; [done|]. intros t Ht. constructor. rewrite <- !residues_at by lia. by rewrite (H t Ht).
Qed.

Lemma eqmod_cancel q c x y : 1 < q -> Z.gcd c q = 1 -> c * x ==[q] c * y -> x ==[q] y.
Proof.
  intros Hq Hg H. pose proof (eqmod_1 q _ Hq (Z.invmod_coprime c q ltac:(lia) Hg)) as Ei. set (ci := Z.invmod c q) in *.
  transitivity (ci * c * x); [rewrite Ei; apply eqmod_eq; ring|]. rewrite <- Z.mul_assoc, H, Z.mul_assoc, Ei. apply eqmod_eq. ring.
Qed.

(** ** The phase over one tower *)

Section Tower.
Context `{W : NativeWidth}.
Context (q psi : Z) (k : nat) (Hr : root_ok q psi k).
Abbreviation relem := (ring_elem q k).
Context (ns P : Z) (nd : nat) (d a e : nat -> list Z) (ind : nat -> bool) (s so : list Z).
Context (Hd : forall j, relem (d j)) (Ha : forall j, relem (a j)) (He : forall j, relem (e j)) (Hs : relem s) (Hso : relem so).

(** A part of the key, and the sums of the digits times a family of polynomials. *)
Definition key_elem (j : nat) : list Z :=
  let mask := negacyclic q (psub q (pzero k) (a j)) s in
  if ind j then padd q (padd q mask (pscale q P so)) (pscale q ns (e j)) else padd q mask (pscale q ns (e j)).
Definition products_of (c : nat -> list Z) : list Z := psum q k (fun j => negacyclic q (d j) (c j)) nd.
Definition selected : list Z := psum q k (fun j => if ind j then d j else pzero k) nd.

Lemma key_elem_elem j : relem (key_elem j).
Proof. pose proof (pzero_elem q psi k Hr). unfold key_elem. destruct (ind j); relem. Qed.
Lemma products_of_elem c : (forall j, relem (c j)) -> relem (products_of c).
Proof. intros Hc. apply (psum_elem q psi k Hr). relem. Qed.
Lemma selected_elem : relem selected.
Proof. apply (psum_elem q psi k Hr). intros j _. pose proof (pzero_elem q psi k Hr). by destruct (ind j). Qed.

Lemma ev_products i c : (forall j, relem (c j)) ->
  ev psi k i (products_of c) ==[q] nsum (fun j => ev psi k i (d j) * ev psi k i (c j)) nd.
Proof.
  intros Hc. unfold products_of. rewrite (ev_sum q psi k Hr) by relem. apply nsum_eqmod. intros j _. by apply (ev_mul q psi k Hr).
Qed.

Lemma key_phase :
  padd q (products_of key_elem) (negacyclic q (products_of a) s)
  = padd q (pscale q ns (products_of e)) (pscale q P (negacyclic q selected so)).
Proof.
  pose proof key_elem_elem as Hk. pose proof (products_of_elem key_elem Hk). pose proof (products_of_elem a Ha). pose proof (products_of_elem e He).
  pose proof selected_elem. pose proof (pzero_elem q psi k Hr) as Hz. ring_eq Hr. rewrite !ev_products by done.
  assert (ev psi k i selected ==[q] nsum (fun j => if ind j then ev psi k i (d j) else 0) nd) as ->.
  { unfold selected. rewrite (ev_sum q psi k Hr) by (intros j _; by destruct (ind j)). apply nsum_eqmod. intros j _. destruct (ind j); [done | by rewrite ev_zero]. }
  transitivity (nsum (fun j => ns * (ev psi k i (d j) * ev psi k i (e j)) + P * ev psi k i so * (if ind j then ev psi k i (d j) else 0)) nd).
  2: { apply eqmod_eq. rewrite nsum_add, !nsum_scale. ring. }
  rewrite (Z.mul_comm (nsum _ _) (ev psi k i s)), <- nsum_scale, <- nsum_add. apply nsum_eqmod. intros j _. unfold key_elem.
  destruct (ind j); ev_norm Hr; apply eqmod_eq; ring.
Qed.

Lemma selected_one j0 : (j0 < nd)%nat -> (forall j, ind j = true <-> j = j0) -> selected = d j0.
Proof.
  intros Hj Hi. unfold selected. pose proof (pzero_elem q psi k Hr) as Hz. pose proof selected_elem as Hse. unfold selected in Hse.
  apply (ev_eq q psi k Hr); [done | done |]. intros i _. rewrite (ev_sum q psi k Hr) by (intros j _; by destruct (ind j)).
  assert (forall m, (m <= nd)%nat -> nsum (fun l => ev psi k i (if ind l then d l else pzero k)) m = if (j0 <? m)%nat then ev psi k i (d j0) else 0) as H.
  { induction m as [|m IH]; intros Hm; cbn [nsum]; [done|]. rewrite IH by lia. destruct (ind m) eqn:Em.
    - apply Hi in Em as ->. rewrite (proj2 (Nat.ltb_ge j0 j0)), (proj2 (Nat.ltb_lt j0 (S j0))) by lia. lia.
    - rewrite ev_zero. destruct (Nat.ltb_spec j0 m); [rewrite (proj2 (Nat.ltb_lt j0 (S m))) by lia; lia|].
      destruct (Nat.ltb_spec j0 (S m)); [|lia]. assert (m = j0) as -> by lia. rewrite (proj2 (Hi j0) eq_refl) in Em. done. }
  rewrite H, (proj2 (Nat.ltb_lt j0 nd)) by lia. done.
Qed.

Lemma selected_none : (forall j, ind j = false) -> selected = pzero k.
Proof.
  intros Hi. unfold selected. pose proof (pzero_elem q psi k Hr) as Hz. pose proof selected_elem as Hse. unfold selected in Hse.
  apply (ev_eq q psi k Hr); [done | done |]. intros i _. rewrite (ev_sum q psi k Hr) by (intros j _; by destruct (ind j)).
  rewrite (nsum_ext _ (fun _ => 0)) by (intros j _; by rewrite Hi, ev_zero). by rewrite nsum_0, ev_zero.
Qed.
End Tower.

(** ** Families of residues are polynomials *)

Section Phase.
Context `{W : NativeWidth}.
Context (af ai : NativeVectorT -> ILParams -> outcome NativeVectorT).
Context (k : nat) (U : list (Z * Z)) (HU : moduli_ok k U).
Abbreviation ready := (ready k U).
Abbreviation z0 := (ubint_int 0).

Lemma family_polynomial vs (h : Z * Z -> list Z) : basis U vs -> (forall t, t ∈ vs -> ring_elem (fst t) k (h t)) ->
  exists C, length C = (2 ^ k)%nat /\ forall t, t ∈ vs -> residues (fst t) C = h t.
Proof.
  intros Hb Hh. set (c := fun i => crt_sum (Qof vs) (fun t => h t !!! i * hat_inv (Qof vs) (fst t)) vs).
  exists (map c (seq 0 (2 ^ k))). split; [by rewrite length_map, length_seq|]. intros t Ht. destruct (Hh t Ht) as [Hl Hr].
  pose proof (root_word k t (basis_root k U HU vs t Hb Ht)) as (H4 & _).
  rewrite residues_map, <- Hl. rewrite <- (map_seq_id (h t)) at 2. apply map_ext_in. intros i Hi%in_seq.
  rewrite <- (Z.mod_small (h t !!! i) (fst t)) by (apply reduced_at; [done | lia]). apply eqmod_elim. unfold c.
  rewrite (crt_sum_at vs (basis_coprime k U HU vs Hb)); [| done | apply Hb | done].
  destruct (hat_inv_ok k U HU vs Hb t Ht) as [_ Ei]. rewrite <- Z.mul_assoc, (eqmod_1 (fst t) (hat_inv (Qof vs) (fst t) * _)) by (done || lia).
  apply eqmod_eq. ring.
Qed.

Lemma family_dcrt om vs F h C : (forall t, t ∈ vs -> residues (fst t) C = h t) -> family k om vs F h = dcrt k om F vs C.
Proof. intros H. unfold family, dcrt. f_equal. apply map_ext_in. intros t Ht%list_elem_of_In. unfold tower. by rewrite H. Qed.

(** ** Sums of products *)

Section Sums.
Context (vs ws : list (Z * Z)) (Hv : basis U vs).
(** Tower [i] of a digit meets tower [idx i] of the key. *)
Context (idx : nat -> nat) (Hidx : forall i, (i < length vs)%nat -> (idx i < length ws)%nat /\ ws !!! idx i = vs !!! i).

(** The first [i] towers hold [h'], the others [h]. *)
Definition between (h h' : Z * Z -> list Z) (i : nat) : DCRTPoly :=
  mkDCRT (map (fun x => elem k EVALUATION (vs !!! x) (h' (vs !!! x))) (seq 0 i) ++ drop i (map (fun t => elem k EVALUATION t (h t)) vs))
    EVALUATION (dparams k z0 vs).

Lemma between_start h h' : between h h' 0 = family k z0 vs EVALUATION h.
Proof. done. Qed.
Lemma between_end h h' : between h h' (length vs) = family k z0 vs EVALUATION h'.
Proof. unfold between. rewrite drop_ge, app_nil_r by (by rewrite length_map). apply (family_seq k z0 vs EVALUATION h'). Qed.

Lemma between_get h h' i : (i < length vs)%nat -> GetElementAtIndex (between h h' i) i = Ok (elem k EVALUATION (vs !!! i) (h (vs !!! i))).
Proof.
  intros Hi. apply GetElementAtIndex_at. cbn [between m_vectors]. rewrite lookup_app_r by (by rewrite length_map, length_seq).
  rewrite length_map, length_seq, Nat.sub_diag, lookup_drop, Nat.add_0_r, list_lookup_fmap, list_lookup_lookup_total_lt by done. done.
Qed.

Lemma between_set h h' i : (i < length vs)%nat ->
  SetElementAtIndex (between h h' i) i (elem k EVALUATION (vs !!! i) (h' (vs !!! i))) = Ok (between h h' (S i)).
Proof. intros Hi. apply (fill_step (fun x => elem k EVALUATION (vs !!! x) (h' (vs !!! x)))); [by rewrite length_map | done]. Qed.

Context (D : list Z) (HD : length D = (2 ^ k)%nat) (A B : Z * Z -> list Z).
Context (HA : forall t, t ∈ vs -> ring_elem (fst t) k (A t)) (HB : forall t, t ∈ vs -> ring_elem (fst t) k (B t)).
Definition added (h C : Z * Z -> list Z) (t : Z * Z) : list Z := padd (fst t) (h t) (negacyclic (fst t) (residues (fst t) D) (C t)).

Lemma accumulate_tower_ok h0 h1 i : (i < length vs)%nat ->
  (forall t, t ∈ vs -> ring_elem (fst t) k (h0 t) /\ ring_elem (fst t) k (h1 t)) ->
  accumulate_tower (dcrt k z0 EVALUATION vs D) (family k z0 ws EVALUATION B) (family k z0 ws EVALUATION A) i (idx i)
    (between h0 (added h0 B) i, between h1 (added h1 A) i)
  = Ok (between h0 (added h0 B) (S i), between h1 (added h1 A) (S i)).
Proof.
  intros Hi Hh. pose proof (list_lookup_lookup_total_lt vs i Hi) as Ei. assert (vs !!! i ∈ vs) as Ht by (by eapply list_elem_of_lookup_2).
  destruct (Hidx i Hi) as [Hx Ex]. destruct (Hh _ Ht) as [E0 E1]. pose proof (basis_root k U HU vs _ Hv Ht) as Hr.
  pose proof (tower_elem k U HU vs Hv _ D Ht HD) as Ed. pose proof (HA _ Ht) as Ea. pose proof (HB _ Ht) as Eb.
  unfold accumulate_tower. rewrite dcrt_get, bind_Ok by done.
  rewrite (family_get k z0 ws EVALUATION A _ Hx), bind_Ok, (family_get k z0 ws EVALUATION B _ Hx), bind_Ok, Ex.
  rewrite (between_get h0 _ i Hi), bind_Ok. unfold tower.
  rewrite (elem_Times k _ Hr _ _ Ed Eb), bind_Ok, (elem_Plus k _ Hr), bind_Ok by (done || by apply (negacyclic_elem _ (snd (vs !!! i)) k Hr)).
  fold (added h0 B (vs !!! i)). rewrite between_set, bind_Ok by done.
  rewrite (between_get h1 _ i Hi), bind_Ok. rewrite (elem_Times k _ Hr _ _ Ed Ea), bind_Ok, (elem_Plus k _ Hr), bind_Ok by (done || by apply (negacyclic_elem _ (snd (vs !!! i)) k Hr)).
  fold (added h1 A (vs !!! i)). by rewrite between_set, bind_Ok by done.
Qed.
End Sums.

Section Switching.
Context (om omp : ubint) (ts ps : list (Z * Z)) (Hqp : basis U (ts ++ ps)) (Hps : ps <> []).
Context (np a : nat) (Ha : towers_per_part (length ts) np = Ok a).
Context (omc : ubint) (m : nat) (Hm : (0 < m <= length ts)%nat).
Let n := length ts.
Let qs := take m ts.
Let vs := qs ++ ps.
Let ws := ts ++ ps.
Let P := Qof ps.
Abbreviation tables := (tables_of k om omp ts ps np a).

Lemma vs_basis : basis U vs.
Proof. by apply (qsp_basis k U HU ts ps). Qed.
Lemma vs_length : length vs = (m + length ps)%nat.
Proof. unfold vs, qs. rewrite length_app, length_take. lia. Qed.

Definition key_index (i : nat) : nat := if (i <? m)%nat then i else (n + (i - m))%nat.
Lemma key_index_ok i : (i < length vs)%nat -> (key_index i < length ws)%nat /\ ws !!! key_index i = vs !!! i.
Proof.
  rewrite vs_length. intros Hi. unfold key_index, ws, vs, qs. rewrite length_app. fold n. destruct (Nat.ltb_spec i m).
  - unfold n in *. split; [lia|]. rewrite !lookup_total_app_l by (rewrite ?length_take; lia). by rewrite lookup_total_take_lt by lia.
  - split; [lia|]. rewrite !lookup_total_app_r by (rewrite ?length_take; unfold n; lia). f_equal. rewrite length_take. unfold n. lia.
Qed.

Context (D : nat -> list Z) (HD : forall j, length (D j) = (2 ^ k)%nat) (A B : nat -> Z * Z -> list Z).
Context (HA : forall j t, t ∈ ws -> ring_elem (fst t) k (A j t)) (HB : forall j t, t ∈ ws -> ring_elem (fst t) k (B j t)).

Definition sum_of (C : nat -> Z * Z -> list Z) (nd : nat) (t : Z * Z) : list Z :=
  products_of (fst t) k nd (fun j => residues (fst t) (D j)) (fun j => C j t).

Lemma vs_ws t : t ∈ vs -> t ∈ ws.
Proof. unfold vs, ws, qs. rewrite !elem_of_app. intros [H|H]; [left; by apply (subseteq_take m) | by right]. Qed.

Lemma sum_of_elem C nd t : (forall j t, t ∈ ws -> ring_elem (fst t) k (C j t)) -> t ∈ vs -> ring_elem (fst t) k (sum_of C nd t).
Proof.
  intros HC Ht. pose proof (basis_root k U HU vs t vs_basis Ht) as Hr. apply (products_of_elem _ (snd t) k Hr).
  - intros j. by apply (tower_elem k U HU vs vs_basis).
  - intros j. by apply HC, vs_ws.
Qed.

Lemma core_step nd : (nd < np)%nat ->
  let cj := dcrt k z0 EVALUATION vs (D nd) in let bj := family k z0 ws EVALUATION (B nd) in let aj := family k z0 ws EVALUATION (A nd) in
  (sums ← for_range 0 m (fun i sums => accumulate_tower cj bj aj i i sums) (family k z0 vs EVALUATION (sum_of B nd), family k z0 vs EVALUATION (sum_of A nd));
   for_range m (Nat.max m (length vs)) (fun i sums => accumulate_tower cj bj aj i (n + (i - m)) sums) sums)
  = Ok (family k z0 vs EVALUATION (sum_of B (S nd)), family k z0 vs EVALUATION (sum_of A (S nd))).
Proof.
  intros Hnd cj bj aj. pose proof vs_length as HL.
  set (S0 := fun i => (between vs (sum_of B nd) (added (D nd) (sum_of B nd) (B nd)) i, between vs (sum_of A nd) (added (D nd) (sum_of A nd) (A nd)) i)).
  assert (forall i, (i < length vs)%nat -> accumulate_tower cj bj aj i (key_index i) (S0 i) = Ok (S0 (S i))) as Hstep.
  { intros i Hi. apply (accumulate_tower_ok vs ws vs_basis key_index key_index_ok (D nd) (HD nd) (A nd) (B nd)).
    - intros t Ht. by apply HA, vs_ws.
    - intros t Ht. by apply HB, vs_ws.
    - done.
    - intros t Ht. split; by apply sum_of_elem. }
  change (family k z0 vs EVALUATION (sum_of B nd), family k z0 vs EVALUATION (sum_of A nd)) with (S0 0%nat).
  rewrite (for_range_exact S0 0 m), bind_Ok; [| lia |].
  2: { intros i Hi. rewrite <- Hstep by lia. unfold key_index. by rewrite (proj2 (Nat.ltb_lt i m)) by lia. }
  replace (Nat.max m (length vs)) with (length vs) by lia. rewrite (for_range_exact S0 m (length vs)); [| lia |].
  2: { intros i Hi. rewrite <- Hstep by lia. unfold key_index. by rewrite (proj2 (Nat.ltb_ge i m)) by lia. }
  unfold S0. by rewrite !between_end.
Qed.

Lemma EvalFastKeySwitchCoreExt_ok nd : (0 < nd <= np)%nat ->
  EvalFastKeySwitchCoreExt tables (map (fun j => dcrt k z0 EVALUATION vs (D j)) (seq 0 nd))
    (mkEvalKey (map (fun j => family k z0 ws EVALUATION (A j)) (seq 0 np)) (map (fun j => family k z0 ws EVALUATION (B j)) (seq 0 np))) (dparams k omc qs)
  = Ok (family k z0 vs EVALUATION (sum_of B nd), family k z0 vs EVALUATION (sum_of A nd)).
Proof.
  intros Hnd. unfold EvalFastKeySwitchCoreExt. rewrite (vget_map _ _ _ 0%nat) by (apply lookup_seq_lt; lia). rewrite bind_Ok.
  cbn [dcrt Dcrt.m_params AVector BVector]. rewrite (DCRTPoly_new_dcrt k U HU z0 vs vs_basis), !bind_Ok.
  replace (length (d_parms (dparams k omc qs))) with m by (cbn; rewrite length_map; unfold qs; rewrite length_take; lia).
  replace (length (d_parms (dparams k z0 vs))) with (length vs) by (cbn; by rewrite length_map).
  replace (length (d_parms (h_paramsQ tables))) with n by (cbn; by rewrite length_map). rewrite length_map, length_seq.
  assert (dcrt k z0 EVALUATION vs (pzero k) = family k z0 vs EVALUATION (fun _ => pzero k)) as ->
    by (symmetry; apply family_dcrt; intros; apply residues_0).
  apply (for_range_exact (fun j => (family k z0 vs EVALUATION (sum_of B j), family k z0 vs EVALUATION (sum_of A j))) 0 nd); [lia|].
  intros j Hj. rewrite (vget_map (fun j => dcrt k z0 EVALUATION vs (D j)) _ _ j) by (apply lookup_seq_lt; lia). rewrite bind_Ok.
  rewrite (vget_map (fun j => family k z0 ws EVALUATION (B j)) _ _ j) by (apply lookup_seq_lt; lia). rewrite bind_Ok.
  rewrite (vget_map (fun j => family k z0 ws EVALUATION (A j)) _ _ j) by (apply lookup_seq_lt; lia). rewrite bind_Ok.
  apply core_step. lia.
Qed.

(** ** Division by the special modulus *)

Context (Hps256 : (length ps < 256)%nat).
Context (ns ptm : Z) (Hptm : 0 <= ptm < 2 ^ wbits) (tinv : Z) (Htinv : ns = 1 \/ ptm * tinv ==[P] 1).
Definition plain_t : Z := if ns =? 1 then 0 else ptm.

Lemma plain_inverse : plain_t = 0 \/ plain_t * tinv ==[P] 1.
Proof. unfold plain_t. destruct (Z.eqb_spec ns 1); [by left|]. destruct Htinv as [|H]; [done | by right]. Qed.

Lemma mod_down_ok tInvModp C st : (ns <> 1 -> tInvModp = map (fun p => tinv mod fst p) ps) -> length C = (2 ^ k)%nat -> ready st ->
  returns (mod_down_with af ai tables ns ptm tInvModp (dparams k omc qs) (dcrt k z0 EVALUATION vs C) st)
    (fun '(r, st') => r = dcrt k omc EVALUATION qs (map (mod_down ps plain_t tinv) C) /\ ready st').
Proof.
  intros Ht HC Hst. unfold mod_down_with. fold plain_t.
  pose proof (P_basis k U HU ts ps Hqp) as Hp. assert (basis U qs) as Hqs by (by apply (qs_basis k U HU ts ps)).
  assert (qs <> []) as Hqne by (intros E; apply (f_equal length) in E; unfold qs in E; rewrite length_take in E; simpl in E; lia).
  change (m_special tables) with (special_of ts ps). cbn [special_of toQ HatInv HatMod BarrettMu PInvModq]. rewrite map_map. cbn [fst].
  destruct (hat_pairs_split ps) as [-> ->]. change (h_paramsP tables) with (dparams k omp ps).
  set (sw := switch_128 (dparams k omp ps) (dparams k omc qs) (hats ps) (map (pre_hat ps) ps) (quotients ps ts) (mus ts)).
  set (b := fun q : Z * Z => Z.invmod P (fst q)).
  match goal with |- context [ApproxModDown _ _ _ _ _ ?l _ _ _ _] => change l with (map b ts) end.
  assert (forall Y st, length Y = (2 ^ k)%nat -> sw (dcrt k omp COEFFICIENT ps Y) st = Ok (dcrt k omc COEFFICIENT (qs ++ []) (map (extended ps) Y), st)) as Hsw.
  { intros Y st' HY. unfold sw, switch_128. rewrite <- (take_drop m ts). fold qs.
    rewrite (ApproxSwitchCRTBasis_wide k U HU ps Hp qs Hqs Hps256 (pre_hat ps)), bind_Ok, app_nil_r; [done | | cbn; by rewrite length_map | done].
    intros t Hin. by apply (pre_hat_ok k U HU ps Hp). }
  assert (inverts qs P b) as Hinv.
  { intros t Hin. destruct (tower_modulus k U HU t ltac:(by apply Hqs)) as (_ & H4 & _ & Hw & _). pose proof (invmod_range P (fst t) ltac:(lia)). unfold b.
    split; [lia|]. rewrite Z.mul_comm. apply eqmod_1; [lia|]. apply Z.invmod_coprime; [lia|].
    apply (product_coprime k U HU ps t Hp); [by apply Hqs|]. apply (special_disjoint U ts ps Hqp). by apply (subseteq_take m). }
  assert (map b ts = map b qs ++ map b (drop m ts)) as -> by (unfold qs; by rewrite <- map_app, take_drop).
  assert (0 <= plain_t < 2 ^ wbits) as Hpt by (unfold plain_t; destruct (ns =? 1); lia).
  pose proof (ApproxModDown_with af ai k U HU qs [] ps ltac:(by rewrite app_nil_r) vs_basis Hqne Hps256 plain_t tinv Hpt plain_inverse b Hinv z0 omc omp sw (map b (drop m ts)) C st Hsw HC Hst) as H.
  rewrite app_nil_r in H. fold vs in H. eapply returns_mono; [|intros x Hx; exact Hx].
  replace (ApproxModDown af ai sw (dparams k omc qs) (dparams k omp ps) (map b qs ++ map b (drop m ts)) tInvModp plain_t (dcrt k z0 EVALUATION vs C) st)
    with (ApproxModDown af ai sw (dparams k omc qs) (dparams k omp ps) (map b qs ++ map b (drop m ts)) (map (fun p => tinv mod fst p) ps) plain_t (dcrt k z0 EVALUATION vs C) st).
  2: { unfold plain_t. destruct (Z.eqb_spec ns 1) as [|Hne]; [done | by rewrite (Ht Hne)]. }
  exact H.
Qed.
End Switching.

(** ** The error *)

Section Noise.
Context (ps : list (Z * Z)) (Hp : basis U ps) (Hps : ps <> []) (pt tinv : Z) (Hpt0 : 0 <= pt) (Hpt : pt = 0 \/ pt * tinv ==[Qof ps] 1).
Context (ns : Z) (nd : nat) (D E : nat -> list Z) (HD : forall j, length (D j) = (2 ^ k)%nat) (HE : forall j, length (E j) = (2 ^ k)%nat).
Context (S C0 C1 : list Z) (HS : length S = (2 ^ k)%nat) (HC0 : length C0 = (2 ^ k)%nat) (HC1 : length C1 = (2 ^ k)%nat).
Let P := Qof ps.

Definition special_parts (C : list Z) : list Z := map (special_part ps pt tinv) C.
Definition quotients_of (C : list Z) : list Z := map (mod_down ps pt tinv) C.
(** [P] times the error of the result. *)
Definition scaled_noise : list Z :=
  map (fun i => ns * nsum (fun j => zmul (D j) (E j) !!! i) nd - special_parts C0 !!! i - zmul (special_parts C1) S !!! i) (seq 0 (2 ^ k)).
Definition noise : list Z := map (fun x => x / P) scaled_noise.

Lemma special_parts_residues p C : p ∈ ps -> residues (fst p) (special_parts C) = residues (fst p) C.
Proof.
  intros Hin. unfold special_parts. rewrite residues_map. apply (map_residue_ext (fst p)). intros x _.
  rewrite (mod_down_exact k U HU ps pt tinv x Hp Hpt) at 2. destruct (Qof_divide p ps Hin) as [z Ez]. rewrite Ez.
  replace (z * fst p * mod_down ps pt tinv x + special_part ps pt tinv x) with (special_part ps pt tinv x + z * mod_down ps pt tinv x * fst p) by ring.
  symmetry. apply eqmod_multiple.
Qed.

Lemma quotients_residues q C : 0 < q -> residues q C = padd q (pscale q P (residues q (quotients_of C))) (residues q (special_parts C)).
Proof.
  intros Hq. unfold quotients_of, special_parts. rewrite !residues_map, pscale_map, padd_map. apply (map_residue_ext q). intros x _.
  rewrite !eqmod_mod. apply eqmod_eq. rewrite (mod_down_exact k U HU ps pt tinv x Hp Hpt) at 1. unfold P. ring.
Qed.

Lemma scaled_noise_residues t : root_at k t ->
  let q := fst t in
  residues q scaled_noise = psub q (psub q (pscale q ns (products_of q k nd (fun j => residues q (D j)) (fun j => residues q (E j)))) (residues q (special_parts C0)))
    (negacyclic q (residues q (special_parts C1)) (residues q S)).
Proof.
  intros Hr q. pose proof (root_word k t Hr) as (H4 & _). fold q in H4. unfold scaled_noise. rewrite residues_map.
  assert (length (special_parts C0) = (2 ^ k)%nat) as HL0 by (unfold special_parts; by rewrite length_map).
  assert (length (special_parts C1) = (2 ^ k)%nat) as HL1 by (unfold special_parts; by rewrite length_map).
  rewrite <- residues_zmul by (lia || by rewrite HS, HL1). unfold products_of.
  set (F := fun j => negacyclic q (residues q (D j)) (residues q (E j))).
  assert (forall j, F j = residues q (zmul (D j) (E j))) as HF by (intros j; unfold F; symmetry; apply residues_zmul; [lia | by rewrite HD, HE]).
  assert (forall j, length (F j) = (2 ^ k)%nat) as HFl by (intros j; rewrite HF; unfold residues; by rewrite length_map, zmul_length).
  assert (length (psum q k F nd) = (2 ^ k)%nat) as HPl by (apply (psum_coefficient q k F nd 0 HFl); pose proof (Nat.pow_nonzero 2 k ltac:(lia)); lia).
  apply list_eq_total; unfold psub, pscale.
  { rewrite !length_zip_with, !length_map, length_seq. unfold residues. rewrite !length_map, zmul_length, HL0, HL1, HPl. lia. }
  intros i Hi. rewrite length_map, length_seq in Hi.
  rewrite !zip_with_at by (rewrite ?length_zip_with; unfold residues; rewrite ?length_map, ?zmul_length, ?HL0, ?HL1, ?HPl; lia).
  rewrite (map_seq_at _ (2 ^ k) i Hi), (fmap_at (fun x => (x * ns) mod q)) by (by rewrite HPl).
  rewrite !residues_at by (rewrite ?zmul_length, ?HL0, ?HL1; lia). apply eqmod_elim. rewrite !eqmod_mod.
  destruct (psum_coefficient q k F nd i HFl Hi) as [_ ->]. rewrite (nsum_eqmod q (fun j => F j !!! i) (fun j => zmul (D j) (E j) !!! i)).
  - apply eqmod_eq. ring.
  - intros j _. rewrite HF, residues_at by (rewrite zmul_length, HD; lia). apply eqmod_mod.
Qed.
End Noise.
End Phase.

(** * The error *)

(** The value [c0 + c1 * s] that decryption starts from. *)
Definition dec (Q : Z) (s c0 c1 : list Z) : list Z := padd Q (residues Q c0) (negacyclic Q (residues Q c1) (residues Q s)).

Lemma padd_reduced Q f g : 0 < Q -> reduced Q (padd Q f g).
Proof. intros HQ. unfold padd. revert g. induction f as [|x f IH]; intros [|y g]; simpl; constructor; [by apply mod_range | apply IH]. Qed.

Lemma residues_dec q Q s c0 c1 : 0 < q -> 0 < Q -> (q | Q) -> length s = length c1 -> residues q (dec Q s c0 c1) = dec q s c0 c1.
Proof.
  intros Hq HQ Hd Hl. unfold dec. rewrite (residues_padd q Q), (residues_negacyclic q Q), !(residues_idem q Q) by (done || (unfold residues; by rewrite !length_map)). done.
Qed.

Lemma extended_bound `{W : NativeWidth} k U (HU : moduli_ok k U) vs x : basis U vs -> 0 <= extended vs x <= Z.of_nat (length vs) * Qof vs.
Proof.
  intros Hb. apply (crt_sum_bound vs (basis_coprime k U HU vs Hb)); [done|]. intros t Ht. by apply (digit_ok k U HU).
Qed.

Lemma nsum_divide d c n : (forall i, (i < n)%nat -> (d | c i)) -> (d | nsum c n).
Proof. induction n as [|n IH]; intros H; cbn [nsum]; [apply Z.divide_0_r|]. apply Z.divide_add_r; [apply IH; intros; apply H; lia | apply H; lia]. Qed.

Section Correct.
Context `{W : NativeWidth}.
Context (af ai : NativeVectorT -> ILParams -> outcome NativeVectorT).
Context (k : nat) (U : list (Z * Z)) (HU : moduli_ok k U).
Abbreviation ready := (ready k U).
Abbreviation z0 := (ubint_int 0).
Context (ts ps : list (Z * Z)) (Hqp : basis U (ts ++ ps)) (Hps : ps <> []).
Context (np a : nat) (Ha : towers_per_part (length ts) np = Ok a).
Context (m : nat) (Hm : (0 < m <= length ts)%nat).
Context (S Sold X : list Z) (HS_len : length S = (2 ^ k)%nat) (HSo : length Sold = (2 ^ k)%nat) (HX : length X = (2 ^ k)%nat).
Context (ns : Z) (A : nat -> Z * Z -> list Z) (HA : forall j t, t ∈ ts ++ ps -> ring_elem (fst t) k (A j t)).
Context (E : nat -> list Z) (HE : forall j, length (E j) = (2 ^ k)%nat).
Context (pt tinv : Z) (Hpt : pt = 0 \/ pt * tinv ==[Qof ps] 1).
Let qs := take m ts.
Let vs := qs ++ ps.
Let P := Qof ps.
Let nd := beta a m.
Let D := digit_poly ts a m X.
Let B := key_poly k ts ps a S Sold ns A E.
(** The polynomials of the two sums over all towers. *)
Context (C0 C1 : list Z) (HC0 : length C0 = (2 ^ k)%nat) (HC1 : length C1 = (2 ^ k)%nat).
Context (H0 : forall t, t ∈ vs -> residues (fst t) C0 = sum_of k D B nd t) (H1 : forall t, t ∈ vs -> residues (fst t) C1 = sum_of k D A nd t).
Abbreviation scaled := (scaled_noise k ps pt tinv ns nd D E S C0 C1).
Abbreviation error := (noise k ps pt tinv ns nd D E S C0 C1).

Lemma D_length j : length (D j) = (2 ^ k)%nat.
Proof. apply digit_poly_length. done. Qed.
Lemma vs_in_ws t : t ∈ vs -> t ∈ ts ++ ps.
Proof. apply vs_ws. Qed.
Lemma vs_root t : t ∈ vs -> root_at k t.
Proof. intros Ht. apply (basis_root k U HU _ t Hqp). by apply vs_in_ws. Qed.
Lemma vs_elem t Y : t ∈ vs -> length Y = (2 ^ k)%nat -> ring_elem (fst t) k (residues (fst t) Y).
Proof. intros Ht. apply (tower_elem k U HU _ Hqp). by apply vs_in_ws. Qed.

Definition picked (t : Z * Z) : list Z := selected (fst t) k nd (fun j => residues (fst t) (D j)) (fun j => bool_decide (t ∈ part a j ts)).
Definition errors (t : Z * Z) : list Z := products_of (fst t) k nd (fun j => residues (fst t) (D j)) (fun j => residues (fst t) (E j)).

Lemma picked_elem t : t ∈ vs -> ring_elem (fst t) k (picked t).
Proof. intros Ht. apply (selected_elem _ (snd t) k (vs_root t Ht)). intros j. apply vs_elem; [done | apply D_length]. Qed.
Lemma errors_elem t : t ∈ vs -> ring_elem (fst t) k (errors t).
Proof.
  intros Ht. apply (products_of_elem _ (snd t) k (vs_root t Ht)); intros j; (apply vs_elem; [done|]); [apply D_length | apply HE].
Qed.

(** The phase of the two sums over a tower. *)
Lemma sums_phase t : t ∈ vs -> let q := fst t in
  padd q (residues q C0) (negacyclic q (residues q C1) (residues q S))
  = padd q (pscale q ns (errors t)) (pscale q (P mod q) (negacyclic q (picked t) (residues q Sold))).
Proof.
  intros Ht. cbv zeta. rewrite (H0 t Ht), (H1 t Ht). unfold sum_of. set (q := fst t).
  apply (key_phase q (snd t) k (vs_root t Ht) ns (P mod q) nd (fun j => residues q (D j)) (fun j => A j t) (fun j => residues q (E j))
    (fun j => bool_decide (t ∈ part a j ts)) (residues q S) (residues q Sold)).
  - intros j. apply vs_elem; [done | apply D_length].
  - intros j. by apply HA, vs_in_ws.
  - intros j. apply vs_elem; [done | apply HE].
  - by apply vs_elem.
  - by apply vs_elem.
Qed.

Lemma special_length C : length C = (2 ^ k)%nat -> length (special_parts ps pt tinv C) = (2 ^ k)%nat.
Proof. intros HC. unfold special_parts. by rewrite length_map. Qed.
Lemma quotients_length C : length C = (2 ^ k)%nat -> length (quotients_of ps pt tinv C) = (2 ^ k)%nat.
Proof. intros HC. unfold quotients_of. by rewrite length_map. Qed.
Lemma scaled_length : length scaled = (2 ^ k)%nat.
Proof. unfold scaled_noise. by rewrite length_map, length_seq. Qed.
Lemma error_length : length error = (2 ^ k)%nat.
Proof. unfold noise. by rewrite length_map, scaled_length. Qed.

(** [P] times the phase of the quotients, over a tower. *)
Lemma quotients_phase t i : t ∈ vs -> let q := fst t in let e := ev (snd t) k i in
  P * (e (residues q (quotients_of ps pt tinv C0)) + e (residues q (quotients_of ps pt tinv C1)) * e (residues q S))
  ==[q] e (residues q scaled) + P * (e (picked t) * e (residues q Sold)).
Proof.
  intros Ht. cbv zeta. pose proof (vs_root t Ht) as Hr. pose proof (root_word k t Hr) as (H4 & _).
  pose proof (P_basis k U HU ts ps Hqp) as Hp.
  pose proof (picked_elem t Ht). pose proof (errors_elem t Ht). pose proof (vs_elem t S Ht HS_len). pose proof (vs_elem t Sold Ht HSo).
  pose proof (vs_elem t _ Ht (special_length C0 HC0)). pose proof (vs_elem t _ Ht (special_length C1 HC1)).
  pose proof (vs_elem t _ Ht (quotients_length C0 HC0)). pose proof (vs_elem t _ Ht (quotients_length C1 HC1)).
  pose proof (vs_elem t C0 Ht HC0). pose proof (vs_elem t C1 Ht HC1). set (q := fst t) in *. assert (root_ok q (snd t) k) as Hq by exact Hr. set (e := ev (snd t) k i).
  assert (forall C, length C = (2 ^ k)%nat -> e (residues q C) ==[q] P * e (residues q (quotients_of ps pt tinv C)) + e (residues q (special_parts ps pt tinv C))) as Eq.
  { intros C HC. assert (ring_elem q k (residues q (special_parts ps pt tinv C))) by exact (vs_elem t _ Ht (special_length C HC)).
    assert (ring_elem q k (residues q (quotients_of ps pt tinv C))) by exact (vs_elem t _ Ht (quotients_length C HC)). unfold e. rewrite (quotients_residues k U HU ps Hp pt tinv Hpt q C) by lia. by ev_norm Hq. }
  assert (e (residues q C0) + e (residues q C1) * e (residues q S) ==[q] ns * e (errors t) + P * (e (picked t) * e (residues q Sold))) as Es.
  { transitivity (e (padd q (residues q C0) (negacyclic q (residues q C1) (residues q S)))); [unfold e; by ev_norm Hq|].
    etransitivity; [apply eqmod_eq, (f_equal e), (sums_phase t Ht)|]. change (fst t) with q. unfold e. ev_norm Hq. by rewrite eqmod_mod. }
  assert (e (residues q scaled) ==[q] ns * e (errors t) - e (residues q (special_parts ps pt tinv C0)) - e (residues q (special_parts ps pt tinv C1)) * e (residues q S)) as ->.
  { etransitivity; [apply eqmod_eq, (f_equal e), (scaled_noise_residues k ps pt tinv ns nd D E D_length HE S C0 C1 HS_len HC0 HC1 t Hr)|].
    change (fst t) with q. change (products_of q k nd _ _) with (errors t). unfold e. by ev_norm Hq. }
  set (s0 := e (residues q (special_parts ps pt tinv C0))) in *. set (s1 := e (residues q (special_parts ps pt tinv C1))) in *.
  transitivity (ns * e (errors t) + P * (e (picked t) * e (residues q Sold)) - s0 - s1 * e (residues q S)); [|apply eqmod_eq; ring].
  rewrite <- Es, (Eq C0 HC0), (Eq C1 HC1). fold s0 s1. apply eqmod_eq. ring.
Qed.

(** Over the towers of [P] the error times [P] vanishes, so that it is divisible by [P]. *)
Lemma scaled_special p : p ∈ ps -> residues (fst p) scaled = pzero k.
Proof.
  intros Hin. assert (p ∈ vs) as Hv by (apply elem_of_app; by right). pose proof (vs_root p Hv) as Hr. pose proof (root_word k p Hr) as (H4 & _).
  apply (ev_eq _ (snd p) k Hr); [by apply vs_elem, scaled_length | apply (pzero_elem _ (snd p) k Hr) |]. intros i _. rewrite ev_zero.
  pose proof (quotients_phase p i Hv) as H. cbv zeta in H. assert (P ==[fst p] 0) as EP.
  { apply eqmod_divide; [lia|]. rewrite Z.sub_0_r. by apply Qof_divide. }
  rewrite EP in H. rewrite !Z.mul_0_l, Z.add_0_r in H. by symmetry.
Qed.

Lemma scaled_multiple i : (i < 2 ^ k)%nat -> scaled !!! i = P * error !!! i.
Proof.
  intros Hi. pose proof (P_basis k U HU ts ps Hqp) as Hp. pose proof (basis_pos k U HU ps Hp) as HP. fold P in HP.
  assert (scaled !!! i ==[P] 0) as H.
  { apply crt_congruent; [by apply (basis_coprime k U HU)|]. intros p Hin. constructor. rewrite <- residues_at by (by rewrite scaled_length).
    rewrite (scaled_special p Hin), zero_at, Zmod_0_l by done. done. }
  apply eqmod_divide in H as [z Ez]; [|done]. rewrite Z.sub_0_r in Ez. unfold noise. rewrite fmap_at by (by rewrite scaled_length).
  fold P. rewrite Ez, Z.div_mul by lia. ring.
Qed.

Lemma scaled_residues q : 0 < q -> residues q scaled = pscale q P (residues q error).
Proof.
  intros Hq. apply list_eq_total; [unfold pscale, residues; by rewrite !length_map, scaled_length, error_length|].
  intros i Hi. unfold residues in Hi. rewrite length_map, scaled_length in Hi.
  unfold pscale. rewrite (fmap_at (fun x => (x * P) mod q)) by (unfold residues; by rewrite length_map, error_length).
  rewrite !residues_at by (rewrite ?scaled_length, ?error_length; done). rewrite scaled_multiple by done. apply eqmod_elim. rewrite eqmod_mod. apply eqmod_eq. ring.
Qed.

(** The digit of a tower of [Q] is the element itself over the tower. *)
Lemma picked_element t : t ∈ qs -> picked t = residues (fst t) X.
Proof.
  intros Ht. assert (t ∈ vs) as Hv by (apply elem_of_app; by left). destruct (part_bounds ts np a Ha) as (_ & Ha0 & _).
  destruct (beta_bounds ts np a Ha m Hm) as (B1 & B2 & B3). apply list_elem_of_lookup in Ht as [i Ei].
  assert (i < m)%nat as Hi by (apply lookup_lt_Some in Ei; unfold qs in Ei; rewrite length_take in Ei; lia).
  assert (ts !! i = Some t) as Et by (unfold qs in Ei; by rewrite lookup_take_lt in Ei).
  assert (i / a < nd)%nat as Hj by (apply Nat.Div0.div_lt_upper_bound; unfold nd; lia).
  unfold picked. rewrite (selected_one _ (snd t) k (vs_root t Hv) nd _ _ (fun j => vs_elem t (D j) Hv (D_length j)) (i / a) Hj).
  - unfold D, digit_poly, residues. rewrite map_map. apply (map_residue_ext (fst t)). intros x _.
    apply (extended_residue k U HU); [by apply (part_level_basis k U HU ts ps)|]. by apply part_of_index.
  - intros j. rewrite bool_decide_eq_true. split; [|intros ->; by apply part_of_index].
    intros Hin. apply list_elem_of_lookup in Hin as [x Ex]. assert (x < length (part a j ts))%nat as Hx by (by eapply lookup_lt_Some).
    rewrite part_length in Hx. rewrite part_lookup in Ex by lia. assert (a * j + x = i)%nat as <-.
    { apply (ws_distinct U ts ps Hqp); [rewrite length_app; lia | rewrite length_app; apply lookup_lt_Some in Et; lia |].
      rewrite !lookup_total_app_l by (apply lookup_lt_Some in Et; lia). by rewrite (list_lookup_total_correct _ _ _ Ex), (list_lookup_total_correct _ _ _ Et). }
    apply (Nat.div_unique _ a j x); lia.
Qed.

Abbreviation Y0 := (quotients_of ps pt tinv C0).
Abbreviation Y1 := (quotients_of ps pt tinv C1).

Lemma tower_phase t : t ∈ qs -> let q := fst t in
  padd q (residues q Y0) (negacyclic q (residues q Y1) (residues q S)) = padd q (negacyclic q (residues q X) (residues q Sold)) (residues q error).
Proof.
  intros Ht. assert (t ∈ vs) as Hv by (apply elem_of_app; by left). cbv zeta. pose proof (vs_root t Hv) as Hr. pose proof (root_word k t Hr) as (H4 & _).
  pose proof (vs_elem t S Hv HS_len). pose proof (vs_elem t Sold Hv HSo). pose proof (vs_elem t X Hv HX). pose proof (vs_elem t _ Hv error_length).
  pose proof (vs_elem t _ Hv (quotients_length C0 HC0)). pose proof (vs_elem t _ Hv (quotients_length C1 HC1)).
  apply (ev_eq _ (snd t) k Hr); [relem.. |]. intros i _. pose proof (quotients_phase t i Hv) as Hq. cbv zeta in Hq.
  rewrite (picked_element t Ht), scaled_residues in Hq by lia.
  apply (eqmod_cancel (fst t) P); [lia | |].
  - apply (product_coprime k U HU ps t (P_basis k U HU ts ps Hqp)).
    + apply Hqp, vs_in_ws, Hv.
    + apply (special_disjoint U ts ps Hqp). by apply (subseteq_take m).
  - ev_norm Hr. rewrite Hq. ev_norm Hr. apply eqmod_eq. ring.
Qed.

(** The phase of the result over the modulus of the element. *)
Lemma quotients_dec : let Q := Qof qs in
  dec Q S Y0 Y1 = padd Q (negacyclic Q (residues Q X) (residues Q Sold)) (residues Q error).
Proof.
  intros Q. assert (basis U qs) as Hb by (by apply (qs_basis k U HU ts ps)). pose proof (basis_pos k U HU qs Hb) as HQ. fold Q in HQ.
  apply (residues_inj qs); [by apply (basis_coprime k U HU) | by apply padd_reduced | by apply padd_reduced | |].
  { unfold dec, padd, negacyclic. rewrite !length_zip_with. unfold residues, quotients_of. repeat rewrite ?length_map, ?length_seq, ?error_length. lia. }
  intros t Ht. pose proof (root_word k t (basis_root k U HU qs t Hb Ht)) as (H4 & _). pose proof (Qof_divide t qs Ht) as Hd. fold Q in Hd.
  rewrite residues_dec by (lia || done || (rewrite quotients_length; [done | done])). rewrite (residues_padd (fst t) Q), (residues_negacyclic (fst t) Q), !(residues_idem (fst t) Q)
    by (lia || done || (unfold residues; rewrite !length_map; by rewrite HSo, HX)). by apply tower_phase.
Qed.

(** ** The size of the error *)

Context (Hns : 0 <= ns) (Hpt0 : 0 <= pt) (Bd Be Bs : Z) (HBs : 0 <= Bs).
Context (HD : forall j, (j < nd)%nat -> Z.of_nat a * Qof (part a j qs) <= Bd).
Context (HEb : forall j, (j < nd)%nat -> bounded Be (E j)) (HSb : bounded Bs S).

Lemma D_bounded j : (j < nd)%nat -> bounded Bd (D j) /\ 0 <= Bd.
Proof.
  intros Hj. assert (basis U (part a j qs)) as Hb by (by apply (part_level_basis k U HU ts ps)). pose proof (basis_pos k U HU _ Hb).
  pose proof (HD j Hj). split; [|nia]. apply Forall_map, Forall_forall. intros x _. pose proof (extended_bound k U HU (part a j qs) x Hb).
  assert (length (part a j qs) <= a)%nat by (rewrite part_length; lia). fold qs.
  assert (Z.of_nat (length (part a j qs)) * Qof (part a j qs) <= Z.of_nat a * Qof (part a j qs)) by (apply Z.mul_le_mono_nonneg_r; lia). lia.
Qed.

Lemma special_bounded C : bounded (Z.max 1 pt * (Z.of_nat (length ps) * P)) (special_parts ps pt tinv C).
Proof.
  apply Forall_map, Forall_forall. intros x _. unfold special_part. pose proof (P_basis k U HU ts ps Hqp) as Hp.
  destruct (Z.gtb_spec pt 0).
  - pose proof (extended_bound k U HU ps (x * tinv) Hp) as Hx. fold P in Hx. rewrite Z.abs_mul, !Z.abs_eq, Z.max_r by lia. apply Z.mul_le_mono_nonneg_l; lia.
  - pose proof (extended_bound k U HU ps x Hp) as Hx. fold P in Hx. rewrite Z.max_l, Z.mul_1_l, Z.abs_eq by lia. lia.
Qed.

Lemma error_bound i : (i < 2 ^ k)%nat ->
  P * Z.abs (error !!! i) <= ns * (Z.of_nat nd * (Z.of_nat (2 ^ k) * (Bd * Be))) + Z.max 1 pt * (Z.of_nat (length ps) * P) * (1 + Z.of_nat (2 ^ k) * Bs).
Proof.
  intros Hi. pose proof (basis_pos k U HU ps (P_basis k U HU ts ps Hqp)) as HP. fold P in HP.
  set (R := Z.max 1 pt * (Z.of_nat (length ps) * P)).
  replace (P * Z.abs (error !!! i)) with (Z.abs (scaled !!! i)) by (rewrite scaled_multiple, Z.abs_mul by done; lia).
  unfold scaled_noise. rewrite (map_seq_at _ (2 ^ k) i Hi).
  assert (Z.abs (nsum (fun j => zmul (D j) (E j) !!! i) nd) <= Z.of_nat nd * (Z.of_nat (2 ^ k) * (Bd * Be))) as H2.
  { apply nsum_bound. intros j Hj. destruct (D_bounded j Hj) as [Hd Hd0]. rewrite <- (D_length j).
    apply bounded_at; [|by rewrite zmul_length, D_length]. apply zmul_bounded; [by rewrite D_length, HE | done | by apply HEb | done]. }
  assert (Z.abs (special_parts ps pt tinv C0 !!! i) <= R) as H3 by (apply bounded_at; [apply special_bounded | by rewrite special_length]).
  assert (Z.abs (zmul (special_parts ps pt tinv C1) S !!! i) <= Z.of_nat (2 ^ k) * (R * Bs)) as H4.
  { rewrite <- (special_length C1 HC1). apply bounded_at; [|by rewrite zmul_length, special_length].
    apply zmul_bounded; [by rewrite special_length, HS_len | apply special_bounded | done | unfold R; nia]. }
  set (x := nsum _ nd) in *. assert (Z.abs (ns * x) <= ns * (Z.of_nat nd * (Z.of_nat (2 ^ k) * (Bd * Be)))) by (rewrite Z.abs_mul, (Z.abs_eq ns) by done; by apply Z.mul_le_mono_nonneg_l).
  replace (R * (1 + Z.of_nat (2 ^ k) * Bs)) with (R + Z.of_nat (2 ^ k) * (R * Bs)) by ring. lia.
Qed.

(** A noise scale that is the plaintext modulus divides the error. *)
Lemma error_divisible i : (i < 2 ^ k)%nat -> ns = 1 \/ (ns = pt /\ 0 < pt) -> (ns | error !!! i).
Proof.
  intros Hi [En|[En Hp0]]; [rewrite En; apply Z.divide_1_l|]. destruct Hpt as [Ep|Et]; [lia|].
  pose proof (basis_pos k U HU ps (P_basis k U HU ts ps Hqp)) as HP. fold P in HP, Et.
  rewrite En at 1. assert (pt | P * error !!! i) as Hd.
  { rewrite <- scaled_multiple by done. unfold scaled_noise. rewrite (map_seq_at _ (2 ^ k) i Hi).
    assert (forall C l, length C = (2 ^ k)%nat -> (l < 2 ^ k)%nat -> (pt | special_parts ps pt tinv C !!! l)) as Hsp.
    { intros C l HC Hl. unfold special_parts. rewrite fmap_at by lia. unfold special_part. rewrite (proj2 (Z.gtb_lt pt 0)) by lia. apply Z.divide_factor_l. }
    apply Z.divide_sub_r; [apply Z.divide_sub_r; [rewrite En at 1; apply Z.divide_factor_l | by apply Hsp]|].
    unfold zmul. rewrite (map_seq_at _ _ i) by (by rewrite special_length). apply nsum_divide. intros l Hl. rewrite special_length in Hl by done.
    apply Z.divide_mul_l. by apply Hsp. }
  apply Z.gauss in Hd; [done|]. apply eqmod_divide in Et as [z Ez]; [|done]. apply Z.bezout_1_gcd. exists tinv, (- z). lia.
Qed.
End Correct.
