(* ===== verification/KeyProps.v ===== *)
(** * Hybrid key switching: correctness

    From the tables of the parameters, the key of a secret or of a public key, and a ciphertext
    of two or three elements: the switched ciphertext decrypts under the new secret to the value
    of the old one, up to a bounded error; and extending a ciphertext by [P] and dividing by [P]
    gives the ciphertext back. *)
From Stdlib Require Import ZArith Znumtheory Zcong Lia.
From stdpp Require Import base numbers list sets.
From S2P Require Import Prelude Bits NativeInt NativeIntProps NativeVector Ntt NttProps FttProps NbTheory NbTheoryProps BigInt BigDiv BigIntProps BigRefine BigVectorProps BigNtt BigFttProps Poly PolyProps PolyRing PolyAlg RgswRing BinWitness Dcrt DcrtTowers Crt DcrtProps DcrtInterp DcrtScale DcrtBasis DcrtRing Rns RnsProps KeySwitch KeyTables KeyKeys KeyPhase.
Open Scope Z_scope.

Lemma dec_length Q s c0 c1 : length c0 = length c1 -> length (dec Q s c0 c1) = length c0.
Proof. intros H. unfold dec, padd, negacyclic, residues. rewrite length_zip_with. repeat rewrite ?length_map, ?length_seq. lia. Qed.

Lemma padd_assoc q f g h : padd q f (padd q g h) = padd q (padd q f g) h.
Proof.
  unfold padd. revert g h. induction f as [|x f IH]; intros [|y g] [|z h]; simpl; [done.. |]. rewrite IH. f_equal. apply eqmod_elim.
  rewrite !eqmod_mod. apply eqmod_eq. ring.
Qed.

(** The values that decryption of a ciphertext of two elements under the old secret, or of three elements
    where the last one is for the old secret, starts from. *)
Definition phase_before (Q : Z) (s sOld : list Z) (cs : list (list Z)) : list Z :=
  match cs with
  | [c0; x] => dec Q sOld c0 x
  | [c0; c1; x] => padd Q (dec Q s c0 c1) (negacyclic Q (residues Q x) (residues Q sOld))
  | _ => []
  end.

(** The size of the error times [P]. *)
Definition error_size (k nd np : nat) (ns P Bd Be Bs : Z) : Z :=
  ns * (Z.of_nat nd * (Z.of_nat (2 ^ k) * (Bd * Be)) + Z.of_nat np * P * (1 + Z.of_nat (2 ^ k) * Bs)).

Section Main.
Context `{W : NativeWidth}.
Context (af ai : NativeVectorT -> ILParams -> outcome NativeVectorT).
Context (dist : nat -> Z -> Z) (rfuel : nat) `{HS : UniformSource dist rfuel} (fuel k : nat) (Hfuel : (k + 1 <= fuel)%nat).
Context (U : list (Z * Z)) (HU : moduli_ok k U).
Abbreviation ready := (ready k U).
Abbreviation z0 := (ubint_int 0).

Lemma dec_add vs s c0 c1 y0 y1 : basis U vs -> length s = (2 ^ k)%nat -> length c0 = (2 ^ k)%nat -> length c1 = (2 ^ k)%nat ->
  length y0 = (2 ^ k)%nat -> length y1 = (2 ^ k)%nat -> let Q := Qof vs in
  dec Q s (padd Q c0 y0) (padd Q c1 y1) = padd Q (dec Q s c0 c1) (dec Q s y0 y1).
Proof.
  intros Hb Hs H0 H1 G0 G1 Q. pose proof (basis_pos k U HU vs Hb) as HQ. fold Q in HQ.
  assert (forall f g : list Z, length f = (2 ^ k)%nat -> length g = (2 ^ k)%nat -> length (padd Q f g) = (2 ^ k)%nat) as Hadd.
  { intros f g Hf Hg. unfold padd. rewrite length_zip_with. lia. }
  apply (residues_inj vs); [by apply (basis_coprime k U HU) | by apply padd_reduced | by apply padd_reduced | |].
  { rewrite dec_length by (by rewrite !Hadd). rewrite !Hadd; first [done | rewrite dec_length; congruence]. }
  intros t Ht. pose proof (basis_root k U HU vs t Hb Ht) as Hr. pose proof (root_word k t Hr) as (H4 & _). pose proof (Qof_divide t vs Ht) as Hd. fold Q in Hd.
  rewrite (residues_padd (fst t) Q), !residues_dec by (lia || done || congruence || (rewrite Hadd; done)). unfold dec. rewrite !(residues_padd (fst t) Q) by (lia || done).
  assert (forall f, length f = (2 ^ k)%nat -> ring_elem (fst t) k (residues (fst t) f)) as He by (intros; by apply (tower_elem k U HU vs Hb)).
  pose proof (He s Hs). pose proof (He c0 H0). pose proof (He c1 H1). pose proof (He y0 G0). pose proof (He y1 G1). by ring_eq Hr.
Qed.

Section Inverses.
Context (omp : ubint) (ps : list (Z * Z)) (Hb : basis U ps) (Hps : ps <> []).
Context (ns t : Z) (Ht : 0 <= t < 2 ^ wbits) (Hco : ns = 1 \/ Z.gcd t (Qof ps) = 1).
Let P := Qof ps.

(** The inverses of the plaintext modulus of the parameters. *)
Definition inverses : outcome (list Z) := if ns =? 1 then Ok [] else l ← bgv_inverses t (dparams k omp ps); Ok (map fst l).
Definition tinv : Z := Z.invmod t P.

Lemma P_gt : 1 < P.
Proof.
  unfold P. destruct ps as [|p ps']; [done|].
  destruct (tower_modulus k U HU p ltac:(apply Hb; left)) as (_ & H4 & _). pose proof (basis_pos k U HU (p :: ps') Hb) as Hp.
  change (Qof (p :: ps')) with (fst p * Qof ps') in *. assert (0 < Qof ps') by (apply (Z.mul_pos_cancel_l (fst p)); lia). nia.
Qed.

Lemma tinv_ok : ns = 1 \/ t * tinv ==[P] 1.
Proof.
  destruct Hco as [|Hg]; [by left|]. right. rewrite Z.mul_comm. pose proof P_gt. apply eqmod_1; [done|]. apply Z.invmod_coprime; [lia | done].
Qed.

Lemma inverses_ok : exists l, inverses = Ok l /\ (ns <> 1 -> l = map (fun p => tinv mod fst p) ps).
Proof.
  unfold inverses. destruct (Z.eqb_spec ns 1) as [|Hne]; [by exists []|]. destruct Hco as [|Hg]; [done|]. pose proof tinv_ok as [|Ht1]; [done|].
  unfold bgv_inverses. destruct (moduli_dparams k omp ps) as [-> _]. rewrite wrap_small by done.
  assert (forall p, p ∈ ps -> Z.gcd t (fst p) = 1) as Hgp.
  { intros p Hp. apply Z.divide_1_r_nonneg; [apply Z.gcd_nonneg|]. rewrite <- Hg. apply Z.gcd_greatest; [apply Z.gcd_divide_l|].
    etransitivity; [apply Z.gcd_divide_r | by apply Qof_divide]. }
  rewrite (vmapM_towers _ fst (fun p => (Z.invmod t (fst p), precon (Z.invmod t (fst p)) (fst p)))), bind_Ok.
  2: { intros p Hp. apply (inverse_precon_ok k U HU); [by apply Hb | by apply Hgp]. }
  eexists. split; [done|]. intros _. rewrite map_map. cbn [fst]. apply map_ext_in. intros p Hp%list_elem_of_In.
  destruct (tower_modulus k U HU p ltac:(by apply Hb)) as (_ & H4 & _). symmetry. apply invmod_unique; [lia | apply mod_range; lia | | by apply Hgp].
  rewrite <- (Z.mod_small 1 (fst p)) by lia. apply eqmod_elim. rewrite eqmod_mod.
  apply eqmod_divide; [lia|]. etransitivity; [by apply Qof_divide|]. apply eqmod_divide; [pose proof P_gt; unfold P in *; lia | done].
Qed.

End Inverses.

Section Switch.
Context (om omp : ubint) (ts ps : list (Z * Z)) (Hqp : basis U (ts ++ ps)) (Hps : ps <> []).
Context (np a : nat) (Ha : towers_per_part (length ts) np = Ok a) (Ha256 : (a < 256)%nat) (Hp256 : (length ps < 256)%nat).
Context (omc : ubint) (m : nat) (Hm : (0 < m <= length ts)%nat).
Context (S Sold : list Z) (HS_len : length S = (2 ^ k)%nat) (HSo : length Sold = (2 ^ k)%nat).
Context (ns t : Z) (Ht : 0 <= t < 2 ^ wbits) (Hns : ns = 1 \/ ns = t /\ 2 <= t) (Hco : ns = 1 \/ Z.gcd t (Qof ps) = 1).
Context (A : nat -> Z * Z -> list Z) (HA : forall j t, t ∈ ts ++ ps -> ring_elem (fst t) k (A j t)).
Context (E : nat -> list Z) (HE : forall j, length (E j) = (2 ^ k)%nat).
Context (Bd Be Bs : Z) (HBs : 0 <= Bs) (HD : forall j, (j < beta a m)%nat -> Z.of_nat a * Qof (part a j (take m ts)) <= Bd).
Context (HEb : forall j, (j < beta a m)%nat -> bounded Be (E j)) (HSb : bounded Bs S).
Let qs := take m ts.
Let Q := Qof qs.
Let P := Qof ps.
Abbreviation tables := (tables_of k om omp ts ps np a).
Abbreviation tinv := (tinv ps t).
Lemma special_inverse : ns = 1 \/ t * tinv ==[P] 1.
Proof. apply tinv_ok; [by apply (P_basis k U HU ts ps) | done | done]. Qed.
Abbreviation key := (key_of k ts ps np a S Sold ns A E).

(** What [KeySwitchCore] returns for the element [X]. *)
Definition core_of (X Y0 Y1 N : list Z) : Prop :=
  length Y0 = (2 ^ k)%nat /\ length Y1 = (2 ^ k)%nat /\
  dec Q S Y0 Y1 = padd Q (negacyclic Q (residues Q X) (residues Q Sold)) (residues Q N) /\
  length N = (2 ^ k)%nat /\ Forall (fun z => (ns | z) /\ P * Z.abs z <= error_size k (beta a m) (length ps) ns P Bd Be Bs) N.

Lemma KeySwitchCore_ok l X st : (ns <> 1 -> l = map (fun p => tinv mod fst p) ps) -> length X = (2 ^ k)%nat -> ready st ->
  returns (KeySwitchCore af ai dist rfuel fuel tables ns t l (dcrt k omc EVALUATION qs X) key st)
    (fun '((b0, b1), st') => exists Y0 Y1 N, b0 = dcrt k omc EVALUATION qs Y0 /\ b1 = dcrt k omc EVALUATION qs Y1 /\ core_of X Y0 Y1 N /\ ready st').
Proof.
  intros Hl HX Hst. unfold KeySwitchCore.
  eapply returns_bind; [apply (EvalKeySwitchPrecomputeCore_ok af ai k U HU om omp ts ps Hqp Hps np a Ha Ha256 omc m Hm X HX dist rfuel fuel Hfuel st Hst)|].
  intros [ds st1] [-> H1]. unfold EvalFastKeySwitchCore. cbn [dcrt Dcrt.m_params]. unfold key_of, qs.
  set (D := digit_poly ts a m X). set (B := key_poly k ts ps a S Sold ns A E). set (nd := beta a m).
  assert (forall j, length (D j) = (2 ^ k)%nat) as HDl by (intros; by apply digit_poly_length).
  assert (forall j t, t ∈ ts ++ ps -> ring_elem (fst t) k (B j t)) as HB by (intros; by apply (key_poly_elem k U HU)).
  destruct (beta_bounds ts np a Ha m Hm) as (Hb & _).
  rewrite (EvalFastKeySwitchCoreExt_ok k U HU om omp ts ps Hqp np a omc m Hm D HDl A B HA HB nd Hb), bind_Ok. fold qs.
  assert (basis U (qs ++ ps)) as Hv by (by apply (qsp_basis k U HU ts ps)).
  destruct (family_polynomial k U HU _ (sum_of k D B nd) Hv) as (C0 & L0 & E0); [intros; by apply (sum_of_elem k U HU ts ps Hqp m)|].
  destruct (family_polynomial k U HU _ (sum_of k D A nd) Hv) as (C1 & L1 & E1); [intros; by apply (sum_of_elem k U HU ts ps Hqp m)|].
  rewrite (family_dcrt k z0 _ EVALUATION _ C0 E0), (family_dcrt k z0 _ EVALUATION _ C1 E1).
  eapply returns_bind; [by apply (mod_down_ok af ai k U HU om omp ts ps Hqp np a omc m Hm Hp256 ns t Ht tinv special_inverse)|]. intros [y0 st2] [-> H2].
  eapply returns_bind; [by apply (mod_down_ok af ai k U HU om omp ts ps Hqp np a omc m Hm Hp256 ns t Ht tinv special_inverse)|]. intros [y1 st3] [-> H3].
  set (pt := plain_t ns t). pose proof (plain_inverse ps ns t tinv special_inverse) as Hpt. fold pt in Hpt.
  set (N := noise k ps pt tinv ns nd D E S C0 C1). assert (length N = (2 ^ k)%nat) as HN by apply error_length.
  exists (quotients_of ps pt tinv C0), (quotients_of ps pt tinv C1), N.
  split_and!; [done | done | | done]. split_and!.
  - unfold quotients_of. by rewrite length_map.
  - unfold quotients_of. by rewrite length_map.
  - by apply (quotients_dec k U HU ts ps Hqp np a Ha m Hm S Sold X HS_len HSo HX ns A HA E HE pt tinv Hpt C0 C1 L0 L1 E0 E1).
  - done.
  - apply Forall_forall. intros z Hz. apply list_elem_of_lookup in Hz as [i Ei].
    assert (i < 2 ^ k)%nat as Hi by (apply lookup_lt_Some in Ei; by rewrite HN in Ei). rewrite <- (list_lookup_total_correct _ _ _ Ei).
    assert (0 <= pt /\ Z.max 1 pt = ns /\ (ns = 1 \/ ns = pt /\ 0 < pt)) as (Hpt0 & Em & Hd).
    { unfold pt, plain_t. destruct (Z.eqb_spec ns 1) as [E1'|Hne]; [lia|]. destruct Hns as [|[? ?]]; [done | lia]. }
    split.
    + by apply (error_divisible k U HU ts ps Hqp a m Hm S Sold X HS_len HSo HX ns A HA E HE pt tinv Hpt C0 C1 L0 L1 E0 E1).
    + unfold error_size. eapply Z.le_trans; [apply (error_bound k U HU ts ps Hqp a m Hm S Sold X HS_len HSo HX ns A HA E HE pt tinv Hpt C0 C1 L0 L1 E0 E1 ltac:(lia) Hpt0 Bd Be Bs HBs HD HEb HSb i Hi)|].
      rewrite Em. unfold P. fold nd. lia.
Qed.

(** Two elements, or three. *)
Definition elements (F : Format) (Cs : list (list Z)) (X : list Z) : list DCRTPoly := map (dcrt k omc F qs) Cs ++ [dcrt k omc EVALUATION qs X].
Definition switched_ok (Cs : list (list Z)) (X : list Z) (cv : list DCRTPoly) : Prop :=
  exists Y0 Y1 N, cv = map (dcrt k omc EVALUATION qs) [Y0; Y1] /\
    dec Q S Y0 Y1 = padd Q (phase_before Q S Sold (Cs ++ [X])) (residues Q N) /\
    Forall (fun z => (ns | z) /\ P * Z.abs z <= error_size k (beta a m) (length ps) ns P Bd Be Bs) N.

Lemma dec_first c0 y0 y1 N r : length c0 = (2 ^ k)%nat -> length y0 = (2 ^ k)%nat -> length y1 = (2 ^ k)%nat ->
  dec Q S y0 y1 = padd Q r N -> dec Q S (padd Q c0 y0) y1 = padd Q (padd Q (residues Q c0) r) N.
Proof.
  intros H0 H1 H2 Hd. assert (basis U qs) as Hb by (by apply (qs_basis k U HU ts ps)). pose proof (basis_pos k U HU qs Hb) as HQ. fold Q in HQ.
  rewrite <- padd_assoc, <- Hd. unfold dec. rewrite (residues_padd Q Q) by (done || apply Z.divide_refl). by rewrite padd_assoc.
Qed.

Lemma KeySwitchInPlace_ok l F Cs X st : (ns <> 1 -> l = map (fun p => tinv mod fst p) ps) -> (length Cs = 1 \/ length Cs = 2)%nat ->
  Forall (fun C => length C = (2 ^ k)%nat) Cs -> length X = (2 ^ k)%nat -> ready st ->
  returns (KeySwitchInPlace af ai dist rfuel fuel tables ns t l (elements F Cs X) key st) (fun '(cv, st') => switched_ok Cs X cv /\ ready st').
Proof.
  intros Hl Hlen HCs HX Hst. assert (basis U qs) as Hb by (by apply (qs_basis k U HU ts ps)).
  destruct Cs as [|C0 [|C1 [|C2 Cs]]]; cbn [length] in Hlen; [lia | | | lia]; repeat (apply Forall_cons in HCs as [? HCs]);
    unfold elements, KeySwitchInPlace; cbn [map app length Nat.eqb Nat.ltb Nat.leb vget lookup list_lookup]; rewrite bind_Ok;
    (eapply returns_bind; [by apply KeySwitchCore_ok|]); intros [[b0 b1] st1] (Y0 & Y1 & N & -> & -> & (L0 & L1 & Hd & LN & HN) & H1);
    rewrite bind_Ok; cbn [dcrt m_format];
    (eapply returns_bind; [by apply (SetFormat_dcrt af ai k U HU omc qs Hb)|]); intros [c st2] [-> H2];
    rewrite (proj2 (Plus_dcrt k U HU omc omc qs Hb C0 Y0 H L0 EVALUATION)), !bind_Ok;
    (eapply returns_bind; [by apply (SetFormat_dcrt af ai k U HU omc qs Hb)|]); intros [c st3] [-> H3].
  - rewrite bind_Ok. split; [|done]. exists (padd Q C0 Y0), Y1, N. split_and!; [done | | done]. cbn [app phase_before]. unfold dec at 2. by apply dec_first.
  - rewrite (proj2 (Plus_dcrt k U HU omc omc qs Hb C1 Y1 H0 L1 EVALUATION)), bind_Ok. split; [|done]. exists (padd Q C0 Y0), (padd Q C1 Y1), N. split_and!; [done | | done].
    cbn [app phase_before]. rewrite <- padd_assoc, <- Hd. by apply dec_add.
Qed.
End Switch.

(** ** Properties *)

(** [C2] Hybrid key switching is correct from the tables of the parameters to the
    ciphertext, at every level: with the tables, a key generated for an old and a
    new secret and a ciphertext of two or three elements, KeySwitchInPlace returns
    two elements that decrypt under the new secret to the value of the ciphertext,
    plus an error that is a multiple of the noise scale and that P times over is
    below the stated sum of the digits times the errors of the key and of the
    rounding. It covers CKKS and BFV (noise scale one) and BGV (the plaintext
    modulus), single and threshold keys. *)
Theorem hybrid_key_switching om omp omo oms omc ts ps np a m S Sold ns t A E Bd Be Bs FS F prev draws std_above Cs X st :
  basis U (ts ++ ps) -> ps <> [] -> (length ps < 256)%nat -> towers_per_part (length ts) np = Ok a -> (a < 256)%nat -> (0 < m <= length ts)%nat ->
  0 <= t < 2 ^ wbits -> ns = 1 \/ (ns = t /\ 2 <= t < 2 ^ (wbits - 1) /\ Z.gcd t (Qof ps) = 1) ->
  length S = (2 ^ k)%nat -> length Sold = (2 ^ k)%nat -> bounded Bs S -> 2 * Bs < fst (ts !!! 0%nat) ->
  (forall j t, t ∈ ts ++ ps -> ring_elem (fst t) k (A j t)) -> masks_given k ts ps np A prev draws ->
  (forall j, length (E j) = (2 ^ k)%nat /\ bounded Be (E j)) -> (forall t, t ∈ ts ++ ps -> Be < fst t) ->
  (forall j, (j < beta a m)%nat -> Z.of_nat a * Qof (part a j (take m ts)) <= Bd) ->
  (length Cs = 1 \/ length Cs = 2)%nat -> Forall (fun C => length C = (2 ^ k)%nat) (X :: Cs) -> ready st ->
  let Q := Qof (take m ts) in let P := Qof ps in
  returns ('(tables, st) ← hybrid_tables dist rfuel fuel np (dparams k om ts) (dparams k omp ps) (encode P) st;
           '(ek, st) ← KeySwitchGen af ai dist rfuel fuel tables ns std_above (dcrt k omo EVALUATION ts Sold) (dcrt k oms FS ts S)
                         prev draws (map E (seq 0 np)) st;
           tInvModp ← (if ns =? 1 then Ok [] else l ← bgv_inverses t (dparams k omp ps); Ok (map fst l));
           KeySwitchInPlace af ai dist rfuel fuel tables ns t tInvModp
             (map (dcrt k omc F (take m ts)) Cs ++ [dcrt k omc EVALUATION (take m ts) X]) ek st)
    (fun '(cv, st') => exists Y0 Y1 N, cv = map (dcrt k omc EVALUATION (take m ts)) [Y0; Y1] /\
       dec Q S Y0 Y1 = padd Q (phase_before Q S Sold (Cs ++ [X])) (residues Q N) /\
       Forall (fun z => (ns | z) /\ P * Z.abs z <= error_size k (beta a m) (length ps) ns P Bd Be Bs) N /\ ready st').
Proof.
  intros Hqp Hps Hp256 Ha Ha256 Hm Ht Hns HSl HSo HSb HS0 HA Hma HE HEm HD HCl HCs Hst Q P. apply Forall_cons in HCs as [HX HCs].
  pose proof wbits_range as Hw. assert (2 ^ wbits = 2 * 2 ^ (wbits - 1)) as E2 by (rewrite <- Z.pow_succ_r by lia; f_equal; lia).
  assert (0 < 2 ^ (wbits - 1)) as Hwp by (apply Z.pow_pos_nonneg; lia).
  assert (2 ^ 2 <= 2 ^ (wbits - 1)) as Hw2 by (apply Z.pow_le_mono_r; lia).
  assert (ns = 1 \/ ns = t /\ 2 <= t) as Hns2 by (destruct Hns as [|(? & ? & _)]; [by left | right; lia]).
  assert (ns = 1 \/ Z.gcd t (Qof ps) = 1) as Hco by (destruct Hns as [|(_ & _ & ?)]; [by left | by right]).
  assert (0 <= Bs) as HBs by (pose proof (bounded_at Bs S 0 HSb ltac:(rewrite HSl; pose proof (Nat.pow_nonzero 2 k ltac:(lia)); lia)); lia).
  eapply returns_bind; [by apply (hybrid_tables_ok k U HU om omp ts ps Hqp Hps np a Ha dist rfuel fuel Hfuel)|]. intros [tb st1] [-> H1].
  eapply returns_bind; [apply (key_generation_ok af ai k U HU om omp ts ps Hqp np a Ha S Sold HSl HSo) with (A := A)|].
  - intros s Hs. pose proof (bounded_in _ _ _ HSb Hs). lia.
  - destruct Hns as [->|(-> & ? & _)]; lia.
  - exact HA.
  - intros j. apply HE.
  - intros j u e Hu He. pose proof (bounded_in _ _ _ (proj2 (HE j)) He). pose proof (HEm u Hu). lia.
  - exact HS.
  - exact Hfuel.
  - exact Hma.
  - exact H1.
  - intros [ek st2] [-> H2]. destruct (inverses_ok omp ps (P_basis k U HU ts ps Hqp) Hps ns t Ht Hco) as (l & El & Hl). unfold inverses in El. rewrite El, bind_Ok.
    eapply returns_mono; [by apply (KeySwitchInPlace_ok om omp ts ps Hqp Hps np a Ha Ha256 Hp256 omc m Hm S Sold HSl HSo ns t Ht Hns2 Hco A HA E
      (fun j => proj1 (HE j)) Bd Be Bs HBs HD (fun j _ => proj2 (HE j)) HSb l F Cs X st2 Hl HCl HCs HX H2)|].
    intros [cv st'] [(Y0 & Y1 & N & ? & ? & ?) Hr]. by exists Y0, Y1, N.
Qed.
End Main.

(** * Switching with a key made from a public key *)

Section PublicProperty.
Context `{W : NativeWidth}.
Context (af ai : NativeVectorT -> ILParams -> outcome NativeVectorT).
Context (dist : nat -> Z -> Z) (rfuel : nat) `{HS : UniformSource dist rfuel} (fuel k : nat) (Hfuel : (k + 1 <= fuel)%nat).
Context (U : list (Z * Z)) (HU : moduli_ok k U).
Abbreviation ready := (ready k U).

(** [C18] Hybrid key switching with a key made from the old secret and a public key of
    the new secret is correct in the same sense; the error of the key is that of the
    public key times the sampled polynomial plus the fresh errors, the second one
    times the new secret. *)
Theorem hybrid_key_switching_public om omp omo omc ts ps np a m S Sold ns t p0 p1 E V E0 E1 Bd Bv Be Bs gaussian F std_above Cs X st :
  basis U (ts ++ ps) -> ps <> [] -> (length ps < 256)%nat -> towers_per_part (length ts) np = Ok a -> (a < 256)%nat -> (0 < m <= length ts)%nat ->
  0 <= t < 2 ^ wbits -> ns = 1 \/ (ns = t /\ 2 <= t < 2 ^ (wbits - 1) /\ Z.gcd t (Qof ps) = 1) ->
  length S = (2 ^ k)%nat -> bounded Bs S -> length Sold = (2 ^ k)%nat -> length E = (2 ^ k)%nat -> bounded Be E ->
  (forall t, t ∈ ts ++ ps -> ring_elem (fst t) k (p1 t)) ->
  (forall t, t ∈ ts ++ ps -> let q := fst t in
     p0 t = padd q (negacyclic q (psub q (pzero k) (p1 t)) (residues q S)) (pscale q ns (residues q E))) ->
  (forall j, length (V j) = (2 ^ k)%nat /\ bounded Bv (V j)) -> (forall j, length (E0 j) = (2 ^ k)%nat /\ bounded Be (E0 j)) ->
  (forall j, length (E1 j) = (2 ^ k)%nat /\ bounded Be (E1 j)) -> (forall t, t ∈ ts ++ ps -> Be < fst t /\ Bv < fst t) ->
  (forall j, (j < beta a m)%nat -> Z.of_nat a * Qof (part a j (take m ts)) <= Bd) ->
  (length Cs = 1 \/ length Cs = 2)%nat -> Forall (fun C => length C = (2 ^ k)%nat) (X :: Cs) -> ready st ->
  let Q := Qof (take m ts) in let P := Qof ps in let n := Z.of_nat (2 ^ k) in
  returns ('(tables, st) ← hybrid_tables dist rfuel fuel np (dparams k om ts) (dparams k omp ps) (encode P) st;
           '(ek, st) ← KeySwitchGen_public af ai tables ns std_above gaussian (dcrt k omo EVALUATION ts Sold)
                         (family k (ubint_int 0) (ts ++ ps) EVALUATION p0) (family k (ubint_int 0) (ts ++ ps) EVALUATION p1)
                         (map V (seq 0 np)) (map E0 (seq 0 np)) (map E1 (seq 0 np)) st;
           tInvModp ← (if ns =? 1 then Ok [] else l ← bgv_inverses t (dparams k omp ps); Ok (map fst l));
           KeySwitchInPlace af ai dist rfuel fuel tables ns t tInvModp
             (map (dcrt k omc F (take m ts)) Cs ++ [dcrt k omc EVALUATION (take m ts) X]) ek st)
    (fun '(cv, st') => exists Y0 Y1 N, cv = map (dcrt k omc EVALUATION (take m ts)) [Y0; Y1] /\
       dec Q S Y0 Y1 = padd Q (phase_before Q S Sold (Cs ++ [X])) (residues Q N) /\
       Forall (fun z => (ns | z) /\ P * Z.abs z <= error_size k (beta a m) (length ps) ns P Bd (n * (Bv * Be) + Be + n * (Be * Bs)) Bs) N /\ ready st').
Proof.
  intros Hqp Hps Hp256 Ha Ha256 Hm Ht Hns HSl HSb HSo HEl HEb Hp1 Hpk HV HE0 HE1 Hsm HD HCl HCs Hst Q P n. apply Forall_cons in HCs as [HX HCs].
  pose proof wbits_range as Hw. assert (2 ^ 2 <= 2 ^ (wbits - 1)) as Hw2 by (apply Z.pow_le_mono_r; lia).
  assert (ns = 1 \/ ns = t /\ 2 <= t) as Hns2 by (destruct Hns as [|(? & ? & _)]; [by left | right; lia]).
  assert (ns = 1 \/ Z.gcd t (Qof ps) = 1) as Hco by (destruct Hns as [|(_ & _ & ?)]; [by left | by right]).
  assert (forall b f, bounded b f -> length f = (2 ^ k)%nat -> 0 <= b) as Hpos.
  { intros b f Hb Hf. pose proof (bounded_at b f 0 Hb ltac:(rewrite Hf; pose proof (Nat.pow_nonzero 2 k ltac:(lia)); lia)). lia. }
  assert (forall t, t ∈ ts ++ ps -> ring_elem (fst t) k (p0 t)) as Hp0.
  { intros u Hu. pose proof (basis_root k U HU _ u Hqp Hu) as Hr. rewrite (Hpk u Hu). pose proof (Hp1 u Hu). pose proof (pzero_elem _ (snd u) k Hr).
    pose proof (tower_elem k U HU _ Hqp u S Hu HSl). pose proof (tower_elem k U HU _ Hqp u E Hu HEl). relem. }
  eapply returns_bind; [by apply (hybrid_tables_ok k U HU om omp ts ps Hqp Hps np a Ha dist rfuel fuel Hfuel)|]. intros [tb st1] [-> H1].
  pose proof (fun j => proj1 (HV j)) as LV. pose proof (fun j => proj1 (HE0 j)) as L0. pose proof (fun j => proj1 (HE1 j)) as L1.
  eapply returns_bind; [apply (KeySwitchGen_public_ok af ai k U HU om omp ts ps Hqp np a Ha Sold HSo ns) with (p0 := p0) (p1 := p1) (V := V) (E0 := E0) (E1 := E1); try done|].
  - destruct Hns as [->|(-> & ? & _)]; lia.
  - intros j u e Hu He. destruct (Hsm u Hu). rewrite !elem_of_app in He. destruct He as [He|[He|He]].
    + pose proof (bounded_in _ _ _ (proj2 (HV j)) He). lia.
    + pose proof (bounded_in _ _ _ (proj2 (HE0 j)) He). lia.
    + pose proof (bounded_in _ _ _ (proj2 (HE1 j)) He). lia.
  - intros [ek st2] [-> H2]. rewrite (public_key_of k U HU ts ps Hqp np a Sold HSo ns p0 p1 Hp1 V E0 E1 LV L0 L1 S E HSl HEl Hpk).
    destruct (inverses_ok fuel k Hfuel U HU omp ps (P_basis k U HU ts ps Hqp) Hps ns t Ht Hco) as (l & El & Hl). unfold inverses in El. rewrite El, bind_Ok.
    eapply returns_mono; [by apply (KeySwitchInPlace_ok af ai dist rfuel fuel k Hfuel U HU om omp ts ps Hqp Hps np a Ha Ha256 Hp256 omc m Hm S Sold HSl HSo ns t Ht Hns2 Hco
      (public_mask ns p1 V E1) (fun j u => public_mask_elem k U HU ts ps Hqp ns p1 Hp1 V E1 LV L1 j u) (public_noise k V E0 E1 S E) (public_noise_length k V E0 E1 S E)
      Bd (n * (Bv * Be) + Be + n * (Be * Bs)) Bs (Hpos _ _ HSb HSl) HD
      (fun j _ => public_noise_bounded k Sold HSo V E0 E1 LV L0 L1 S E HSl HEl Bv Be Be Be Bs j (Hpos _ _ (proj2 (HV j)) (LV j)) (Hpos _ _ HEb HEl)
        (proj2 (HV j)) HEb (proj2 (HE0 j)) (proj2 (HE1 j)) HSb) HSb l F Cs X st2 Hl HCl HCs HX H2)|].
    intros [cv st'] [(Y0 & Y1 & N & ? & ? & ?) Hr]. by exists Y0, Y1, N.
Qed.
End PublicProperty.

(** * Extended ciphertexts *)

Lemma zip_short_towers {A T} (f : PolyImpl -> A -> outcome PolyImpl) (ga : T -> PolyImpl) (gb : T -> A) (gc : T -> PolyImpl) (ts rs : list T) :
  (forall t, t ∈ ts -> f (ga t) (gb t) = Ok (gc t)) -> zip_short f (map ga ts) (map gb (ts ++ rs)) = Ok (map gc ts).
Proof.
  induction ts as [|t ts IH]; intros H; cbn [app map zip_short]; [done|]. rewrite H by left. rewrite bind_Ok, IH; [done|]. intros. apply H. by right.
Qed.

(** Multiples of [P] have no special part. *)
Lemma extended_multiple ps z : (forall p, p ∈ ps -> 0 < fst p) -> extended ps (Qof ps * z) = 0.
Proof.
  intros Hp. unfold extended. set (Q := Qof ps). assert (forall us, us ⊆ ps -> crt_sum Q (digit ps (Q * z)) us = 0) as H; [|by apply H].
  induction us as [|u us IH]; intros Hs; cbn [crt_sum]; [done|]. rewrite IH by set_solver. unfold digit. fold Q.
  destruct (Qof_divide u ps ltac:(set_solver)) as [y Ey]. fold Q in Ey. replace (Q * z) with (y * z * fst u) by (rewrite Ey; ring).
  rewrite Z.mod_mul by (pose proof (Hp u ltac:(set_solver)); lia). done.
Qed.

Section Extension.
Context `{W : NativeWidth}.
Context (af ai : NativeVectorT -> ILParams -> outcome NativeVectorT).
Context (dist : nat -> Z -> Z) (rfuel : nat) `{HS : UniformSource dist rfuel} (fuel k : nat) (Hfuel : (k + 1 <= fuel)%nat).
Context (U : list (Z * Z)) (HU : moduli_ok k U).
Abbreviation ready := (ready k U).
Abbreviation z0 := (ubint_int 0).

Lemma mod_down_multiple ps pt tinv z : basis U ps -> mod_down ps pt tinv (Qof ps * z) = z.
Proof.
  intros Hb. pose proof (basis_pos k U HU ps Hb) as HP.
  assert (forall p, p ∈ ps -> 0 < fst p) as Hp.
  { intros p Hin. destruct (tower_modulus k U HU p ltac:(by apply Hb)) as (_ & H4 & _). lia. }
  assert (special_part ps pt tinv (Qof ps * z) = 0) as E.
  { unfold special_part. rewrite <- Z.mul_assoc, !extended_multiple by done. destruct (pt >? 0); lia. }
  unfold mod_down. rewrite E, Z.sub_0_r, Z.mul_comm. apply Z.div_mul. lia.
Qed.

Section Ext.
Context (om omp : ubint) (ts ps : list (Z * Z)) (Hqp : basis U (ts ++ ps)) (Hps : ps <> []).
Context (np a : nat) (omc : ubint) (m : nat) (Hm : (0 < m <= length ts)%nat).
Let qs := take m ts.
Let P := Qof ps.
Abbreviation tables := (tables_of k om omp ts ps np a).

Lemma extended_basis_ok X st : ready st ->
  returns (GetExtendedCRTBasis dist rfuel fuel (dcrt k omc EVALUATION qs X) (dparams k omp ps) st)
    (fun '(p, st') => p = dparams k z0 (qs ++ ps) /\ ready st').
Proof.
  intros Hst. unfold GetExtendedCRTBasis. cbn [dcrt m_vectors Dcrt.m_params dparams d_parms d_ringDimension].
  rewrite length_map, (vmapM_Ok _ (fun i => tparams k (qs !!! i))), bind_Ok.
  2: { apply Forall_forall. intros i [_ Hi]%elem_of_seq. by apply vget_map, list_lookup_lookup_total_lt. }
  rewrite (map_seq_list (tparams k) qs), <- map_app, !map_map.
  assert (exists p, p ∈ ps) as [p Hp] by (clear - Hps; destruct ps as [|p ps']; [done | exists p; left]).
  rewrite (order_u32 k U HU p) by (apply Hqp, elem_of_app; by right).
  apply (DCRTParams_lists_ok k U HU dist rfuel fuel Hfuel (qs ++ ps) z0 st); [by apply (qsp_basis k U HU ts ps) | | done]. intros E%app_eq_nil. by destruct E.
Qed.

(** An element times [P] over all towers: the residues modulo the special primes are zero. *)
Lemma times_P_ok X : length X = (2 ^ k)%nat ->
  (d ← DCRTPoly_new (dparams k z0 (qs ++ ps)) EVALUATION true;
   cMult ← TimesNoCheck (dcrt k omc EVALUATION qs X) (PModq (m_special tables));
   for_range 0 m (fun i d => e ← GetElementAtIndex cMult i; SetElementAtIndex d i e) d)
  = Ok (dcrt k z0 EVALUATION (qs ++ ps) (map (Z.mul P) X)).
Proof.
  intros HX. assert (basis U (qs ++ ps)) as Hv by (by apply (qsp_basis k U HU ts ps)). assert (basis U qs) as Hq by (by apply (basis_app_l k U HU _ ps)).
  assert (length qs = m) as HL by (unfold qs; rewrite length_take; lia).
  rewrite (DCRTPoly_new_dcrt k U HU z0 _ Hv), bind_Ok. unfold TimesNoCheck. cbn [tables_of m_special special_of PModq dcrt m_vectors].
  rewrite <- (take_drop m ts) at 1. fold qs.
  rewrite (zip_short_towers _ _ _ (tower k EVALUATION (map (Z.mul P) X))), bind_Ok.
  2: { intros t Ht. pose proof (basis_root k U HU qs t Hq Ht) as Hr. pose proof (root_word k t Hr) as (H4 & _ & Hw & _). pose proof (mod_range P (fst t) ltac:(lia)).
       unfold tower. cbv beta. fold P. rewrite (proj1 (elem_scale k t Hr EVALUATION (P mod fst t) _ (tower_elem k U HU qs Hq t X Ht HX) ltac:(lia))).
       do 2 f_equal. unfold residues at 1. rewrite pscale_map, residues_map. apply (map_residue_ext (fst t)). intros x _. rewrite !eqmod_mod. apply eqmod_eq. ring. }
  set (vs0 := map (tower k EVALUATION (pzero k)) (qs ++ ps)). set (G := fun i => tower k EVALUATION (map (Z.mul P) X) (qs !!! i)).
  pose proof (fill_towers G (GetElementAtIndex (dcrt k omc EVALUATION qs (map (Z.mul P) X))) 0 m vs0 EVALUATION (dparams k z0 (qs ++ ps))) as H.
  cbn [seq map app] in H. rewrite drop_0 in H. unfold set_vectors. cbn [m_format Dcrt.m_params].
  etransitivity; [apply H; [lia | unfold vs0; rewrite length_map, length_app; lia | done |]|].
  - intros i Hi. apply dcrt_get. lia.
  - unfold dcrt. do 2 f_equal. rewrite map_app. f_equal.
    + unfold G. rewrite <- HL. apply (map_seq_list (tower k EVALUATION (map (Z.mul P) X))).
    + unfold vs0. rewrite map_app, drop_app_length' by (by rewrite length_map). apply map_ext_in. intros p Hp%list_elem_of_In.
      destruct (tower_modulus k U HU p ltac:(apply Hv, elem_of_app; by right)) as (_ & H4 & _). unfold tower. f_equal. unfold pzero. rewrite residues_0, residues_map, <- HX.
      destruct (Qof_divide p ps Hp) as [y Ey]. rewrite <- map_const. apply map_ext. intros x. symmetry.
      unfold P. rewrite Ey. replace (y * fst p * x) with (y * x * fst p) by ring. apply Z.mod_mul. lia.
Qed.

Lemma KeySwitchExt_ok addFirst Xs st : Xs <> [] -> Forall (fun X => length X = (2 ^ k)%nat) Xs -> ready st ->
  returns (KeySwitchExt dist rfuel fuel tables addFirst (map (dcrt k omc EVALUATION qs) Xs) st)
    (fun '(cv, st') => cv = map (fun i => dcrt k z0 EVALUATION (qs ++ ps) (if addFirst || (0 <? i)%nat then map (Z.mul P) (Xs !!! i) else pzero k)) (seq 0 (length Xs)) /\
       ready st').
Proof.
  intros Hne HX Hst. unfold KeySwitchExt. assert (length Xs <> 0)%nat by (by destruct Xs).
  pose proof (list_lookup_lookup_total_lt Xs 0 ltac:(lia)) as E0. rewrite (vget_map _ _ _ _ E0), bind_Ok. change (h_paramsP tables) with (dparams k omp ps).
  eapply returns_bind; [by apply extended_basis_ok|]. intros [p st1] [-> H1]. cbn [dcrt Dcrt.m_params dparams d_parms]. rewrite !length_map.
  replace (length qs) with m by (unfold qs; rewrite length_take; lia).
  rewrite (vmapM_Ok _ (fun i => dcrt k z0 EVALUATION (qs ++ ps) (if addFirst || (0 <? i)%nat then map (Z.mul P) (Xs !!! i) else pzero k))), bind_Ok; [by split|].
  apply Forall_forall. intros i [_ Hi]%elem_of_seq. pose proof (list_lookup_lookup_total_lt Xs i ltac:(lia)) as Ei. rewrite (vget_map _ _ _ _ Ei), bind_Ok.
  assert (length (Xs !!! i) = (2 ^ k)%nat) as HXi by (by apply (Forall_lookup_total_1 _ _ _ HX)).
  destruct (addFirst || (0 <? i)%nat); [by apply times_P_ok|].
  assert (basis U (qs ++ ps)) as Hv by (by apply (qsp_basis k U HU ts ps)). by rewrite (DCRTPoly_new_dcrt k U HU z0 _ Hv), bind_Ok.
Qed.

Lemma params_Ql_ok st : ready st ->
  returns (params_Ql dist rfuel fuel tables (dparams k z0 (qs ++ ps)) st) (fun '(p, st') => p = dparams k z0 qs /\ ready st').
Proof.
  intros Hst. assert (length qs = m) as HL by (unfold qs; rewrite length_take; lia). unfold params_Ql.
  replace (length (d_parms (h_paramsP tables))) with (length ps) by (cbn; by rewrite length_map).
  replace (length (d_parms (dparams k z0 (qs ++ ps)))) with (m + length ps)%nat by (cbn; rewrite length_map, length_app; lia).
  rewrite (proj2 (Nat.ltb_ge _ _)), bind_Ok by lia. replace (m + length ps - length ps)%nat with (length qs) by lia.
  destruct (moduli_dparams k z0 (qs ++ ps)) as [-> ->]. rewrite !map_app, !take_app_length' by (by rewrite length_map).
  assert (qs !!! 0%nat ∈ qs) as Hin by (apply (list_elem_of_lookup_2 _ 0), list_lookup_lookup_total_lt; lia).
  assert (basis U qs) as Hq by (apply (basis_app_l k U HU _ ps); by apply (qsp_basis k U HU ts ps)).
  cbn [dparams d_ringDimension]. rewrite (order_u32 k U HU (qs !!! 0%nat)) by (by apply Hq).
  apply (DCRTParams_lists_ok k U HU dist rfuel fuel Hfuel); [done | intros E; rewrite E in HL; simpl in HL; lia | done].
Qed.

Context (Hp256 : (length ps < 256)%nat).

Lemma KeySwitchDown_ok pt Zs st : 0 <= pt < 2 ^ wbits -> length Zs = 2%nat -> Forall (fun Z => length Z = (2 ^ k)%nat) Zs -> ready st ->
  returns (KeySwitchDown af ai dist rfuel fuel tables 1 pt [] (map (dcrt k z0 EVALUATION (qs ++ ps)) Zs) st)
    (fun '(cv, st') => cv = map (dcrt k z0 EVALUATION qs) (map (quotients_of ps 0 0) Zs) /\ ready st').
Proof.
  intros Hpt Hl HZ Hst. destruct Zs as [|C0 [|C1 [|]]]; try done. apply Forall_cons in HZ as [H0 HZ]. apply Forall_cons in HZ as [H1 _].
  unfold KeySwitchDown. cbn [map vget lookup list_lookup]. rewrite bind_Ok. cbn [dcrt Dcrt.m_params].
  eapply returns_bind; [by apply params_Ql_ok|]. intros [p st1] [-> Hs1].
  pose proof (fun C s => mod_down_ok af ai k U HU om omp ts ps Hqp np a z0 m Hm Hp256 1 pt Hpt 0 (or_introl eq_refl) [] C s) as Hd. change (plain_t 1 pt) with 0 in Hd.
  eapply returns_bind; [by apply Hd|]. intros [c0 st2] [-> Hs2]. rewrite bind_Ok.
  eapply returns_bind; [by apply Hd|]. intros [c1 st3] [-> Hs3]. by split.
Qed.
End Ext.

(** ** Property *)

(** [C19] Multiplying the elements of a ciphertext by P over the extended basis and
    dividing them by P returns exactly the elements, at every level; without the
    first element its place is zero. *)
Theorem key_switch_ext_down om omp omc ts ps np a m addFirst pt X0 X1 st :
  basis U (ts ++ ps) -> ps <> [] -> (length ps < 256)%nat -> towers_per_part (length ts) np = Ok a -> (0 < m <= length ts)%nat ->
  0 <= pt < 2 ^ wbits -> length X0 = (2 ^ k)%nat -> length X1 = (2 ^ k)%nat -> ready st ->
  returns ('(tables, st) ← hybrid_tables dist rfuel fuel np (dparams k om ts) (dparams k omp ps) (encode (Qof ps)) st;
           '(cv, st) ← KeySwitchExt dist rfuel fuel tables addFirst (map (dcrt k omc EVALUATION (take m ts)) [X0; X1]) st;
           KeySwitchDown af ai dist rfuel fuel tables 1 pt [] cv st)
    (fun '(cv, st') => cv = map (dcrt k (ubint_int 0) EVALUATION (take m ts)) [if addFirst then X0 else pzero k; X1] /\ ready st').
Proof.
  intros Hqp Hps Hp256 Ha Hm Hpt H0 H1 Hst. pose proof (P_basis k U HU ts ps Hqp) as Hp.
  eapply returns_bind; [by apply (hybrid_tables_ok k U HU om omp ts ps Hqp Hps np a Ha dist rfuel fuel Hfuel)|]. intros [tb st1] [-> Hs1].
  eapply returns_bind; [apply KeySwitchExt_ok; [done | done | done | done | by repeat constructor | done]|]. intros [cv st2] [-> Hs2].
  assert (forall X, quotients_of ps 0 0 (map (Z.mul (Qof ps)) X) = X) as HQ.
  { intros X. unfold quotients_of. rewrite map_map. rewrite <- (map_id X) at 2. apply map_ext. intros x. by apply mod_down_multiple. }
  assert (pzero k = map (Z.mul (Qof ps)) (pzero k)) as Hz.
  { unfold pzero. clear. induction (2 ^ k)%nat as [|n IH]; simpl; [done|]. rewrite <- IH. by rewrite Z.mul_0_r. }
  set (Zs := [if addFirst then map (Z.mul (Qof ps)) X0 else pzero k; map (Z.mul (Qof ps)) X1]).
  match goal with |- context [KeySwitchDown _ _ _ _ _ _ _ _ _ ?cv _] => replace cv with (map (dcrt k z0 EVALUATION (take m ts ++ ps)) Zs) by (by destruct addFirst) end.
  eapply returns_mono; [apply (KeySwitchDown_ok om omp ts ps Hqp np a m Hm Hp256 pt Zs st2)|].
  - done.
  - done.
  - repeat constructor; [destruct addFirst; [by rewrite length_map | apply repeat_length] | by rewrite length_map].
  - done.
  - intros [cv st'] [-> Hs]. split; [|done]. unfold Zs. cbn [map]. rewrite HQ. destruct addFirst; [by rewrite HQ|]. do 2 f_equal. rewrite Hz at 1. apply HQ.
Qed.
End Extension.

(** ** Example: two towers 17 and 41 in two parts, the special modulus 73, the plaintext modulus 5 *)

Definition mask4 (_ : nat) (t : Z * Z) : list Z := residues (fst t) [3; 50; 7; 1000].
Lemma hybrid_key_switching_witness :
  returns ('(tables, st) ← @hybrid_tables W64 counting_source 1 10 2 (dparams 2 om0 front4) (dparams 2 om0 [(73, 10)]) (encode 73) fresh;
           '(ek, st) ← @KeySwitchGen W64 no_arb no_arb counting_source 1 10 tables 5 (fun _ => false)
                         (dcrt 2 om0 EVALUATION front4 [1; -1; 0; 1]) (dcrt 2 om0 EVALUATION front4 [0; 1; 1; -1])
                         None (map (fun j => map (fun t => mkVector (mask4 j t) (fst t)) moduli4) (seq 0 2)) (map (fun _ => [1; 0; -1; 1]) (seq 0 2)) st;
           l ← @bgv_inverses W64 5 (dparams 2 om0 [(73, 10)]);
           @KeySwitchInPlace W64 no_arb no_arb counting_source 1 10 tables 5 5 (map fst l)
             [dcrt 2 om0 EVALUATION front4 [600; 3; 4; 5]; dcrt 2 om0 EVALUATION front4 [1; 300; 0; 7]] ek st)
    (fun '(cv, _) => exists Y0 Y1 N, cv = map (dcrt 2 om0 EVALUATION front4) [Y0; Y1] /\
       dec 697 [0; 1; 1; -1] Y0 Y1 = padd 697 (dec 697 [1; -1; 0; 1] [600; 3; 4; 5] [1; 300; 0; 7]) (residues 697 N) /\
       Forall (fun z => (5 | z) /\ 73 * Z.abs z <= 3465) N).
Proof.
  eapply returns_mono; [apply (hybrid_key_switching (W := W64) no_arb no_arb counting_source 1 10 2 ltac:(lia) moduli4 moduli4_ok
    om0 om0 om0 om0 om0 front4 [(73, 10)] 2 1 2 [0; 1; 1; -1] [1; -1; 0; 1] 5 5 mask4 (fun _ => [1; 0; -1; 1]) 41 1 1 EVALUATION EVALUATION None
    (map (fun j => map (fun t => mkVector (mask4 j t) (fst t)) moduli4) (seq 0 2)) (fun _ => false) [[600; 3; 4; 5]] [1; 300; 0; 7] fresh)|].
  - apply basis4; by vm_compute.
  - done.
  - cbn; lia.
  - done.
  - lia.
  - cbn; lia.
  - done.
  - right. done.
  - done.
  - done.
  - repeat constructor; done.
  - done.
  - intros j t Ht. split; [done | repeat constructor; apply mod_range; revert t Ht; members].
  - done.
  - intros _. split; [done | repeat constructor; done].
  - members.
  - intros j Hj. cbn in Hj. destruct j as [|[|j]]; [done | done | lia].
  - by left.
  - by repeat constructor.
  - apply fresh_ready.
  - intros [cv st] (Y0 & Y1 & N & H1 & H2 & H3 & _). exists Y0, Y1, N. split_and!; [exact H1 | exact H2 | exact H3].
Defined.

(** The public key of the secret that the ciphertext is switched to. *)
Definition public4 (t : Z * Z) : list Z :=
  padd (fst t) (negacyclic (fst t) (psub (fst t) (pzero 2) (mask4 0 t)) (residues (fst t) [0; 1; 1; -1])) (pscale (fst t) 1 (residues (fst t) [1; 0; -1; 1])).
Lemma hybrid_key_switching_public_witness :
  returns ('(tables, st) ← @hybrid_tables W64 counting_source 1 10 2 (dparams 2 om0 front4) (dparams 2 om0 [(73, 10)]) (encode 73) fresh;
           '(ek, st) ← @KeySwitchGen_public W64 no_arb no_arb tables 1 (fun _ => false) false (dcrt 2 om0 EVALUATION front4 [1; -1; 0; 1])
                         (family 2 om0 moduli4 EVALUATION public4) (family 2 om0 moduli4 EVALUATION (mask4 0))
                         (map (fun _ => [0; 1; 0; -1]) (seq 0 2)) (map (fun _ => [1; 0; 0; 0]) (seq 0 2)) (map (fun _ => [0; 0; -1; 0]) (seq 0 2)) st;
           @KeySwitchInPlace W64 no_arb no_arb counting_source 1 10 tables 1 0 []
             [dcrt 2 om0 COEFFICIENT front4 [600; 3; 4; 5]; dcrt 2 om0 COEFFICIENT front4 [2; 2; 2; 2]; dcrt 2 om0 EVALUATION front4 [1; 300; 0; 7]] ek st)
    (fun '(cv, _) => exists Y0 Y1 N, cv = map (dcrt 2 om0 EVALUATION front4) [Y0; Y1] /\
       dec 697 [0; 1; 1; -1] Y0 Y1 = padd 697 (phase_before 697 [0; 1; 1; -1] [1; -1; 0; 1] [[600; 3; 4; 5]; [2; 2; 2; 2]; [1; 300; 0; 7]]) (residues 697 N) /\
       Forall (fun z => 73 * Z.abs z <= 3317) N).
Proof.
  eapply returns_mono; [apply (hybrid_key_switching_public (W := W64) no_arb no_arb counting_source 1 10 2 ltac:(lia) moduli4 moduli4_ok
    om0 om0 om0 om0 front4 [(73, 10)] 2 1 2 [0; 1; 1; -1] [1; -1; 0; 1] 1 0 public4 (mask4 0) [1; 0; -1; 1]
    (fun _ => [0; 1; 0; -1]) (fun _ => [1; 0; 0; 0]) (fun _ => [0; 0; -1; 0]) 41 1 1 1 false COEFFICIENT (fun _ => false)
    [[600; 3; 4; 5]; [2; 2; 2; 2]] [1; 300; 0; 7] fresh)|].
  - apply basis4; by vm_compute.
  - done.
  - cbn; lia.
  - done.
  - lia.
  - cbn; lia.
  - done.
  - by left.
  - done.
  - repeat constructor; done.
  - done.
  - done.
  - repeat constructor; done.
  - intros t Ht. split; [done | repeat constructor; apply mod_range; revert t Ht; members].
  - done.
  - intros _. split; [done | repeat constructor; done].
  - intros _. split; [done | repeat constructor; done].
  - intros _. split; [done | repeat constructor; done].
  - members.
  - intros j Hj. cbn in Hj. destruct j as [|[|j]]; [done | done | lia].
  - by right.
  - by repeat constructor.
  - apply fresh_ready.
  - intros [cv st] (Y0 & Y1 & N & H1 & H2 & H3 & _). exists Y0, Y1, N. split_and!; [exact H1 | exact H2 |].
    eapply Forall_impl; [exact H3|]. intros z [_ Hz]. exact Hz.
Defined.

Lemma key_switch_ext_down_witness :
  returns ('(tables, st) ← @hybrid_tables W64 counting_source 1 10 2 (dparams 2 om0 front4) (dparams 2 om0 [(73, 10)]) (encode 73) fresh;
           '(cv, st) ← @KeySwitchExt W64 counting_source 1 10 tables false (map (dcrt 2 om0 EVALUATION front4) [[600; 3; 4; 5]; [1; 300; 0; 7]]) st;
           @KeySwitchDown W64 no_arb no_arb counting_source 1 10 tables 1 0 [] cv st)
    (fun '(cv, _) => cv = map (dcrt 2 om0 EVALUATION front4) [[0; 0; 0; 0]; [1; 300; 0; 7]]).
Proof.
  eapply returns_mono; [apply (key_switch_ext_down (W := W64) no_arb no_arb counting_source 1 10 2 ltac:(lia) moduli4 moduli4_ok
    om0 om0 om0 front4 [(73, 10)] 2 1 2 false 0 [600; 3; 4; 5] [1; 300; 0; 7] fresh);
    [apply basis4; by vm_compute | done | cbn; lia | done | cbn; lia | done | done | done | apply fresh_ready]|].
  by intros [cv st] [-> _].
Defined.
